(* ===== verification/_CoqProject ===== *)
-Q . S2P
Prelude.v
F64.v
DType.v
Cast.v
ConstVal.v
Ops.v
IntView.v
Eval.v
EvalSpec.v
Payload.v
UOp.v
Semantics.v
Traverse.v
HashCons.v
Rebuild.v
Rewrite.v
CachedProperty.v
Comparison.v
RangeEval.v
RangeSound.v
Properties.v
Tlsf.v
Leveling.v
MemPlan.v
PageTable.v
AmTlsf.v
Gmmu.v
GmmuTree.v
GmmuWalk.v
GmmuMap.v
GmmuVm.v
Builder.v
Shape.v
Constructors.v
ConstructorSpec.v
Exact.v
Helpers.v
DivMod.v
HelperSpec.v
FactorSpec.v
DivModSpec.v
DivModRules.v
DivModSound.v
DivModDemo.v
FastDiv.v
FastDivSpec.v
FastDivDemo.v
Wire.v
WireSpec.v
WireRound.v
SymInt.v
SymIntSpec.v
InferShape.v
ShapeLevels.v
ShapeTable.v
ShapeSpec.v
ShapeStatic.v
ShapeDemo.v
TuplizeKey.v
Linearize.v
LinearizeKeys.v
LinearizeTables.v
LinearizeOrder.v
LinearizeSpec.v
