(* ===== verification/Prelude.v ===== *)
(** * Svod verification library

    Svod is a tensor compiler and runtime: tensor programs become a
    hash-consed graph of [UOp] nodes ([src/ir]) over the dtypes of [src/dtype];
    rewriting passes ([src/schedule]) lower it; [src/tensor] plans memory,
    [src/runtime] orders and runs kernels, and [src/device] drives devices.
    The library translates the core of these parts to Rocq and proves what
    makes them correct.  Rust integers are [Z] with their width in the
    operation, errors and panics are values ([option], sums), mutable state is
    passed explicitly, and loops without a structural measure run on fuel for
    which a theorem gives an amount that suffices.

    ** The files

    Types and constants ([dtype/src], [ir/src/types.rs]):
    - [F64]: Rust's [f64] and [f32], on the Standard Library's [SpecFloat];
    - [DType], [Cast]: dtypes and their queries, the promotion lattice, casts
      and float codecs ([lib.rs], [cast.rs]);
    - [ConstVal], [Ops], [Payload]: constant values, ALU operations and axes,
      payloads of nodes;
    - [IntView]: constants as mathematical integers.

    The graph ([ir/src]):
    - [Eval], [EvalSpec]: the constant folder ([uop/eval.rs]) and its meaning;
    - [UOp]: operations and nodes ([op.rs], [uop/core.rs]); two [Arc]s are equal
      pointers when their nodes carry the same id;
    - [Semantics]: integer values of nodes, the specification of the analyses
      and rewrites;
    - [Traverse], [CachedProperty], [Properties]: traversals, the cache of node
      properties and the properties themselves;
    - [HashCons], [Rebuild], [Rewrite]: the intern table as a state machine
      ([uop/hash_consing.rs]), reconstruction of nodes over it ([uop/core.rs],
      [dtype_rule.rs]), and the rewrite engine ([rewrite/engine.rs]);
    - [Comparison], [RangeEval], [RangeSound]: interval analysis
      ([uop/range_eval.rs], [uop/comparison_analysis.rs]) and its soundness.
    Planning and scheduling:
    - [Tlsf], [MemPlan]: the arena allocator and the memory planner
      ([tensor/src/memory_planner]);
    - [Leveling]: dependency order of operations ([runtime/src/leveling.rs]).

    The AMD driver's memory ([device/src/amd/am/mm]):
    - [PageTable]: entries and geometry ([pagetable.rs]);
    - [AmTlsf]: the driver's allocator ([tlsf.rs]) and the interface
      [RangeAllocator] of what handing out ranges promises;
    - [Gmmu]: the memory manager ([manager.rs], [mod.rs]) over any
      [RangeAllocator]; [GmmuTree], [GmmuWalk], [GmmuMap], [GmmuVm]: its
      invariant (the tables form a tree, all in the pool), the walk, mapping and
      unmapping, and whole histories of allocations.

    ** What the theorems show

    - Types: promotion is the least upper bound of the lattice and independent
      of order; the sweep that builds its table reaches the closure; the FP8
      codecs are inverse to each other; casts called safe keep integers.
    - Folding: results lie in their dtype, ring operations wrap, the four
      divisions are the textbook ones, and folding refines [Semantics].
    - Graph: traversals list every reachable node once, operands first, in
      linear time; the intern table keeps one node per structure whatever the
      interleaving, its result is canonical, and dropping handles frees
      exactly the garbage; rebuilding is a lens on operands; cached properties
      equal their definitions at constant recursion depth.
    - Rewriting: the three-stage machine and the walk compute their recursive
      definitions, and preserve any relation every rule preserves.
    - Ranges: every value lies in the computed interval, so comparisons decided
      from intervals are right.
    - Allocation: the arena allocator refines a trace specification (aligned,
      in bounds, disjoint), fails only when fragmented and merges back to one
      block; memory plans never let live buffers overlap; orders and levels of
      operations are topological, levels minimal, cycles reported.
    - Driver memory: the driver's allocator gives the planner's answers; entries
      round trip; a mapped range translates to its segments and nothing else
      changes; unmapping undoes mapping; over any history of allocations live
      mappings are isolated from each other and from the root table.

    ** Interfaces between the parts

    [LibM] (in [F64]) is the platform's transcendental functions;
    [RangeAllocator] is proved for the driver's allocator and used by the
    manager; the rewrite engine is generic in its matcher and state; hashing
    ([xxh64]) and shape inference are arguments.

    ** Fuel and bounds

    Traversals: twice the number of nodes plus edges ([Traverse]); the rewrite
    engine: the cost of the normal form ([Rewrite]); cached properties: depth
    two; page walks: a step per page and one to stop ([walk_fuel]); gathering
    memory: a round per page and per range ([grab_fuel]).  Each is shown to be
    enough where the loop is proved correct.  Node identities are below [2^64];
    addresses translate below [2^48].

    ** Not modelled

    Shape inference and symbolic sizes; most graph constructors, decompositions
    and pattern macros; the scheduling passes and the kernel optimiser; the
    tensor front end and its realisation; execution plans; code generators;
    queues, registers and foreign calls of the device backends; tile kernels,
    models and importers.  They are either large clients of the modelled core
    or calls into the platform.  Volatile access and raw pointers appear as
    bounds-checked maps; parking, locks and atomics appear as interleaved steps
    in [HashCons] only. *)

From Stdlib Require Export ZArith Lia List Bool String.
From stdpp Require Export base decidable option list.
Export ListNotations.
#[global] Set Default Proof Using "Type".
#[global] Open Scope Z_scope.

(** ** Machine integers

    Every Rust integer is a [Z]; the width appears in the operation, which
    wraps, saturates or checks exactly where the Rust operation does. *)

Definition wrap_u (w z : Z) : Z := z mod 2 ^ w.
Definition wrap_s (w z : Z) : Z := (z + 2 ^ (w - 1)) mod 2 ^ w - 2 ^ (w - 1).

Definition in_u (w z : Z) : Prop := 0 <= z < 2 ^ w.
Definition in_s (w z : Z) : Prop := - 2 ^ (w - 1) <= z < 2 ^ (w - 1).

(** [i128] arithmetic is only ever used through the [checked_*] methods. *)
Definition in_i128b (z : Z) : bool := (- 2 ^ 127 <=? z) && (z <? 2 ^ 127).
Definition checked_i128 (z : Z) : option Z := if in_i128b z then Some z else None.

Definition in_i64b (z : Z) : bool := (- 2 ^ 63 <=? z) && (z <? 2 ^ 63).
Definition in_u64b (z : Z) : bool := (0 <=? z) && (z <? 2 ^ 64).
(** [i64::try_from] and [u64::try_from]. *)
Definition try_i64 (z : Z) : option Z := if in_i64b z then Some z else None.
Definition try_u64 (z : Z) : option Z := if in_u64b z then Some z else None.

Definition clamp (lo hi z : Z) : Z := Z.max lo (Z.min hi z).

(** [usize] bit length, Python's [int.bit_length]. *)
Definition bit_length (n : Z) : Z := if n =? 0 then 0 else Z.log2 n + 1.

(** [isolate_lowest_one] and [is_power_of_two] of the integers. *)
Definition isolate_lowest_one (x : Z) : Z := Z.land x (- x).
Definition is_power_of_two (x : Z) : bool := (0 <? x) && (isolate_lowest_one x =? x).

(** ** Notation: the option monad of Rust's [?] operator *)
Declare Scope svod_scope.
Delimit Scope svod_scope with svod.
Notation "'let?' x ':=' a 'in' b" := (match a with Some x => b | None => None end)
  (at level 10, x pattern, a at level 100, b at level 200) : svod_scope.
(** The same for [Result]: [inl] is [Ok], [inr] is [Err]. *)
Notation "'let!' x ':=' a 'in' b" := (match a with inl x => b | inr e => inr e end)
  (at level 10, x pattern, a at level 100, b at level 200) : svod_scope.
#[global] Open Scope svod_scope.

(** ** Automation *)

(** Case analysis on the boolean tests of executable definitions, turning
    each into an arithmetic fact. *)
Ltac zb :=
  repeat match goal with
  | H : (_ && _)%bool = true |- _ => apply andb_true_iff in H; destruct H
  | H : (_ && _)%bool = false |- _ => apply andb_false_iff in H
  | H : (_ || _)%bool = true |- _ => apply orb_true_iff in H
  | H : (_ || _)%bool = false |- _ => apply orb_false_iff in H; destruct H
  | H : negb _ = true |- _ => apply negb_true_iff in H
  | H : negb _ = false |- _ => apply negb_false_iff in H
  | H : (_ =? _) = true |- _ => apply Z.eqb_eq in H
  | H : (_ =? _) = false |- _ => apply Z.eqb_neq in H
  | H : (_ <=? _) = true |- _ => apply Z.leb_le in H
  | H : (_ <=? _) = false |- _ => apply Z.leb_gt in H
  | H : (_ <? _) = true |- _ => apply Z.ltb_lt in H
  | H : (_ <? _) = false |- _ => apply Z.ltb_ge in H
  | H : (_ >=? _) = true |- _ => rewrite Z.geb_leb in H; apply Z.leb_le in H
  | H : (_ >=? _) = false |- _ => rewrite Z.geb_leb in H; apply Z.leb_gt in H
  | H : (_ >? _) = true |- _ => rewrite Z.gtb_ltb in H; apply Z.ltb_lt in H
  | H : (_ >? _) = false |- _ => rewrite Z.gtb_ltb in H; apply Z.ltb_ge in H
  | H : _ \/ _ |- _ => destruct H
  end.

(** Split on every [if] and [match] scrutinee of a hypothesis or the goal. *)
Ltac split_ifs :=
  repeat match goal with
  | |- context [if ?b then _ else _] => destruct b eqn:?
  | H : context [if ?b then _ else _] |- _ => destruct b eqn:?
  end.

(** Decompose a chain of [let?]: each bound computation becomes an equation. *)
Ltac inv_opt :=
  repeat match goal with
  | H : Some _ = Some _ |- _ => injection H as H; subst
  | H : None = Some _ |- _ => discriminate H
  | H : Some _ = None |- _ => discriminate H
  | H : (match ?e with Some _ => _ | None => None end) = Some _ |- _ =>
      let E := fresh "E" in destruct e eqn:E; [| discriminate H]
  | H : (if ?e then Some _ else None) = Some _ |- _ =>
      let E := fresh "E" in destruct e eqn:E; [| discriminate H]
  end.

Create HintDb machine.
Create Rewrite HintDb wrap.

(** ** Facts about wrap-around *)
Section Wrap.
Context (w : Z) (Hw : 0 < w).

Lemma pow2_pos : 0 < 2 ^ w.
Proof using Hw. apply Z.pow_pos_nonneg; lia. Qed.

Lemma pow2_double : 2 ^ w = 2 * 2 ^ (w - 1).
Proof using Hw.
  replace w with (Z.succ (w - 1)) at 1 by lia. rewrite Z.pow_succ_r; lia.
Qed.

Lemma wrap_u_range z : in_u w (wrap_u w z).
Proof using Hw. apply Z.mod_pos_bound, pow2_pos. Qed.

Lemma wrap_s_range z : in_s w (wrap_s w z).
Proof using Hw.
  unfold in_s, wrap_s. pose proof pow2_double. pose proof pow2_pos.
  pose proof (Z.mod_pos_bound (z + 2 ^ (w - 1)) (2 ^ w)). lia.
Qed.

Lemma wrap_u_small z : in_u w z -> wrap_u w z = z.
Proof using Hw. intros. apply Z.mod_small; assumption. Qed.

Lemma wrap_s_small z : in_s w z -> wrap_s w z = z.
Proof using Hw.
  unfold in_s, wrap_s. intros. pose proof pow2_double.
  rewrite Z.mod_small; lia.
Qed.

(** Wrapping only adds a multiple of [2 ^ w]. *)
Lemma wrap_u_cong z : exists k, wrap_u w z = z + k * 2 ^ w.
Proof using Hw.
  exists (- (z / 2 ^ w)). unfold wrap_u. rewrite Z.mod_eq; [lia |].
  pose proof pow2_pos; lia.
Qed.

Lemma wrap_s_cong z : exists k, wrap_s w z = z + k * 2 ^ w.
Proof using Hw.
  exists (- ((z + 2 ^ (w - 1)) / 2 ^ w)). unfold wrap_s.
  rewrite Z.mod_eq; [lia |]. pose proof pow2_pos; lia.
Qed.

Lemma wrap_u_add z k : wrap_u w (z + k * 2 ^ w) = wrap_u w z.
Proof using Hw. unfold wrap_u. apply Z_mod_plus_full. Qed.

Lemma wrap_s_add z k : wrap_s w (z + k * 2 ^ w) = wrap_s w z.
Proof using Hw.
  unfold wrap_s.
  replace (z + k * 2 ^ w + 2 ^ (w - 1)) with (z + 2 ^ (w - 1) + k * 2 ^ w) by lia.
  now rewrite Z_mod_plus_full.
Qed.
End Wrap.

(** Wrapping to a narrower width forgets an earlier wrap to a wider one. *)
Section NestedWrap.
Context (w1 w2 : Z) (H1 : 0 < w1) (H2 : w1 <= w2).

Lemma pow2_split : 2 ^ w2 = 2 ^ (w2 - w1) * 2 ^ w1.
Proof using H1 H2. rewrite <- Z.pow_add_r by lia. f_equal; lia. Qed.

Lemma wrap_uu z : wrap_u w1 (wrap_u w2 z) = wrap_u w1 z.
Proof using H1 H2.
  destruct (wrap_u_cong w2 ltac:(lia) z) as [k ->].
  rewrite pow2_split, Z.mul_assoc. now apply wrap_u_add.
Qed.

Lemma wrap_us z : wrap_u w1 (wrap_s w2 z) = wrap_u w1 z.
Proof using H1 H2.
  destruct (wrap_s_cong w2 ltac:(lia) z) as [k ->].
  rewrite pow2_split, Z.mul_assoc. now apply wrap_u_add.
Qed.

Lemma wrap_su z : wrap_s w1 (wrap_u w2 z) = wrap_s w1 z.
Proof using H1 H2.
  destruct (wrap_u_cong w2 ltac:(lia) z) as [k ->].
  rewrite pow2_split, Z.mul_assoc. now apply wrap_s_add.
Qed.

Lemma wrap_ss z : wrap_s w1 (wrap_s w2 z) = wrap_s w1 z.
Proof using H1 H2.
  destruct (wrap_s_cong w2 ltac:(lia) z) as [k ->].
  rewrite pow2_split, Z.mul_assoc. now apply wrap_s_add.
Qed.
End NestedWrap.

#[export] Hint Resolve wrap_u_range wrap_s_range : machine.
#[export] Hint Rewrite wrap_uu wrap_us wrap_su wrap_ss using lia : wrap.

(** ** Bit operations *)
Lemma lor_bound a b w : 0 <= w -> in_u w a -> in_u w b -> in_u w (Z.lor a b).
Proof.
  unfold in_u. intros Hw Ha Hb. assert (0 <= Z.lor a b) by (apply Z.lor_nonneg; lia).
  split; [assumption |].
  assert (Z.lor a b / 2 ^ w = 0).
  { rewrite <- Z.shiftr_div_pow2, Z.shiftr_lor, !Z.shiftr_div_pow2 by assumption.
    rewrite !Z.div_small by lia. reflexivity. }
  pose proof (Z.pow_pos_nonneg 2 w ltac:(lia) Hw). apply Z.div_small_iff in H0; lia.
Qed.

(** Machine ranges by bits: a [w]-bit integer repeats one bit from position [w - 1] on. *)
Lemma shiftr_le_iff w z b :
  0 <= w -> (forall n, w <= n -> Z.testbit z n = b) <-> Z.shiftr z w = (if b then -1 else 0).
Proof.
  intros Hw. split.
  - intros H. apply Z.bits_inj_iff'. intros n Hn. rewrite Z.shiftr_spec, H by lia.
    destruct b; [now rewrite Z.bits_m1 | now rewrite Z.bits_0].
  - intros H n Hn. replace n with (n - w + w) by lia.
    rewrite <- Z.shiftr_spec, H by lia. destruct b; [apply Z.bits_m1; lia | apply Z.bits_0].
Qed.

Lemma in_u_bits w z : 0 <= w -> in_u w z <-> (forall n, w <= n -> Z.testbit z n = false).
Proof.
  intros Hw. rewrite (shiftr_le_iff w z false Hw), Z.shiftr_div_pow2 by assumption.
  pose proof (Z.pow_pos_nonneg 2 w ltac:(lia) Hw). rewrite Z.div_small_iff by lia.
  unfold in_u. lia.
Qed.

Lemma in_s_bits w z :
  0 < w -> in_s w z <-> (forall n, w - 1 <= n -> Z.testbit z n = Z.testbit z (w - 1)).
Proof.
  intros Hw. unfold in_s. pose proof (Z.pow_pos_nonneg 2 (w - 1) ltac:(lia) ltac:(lia)) as P.
  split.
  - intros Hz n Hn. destruct (Z.le_gt_cases 0 z).
    + pose proof (proj1 (in_u_bits (w - 1) z ltac:(lia)) ltac:(unfold in_u; lia)) as B.
      now rewrite !B by lia.
    + pose proof (proj1 (in_u_bits (w - 1) (Z.lnot z) ltac:(lia))
                    ltac:(unfold in_u, Z.lnot; lia)) as B.
      pose proof (B n Hn) as B1. pose proof (B (w - 1) ltac:(lia)) as B2.
      rewrite Z.lnot_spec in B1, B2 by lia. apply negb_false_iff in B1, B2. congruence.
  - intros H. destruct (Z.testbit z (w - 1)) eqn:T.
    + assert (in_u (w - 1) (Z.lnot z)) as U; [| unfold in_u, Z.lnot in U; lia].
      apply in_u_bits; [lia |]. intros n Hn. rewrite Z.lnot_spec, H by lia. reflexivity.
    + assert (in_u (w - 1) z) as U; [| unfold in_u in U; lia].
      apply in_u_bits; [lia |]. assumption.
Qed.

Lemma land_bound a m : 0 <= m -> 0 <= Z.land a m <= m.
Proof.
  intros Hm. split; [apply Z.land_nonneg; lia |].
  assert (E : Z.ldiff (Z.land a m) m = 0).
  { apply Z.bits_inj_iff'. intros n Hn. rewrite Z.ldiff_spec, Z.land_spec, Z.bits_0.
    destruct (Z.testbit a n), (Z.testbit m n); reflexivity. }
  apply Z.sub_nocarry_ldiff in E.
  assert (0 <= Z.ldiff m (Z.land a m)) by (apply Z.ldiff_nonneg; lia). lia.
Qed.

Lemma land_1 a : Z.land a 1 = 0 \/ Z.land a 1 = 1.
Proof.
  change (Z.land a 1) with (Z.land a (Z.ones 1)). rewrite Z.land_ones by lia.
  change (2 ^ 1) with 2. pose proof (Z.mod_pos_bound a 2). lia.
Qed.

(** [forallb] over an interval of [Z], for exhaustive checks of byte-sized domains. *)
Fixpoint all_from (P : Z -> bool) (k : nat) (n : Z) : bool :=
  match k with O => true | S k => P n && all_from P k (n + 1) end.

Lemma all_from_spec P k n :
  all_from P k n = true -> forall i, n <= i < n + Z.of_nat k -> P i = true.
Proof.
  revert n; induction k as [| k IH]; intros n H i Hi; [lia |].
  cbn [all_from] in H. apply andb_true_iff in H as [H1 H2].
  destruct (Z.eq_dec i n) as [-> | ?]; [assumption |]. apply (IH (n + 1)); [assumption | lia].
Qed.

(** ** Powers of two *)
Lemma odd_part x : 0 < x -> exists k y, 0 <= k /\ 0 <= y /\ x = 2 ^ k * (2 * y + 1).
Proof.
  intros H0. assert (Hx : 0 <= x) by lia. revert x Hx H0. apply (Zlt_0_ind (fun x => 0 < x -> _)). intros x IH _ Hx.
  pose proof (Z.div_mod x 2 ltac:(lia)). pose proof (Z.mod_pos_bound x 2 ltac:(lia)).
  destruct (Z.eq_dec (x mod 2) 1) as [E | E].
  - exists 0, (x / 2). rewrite Z.pow_0_r. split_and!; lia.
  - destruct (IH (x / 2) ltac:(lia) ltac:(lia)) as (k & y & Hk & Hy & Ex). exists (k + 1), y.
    rewrite Z.pow_add_r by lia. split_and!; lia.
Qed.

(** The lowest set bit is the largest power of two that divides. *)
Lemma isolate_lowest_one_spec k y : 0 <= k -> 0 <= y -> isolate_lowest_one (2 ^ k * (2 * y + 1)) = 2 ^ k.
Proof.
  intros Hk Hy. unfold isolate_lowest_one. assert (Hp : 0 < 2 ^ k) by (apply Z.pow_pos_nonneg; lia).
  set (x := 2 ^ k * (2 * y + 1)). replace (- x) with (Z.lnot (x - 1)) by (unfold Z.lnot; lia). rewrite <- Z.ldiff_land.
  assert (Ex : x = Z.shiftl y (k + 1) + 2 ^ k) by (unfold x; rewrite Z.shiftl_mul_pow2, Z.pow_add_r by lia; lia).
  assert (L : forall r, 0 <= r < 2 ^ (k + 1) -> Z.land (Z.shiftl y (k + 1)) r = 0).
  { intros r Hr. apply Z.bits_inj'. intros i Hi. rewrite Z.land_spec, Z.bits_0, Z.shiftl_spec by exact Hi.
    destruct (Z.lt_ge_cases i (k + 1)); [now rewrite Z.testbit_neg_r by lia |].
    rewrite <- (Z.mod_small r (2 ^ (k + 1))), Z.mod_pow2_bits_high, andb_false_r by lia. reflexivity. }
  assert (H2 : 2 ^ (k + 1) = 2 * 2 ^ k) by (rewrite Z.pow_add_r by lia; lia).
  rewrite Ex. replace (Z.shiftl y (k + 1) + 2 ^ k - 1) with (Z.shiftl y (k + 1) + (2 ^ k - 1)) by lia.
  assert (N : forall r, 0 <= r < 2 ^ (k + 1) -> Z.shiftl y (k + 1) + r = Z.lor (Z.shiftl y (k + 1)) r)
    by (intros r Hr; rewrite Z.add_nocarry_lxor, Z.lxor_lor by (now apply L); reflexivity).
  rewrite !N by lia.
  apply Z.bits_inj'. intros i Hi. rewrite Z.ldiff_spec, !Z.lor_spec, Z.shiftl_spec by exact Hi.
  replace (2 ^ k - 1) with (Z.ones k) by (rewrite Z.ones_equiv; lia). rewrite Z.pow2_bits_eqb by exact Hk.
  destruct (Z.lt_trichotomy i k) as [H | [-> | H]].
  - rewrite (Z.testbit_neg_r y), (proj2 (Z.eqb_neq k i)) by lia. reflexivity.
  - rewrite Z.eqb_refl, Z.ones_spec_high, (Z.testbit_neg_r y) by lia. reflexivity.
  - rewrite (proj2 (Z.eqb_neq k i)), Z.ones_spec_high, !orb_false_r, andb_negb_r by lia. reflexivity.
Qed.

Lemma pow2_divides_odd g k y : 0 <= g -> 0 <= k -> (2 ^ g | 2 ^ k * (2 * y + 1)) <-> g <= k.
Proof.
  intros Hg Hk. split.
  - intros [q Hq]. destruct (Z.le_gt_cases g k) as [| Hlt]; [assumption | exfalso].
    assert (Hp : 0 < 2 ^ k) by (apply Z.pow_pos_nonneg; lia).
    replace g with (k + 1 + (g - k - 1)) in Hq by lia. rewrite !Z.pow_add_r in Hq by lia.
    assert (2 * y + 1 = q * (2 * 2 ^ (g - k - 1))) by (apply (Z.mul_reg_l _ _ (2 ^ k)); lia). lia.
  - intros H. exists (2 ^ (k - g) * (2 * y + 1)). replace k with (k - g + g) at 1 by lia. rewrite Z.pow_add_r by lia. lia.
Qed.

Lemma bit_length_pow2 k : 0 <= k -> bit_length (2 ^ k) = k + 1.
Proof.
  intros Hk. unfold bit_length. rewrite (proj2 (Z.eqb_neq _ 0)), Z.log2_pow2 by (try exact Hk; pose proof (Z.pow_pos_nonneg 2 k); lia).
  reflexivity.
Qed.


(** ** Options *)
Lemma in_i128b_spec z : in_i128b z = true <-> - 2 ^ 127 <= z < 2 ^ 127.
Proof. unfold in_i128b. rewrite andb_true_iff, Z.leb_le, Z.ltb_lt. reflexivity. Qed.

Lemma checked_i128_Some z r : checked_i128 z = Some r -> r = z.
Proof. unfold checked_i128. intros. inv_opt. reflexivity. Qed.

Lemma try_i64_Some z r : try_i64 z = Some r -> r = z /\ in_s 64 z.
Proof.
  unfold try_i64, in_i64b, in_s. intros. inv_opt. zb. split; [reflexivity |]. cbn. lia.
Qed.

Lemma try_u64_Some z r : try_u64 z = Some r -> r = z /\ in_u 64 z.
Proof.
  unfold try_u64, in_u64b, in_u. intros. inv_opt. zb. split; [reflexivity |]. lia.
Qed.

(** [iter().map(f).collect::<Option<Vec<_>>>()]. *)
Fixpoint collect {A B} (f : A -> option B) (l : list A) : option (list B) :=
  match l with
  | [] => Some []
  | a :: l => let? b := f a in let? bs := collect f l in Some (b :: bs)
  end.

Lemma collect_Some {A B} (f : A -> option B) l bs :
  collect f l = Some bs <-> Forall2 (fun a b => f a = Some b) l bs.
Proof.
  split.
  - revert bs; induction l as [| a l IH]; cbn; intros bs H; inv_opt; constructor; auto.
  - induction 1 as [| a b l bs Hab _ IH]; cbn; [reflexivity |]. now rewrite Hab, IH.
Qed.

Lemma collect_map {A B C} (g : A -> B) (f : B -> option C) l :
  collect f (map g l) = collect (fun x => f (g x)) l.
Proof. induction l as [| a l IH]; cbn; [reflexivity |]. now rewrite IH. Qed.

Lemma collect_None {A B} (f : A -> option B) (l : list A) : collect f l = None -> exists x, In x l /\ f x = None.
Proof.
  induction l as [| a l IH]; cbn; [discriminate |]. destruct (f a) eqn:E; [| eauto].
  destruct (collect f l); [discriminate |]. intros _. destruct IH as (x & Hx & Ex); eauto.
Qed.

(** ** Lists without repetition *)
Lemma NoDup_snoc {A} (l : list A) x :
  List.NoDup l -> ~ In x l -> List.NoDup (l ++ [x]).
Proof.
  intros N H. apply List.NoDup_app; [exact N | repeat constructor; auto |].
  intros y Hy [<- | []]. contradiction.
Qed.
