(* ===== verification/F64.v ===== *)
(** * IEEE 754 binary64 and binary32, as Rust's [f64] and [f32]

    [f64] is the standard library's specification type [spec_float] (one NaN,
    signed zeros and infinities) with binary64 precision.  Rust leaves the
    payload and sign of a NaN produced by an operation unspecified; this file
    picks the canonical quiet NaN, the bit pattern of [f64::NAN]. *)

From Stdlib Require Import Floats.SpecFloat.
From S2P Require Import Prelude.

Abbreviation f64 := spec_float.

(** ** Formats *)

(** A binary interchange format: [mw] stored mantissa bits, [ew] exponent bits. *)
Record format := Format { mw : Z; ew : Z }.
Definition binary64 := Format 52 11.
Definition binary32 := Format 23 8.

Definition fprec (f : format) : Z := mw f + 1.
Definition femax (f : format) : Z := 2 ^ (ew f - 1).
Definition femin (f : format) : Z := 3 - femax f - fprec f.

(** [to_bits]: sign, biased exponent and fraction fields of a value of the format. *)
Definition to_bits_fmt (f : format) (x : spec_float) : Z :=
  let sgn (s : bool) := if s then 2 ^ (mw f + ew f) else 0 in
  match x with
  | S754_zero s => sgn s
  | S754_infinity s => sgn s + (2 ^ ew f - 1) * 2 ^ mw f
  | S754_nan => (2 ^ ew f - 1) * 2 ^ mw f + 2 ^ (mw f - 1)
  | S754_finite s m e =>
      if 2 ^ mw f <=? Zpos m
      then sgn s + (e - femin f + 1) * 2 ^ mw f + (Zpos m - 2 ^ mw f)
      else sgn s + Zpos m
  end.

(** [from_bits]. *)
Definition from_bits_fmt (f : format) (b : Z) : spec_float :=
  let s := Z.testbit b (mw f + ew f) in
  let ex := (b / 2 ^ mw f) mod 2 ^ ew f in
  let fr := b mod 2 ^ mw f in
  if ex =? 2 ^ ew f - 1 then
    if fr =? 0 then S754_infinity s else S754_nan
  else if ex =? 0 then
    match fr with
    | Zpos m => S754_finite s m (femin f)
    | _ => S754_zero s
    end
  else
    match fr + 2 ^ mw f with
    | Zpos m => S754_finite s m (femin f + ex - 1)
    | _ => S754_nan
    end.

Definition f64_to_bits : f64 -> Z := to_bits_fmt binary64.
Definition f64_from_bits : Z -> f64 := from_bits_fmt binary64.
Definition f32_to_bits : spec_float -> Z := to_bits_fmt binary32.
Definition f32_from_bits : Z -> spec_float := from_bits_fmt binary32.

(** ** Conversions *)

(** [v as f64] for an integer, round to nearest even. *)
Definition f64_of_Z (z : Z) : f64 := binary_normalize 53 1024 z 0 false.
(** The binary64 value nearest to [m * 2 ^ e]; [2f64.powi(k)] is [f64_ldexp 1 k]. *)
Definition f64_ldexp (m e : Z) : f64 := binary_normalize 53 1024 m e false.

(** [v as f32] and the exact widening back. *)
Definition f64_to_f32 (x : f64) : spec_float :=
  match x with S754_finite s m e => binary_round 24 128 s m e | _ => x end.
Definition f32_to_f64 (x : spec_float) : f64 :=
  match x with S754_finite s m e => binary_round 53 1024 s m e | _ => x end.

(** The integer part of a finite value, rounded toward zero. *)
Definition f64_trunc_Z (x : f64) : Z :=
  match x with
  | S754_finite s m e =>
      cond_Zopp s (if 0 <=? e then Zpos m * 2 ^ e else Zpos m / 2 ^ (- e))
  | _ => 0
  end.

(** [v as iN]: saturating, NaN becomes zero. *)
Definition f64_as_int (lo hi : Z) (x : f64) : Z :=
  match x with
  | S754_nan => 0
  | S754_infinity s => if s then lo else hi
  | _ => clamp lo hi (f64_trunc_Z x)
  end.
Definition f64_as_i (w : Z) : f64 -> Z := f64_as_int (- 2 ^ (w - 1)) (2 ^ (w - 1) - 1).
Definition f64_as_u (w : Z) : f64 -> Z := f64_as_int 0 (2 ^ w - 1).

(** ** Arithmetic *)
Definition f64_neg : f64 -> f64 := SFopp.
Definition f64_abs : f64 -> f64 := SFabs.
Definition f64_add : f64 -> f64 -> f64 := SFadd 53 1024.
Definition f64_sub : f64 -> f64 -> f64 := SFsub 53 1024.
Definition f64_mul : f64 -> f64 -> f64 := SFmul 53 1024.
Definition f64_div : f64 -> f64 -> f64 := SFdiv 53 1024.
Definition f64_sqrt : f64 -> f64 := SFsqrt 53 1024.

Definition f64_zero : f64 := S754_zero false.
Definition f64_one : f64 := f64_of_Z 1.
Definition f64_max_finite : f64 := f64_ldexp (2 ^ 53 - 1) 971.

Definition f64_is_nan (x : f64) : bool := match x with S754_nan => true | _ => false end.
Definition f64_is_finite (x : f64) : bool :=
  match x with S754_nan | S754_infinity _ => false | _ => true end.
Definition f64_is_infinite (x : f64) : bool :=
  match x with S754_infinity _ => true | _ => false end.
(** The canonical NaN has a clear sign bit. *)
Definition f64_is_sign_negative (x : f64) : bool :=
  match x with
  | S754_nan => false
  | S754_zero s | S754_infinity s | S754_finite s _ _ => s
  end.

(** [PartialOrd]: [None] when a NaN is involved. *)
Definition f64_partial_cmp : f64 -> f64 -> option comparison := SFcompare.
Definition f64_eqb : f64 -> f64 -> bool := SFeqb.
Definition f64_ltb : f64 -> f64 -> bool := SFltb.
Definition f64_leb : f64 -> f64 -> bool := SFleb.

(** [f64::max]: a NaN operand yields the other one. *)
Definition f64_max (x y : f64) : f64 :=
  if f64_is_nan x then y else if f64_is_nan y then x
  else if f64_ltb x y then y else x.

(** ** Rounding to an integral value

    [r] maps the magnitude split [m * 2 ^ - k] to the rounded magnitude; the
    sign of the operand is kept, also by a zero result. *)
Definition f64_round_with (r : bool -> Z -> Z -> Z) (x : f64) : f64 :=
  match x with
  | S754_finite s m e =>
      if 0 <=? e then x
      else match r s (Zpos m) (- e) with
           | Zpos p => binary_round 53 1024 s p 0
           | _ => S754_zero s
           end
  | _ => x
  end.
Definition f64_trunc : f64 -> f64 := f64_round_with (fun _ m k => m / 2 ^ k).
Definition f64_floor : f64 -> f64 :=
  f64_round_with (fun s m k => if s then (m + 2 ^ k - 1) / 2 ^ k else m / 2 ^ k).
Definition f64_ceil : f64 -> f64 :=
  f64_round_with (fun s m k => if s then m / 2 ^ k else (m + 2 ^ k - 1) / 2 ^ k).
(** [f64::round]: halves go away from zero. *)
Definition f64_round : f64 -> f64 :=
  f64_round_with (fun _ m k => (2 * m + 2 ^ k) / 2 ^ (k + 1)).

(** ** The platform's mathematical functions

    Rust's [f64] transcendental methods have unspecified precision and [libm::erf]
    is a third-party function: the development is parametric in all of them. *)
Class LibM := {
  f64_exp : f64 -> f64; f64_exp2 : f64 -> f64; f64_ln : f64 -> f64; f64_log2 : f64 -> f64;
  f64_sin : f64 -> f64; f64_cos : f64 -> f64; f64_tan : f64 -> f64;
  f64_powf : f64 -> f64 -> f64; f64_powi : f64 -> Z -> f64;
  libm_erf : f64 -> f64
}.

(** One library, for evaluating concrete inputs; not an instance. *)
Definition demo_libm : LibM :=
  {| f64_exp x := x; f64_exp2 x := x; f64_ln x := x; f64_log2 x := x; f64_sin x := x;
     f64_cos x := x; f64_tan x := x; f64_powf x _ := x; f64_powi x _ := x; libm_erf x := x |}.

(** ** Bit-pattern facts *)

#[export] Instance spec_float_eq_dec : EqDecision f64.
Proof. intros x y; unfold Decision; repeat decide equality. Defined.

(** A value that the format can represent, in its unique normal form. *)
Definition canonical (f : format) (x : spec_float) : Prop :=
  match x with
  | S754_finite _ m e =>
      femin f <= e < femin f + 2 ^ ew f - 2 /\ Zpos m < 2 ^ (mw f + 1)
      /\ (2 ^ mw f <= Zpos m \/ e = femin f)
  | _ => True
  end.

Section Bits.
Context (f : format) (Hm : 0 < mw f) (He : 1 < ew f).

Lemma pow_fields : 2 ^ (mw f + ew f) = 2 ^ ew f * 2 ^ mw f.
Proof using Hm He. rewrite <- Z.pow_add_r by lia. f_equal; lia. Qed.

Lemma pow_ew_pos : 4 <= 2 ^ ew f.
Proof using He. change 4 with (2 ^ 2). apply Z.pow_le_mono_r; lia. Qed.

Lemma pow_mw_half : 2 ^ mw f = 2 * 2 ^ (mw f - 1).
Proof using Hm. rewrite <- Z.pow_succ_r by lia. f_equal; lia. Qed.

(** The three fields of [sign | exponent | fraction] are recovered. *)
Lemma fields_split (s : bool) ex fr :
  0 <= ex < 2 ^ ew f -> 0 <= fr < 2 ^ mw f ->
  let b := (if s then 2 ^ (mw f + ew f) else 0) + ex * 2 ^ mw f + fr in
  Z.testbit b (mw f + ew f) = s /\ (b / 2 ^ mw f) mod 2 ^ ew f = ex /\ b mod 2 ^ mw f = fr.
Proof using Hm He.
  intros Hex Hfr b. pose proof (pow2_pos (mw f) ltac:(lia)) as Pm.
  pose proof pow_ew_pos as Pe. pose proof pow_fields as Pf.
  assert (Hb : b = ((if s then 2 ^ ew f else 0) + ex) * 2 ^ mw f + fr)
    by (unfold b; destruct s; rewrite ?Pf; ring).
  assert (Hq : b / 2 ^ mw f = (if s then 2 ^ ew f else 0) + ex).
  { rewrite Hb, Z.add_comm, Z_div_plus_full by lia. rewrite Z.div_small; lia. }
  split; [| split].
  - assert (Z.b2z (Z.testbit b (mw f + ew f)) = Z.b2z s).
    { rewrite Z.testbit_spec' by lia. rewrite Z.pow_add_r, <- Z.div_div, Hq by lia.
      destruct s; cbn [Z.b2z].
      - replace (2 ^ ew f + ex) with (ex + 1 * 2 ^ ew f) by ring.
        rewrite Z_div_plus_full, Z.div_small by lia. reflexivity.
      - rewrite Z.div_small by lia. reflexivity. }
    destruct (Z.testbit b (mw f + ew f)), s; cbn in *; congruence.
  - rewrite Hq. destruct s.
    + replace (2 ^ ew f + ex) with (ex + 1 * 2 ^ ew f) by ring.
      rewrite Z_mod_plus_full. apply Z.mod_small; lia.
    + apply Z.mod_small; lia.
  - rewrite Hb, Z.add_comm, Z_mod_plus_full. apply Z.mod_small; lia.
Qed.

Lemma canonical_fields s m e :
  canonical f (S754_finite s m e) ->
  exists ex fr, to_bits_fmt f (S754_finite s m e)
                = (if s then 2 ^ (mw f + ew f) else 0) + ex * 2 ^ mw f + fr
    /\ 0 <= ex < 2 ^ ew f - 1 /\ 0 <= fr < 2 ^ mw f
    /\ ((ex = 0 /\ fr = Zpos m /\ e = femin f)
        \/ (0 < ex /\ fr + 2 ^ mw f = Zpos m /\ e = femin f + ex - 1)).
Proof using Hm He.
  cbn. intros (Hee & Hmm & Hn). pose proof (pow2_pos (mw f) ltac:(lia)).
  pose proof pow_ew_pos. pose proof (pow2_double (mw f + 1) ltac:(lia)) as D.
  replace (mw f + 1 - 1) with (mw f) in D by lia.
  destruct (Z.leb_spec (2 ^ mw f) (Zpos m)).
  - exists (e - femin f + 1), (Zpos m - 2 ^ mw f). lia.
  - exists 0, (Zpos m). lia.
Qed.

(** Reading back the bits of a canonical value yields the value. *)
Lemma from_to_bits x : canonical f x -> from_bits_fmt f (to_bits_fmt f x) = x.
Proof using Hm He.
  pose proof (pow2_pos (mw f) ltac:(lia)) as Pm. pose proof pow_ew_pos as Pe.
  pose proof pow_mw_half as Ph. pose proof (Z.pow_nonneg 2 (mw f - 1)) as Pq.
  intros Hc. unfold from_bits_fmt.
  destruct x as [s | s | | s m e].
  - destruct (fields_split s 0 0 ltac:(lia) ltac:(lia)) as (B & E & F).
    replace (_ + 0 * 2 ^ mw f + 0) with (to_bits_fmt f (S754_zero s)) in B, E, F by (cbn; lia).
    rewrite B, E, F. destruct (Z.eqb_spec 0 (2 ^ ew f - 1)); [lia | reflexivity].
  - destruct (fields_split s (2 ^ ew f - 1) 0 ltac:(lia) ltac:(lia)) as (B & E & F).
    rewrite Z.add_0_r in B, E, F. cbn [to_bits_fmt]. rewrite B, E, F.
    now rewrite Z.eqb_refl.
  - destruct (fields_split false (2 ^ ew f - 1) (2 ^ (mw f - 1)) ltac:(lia) ltac:(lia))
      as (B & E & F).
    rewrite Z.add_0_l in B, E, F. cbn [to_bits_fmt]. rewrite E, F, Z.eqb_refl.
    destruct (Z.eqb_spec (2 ^ (mw f - 1)) 0); [lia | reflexivity].
  - destruct (canonical_fields s m e Hc) as (ex & fr & -> & Hex & Hfr & Hcase).
    destruct (fields_split s ex fr ltac:(lia) ltac:(lia)) as (B & E & F).
    rewrite B, E, F. destruct (Z.eqb_spec ex (2 ^ ew f - 1)); [lia |].
    destruct (Z.eqb_spec ex 0), Hcase as [(? & Hf & ->) | (? & Hf & ->)];
      rewrite ?Hf; reflexivity || lia.
Qed.
End Bits.

(** Bit equality of canonical values is equality. *)
Lemma f64_bits_inj x y :
  canonical binary64 x -> canonical binary64 y -> f64_to_bits x = f64_to_bits y -> x = y.
Proof.
  intros Hx Hy E. rewrite <- (from_to_bits binary64 ltac:(cbn; lia) ltac:(cbn; lia) x Hx).
  unfold f64_to_bits in E. rewrite E. apply from_to_bits; cbn; assumption || lia.
Qed.

Example f64_one_bits : f64_to_bits f64_one = 0x3ff0000000000000.
Proof. reflexivity. Qed.
Example f64_tenth : f64_to_bits (f64_div f64_one (f64_of_Z 10)) = 0x3fb999999999999a.
Proof. reflexivity. Qed.
Example f64_round_half : f64_round (f64_ldexp (-5) (-1)) = f64_of_Z (-3).
Proof. reflexivity. Qed.
