(* ===== verification/DType.v ===== *)
(** * The type system: scalar, vector, pointer and image dtypes ([dtype/src/lib.rs])

    [usize] and [u32] quantities are [Z].  Floating-point limits are [f64]
    values of [F64]. *)

From stdpp Require Import pretty.
From S2P Require Import Prelude F64.

(** ** Devices *)
Inductive DeviceSpec :=
| Cpu
| Cuda (device_id : Z)
| Amd (device_id : Z)
| Metal (device_id : Z)
| WebGpu
| Disk (path : string).

(** [format!("{}")] of a [usize]. *)
Definition show_usize (n : Z) : string := pretty (Z.to_N n).

Definition canonicalize (d : DeviceSpec) : string :=
  match d with
  | Cpu => "CPU"
  | Cuda i => "CUDA:" +:+ show_usize i
  | Amd i => "AMD:" +:+ show_usize i
  | Metal i => "Metal:" +:+ show_usize i
  | WebGpu => "WebGPU"
  | Disk path => "DISK:" +:+ path
  end.

Definition max_buffers (d : DeviceSpec) : option Z :=
  match d with
  | Cpu | Disk _ => None
  | Cuda _ => Some 128
  | Amd _ => Some 128
  | Metal _ => Some 31
  | WebGpu => Some 8
  end.

Definition base_type (d : DeviceSpec) : string :=
  match d with
  | Cpu => "CPU"
  | Cuda _ => "CUDA"
  | Amd _ => "AMD"
  | Metal _ => "METAL"
  | WebGpu => "WEBGPU"
  | Disk _ => "DISK"
  end.

Definition is_disk (d : DeviceSpec) : bool := match d with Disk _ => true | _ => false end.

Inductive AddrSpace := Global | Local | Reg.
Inductive ImageKind := Half | Float.

(** ** Scalar dtypes, in declaration order *)
Inductive ScalarDType :=
| Bool | WeakInt
| Int8 | UInt8 | Int16 | UInt16 | Int32 | UInt32 | Int64 | UInt64
| WeakFloat
| FP8E4M3 | FP8E4M3FNUZ | FP8E5M2 | FP8E5M2FNUZ
| Float16 | BFloat16 | Float32 | Float64
| Void | Index.

(** [dtype as usize]: the declared discriminants, which are not in declaration
    order for the FNUZ formats. *)
Definition discriminant (s : ScalarDType) : Z :=
  match s with
  | Bool => 0 | WeakInt => 1
  | Int8 => 2 | UInt8 => 3 | Int16 => 4 | UInt16 => 5
  | Int32 => 6 | UInt32 => 7 | Int64 => 8 | UInt64 => 9
  | WeakFloat => 10
  | FP8E4M3 => 11 | FP8E4M3FNUZ => 19 | FP8E5M2 => 12 | FP8E5M2FNUZ => 20
  | Float16 => 13 | BFloat16 => 14 | Float32 => 15 | Float64 => 16
  | Void => 17 | Index => 18
  end.

(** [ScalarDType::VARIANTS] and [ScalarDType::COUNT]. *)
Definition VARIANTS : list ScalarDType :=
  [Bool; WeakInt; Int8; UInt8; Int16; UInt16; Int32; UInt32; Int64; UInt64; WeakFloat;
   FP8E4M3; FP8E4M3FNUZ; FP8E5M2; FP8E5M2FNUZ; Float16; BFloat16; Float32; Float64;
   Void; Index].
Definition COUNT : Z := 21.

Inductive DType :=
| Scalar (s : ScalarDType)
| Vector (scalar : ScalarDType) (count : Z)
| Ptr (base : DType) (addrspace : AddrSpace) (size : option Z) (vcount : Z)
| Image (kind : ImageKind) (shape : list Z).

#[export] Instance DeviceSpec_eq_dec : EqDecision DeviceSpec.
Proof. solve_decision. Defined.
#[export] Instance AddrSpace_eq_dec : EqDecision AddrSpace.
Proof. solve_decision. Defined.
#[export] Instance ImageKind_eq_dec : EqDecision ImageKind.
Proof. solve_decision. Defined.
#[export] Instance ScalarDType_eq_dec : EqDecision ScalarDType.
Proof. solve_decision. Defined.
#[export] Instance DType_eq_dec : EqDecision DType.
Proof.
  intros x; induction x as [s | s n | b IH a sz v | k sh]; intros [s' | s' n' | b' a' sz' v' | k' sh'];
    try (right; congruence).
  - destruct (decide (s = s')); [left | right]; congruence.
  - destruct (decide ((s, n) = (s', n'))); [left | right]; congruence.
  - destruct (IH b'); [| right; congruence].
    destruct (decide ((a, sz, v) = (a', sz', v'))); [left | right]; congruence.
  - destruct (decide ((k, sh) = (k', sh'))); [left | right]; congruence.
Defined.

(** ** Scalar properties *)
Module ScalarDType.
Definition bytes (s : ScalarDType) : Z :=
  match s with
  | Bool => 1
  | WeakInt | WeakFloat => 100
  | Int8 => 1 | Int16 => 2 | Int32 => 4 | Int64 => 8
  | UInt8 => 1 | UInt16 => 2 | UInt32 => 4 | UInt64 => 8
  | FP8E4M3 | FP8E4M3FNUZ | FP8E5M2 | FP8E5M2FNUZ => 1
  | Float16 => 2 | BFloat16 => 2 | Float32 => 4 | Float64 => 8
  | Void => 0
  | Index => 8
  end.

Definition is_bool (s : ScalarDType) : bool := match s with Bool => true | _ => false end.

Definition is_signed (s : ScalarDType) : bool :=
  match s with Int8 | Int16 | Int32 | Int64 => true | _ => false end.

Definition is_unsigned (s : ScalarDType) : bool :=
  match s with UInt8 | UInt16 | UInt32 | UInt64 => true | _ => false end.

Definition is_int (s : ScalarDType) : bool :=
  is_signed s || is_unsigned s || match s with WeakInt | Index => true | _ => false end.

Definition is_float (s : ScalarDType) : bool :=
  match s with
  | WeakFloat | FP8E4M3 | FP8E4M3FNUZ | FP8E5M2 | FP8E5M2FNUZ
  | Float16 | BFloat16 | Float32 | Float64 => true
  | _ => false
  end.

Definition is_fp8 (s : ScalarDType) : bool :=
  match s with FP8E4M3 | FP8E4M3FNUZ | FP8E5M2 | FP8E5M2FNUZ => true | _ => false end.

Definition is_narrow_float (s : ScalarDType) : bool :=
  is_fp8 s || match s with Float16 | BFloat16 => true | _ => false end.

Definition is_fp8_fnuz (s : ScalarDType) : bool :=
  match s with FP8E4M3FNUZ | FP8E5M2FNUZ => true | _ => false end.

Definition is_weak (s : ScalarDType) : bool :=
  match s with WeakInt | WeakFloat => true | _ => false end.

(** [f32::MAX as f64] and the other finite extrema; [3.3895313892515355e38]
    is [255 * 2^120]. *)
Definition f32_max : f64 := f64_ldexp (2 ^ 24 - 1) 104.
Definition bf16_max : f64 := f64_ldexp 255 120.

Definition min_value (s : ScalarDType) : f64 :=
  match s with
  | Bool => f64_zero
  | WeakInt => f64_of_Z (- 2 ^ 63)
  | WeakFloat => f64_neg f64_max_finite
  | Int8 => f64_of_Z (- 2 ^ 7)
  | Int16 => f64_of_Z (- 2 ^ 15)
  | Int32 => f64_of_Z (- 2 ^ 31)
  | Int64 => f64_of_Z (- 2 ^ 63)
  | UInt8 | UInt16 | UInt32 | UInt64 => f64_zero
  | Float16 => f64_of_Z (-65504)
  | BFloat16 => f64_neg bf16_max
  | Float32 => f64_neg f32_max
  | Float64 => f64_neg f64_max_finite
  | FP8E4M3 => f64_of_Z (-448)
  | FP8E4M3FNUZ => f64_of_Z (-240)
  | FP8E5M2 => f64_of_Z (-57344)
  | FP8E5M2FNUZ => f64_of_Z (-57344)
  | Void | Index => f64_zero
  end.

Definition max_value (s : ScalarDType) : f64 :=
  match s with
  | Bool => f64_one
  | WeakInt => f64_of_Z (2 ^ 63 - 1)
  | WeakFloat => f64_max_finite
  | Int8 => f64_of_Z (2 ^ 7 - 1)
  | Int16 => f64_of_Z (2 ^ 15 - 1)
  | Int32 => f64_of_Z (2 ^ 31 - 1)
  | Int64 => f64_of_Z (2 ^ 63 - 1)
  | UInt8 => f64_of_Z (2 ^ 8 - 1)
  | UInt16 => f64_of_Z (2 ^ 16 - 1)
  | UInt32 => f64_of_Z (2 ^ 32 - 1)
  | UInt64 => f64_of_Z (2 ^ 64 - 1)
  | Float16 => f64_of_Z 65504
  | BFloat16 => bf16_max
  | Float32 => f32_max
  | Float64 => f64_max_finite
  | FP8E4M3 => f64_of_Z 448
  | FP8E4M3FNUZ => f64_of_Z 240
  | FP8E5M2 => f64_of_Z 57344
  | FP8E5M2FNUZ => f64_of_Z 57344
  | Void | Index => f64_zero
  end.

Definition analysis_bounds (s : ScalarDType) : f64 * f64 :=
  if is_float s then (SpecFloat.S754_infinity true, SpecFloat.S754_infinity false)
  else (min_value s, max_value s).

Definition c_style (s : ScalarDType) : string :=
  match s with
  | Bool => "bool"
  | WeakInt => "weakint"
  | WeakFloat => "weakfloat"
  | Int8 => "signed char"
  | Int16 => "short"
  | Int32 => "int"
  | Int64 => "long"
  | UInt8 => "unsigned char"
  | UInt16 => "unsigned short"
  | UInt32 => "unsigned int"
  | UInt64 => "unsigned long"
  | FP8E4M3 => "float8_e4m3"
  | FP8E4M3FNUZ => "float8_e4m3fnuz"
  | FP8E5M2 => "float8_e5m2"
  | FP8E5M2FNUZ => "float8_e5m2fnuz"
  | Float16 => "half"
  | Float32 => "float"
  | Float64 => "double"
  | BFloat16 => "__bf16"
  | Void => "void"
  | Index => "size_t"
  end.

Definition finfo (s : ScalarDType) : option (Z * Z) :=
  match s with
  | FP8E4M3 => Some (4, 3)
  | FP8E4M3FNUZ => Some (4, 3)
  | FP8E5M2 => Some (5, 2)
  | FP8E5M2FNUZ => Some (5, 2)
  | Float16 => Some (5, 10)
  | BFloat16 => Some (8, 7)
  | Float32 => Some (8, 23)
  | Float64 => Some (11, 52)
  | _ => None
  end.

Definition exponent_bias (s : ScalarDType) : option Z :=
  match finfo s with
  | Some (e, _) => Some (Z.shiftl 1 (e - 1) - 1)
  | None => None
  end.

Definition float_to_uint (s : ScalarDType) : option ScalarDType :=
  match s with
  | FP8E4M3 | FP8E4M3FNUZ | FP8E5M2 | FP8E5M2FNUZ => Some UInt8
  | Float16 | BFloat16 => Some UInt16
  | Float32 => Some UInt32
  | Float64 => Some UInt64
  | _ => None
  end.

Definition bitsize (s : ScalarDType) : Z := bytes s * 8.

Definition vec (s : ScalarDType) (count : Z) : DType := Vector s count.
End ScalarDType.

(** ** Operations on dtypes *)
Module DType.
(** The number of lanes of a vector; [1] otherwise. *)
Definition count (d : DType) : Z := match d with Vector _ n => n | _ => 1 end.

Definition vcount (d : DType) : Z :=
  match d with Vector _ n => n | Ptr _ _ _ v => v | _ => 1 end.

Definition vec (d : DType) (count : Z) : option DType :=
  if count =? 1 then Some d
  else match d with
       | Scalar s =>
           match s with
           | Void => Some d
           | _ => Some (Vector s count)
           end
       | Vector _ _ => None
       | Ptr base addrspace size vcount =>
           if vcount =? 1 then Some (Ptr base addrspace size count)
           else if vcount =? count then Some d
           else None
       | Image _ _ => Some d
       end.

Definition ptr (d : DType) (size : option Z) (addrspace : AddrSpace) : option DType :=
  match d with
  | Ptr _ _ _ _ => None
  | _ => Some (Ptr d addrspace size 1)
  end.

Definition scalar (d : DType) : option ScalarDType :=
  match d with Scalar s => Some s | _ => None end.

Definition is_vector (d : DType) : bool := match d with Vector _ _ => true | _ => false end.
Definition is_image (d : DType) : bool := match d with Image _ _ => true | _ => false end.

Fixpoint base (d : DType) : ScalarDType :=
  match d with
  | Scalar s => s
  | Vector s _ => s
  | Ptr b _ _ _ => base b
  | Image _ _ => Float32
  end.

Definition scalar_dtype (d : DType) : DType := Scalar (base d).

(** The [expect] of the source is the [None] of [vec] on a fresh scalar. *)
Definition with_base (d : DType) (new_base : ScalarDType) : option DType :=
  let count := vcount d in
  if count >? 1 then vec (Scalar new_base) count else Some (Scalar new_base).

Definition with_ptr_base (d : DType) (new_base : DType) : option DType :=
  match d with
  | Ptr _ addrspace size vcount => Some (Ptr new_base addrspace size vcount)
  | _ => None
  end.

Definition bytes (d : DType) : Z :=
  match d with
  | Scalar s => ScalarDType.bytes s
  | Vector s count => ScalarDType.bytes s * count
  | Ptr _ _ _ _ => 8
  | Image _ _ => 8
  end.

Definition is_bool (d : DType) : bool := bool_decide (base d = Bool).
Definition is_signed (d : DType) : bool := ScalarDType.is_signed (base d).
Definition is_unsigned (d : DType) : bool := ScalarDType.is_unsigned (base d).

(** The tests that look at scalars and vectors only, not through pointers. *)
Definition is_int (d : DType) : bool :=
  match d with Scalar s | Vector s _ => ScalarDType.is_int s | _ => false end.
Definition is_float (d : DType) : bool :=
  match d with Scalar s | Vector s _ => ScalarDType.is_float s | _ => false end.
Definition is_fp8 (d : DType) : bool := ScalarDType.is_fp8 (base d).
Definition is_narrow_float (d : DType) : bool :=
  match d with Scalar s | Vector s _ => ScalarDType.is_narrow_float s | _ => false end.

Definition math_dtype (d : DType) : option DType :=
  if is_narrow_float d then with_base d Float32 else Some d.

Definition is_weak (d : DType) : bool := ScalarDType.is_weak (base d).
Definition min_value (d : DType) : f64 := ScalarDType.min_value (base d).
Definition max_value (d : DType) : f64 := ScalarDType.max_value (base d).
Definition analysis_bounds (d : DType) : f64 * f64 := ScalarDType.analysis_bounds (base d).

Fixpoint c_style (d : DType) : string :=
  match d with
  | Scalar s => ScalarDType.c_style s
  | Vector s count => ScalarDType.c_style s +:+ "[" +:+ show_usize count +:+ "]"
  | Ptr b addrspace _ _ =>
      let addr_str := match addrspace with
                      | Global => "__global"
                      | Local => "__local"
                      | Reg => "__register"
                      end%string in
      addr_str +:+ " " +:+ c_style b +:+ "*"
  | Image kind _ =>
      match kind with
      | Half => "image2d_t"
      | Float => "image2d_t"
      end
  end.
End DType.

Definition DEFAULT_INT : DType := Scalar Int32.
Definition DEFAULT_FLOAT : DType := Scalar Float32.

(** ** Facts *)

(** Enumerating every scalar dtype turns a boolean test over all of them into
    a universally quantified statement. *)
Lemma VARIANTS_complete s : In s VARIANTS.
Proof. destruct s; cbn; tauto. Qed.

Lemma forall_scalar (P : ScalarDType -> bool) :
  forallb P VARIANTS = true -> forall s, P s = true.
Proof. rewrite forallb_forall. auto using VARIANTS_complete. Qed.

Lemma discriminant_range s : 0 <= discriminant s < COUNT.
Proof. unfold COUNT. destruct s; cbn; lia. Qed.

Lemma discriminant_inj s t : discriminant s = discriminant t -> s = t.
Proof. destruct s, t; cbn; congruence. Qed.

(** A scalar dtype is exactly one of: boolean, integer, float or void. *)
Lemma scalar_kinds s :
  match ScalarDType.is_bool s, ScalarDType.is_int s, ScalarDType.is_float s with
  | true, false, false | false, true, false | false, false, true => s <> Void
  | false, false, false => s = Void
  | _, _, _ => False
  end.
Proof. destruct s; cbn; congruence. Qed.

Lemma with_base_Some d s : s <> Void -> is_Some (DType.with_base d s).
Proof.
  unfold DType.with_base, DType.vec. intros. split_ifs; eauto. destruct s; eauto.
Qed.

(** Vectorising keeps the scalar base, whatever the receiver. *)
Lemma vec_base d n d' : DType.vec d n = Some d' -> DType.base d' = DType.base d.
Proof.
  unfold DType.vec. destruct (n =? 1); [congruence |].
  destruct d as [s | | b a sz v |]; try congruence.
  - destruct s; intros [= <-]; reflexivity.
  - destruct (v =? 1); [intros [= <-]; reflexivity |].
    destruct (v =? n); congruence.
Qed.
