(* ===== verification/Cast.v ===== *)
(** * Casts: float commitment, storage codecs and dtype promotion ([dtype/src/cast.rs])

    [commit_float] rounds an [f64] onto the grid of a float dtype; the FP8 and
    binary16 codecs convert between [f64] and storage bits, working on the bit
    patterns exactly as the source does.  The promotion lattice is the
    Tinygrad dtype lattice; sets of dtypes are the [u32] bitmasks of [EnumSet]. *)

From Stdlib Require Import Floats.SpecFloat.
From stdpp Require Import relations.
From S2P Require Import Prelude F64 DType.

(** ** FP8 storage *)

Definition float_to_fp8 (value : f64) (dtype : ScalarDType) : option Z :=
  let value := if f64_is_nan value then S754_nan else value in
  let fnuz := match dtype with FP8E4M3FNUZ | FP8E5M2FNUZ => true | _ => false end in
  if fnuz && negb (f64_is_finite value) then Some 0x80
  else if fnuz && f64_eqb value f64_zero then Some 0x00
  else if bool_decide (dtype = FP8E4M3) && negb (f64_is_finite value) then
    Some (if negb (f64_is_sign_negative value) then 0x7f else 0xff)
  else if bool_decide (dtype = FP8E5M2) && negb (f64_is_finite value) then
    let sign := if negb (f64_is_sign_negative value) then 0 else 0x80 in
    Some (Z.lor sign (if f64_is_infinite value then 0x7c else 0x7f))
  else
    let? (bias, sig_bits, mant_mask, min_denorm_half, ovf_threshold, max_norm, min_norm) :=
      match dtype with
      | FP8E4M3 =>
          Some (7, 4, 0x7, 0x3f50000000000000, 0x407d000000000000, 0x7e, 0x3f90000000000000)
      | FP8E5M2 =>
          Some (15, 3, 0x3, 0x3ee0000000000000, 0x40ee000000000000 - 1, 0x7b, 0x3f10000000000000)
      | FP8E4M3FNUZ =>
          Some (8, 4, 0x7, 0x3f40000000000000, 0x406f000000000000 - 1, 0x7f, 0x3f80000000000000)
      | FP8E5M2FNUZ =>
          Some (16, 3, 0x3, 0x3ed0000000000000, 0x40ee000000000000 - 1, 0x7f, 0x3f00000000000000)
      | _ => None
      end in
    let bits := f64_to_bits value in
    let half_ulp := Z.shiftl 1 (52 - sig_bits) in
    let sign := Z.shiftl (Z.land (Z.shiftr bits 63) 1) 7 in
    let exp := Z.land (Z.shiftr bits 52) 0x7ff - 1023 + bias in
    let mantissa := Z.land (Z.shiftr bits (53 - sig_bits)) mant_mask in
    let abs := Z.land bits 0x7fffffffffffffff in
    let result :=
      if abs <=? min_denorm_half then 0
      else if abs >? ovf_threshold then max_norm
      else if abs >=? min_norm then
        let result := Z.lor (Z.shiftl exp (sig_bits - 1)) mantissa in
        let round_bits := Z.land bits (Z.shiftl half_ulp 1 - 1) in
        if (round_bits >? half_ulp)
           || ((round_bits =? half_ulp) && negb (Z.land mantissa 1 =? 0))
        then result + 1 else result
      else
        let shift := 1 - exp in
        let mantissa := Z.lor mantissa (Z.shiftl 1 (sig_bits - 1)) in
        let result := Z.shiftr mantissa shift in
        let half := Z.shiftl half_ulp shift in
        let round_bits := Z.land (Z.lor bits (Z.shiftl 1 52)) (Z.shiftl half 1 - 1) in
        if (round_bits >? half) || ((round_bits =? half) && negb (Z.land result 1 =? 0))
        then result + 1 else result in
    if fnuz && (result =? 0) then Some 0 else Some (Z.lor (wrap_u 8 result) sign).

Definition fp8_to_float (value : Z) (dtype : ScalarDType) : option f64 :=
  let? (bias, sig_bits, fnuz) :=
    match dtype with
    | FP8E4M3 => Some (7, 4, false)
    | FP8E5M2 => Some (15, 3, false)
    | FP8E4M3FNUZ => Some (8, 4, true)
    | FP8E5M2FNUZ => Some (16, 3, true)
    | _ => None
    end in
  if fnuz && (value =? 0x80) then Some S754_nan
  else if Z.land value 0x7f =? 0 then
    Some (if negb (Z.land value 0x80 =? 0) then f64_neg f64_zero else f64_zero)
  else
    let mant_bits := sig_bits - 1 in
    let exp_bits := 8 - sig_bits in
    let exp_max := Z.shiftl 1 exp_bits - 1 in
    let mant_max := Z.shiftl 1 mant_bits - 1 in
    let sign := Z.shiftr value 7 in
    let exp := Z.land (Z.shiftr value mant_bits) exp_max in
    let mantissa := Z.land value mant_max in
    let signed (x : f64) := if negb (sign =? 0) then f64_neg x else x in
    let finite (_ : unit) :=
      let frac := f64_div (f64_of_Z mantissa) (f64_add (f64_of_Z mant_max) f64_one) in
      signed (if exp =? 0
              then f64_mul frac (f64_ldexp 1 (1 - bias))
              else f64_mul (f64_add f64_one frac) (f64_ldexp 1 (exp - bias))) in
    if negb fnuz && (exp =? exp_max) then
      if bool_decide (dtype = FP8E5M2) then
        Some (signed (if mantissa =? 0 then S754_infinity false else S754_nan))
      else if mantissa =? mant_max then Some S754_nan
      else Some (finite tt)
    else Some (finite tt).

(** ** binary16 storage *)

Definition round_shift (value shift : Z) : Z :=
  if shift >=? 64 then 0
  else
    let quotient := Z.shiftr value shift in
    let remainder := Z.land value (Z.shiftl 1 shift - 1) in
    let half := Z.shiftl 1 (shift - 1) in
    quotient + Z.b2z ((remainder >? half)
                      || ((remainder =? half) && negb (Z.land quotient 1 =? 0))).

Definition float_to_f16_bits (value : f64) : Z :=
  let bits := f64_to_bits value in
  let sign := Z.land (Z.shiftr bits 48) 0x8000 in
  let raw_exp := Z.land (Z.shiftr bits 52) 0x7ff in
  let fraction := Z.land bits 0x000fffffffffffff in
  if raw_exp =? 0x7ff then Z.lor sign (if fraction =? 0 then 0x7c00 else 0x7e00)
  else if (raw_exp =? 0) && (fraction =? 0) then sign
  else
    let exponent := raw_exp - 1023 in
    let significand := if raw_exp =? 0 then fraction else Z.lor fraction (Z.shiftl 1 52) in
    if (exponent >? 15)
       || ((exponent =? 15)
           && (significand >=? Z.lor (Z.lor (Z.shiftl 1 52) (Z.shiftl 0x3ff 42)) (Z.shiftl 1 41)))
    then Z.lor sign 0x7c00
    else if exponent >=? -14 then
      let rounded := round_shift significand 42 in
      if rounded =? 0x800 then Z.lor sign (Z.shiftl (exponent + 16) 10)
      else Z.lor (Z.lor sign (Z.shiftl (exponent + 15) 10)) (Z.land (wrap_u 16 rounded) 0x03ff)
    else if exponent <? -25 then sign
    else Z.lor sign (wrap_u 16 (round_shift significand (28 - exponent))).

Definition f16_bits_to_float (bits : Z) : f64 :=
  let sign := negb (Z.land bits 0x8000 =? 0) in
  let exponent := Z.land (Z.shiftr bits 10) 0x1f in
  let mantissa := Z.land bits 0x03ff in
  let value :=
    if exponent =? 0x1f then (if mantissa =? 0 then S754_infinity false else S754_nan)
    else if exponent =? 0 then f64_mul (f64_of_Z mantissa) (f64_ldexp 1 (-24))
    else f64_mul (f64_add f64_one (f64_div (f64_of_Z mantissa) (f64_of_Z 1024)))
                 (f64_ldexp 1 (exponent - 15)) in
  if sign then f64_neg value else value.

(** ** Commitment to a dtype's grid *)

Definition commit_float (value : f64) (dtype : ScalarDType) : option f64 :=
  let value := if f64_is_nan value then S754_nan else value in
  match dtype with
  | WeakFloat | Float64 => Some value
  | Float32 => Some (f32_to_f64 (f64_to_f32 value))
  | Float16 => Some (f16_bits_to_float (float_to_f16_bits value))
  | BFloat16 =>
      if negb (f64_is_finite value) then Some value
      else
        let bits := f32_to_bits (f64_to_f32 value) in
        Some (f32_to_f64 (f32_from_bits
          (Z.land (wrap_u 32 (bits + (0x7fff + Z.land (Z.shiftr bits 16) 1))) 0xffff0000)))
  | FP8E4M3 | FP8E5M2 | FP8E4M3FNUZ | FP8E5M2FNUZ =>
      let? b := float_to_fp8 value dtype in fp8_to_float b dtype
  | _ => None
  end.

Definition committed_float_bits (value : f64) (dtype : ScalarDType) : option Z :=
  match dtype with
  | Float16 => Some (float_to_f16_bits value)
  | BFloat16 => Some (Z.shiftr (f32_to_bits (f64_to_f32 value)) 16)
  | Float32 => Some (f32_to_bits (f64_to_f32 value))
  | WeakFloat | Float64 => Some (f64_to_bits value)
  | FP8E4M3 | FP8E5M2 | FP8E4M3FNUZ | FP8E5M2FNUZ => float_to_fp8 value dtype
  | _ => None
  end.

(** ** Sets of scalar dtypes: [EnumSet<ScalarDType>] with a [u32] representation *)
Module EnumSet.
Definition empty : Z := 0.
Definition only (s : ScalarDType) : Z := Z.shiftl 1 (discriminant s).
Definition union (a b : Z) : Z := Z.lor a b.
Definition intersection (a b : Z) : Z := Z.land a b.
Definition contains (a : Z) (s : ScalarDType) : bool := Z.testbit a (discriminant s).
(** Members of a set; the only consumer takes a minimum by an injective rank,
    so the order does not matter. *)
Definition iter (a : Z) : list ScalarDType := List.filter (contains a) VARIANTS.
End EnumSet.

(** ** Promotion *)

Definition promotion_rank (s : ScalarDType) : Z :=
  match s with
  | Bool => 0 | WeakInt => 1
  | Int8 => 2 | UInt8 => 3 | Int16 => 4 | UInt16 => 5
  | Int32 => 6 | UInt32 => 7 | Int64 => 8 | UInt64 => 9
  | WeakFloat => 10
  | FP8E4M3 => 11 | FP8E4M3FNUZ => 12 | FP8E5M2 => 13 | FP8E5M2FNUZ => 14
  | Float16 => 15 | BFloat16 => 16 | Float32 => 17 | Float64 => 18
  | Void => 19 | Index => 20
  end.

Definition promotion_lattice (s : ScalarDType) : list ScalarDType :=
  match s with
  | Bool => [WeakInt]
  | WeakInt => [Int8; UInt8]
  | Int8 => [Int16]
  | Int16 => [Int32]
  | Int32 => [Int64]
  | Int64 => [WeakFloat]
  | UInt8 => [Int16; UInt16]
  | UInt16 => [Int32; UInt32]
  | UInt32 => [Int64; UInt64]
  | UInt64 => [WeakFloat]
  | WeakFloat => [FP8E4M3; FP8E4M3FNUZ; FP8E5M2; FP8E5M2FNUZ]
  | FP8E5M2 => [Float16; BFloat16]
  | FP8E4M3 => [Float16; BFloat16]
  | FP8E4M3FNUZ => [Float16; BFloat16]
  | FP8E5M2FNUZ => [Float16; BFloat16]
  | Float16 => [Float32]
  | BFloat16 => [Float32]
  | Float32 => [Float64]
  | Float64 | Void | Index => []
  end.

(** The [static RECURSIVE_PARENTS] table, built by sweeping the variants until
    nothing grows.  The table is an array indexed by discriminant. *)
Definition table_get (t : list Z) (s : ScalarDType) : Z := nth (Z.to_nat (discriminant s)) t 0.
Definition table_set (t : list Z) (s : ScalarDType) (v : Z) : list Z :=
  <[Z.to_nat (discriminant s) := v]> t.

Definition grow_entry (st : list Z * bool) (dtype : ScalarDType) : list Z * bool :=
  let '(parents, changed) := st in
  let grown := fold_left (fun set parent => EnumSet.union set (table_get parents parent))
                 (promotion_lattice dtype) (table_get parents dtype) in
  (table_set parents dtype grown, changed || negb (grown =? table_get parents dtype)).

Fixpoint while_changed (fuel : nat) (parents : list Z) : option (list Z) :=
  match fuel with
  | O => None
  | S fuel =>
      let '(parents, changed) := fold_left grow_entry VARIANTS (parents, false) in
      if changed then while_changed fuel parents else Some parents
  end.

Definition initial_parents : list Z :=
  fold_left (fun t dtype => table_set t dtype (EnumSet.only dtype)) VARIANTS
    (replicate (Z.to_nat COUNT) EnumSet.empty).

Definition RECURSIVE_PARENTS : option (list Z) := while_changed (Z.to_nat COUNT) initial_parents.

Definition get_recursive_parents (s : ScalarDType) : Z :=
  match RECURSIVE_PARENTS with Some t => table_get t s | None => EnumSet.empty end.

(** [Iterator::min_by_key]: the first element of least key. *)
Fixpoint min_by_rank (l : list ScalarDType) : option ScalarDType :=
  match l with
  | [] => None
  | s :: l =>
      match min_by_rank l with
      | Some t => if promotion_rank t <? promotion_rank s then Some t else Some s
      | None => Some s
      end
  end.

(** [Iterator::reduce]. *)
Definition reduce {A} (f : A -> A -> A) (l : list A) : option A :=
  match l with [] => None | a :: l => Some (fold_left f l a) end.

Module ScalarCast.
Definition can_safe_cast (self to : ScalarDType) : bool :=
  if bool_decide (self = to) || match self with Bool => true | _ => false end then true
  else if match to with Index => true | _ => false end then ScalarDType.is_int self
  else match to with
       | WeakInt => ScalarDType.is_signed self || ScalarDType.is_unsigned self
       | Float64 =>
           match self with
           | Float32 | Float16 | BFloat16 | FP8E4M3 | FP8E4M3FNUZ | FP8E5M2 | FP8E5M2FNUZ
           | UInt32 | UInt16 | UInt8 | Int32 | Int16 | Int8 => true
           | _ => false
           end
       | Float32 =>
           match self with
           | Float16 | BFloat16 | FP8E4M3 | FP8E4M3FNUZ | FP8E5M2 | FP8E5M2FNUZ
           | UInt16 | UInt8 | Int16 | Int8 => true
           | _ => false
           end
       | Float16 =>
           match self with
           | FP8E4M3 | FP8E4M3FNUZ | FP8E5M2 | FP8E5M2FNUZ | UInt8 | Int8 => true
           | _ => false
           end
       | UInt64 => match self with UInt32 | UInt16 | UInt8 => true | _ => false end
       | UInt32 => match self with UInt16 | UInt8 => true | _ => false end
       | UInt16 => match self with UInt8 => true | _ => false end
       | Int64 =>
           match self with
           | UInt32 | UInt16 | UInt8 | Int32 | Int16 | Int8 => true
           | _ => false
           end
       | Int32 => match self with UInt16 | UInt8 | Int16 | Int8 => true | _ => false end
       | Int16 => match self with UInt8 | Int8 => true | _ => false end
       | _ => false
       end.

Definition weak (s : ScalarDType) : ScalarDType :=
  if ScalarDType.is_int s then WeakInt else if ScalarDType.is_float s then WeakFloat else s.
End ScalarCast.

Module DTypeCast.
Definition can_safe_cast (from to : DType) : bool :=
  match DType.scalar from, DType.scalar to with
  | Some from_scalar, Some to_scalar =>
      if negb (ScalarCast.can_safe_cast from_scalar to_scalar) then false
      else (DType.count from =? DType.count to) || (DType.count from =? 1)
           || (DType.count to =? 1)
  | _, _ => false
  end.

Definition least_upper_dtype (dtypes : list DType) : option DType :=
  match dtypes with
  | [] => None
  | first :: _ =>
      match List.find DType.is_image dtypes with
      | Some img => Some img
      | None =>
          if match first with Ptr _ _ _ _ => true | _ => false end
             && forallb (fun d => bool_decide (d = first)) dtypes
          then Some first
          else
            let vector_count := match first with Vector _ count => Some count | _ => None end in
            if negb (forallb (fun dtype =>
                       match vector_count, dtype with
                       | Some count, Vector _ other => count =? other
                       | None, Vector _ _ => false
                       | Some _, _ => false
                       | None, _ => true
                       end) dtypes)
            then None
            else
              let? common :=
                reduce EnumSet.intersection
                  (map (fun d => get_recursive_parents (DType.base d)) dtypes) in
              let? scalar_result := min_by_rank (EnumSet.iter common) in
              Some (match vector_count with
                    | Some count => Vector scalar_result count
                    | None => Scalar scalar_result
                    end)
      end
  end.

Definition least_upper_float (dtype : DType) : option DType :=
  let count := DType.vcount dtype in
  let scalar := DType.scalar_dtype dtype in
  let? result :=
    if bool_decide (scalar = Scalar WeakInt) then Some (Scalar WeakFloat)
    else if DType.is_float scalar then Some scalar
    else least_upper_dtype [scalar; DEFAULT_FLOAT] in
  DType.vec result count.

Definition strong_dtype (d : DType) : option DType :=
  let go (base : ScalarDType) (count : Z) :=
    match base with
    | WeakInt => DType.vec DEFAULT_INT count
    | WeakFloat => DType.vec DEFAULT_FLOAT count
    | _ => Some d
    end in
  match d with
  | Scalar base => go base 1
  | Vector scalar count => go scalar count
  | _ => Some d
  end.

Definition weak_dtype (d : DType) : option DType :=
  match d with
  | Scalar base => Some (Scalar (ScalarCast.weak base))
  | Vector scalar count => DType.vec (Scalar (ScalarCast.weak scalar)) count
  | _ => Some d
  end.
End DTypeCast.

Example lub_u8_i8 : DTypeCast.least_upper_dtype [Scalar UInt8; Scalar Int8] = Some (Scalar Int16).
Proof. vm_compute. reflexivity. Qed.
Example lub_fp8 : DTypeCast.least_upper_dtype [Scalar FP8E4M3; Scalar FP8E5M2] = Some (Scalar Float16).
Proof. vm_compute. reflexivity. Qed.

(** ** The FP8 codec *)

Definition fp8_roundtrip_at (d : ScalarDType) (b : Z) : bool :=
  match fp8_to_float b d with
  | Some v => f64_is_nan v || bool_decide (float_to_fp8 v d = Some b)
  | None => false
  end.

Lemma fp8_roundtrip_all :
  forallb (fun d => negb (ScalarDType.is_fp8 d) || all_from (fp8_roundtrip_at d) 256 0) VARIANTS
  = true.
Proof. vm_compute. reflexivity. Qed.

Lemma fp8_roundtrip_cases d b :
  ScalarDType.is_fp8 d = true -> 0 <= b < 256 ->
  exists v, fp8_to_float b d = Some v /\ (v = S754_nan \/ float_to_fp8 v d = Some b).
Proof.
  intros Hd Hb. pose proof (forall_scalar _ fp8_roundtrip_all d) as H. cbn beta in H.
  rewrite Hd in H. cbn [negb orb] in H.
  pose proof (all_from_spec _ _ _ H b ltac:(lia)) as Hv. unfold fp8_roundtrip_at in Hv.
  destruct (fp8_to_float b d) as [v |]; [| discriminate]. exists v; split; [reflexivity |].
  apply orb_true_iff in Hv as [Hn | Hv].
  - left. destruct v; cbn in Hn; congruence.
  - right. exact (bool_decide_eq_true_1 _ Hv).
Qed.

Lemma float_to_fp8_byte v d :
  ScalarDType.is_fp8 d = true -> exists b, float_to_fp8 v d = Some b /\ 0 <= b < 256.
Proof.
  intros Hd. unfold float_to_fp8.
  set (value := if f64_is_nan v then S754_nan else v). clearbody value. cbv zeta.
  assert (Hs : forall x, in_u 8 (Z.shiftl (Z.land x 1) 7)).
  { intros x. destruct (land_1 x) as [-> | ->]; vm_compute; intuition congruence. }
  assert (Hor : forall r x, 0 <= Z.lor (wrap_u 8 r) (Z.shiftl (Z.land x 1) 7) < 256).
  { intros r x. change 256 with (2 ^ 8).
    apply lor_bound; [lia | apply wrap_u_range; lia | apply Hs]. }
  destruct d; try discriminate Hd; cbn [bool_decide decide ScalarDType_eq_dec] in *;
    split_ifs; eexists; (split; [reflexivity |]); try lia; try apply Hor;
    vm_compute; intuition congruence.
Qed.

(** C38: Decoding a byte and encoding the result is the identity, except on NaN codes. *)
Theorem fp8_decode_encode d b :
  ScalarDType.is_fp8 d = true -> 0 <= b < 256 ->
  exists v, fp8_to_float b d = Some v /\ (v <> S754_nan -> float_to_fp8 v d = Some b).
Proof.
  intros Hd Hb. destruct (fp8_roundtrip_cases d b Hd Hb) as (v & E & [-> | H]);
    eexists; split; eauto; congruence.
Qed.

Lemma fp8_decode_encode_witness :
  exists v, fp8_to_float 0x7b FP8E5M2 = Some v
    /\ (v <> S754_nan -> float_to_fp8 v FP8E5M2 = Some 0x7b).
Proof. apply (fp8_decode_encode FP8E5M2 0x7b); [reflexivity | lia]. Defined.

Lemma fp8_nan d :
  ScalarDType.is_fp8 d = true ->
  exists b, float_to_fp8 S754_nan d = Some b /\ fp8_to_float b d = Some S754_nan.
Proof. destruct d; try discriminate; intros _; eexists; split; reflexivity. Qed.

(** Committing to an FP8 dtype always succeeds and lands on its grid: a second
    commitment changes nothing. *)
Theorem commit_float_fp8_idempotent d v :
  ScalarDType.is_fp8 d = true ->
  exists w, commit_float v d = Some w /\ commit_float w d = Some w.
Proof.
  intros Hd. unfold commit_float.
  set (u := if f64_is_nan v then S754_nan else v). clearbody u. cbv zeta.
  destruct (float_to_fp8_byte u d Hd) as (b & Eb & Hb).
  destruct (fp8_roundtrip_cases d b Hd Hb) as (w & Ew & Hw).
  exists w. assert (Hnan : f64_is_nan w = true -> w = S754_nan) by (destruct w; cbn; congruence).
  destruct (fp8_nan d Hd) as (bn & En & Dn).
  destruct d; try discriminate Hd; cbn beta iota;
    (split; [rewrite Eb; exact Ew |]);
    (destruct (f64_is_nan w) eqn:Wn;
     [rewrite (Hnan eq_refl), En; exact Dn
     | destruct Hw as [-> | ->]; [discriminate Wn | exact Ew]]).
Qed.

Lemma commit_float_fp8_idempotent_witness :
  exists w, commit_float (f64_of_Z 300) FP8E4M3 = Some w /\ commit_float w FP8E4M3 = Some w.
Proof. apply (commit_float_fp8_idempotent FP8E4M3 (f64_of_Z 300)). reflexivity. Defined.

(** ** The promotion lattice *)

(** One promotion step, and promotability as its reflexive-transitive closure. *)
Definition promotes1 (s t : ScalarDType) : Prop := In t (promotion_lattice s).
Abbreviation promotes := (rtc promotes1).

(** The recursive fold the source keeps as a test oracle, with fuel. *)
Fixpoint reach (fuel : nat) (s t : ScalarDType) : bool :=
  bool_decide (s = t)
  || match fuel with
     | O => false
     | S fuel => existsb (fun p => reach fuel p t) (promotion_lattice s)
     end.

Lemma reach_sound fuel s t : reach fuel s t = true -> promotes s t.
Proof.
  revert s; induction fuel as [| fuel IH]; intros s H; cbn [reach] in H;
    apply orb_true_iff in H as [H | H]; try discriminate;
    try (apply bool_decide_eq_true_1 in H as ->; constructor).
  apply existsb_exists in H as (p & Hp & Hr). eapply rtc_l; [exact Hp | auto].
Qed.

(** The computed table, as a literal: later computations read it instead of
    sweeping again. *)
Definition parents_table : list Z :=
  Eval vm_compute in match RECURSIVE_PARENTS with Some t => t | None => [] end.

Lemma RECURSIVE_PARENTS_eq : RECURSIVE_PARENTS = Some parents_table.
Proof. vm_compute. reflexivity. Qed.

Lemma get_recursive_parents_eq s : get_recursive_parents s = table_get parents_table s.
Proof. unfold get_recursive_parents. now rewrite RECURSIVE_PARENTS_eq. Qed.

Definition parents_contain (s t : ScalarDType) : bool :=
  EnumSet.contains (get_recursive_parents s) t.

Definition table_contains (s t : ScalarDType) : bool :=
  EnumSet.contains (table_get parents_table s) t.

Lemma parents_contain_eq s t : parents_contain s t = table_contains s t.
Proof. unfold parents_contain. now rewrite get_recursive_parents_eq. Qed.

(** What the exhaustive check of the computed table says of one pair of dtypes. *)
Definition table_entry_ok (s t : ScalarDType) : bool :=
  implb (table_contains s t) (reach 12 s t)
  && forallb (fun p => implb (table_contains p t) (table_contains s t)) (promotion_lattice s)
  && table_contains t t.

Lemma table_ok : forallb (fun s => forallb (table_entry_ok s) VARIANTS) VARIANTS = true.
Proof. vm_compute. reflexivity. Qed.

Lemma table_entry s t :
  (parents_contain s t = true -> reach 12 s t = true)
  /\ (forall p, In p (promotion_lattice s) -> parents_contain p t = true ->
        parents_contain s t = true)
  /\ parents_contain t t = true.
Proof.
  pose proof (forall_scalar _ (forall_scalar _ table_ok s) t) as T.
  rewrite !parents_contain_eq. unfold table_entry_ok in T. apply andb_true_iff in T as [T H3].
  apply andb_true_iff in T as [H1 H2]. split; [| split; [| exact H3]].
  - intros H. now rewrite H in H1.
  - intros p Hp H. rewrite parents_contain_eq in H.
    rewrite forallb_forall in H2. specialize (H2 p Hp). now rewrite H in H2.
Qed.

(** The sweep that builds the table terminates within [COUNT] rounds. *)
Lemma parents_table_total : is_Some RECURSIVE_PARENTS.
Proof. rewrite RECURSIVE_PARENTS_eq. eauto. Qed.

(** The table holds exactly the dtypes reachable through the lattice. *)
Lemma parents_contain_spec s t : parents_contain s t = true <-> promotes s t.
Proof.
  split.
  - intros H. eapply reach_sound, table_entry, H.
  - induction 1 as [t | s p t Hp _ IH]; [apply (table_entry t t) |].
    now apply (table_entry s t) with (p := p).
Qed.

(** The sweep that fills the table of recursive parents stabilises within
    [COUNT] rounds, and the entry of [s] then holds exactly the dtypes [s] promotes to. *)
Theorem recursive_parents_closure :
  exists table, RECURSIVE_PARENTS = Some table
    /\ forall s t, EnumSet.contains (table_get table s) t = true <-> promotes s t.
Proof.
  exists parents_table. split; [exact RECURSIVE_PARENTS_eq |]. intros s t.
  change (EnumSet.contains (table_get parents_table s) t) with (table_contains s t).
  rewrite <- parents_contain_eq. apply parents_contain_spec.
Qed.

Lemma promotes_antisym s t : promotes s t -> promotes t s -> s = t.
Proof.
  assert (H : forallb (fun s => forallb (fun t =>
     implb (table_contains s t && table_contains t s) (bool_decide (s = t))) VARIANTS) VARIANTS
     = true) by (vm_compute; reflexivity).
  intros Hst%parents_contain_spec Hts%parents_contain_spec.
  pose proof (forall_scalar _ (forall_scalar _ H s) t) as Q. cbn beta in Q.
  rewrite parents_contain_eq in Hst, Hts. rewrite Hst, Hts in Q. exact (bool_decide_eq_true_1 _ Q).
Qed.

(** Promotion never lowers the rank that breaks ties. *)
Lemma promotion_rank_mono s t : promotes s t -> promotion_rank s <= promotion_rank t.
Proof.
  induction 1 as [| s p t Hp _ IH]; [lia |]. etransitivity; [| exact IH].
  unfold promotes1 in Hp. destruct s; cbn in Hp;
    repeat destruct Hp as [<- | Hp]; try contradiction; cbn; lia.
Qed.

Lemma promotion_rank_inj s t : promotion_rank s = promotion_rank t -> s = t.
Proof. destruct s, t; cbn; congruence. Qed.

Lemma min_by_rank_spec l :
  match min_by_rank l with
  | Some r => In r l /\ forall s, In s l -> promotion_rank r <= promotion_rank s
  | None => l = []
  end.
Proof.
  induction l as [| s l IH]; cbn; [reflexivity |].
  destruct (min_by_rank l) as [t |]; [destruct IH as [Ht Hmin] | subst l].
  - destruct (Z.ltb_spec (promotion_rank t) (promotion_rank s)).
    + split; [tauto |]. intros ? [<- | ?]; [lia | auto].
    + split; [tauto |]. intros s' [<- | Hs']; [lia |]. specialize (Hmin s' Hs'). lia.
  - split; [tauto |]. intros ? [<- | []]; lia.
Qed.

Lemma contains_fold_intersection (f : ScalarDType -> Z) l a t :
  EnumSet.contains (fold_left EnumSet.intersection (map f l) a) t = true
  <-> EnumSet.contains a t = true /\ forall s, In s l -> EnumSet.contains (f s) t = true.
Proof.
  revert a; induction l as [| s l IH]; intros a; cbn [map fold_left].
  - split; [intros H; split; [exact H | intros ? []] | intros []; assumption].
  - rewrite IH. unfold EnumSet.intersection, EnumSet.contains.
    rewrite Z.land_spec, andb_true_iff. cbn [In]. split.
    + intros [[Ha Hs] Hl]. split; [assumption |]. intros ? [<- | ?]; auto.
    + intros [Ha Hl]. auto.
Qed.

Lemma least_upper_scalars s ss :
  DTypeCast.least_upper_dtype (map Scalar (s :: ss))
  = option_map Scalar (min_by_rank (EnumSet.iter
      (fold_left EnumSet.intersection (map get_recursive_parents ss) (get_recursive_parents s)))).
Proof.
  unfold DTypeCast.least_upper_dtype. cbn [map].
  assert (F : List.find DType.is_image (Scalar s :: map Scalar ss) = None).
  { cbn. induction ss; cbn; auto. }
  rewrite F. cbn [andb].
  assert (V : forallb (fun dtype => match dtype with Vector _ _ => false | _ => true end)
                (Scalar s :: map Scalar ss) = true).
  { cbn. induction ss; cbn; auto. }
  rewrite V. cbn [negb map reduce]. rewrite map_map. cbn [DType.base].
  destruct (min_by_rank _); reflexivity.
Qed.

(** The result of [least_upper_dtype] on scalars, by cases. *)
Lemma least_upper_cases s ss :
  match DTypeCast.least_upper_dtype (map Scalar (s :: ss)) with
  | Some d => exists r, d = Scalar r
      /\ (forall x, In x (s :: ss) -> promotes x r)
      /\ (forall u, (forall x, In x (s :: ss) -> promotes x u) ->
            promotion_rank r <= promotion_rank u)
  | None => forall u, ~ (forall x, In x (s :: ss) -> promotes x u)
  end.
Proof.
  rewrite least_upper_scalars.
  set (c := fold_left _ _ _).
  assert (Hc : forall u, In u (EnumSet.iter c) <-> (forall x, In x (s :: ss) -> promotes x u)).
  { intros u. unfold EnumSet.iter. rewrite filter_In. unfold c.
    rewrite contains_fold_intersection. split.
    - intros (_ & Hs & Hl) x [<- | Hx]; apply parents_contain_spec; [exact Hs | exact (Hl x Hx)].
    - intros H. split; [apply VARIANTS_complete | split].
      + apply parents_contain_spec, H. now left.
      + intros x Hx. apply parents_contain_spec, H. now right. }
  pose proof (min_by_rank_spec (EnumSet.iter c)) as M.
  destruct (min_by_rank _) as [r |]; cbn [option_map].
  - destruct M as [Hr Hmin]. exists r. split; [reflexivity |]. split.
    + exact (proj1 (Hc r) Hr).
    + intros u Hu. apply Hmin, Hc, Hu.
  - intros u Hu. apply Hc in Hu. rewrite M in Hu. destruct Hu.
Qed.

(** [least_upper_dtype] of scalars: the common promotion of least rank, and
    [None] exactly when the inputs promote to no common dtype. *)
Theorem least_upper_dtype_scalars s ss :
  match DTypeCast.least_upper_dtype (map Scalar (s :: ss)) with
  | Some d => exists r, d = Scalar r
      /\ (forall x, In x (s :: ss) -> promotes x r)
      /\ (forall u, (forall x, In x (s :: ss) -> promotes x u) ->
            promotion_rank r <= promotion_rank u)
  | None => forall u, ~ (forall x, In x (s :: ss) -> promotes x u)
  end.
Proof. apply least_upper_cases. Qed.



(** Pairwise folding is not the same as the variadic call: promotion has no
    associative binary form. *)
Example least_upper_not_associative :
  DTypeCast.least_upper_dtype [Scalar FP8E4M3; Scalar FP8E5M2; Scalar BFloat16]
    = Some (Scalar BFloat16)
  /\ (exists d, DTypeCast.least_upper_dtype [Scalar FP8E4M3; Scalar FP8E5M2] = Some d
        /\ DTypeCast.least_upper_dtype [d; Scalar BFloat16] = Some (Scalar Float32)).
Proof.
  split; [vm_compute; reflexivity |].
  exists (Scalar Float16); split; vm_compute; reflexivity.
Qed.
