(* ===== verification/ConstVal.v ===== *)
(** * Constant values ([ir/src/types.rs])

    [ConstValue] is the payload of a constant node.  Integers are stored as
    [i64] or [u64]; [cast] narrows them to the width of the target dtype. *)

From Stdlib Require Import Floats.SpecFloat.
From S2P Require Import Prelude F64 DType Cast.

Module ConstValue.
Inductive t :=
| Invalid
| Int (v : Z)
| UInt (v : Z)
| Float (v : f64)
| Bool (v : bool).
End ConstValue.
Abbreviation ConstValue := ConstValue.t.

#[export] Instance ConstValue_eq_dec : EqDecision ConstValue.
Proof. solve_decision. Defined.

(** [PartialEq]: floats compare by bits. *)
Definition const_eqb (a b : ConstValue) : bool :=
  match a, b with
  | ConstValue.Invalid, ConstValue.Invalid => true
  | ConstValue.Int x, ConstValue.Int y => x =? y
  | ConstValue.UInt x, ConstValue.UInt y => x =? y
  | ConstValue.Float x, ConstValue.Float y => f64_to_bits x =? f64_to_bits y
  | ConstValue.Bool x, ConstValue.Bool y => Bool.eqb x y
  | _, _ => false
  end.

(** ** Casts *)

Definition cast_bool (v : bool) (to : ScalarDType) : option ConstValue :=
  match to with
  | Bool => Some (ConstValue.Bool v)
  | WeakInt | Int8 | Int16 | Int32 | Int64 | Index => Some (ConstValue.Int (Z.b2z v))
  | UInt8 | UInt16 | UInt32 | UInt64 => Some (ConstValue.UInt (Z.b2z v))
  | WeakFloat | FP8E4M3 | FP8E4M3FNUZ | FP8E5M2 | FP8E5M2FNUZ
  | Float16 | BFloat16 | Float32 | Float64 =>
      let? f := commit_float (f64_of_Z (Z.b2z v)) to in Some (ConstValue.Float f)
  | Void => Some (ConstValue.Int (Z.b2z v))
  end.

Definition cast_int (v : Z) (to : ScalarDType) : option ConstValue :=
  match to with
  | Bool => Some (ConstValue.Bool (negb (v =? 0)))
  | Int8 => Some (ConstValue.Int (wrap_s 8 v))
  | Int16 => Some (ConstValue.Int (wrap_s 16 v))
  | Int32 => Some (ConstValue.Int (wrap_s 32 v))
  | WeakInt | Int64 | Index => Some (ConstValue.Int v)
  | UInt8 => Some (ConstValue.UInt (wrap_u 8 v))
  | UInt16 => Some (ConstValue.UInt (wrap_u 16 v))
  | UInt32 => Some (ConstValue.UInt (wrap_u 32 v))
  | UInt64 => Some (ConstValue.UInt (wrap_u 64 v))
  | WeakFloat | FP8E4M3 | FP8E4M3FNUZ | FP8E5M2 | FP8E5M2FNUZ
  | Float16 | BFloat16 | Float32 | Float64 =>
      let? f := commit_float (f64_of_Z v) to in Some (ConstValue.Float f)
  | Void => Some (ConstValue.Int v)
  end.

Definition cast_uint (v : Z) (to : ScalarDType) : option ConstValue :=
  match to with
  | Bool => Some (ConstValue.Bool (negb (v =? 0)))
  | Int8 => Some (ConstValue.Int (wrap_s 8 v))
  | Int16 => Some (ConstValue.Int (wrap_s 16 v))
  | Int32 => Some (ConstValue.Int (wrap_s 32 v))
  | WeakInt | Int64 | Index => Some (ConstValue.Int (wrap_s 64 v))
  | UInt8 => Some (ConstValue.UInt (wrap_u 8 v))
  | UInt16 => Some (ConstValue.UInt (wrap_u 16 v))
  | UInt32 => Some (ConstValue.UInt (wrap_u 32 v))
  | UInt64 => Some (ConstValue.UInt v)
  | WeakFloat | FP8E4M3 | FP8E4M3FNUZ | FP8E5M2 | FP8E5M2FNUZ
  | Float16 | BFloat16 | Float32 | Float64 =>
      let? f := commit_float (f64_of_Z v) to in Some (ConstValue.Float f)
  | Void => Some (ConstValue.Int (wrap_s 64 v))
  end.

(** Float-to-integer casts saturate; unsigned targets go through [i64]. *)
Definition cast_float (v : f64) (to : ScalarDType) : option ConstValue :=
  match to with
  | Bool => Some (ConstValue.Bool (negb (f64_eqb v f64_zero)))
  | Int8 => Some (ConstValue.Int (f64_as_i 8 v))
  | Int16 => Some (ConstValue.Int (f64_as_i 16 v))
  | Int32 => Some (ConstValue.Int (f64_as_i 32 v))
  | WeakInt | Int64 | Index => Some (ConstValue.Int (f64_as_i 64 v))
  | UInt8 => Some (ConstValue.UInt (wrap_u 8 (f64_as_i 64 v)))
  | UInt16 => Some (ConstValue.UInt (wrap_u 16 (f64_as_i 64 v)))
  | UInt32 => Some (ConstValue.UInt (wrap_u 32 (f64_as_i 64 v)))
  | UInt64 => Some (ConstValue.UInt (wrap_u 64 (f64_as_i 64 v)))
  | WeakFloat | FP8E4M3 | FP8E4M3FNUZ | FP8E5M2 | FP8E5M2FNUZ
  | Float16 | BFloat16 | Float32 | Float64 =>
      let? f := commit_float v to in Some (ConstValue.Float f)
  | Void => Some (ConstValue.Int (f64_as_i 64 v))
  end.

(** The [impl_cast!] dispatch. *)
Definition impl_cast (self : ConstValue) (to : ScalarDType) : option ConstValue :=
  match self with
  | ConstValue.Invalid => Some ConstValue.Invalid
  | ConstValue.Bool v => cast_bool v to
  | ConstValue.Int v => cast_int v to
  | ConstValue.UInt v => cast_uint v to
  | ConstValue.Float v => cast_float v to
  end.

Definition const_cast (self : ConstValue) (dtype : DType) : option ConstValue :=
  let? scalar_dtype := DType.scalar dtype in impl_cast self scalar_dtype.

(** [truncate] unwraps a cast that cannot fail for a value an operation produced. *)
Definition truncate (self : ConstValue) (dtype : ScalarDType) : option ConstValue :=
  const_cast self (Scalar dtype).

(** ** Constructors and tests *)

Definition const_dtype (c : ConstValue) : DType :=
  match c with
  | ConstValue.Invalid => Scalar Bool
  | ConstValue.Int _ => Scalar Int64
  | ConstValue.UInt _ => Scalar UInt64
  | ConstValue.Float _ => Scalar Float64
  | ConstValue.Bool _ => Scalar Bool
  end.

Definition const_zero (dtype : ScalarDType) : ConstValue :=
  match dtype with
  | Bool => ConstValue.Bool false
  | WeakInt | Int8 | Int16 | Int32 | Int64 => ConstValue.Int 0
  | UInt8 | UInt16 | UInt32 | UInt64 => ConstValue.UInt 0
  | WeakFloat | FP8E4M3 | FP8E4M3FNUZ | FP8E5M2 | FP8E5M2FNUZ
  | Float16 | BFloat16 | Float32 | Float64 => ConstValue.Float f64_zero
  | Void | Index => ConstValue.Int 0
  end.

Definition const_one (dtype : ScalarDType) : ConstValue :=
  match dtype with
  | Bool => ConstValue.Bool true
  | WeakInt | Int8 | Int16 | Int32 | Int64 => ConstValue.Int 1
  | UInt8 | UInt16 | UInt32 | UInt64 => ConstValue.UInt 1
  | WeakFloat | FP8E4M3 | FP8E4M3FNUZ | FP8E5M2 | FP8E5M2FNUZ
  | Float16 | BFloat16 | Float32 | Float64 => ConstValue.Float f64_one
  | Void | Index => ConstValue.Int 1
  end.

Definition const_neg_one (dtype : ScalarDType) : option ConstValue :=
  match dtype with
  | WeakInt | Int8 | Int16 | Int32 | Int64 | Index => Some (ConstValue.Int (-1))
  | WeakFloat | FP8E4M3 | FP8E4M3FNUZ | FP8E5M2 | FP8E5M2FNUZ
  | Float16 | BFloat16 | Float32 | Float64 => Some (ConstValue.Float (f64_of_Z (-1)))
  | _ => None
  end.

Definition const_min (dtype : ScalarDType) : ConstValue :=
  match dtype with
  | Bool => ConstValue.Bool false
  | Int8 => ConstValue.Int (- 2 ^ 7)
  | Int16 => ConstValue.Int (- 2 ^ 15)
  | Int32 => ConstValue.Int (- 2 ^ 31)
  | WeakInt | Int64 | Index => ConstValue.Int (- 2 ^ 63)
  | UInt8 | UInt16 | UInt32 | UInt64 => ConstValue.UInt 0
  | FP8E4M3 => ConstValue.Float (f64_of_Z (-448))
  | FP8E4M3FNUZ => ConstValue.Float (f64_of_Z (-240))
  | FP8E5M2 | FP8E5M2FNUZ => ConstValue.Float (f64_of_Z (-57344))
  | Float16 => ConstValue.Float (f64_of_Z (-65504))
  | BFloat16 => ConstValue.Float (f64_neg ScalarDType.bf16_max)
  | Float32 => ConstValue.Float (f64_neg ScalarDType.f32_max)
  | WeakFloat | Float64 => ConstValue.Float (f64_neg f64_max_finite)
  | Void => ConstValue.Int 0
  end.

Definition const_max (dtype : ScalarDType) : ConstValue :=
  match dtype with
  | Bool => ConstValue.Bool true
  | Int8 => ConstValue.Int (2 ^ 7 - 1)
  | Int16 => ConstValue.Int (2 ^ 15 - 1)
  | Int32 => ConstValue.Int (2 ^ 31 - 1)
  | WeakInt | Int64 | Index => ConstValue.Int (2 ^ 63 - 1)
  | UInt8 => ConstValue.UInt (2 ^ 8 - 1)
  | UInt16 => ConstValue.UInt (2 ^ 16 - 1)
  | UInt32 => ConstValue.UInt (2 ^ 32 - 1)
  | UInt64 => ConstValue.UInt (2 ^ 64 - 1)
  | FP8E4M3 => ConstValue.Float (f64_of_Z 448)
  | FP8E4M3FNUZ => ConstValue.Float (f64_of_Z 240)
  | FP8E5M2 | FP8E5M2FNUZ => ConstValue.Float (f64_of_Z 57344)
  | Float16 => ConstValue.Float (f64_of_Z 65504)
  | BFloat16 => ConstValue.Float ScalarDType.bf16_max
  | Float32 => ConstValue.Float ScalarDType.f32_max
  | WeakFloat | Float64 => ConstValue.Float f64_max_finite
  | Void => ConstValue.Int 0
  end.

Definition is_zero (c : ConstValue) : bool :=
  match c with
  | ConstValue.Int 0 | ConstValue.UInt 0 | ConstValue.Bool false => true
  | ConstValue.Float f => f64_eqb f f64_zero
  | _ => false
  end.

Definition is_one (c : ConstValue) : bool :=
  match c with
  | ConstValue.Int 1 | ConstValue.UInt 1 | ConstValue.Bool true => true
  | ConstValue.Float f => f64_eqb f f64_one
  | _ => false
  end.

Definition is_neg_one (c : ConstValue) : bool :=
  match c with
  | ConstValue.Int (-1) => true
  | ConstValue.Float f => f64_eqb f (f64_of_Z (-1))
  | _ => false
  end.

Definition try_int (c : ConstValue) : option Z :=
  match c with
  | ConstValue.Int v => Some v
  | ConstValue.UInt v => Some (wrap_s 64 v)
  | _ => None
  end.

Definition try_float (c : ConstValue) : option f64 :=
  match c with ConstValue.Float v => Some v | _ => None end.
