(* ===== verification/Ops.v ===== *)
(** * Axes and ALU operations ([ir/src/types.rs])

    Axis types and identities of ranges, and the operation enums of the ALU
    nodes with their classification predicates. *)

From Stdlib Require Import Ascii Floats.SpecFloat.
From S2P Require Import Prelude F64 DType Cast ConstVal.

(** ** Axis types *)
Module AxisType.
Inductive t :=
| Device | Global | Warp | Local | Weak | Loop | GroupReduce | Reduce | Upcast | Unroll
| Thread | Placeholder.

Definition priority (self : t) : Z :=
  match self with
  | Device => -2
  | Weak | Loop => -1
  | Global | Thread => 0
  | Warp => 1
  | Local | GroupReduce => 2
  | Upcast => 3
  | Reduce => 4
  | Unroll => 5
  | Placeholder => -3
  end.

Definition letter (self : t) : Ascii.ascii :=
  match self with
  | Device => "d"
  | Weak | Loop => "L"
  | Global => "g"
  | Thread => "t"
  | Warp => "w"
  | Local => "l"
  | GroupReduce => "G"
  | Upcast => "u"
  | Reduce => "R"
  | Unroll => "r"
  | Placeholder => "P"
  end%char.

Definition is_parallel (self : t) : bool :=
  match self with Global | Thread | Local | Warp => true | _ => false end.

Definition is_reduce (self : t) : bool :=
  match self with Reduce | GroupReduce | Unroll => true | _ => false end.

(** [Ord::cmp]: axis types of one priority are not ordered. *)
Definition cmp (self other : t) : comparison := priority self ?= priority other.
End AxisType.
Abbreviation AxisType := AxisType.t.

#[export] Instance AxisType_eq_dec : EqDecision AxisType.
Proof. solve_decision. Defined.

(** ** Axis identities *)

(** Lexicographic comparison of slices. *)
Fixpoint lex_cmp (a b : list Z) : comparison :=
  match a, b with
  | [], [] => Eq
  | [], _ :: _ => Lt
  | _ :: _, [] => Gt
  | x :: a, y :: b => match x ?= y with Eq => lex_cmp a b | c => c end
  end.

Definition cmp_bool (a b : bool) : comparison :=
  match a, b with false, true => Lt | true, false => Gt | _, _ => Eq end.

Module AxisId.
Inductive t :=
| Unrenumbered (n : Z)
| Renumbered (n : Z)
| UnrenumberedPath (path : list Z)
| RenumberedPath (path : list Z).

(** [path[0]] panics on an empty path. *)
Definition value (self : t) : option Z :=
  match self with
  | Unrenumbered n | Renumbered n => Some n
  | UnrenumberedPath path | RenumberedPath path => hd_error path
  end.

Definition path (self : t) : list Z :=
  match self with
  | Unrenumbered n | Renumbered n => [n]
  | UnrenumberedPath path | RenumberedPath path => path
  end.

Definition is_renumbered (self : t) : bool :=
  match self with Renumbered _ | RenumberedPath _ => true | _ => false end.

Definition child (self : t) (component : Z) : t :=
  let path := path self ++ [component] in
  if is_renumbered self then RenumberedPath path else UnrenumberedPath path.

Definition group_reduce_loop (self : t) : t := child self 2.

Definition eqb (self other : t) : bool :=
  Bool.eqb (is_renumbered self) (is_renumbered other)
  && bool_decide (path self = path other).

Definition cmp (self other : t) : comparison :=
  match cmp_bool (is_renumbered self) (is_renumbered other) with
  | Eq => lex_cmp (path self) (path other)
  | c => c
  end.
End AxisId.
Abbreviation AxisId := AxisId.t.

#[export] Instance AxisId_eq_dec : EqDecision AxisId.
Proof. solve_decision. Defined.

(** ** Operations *)

Module ReduceOp.
Inductive t := Add | Mul | Max | Min.
End ReduceOp.
Abbreviation ReduceOp := ReduceOp.t.

Module UnaryOp.
Inductive t :=
| Neg | Not | Abs | Sqrt | Rsqrt | Exp | Exp2 | Log | Log2 | Sin | Cos | Tan | Reciprocal
| Trunc | Floor | Ceil | Round | Sign | Erf | Square.
End UnaryOp.
Abbreviation UnaryOp := UnaryOp.t.

Module BinaryOp.
Inductive t :=
| Add | Mul | Sub | FloorMod | CMod | Max | Pow | FloorDiv | CDiv | Fdiv
| Lt | Le | Eq | Ne | Gt | Ge
| And | Or | Xor | Shl | Shr
| Threefry.

Definition is_comparison (self : t) : bool :=
  match self with Lt | Le | Eq | Ne | Gt | Ge => true | _ => false end.

Definition is_arithmetic (self : t) : bool :=
  match self with
  | Add | Mul | Sub | FloorMod | CMod | Max | Pow | FloorDiv | CDiv | Fdiv => true
  | _ => false
  end.

Definition is_bitwise (self : t) : bool :=
  match self with And | Or | Xor | Shl | Shr => true | _ => false end.

Definition is_associative (self : t) : bool :=
  match self with Add | Mul | And | Or | Max => true | _ => false end.

Definition is_commutative (self : t) : bool :=
  match self with Add | Mul | Eq | Ne | And | Or | Xor | Max => true | _ => false end.

Definition is_idempotent (self : t) : bool :=
  match self with Or | And | Max => true | _ => false end.

(** [None] is the panic on an operation without an identity. *)
Definition identity_element (self : t) (dtype : DType) : option ConstValue :=
  match self with
  | Add => Some (if DType.is_float dtype then ConstValue.Float f64_zero else ConstValue.Int 0)
  | Mul => Some (if DType.is_float dtype then ConstValue.Float f64_one else ConstValue.Int 1)
  | Max => Some (if DType.is_float dtype
                 then ConstValue.Float (fst (DType.analysis_bounds dtype))
                 else ConstValue.Int (f64_as_i 64 (DType.min_value dtype)))
  | _ => None
  end.
End BinaryOp.
Abbreviation BinaryOp := BinaryOp.t.

Module TernaryOp.
Inductive t := Where | MulAcc.
End TernaryOp.
Abbreviation TernaryOp := TernaryOp.t.

#[export] Instance ReduceOp_eq_dec : EqDecision ReduceOp.
Proof. solve_decision. Defined.
#[export] Instance UnaryOp_eq_dec : EqDecision UnaryOp.
Proof. solve_decision. Defined.
#[export] Instance BinaryOp_eq_dec : EqDecision BinaryOp.
Proof. solve_decision. Defined.
#[export] Instance TernaryOp_eq_dec : EqDecision TernaryOp.
Proof. solve_decision. Defined.

(** ** Lemmas on axis identities *)

Lemma lex_cmp_eq a b : lex_cmp a b = Eq <-> a = b.
Proof.
  revert b; induction a as [| x a IH]; intros [| y b]; cbn; try (split; congruence).
  destruct (Z.compare_spec x y); [rewrite IH | |]; split; intros E; try congruence;
    injection E; intros; subst; lia.
Qed.

Lemma lex_cmp_antisym a b : lex_cmp b a = CompOpp (lex_cmp a b).
Proof.
  revert b; induction a as [| x a IH]; intros [| y b]; cbn; try reflexivity.
  rewrite (Z.compare_antisym x y). destruct (x ?= y); cbn; auto.
Qed.

Lemma lex_cmp_trans a b c : lex_cmp a b = Lt -> lex_cmp b c = Lt -> lex_cmp a c = Lt.
Proof.
  revert b c; induction a as [| x a IH]; intros [| y b] [| z c]; cbn; try congruence.
  destruct (Z.compare_spec x y), (Z.compare_spec y z); subst; try congruence; intros H1 H2.
  - rewrite Z.compare_refl. eauto.
  - now rewrite (proj2 (Z.compare_lt_iff y z)) by lia.
  - now rewrite (proj2 (Z.compare_lt_iff x z)) by lia.
  - now rewrite (proj2 (Z.compare_lt_iff x z)) by lia.
Qed.

(** The order on axis identities is a strict total order compatible with
    their equality, across the single-component and path spellings. *)
Theorem axis_id_order (a b c : AxisId) :
  (AxisId.cmp a b = Eq <-> AxisId.eqb a b = true)
  /\ AxisId.cmp b a = CompOpp (AxisId.cmp a b)
  /\ (AxisId.cmp a b = Lt -> AxisId.cmp b c = Lt -> AxisId.cmp a c = Lt).
Proof.
  unfold AxisId.cmp, AxisId.eqb. repeat split.
  - intros H. destruct (AxisId.is_renumbered a), (AxisId.is_renumbered b);
      cbn in *; try discriminate; apply lex_cmp_eq in H; now apply bool_decide_eq_true_2.
  - intros H%andb_prop. destruct H as [H1 H2%bool_decide_eq_true_1].
    destruct (AxisId.is_renumbered a), (AxisId.is_renumbered b);
      cbn in *; try discriminate; now apply lex_cmp_eq.
  - destruct (AxisId.is_renumbered a), (AxisId.is_renumbered b); cbn; auto using lex_cmp_antisym.
  - destruct (AxisId.is_renumbered a), (AxisId.is_renumbered b), (AxisId.is_renumbered c);
      cbn; try congruence; apply lex_cmp_trans.
Qed.

(** Structural splits never collide: distinct components or distinct parents
    give distinct axes, and a child is never its parent. *)
Theorem axis_child_injective (a b : AxisId) i j :
  AxisId.eqb (AxisId.child a i) (AxisId.child b j) = (AxisId.eqb a b && (i =? j))%bool
  /\ AxisId.eqb (AxisId.child a i) a = false.
Proof.
  assert (Hp : forall x k, AxisId.path (AxisId.child x k) = AxisId.path x ++ [k])
    by (intros x k; unfold AxisId.child; destruct (AxisId.is_renumbered x); reflexivity).
  assert (Hr : forall x k, AxisId.is_renumbered (AxisId.child x k) = AxisId.is_renumbered x)
    by (intros x k; unfold AxisId.child; destruct (AxisId.is_renumbered x) eqn:E; exact eq_refl).
  unfold AxisId.eqb. rewrite !Hp, !Hr. split.
  - rewrite <- andb_assoc. f_equal. apply Bool.eq_iff_eq_true.
    rewrite andb_true_iff, !bool_decide_eq_true, Z.eqb_eq. split.
    + intros H. apply app_inj_tail in H. tauto.
    + intros [-> ->]. reflexivity.
  - rewrite andb_comm. apply andb_false_iff. left. apply bool_decide_eq_false_2. intros H.
    apply (f_equal (@List.length Z)) in H. rewrite length_app in H. cbn in H. lia.
Qed.
