(* ===== verification/IntView.v ===== *)
(** * The integer view of constants

    A constant of an integer or boolean dtype stands for a mathematical
    integer.  This file relates the two and shows that committing a value to
    a dtype is reduction modulo its width. *)

From Stdlib Require Import Floats.SpecFloat.
From S2P Require Import Prelude F64 Cast ConstVal.
Import ConstValue.
From S2P Require Import DType.

(** Signedness and width of the integer dtypes as the evaluator stores them:
    [WeakInt] and [Index] are [i64]. *)
Definition int_format (s : ScalarDType) : option (bool * Z) :=
  match s with
  | Int8 => Some (true, 8) | Int16 => Some (true, 16) | Int32 => Some (true, 32)
  | WeakInt | Int64 | Index => Some (true, 64)
  | UInt8 => Some (false, 8) | UInt16 => Some (false, 16) | UInt32 => Some (false, 32)
  | UInt64 => Some (false, 64)
  | _ => None
  end.

(** The dtypes a fixed- or weak-width integer or a boolean can have. *)
Definition is_int_or_bool (s : ScalarDType) : bool :=
  match s with Bool => true | _ => bool_decide (is_Some (int_format s)) end.

Definition dtype_lo (s : ScalarDType) : Z :=
  match int_format s with Some (true, w) => - 2 ^ (w - 1) | _ => 0 end.
Definition dtype_hi (s : ScalarDType) : Z :=
  match int_format s with
  | Some (true, w) => 2 ^ (w - 1) - 1
  | Some (false, w) => 2 ^ w - 1
  | None => 1
  end.
Definition fits (s : ScalarDType) (z : Z) : Prop := dtype_lo s <= z <= dtype_hi s.

(** Reduction of an integer into a dtype. *)
Definition wrap_to (s : ScalarDType) (z : Z) : Z :=
  match int_format s with
  | Some (true, w) => wrap_s w z
  | Some (false, w) => wrap_u w z
  | None => Z.b2z (negb (z =? 0))
  end.

(** The constant of dtype [s] that holds [z]. *)
Definition of_Z (s : ScalarDType) (z : Z) : ConstValue :=
  match int_format s with
  | Some (true, _) => Int z
  | Some (false, _) => UInt z
  | None => ConstValue.Bool (negb (z =? 0))
  end.

(** The integer an integer or boolean constant holds. *)
Definition to_Z (c : ConstValue) : option Z :=
  match c with
  | Int z | UInt z => Some z
  | ConstValue.Bool b => Some (Z.b2z b)
  | _ => None
  end.

(** Constants as Rust can hold them: [Int] an [i64], [UInt] a [u64]. *)
Definition machine (c : ConstValue) : Prop :=
  match c with Int z => in_s 64 z | UInt z => in_u 64 z | _ => True end.

(** [c] is a constant of the integer or boolean dtype [s]. *)
Definition has_dtype (s : ScalarDType) (c : ConstValue) : Prop :=
  exists z, fits s z /\ c = of_Z s z.

Ltac scalar_cases s :=
  destruct s; cbn [is_int_or_bool int_format bool_decide] in *.

Ltac solve_fits :=
  repeat match goal with H : _ /\ _ |- _ => destruct H end;
  repeat match goal with
  | H : context [2 ^ ?n] |- _ => let v := eval vm_compute in (2 ^ n) in change (2 ^ n) with v in H
  | |- context [2 ^ ?n] => let v := eval vm_compute in (2 ^ n) in change (2 ^ n) with v
  end; lia.

Lemma fits_machine s z : is_int_or_bool s = true -> fits s z -> machine (of_Z s z).
Proof.
  intros Hs Hz. unfold fits, dtype_lo, dtype_hi, of_Z in *.
  destruct s; try discriminate Hs; cbn [int_format machine] in *; unfold in_s, in_u;
    try exact I; solve_fits.
Qed.

Lemma wrap_to_fits s z : is_int_or_bool s = true -> fits s (wrap_to s z).
Proof.
  intros Hs. unfold fits, dtype_lo, dtype_hi, wrap_to.
  assert (Hu : forall w, 0 < w -> 0 <= wrap_u w z <= 2 ^ w - 1)
    by (intros w Hw; pose proof (wrap_u_range w Hw z) as R; unfold in_u in R; lia).
  assert (Hss : forall w, 0 < w -> - 2 ^ (w - 1) <= wrap_s w z <= 2 ^ (w - 1) - 1)
    by (intros w Hw; pose proof (wrap_s_range w Hw z) as R; unfold in_s in R; lia).
  destruct s; try discriminate Hs; cbn [int_format];
    first [apply Hss; lia | apply Hu; lia | destruct (z =? 0); cbn; lia].
Qed.

Lemma wrap_to_id s z : is_int_or_bool s = true -> fits s z -> wrap_to s z = z.
Proof.
  intros Hs Hz. unfold fits, dtype_lo, dtype_hi, wrap_to in *.
  destruct s; try discriminate Hs; cbn [int_format] in *;
    first [apply wrap_s_small; [lia | unfold in_s; solve_fits]
          | apply wrap_u_small; [lia | unfold in_u; solve_fits]
          | destruct (Z.eqb_spec z 0); cbn in *; lia].
Qed.

Lemma fits_dec_Int s z : int_format s = Some (true, 64) -> in_s 64 z <-> fits s z.
Proof.
  intros Hs. unfold fits, dtype_lo, dtype_hi, in_s. rewrite Hs. solve_fits.
Qed.

(** Committing a machine integer to an integer or boolean dtype reduces it. *)
Lemma cast_wraps c z s :
  is_int_or_bool s = true -> machine c -> to_Z c = Some z ->
  const_cast c (Scalar s) = Some (of_Z s (wrap_to s z)).
Proof.
  intros Hs Hm Hz. unfold const_cast, DType.scalar, of_Z, wrap_to.
  destruct c as [| x | x | f | b]; cbn [to_Z] in Hz; try discriminate; injection Hz as <-.
  - destruct s; try discriminate Hs; cbn [impl_cast cast_int int_format]; try reflexivity;
      first [now rewrite wrap_s_small by (try lia; exact Hm)
            | destruct (x =? 0); reflexivity].
  - destruct s; try discriminate Hs; cbn [impl_cast cast_uint int_format]; try reflexivity;
      first [now rewrite wrap_u_small by (try lia; exact Hm)
            | destruct (x =? 0); reflexivity].
  - destruct s; try discriminate Hs; destruct b; reflexivity.
Qed.

Lemma to_Z_of_Z s z : is_int_or_bool s = true -> fits s z -> to_Z (of_Z s z) = Some z.
Proof.
  intros Hs Hz. unfold fits, dtype_lo, dtype_hi, of_Z in *.
  destruct s; try discriminate Hs; cbn [int_format to_Z] in *; try reflexivity.
  f_equal. destruct (Z.eqb_spec z 0); cbn; lia.
Qed.

Lemma of_Z_not_invalid s z : const_eqb (of_Z s z) Invalid = false.
Proof. unfold of_Z. destruct (int_format s) as [[[] ?] |]; reflexivity. Qed.

(** A cast between integer dtypes keeps a value that fits the target. *)
Lemma cast_keeps s t z :
  is_int_or_bool s = true -> is_int_or_bool t = true -> fits s z -> fits t z ->
  const_cast (of_Z s z) (Scalar t) = Some (of_Z t z).
Proof.
  intros Hs Ht Hz Hzt.
  rewrite (cast_wraps _ z) by auto using fits_machine, to_Z_of_Z.
  now rewrite wrap_to_id.
Qed.

(** Casts promised safe keep every integer, outside the casts of [u64] to
    the two [i64]-backed dtypes without a fixed width. *)
Theorem safe_cast_preserves_ints s t z :
  is_int_or_bool s = true -> is_int_or_bool t = true -> fits s z ->
  ScalarCast.can_safe_cast s t = true ->
  (s = UInt64 -> t <> WeakInt /\ t <> Index) ->
  const_cast (of_Z s z) (Scalar t) = Some (of_Z t z).
Proof.
  intros Hs Ht Hz Hc Hx. apply cast_keeps; try assumption.
  unfold fits, dtype_lo, dtype_hi in *.
  destruct s; try discriminate Hs; destruct t; try discriminate Ht; try discriminate Hc;
    try (specialize (Hx eq_refl); intuition congruence);
    cbn [int_format] in *; solve_fits.
Qed.

Lemma safe_cast_preserves_ints_witness :
  const_cast (of_Z UInt32 4000000000) (Scalar Int64) = Some (of_Z Int64 4000000000).
Proof.
  apply (safe_cast_preserves_ints UInt32 Int64 4000000000);
    [reflexivity | reflexivity | vm_compute; intuition congruence | reflexivity | congruence].
Defined.

(** The exception is real: [can_safe_cast] accepts [u64] to [Index], and the
    largest [u64] becomes -1. *)
Theorem safe_cast_u64_index :
  ScalarCast.can_safe_cast UInt64 Index = true
  /\ ScalarCast.can_safe_cast UInt64 WeakInt = true
  /\ const_cast (of_Z UInt64 (2 ^ 64 - 1)) (Scalar Index) = Some (of_Z Index (-1))
  /\ const_cast (of_Z UInt64 (2 ^ 64 - 1)) (Scalar WeakInt) = Some (of_Z WeakInt (-1)).
Proof. repeat split; vm_compute; reflexivity. Qed.

(** A second commitment to the same dtype changes nothing. *)
Lemma cast_idempotent c z s :
  is_int_or_bool s = true -> machine c -> to_Z c = Some z ->
  exists d, const_cast c (Scalar s) = Some d /\ const_cast d (Scalar s) = Some d.
Proof.
  intros Hs Hm Hz. eexists. split; [apply cast_wraps; eassumption |].
  apply cast_keeps; auto using wrap_to_fits.
Qed.

Lemma has_dtype_cast c z s :
  is_int_or_bool s = true -> machine c -> to_Z c = Some z ->
  exists d, const_cast c (Scalar s) = Some d /\ has_dtype s d.
Proof.
  intros Hs Hm Hz. eexists. split; [apply cast_wraps; eassumption |].
  eexists; split; [apply wrap_to_fits, Hs | reflexivity].
Qed.
