(* ===== verification/Eval.v ===== *)
(** * Constant evaluation ([ir/src/uop/eval.rs])

    The constant folder: every ALU operation on [ConstValue]s, the dtype-aware
    variants that commit the result to a dtype, and the vector variants.
    Integer operations are those of [i64] and [u64]; the platform's
    transcendental functions come from the [LibM] interface. *)

From Stdlib Require Import Floats.SpecFloat.
From S2P Require Import Prelude F64 DType Cast ConstVal Ops.
Import ConstValue.

(** ** [i64] primitives *)
Definition i64_min : Z := - 2 ^ 63.

(** [checked_div] and [checked_rem]: truncating, [None] on overflow or zero. *)
Definition checked_div_i64 (x y : Z) : option Z :=
  if (y =? 0) || ((x =? i64_min) && (y =? -1)) then None else Some (Z.quot x y).
Definition checked_rem_i64 (x y : Z) : option Z :=
  if (y =? 0) || ((x =? i64_min) && (y =? -1)) then None else Some (Z.rem x y).

(** [!u] on [u64]. *)
Definition not_u64 (u : Z) : Z := 2 ^ 64 - 1 - u.

Section Eval.
Context {M : LibM}.

(** ** Unary operations *)

Definition eval_neg (v : ConstValue) : option ConstValue :=
  match v with
  | Int x => Some (Int (wrap_s 64 (- x)))
  | Float x => Some (Float (f64_neg x))
  | _ => None
  end.

Definition eval_not (v : ConstValue) : option ConstValue :=
  match v with
  | ConstValue.Bool b => Some (ConstValue.Bool (negb b))
  | Int i => Some (Int (Z.lnot i))
  | UInt u => Some (UInt (not_u64 u))
  | _ => None
  end.

Definition eval_abs (v : ConstValue) : option ConstValue :=
  match v with
  | Int x => Some (Int (wrap_s 64 (Z.abs x)))
  | UInt x => Some (UInt x)
  | Float x => Some (Float (f64_abs x))
  | _ => None
  end.

(** The operations defined on floats only. *)
Definition float_only (f : f64 -> f64) (v : ConstValue) : option ConstValue :=
  match v with Float x => Some (Float (f x)) | _ => None end.

Definition eval_sqrt := float_only f64_sqrt.
Definition eval_rsqrt := float_only (fun x => f64_div f64_one (f64_sqrt x)).
Definition eval_exp := float_only f64_exp.
Definition eval_exp2 := float_only f64_exp2.
Definition eval_log := float_only f64_ln.
Definition eval_log2 := float_only f64_log2.
Definition eval_sin := float_only f64_sin.
Definition eval_reciprocal := float_only (fun x => f64_div f64_one x).
Definition eval_trunc := float_only f64_trunc.
Definition eval_cos := float_only f64_cos.
Definition eval_tan := float_only f64_tan.
Definition eval_erf := float_only libm_erf.

(** The rounding operations, which leave integers alone. *)
Definition rounding (f : f64 -> f64) (v : ConstValue) : option ConstValue :=
  match v with
  | Float x => Some (Float (f x))
  | Int x => Some (Int x)
  | UInt x => Some (UInt x)
  | _ => None
  end.

Definition eval_floor := rounding f64_floor.
Definition eval_ceil := rounding f64_ceil.
Definition eval_round := rounding f64_round.

Definition eval_sign (v : ConstValue) : option ConstValue :=
  match v with
  | Int x => Some (Int (if x <? 0 then -1 else if x >? 0 then 1 else 0))
  | Float x => Some (Float (if f64_ltb x f64_zero then f64_of_Z (-1)
                            else if f64_ltb f64_zero x then f64_one else f64_zero))
  | UInt x => Some (UInt (if x >? 0 then 1 else 0))
  | _ => None
  end.

Definition eval_square (v : ConstValue) : option ConstValue :=
  match v with
  | Int x => Some (Int (wrap_s 64 (x * x)))
  | UInt x => Some (UInt (wrap_u 64 (x * x)))
  | Float x => Some (Float (f64_mul x x))
  | _ => None
  end.

Definition eval_unary_op (op : UnaryOp) (v : ConstValue) : option ConstValue :=
  match op with
  | UnaryOp.Neg => eval_neg v
  | UnaryOp.Not => eval_not v
  | UnaryOp.Abs => eval_abs v
  | UnaryOp.Sqrt => eval_sqrt v
  | UnaryOp.Rsqrt => eval_rsqrt v
  | UnaryOp.Exp => eval_exp v
  | UnaryOp.Exp2 => eval_exp2 v
  | UnaryOp.Log => eval_log v
  | UnaryOp.Log2 => eval_log2 v
  | UnaryOp.Sin => eval_sin v
  | UnaryOp.Cos => eval_cos v
  | UnaryOp.Tan => eval_tan v
  | UnaryOp.Reciprocal => eval_reciprocal v
  | UnaryOp.Trunc => eval_trunc v
  | UnaryOp.Floor => eval_floor v
  | UnaryOp.Ceil => eval_ceil v
  | UnaryOp.Round => eval_round v
  | UnaryOp.Sign => eval_sign v
  | UnaryOp.Erf => eval_erf v
  | UnaryOp.Square => eval_square v
  end.

(** ** Binary arithmetic *)

Definition eval_add (a b : ConstValue) : option ConstValue :=
  match a, b with
  | Int x, Int y => Some (Int (wrap_s 64 (x + y)))
  | UInt x, UInt y => Some (UInt (wrap_u 64 (x + y)))
  | Float x, Float y => Some (Float (f64_add x y))
  | _, _ => None
  end.

Definition eval_mul (a b : ConstValue) : option ConstValue :=
  match a, b with
  | Int x, Int y => Some (Int (wrap_s 64 (x * y)))
  | UInt x, UInt y => Some (UInt (wrap_u 64 (x * y)))
  | Float x, Float y => Some (Float (f64_mul x y))
  | _, _ => None
  end.

Definition eval_sub (a b : ConstValue) : option ConstValue :=
  match a, b with
  | Int x, Int y => Some (Int (wrap_s 64 (x - y)))
  | UInt x, UInt y => Some (UInt (wrap_u 64 (x - y)))
  | Float x, Float y => Some (Float (f64_sub x y))
  | _, _ => None
  end.

Definition eval_cmod (a b : ConstValue) : option ConstValue :=
  match a, b with
  | Int x, Int y =>
      if negb (y =? 0) then let? r := checked_rem_i64 x y in Some (Int r) else None
  | UInt x, UInt y => if negb (y =? 0) then Some (UInt (x mod y)) else None
  | _, _ => None
  end.

Definition eval_max (a b : ConstValue) : option ConstValue :=
  match a, b with
  | Int x, Int y => Some (Int (Z.max x y))
  | UInt x, UInt y => Some (UInt (Z.max x y))
  | Float x, Float y => Some (Float (f64_max x y))
  | _, _ => None
  end.

(** Integer powers go through [f64::powi] and a saturating cast back. *)
Definition eval_pow (a b : ConstValue) : option ConstValue :=
  match a, b with
  | Float x, Float y => Some (Float (f64_powf x y))
  | Int x, Int y =>
      if y >=? 0 then Some (Int (f64_as_i 64 (f64_powi (f64_of_Z x) (wrap_s 32 y)))) else None
  | UInt x, UInt y => Some (UInt (f64_as_u 64 (f64_powi (f64_of_Z x) (wrap_s 32 y))))
  | _, _ => None
  end.

Definition eval_cdiv (a b : ConstValue) : option ConstValue :=
  match a, b with
  | Int x, Int y =>
      if negb (y =? 0) then let? q := checked_div_i64 x y in Some (Int q) else None
  | UInt x, UInt y => if negb (y =? 0) then Some (UInt (x / y)) else None
  | _, _ => None
  end.

Definition eval_floor_div (a b : ConstValue) : option ConstValue :=
  match a, b with
  | Int x, Int y =>
      if negb (y =? 0) then
        let? q := checked_div_i64 x y in
        let? r := checked_rem_i64 x y in
        Some (Int (if negb (r =? 0) && xorb (x <? 0) (y <? 0) then q - 1 else q))
      else None
  | UInt x, UInt y => if negb (y =? 0) then Some (UInt (x / y)) else None
  | _, _ => None
  end.

Definition eval_floor_mod (a b : ConstValue) : option ConstValue :=
  match a, b with
  | Int x, Int y =>
      if negb (y =? 0) then
        let? r := checked_rem_i64 x y in
        Some (Int (if negb (r =? 0) && xorb (r <? 0) (y <? 0) then r + y else r))
      else None
  | UInt x, UInt y => if negb (y =? 0) then Some (UInt (x mod y)) else None
  | _, _ => None
  end.

Definition eval_fdiv (a b : ConstValue) : option ConstValue :=
  match a, b with
  | Float x, Float y => Some (Float (f64_div x y))
  | _, _ => None
  end.

(** ** Comparisons *)

Definition eval_lt (a b : ConstValue) : option ConstValue :=
  match a, b with
  | Int x, Int y | UInt x, UInt y => Some (ConstValue.Bool (x <? y))
  | Float x, Float y => Some (ConstValue.Bool (f64_ltb x y))
  | ConstValue.Bool x, ConstValue.Bool y => Some (ConstValue.Bool (negb x && y))
  | _, _ => None
  end.

Definition eval_eq (a b : ConstValue) : option ConstValue :=
  match a, b with
  | Int x, Int y | UInt x, UInt y => Some (ConstValue.Bool (x =? y))
  | Float x, Float y => Some (ConstValue.Bool (f64_eqb x y))
  | ConstValue.Bool x, ConstValue.Bool y => Some (ConstValue.Bool (Bool.eqb x y))
  | _, _ => None
  end.

Definition eval_ne (a b : ConstValue) : option ConstValue :=
  match a, b with
  | Int x, Int y | UInt x, UInt y => Some (ConstValue.Bool (negb (x =? y)))
  | Float x, Float y => Some (ConstValue.Bool (negb (f64_eqb x y)))
  | ConstValue.Bool x, ConstValue.Bool y => Some (ConstValue.Bool (negb (Bool.eqb x y)))
  | _, _ => None
  end.

Definition eval_le (a b : ConstValue) : option ConstValue :=
  match a, b with
  | Int x, Int y | UInt x, UInt y => Some (ConstValue.Bool (x <=? y))
  | Float x, Float y => Some (ConstValue.Bool (f64_leb x y))
  | ConstValue.Bool x, ConstValue.Bool y => Some (ConstValue.Bool (negb x || y))
  | _, _ => None
  end.

Definition eval_gt (a b : ConstValue) : option ConstValue :=
  match a, b with
  | Int x, Int y | UInt x, UInt y => Some (ConstValue.Bool (x >? y))
  | Float x, Float y => Some (ConstValue.Bool (f64_ltb y x))
  | ConstValue.Bool x, ConstValue.Bool y => Some (ConstValue.Bool (x && negb y))
  | _, _ => None
  end.

Definition eval_ge (a b : ConstValue) : option ConstValue :=
  match a, b with
  | Int x, Int y | UInt x, UInt y => Some (ConstValue.Bool (x >=? y))
  | Float x, Float y => Some (ConstValue.Bool (f64_leb y x))
  | ConstValue.Bool x, ConstValue.Bool y => Some (ConstValue.Bool (x || negb y))
  | _, _ => None
  end.

(** ** Bitwise operations *)

Definition eval_and (a b : ConstValue) : option ConstValue :=
  match a, b with
  | Int x, Int y => Some (Int (Z.land x y))
  | UInt x, UInt y => Some (UInt (Z.land x y))
  | ConstValue.Bool x, ConstValue.Bool y => Some (ConstValue.Bool (x && y))
  | _, _ => None
  end.

Definition eval_or (a b : ConstValue) : option ConstValue :=
  match a, b with
  | Int x, Int y => Some (Int (Z.lor x y))
  | UInt x, UInt y => Some (UInt (Z.lor x y))
  | ConstValue.Bool x, ConstValue.Bool y => Some (ConstValue.Bool (x || y))
  | _, _ => None
  end.

Definition eval_xor (a b : ConstValue) : option ConstValue :=
  match a, b with
  | Int x, Int y => Some (Int (Z.lxor x y))
  | UInt x, UInt y => Some (UInt (Z.lxor x y))
  | ConstValue.Bool x, ConstValue.Bool y => Some (ConstValue.Bool (xorb x y))
  | _, _ => None
  end.

Definition eval_shl (a b : ConstValue) : option ConstValue :=
  match a, b with
  | Int x, Int y =>
      if (0 <=? y) && (y <? 64) then Some (Int (wrap_s 64 (Z.shiftl x y))) else None
  | UInt x, UInt y => if y <? 64 then Some (UInt (wrap_u 64 (Z.shiftl x y))) else None
  | _, _ => None
  end.

Definition eval_shr (a b : ConstValue) : option ConstValue :=
  match a, b with
  | Int x, Int y => if (0 <=? y) && (y <? 64) then Some (Int (Z.shiftr x y)) else None
  | UInt x, UInt y => if y <? 64 then Some (UInt (Z.shiftr x y)) else None
  | _, _ => None
  end.

Definition eval_binary_op (op : BinaryOp) (a b : ConstValue) : option ConstValue :=
  if const_eqb a Invalid || const_eqb b Invalid then Some Invalid
  else match op with
  | BinaryOp.Add => eval_add a b
  | BinaryOp.Mul => eval_mul a b
  | BinaryOp.Sub => eval_sub a b
  | BinaryOp.FloorMod => eval_floor_mod a b
  | BinaryOp.CMod => eval_cmod a b
  | BinaryOp.Max => eval_max a b
  | BinaryOp.Pow => eval_pow a b
  | BinaryOp.FloorDiv => eval_floor_div a b
  | BinaryOp.CDiv => eval_cdiv a b
  | BinaryOp.Fdiv => eval_fdiv a b
  | BinaryOp.Lt => eval_lt a b
  | BinaryOp.Le => eval_le a b
  | BinaryOp.Eq => eval_eq a b
  | BinaryOp.Ne => eval_ne a b
  | BinaryOp.Gt => eval_gt a b
  | BinaryOp.Ge => eval_ge a b
  | BinaryOp.And => eval_and a b
  | BinaryOp.Or => eval_or a b
  | BinaryOp.Xor => eval_xor a b
  | BinaryOp.Shl => eval_shl a b
  | BinaryOp.Shr => eval_shr a b
  | BinaryOp.Threefry => None
  end.

(** ** Ternary operations *)

Definition eval_where (cond true_val false_val : ConstValue) : option ConstValue :=
  match cond with
  | ConstValue.Bool true => Some true_val
  | ConstValue.Bool false => Some false_val
  | _ => None
  end.

Definition eval_mulacc (a b c : ConstValue) : option ConstValue :=
  let? mul_result := eval_mul a b in eval_add mul_result c.

Definition eval_ternary_op (op : TernaryOp) (a b c : ConstValue) : option ConstValue :=
  match op with
  | TernaryOp.Where => eval_where a b c
  | TernaryOp.MulAcc => eval_mulacc a b c
  end.

(** ** Dtype-aware evaluation *)

Definition commit_eval_result (value : ConstValue) (dtype : ScalarDType) : option ConstValue :=
  const_cast value (Scalar dtype).

Definition eval_unary_op_typed op v dtype : option ConstValue :=
  let? r := eval_unary_op op v in commit_eval_result r dtype.

Definition eval_binary_op_typed op a b dtype : option ConstValue :=
  let? r := eval_binary_op op a b in commit_eval_result r dtype.

Definition eval_ternary_op_typed op a b c dtype : option ConstValue :=
  let? r := eval_ternary_op op a b c in commit_eval_result r dtype.

Definition eval_add_typed a b dtype : option ConstValue :=
  let? r := eval_add a b in commit_eval_result r dtype.
Definition eval_mul_typed a b dtype : option ConstValue :=
  let? r := eval_mul a b in commit_eval_result r dtype.
Definition eval_sub_typed a b dtype : option ConstValue :=
  let? r := eval_sub a b in commit_eval_result r dtype.

(** ** Vector constants *)

Definition eval_binary_op_vec (op : BinaryOp) (a b : list ConstValue)
    : option (list ConstValue) :=
  if negb (List.length a =? List.length b)%nat then None
  else collect (fun '(av, bv) => eval_binary_op op av bv) (List.combine a b).

Definition eval_binary_op_broadcast (op : BinaryOp) (a b : list ConstValue)
    : option (list ConstValue) :=
  match a, b with
  | [a0], [b0] => let? v := eval_binary_op op a0 b0 in Some [v]
  | _ :: _ :: _, [b0] => collect (fun av => eval_binary_op op av b0) a
  | [a0], _ :: _ :: _ => collect (fun bv => eval_binary_op op a0 bv) b
  | _, _ =>
      if (List.length a =? List.length b)%nat then eval_binary_op_vec op a b else None
  end.

(** The vector variants commit with [truncate], which panics where the cast
    has no result; a panic is a [None] here as well. *)
Definition truncate_all (dtype : ScalarDType) (vs : list ConstValue) : option (list ConstValue) :=
  collect (fun v => truncate v dtype) vs.

Definition eval_binary_op_vec_typed op a b dtype : option (list ConstValue) :=
  let? vs := eval_binary_op_vec op a b in truncate_all dtype vs.

Definition eval_binary_op_broadcast_typed op a b dtype : option (list ConstValue) :=
  let? vs := eval_binary_op_broadcast op a b in truncate_all dtype vs.

Definition eval_unary_op_vec (op : UnaryOp) (values : list ConstValue)
    : option (list ConstValue) :=
  collect (fun v => eval_unary_op op v) values.

Definition eval_unary_op_vec_typed op values dtype : option (list ConstValue) :=
  let? vs := eval_unary_op_vec op values in truncate_all dtype vs.
End Eval.
