(* ===== verification/EvalSpec.v ===== *)
(** * Correctness of the constant folder

    What [eval_*] compute, in terms of mathematical integers: typed results
    lie in their dtype, ring operations are modular arithmetic at the dtype's
    width, divisions are the four textbook divisions, and the classification
    predicates of [BinaryOp] are sound for the evaluator. *)

From Stdlib Require Import Floats.SpecFloat.
From S2P Require Import Prelude F64 Cast ConstVal Ops IntView Eval.
Import ConstValue.
From S2P Require Import DType.

(** ** Machine values are closed under evaluation *)

Lemma in_s64_trunc f : in_s 64 (f64_as_i 64 f).
Proof.
  unfold f64_as_i, f64_as_int, clamp, in_s. destruct f; try (destruct s); solve_fits.
Qed.

Lemma in_u64_trunc f : in_u 64 (f64_as_u 64 f).
Proof.
  unfold f64_as_u, f64_as_int, clamp, in_u. destruct f; try (destruct s); solve_fits.
Qed.

Lemma quot_bounds x y : y <> 0 -> - Z.abs x <= Z.quot x y <= Z.abs x.
Proof.
  intros Hy. assert (Z.abs (Z.quot x y) <= Z.abs x); [| lia].
  rewrite <- Z.quot_abs by assumption. apply Z.quot_le_upper_bound; [lia |].
  assert (1 <= Z.abs y) by lia. nia.
Qed.

Lemma rem_bounds x y : y <> 0 -> - Z.abs y < Z.rem x y < Z.abs y.
Proof. intros Hy. pose proof (Z.rem_bound_abs x y Hy). lia. Qed.

Lemma checked_div_spec x y :
  in_s 64 x -> in_s 64 y -> y <> 0 ->
  checked_div_i64 x y = if bool_decide (in_s 64 (Z.quot x y)) then Some (Z.quot x y) else None.
Proof.
  intros Hx Hy Hy0. unfold checked_div_i64, i64_min, in_s in *.
  rewrite (proj2 (Z.eqb_neq y 0) Hy0). cbn [orb].
  destruct (Z.eqb_spec x (- 2 ^ 63)), (Z.eqb_spec y (-1)); cbn [andb]; subst.
  - rewrite bool_decide_false; [reflexivity |]. vm_compute. intuition congruence.
  - rewrite bool_decide_true; [reflexivity |].
    assert (Z.abs (Z.quot (- 2 ^ 63) y) <= 2 ^ 63 - 1 \/ y = 1) as [H | ->]; [| solve_fits |].
    + destruct (Z.eq_dec y 1); [tauto | left]. rewrite <- Z.quot_abs by assumption.
      apply Z.quot_le_upper_bound; [lia |].
      assert (2 <= Z.abs y) by lia. solve_fits.
    + vm_compute. intuition congruence.
  - rewrite bool_decide_true; [reflexivity |].
    replace (Z.quot x (-1)) with (- x); [solve_fits |].
    change (-1) with (- (1)). rewrite Z.quot_opp_r, Z.quot_1_r by lia. reflexivity.
  - rewrite bool_decide_true; [reflexivity |]. pose proof (quot_bounds x y Hy0). solve_fits.
Qed.

Lemma checked_rem_Some x y r : checked_rem_i64 x y = Some r -> r = Z.rem x y /\ y <> 0.
Proof.
  unfold checked_rem_i64. intros H. destruct ((y =? 0) || _) eqn:E; inv_opt; zb; auto.
Qed.

Lemma checked_div_Some x y q : checked_div_i64 x y = Some q -> q = Z.quot x y /\ y <> 0.
Proof.
  unfold checked_div_i64. intros H. destruct ((y =? 0) || _) eqn:E; inv_opt; zb; auto.
Qed.

(** The four integer divisions, by the floor and truncating divisions of [Z]. *)
Lemma floor_of_quot x y :
  y <> 0 ->
  x / y = (if negb (Z.rem x y =? 0) && xorb (x <? 0) (y <? 0)
           then Z.quot x y - 1 else Z.quot x y)
  /\ x mod y = (if negb (Z.rem x y =? 0) && xorb (Z.rem x y <? 0) (y <? 0)
                then Z.rem x y + y else Z.rem x y).
Proof.
  intros Hy. pose proof (Z.quot_rem x y Hy) as E. pose proof (rem_bounds x y Hy) as B.
  assert (S : 0 <= Z.rem x y * x) by (apply Z.rem_sign_mul; assumption).
  assert (Q : forall q r, x = y * q + r -> (0 <= r < y \/ y < r <= 0) ->
                x / y = q /\ x mod y = r).
  { intros q r Hx Hr. split; symmetry.
    - now apply (Z.div_unique x y q r).
    - now apply (Z.mod_unique x y q r). }
  destruct (Z.eqb_spec (Z.rem x y) 0) as [R | R]; cbn [negb andb].
  - apply Q; lia.
  - assert (x <> 0) by (intros ->; apply R, Z.rem_0_l; assumption).
    assert (Hs : xorb (x <? 0) (y <? 0) = xorb (Z.rem x y <? 0) (y <? 0)).
    { f_equal. destruct (Z.ltb_spec x 0), (Z.ltb_spec (Z.rem x y) 0); try reflexivity; exfalso; clear Q E B; nia. }
    rewrite Hs. destruct (Z.ltb_spec (Z.rem x y) 0), (Z.ltb_spec y 0); cbn [xorb];
      apply Q; lia.
Qed.

(** ** Algebra of the operations *)

Lemma f64_add_comm x y : f64_add x y = f64_add y x.
Proof.
  destruct x as [[] | [] | | sx mx ex], y as [[] | [] | | sy my ey]; try reflexivity.
  unfold f64_add, SFadd. cbv zeta. rewrite (Z.min_comm ey ex). f_equal. apply Z.add_comm.
Qed.

Lemma f64_mul_comm x y : f64_mul x y = f64_mul y x.
Proof.
  destruct x as [[] | [] | | [] mx ex], y as [[] | [] | | [] my ey]; try reflexivity;
    unfold f64_mul, SFmul; now rewrite (Pos.mul_comm my mx), (Z.add_comm ey ex).
Qed.

Lemma SFcompare_swap x y : SFcompare y x = option_map CompOpp (SFcompare x y).
Proof.
  destruct x as [[] | [] | | [] mx ex], y as [[] | [] | | [] my ey]; try reflexivity;
    cbn [SFcompare option_map]; rewrite (Z.compare_antisym ex ey);
    destruct (ex ?= ey); cbn; try reflexivity; do 2 f_equal;
    change (Pos.compare_cont Eq) with Pos.compare; rewrite (Pos.compare_antisym mx my);
    now rewrite ?CompOpp_involutive.
Qed.

Lemma f64_eqb_comm x y : f64_eqb x y = f64_eqb y x.
Proof.
  unfold f64_eqb, SFeqb. rewrite (SFcompare_swap x y).
  destruct (SFcompare x y) as [[] |]; reflexivity.
Qed.

(** [max] of floats is symmetric up to the sign of zero. *)
Definition zeros (a b : ConstValue) : bool :=
  match a, b with ConstValue.Float (S754_zero _), ConstValue.Float (S754_zero _) => true | _, _ => false end.

Lemma SFcompare_eq x y :
  SFcompare x y = Some Eq -> x = y \/ exists s t, x = S754_zero s /\ y = S754_zero t.
Proof.
  destruct x as [s | [] | | [] mx ex], y as [t | [] | | [] my ey]; cbn; intros H;
    try discriminate; eauto; left;
    destruct (Z.compare_spec ex ey) as [-> | |]; try discriminate;
    change (Pos.compare_cont Eq) with Pos.compare in H;
    destruct (Pos.compare_spec mx my) as [-> | |]; try discriminate; reflexivity.
Qed.

Lemma f64_max_comm x y : zeros (ConstValue.Float x) (ConstValue.Float y) = false -> f64_max x y = f64_max y x.
Proof.
  intros Hz. unfold f64_max, f64_ltb, SFltb. rewrite (SFcompare_swap x y).
  destruct (f64_is_nan x) eqn:Nx, (f64_is_nan y) eqn:Ny; try reflexivity.
  - destruct x, y; try discriminate; reflexivity.
  - destruct (SFcompare x y) as [[] |] eqn:C; try reflexivity.
    + apply SFcompare_eq in C as [-> | (s & t & -> & ->)]; [reflexivity | discriminate].
    + destruct x, y; discriminate.
Qed.

Section Algebra.
Context {M : LibM}.

Lemma eval_typed_op op a b :
  const_eqb a Invalid = false -> const_eqb b Invalid = false ->
  eval_binary_op op a b = match op with
    | BinaryOp.Add => eval_add a b | BinaryOp.Mul => eval_mul a b
    | BinaryOp.Sub => eval_sub a b | BinaryOp.FloorMod => eval_floor_mod a b
    | BinaryOp.CMod => eval_cmod a b | BinaryOp.Max => eval_max a b
    | BinaryOp.Pow => eval_pow a b | BinaryOp.FloorDiv => eval_floor_div a b
    | BinaryOp.CDiv => eval_cdiv a b | BinaryOp.Fdiv => eval_fdiv a b
    | BinaryOp.Lt => eval_lt a b | BinaryOp.Le => eval_le a b
    | BinaryOp.Eq => eval_eq a b | BinaryOp.Ne => eval_ne a b
    | BinaryOp.Gt => eval_gt a b | BinaryOp.Ge => eval_ge a b
    | BinaryOp.And => eval_and a b | BinaryOp.Or => eval_or a b
    | BinaryOp.Xor => eval_xor a b | BinaryOp.Shl => eval_shl a b
    | BinaryOp.Shr => eval_shr a b | BinaryOp.Threefry => None
    end.
Proof. intros Ha Hb. unfold eval_binary_op. now rewrite Ha, Hb. Qed.

(** Operations flagged commutative commute under evaluation. *)
Theorem commutative_ops_commute op a b :
  BinaryOp.is_commutative op = true -> (op = BinaryOp.Max -> zeros a b = false) ->
  eval_binary_op op a b = eval_binary_op op b a.
Proof.
  intros Hc Hmax. unfold eval_binary_op. rewrite orb_comm.
  destruct (const_eqb b Invalid || const_eqb a Invalid); [reflexivity |].
  destruct op; try discriminate Hc; destruct a as [| x | x | x | x], b as [| y | y | y | y];
    try reflexivity;
    cbn -[f64_max f64_add f64_mul f64_eqb wrap_s wrap_u Z.add Z.mul Z.max Z.land Z.lor Z.lxor];
    first [ now rewrite Z.add_comm | now rewrite Z.mul_comm | now rewrite Z.max_comm
          | now rewrite Z.land_comm | now rewrite Z.lor_comm | now rewrite Z.lxor_comm
          | now rewrite Z.eqb_sym | now rewrite f64_add_comm | now rewrite f64_mul_comm
          | now rewrite f64_eqb_comm | rewrite f64_max_comm; [reflexivity | now apply Hmax]
          | destruct x, y; reflexivity ].
Qed.

(** The variant of a constant. *)
Definition kind (c : ConstValue) : Z :=
  match c with
  | Invalid => 0 | Int _ => 1 | UInt _ => 2 | ConstValue.Float _ => 3 | ConstValue.Bool _ => 4
  end.

Lemma wrap_s_add_l x y : wrap_s 64 (wrap_s 64 x + y) = wrap_s 64 (x + y).
Proof.
  destruct (wrap_s_cong 64 ltac:(lia) x) as [k ->].
  replace (x + k * 2 ^ 64 + y) with (x + y + k * 2 ^ 64) by ring. now apply wrap_s_add.
Qed.
Lemma wrap_s_mul_l x y : wrap_s 64 (wrap_s 64 x * y) = wrap_s 64 (x * y).
Proof.
  destruct (wrap_s_cong 64 ltac:(lia) x) as [k ->].
  replace ((x + k * 2 ^ 64) * y) with (x * y + (k * y) * 2 ^ 64) by ring. now apply wrap_s_add.
Qed.
Lemma wrap_u_add_l x y : wrap_u 64 (wrap_u 64 x + y) = wrap_u 64 (x + y).
Proof. unfold wrap_u. now rewrite Zplus_mod_idemp_l. Qed.
Lemma wrap_s_add_r x y : wrap_s 64 (x + wrap_s 64 y) = wrap_s 64 (x + y).
Proof. now rewrite Z.add_comm, wrap_s_add_l, Z.add_comm. Qed.
Lemma wrap_s_mul_r x y : wrap_s 64 (x * wrap_s 64 y) = wrap_s 64 (x * y).
Proof. now rewrite Z.mul_comm, wrap_s_mul_l, Z.mul_comm. Qed.

(** Operations flagged associative associate on operands of one variant
    other than floats. *)
Theorem associative_ops_associate op a b c :
  BinaryOp.is_associative op = true ->
  kind a = kind b -> kind b = kind c -> kind c <> 3 ->
  (let? ab := eval_binary_op op a b in eval_binary_op op ab c)
  = (let? bc := eval_binary_op op b c in eval_binary_op op a bc).
Proof.
  intros Ha Kab Kbc Kf.
  destruct a as [| x | x | x | x], b as [| y | y | y | y]; try discriminate Kab;
    destruct c as [| z | z | z | z]; try discriminate Kbc; try (now elim Kf);
    destruct op; try discriminate Ha; try reflexivity;
    cbn -[wrap_s wrap_u Z.max Z.add Z.mul Z.land Z.lor];
    do 2 f_equal;
    first [ now rewrite wrap_s_add_l, wrap_s_add_r, Z.add_assoc
          | now rewrite wrap_s_mul_l, wrap_s_mul_r, Z.mul_assoc
          | unfold wrap_u; now rewrite Zplus_mod_idemp_l, Zplus_mod_idemp_r, Z.add_assoc
          | unfold wrap_u; now rewrite Zmult_mod_idemp_l, Zmult_mod_idemp_r, Z.mul_assoc
          | now rewrite Z.land_assoc | now rewrite Z.lor_assoc | now rewrite Z.max_assoc
          | destruct x, y, z; reflexivity ].
Qed.

(** Operations flagged idempotent return their operand, where they apply. *)
Theorem idempotent_ops op a r :
  BinaryOp.is_idempotent op = true -> eval_binary_op op a a = Some r -> r = a.
Proof.
  intros Hi H. destruct op; try discriminate Hi; destruct a as [| x | x | x | []];
    cbn -[f64_max Z.max] in H; inv_opt; try reflexivity;
    rewrite ?Z.land_diag, ?Z.lor_diag, ?Z.max_id; try reflexivity.
  unfold f64_max, f64_ltb, SFltb. destruct (f64_is_nan x); [reflexivity |].
  destruct (SFcompare x x) as [[] |]; reflexivity.
Qed.

(** ** Machine values are closed under evaluation *)

Lemma land_s64 x y : in_s 64 x -> in_s 64 y -> in_s 64 (Z.land x y).
Proof. rewrite !in_s_bits by lia. intros Hx Hy n Hn. now rewrite !Z.land_spec, Hx, Hy. Qed.
Lemma lor_s64 x y : in_s 64 x -> in_s 64 y -> in_s 64 (Z.lor x y).
Proof. rewrite !in_s_bits by lia. intros Hx Hy n Hn. now rewrite !Z.lor_spec, Hx, Hy. Qed.
Lemma lxor_s64 x y : in_s 64 x -> in_s 64 y -> in_s 64 (Z.lxor x y).
Proof. rewrite !in_s_bits by lia. intros Hx Hy n Hn. now rewrite !Z.lxor_spec, Hx, Hy. Qed.
Lemma shiftr_s64 x y : in_s 64 x -> 0 <= y -> in_s 64 (Z.shiftr x y).
Proof.
  rewrite !in_s_bits by lia. intros Hx Hy n Hn.
  rewrite !Z.shiftr_spec by lia. rewrite (Hx (n + y)), (Hx (64 - 1 + y)) by lia. reflexivity.
Qed.
Lemma land_u64 x y : in_u 64 x -> in_u 64 y -> in_u 64 (Z.land x y).
Proof. rewrite !in_u_bits by lia. intros Hx Hy n Hn. now rewrite Z.land_spec, Hx. Qed.
Lemma lxor_u64 x y : in_u 64 x -> in_u 64 y -> in_u 64 (Z.lxor x y).
Proof. rewrite !in_u_bits by lia. intros Hx Hy n Hn. now rewrite Z.lxor_spec, Hx, Hy. Qed.
Lemma shiftr_u64 x y : in_u 64 x -> 0 <= y -> in_u 64 (Z.shiftr x y).
Proof. rewrite !in_u_bits by lia. intros Hx Hy n Hn. rewrite Z.shiftr_spec by lia. apply Hx; lia. Qed.
Lemma lor_u64 x y : in_u 64 x -> in_u 64 y -> in_u 64 (Z.lor x y).
Proof. apply lor_bound; lia. Qed.

Lemma checked_div_range x y q :
  in_s 64 x -> in_s 64 y -> checked_div_i64 x y = Some q -> in_s 64 q.
Proof.
  intros Hx Hy H. pose proof (checked_div_Some _ _ _ H) as [-> Hy0].
  rewrite checked_div_spec in H by assumption. case_bool_decide; congruence.
Qed.

Lemma quot_half x y : in_s 64 x -> 2 <= Z.abs y -> - 2 ^ 62 <= Z.quot x y <= 2 ^ 62.
Proof.
  intros Hx Hy. assert (Z.abs (Z.quot x y) <= 2 ^ 62); [| lia].
  rewrite <- Z.quot_abs by lia. unfold in_s in Hx.
  apply Z.quot_le_upper_bound; [lia |]. solve_fits.
Qed.

(** The divisions of [i64] by the textbook divisions of [Z]: truncating and
    floor quotients and remainders, with no result exactly for a zero divisor
    or the one overflowing quotient. *)
Lemma int_divisions x y :
  in_s 64 x -> in_s 64 y ->
  let ok z := if (y =? 0) || ((x =? - 2 ^ 63) && (y =? -1)) then None else Some (Int z) in
  eval_cdiv (Int x) (Int y) = ok (Z.quot x y)
  /\ eval_cmod (Int x) (Int y) = ok (Z.rem x y)
  /\ eval_floor_div (Int x) (Int y) = ok (x / y)
  /\ eval_floor_mod (Int x) (Int y) = ok (x mod y).
Proof.
  intros Hx Hy ok. subst ok. cbn beta.
  unfold eval_cdiv, eval_cmod, eval_floor_div, eval_floor_mod,
    checked_div_i64, checked_rem_i64, i64_min.
  destruct (Z.eqb_spec y 0) as [-> | Hy0]; [repeat split |]. cbn [negb orb].
  destruct ((x =? - 2 ^ 63) && (y =? -1)); [repeat split |].
  destruct (floor_of_quot x y Hy0) as [E1 E2].
  split; [reflexivity | split; [reflexivity |]]. rewrite E1, E2. split; reflexivity.
Qed.

(** [closed f]: the operation keeps machine constants machine constants. *)
Definition closed (f : ConstValue -> ConstValue -> option ConstValue) : Prop :=
  forall a b r, machine a -> machine b -> f a b = Some r -> machine r.

Lemma udiv_range x y : in_u 64 x -> in_u 64 y -> y <> 0 -> in_u 64 (x / y) /\ in_u 64 (x mod y).
Proof.
  unfold in_u. intros Hx Hy Hy0. pose proof (Z.mod_pos_bound x y ltac:(lia)).
  pose proof (Z.div_pos x y ltac:(lia) ltac:(lia)).
  pose proof (Z.div_le_upper_bound x y x ltac:(lia) ltac:(nia)). lia.
Qed.

Lemma floor_mod_range x y : in_s 64 y -> y <> 0 -> in_s 64 (x mod y).
Proof.
  unfold in_s. intros Hy Hy0. destruct (Z.lt_trichotomy y 0) as [Hs | [Hs | Hs]]; [| lia |].
  - pose proof (Z.mod_neg_bound x y Hs). lia.
  - pose proof (Z.mod_pos_bound x y Hs). lia.
Qed.

Lemma floor_div_range x y :
  in_s 64 x -> in_s 64 y -> y <> 0 -> (x = - 2 ^ 63 -> y <> -1) -> in_s 64 (x / y).
Proof.
  intros Hx Hy Hy0 Ho. destruct (floor_of_quot x y Hy0) as [-> _].
  destruct (negb (Z.rem x y =? 0) && _) eqn:C.
  - zb. assert (2 <= Z.abs y).
    { destruct (Z.eq_dec (Z.abs y) 1) as [A |]; [| lia]. exfalso. apply H.
      assert (y = 1 \/ y = -1) as [-> | ->] by lia; [apply Z.rem_1_r |].
      change (-1) with (- (1)). rewrite Z.rem_opp_r by lia. apply Z.rem_1_r. }
    pose proof (quot_half x y Hx ltac:(assumption)). unfold in_s. solve_fits.
  - pose proof (checked_div_spec x y Hx Hy Hy0) as E. unfold checked_div_i64, i64_min in E.
    rewrite (proj2 (Z.eqb_neq y 0) Hy0) in E. cbn [orb] in E.
    destruct (Z.eqb_spec x (- 2 ^ 63)), (Z.eqb_spec y (-1)); cbn [andb] in E;
      try (exfalso; exact (Ho ltac:(assumption) ltac:(assumption)));
      case_bool_decide; congruence.
Qed.

Lemma division_closed :
  closed eval_cdiv /\ closed eval_cmod /\ closed eval_floor_div /\ closed eval_floor_mod.
Proof.
  assert (S : forall x y z, in_s 64 x -> in_s 64 y ->
    (y <> 0 -> (x = - 2 ^ 63 -> y <> -1) -> in_s 64 z) ->
    forall r, (if (y =? 0) || ((x =? - 2 ^ 63) && (y =? -1)) then None else Some (Int z)) = Some r ->
    machine r).
  { intros x y z Hx Hy Hz r.
    destruct (Z.eqb_spec y 0), (Z.eqb_spec x (- 2 ^ 63)), (Z.eqb_spec y (-1));
      cbn [orb andb]; intros E; try discriminate; injection E as <-; apply Hz; congruence. }
  assert (U : forall x y z, in_u 64 x -> in_u 64 y -> (y <> 0 -> in_u 64 z) ->
    forall r, (if negb (y =? 0) then Some (UInt z) else None) = Some r -> machine r).
  { intros x y z Hx Hy Hz r. destruct (Z.eqb_spec y 0); cbn [negb]; intros E;
      try discriminate; injection E as <-; apply Hz; assumption. }
  repeat split; intros [| x | x | x | x] [| y | y | y | y] r Ha Hb; try discriminate;
    cbn [machine] in Ha, Hb;
    try (destruct (int_divisions x y Ha Hb) as (E1 & E2 & E3 & E4);
         first [rewrite E1 | rewrite E2 | rewrite E3 | rewrite E4];
         apply (S x y _ Ha Hb); intros Hy0 Ho);
    try (apply (U x y _ Ha Hb); intros Hy0; now apply udiv_range).
  - pose proof (checked_div_spec x y Ha Hb Hy0) as E. unfold checked_div_i64, i64_min in E.
    rewrite (proj2 (Z.eqb_neq y 0) Hy0) in E. cbn [orb] in E.
    destruct (Z.eqb_spec x (- 2 ^ 63)), (Z.eqb_spec y (-1)); cbn [andb] in E;
      try (exfalso; exact (Ho ltac:(assumption) ltac:(assumption)));
      case_bool_decide; congruence.
  - pose proof (rem_bounds x y Hy0). unfold in_s in *. lia.
  - now apply floor_div_range.
  - now apply floor_mod_range.
Qed.

Lemma arith_closed :
  closed eval_add /\ closed eval_sub /\ closed eval_mul /\ closed eval_max
  /\ closed eval_pow /\ closed eval_fdiv.
Proof.
  assert (W : forall z, machine (Int (wrap_s 64 z))) by (intros; apply wrap_s_range; lia).
  assert (U : forall z, machine (UInt (wrap_u 64 z))) by (intros; apply wrap_u_range; lia).
  repeat split; intros [| x | x | x | x] [| y | y | y | y] r Ha Hb H; try discriminate H;
    unfold eval_pow in H; try destruct (y >=? 0); try discriminate H;
    injection H as <-; try exact I; auto;
    try apply in_s64_trunc; try apply in_u64_trunc;
    cbn [machine] in *; unfold in_s, in_u in *; lia.
Qed.

Lemma bitwise_closed :
  closed eval_and /\ closed eval_or /\ closed eval_xor /\ closed eval_shl /\ closed eval_shr.
Proof.
  repeat split; intros [| x | x | x | x] [| y | y | y | y] r Ha Hb H; try discriminate H;
    unfold eval_shl, eval_shr in H; cbn [machine] in Ha, Hb; inv_opt; try exact I;
    try (injection H as <-; first [exact I | cbn [machine];
      auto using land_s64, lor_s64, lxor_s64, land_u64, lor_u64, lxor_u64]);
    cbn [machine]; zb;
    first [apply wrap_s_range; lia | apply wrap_u_range; lia
          | apply shiftr_s64; assumption | apply shiftr_u64; [assumption | unfold in_u in *; lia]
          | auto using land_s64, lor_s64, lxor_s64, land_u64, lor_u64, lxor_u64].
Qed.

Lemma comparison_bool op a b r :
  BinaryOp.is_comparison op = true -> const_eqb a Invalid = false -> const_eqb b Invalid = false ->
  eval_binary_op op a b = Some r -> exists v, r = ConstValue.Bool v.
Proof.
  intros Hc Ha Hb. rewrite eval_typed_op by assumption.
  destruct op; try discriminate Hc; destruct a, b; intros H; try discriminate H;
    injection H as <-; eauto.
Qed.

Lemma eval_binary_machine op : closed (eval_binary_op op).
Proof.
  intros a b r Ha Hb H. destruct (const_eqb a Invalid) eqn:Ia.
  { unfold eval_binary_op in H. rewrite Ia in H. injection H as <-. exact I. }
  destruct (const_eqb b Invalid) eqn:Ib.
  { unfold eval_binary_op in H. rewrite Ia, Ib in H. injection H as <-. exact I. }
  destruct (BinaryOp.is_comparison op) eqn:C.
  { destruct (comparison_bool op a b r C Ia Ib H) as [v ->]. exact I. }
  rewrite eval_typed_op in H by assumption.
  destruct division_closed as (D1 & D2 & D3 & D4), arith_closed as (A1 & A2 & A3 & A4 & A5 & A6),
    bitwise_closed as (B1 & B2 & B3 & B4 & B5).
  destruct op; try discriminate;
    match type of H with ?f _ _ = _ =>
      match goal with D : closed f |- _ => exact (D _ _ _ Ha Hb H) end end.
Qed.

(** ** Typed evaluation *)

Lemma commit_in_dtype r s d :
  is_int_or_bool s = true -> machine r -> commit_eval_result r s = Some d ->
  d = Invalid \/ has_dtype s d.
Proof.
  intros Hs Hm H. unfold commit_eval_result in H. destruct (to_Z r) as [z |] eqn:Z.
  - right. destruct (has_dtype_cast r z s Hs Hm Z) as (d' & E & Hd). congruence.
  - destruct r as [| | | f |]; try discriminate Z; [left; cbn in H; congruence | right].
    assert (A : forall w, 0 < w -> - 2 ^ (w - 1) <= f64_as_i w f <= 2 ^ (w - 1) - 1).
    { intros w Hw. unfold f64_as_i, f64_as_int, clamp.
      pose proof (Z.pow_pos_nonneg 2 (w - 1)). destruct f as [| [] | |]; lia. }
    assert (U : forall w, 0 < w -> 0 <= wrap_u w (f64_as_i 64 f) <= 2 ^ w - 1)
      by (intros w Hw; pose proof (wrap_u_range w Hw (f64_as_i 64 f)) as R; unfold in_u in R; lia).
    unfold const_cast, DType.scalar, impl_cast, cast_float in H.
    unfold has_dtype, fits, dtype_lo, dtype_hi, of_Z.
    destruct s; try discriminate Hs; injection H as <-; cbn [int_format];
      try (eexists; split; [| reflexivity]; first [apply A; lia | apply U; lia]).
    exists (Z.b2z (negb (f64_eqb f f64_zero))). destruct (f64_eqb f f64_zero); cbn; split;
      lia || reflexivity.
Qed.

(** C35: Folding an operation at an integer or boolean dtype yields a constant of
    that dtype, whatever the operation and the machine operands. *)
Theorem typed_binary_in_dtype op a b s d :
  is_int_or_bool s = true -> machine a -> machine b ->
  eval_binary_op_typed op a b s = Some d -> d = Invalid \/ has_dtype s d.
Proof.
  unfold eval_binary_op_typed. intros Hs Ha Hb H. inv_opt.
  eapply commit_in_dtype; [exact Hs | | exact H]. eapply (eval_binary_machine op a b); eassumption.
Qed.

(** The mathematical operation behind the three ring operations. *)
Definition ring_op (op : BinaryOp) : option (Z -> Z -> Z) :=
  match op with
  | BinaryOp.Add => Some Z.add | BinaryOp.Sub => Some Z.sub | BinaryOp.Mul => Some Z.mul
  | _ => None
  end.

Lemma wrap_to_wrap64 s z w :
  int_format s = Some w ->
  wrap_to s (if fst w then wrap_s 64 z else wrap_u 64 z) = wrap_to s z.
Proof.
  intros F. unfold wrap_to. rewrite F. destruct s; try discriminate F; injection F as <-;
    cbn [fst]; autorewrite with wrap; reflexivity.
Qed.

(** Evaluating in 64 bits and committing is arithmetic modulo the width of
    the dtype. *)
Theorem typed_ring_ops_wrap op f s x y :
  ring_op op = Some f -> is_Some (int_format s) -> fits s x -> fits s y ->
  eval_binary_op_typed op (of_Z s x) (of_Z s y) s = Some (of_Z s (wrap_to s (f x y))).
Proof.
  intros Hop [w F] Hx Hy.
  assert (Hs : is_int_or_bool s = true) by (destruct s; discriminate || reflexivity).
  unfold eval_binary_op_typed. rewrite eval_typed_op by apply of_Z_not_invalid.
  assert (E : match op with BinaryOp.Add => eval_add (of_Z s x) (of_Z s y)
              | BinaryOp.Sub => eval_sub (of_Z s x) (of_Z s y)
              | _ => eval_mul (of_Z s x) (of_Z s y) end
              = Some (if fst w then Int (wrap_s 64 (f x y)) else UInt (wrap_u 64 (f x y)))).
  { unfold of_Z. rewrite F. destruct w as [[] w]; destruct op; try discriminate Hop;
      injection Hop as <-; reflexivity. }
  destruct op; try discriminate Hop; rewrite E; unfold commit_eval_result;
    (rewrite cast_wraps with (z := if fst w then wrap_s 64 (f x y) else wrap_u 64 (f x y));
     [now rewrite (wrap_to_wrap64 s _ w F) | exact Hs | | destruct (fst w); reflexivity]);
    destruct (fst w); first [apply wrap_s_range; lia | apply wrap_u_range; lia].
Qed.

(** C36: The divisions of signed and unsigned operands by the textbook ones. *)
Theorem integer_divisions x y :
  (in_s 64 x -> in_s 64 y ->
   let ok z := if (y =? 0) || ((x =? - 2 ^ 63) && (y =? -1)) then None else Some (Int z) in
   eval_binary_op BinaryOp.CDiv (Int x) (Int y) = ok (Z.quot x y)
   /\ eval_binary_op BinaryOp.CMod (Int x) (Int y) = ok (Z.rem x y)
   /\ eval_binary_op BinaryOp.FloorDiv (Int x) (Int y) = ok (x / y)
   /\ eval_binary_op BinaryOp.FloorMod (Int x) (Int y) = ok (x mod y))
  /\ (let ok z := if y =? 0 then None else Some (UInt z) in
      eval_binary_op BinaryOp.CDiv (UInt x) (UInt y) = ok (x / y)
      /\ eval_binary_op BinaryOp.CMod (UInt x) (UInt y) = ok (x mod y)
      /\ eval_binary_op BinaryOp.FloorDiv (UInt x) (UInt y) = ok (x / y)
      /\ eval_binary_op BinaryOp.FloorMod (UInt x) (UInt y) = ok (x mod y)).
Proof.
  split.
  - intros Hx Hy. rewrite !eval_typed_op by reflexivity. apply int_divisions; assumption.
  - rewrite !eval_typed_op by reflexivity.
    unfold eval_cdiv, eval_cmod, eval_floor_div, eval_floor_mod.
    destruct (y =? 0); repeat split.
Qed.

(** ** Vector evaluation *)

(** The operand lane [i] of a vector of constants that broadcasts. *)
Definition lane (l : list ConstValue) (i : nat) : option ConstValue :=
  match l with [c] => Some c | _ => nth_error l i end.

Lemma collect_nth {A B} (f : A -> option B) l r :
  collect f l = Some r <->
  List.length r = List.length l
  /\ forall i a, nth_error l i = Some a -> exists b, nth_error r i = Some b /\ f a = Some b.
Proof.
  rewrite collect_Some. split.
  - intros H. split; [symmetry; eapply Forall2_length; exact H |].
    induction H as [| a b l r Hab _ IH]; intros [| i] x Hx; cbn in *; try discriminate.
    + injection Hx as <-. eauto.
    + apply IH, Hx.
  - intros [Hl H]. revert r Hl H. induction l as [| a l IH]; intros [| b r] Hl H;
      try discriminate; constructor.
    + destruct (H O a eq_refl) as (b' & Hb & Hf). cbn in Hb. congruence.
    + apply IH; [cbn in Hl; lia |]. intros i x Hx. exact (H (S i) x Hx).
Qed.

(** Two lengths that broadcast: equal, or one of them 1 and the other positive. *)
Definition broadcasts (m n : nat) : Prop := m = n \/ (m = 1 /\ 1 < n)%nat \/ (n = 1 /\ 1 < m)%nat.

Lemma nth_combine {A B} (a : list A) (b : list B) i x y :
  nth_error (List.combine a b) i = Some (x, y) <-> nth_error a i = Some x /\ nth_error b i = Some y.
Proof.
  revert b i. induction a as [| u a IH]; intros [| v b] [| i]; cbn;
    try (split; [discriminate | intros []; discriminate]).
  - split; [intros H; injection H as <- <-; auto | intros [H1 H2]; congruence].
  - apply IH.
Qed.

(** The lanes of an elementwise result. *)
Definition lanes_ok (op : BinaryOp) (a b r : list ConstValue) (n : nat) : Prop :=
  List.length r = n
  /\ forall i, (i < n)%nat -> exists x y v, lane a i = Some x /\ lane b i = Some y
       /\ nth_error r i = Some v /\ eval_binary_op op x y = Some v.

Lemma collect_lanes op a b (l : list (ConstValue * ConstValue)) r :
  (forall i x y, nth_error l i = Some (x, y) <->
     (i < List.length l)%nat /\ lane a i = Some x /\ lane b i = Some y) ->
  collect (fun '(x, y) => eval_binary_op op x y) l = Some r <-> lanes_ok op a b r (List.length l).
Proof.
  intros Hl. rewrite collect_nth. unfold lanes_ok. split; intros [Hr H]; (split; [exact Hr |]).
  - intros i Hi. destruct (nth_error l i) as [[x y] |] eqn:E;
      [| apply nth_error_None in E; lia].
    destruct (H i _ E) as (v & Hv & Ev). apply Hl in E as (_ & Ex & Ey). eauto 10.
  - intros i [x y] E. apply Hl in E as (Hi & Ex & Ey).
    destruct (H i Hi) as (x' & y' & v & Ex' & Ey' & Hv & Ev).
    rewrite Ex in Ex'. rewrite Ey in Ey'. injection Ex' as <-. injection Ey' as <-. eauto.
Qed.

Lemma lane_eq a i : (List.length a <> 1)%nat -> lane a i = nth_error a i.
Proof. destruct a as [| x [| y a]]; cbn; intros; congruence || reflexivity. Qed.

Lemma lane_one x i : lane [x] i = Some x.
Proof. reflexivity. Qed.

(** Broadcasting evaluation is lane-wise evaluation: it succeeds exactly when
    the lengths broadcast and every lane evaluates. *)
Theorem broadcast_lanes op a b r :
  eval_binary_op_broadcast op a b = Some r
  <-> broadcasts (List.length a) (List.length b)
      /\ lanes_ok op a b r (Nat.max (List.length a) (List.length b)).
Proof.
  assert (Vec : List.length a = List.length b -> (List.length a <> 1)%nat ->
    eval_binary_op_vec op a b = Some r
    <-> lanes_ok op a b r (Nat.max (List.length a) (List.length b))).
  { intros E N. unfold eval_binary_op_vec. rewrite E, Nat.eqb_refl, Nat.max_id. cbn [negb].
    assert (L : List.length (List.combine a b) = List.length b)
      by (rewrite length_combine; lia).
    rewrite <- L. apply collect_lanes. intros i x y.
    rewrite nth_combine, !lane_eq, L by lia. split; [| tauto]. intros [Hx Hy].
    split; [apply nth_error_Some; congruence | auto]. }
  assert (N0 : forall m n, (2 <= m)%nat -> (2 <= n)%nat -> m <> n -> ~ broadcasts m n)
    by (unfold broadcasts; lia).
  unfold eval_binary_op_broadcast.
  destruct a as [| x [| x' a]], b as [| y [| y' b]]; cbn [List.length] in *.
  all: try (split; [discriminate | intros [H _]; unfold broadcasts in H; lia]).
  - rewrite Vec by lia. unfold broadcasts. cbn. tauto.
  - split.
    + intros H. inv_opt. split; [now left |]. split; [reflexivity |].
      intros [| i] Hi; [| cbn in Hi; lia]. exists x, y. eauto.
    + intros [_ [Hr H]]. destruct (H O ltac:(cbn; lia)) as (u & w & v & Hu & Hw & Hv & E).
      injection Hu as <-. injection Hw as <-. rewrite E.
      destruct r as [| ? [| ? ?]]; try discriminate Hr. cbn in Hv. congruence.
  - change (collect (fun bv => eval_binary_op op x bv) (y :: y' :: b))
      with (collect (fun bv => (fun '(u, w) => eval_binary_op op u w) (x, bv)) (y :: y' :: b)).
    rewrite <- collect_map.
    rewrite (collect_lanes op [x] (y :: y' :: b)).
    + rewrite length_map. cbn [List.length]. rewrite Nat.max_r by lia.
      unfold broadcasts. split; [intros H; split; [lia | exact H] | tauto].
    + intros i u w. rewrite nth_error_map, lane_one, lane_eq, length_map by (cbn; lia).
      destruct (nth_error (y :: y' :: b) i) eqn:E; cbn [option_map];
        [| split; [discriminate | intuition discriminate]].
      assert (i < List.length (y :: y' :: b))%nat by (apply nth_error_Some; congruence).
      split; [intros H'; injection H' as <- <-; auto | intros (_ & H1 & H2); congruence].
  - change (collect (fun av => eval_binary_op op av y) (x :: x' :: a))
      with (collect (fun av => (fun '(u, w) => eval_binary_op op u w) (av, y)) (x :: x' :: a)).
    rewrite <- (collect_map (fun av => (av, y))).
    rewrite (collect_lanes op (x :: x' :: a) [y]).
    + rewrite length_map. cbn [List.length]. rewrite Nat.max_l by lia.
      unfold broadcasts. split; [intros H; split; [lia | exact H] | tauto].
    + intros i u w. rewrite nth_error_map, lane_one, lane_eq, length_map by (cbn; lia).
      destruct (nth_error (x :: x' :: a) i) eqn:E; cbn [option_map];
        [| split; [discriminate | intuition discriminate]].
      assert (i < List.length (x :: x' :: a))%nat by (apply nth_error_Some; congruence).
      split; [intros H'; injection H' as <- <-; auto | intros (_ & H1 & H2); congruence].
  - destruct (Nat.eqb_spec (S (S (List.length a))) (S (S (List.length b)))) as [E | E].
    + rewrite Vec by lia. unfold broadcasts. rewrite E. tauto.
    + split; [discriminate | intros [H _]; exfalso; revert H; apply N0; lia].
Qed.

(** The element [identity_element] names is neutral for the fixed-width
    signed dtypes. *)
Theorem identity_element_neutral op s x c :
  (ScalarDType.is_signed s = true \/ s = WeakInt) -> fits s x ->
  BinaryOp.identity_element op (Scalar s) = Some c ->
  eval_binary_op_typed op (of_Z s x) c s = Some (of_Z s x).
Proof.
  intros Hs Hx Hc.
  assert (Hib : is_int_or_bool s = true) by (destruct s; destruct Hs; discriminate || reflexivity).
  assert (F : exists w, int_format s = Some (true, w))
    by (destruct s; destruct Hs; try discriminate; eexists; reflexivity).
  destruct F as [w F]. assert (Hm := fits_machine s x Hib Hx). unfold of_Z in *. rewrite F in *.
  cbn [machine] in Hm.
  assert (C : commit_eval_result (Int x) s = Some (Int x)).
  { unfold commit_eval_result. rewrite (cast_wraps (Int x) x s Hib Hm eq_refl).
    rewrite wrap_to_id by assumption. unfold of_Z. now rewrite F. }
  assert (Hf : DType.is_float (Scalar s) = false) by (destruct s; destruct Hs; discriminate || reflexivity).
  unfold eval_binary_op_typed, BinaryOp.identity_element in *. rewrite Hf in Hc.
  destruct op; try discriminate Hc; injection Hc as <-; rewrite eval_typed_op by reflexivity;
    cbn [eval_add eval_mul eval_max].
  - rewrite Z.add_0_r, wrap_s_small by (lia || assumption). exact C.
  - rewrite Z.mul_1_r, wrap_s_small by (lia || assumption). exact C.
  - rewrite Z.max_l; [exact C |]. unfold fits, dtype_lo in Hx. rewrite F in Hx.
    destruct s; destruct Hs; try discriminate; injection F as <-; 
      match goal with |- ?l <= _ => let v := eval vm_compute in l in change l with v end; solve_fits.
Qed.

(** For [Index] the identity named for [Max] is 0, which is not neutral. *)
Theorem identity_element_index_max :
  BinaryOp.identity_element BinaryOp.Max (Scalar Index) = Some (Int 0)
  /\ eval_binary_op_typed BinaryOp.Max (Int (-5)) (Int 0) Index = Some (Int 0).
Proof. split; vm_compute; reflexivity. Qed.
End Algebra.

(** ** Concrete inputs *)

Lemma commutative_ops_commute_witness :
  eval_binary_op (M := demo_libm) BinaryOp.Max (Int 3) (Int (-4))
  = eval_binary_op (M := demo_libm) BinaryOp.Max (Int (-4)) (Int 3).
Proof.
  apply (commutative_ops_commute (M := demo_libm) BinaryOp.Max (Int 3) (Int (-4))); reflexivity.
Defined.

Lemma associative_ops_associate_witness :
  let a := Int (2 ^ 62) in let b := Int (2 ^ 62) in let c := Int (-7) in
  (let? ab := eval_binary_op (M := demo_libm) BinaryOp.Add a b in
   eval_binary_op (M := demo_libm) BinaryOp.Add ab c)
  = (let? bc := eval_binary_op (M := demo_libm) BinaryOp.Add b c in
     eval_binary_op (M := demo_libm) BinaryOp.Add a bc).
Proof.
  apply (associative_ops_associate (M := demo_libm) BinaryOp.Add (Int (2 ^ 62)) (Int (2 ^ 62)) (Int (-7)));
    [reflexivity | reflexivity | reflexivity | discriminate].
Defined.

Lemma idempotent_ops_witness : Int 12 = Int 12.
Proof. apply (idempotent_ops (M := demo_libm) BinaryOp.And (Int 12) (Int 12)); reflexivity. Defined.

Lemma typed_binary_in_dtype_witness : UInt 44 = Invalid \/ has_dtype UInt8 (UInt 44).
Proof.
  apply (typed_binary_in_dtype (M := demo_libm) BinaryOp.Add (UInt 200) (UInt 100) UInt8);
    [reflexivity | vm_compute; intuition congruence | vm_compute; intuition congruence | reflexivity].
Defined.

Lemma typed_ring_ops_wrap_witness :
  eval_binary_op_typed (M := demo_libm) BinaryOp.Mul (of_Z Int8 100) (of_Z Int8 3) Int8
  = Some (of_Z Int8 (wrap_to Int8 300)).
Proof.
  apply (typed_ring_ops_wrap (M := demo_libm) BinaryOp.Mul Z.mul Int8 100 3);
    [reflexivity | eexists; reflexivity | vm_compute; intuition congruence | vm_compute; intuition congruence].
Defined.

Lemma identity_element_neutral_witness :
  eval_binary_op_typed (M := demo_libm) BinaryOp.Max (of_Z Int16 (-77)) (Int (-32768)) Int16
  = Some (of_Z Int16 (-77)).
Proof.
  apply (identity_element_neutral (M := demo_libm) BinaryOp.Max Int16 (-77) (Int (-32768)));
    [left; reflexivity | vm_compute; intuition congruence | reflexivity].
Defined.
