(* ===== verification/Payload.v ===== *)
(** * Payloads of IR nodes ([ir/src/types.rs], [ir/src/opt.rs])

    The structured arguments carried by operations: parameter descriptors,
    staging options, call and kernel metadata, program identities.  [usize],
    [u32] and [i64] fields are [Z], byte arrays are lists of [Z]. *)

From S2P Require Import Prelude F64 DType Cast ConstVal Ops.

Record StageDigest := mkStageDigest { digest : list Z }.

Inductive StageAbiParamKind := Storage (addrspace : AddrSpace) | ScalarParam.

Module StageAbiParam.
Record t := mk { slot : Z; kind : StageAbiParamKind; dtype : DType; name : option string }.
End StageAbiParam.

Module SourceStageIdentity.
Record t := mk {
  version : Z; abi : list StageAbiParam.t; target : DeviceSpec; entry_name : string;
  linear_sha256 : StageDigest; source_sha256 : StageDigest
}.
End SourceStageIdentity.

Module BinaryStageIdentity.
Record t := mk {
  version : Z; source : SourceStageIdentity.t; compiler_key : string;
  binary_sha256 : StageDigest
}.
End BinaryStageIdentity.

(** [usize::MAX], the slot of a named variable. *)
Definition usize_max : Z := 2 ^ 64 - 1.

Module ParamArg.
Record t := mk {
  slot : Z; dtype : DType; vmin_vmax : option (ConstValue * ConstValue);
  multiple_of : option Z; name : option string; addrspace : option AddrSpace;
  axis : option Z; device : option DeviceSpec; volatile : bool
}.

Definition buffer (slot : Z) (dtype : DType) (addrspace : AddrSpace)
    (device : option DeviceSpec) : t :=
  mk slot dtype None None None (Some addrspace) None device false.

Definition variable (name : string) (dtype : DType) (min_val max_val : Z) : t :=
  mk usize_max dtype (Some (ConstValue.Int min_val, ConstValue.Int max_val))
     (Some 1) (Some name) None None None false.

Definition scalar (slot : Z) (name : option string) (dtype : DType) (min_val max_val : Z) : t :=
  mk slot dtype (Some (ConstValue.Int min_val, ConstValue.Int max_val))
     (Some 1) name None None None false.
End ParamArg.

Module BufferizeOpts.
Record t := mk {
  device : option DeviceSpec; local_axis : option AxisId; addrspace : AddrSpace;
  removable : bool
}.
Definition new (device : DeviceSpec) : t := mk (Some device) None Global true.
Definition local : t := mk None None Local true.
Definition local_for_axis (axis : AxisId) : t := mk None (Some axis) Local true.
End BufferizeOpts.

Module ContiguousHint.
Record t := mk { op : string; axis : option Z; arg : option Z }.
End ContiguousHint.

(** Origins are interned identifiers; a set of them is kept sorted. *)
Module CallInfo.
Record t := mk {
  grad_tag : option string; origin : option Z; origins : list Z; name : option string;
  precompile : bool; precompile_backward : bool
}.
End CallInfo.

Inductive CustomFunctionKind := EncDec | Graph | AllReduceFn (reduce_op : ReduceOp).

Module OptOps.
Inductive t := TC | UPCAST | UNROLL | LOCAL | THREAD | GROUP | GROUPTOP | NOLOCALS | PADTO | SWAP.
End OptOps.

Module OptArg.
Inductive t :=
| Int (v : Z)
| TensorCore (tc_select opt_level use_tc : Z)
| Swap (other_axis : Z).
End OptArg.

Module Opt.
Record t := mk { op : OptOps.t; axis : option Z; arg : OptArg.t }.
End Opt.

Module KernelInfo.
Record t := mk {
  opts_to_apply : option (list Opt.t); applied_opts : list Opt.t; dont_use_locals : bool;
  name : option string
}.
Definition is_hand_lowered (self : t) : bool :=
  match opts_to_apply self with Some [] => true | _ => false end.
End KernelInfo.

Module InsArg.
Record t := mk { opcode : string; attributes : list (string * string) }.
Definition new (opcode : string) : t := mk opcode [].
End InsArg.

(** The launch values of a program are IR nodes, of type [A]. *)
Module ProgramInfo.
Record t (A : Type) := mk {
  name : string; global_size : list A; local_size : option (list A); vars : list A;
  globals : list Z; outs : list Z; ins : list Z; target : DeviceSpec
}.
Arguments mk {A}. Arguments name {A}. Arguments global_size {A}. Arguments local_size {A}.
Arguments vars {A}. Arguments globals {A}. Arguments outs {A}. Arguments ins {A}.
Arguments target {A}.

Definition fmap {A B} (f : A -> B) (self : t A) : t B :=
  mk (name self) (map f (global_size self)) (option_map (map f) (local_size self))
     (map f (vars self)) (globals self) (outs self) (ins self) (target self).
End ProgramInfo.

Inductive BarrierFence := FenceAll | FenceLocal.

Module WmmaUpcastAxes.
Record t := mk { a : list (AxisId * Z); b : list (AxisId * Z); c : list (AxisId * Z) }.

(** [None] is the panic on an operand index above 2. *)
Definition by_index (self : t) (index : Z) : option (list (AxisId * Z)) :=
  match index with 0 => Some (a self) | 1 => Some (b self) | 2 => Some (c self) | _ => None end.

(** The product of [usize] sizes, at least 1. *)
Definition source_size (self : t) (index : Z) : option Z :=
  let? axes := by_index self index in
  Some (Z.max (fold_left (fun p '(_, s) => wrap_u 64 (p * s)) axes 1) 1).
End WmmaUpcastAxes.

Inductive RendererDevice :=
| RCpu | CudaSm75 | CudaSm80 | CudaSm89 | RMetal | AmdRdna3 | AmdRdna4 | AmdCdna3 | AmdCdna4
| IntelXe | RWebGpu.

Definition renderer_canonical (d : RendererDevice) : string :=
  match d with
  | RCpu => "CPU" | CudaSm75 => "CUDA_SM75" | CudaSm80 => "CUDA_SM80" | CudaSm89 => "CUDA_SM89"
  | RMetal => "Metal" | AmdRdna3 => "AMD_RDNA3" | AmdRdna4 => "AMD_RDNA4"
  | AmdCdna3 => "AMD_CDNA3" | AmdCdna4 => "AMD_CDNA4" | IntelXe => "IntelXe"
  | RWebGpu => "WebGPU"
  end.

Module WmmaMetadata.
Record t := mk {
  name : string; dims : Z * Z * Z; dtype_in : DType; dtype_out : DType;
  device : RendererDevice; threads : Z; upcast_axes : option WmmaUpcastAxes.t;
  reduce_axes : list AxisId
}.
End WmmaMetadata.
