(* ===== verification/UOp.v ===== *)
(** * The IR graph: operations and nodes ([ir/src/op.rs], [ir/src/uop/core.rs])

    [Op A] is the operation enum with operands of type [A]; a [UOp] is an
    operation over [UOp]s with its identity and dtype.  An [Arc<UOp>] is a
    value of [UOp]; two [Arc]s are pointer-equal when the nodes carry the same
    [id], and [interned] says that a graph has one node per [id].  The lazily
    filled caches of a node are the functions that fill them. *)

From stdpp Require Import relations.
From S2P Require Import Prelude F64 DType Cast ConstVal Ops Payload.

Module Op.
Inductive t (A : Type) :=
| Const (value : ConstValue)
| Unique (id : Z)
| LUnique (id : Z)
| Noop
| Sink (sources : list A) (info : option KernelInfo.t)
| Group (sources : list A)
| Unary (op : UnaryOp) (src : A)
| Binary (op : BinaryOp) (lhs rhs : A)
| Ternary (op : TernaryOp) (a b c : A)
| Cast (src : A) (dtype : DType)
| BitCast (src : A) (dtype : DType)
| MSelect (buffer : A) (device_index : Z)
| Special (end_ : A) (name : string)
| Param (shape : A) (arg : ParamArg.t)
| Buffer (shape : A) (arg : ParamArg.t)
| Slice (buffer offset : A) (size : Z)
| Stage (compute : A) (ranges : list A) (opts : BufferizeOpts.t)
| Index (buffer : A) (indices : list A)
| GetAddr (src : A) (device : DeviceSpec)
| Copy (src : A) (device : DeviceSpec)
| MStack (buffers : list A)
| Reshape (src new_shape : A)
| Permute (src : A) (axes : list Z)
| Expand (src new_shape : A)
| Pad (src begin_pads end_pads : A)
| Shrink (src offsets sizes : A)
| Flip (src : A) (axes : list bool)
| Multi (src : A) (axis : Z)
| ReduceAxis (src : A) (reduce_op : ReduceOp) (axes : list Z)
| Reduce (src : A) (ranges : list A) (reduce_op : ReduceOp) (num_axes : Z)
| AllReduce (src : A) (device : DeviceSpec) (reduce_op : ReduceOp)
| If (condition : A) (body : list A)
| EndIf (if_op : A)
| Range (end_ : A) (axis_id : AxisId) (axis_type : AxisType) (deps : list A)
| End (computation : A) (ranges : list A)
| Barrier (src : A) (deps : list A) (fence : BarrierFence)
| Stack (sources : list A)
| Shuffle (src : A) (mask : list Z)
| VConst (values : list ConstValue)
| DefineVar (name : string) (min_val max_val : Z)
| Bind (var value : A)
| Wmma (a b c : A) (metadata : WmmaMetadata.t)
| Call (body : A) (args : list A) (info : CallInfo.t)
| Function (body : A) (args : list A) (info : CallInfo.t)
| Tuple (src : list A)
| GetTuple (src : A) (index : Z)
| Program (sink : A) (info : ProgramInfo.t A) (linear source binary : option A)
| Linear (ops : list A)
| Source (code : string) (identity : option SourceStageIdentity.t)
| ProgramBinary (bytes : list Z) (identity : option BinaryStageIdentity.t)
| Detach (src : A)
| Contiguous (src : A) (opts : list ContiguousHint.t)
| ContiguousBackward (src : A)
| After (passthrough : A) (deps : list A)
| Precast (src : A)
| Custom (deps : list A) (code : string)
| CustomFunction (kind : CustomFunctionKind) (attrs : list A)
| CustomI (deps : list A) (code : string)
| Load (index : A) (alt gate : option A)
| Store (index value : A) (gate : option A)
| Ins (sources : list A) (arg : InsArg.t).

(** [Option]'s iterator. *)
Definition opt_list {A} (o : option A) : list A := match o with Some a => [a] | None => [] end.

Definition children {A} (self : t A) : list A :=
  match self with
  | Const _ _ | Unique _ _ | LUnique _ _ | Noop _ | VConst _ _ | DefineVar _ _ _ _
  | Source _ _ _ | ProgramBinary _ _ _ => []
  | Param _ shape _ => [shape]
  | Sink _ sources _ | Group _ sources => sources
  | Unary _ _ x => [x]
  | Binary _ _ a b => [a; b]
  | Ternary _ _ a b c => [a; b; c]
  | Cast _ src _ | BitCast _ src _ => [src]
  | MSelect _ buffer _ => [buffer]
  | Special _ end_ _ => [end_]
  | Buffer _ shape _ => [shape]
  | Slice _ buffer offset _ => [buffer; offset]
  | Stage _ compute ranges _ => compute :: ranges
  | Index _ buffer indices => buffer :: indices
  | GetAddr _ src _ => [src]
  | Copy _ src _ => [src]
  | MStack _ buffers => buffers
  | Reshape _ src new_shape => [src; new_shape]
  | Permute _ src _ | Flip _ src _ | Multi _ src _ => [src]
  | Expand _ src new_shape => [src; new_shape]
  | Pad _ src begin_pads end_pads => [src; begin_pads; end_pads]
  | Shrink _ src offsets sizes => [src; offsets; sizes]
  | ReduceAxis _ src _ _ => [src]
  | Reduce _ src ranges _ _ => src :: ranges
  | AllReduce _ src _ _ => [src]
  | If _ condition body => condition :: body
  | EndIf _ if_op => [if_op]
  | Range _ end_ _ _ deps => end_ :: deps
  | End _ computation ranges => computation :: ranges
  | Barrier _ src deps _ => src :: deps
  | Stack _ sources => sources
  | Shuffle _ src _ => [src]
  | Bind _ var value => [var; value]
  | Wmma _ a b c _ => [a; b; c]
  | Detach _ src | Contiguous _ src _ | ContiguousBackward _ src | Precast _ src => [src]
  | Call _ body args _ | Function _ body args _ => body :: args
  | Tuple _ src => src
  | GetTuple _ src _ => [src]
  | Program _ sink _ linear source binary =>
      sink :: opt_list linear ++ opt_list source ++ opt_list binary
  | Linear _ ops => ops
  | Ins _ sources _ => sources
  | After _ passthrough deps => passthrough :: deps
  | Custom _ deps _ | CustomI _ deps _ => deps
  | CustomFunction _ _ attrs => attrs
  | Load _ index alt gate => index :: opt_list alt ++ opt_list gate
  | Store _ index value gate => index :: value :: opt_list gate
  end.

(** [map_child], collecting the results. *)
Definition map_child {A B} (f : A -> B) (self : t A) : list B :=
  match self with
  | Const _ _ | Unique _ _ | LUnique _ _ | Noop _ | VConst _ _ | DefineVar _ _ _ _
  | Source _ _ _ | ProgramBinary _ _ _ => []
  | Param _ shape _ => [f shape]
  | Sink _ sources _ | Group _ sources => map f sources
  | Unary _ _ x => [f x]
  | Binary _ _ a b => [f a; f b]
  | Ternary _ _ a b c => [f a; f b; f c]
  | Cast _ src _ | BitCast _ src _ => [f src]
  | MSelect _ buffer _ => [f buffer]
  | Special _ end_ _ => [f end_]
  | Buffer _ shape _ => [f shape]
  | Slice _ buffer offset _ => [f buffer; f offset]
  | Stage _ compute ranges _ => f compute :: map f ranges
  | Index _ buffer indices => f buffer :: map f indices
  | GetAddr _ src _ => [f src]
  | Copy _ src _ => [f src]
  | MStack _ buffers => map f buffers
  | Reshape _ src new_shape => [f src; f new_shape]
  | Permute _ src _ | Flip _ src _ | Multi _ src _ => [f src]
  | Expand _ src new_shape => [f src; f new_shape]
  | Pad _ src begin_pads end_pads => [f src; f begin_pads; f end_pads]
  | Shrink _ src offsets sizes => [f src; f offsets; f sizes]
  | ReduceAxis _ src _ _ => [f src]
  | Reduce _ src ranges _ _ => f src :: map f ranges
  | AllReduce _ src _ _ => [f src]
  | If _ condition body => f condition :: map f body
  | EndIf _ if_op => [f if_op]
  | Range _ end_ _ _ deps => f end_ :: map f deps
  | End _ computation ranges => f computation :: map f ranges
  | Barrier _ src deps _ => f src :: map f deps
  | Stack _ sources => map f sources
  | Shuffle _ src _ => [f src]
  | Bind _ var value => [f var; f value]
  | Wmma _ a b c _ => [f a; f b; f c]
  | Detach _ src | Contiguous _ src _ | ContiguousBackward _ src | Precast _ src => [f src]
  | Call _ body args _ | Function _ body args _ => f body :: map f args
  | Tuple _ src => map f src
  | GetTuple _ src _ => [f src]
  | Program _ sink _ linear source binary =>
      f sink :: opt_list (option_map f linear) ++ opt_list (option_map f source) ++ opt_list (option_map f binary)
  | Linear _ ops => map f ops
  | Ins _ sources _ => map f sources
  | After _ passthrough deps => f passthrough :: map f deps
  | Custom _ deps _ | CustomI _ deps _ => map f deps
  | CustomFunction _ _ attrs => map f attrs
  | Load _ index alt gate => f index :: opt_list (option_map f alt) ++ opt_list (option_map f gate)
  | Store _ index value gate => f index :: f value :: opt_list (option_map f gate)
  end.

(** Replacing operands with [f], and the launch values of a program with [g]. *)
Definition fmap {A B} (f g : A -> B) (self : t A) : t B :=
  match self with
  | Const _ value => Const B value
  | Unique _ id => Unique B id
  | LUnique _ id => LUnique B id
  | Noop _ => Noop B
  | Sink _ sources info => Sink B (map f sources) info
  | Group _ sources => Group B (map f sources)
  | Unary _ op src => Unary B op (f src)
  | Binary _ op lhs rhs => Binary B op (f lhs) (f rhs)
  | Ternary _ op a b c => Ternary B op (f a) (f b) (f c)
  | Cast _ src dtype => Cast B (f src) dtype
  | BitCast _ src dtype => BitCast B (f src) dtype
  | MSelect _ buffer device_index => MSelect B (f buffer) device_index
  | Special _ end_ name => Special B (f end_) name
  | Param _ shape arg => Param B (f shape) arg
  | Buffer _ shape arg => Buffer B (f shape) arg
  | Slice _ buffer offset size => Slice B (f buffer) (f offset) size
  | Stage _ compute ranges opts => Stage B (f compute) (map f ranges) opts
  | Index _ buffer indices => Index B (f buffer) (map f indices)
  | GetAddr _ src device => GetAddr B (f src) device
  | Copy _ src device => Copy B (f src) device
  | MStack _ buffers => MStack B (map f buffers)
  | Reshape _ src new_shape => Reshape B (f src) (f new_shape)
  | Permute _ src axes => Permute B (f src) axes
  | Expand _ src new_shape => Expand B (f src) (f new_shape)
  | Pad _ src begin_pads end_pads => Pad B (f src) (f begin_pads) (f end_pads)
  | Shrink _ src offsets sizes => Shrink B (f src) (f offsets) (f sizes)
  | Flip _ src axes => Flip B (f src) axes
  | Multi _ src axis => Multi B (f src) axis
  | ReduceAxis _ src reduce_op axes => ReduceAxis B (f src) reduce_op axes
  | Reduce _ src ranges reduce_op num_axes => Reduce B (f src) (map f ranges) reduce_op num_axes
  | AllReduce _ src device reduce_op => AllReduce B (f src) device reduce_op
  | If _ condition body => If B (f condition) (map f body)
  | EndIf _ if_op => EndIf B (f if_op)
  | Range _ end_ axis_id axis_type deps => Range B (f end_) axis_id axis_type (map f deps)
  | End _ computation ranges => End B (f computation) (map f ranges)
  | Barrier _ src deps fence => Barrier B (f src) (map f deps) fence
  | Stack _ sources => Stack B (map f sources)
  | Shuffle _ src mask => Shuffle B (f src) mask
  | VConst _ values => VConst B values
  | DefineVar _ name min_val max_val => DefineVar B name min_val max_val
  | Bind _ var value => Bind B (f var) (f value)
  | Wmma _ a b c metadata => Wmma B (f a) (f b) (f c) metadata
  | Call _ body args info => Call B (f body) (map f args) info
  | Function _ body args info => Function B (f body) (map f args) info
  | Tuple _ src => Tuple B (map f src)
  | GetTuple _ src index => GetTuple B (f src) index
  | Program _ sink info linear source binary => Program B (f sink) (ProgramInfo.fmap g info) (option_map f linear) (option_map f source) (option_map f binary)
  | Linear _ ops => Linear B (map f ops)
  | Source _ code identity => Source B code identity
  | ProgramBinary _ bytes identity => ProgramBinary B bytes identity
  | Detach _ src => Detach B (f src)
  | Contiguous _ src opts => Contiguous B (f src) opts
  | ContiguousBackward _ src => ContiguousBackward B (f src)
  | After _ passthrough deps => After B (f passthrough) (map f deps)
  | Precast _ src => Precast B (f src)
  | Custom _ deps code => Custom B (map f deps) code
  | CustomFunction _ kind attrs => CustomFunction B kind (map f attrs)
  | CustomI _ deps code => CustomI B (map f deps) code
  | Load _ index alt gate => Load B (f index) (option_map f alt) (option_map f gate)
  | Store _ index value gate => Store B (f index) (f value) (option_map f gate)
  | Ins _ sources arg => Ins B (map f sources) arg
  end.

Definition is_movement {A} (self : t A) : bool :=
  match self with
  | Reshape _ _ _ | Permute _ _ _ | Expand _ _ _ | Pad _ _ _ _ | Shrink _ _ _ _
  | Flip _ _ _ => true
  | _ => false
  end.

Definition range_ending_src_index {A} (self : t A) : option nat :=
  match self with
  | Stage _ _ _ _ => Some 1%nat
  | Reduce _ _ _ _ _ => Some 1%nat
  | Wmma _ _ _ _ _ => Some 3%nat
  | End _ _ _ => Some 1%nat
  | Call _ _ _ _ | Function _ _ _ _ => Some 1%nat
  | _ => None
  end.

Definition is_expandable {A} (self : t A) : bool :=
  match self with
  | Unary _ _ _ | Binary _ _ _ _ | Ternary _ _ _ _ _
  | Cast _ _ _ | BitCast _ _ _ | Stack _ _ | Wmma _ _ _ _ _
  | Load _ _ _ _ | Store _ _ _ _ | Index _ _ _ | Stage _ _ _ _
  | Reduce _ _ _ _ _ | End _ _ _ | After _ _ _ => true
  | _ => false
  end.

Definition is_range {A} (self : t A) : bool :=
  match self with Range _ _ _ _ _ => true | _ => false end.
End Op.
Abbreviation Op := Op.t.

(** ** Nodes *)
#[warnings="-register-all"]
Inductive UOp := mkUOp (id : Z) (op : Op UOp) (dtype : DType).

Definition uid (u : UOp) : Z := let 'mkUOp id _ _ := u in id.
Definition uop_op (u : UOp) : Op UOp := let 'mkUOp _ op _ := u in op.
Definition uop_dtype (u : UOp) : DType := let 'mkUOp _ _ dtype := u in dtype.
Definition children (u : UOp) : list UOp := Op.children (uop_op u).

(** [Arc::ptr_eq]. *)
Definition ptr_eq (a b : UOp) : bool := uid a =? uid b.

(** [Op::ended_ranges]: [After] asks its dependencies. *)
Fixpoint ended_ranges (u : UOp) : list UOp :=
  let 'mkUOp _ op _ := u in
  match Op.range_ending_src_index op with
  | Some start_idx => skipn start_idx (Op.children op)
  | None =>
      match op with
      | Op.After _ _ deps => concat (map ended_ranges deps)
      | Op.Copy _ src _ => [src]
      | Op.Slice _ buffer _ _ => [buffer]
      | _ => []
      end
  end.

(** ** Induction over nodes *)
Lemma map_child_map {A B} (f : A -> B) (op : Op A) : Op.map_child f op = map f (Op.children op).
Proof.
  destruct op; cbn [Op.map_child Op.children map]; rewrite ?map_app;
    repeat match goal with o : option A |- _ => destruct o end; reflexivity.
Qed.

Definition list_all {A} {P : A -> Prop} (f : forall a, P a) : forall l, Forall P l :=
  fix go l := match l with [] => Forall_nil_2 P | a :: l => Forall_cons_2 P a l (f a) (go l) end.

Definition opt_all {A} {P : A -> Prop} (f : forall a, P a) (o : option A) :
    Forall P (Op.opt_list o) :=
  match o with Some a => Forall_cons_2 P a [] (f a) (Forall_nil_2 P) | None => Forall_nil_2 P end.

Theorem UOp_children_ind (P : UOp -> Prop)
  (H : forall u, Forall P (children u) -> P u) : forall u, P u.
Proof.
  fix IH 1. intros [id op dtype]. apply H. unfold children. cbn [uop_op].
  destruct op; cbn [Op.children];
    repeat first [ apply Forall_nil_2 | apply (opt_all IH) | apply Forall_app_2
                 | apply Forall_cons_2; [apply IH |]
                 | match goal with |- Forall _ ?l => is_var l; apply (list_all IH) end ].
Qed.

(** ** Graphs *)

(** [v] is a source of [u], and [v] occurs in the graph of [u]. *)
Definition source (u v : UOp) : Prop := In v (children u).
Abbreviation occurs := (rtc source).

(** Identities name nodes: what the intern table guarantees of a graph. *)
Definition interned (u : UOp) : Prop :=
  forall a b, occurs u a -> occurs u b -> uid a = uid b -> a = b.

Lemma interned_source u v : interned u -> source u v -> interned v.
Proof. intros Hi Hs a b Ha Hb. apply Hi; eapply rtc_l; eassumption. Qed.

Lemma interned_ptr_eq u a b :
  interned u -> source u a -> source u b -> ptr_eq a b = true -> a = b.
Proof.
  intros Hi Ha Hb E. apply Hi; try (apply rtc_once; assumption). now apply Z.eqb_eq.
Qed.

(** The occurrences of nodes in a graph, read as a tree. *)
Fixpoint nodes (u : UOp) : list UOp :=
  let 'mkUOp _ op _ := u in u :: concat (Op.map_child nodes op).

Lemma nodes_eq u : nodes u = u :: concat (map nodes (children u)).
Proof. destruct u as [i op d]. cbn [nodes]. now rewrite map_child_map. Qed.

Lemma nodes_occurs u a : occurs u a <-> In a (nodes u).
Proof.
  split.
  - induction 1 as [u | u v a Huv _ IH]; rewrite nodes_eq; [now left | right].
    apply in_concat. exists (nodes v). split; [now apply in_map | exact IH].
  - revert a. induction u as [u IH] using UOp_children_ind. intros a H.
    rewrite nodes_eq in H. destruct H as [<- | H]; [constructor |].
    apply in_concat in H as (l & Hl & Ha). apply in_map_iff in Hl as (v & <- & Hv).
    rewrite List.Forall_forall in IH. eapply rtc_l; [exact Hv | now apply IH].
Qed.

(** Checking that a concrete graph is interned. *)
Lemma interned_check u :
  Forall (fun a => Forall (fun b => uid a = uid b -> a = b) (nodes u)) (nodes u) -> interned u.
Proof.
  intros H a b Ha%nodes_occurs Hb%nodes_occurs. rewrite List.Forall_forall in H.
  pose proof (H a Ha) as H'. rewrite List.Forall_forall in H'. exact (H' b Hb).
Qed.

Ltac solve_interned :=
  apply interned_check; repeat constructor; intros E; first [reflexivity | discriminate E].

(** ** What hash consing promises to the rest of the library

    A set of nodes closed under sources in which an identity names one node. *)
Class Arena (G : UOp -> Prop) := {
  arena_source u v : G u -> source u v -> G v;
  arena_id a b : G a -> G b -> uid a = uid b -> a = b
}.

#[export] Instance interned_arena u (Hi : interned u) : Arena (fun a => occurs u a).
Proof.
  split.
  - intros a b Ha Hb. eapply rtc_r; eassumption.
  - intros a b Ha Hb. exact (Hi a b Ha Hb).
Qed.

Lemma arena_occurs G `{!Arena G} u v : G u -> occurs u v -> G v.
Proof.
  intros Hu H. induction H as [| u w v Hw _ IH]; [exact Hu |]. apply IH.
  exact (arena_source u w Hu Hw).
Qed.

Lemma arena_interned G `{!Arena G} u : G u -> interned u.
Proof. intros Hu a b Ha Hb. apply arena_id; eapply arena_occurs; eassumption. Qed.

(** A node is larger than its sources, so graphs have no cycles. *)
Lemma source_size u v : source u v -> (List.length (nodes v) < List.length (nodes u))%nat.
Proof.
  unfold source. intros H. rewrite (nodes_eq u). cbn [List.length]. apply -> Nat.lt_succ_r.
  induction (children u) as [| w l IH]; [destruct H |]. cbn [map concat]. rewrite length_app.
  destruct H as [-> | H]; [lia | specialize (IH H); lia].
Qed.

Lemma occurs_size u v : occurs u v -> (List.length (nodes v) <= List.length (nodes u))%nat.
Proof. induction 1 as [| u v w H _ IH]; [lia |]. apply source_size in H. lia. Qed.

Lemma no_cycle u v : source u v -> ~ occurs v u.
Proof. intros H1%source_size H2%occurs_size. lia. Qed.
