(* ===== verification/Semantics.v ===== *)
(** * A mathematical semantics of the integer fragment of the IR

    Nodes of integer and boolean dtype denote integers: arithmetic is modular
    at the width of the dtype, divisions are the floor and truncating
    divisions of [Z], and comparisons compare integers.  Leaves take their
    value from an environment; vectors are read one lane at a time, and every
    element of an EXPAND is an element of its source.  The constant folder
    refines this semantics. *)

From Stdlib Require Import Floats.SpecFloat.
From S2P Require Import Prelude F64 Cast ConstVal Ops IntView Eval EvalSpec Payload UOp.
Import ConstValue.
From S2P Require Import DType.

Definition fits_b (s : ScalarDType) (z : Z) : bool := (dtype_lo s <=? z) && (z <=? dtype_hi s).

Lemma fits_b_spec s z : fits_b s z = true <-> fits s z.
Proof. unfold fits_b, fits. rewrite andb_true_iff, !Z.leb_le. reflexivity. Qed.

(** Open the typing conditions of a node. *)
Ltac split_wt H := rewrite ?andb_true_iff, ?bool_decide_eq_true, ?negb_true_iff in H.

Section Semantics.
Context {M : LibM}.

(** ** Operations *)

Definition sem_unary (op : UnaryOp) (s : ScalarDType) (x : Z) : option Z :=
  match op with
  | UnaryOp.Neg => Some (wrap_to s (- x))
  | UnaryOp.Not => Some (if ScalarDType.is_bool s then 1 - x else wrap_to s (Z.lnot x))
  | UnaryOp.Abs => Some (wrap_to s (Z.abs x))
  | UnaryOp.Square => Some (wrap_to s (x * x))
  | UnaryOp.Sign => Some (wrap_to s (Z.sgn x))
  | UnaryOp.Floor | UnaryOp.Ceil | UnaryOp.Round => Some x
  | _ => None
  end.

(** Integer powers are the evaluator's, through [f64]. *)
Definition sem_binary (op : BinaryOp) (s : ScalarDType) (x y : Z) : option Z :=
  match op with
  | BinaryOp.Add => Some (wrap_to s (x + y))
  | BinaryOp.Sub => Some (wrap_to s (x - y))
  | BinaryOp.Mul => Some (wrap_to s (x * y))
  | BinaryOp.Max => Some (Z.max x y)
  | BinaryOp.FloorMod => if y =? 0 then None else Some (wrap_to s (x mod y))
  | BinaryOp.CMod => if y =? 0 then None else Some (wrap_to s (Z.rem x y))
  | BinaryOp.FloorDiv => if y =? 0 then None else Some (wrap_to s (x / y))
  | BinaryOp.CDiv => if y =? 0 then None else Some (wrap_to s (Z.quot x y))
  | BinaryOp.And => Some (wrap_to s (Z.land x y))
  | BinaryOp.Or => Some (wrap_to s (Z.lor x y))
  | BinaryOp.Xor => Some (wrap_to s (Z.lxor x y))
  | BinaryOp.Shl => if (0 <=? y) && (y <? 64) then Some (wrap_to s (Z.shiftl x y)) else None
  | BinaryOp.Shr => if (0 <=? y) && (y <? 64) then Some (wrap_to s (Z.shiftr x y)) else None
  | BinaryOp.Pow =>
      let? r := eval_binary_op_typed op (of_Z s x) (of_Z s y) s in to_Z r
  | _ => None
  end.

Definition sem_comparison (op : BinaryOp) (x y : Z) : option bool :=
  match op with
  | BinaryOp.Lt => Some (x <? y)
  | BinaryOp.Le => Some (x <=? y)
  | BinaryOp.Eq => Some (x =? y)
  | BinaryOp.Ne => Some (negb (x =? y))
  | BinaryOp.Gt => Some (y <? x)
  | BinaryOp.Ge => Some (y <=? x)
  | _ => None
  end.

(** ** Nodes *)

(** The value of each leaf, and the lane each vector is read at. *)
Record env := mkEnv { leaf : UOp -> Z; pick : UOp -> nat }.

Definition leaf_in (s : ScalarDType) (ok : Z -> bool) (v : Z) : option Z :=
  if fits_b s v && ok v then Some v else None.

Definition between (lo hi v : Z) : bool := (lo <=? v) && (v <=? hi).

(** The declared bounds of a parameter, when they are integers. *)
Definition declared_ok (bounds : option (ConstValue * ConstValue)) (v : Z) : bool :=
  match bounds with
  | Some (lo, hi) =>
      match to_Z lo, to_Z hi with Some lo, Some hi => between lo hi v | _, _ => true end
  | None => true
  end.

Fixpoint denote (r : env) (u : UOp) : option Z :=
  let 'mkUOp _ op dtype := u in
  let s := DType.base dtype in
  match op with
  | Op.Const _ c => to_Z c
  | Op.VConst _ values => let? c := nth_error values (pick r u) in to_Z c
  | Op.DefineVar _ _ lo hi => leaf_in s (between lo hi) (leaf r u)
  | Op.Param _ _ arg =>
      leaf_in s (match ParamArg.addrspace arg with
                 | None => declared_ok (ParamArg.vmin_vmax arg)
                 | Some _ => fun _ => true
                 end) (leaf r u)
  | Op.Range _ end_ _ _ _ | Op.Special _ end_ _ =>
      let? n := denote r end_ in leaf_in s (between 0 (n - 1)) (leaf r u)
  | Op.Bind _ var _ => denote r var
  | Op.Stack _ sources =>
      match nth_error (map (denote r) sources) (pick r u) with Some v => v | None => None end
  | Op.Unary _ op src => let? x := denote r src in sem_unary op s x
  | Op.Binary _ op a b =>
      let? x := denote r a in
      let? y := denote r b in
      match sem_comparison op x y with
      | Some c => Some (Z.b2z c)
      | None => sem_binary op s x y
      end
  | Op.Ternary _ TernaryOp.Where c t f =>
      let? b := denote r c in if b =? 0 then denote r f else denote r t
  | Op.Ternary _ TernaryOp.MulAcc a b c =>
      let? x := denote r a in
      let? y := denote r b in
      let? z := denote r c in Some (wrap_to s (x * y + z))
  | Op.Cast _ src _ => let? x := denote r src in Some (wrap_to s x)
  | Op.Expand _ src _ => denote r src
  | _ => leaf_in s (fun _ => true) (leaf r u)
  end.

(** ** The fragment *)

(** A constant of dtype [s]. *)
Definition const_has (s : ScalarDType) (c : ConstValue) : bool :=
  match to_Z c with Some z => fits_b s z && bool_decide (c = of_Z s z) | None => false end.

Definition bounds_typed (bounds : option (ConstValue * ConstValue)) : bool :=
  match bounds with
  | Some (UInt a, UInt b) => in_u64b a && in_u64b b
  | Some (Int _, Int _) | None => true
  | _ => false
  end.

Definition base_of (u : UOp) : ScalarDType := DType.base (uop_dtype u).

(** Nodes of integer or boolean dtype built by the typing rules of the
    constructors; a cast between equal booleans does not occur.  Operations
    the semantics reads from the environment carry no condition. *)
Fixpoint int_wt (u : UOp) : bool :=
  let 'mkUOp _ op dtype := u in
  let s := DType.base dtype in
  let has t c := int_wt c && bool_decide (base_of c = t) in
  is_int_or_bool s &&
  match op with
  | Op.Const _ c => const_has s c
  | Op.VConst _ values => forallb (const_has s) values
  | Op.Param _ _ arg => bounds_typed (ParamArg.vmin_vmax arg)
  | Op.Range _ end_ _ _ _ | Op.Special _ end_ _ => int_wt end_ && negb (ScalarDType.is_bool s)
  | Op.Bind _ var _ => has s var
  | Op.Expand _ src _ => has s src
  | Op.Stack _ sources => forallb (fun c => int_wt c && bool_decide (base_of c = s)) sources
  | Op.Unary _ _ src => has s src
  | Op.Binary _ op a b =>
      if BinaryOp.is_comparison op
      then ScalarDType.is_bool s && int_wt a && has (base_of a) b
      else has s a && has s b
  | Op.Ternary _ TernaryOp.Where c t f => has Bool c && has s t && has s f
  | Op.Ternary _ TernaryOp.MulAcc a b c => has s a && has s b && has s c
  | Op.Cast _ src _ => int_wt src && negb (ScalarDType.is_bool s && ScalarDType.is_bool (base_of src))
  | _ => true
  end.

(** ** The constant folder refines the semantics *)

Lemma commit_of_Z c z s d :
  is_int_or_bool s = true -> machine c -> to_Z c = Some z ->
  commit_eval_result c s = Some d -> d = of_Z s (wrap_to s z).
Proof. unfold commit_eval_result. intros Hs Hm Hz. rewrite (cast_wraps c z s) by assumption. congruence. Qed.

Lemma wrap_signed s w z :
  int_format s = Some (true, w) -> wrap_to s (wrap_s 64 z) = wrap_to s z.
Proof. intros F. exact (wrap_to_wrap64 s z _ F). Qed.

Lemma wrap_unsigned s w z :
  int_format s = Some (false, w) -> wrap_to s (wrap_u 64 z) = wrap_to s z.
Proof. intros F. exact (wrap_to_wrap64 s z _ F). Qed.

Lemma bool_values s x : int_format s = None -> fits s x -> x = 0 \/ x = 1.
Proof. unfold fits, dtype_lo, dtype_hi. intros ->. lia. Qed.

Lemma wrap_not_u64 s w x :
  int_format s = Some (false, w) -> wrap_to s (not_u64 x) = wrap_to s (Z.lnot x).
Proof.
  intros F. rewrite <- (wrap_unsigned s w (Z.lnot x) F), <- (wrap_unsigned s w (not_u64 x) F).
  f_equal. unfold not_u64, Z.lnot, wrap_u.
  replace (2 ^ 64 - 1 - x) with (Z.pred (- x) + 1 * 2 ^ 64) by lia. apply Z_mod_plus_full.
Qed.

Lemma sign_sgn x : (if x <? 0 then -1 else if x >? 0 then 1 else 0) = Z.sgn x.
Proof.
  destruct (Z.ltb_spec x 0); [lia |]. rewrite Z.gtb_ltb. destruct (Z.ltb_spec 0 x); lia.
Qed.

(** Folding a unary operation gives the constant of its denotation. *)
Lemma eval_unary_refines op s x c :
  is_int_or_bool s = true -> fits s x ->
  eval_unary_op_typed op (of_Z s x) s = Some c ->
  exists z, sem_unary op s x = Some z /\ c = of_Z s z.
Proof.
  intros Hs Hx H. pose proof (fits_machine s x Hs Hx) as Hm.
  pose proof (wrap_to_id s x Hs Hx) as Wx.
  assert (K : forall e z', machine e -> to_Z e = Some z' -> commit_eval_result e s = Some c ->
            c = of_Z s (wrap_to s z')) by (intros; eapply commit_of_Z; eassumption).
  unfold eval_unary_op_typed in H. unfold of_Z in H, Hm.
  destruct (int_format s) as [[[] w] |] eqn:F; cbn [machine] in Hm.
  - assert (NB : ScalarDType.is_bool s = false) by (destruct s; discriminate || reflexivity).
    destruct op; cbn [eval_unary_op] in H; try discriminate H;
      cbn [eval_neg eval_not eval_abs eval_square eval_floor eval_ceil eval_round rounding eval_sign]
        in H;
      eexists; (split; [cbn [sem_unary]; rewrite ?NB; reflexivity |]);
      apply K with (2 := eq_refl) in H; rewrite ?H, ?sign_sgn;
      try rewrite (wrap_signed s w) by exact F; try rewrite Wx; try reflexivity;
      cbn [machine]; try (apply wrap_s_range; lia); try exact Hm;
      unfold in_s, Z.lnot in *; rewrite ?sign_sgn; lia.
  - assert (NB : ScalarDType.is_bool s = false) by (destruct s; discriminate || reflexivity).
    assert (Ax : Z.abs x = x) by (unfold in_u in Hm; lia).
    destruct op; cbn [eval_unary_op] in H; try discriminate H;
      cbn [eval_neg eval_not eval_abs eval_square eval_floor eval_ceil eval_round rounding eval_sign]
        in H; try discriminate H;
      eexists; (split; [cbn [sem_unary]; rewrite ?NB; reflexivity |]);
      apply K with (2 := eq_refl) in H; rewrite ?H, ?Ax;
      try rewrite (wrap_unsigned s w) by exact F; try rewrite (wrap_not_u64 s w) by exact F;
      try rewrite Wx; try reflexivity; cbn [machine];
      try (apply wrap_u_range; lia); try exact Hm; unfold in_u, not_u64 in *; try lia.
    + do 2 f_equal. rewrite <- sign_sgn. destruct (Z.ltb_spec x 0); [lia | reflexivity].
    + destruct (x >? 0); lia.
  - pose proof (bool_values s x F Hx) as [-> | ->];
      (assert (s = Bool) as -> by (destruct s; discriminate || reflexivity));
      destruct op; try discriminate H; vm_compute in H; injection H as <-;
      eexists; split; reflexivity.
Qed.

(** Operations on integer constants produce integer constants. *)
Lemma eval_int_result op s x y e :
  eval_binary_op op (of_Z s x) (of_Z s y) = Some e -> exists z, to_Z e = Some z.
Proof.
  rewrite eval_typed_op by apply of_Z_not_invalid. unfold of_Z.
  destruct (int_format s) as [[[] w] |]; destruct op; intros H; try discriminate H;
    cbn -[Z.pow] in H;
    repeat match type of H with
    | context [if ?b then _ else _] => destruct b; try discriminate H
    | context [match ?o with Some _ => _ | None => _ end] => destruct o; try discriminate H
    end; injection H as <-; eexists; reflexivity.
Qed.

(** The mathematical value of an integer operation before it is committed. *)
Lemma eval_signed s w op x y e z :
  int_format s = Some (true, w) -> in_s 64 x -> in_s 64 y -> fits s x -> fits s y ->
  BinaryOp.is_comparison op = false -> op <> BinaryOp.Pow ->
  eval_binary_op op (Int x) (Int y) = Some e -> to_Z e = Some z ->
  sem_binary op s x y = Some (wrap_to s z).
Proof.
  intros F Hx Hy Fx Fy Hc Hp.
  assert (Hs : is_int_or_bool s = true) by (destruct s; discriminate || reflexivity).
  destruct (int_divisions x y Hx Hy) as (D1 & D2 & D3 & D4).
  rewrite eval_typed_op by reflexivity.
  destruct op; try discriminate Hc; try (now elim Hp); cbn [sem_binary];
    rewrite ?D1, ?D2, ?D3, ?D4; cbn [eval_add eval_sub eval_mul eval_max eval_and eval_or eval_xor
      eval_shl eval_shr eval_fdiv]; try discriminate;
    try (destruct (y =? 0); [discriminate |]; cbn [orb]; destruct (_ && _); [discriminate |]);
    try (destruct ((0 <=? y) && (y <? 64)); [| discriminate]);
    intros H H'; injection H as <-; injection H' as <-;
    rewrite ?(wrap_signed s w) by exact F; try reflexivity.
  f_equal. symmetry. apply wrap_to_id; [exact Hs |]. unfold fits in *. lia.
Qed.

Lemma eval_unsigned s w op x y e z :
  int_format s = Some (false, w) -> in_u 64 x -> in_u 64 y -> fits s x -> fits s y ->
  BinaryOp.is_comparison op = false -> op <> BinaryOp.Pow ->
  eval_binary_op op (UInt x) (UInt y) = Some e -> to_Z e = Some z ->
  sem_binary op s x y = Some (wrap_to s z).
Proof.
  intros F Hx Hy Fx Fy Hc Hp. unfold in_u in Hx, Hy.
  assert (Hs : is_int_or_bool s = true) by (destruct s; discriminate || reflexivity).
  rewrite eval_typed_op by reflexivity.
  destruct op; try discriminate Hc; try (now elim Hp); cbn [sem_binary];
    cbn [eval_add eval_sub eval_mul eval_max eval_and eval_or eval_xor
      eval_shl eval_shr eval_fdiv eval_cdiv eval_cmod eval_floor_div eval_floor_mod]; try discriminate;
    try (destruct (Z.eqb_spec y 0); [discriminate |]; cbn [negb]);
    try (rewrite (proj2 (Z.leb_le 0 y)) by lia; cbn [andb]; destruct (y <? 64); [| discriminate]);
    intros H H'; injection H as <-; injection H' as <-;
    rewrite ?(wrap_unsigned s w) by exact F; try reflexivity.
  - now rewrite Z.rem_mod_nonneg by lia.
  - f_equal. symmetry. apply wrap_to_id; [exact Hs |]. unfold fits in *. lia.
  - now rewrite Z.quot_div_nonneg by lia.
Qed.

(** Folding a binary operation gives the constant of its denotation. *)
Lemma eval_binary_refines op s x y c :
  BinaryOp.is_comparison op = false -> is_int_or_bool s = true -> fits s x -> fits s y ->
  eval_binary_op_typed op (of_Z s x) (of_Z s y) s = Some c ->
  exists z, sem_binary op s x y = Some z /\ c = of_Z s z /\ fits s z.
Proof.
  intros Hc Hs Hx Hy H0. pose proof (fits_machine s x Hs Hx) as Mx.
  pose proof (fits_machine s y Hs Hy) as My. pose proof H0 as H. unfold eval_binary_op_typed in H.
  destruct (eval_binary_op op (of_Z s x) (of_Z s y)) as [e |] eqn:E; [| discriminate].
  pose proof (eval_binary_machine op _ _ _ Mx My E) as Me.
  destruct (eval_int_result op s x y e E) as [z Ze].
  assert (K : c = of_Z s (wrap_to s z)) by (eapply commit_of_Z; eassumption).
  exists (wrap_to s z). split; [| split; [exact K | now apply wrap_to_fits]].
  destruct (decide (op = BinaryOp.Pow)) as [-> | Hp].
  { cbn [sem_binary]. rewrite H0, K. apply to_Z_of_Z; auto using wrap_to_fits. }
  unfold of_Z in E, Mx, My. destruct (int_format s) as [[[] w] |] eqn:F; cbn [machine] in Mx, My.
  - eapply eval_signed; eassumption.
  - eapply eval_unsigned; eassumption.
  - assert (s = Bool) as -> by (destruct s; discriminate || reflexivity).
    destruct (bool_values _ x F Hx) as [-> | ->], (bool_values _ y F Hy) as [-> | ->];
      destruct op; try discriminate Hc; try (now elim Hp);
      cbn in E; try discriminate E; injection E as <-; cbn in Ze; injection Ze as <-; reflexivity.
Qed.

(** Comparisons compare the integers. *)
Lemma eval_comparison_refines op s x y v :
  is_int_or_bool s = true -> fits s x -> fits s y -> sem_comparison op x y = Some v ->
  eval_binary_op op (of_Z s x) (of_Z s y) = Some (ConstValue.Bool v).
Proof.
  intros Hs Hx Hy Hv. rewrite eval_typed_op by apply of_Z_not_invalid. unfold of_Z.
  destruct (int_format s) as [[[] w] |] eqn:F.
  1, 2: destruct op; try discriminate Hv; injection Hv as <-; 
        cbn [eval_lt eval_le eval_eq eval_ne eval_gt eval_ge]; 
        rewrite ?Z.gtb_ltb, ?Z.geb_leb; reflexivity.
  destruct (bool_values _ x F Hx) as [-> | ->], (bool_values _ y F Hy) as [-> | ->];
    destruct op; try discriminate Hv; injection Hv as <-; reflexivity.
Qed.

Lemma sem_comparison_op op x y :
  BinaryOp.is_comparison op = true <-> is_Some (sem_comparison op x y).
Proof. destruct op; cbn; split; intros H; eauto; try discriminate; now destruct H. Qed.

(** ** Denotations lie in their dtype *)

Lemma sem_unary_fits op s x z :
  is_int_or_bool s = true -> fits s x -> sem_unary op s x = Some z -> fits s z.
Proof.
  intros Hs Hx H. destruct op; cbn [sem_unary] in H; try discriminate; injection H as <-;
    auto using wrap_to_fits.
  destruct (ScalarDType.is_bool s) eqn:B; auto using wrap_to_fits.
  assert (s = Bool) as -> by (destruct s; discriminate || reflexivity).
  unfold fits in *. cbn in *. lia.
Qed.

Lemma sem_binary_fits op s x y z :
  is_int_or_bool s = true -> fits s x -> fits s y -> sem_binary op s x y = Some z -> fits s z.
Proof.
  intros Hs Hx Hy H. destruct op; cbn [sem_binary] in H; try discriminate;
    try (destruct (y =? 0); [discriminate |]);
    try (destruct (_ && _); [| discriminate]);
    try (injection H as <-; auto using wrap_to_fits).
  - unfold fits in *. lia.
  - destruct (eval_binary_op_typed _ _ _ s) as [c |] eqn:E; [| discriminate].
    destruct (eval_binary_refines BinaryOp.Pow s x y c eq_refl Hs Hx Hy E) as (z' & _ & -> & Z3).
    rewrite to_Z_of_Z in H by assumption. injection H as <-. exact Z3.
Qed.

Lemma leaf_in_fits s ok v z : leaf_in s ok v = Some z -> z = v /\ fits s z /\ ok z = true.
Proof.
  unfold leaf_in. intros H. inv_opt. zb. split; [reflexivity |]. now rewrite <- fits_b_spec.
Qed.

Lemma const_has_spec s c : const_has s c = true <-> exists z, fits s z /\ c = of_Z s z /\ to_Z c = Some z.
Proof.
  unfold const_has. destruct (to_Z c) as [z |].
  - rewrite andb_true_iff, bool_decide_eq_true, fits_b_spec. split.
    + intros [Hz ->]. eauto.
    + intros (z' & Hz & -> & [= ->]). auto.
  - split; [discriminate | intros (z & _ & _ & H); discriminate].
Qed.

(** The scalar dtype of a typed node is an integer or boolean one. *)
Lemma int_wt_base u : int_wt u = true -> is_int_or_bool (base_of u) = true.
Proof. destruct u as [i op d]. cbn [int_wt]. intros H. now apply andb_prop in H. Qed.

Lemma denote_fits r u z : int_wt u = true -> denote r u = Some z -> fits (base_of u) z.
Proof.
  revert z. induction u as [u IH] using UOp_children_ind. intros z Hw Hd.
  pose proof (int_wt_base u Hw) as Hs. destruct u as [i op d].
  unfold children in IH. cbn [uop_op] in IH. cbn [int_wt] in Hw. apply andb_prop in Hw as [_ Hw].
  unfold base_of in Hs |- *. cbn [uop_dtype] in *.
  assert (Sub : forall c z, In c (Op.children op) -> int_wt c = true /\ base_of c = DType.base d ->
                  denote r c = Some z -> fits (DType.base d) z).
  { intros c z' Hin [Hc <-] Hz. rewrite List.Forall_forall in IH. exact (IH c Hin z' Hc Hz). }
  clear IH. destruct op; cbn [denote Op.children In] in *;
    try (now apply leaf_in_fits in Hd as (-> & Hf & _)).
  - apply const_has_spec in Hw as (z' & Hf & -> & Hz). congruence.
  - split_wt Hw. destruct (denote r src) as [x |] eqn:E; [| discriminate].
    eapply sem_unary_fits; [exact Hs | | exact Hd]. eauto.
  - destruct (denote r lhs) as [x |] eqn:Ea; [| discriminate].
    destruct (denote r rhs) as [y |] eqn:Eb; [| discriminate].
    destruct (BinaryOp.is_comparison op) eqn:C; split_wt Hw.
    + apply (sem_comparison_op op x y) in C as [v V]. rewrite V in Hd. injection Hd as <-.
      destruct (DType.base d); try (now destruct Hw as [[? _] _]).
      destruct v; vm_compute; intuition congruence.
    + assert (V : sem_comparison op x y = None) by (destruct op; discriminate || reflexivity).
      rewrite V in Hd. destruct Hw as [Ha Hb].
      eapply sem_binary_fits; [exact Hs | | | exact Hd]; eauto.
  - destruct op; split_wt Hw.
    + destruct (denote r a) as [c0 |]; [| discriminate]. destruct Hw as [[_ Ht] Hf].
      destruct (c0 =? 0); eauto.
    + destruct (denote r a), (denote r b), (denote r c); try discriminate. injection Hd as <-.
      now apply wrap_to_fits.
  - destruct (denote r src); [| discriminate]. injection Hd as <-. now apply wrap_to_fits.
  - destruct (denote r end_); [| discriminate]. now apply leaf_in_fits in Hd as (-> & Hf & _).
  - split_wt Hw. eauto.
  - destruct (denote r end_); [| discriminate]. now apply leaf_in_fits in Hd as (-> & Hf & _).
  - destruct (nth_error (map (denote r) sources) _) as [v |] eqn:E; [| discriminate].
    subst v. rewrite nth_error_map in E.
    destruct (nth_error sources _) as [c |] eqn:En; [| discriminate]. cbn in E. injection E as E.
    apply nth_error_In in En. rewrite forallb_forall in Hw. specialize (Hw c En). split_wt Hw. eauto.
  - destruct (nth_error values _) as [c |] eqn:En; [| discriminate]. apply nth_error_In in En.
    rewrite forallb_forall in Hw. apply Hw, const_has_spec in En as (z' & Hf & -> & Hz). congruence.
  - split_wt Hw. eauto.
Qed.
End Semantics.
