(* ===== verification/Traverse.v ===== *)
(** * Traversals of the IR graph ([ir/src/uop/core.rs])

    The explicit-stack loops behind [toposort] and its variants, and the
    depth-first searches behind [any_in_subtree], [collect_in_subtree] and
    [node_count].  A visited set of pointers is a set of identities.  The
    loops run on fuel; the theorems give the amount that suffices. *)

From stdpp Require Import relations gmap.
From S2P Require Import Prelude F64 DType Cast ConstVal Ops Payload UOp.

(** ** Sources of a traversal *)

Inductive TraversalMode := Full | PreserveCalls.

Definition traversal_sources (mode : TraversalMode) (node : UOp) : list UOp :=
  match mode with
  | Full => children node
  | PreserveCalls =>
      match uop_op node with
      | Op.Call _ _ args _ | Op.Function _ _ args _ => args
      | Op.Program _ _ _ _ _ _ => []
      | _ => children node
      end
  end.

Definition mode_of (include_call_bodies : bool) : TraversalMode :=
  if include_call_bodies then Full else PreserveCalls.

(** ** Post-order *)

Definition is_visited (visited : gset Z) (u : UOp) : bool := bool_decide (uid u ∈ visited).

Definition unvisited (visited : gset Z) (l : list UOp) : list UOp :=
  List.filter (fun c => negb (is_visited visited c)) l.

Section Postorder.
Context (succ : UOp -> list UOp) (gate : UOp -> bool).

(** The loop shared by the four [toposort] methods.  The head of [stack] is its
    top: pushing sources in reverse leaves the first one there. *)
Fixpoint postorder_loop (fuel : nat) (stack : list (UOp * bool)) (visited : gset Z)
    (result : list UOp) : option (list UOp) :=
  match fuel with
  | O => None
  | S fuel =>
      match stack with
      | [] => Some result
      | (node, processed) :: stack =>
          if is_visited visited node then postorder_loop fuel stack visited result
          else if processed then
            postorder_loop fuel stack ({[uid node]} ∪ visited) (result ++ [node])
          else if gate node then
            postorder_loop fuel
              (map (fun c => (c, false)) (unvisited visited (succ node)) ++ (node, true) :: stack)
              visited result
          else postorder_loop fuel stack visited result
      end
  end.

(** Pushes accounted to the expansion of the nodes of a list. *)
Definition expansion_cost (l : list UOp) : nat :=
  sum_list_with (fun n => S (List.length (succ n))) l.

(** Enough iterations for any graph: linear in the nodes and edges of its tree. *)
Definition postorder_fuel (u : UOp) : nat := S (S (expansion_cost (nodes u))).

Definition postorder (u : UOp) : list UOp :=
  match postorder_loop (postorder_fuel u) [(u, false)] ∅ [] with Some r => r | None => [] end.
End Postorder.

Definition toposort (u : UOp) : list UOp := postorder children (fun _ => true) u.
Definition toposort_filtered (gate : UOp -> bool) (u : UOp) : list UOp := postorder children gate u.
Definition toposort_call_aware (include_call_bodies : bool) (u : UOp) : list UOp :=
  postorder (traversal_sources (mode_of include_call_bodies)) (fun _ => true) u.
Definition toposort_filtered_call_aware (gate : UOp -> bool) (include_call_bodies : bool) (u : UOp)
    : list UOp :=
  postorder (traversal_sources (mode_of include_call_bodies)) gate u.

Lemma traversal_sources_source mode u c : In c (traversal_sources mode u) -> source u c.
Proof.
  unfold traversal_sources, source, children. destruct mode; [auto |].
  destruct (uop_op u); cbn [Op.children]; auto using in_cons; intros [].
Qed.

(** *** Marking nodes visited *)

Definition mark (visited : gset Z) (l : list UOp) : gset Z := list_to_set (map uid l) ∪ visited.

Lemma elem_of_mark i visited l :
  (i ∈ mark visited l) <-> (i ∈ visited) \/ exists n, In n l /\ uid n = i.
Proof.
  unfold mark. rewrite elem_of_union, elem_of_list_to_set, list_elem_of_In, in_map_iff.
  split; [intros [(n & E & H) | H] | intros [H | (n & H & E)]]; eauto.
Qed.

Lemma mark_nil visited : mark visited [] = visited.
Proof. unfold mark. cbn. apply union_empty_l_L. Qed.

Lemma mark_app visited l1 l2 : mark visited (l1 ++ l2) = mark (mark visited l1) l2.
Proof.
  unfold mark. rewrite map_app, list_to_set_app_L. apply set_eq. intros i.
  rewrite !elem_of_union. tauto.
Qed.

Lemma mark_cons visited n l : mark visited (n :: l) = mark ({[uid n]} ∪ visited) l.
Proof. unfold mark. cbn. apply set_eq. intros i. rewrite !elem_of_union. tauto. Qed.

Lemma mark_one visited n : mark visited [n] = {[uid n]} ∪ visited.
Proof. now rewrite mark_cons, mark_nil. Qed.

Lemma is_visited_spec visited u : is_visited visited u = true <-> uid u ∈ visited.
Proof. unfold is_visited. apply bool_decide_eq_true. Qed.

(** *** The nodes added by a visit *)

Section Spec.
Context (succ : UOp -> list UOp) (gate : UOp -> bool).
Context (Hsucc : forall u c, In c (succ u) -> source u c).
Context (G : UOp -> Prop) `{!Arena G}.

(** One step of the traversal: from a node to a source that passes the gate. *)
Definition gated (a b : UOp) : Prop := In b (succ a) /\ gate b = true.

(** Every node of the list passes the gate, is new, and comes after its sources. *)
Fixpoint ordered (visited : gset Z) (l : list UOp) : Prop :=
  match l with
  | [] => True
  | n :: l =>
      gate n = true /\ (uid n ∉ visited)
      /\ (forall c, In c (succ n) -> gate c = true -> uid c ∈ visited)
      /\ ordered ({[uid n]} ∪ visited) l
  end.

(** What visiting [roots] with [visited] appends to the result. *)
Record visit_ok (visited : gset Z) (roots new : list UOp) : Prop := {
  visit_ordered : ordered visited new;
  visit_reached : forall n, In n new -> exists r, In r roots /\ gate r = true /\ rtc gated r n;
  visit_roots : forall r, In r roots -> gate r = true -> uid r ∈ mark visited new
}.

Lemma ordered_app visited l1 l2 :
  ordered visited (l1 ++ l2) <-> ordered visited l1 /\ ordered (mark visited l1) l2.
Proof.
  revert visited. induction l1 as [| n l1 IH]; intros visited; cbn [app ordered].
  - rewrite mark_nil. tauto.
  - rewrite IH, mark_cons. tauto.
Qed.

Lemma gated_occurs u v : rtc gated u v -> occurs u v.
Proof using Hsucc. induction 1; [constructor |]. eapply rtc_l; [| eassumption]. now apply Hsucc, H. Qed.

(** The state of the loop after visiting [roots]: [k] iterations later they are
    off the stack and [new] has been appended. *)
Definition visits (stack : list (UOp * bool)) (roots : list UOp) : Prop :=
  forall rest visited result, exists k new,
    (k <= List.length stack + expansion_cost succ new)%nat
    /\ (forall fuel, postorder_loop succ gate (k + fuel) (stack ++ rest) visited result
                     = postorder_loop succ gate fuel rest (mark visited new) (result ++ new))
    /\ visit_ok visited roots new.

Lemma visits_list l :
  Forall (fun u => G u -> visits [(u, false)] [u]) l -> Forall G l ->
  visits (map (fun c => (c, false)) l) l.
Proof.
  induction 1 as [| u l Hu _ IH]; intros HG rest visited result.
  - exists 0%nat, []. cbn. rewrite mark_nil, app_nil_r. split; [lia |]. split; [reflexivity |].
    split; [exact I | intros n [] | intros r []].
  - apply Forall_cons in HG as [Gu Gl].
    destruct (Hu Gu (map (fun c => (c, false)) l ++ rest) visited result)
      as (k1 & new1 & C1 & R1 & [O1 A1 B1]).
    destruct (IH Gl rest (mark visited new1) (result ++ new1)) as (k2 & new2 & C2 & R2 & [O2 A2 B2]).
    exists (k1 + k2)%nat, (new1 ++ new2). split; [| split].
    + unfold expansion_cost in *. rewrite sum_list_with_app. cbn [map List.length] in *. lia.
    + intros fuel. rewrite <- Nat.add_assoc. cbn [map app] in *. rewrite R1, R2.
      now rewrite mark_app, app_assoc.
    + split.
      * apply ordered_app. auto.
      * intros n [Hn | Hn]%in_app_iff.
        -- destruct (A1 n Hn) as (r & [<- | []] & Hr). exists u. cbn. tauto.
        -- destruct (A2 n Hn) as (r & Hr & Hg). exists r. cbn. tauto.
      * intros r [<- | Hr] Hg; rewrite mark_app.
        -- apply elem_of_mark. left. apply B1; [now left | exact Hg].
        -- now apply B2.
Qed.

Lemma visits_node u : G u -> visits [(u, false)] [u].
Proof using All.
  induction u as [u IH] using UOp_children_ind. intros Gu rest visited result.
  assert (Skip : uid u ∈ visited \/ gate u = false ->
    visit_ok visited [u] []).
  { intros H. split; [exact I | intros n [] |]. intros r [<- | []] Hg. rewrite mark_nil.
    destruct H; [assumption | congruence]. }
  destruct (is_visited visited u) eqn:V.
  { exists 1%nat, []. cbn [app Nat.add postorder_loop List.length]. rewrite V, mark_nil, app_nil_r.
    split; [lia |]. split; [reflexivity |]. apply Skip. left. now apply is_visited_spec. }
  destruct (gate u) eqn:Gt.
  2: { exists 1%nat, []. cbn [app Nat.add postorder_loop List.length].
       rewrite V, Gt, mark_nil, app_nil_r. split; [lia |]. split; [reflexivity |].
       apply Skip. now right. }
  set (cs := unvisited visited (succ u)).
  assert (Hcs : forall c, In c cs <-> In c (succ u) /\ uid c ∉ visited).
  { intros c. unfold cs, unvisited. rewrite filter_In, negb_true_iff.
    rewrite <- not_true_iff_false, is_visited_spec. reflexivity. }
  assert (Gc : Forall G cs).
  { apply List.Forall_forall. intros c Hc. apply Hcs in Hc as [Hc _].
    exact (arena_source u c Gu (Hsucc u c Hc)). }
  assert (IHc : Forall (fun c => G c -> visits [(c, false)] [c]) cs).
  { rewrite List.Forall_forall in IH |- *. intros c Hc. apply IH, Hsucc. now apply Hcs in Hc. }
  destruct (visits_list cs IHc Gc ((u, true) :: rest) visited result)
    as (k & new & C & R & [O A B]).
  assert (Vu : uid u ∉ visited) by (intros Hv; apply is_visited_spec in Hv; congruence).
  assert (Nu : uid u ∉ mark visited new).
  { intros [Hv | (n & Hn & E)]%elem_of_mark; [contradiction |].
    destruct (A n Hn) as (c & Hc & _ & Hr). apply Hcs in Hc as [Hc _].
    assert (n = u) as ->.
    { apply arena_id; [| exact Gu | exact E]. apply (arena_occurs G c).
      - exact (arena_source u c Gu (Hsucc u c Hc)).
      - now apply gated_occurs. }
    apply (no_cycle u c (Hsucc u c Hc)). now apply gated_occurs. }
  exists (S (k + 1)), (new ++ [u]). split; [| split].
  - unfold expansion_cost in *. rewrite sum_list_with_app. cbn [sum_list_with].
    rewrite length_map in C. cbn [List.length].
    assert (List.length cs <= List.length (succ u))%nat by apply filter_length_le. lia.
  - intros fuel. cbn [app Nat.add postorder_loop]. rewrite V, Gt.
    fold cs. rewrite <- Nat.add_assoc, R. cbn [Nat.add postorder_loop].
    destruct (is_visited (mark visited new) u) eqn:E; [now apply is_visited_spec in E |].
    now rewrite mark_app, mark_one, app_assoc.
  - split.
    + apply ordered_app. split; [exact O |]. cbn [ordered]. split; [exact Gt |]. split; [exact Nu |].
      split; [| exact I]. intros c Hc Hg. destruct (decide (uid c ∈ visited)) as [Hv | Hv].
      * apply elem_of_mark. now left.
      * apply B; [now apply Hcs | exact Hg].
    + intros n [Hn | [<- | []]]%in_app_iff.
      * destruct (A n Hn) as (c & Hc & Hg & Hr). apply Hcs in Hc as [Hc _].
        exists u. split; [now left |]. split; [exact Gt |]. eapply rtc_l; [| exact Hr]. split; assumption.
      * exists u. split; [now left |]. split; [exact Gt | constructor].
    + intros r [<- | []] _. apply elem_of_mark. right. exists u.
      split; [apply in_app_iff; right; now left | reflexivity].
Qed.

(** What a traversal returns. *)
Record topological (u : UOp) (r : list UOp) : Prop := {
  topo_nodup : List.NoDup (map uid r);
  topo_nodes : forall n, In n r <-> gate u = true /\ rtc gated u n;
  topo_sources : forall l1 n l2 c,
    r = l1 ++ n :: l2 -> In c (succ n) -> gate c = true -> In c l1
}.

Lemma ordered_fresh visited l n : ordered visited l -> In n l -> uid n ∉ visited.
Proof.
  revert visited. induction l as [| m l IH]; intros visited; cbn; [tauto |].
  intros (_ & Hm & _ & Hl) [<- | Hn]; [exact Hm |]. specialize (IH _ Hl Hn).
  rewrite elem_of_union in IH. tauto.
Qed.

Lemma ordered_nodup visited l : ordered visited l -> List.NoDup (map uid l).
Proof.
  revert visited. induction l as [| m l IH]; intros visited; cbn; [constructor |].
  intros (_ & Hm & _ & Hl). constructor; [| eauto]. intros (n & E & Hn)%in_map_iff.
  pose proof (ordered_fresh _ _ _ Hl Hn) as F. apply F. rewrite E.
  apply elem_of_union_l, elem_of_singleton. reflexivity.
Qed.

Lemma marked_in new c : Forall G new -> G c -> uid c ∈ mark ∅ new -> In c new.
Proof using Arena0.
  intros Gn Gc [H | (n & Hn & E)]%elem_of_mark; [now apply not_elem_of_empty in H |].
  rewrite List.Forall_forall in Gn. now rewrite (arena_id c n Gc (Gn n Hn) (eq_sym E)).
Qed.

Lemma visit_topological u r : G u -> visit_ok ∅ [u] r -> topological u r.
Proof using All.
  intros Gu [O A B].
  assert (Gr : Forall G r).
  { apply List.Forall_forall. intros n Hn. destruct (A n Hn) as (m & [<- | []] & _ & Hr).
    exact (arena_occurs G u n Gu (gated_occurs _ _ Hr)). }
  assert (Sources : forall l1 n l2 c,
            r = l1 ++ n :: l2 -> In c (succ n) -> gate c = true -> In c l1).
  { intros l1 n l2 c E Hc Hg. pose proof O as O'. rewrite E in O'.
    apply ordered_app in O' as [_ (_ & _ & Hs & _)]. specialize (Hs c Hc Hg).
    rewrite List.Forall_forall in Gr.
    assert (Gn : G n) by (apply Gr; rewrite E; apply in_app_iff; right; now left).
    apply (marked_in l1 c); [| exact (arena_source n c Gn (Hsucc n c Hc)) | exact Hs].
    apply List.Forall_forall. intros m Hm. apply Gr. rewrite E. apply in_app_iff. now left. }
  split; [now apply (ordered_nodup ∅) | | exact Sources].
  intros n. split.
  - intros Hn. destruct (A n Hn) as (m & [<- | []] & Hg & Hr). now split.
  - intros [Hg Hr].
    assert (Hu : In u r) by (apply (marked_in r u Gr Gu); apply B; [now left | exact Hg]).
    clear Hg A B Gu. induction Hr as [| u m n [Hm Hgm] _ IH]; [exact Hu |].
    apply in_split in Hu as (l1 & l2 & E). apply IH. rewrite E. apply in_app_iff. left.
    exact (Sources l1 u l2 m E Hm Hgm).
Qed.

(** The loop returns, after a number of iterations linear in its result. *)
Lemma postorder_returns u :
  G u -> exists r, topological u r
    /\ forall fuel, (2 + expansion_cost succ r <= fuel)%nat ->
         postorder_loop succ gate fuel [(u, false)] ∅ [] = Some r.
Proof using All.
  intros Gu. destruct (visits_node u Gu [] ∅ []) as (k & r & C & R & V).
  exists r. split; [now apply visit_topological |]. intros fuel Hf.
  replace fuel with (k + S (fuel - k - 1))%nat by (cbn [List.length] in C; lia).
  rewrite app_nil_r in R. rewrite R. reflexivity.
Qed.

Lemma expansion_cost_incl l k :
  List.NoDup l -> incl l k -> (expansion_cost succ l <= expansion_cost succ k)%nat.
Proof.
  intros Hn Hi. assert (S : l ⊆+ k).
  { apply NoDup_submseteq; [now apply NoDup_ListNoDup |]. intros x. rewrite !list_elem_of_In.
    apply Hi. }
  apply submseteq_Permutation in S as [k' S]. unfold expansion_cost.
  rewrite S, sum_list_with_app. lia.
Qed.

Lemma postorder_topological u : G u -> topological u (postorder succ gate u).
Proof using All.
  intros Gu. destruct (postorder_returns u Gu) as (r & T & R). unfold postorder, postorder_fuel.
  rewrite R; [exact T |]. apply le_n_S, le_n_S, expansion_cost_incl.
  - eapply NoDup_map_inv, topo_nodup, T.
  - intros n Hn. apply (topo_nodes u r T) in Hn as [_ Hn]. now apply nodes_occurs, gated_occurs.
Qed.
End Spec.

Lemma gated_all u v : rtc (gated children (fun _ => true)) u v <-> occurs u v.
Proof.
  split; induction 1 as [| u w v H _ IH]; try constructor; eapply rtc_l; try exact IH.
  - exact (proj1 H).
  - now split.
Qed.

Lemma toposort_topological u : interned u -> topological children (fun _ => true) u (toposort u).
Proof.
  intros Hi. exact (postorder_topological children _ (fun _ _ H => H) (fun a => occurs u a)
                      (Arena0 := interned_arena u Hi) u (rtc_refl _ _)).
Qed.

(** ** Depth-first search *)

(** The loop of [any_in_subtree], [collect_in_subtree] and [node_count]: a node
    is marked when popped, [visit] updates the accumulator or answers at once,
    and [finish] reads the visited set at the end. *)
Section Search.
Context {A B : Type} (visit : A -> UOp -> A + B) (finish : gset Z -> A -> B).

Fixpoint search_loop (fuel : nat) (stack : list UOp) (visited : gset Z) (acc : A) : option B :=
  match fuel with
  | O => None
  | S fuel =>
      match stack with
      | [] => Some (finish visited acc)
      | node :: stack =>
          if is_visited visited node then search_loop fuel stack visited acc
          else
            let visited := {[uid node]} ∪ visited in
            match visit acc node with
            | inr answer => Some answer
            | inl acc => search_loop fuel (rev (unvisited visited (children node)) ++ stack) visited acc
            end
      end
  end.

Definition search (acc : A) (u : UOp) : option B :=
  search_loop (postorder_fuel children u) [u] ∅ acc.

(** The same visits, along a known order of the nodes. *)
Fixpoint visit_all (visited : gset Z) (order : list UOp) (acc : A) : B :=
  match order with
  | [] => finish visited acc
  | n :: order => match visit acc n with inr answer => answer | inl acc => visit_all visited order acc end
  end.
End Search.

Definition any_in_subtree (pred : UOp -> bool) (u : UOp) : bool :=
  default false (search (fun _ node => if pred node then inr true else inl tt)
                        (fun _ _ => false) tt u).

Definition collect_in_subtree (pred : UOp -> bool) (u : UOp) : list UOp :=
  default [] (search (B := list UOp)
                (fun result node => inl (if pred node then result ++ [node] else result))
                (fun _ result => result) [] u).

Definition node_count (u : UOp) : nat :=
  default 0%nat (search (fun _ _ => inl tt) (fun visited _ => size visited) tt u).

Section SearchSpec.
Context (u : UOp) (Hi : interned u).

(** The nodes of the graph, each once. *)
Definition enumerates (l : list UOp) : Prop :=
  List.NoDup (map uid l) /\ forall n, In n l <-> occurs u n.

Record search_inv (done stack : list UOp) : Prop := {
  inv_stack : Forall (fun n => occurs u n) stack;
  inv_done : Forall (fun n => occurs u n) done;
  inv_nodup : List.NoDup (map uid done);
  inv_closed : forall n c, In n done -> source n c -> In c done \/ In c stack;
  inv_root : In u done \/ In u stack
}.

Lemma marked_done done n :
  Forall (fun n => occurs u n) done -> occurs u n ->
  is_visited (mark ∅ done) n = true <-> In n done.
Proof using Hi.
  intros Hd Hn. rewrite is_visited_spec, elem_of_mark. split.
  - intros [H | (m & Hm & E)]; [now apply not_elem_of_empty in H |].
    rewrite List.Forall_forall in Hd. now rewrite (Hi n m Hn (Hd m Hm) (eq_sym E)).
  - intros H. right. eauto.
Qed.

Lemma inv_skip done n stack :
  search_inv done (n :: stack) -> In n done -> search_inv done stack.
Proof using Hi.
  intros [S D N C R] Hn. apply Forall_cons in S as [_ S]. split; try assumption.
  - intros m c Hm Hc. destruct (C m c Hm Hc) as [H | [<- | H]]; auto.
  - destruct R as [H | [<- | H]]; auto.
Qed.

Lemma inv_visit done n stack :
  search_inv done (n :: stack) -> ~ In n done ->
  search_inv (done ++ [n]) (rev (unvisited (mark ∅ (done ++ [n])) (children n)) ++ stack).
Proof using Hi.
  intros [S D N C R] Hn. apply Forall_cons in S as [Sn S].
  assert (D' : Forall (fun n => occurs u n) (done ++ [n])) by (apply Forall_app; auto).
  assert (Hc : forall c, source n c -> occurs u c) by (intros c Hc; eapply rtc_r; eassumption).
  split; [| exact D' | | |].
  - apply Forall_app. split; [| exact S]. apply List.Forall_forall. intros c Hin.
    apply in_rev, filter_In in Hin as [Hin _]. exact (Hc c Hin).
  - rewrite map_app. apply NoDup_snoc; [exact N |]. intros (m & Em & Hm)%in_map_iff. apply Hn.
    rewrite List.Forall_forall in D. now rewrite (Hi n m Sn (D m Hm)) by congruence.
  - intros m c Hm Hmc. rewrite !in_app_iff, <- in_rev. unfold unvisited. rewrite filter_In.
    apply in_app_iff in Hm as [Hm | [<- | []]].
    + destruct (C m c Hm Hmc) as [H | [<- | H]]; cbn; auto.
    + destruct (is_visited (mark ∅ (done ++ [n])) c) eqn:V; cbn; [| now auto].
      apply marked_done, in_app_iff in V; auto.
  - rewrite !in_app_iff. destruct R as [H | [<- | H]]; cbn; auto.
Qed.

(** Iterations left: what is on the stack and what unvisited nodes may still push. *)
Definition to_push (done : list UOp) (n : UOp) : nat :=
  if is_visited (mark ∅ done) n then 0%nat else List.length (children n).
Definition work (done stack : list UOp) : nat :=
  (List.length stack + sum_list_with (to_push done) (toposort u))%nat.

Lemma to_push_le done n m : (to_push (done ++ [n]) m <= to_push done m)%nat.
Proof.
  unfold to_push. destruct (is_visited (mark ∅ done) m) eqn:V.
  - apply is_visited_spec in V. rewrite mark_app, mark_one.
    rewrite (proj2 (is_visited_spec _ m)) by (apply elem_of_union; now right). lia.
  - destruct (is_visited (mark ∅ (done ++ [n])) m); lia.
Qed.

Lemma sum_list_with_le (f g : UOp -> nat) l :
  (forall n, f n <= g n)%nat -> (sum_list_with f l <= sum_list_with g l)%nat.
Proof. intros H. induction l as [| n l IH]; cbn; [lia |]. specialize (H n). lia. Qed.

Lemma work_visit done n stack :
  search_inv done (n :: stack) -> ~ In n done ->
  (work (done ++ [n]) (rev (unvisited (mark ∅ (done ++ [n])) (children n)) ++ stack)
   < work done (n :: stack))%nat.
Proof using Hi.
  intros [S D N C R] Hn. apply Forall_cons in S as [Sn _]. unfold work.
  rewrite length_app, length_rev. cbn [List.length].
  assert (L : (List.length (unvisited (mark ∅ (done ++ [n])) (children n))
               <= List.length (children n))%nat) by apply filter_length_le.
  assert (T : In n (toposort u)).
  { apply (topo_nodes _ _ _ _ (toposort_topological u Hi)). split; [reflexivity |].
    now apply gated_all. }
  apply in_split in T as (l1 & l2 & ->). rewrite !sum_list_with_app. cbn [sum_list_with].
  pose proof (sum_list_with_le _ _ l1 (to_push_le done n)).
  pose proof (sum_list_with_le _ _ l2 (to_push_le done n)).
  assert (to_push done n = List.length (children n)) as ->.
  { unfold to_push. destruct (is_visited (mark ∅ done) n) eqn:V; [| reflexivity].
    apply marked_done in V; tauto. }
  assert (to_push (done ++ [n]) n = 0%nat) as ->; [| lia].
  unfold to_push. rewrite mark_app, mark_one.
  rewrite (proj2 (is_visited_spec _ n)) by (apply elem_of_union_l, elem_of_singleton; reflexivity).
  reflexivity.
Qed.

Lemma inv_complete done : search_inv done [] -> enumerates done.
Proof using Hi.
  intros [_ D N C R]. split; [exact N |]. intros n. split.
  - intros H. rewrite List.Forall_forall in D. now apply D.
  - destruct R as [R | []]. intros H.
    assert (forall a b, occurs a b -> In a done -> In b done) as K; [| eauto].
    clear H. induction 1 as [| a c b Hc _ IH]; [auto |]. intros Ha. apply IH.
    now destruct (C a c Ha Hc) as [H | []].
Qed.

(** The loop visits the nodes of the graph once each, in an order that does
    not depend on what is computed. *)
Lemma search_visits m done stack :
  search_inv done stack -> (work done stack <= m)%nat ->
  exists order, enumerates (done ++ order)
    /\ forall A B (visit : A -> UOp -> A + B) finish acc fuel, (m < fuel)%nat ->
         search_loop visit finish fuel stack (mark ∅ done) acc
         = Some (visit_all visit finish (mark ∅ (done ++ order)) order acc).
Proof using Hi.
  revert done stack. induction m as [m IH] using lt_wf_ind. intros done stack I W.
  destruct stack as [| n stack].
  - exists []. rewrite app_nil_r. split; [now apply inv_complete |].
    intros A B visit finish acc [| fuel] Hf; [lia | reflexivity].
  - assert (On : occurs u n) by exact (Forall_inv (inv_stack _ _ I)).
    destruct (is_visited (mark ∅ done) n) eqn:V.
    + apply marked_done in V; [| apply I | exact On].
      destruct (IH (pred m) ltac:(unfold work in W; cbn in W; lia) done stack)
        as (order & E & R); [now apply (inv_skip done n) | unfold work in *; cbn in W; lia |].
      exists order. split; [exact E |]. intros A B visit finish acc [| fuel] Hf; [lia |].
      cbn [search_loop]. rewrite (proj2 (marked_done done n (inv_done _ _ I) On) V).
      apply R. unfold work in W. cbn in W. lia.
    + assert (Hn : ~ In n done).
      { intros H. apply (marked_done done n (inv_done _ _ I) On) in H. congruence. }
      pose proof (work_visit done n stack I Hn) as W'.
      destruct (IH (pred m) ltac:(lia) _ _ (inv_visit done n stack I Hn) ltac:(lia))
        as (order & E & R).
      rewrite <- app_assoc in E. exists (n :: order). split; [exact E |].
      intros A B visit finish acc [| fuel] Hf; [lia |]. cbn [search_loop visit_all]. rewrite V.
      destruct (visit acc n) as [acc' | answer]; [| reflexivity].
      rewrite mark_app, mark_one in R. rewrite R by lia.
      now rewrite <- app_assoc.
Qed.

Lemma search_enumerates :
  exists order, enumerates order
    /\ forall A B (visit : A -> UOp -> A + B) finish acc,
         search visit finish acc u = Some (visit_all visit finish (mark ∅ order) order acc).
Proof using Hi.
  assert (I : search_inv [] [u]).
  { split; [repeat constructor | constructor | constructor | intros n c [] | right; now left]. }
  destruct (search_visits (S (expansion_cost children (nodes u))) [] [u] I) as (order & E & R).
  - unfold work. cbn [List.length]. apply le_n_S.
    assert (incl (toposort u) (nodes u) /\ List.NoDup (toposort u)) as [Hincl Hnd].
    { destruct (toposort_topological u Hi) as [N T _].
      split; [| exact (NoDup_map_inv _ _ N)].
      intros n Hn. apply nodes_occurs, gated_all. now apply T in Hn as [_ Hn]. }
    etransitivity; [| apply (expansion_cost_incl children (toposort u)); assumption].
    apply sum_list_with_le. intros n. unfold to_push. destruct (is_visited _ _); lia.
  - exists order. split; [exact E |]. intros A B visit finish acc. unfold search, postorder_fuel.
    change (∅ : gset Z) with (mark ∅ []) at 1. rewrite R by lia. reflexivity.
Qed.
End SearchSpec.

(** ** Consumers *)

(** [get_consumer_map_call_aware]: consumers by identity, in traversal order. *)
Definition add_consumer (node : UOp) (consumer_map : gmap Z (list UOp)) (child : UOp)
    : gmap Z (list UOp) :=
  <[uid child := default [] (consumer_map !! uid child) ++ [node]]> consumer_map.

Definition get_consumer_map_call_aware (include_call_bodies : bool) (u : UOp) : gmap Z (list UOp) :=
  fold_left (fun m node =>
      fold_left (add_consumer node) (traversal_sources (mode_of include_call_bodies) node) m)
    (toposort_call_aware include_call_bodies u) ∅.

Definition consumers (m : gmap Z (list UOp)) (c : UOp) : list UOp := default [] (m !! uid c).

Lemma add_consumers n cs m c x :
  In x (consumers (fold_left (add_consumer n) cs m) c)
  <-> In x (consumers m c) \/ (x = n /\ exists d, In d cs /\ uid d = uid c).
Proof.
  revert m. induction cs as [| d cs IH]; intros m; cbn [fold_left].
  - split; [auto | intros [H | (_ & d & [] & _)]; exact H].
  - rewrite IH. unfold consumers at 1, add_consumer. destruct (decide (uid d = uid c)) as [E | E].
    + rewrite E, lookup_insert_eq. cbn [from_option id]. rewrite in_app_iff. cbn [In].
      unfold consumers. split.
      * intros [[H | [<- | []]] | (-> & d' & Hd & E')]; eauto 7.
      * intros [H | (-> & d' & [<- | Hd] & E')]; eauto 7.
    + rewrite lookup_insert_ne by congruence. unfold consumers. cbn [In]. split.
      * intros [H | (-> & d' & Hd & E')]; eauto 7.
      * intros [H | (-> & d' & [<- | Hd] & E')]; eauto 7; contradiction.
Qed.

(** ** Theorems *)

(** [toposort] lists every node of the graph exactly once, sources first. *)
Theorem toposort_correct u :
  interned u ->
  List.NoDup (map uid (toposort u))
  /\ (forall n, In n (toposort u) <-> occurs u n)
  /\ (forall l1 n l2 c, toposort u = l1 ++ n :: l2 -> source n c -> In c l1).
Proof.
  intros Hi. destruct (toposort_topological u Hi) as [N T S]. split; [exact N |]. split.
  - intros n. rewrite T, gated_all. tauto.
  - intros l1 n l2 c E Hc. exact (S l1 n l2 c E Hc eq_refl).
Qed.

(** C28: The gated, call-aware traversal lists exactly the nodes reached
    through nodes that pass the gate, without entering call bodies when these
    are preserved, once each and sources first. *)
Theorem toposort_gated_correct gate include_call_bodies u :
  let succ := traversal_sources (mode_of include_call_bodies) in
  let r := toposort_filtered_call_aware gate include_call_bodies u in
  interned u ->
  List.NoDup (map uid r)
  /\ (forall n, In n r <-> gate u = true /\ rtc (gated succ gate) u n)
  /\ (forall l1 n l2 c, r = l1 ++ n :: l2 -> In c (succ n) -> gate c = true -> In c l1).
Proof.
  intros succ r Hi.
  destruct (postorder_topological succ gate (traversal_sources_source _) (fun a => occurs u a)
              (Arena0 := interned_arena u Hi) u (rtc_refl _ _)) as [N T S].
  split; [exact N | split; [exact T | exact S]].
Qed.

(** C29: The loop halts after a number of iterations linear in the nodes it
    returns and their edges, however many paths the graph has. *)
Theorem toposort_linear gate u :
  interned u ->
  exists r, forall fuel,
    (2 + sum_list_with (fun n => S (List.length (children n))) r <= fuel)%nat ->
    postorder_loop children gate fuel [(u, false)] ∅ [] = Some r
    /\ r = toposort_filtered gate u.
Proof.
  intros Hi.
  destruct (postorder_returns children gate (fun _ _ H => H) (fun a => occurs u a)
              (Arena0 := interned_arena u Hi) u (rtc_refl _ _)) as (r & T & R).
  exists r. intros fuel Hf. split; [exact (R fuel Hf) |].
  unfold toposort_filtered, postorder, postorder_fuel. rewrite R; [reflexivity |].
  apply le_n_S, le_n_S, expansion_cost_incl.
  - eapply NoDup_map_inv, topo_nodup, T.
  - intros n Hn. apply (topo_nodes _ _ u r T) in Hn as [_ Hn]. apply nodes_occurs.
    exact (gated_occurs children gate (fun _ _ H => H) u n Hn).
Qed.

Lemma visit_all_any (pred : UOp -> bool) visited l :
  visit_all (A := unit) (B := bool) (fun _ node => if pred node then inr true else inl tt) (fun _ _ => false)
    visited l tt
  = existsb pred l.
Proof. induction l as [| n l IH]; cbn; [reflexivity |]. destruct (pred n); [reflexivity | exact IH]. Qed.

Lemma visit_all_collect (pred : UOp -> bool) visited l r :
  visit_all (B := list UOp) (fun result node => inl (if pred node then result ++ [node] else result))
    (fun _ result => result) visited l r
  = r ++ List.filter pred l.
Proof.
  revert r. induction l as [| n l IH]; intros r; cbn; [now rewrite app_nil_r |].
  rewrite IH. destruct (pred n); [now rewrite <- app_assoc | reflexivity].
Qed.

Lemma visit_all_count visited l :
  visit_all (A := unit) (B := nat) (fun _ _ => inl tt) (fun visited _ => size visited) visited l tt
  = size visited.
Proof. induction l; cbn; auto. Qed.

(** The early-exit, collecting and counting searches agree with the
    topological order: existence, the matching nodes once each, and the number
    of nodes. *)
Theorem subtree_queries pred u :
  interned u ->
  (any_in_subtree pred u = true <-> exists n, occurs u n /\ pred n = true)
  /\ List.NoDup (map uid (collect_in_subtree pred u))
  /\ (forall n, In n (collect_in_subtree pred u) <-> occurs u n /\ pred n = true)
  /\ node_count u = List.length (toposort u).
Proof.
  intros Hi. destruct (search_enumerates u Hi) as (order & [N E] & R).
  unfold any_in_subtree, collect_in_subtree, node_count. rewrite !R. cbn [from_option id].
  rewrite visit_all_any, visit_all_collect, visit_all_count. cbn [app]. repeat split.
  - intros (n & Hn & Hp)%existsb_exists. exists n. now rewrite <- E.
  - intros (n & Hn & Hp). apply existsb_exists. exists n. now rewrite E.
  - clear -N. induction order as [| n l IH]; cbn; [constructor |]. inversion N; subst.
    destruct (pred n); [constructor; [| auto] | auto]. cbn. intros (m & Em & Hm)%in_map_iff.
    apply filter_In in Hm as [Hm _]. apply H1. rewrite <- Em. now apply in_map.
  - now apply filter_In in H as [H%E _].
  - now apply filter_In in H as [_ H].
  - intros [Hn Hp]. apply filter_In. now rewrite E.
  - destruct (toposort_topological u Hi) as [N' T _].
    unfold mark. rewrite union_empty_r_L, size_list_to_set by now apply NoDup_ListNoDup.
    rewrite length_map. apply Nat.le_antisymm; apply NoDup_incl_length.
    + eapply NoDup_map_inv, N.
    + intros n Hn. apply T. split; [reflexivity |]. now apply gated_all, E.
    + eapply NoDup_map_inv, N'.
    + intros n Hn. now apply E, gated_all, T.
Qed.

(** The consumer map inverts the source relation on the traversed nodes. *)
Theorem consumer_map_correct include_call_bodies u c x :
  let succ := traversal_sources (mode_of include_call_bodies) in
  interned u -> rtc (gated succ (fun _ => true)) u c ->
  In x (consumers (get_consumer_map_call_aware include_call_bodies u) c)
  <-> rtc (gated succ (fun _ => true)) u x /\ In c (succ x).
Proof.
  intros succ Hi Hc.
  pose proof (postorder_topological succ (fun _ => true) (traversal_sources_source _)
              (fun a => occurs u a) (Arena0 := interned_arena u Hi) u (rtc_refl _ _)) as [_ T _].
  assert (O : forall n, rtc (gated succ (fun _ => true)) u n -> occurs u n)
    by exact (gated_occurs succ _ (traversal_sources_source _) u).
  assert (K : forall l m, (forall n, In n l -> rtc (gated succ (fun _ => true)) u n) ->
    In x (consumers (fold_left (fun m node => fold_left (add_consumer node) (succ node) m) l m) c)
    <-> In x (consumers m c) \/ (In x l /\ In c (succ x))).
  { induction l as [| n l IH]; intros m Hl; cbn [fold_left]; [cbn; tauto |].
    rewrite IH, add_consumers by (intros; apply Hl; now right). split.
    - intros [[H | (-> & d & Hd & Ed)] | [Hx Hs]]; [now left | | cbn; tauto].
      right. split; [now left |]. assert (d = c) as <-; [| exact Hd].
      apply Hi; [| exact (O c Hc) | exact Ed]. eapply rtc_r; [apply O, Hl; now left |].
      now apply traversal_sources_source in Hd.
    - intros [H | [[-> | Hx] Hs]]; [tauto | left; right; eauto | tauto]. }
  unfold get_consumer_map_call_aware, toposort_call_aware. fold succ. rewrite K.
  - unfold consumers. rewrite lookup_empty. cbn [from_option id In]. rewrite T. tauto.
  - intros n Hn. now apply T in Hn.
Qed.

(** *** A diamond: [call(x * x + x, x)] *)
Module Diamond.
Definition int32 : DType := DType.Scalar DType.Int32.
Definition x := mkUOp 1 (Op.DefineVar UOp "x" 0 9) int32.
Definition sq := mkUOp 2 (Op.Binary UOp BinaryOp.Mul x x) int32.
Definition body := mkUOp 3 (Op.Binary UOp BinaryOp.Add sq x) int32.
Definition info := CallInfo.mk None None [] None false false.
Definition call := mkUOp 4 (Op.Call UOp body [x] info) int32.
Definition is_call (u : UOp) : bool := match uop_op u with Op.Call _ _ _ _ => true | _ => false end.
End Diamond.

Example toposort_diamond : map uid (toposort Diamond.call) = [1; 2; 3; 4].
Proof. vm_compute. reflexivity. Qed.
Example toposort_diamond_preserved : map uid (toposort_call_aware false Diamond.call) = [1; 4].
Proof. vm_compute. reflexivity. Qed.

Lemma toposort_correct_witness :
  List.NoDup [1; 2; 3; 4]
  /\ (forall n, In n (toposort Diamond.call) <-> occurs Diamond.call n)
  /\ (forall l1 n l2 c, toposort Diamond.call = l1 ++ n :: l2 -> source n c -> In c l1).
Proof. apply (toposort_correct Diamond.call). solve_interned. Defined.

Lemma toposort_gated_correct_witness :
  let succ := traversal_sources PreserveCalls in
  let r := [Diamond.x; Diamond.call] in
  List.NoDup (map uid r)
  /\ (forall n, In n r <-> true = true /\ rtc (gated succ (fun _ => true)) Diamond.call n)
  /\ (forall l1 n l2 c, r = l1 ++ n :: l2 -> In c (succ n) -> true = true -> In c l1).
Proof. apply (toposort_gated_correct (fun _ => true) false Diamond.call). solve_interned. Defined.

Lemma toposort_linear_witness :
  exists r, forall fuel,
    (2 + sum_list_with (fun n => S (List.length (children n))) r <= fuel)%nat ->
    postorder_loop children (fun _ => true) fuel [(Diamond.call, false)] ∅ [] = Some r
    /\ r = toposort_filtered (fun _ => true) Diamond.call.
Proof. apply (toposort_linear (fun _ => true) Diamond.call). solve_interned. Defined.

Lemma subtree_queries_witness :
  (any_in_subtree Diamond.is_call Diamond.call = true
     <-> exists n, occurs Diamond.call n /\ Diamond.is_call n = true)
  /\ List.NoDup (map uid (collect_in_subtree Diamond.is_call Diamond.call))
  /\ (forall n, In n (collect_in_subtree Diamond.is_call Diamond.call)
        <-> occurs Diamond.call n /\ Diamond.is_call n = true)
  /\ node_count Diamond.call = 4%nat.
Proof. apply (subtree_queries Diamond.is_call Diamond.call). solve_interned. Defined.

Lemma consumer_map_correct_witness :
  In Diamond.sq (consumers (get_consumer_map_call_aware true Diamond.call) Diamond.x)
  <-> rtc (gated (traversal_sources Full) (fun _ => true)) Diamond.call Diamond.sq
      /\ In Diamond.x (traversal_sources Full Diamond.sq).
Proof.
  apply (consumer_map_correct true Diamond.call Diamond.x Diamond.sq); [solve_interned |].
  eapply rtc_l; [| constructor]. split; [| reflexivity]. right. now left.
Defined.
