(* ===== verification/HashCons.v ===== *)
(** * Hash consing ([ir/src/uop/hash_consing.rs])

    The intern table as a state machine.  A state holds the allocated nodes,
    the weak entries of the table, the strong handles that exist outside the
    graph and the nodes whose destructor has not finished; the steps are the
    atomic actions of [UOp::new_with_origin] (probe, allocation, insertion), of
    [with_metadata_raw], of cloning and dropping an [Arc] and of [UOp::drop],
    in any interleaving of threads.  References held by the lazily filled
    caches or by metadata count as handles.  xxHash is the parameter [xxh64].

    The invariant: live nodes form an [Arena], an interned node is the only
    one of its structure, and every live node hangs off a handle. *)

From stdpp Require Import relations.
From S2P Require Import Prelude F64 DType Cast ConstVal Ops Payload UOp.

(** ** Structural equality of operations *)

#[export] Instance StageDigest_eq_dec : EqDecision StageDigest. Proof. solve_decision. Defined.
#[export] Instance StageAbiParamKind_eq_dec : EqDecision StageAbiParamKind. Proof. solve_decision. Defined.
#[export] Instance StageAbiParam_eq_dec : EqDecision StageAbiParam.t. Proof. solve_decision. Defined.
#[export] Instance SourceStageIdentity_eq_dec : EqDecision SourceStageIdentity.t. Proof. solve_decision. Defined.
#[export] Instance BinaryStageIdentity_eq_dec : EqDecision BinaryStageIdentity.t. Proof. solve_decision. Defined.
#[export] Instance ParamArg_eq_dec : EqDecision ParamArg.t. Proof. solve_decision. Defined.
#[export] Instance BufferizeOpts_eq_dec : EqDecision BufferizeOpts.t. Proof. solve_decision. Defined.
#[export] Instance ContiguousHint_eq_dec : EqDecision ContiguousHint.t. Proof. solve_decision. Defined.
#[export] Instance CallInfo_eq_dec : EqDecision CallInfo.t. Proof. solve_decision. Defined.
#[export] Instance CustomFunctionKind_eq_dec : EqDecision CustomFunctionKind. Proof. solve_decision. Defined.
#[export] Instance OptOps_eq_dec : EqDecision OptOps.t. Proof. solve_decision. Defined.
#[export] Instance OptArg_eq_dec : EqDecision OptArg.t. Proof. solve_decision. Defined.
#[export] Instance Opt_eq_dec : EqDecision Opt.t. Proof. solve_decision. Defined.
#[export] Instance KernelInfo_eq_dec : EqDecision KernelInfo.t. Proof. solve_decision. Defined.
#[export] Instance InsArg_eq_dec : EqDecision InsArg.t. Proof. solve_decision. Defined.
#[export] Instance BarrierFence_eq_dec : EqDecision BarrierFence. Proof. solve_decision. Defined.
#[export] Instance WmmaUpcastAxes_eq_dec : EqDecision WmmaUpcastAxes.t. Proof. solve_decision. Defined.
#[export] Instance RendererDevice_eq_dec : EqDecision RendererDevice. Proof. solve_decision. Defined.
#[export] Instance WmmaMetadata_eq_dec : EqDecision WmmaMetadata.t. Proof. solve_decision. Defined.
#[export] Instance ProgramInfo_eq_dec : EqDecision (ProgramInfo.t Z). Proof. solve_decision. Defined.
#[export] Instance Op_eq_dec : EqDecision (Op Z). Proof. solve_decision. Defined.

(** [AxisId]'s equality identifies the two spellings of a one-component path;
    every other payload compares by value (floats by bits, which
    [f64_bits_inj] makes equality of values). *)
Definition axis_norm (a : AxisId) : AxisId :=
  if AxisId.is_renumbered a then AxisId.RenumberedPath (AxisId.path a)
  else AxisId.UnrenumberedPath (AxisId.path a).

Lemma axis_norm_eqb a b : axis_norm a = axis_norm b <-> AxisId.eqb a b = true.
Proof.
  unfold axis_norm, AxisId.eqb. rewrite andb_true_iff, Bool.eqb_true_iff, bool_decide_eq_true.
  destruct (AxisId.is_renumbered a), (AxisId.is_renumbered b); split; try intuition congruence;
    try (intros [E ?]; discriminate E); try discriminate.
Qed.

Definition norm_axes {B} (l : list (AxisId * B)) : list (AxisId * B) :=
  map (fun '(a, n) => (axis_norm a, n)) l.

Definition norm_op {A} (op : Op A) : Op A :=
  match op with
  | Op.Stage _ compute ranges opts =>
      Op.Stage A compute ranges
        (BufferizeOpts.mk (BufferizeOpts.device opts)
           (option_map axis_norm (BufferizeOpts.local_axis opts))
           (BufferizeOpts.addrspace opts) (BufferizeOpts.removable opts))
  | Op.Range _ end_ axis_id axis_type deps => Op.Range A end_ (axis_norm axis_id) axis_type deps
  | Op.Wmma _ a b c m =>
      Op.Wmma A a b c
        (WmmaMetadata.mk (WmmaMetadata.name m) (WmmaMetadata.dims m) (WmmaMetadata.dtype_in m)
           (WmmaMetadata.dtype_out m) (WmmaMetadata.device m) (WmmaMetadata.threads m)
           (option_map (fun u => WmmaUpcastAxes.mk (norm_axes (WmmaUpcastAxes.a u))
              (norm_axes (WmmaUpcastAxes.b u)) (norm_axes (WmmaUpcastAxes.c u)))
              (WmmaMetadata.upcast_axes m))
           (map axis_norm (WmmaMetadata.reduce_axes m)))
  | op => op
  end.

(** [Op]'s derived equality: operands by [id], launch values of a program by
    content hash. *)
Definition op_key (hash : UOp -> Z) (op : Op UOp) : Op Z := norm_op (Op.fmap uid hash op).

(** The nodes an operation holds an [Arc] of: its operands and, for a program,
    its launch values. *)
Definition launch_values {A} (op : Op A) : list A :=
  match op with
  | Op.Program _ _ info _ _ _ =>
      ProgramInfo.global_size info ++ from_option id [] (ProgramInfo.local_size info)
      ++ ProgramInfo.vars info
  | _ => []
  end.
Definition refs (op : Op UOp) : list UOp := Op.children op ++ launch_values op.

(** ** Origins and the checks of the constructor *)

Definition origin_opaque {A} (op : Op A) (dtype : DType) : bool :=
  match op with
  | Op.Buffer _ _ _ | Op.Param _ _ _ | Op.Unique _ _ | Op.LUnique _ _ | Op.Const _ _
  | Op.VConst _ _ | Op.Stack _ _ | Op.Bind _ _ _ | Op.DefineVar _ _ _ _ | Op.Noop _ => true
  | _ => false
  end
  || bool_decide (dtype = DType.Scalar Index) || bool_decide (dtype = DType.Scalar WeakInt).

Fixpoint is_invalid_marker (u : UOp) : bool :=
  let 'mkUOp _ op _ := u in
  match op with
  | Op.Const _ ConstValue.Invalid => true
  | Op.Reshape _ src _ | Op.Permute _ src _ | Op.Expand _ src _ | Op.Pad _ src _ _
  | Op.Shrink _ src _ _ | Op.Flip _ src _ | Op.Detach _ src => is_invalid_marker src
  | Op.VConst _ values =>
      match values with [] => false | _ => forallb (fun v => const_eqb v ConstValue.Invalid) values end
  | Op.Stack _ sources => match sources with [] => false | _ => forallb is_invalid_marker sources end
  | _ => false
  end.

(** The assertions on a LOAD; [false] is a panic. *)
Definition load_ok (op : Op UOp) (dtype : DType) : bool :=
  match op with
  | Op.Load _ index alt gate =>
      bool_decide (dtype = uop_dtype index) &&
      match alt, gate with
      | None, None => true
      | Some alt, Some gate =>
          bool_decide (uop_dtype gate = DType.Scalar Bool) &&
          (is_invalid_marker alt || bool_decide (uop_dtype alt = dtype))
      | _, _ => false
      end
  | _ => true
  end.

(** ** The table *)

Module Node.
Record t := mk {
  node : UOp; tag : option (list Z); origin : option Z; content_hash : Z;
  metadata : bool; key : Op Z
}.
Definition id (n : t) : Z := uid (node n).
End Node.
Abbreviation Node := Node.t.

Module Uops.
(** [live]: the nodes that can be upgraded; [dying]: nodes whose last handle is
    gone and whose [drop] has not run; [entries]: the weak handles in the
    table; [pending]: nodes between allocation and insertion; [hooked]: the ids
    the drop hook was called with. *)
Record t := mk {
  next_uop_id : Z; live : list Node; dying : list Node; entries : list Z;
  pending : list Z; handles : list UOp; hooked : list Z
}.
Definition empty : t := mk 0 [] [] [] [] [] [].
End Uops.

Section Table.
Context (xxh64 : Op Z -> DType -> option Z -> Z).

Definition find_node (st : Uops.t) (i : Z) : option Node :=
  find (fun n => Node.id n =? i) (Uops.live st).
Definition content_hash (st : Uops.t) (u : UOp) : Z :=
  match find_node st (uid u) with Some n => Node.content_hash n | None => 0 end.
Definition hash_op (st : Uops.t) (op : Op UOp) (dtype : DType) (origin : option Z) : Z :=
  xxh64 (norm_op (Op.fmap (content_hash st) (content_hash st) op)) dtype origin.

(** [live_uop_ids]. *)
Definition live_uop_ids (st : Uops.t) : list Z :=
  filter (fun i => i ∈ map Node.id (Uops.live st)) (Uops.entries st).

(** [Probe::equivalent] on a live entry. *)
Definition equivalent (st : Uops.t) (op : Op UOp) (dtype : DType) (tag : option (list Z))
    (origin : option Z) (n : Node) : bool :=
  bool_decide (Node.id n ∈ Uops.entries st) &&
  bool_decide (uop_dtype (Node.node n) = dtype) && bool_decide (Node.tag n = tag) &&
  bool_decide (Node.origin n = origin) && bool_decide (Node.key n = op_key (content_hash st) op).

Definition probe (st : Uops.t) (op : Op UOp) (dtype : DType) (tag : option (list Z))
    (origin : option Z) : option Node :=
  find (equivalent st op dtype tag origin) (Uops.live st).

Definition add_handle (u : UOp) (st : Uops.t) : Uops.t :=
  Uops.mk (Uops.next_uop_id st) (Uops.live st) (Uops.dying st) (Uops.entries st)
    (Uops.pending st) (u :: Uops.handles st) (Uops.hooked st).

(** [UOp::fresh] behind an [Arc]. *)
Definition fresh (op : Op UOp) (dtype : DType) (tag : option (list Z)) (origin : option Z)
    (hash : Z) (metadata : bool) (st : Uops.t) : Uops.t * UOp :=
  let u := mkUOp (Uops.next_uop_id st) op dtype in
  let n := Node.mk u tag origin hash metadata (op_key (content_hash st) op) in
  (Uops.mk (wrap_u 64 (Uops.next_uop_id st + 1)) (Uops.live st ++ [n]) (Uops.dying st)
     (Uops.entries st) (if metadata then Uops.pending st else uid u :: Uops.pending st)
     (u :: Uops.handles st) (Uops.hooked st), u).

Definition visible_origin (op : Op UOp) (dtype : DType) (origin : option Z) : option Z :=
  if origin_opaque op dtype then None else origin.

(** The table's [compute]: insertion, unless a live equal node got in first. *)
Definition intern (n : Node) (st : Uops.t) : Uops.t * UOp :=
  let pending := filter (fun i => i <> Node.id n) (Uops.pending st) in
  match probe st (uop_op (Node.node n)) (uop_dtype (Node.node n)) (Node.tag n) (Node.origin n) with
  | Some existing =>
      (Uops.mk (Uops.next_uop_id st) (Uops.live st) (Uops.dying st) (Uops.entries st) pending
         (Node.node existing :: Uops.handles st) (Uops.hooked st), Node.node existing)
  | None =>
      (Uops.mk (Uops.next_uop_id st) (Uops.live st) (Uops.dying st)
         (Node.id n :: Uops.entries st) pending (Uops.handles st) (Uops.hooked st), Node.node n)
  end.

(** The number of [Arc]s to the node [i]. *)
Definition count_id (i : Z) (l : list UOp) : nat := List.length (filter (fun u => uid u = i) l).
Definition strong_count (st : Uops.t) (i : Z) : nat :=
  count_id i (Uops.handles st)
  + count_id i (concat (map (fun n => refs (uop_op (Node.node n))) (Uops.live st))).

Fixpoint remove_handle (i : Z) (l : list UOp) : list UOp :=
  match l with [] => [] | u :: l => if uid u =? i then l else u :: remove_handle i l end.

(** Dropping an [Arc]: the last one ends the node, whose operands' [Arc]s are
    from then on the destructor's to drop. *)
Definition release (u : UOp) (st : Uops.t) : Uops.t :=
  let st := Uops.mk (Uops.next_uop_id st) (Uops.live st) (Uops.dying st) (Uops.entries st)
              (Uops.pending st) (remove_handle (uid u) (Uops.handles st)) (Uops.hooked st) in
  if (strong_count st (uid u) =? 0)%nat then
    Uops.mk (Uops.next_uop_id st) (filter (fun n => Node.id n <> uid u) (Uops.live st))
      (filter (fun n => Node.id n = uid u) (Uops.live st) ++ Uops.dying st) (Uops.entries st)
      (Uops.pending st) (refs (uop_op u) ++ Uops.handles st) (Uops.hooked st)
  else st.

(** [UOp::drop]: retire the entry by allocation, then the hook. *)
Definition retire (n : Node) (st : Uops.t) : Uops.t :=
  Uops.mk (Uops.next_uop_id st) (Uops.live st)
    (filter (fun m => Node.id m <> Node.id n) (Uops.dying st))
    (filter (fun i => i <> Node.id n) (Uops.entries st)) (Uops.pending st) (Uops.handles st)
    (match uop_op (Node.node n) with
     | Op.Buffer _ _ _ => Node.id n :: Uops.hooked st
     | _ => Uops.hooked st
     end).

(** [UOp::new_with_origin] run without interruption; [None] is a panic. *)
Definition new_with_origin (op : Op UOp) (dtype : DType) (tag : option (list Z))
    (origin : option Z) (st : Uops.t) : option (Uops.t * UOp) :=
  if load_ok op dtype then
    let origin := visible_origin op dtype origin in
    match probe st op dtype tag origin with
    | Some n => Some (add_handle (Node.node n) st, Node.node n)
    | None =>
        let '(st, u) := fresh op dtype tag origin (hash_op st op dtype origin) false st in
        match find_node st (uid u) with
        | Some n => Some (intern n st)
        | None => None
        end
    end
  else None.

(** [with_metadata_raw]: a copy that never enters the table. *)
Definition with_metadata_raw (n : Node) (st : Uops.t) : Uops.t * UOp :=
  fresh (uop_op (Node.node n)) (uop_dtype (Node.node n)) (Node.tag n) (Node.origin n)
    (Node.content_hash n) true st.

(** [rtag] and [rorigin]. *)
Definition rtag (n : Node) (tag : option (list Z)) (st : Uops.t) : option (Uops.t * UOp) :=
  if bool_decide (Node.tag n = tag) then Some (add_handle (Node.node n) st, Node.node n)
  else new_with_origin (uop_op (Node.node n)) (uop_dtype (Node.node n)) tag (Node.origin n) st.

Definition rorigin (n : Node) (origin : option Z) (st : Uops.t) : option (Uops.t * UOp) :=
  if bool_decide (Node.origin n = origin) then Some (add_handle (Node.node n) st, Node.node n)
  else new_with_origin (uop_op (Node.node n)) (uop_dtype (Node.node n)) (Node.tag n) origin st.

(** [u] is allocated and can be upgraded. *)
Definition alive (st : Uops.t) (u : UOp) : Prop :=
  exists n, In n (Uops.live st) /\ Node.node n = u.

(** One atomic action of some thread.  An operation about to be allocated holds
    [Arc]s of its operands, so they are alive. *)
Inductive step (st : Uops.t) : Uops.t -> Prop :=
| step_hit op dtype tag origin n :
    probe st op dtype tag origin = Some n -> step st (add_handle (Node.node n) st)
| step_fresh op dtype tag origin :
    load_ok op dtype = true -> (forall v, In v (refs op) -> alive st v) ->
    let origin := visible_origin op dtype origin in
    step st (fst (fresh op dtype tag origin (hash_op st op dtype origin) false st))
| step_intern n :
    In n (Uops.live st) -> Node.id n ∈ Uops.pending st -> step st (fst (intern n st))
| step_metadata n :
    In n (Uops.live st) -> In (Node.node n) (Uops.handles st) ->
    step st (fst (with_metadata_raw n st))
| step_clone u v :
    In u (Uops.handles st) -> v = u \/ In v (refs (uop_op u)) -> step st (add_handle v st)
| step_release u : In u (Uops.handles st) -> step st (release u st)
| step_retire n : In n (Uops.dying st) -> step st (retire n st).

(** ** Filters *)
Lemma in_filter {A} (P : A -> Prop) `{HP : !forall x, Decision (P x)} (l : list A) x :
  In x (filter P l) <-> P x /\ In x l.
Proof using. rewrite <- !list_elem_of_In. apply list_elem_of_filter. Qed.

Lemma in_map_filter {A B} (f : A -> B) (P : A -> Prop) `{HP : !forall x, Decision (P x)} (l : list A) y :
  In y (map f (filter P l)) -> In y (map f l).
Proof using.
  intros (x & <- & [_ Hx]%in_filter)%in_map_iff. now apply in_map.
Qed.

Lemma NoDup_map_filter {A B} (f : A -> B) (P : A -> Prop) `{HP : !forall x, Decision (P x)} (l : list A) :
  List.NoDup (map f l) -> List.NoDup (map f (filter P l)).
Proof using.
  induction l as [| x l IH]; [auto |]. cbn [map]. inversion 1 as [| ? ? Hx Hl]; subst.
  rewrite filter_cons. destruct (decide (P x)); [| now apply IH].
  constructor; [| now apply IH]. intros Hy. apply Hx. eapply in_map_filter, Hy.
Qed.

Lemma NoDup_app_disjoint {A} (l k : list A) x : List.NoDup (l ++ k) -> In x l -> ~ In x k.
Proof using.
  rewrite <- NoDup_ListNoDup, NoDup_app, <- !list_elem_of_In. intros (_ & H & _). apply H.
Qed.

(** ** Counting handles *)
Lemma count_id_pos i l : (0 < count_id i l)%nat <-> exists u, In u l /\ uid u = i.
Proof using.
  unfold count_id. induction l as [| u l IH]; [split; [cbn; lia | intros (? & [] & _)] |].
  rewrite filter_cons. destruct (decide (uid u = i)) as [E | E]; cbn [List.length].
  - split; [intros _; exists u; split; [now left | exact E] | lia].
  - rewrite IH. split; intros (v & Hv & Ev).
    + exists v. split; [now right | exact Ev].
    + destruct Hv as [-> | Hv]; [contradiction | exists v; auto].
Qed.

Lemma in_remove_handle i l u : In u (remove_handle i l) -> In u l.
Proof using.
  induction l as [| v l IH]; cbn [remove_handle]; [auto |].
  destruct (uid v =? i); [now right | intros [-> | H]; [now left | right; auto]].
Qed.

Lemma in_remove_handle_ne i l u : In u l -> uid u <> i -> In u (remove_handle i l).
Proof using.
  induction l as [| v l IH]; cbn [remove_handle]; [auto |]. intros [-> | H] Hi.
  - apply Z.eqb_neq in Hi as ->. now left.
  - destruct (uid v =? i); [exact H | right; auto].
Qed.

(** ** The invariant *)

Definition same_structure (a b : Node) : Prop :=
  uop_dtype (Node.node a) = uop_dtype (Node.node b) /\ Node.tag a = Node.tag b /\
  Node.origin a = Node.origin b /\ Node.key a = Node.key b.

Definition ids (st : Uops.t) : list Z := map Node.id (Uops.live st ++ Uops.dying st).

Record Inv (st : Uops.t) : Prop := {
  inv_pos : 0 <= Uops.next_uop_id st;
  inv_next i : In i (ids st) \/ i ∈ Uops.pending st -> 0 <= i < Uops.next_uop_id st;
  inv_ids : List.NoDup (ids st);
  inv_refs n v : In n (Uops.live st) -> In v (refs (uop_op (Node.node n))) ->
    alive st v /\ uid v < Node.id n;
  inv_handles u : In u (Uops.handles st) -> alive st u;
  inv_count n : In n (Uops.live st) -> (0 < strong_count st (Node.id n))%nat;
  inv_entries i : i ∈ Uops.entries st -> In i (ids st) /\ ~ i ∈ Uops.pending st;
  inv_nodup : base.NoDup (Uops.entries st);
  inv_share n m : In n (Uops.live st) -> In m (Uops.live st) ->
    Node.id n ∈ Uops.entries st -> Node.id m ∈ Uops.entries st -> same_structure n m -> n = m;
  inv_key n : In n (Uops.live st) -> Node.key n = op_key (content_hash st) (uop_op (Node.node n));
  inv_built n : In n (Uops.live st) ->
    load_ok (uop_op (Node.node n)) (uop_dtype (Node.node n)) = true /\
    visible_origin (uop_op (Node.node n)) (uop_dtype (Node.node n)) (Node.origin n) = Node.origin n
}.

Lemma live_id st n m :
  List.NoDup (ids st) -> In n (Uops.live st) -> In m (Uops.live st) ->
  Node.id n = Node.id m -> n = m.
Proof using.
  unfold ids. rewrite map_app. intros H%List.NoDup_app_remove_r Hn Hm E.
  induction (Uops.live st) as [| a l IH]; [destruct Hn |].
  cbn [map] in H. inversion H as [| ? ? Ha Hl]; subst.
  destruct Hn as [-> | Hn], Hm as [-> | Hm]; [reflexivity | | |now apply IH].
  - destruct Ha. rewrite E. now apply in_map.
  - destruct Ha. rewrite <- E. now apply in_map.
Qed.

Lemma find_node_live st n :
  List.NoDup (ids st) -> In n (Uops.live st) -> find_node st (Node.id n) = Some n.
Proof using.
  intros Hd Hn. unfold find_node. destruct (find _ _) as [m |] eqn:E.
  - apply find_some in E as [Hm E%Z.eqb_eq]. f_equal. now apply (live_id st).
  - now apply find_none with (x := n) in E; [rewrite Z.eqb_refl in E |].
Qed.

Lemma nat_add_pos (a b : nat) : (0 < a + b)%nat <-> (0 < a)%nat \/ (0 < b)%nat.
Proof using. lia. Qed.

Lemma strong_count_pos st i :
  (0 < strong_count st i)%nat <->
  (exists u, In u (Uops.handles st) /\ uid u = i) \/
  (exists n v, In n (Uops.live st) /\ In v (refs (uop_op (Node.node n))) /\ uid v = i).
Proof using.
  unfold strong_count. rewrite nat_add_pos, !count_id_pos. apply or_iff_compat_l.
  split.
  - intros (v & Hv & E). apply in_concat in Hv as (l & Hl & Hv).
    apply in_map_iff in Hl as (n & <- & Hn). eauto.
  - intros (n & v & Hn & Hv & E). exists v. split; [| exact E]. apply in_concat.
    exists (refs (uop_op (Node.node n))). split; [| exact Hv].
    exact (in_map (fun n => refs (uop_op (Node.node n))) _ n Hn).
Qed.

(** Equality of operations reads the content hashes of launch values only. *)
Lemma op_key_ext h h' op :
  (forall v, In v (refs op) -> h v = h' v) -> op_key h op = op_key h' op.
Proof using.
  intros H. unfold op_key. f_equal. destruct op; try reflexivity. cbn [Op.fmap]. f_equal.
  unfold ProgramInfo.fmap, refs, launch_values in *.
  assert (E : forall l, incl l (ProgramInfo.global_size info ++
    from_option id [] (ProgramInfo.local_size info) ++ ProgramInfo.vars info) ->
    map h l = map h' l).
  { intros l Hl. apply map_ext_in. intros v Hv. apply H, in_or_app. right. now apply Hl. }
  f_equal.
  - apply E. now apply incl_appl, incl_refl.
  - destruct (ProgramInfo.local_size info) as [l |]; [| reflexivity]. cbn. f_equal. apply E.
    now apply incl_appr, incl_appl, incl_refl.
  - apply E. now apply incl_appr, incl_appr, incl_refl.
Qed.

(** ** Nodes are immutable and ids are not reused *)
Definition extends (st st' : Uops.t) : Prop :=
  Uops.next_uop_id st <= Uops.next_uop_id st' /\
  forall n, In n (Uops.live st') -> Node.id n < Uops.next_uop_id st -> In n (Uops.live st).

Lemma content_hash_live st n :
  List.NoDup (ids st) -> In n (Uops.live st) ->
  content_hash st (Node.node n) = Node.content_hash n.
Proof using.
  intros Hd Hn. unfold content_hash. change (uid (Node.node n)) with (Node.id n).
  now rewrite (find_node_live st n Hd Hn).
Qed.

Lemma content_hash_stable st st' v :
  Inv st -> List.NoDup (ids st') -> extends st st' -> alive st v -> alive st' v ->
  content_hash st v = content_hash st' v.
Proof using.
  intros Hi Hd' [_ He] (n & Hn & <-) (m & Hm & Em).
  assert (Hmn : In m (Uops.live st)).
  { apply He; [exact Hm |]. unfold Node.id. rewrite Em.
    apply (inv_next st Hi (Node.id n)). left. unfold ids. apply in_map, in_or_app. now left. }
  assert (m = n) as -> by (apply (live_id st); [apply Hi | .. | unfold Node.id; congruence]; assumption).
  rewrite (content_hash_live st n), (content_hash_live st' n); [reflexivity | ..];
    first [exact Hd' | apply Hi | assumption].
Qed.

Lemma keys_stable st st' :
  Inv st -> List.NoDup (ids st') -> extends st st' ->
  (forall n v, In n (Uops.live st') -> In v (refs (uop_op (Node.node n))) -> alive st' v) ->
  forall n, In n (Uops.live st) -> In n (Uops.live st') ->
  Node.key n = op_key (content_hash st') (uop_op (Node.node n)).
Proof using.
  intros Hi Hd He Hr n Hn Hn'. rewrite (inv_key st Hi n Hn). apply op_key_ext. intros v Hv.
  apply content_hash_stable; auto; [apply (inv_refs st Hi n v Hn Hv) | eauto].
Qed.

(** ** Every step keeps the invariant *)
Lemma alive_bound st u : Inv st -> alive st u -> 0 <= uid u < Uops.next_uop_id st.
Proof using.
  intros Hi (n & Hn & <-). apply (inv_next st Hi (Node.id n)). left. unfold ids.
  apply in_map, in_or_app. now left.
Qed.

Lemma live_alive st n : In n (Uops.live st) -> alive st (Node.node n).
Proof using. intros H. now exists n. Qed.

Lemma probe_alive st op dtype tag origin n :
  probe st op dtype tag origin = Some n -> alive st (Node.node n).
Proof using. intros H%find_some. exists n. tauto. Qed.

Lemma Inv_add_handle st v : Inv st -> alive st v -> Inv (add_handle v st).
Proof using.
  intros Hi Hv. constructor; try apply Hi.
  - intros u [<- | Hu]; [exact Hv | exact (inv_handles st Hi u Hu)].
  - intros n Hn. pose proof (inv_count st Hi n Hn) as H. revert H. rewrite !strong_count_pos.
    intros [(u & Hu & E) | H]; [left; exists u; split; [now right | exact E] | now right].
Qed.

Section Fresh.
Context (st : Uops.t) (op : Op UOp) (dtype : DType) (tag : option (list Z)) (origin : option Z).
Context (hash : Z) (metadata : bool).
Let st' := fst (fresh op dtype tag origin hash metadata st).
Let new := mkUOp (Uops.next_uop_id st) op dtype.
Let n0 := Node.mk new tag origin hash metadata (op_key (content_hash st) op).
Context (Hi : Inv st) (Hop : forall v, In v (refs op) -> alive st v).
Context (Hload : load_ok op dtype = true) (Horigin : visible_origin op dtype origin = origin).
Context (Hsmall : Uops.next_uop_id st + 1 < 2 ^ 64).

Lemma fresh_live : Uops.live st' = Uops.live st ++ [n0].
Proof using. reflexivity. Qed.

Lemma fresh_next : Uops.next_uop_id st' = Uops.next_uop_id st + 1.
Proof using Hi Hsmall.
  pose proof (inv_pos st Hi). apply wrap_u_small; [reflexivity |]. split; [| exact Hsmall].
  now apply Z.add_nonneg_nonneg.
Qed.

Lemma fresh_ids : Permutation (ids st') (Uops.next_uop_id st :: ids st).
Proof using.
  unfold ids. rewrite fresh_live, !map_app. cbn [map Node.id Node.node n0 uid new].
  rewrite <- app_assoc. cbn [app]. symmetry. apply Permutation_middle.
Qed.

Lemma fresh_not_id : ~ In (Uops.next_uop_id st) (ids st).
Proof using Hi. intros H. pose proof (inv_next st Hi _ (or_introl H)) as [_ L]. exact (Z.lt_irrefl _ L). Qed.

Lemma fresh_ids_nodup : List.NoDup (ids st').
Proof using Hi.
  apply (Permutation_NoDup (Permutation_sym fresh_ids)). constructor; [exact fresh_not_id | apply Hi].
Qed.

Lemma fresh_extends : extends st st'.
Proof using Hi Hsmall.
  split; [rewrite fresh_next; apply Z.le_succ_diag_r |]. intros n Hn Hl. rewrite fresh_live in Hn.
  apply in_app_iff in Hn as [Hn | [<- | []]]; [exact Hn |]. destruct (Z.lt_irrefl _ Hl).
Qed.

Lemma fresh_alive u : alive st u -> alive st' u.
Proof using.
  intros (n & Hn & E). exists n. rewrite fresh_live. split; [| exact E]. apply in_or_app. now left.
Qed.

Lemma fresh_refs n v :
  In n (Uops.live st') -> In v (refs (uop_op (Node.node n))) -> alive st' v /\ uid v < Node.id n.
Proof using Hi Hop.
  rewrite fresh_live, in_app_iff. intros [Hn | [<- | []]] Hv.
  - destruct (inv_refs st Hi n v Hn Hv). split; [now apply fresh_alive | assumption].
  - specialize (Hop v Hv). split; [now apply fresh_alive | now apply alive_bound].
Qed.

Lemma Inv_fresh : Inv st'.
Proof using Hi Hop Hload Horigin Hsmall.
  constructor.
  - rewrite fresh_next. apply Z.add_nonneg_nonneg; [apply Hi | discriminate].
  - intros i Hin. rewrite fresh_next. pose proof (inv_pos st Hi).
    assert (i = Uops.next_uop_id st \/ 0 <= i < Uops.next_uop_id st) as [-> | ?]; [| split; [assumption | apply Z.lt_succ_diag_r] | split; [easy | apply Z.lt_lt_succ_r; easy]].
    destruct Hin as [Hin | Hin].
    + apply (Permutation_in _ fresh_ids) in Hin as [<- | Hin]; [now left |].
      right. apply (inv_next st Hi). now left.
    + subst st'. unfold fresh in Hin. cbn [fst Uops.pending] in Hin. destruct metadata.
      * right. apply (inv_next st Hi). now right.
      * apply list_elem_of_In in Hin as [<- | Hin]; [now left | right].
        apply (inv_next st Hi). right. now apply list_elem_of_In.
  - exact fresh_ids_nodup.
  - exact fresh_refs.
  - intros u [<- | Hu]; [| now apply fresh_alive, (inv_handles st Hi)].
    exists n0. rewrite fresh_live. split; [apply in_or_app; right; now left | reflexivity].
  - intros n Hn. apply strong_count_pos. rewrite fresh_live in Hn.
    apply in_app_iff in Hn as [Hn | [<- | []]]; [| left; exists new; split; [now left | reflexivity]].
    pose proof (inv_count st Hi n Hn) as H. apply strong_count_pos in H as [(u & Hu & E) | (m & v & Hm & Hv)].
    + left. exists u. split; [now right | exact E].
    + right. exists m, v. rewrite fresh_live. split; [apply in_or_app; now left | exact Hv].
  - intros i Hin. destruct (inv_entries st Hi i Hin) as [H1 H2]. split.
    + apply (Permutation_in _ (Permutation_sym fresh_ids)). now right.
    + subst st'. unfold fresh. cbn [fst Uops.pending]. destruct metadata; [exact H2 |].
      rewrite list_elem_of_In. intros [<- | H]; [now apply fresh_not_id | now apply H2, list_elem_of_In].
  - apply Hi.
  - assert (E : forall n, In n (Uops.live st') -> Node.id n ∈ Uops.entries st -> In n (Uops.live st)).
    { intros n Hn He. rewrite fresh_live in Hn. apply in_app_iff in Hn as [Hn | [<- | []]]; [exact Hn |].
      destruct fresh_not_id. now apply (inv_entries st Hi). }
    intros n m Hn Hm En Em. apply (inv_share st Hi); auto.
  - intros n Hn. pose proof Hn as Hn'. rewrite fresh_live in Hn.
    apply in_app_iff in Hn as [Hn | [<- | []]].
    + eapply keys_stable; eauto using fresh_ids_nodup, fresh_extends.
      intros m v Hm Hv. now apply (fresh_refs m v).
    + apply op_key_ext. intros v Hv. apply content_hash_stable;
        auto using fresh_ids_nodup, fresh_extends, fresh_alive.
  - intros n Hn. rewrite fresh_live in Hn. apply in_app_iff in Hn as [Hn | [<- | []]]; [| now split].
    now apply (inv_built st Hi).
Qed.
End Fresh.

Lemma visible_origin_idem op dtype origin :
  visible_origin op dtype (visible_origin op dtype origin) = visible_origin op dtype origin.
Proof using. unfold visible_origin. now destruct (origin_opaque op dtype). Qed.

Lemma elem_of_filter_ne (i j : Z) (l : list Z) : (i ∈ filter (fun k => k <> j) l) <-> (i <> j) /\ (i ∈ l).
Proof using. rewrite list_elem_of_filter. reflexivity. Qed.

(** [probe] finds every live interned node of the structure of [n]. *)
Lemma probe_None st n m :
  Inv st -> In n (Uops.live st) ->
  probe st (uop_op (Node.node n)) (uop_dtype (Node.node n)) (Node.tag n) (Node.origin n) = None ->
  In m (Uops.live st) -> Node.id m ∈ Uops.entries st -> ~ same_structure n m.
Proof using.
  intros Hi Hn Hp Hm He (Ed & Et & Eo & Ek). unfold probe in Hp.
  apply find_none with (x := m) in Hp; [| exact Hm]. revert Hp. unfold equivalent.
  rewrite <- (inv_key st Hi n Hn), Ed, Et, Eo, Ek, !bool_decide_true by (exact He || reflexivity).
  discriminate.
Qed.

Lemma Inv_intern st n :
  Inv st -> In n (Uops.live st) -> Node.id n ∈ Uops.pending st -> Inv (fst (intern n st)).
Proof using.
  intros Hi Hn Hp. unfold intern. destruct (probe _ _ _ _ _) as [m |] eqn:P.
  - apply (Inv_add_handle (Uops.mk _ _ _ _ _ (Uops.handles st) (Uops.hooked st)));
      [| exact (probe_alive _ _ _ _ _ _ P)].
    constructor; try apply Hi.
    + intros i [H | H]; apply (inv_next st Hi); [now left | right].
      now apply elem_of_filter_ne in H.
    + intros i H. destruct (inv_entries st Hi i H) as [H1 H2]. split; [exact H1 |].
      cbn [Uops.pending]. rewrite elem_of_filter_ne. tauto.
  - constructor; try apply Hi; cbn [fst Uops.pending Uops.entries Uops.live].
    + intros i [H | H]; apply (inv_next st Hi); [now left | right].
      now apply elem_of_filter_ne in H.
    + intros i. rewrite elem_of_cons, elem_of_filter_ne. intros [-> | H].
      * split; [| tauto]. unfold ids. cbn. apply in_map, in_or_app. now left.
      * destruct (inv_entries st Hi i H) as [H1 H2]. split; [exact H1 | tauto].
    + constructor; [| apply Hi]. intros H. now apply (inv_entries st Hi) in H.
    + assert (X : forall m, In m (Uops.live st) -> Node.id m ∈ Node.id n :: Uops.entries st ->
                m = n \/ Node.id m ∈ Uops.entries st).
      { intros m Hm H. apply elem_of_cons in H as [E | H]; [left | now right].
        now apply (live_id st); [apply Hi | ..]. }
      intros a b Ha Hb Ea Eb Es. apply X in Ea as [-> | Ea], Eb as [-> | Eb]; try assumption.
      * reflexivity.
      * destruct (probe_None st n b Hi Hn P Hb Eb Es).
      * destruct (probe_None st n a Hi Hn P Ha Ea). unfold same_structure in *. intuition congruence.
      * now apply (inv_share st Hi).
Qed.

Lemma Inv_retire st n : Inv st -> In n (Uops.dying st) -> Inv (retire n st).
Proof using.
  intros Hi Hn.
  assert (Hin : forall i, In i (ids (retire n st)) -> In i (ids st)).
  { unfold ids. cbn. intros i. rewrite !map_app, !in_app_iff. intros [H | H]; [now left | right].
    eapply in_map_filter, H. }
  constructor; try apply Hi.
  - intros i [H | H]; apply (inv_next st Hi); auto.
  - pose proof (inv_ids st Hi) as H. unfold ids in *. cbn. rewrite map_app in *.
    apply List.NoDup_app; [exact (NoDup_app_remove_r _ _ H) | |].
    + apply NoDup_map_filter. exact (NoDup_app_remove_l _ _ H).
    + intros i H1 H2. apply in_map_filter in H2. eapply NoDup_app_disjoint in H; eauto.
  - intros i. cbn [retire Uops.entries Uops.pending]. rewrite elem_of_filter_ne. intros [Hne H].
    destruct (inv_entries st Hi i H) as [H1 H2]. split; [| exact H2]. revert H1. unfold ids. cbn.
    rewrite !map_app, !in_app_iff. intros [H1 | H1]; [now left | right].
    apply in_map_iff in H1 as (m & <- & Hm). apply in_map, in_filter. now split.
  - apply NoDup_filter, Hi.
  - intros a b Ha Hb Ea Eb. cbn [retire Uops.entries] in *. rewrite elem_of_filter_ne in *.
    now apply (inv_share st Hi).
Qed.

(** A handle to another node survives [remove_handle]. *)
Lemma count_remove_other st i j :
  i <> j -> (0 < strong_count st i)%nat ->
  (exists u, In u (remove_handle j (Uops.handles st)) /\ uid u = i) \/
  (exists n v, In n (Uops.live st) /\ In v (refs (uop_op (Node.node n))) /\ uid v = i).
Proof using.
  intros Hij [(u & Hu & E) | H]%strong_count_pos; [left | now right].
  exists u. split; [| exact E]. apply in_remove_handle_ne; congruence.
Qed.

Lemma Inv_release st u : Inv st -> In u (Uops.handles st) -> Inv (release u st).
Proof using.
  intros Hi Hu. unfold release. set (st1 := Uops.mk _ _ _ _ _ _ _).
  destruct (strong_count st1 (uid u) =? 0)%nat eqn:C.
  2: { apply Nat.eqb_neq, Nat.neq_0_lt_0 in C. constructor; try apply Hi.
       - intros v Hv. apply (inv_handles st Hi). exact (in_remove_handle _ _ _ Hv).
       - intros n Hn. destruct (Z.eq_dec (Node.id n) (uid u)) as [-> | Hne]; [exact C |].
         apply strong_count_pos. apply (count_remove_other st); [exact Hne |]. now apply (inv_count st Hi). }
  apply Nat.eqb_eq in C. set (st2 := Uops.mk _ _ _ _ _ _ _).
  destruct (inv_handles st Hi u Hu) as (n0 & Hn0 & En0).
  assert (Hgone : forall v, (In v (Uops.handles st1) \/
            exists n, In n (Uops.live st) /\ In v (refs (uop_op (Node.node n)))) -> uid v <> uid u).
  { intros v Hv E. apply (Nat.lt_irrefl 0). rewrite <- C at 2. apply strong_count_pos.
    destruct Hv as [Hv | (n & Hn & Hv)]; [left | right]; eauto. }
  assert (Hkeep : forall v, alive st v -> uid v <> uid u -> alive st2 v).
  { intros v (n & Hn & <-) Hne. exists n. split; [| reflexivity]. now apply in_filter. }
  assert (Hid : forall i, In i (ids st2) <-> In i (ids st)).
  { unfold ids, st2. cbn. intros i. rewrite !map_app, !in_app_iff, !in_map_iff. setoid_rewrite in_filter.
    split.
    - intros [(n & E & _ & Hn) | [(n & E & _ & Hn) | Hn]]; [left | left | right; exact Hn]; exists n; now split.
    - intros [(n & E & Hn) | Hn]; [| now right; right].
      destruct (Z.eq_dec (Node.id n) (uid u)); [right; left | left]; exists n; auto. }
  assert (Hnd : List.NoDup (ids st2)).
  { pose proof (inv_ids st Hi) as H. unfold ids, st2 in *. cbn. clear - H.
    rewrite !map_app in *. rewrite app_assoc.
    apply List.NoDup_app; [| exact (NoDup_app_remove_l _ _ H) |].
    - apply List.NoDup_app; try (apply NoDup_map_filter, (NoDup_app_remove_r _ _ H)).
      intros i (a & <- & [Ha _]%in_filter)%in_map_iff (b & E & [Hb _]%in_filter)%in_map_iff. congruence.
    - intros i [H1 | H1]%in_app_iff; apply in_map_filter in H1; eapply NoDup_app_disjoint in H; eauto. }
  assert (Hsub : forall n, In n (Uops.live st2) -> In n (Uops.live st) /\ Node.id n <> uid u).
  { intros n Hn. apply in_filter in Hn. tauto. }
  assert (Hrefs : forall n v, In n (Uops.live st2) -> In v (refs (uop_op (Node.node n))) ->
            alive st2 v /\ uid v < Node.id n).
  { intros n v Hn Hv. apply Hsub in Hn as [Hn _]. destruct (inv_refs st Hi n v Hn Hv) as [Ha Hl].
    split; [| exact Hl]. apply Hkeep; [exact Ha |]. apply Hgone. right. eauto. }
  constructor; try apply Hi; try assumption.
  - intros i [H | H]; apply (inv_next st Hi); [left; now apply Hid | now right].
  - intros v Hv. apply in_app_iff in Hv as [Hv | Hv].
    + rewrite <- En0 in Hv. destruct (inv_refs st Hi n0 v Hn0 Hv) as [Ha _]. apply Hkeep; [exact Ha |].
      apply Hgone. right. eauto.
    + apply Hkeep; [| apply Hgone; now left]. apply (inv_handles st Hi). exact (in_remove_handle _ _ _ Hv).
  - intros n Hn. apply Hsub in Hn as [Hn Hne]. apply strong_count_pos.
    destruct (count_remove_other st _ _ Hne (inv_count st Hi n Hn)) as [(v & Hv & E) | (m & v & Hm & Hv & E)].
    + left. exists v. split; [apply in_or_app; now right | exact E].
    + destruct (Z.eq_dec (Node.id m) (uid u)) as [Em | Em].
      * left. exists v. split; [| exact E]. apply in_or_app. left.
        assert (m = n0) as -> by (apply (live_id st); [apply Hi | .. | unfold Node.id in *; congruence]; assumption).
        now rewrite <- En0.
      * right. exists m, v. split; [| now split]. now apply in_filter.
  - intros i Hin. destruct (inv_entries st Hi i Hin) as [H1 H2]. split; [now apply Hid | exact H2].
  - intros n m [Hn _]%Hsub [Hm _]%Hsub. now apply (inv_share st Hi).
  - intros n Hn. destruct (Hsub n Hn). apply (keys_stable st st2); auto.
    + split; [reflexivity |]. intros m Hm _. now apply Hsub.
    + intros m v Hm Hv. now apply (Hrefs m v).
  - intros n [Hn _]%Hsub. now apply (inv_built st Hi).
Qed.

(** ** Reachable states *)
Lemma alive_clone st u v : Inv st -> In u (Uops.handles st) -> v = u \/ In v (refs (uop_op u)) -> alive st v.
Proof using.
  intros Hi Hu [-> | Hv]; [now apply (inv_handles st Hi) |].
  destruct (inv_handles st Hi u Hu) as (n & Hn & <-). now apply (inv_refs st Hi n).
Qed.

Lemma step_Inv st st' :
  Inv st -> Uops.next_uop_id st + 1 < 2 ^ 64 -> step st st' ->
  Inv st' /\ Uops.next_uop_id st' <= Uops.next_uop_id st + 1.
Proof using.
  intros Hi Hs H. destruct H.
  - split; [now apply Inv_add_handle, (probe_alive st op dtype tag origin n) | apply Z.le_succ_diag_r].
  - split; [| now rewrite fresh_next]. apply Inv_fresh; auto. apply visible_origin_idem.
  - split; [now apply Inv_intern |]. unfold intern. destruct (probe _ _ _ _ _); apply Z.le_succ_diag_r.
  - split; [| unfold with_metadata_raw; now rewrite fresh_next].
    apply Inv_fresh; try apply (inv_built st Hi n); auto. intros v Hv. now apply (inv_refs st Hi n).
  - split; [now apply Inv_add_handle, (alive_clone st u v) | apply Z.le_succ_diag_r].
  - split; [now apply Inv_release |]. unfold release. destruct (_ =? _)%nat; apply Z.le_succ_diag_r.
  - split; [now apply Inv_retire | apply Z.le_succ_diag_r].
Qed.

Lemma nsteps_Inv k st st' :
  nsteps step k st st' -> Inv st -> Uops.next_uop_id st + Z.of_nat k < 2 ^ 64 ->
  Inv st' /\ Uops.next_uop_id st' <= Uops.next_uop_id st + Z.of_nat k.
Proof using.
  induction 1 as [st | k st st1 st' H _ IH]; intros Hi Hk.
  - split; [exact Hi |]. rewrite Z.add_0_r. reflexivity.
  - rewrite Nat2Z.inj_succ in *. destruct (step_Inv st st1 Hi) as [Hi1 L]; [clear - Hk; lia | exact H |].
    destruct IH as [Hi' L']; [exact Hi1 | clear - Hk L; lia |]. split; [exact Hi' | clear - L L'; lia].
Qed.

Lemma Inv_empty : Inv Uops.empty.
Proof using.
  constructor; cbn.
  - reflexivity.
  - intros i [[] | H]. now apply not_elem_of_nil in H.
  - constructor.
  - intros n v [].
  - intros u [].
  - intros n [].
  - intros i H. now apply not_elem_of_nil in H.
  - constructor.
  - intros n m [].
  - intros n [].
  - intros n [].
Qed.

Lemma reachable_Inv k st :
  nsteps step k Uops.empty st -> Z.of_nat k < 2 ^ 64 -> Inv st /\ Uops.next_uop_id st <= Z.of_nat k.
Proof using. intros H Hk. exact (nsteps_Inv k _ _ H Inv_empty Hk). Qed.

(** Nodes that stay alive stay in the table. *)
Lemma step_extends st st' :
  Inv st -> Uops.next_uop_id st + 1 < 2 ^ 64 -> step st st' ->
  extends st st' /\
  (forall n, In n (Uops.live st') -> Node.id n ∈ Uops.entries st -> Node.id n ∈ Uops.entries st').
Proof using.
  intros Hi Hs H. pose proof (step_Inv st st' Hi Hs H) as [Hi' _].
  assert (Refl : forall st2, Uops.next_uop_id st2 = Uops.next_uop_id st -> Uops.live st2 = Uops.live st -> extends st st2).
  { intros st2 E1 E2. split; [now rewrite E1 | now rewrite E2]. }
  destruct H; try (split; [now apply Refl | now intros]).
  - split; [now apply fresh_extends | now intros].
  - unfold intern. destruct (probe _ _ _ _ _); cbn; (split; [now apply Refl | intros m Hm He]);
      [exact He | apply elem_of_cons; now right].
  - split; [now apply fresh_extends | now intros].
  - unfold release. destruct (_ =? _)%nat; cbn; (split; [split; [reflexivity |] | now intros]).
    + intros n Hn _. cbn in Hn. now apply in_filter in Hn.
    + now intros.
  - split; [now apply Refl |]. intros m Hm He. cbn. apply elem_of_filter_ne. split; [| exact He].
    intros E. pose proof (inv_ids st Hi) as Hd. unfold ids in Hd. rewrite map_app in Hd.
    apply (NoDup_app_disjoint _ _ (Node.id m) Hd); [now apply in_map | rewrite E; now apply in_map].
Qed.

Lemma extends_trans st1 st2 st3 : extends st1 st2 -> extends st2 st3 -> extends st1 st3.
Proof using.
  intros [L1 E1] [L2 E2]. split; [exact (Z.le_trans _ _ _ L1 L2) |]. intros n Hn Hl.
  apply E1; [| exact Hl]. apply E2; [exact Hn | exact (Z.lt_le_trans _ _ _ Hl L1)].
Qed.

Lemma nsteps_extends k st st' :
  nsteps step k st st' -> Inv st -> Uops.next_uop_id st + Z.of_nat k < 2 ^ 64 ->
  extends st st' /\
  (forall n, In n (Uops.live st') -> Node.id n < Uops.next_uop_id st ->
     Node.id n ∈ Uops.entries st -> Node.id n ∈ Uops.entries st').
Proof using.
  induction 1 as [st | k st st1 st' H Hk IH]; intros Hi Hb.
  - split; [split; [reflexivity | auto] | auto].
  - rewrite Nat2Z.inj_succ in *.
    assert (Hs : Uops.next_uop_id st + 1 < 2 ^ 64) by (clear - Hb; lia).
    destruct (step_extends st st1 Hi Hs H) as [E1 T1]. destruct (step_Inv st st1 Hi Hs H) as [Hi1 L].
    destruct IH as [E2 T2]; [exact Hi1 | clear - Hb L; lia |].
    split; [exact (extends_trans _ _ _ E1 E2) |]. intros n Hn Hl He.
    assert (Node.id n < Uops.next_uop_id st1) by (destruct E1; clear - Hl H0; lia).
    apply T2; [exact Hn | assumption |]. apply T1; [| exact He]. now apply E2.
Qed.

(** ** Results *)

(** What the table compares: operation (operands by id), dtype, tag, origin. *)
Definition structure (st : Uops.t) (n : Node) : Op Z * DType * option (list Z) * option Z :=
  (op_key (content_hash st) (uop_op (Node.node n)), uop_dtype (Node.node n), Node.tag n, Node.origin n).

Lemma structure_same st n m :
  Inv st -> In n (Uops.live st) -> In m (Uops.live st) ->
  structure st n = structure st m <-> same_structure n m.
Proof using.
  intros Hi Hn Hm. unfold structure, same_structure.
  rewrite (inv_key st Hi n Hn), (inv_key st Hi m Hm). split.
  - intros E. injection E. tauto.
  - intros (E1 & E2 & E3 & E4). congruence.
Qed.

(** C1: Hash consing.  However the steps of the constructors, clones and
    destructors of any number of threads interleave (fewer than 2^64 of them),
    the nodes alive form an arena — sources of live nodes are live, and an id
    names one node — every outside handle points into it, and two interned
    nodes have the same structure exactly when they are the same node. *)
Theorem hash_consing_invariant k st :
  nsteps step k Uops.empty st -> Z.of_nat k < 2 ^ 64 ->
  Arena (alive st) /\
  (forall u, In u (Uops.handles st) -> alive st u) /\
  (forall n m, In n (Uops.live st) -> In m (Uops.live st) ->
     Node.id n ∈ Uops.entries st -> Node.id m ∈ Uops.entries st ->
     (structure st n = structure st m <-> Node.node n = Node.node m)).
Proof using.
  intros H Hk. destruct (reachable_Inv k st H Hk) as [Hi _]. split; [| split].
  - constructor.
    + intros u v (n & Hn & <-) Hv. apply (inv_refs st Hi n v Hn). apply in_or_app. now left.
    + intros a b (n & Hn & <-) (m & Hm & <-) E. f_equal. now apply (live_id st); [apply Hi | ..].
  - apply Hi.
  - intros n m Hn Hm En Em. rewrite (structure_same st n m Hi Hn Hm). split.
    + intros Es. f_equal. now apply (inv_share st Hi).
    + intros E. assert (n = m) as -> by (apply (live_id st); [apply Hi | .. | unfold Node.id; congruence]; assumption).
      repeat split.
Qed.

Lemma equivalent_spec st op dtype tag origin n :
  equivalent st op dtype tag origin n = true <->
  (Node.id n ∈ Uops.entries st) /\ uop_dtype (Node.node n) = dtype /\ Node.tag n = tag /\
  Node.origin n = origin /\ Node.key n = op_key (content_hash st) op.
Proof using. unfold equivalent. rewrite !andb_true_iff, !bool_decide_eq_true. tauto. Qed.

Lemma alive_id st u v : Inv st -> alive st u -> alive st v -> uid u = uid v -> u = v.
Proof using.
  intros Hi (n & Hn & <-) (m & Hm & <-) E. f_equal. now apply (live_id st); [apply Hi | ..].
Qed.

(** Equal keys name the same operands. *)
Lemma children_norm_op {A} (op : Op A) : Op.children (norm_op op) = Op.children op.
Proof using. destruct op; reflexivity. Qed.

Lemma children_fmap {A B} (f g : A -> B) (op : Op A) :
  Op.children (Op.fmap f g op) = map f (Op.children op).
Proof using.
  destruct op; cbn [Op.fmap Op.children map]; rewrite ?map_app;
    repeat match goal with o : option A |- _ => destruct o end; reflexivity.
Qed.

Lemma op_key_children h h' op op' :
  op_key h op = op_key h' op' -> map uid (Op.children op) = map uid (Op.children op').
Proof using.
  unfold op_key. intros E%(f_equal Op.children).
  now rewrite !children_norm_op, !children_fmap in E.
Qed.

Lemma alive_ids st l l' :
  Inv st -> (forall u, In u l -> alive st u) -> (forall u, In u l' -> alive st u) ->
  map uid l = map uid l' -> l = l'.
Proof using.
  intros Hi. revert l'. induction l as [| u l IH]; intros [| u' l'] H H' E; try discriminate; [reflexivity |].
  injection E as E1 E2. f_equal.
  - apply (alive_id st); [exact Hi | now apply H; left | now apply H'; left | exact E1].
  - apply IH; [intros v Hv; now apply H; right | intros v Hv; now apply H'; right | exact E2].
Qed.

(** One call of the constructor: two steps at most, to an interned node of the
    structure asked for. *)
Lemma new_with_origin_spec st op dtype tag origin st1 u :
  Inv st -> Uops.next_uop_id st + 1 < 2 ^ 64 -> (forall v, In v (refs op) -> alive st v) ->
  new_with_origin op dtype tag origin st = Some (st1, u) ->
  load_ok op dtype = true /\ In u (Uops.handles st1) /\ incl (Uops.handles st) (Uops.handles st1) /\
  (forall v, alive st v -> alive st1 v) /\
  (exists j, (j <= 2)%nat /\ nsteps step j st st1) /\
  exists n, In n (Uops.live st1) /\ Node.node n = u /\ Node.id n ∈ Uops.entries st1 /\
    uop_dtype u = dtype /\ Node.tag n = tag /\ Node.origin n = visible_origin op dtype origin /\
    Node.key n = op_key (content_hash st) op.
Proof using.
  intros Hi Hs Hop. unfold new_with_origin. destruct (load_ok op dtype) eqn:L; [| discriminate].
  destruct (probe _ _ _ _ _) as [n |] eqn:P.
  - intros E. injection E as <- <-. pose proof P as (Hn & He)%find_some.
    apply equivalent_spec in He as (He & Ed & Et & Eo & Ek).
    split; [reflexivity |]. split; [now left |]. split; [now right |]. split; [auto |]. split.
    { exists 1%nat. split; [auto |]. eapply nsteps_l; [| constructor]. eapply step_hit, P. }
    exists n. now repeat split.
  - set (st' := fst (fresh op dtype tag (visible_origin op dtype origin)
                       (hash_op st op dtype (visible_origin op dtype origin)) false st)).
    unfold fresh at 1. change (Uops.mk _ _ _ _ _ _ _) with st'. cbn [uid].
    set (n0 := Node.mk (mkUOp (Uops.next_uop_id st) op dtype) tag (visible_origin op dtype origin)
                 (hash_op st op dtype (visible_origin op dtype origin)) false (op_key (content_hash st) op)).
    assert (Hn0 : In n0 (Uops.live st')) by (apply in_or_app; right; now left).
    assert (Hst : step st st') by (now apply step_fresh).
    change (Uops.next_uop_id st) with (Node.id n0).
    rewrite (find_node_live st' n0 (fresh_ids_nodup _ _ _ _ _ _ _ Hi) Hn0). intros E. injection E as E.
    assert (Hst1 : step st' st1).
    { replace st1 with (fst (intern n0 st')) by now rewrite E. apply step_intern; [exact Hn0 |].
      apply elem_of_cons. now left. }
    split; [reflexivity |]. assert (Ek : op_key (content_hash st') op = op_key (content_hash st) op).
    { apply op_key_ext. intros v Hv. symmetry.
      apply content_hash_stable; [exact Hi | now apply fresh_ids_nodup | now apply fresh_extends
        | now apply Hop | now apply fresh_alive, Hop]. }
    assert (Hsteps : exists j, (j <= 2)%nat /\ nsteps step j st st1).
    { exists 2%nat. split; [auto |]. econstructor; [exact Hst |]. econstructor; [exact Hst1 | constructor]. }
    assert (Halive : forall v, alive st v -> alive st' v) by (intros v Hv; now apply fresh_alive).
    revert E. unfold intern. destruct (probe st' _ _ _ _) as [m |] eqn:P'; intros E; injection E as <- <-.
    + pose proof P' as (Hm & He)%find_some. cbn in He. apply equivalent_spec in He as (He & Ed & Et & Eo & Ek').
      split; [now left |]. split; [intros v Hv; right; now right |]. split; [exact Halive |].
      split; [exact Hsteps |]. pose proof (eq_trans Ek' Ek) as Ek2. exists m. now repeat split.
    + split; [now left |]. split; [now right |]. split; [exact Halive |]. split; [exact Hsteps |].
      exists n0. repeat split; auto. apply elem_of_cons. now left.
Qed.

(** C2: [UOp::new] is canonical.  The node it returns has the dtype, the
    operation (operand for operand), the tag and the visible origin asked for;
    and for as long as that node is alive, whatever steps happen in between, a
    second call with the same arguments returns it and allocates nothing. *)
Theorem new_with_origin_canonical k st op dtype tag origin st1 u j st2 :
  nsteps step k Uops.empty st -> (forall v, In v (refs op) -> alive st v) ->
  new_with_origin op dtype tag origin st = Some (st1, u) ->
  nsteps step j st1 st2 -> Z.of_nat (k + 2 + j) < 2 ^ 64 ->
  (In u (Uops.handles st1) /\ uop_dtype u = dtype /\
   op_key (content_hash st1) (uop_op u) = op_key (content_hash st) op /\
   exists n, In n (Uops.live st1) /\ Node.node n = u /\ Node.tag n = tag /\
     Node.origin n = visible_origin op dtype origin) /\
  (alive st2 u -> (forall v, In v (refs op) -> alive st2 v) ->
   new_with_origin op dtype tag origin st2 = Some (add_handle u st2, u)).
Proof using.
  intros H Hr Hnew Hj Hb. rewrite !Nat2Z.inj_add in Hb. destruct (reachable_Inv k st H) as [Hi Hl]; [clear - Hb; lia |].
  destruct (new_with_origin_spec st op dtype tag origin st1 u Hi)
    as (Hload & Hu & _ & _ & (i & Li & Hst1) & n & Hn & En & He & Ed & Et & Eo & Ek);
    [clear - Hl Hb; lia | exact Hr | exact Hnew |].
  destruct (nsteps_Inv _ _ _ Hst1 Hi) as [Hi1 Hl1]; [clear - Li Hl Hb; lia |].
  destruct (nsteps_Inv _ _ _ Hj Hi1) as [Hi2 Hl2]; [clear - Li Hl Hl1 Hb; lia |].
  destruct (nsteps_extends _ _ _ Hst1 Hi) as [X1 _]; [clear - Li Hl Hb; lia |].
  destruct (nsteps_extends _ _ _ Hj Hi1) as [X2 T2]; [clear - Li Hl Hl1 Hb; lia |].
  split.
  - split; [exact Hu |]. split; [exact Ed |]. split; [| exists n; now repeat split].
    rewrite <- Ek, (inv_key st1 Hi1 n Hn), En. reflexivity.
  - intros (m & Hm & Em) Hr2.
    assert (Hlt : Node.id m < Uops.next_uop_id st1).
    { unfold Node.id. rewrite Em, <- En. apply (inv_next st1 Hi1 (Node.id n)). left. unfold ids.
      apply in_map, in_or_app. now left. }
    assert (m = n) as ->.
    { apply (live_id st1); [apply Hi1 | | exact Hn | unfold Node.id; congruence]. now apply X2. }
    unfold new_with_origin. rewrite Hload.
    assert (Hq : equivalent st2 op dtype tag (visible_origin op dtype origin) n = true).
    { apply equivalent_spec. repeat split; auto; [congruence |]. rewrite Ek. apply op_key_ext.
      intros v Hv. apply content_hash_stable; auto using inv_ids.
      exact (extends_trans _ _ _ X1 X2). }
    destruct (probe st2 _ _ _ _) as [q |] eqn:P.
    + apply find_some in P as [Hqi Hqe]. apply equivalent_spec in Hqe, Hq.
      assert (q = n) as ->; [| now rewrite En].
      apply (inv_share st2 Hi2); try tauto. unfold same_structure. intuition congruence.
    + apply find_none with (x := n) in P; [congruence | exact Hm].
Qed.

(** ** Teardown *)

(** [drop] of one [Arc] with the destructor of its node; the operands' [Arc]s
    are returned, to be dropped next. *)
Definition drop_arc (u : UOp) (st : Uops.t) : Uops.t * list UOp :=
  let st1 := release u st in
  match find (fun n => Node.id n =? uid u) (Uops.dying st1) with
  | Some n => (retire n st1, refs (uop_op u))
  | None => (st1, [])
  end.

(** The drain of [UOp::drop]: the destructor of one handle, run to the end. *)
Fixpoint teardown (fuel : nat) (queue : list UOp) (st : Uops.t) : option Uops.t :=
  match queue with
  | [] => Some st
  | u :: queue =>
      match fuel with
      | O => None
      | S fuel => let '(st, dropped) := drop_arc u st in teardown fuel (dropped ++ queue) st
      end
  end.

Definition total_refs (l : list Node) : nat :=
  List.length (concat (map (fun n => refs (uop_op (Node.node n))) l)).

Lemma total_refs_filter st n :
  List.NoDup (ids st) -> In n (Uops.live st) ->
  (total_refs (filter (fun m => Node.id m <> Node.id n) (Uops.live st))
   + List.length (refs (uop_op (Node.node n))) = total_refs (Uops.live st))%nat.
Proof using.
  unfold ids. rewrite map_app. intros Hd%NoDup_app_remove_r. unfold total_refs.
  induction (Uops.live st) as [| m l IH]; [intros [] |]. cbn [map] in Hd.
  inversion Hd as [| ? ? Hm Hl]; subst. rewrite filter_cons. intros [-> | Hn].
  - rewrite decide_False by auto. cbn [map concat]. rewrite length_app, Nat.add_comm. f_equal.
    f_equal. f_equal. f_equal. clear - Hm. induction l as [| k l IH]; [reflexivity |].
    cbn [map] in Hm. rewrite filter_cons, decide_True by (intros E; apply Hm; rewrite <- E; now left).
    f_equal. apply IH. intros H. apply Hm. now right.
  - rewrite decide_True by (intros E; apply Hm; rewrite E; now apply in_map).
    cbn [map concat]. rewrite !length_app, <- Nat.add_assoc. f_equal. now apply IH.
Qed.

Lemma remove_handle_perm u l :
  In u l -> (forall v, In v l -> uid v = uid u -> v = u) -> Permutation l (u :: remove_handle (uid u) l).
Proof using.
  induction l as [| w l IH]; [intros [] |]. intros Hu Hw. cbn [remove_handle].
  destruct (uid w =? uid u) eqn:E.
  - apply Z.eqb_eq in E. rewrite (Hw w (or_introl eq_refl) E). reflexivity.
  - destruct Hu as [-> | Hu]; [now rewrite Z.eqb_refl in E |]. rewrite perm_swap. constructor.
    apply IH; [exact Hu |]. intros v Hv. apply Hw. now right.
Qed.

(** One [Arc] dropped: the references still to drop, in the queue or the graph,
    decrease by one. *)
Lemma drop_arc_spec u st st1 dropped :
  Inv st -> In u (Uops.handles st) -> drop_arc u st = (st1, dropped) ->
  Inv st1 /\ Uops.dying st1 = Uops.dying st /\
  Uops.handles st1 = dropped ++ remove_handle (uid u) (Uops.handles st) /\
  (List.length dropped + total_refs (Uops.live st1) = total_refs (Uops.live st))%nat.
Proof using.
  intros Hi Hu. unfold drop_arc. pose proof (Inv_release st u Hi Hu) as Hr. revert Hr.
  destruct (inv_handles st Hi u Hu) as (n0 & Hn0 & En0).
  assert (Hd : forall n, In n (Uops.dying st) -> Node.id n <> uid u).
  { intros n Hn E. pose proof (inv_ids st Hi) as Hd. unfold ids in Hd. rewrite map_app in Hd.
    apply (NoDup_app_disjoint _ _ (uid u) Hd); [rewrite <- En0; apply (in_map Node.id _ n0 Hn0) |].
    rewrite <- E. now apply in_map. }
  unfold release. destruct (_ =? _)%nat; cbn [Uops.dying]; intros Hr.
  - destruct (find _ _) as [n |] eqn:F; intros E; injection E as <- <-.
    + apply find_some in F as [Hn F]. apply Z.eqb_eq in F. split; [| split; [| split]].
      * now apply Inv_retire.
      * cbn. rewrite F, filter_app. clear - Hd.
        assert (X : filter (fun m => Node.id m <> uid u) (filter (fun m => Node.id m = uid u) (Uops.live st)) = []).
        { rewrite list_filter_filter. induction (Uops.live st) as [| m l IH]; [reflexivity |].
          rewrite filter_cons, decide_False by tauto. exact IH. }
        rewrite X. cbn [app]. revert Hd. induction (Uops.dying st) as [| m l IH]; intros Hd; [reflexivity |].
        rewrite filter_cons, decide_True by (apply Hd; now left). f_equal. apply IH. intros k Hk.
        apply Hd. now right.
      * reflexivity.
      * cbn. rewrite <- (total_refs_filter st n0 (inv_ids st Hi) Hn0), En0. unfold Node.id. rewrite En0.
        apply Nat.add_comm.
    + exfalso. apply find_none with (x := n0) in F.
      * unfold Node.id in F. now rewrite En0, Z.eqb_refl in F.
      * apply in_or_app. left. apply in_filter. split; [unfold Node.id; now rewrite En0 | exact Hn0].
  - destruct (find _ _) as [n |] eqn:F.
    + apply find_some in F as [Hn F%Z.eqb_eq]. now apply Hd in Hn.
    + intros E. injection E as <- <-. split_and!; first [exact Hr | reflexivity].
Qed.

Lemma teardown_spec fuel queue rest st :
  Inv st -> Permutation (Uops.handles st) (queue ++ rest) ->
  (List.length queue + total_refs (Uops.live st) <= fuel)%nat ->
  exists st', teardown fuel queue st = Some st' /\ Inv st' /\
    Permutation (Uops.handles st') rest /\ Uops.dying st' = Uops.dying st.
Proof using.
  revert queue st. induction fuel as [| fuel IH]; intros [| u queue] st Hi Hp Hf;
    try (exists st; split_and!; auto; fail).
  - cbn in Hf. clear - Hf. lia.
  - cbn [teardown]. destruct (drop_arc u st) as [st1 dropped] eqn:D.
    assert (Hu : In u (Uops.handles st)) by (apply (Permutation_in _ (Permutation_sym Hp)); now left).
    destruct (drop_arc_spec u st st1 dropped Hi Hu D) as (Hi1 & Ed & Eh & Et).
    destruct (IH (dropped ++ queue) st1 Hi1) as (st' & E & Hi' & Hp' & Ed').
    + rewrite Eh, <- app_assoc. apply Permutation_app_head. apply (Permutation_cons_inv (a := u)).
      rewrite <- remove_handle_perm; [exact Hp | exact Hu |]. intros v Hv Ev.
      apply (alive_id st v u Hi); auto using inv_handles.
    + rewrite length_app. clear - Hf Et. cbn in Hf. lia.
    + exists st'. rewrite Ed in Ed'. split_and!; assumption.
Qed.

(** [v] is referenced by [u]. *)
Definition references (u v : UOp) : Prop := In v (refs (uop_op u)).

(** No leak: every live node hangs off a handle. *)
Lemma alive_rooted st v :
  Inv st -> alive st v <-> exists u, In u (Uops.handles st) /\ rtc references u v.
Proof using.
  intros Hi. split.
  - intros (n & Hn & <-). remember (Z.to_nat (Uops.next_uop_id st - Node.id n)) as k eqn:Ek.
    revert n Hn Ek. induction k as [k IH] using lt_wf_ind. intros n Hn ->.
    pose proof (inv_count st Hi n Hn) as [(u & Hu & E) | (m & v & Hm & Hv & E)]%strong_count_pos.
    + exists u. split; [exact Hu |].
      assert (u = Node.node n) as ->; [| constructor].
      apply (alive_id st); auto using inv_handles. now exists n.
    + destruct (inv_refs st Hi m v Hm Hv) as [Ha Hl].
      assert (v = Node.node n) as -> by (apply (alive_id st); [.. | exact E]; [exact Hi | exact Ha | now exists n]).
      destruct (IH (Z.to_nat (Uops.next_uop_id st - Node.id m))) with (n := m) as (u & Hu & Hr); auto.
      * assert (Node.id m < Uops.next_uop_id st) by (apply (alive_bound st (Node.node m) Hi); now exists m).
        change (uid (Node.node n)) with (Node.id n) in Hl. clear - Hl H. lia.
      * exists u. split; [exact Hu |]. eapply rtc_r; [exact Hr | exact Hv].
  - intros (u & Hu & Hr). apply (inv_handles st Hi) in Hu. induction Hr as [| u w v Hw _ IH]; [exact Hu |].
    apply IH. destruct Hu as (n & Hn & <-). now apply (inv_refs st Hi n w Hn).
Qed.

End Table.

(** ** The recursion of [Drop for UOp]

    The destructor again, with its control flow: reference counts, the
    thread-local queue and the depth of nested calls of [drop]. *)
Module Recursion.
Record t := mk { count : Z -> nat; queue : list (list UOp); active : bool; depth : nat }.

Definition decrement (i : Z) (s : t) : t :=
  mk (fun j => if j =? i then pred (count s j) else count s j) (queue s) (active s) (depth s).

(** The queue is popped until it is empty. *)
Fixpoint drain (drop : list UOp -> t -> t) (fuel : nat) (s : t) : t :=
  match fuel, queue s with
  | S fuel, op :: rest => drain drop fuel (drop op (mk (count s) rest (active s) (depth s)))
  | _, _ => s
  end.

(** [d] counts the calls of [drop] the current one is nested in. *)
Fixpoint drop (fuel : nat) (d : nat) (u : UOp) (s : t) : t :=
  match fuel with
  | O => s
  | S fuel =>
      let s := decrement (uid u) s in
      if (count s (uid u) =? 0)%nat then
        let s := mk (count s) (queue s) (active s) (Nat.max (depth s) d) in
        let op := refs (uop_op u) in
        let drop_op op s := fold_left (fun s v => drop fuel (S d) v s) op s in
        let has_dying := existsb (fun c => count s (uid c) =? 1)%nat (Op.children (uop_op u)) in
        if negb has_dying then drop_op op s
        else if active s then mk (count s) (op :: queue s) (active s) (depth s)
        else
          let s := drop_op op (mk (count s) (queue s) true (depth s)) in
          let s := drain drop_op fuel s in
          mk (count s) (queue s) false (depth s)
      else s
  end.

(** Repeated application of [f] to a constant, as interned nodes. *)
Fixpoint chain (f : UOp -> Op UOp) (n : nat) : UOp :=
  match n with
  | O => mkUOp 0 (Op.Const UOp (ConstValue.Int 2)) (DType.Scalar Int32)
  | S m => mkUOp (Z.of_nat n) (f (chain f m)) (DType.Scalar Int32)
  end.
Definition square (x : UOp) : Op UOp := Op.Binary UOp BinaryOp.Mul x x.
Definition neg (x : UOp) : Op UOp := Op.Unary UOp UnaryOp.Neg x.

(** The counts of a chain whose last node has the one outside handle and whose
    other nodes are referenced [k] times by their successor. *)
Definition chain_counts (k n : nat) (i : Z) : nat := if i =? Z.of_nat n then 1%nat else k.
Definition initial (k n : nat) : t := mk (chain_counts k n) [] false 0.

Lemma uid_chain f n : uid (chain f n) = Z.of_nat n.
Proof. destruct n; reflexivity. Qed.

Lemma drop_shared fuel d u s :
  count s (uid u) = 2%nat -> drop (S fuel) d u s = decrement (uid u) s.
Proof. intros H. cbn [drop]. cbn [decrement count]. now rewrite Z.eqb_refl, H. Qed.

Lemma drop_squares n : forall fuel d s,
  (n < fuel)%nat -> count s (Z.of_nat n) = 1%nat ->
  (forall i, 0 <= i < Z.of_nat n -> count s i = 2%nat) ->
  depth (drop fuel d (chain square n) s) = Nat.max (depth s) (d + n).
Proof.
  induction n as [| n IH]; intros [| fuel] d s Hf H1 H2; try lia.
  - cbn [drop chain uid decrement count]. change (Z.of_nat 0) with 0 in H1. rewrite Z.eqb_refl, H1.
    cbn. lia.
  - assert (E : forall s', (forall i, 0 <= i < Z.of_nat (S n) -> count s' i = 2%nat) ->
      depth (drop fuel (S d) (chain square n) (drop fuel (S d) (chain square n) s'))
      = Nat.max (depth s') (S d + n)).
    { intros s' Hs. destruct fuel as [| fuel]; [lia |].
      rewrite (drop_shared fuel (S d) (chain square n) s') by (rewrite uid_chain; apply Hs; lia). rewrite uid_chain.
      rewrite IH; cbn [decrement count depth]; try lia.
      - now rewrite Z.eqb_refl, Hs by lia.
      - intros i Hi. rewrite (proj2 (Z.eqb_neq _ _)) by lia. apply Hs. lia. }
    cbn [drop]. rewrite uid_chain. cbn [decrement count]. rewrite Z.eqb_refl, H1.
    cbn [pred Nat.eqb chain uop_op square refs Op.children launch_values app existsb].
    rewrite uid_chain, (proj2 (Z.eqb_neq (Z.of_nat n) (Z.of_nat (S n)))), H2 by lia. cbn [Nat.eqb orb negb fold_left].
    rewrite E; cbn [depth decrement]; [lia |].
    intros i Hi. cbn [count decrement]. rewrite (proj2 (Z.eqb_neq _ _)) by lia. apply H2. lia.
Qed.

(** A chain of distinct operands is torn down by the queue... *)
Example chain_of_negations_is_flat : depth (drop 80 1 (chain neg 64) (initial 1 64)) = 2%nat.
Proof. reflexivity. Qed.

(** ...but a node used twice by its only user is not seen as dying: the
    destructor of a chain of [n] squarings recurses once per node, so its depth
    is not constant. *)
Theorem squares_recurse n :
  depth (drop (S n) 1 (chain square n) (initial 2 n)) = S n.
Proof.
  rewrite drop_squares; cbn [initial depth count]; [lia | lia | |].
  - unfold chain_counts. now rewrite Z.eqb_refl.
  - intros i Hi. unfold chain_counts. now rewrite (proj2 (Z.eqb_neq _ _)) by lia.
Qed.
End Recursion.

(** ** A concrete run: the graph of [x * x] for a constant [x] *)
Module Demo.
Definition hash (_ : Op Z) (_ : DType) (_ : option Z) : Z := 0.
Definition i32 : DType := DType.Scalar Int32.
Definition const : Op UOp := Op.Const UOp (ConstValue.Int 2).
Definition x : UOp := mkUOp 0 const i32.
Definition mul : Op UOp := Op.Binary UOp BinaryOp.Mul x x.
Definition run (st : Uops.t) (op : Op UOp) : Uops.t :=
  match new_with_origin hash op i32 None (Some 7) st with Some (st, _) => st | None => st end.
Definition st1 : Uops.t := run Uops.empty const.
Definition st2 : Uops.t := run st1 mul.
Definition y : UOp := mkUOp 1 mul i32.

Definition node_x : Node := Node.mk x None None 0 false (op_key (fun _ => 0) const).
Definition node_y : Node := Node.mk y None (Some 7) 0 false (op_key (fun _ => 0) mul).

Lemma run_const : nsteps (step hash) 2 Uops.empty st1.
Proof.
  eapply nsteps_l.
  { eapply (step_fresh hash _ const i32 None (Some 7)); [reflexivity | now intros ? []]. }
  eapply nsteps_l; [| constructor].
  match goal with |- step _ ?a _ => change st1 with (fst (intern node_x a)) end.
  apply step_intern; [now left |]. apply elem_of_cons. now left.
Qed.

Lemma run_mul : nsteps (step hash) 2 st1 st2.
Proof.
  eapply nsteps_l.
  { eapply (step_fresh hash _ mul i32 None (Some 7)); [reflexivity |].
    intros v [<- | [<- | []]]; exists node_x; (split; [now left | reflexivity]). }
  eapply nsteps_l; [| constructor].
  match goal with |- step _ ?a _ => change st2 with (fst (intern node_y a)) end.
  apply step_intern; [right; now left |]. apply elem_of_cons. now left.
Qed.

Lemma run_steps : nsteps (step hash) 4 Uops.empty st2.
Proof. exact (nsteps_trans 2 2 _ _ _ run_const run_mul). Qed.
End Demo.

Lemma hash_consing_invariant_witness :
  exists n, In n (Uops.live Demo.st2) /\ Node.node n = Demo.y /\ Arena (alive Demo.st2).
Proof.
  exists Demo.node_y.
  split; [right; left; reflexivity |]. split; [reflexivity |].
  apply (hash_consing_invariant Demo.hash 4 Demo.st2 Demo.run_steps). reflexivity.
Defined.

Lemma new_with_origin_canonical_witness :
  new_with_origin Demo.hash Demo.mul Demo.i32 None (Some 7) Demo.st2
  = Some (add_handle Demo.y Demo.st2, Demo.y).
Proof.
  apply (new_with_origin_canonical Demo.hash 2 Demo.st1 Demo.mul Demo.i32 None (Some 7)
           Demo.st2 Demo.y 0 Demo.st2).
  - exact Demo.run_const.
  - intros v [<- | [<- | []]]; exists Demo.node_x; (split; [now left | reflexivity]).
  - reflexivity.
  - constructor.
  - reflexivity.
  - exists Demo.node_y.
    split; [right; left; reflexivity | reflexivity].
  - intros v [<- | [<- | []]]; exists Demo.node_x; (split; [now left | reflexivity]).
Defined.

