(* ===== verification/Rebuild.v ===== *)
(** * Rebuilding nodes ([ir/src/uop/core.rs], [ir/src/dtype_rule.rs])

    [with_sources] replaces the operands of a node: [rebuild_op] is its table
    of cases, [dtype_from_op] the dtype the rebuilt node gets when its operands
    changed dtype, and the node itself comes from the intern table of
    [HashCons].  [None] is a panic.  Shape inference is an argument,
    [is_image_shape]. *)

From stdpp Require Import relations.
From S2P Require Import Prelude F64 DType Cast ConstVal Ops Payload UOp HashCons.

(** ** Operands *)

(** The operands after the first. *)
Definition split1 {A} (l : list A) : option (A * list A) :=
  match l with a :: l => Some (a, l) | [] => None end.
Definition exactly1 {A} (l : list A) : option A := match l with [a] => Some a | _ => None end.
Definition exactly2 {A} (l : list A) : option (A * A) :=
  match l with [a; b] => Some (a, b) | _ => None end.
Definition exactly3 {A} (l : list A) : option (A * A * A) :=
  match l with [a; b; c] => Some (a, b, c) | _ => None end.

(** [src(idx)], when the optional operand [o] was there. *)
Definition take_opt {A B} (o : option A) (l : list B) : option (option B * list B) :=
  match o with
  | Some _ => match l with b :: l => Some (Some b, l) | [] => None end
  | None => Some (None, l)
  end.

(** The operation with new operands.  STACK is not rebuilt here. *)
Definition rebuild_op (op : Op UOp) (new_srcs : list UOp) : option (Op UOp) :=
  match op with
  | Op.Const _ _ | Op.Unique _ _ | Op.LUnique _ _ | Op.Noop _ | Op.VConst _ _
  | Op.DefineVar _ _ _ _ | Op.Source _ _ _ | Op.ProgramBinary _ _ _ =>
      match new_srcs with [] => Some op | _ => None end
  | Op.Unary _ t _ => let? a := exactly1 new_srcs in Some (Op.Unary _ t a)
  | Op.Binary _ t _ _ => let? (a, b) := exactly2 new_srcs in Some (Op.Binary _ t a b)
  | Op.Ternary _ t _ _ _ => let? (a, b, c) := exactly3 new_srcs in Some (Op.Ternary _ t a b c)
  | Op.Cast _ _ dtype => let? a := exactly1 new_srcs in Some (Op.Cast _ a dtype)
  | Op.BitCast _ _ dtype => let? a := exactly1 new_srcs in Some (Op.BitCast _ a dtype)
  | Op.GetAddr _ _ device => let? a := exactly1 new_srcs in Some (Op.GetAddr _ a device)
  | Op.MSelect _ _ device_index => let? a := exactly1 new_srcs in Some (Op.MSelect _ a device_index)
  | Op.Special _ _ name => let? a := exactly1 new_srcs in Some (Op.Special _ a name)
  | Op.Buffer _ _ arg => let? a := exactly1 new_srcs in Some (Op.Buffer _ a arg)
  | Op.Param _ _ arg => let? a := exactly1 new_srcs in Some (Op.Param _ a arg)
  | Op.Slice _ _ _ size => let? (a, b) := exactly2 new_srcs in Some (Op.Slice _ a b size)
  | Op.Stage _ _ _ opts => let? (a, l) := split1 new_srcs in Some (Op.Stage _ a l opts)
  | Op.Index _ _ _ => let? (a, l) := split1 new_srcs in Some (Op.Index _ a l)
  | Op.Copy _ _ device => let? a := exactly1 new_srcs in Some (Op.Copy _ a device)
  | Op.MStack _ _ => Some (Op.MStack _ new_srcs)
  | Op.Reshape _ _ _ => let? (a, b) := exactly2 new_srcs in Some (Op.Reshape _ a b)
  | Op.Permute _ _ axes => let? a := exactly1 new_srcs in Some (Op.Permute _ a axes)
  | Op.Expand _ _ _ => let? (a, b) := exactly2 new_srcs in Some (Op.Expand _ a b)
  | Op.Pad _ _ _ _ => let? (a, b, c) := exactly3 new_srcs in Some (Op.Pad _ a b c)
  | Op.Shrink _ _ _ _ => let? (a, b, c) := exactly3 new_srcs in Some (Op.Shrink _ a b c)
  | Op.Flip _ _ axes => let? a := exactly1 new_srcs in Some (Op.Flip _ a axes)
  | Op.Multi _ _ axis => let? a := exactly1 new_srcs in Some (Op.Multi _ a axis)
  | Op.ReduceAxis _ _ reduce_op axes => let? a := exactly1 new_srcs in Some (Op.ReduceAxis _ a reduce_op axes)
  | Op.Reduce _ _ _ reduce_op num_axes =>
      let? (a, l) := split1 new_srcs in Some (Op.Reduce _ a l reduce_op num_axes)
  | Op.AllReduce _ _ device reduce_op =>
      let? a := exactly1 new_srcs in Some (Op.AllReduce _ a device reduce_op)
  | Op.If _ _ _ => let? (a, l) := split1 new_srcs in Some (Op.If _ a l)
  | Op.EndIf _ _ => let? a := exactly1 new_srcs in Some (Op.EndIf _ a)
  | Op.Range _ _ axis_id axis_type _ =>
      let? (a, l) := split1 new_srcs in Some (Op.Range _ a axis_id axis_type l)
  | Op.End _ _ _ => let? (a, l) := split1 new_srcs in Some (Op.End _ a l)
  | Op.Barrier _ _ _ fence => let? (a, l) := split1 new_srcs in Some (Op.Barrier _ a l fence)
  | Op.Stack _ _ => None
  | Op.Shuffle _ _ mask => let? a := exactly1 new_srcs in Some (Op.Shuffle _ a mask)
  | Op.Bind _ _ _ => let? (a, b) := exactly2 new_srcs in Some (Op.Bind _ a b)
  | Op.Wmma _ _ _ _ metadata =>
      let? (a, b, c) := exactly3 new_srcs in Some (Op.Wmma _ a b c metadata)
  | Op.Call _ _ _ info => let? (a, l) := split1 new_srcs in Some (Op.Call _ a l info)
  | Op.Function _ _ _ info => let? (a, l) := split1 new_srcs in Some (Op.Function _ a l info)
  | Op.Program _ _ info linear source binary =>
      let? (sink, l) := split1 new_srcs in
      let? (linear_new, l) := take_opt linear l in
      let? (source_new, l) := take_opt source l in
      let? (binary_new, l) := take_opt binary l in
      match l with
      | [] => Some (Op.Program _ sink info linear_new source_new binary_new)
      | _ => None
      end
  | Op.Linear _ _ => Some (Op.Linear _ new_srcs)
  | Op.Ins _ _ arg => Some (Op.Ins _ new_srcs arg)
  | Op.Tuple _ _ => Some (Op.Tuple _ new_srcs)
  | Op.GetTuple _ _ index => let? a := exactly1 new_srcs in Some (Op.GetTuple _ a index)
  | Op.Detach _ _ => let? a := exactly1 new_srcs in Some (Op.Detach _ a)
  | Op.Contiguous _ _ opts => let? a := exactly1 new_srcs in Some (Op.Contiguous _ a opts)
  | Op.ContiguousBackward _ _ => let? a := exactly1 new_srcs in Some (Op.ContiguousBackward _ a)
  | Op.After _ _ _ =>
      let? (passthrough, deps) := split1 new_srcs in
      match uop_op passthrough with
      | Op.Range _ _ _ _ _ | Op.End _ _ _ => None
      | _ => Some (Op.After _ passthrough deps)
      end
  | Op.Precast _ _ => let? a := exactly1 new_srcs in Some (Op.Precast _ a)
  | Op.Custom _ _ code => Some (Op.Custom _ new_srcs code)
  | Op.CustomFunction _ kind _ => Some (Op.CustomFunction _ kind new_srcs)
  | Op.CustomI _ _ code => Some (Op.CustomI _ new_srcs code)
  | Op.Load _ _ alt gate =>
      if Bool.eqb (bool_decide (is_Some alt)) (bool_decide (is_Some gate)) then
        let? (index, l) := split1 new_srcs in
        let? (new_alt, l) := take_opt alt l in
        let? (new_gate, l) := take_opt gate l in
        match l with [] => Some (Op.Load _ index new_alt new_gate) | _ => None end
      else None
  | Op.Store _ _ _ gate =>
      let? (index, l) := split1 new_srcs in
      let? (value, l) := split1 l in
      let? (new_gate, l) := take_opt gate l in
      match l with [] => Some (Op.Store _ index value new_gate) | _ => None end
  | Op.Sink _ _ info => Some (Op.Sink _ new_srcs info)
  | Op.Group _ _ => Some (Op.Group _ new_srcs)
  end.

(** ** Dtype rules *)

Definition promote (src : list DType) : option DType :=
  match src with
  | [] => None
  | first :: _ =>
      if forallb (fun d => bool_decide (d = first)) src then Some first
      else DTypeCast.least_upper_dtype src
  end.

Definition const_dtype (value : ConstValue) : DType :=
  DType.Scalar match value with
  | ConstValue.Invalid | ConstValue.Bool _ => Bool
  | ConstValue.Int _ | ConstValue.UInt _ => WeakInt
  | ConstValue.Float _ => WeakFloat
  end.

Definition tuple_element (src : UOp) (index : Z) : option UOp :=
  let tuple := match uop_op src with Op.Function _ body _ _ => body | _ => src end in
  match uop_op tuple with
  | Op.Tuple _ src => nth_error src (Z.to_nat index)
  | _ => None
  end.

Fixpoint is_storage_index_source (u : UOp) : bool :=
  let 'mkUOp _ op _ := u in
  match op with
  | Op.Param _ _ _ | Op.Buffer _ _ _ | Op.Slice _ _ _ _ => true
  | Op.After _ passthrough _ | Op.Precast _ passthrough => is_storage_index_source passthrough
  | _ => false
  end.

Section DtypeRule.
Context (is_image_shape : UOp -> bool).

Definition dtype_from_op (op : Op UOp) : option DType :=
  match op with
  | Op.Sink _ _ _ | Op.Group _ _ | Op.If _ _ _ | Op.EndIf _ _ | Op.End _ _ _
  | Op.Barrier _ _ _ _ | Op.Tuple _ _ | Op.Function _ _ _ _ | Op.Program _ _ _ _ _ _
  | Op.Linear _ _ | Op.Source _ _ _ | Op.CustomFunction _ _ _ | Op.Store _ _ _ _
  | Op.Unique _ _ | Op.LUnique _ _ => Some (DType.Scalar Void)
  | Op.ProgramBinary _ _ _ => Some (DType.Scalar UInt8)
  | Op.Const _ value => Some (const_dtype value)
  | Op.Noop _ | Op.Custom _ _ _ | Op.CustomI _ _ _ | Op.VConst _ _ | Op.Ins _ _ _ => None
  | Op.Param _ _ arg | Op.Buffer _ _ arg => Some (ParamArg.dtype arg)
  | Op.Slice _ _ _ _ => None
  | Op.Index _ buffer indices =>
      let is_param := match uop_op buffer with Op.Param _ _ _ => true | _ => false end in
      Some (if is_param && is_image_shape buffer then DType.Scalar Float32
            else if negb (match indices with [] => true | _ => false end)
                    && (DType.vcount (uop_dtype buffer) >? 1)
                    && negb (is_storage_index_source buffer)
            then DType.scalar_dtype (uop_dtype buffer)
            else uop_dtype buffer)
  | Op.Load _ index _ _ => Some (uop_dtype index)
  | Op.GetAddr _ _ _ => Some (DType.Scalar UInt64)
  | Op.Cast _ _ dtype | Op.BitCast _ _ dtype => Some dtype
  | Op.Unary _ unary src =>
      match unary with
      | UnaryOp.Sqrt | UnaryOp.Rsqrt | UnaryOp.Exp | UnaryOp.Exp2 | UnaryOp.Log
      | UnaryOp.Log2 | UnaryOp.Sin | UnaryOp.Cos | UnaryOp.Tan | UnaryOp.Reciprocal
      | UnaryOp.Erf => DTypeCast.least_upper_float (uop_dtype src)
      | _ => Some (uop_dtype src)
      end
  | Op.Binary _ binary lhs rhs =>
      if BinaryOp.is_comparison binary then Some (DType.Scalar Bool)
      else match binary with
           | BinaryOp.Shl | BinaryOp.Shr => Some (uop_dtype lhs)
           | _ => promote [uop_dtype lhs; uop_dtype rhs]
           end
  | Op.Ternary _ TernaryOp.Where condition true_value false_value =>
      if negb (DType.is_bool (uop_dtype condition)) then None
      else if is_invalid_marker true_value then Some (uop_dtype false_value)
      else if is_invalid_marker false_value then Some (uop_dtype true_value)
      else promote [uop_dtype true_value; uop_dtype false_value]
  | Op.Ternary _ TernaryOp.MulAcc a b c => promote [uop_dtype a; uop_dtype b; uop_dtype c]
  | Op.MSelect _ src _ | Op.Copy _ src _ | Op.Stage _ src _ _ | Op.Reshape _ src _
  | Op.Permute _ src _ | Op.Expand _ src _ | Op.Pad _ src _ _ | Op.Shrink _ src _ _
  | Op.Flip _ src _ | Op.Multi _ src _ | Op.ReduceAxis _ src _ _ | Op.Reduce _ src _ _ _
  | Op.AllReduce _ src _ _ | Op.Detach _ src | Op.Contiguous _ src _
  | Op.ContiguousBackward _ src | Op.After _ src _ | Op.Precast _ src => Some (uop_dtype src)
  | Op.Special _ end_ _ => Some (uop_dtype end_)
  | Op.Range _ end_ _ _ _ => Some (uop_dtype end_)
  | Op.Bind _ var value =>
      if bool_decide (uop_dtype var = uop_dtype value) then Some (uop_dtype var) else None
  | Op.Wmma _ _ _ c _ => Some (uop_dtype c)
  | Op.MStack _ buffers => option_map uop_dtype (hd_error buffers)
  | Op.Stack _ [] => Some (DType.Scalar Void)
  | Op.Stack _ sources => promote (map uop_dtype sources)
  | Op.Shuffle _ src mask =>
      if DType.is_vector (uop_dtype src)
         || match DType.scalar (uop_dtype src) with Some s => negb (bool_decide (s = Void)) | None => false end
      then DType.vec (DType.Scalar (DType.base (uop_dtype src))) (Z.of_nat (List.length mask))
      else None
  | Op.DefineVar _ _ _ _ => None
  | Op.Call _ body _ _ =>
      if bool_decide (uop_dtype body = DType.Scalar Void) then Some (DType.Scalar Void) else None
  | Op.GetTuple _ src index => option_map uop_dtype (tuple_element src index)
  end.
End DtypeRule.

(** ** Constructors over the intern table *)
Section Rebuild.
Context (xxh64 : Op Z -> DType -> option Z -> Z) (is_image_shape : UOp -> bool).
Context (current : option Z).

(** [UOp::new] under the ambient origin. *)
Definition new (op : Op UOp) (dtype : DType) (st : Uops.t) : option (Uops.t * UOp) :=
  new_with_origin xxh64 op dtype None current st.

Definition clone (u : UOp) (st : Uops.t) : Uops.t * UOp := (add_handle u st, u).

Definition cast (self : UOp) (dtype : DType) (st : Uops.t) : option (Uops.t * UOp) :=
  let src_vcount := DType.vcount (uop_dtype self) in
  let? dtype :=
    if (DType.vcount dtype =? 1) && (src_vcount >? 1) then DType.vec dtype src_vcount else Some dtype in
  if bool_decide (uop_dtype self = dtype) then Some (clone self st)
  else new (Op.Cast UOp self dtype) dtype st.

Fixpoint cast_sources (dtype : DType) (sources : list UOp) (st : Uops.t) : option (Uops.t * list UOp) :=
  match sources with
  | [] => Some (st, [])
  | source :: sources =>
      let? (st, source) := if is_invalid_marker source then Some (st, source) else cast source dtype st in
      let? (st, sources) := cast_sources dtype sources st in
      Some (st, source :: sources)
  end.

Definition stack (sources : list UOp) (st : Uops.t) : option (Uops.t * UOp) :=
  let? dtype :=
    match sources with
    | [] => Some (DType.Scalar Void)
    | _ => dtype_from_op is_image_shape (Op.Stack UOp sources)
    end in
  let? (st, sources) := cast_sources dtype sources st in
  new (Op.Stack UOp sources) dtype st.

Definition is_alu (op : Op UOp) : bool :=
  match op with Op.Unary _ _ _ | Op.Binary _ _ _ _ | Op.Ternary _ _ _ _ _ => true | _ => false end.

Definition source_dtypes_unchanged (old new_op : Op UOp) : bool :=
  forallb (fun '(o, n) => bool_decide (uop_dtype o = uop_dtype n))
    (combine (Op.children old) (Op.children new_op)).

(** The dtype of the rebuilt node. *)
Definition rebuilt_dtype (old : Op UOp) (dtype : DType) (new_op : Op UOp) : DType :=
  if negb (is_alu new_op) && source_dtypes_unchanged old new_op then dtype
  else from_option id dtype (dtype_from_op is_image_shape new_op).

Definition with_sources (n : Node) (new_srcs : list UOp) (st : Uops.t) : option (Uops.t * UOp) :=
  let self := Node.node n in
  match uop_op self with
  | Op.Const _ _ | Op.Unique _ _ | Op.LUnique _ _ | Op.Noop _ | Op.VConst _ _
  | Op.DefineVar _ _ _ _ | Op.Source _ _ _ | Op.ProgramBinary _ _ _ =>
      match new_srcs with [] => Some (clone self st) | _ => None end
  | Op.Stack _ _ => stack new_srcs st
  | op =>
      let? new_op := rebuild_op op new_srcs in
      new_with_origin xxh64 new_op (rebuilt_dtype op (uop_dtype self) new_op)
        (Node.tag n) (Node.origin n) st
  end.

Definition with_dtype (n : Node) (dtype : DType) (st : Uops.t) : option (Uops.t * UOp) :=
  let self := Node.node n in
  if bool_decide (uop_dtype self = dtype) then Some (clone self st)
  else new_with_origin xxh64 (uop_op self) dtype None (Node.origin n) st.

(** The builder [replace]. *)
Definition replace (n : Node) (dtype : option DType) (src : option (list UOp)) (st : Uops.t) :
    option (Uops.t * UOp) :=
  let self := Node.node n in
  let new_dtype := from_option id (uop_dtype self) dtype in
  let new_sources := from_option id (children self) src in
  let sources_unchanged :=
    (List.length new_sources =? List.length (children self))%nat
    && forallb (fun '(a, b) => ptr_eq a b) (combine new_sources (children self)) in
  if bool_decide (new_dtype = uop_dtype self) && sources_unchanged then Some (clone self st)
  else
    let? (st, u) := with_sources n new_sources st in
    let? n := find_node st (uid u) in
    with_dtype n new_dtype st.
End Rebuild.

(** ** [rebuild_op] replaces the operands and nothing else *)

(** Split the list of operands as far as a definition looks into it. *)
Ltac split_srcs :=
  repeat match goal with
  | H : context [match ?l with [] => _ | _ :: _ => _ end] |- _ => is_var l; destruct l
  | H : context [match ?o with Some _ => _ | None => _ end] |- _ => is_var o; destruct o
  | H : context [if ?b then _ else _] |- _ => destruct b eqn:?
  | H : context [match uop_op ?u with _ => _ end] |- _ => destruct (uop_op u)
  end; try discriminate.

Ltac unfold_srcs := unfold split1, exactly1, exactly2, exactly3, take_opt.

(** What the constructors guarantee of an operation: the two optional operands
    of a LOAD come together, AFTER does not order control flow. *)
Definition rebuildable (op : Op UOp) : bool :=
  match op with
  | Op.Stack _ _ => false
  | Op.Load _ _ alt gate => Bool.eqb (bool_decide (is_Some alt)) (bool_decide (is_Some gate))
  | Op.After _ passthrough _ =>
      match uop_op passthrough with Op.Range _ _ _ _ _ | Op.End _ _ _ => false | _ => true end
  | _ => true
  end.

Lemma rebuild_op_children op srcs op' : rebuild_op op srcs = Some op' -> Op.children op' = srcs.
Proof.
  destruct op; cbn [rebuild_op]; unfold_srcs; intros H; split_srcs; injection H as <-; reflexivity.
Qed.

Lemma rebuild_op_own op : rebuildable op = true -> rebuild_op op (Op.children op) = Some op.
Proof.
  destruct op; cbn [rebuild_op rebuildable Op.children]; unfold_srcs; intros H;
    repeat match goal with o : option UOp |- _ => destruct o end; try reflexivity;
    try discriminate; split_srcs; reflexivity.
Qed.

(** The launch values of a rebuilt program are the original's. *)
Lemma rebuild_op_launch op srcs op' :
  rebuild_op op srcs = Some op' -> launch_values op' = launch_values op.
Proof.
  destruct op; cbn [rebuild_op]; unfold_srcs; intros H; split_srcs; injection H as <-; reflexivity.
Qed.

(** [rebuild_op] and [children] form a lens: a rebuilt operation has the
    new operands, rebuilding with an operation's own operands gives it back,
    and a second rebuild forgets the first — kind, attributes and the presence
    of optional operands are never touched. *)
Theorem rebuild_op_lens op :
  (forall srcs op', rebuild_op op srcs = Some op' -> Op.children op' = srcs) /\
  (rebuildable op = true -> rebuild_op op (Op.children op) = Some op) /\
  (forall srcs op', rebuild_op op srcs = Some op' ->
     forall srcs', rebuild_op op' srcs' = rebuild_op op srcs').
Proof.
  split; [exact (rebuild_op_children op) | split; [exact (rebuild_op_own op) |]].
  intros srcs op'. destruct op; cbn [rebuild_op]; unfold_srcs; intros H; split_srcs;
    injection H as <-; reflexivity.
Qed.

(** ** Rebuilding in the table *)
Section WithSources.
Context (xxh64 : Op Z -> DType -> option Z -> Z) (is_image_shape : UOp -> bool) (current : option Z).

Definition is_nullary {A} (op : Op A) : bool :=
  match op with
  | Op.Const _ _ | Op.Unique _ _ | Op.LUnique _ _ | Op.Noop _ | Op.VConst _ _
  | Op.DefineVar _ _ _ _ | Op.Source _ _ _ | Op.ProgramBinary _ _ _ => true
  | _ => false
  end.

Definition is_stack {A} (op : Op A) : bool := match op with Op.Stack _ _ => true | _ => false end.

Lemma with_sources_op n srcs st :
  is_nullary (uop_op (Node.node n)) = false -> is_stack (uop_op (Node.node n)) = false ->
  with_sources xxh64 is_image_shape current n srcs st =
  let op := uop_op (Node.node n) in
  let? new_op := rebuild_op op srcs in
  new_with_origin xxh64 new_op (rebuilt_dtype is_image_shape op (uop_dtype (Node.node n)) new_op)
    (Node.tag n) (Node.origin n) st.
Proof using. unfold with_sources. destruct (uop_op (Node.node n)); try discriminate; reflexivity. Qed.

(** A node of the table asked for again. *)
Lemma new_again st n :
  Inv st -> In n (Uops.live st) -> Node.id n ∈ Uops.entries st ->
  new_with_origin xxh64 (uop_op (Node.node n)) (uop_dtype (Node.node n)) (Node.tag n) (Node.origin n) st
  = Some (clone (Node.node n) st).
Proof using.
  intros Hi Hn He. destruct (inv_built st Hi n Hn) as [Hl Ho]. unfold new_with_origin.
  rewrite Hl, Ho.
  assert (Hq : equivalent st (uop_op (Node.node n)) (uop_dtype (Node.node n)) (Node.tag n) (Node.origin n) n = true).
  { apply equivalent_spec. repeat split; auto. now apply (inv_key st Hi). }
  destruct (probe st _ _ _ _) as [q |] eqn:P.
  - apply find_some in P as [Hqi Hqe]. apply equivalent_spec in Hqe, Hq.
    assert (q = n) as ->; [| reflexivity].
    apply (inv_share st Hi); try tauto. unfold same_structure. intuition congruence.
  - apply find_none with (x := n) in P; [congruence | exact Hn].
Qed.

End WithSources.

