(* ===== verification/Rewrite.v ===== *)
(** * The graph rewrite engine ([ir/src/rewrite/engine.rs])

    [rewrite] is the three-stage stack machine (push children, apply patterns,
    link) with its cache of results, its waitlist and its limit on the stack;
    [walk_rewrite] is the single-pass driver.  Both are generic in the state
    [S] that matchers and the intern table thread through the run, and [None]
    is a panic or the end of the fuel.

    [rewrite_sound] holds for any state: a relation that rebuilding and every
    rule respect relates the input to the output.  For rules without state,
    [rewrite_refines] shows that the machine computes the recursive rewriting
    function [normalize], and [walk_refines] that the walk computes [walk]. *)

From stdpp Require Import gmap relations.
From S2P Require Import Prelude F64 DType Cast ConstVal Ops Payload UOp Semantics.

(** [pattern::RewriteResult]. *)
Inductive RewriteResult := NoMatch | Rewritten (u : UOp) | Gate (u : UOp).

Module TraversalMode.
Inductive t := Full | PreserveCallBodies.
End TraversalMode.

(** The children to traverse and the ones to keep as they are. *)
Definition traversal_children (node : UOp) (mode : TraversalMode.t) : list UOp * list UOp :=
  match mode with
  | TraversalMode.Full => (children node, [])
  | TraversalMode.PreserveCallBodies =>
      match uop_op node with
      | Op.Call _ body args _ | Op.Function _ body args _ => (args, [body])
      | Op.Program _ sink _ linear source binary =>
          ([], sink :: Op.opt_list linear ++ Op.opt_list source ++ Op.opt_list binary)
      | _ => (children node, [])
      end
  end.

Definition REWRITE_STACK_LIMIT : nat := Z.to_nat 500000.
#[local] Opaque REWRITE_STACK_LIMIT.

Module Entry.
Record t := mk { n : UOp; stage : nat; new_n : option UOp }.
Definition id (e : t) : Z := uid (n e).
(** The working copy. *)
Definition cur (e : t) : UOp := from_option (fun w => w) (n e) (new_n e).
End Entry.
Abbreviation Entry := Entry.t.

Section Engine.
Context {S : Type}.
Context (with_sources : UOp -> list UOp -> S -> option (S * UOp)).
(** A matcher; [None] is a panic in a rule. *)
Definition Matcher : Type := UOp -> S -> option (S * RewriteResult).
Context (pm bpm : option Matcher) (traversal_mode : TraversalMode.t).

(** The engine's maps, the matchers' context and the intern table. *)
Record Engine := mkEngine { replace : gmap Z UOp; bpm_cache : gmap Z (option UOp); ctx : S }.

Definition pm_rewrite (x : UOp) (e : Engine) : option (Engine * option UOp) :=
  match pm with
  | None => Some (e, None)
  | Some pm =>
      let? (s, r) := pm x (ctx e) in
      let e := mkEngine (replace e) (bpm_cache e) s in
      match r with
      | Rewritten new_node => if ptr_eq new_node x then None else Some (e, Some new_node)
      | Gate _ | NoMatch => Some (e, None)
      end
  end.

(** [inl] is [Ok], [inr] the node of a gate. *)
Definition cached_bpm_rewrite (bpm : Matcher) (x : UOp) (e : Engine) : option (Engine * (option UOp + UOp)) :=
  match bpm_cache e !! uid x with
  | Some cached => Some (e, inl cached)
  | None =>
      let? (s, r) := bpm x (ctx e) in
      match r with
      | Rewritten new_node =>
          if ptr_eq new_node x then None
          else Some (mkEngine (replace e) (<[uid x := Some new_node]> (bpm_cache e)) s, inl (Some new_node))
      | Gate gate_node => Some (mkEngine (replace e) (bpm_cache e) s, inr gate_node)
      | NoMatch => Some (mkEngine (replace e) (<[uid x := None]> (bpm_cache e)) s, inl None)
      end
  end.

Definition record_replace (i : Z) (result : UOp) (e : Engine) : Engine :=
  mkEngine (<[i := result]> (replace e)) (bpm_cache e) (ctx e).

(** [entry(id).or_insert]. *)
Definition keep (skipped : UOp) (e : Engine) : Engine :=
  match replace e !! uid skipped with
  | Some _ => e
  | None => record_replace (uid skipped) skipped e
  end.

(** The bottom-up rules applied until a fixed point: the working copy, or the
    node of a gate. *)
Fixpoint fixed_point (fuel : nat) (bpm : Matcher) (seen : gset Z) (cur : UOp) (working : option UOp)
    (e : Engine) : option (Engine * (option UOp + UOp)) :=
  match fuel with
  | O => None
  | Datatypes.S fuel =>
      if bool_decide (uid cur ∈ seen) then None
      else
        let? (e, r) := cached_bpm_rewrite bpm cur e in
        match r with
        | inl (Some rewritten) =>
            fixed_point fuel bpm ({[uid cur]} ∪ seen) rewritten (Some rewritten) e
        | inl None => Some (e, inl working)
        | inr gate_node => Some (e, inr gate_node)
        end
  end.

Record Machine := mkMachine {
  stack : list Entry; on_stack : gset Z; waitlist : list (Z * Entry); engine : Engine
}.

(** The map from a node id to the entries that wait for it is the list of its
    bindings in insertion order. *)
Definition waiting (i : Z) (w : list (Z * Entry)) : list Entry :=
  map snd (filter (fun p => p.1 = i) w).
Definition not_waiting (i : Z) (w : list (Z * Entry)) : list (Z * Entry) :=
  filter (fun p => p.1 <> i) w.

(** Record a result and wake the entries that wait for it. *)
Definition finish (i : Z) (result : UOp) (m : Machine) : Machine :=
  mkMachine (rev (waiting i (waitlist m)) ++ stack m) (on_stack m)
    (not_waiting i (waitlist m)) (record_replace i result (engine m)).

Definition wait (i : Z) (e : Entry) (m : Machine) : Machine :=
  mkMachine (stack m) (on_stack m) (waitlist m ++ [(i, e)]) (engine m).

Definition push (e : Entry) (m : Machine) : Machine :=
  mkMachine (e :: stack m) (on_stack m) (waitlist m) (engine m).

(** [sources.rev().filter(|child| on_stack.insert(child.id))]. *)
Fixpoint insert_new (sources : list UOp) (on_stack : gset Z) : list UOp * gset Z :=
  match sources with
  | [] => ([], on_stack)
  | child :: rest =>
      if bool_decide (uid child ∈ on_stack) then insert_new rest on_stack
      else
        let '(kids, on_stack) := insert_new rest ({[uid child]} ∪ on_stack) in
        (child :: kids, on_stack)
  end.

(** Stage 0, after the bottom-up rules. *)
Definition push_children (n : UOp) (working : option UOp) (m : Machine) : Machine :=
  let cur := from_option (fun w => w) n working in
  let '(sources, skipped) := traversal_children cur traversal_mode in
  let e := fold_left (fun e s => keep s e) skipped (engine m) in
  let '(kids, on_stack) := insert_new (rev sources) (on_stack m) in
  mkMachine (rev (map (fun c => Entry.mk c 0 None) kids) ++ Entry.mk n 1 working :: stack m)
    on_stack (waitlist m) e.

Definition stage0 (fuel : nat) (n : UOp) (new_n : option UOp) (m : Machine) : option Machine :=
  match bpm with
  | None => Some (push_children n new_n m)
  | Some bpm =>
      let? (e, r) := fixed_point fuel bpm ∅ (from_option (fun w => w) n new_n) new_n (engine m) in
      let m := mkMachine (stack m) (on_stack m) (waitlist m) e in
      match r with
      | inr gate_node => Some (finish (uid n) gate_node m)
      | inl working => Some (push_children n working m)
      end
  end.

(** The results of the sources, or the first source without one. *)
Fixpoint resolve (r : gmap Z UOp) (sources : list UOp) : list UOp + Z :=
  match sources with
  | [] => inl []
  | src :: rest =>
      match r !! uid src with
      | None => inr (uid src)
      | Some rx => match resolve r rest with inl l => inl (rx :: l) | inr i => inr i end
      end
  end.

Definition changed (sources resolved : list UOp) : bool :=
  existsb (fun '(s, r) => negb (ptr_eq r s)) (combine sources resolved).

Definition stage1 (n : UOp) (new_n : option UOp) (m : Machine) : option Machine :=
  let cur := from_option (fun w => w) n new_n in
  match resolve (replace (engine m)) (children cur) with
  | inr src_key => Some (wait src_key (Entry.mk n 1 new_n) m)
  | inl resolved =>
      let? (e, rebuilt) :=
        if changed (children cur) resolved then
          let? (s, node) := with_sources cur resolved (ctx (engine m)) in
          Some (mkEngine (replace (engine m)) (bpm_cache (engine m)) s, node)
        else Some (engine m, cur) in
      let m := mkMachine (stack m) (on_stack m) (waitlist m) e in
      if negb (ptr_eq rebuilt cur) then
        Some (push (Entry.mk rebuilt 0 None) (push (Entry.mk n 2 (Some rebuilt)) m))
      else
        let? (e, r) := pm_rewrite cur e in
        let m := mkMachine (stack m) (on_stack m) (waitlist m) e in
        match r with
        | Some new_src_n => Some (push (Entry.mk new_src_n 0 None) (push (Entry.mk n 2 (Some new_src_n)) m))
        | None => Some (finish (uid n) cur m)
        end
  end.

Definition stage2 (n : UOp) (new_n : option UOp) (m : Machine) : option Machine :=
  let? new_n := new_n in
  match replace (engine m) !! uid new_n with
  | Some replaced_new_n => Some (finish (uid n) replaced_new_n m)
  | None => Some (wait (uid new_n) (Entry.mk n 2 (Some new_n)) m)
  end.

(** One iteration of the loop, on the popped entry. *)
Definition iterate (fuel : nat) (e : Entry) (m : Machine) : option Machine :=
  if (REWRITE_STACK_LIMIT <? List.length (stack m))%nat then None
  else
    match replace (engine m) !! Entry.id e with
    | Some _ => Some m
    | None =>
        match Entry.stage e with
        | 0%nat => stage0 fuel (Entry.n e) (Entry.new_n e) m
        | 1%nat => stage1 (Entry.n e) (Entry.new_n e) m
        | _ => stage2 (Entry.n e) (Entry.new_n e) m
        end
    end.

(** [inner] bounds the bottom-up loop of one node, [fuel] the pops. *)
Fixpoint run (inner fuel : nat) (m : Machine) : option Machine :=
  match stack m with
  | [] => Some m
  | e :: stack =>
      match fuel with
      | O => None
      | Datatypes.S fuel =>
          let? m := iterate inner e (mkMachine stack (on_stack m) (waitlist m) (engine m)) in
          run inner fuel m
      end
  end.

Definition initial (root : UOp) (s : S) : Machine :=
  mkMachine [Entry.mk root 0 None] {[uid root]} [] (mkEngine ∅ ∅ s).

Definition rewrite (inner fuel : nat) (root : UOp) (s : S) : option (S * UOp) :=
  let? m := run inner fuel (initial root s) in
  Some (ctx (engine m), from_option (fun r => r) root (replace (engine m) !! uid root)).

(** ** The single-pass walk *)

(** The node popped, to be rebuilt when [processed]. *)
Definition walk_iterate (n : UOp) (processed : bool) (stack : list (UOp * bool)) (e : Engine) :
    option (list (UOp * bool) * Engine) :=
  if (REWRITE_STACK_LIMIT <? List.length stack)%nat then None
  else
    match replace e !! uid n with
    | Some _ => Some (stack, e)
    | None =>
        if negb processed then
          let? (e, matched) :=
            match bpm with
            | None => Some (e, inl None)
            | Some bpm => cached_bpm_rewrite bpm n e
            end in
          match matched with
          | inl (Some rewritten) => Some (stack, record_replace (uid n) rewritten e)
          | inr gated => Some (stack, record_replace (uid n) gated e)
          | inl None =>
              let '(sources, skipped) := traversal_children n traversal_mode in
              let e := fold_left (fun e s => keep s e) skipped e in
              let kids := filter (fun c => replace e !! uid c = None) sources in
              Some (map (fun c => (c, false)) kids ++ (n, true) :: stack, e)
          end
        else
          let sources := children n in
          let new_src := map (fun s => from_option (fun r => r) s (replace e !! uid s)) sources in
          let? (e, rebuilt) :=
            if changed sources new_src then
              let? (s, node) := with_sources n new_src (ctx e) in
              Some (mkEngine (replace e) (bpm_cache e) s, node)
            else Some (e, n) in
          let? (e, r) := pm_rewrite rebuilt e in
          Some (stack, record_replace (uid n) (from_option (fun w => w) rebuilt r) e)
    end.

Fixpoint walk_run (fuel : nat) (stack : list (UOp * bool)) (e : Engine) : option Engine :=
  match stack with
  | [] => Some e
  | (n, processed) :: stack =>
      match fuel with
      | O => None
      | Datatypes.S fuel =>
          let? (stack, e) := walk_iterate n processed stack e in walk_run fuel stack e
      end
  end.

Definition walk_rewrite (fuel : nat) (root : UOp) (s : S) : option (S * UOp) :=
  let? e := walk_run fuel [(root, false)] (mkEngine ∅ ∅ s) in
  Some (ctx e, from_option (fun r => r) root (replace e !! uid root)).
End Engine.

(** ** Soundness *)
Section Soundness.
Context {S : Type} (with_sources : UOp -> list UOp -> S -> option (S * UOp)).
Context (pm bpm : option (@Matcher S)) (mode : TraversalMode.t).
Context (G : UOp -> Prop) `{HG : !Arena G} (Rel : UOp -> UOp -> Prop) `{HR : !PreOrder Rel}.

(** Rebuilding respects the relation; so does every rule. *)
Definition respects_rebuild : Prop :=
  forall u srcs s s' v, G u -> Forall2 (fun a b => G b /\ Rel a b) (children u) srcs ->
    with_sources u srcs s = Some (s', v) -> G v /\ Rel u v.
Definition respects_rules (m : option (@Matcher S)) : Prop :=
  forall f u s s' v, m = Some f -> G u ->
    f u s = Some (s', Rewritten v) \/ f u s = Some (s', Gate v) -> G v /\ Rel u v.
Context (Hws : respects_rebuild) (Hpm : respects_rules pm) (Hbpm : respects_rules bpm).

(** [r] is a valid replacement of the node [i]. *)
Definition valid (i : Z) (r : UOp) : Prop := G r /\ forall n, G n -> uid n = i -> Rel n r.
Definition cache_valid (r : gmap Z UOp) : Prop := forall i u, r !! i = Some u -> valid i u.
Definition engine_ok (e : @Engine S) : Prop :=
  cache_valid (replace e) /\ forall i r, bpm_cache e !! i = Some (Some r) -> valid i r.
Definition entry_ok (e : Entry) : Prop := G (Entry.n e) /\ valid (Entry.id e) (Entry.cur e).
Definition machine_ok (m : @Machine S) : Prop :=
  engine_ok (engine m) /\ Forall entry_ok (stack m) /\ Forall (fun p => entry_ok p.2) (waitlist m).

Lemma valid_intro n r : G n -> G r -> Rel n r -> valid (uid n) r.
Proof using HG.
  intros Hn Hr H. split; [exact Hr |]. intros n' Hn' E. now rewrite (arena_id n' n Hn' Hn E).
Qed.

Lemma valid_self n : G n -> valid (uid n) n.
Proof using HG HR. intros Hn. apply valid_intro; auto. reflexivity. Qed.

Lemma valid_trans i u r : valid i u -> G r -> Rel u r -> valid i r.
Proof using HR. intros [_ H] Hr Hur. split; [exact Hr |]. intros n Hn E. etransitivity; eauto. Qed.

Lemma valid_link i u r : valid i u -> valid (uid u) r -> valid i r.
Proof using HR. intros Hu [Hr H]. apply (valid_trans i u r Hu Hr). apply H; [apply Hu | reflexivity]. Qed.

Lemma record_ok i r e : engine_ok e -> valid i r -> engine_ok (record_replace i r e).
Proof using.
  intros [He Hc] Hr. split; [| exact Hc]. intros j u. cbn.
  intros [[-> <-] | [_ H]]%lookup_insert_Some; [exact Hr | now apply He].
Qed.

Lemma keep_ok u e : G u -> engine_ok e -> engine_ok (keep u e).
Proof using HG HR.
  intros Hu He. unfold keep. destruct (replace e !! uid u); [exact He |].
  apply record_ok; [exact He | now apply valid_self].
Qed.

Lemma pm_rewrite_ok x e e' r :
  G x -> engine_ok e -> pm_rewrite pm x e = Some (e', r) ->
  engine_ok e' /\ forall v, r = Some v -> G v /\ Rel x v.
Proof using Hpm.
  unfold pm_rewrite. destruct pm as [f |] eqn:Ef; intros Hx He H; [| inv_opt; split; [exact He | discriminate]].
  destruct (f x (ctx e)) as [[s res] |] eqn:F; [| discriminate].
  assert (Hres : forall v, res = Rewritten v -> G v /\ Rel x v).
  { intros v ->. apply (Hpm f x (ctx e) s v eq_refl Hx). now left. }
  destruct res as [| v | v]; [| destruct (ptr_eq v x); [discriminate |] |]; inv_opt;
    (split; [exact He |]); intros w Ew; try discriminate. injection Ew as <-. now apply Hres.
Qed.

Lemma cached_bpm_ok f x e e' r :
  bpm = Some f -> G x -> engine_ok e -> cached_bpm_rewrite f x e = Some (e', r) ->
  engine_ok e' /\ forall v, r = inl (Some v) \/ r = inr v -> G v /\ Rel x v.
Proof using HG Hbpm.
  unfold cached_bpm_rewrite. intros Ef Hx He H. destruct (bpm_cache e !! uid x) as [c |] eqn:C.
  - inv_opt. split; [exact He |]. intros v [E | E]; [| discriminate]. injection E as ->.
    destruct (proj2 He _ _ C) as [Hv Hr]. split; [exact Hv | now apply Hr].
  - destruct (f x (ctx e)) as [[s res] |] eqn:F; [| discriminate].
    assert (Hres : forall v, res = Rewritten v \/ res = Gate v -> G v /\ Rel x v).
    { intros v Hv. apply (Hbpm f x (ctx e) s v Ef Hx). destruct Hv as [-> | ->]; auto. }
    destruct res as [| v | v]; [| destruct (ptr_eq v x); [discriminate |] |]; inv_opt.
    + split; [| now intros v []]. split; [apply He |]. intros i r. cbn.
      intros [[_ E] | [_ E]]%lookup_insert_Some; [discriminate | now apply He].
    + destruct (Hres v) as [Hv Hr]; [now left |]. split.
      * split; [apply He |]. intros i r. cbn.
        intros [[<- E] | [_ E]]%lookup_insert_Some; [injection E as <-; now apply valid_intro | now apply He].
      * intros w [E | E]; [injection E as <-; now split | discriminate].
    + split; [exact He |]. intros w [E | E]; [discriminate | injection E as <-]. now apply Hres; right.
Qed.

Lemma fixed_point_ok i fuel f seen cur working e e' r :
  bpm = Some f -> valid i cur -> (forall w, working = Some w -> cur = w) -> engine_ok e ->
  fixed_point fuel f seen cur working e = Some (e', r) ->
  engine_ok e' /\ forall v, r = inl (Some v) \/ r = inr v -> valid i v.
Proof using HG HR Hbpm.
  intros Ef. revert seen cur working e. induction fuel as [| fuel IH]; intros seen cur working e Hc Hw He H; [discriminate |].
  cbn [fixed_point] in H. destruct (bool_decide _); [discriminate |].
  destruct (cached_bpm_rewrite f cur e) as [[e1 r1] |] eqn:B; [| discriminate].
  destruct (cached_bpm_ok f cur e e1 r1 Ef (proj1 Hc) He B) as [He1 Hr1].
  destruct r1 as [[v |] | v].
  - destruct (Hr1 v) as [Hv Hrel]; [now left |].
    apply IH in H; [exact H | now apply (valid_trans i cur) | congruence | exact He1].
  - inv_opt. split; [exact He1 |]. intros v [E | E]; [| discriminate]. injection E as ->.
    now rewrite <- (Hw v eq_refl).
  - inv_opt. split; [exact He1 |]. intros w [E | E]; [discriminate | injection E as <-].
    destruct (Hr1 v) as [Hv Hrel]; [now right |]. now apply (valid_trans i cur).
Qed.

Lemma traversal_incl n :
  incl ((traversal_children n mode).1 ++ (traversal_children n mode).2) (children n).
Proof using.
  unfold traversal_children, children. destruct mode.
  - rewrite app_nil_r. apply incl_refl.
  - destruct (uop_op n) eqn:E; cbn [fst snd app Op.children]; rewrite ?app_nil_r; try apply incl_refl.
    all: intros v Hv; rewrite ?in_app_iff in Hv; cbn in *; tauto.
Qed.

Lemma insert_new_incl l s : incl (insert_new l s).1 l.
Proof using.
  revert s. induction l as [| c l IH]; intros s; cbn [insert_new]; [easy |].
  destruct (bool_decide _); [now apply incl_tl |].
  specialize (IH ({[uid c]} ∪ s)). destruct (insert_new l _) as [kids s']. cbn in *.
  intros v [-> | Hv]; [now left | right; auto].
Qed.

Lemma keep_all_ok l e : Forall G l -> engine_ok e -> engine_ok (fold_left (fun e s => keep s e) l e).
Proof using HG HR.
  intros Hl. revert e. induction Hl as [| u l Hu _ IH]; intros e He; cbn [fold_left]; [exact He |].
  now apply IH, keep_ok.
Qed.

Lemma children_G n : G n -> Forall G (children n).
Proof using HG. intros Hn. apply List.Forall_forall. intros v Hv. now apply (arena_source n). Qed.

Lemma traversal_G n l l' : G n -> traversal_children n mode = (l, l') -> Forall G l /\ Forall G l'.
Proof using HG.
  intros Hn E. pose proof (traversal_incl n) as H. rewrite E in H. apply Forall_app.
  pose proof (children_G n Hn) as C. rewrite List.Forall_forall in *. auto.
Qed.

Lemma finish_ok i r m : machine_ok m -> valid i r -> machine_ok (finish i r m).
Proof using.
  intros (He & Hs & Hw) Hr. split; [now apply record_ok | split].
  - apply Forall_app. split; [| exact Hs]. apply Forall_rev. unfold waiting.
    apply Forall_map. rewrite List.Forall_forall in *. intros p [_ Hp]%list_elem_of_In%list_elem_of_filter.
    now apply Hw, list_elem_of_In.
  - unfold finish, not_waiting. cbn. rewrite List.Forall_forall in *.
    intros p [_ Hp]%list_elem_of_In%list_elem_of_filter. now apply Hw, list_elem_of_In.
Qed.

Lemma wait_ok i e m : machine_ok m -> entry_ok e -> machine_ok (wait i e m).
Proof using.
  intros (He & Hs & Hw) Hr. split; [exact He | split; [exact Hs |]]. apply Forall_app. auto.
Qed.

Lemma push_ok e m : machine_ok m -> entry_ok e -> machine_ok (push e m).
Proof using. intros (He & Hs & Hw) Hr. split; [exact He | split; [| exact Hw]]. now constructor. Qed.

Lemma entry_intro n st w :
  G n -> valid (uid n) (from_option (fun w => w) n w) -> entry_ok (Entry.mk n st w).
Proof using. split; assumption. Qed.

Lemma push_children_ok n w m :
  machine_ok m -> G n -> valid (uid n) (from_option (fun w => w) n w) ->
  machine_ok (push_children mode n w m).
Proof using HG HR.
  intros (He & Hs & Hw) Hn Hv. unfold push_children.
  destruct (traversal_children _ mode) as [sources skipped] eqn:T.
  apply traversal_G in T as [T1 T2]; [| apply Hv].
  pose proof (insert_new_incl (rev sources) (on_stack m)) as Hi.
  destruct (insert_new _ _) as [kids s]. split; [now apply keep_all_ok | split; [| exact Hw]].
  apply Forall_app. split; [| constructor; [now apply entry_intro | exact Hs]].
  apply Forall_rev, Forall_map, List.Forall_forall. intros c Hc.
  assert (G c). { rewrite List.Forall_forall in T1. apply T1, in_rev. now apply Hi. }
  apply entry_intro; [assumption | now apply valid_self].
Qed.

Lemma resolve_ok r l resolved :
  cache_valid r -> Forall G l -> resolve r l = inl resolved ->
  Forall2 (fun a b => G b /\ Rel a b) l resolved.
Proof using.
  intros Hr Hl. revert resolved. induction Hl as [| u l Hu _ IH]; intros resolved; cbn [resolve].
  - intros E. injection E as <-. constructor.
  - destruct (r !! uid u) as [rx |] eqn:E; [| discriminate]. destruct (resolve r l) as [rs |]; [| discriminate].
    intros E'. injection E' as <-. constructor; [| now apply IH].
    destruct (Hr _ _ E) as [H1 H2]. auto.
Qed.

(** The machine with another engine. *)
Lemma with_engine_ok m e : machine_ok m -> engine_ok e ->
  machine_ok (mkMachine (stack m) (on_stack m) (waitlist m) e).
Proof using. intros (_ & Hm) He. now split. Qed.

Lemma stage0_ok fuel e m m' :
  machine_ok m -> entry_ok e -> stage0 bpm mode fuel (Entry.n e) (Entry.new_n e) m = Some m' -> machine_ok m'.
Proof using HG HR Hbpm.
  intros Hm [Hn Hv]. unfold stage0. generalize (eq_refl bpm). destruct bpm as [f |] at 2 3; intros Ef;
    [| intros H; inv_opt; now apply push_children_ok].
  destruct (fixed_point _ _ _ _ _ _) as [[e1 r] |] eqn:F; [| discriminate].
  eapply (fixed_point_ok (Entry.id e)) in F as [He1 Hr]; [| exact Ef | exact Hv | | apply Hm].
  2: { intros w E. now rewrite E. }
  pose proof (with_engine_ok m e1 Hm He1) as Hm1. destruct r as [[w |] | g]; intros H; injection H as <-.
  - apply push_children_ok; auto.
  - apply push_children_ok; [exact Hm1 | exact Hn |]. now apply valid_self.
  - apply finish_ok; auto.
Qed.

(** Stage 1 and 2 push the node they link to, to be rewritten in turn. *)
Lemma link_ok e m v :
  machine_ok m -> entry_ok e -> G v -> Rel (Entry.cur e) v ->
  machine_ok (push (Entry.mk v 0 None) (push (Entry.mk (Entry.n e) 2 (Some v)) m)).
Proof using HG HR.
  intros Hm [Hn Hv] Gv Rv. apply push_ok; [apply push_ok; [exact Hm |] |]; apply entry_intro; auto.
  - now apply (valid_trans _ (Entry.cur e)).
  - now apply valid_self.
Qed.

Lemma stage1_ok e m m' :
  machine_ok m -> entry_ok e -> stage1 with_sources pm (Entry.n e) (Entry.new_n e) m = Some m' -> machine_ok m'.
Proof using HG HR Hws Hpm.
  intros Hm [Hn Hv]. unfold stage1. change (from_option _ _ (Entry.new_n e)) with (Entry.cur e).
  destruct (resolve _ _) as [resolved | i] eqn:R.
  2: { intros H. injection H as <-. apply wait_ok; [exact Hm | now split]. }
  apply resolve_ok in R; [| apply Hm | apply children_G, Hv].
  destruct (if changed _ _ then _ else _) as [[e1 rebuilt] |] eqn:B; [| discriminate].
  assert (engine_ok e1 /\ G rebuilt /\ Rel (Entry.cur e) rebuilt) as (He1 & Hg & Hrel).
  { destruct (changed _ _); [| injection B as <- <-; split; [apply Hm | split; [apply Hv | reflexivity]]].
    destruct (with_sources _ _ _) as [[s node] |] eqn:W; [| discriminate]. injection B as <- <-.
    split; [apply Hm |]. eapply Hws; [apply Hv | exact R | exact W]. }
  pose proof (with_engine_ok m e1 Hm He1) as Hm1.
  destruct (negb _); [intros H; injection H as <-; now apply link_ok |].
  destruct (pm_rewrite _ _ _) as [[e2 r] |] eqn:P; [| discriminate].
  apply pm_rewrite_ok in P as [He2 Hr]; [| apply Hv | exact He1].
  pose proof (with_engine_ok m e2 Hm He2) as Hm2. destruct r as [v |]; intros H; injection H as <-.
  - destruct (Hr v eq_refl). now apply link_ok.
  - now apply finish_ok.
Qed.

Lemma stage2_ok e m m' :
  machine_ok m -> entry_ok e -> stage2 (Entry.n e) (Entry.new_n e) m = Some m' -> machine_ok m'.
Proof using HG HR.
  intros Hm [Hn Hv]. unfold stage2. destruct (Entry.new_n e) as [w |] eqn:En; [| discriminate].
  unfold Entry.cur in Hv. rewrite En in Hv. cbn in Hv.
  destruct (replace (engine m) !! uid w) as [r |] eqn:L; intros H; injection H as <-.
  - apply finish_ok; [exact Hm |]. apply (valid_link _ w); [exact Hv |]. now apply (proj1 (proj1 Hm)).
  - apply wait_ok; [exact Hm |]. now apply entry_intro.
Qed.

Lemma iterate_ok fuel e m m' :
  machine_ok m -> entry_ok e -> iterate with_sources pm bpm mode fuel e m = Some m' -> machine_ok m'.
Proof using HG HR Hws Hpm Hbpm.
  intros Hm He. unfold iterate. destruct (_ <? _)%nat; [discriminate |].
  destruct (replace (engine m) !! Entry.id e); [intros H; now inv_opt |].
  destruct (Entry.stage e) as [| [| st]]; eauto using stage0_ok, stage1_ok, stage2_ok.
Qed.

Lemma run_ok inner fuel m m' :
  machine_ok m -> run with_sources pm bpm mode inner fuel m = Some m' -> machine_ok m'.
Proof using HG HR Hws Hpm Hbpm.
  revert m. induction fuel as [| fuel IH]; intros m Hm; cbn [run];
    destruct (stack m) as [| e s] eqn:Es; try (intros H; now inv_opt).
  destruct (iterate _ _ _ _ _ _ _) as [m1 |] eqn:I; [| discriminate]. intros H. apply IH in H; [exact H |].
  destruct Hm as (He & Hs & Hw). rewrite Es in Hs. apply Forall_cons in Hs as [H1 H2].
  apply iterate_ok in I; [exact I | now split | exact H1].
Qed.

Lemma initial_ok root s : G root -> machine_ok (initial root s).
Proof using HG HR.
  intros Hr. split; [split; intros i r H; cbn in H; now rewrite lookup_empty in H |]. split; [| constructor].
  constructor; [| constructor]. apply entry_intro; [exact Hr | now apply valid_self].
Qed.

Lemma walk_iterate_ok n processed st e st' e' :
  engine_ok e -> Forall (fun p => G p.1) ((n, processed) :: st) ->
  walk_iterate with_sources pm bpm mode n processed st e = Some (st', e') ->
  engine_ok e' /\ Forall (fun p => G p.1) st'.
Proof using HG HR Hws Hpm Hbpm.
  intros He [Hn Hst]%Forall_cons. cbn in Hn. unfold walk_iterate. destruct (_ <? _)%nat; [discriminate |].
  destruct (replace e !! uid n); [intros H; now inv_opt |]. destruct (negb processed).
  - destruct (match bpm with Some _ => _ | None => _ end) as [[e1 r] |] eqn:B; [| discriminate].
    assert (engine_ok e1 /\ forall v, r = inl (Some v) \/ r = inr v -> G v /\ Rel n v) as [He1 Hr].
    { revert B. generalize (eq_refl bpm). destruct bpm as [f |] at 2 3; intros Ef B.
      - now apply (cached_bpm_ok f n e).
      - injection B as <- <-. split; [exact He | now intros v []]. }
    assert (Hrec : forall v, r = inl (Some v) \/ r = inr v -> engine_ok (record_replace (uid n) v e1)).
    { intros v Hv. apply record_ok; [exact He1 |]. now apply valid_intro; [| apply Hr..]. }
    destruct r as [[v |] | v]; [intros H; injection H as <- <-; auto | | intros H; injection H as <- <-; auto].
    destruct (traversal_children n mode) as [sources skipped] eqn:T.
    apply traversal_G in T as [T1 T2]; [| exact Hn]. intros H. injection H as <- <-.
    split; [now apply keep_all_ok |]. apply Forall_app. split; [| now constructor].
    apply Forall_map. apply List.Forall_forall. intros c [_ Hc]%list_elem_of_In%list_elem_of_filter.
    rewrite List.Forall_forall in T1. apply T1. now apply list_elem_of_In.
  - destruct (if changed _ _ then _ else _) as [[e1 rebuilt] |] eqn:B; [| discriminate].
    assert (engine_ok e1 /\ G rebuilt /\ Rel n rebuilt) as (He1 & Hg & Hrel).
    { destruct (changed _ _); [| injection B as <- <-; split; [exact He | split; [exact Hn | reflexivity]]].
      destruct (with_sources _ _ _) as [[s node] |] eqn:W; [| discriminate]. injection B as <- <-.
      split; [exact He |]. eapply Hws; [exact Hn | | exact W]. apply Forall2_fmap_r, Forall_Forall2_diag.
      apply Forall_impl with (P := G); [| intros s' Hs]; [now apply children_G |]. cbn.
      destruct (replace e !! uid s') as [r |] eqn:L; cbn; [| split; [exact Hs | reflexivity]].
      destruct (proj1 He _ _ L) as [H1 H2]. auto. }
    destruct (pm_rewrite _ _ _) as [[e2 r] |] eqn:P; [| discriminate].
    apply pm_rewrite_ok in P as [He2 Hr]; [| exact Hg | exact He1]. intros H. injection H as <- <-.
    split; [| exact Hst]. apply record_ok; [exact He2 |]. destruct r as [v |]; cbn.
    + destruct (Hr v eq_refl). apply valid_intro; auto. now transitivity rebuilt.
    + now apply valid_intro.
Qed.

Lemma walk_run_ok fuel st e e' :
  engine_ok e -> Forall (fun p => G p.1) st ->
  walk_run with_sources pm bpm mode fuel st e = Some e' -> engine_ok e'.
Proof using HG HR Hws Hpm Hbpm.
  revert st e. induction fuel as [| fuel IH]; intros [| [n processed] st] e He Hst; cbn [walk_run];
    try (intros H; now inv_opt).
  destruct (walk_iterate _ _ _ _ _ _ _ _) as [[st1 e1] |] eqn:W; [| discriminate].
  apply walk_iterate_ok in W as [He1 Hst1]; [| exact He | exact Hst]. now apply IH.
Qed.

Lemma read_ok root e :
  G root -> engine_ok e ->
  let r := from_option (fun r => r) root (replace e !! uid root) in G r /\ Rel root r.
Proof using HR.
  intros Hr He. cbv zeta. destruct (replace e !! uid root) as [v |] eqn:L; cbn.
  - destruct (proj1 He _ _ L) as [H1 H2]. auto.
  - split; [exact Hr | reflexivity].
Qed.

(** C4: Soundness of graph rewriting, for matchers with a context, the
    stateful intern table, both traversal modes and both drivers: any preorder
    on nodes that reconstruction and every rule respect relates the root to
    the result. *)
Theorem graph_rewrite_sound inner fuel root s s' r :
  G root ->
  rewrite with_sources pm bpm mode inner fuel root s = Some (s', r)
  \/ walk_rewrite with_sources pm bpm mode fuel root s = Some (s', r) ->
  G r /\ Rel root r.
Proof using HG HR Hws Hpm Hbpm.
  intros Hr [H | H].
  - unfold rewrite in H. destruct (run _ _ _ _ _ _ _) as [m |] eqn:R; [| discriminate].
    apply run_ok in R as (He & _); [| now apply initial_ok]. injection H as <- <-. now apply read_ok.
  - unfold walk_rewrite in H. destruct (walk_run _ _ _ _ _ _ _) as [e |] eqn:R; [| discriminate].
    apply walk_run_ok in R; [injection H as <- <-; now apply read_ok | |].
    + split; intros i u E; cbn in E; now rewrite lookup_empty in E.
    + now constructor.
Qed.
End Soundness.

(** ** The recursive specification of rewriting

    For rules and reconstruction without state: the bottom-up rules to their
    fixed point, the children, reconstruction (whose result is rewritten
    again), then one top-down rule (whose result is rewritten again). *)
Section Specification.
Context (ws : UOp -> list UOp -> option UOp) (pm bpm : option (UOp -> RewriteResult)).
Context (inner : nat).

(** A rule set on one node; a rule must not return the node it was given. *)
Definition apply_rule (m : option (UOp -> RewriteResult)) (x : UOp) : option RewriteResult :=
  match m with
  | None => Some NoMatch
  | Some f =>
      match f x with
      | Rewritten v => if ptr_eq v x then None else Some (Rewritten v)
      | r => Some r
      end
  end.

Fixpoint bpm_fix (fuel : nat) (seen : gset Z) (cur : UOp) : option (UOp + UOp) :=
  match fuel with
  | O => None
  | S fuel =>
      if bool_decide (uid cur ∈ seen) then None
      else
        let? r := apply_rule bpm cur in
        match r with
        | Rewritten v => bpm_fix fuel ({[uid cur]} ∪ seen) v
        | NoMatch => Some (inl cur)
        | Gate g => Some (inr g)
        end
  end.

(** The bottom-up result of a node: [inl] the node to descend into. *)
Definition descend (n : UOp) : option (UOp + UOp) :=
  match bpm with None => Some (inl n) | Some _ => bpm_fix inner ∅ n end.

(** What becomes of a node whose children are rewritten by [norm]: [None] when
    it is final. *)
Definition next (norm : UOp -> option UOp) (w : UOp) : option (option UOp) :=
  let? cs := collect norm (children w) in
  let? m := if changed (children w) cs then ws w cs else Some w in
  if negb (ptr_eq m w) then Some (Some m)
  else
    let? r := apply_rule pm w in
    Some match r with Rewritten v => Some v | _ => None end.

Fixpoint normalize (fuel : nat) (n : UOp) : option UOp :=
  match fuel with
  | O => None
  | S fuel =>
      let? d := descend n in
      match d with
      | inr g => Some g
      | inl w =>
          let? nx := next (normalize fuel) w in
          match nx with Some m => normalize fuel m | None => Some w end
      end
  end.

(** The work the machine does for a node, as if nothing were shared. *)
Definition total {A} (f : A -> nat) (l : list A) : nat := fold_right (fun a t => (f a + t)%nat) 0%nat l.
Definition link_cost (cost : UOp -> nat) (nx : option (option UOp)) : nat :=
  match nx with Some (Some m) => S (cost m) | _ => 0%nat end.
Fixpoint cost (fuel : nat) (n : UOp) : nat :=
  match fuel with
  | O => 1
  | S fuel =>
      match descend n with
      | Some (inl w) =>
          2 + link_cost (cost fuel) (next (normalize fuel) w) + total (cost fuel) (children w)
      | _ => 1
      end
  end%nat.

Lemma descend_cases n d :
  descend n = Some d ->
  bpm = None /\ d = inl n \/ exists f, bpm = Some f /\ bpm_fix inner ∅ n = Some d.
Proof using.
  unfold descend. destruct bpm as [f |] eqn:Ef; intros H; [right; now exists f |].
  left. now injection H as <-.
Qed.

Lemma apply_rule_cases m x r :
  apply_rule m x = Some r ->
  m = None /\ r = NoMatch \/
  exists f, m = Some f /\ f x = r /\ forall v, r = Rewritten v -> ptr_eq v x = false.
Proof using.
  unfold apply_rule. destruct m as [f |]; intros H; [right; exists f | left; now injection H as <-].
  split; [reflexivity |]. destruct (f x) as [| v | g]; [now injection H as <- | | now injection H as <-].
  destruct (ptr_eq v x) eqn:E; [discriminate |]. injection H as <-. split; [reflexivity |].
  intros u Eu. now injection Eu as <-.
Qed.

(** More fuel changes nothing. *)
Lemma collect_mono {A B} (f g : A -> option B) l bs :
  (forall a b, In a l -> f a = Some b -> g a = Some b) -> collect f l = Some bs -> collect g l = Some bs.
Proof using.
  revert bs. induction l as [| a l IH]; intros bs H; cbn [collect]; [auto |].
  destruct (f a) as [b |] eqn:E; [| discriminate]. rewrite (H a b (or_introl eq_refl) E).
  destruct (collect f l) as [bs' |]; [| discriminate]. rewrite (IH bs'); [auto | | reflexivity].
  intros a' b' Ha. apply H. now right.
Qed.

Lemma next_mono f g w x :
  (forall a b, f a = Some b -> g a = Some b) -> next f w = Some x -> next g w = Some x.
Proof using.
  intros H. unfold next. destruct (collect f (children w)) as [cs |] eqn:E; [| discriminate].
  rewrite (collect_mono f g _ cs); auto.
Qed.

Lemma collect_is_some {A B} (f : A -> option B) l bs a : collect f l = Some bs -> In a l -> is_Some (f a).
Proof using.
  revert bs. induction l as [| x l IH]; intros bs; cbn [collect]; [easy |].
  destruct (f x) as [b |] eqn:E; [| discriminate]. destruct (collect f l) as [bs' |]; [| discriminate].
  intros _ [-> | Ha]; [now exists b | eauto].
Qed.

Lemma total_ext {A} (f g : A -> nat) l : (forall a, In a l -> f a = g a) -> total f l = total g l.
Proof using.
  unfold total. intros H. induction l as [| a l IH]; [reflexivity |]. cbn. f_equal.
  - apply H. now left.
  - apply IH. intros b Hb. apply H. now right.
Qed.

Lemma normalize_S fuel n :
  normalize (S fuel) n =
  let? d := descend n in
  match d with
  | inr g => Some g
  | inl w =>
      let? nx := next (normalize fuel) w in
      match nx with Some m => normalize fuel m | None => Some w end
  end.
Proof using. reflexivity. Qed.

Lemma cost_S fuel n w :
  descend n = Some (inl w) ->
  cost (S fuel) n =
  (2 + link_cost (cost fuel) (next (normalize fuel) w) + total (cost fuel) (children w))%nat.
Proof using. intros D. cbn [cost]. now rewrite D. Qed.

Lemma next_children norm w nx c :
  next norm w = Some nx -> In c (children w) -> is_Some (norm c).
Proof using.
  unfold next. destruct (collect norm (children w)) as [cs |] eqn:C; [| discriminate]. intros _.
  exact (collect_is_some _ _ _ c C).
Qed.

Lemma normalize_step fuel n r :
  normalize fuel n = Some r -> normalize (S fuel) n = Some r /\ cost (S fuel) n = cost fuel n.
Proof using.
  revert n r. induction fuel as [| fuel IH]; intros n r; [discriminate |].
  rewrite normalize_S. destruct (descend n) as [[w | g] |] eqn:D; [| | discriminate].
  2: { intros E. rewrite normalize_S. cbn [cost]. rewrite D. auto. }
  destruct (next (normalize fuel) w) as [nx |] eqn:Nx; [| discriminate]. intros E.
  assert (Nx' : next (normalize (S fuel)) w = Some nx).
  { revert Nx. apply next_mono. intros a b Hab. now apply IH. }
  assert (T : total (cost (S fuel)) (children w) = total (cost fuel) (children w)).
  { apply total_ext. intros a Ha. destruct (next_children _ _ _ a Nx Ha) as [b Hb]. now apply (IH a b). }
  rewrite normalize_S, (cost_S (S fuel) n w D), (cost_S fuel n w D), D, Nx, Nx', T.
  destruct nx as [m |]; [| auto]. destruct (IH m r E) as [E1 E2].
  split; [exact E1 |]. unfold link_cost. now rewrite E2.
Qed.

Lemma normalize_mono fuel fuel' n r :
  (fuel <= fuel')%nat -> normalize fuel n = Some r ->
  normalize fuel' n = Some r /\ cost fuel' n = cost fuel n.
Proof using.
  intros L E. induction L as [| fuel'' L [IH1 IH2]]; [auto |].
  destruct (normalize_step fuel'' n r IH1) as [H1 H2]. split; [exact H1 | congruence].
Qed.

(** ** Nodes the specification normalizes, at one amount of fuel *)
Section AtFuel.
Context (F : nat).
Let N := normalize F.
Let c := cost F.
Definition good (n : UOp) : Prop := is_Some (normalize F n).

Lemma cost_pos n : (1 <= cost F n)%nat.
Proof using. destruct F; cbn; [auto |]. destruct (descend n) as [[w | g] |]; lia. Qed.

Lemma total_in {A} (f : A -> nat) l a : In a l -> (f a <= total f l)%nat.
Proof using.
  unfold total. induction l as [| b l IH]; [easy |]. cbn. intros [-> | Ha]; [lia |]. specialize (IH Ha). lia.
Qed.

(** One step of the specification. *)
Definition good_next (n w : UOp) (nx : option UOp) : Prop :=
  match nx with
  | Some m => good m /\ normalize F n = normalize F m
  | None => normalize F n = Some w
  end.

Lemma good_inv n :
  good n ->
  (exists g, descend n = Some (inr g) /\ normalize F n = Some g) \/
  (exists w nx, descend n = Some (inl w) /\ next (normalize F) w = Some nx /\
     (forall ch, In ch (children w) -> good ch) /\ good_next n w nx /\
     cost F n = (2 + link_cost (cost F) (Some nx) + total (cost F) (children w))%nat).
Proof using.
  intros [r Hr]. destruct F as [| f] eqn:EF; [discriminate |]. pose proof Hr as Hr'.
  rewrite normalize_S in Hr. destruct (descend n) as [[w | g] |] eqn:D; [| | discriminate].
  2: { left. exists g. split; [reflexivity | congruence]. }
  destruct (next (normalize f) w) as [nx |] eqn:Nx; [| discriminate].
  assert (M : forall a b, normalize f a = Some b -> normalize (S f) a = Some b) by (intros a b; apply normalize_step).
  right. exists w, nx. split; [reflexivity |]. split; [exact (next_mono _ _ _ _ M Nx) |].
  split; [| split].
  - intros ch Hch. destruct (next_children _ _ _ ch Nx Hch) as [b Hb]. exists b. rewrite EF. now apply M.
  - unfold good_next, good. rewrite EF, Hr'. destruct nx as [m |]; [| congruence].
    rewrite (M m r Hr). split; [now exists r | reflexivity].
  - rewrite (cost_S f n w D), Nx. f_equal.
    + f_equal. unfold link_cost. destruct nx as [m |]; [| reflexivity]. f_equal. symmetry.
      now apply (normalize_step f m r).
    + apply total_ext. intros a Ha. destruct (next_children _ _ _ a Nx Ha) as [b Hb]. symmetry.
      now apply (normalize_step f a b).
Qed.
End AtFuel.
End Specification.

(** ** The machine computes the specification *)
Section Refinement.
Context (ws : UOp -> list UOp -> option UOp) (pm bpm : option (UOp -> RewriteResult)).
Context (inner F : nat) (G : UOp -> Prop) `{HG : !Arena G}.

(** Rules and reconstruction as stateless instances of the engine's. *)
Definition lift_ws (u : UOp) (l : list UOp) (_ : unit) : option (unit * UOp) :=
  let? v := ws u l in Some (tt, v).
Definition lift_rule (f : UOp -> RewriteResult) (u : UOp) (_ : unit) : option (unit * RewriteResult) :=
  Some (tt, f u).
Definition lift_rules : option (UOp -> RewriteResult) -> option (@Matcher unit) := option_map lift_rule.

(** All nodes, the ones rules and reconstruction make included, are from one arena. *)
Definition closed_rules (m : option (UOp -> RewriteResult)) : Prop :=
  forall f u v, m = Some f -> G u -> f u = Rewritten v \/ f u = Gate v -> G v.
Context (Hws : forall u l v, G u -> Forall G l -> ws u l = Some v -> G v).
Context (Hpm : closed_rules pm) (Hbpm : closed_rules bpm).

Let N := normalize ws pm bpm inner F.
Let c := cost ws pm bpm inner F.
Let ok := good ws pm bpm inner F.

Definition pending (m : @Machine unit) : list Entry := stack m ++ map snd (waitlist m).
Definition known (P : list Entry) (r : gmap Z UOp) (i : Z) : Prop :=
  is_Some (r !! i) \/ exists e, In e P /\ Entry.id e = i.

(** An entry in a machine whose pending entries are [P]. *)
Definition entry_good (P : list Entry) (r : gmap Z UOp) (e : Entry) : Prop :=
  G (Entry.n e) /\ ok (Entry.n e) /\
  match Entry.stage e with
  | 0%nat => Entry.new_n e = None
  | 1%nat => descend bpm inner (Entry.n e) = Some (inl (Entry.cur e)) /\
      G (Entry.cur e) /\ forall ch, In ch (children (Entry.cur e)) -> known P r (uid ch)
  | _ => Entry.stage e = 2%nat /\
      exists m, Entry.new_n e = Some m /\ G m /\ ok m /\ N (Entry.n e) = N m /\
        (c m < c (Entry.n e))%nat /\ known P r (uid m)
  end.

Definition wait_good (r : gmap Z UOp) (p : Z * Entry) : Prop :=
  r !! p.1 = None /\
  match Entry.stage p.2 with
  | 0%nat => False
  | 1%nat => exists ch, In ch (children (Entry.cur p.2)) /\ uid ch = p.1
  | _ => exists m, Entry.new_n p.2 = Some m /\ uid m = p.1
  end.

Definition cache_good (cache : gmap Z (option UOp)) : Prop :=
  forall n x, G n -> cache !! uid n = Some x ->
    apply_rule bpm n = Some match x with Some v => Rewritten v | None => NoMatch end.

(** [P]: the entries of the machine and the one being processed. *)
Record MInv (P : list Entry) (m : @Machine unit) : Prop := {
  minv_replace n r : G n -> replace (engine m) !! uid n = Some r -> N n = Some r;
  minv_cache : cache_good (bpm_cache (engine m));
  minv_entries e : In e P -> entry_good P (replace (engine m)) e;
  minv_on_stack i : i ∈ on_stack m -> known P (replace (engine m)) i;
  minv_wait p : In p (waitlist m) -> wait_good (replace (engine m)) p
}.

Definition weight (e : Entry) : nat :=
  match Entry.stage e with
  | 0%nat => c (Entry.n e)
  | 1%nat => S (link_cost c (next ws pm N (Entry.cur e)))
  | _ => 1%nat
  end.

Lemma total_cost_app {A} (f : A -> nat) l k : total f (l ++ k) = (total f l + total f k)%nat.
Proof using. unfold total. induction l as [| a l IH]; cbn; [reflexivity |]. rewrite IH. lia. Qed.

Lemma total_perm {A} (f : A -> nat) l k : Permutation l k -> total f l = total f k.
Proof using. unfold total. induction 1; cbn; lia. Qed.

Lemma waiting_perm i w : Permutation (map snd w) (rev (waiting i w) ++ map snd (not_waiting i w)).
Proof using.
  rewrite <- Permutation_rev. unfold waiting, not_waiting. induction w as [| [j e] w IH]; [constructor |].
  rewrite !filter_cons. cbn [fst]. destruct (decide (j = i)) as [E | E].
  - rewrite decide_False by auto. cbn. now constructor.
  - rewrite decide_True by auto. cbn. rewrite IH. apply Permutation_middle.
Qed.

Lemma pending_finish i r m : Permutation (pending (finish i r m)) (pending m).
Proof using.
  unfold pending, finish. cbn. rewrite (waiting_perm i (waitlist m)).
  rewrite !app_assoc. apply Permutation_app_tail, Permutation_app_comm.
Qed.

Lemma known_mono P P' r r' i :
  (forall e, In e P -> In e P' \/ is_Some (r' !! Entry.id e)) ->
  (forall j, is_Some (r !! j) -> is_Some (r' !! j)) -> known P r i -> known P' r' i.
Proof using.
  intros HP Hr [H | (e & He & <-)]; [left; auto |]. destruct (HP e He); [right; eauto | now left].
Qed.

Lemma entry_good_mono P P' r r' e :
  (forall i, known P r i -> known P' r' i) -> entry_good P r e -> entry_good P' r' e.
Proof using.
  intros H (H1 & H2 & H3). split; [exact H1 |]. split; [exact H2 |].
  destruct (Entry.stage e) as [| [| st]]; [exact H3 | |].
  - destruct H3 as (E & Hc & Hk). auto.
  - destruct H3 as (Es & w & E & Hw & Hg & Hn & Hl & Hk). split; [exact Es |]. exists w. split_and!; auto.
Qed.

(** What a step must establish. *)
Lemma MInv_next P P' m m' :
  MInv P m -> (forall i, known P (replace (engine m)) i -> known P' (replace (engine m')) i) ->
  (forall n r, G n -> replace (engine m') !! uid n = Some r -> N n = Some r) ->
  cache_good (bpm_cache (engine m')) ->
  (forall e, In e P' -> In e P \/ entry_good P' (replace (engine m')) e) ->
  (forall i, i ∈ on_stack m' -> i ∈ on_stack m \/ known P' (replace (engine m')) i) ->
  (forall p, In p (waitlist m') -> wait_good (replace (engine m')) p) -> MInv P' m'.
Proof using.
  intros Hm Hk Hr Hc He Ho Hw. constructor; auto.
  - intros e H. destruct (He e H) as [Hp | Hp]; [| exact Hp].
    apply (entry_good_mono P P' (replace (engine m))); [exact Hk |]. now apply (minv_entries P m Hm).
  - intros i Hi. destruct (Ho i Hi) as [Hi' | Hi']; [| exact Hi']. now apply Hk, (minv_on_stack P m Hm).
Qed.

(** The processed entry has its result: it is recorded and its waiters return. *)
Lemma MInv_finish e m r :
  MInv (e :: pending m) m -> N (Entry.n e) = Some r -> MInv (pending (finish (Entry.id e) r m)) (finish (Entry.id e) r m).
Proof using HG.
  intros Hm Hr.
  assert (Hmono : forall j, is_Some (replace (engine m) !! j) -> is_Some (<[Entry.id e := r]> (replace (engine m)) !! j)).
  { intros j Hj. destruct (decide (Entry.id e = j)) as [<- | Hne].
    - rewrite lookup_insert_eq. now exists r.
    - now rewrite lookup_insert_ne. }
  apply (MInv_next (e :: pending m) _ m); auto.
  - intros i. apply known_mono; [| exact Hmono]. intros e' [<- | He'].
    + right. cbn. rewrite lookup_insert_eq. now exists r.
    + left. now apply (Permutation_in _ (Permutation_sym (pending_finish (Entry.id e) r m))).
  - intros n x Hn. cbn. intros [[E <-] | [_ H]]%lookup_insert_Some.
    + assert (n = Entry.n e) as ->; [| exact Hr]. apply arena_id; [exact Hn | | now symmetry].
      apply (minv_entries _ m Hm e). now left.
    + now apply (minv_replace _ m Hm).
  - apply (minv_cache _ m Hm).
  - intros e' He'. left. right. now apply (Permutation_in _ (pending_finish (Entry.id e) r m)).
  - intros p Hp. cbn in Hp. apply list_elem_of_In, list_elem_of_filter in Hp as [Hne Hp].
    apply list_elem_of_In in Hp. destruct (minv_wait _ m Hm p Hp) as [H1 H2]. split; [| exact H2].
    cbn. now rewrite lookup_insert_ne.
Qed.

Lemma MInv_wait e m i :
  MInv (e :: pending m) m -> wait_good (replace (engine m)) (i, e) -> MInv (pending (wait i e m)) (wait i e m).
Proof using.
  intros Hm Hw. assert (HP : Permutation (e :: pending m) (pending (wait i e m))).
  { unfold pending, wait. cbn. rewrite map_app, app_assoc. cbn. apply Permutation_cons_append. }
  apply (MInv_next (e :: pending m) _ m); auto.
  - intros j. apply known_mono; [| auto]. intros e' He'. left. now apply (Permutation_in _ HP).
  - apply (minv_replace _ m Hm).
  - apply (minv_cache _ m Hm).
  - intros e' He'. left. now apply (Permutation_in _ (Permutation_sym HP)).
  - intros p [Hp | [<- | []]]%in_app_iff; [now apply (minv_wait _ m Hm) | exact Hw].
Qed.

Lemma insert_new_spec l s :
  let '(kids, s') := insert_new l s in
  (forall i, i ∈ s' <-> i ∈ s \/ exists ch, In ch kids /\ uid ch = i) /\
  (forall ch, In ch l -> uid ch ∈ s') /\ (total c kids <= total c l)%nat.
Proof using.
  revert s. induction l as [| ch l IH]; intros s; cbn [insert_new].
  - split; [| split; [easy | auto]]. intros i. split; [now left | intros [H | (ch & [] & _)]; exact H].
  - destruct (bool_decide (uid ch ∈ s)) eqn:B.
    + specialize (IH s). destruct (insert_new l s) as [kids s']. destruct IH as (H1 & H2 & H3).
      apply bool_decide_eq_true in B. split; [exact H1 |]. split.
      * intros ch' [<- | H]; [apply H1; now left | now apply H2].
      * unfold total in *. cbn. lia.
    + specialize (IH ({[uid ch]} ∪ s)). destruct (insert_new l _) as [kids s']. destruct IH as (H1 & H2 & H3).
      split; [| split].
      * intros i. rewrite H1, elem_of_union, elem_of_singleton. split.
        -- intros [[-> | H] | (ch' & H & E)]; [right; exists ch; split; [now left | reflexivity] | now left |].
           right. exists ch'. split; [now right | exact E].
        -- intros [H | (ch' & [<- | H] & E)]; [tauto | left; left; now symmetry | right; now exists ch'].
      * intros ch' [<- | H]; [| now apply H2]. apply H1. left. rewrite elem_of_union, elem_of_singleton. now left.
      * unfold total in *. cbn. lia.
Qed.

Lemma total_map {A B} (f : B -> nat) (g : A -> B) l : total f (map g l) = total (fun a => f (g a)) l.
Proof using. unfold total. induction l as [| a l IH]; cbn; congruence. Qed.

Lemma total_le_rev {A} (f : A -> nat) l : total f (rev l) = total f l.
Proof using. apply total_perm. symmetry. apply Permutation_rev. Qed.

(** Stage 0: the node that the bottom-up rules end at is expanded. *)
Lemma MInv_push_children e m w nx working :
  MInv (e :: pending m) m -> Entry.stage e = 0%nat -> w = from_option (fun w => w) (Entry.n e) working ->
  descend bpm inner (Entry.n e) = Some (inl w) -> G w -> next ws pm N w = Some nx ->
  (forall ch, In ch (children w) -> ok ch) ->
  c (Entry.n e) = (2 + link_cost c (Some nx) + total c (children w))%nat ->
  let m' := push_children TraversalMode.Full (Entry.n e) working m in
  MInv (pending m') m' /\ (total weight (pending m') < total weight (e :: pending m))%nat.
Proof using HG.
  intros Hm He Ew Hd Gw Hx Hch Hc. unfold push_children. rewrite <- Ew. cbn [traversal_children fold_left].
  pose proof (insert_new_spec (rev (children w)) (on_stack m)) as Hi.
  pose proof (insert_new_incl (rev (children w)) (on_stack m)) as Hin.
  destruct (insert_new _ _) as [kids s']. cbn [fst] in Hin. destruct Hi as (Hi1 & Hi2 & Hi3).
  set (e1 := Entry.mk (Entry.n e) 1 working). set (ks := rev (map (fun c => Entry.mk c 0 None) kids)).
  cbv zeta. unfold pending at 1 2. cbn [stack waitlist]. rewrite <- app_assoc. cbn [app]. fold (pending m).
  set (P' := ks ++ e1 :: pending m). assert (Hkids : forall ch, In ch kids -> In (Entry.mk ch 0 None) ks).
  { intros ch Hk. apply -> in_rev. exact (in_map (fun ch => Entry.mk ch 0 None) kids ch Hk). }
  assert (Hmono : forall i, known (e :: pending m) (replace (engine m)) i -> known P' (replace (engine m)) i).
  { intros i [H | (e' & [<- | H] & Ei)]; [now left | right | right].
    - exists e1. split; [apply in_or_app; right; now left | exact Ei].
    - exists e'. split; [apply in_or_app; right; now right | exact Ei]. }
  assert (Hs' : forall i, i ∈ s' -> known P' (replace (engine m)) i).
  { intros i [H | (ch & H & Ei)]%Hi1; [now apply Hmono, (minv_on_stack _ m Hm) |].
    right. exists (Entry.mk ch 0 None). split; [apply in_or_app; left; auto | exact Ei]. }
  split.
  - apply (MInv_next (e :: pending m) P' m); auto.
    + apply (minv_replace _ m Hm).
    + apply (minv_cache _ m Hm).
    + intros e' [H | [<- | H]]%in_app_or; [right | right | left; now right].
      * apply in_rev, in_map_iff in H as (ch & <- & H). apply Hin, in_rev in H.
        split; [exact (arena_source w ch Gw H) |]. split; [now apply Hch | reflexivity].
      * destruct (minv_entries _ m Hm e (or_introl eq_refl)) as (H1 & H2 & _).
        split; [exact H1 |]. split; [exact H2 |]. cbn. unfold Entry.cur, e1. cbn. rewrite <- Ew.
        split; [exact Hd |]. split; [exact Gw |]. intros ch H. apply Hs', Hi2. now apply -> in_rev.
    + apply (minv_wait _ m Hm).
  - unfold P', ks. rewrite total_cost_app, total_le_rev, total_map.
    change (total weight (e1 :: pending m)) with (weight e1 + total weight (pending m))%nat.
    change (total weight (e :: pending m)) with (weight e + total weight (pending m))%nat.
    change (total (fun a => weight (Entry.mk a 0 None)) kids) with (total c kids).
    rewrite total_le_rev in Hi3. unfold weight, Entry.cur, e1. cbn [Entry.stage Entry.n Entry.new_n].
    rewrite He, <- Ew, Hx, Hc. clear - Hi3. lia.
Qed.

(** Stage 1: the node the machine goes on with is pushed. *)
Lemma MInv_link e m v :
  MInv (e :: pending m) m -> Entry.stage e = 1%nat -> G v -> ok v -> N (Entry.n e) = N v ->
  next ws pm N (Entry.cur e) = Some (Some v) -> (c v < c (Entry.n e))%nat ->
  let m' := push (Entry.mk v 0 None) (push (Entry.mk (Entry.n e) 2 (Some v)) m) in
  MInv (pending m') m' /\ (total weight (pending m') < total weight (e :: pending m))%nat.
Proof using.
  intros Hm He Gv Ov Ev Hx Hlt. cbv zeta. unfold pending at 1 2. cbn [push stack waitlist app].
  fold (pending m). set (e0 := Entry.mk v 0 None). set (e2 := Entry.mk (Entry.n e) 2 (Some v)). split.
  - apply (MInv_next (e :: pending m) (e0 :: e2 :: pending m) m); auto.
    + intros i [H | (e' & [<- | H] & Ei)]; [now left | right | right].
      * exists e2. split; [right; now left | exact Ei].
      * exists e'. split; [right; now right | exact Ei].
    + apply (minv_replace _ m Hm).
    + apply (minv_cache _ m Hm).
    + destruct (minv_entries _ m Hm e (or_introl eq_refl)) as (H1 & H2 & _).
      intros e' [<- | [<- | H]]; [right | right | left; now right].
      * split; [exact Gv |]. split; [exact Ov | reflexivity].
      * split; [exact H1 |]. split; [exact H2 |]. split; [reflexivity |]. exists v. split_and!; auto.
        right. exists e0. split; [now left | reflexivity].
    + apply (minv_wait _ m Hm).
  - assert (E : weight e = S (S (c v))) by (unfold weight; now rewrite He, Hx).
    change (c v + (1 + total weight (pending m)) < weight e + total weight (pending m))%nat.
    rewrite E. clear. lia.
Qed.

(** The bottom-up loop, with its cache. *)
Definition bpm_result (r : RewriteResult) : option UOp + UOp :=
  match r with NoMatch => inl None | Rewritten v => inl (Some v) | Gate g => inr g end.

Lemma cached_bpm_refines f x e res :
  bpm = Some f -> G x -> cache_good (bpm_cache e) -> apply_rule bpm x = Some res ->
  exists e', cached_bpm_rewrite (lift_rule f) x e = Some (e', bpm_result res) /\
    replace e' = replace e /\ cache_good (bpm_cache e').
Proof using HG.
  intros Ef Hx Hc Ha. unfold cached_bpm_rewrite. destruct (bpm_cache e !! uid x) as [cached |] eqn:L.
  - exists e. rewrite (Hc x cached Hx L) in Ha. injection Ha as <-. destruct cached; auto.
  - assert (Hins : forall y, apply_rule bpm x = Some match y with Some v => Rewritten v | None => NoMatch end ->
              cache_good (<[uid x := y]> (bpm_cache e))).
    { intros y Hy n z Hn [[E <-] | [_ H]]%lookup_insert_Some; [| now apply Hc].
      now rewrite <- (arena_id x n Hx Hn E). }
    pose proof Ha as Ha'. rewrite Ef in Ha'. unfold lift_rule. cbn in *.
    destruct (f x) as [| v | g]; [| destruct (ptr_eq v x); [discriminate |] |]; injection Ha' as <-;
      (eexists; split; [reflexivity |]; split; [reflexivity |]); cbn; auto.
Qed.

Lemma apply_rule_G m x v : closed_rules m -> G x ->
  apply_rule m x = Some (Rewritten v) \/ apply_rule m x = Some (Gate v) -> G v.
Proof using.
  intros Hm Hx H. unfold apply_rule in H. destruct m as [f |]; [| destruct H; discriminate].
  apply (Hm f x v eq_refl Hx). destruct (f x) as [| u | g]; [destruct H; discriminate | |].
  - destruct (ptr_eq u x); destruct H as [H | H]; try discriminate. injection H as ->. now left.
  - destruct H as [H | H]; [discriminate |]. injection H as ->. now right.
Qed.

Lemma fixed_point_refines f n fuel seen cur working e d :
  bpm = Some f -> G cur -> cur = from_option (fun w => w) n working -> cache_good (bpm_cache e) ->
  bpm_fix bpm fuel seen cur = Some d ->
  exists e' r, fixed_point fuel (lift_rule f) seen cur working e = Some (e', r) /\
    replace e' = replace e /\ cache_good (bpm_cache e') /\
    match d with
    | inl w => G w /\ exists working', r = inl working' /\ w = from_option (fun w => w) n working'
    | inr g => r = inr g
    end.
Proof using HG Hbpm.
  intros Ef. revert seen cur working e. induction fuel as [| fuel IH]; intros seen cur working e Hx Hcur Hc; [discriminate |].
  cbn [bpm_fix fixed_point]. destruct (bool_decide _); [discriminate |].
  destruct (apply_rule bpm cur) as [res |] eqn:A; [| discriminate].
  destruct (cached_bpm_refines f cur e res Ef Hx Hc A) as (e1 & -> & Er & Hc1).
  destruct res as [| v | g]; cbn [bpm_result]; intros H.
  - injection H as <-. exists e1, (inl working). split_and!; auto. now exists working.
  - destruct (IH ({[uid cur]} ∪ seen) v (Some v) e1) as (e2 & r & H1 & H2 & H3 & H4); auto.
    + apply (apply_rule_G bpm cur); auto.
    + exists e2, r. split_and!; auto. congruence.
  - injection H as <-. exists e1, (inr g). split_and!; auto.
Qed.

(** Results stay in the arena. *)
Lemma bpm_fix_G fuel seen cur d :
  G cur -> bpm_fix bpm fuel seen cur = Some d -> G (match d with inl w => w | inr g => g end).
Proof using Hbpm.
  revert seen cur. induction fuel as [| fuel IH]; intros seen cur Hx; [discriminate |]. cbn [bpm_fix].
  destruct (bool_decide _); [discriminate |]. destruct (apply_rule bpm cur) as [[| v | g] |] eqn:A; [| | | discriminate].
  - intros H. now injection H as <-.
  - apply IH, (apply_rule_G bpm cur); auto.
  - intros H. injection H as <-. apply (apply_rule_G bpm cur); auto.
Qed.

Lemma descend_G n d : G n -> descend bpm inner n = Some d -> G (match d with inl w => w | inr g => g end).
Proof using Hbpm.
  intros Hn. unfold descend. generalize (eq_refl bpm). destruct bpm as [f |] at 2 3; intros _.
  - now apply bpm_fix_G.
  - intros H. now injection H as <-.
Qed.

Lemma collect_Forall2 {A B} (f : A -> option B) l bs :
  collect f l = Some bs -> Forall2 (fun a b => f a = Some b) l bs.
Proof using. intros H. now apply collect_Some. Qed.

Lemma next_G fuel w nx :
  (forall n r, G n -> normalize ws pm bpm inner fuel n = Some r -> G r) ->
  G w -> next ws pm (normalize ws pm bpm inner fuel) w = Some nx -> G (from_option (fun m => m) w nx).
Proof using HG Hws Hpm.
  intros IH Hw. unfold next. destruct (collect _ _) as [cs |] eqn:C; [| discriminate].
  assert (Hcs : Forall G cs).
  { apply collect_Forall2 in C. pose proof (children_G G w Hw) as Hc. revert Hc.
    clear - C IH. induction C as [| a b l bs Hab _ IHl]; intros Hc; [constructor |].
    apply Forall_cons in Hc as [Ha Hl]. constructor; eauto. }
  destruct (if changed _ _ then _ else _) as [m |] eqn:M; [| discriminate].
  assert (Gm : G m) by (destruct (changed _ _); [exact (Hws w cs m Hw Hcs M) | now injection M as <-]).
  destruct (negb _); [intros H; now injection H as <- |].
  destruct (apply_rule pm w) as [[| v | g] |] eqn:A; intros H; try discriminate; injection H as <-; auto.
  apply (apply_rule_G pm w); auto.
Qed.

Lemma normalize_G fuel n r : G n -> normalize ws pm bpm inner fuel n = Some r -> G r.
Proof using HG Hws Hpm Hbpm.
  revert n r. induction fuel as [| fuel IH]; intros n r Hn; [discriminate |]. rewrite normalize_S.
  destruct (descend bpm inner n) as [d |] eqn:D; [| discriminate]. apply descend_G in D; [| exact Hn].
  destruct d as [w | g]; [| intros H; now injection H as <-].
  destruct (next _ _ _ w) as [nx |] eqn:Nx; [| discriminate]. apply next_G in Nx; [| exact IH | exact D].
  destruct nx as [m |]; [apply IH; exact Nx |]. intros H. now injection H as <-.
Qed.

(** ** One iteration *)
Definition progress (e : Entry) (m m' : @Machine unit) : Prop :=
  MInv (pending m') m' /\ on_stack m ⊆ on_stack m' /\
  ((total weight (pending m') < total weight (e :: pending m))%nat \/
   total weight (pending m') = total weight (e :: pending m) /\ stack m' = stack m).

Lemma weight_pos e : (1 <= weight e)%nat.
Proof using.
  unfold weight. destruct (Entry.stage e) as [| [| st]]; [apply cost_pos | |]; clear; lia.
Qed.

Lemma MInv_engine P m e :
  MInv P m -> replace e = replace (engine m) -> cache_good (bpm_cache e) ->
  MInv P (mkMachine (stack m) (on_stack m) (waitlist m) e).
Proof using. intros Hm Er Hc. constructor; cbn; rewrite ?Er; try apply Hm. exact Hc. Qed.

Lemma progress_finish e m r :
  MInv (e :: pending m) m -> N (Entry.n e) = Some r -> progress e m (finish (Entry.id e) r m).
Proof using HG.
  intros Hm Hr. split; [now apply MInv_finish |]. split; [easy |]. left.
  rewrite (total_perm weight _ _ (pending_finish (Entry.id e) r m)).
  change (total weight (e :: pending m)) with (weight e + total weight (pending m))%nat.
  pose proof (weight_pos e). clear - H. lia.
Qed.

Lemma progress_wait e m i :
  MInv (e :: pending m) m -> wait_good (replace (engine m)) (i, e) -> progress e m (wait i e m).
Proof using.
  intros Hm Hw. split; [now apply MInv_wait |]. split; [easy |]. right. split; [| reflexivity].
  apply total_perm. unfold pending, wait. cbn. rewrite map_app, app_assoc. cbn. symmetry.
  apply Permutation_cons_append.
Qed.

(** A step that only replaces the caches first. *)
Lemma progress_engine e m e1 m' :
  progress e (mkMachine (stack m) (on_stack m) (waitlist m) e1) m' -> progress e m m'.
Proof using. exact (fun H => H). Qed.

Lemma stage0_refines e m :
  MInv (e :: pending m) m -> Entry.stage e = 0%nat ->
  exists m', stage0 (lift_rules bpm) TraversalMode.Full inner (Entry.n e) (Entry.new_n e) m = Some m' /\ progress e m m'.
Proof using HG Hbpm.
  intros Hm He. destruct (minv_entries _ m Hm e (or_introl eq_refl)) as (Gn & On & Hs). rewrite He in Hs.
  rewrite Hs. unfold stage0.
  assert (Hpush : forall w working e1, w = from_option (fun w => w) (Entry.n e) working ->
    descend bpm inner (Entry.n e) = Some (inl w) -> G w -> replace e1 = replace (engine m) ->
    cache_good (bpm_cache e1) ->
    progress e m (push_children TraversalMode.Full (Entry.n e) working (mkMachine (stack m) (on_stack m) (waitlist m) e1))).
  { intros w working e1 Ew Hd Gw Er Hc.
    destruct (good_inv _ _ _ _ _ _ On) as [(g & Hd' & _) | (w' & nx & Hd' & Hx & Hch & _ & Hcost)];
      rewrite Hd in Hd'; [discriminate |]. injection Hd' as <-. apply (progress_engine e m e1).
    set (m1 := mkMachine _ _ _ _). assert (Hm1 : MInv (e :: pending m1) m1) by (now apply MInv_engine).
    destruct (MInv_push_children e m1 w nx working Hm1 He Ew Hd Gw Hx Hch Hcost) as [H1 H2].
    split; [exact H1 |]. split; [| now left]. unfold push_children. cbn.
    pose proof (insert_new_spec (rev (children (from_option (fun w => w) (Entry.n e) working))) (on_stack m)) as Hi.
    destruct (insert_new _ _) as [kids s']. cbn. intros i Hin. apply Hi. now left. }
  assert (exists d, descend bpm inner (Entry.n e) = Some d /\
            match d with inl _ => True | inr g => N (Entry.n e) = Some g end) as (d & Hd & Hg).
  { destruct (good_inv _ _ _ _ _ _ On) as [(g & Hd & Hg) | (w & nx & Hd & _)];
      [now exists (inr g) | now exists (inl w)]. }
  destruct (descend_cases bpm inner (Entry.n e) d Hd) as [[Ef ->] | (f & Ef & Hfix)].
  - rewrite Ef. eexists. split; [reflexivity |].
    apply (Hpush (Entry.n e) None (engine m)); auto. apply (minv_cache _ m Hm).
  - destruct (fixed_point_refines f (Entry.n e) inner ∅ (Entry.n e) None (engine m) d Ef Gn eq_refl (minv_cache _ m Hm) Hfix)
      as (e1 & r & Hf & Er & Hc & Hr). rewrite Ef. cbn [lift_rules option_map from_option]. rewrite Hf.
    destruct d as [w | g].
    + destruct Hr as (Gw & working & -> & Ew). eexists. split; [reflexivity |]. now apply (Hpush w working e1).
    + subst r. eexists. split; [reflexivity |]. apply (progress_engine e m e1), progress_finish; [| exact Hg].
      now apply MInv_engine.
Qed.

Lemma entry_eta e k : Entry.stage e = k -> Entry.mk (Entry.n e) k (Entry.new_n e) = e.
Proof using. intros <-. now destruct e. Qed.

Lemma engine_eta (e : @Engine unit) s : mkEngine (replace e) (bpm_cache e) s = e.
Proof using. destruct e as [r b t], s, t. reflexivity. Qed.

Lemma resolve_spec r l :
  match resolve r l with
  | inl resolved => Forall2 (fun a b => r !! uid a = Some b) l resolved
  | inr i => r !! i = None /\ exists a, In a l /\ uid a = i
  end.
Proof using.
  induction l as [| a l IH]; cbn [resolve]; [constructor |]. destruct (r !! uid a) as [b |] eqn:E.
  - destruct (resolve r l) as [resolved | i]; [now constructor |]. destruct IH as [H1 (x & Hx & Ex)].
    split; [exact H1 |]. exists x. split; [now right | exact Ex].
  - split; [exact E |]. exists a. split; [now left | reflexivity].
Qed.

Lemma stage1_refines e m :
  MInv (e :: pending m) m -> Entry.stage e = 1%nat ->
  exists m', stage1 lift_ws (lift_rules pm) (Entry.n e) (Entry.new_n e) m = Some m' /\ progress e m m'.
Proof using HG Hws Hpm Hbpm.
  intros Hm He. destruct (minv_entries _ m Hm e (or_introl eq_refl)) as (Gn & On & Hs). rewrite He in Hs.
  destruct Hs as (Hd & Gw & Hk). unfold stage1. change (from_option _ _ (Entry.new_n e)) with (Entry.cur e).
  pose proof (resolve_spec (replace (engine m)) (children (Entry.cur e))) as Hres.
  destruct (resolve _ _) as [resolved | i].
  2: { destruct Hres as [Hn (ch & Hch & Ech)]. eexists. split; [reflexivity |].
       rewrite (entry_eta e 1 He).
       apply progress_wait; [exact Hm |]. split; [exact Hn |]. cbn. rewrite He. now exists ch. }
  destruct (good_inv _ _ _ _ _ _ On) as [(g & Hd' & _) | (w & nx & Hd' & Hx & Hch & Hnx & Hcost)];
    rewrite Hd in Hd'; [discriminate |]. injection Hd' as <-.
  assert (Hcs : collect N (children (Entry.cur e)) = Some resolved).
  { apply collect_Some. pose proof (children_G G _ Gw) as Hc. revert Hc. clear - Hres Hm HG.
    induction Hres as [| a b l bs Hab _ IH]; intros Hc; [constructor |]. apply Forall_cons in Hc as [Ha Hl].
    constructor; [| now apply IH]. now apply (minv_replace _ m Hm a b). }
  assert (Hlink : forall v, nx = Some v -> exists m', Some (push (Entry.mk v 0 None) (push (Entry.mk (Entry.n e) 2 (Some v)) m)) = Some m' /\ progress e m m').
  { intros v ->. destruct Hnx as [Ov Ev].
    pose proof (next_G F (Entry.cur e) (Some v)) as Gv. cbn in Gv.
    destruct (MInv_link e m v Hm He) as [H1 H2]; auto.
    - apply Gv; auto. intros n r. apply normalize_G.
    - unfold c; rewrite Hcost. cbn [link_cost]. clear. lia.
    - eexists. split; [reflexivity |]. split; [exact H1 |]. split; [easy | now left]. }
  unfold next in Hx. fold N in Hx. rewrite Hcs in Hx. unfold lift_ws.
  assert (X : (if changed (children (Entry.cur e)) resolved
               then let? (s, node) := let? v := ws (Entry.cur e) resolved in Some (tt, v) in
                    Some (mkEngine (replace (engine m)) (bpm_cache (engine m)) s, node)
               else Some (engine m, Entry.cur e))
              = let? mm := if changed (children (Entry.cur e)) resolved then ws (Entry.cur e) resolved else Some (Entry.cur e) in
                Some (engine m, mm)).
  { destruct (changed _ _); [| reflexivity]. destruct (ws _ _); [| reflexivity].
    now rewrite engine_eta. }
  rewrite X. destruct (if changed _ _ then ws _ _ else _) as [mm |]; [| discriminate].
  assert (Em : mkMachine (stack m) (on_stack m) (waitlist m) (engine m) = m) by now destruct m.
  rewrite Em. destruct (negb (ptr_eq mm (Entry.cur e))); [injection Hx as <-; now apply Hlink |].
  destruct (apply_rule pm (Entry.cur e)) as [r |] eqn:A; [| discriminate]. injection Hx as <-.
  unfold pm_rewrite. destruct (apply_rule_cases pm _ r A) as [[Ef ->] | (f & Ef & Hf & Hne)]; rewrite Ef.
  - cbn [lift_rules option_map]. rewrite Em. eexists. split; [reflexivity |]. now apply progress_finish.
  - cbn [lift_rules option_map]. unfold lift_rule. rewrite Hf, engine_eta.
    destruct r as [| v | g]; [| rewrite (Hne v eq_refl) |]; rewrite Em.
    + eexists. split; [reflexivity |]. now apply progress_finish.
    + now apply Hlink.
    + eexists. split; [reflexivity |]. now apply progress_finish.
Qed.

Lemma stage2_refines e m st :
  MInv (e :: pending m) m -> Entry.stage e = S (S st) ->
  exists m', stage2 (Entry.n e) (Entry.new_n e) m = Some m' /\ progress e m m'.
Proof using HG.
  intros Hm He. destruct (minv_entries _ m Hm e (or_introl eq_refl)) as (Gn & On & Hs). rewrite He in Hs.
  destruct Hs as (E2 & w & Ew & Gw & Ow & En & Hlt & Hk). rewrite <- He in E2.
  unfold stage2. rewrite Ew. destruct (replace (engine m) !! uid w) as [r |] eqn:L.
  - eexists. split; [reflexivity |]. apply progress_finish; [exact Hm |]. rewrite En.
    now apply (minv_replace _ m Hm w r).
  - rewrite <- Ew, (entry_eta e 2 E2). eexists. split; [reflexivity |].
    apply progress_wait; [exact Hm |]. split; [exact L |]. cbn. rewrite E2. now exists w.
Qed.

Lemma iterate_refines e m :
  MInv (e :: pending m) m -> (List.length (stack m) <= REWRITE_STACK_LIMIT)%nat ->
  exists m', iterate lift_ws (lift_rules pm) (lift_rules bpm) TraversalMode.Full inner e m = Some m' /\
    progress e m m'.
Proof using HG Hws Hpm Hbpm.
  intros Hm Hl. unfold iterate. rewrite (proj2 (Nat.ltb_ge _ _) Hl).
  destruct (replace (engine m) !! Entry.id e) as [r |] eqn:L.
  - exists m. split; [reflexivity |]. split; [| split; [easy | left]].
    + apply (MInv_next (e :: pending m) _ m); auto; try apply Hm.
      * intros i. apply known_mono; [| auto]. intros e' [<- | H]; [right; now exists r | now left].
      * intros e' H. left. now right.
    + change (total weight (e :: pending m)) with (weight e + total weight (pending m))%nat.
      pose proof (weight_pos e). clear - H. lia.
  - destruct (Entry.stage e) as [| [| st]] eqn:E; [now apply stage0_refines | now apply stage1_refines |].
    now apply (stage2_refines e m st).
Qed.

(** With nothing on the stack nothing waits: every waiter waits for a node of
    smaller cost. *)
Lemma no_deadlock m : MInv (pending m) m -> stack m = [] -> waitlist m = [].
Proof using HG.
  intros Hm Hs. destruct (waitlist m) as [| p0 w] eqn:E0; [reflexivity | exfalso].
  assert (H : forall k p, In p (waitlist m) -> c (Entry.n p.2) = k -> False).
  { induction k as [k IH] using lt_wf_ind. intros p Hp Hk.
    assert (Hin : forall e, In e (pending m) -> exists p, In p (waitlist m) /\ p.2 = e).
    { unfold pending. rewrite Hs. intros e (q & <- & Hq)%in_map_iff. now exists q. }
    destruct (minv_wait _ m Hm p Hp) as [Hn Hw].
    assert (Hpe : In p.2 (pending m)) by (unfold pending; rewrite Hs; exact (in_map snd _ p Hp)).
    destruct (minv_entries _ m Hm p.2 Hpe) as (Gn & On & He).
    assert (Hdep : forall w, G w -> ok w -> known (pending m) (replace (engine m)) (uid w) -> uid w = p.1 ->
              (c w < c (Entry.n p.2))%nat -> False).
    { intros w' Gw Ow [[r Hr] | (e & He' & Ee)] Eu Hc; [rewrite Eu, Hn in Hr; discriminate |].
      destruct (Hin e He') as (q & Hq & Eq). apply (IH (c w')) with (p := q); [now rewrite <- Hk | exact Hq |].
      f_equal. destruct (minv_entries _ m Hm e He') as (Ge & _). subst e.
      now apply arena_id. }
    destruct (Entry.stage p.2) as [| [| st]]; [exact Hw | |].
    - destruct Hw as (ch & Hch & Ech). destruct He as (Hd & Gw & Hkn).
      destruct (good_inv _ _ _ _ _ _ On) as [(g & Hd' & _) | (w' & nx & Hd' & _ & Hgood & _ & Hcost)];
        rewrite Hd in Hd'; [discriminate |]. injection Hd' as <-.
      apply (Hdep ch); auto.
      + exact (arena_source _ ch Gw Hch).
      + now apply Hgood.
      + unfold c. rewrite Hcost. pose proof (total_in (cost ws pm bpm inner F) _ _ Hch). clear - H. lia.
    - destruct Hw as (v & Ev & Eu). destruct He as (_ & v' & Ev' & Gv & Ov & _ & Hlt & Hkn).
      rewrite Ev in Ev'. injection Ev' as <-. now apply (Hdep v). }
  apply (H (c (Entry.n p0.2)) p0); [| reflexivity]. rewrite E0. now left.
Qed.

Lemma stack_le_total m : (List.length (stack m) <= total weight (pending m))%nat.
Proof using.
  unfold pending. rewrite total_cost_app. assert (H : forall l, (List.length l <= total weight l)%nat).
  { unfold total. induction l as [| e l IH]; cbn; [auto |]. pose proof (weight_pos e). clear - IH H. lia. }
  specialize (H (stack m)). clear - H. lia.
Qed.

Lemma machine_refines K fuel m :
  MInv (pending m) m -> (total weight (pending m) <= K)%nat -> (K <= REWRITE_STACK_LIMIT)%nat ->
  (total weight (pending m) * S K + List.length (stack m) <= fuel)%nat ->
  exists m', run lift_ws (lift_rules pm) (lift_rules bpm) TraversalMode.Full inner fuel m = Some m' /\
    MInv (pending m') m' /\ pending m' = [] /\ on_stack m ⊆ on_stack m'.
Proof using HG Hws Hpm Hbpm.
  intros Hm HK Hlim. revert m Hm HK. induction fuel as [| fuel IH]; intros m Hm HK Hf.
  - destruct (stack m) as [| e s] eqn:Es; [| exfalso; clear - Hf Es; cbn in Hf; lia].
    exists m. cbn [run]. rewrite Es. split_and!; auto. unfold pending. now rewrite Es, (no_deadlock m Hm Es).
  - cbn [run]. destruct (stack m) as [| e s] eqn:Es.
    + exists m. split_and!; auto. unfold pending. now rewrite Es, (no_deadlock m Hm Es).
    + set (m0 := mkMachine s (on_stack m) (waitlist m) (engine m)).
      assert (Ep : pending m = e :: pending m0) by (unfold pending; now rewrite Es).
      assert (Hm0 : MInv (e :: pending m0) m0).
      { rewrite <- Ep. constructor; apply Hm. }
      pose proof (stack_le_total m) as Hst. rewrite Es in Hst. cbn in Hst.
      destruct (iterate_refines e m0 Hm0) as (m1 & -> & Hm1 & Hon & Hpr).
      { cbn. clear - Hst HK Hlim. lia. }
      rewrite Ep in HK, Hf. pose proof (stack_le_total m1) as Hst1.
      destruct (IH m1 Hm1) as (m' & H1 & H2 & H3 & H4).
      * clear - Hpr HK. destruct Hpr as [H | [H _]]; lia.
      * change (List.length (e :: s)) with (S (List.length s)) in Hf. change (stack m0) with s in Hpr.
        revert Hpr HK Hf Hst1. generalize (total weight (e :: pending m0)) as T.
        generalize (total weight (pending m1)) as T1. clear. intros T1 T [H | [-> ->]] HK Hf Hst1; [| lia].
        pose proof (Nat.mul_le_mono_r (S T1) T (S K) H) as Hmul. cbn [Nat.mul] in Hmul. lia.
      * exists m'. split_and!; auto. etransitivity; [exact Hon | exact H4].
Qed.

(** C3: The engine computes the recursive specification.  Whenever [normalize]
    defines a result for the root and the work fits the stack limit, the
    machine terminates with that result, within a number of pops quadratic in
    the work: the sharing through its cache, the order in which entries wait
    for each other and the reuse of results never change the answer, and no
    entry waits forever. *)
Theorem rewrite_refines root r :
  G root -> normalize ws pm bpm inner F root = Some r ->
  (cost ws pm bpm inner F root <= REWRITE_STACK_LIMIT)%nat ->
  rewrite lift_ws (lift_rules pm) (lift_rules bpm) TraversalMode.Full inner
    (S (S (cost ws pm bpm inner F root) * S (cost ws pm bpm inner F root))) root tt = Some (tt, r).
Proof using HG Hws Hpm Hbpm.
  intros Gr Hr Hlim. set (K := cost ws pm bpm inner F root) in *.
  assert (Hinit : MInv (pending (initial root tt)) (initial root tt)).
  { constructor; cbn.
    - intros n x _ H. now rewrite lookup_empty in H.
    - intros n x _ H. now rewrite lookup_empty in H.
    - intros e [<- | []]. split; [exact Gr |]. split; [now exists r | reflexivity].
    - intros i ->%elem_of_singleton. right. exists (Entry.mk root 0 None). split; [now left | reflexivity].
    - intros p []. }
  assert (Hw : total weight (pending (initial root tt)) = K).
  { change (K + 0 = K)%nat. clear. lia. }
  destruct (machine_refines K (S (S K * S K)) (initial root tt) Hinit) as (m & E & Hm & Hp & Hon).
  - now rewrite Hw.
  - exact Hlim.
  - rewrite Hw. cbn. clear. nia.
  - unfold rewrite. rewrite E. rewrite Hp in Hm.
    destruct (minv_on_stack _ m Hm (uid root)) as [[x Hx] | (e & [] & _)].
    { apply Hon. cbn. now apply elem_of_singleton. }
    rewrite Hx. pose proof (minv_replace _ m Hm root x Gr Hx) as Hx'. unfold N in Hx'.
    rewrite Hr in Hx'. injection Hx' as <-. now destruct (ctx (engine m)).
Qed.

(** ** The walk *)

(** Each node once: the bottom-up rule on the node, or the top-down rule on the
    node rebuilt over its walked children; replacements are final. *)
Fixpoint walk (u : UOp) : option UOp :=
  let 'mkUOp _ op _ := u in
  let? r := apply_rule bpm u in
  match r with
  | Rewritten v | Gate v => Some v
  | NoMatch =>
      let? cs := collect (fun o => o) (Op.map_child walk op) in
      let? m := if changed (children u) cs then ws u cs else Some u in
      let? r := apply_rule pm m in
      Some match r with Rewritten v => v | _ => m end
  end.

Lemma walk_eq u :
  walk u =
  let? r := apply_rule bpm u in
  match r with
  | Rewritten v | Gate v => Some v
  | NoMatch =>
      let? cs := collect walk (children u) in
      let? m := if changed (children u) cs then ws u cs else Some u in
      let? r := apply_rule pm m in
      Some match r with Rewritten v => v | _ => m end
  end.
Proof using. destruct u as [i op d]. cbn [walk]. now rewrite map_child_map, collect_map. Qed.

(** Every node to be rebuilt has its children in the cache or above it. *)
Fixpoint walk_stack_ok (r : gmap Z UOp) (above : list UOp) (st : list (UOp * bool)) : Prop :=
  match st with
  | [] => True
  | (n, processed) :: st =>
      (processed = true -> forall ch, In ch (children n) -> In ch above \/ is_Some (r !! uid ch)) /\
      walk_stack_ok r (n :: above) st
  end.

Lemma walk_stack_mono r r' above above' st :
  (forall n, In n above -> In n above' \/ is_Some (r' !! uid n)) ->
  (forall i, is_Some (r !! i) -> is_Some (r' !! i)) ->
  walk_stack_ok r above st -> walk_stack_ok r' above' st.
Proof using.
  intros Ha Hr. revert above above' Ha. induction st as [| [n b] st IH]; intros above above' Ha; [auto |].
  intros [H1 H2]. split.
  - intros Hb ch Hch. destruct (H1 Hb ch Hch) as [H | H]; auto.
  - apply (IH (n :: above)); [| exact H2]. intros m [-> | Hm]; [left; now left |].
    destruct (Ha m Hm); [left; now right | now right].
Qed.

Record WInv (root : UOp) (st : list (UOp * bool)) (e : @Engine unit) : Prop := {
  winv_replace n x : G n -> replace e !! uid n = Some x -> walk n = Some x;
  winv_cache : cache_good (bpm_cache e);
  winv_nodes p : In p st -> G p.1 /\ is_Some (walk p.1) /\ (p.2 = true -> apply_rule bpm p.1 = Some NoMatch);
  winv_stack : walk_stack_ok (replace e) [] st;
  winv_root : is_Some (replace e !! uid root) \/ exists p, In p st /\ p.1 = root
}.

Definition walk_weight (p : UOp * bool) : nat := if p.2 then 1%nat else (2 * List.length (nodes p.1))%nat.

(** The popped node has its result. *)
Lemma WInv_record root n b st e e1 x :
  WInv root ((n, b) :: st) e -> replace e1 = replace e -> cache_good (bpm_cache e1) -> walk n = Some x ->
  WInv root st (record_replace (uid n) x e1).
Proof using HG.
  intros Hi Er Hc Hx. destruct (winv_nodes _ _ _ Hi (n, b) (or_introl eq_refl)) as (Gn & _ & _). cbn in Gn.
  assert (Hm : forall i, is_Some (replace e !! i) -> is_Some (<[uid n := x]> (replace e) !! i)).
  { intros i H. destruct (decide (uid n = i)) as [<- | Hne]; [rewrite lookup_insert_eq; now exists x |].
    now rewrite lookup_insert_ne. }
  constructor; cbn; rewrite ?Er.
  - intros m y Gm [[E <-] | [_ H]]%lookup_insert_Some; [| now apply (winv_replace _ _ _ Hi)].
    now rewrite <- (arena_id n m Gn Gm E).
  - exact Hc.
  - intros p Hp. apply (winv_nodes _ _ _ Hi). now right.
  - destruct (winv_stack _ _ _ Hi) as [_ H]. revert H. apply walk_stack_mono; [| exact Hm].
    intros m [<- | []]. right. rewrite lookup_insert_eq. now exists x.
  - destruct (winv_root _ _ _ Hi) as [H | (p & [<- | Hp] & E)]; [left; now apply Hm | left | right; now exists p].
    cbn in E. subst. rewrite lookup_insert_eq. now exists x.
Qed.

Lemma nodes_weight n : (2 * List.length (nodes n) = 2 + total (fun ch => 2 * List.length (nodes ch)) (children n))%nat.
Proof using.
  rewrite nodes_eq. cbn [List.length]. induction (children n) as [| ch l IH]; [reflexivity |].
  cbn [map concat]. rewrite length_app. unfold total in *. cbn [fold_right]. lia.
Qed.

Lemma total_filter {A} (f : A -> nat) (P : A -> Prop) {HP : forall x, Decision (P x)} l :
  (total f (filter P l) <= total f l)%nat.
Proof using.
  unfold total. induction l as [| a l IH]; [auto |]. rewrite filter_cons. cbn [fold_right].
  destruct (decide (P a)); cbn [fold_right]; lia.
Qed.

Lemma bpm_once n e res :
  G n -> cache_good (bpm_cache e) -> apply_rule bpm n = Some res ->
  exists e1, match lift_rules bpm with
             | None => Some (e, inl None)
             | Some f => cached_bpm_rewrite f n e
             end = Some (e1, bpm_result res) /\ replace e1 = replace e /\ cache_good (bpm_cache e1).
Proof using HG.
  intros Gn Hc A. destruct (apply_rule_cases bpm n res A) as [[Ef ->] | (f & Ef & _)].
  - exists e. rewrite Ef. auto.
  - destruct (cached_bpm_refines f n e res Ef Gn Hc A) as (e1 & H & H'). exists e1.
    rewrite Ef. split; [exact H | exact H'].
Qed.

Lemma pm_once n e res :
  apply_rule pm n = Some res ->
  pm_rewrite (lift_rules pm) n e = Some (e, match res with Rewritten v => Some v | _ => None end).
Proof using.
  intros A. unfold pm_rewrite. destruct (apply_rule_cases pm n res A) as [[Ef ->] | (f & Ef & Hf & Hne)]; rewrite Ef.
  - reflexivity.
  - cbn [lift_rules option_map]. unfold lift_rule. rewrite Hf, engine_eta.
    destruct res as [| v | g]; [reflexivity | now rewrite (Hne v eq_refl) | reflexivity].
Qed.

Lemma walk_skip root n b st e :
  WInv root ((n, b) :: st) e -> is_Some (replace e !! uid n) -> WInv root st e.
Proof using.
  intros Hi Hn. constructor; try apply Hi.
  - intros p Hp. apply (winv_nodes _ _ _ Hi). now right.
  - destruct (winv_stack _ _ _ Hi) as [_ H]. revert H. apply walk_stack_mono; [| auto].
    intros m [<- | []]. now right.
  - destruct (winv_root _ _ _ Hi) as [H | (p & [<- | Hp] & E)]; [now left | left | right; now exists p].
    cbn in E. now subst.
Qed.

(** A node no bottom-up rule applies to makes room for its children. *)
Lemma walk_expand root n st e e1 :
  WInv root ((n, false) :: st) e -> replace e1 = replace e -> cache_good (bpm_cache e1) ->
  apply_rule bpm n = Some NoMatch ->
  let kids := filter (fun ch => replace e1 !! uid ch = None) (children n) in
  WInv root (map (fun ch => (ch, false)) kids ++ (n, true) :: st) e1.
Proof using HG.
  intros Hi Er Hc A. cbv zeta. rewrite Er. destruct (winv_nodes _ _ _ Hi (n, false) (or_introl eq_refl)) as (Gn & [x Hx] & _).
  cbn [fst] in *. rewrite walk_eq, A in Hx. destruct (collect walk (children n)) as [cs |] eqn:C; [| discriminate].
  set (kids := filter _ _).
  assert (Hkids : forall ch, In ch kids -> In ch (children n)).
  { intros ch H. apply list_elem_of_In, list_elem_of_filter in H as [_ H]. now apply list_elem_of_In. }
  constructor; rewrite ?Er; try apply Hi.
  - exact Hc.
  - intros p [(ch & <- & H)%in_map_iff | [<- | H]]%in_app_or; [| | apply (winv_nodes _ _ _ Hi); now right].
    + split; [exact (arena_source n ch Gn (Hkids ch H)) |]. split; [| discriminate].
      exact (collect_is_some walk _ _ ch C (Hkids ch H)).
    + split; [exact Gn |]. split; [| intros _; exact A]. cbn [fst]. rewrite walk_eq, A, C. now exists x.
  - destruct (winv_stack _ _ _ Hi) as [_ Hst].
    assert (Hin : forall ch, In ch (children n) -> In ch kids \/ is_Some (replace e !! uid ch)).
    { intros ch H. destruct (replace e !! uid ch) as [y |] eqn:L; [right; now exists y | left].
      apply list_elem_of_In, list_elem_of_filter. split; [exact L | now apply list_elem_of_In]. }
    clearbody kids. clear C Hkids. generalize (@nil UOp) as above. intros above.
    assert (Hgen : forall kids' above', (forall ch, In ch kids -> In ch kids' \/ In ch above') ->
      walk_stack_ok (replace e) above' (map (fun ch => (ch, false)) kids' ++ (n, true) :: st)).
    { induction kids' as [| ch kids' IH]; intros above' Hk; cbn [map app walk_stack_ok].
      - split; [| revert Hst; apply walk_stack_mono; auto; intros m [<- | []]; left; now left].
        intros _ ch Hch. destruct (Hin ch Hch) as [H | H]; [left | now right]. now destruct (Hk ch H).
      - split; [discriminate |]. apply IH. intros ch' H. destruct (Hk ch' H) as [[-> | H'] | H'];
          [right; now left | now left | right; now right]. }
    apply Hgen. now left.
  - destruct (winv_root _ _ _ Hi) as [H | (p & [<- | Hp] & E)]; [now left | right | right].
    + exists (n, true). split; [apply in_or_app; right; now left | exact E].
    + exists p. split; [apply in_or_app; right; now right | exact E].
Qed.

Lemma walk_iterate_refines root n b st e :
  WInv root ((n, b) :: st) e -> (List.length st <= REWRITE_STACK_LIMIT)%nat ->
  exists st' e', walk_iterate lift_ws (lift_rules pm) (lift_rules bpm) TraversalMode.Full n b st e = Some (st', e') /\
    WInv root st' e' /\ (total walk_weight st' < total walk_weight ((n, b) :: st))%nat.
Proof using HG.
  intros Hi Hl. pose proof (winv_nodes _ _ _ Hi (n, b) (or_introl eq_refl)) as (Gn & [x Hx] & Hb). cbn [fst snd] in *.
  assert (Hw : (total walk_weight st < total walk_weight ((n, b) :: st))%nat).
  { change (total walk_weight st < walk_weight (n, b) + total walk_weight st)%nat. unfold walk_weight at 2.
    cbn [fst snd]. rewrite nodes_eq. destruct b; cbn [List.length]; lia. }
  unfold walk_iterate. rewrite (proj2 (Nat.ltb_ge _ _) Hl).
  destruct (replace e !! uid n) as [r |] eqn:L.
  { exists st, e. split; [reflexivity |]. split; [| exact Hw]. apply (walk_skip root n b st e Hi). rewrite L. now exists r. }
  destruct b; cbn [negb].
  - specialize (Hb eq_refl). pose proof Hx as Hx'. rewrite walk_eq, Hb in Hx'. destruct (winv_stack _ _ _ Hi) as [Hch _].
    specialize (Hch eq_refl). set (new_src := map _ (children n)).
    assert (C : collect walk (children n) = Some new_src).
    { apply collect_Some. unfold new_src. apply Forall2_fmap_r, Forall_Forall2_diag, List.Forall_forall.
      intros ch H. destruct (Hch ch H) as [[] | [y Hy]]. cbn. rewrite Hy. cbn.
      apply (winv_replace _ _ _ Hi); [exact (arena_source n ch Gn H) | exact Hy]. }
    rewrite C in Hx'. destruct (if changed _ _ then ws _ _ else _) as [m |] eqn:M; [| discriminate].
    destruct (apply_rule pm m) as [res |] eqn:A; [| discriminate]. injection Hx' as <-.
    assert (E : (if changed (children n) new_src
                 then let? (s, node) := lift_ws n new_src (ctx e) in
                      Some (mkEngine (replace e) (bpm_cache e) s, node) else Some (e, n)) = Some (e, m)).
    { destruct (changed _ _); [| now injection M as <-]. unfold lift_ws. now rewrite M, engine_eta. }
    rewrite E, (pm_once m e res A). exists st. eexists. split; [reflexivity |]. split; [| exact Hw].
    apply (WInv_record root n true st e e); auto; [apply Hi |]. rewrite Hx. f_equal. now destruct res.
  - pose proof Hx as Hx'. rewrite walk_eq in Hx'. destruct (apply_rule bpm n) as [res |] eqn:A; [| discriminate].
    destruct (bpm_once n e res Gn (winv_cache _ _ _ Hi) A) as (e1 & -> & Er & Hc).
    destruct res as [| v | g]; cbn [bpm_result].
    + cbn [traversal_children fold_left]. eexists. eexists. split; [reflexivity |].
      split; [now apply (walk_expand root n st e e1) |]. rewrite total_cost_app, total_map.
      change (total (fun a => walk_weight (a, false)) ?l) with (total (fun ch => 2 * List.length (nodes ch))%nat l).
      change (total walk_weight ((n, ?b) :: st)) with (walk_weight (n, b) + total walk_weight st)%nat.
      change (walk_weight (n, false)) with (2 * List.length (nodes n))%nat. rewrite nodes_weight.
      pose proof (total_filter (fun ch => 2 * List.length (nodes ch))%nat (fun ch => replace e1 !! uid ch = None) (children n)) as H.
      change (walk_weight (n, true)) with 1%nat. clear - H. lia.
    + exists st. eexists. split; [reflexivity |]. split; [| exact Hw].
      injection Hx' as <-. apply (WInv_record root n false st e e1); assumption.
    + exists st. eexists. split; [reflexivity |]. split; [| exact Hw].
      injection Hx' as <-. apply (WInv_record root n false st e e1); assumption.
Qed.

Lemma walk_run_refines root fuel st e :
  WInv root st e -> (total walk_weight st <= fuel)%nat -> (total walk_weight st <= REWRITE_STACK_LIMIT)%nat ->
  exists e', walk_run lift_ws (lift_rules pm) (lift_rules bpm) TraversalMode.Full fuel st e = Some e' /\ WInv root [] e'.
Proof using HG.
  assert (Hlen : forall st, (List.length st <= total walk_weight st)%nat).
  { unfold total. induction st0 as [| [n b] st0 IH]; cbn [List.length fold_right]; [auto |].
    unfold walk_weight at 1. cbn [fst snd]. rewrite nodes_eq. destruct b; cbn [List.length]; lia. }
  revert st e. induction fuel as [| fuel IH]; intros [| [n b] st] e Hi Hf Hlim; try (exists e; split; [reflexivity | exact Hi]).
  - specialize (Hlen ((n, b) :: st)). cbn [List.length] in Hlen. clear - Hlen Hf. lia.
  - pose proof (Hlen ((n, b) :: st)) as Hl. cbn [List.length] in Hl. cbn [walk_run].
    destruct (walk_iterate_refines root n b st e Hi) as (st' & e' & -> & Hi' & Hw); [clear - Hl Hlim; lia |].
    apply IH; [exact Hi' | clear - Hw Hf; lia | clear - Hw Hlim; lia].
Qed.

(** The walk computes its recursive definition: every node is visited
    once however often it is shared, the children of a replacement never, and
    the traversal of an acyclic graph terminates. *)
Theorem walk_refines root r :
  G root -> walk root = Some r -> (2 * List.length (nodes root) <= REWRITE_STACK_LIMIT)%nat ->
  walk_rewrite lift_ws (lift_rules pm) (lift_rules bpm) TraversalMode.Full
    (2 * List.length (nodes root)) root tt = Some (tt, r).
Proof using HG.
  intros Gr Hr Hlim. unfold walk_rewrite.
  assert (Hi : WInv root [(root, false)] (mkEngine ∅ ∅ tt)).
  { constructor; cbn.
    - intros n x _ H. now rewrite lookup_empty in H.
    - intros n x _ H. now rewrite lookup_empty in H.
    - intros p [<- | []]. split; [exact Gr |]. split; [now exists r | discriminate].
    - split; [discriminate | exact I].
    - right. exists (root, false). split; [now left | reflexivity]. }
  assert (Hw : total walk_weight [(root, false)] = (2 * List.length (nodes root))%nat).
  { change (walk_weight (root, false) + 0 = 2 * List.length (nodes root))%nat. unfold walk_weight. cbn [fst snd]. lia. }
  destruct (walk_run_refines root (2 * List.length (nodes root)) _ _ Hi) as (e & -> & He); [now rewrite Hw .. |].
  destruct (winv_root _ _ _ He) as [[x Hx] | (p & [] & _)].
  pose proof (winv_replace _ _ _ He root x Gr Hx) as Hx'. rewrite Hr in Hx'. injection Hx' as <-.
  rewrite Hx. now destruct (ctx e).
Qed.
End Refinement.

(** ** Double negation removed from [- - a + - - a] *)
Module Demo.
Definition i32 : DType := DType.Scalar Int32.
Definition a : UOp := mkUOp 0 (Op.Const UOp (ConstValue.Int 5)) i32.
Definition na : UOp := mkUOp 1 (Op.Unary UOp UnaryOp.Neg a) i32.
Definition nna : UOp := mkUOp 2 (Op.Unary UOp UnaryOp.Neg na) i32.
Definition root : UOp := mkUOp 3 (Op.Binary UOp BinaryOp.Add nna nna) i32.
Definition sum : UOp := mkUOp 4 (Op.Binary UOp BinaryOp.Add a a) i32.
Definition G (u : UOp) : Prop := In u [a; na; nna; root; sum].

Instance arena : Arena G.
Proof.
  split.
  - intros u v Hu Hv. repeat (destruct Hu as [<- | Hu]); [.. | destruct Hu]; unfold source in Hv; cbn in Hv;
      repeat (destruct Hv as [<- | Hv]); try (destruct Hv); unfold G; cbn; tauto.
  - intros u v Hu Hv. repeat (destruct Hu as [<- | Hu]); [.. | destruct Hu];
      repeat (destruct Hv as [<- | Hv]); try (destruct Hv); cbn; intros E; first [reflexivity | discriminate E].
Qed.

Definition ws (u : UOp) (l : list UOp) : option UOp :=
  if (uid u =? 3) && bool_decide (map uid l = [0; 0]) then Some sum else None.
Definition double_neg (u : UOp) : RewriteResult :=
  match uop_op u with
  | Op.Unary _ UnaryOp.Neg v =>
      match uop_op v with Op.Unary _ UnaryOp.Neg x => Rewritten x | _ => NoMatch end
  | _ => NoMatch
  end.
Definition r0 : env := mkEnv (fun _ => 0) (fun _ => 0%nat).
Definition same (u v : UOp) : Prop := denote (M := demo_libm) r0 u = denote (M := demo_libm) r0 v.

Instance same_preorder : PreOrder same.
Proof. split; [now intros u | intros u v w; unfold same; congruence]. Qed.

Lemma ws_spec u l v : G u -> ws u l = Some v -> u = root /\ v = sum.
Proof.
  unfold ws. intros Hu H. destruct (uid u =? 3) eqn:E; [| discriminate]. cbn [andb] in H.
  destruct (bool_decide _); [| discriminate]. injection H as <-. split; [| reflexivity].
  apply Z.eqb_eq in E. apply (arena_id (G := G)); [exact Hu | right; right; right; now left | exact E].
Qed.

Lemma double_neg_spec u v :
  G u -> double_neg u = Rewritten v \/ double_neg u = Gate v -> u = nna /\ v = a.
Proof.
  intros Hu H. repeat (destruct Hu as [<- | Hu]); [.. | destruct Hu]; destruct H as [H | H];
    try discriminate H. now injection H as <-.
Qed.
End Demo.
#[local] Existing Instance Demo.arena.
#[local] Existing Instance Demo.same_preorder.

Lemma graph_rewrite_sound_witness :
  Demo.G Demo.sum /\ Demo.same Demo.root Demo.sum.
Proof.
  apply (graph_rewrite_sound (lift_ws Demo.ws) (lift_rules (Some Demo.double_neg)) None
           TraversalMode.Full Demo.G Demo.same) with (inner := 1%nat) (fuel := 40%nat) (s := tt) (s' := tt).
  - intros u srcs s s' v Hu _ H. unfold lift_ws in H. destruct (Demo.ws u srcs) eqn:E; [| discriminate].
    injection H as <- <-. apply Demo.ws_spec in E as [-> ->]; [| exact Hu].
    split; [do 4 right; now left | reflexivity].
  - intros f u s s' v Hf Hu H. injection Hf as <-. unfold lift_rule in H.
    destruct (Demo.double_neg_spec u v Hu) as [-> ->]; [| split; [now left | reflexivity]].
    destruct H as [H | H]; injection H as _ H; auto.
  - intros f u s s' v Hf. discriminate Hf.
  - do 3 right. now left.
  - left. reflexivity.
Defined.

Lemma rewrite_refines_witness :
  rewrite (lift_ws Demo.ws) (lift_rules (Some Demo.double_neg)) (lift_rules None) TraversalMode.Full 1
    (S (S (cost Demo.ws (Some Demo.double_neg) None 1 8 Demo.root)
        * S (cost Demo.ws (Some Demo.double_neg) None 1 8 Demo.root))) Demo.root tt = Some (tt, Demo.sum).
Proof.
  apply (rewrite_refines Demo.ws (Some Demo.double_neg) None 1 8 Demo.G).
  - intros u l v Hu _ H. apply Demo.ws_spec in H as [-> ->]; [| exact Hu]. do 4 right. now left.
  - intros f u v Hf Hu H. injection Hf as <-. destruct (Demo.double_neg_spec u v Hu H) as [-> ->]. now left.
  - intros f u v Hf. discriminate Hf.
  - do 3 right. now left.
  - reflexivity.
  - apply Nat.leb_le. vm_compute. reflexivity.
Defined.

Lemma walk_refines_witness :
  walk_rewrite (lift_ws Demo.ws) (lift_rules (Some Demo.double_neg)) (lift_rules None) TraversalMode.Full
    (2 * List.length (nodes Demo.root)) Demo.root tt = Some (tt, Demo.sum).
Proof.
  apply (walk_refines Demo.ws (Some Demo.double_neg) None Demo.G).
  - do 3 right. now left.
  - reflexivity.
  - apply Nat.leb_le. vm_compute. reflexivity.
Defined.
