(* ===== verification/CachedProperty.v ===== *)
(** * Cached graph properties ([ir/src/uop/cached_property.rs])

    [CachedProperty::get] fills per-node cells bottom-up.  The body of a
    property is a program that may read the property of other nodes; the cells
    of one property are a map from identities.  [get] recurses through the
    reads of a body, so it runs on fuel: the theorem says that a depth of two is
    always enough, whatever the depth of the graph. *)

From stdpp Require Import relations gmap.
From S2P Require Import Prelude F64 DType Cast ConstVal Ops Payload UOp Traverse.

(** A [compute] body: it returns, or reads the property of a node. *)
Inductive prog (V : Type) :=
| Ret (v : V)
| Get (u : UOp) (k : V -> prog V).
Arguments Ret {V} v.
Arguments Get {V} u k.

(** The value of a body when the property is a known function. *)
Fixpoint pure {V} (val : UOp -> V) (p : prog V) : V :=
  match p with Ret v => v | Get u k => pure val (k (val u)) end.

(** Reads the property of every node of a list, accumulating. *)
Fixpoint read_all {V A} (l : list UOp) (step : A -> UOp -> V -> A) (acc : A) (k : A -> prog V)
    : prog V :=
  match l with
  | [] => k acc
  | u :: l => Get u (fun v => read_all l step (step acc u v) k)
  end.

Lemma pure_read_all {V A} (val : UOp -> V) l (step : A -> UOp -> V -> A) acc k :
  pure val (read_all l step acc k) = pure val (k (fold_left (fun a u => step a u (val u)) l acc)).
Proof. revert acc. induction l as [| u l IH]; intros acc; cbn; auto. Qed.

(** [w] occurs strictly below [u]. *)
Definition below (u w : UOp) : Prop := exists c, source u c /\ occurs c w.

(** A body reads only nodes below its own. *)
Fixpoint reads_below {V} (u : UOp) (p : prog V) : Prop :=
  match p with Ret _ => True | Get w k => below u w /\ forall v, reads_below u (k v) end.

Lemma source_below u c : source u c -> below u c.
Proof. intros H. exists c. split; [exact H | constructor]. Qed.

Lemma reads_below_all {V A} u l (step : A -> UOp -> V -> A) acc k :
  (forall w, In w l -> below u w) -> (forall a, reads_below u (k a)) ->
  reads_below u (read_all l step acc k).
Proof.
  intros Hl Hk. revert acc. induction l as [| w l IH]; intros acc; cbn; [apply Hk |].
  split; [apply Hl; now left |]. intros v. apply IH. intros w' Hw. apply Hl. now right.
Qed.

(** ** The naive recursion

    The value of a property by plain recursion, without cells: [compute] with
    every read recomputed.  The size of the graph bounds its depth. *)
Section Value.
Context {V : Type} `{!Inhabited V} (compute : UOp -> prog V).

Fixpoint value_at (fuel : nat) (u : UOp) : V :=
  match fuel with O => inhabitant | S fuel => pure (value_at fuel) (compute u) end.
Definition value (u : UOp) : V := value_at (List.length (nodes u)) u.

Context (compute_below : forall u, reads_below u (compute u)).

Lemma below_size u w : below u w -> (List.length (nodes w) < List.length (nodes u))%nat.
Proof. intros (c & Hc%source_size & Ho%occurs_size). lia. Qed.

Lemma pure_ext (f g : UOp -> V) u p :
  (forall w, below u w -> f w = g w) -> reads_below u p -> pure f p = pure g p.
Proof.
  intros H. induction p as [v | w k IH]; cbn; [reflexivity |]. intros [Hw Hk].
  rewrite (H w Hw). apply IH, Hk.
Qed.

Lemma value_at_stable n m u :
  (List.length (nodes u) <= n)%nat -> (List.length (nodes u) <= m)%nat ->
  value_at n u = value_at m u.
Proof using compute_below.
  revert m u. induction n as [| n IH]; intros [| m] u Hn Hm;
    try (rewrite nodes_eq in *; cbn in *; lia).
  cbn [value_at]. apply (pure_ext _ _ u); [| apply compute_below].
  intros w Hw%below_size. apply IH; lia.
Qed.

(** The defining equation of the property. *)
Lemma value_eq u : value u = pure value (compute u).
Proof using compute_below.
  assert (E : value u = value_at (S (List.length (nodes u))) u)
    by (apply value_at_stable; lia).
  rewrite E. cbn [value_at]. apply (pure_ext _ _ u); [| apply compute_below].
  intros w Hw%below_size. apply value_at_stable; lia.
Qed.

(** Any function that satisfies the equation is the property. *)
Lemma value_unique f u : (forall u, f u = pure f (compute u)) -> value u = f u.
Proof using compute_below.
  intros Hf. assert (K : forall n u, (List.length (nodes u) <= n)%nat -> value u = f u).
  { induction n as [| n IH]; intros w Hw; [rewrite nodes_eq in Hw; cbn in Hw; lia |].
    rewrite value_eq, Hf. apply (pure_ext _ _ w); [| apply compute_below].
    intros x Hx%below_size. apply IH. lia. }
  exact (K _ u (le_n _)).
Qed.
End Value.

Section Get.
Context {V : Type} (compute : UOp -> prog V).
Abbreviation cells := (gmap Z V).

Definition is_cached (cache : cells) (u : UOp) : bool := bool_decide (is_Some (cache !! uid u)).

(** Running a body: every read goes through [get], which may fill cells. *)
Fixpoint exec (get : UOp -> cells -> option (V * cells)) (p : prog V) (cache : cells)
    : option (V * cells) :=
  match p with
  | Ret v => Some (v, cache)
  | Get u k => let? (v, cache) := get u cache in exec get (k v) cache
  end.

(** [OnceLock::get_or_init]. *)
Definition get_or_init (get : UOp -> cells -> option (V * cells)) (node : UOp) (cache : cells)
    : option (V * cells) :=
  match cache !! uid node with
  | Some v => Some (v, cache)
  | None => let? (v, cache) := exec get (compute node) cache in Some (v, <[uid node := v]> cache)
  end.

Fixpoint init_all (get : UOp -> cells -> option (V * cells)) (l : list UOp) (cache : cells)
    : option cells :=
  match l with
  | [] => Some cache
  | node :: l => let? (_, cache) := get_or_init get node cache in init_all get l cache
  end.

(** [CachedProperty::get]: the cell, the warm-children path, or the filtered
    toposort.  [None] is the panic on a cell left empty, or no fuel. *)
Fixpoint get (fuel : nat) (uop : UOp) (cache : cells) : option (V * cells) :=
  match fuel with
  | O => None
  | S fuel =>
      match cache !! uid uop with
      | Some v => Some (v, cache)
      | None =>
          if forallb (is_cached cache) (children uop) then get_or_init (get fuel) uop cache
          else
            let uncached := toposort_filtered (fun node => negb (is_cached cache node)) uop in
            let? cache := init_all (get fuel) uncached cache in
            let? v := cache !! uid uop in
            Some (v, cache)
      end
  end.

(** ** Correctness *)
Section Correct.
Context `{!Inhabited V} (compute_below : forall u, reads_below u (compute u)).
Abbreviation val := (value compute).
Context (G : UOp -> Prop) `{!Arena G}.

(** Cells hold the value of their node, and a cell is filled after those of
    the node's sources. *)
Record cache_ok (cache : cells) : Prop := {
  cell_value n v : G n -> cache !! uid n = Some v -> v = val n;
  cell_closed n c : G n -> source n c -> is_Some (cache !! uid n) -> is_Some (cache !! uid c)
}.

Lemma cache_ok_empty : cache_ok ∅.
Proof.
  split; intros n.
  - intros v _ H. rewrite lookup_empty in H. discriminate.
  - intros c _ _ [v H]. rewrite lookup_empty in H. discriminate.
Qed.

Lemma cache_occurs cache n w :
  cache_ok cache -> G n -> is_Some (cache !! uid n) -> occurs n w -> is_Some (cache !! uid w).
Proof using Arena0.
  intros Hc Hn Hs H. induction H as [| n m w Hm _ IH]; [exact Hs |].
  apply IH; [exact (arena_source n m Hn Hm) | exact (cell_closed cache Hc n m Hn Hm Hs)].
Qed.

Lemma exec_hits cache u p fuel :
  cache_ok cache -> G u -> (forall w, below u w -> is_Some (cache !! uid w)) ->
  reads_below u p -> exec (get (S fuel)) p cache = Some (pure val p, cache).
Proof using Arena0.
  intros Hc Gu Hw. induction p as [v | w k IH]; cbn [exec pure]; [reflexivity |].
  intros [Hb Hk]. cbn [get]. destruct (Hw w Hb) as [v Ev]. rewrite Ev.
  assert (Gw : G w).
  { destruct Hb as (c & Hcs & Ho). exact (arena_occurs G c w (arena_source u c Gu Hcs) Ho). }
  rewrite <- (cell_value cache Hc w v Gw Ev). apply IH, Hk.
Qed.

Lemma below_cached cache u :
  cache_ok cache -> G u -> (forall c, source u c -> is_Some (cache !! uid c)) ->
  forall w, below u w -> is_Some (cache !! uid w).
Proof using Arena0.
  intros Hc Gu Hs w (c & Huc & Ho).
  exact (cache_occurs cache c w Hc (arena_source u c Gu Huc) (Hs c Huc) Ho).
Qed.

Lemma cache_ok_insert cache u :
  cache_ok cache -> G u -> (forall c, source u c -> is_Some (cache !! uid c)) ->
  cache_ok (<[uid u := val u]> cache).
Proof using Arena0.
  intros [HV HC] Gu Hs. split.
  - intros n v Gn. destruct (decide (uid n = uid u)) as [E | E].
    + rewrite E, lookup_insert_eq, (arena_id n u Gn Gu E). congruence.
    + rewrite lookup_insert_ne by congruence. now apply HV.
  - intros n c Gn Hnc Hn. destruct (decide (uid c = uid u)) as [E | E].
    + rewrite E, lookup_insert_eq. eauto.
    + rewrite lookup_insert_ne by congruence. destruct (decide (uid n = uid u)) as [En | En].
      * rewrite (arena_id n u Gn Gu En) in Hnc. now apply Hs.
      * rewrite lookup_insert_ne in Hn by congruence. now apply (HC n).
Qed.

(** What one initialisation does to the cells. *)
Lemma get_or_init_ok cache u fuel :
  cache_ok cache -> G u -> (forall c, source u c -> is_Some (cache !! uid c)) ->
  exists cache', get_or_init (get (S fuel)) u cache = Some (val u, cache')
    /\ cache' = <[uid u := val u]> cache /\ cache_ok cache'.
Proof using All.
  intros Hc Gu Hs. unfold get_or_init. destruct (cache !! uid u) as [v |] eqn:E.
  - rewrite (cell_value cache Hc u v Gu E) in E |- *. exists cache.
    rewrite insert_id by assumption. auto.
  - rewrite (exec_hits cache u) by eauto using below_cached. rewrite <- value_eq by exact compute_below.
    eexists. split; [reflexivity |]. split; [reflexivity |]. now apply cache_ok_insert.
Qed.

(** The cells a run may add. *)
Definition extends (u : UOp) (cache cache' : cells) : Prop :=
  cache ⊆ cache'
  /\ forall i, cache' !! i <> cache !! i -> exists n, occurs u n /\ uid n = i.

Lemma init_all_ok fuel l cache :
  cache_ok cache -> Forall G l ->
  (forall l1 n l2 c, l = l1 ++ n :: l2 -> source n c -> is_Some (cache !! uid c) \/ In c l1) ->
  exists cache', init_all (get (S fuel)) l cache = Some cache' /\ cache_ok cache'
    /\ (forall i v, cache !! i = Some v -> cache' !! i = Some v)
    /\ (forall i, cache' !! i <> cache !! i -> exists n, In n l /\ uid n = i)
    /\ (forall n, In n l -> cache' !! uid n = Some (val n)).
Proof using All.
  revert cache. induction l as [| n l IH]; intros cache Hc Gl Hl.
  - exists cache. cbn. firstorder.
  - apply Forall_cons in Gl as [Gn Gl].
    assert (Hn : forall c, source n c -> is_Some (cache !! uid c)).
    { intros c Hs. destruct (Hl [] n l c eq_refl Hs) as [H | []]. exact H. }
    destruct (get_or_init_ok cache n fuel Hc Gn Hn) as (cache1 & E & -> & Hc1).
    destruct (IH (<[uid n := val n]> cache) Hc1 Gl) as (cache' & E' & Hc' & Hk & Hd & Hv).
    { intros l1 m l2 c El Hs. destruct (Hl (n :: l1) m l2 c) as [H | [<- | H]].
      - cbn. now rewrite El.
      - exact Hs.
      - left. destruct (decide (uid c = uid n)) as [-> | Ne].
        + rewrite lookup_insert_eq. eauto.
        + now rewrite lookup_insert_ne by congruence.
      - left. rewrite lookup_insert_eq. eauto.
      - now right. }
    assert (Same : forall i v, cache !! i = Some v -> (<[uid n := val n]> cache) !! i = Some v).
    { intros i v Hi. destruct (decide (i = uid n)) as [-> | Ne].
      - rewrite lookup_insert_eq. f_equal. symmetry. exact (cell_value cache Hc n v Gn Hi).
      - now rewrite lookup_insert_ne by congruence. }
    exists cache'. cbn [init_all]. rewrite E. split; [exact E' |]. split; [exact Hc' |].
    split; [auto |]. split.
    + intros i Hi. destruct (decide (i = uid n)) as [-> | Ne]; [exists n; cbn; auto |].
      destruct (Hd i) as (m & Hm & Em); [rewrite lookup_insert_ne by congruence; exact Hi |].
      exists m. cbn. auto.
    + intros m [<- | Hm]; [apply Hk, lookup_insert_eq | now apply Hv].
Qed.

Lemma gate_uncached cache n :
  negb (is_cached cache n) = true <-> cache !! uid n = None.
Proof.
  unfold is_cached. rewrite negb_true_iff, bool_decide_eq_false. split.
  - now intros H%eq_None_not_Some.
  - intros -> [? ?]. discriminate.
Qed.

(** [get] returns the value of the node after at most one level of recursion,
    and fills only cells of nodes below it. *)
Lemma get_spec u cache fuel :
  cache_ok cache -> G u ->
  exists cache', get (S (S fuel)) u cache = Some (val u, cache')
    /\ cache_ok cache' /\ cache' !! uid u = Some (val u) /\ extends u cache cache'.
Proof using All.
  intros Hc Gu. set (f := S fuel). cbn [get]. destruct (cache !! uid u) as [v |] eqn:Eu.
  { rewrite (cell_value cache Hc u v Gu Eu) in Eu |- *. exists cache. split; [reflexivity |].
    split; [exact Hc |]. split; [exact Eu |]. split; [reflexivity | contradiction]. }
  destruct (forallb (is_cached cache) (children u)) eqn:W.
  - assert (Hs : forall c, source u c -> is_Some (cache !! uid c)).
    { intros c Hs. rewrite forallb_forall in W. specialize (W c Hs).
      now apply bool_decide_eq_true in W. }
    destruct (get_or_init_ok cache u fuel Hc Gu Hs) as (cache' & E & -> & Hc').
    exists (<[uid u := val u]> cache). split; [exact E |]. split; [exact Hc' |].
    split; [apply lookup_insert_eq |]. split; [now apply insert_subseteq |].
    intros i Hi. exists u. split; [constructor |]. destruct (decide (uid u = i)); [assumption |].
    now rewrite lookup_insert_ne in Hi by congruence.
  - clear W. set (gate := fun node => negb (is_cached cache node)).
    pose proof (postorder_topological children gate (fun _ _ H => H) G u Gu) as [_ T Src].
    change (postorder children gate u) with (toposort_filtered gate u) in *.
    set (l := toposort_filtered gate u) in *.
    assert (Occ : forall n, In n l -> occurs u n).
    { intros n Hn. apply T in Hn as [_ Hn].
      exact (gated_occurs children gate (fun _ _ H => H) u n Hn). }
    destruct (init_all_ok fuel l cache Hc) as (cache' & E & Hc' & Hk & Hd & Hv).
    { apply List.Forall_forall. intros n Hn. exact (arena_occurs G u n Gu (Occ n Hn)). }
    { intros l1 n l2 c El Hnc. destruct (cache !! uid c) as [v |] eqn:Ec; [eauto |]. right.
      apply (Src l1 n l2 c El Hnc). now apply gate_uncached. }
    assert (Hu : In u l) by (apply T; split; [now apply gate_uncached | constructor]).
    fold f in E. exists cache'. rewrite E, (Hv u Hu). split; [reflexivity |]. split; [exact Hc' |].
    split; [reflexivity |]. split.
    + apply map_subseteq_spec. exact Hk.
    + intros i Hi. destruct (Hd i Hi) as (n & Hn & En). exists n. auto.
Qed.
End Correct.
End Get.

(** ** The interface of a property

    What [cached_property!] asks of its [compute] closure. *)
Class Property (V : Type) := {
  compute : UOp -> prog V;
  compute_below u : reads_below u (compute u)
}.

(** [P::get] with the fuel that always suffices, and the naive recursion. *)
Definition cached_get {V} (P : Property V) : UOp -> gmap Z V -> option (V * gmap Z V) :=
  get compute 2.
Definition property_value {V} `{!Inhabited V} (P : Property V) : UOp -> V := value compute.

Lemma property_eq {V} `{!Inhabited V} (P : Property V) u :
  property_value P u = pure (property_value P) (compute u).
Proof. apply value_eq, compute_below. Qed.

(** C30: [CachedProperty::get] refines the naive recursion: from any consistent
    cells it returns the recursive value of the node with a call depth of two,
    keeps the cells consistent and adds cells of nodes of the graph only. *)
Theorem cached_get_refines {V} `{!Inhabited V} (P : Property V) G `{!Arena G} u cache :
  G u -> cache_ok compute G cache ->
  exists cache', cached_get P u cache = Some (property_value P u, cache')
    /\ cache_ok compute G cache'
    /\ cache ⊆ cache'
    /\ (forall i, cache' !! i <> cache !! i -> exists n, occurs u n /\ uid n = i).
Proof.
  intros Gu Hc. destruct (get_spec compute compute_below G u cache 0 Hc Gu)
    as (cache' & E & Hc' & _ & X). exists cache'. auto.
Qed.
