(* ===== verification/Comparison.v ===== *)
(** * Comparisons decided from ranges ([ir/src/uop/comparison_analysis.rs])

    [ComparisonAnalyzer] decides a comparison from the ranges of its operands.
    The entry point on nodes is in [RangeEval], next to the ranges it reads. *)

From Stdlib Require Import Floats.SpecFloat.
From S2P Require Import Prelude F64 DType Cast ConstVal Ops.

Module ComparisonAnalyzer.
(** NaN and mixed variants compare as equal. *)
Definition compare_values (a b : ConstValue) : comparison :=
  match a, b with
  | ConstValue.Int x, ConstValue.Int y => x ?= y
  | ConstValue.UInt x, ConstValue.UInt y => x ?= y
  | ConstValue.Float x, ConstValue.Float y =>
      if f64_is_nan x || f64_is_nan y then Eq
      else match f64_partial_cmp x y with Some c => c | None => Eq end
  | ConstValue.Bool x, ConstValue.Bool y => cmp_bool x y
  | _, _ => Eq
  end.

Definition analyze_lt (x_min x_max y_min y_max : ConstValue) : option bool :=
  match compare_values x_max y_min, compare_values x_min y_max with
  | Lt, _ => Some true
  | _, Lt => None
  | _, _ => Some false
  end.

Definition analyze_le (x_min x_max y_min y_max : ConstValue) : option bool :=
  match compare_values x_max y_min, compare_values x_min y_max with
  | Lt, _ | Eq, _ => Some true
  | _, Gt => Some false
  | _, _ => None
  end.

Definition analyze_gt (x_min x_max y_min y_max : ConstValue) : option bool :=
  analyze_lt y_min y_max x_min x_max.

Definition analyze_ge (x_min x_max y_min y_max : ConstValue) : option bool :=
  analyze_le y_min y_max x_min x_max.

Definition ranges_disjoint (x_min x_max y_min y_max : ConstValue) : bool :=
  match compare_values x_max y_min, compare_values x_min y_max with
  | Lt, _ | _, Gt => true
  | _, _ => false
  end.

Definition analyze_eq (x_min x_max y_min y_max : ConstValue) : option bool :=
  if ranges_disjoint x_min x_max y_min y_max then Some false
  else if const_eqb x_min x_max && const_eqb y_min y_max && const_eqb x_min y_min
       then Some true
       else None.

Definition analyze_ne (x_min x_max y_min y_max : ConstValue) : option bool :=
  option_map negb (analyze_eq x_min x_max y_min y_max).

Definition analyze_with_ranges (op : BinaryOp) (x_min x_max y_min y_max : ConstValue)
    : option bool :=
  match op with
  | BinaryOp.Lt => analyze_lt x_min x_max y_min y_max
  | BinaryOp.Le => analyze_le x_min x_max y_min y_max
  | BinaryOp.Eq => analyze_eq x_min x_max y_min y_max
  | BinaryOp.Ne => analyze_ne x_min x_max y_min y_max
  | BinaryOp.Gt => analyze_gt x_min x_max y_min y_max
  | BinaryOp.Ge => analyze_ge x_min x_max y_min y_max
  | _ => None
  end.

Definition analyze_extended (op_name : string) (x_min x_max y_min y_max : ConstValue)
    : option bool :=
  if bool_decide (op_name = "le"%string) then analyze_le x_min x_max y_min y_max
  else if bool_decide (op_name = "gt"%string) then analyze_gt x_min x_max y_min y_max
  else if bool_decide (op_name = "ge"%string) then analyze_ge x_min x_max y_min y_max
  else None.

Definition is_nan_const (v : ConstValue) : bool :=
  match v with ConstValue.Float f => f64_is_nan f | _ => false end.

Definition get_comparison_range (op : BinaryOp) (x_min x_max y_min y_max : ConstValue)
    : ConstValue * ConstValue :=
  if existsb is_nan_const [x_min; x_max; y_min; y_max]
  then (ConstValue.Bool false, ConstValue.Bool true)
  else match analyze_with_ranges op x_min x_max y_min y_max with
       | Some true => (ConstValue.Bool true, ConstValue.Bool true)
       | Some false => (ConstValue.Bool false, ConstValue.Bool false)
       | None => (ConstValue.Bool false, ConstValue.Bool true)
       end.
End ComparisonAnalyzer.
