(* ===== verification/RangeEval.v ===== *)
(** * Range analysis ([ir/src/uop/range_eval.rs], [ir/src/uop/properties.rs])

    The interval analysis of the IR: [sound_vmin_vmax] computes bounds the
    compiler may act on, [vmin_vmax] best-effort bounds.  The cached properties
    [SoundVminVmaxProperty::get] and [VminVmaxProperty::get] are these
    functions; interval arithmetic is [i128] with its checked operations. *)

From Stdlib Require Import Floats.SpecFloat.
From S2P Require Import Prelude F64 DType Cast ConstVal Ops Eval Payload UOp Comparison.

Abbreviation range := (ConstValue * ConstValue)%type.

(** ** Bounds and comparisons *)

Definition integer_value (value : ConstValue) : option Z :=
  match value with
  | ConstValue.Int value => Some value
  | ConstValue.UInt value => Some value
  | ConstValue.Bool value => Some (Z.b2z value)
  | _ => None
  end.

Definition integer_dtype_bounds (dtype : ScalarDType) : option (Z * Z) :=
  let? min := integer_value (const_min dtype) in
  let? max := integer_value (const_max dtype) in
  Some (min, max).

Definition integer_bit_width (dtype : ScalarDType) : option Z :=
  match dtype with
  | Int8 | UInt8 => Some 8
  | Int16 | UInt16 => Some 16
  | Int32 | UInt32 => Some 32
  | WeakInt | Int64 | UInt64 | Index => Some 64
  | _ => None
  end.

Definition analysis_bounds (dtype : DType) : range :=
  let s := DType.base dtype in
  if ScalarDType.is_float s then
    let '(min, max) := DType.analysis_bounds dtype in
    (ConstValue.Float min, ConstValue.Float max)
  else (const_min s, const_max s).

Definition dtype_bounds : DType -> range := analysis_bounds.

Definition compare_const_values (a b : ConstValue) : comparison :=
  match a, b with
  | ConstValue.Int x, ConstValue.Int y => x ?= y
  | ConstValue.UInt x, ConstValue.UInt y => x ?= y
  | ConstValue.Float x, ConstValue.Float y =>
      if f64_is_nan x && f64_is_nan y then Eq
      else if f64_is_nan x then Gt
      else if f64_is_nan y then Lt
      else if f64_eqb x f64_zero && f64_eqb y f64_zero
           then CompOpp (cmp_bool (f64_is_sign_negative x) (f64_is_sign_negative y))
           else match f64_partial_cmp x y with Some c => c | None => Eq end
  | ConstValue.Bool x, ConstValue.Bool y => cmp_bool x y
  | _, _ => Eq
  end.

Definition min_value (a b : ConstValue) : ConstValue :=
  match compare_const_values a b with Lt => a | _ => b end.
Definition max_value (a b : ConstValue) : ConstValue :=
  match compare_const_values a b with Gt => a | _ => b end.

Definition is_greater (a b : ConstValue) : bool :=
  match compare_const_values a b with Gt => true | _ => false end.

Definition range_union (first : ConstValue) (rest : list ConstValue) : range :=
  (fold_left min_value rest first, fold_left max_value rest first).

Definition contains_zero (min max : ConstValue) : bool :=
  match min, max with
  | ConstValue.Int min_v, ConstValue.Int max_v => (min_v <=? 0) && (max_v >=? 0)
  | ConstValue.UInt min_v, _ => min_v =? 0
  | ConstValue.Float min_v, ConstValue.Float max_v => f64_leb min_v f64_zero && f64_leb f64_zero max_v
  | _, _ => false
  end.

Definition bool_bounds : range := (ConstValue.Bool false, ConstValue.Bool true).

Definition reflexive_comparison_range (op : BinaryOp) : range :=
  match op with
  | BinaryOp.Lt | BinaryOp.Ne | BinaryOp.Gt => (ConstValue.Bool false, ConstValue.Bool false)
  | BinaryOp.Le | BinaryOp.Eq | BinaryOp.Ge => (ConstValue.Bool true, ConstValue.Bool true)
  | _ => bool_bounds
  end.

Definition ordered_value (value : ConstValue) : bool :=
  negb (ComparisonAnalyzer.is_nan_const value) && negb (const_eqb value ConstValue.Invalid).

Definition ordered_range (min max : ConstValue) : bool :=
  ordered_value min && ordered_value max && negb (is_greater min max).

(** [bool::then_some] of a range that must be ordered. *)
Definition when_ordered (r : range) : option range :=
  if ordered_range (fst r) (snd r) then Some r else None.

Definition exact_when_ordered (value : ConstValue) : option range :=
  if ordered_value value then Some (value, value) else None.

(** ** Committing mathematical bounds to a dtype *)

Definition make_value (scalar : ScalarDType) (value : Z) : option ConstValue :=
  let? uncommitted :=
    if ScalarDType.is_unsigned scalar
    then let? v := try_u64 value in Some (ConstValue.UInt v)
    else let? v := try_i64 value in Some (ConstValue.Int v) in
  const_cast uncommitted (Scalar scalar).

Definition commit_integer_math_range (min max : Z) (dtype : DType) : option range :=
  let scalar := DType.base dtype in
  let? (dtype_min, dtype_max) := integer_dtype_bounds scalar in
  if (min >? max) || (min <? dtype_min) || (max >? dtype_max) then None
  else
    let? lo := make_value scalar min in
    let? hi := make_value scalar max in
    Some (lo, hi).

(** ** Declared bounds and casts *)

Definition cast_integer_or_bool_range (min max : ConstValue) (target : DType) : option range :=
  if DType.is_bool target then
    if const_eqb min max then
      let? value := const_cast min (Scalar Bool) in Some (value, value)
    else Some (if contains_zero min max then bool_bounds
               else (ConstValue.Bool true, ConstValue.Bool true))
  else
    let? min := integer_value min in
    let? max := integer_value max in
    let? (target_min, target_max) := integer_dtype_bounds (DType.base target) in
    if (min <? target_min) || (max >? target_max) then Some (dtype_bounds target)
    else commit_integer_math_range min max target.

Definition normalize_declared_integer_bounds (min max : ConstValue) (dtype : DType)
    : option range :=
  if DType.is_bool dtype then cast_integer_or_bool_range min max dtype
  else
    let? min := integer_value min in
    let? max := integer_value max in
    let? (dtype_min, dtype_max) := integer_dtype_bounds (DType.base dtype) in
    commit_integer_math_range (Z.max min dtype_min) (Z.min max dtype_max) dtype.

Definition normalize_declared_bounds (min max : ConstValue) (dtype : DType) : option range :=
  if DType.is_float dtype then
    let scalar := DType.scalar_dtype dtype in
    let? lo := const_cast min scalar in
    let? hi := const_cast max scalar in
    Some (lo, hi)
  else if ScalarDType.is_int (DType.base dtype) || DType.is_bool dtype then
    normalize_declared_integer_bounds min max dtype
  else Some (min, max).

Definition declared_bounds (min max : Z) (dtype : DType) : option range :=
  normalize_declared_bounds (ConstValue.Int min) (ConstValue.Int max) dtype.

Definition cast_range (src_min src_max : ConstValue) (src_dtype target : DType) : option range :=
  let scalar_target := DType.scalar_dtype target in
  if const_eqb src_min src_max then
    let? value := const_cast src_min scalar_target in exact_when_ordered value
  else if DType.is_bool target then
    Some (if contains_zero src_min src_max then bool_bounds
          else (ConstValue.Bool true, ConstValue.Bool true))
  else if DType.is_float target then
    let? min := const_cast src_min scalar_target in
    let? max := const_cast src_max scalar_target in
    when_ordered (min, max)
  else if DType.is_float src_dtype then None
  else if ScalarDType.is_int (DType.base target) then
    cast_integer_or_bool_range src_min src_max target
  else None.

(** [sound_cast_range], given the sound range and the dtype of the source. *)
Definition sound_cast_range (src_range : option range) (src_dtype target : DType) : option range :=
  let? (src_min, src_max) := src_range in
  let? _ :=
    if ScalarDType.is_int (DType.base target) && negb (DType.is_float src_dtype)
       && negb (const_eqb src_min src_max)
    then
      let? (target_min, target_max) := integer_dtype_bounds (DType.base target) in
      let? lo := integer_value src_min in
      if lo <? target_min then None
      else
        let? hi := integer_value src_max in
        if hi >? target_max then None else Some tt
    else Some tt in
  cast_range src_min src_max src_dtype target.

Definition zero_to_typed_end_minus_one (end_max : ConstValue) (dtype : DType) : option range :=
  let? end_ := integer_value end_max in
  let? max := checked_i128 (end_ - 1) in
  let? (dtype_min, dtype_max) := integer_dtype_bounds (DType.base dtype) in
  if (max <? dtype_min) || (max >? dtype_max) then None
  else
    let? zero := const_cast (const_zero (DType.base dtype)) (DType.scalar_dtype dtype) in
    let? uncommitted :=
      if ScalarDType.is_unsigned (DType.base dtype)
      then let? v := try_u64 max in Some (ConstValue.UInt v)
      else let? v := try_i64 max in Some (ConstValue.Int v) in
    let? max := const_cast uncommitted (DType.scalar_dtype dtype) in
    Some (zero, max).

Definition zero_to_end_minus_one (end_range : range) (dtype : DType) : range :=
  match zero_to_typed_end_minus_one (snd end_range) dtype with
  | Some r => r
  | None => dtype_bounds dtype
  end.

(** ** Unions *)

Definition union2 (a b : range) : range :=
  (min_value (fst a) (fst b), max_value (snd a) (snd b)).

(** [sound_sources_range] on the sound ranges of the sources. *)
Definition sound_sources_range (sources : list (option range)) : option range :=
  match sources with
  | [] => None
  | first :: rest =>
      fold_left (fun acc src => let? a := acc in let? s := src in Some (union2 a s)) rest first
  end.

Definition sources_range (sources : list range) : option range :=
  match sources with
  | [] => None
  | first :: rest => when_ordered (fold_left union2 rest first)
  end.

Definition sources_range_values (values : list ConstValue) : option range :=
  match values with
  | [] => None
  | v0 :: rest => when_ordered (fold_left (fun r v => union2 r (v, v)) rest (v0, v0))
  end.

Definition sound_values_range (values : list ConstValue) : option range :=
  let? r := sources_range_values values in
  if forallb ordered_value values then Some r else None.

(** ** Interval arithmetic *)

Definition min_max (range : option (Z * Z)) (value : Z) : Z * Z :=
  match range with
  | None => (value, value)
  | Some (min, max) => (Z.min min value, Z.max max value)
  end.

(** The [try_fold] over corner values: any overflow loses the range. *)
Fixpoint fold_corners (acc : option (Z * Z)) (values : list (option Z)) : option (Z * Z) :=
  match values with
  | [] => acc
  | value :: rest => let? v := value in fold_corners (Some (min_max acc v)) rest
  end.

Definition integer_corner_range (amin amax bmin bmax : Z) (eval : Z -> Z -> option Z)
    : option (Z * Z) :=
  fold_corners None [eval amin bmin; eval amin bmax; eval amax bmin; eval amax bmax].

Definition i128_min : Z := - 2 ^ 127.
Definition checked_div_i128 (a b : Z) : option Z :=
  if (b =? 0) || ((a =? i128_min) && (b =? -1)) then None else Some (Z.quot a b).
Definition checked_rem_i128 (a b : Z) : option Z :=
  if (b =? 0) || ((a =? i128_min) && (b =? -1)) then None else Some (Z.rem a b).

Definition floor_div_i128 (a b : Z) : option Z :=
  let? quotient := checked_div_i128 a b in
  let? remainder := checked_rem_i128 a b in
  if negb (remainder =? 0) && xorb (a <? 0) (b <? 0)
  then checked_i128 (quotient - 1) else Some quotient.

(** [1i128.checked_shl] and [checked_shr]: [None] from 128 on. *)
Definition checked_shl_one (shift : Z) : option Z :=
  if shift <? 128 then Some (wrap_s 128 (Z.shiftl 1 shift)) else None.
Definition checked_shr_i128 (value shift : Z) : option Z :=
  if shift <? 128 then Some (Z.shiftr value shift) else None.

(** [u32::try_from]. *)
Definition try_u32 (z : Z) : option Z := if (0 <=? z) && (z <? 2 ^ 32) then Some z else None.

Definition integer_shift_range (op : BinaryOp) (amin amax bmin bmax : Z) : option (Z * Z) :=
  integer_corner_range amin amax bmin bmax (fun value shift =>
    let? shift := try_u32 shift in
    match op with
    | BinaryOp.Shl => let? p := checked_shl_one shift in checked_i128 (value * p)
    | BinaryOp.Shr => checked_shr_i128 value shift
    | _ => None
    end).

(** What the match of [compute_typed_integer_binary_range] produces: an early
    return, or the mathematical range to commit. *)
Inductive math_result :=
| NotTyped
| Full
| Math (r : option (Z * Z)).

Definition typed_integer_math (op : BinaryOp) (amin amax bmin bmax : Z) (width : option Z)
    : math_result :=
  match op with
  | BinaryOp.Add =>
      Math (let? lo := checked_i128 (amin + bmin) in
            let? hi := checked_i128 (amax + bmax) in Some (lo, hi))
  | BinaryOp.Sub =>
      Math (let? lo := checked_i128 (amin - bmax) in
            let? hi := checked_i128 (amax - bmin) in Some (lo, hi))
  | BinaryOp.Mul => Math (integer_corner_range amin amax bmin bmax (fun a b => checked_i128 (a * b)))
  | BinaryOp.Max => Math (Some (Z.max amin bmin, Z.max amax bmax))
  | BinaryOp.FloorDiv | BinaryOp.CDiv =>
      if (bmin <=? 0) && (bmax >=? 0) then Full
      else Math (integer_corner_range amin amax bmin bmax
                   (match op with BinaryOp.FloorDiv => floor_div_i128 | _ => checked_div_i128 end))
  | BinaryOp.FloorMod | BinaryOp.CMod =>
      if (bmin <=? 0) && (bmax >=? 0) then Full
      else
        match (let? l := checked_i128 (Z.abs bmin) in
               let? h := checked_i128 (Z.abs bmax) in checked_i128 (Z.max l h - 1)) with
        | None => NotTyped
        | Some limit =>
            Math (Some (match op with
              | BinaryOp.FloorMod => if bmin >? 0 then (0, limit) else (- limit, 0)
              | _ => if amin >=? 0 then (0, Z.min amax limit)
                     else if amax <=? 0 then (Z.max amin (- limit), 0)
                     else (Z.max amin (- limit), Z.min amax limit)
              end))
        end
  | BinaryOp.Shl | BinaryOp.Shr =>
      match width with
      | None => NotTyped
      | Some width =>
          if (bmin <? 0) || (bmax >=? width) then Full
          else Math (integer_shift_range op amin amax (wrap_u 32 bmin) (wrap_u 32 bmax))
      end
  | _ => NotTyped
  end.

Definition is_division (op : BinaryOp) : bool :=
  match op with
  | BinaryOp.FloorDiv | BinaryOp.CDiv | BinaryOp.FloorMod | BinaryOp.CMod => true
  | _ => false
  end.

Definition compute_typed_integer_binary_range (op : BinaryOp)
    (a_min a_max b_min b_max : ConstValue) (dtype : DType) : option range :=
  let? amin := integer_value a_min in
  let? amax := integer_value a_max in
  let? bmin := integer_value b_min in
  let? bmax := integer_value b_max in
  let full := dtype_bounds dtype in
  let? (dtype_min, _) := integer_dtype_bounds (DType.base dtype) in
  if is_division op && (amin <=? dtype_min) && (dtype_min <=? amax) && (bmin <=? -1) && (-1 <=? bmax)
  then Some full
  else
    match typed_integer_math op amin amax bmin bmax (integer_bit_width (DType.base dtype)) with
    | NotTyped => None
    | Full => Some full
    | Math math_range =>
        Some (match (let? (min, max) := math_range in commit_integer_math_range min max dtype) with
              | Some r => r
              | None => full
              end)
    end.

Definition compute_typed_integer_mulacc_range (a_min a_max b_min b_max c_min c_max : ConstValue)
    (dtype : DType) : range :=
  match (let? amin := integer_value a_min in
         let? amax := integer_value a_max in
         let? bmin := integer_value b_min in
         let? bmax := integer_value b_max in
         let? cmin := integer_value c_min in
         let? cmax := integer_value c_max in
         let at_ a b c := let? product := checked_i128 (a * b) in checked_i128 (product + c) in
         let? (min, max) := fold_corners None
           [at_ amin bmin cmin; at_ amin bmin cmax; at_ amin bmax cmin; at_ amin bmax cmax;
            at_ amax bmin cmin; at_ amax bmin cmax; at_ amax bmax cmin; at_ amax bmax cmax] in
         commit_integer_math_range min max dtype) with
  | Some r => r
  | None => dtype_bounds dtype
  end.

Section RangeEval.
Context {M : LibM}.

(** The corner loop over constants: corners that do not evaluate are skipped. *)
Definition const_corners (values : list (option ConstValue)) : option range :=
  fold_left (fun acc value =>
      match value with
      | None => acc
      | Some val => Some (match acc with None => (val, val) | Some r => union2 r (val, val) end)
      end) values None.

Definition or_bounds (r : option range) (dtype : DType) : range :=
  match r with Some r => r | None => dtype_bounds dtype end.

Definition eval_four_corners (op : BinaryOp) (a_min a_max b_min b_max : ConstValue) (dtype : DType)
    : range :=
  or_bounds (const_corners [eval_binary_op op a_min b_min; eval_binary_op op a_min b_max;
                            eval_binary_op op a_max b_min; eval_binary_op op a_max b_max]) dtype.

(** *** Unary operations *)

Definition value_or (v : option ConstValue) (d : ConstValue) : ConstValue :=
  match v with Some v => v | None => d end.

(** The two endpoints of a unary operation, put in order. *)
Definition endpoints (op : UnaryOp) (vmin vmax : ConstValue) (dtype : DType) : range :=
  match eval_unary_op op vmin, eval_unary_op op vmax with
  | Some min, Some max => if is_greater min max then (max, min) else (min, max)
  | _, _ => dtype_bounds dtype
  end.

Definition crosses_zero (vmin vmax : ConstValue) : bool :=
  match vmin, vmax with
  | ConstValue.Int min, ConstValue.Int max => (min <=? 0) && (max >=? 0)
  | ConstValue.Float min, ConstValue.Float max => f64_leb min f64_zero && f64_leb f64_zero max
  | _, _ => false
  end.

(** The shape shared by [Abs] and [Square]. *)
Definition even_range (op : UnaryOp) (vmin vmax : ConstValue) (dtype : DType) : range :=
  if crosses_zero vmin vmax then
    let zero := match vmin with
                | ConstValue.Int _ => ConstValue.Int 0
                | ConstValue.UInt _ => ConstValue.UInt 0
                | ConstValue.Float _ => ConstValue.Float f64_zero
                | _ => fst (dtype_bounds dtype)
                end in
    let max_val := match eval_unary_op op vmin, eval_unary_op op vmax with
                   | Some a, Some b => if is_greater a b then a else b
                   | _, _ => snd (dtype_bounds dtype)
                   end in
    (zero, max_val)
  else endpoints op vmin vmax dtype.

Definition compute_unary_range (op : UnaryOp) (vmin vmax : ConstValue) (dtype : DType) : range :=
  match (if const_eqb vmin vmax then eval_unary_op_typed op vmin (DType.base dtype) else None) with
  | Some value => (value, value)
  | None =>
      if ScalarDType.is_int (DType.base dtype) then
        match op with
        | UnaryOp.Neg =>
            or_bounds (let? vmax := integer_value vmax in
                       let? min := checked_i128 (- vmax) in
                       let? vmin := integer_value vmin in
                       let? max := checked_i128 (- vmin) in
                       commit_integer_math_range min max dtype) dtype
        | UnaryOp.Not =>
            or_bounds (let? min := eval_unary_op_typed op vmax (DType.base dtype) in
                       let? max := eval_unary_op_typed op vmin (DType.base dtype) in
                       when_ordered (min, max)) dtype
        | _ => dtype_bounds dtype
        end
      else
        match op with
        | UnaryOp.Neg | UnaryOp.Not =>
            (value_or (eval_unary_op op vmax) (fst (dtype_bounds dtype)),
             value_or (eval_unary_op op vmin) (snd (dtype_bounds dtype)))
        | UnaryOp.Abs | UnaryOp.Square => even_range op vmin vmax dtype
        | UnaryOp.Sin | UnaryOp.Cos | UnaryOp.Erf =>
            (ConstValue.Float (f64_of_Z (-1)), ConstValue.Float f64_one)
        | UnaryOp.Tan => dtype_bounds dtype
        | UnaryOp.Sign =>
            match vmin with
            | ConstValue.Int _ => (ConstValue.Int (-1), ConstValue.Int 1)
            | ConstValue.Float _ => (ConstValue.Float (f64_of_Z (-1)), ConstValue.Float f64_one)
            | ConstValue.UInt _ => (ConstValue.UInt 0, ConstValue.UInt 1)
            | _ => dtype_bounds dtype
            end
        | _ => endpoints op vmin vmax dtype
        end
  end.

(** *** Binary operations *)

Definition is_bool_dtype (dtype : DType) : bool := bool_decide (dtype = Scalar Bool).

Definition compute_bitwise_range (op : BinaryOp) (a_min a_max b_min b_max : ConstValue)
    (dtype : DType) : range :=
  if is_bool_dtype dtype then eval_four_corners op a_min a_max b_min b_max dtype
  else match op, b_min, b_max with
       | BinaryOp.And, ConstValue.Int bmin, ConstValue.Int bmax =>
           if (bmin =? bmax) && (bmin >=? 0) then (ConstValue.Int 0, ConstValue.Int bmax)
           else dtype_bounds dtype
       | _, _, _ => dtype_bounds dtype
       end.

Definition shift_bit_width (dtype : DType) : option Z :=
  if bool_decide (dtype = Scalar Int8) || bool_decide (dtype = Scalar UInt8) then Some 8
  else if bool_decide (dtype = Scalar Int16) || bool_decide (dtype = Scalar UInt16) then Some 16
  else if bool_decide (dtype = Scalar Int32) || bool_decide (dtype = Scalar UInt32) then Some 32
  else if bool_decide (dtype = Scalar Int64) || bool_decide (dtype = Scalar UInt64) then Some 64
  else None.

Definition compute_shift_range (op : BinaryOp) (a_min a_max b_min b_max : ConstValue)
    (dtype : DType) : range :=
  match shift_bit_width dtype with
  | None => dtype_bounds dtype
  | Some bit_width =>
      match b_min, b_max with
      | ConstValue.Int shift_min, ConstValue.Int shift_max =>
          if (shift_min >=? 0) && (shift_max <? bit_width)
          then eval_four_corners op a_min a_max b_min b_max dtype else dtype_bounds dtype
      | ConstValue.UInt shift_min, ConstValue.UInt shift_max =>
          if (shift_min =? 0) && (shift_max <? bit_width)
          then eval_four_corners op a_min a_max b_min b_max dtype else dtype_bounds dtype
      | _, _ => dtype_bounds dtype
      end
  end.

(** [i64] and [u64] checked arithmetic of the [Add] and [Sub] arms. *)
Definition checked_range (mk : Z -> ConstValue) (check : Z -> option Z) (min max : Z) (dtype : DType)
    : range :=
  or_bounds (let? lo := check min in let? hi := check max in Some (mk lo, mk hi)) dtype.

Definition float_or_bounds (op : BinaryOp) (a1 b1 a2 b2 : ConstValue) (dtype : DType) : range :=
  (value_or (eval_binary_op op a1 b1) (fst (dtype_bounds dtype)),
   value_or (eval_binary_op op a2 b2) (snd (dtype_bounds dtype))).

Definition floor_mod_range (a_min a_max b_min b_max : ConstValue) (dtype : DType) : range :=
  match a_min, a_max, b_min, b_max with
  | ConstValue.Int _, ConstValue.Int _, ConstValue.Int b_lo, ConstValue.Int b_hi =>
      if b_lo >? 0 then (ConstValue.Int 0, ConstValue.Int (b_hi - 1))
      else if b_hi <? 0 then (ConstValue.Int (b_lo + 1), ConstValue.Int 0)
      else dtype_bounds dtype
  | ConstValue.UInt _, ConstValue.UInt _, ConstValue.UInt b_lo, ConstValue.UInt b_hi =>
      if b_lo >? 0 then (ConstValue.UInt 0, ConstValue.UInt (b_hi - 1)) else dtype_bounds dtype
  | _, _, _, _ => dtype_bounds dtype
  end.

Definition cmod_range (a_min a_max b_min b_max : ConstValue) (dtype : DType) : range :=
  match a_min, a_max, b_min, b_max with
  | ConstValue.Int a_lo, ConstValue.Int a_hi, ConstValue.Int b_lo, ConstValue.Int b_hi =>
      if (a_lo >=? 0) && (b_lo >? 0) then (ConstValue.Int 0, ConstValue.Int (Z.min a_hi (b_hi - 1)))
      else if (a_hi <=? 0) && (b_lo >? 0) then (ConstValue.Int (- (b_hi - 1)), ConstValue.Int 0)
      else if b_lo >? 0 then (ConstValue.Int (- (b_hi - 1)), ConstValue.Int (b_hi - 1))
      else dtype_bounds dtype
  | ConstValue.UInt _, ConstValue.UInt a_hi, ConstValue.UInt b_lo, ConstValue.UInt b_hi =>
      if b_lo >? 0 then (ConstValue.UInt 0, ConstValue.UInt (Z.min a_hi (b_hi - 1)))
      else dtype_bounds dtype
  | _, _, _, _ => dtype_bounds dtype
  end.

Definition untyped_binary_range (op : BinaryOp) (a_min a_max b_min b_max : ConstValue)
    (dtype : DType) : range :=
  match op with
  | BinaryOp.Add =>
      match a_min, a_max, b_min, b_max with
      | ConstValue.Int amin, ConstValue.Int amax, ConstValue.Int bmin, ConstValue.Int bmax =>
          checked_range ConstValue.Int try_i64 (amin + bmin) (amax + bmax) dtype
      | ConstValue.UInt amin, ConstValue.UInt amax, ConstValue.UInt bmin, ConstValue.UInt bmax =>
          checked_range ConstValue.UInt try_u64 (amin + bmin) (amax + bmax) dtype
      | _, _, _, _ => float_or_bounds BinaryOp.Add a_min b_min a_max b_max dtype
      end
  | BinaryOp.Sub =>
      match a_min, a_max, b_min, b_max with
      | ConstValue.Int amin, ConstValue.Int amax, ConstValue.Int bmin, ConstValue.Int bmax =>
          checked_range ConstValue.Int try_i64 (amin - bmax) (amax - bmin) dtype
      | ConstValue.UInt amin, ConstValue.UInt amax, ConstValue.UInt bmin, ConstValue.UInt bmax =>
          checked_range ConstValue.UInt try_u64 (amin - bmax) (amax - bmin) dtype
      | _, _, _, _ => float_or_bounds BinaryOp.Sub a_min b_max a_max b_min dtype
      end
  | BinaryOp.Max => float_or_bounds BinaryOp.Max a_min b_min a_max b_max dtype
  | BinaryOp.Mul | BinaryOp.Pow => eval_four_corners op a_min a_max b_min b_max dtype
  | BinaryOp.FloorDiv | BinaryOp.CDiv | BinaryOp.Fdiv =>
      if contains_zero b_min b_max then dtype_bounds dtype
      else eval_four_corners op a_min a_max b_min b_max dtype
  | BinaryOp.FloorMod => floor_mod_range a_min a_max b_min b_max dtype
  | BinaryOp.CMod => cmod_range a_min a_max b_min b_max dtype
  | BinaryOp.Lt | BinaryOp.Le | BinaryOp.Eq | BinaryOp.Ne | BinaryOp.Gt | BinaryOp.Ge =>
      ComparisonAnalyzer.get_comparison_range op a_min a_max b_min b_max
  | BinaryOp.And | BinaryOp.Or | BinaryOp.Xor =>
      compute_bitwise_range op a_min a_max b_min b_max dtype
  | BinaryOp.Shl | BinaryOp.Shr => compute_shift_range op a_min a_max b_min b_max dtype
  | BinaryOp.Threefry => dtype_bounds dtype
  end.

Definition compute_binary_range (op : BinaryOp) (a_min a_max b_min b_max : ConstValue)
    (dtype : DType) : range :=
  if const_eqb a_min a_max && const_eqb b_min b_max && negb (BinaryOp.is_comparison op) then
    match eval_binary_op_typed op a_min b_min (DType.base dtype) with
    | Some val => (val, val)
    | None => dtype_bounds dtype
    end
  else
    match (if ScalarDType.is_int (DType.base dtype)
           then compute_typed_integer_binary_range op a_min a_max b_min b_max dtype else None) with
    | Some range => range
    | None =>
        if ScalarDType.is_int (DType.base dtype) && bool_decide (op = BinaryOp.Pow)
        then dtype_bounds dtype
        else untyped_binary_range op a_min a_max b_min b_max dtype
    end.

(** *** Ternary operations *)

Definition compute_ternary_range (op : TernaryOp)
    (cond_min cond_max true_min true_max false_min false_max : ConstValue) (dtype : DType) : range :=
  match op with
  | TernaryOp.Where =>
      match cond_min, cond_max with
      | ConstValue.Bool true, ConstValue.Bool true => (true_min, true_max)
      | ConstValue.Bool false, ConstValue.Bool false => (false_min, false_max)
      | _, _ => range_union true_min [true_max; false_min; false_max]
      end
  | TernaryOp.MulAcc =>
      if ScalarDType.is_int (DType.base dtype) then
        compute_typed_integer_mulacc_range cond_min cond_max true_min true_max false_min false_max dtype
      else
        let at_ a b c := eval_ternary_op_typed TernaryOp.MulAcc a b c (DType.base dtype) in
        or_bounds (const_corners
          [at_ cond_min true_min false_min; at_ cond_min true_min false_max;
           at_ cond_min true_max false_min; at_ cond_min true_max false_max;
           at_ cond_max true_min false_min; at_ cond_max true_min false_max;
           at_ cond_max true_max false_min; at_ cond_max true_max false_max]) dtype
  end.

(** ** The sound analysis *)

(** The binary operations whose integer range has an explicit rule. *)
Definition sound_binary_rule (op : BinaryOp) (dtype : DType) (b_min b_max : ConstValue) : bool :=
  match op with
  | BinaryOp.Add | BinaryOp.Sub | BinaryOp.Mul | BinaryOp.Max | BinaryOp.FloorMod | BinaryOp.CMod
  | BinaryOp.FloorDiv | BinaryOp.CDiv | BinaryOp.Shl | BinaryOp.Shr
  | BinaryOp.Lt | BinaryOp.Le | BinaryOp.Eq | BinaryOp.Ne | BinaryOp.Gt | BinaryOp.Ge => true
  | BinaryOp.Or => is_bool_dtype dtype
  | BinaryOp.And =>
      is_bool_dtype dtype
      || (DType.is_int dtype && const_eqb b_min b_max
          && match b_min with ConstValue.Int v => v >=? 0 | _ => false end)
  | _ => false
  end.

Definition sound_unary (op : UnaryOp) (src : option range) (dtype : DType) : option range :=
  let? (min, max) := src in
  if DType.is_float dtype then
    if negb (const_eqb min max) then None
    else let? value := eval_unary_op_typed op min (DType.base dtype) in exact_when_ordered value
  else match op with
       | UnaryOp.Neg | UnaryOp.Not => Some (compute_unary_range op min max dtype)
       | _ => None
       end.

Definition sound_binary (op : BinaryOp) (a b : option range) (same : bool) (dtype : DType)
    : option range :=
  let? (a_min, a_max) := a in
  let? (b_min, b_max) := b in
  if const_eqb a_min a_max && const_eqb b_min b_max then
    let? value := if BinaryOp.is_comparison op then eval_binary_op op a_min b_min
                  else eval_binary_op_typed op a_min b_min (DType.base dtype) in
    exact_when_ordered value
  else if BinaryOp.is_comparison op && same then Some (reflexive_comparison_range op)
  else if DType.is_float dtype then
    match op with
    | BinaryOp.Max => Some (compute_binary_range op a_min a_max b_min b_max dtype)
    | _ => None
    end
  else if sound_binary_rule op dtype b_min b_max
       then Some (compute_binary_range op a_min a_max b_min b_max dtype)
       else None.

Definition sound_ternary (op : TernaryOp) (cond true_value false_value : option range) (dtype : DType)
    : option range :=
  let? (cond_min, cond_max) := cond in
  let? (true_min, true_max) := true_value in
  let? (false_min, false_max) := false_value in
  if const_eqb cond_min cond_max && const_eqb true_min true_max && const_eqb false_min false_max then
    let? value := eval_ternary_op_typed op cond_min true_min false_min (DType.base dtype) in
    exact_when_ordered value
  else match op with
       | TernaryOp.Where =>
           Some (compute_ternary_range op cond_min cond_max true_min true_max false_min false_max dtype)
       | TernaryOp.MulAcc => None
       end.

(** [compute_sound_vmin_vmax]; the recursive calls are [SoundVminVmaxProperty::get]. *)
Fixpoint sound_vmin_vmax (uop : UOp) : option range :=
  let 'mkUOp _ op dtype := uop in
  match op with
  | Op.Const _ c => exact_when_ordered c
  | Op.VConst _ values => sound_values_range values
  | Op.DefineVar _ _ min_val max_val =>
      let? bounds := declared_bounds min_val max_val dtype in when_ordered bounds
  | Op.Param _ _ arg =>
      match ParamArg.addrspace arg with
      | None =>
          let? (min, max) := ParamArg.vmin_vmax arg in
          let? bounds := normalize_declared_bounds min max dtype in when_ordered bounds
      | Some _ => None
      end
  | Op.Range _ end_ _ _ _ | Op.Special _ end_ _ =>
      let? (_, end_max) := sound_vmin_vmax end_ in
      let? bounds := zero_to_typed_end_minus_one end_max dtype in when_ordered bounds
  | Op.Bind _ var _ => sound_vmin_vmax var
  | Op.Stack _ sources => sound_sources_range (map sound_vmin_vmax sources)
  | Op.Unary _ op src => sound_unary op (sound_vmin_vmax src) dtype
  | Op.Binary _ op a b =>
      sound_binary op (sound_vmin_vmax a) (sound_vmin_vmax b) (ptr_eq a b) dtype
  | Op.Ternary _ op cond true_value false_value =>
      sound_ternary op (sound_vmin_vmax cond) (sound_vmin_vmax true_value)
        (sound_vmin_vmax false_value) dtype
  | Op.Cast _ src _ => sound_cast_range (sound_vmin_vmax src) (uop_dtype src) dtype
  | _ => None
  end.

(** ** The best-effort analysis *)

Definition best_unary (op : UnaryOp) (src : range) (dtype : DType) : option range :=
  let '(src_min, src_max) := src in
  if DType.is_float dtype && negb (const_eqb src_min src_max) then None
  else match op with
       | UnaryOp.Neg | UnaryOp.Not => Some (compute_unary_range op src_min src_max dtype)
       | _ => None
       end.

(** The rules of the best-effort analysis: those of the sound one without the
    truncating divisions. *)
Definition best_binary_rule (op : BinaryOp) (dtype : DType) (b_min b_max : ConstValue) : bool :=
  match op with
  | BinaryOp.CMod | BinaryOp.CDiv => false
  | _ => sound_binary_rule op dtype b_min b_max
  end.

Definition best_binary (op : BinaryOp) (a b : range) (sound_a sound_b : option range) (same : bool)
    (float_operand : bool) (dtype : DType) : option range :=
  let '(a_min, a_max) := a in
  let '(b_min, b_max) := b in
  if BinaryOp.is_comparison op && float_operand then
    match sound_a with
    | None => Some bool_bounds
    | Some (a_min, a_max) =>
        match sound_b with
        | None => Some bool_bounds
        | Some (b_min, b_max) =>
            if same then Some (reflexive_comparison_range op)
            else Some (compute_binary_range op a_min a_max b_min b_max dtype)
        end
    end
  else if const_eqb a_min a_max && const_eqb b_min b_max then
    Some (compute_binary_range op a_min a_max b_min b_max dtype)
  else if DType.is_float dtype then None
  else if best_binary_rule op dtype b_min b_max
       then Some (compute_binary_range op a_min a_max b_min b_max dtype)
       else None.

Definition best_ternary (op : TernaryOp) (a b c : range) (dtype : DType) : option range :=
  let '(a_min, a_max) := a in
  let '(b_min, b_max) := b in
  let '(c_min, c_max) := c in
  if const_eqb a_min a_max && const_eqb b_min b_max && const_eqb c_min c_max then
    Some (compute_ternary_range op a_min a_max b_min b_max c_min c_max dtype)
  else match op with
       | TernaryOp.Where =>
           if DType.is_int dtype || bool_decide (dtype = Scalar Index)
           then Some (compute_ternary_range op a_min a_max b_min b_max c_min c_max dtype)
           else None
       | TernaryOp.MulAcc => None
       end.

(** [VminVmaxProperty::get]: [compute_vmin_vmax], or the bounds of the dtype. *)
Fixpoint vmin_vmax (uop : UOp) : range :=
  let 'mkUOp _ op dtype := uop in
  or_bounds
    match op with
    | Op.Const _ c => Some (c, c)
    | Op.VConst _ values => sources_range_values values
    | Op.DefineVar _ _ min_val max_val => declared_bounds min_val max_val dtype
    | Op.Param _ _ arg =>
        match ParamArg.addrspace arg with
        | None =>
            let? (min, max) := ParamArg.vmin_vmax arg in normalize_declared_bounds min max dtype
        | Some _ => None
        end
    | Op.Range _ end_ _ _ _ | Op.Special _ end_ _ =>
        Some (zero_to_end_minus_one (vmin_vmax end_) dtype)
    | Op.Bind _ src _ => Some (vmin_vmax src)
    | Op.Stack _ sources => sources_range (map vmin_vmax sources)
    | Op.Unary _ op src => best_unary op (vmin_vmax src) dtype
    | Op.Binary _ op a b =>
        best_binary op (vmin_vmax a) (vmin_vmax b) (sound_vmin_vmax a) (sound_vmin_vmax b)
          (ptr_eq a b) (DType.is_float (uop_dtype a) || DType.is_float (uop_dtype b)) dtype
    | Op.Ternary _ op a b c =>
        best_ternary op (vmin_vmax a) (vmin_vmax b) (vmin_vmax c) dtype
    | Op.Cast _ src _ =>
        let '(src_min, src_max) := vmin_vmax src in
        cast_range src_min src_max (uop_dtype src) dtype
    | _ => None
    end dtype.

(** ** Comparisons of nodes *)

(** [ComparisonAnalyzer::analyze]. *)
Definition analyze (op : BinaryOp) (x y : UOp) : option bool :=
  if ptr_eq x y && negb (DType.is_float (uop_dtype x)) then
    match op with
    | BinaryOp.Lt => Some false
    | BinaryOp.Eq => Some true
    | BinaryOp.Ne => Some false
    | _ => None
    end
  else
    let? (x_min, x_max) := sound_vmin_vmax x in
    let? (y_min, y_max) := sound_vmin_vmax y in
    ComparisonAnalyzer.analyze_with_ranges op x_min x_max y_min y_max.

Definition analyze_all_comparisons (x y : UOp) : option bool * option bool * option bool :=
  (analyze BinaryOp.Lt x y, analyze BinaryOp.Eq x y, analyze BinaryOp.Ne x y).
End RangeEval.
