(* ===== verification/RangeSound.v ===== *)
(** * Soundness of the range analysis

    Every value a node of the integer fragment can denote lies in the
    interval that [sound_vmin_vmax] and [vmin_vmax] compute for it, and
    comparisons decided from ranges have the decided result. *)

From Stdlib Require Import Floats.SpecFloat.
From stdpp Require Import relations.
From S2P Require Import Prelude F64 Cast ConstVal Ops IntView Eval EvalSpec Payload UOp.
From S2P Require Import Semantics Comparison RangeEval.
From S2P Require Import DType.

(** ** Monotone operations are bounded by their corners *)
Section Corners.
Context (f : Z -> Z -> Z) (amin amax bmin bmax : Z).

(** [g] is monotone, in one direction or the other, on an interval. *)
Definition monotone_on (g : Z -> Z) (lo hi : Z) : Prop :=
  (forall x y, lo <= x <= y -> y <= hi -> g x <= g y)
  \/ (forall x y, lo <= x <= y -> y <= hi -> g y <= g x).

Lemma monotone_hull g lo hi x :
  monotone_on g lo hi -> lo <= x <= hi -> Z.min (g lo) (g hi) <= g x <= Z.max (g lo) (g hi).
Proof using.
  intros [H | H] Hx; pose proof (H lo x ltac:(lia) ltac:(lia));
    pose proof (H x hi ltac:(lia) ltac:(lia)); lia.
Qed.

Lemma corner_hull x y :
  (forall y, bmin <= y <= bmax -> monotone_on (fun x => f x y) amin amax) ->
  monotone_on (f amin) bmin bmax -> monotone_on (f amax) bmin bmax ->
  amin <= x <= amax -> bmin <= y <= bmax ->
  Z.min (Z.min (f amin bmin) (f amin bmax)) (Z.min (f amax bmin) (f amax bmax)) <= f x y
  <= Z.max (Z.max (f amin bmin) (f amin bmax)) (Z.max (f amax bmin) (f amax bmax)).
Proof using.
  intros Hx Hl Hh Bx By. pose proof (monotone_hull _ _ _ x (Hx y By) Bx).
  pose proof (monotone_hull _ _ _ y Hl By). pose proof (monotone_hull _ _ _ y Hh By).
  cbn beta in *. lia.
Qed.
End Corners.

Lemma mul_monotone_l y lo hi : monotone_on (fun x => x * y) lo hi.
Proof. destruct (Z.le_ge_cases 0 y); [left | right]; intros; nia. Qed.
Lemma mul_monotone_r x lo hi : monotone_on (Z.mul x) lo hi.
Proof. destruct (Z.le_ge_cases 0 x); [left | right]; intros; nia. Qed.

(** Divisor intervals that exclude zero. *)
Definition nonzero (lo hi : Z) : Prop := 0 < lo \/ hi < 0.

Lemma div_anti_pos x y1 y2 : x < 0 -> 0 < y1 <= y2 -> x / y1 <= x / y2.
Proof.
  intros Hx Hy. apply Z.div_le_lower_bound; [lia |].
  pose proof (Z.mul_div_le x y1 ltac:(lia)).
  assert (x / y1 < 0) by (apply Z.div_lt_upper_bound; lia). nia.
Qed.

Lemma div_monotone_l y lo hi : y <> 0 -> monotone_on (fun x => x / y) lo hi.
Proof.
  intros Hy. destruct (Z.lt_trichotomy y 0) as [H | [H | H]]; [right | lia | left]; intros a b Hab _.
  - rewrite <- (Z.div_opp_opp a y), <- (Z.div_opp_opp b y) by lia. apply Z.div_le_mono; lia.
  - apply Z.div_le_mono; lia.
Qed.

Lemma div_monotone_r x lo hi : nonzero lo hi -> monotone_on (Z.div x) lo hi.
Proof.
  intros Hn. assert (P : forall x lo hi, 0 < lo -> monotone_on (Z.div x) lo hi).
  { clear. intros x lo hi Hl. destruct (Z.le_gt_cases 0 x); [right | left]; intros a b Hab _.
    - apply Z.div_le_compat_l; lia.
    - apply div_anti_pos; lia. }
  destruct Hn as [Hn | Hn]; [now apply P |].
  assert (E : forall a, a <= hi -> x / a = (- x) / (- a))
    by (intros; symmetry; apply Z.div_opp_opp; lia).
  destruct (P (- x) (- hi) (- lo) ltac:(lia)) as [M | M]; [right | left]; intros a b Hab Hb;
    rewrite (E a), (E b) by lia; apply M; lia.
Qed.

Lemma quot_monotone_l y lo hi : y <> 0 -> monotone_on (fun x => Z.quot x y) lo hi.
Proof.
  intros Hy. destruct (Z.lt_trichotomy y 0) as [H | [H | H]]; [right | lia | left]; intros a b Hab _.
  - replace y with (- - y) by lia. rewrite (Z.quot_opp_r a (- y)), (Z.quot_opp_r b (- y)) by lia.
    pose proof (Z.quot_le_mono a b (- y)). lia.
  - apply Z.quot_le_mono; lia.
Qed.

Lemma quot_monotone_r x lo hi : nonzero lo hi -> monotone_on (Z.quot x) lo hi.
Proof.
  intros Hn. assert (P : forall x lo hi, 0 <= x -> 0 < lo -> forall a b, lo <= a <= b -> b <= hi ->
                           Z.quot x b <= Z.quot x a) by (intros; apply Z.quot_le_compat_l; lia).
  assert (S : forall a b, Z.quot (- a) b = - Z.quot a b \/ b = 0)
    by (intros a b; destruct (Z.eq_dec b 0); [tauto | left; now apply Z.quot_opp_l]).
  assert (T : forall a b, Z.quot a (- b) = - Z.quot a b \/ b = 0)
    by (intros a b; destruct (Z.eq_dec b 0); [tauto | left; now apply Z.quot_opp_r]).
  destruct (Z.le_gt_cases 0 x), Hn as [Hn | Hn]; [right | right | left | left]; intros a b Hab Hb.
  - apply (P x lo hi); lia.
  - pose proof (P x (- hi) (- lo) ltac:(lia) ltac:(lia) (- b) (- a) ltac:(lia) ltac:(lia)).
    destruct (T x a), (T x b); lia.
  - pose proof (P (- x) lo hi ltac:(lia) ltac:(lia) a b ltac:(lia) ltac:(lia)).
    destruct (S x a), (S x b); lia.
  - pose proof (P (- x) (- hi) (- lo) ltac:(lia) ltac:(lia) (- b) (- a) ltac:(lia) ltac:(lia)).
    destruct (T (- x) a), (T (- x) b), (S x a), (S x b); lia.
Qed.

Lemma shl_monotone_l y lo hi : 0 <= y -> monotone_on (fun x => Z.shiftl x y) lo hi.
Proof.
  intros Hy. left. intros a b Hab _. rewrite !Z.shiftl_mul_pow2 by lia.
  pose proof (Z.pow_pos_nonneg 2 y). nia.
Qed.

Lemma shl_monotone_r x lo hi : 0 <= lo -> monotone_on (Z.shiftl x) lo hi.
Proof.
  intros Hl. destruct (Z.le_ge_cases 0 x); [left | right]; intros a b Hab _;
    rewrite !Z.shiftl_mul_pow2 by lia; pose proof (Z.pow_le_mono_r 2 a b); nia.
Qed.

Lemma shr_monotone_l y lo hi : 0 <= y -> monotone_on (fun x => Z.shiftr x y) lo hi.
Proof.
  intros Hy. left. intros a b Hab _. rewrite !Z.shiftr_div_pow2 by lia.
  apply Z.div_le_mono; [apply Z.pow_pos_nonneg |]; lia.
Qed.

Lemma shr_monotone_r x lo hi : 0 <= lo -> monotone_on (Z.shiftr x) lo hi.
Proof.
  intros Hl. assert (Q : forall a, 0 <= a -> 0 < 2 ^ a) by (intros; apply Z.pow_pos_nonneg; lia).
  destruct (div_monotone_r x (2 ^ lo) (2 ^ hi)) as [M | M];
    [left; apply Q; lia | left | right]; intros a b Hab Hb;
    rewrite !Z.shiftr_div_pow2 by lia; apply M; try split; apply Z.pow_le_mono_r; lia.
Qed.

(** ** Intervals of constants *)

(** The range [r] is an interval of dtype [s] holding every value [v] can have. *)
Definition encloses (s : ScalarDType) (r : range) (v : option Z) : Prop :=
  exists lo hi, r = (of_Z s lo, of_Z s hi) /\ fits s lo /\ fits s hi
    /\ forall z, v = Some z -> lo <= z <= hi.

Lemma encloses_intro s lo hi v :
  fits s lo -> fits s hi -> (forall z, v = Some z -> lo <= z <= hi) ->
  encloses s (of_Z s lo, of_Z s hi) v.
Proof. intros Hl Hh Hv. exists lo, hi. auto. Qed.

Section Constants.
Context (s : ScalarDType) (Hs : is_int_or_bool s = true).

Lemma integer_value_of_Z z : fits s z -> integer_value (of_Z s z) = Some z.
Proof using Hs. intros Hz. pose proof (to_Z_of_Z s z Hs Hz). destruct (of_Z s z); exact H. Qed.

Lemma of_Z_inj a b : fits s a -> fits s b -> of_Z s a = of_Z s b -> a = b.
Proof using Hs.
  intros Ha Hb E. pose proof (to_Z_of_Z s a Hs Ha). pose proof (to_Z_of_Z s b Hs Hb). congruence.
Qed.

Lemma const_eqb_of_Z a b : fits s a -> fits s b -> const_eqb (of_Z s a) (of_Z s b) = (a =? b).
Proof using Hs.
  intros Ha Hb. unfold of_Z. destruct (int_format s) as [[[] w] |] eqn:F; try reflexivity.
  destruct (bool_values s a F Ha) as [-> | ->], (bool_values s b F Hb) as [-> | ->]; reflexivity.
Qed.

Lemma compare_of_Z a b :
  fits s a -> fits s b -> compare_const_values (of_Z s a) (of_Z s b) = (a ?= b).
Proof using Hs.
  intros Ha Hb. unfold of_Z. destruct (int_format s) as [[[] w] |] eqn:F; try reflexivity.
  destruct (bool_values s a F Ha) as [-> | ->], (bool_values s b F Hb) as [-> | ->]; reflexivity.
Qed.

Lemma analyzer_compare_of_Z a b :
  fits s a -> fits s b -> ComparisonAnalyzer.compare_values (of_Z s a) (of_Z s b) = (a ?= b).
Proof using Hs.
  intros Ha Hb. unfold of_Z. destruct (int_format s) as [[[] w] |] eqn:F; try reflexivity.
  destruct (bool_values s a F Ha) as [-> | ->], (bool_values s b F Hb) as [-> | ->]; reflexivity.
Qed.

Lemma not_nan_of_Z z : ComparisonAnalyzer.is_nan_const (of_Z s z) = false.
Proof using. unfold of_Z. destruct (int_format s) as [[[] w] |]; reflexivity. Qed.

Lemma ordered_of_Z z : ordered_value (of_Z s z) = true.
Proof using. unfold ordered_value. now rewrite not_nan_of_Z, of_Z_not_invalid. Qed.

Lemma exact_of_Z z : exact_when_ordered (of_Z s z) = Some (of_Z s z, of_Z s z).
Proof using. unfold exact_when_ordered. now rewrite ordered_of_Z. Qed.

Lemma min_value_of_Z a b :
  fits s a -> fits s b -> min_value (of_Z s a) (of_Z s b) = of_Z s (Z.min a b).
Proof using Hs.
  intros Ha Hb. unfold min_value. rewrite compare_of_Z by assumption.
  destruct (Z.compare_spec a b); f_equal; lia.
Qed.

Lemma max_value_of_Z a b :
  fits s a -> fits s b -> max_value (of_Z s a) (of_Z s b) = of_Z s (Z.max a b).
Proof using Hs.
  intros Ha Hb. unfold max_value. rewrite compare_of_Z by assumption.
  destruct (Z.compare_spec a b); f_equal; lia.
Qed.

(** A range without zero, of an integer dtype, holds no zero. *)
Lemma contains_zero_of_Z a b z :
  s <> Bool -> fits s a -> fits s b -> contains_zero (of_Z s a) (of_Z s b) = false ->
  a <= z <= b -> z <> 0.
Proof using Hs.
  intros Hb Fa Fb. unfold of_Z, fits, dtype_lo in *.
  destruct (int_format s) as [[[] w] |] eqn:F; cbn [contains_zero].
  - rewrite Z.geb_leb. intros H. zb; lia.
  - intros H. zb. lia.
  - destruct s; try discriminate F; try discriminate Hs; now elim Hb.
Qed.

Lemma dtype_min_max : const_min s = of_Z s (dtype_lo s) /\ const_max s = of_Z s (dtype_hi s).
Proof using Hs. destruct s; try discriminate Hs; split; reflexivity. Qed.

Lemma dtype_lo_hi : fits s (dtype_lo s) /\ fits s (dtype_hi s).
Proof using Hs.
  unfold fits, dtype_lo, dtype_hi. destruct s; try discriminate Hs; vm_compute; intuition congruence.
Qed.

Lemma integer_dtype_bounds_eq : integer_dtype_bounds s = Some (dtype_lo s, dtype_hi s).
Proof using Hs. destruct s; try discriminate Hs; reflexivity. Qed.

Lemma make_value_of_Z z : fits s z -> make_value s z = Some (of_Z s z).
Proof using Hs.
  intros Hz. unfold make_value.
  assert (E : (if ScalarDType.is_unsigned s
               then let? v := try_u64 z in Some (ConstValue.UInt v)
               else let? v := try_i64 z in Some (ConstValue.Int v))
              = Some (if ScalarDType.is_unsigned s then ConstValue.UInt z else ConstValue.Int z)).
  { unfold try_u64, try_i64, in_u64b, in_i64b, fits, dtype_lo, dtype_hi in *.
    destruct s; try discriminate Hs; cbn [ScalarDType.is_unsigned int_format] in *;
      repeat (match goal with |- context [?a <=? ?b] => rewrite (proj2 (Z.leb_le a b)) by solve_fits
              | |- context [?a <? ?b] => rewrite (proj2 (Z.ltb_lt a b)) by solve_fits end);
      reflexivity. }
  rewrite E, (cast_wraps _ z s Hs); [now rewrite wrap_to_id | |].
  - unfold fits, dtype_lo, dtype_hi in Hz.
    destruct s; try discriminate Hs; cbn [ScalarDType.is_unsigned machine int_format] in *;
      unfold in_s, in_u; solve_fits.
  - destruct (ScalarDType.is_unsigned s); reflexivity.
Qed.
End Constants.

Section Enclose.
Context (d : DType).
Let s := DType.base d.
Context (Hs : is_int_or_bool s = true).

Lemma not_float : ScalarDType.is_float s = false.
Proof using Hs. destruct s; discriminate || reflexivity. Qed.

Lemma not_float_dtype : DType.is_float d = false.
Proof using Hs.
  pose proof not_float as F. unfold DType.is_float, s in *. destruct d; cbn in F |- *; auto.
Qed.

Lemma bounds_enclose v :
  (forall z, v = Some z -> fits s z) -> encloses s (dtype_bounds d) v.
Proof using Hs.
  intros Hv. destruct (dtype_min_max s Hs) as [E1 E2]. destruct (dtype_lo_hi s Hs).
  unfold dtype_bounds, analysis_bounds. fold s. rewrite not_float, E1, E2.
  now apply encloses_intro.
Qed.

(** Committing a mathematical interval that holds the value before
    reduction: inside the dtype there is no reduction. *)
Lemma commit_encloses lo hi r v :
  commit_integer_math_range lo hi d = Some r ->
  (forall z, v = Some z -> exists m, z = wrap_to s m /\ lo <= m <= hi) ->
  encloses s r v.
Proof using Hs.
  unfold commit_integer_math_range. fold s. rewrite integer_dtype_bounds_eq by exact Hs.
  intros H Hv. destruct ((lo >? hi) || (lo <? dtype_lo s) || (hi >? dtype_hi s)) eqn:C; [discriminate |].
  rewrite !Z.gtb_ltb in C. zb.
  assert (fits s lo /\ fits s hi) as [Fl Fh] by (unfold fits; lia).
  rewrite !make_value_of_Z in H by assumption. injection H as <-.
  apply encloses_intro; auto. intros z Hz. destruct (Hv z Hz) as (m & -> & Hm).
  rewrite wrap_to_id; unfold fits in *; lia || exact Hs.
Qed.

Lemma exact_encloses z v :
  fits s z -> (forall x, v = Some x -> x = z) -> encloses s (of_Z s z, of_Z s z) v.
Proof using. intros Hz Hv. apply encloses_intro; auto. intros x ->%Hv. lia. Qed.

(** Either the committed range or the bounds of the dtype. *)
Lemma commit_or_bounds m v :
  (forall z, v = Some z -> fits s z) ->
  (forall lo hi, m = Some (lo, hi) -> forall z, v = Some z -> exists x, z = wrap_to s x /\ lo <= x <= hi) ->
  encloses s (or_bounds (let? (lo, hi) := m in commit_integer_math_range lo hi d) d) v.
Proof using Hs.
  intros Hf Hm. destruct m as [[lo hi] |]; [| now apply bounds_enclose].
  destruct (commit_integer_math_range lo hi d) as [r |] eqn:E; cbn [or_bounds];
    [| now apply bounds_enclose].
  eapply commit_encloses; eauto.
Qed.
End Enclose.

Lemma encloses_None s r v :
  encloses s r v -> exists lo hi, r = (of_Z s lo, of_Z s hi) /\ fits s lo /\ fits s hi.
Proof. intros (lo & hi & H); exists lo, hi; tauto. Qed.

(** *** The union of two intervals *)
Lemma union2_encloses s r1 r2 v1 v2 v :
  is_int_or_bool s = true -> encloses s r1 v1 -> encloses s r2 v2 ->
  (forall z, v = Some z -> v1 = Some z \/ v2 = Some z) -> encloses s (union2 r1 r2) v.
Proof.
  intros Hs (l1 & h1 & -> & F1 & G1 & H1) (l2 & h2 & -> & F2 & G2 & H2) Hv.
  unfold union2; cbn [fst snd]. rewrite min_value_of_Z, max_value_of_Z by assumption.
  unfold fits in *. apply encloses_intro; unfold fits; try lia.
  intros z Hz. destruct (Hv z Hz) as [E | E]; [specialize (H1 z E) | specialize (H2 z E)]; lia.
Qed.

(** *** Corners in [i128] *)
Lemma fold_corners_bounds values acc lo hi :
  fold_corners acc values = Some (lo, hi) ->
  (forall v, In v values -> exists z, v = Some z /\ lo <= z <= hi)
  /\ (forall l h, acc = Some (l, h) -> lo <= l /\ h <= hi).
Proof.
  revert acc. induction values as [| v values IH]; intros acc H; cbn [fold_corners] in H.
  - split; [intros ? [] |]. intros l h ->. injection H as -> ->. lia.
  - destruct v as [z |]; [| discriminate]. apply IH in H as [H1 H2].
    destruct acc as [[l h] |]; cbn [min_max] in H2; specialize (H2 _ _ eq_refl); split.
    + intros v [<- | Hv]; [exists z; split; [reflexivity | lia] | auto].
    + intros l' h' [= <- <-]. lia.
    + intros v [<- | Hv]; [exists z; split; [reflexivity | lia] | auto].
    + discriminate.
Qed.

(** A partial corner evaluation [g] of a monotone [f] bounds [f] on the box. *)
Lemma corner_range_sound f g amin amax bmin bmax lo hi x y :
  integer_corner_range amin amax bmin bmax g = Some (lo, hi) ->
  (forall a b z, bmin <= b <= bmax -> g a b = Some z -> z = f a b) ->
  (forall y, bmin <= y <= bmax -> monotone_on (fun x => f x y) amin amax) ->
  (forall x, monotone_on (f x) bmin bmax) ->
  amin <= x <= amax -> bmin <= y <= bmax -> lo <= f x y <= hi.
Proof.
  intros H Hg Hl Hr Hx Hy. unfold integer_corner_range in H.
  apply fold_corners_bounds in H as [H _].
  assert (C : forall a b, In (g a b) [g amin bmin; g amin bmax; g amax bmin; g amax bmax] ->
                bmin <= b <= bmax -> lo <= f a b <= hi).
  { intros a b Hin Hb. destruct (H _ Hin) as (z & E & Hz). now rewrite <- (Hg _ _ _ Hb E). }
  pose proof (corner_hull f amin amax bmin bmax x y Hl (Hr amin) (Hr amax) Hx Hy).
  pose proof (C amin bmin ltac:(cbn; tauto) ltac:(lia)).
  pose proof (C amin bmax ltac:(cbn; tauto) ltac:(lia)).
  pose proof (C amax bmin ltac:(cbn; tauto) ltac:(lia)).
  pose proof (C amax bmax ltac:(cbn; tauto) ltac:(lia)). lia.
Qed.

Lemma dtype_bounds_eq d :
  is_int_or_bool (DType.base d) = true ->
  dtype_bounds d = (of_Z (DType.base d) (dtype_lo (DType.base d)),
                    of_Z (DType.base d) (dtype_hi (DType.base d))).
Proof.
  intros Hs. unfold dtype_bounds, analysis_bounds. rewrite not_float by exact Hs.
  destruct (dtype_min_max _ Hs) as [-> ->]. reflexivity.
Qed.

Lemma int_or_bool_cases s :
  is_int_or_bool s = true ->
  (s = Bool /\ ScalarDType.is_int s = false) \/ (s <> Bool /\ ScalarDType.is_int s = true).
Proof. destruct s; try discriminate; intros _; cbn; [left | right ..]; split; congruence. Qed.

Section OpRanges.
Context {M : LibM} (d : DType).
Let s := DType.base d.
Context (Hs : is_int_or_bool s = true).

Local Ltac fit := unfold fits in *; lia.

(** *** Unary operations *)

Lemma sem_not x : fits s x -> sem_unary UnaryOp.Not s x = Some (dtype_lo s + dtype_hi s - x).
Proof using Hs.
  intros Hx. cbn [sem_unary]. unfold fits, dtype_lo, dtype_hi in *.
  destruct s eqn:E; try discriminate Hs; cbn [ScalarDType.is_bool int_format] in *; f_equal;
    try solve_fits; unfold wrap_to; cbn [int_format];
    first [rewrite wrap_s_small by (try lia; unfold in_s, Z.lnot; solve_fits); unfold Z.lnot; solve_fits
          | unfold wrap_u; rewrite <- (Z_mod_plus_full (Z.lnot x) 1), Z.mod_small;
            unfold Z.lnot; solve_fits].
Qed.

(** The values of a unary operation whose operand lies in [[l, h]]. *)
Definition unary_values (op : UnaryOp) (l h : Z) (v : option Z) : Prop :=
  forall z, v = Some z -> exists a, l <= a <= h /\ fits s a /\ sem_unary op s a = Some z.

Lemma unary_values_fit op l h v : unary_values op l h v -> forall z, v = Some z -> fits s z.
Proof using Hs.
  intros Hv z Hz. destruct (Hv z Hz) as (a & _ & Fa & E). eapply sem_unary_fits; eassumption.
Qed.

Lemma neg_int_sound l h v :
  fits s l -> fits s h -> unary_values UnaryOp.Neg l h v ->
  encloses s (or_bounds (let? vmax := integer_value (of_Z s h) in
                         let? min := checked_i128 (- vmax) in
                         let? vmin := integer_value (of_Z s l) in
                         let? max := checked_i128 (- vmin) in
                         commit_integer_math_range min max d) d) v.
Proof using Hs.
  intros Fl Fh Hv. rewrite !integer_value_of_Z by assumption.
  pose proof (unary_values_fit _ _ _ _ Hv) as Hf.
  destruct (checked_i128 (- h)) as [m |] eqn:E1; [| now apply bounds_enclose].
  destruct (checked_i128 (- l)) as [n |] eqn:E2; [| now apply bounds_enclose].
  apply checked_i128_Some in E1 as ->, E2 as ->.
  apply (commit_or_bounds d Hs (Some (- h, - l))); [exact Hf |].
  intros lo hi [= <- <-] z Hz. destruct (Hv z Hz) as (a & Ha & _ & [= <-]).
  exists (- a). split; [reflexivity | lia].
Qed.

Lemma not_int_sound l h v :
  fits s l -> fits s h -> unary_values UnaryOp.Not l h v ->
  encloses s (or_bounds (let? min := eval_unary_op_typed UnaryOp.Not (of_Z s h) s in
                         let? max := eval_unary_op_typed UnaryOp.Not (of_Z s l) s in
                         when_ordered (min, max)) d) v.
Proof using Hs.
  intros Fl Fh Hv. pose proof (unary_values_fit _ _ _ _ Hv) as Hf.
  destruct (eval_unary_op_typed _ (of_Z s h) s) as [m |] eqn:E1; [| now apply bounds_enclose].
  destruct (eval_unary_op_typed _ (of_Z s l) s) as [n |] eqn:E2; [| now apply bounds_enclose].
  destruct (eval_unary_refines _ s h m Hs Fh E1) as (m' & S1 & ->).
  destruct (eval_unary_refines _ s l n Hs Fl E2) as (n' & S2 & ->).
  pose proof (sem_unary_fits _ _ _ _ Hs Fh S1). pose proof (sem_unary_fits _ _ _ _ Hs Fl S2).
  rewrite sem_not in S1, S2 by assumption. injection S1 as <-. injection S2 as <-.
  unfold when_ordered. destruct (ordered_range _ _); [| now apply bounds_enclose].
  apply encloses_intro; try assumption. intros z Hz. destruct (Hv z Hz) as (a & Ha & Fa & E).
  rewrite sem_not in E by assumption. injection E as <-. lia.
Qed.

Lemma bool_unary_sound op l h v :
  s = Bool -> op = UnaryOp.Neg \/ op = UnaryOp.Not -> fits s l -> fits s h ->
  unary_values op l h v ->
  encloses s (value_or (eval_unary_op op (of_Z s h)) (fst (dtype_bounds d)),
              value_or (eval_unary_op op (of_Z s l)) (snd (dtype_bounds d))) v.
Proof using Hs.
  intros B Hop Fl Fh Hv. pose proof (unary_values_fit _ _ _ _ Hv) as Hf.
  pose proof (dtype_bounds_eq d Hs) as Eb. fold s in Eb. rewrite Eb. cbn [fst snd].
  destruct Hop as [-> | ->].
  - assert (N : forall z, eval_unary_op UnaryOp.Neg (of_Z s z) = None) by (rewrite B; reflexivity).
    rewrite !N. cbn [value_or]. rewrite <- Eb. now apply bounds_enclose.
  - assert (N : forall z, fits s z ->
              eval_unary_op UnaryOp.Not (of_Z s z) = Some (of_Z s (dtype_lo s + dtype_hi s - z))).
    { rewrite B. intros z Hz. destruct (bool_values Bool z eq_refl Hz) as [-> | ->]; reflexivity. }
    rewrite !N by assumption. cbn [value_or].
    apply encloses_intro; [fit | fit |]. intros z Hz. destruct (Hv z Hz) as (a & Ha & Fa & E).
    rewrite sem_not in E by assumption. injection E as <-. lia.
Qed.

Lemma unary_range_sound op l h v :
  (op = UnaryOp.Neg \/ op = UnaryOp.Not) -> fits s l -> fits s h -> unary_values op l h v ->
  encloses s (compute_unary_range op (of_Z s l) (of_Z s h) d) v.
Proof using Hs.
  intros Hop Fl Fh Hv. unfold compute_unary_range. fold s. rewrite const_eqb_of_Z by assumption.
  destruct (if l =? h then _ else _) as [c |] eqn:C.
  - destruct (Z.eqb_spec l h) as [<- | N]; [| discriminate C].
    destruct (eval_unary_refines op s l c Hs Fl C) as (z & Hz & ->).
    apply exact_encloses; [eapply sem_unary_fits; eassumption |].
    intros z' Hz'. destruct (Hv z' Hz') as (a & Ha & _ & E).
    assert (a = l) as -> by lia. congruence.
  - clear C. destruct (int_or_bool_cases s Hs) as [[B ->] | [_ ->]].
    + destruct Hop as [-> | ->]; apply bool_unary_sound; auto.
    + destruct Hop as [-> | ->]; [now apply neg_int_sound | now apply not_int_sound].
Qed.

(** *** Binary operations on integers *)

(** The values of a binary operation on the box [[al, ah] x [bl, bh]]. *)
Definition binary_values (op : BinaryOp) (al ah bl bh : Z) (v : option Z) : Prop :=
  forall z, v = Some z -> exists a b, al <= a <= ah /\ bl <= b <= bh
    /\ fits s a /\ fits s b /\ sem_binary op s a b = Some z.

Lemma binary_values_fit op al ah bl bh v :
  binary_values op al ah bl bh v -> forall z, v = Some z -> fits s z.
Proof using Hs.
  intros Hv z Hz. destruct (Hv z Hz) as (a & b & _ & _ & Fa & Fb & E).
  exact (sem_binary_fits op s a b z Hs Fa Fb E).
Qed.

Lemma checked_div_i128_Some a b q : checked_div_i128 a b = Some q -> q = Z.quot a b /\ b <> 0.
Proof using.
  unfold checked_div_i128. intros H. destruct ((b =? 0) || _) eqn:E; inv_opt; zb; auto.
Qed.

Lemma floor_div_i128_Some a b q : floor_div_i128 a b = Some q -> q = a / b /\ b <> 0.
Proof using.
  unfold floor_div_i128. intros H. destruct (checked_div_i128 a b) as [q' |] eqn:Q; [| discriminate].
  apply checked_div_i128_Some in Q as [-> Hb].
  assert (R : checked_rem_i128 a b = Some (Z.rem a b) \/ checked_rem_i128 a b = None)
    by (unfold checked_rem_i128; destruct (_ || _); auto).
  destruct R as [R | R]; rewrite R in H; [| discriminate]. split; [| exact Hb].
  destruct (floor_of_quot a b Hb) as [-> _].
  destruct (negb (Z.rem a b =? 0) && _); [now apply checked_i128_Some in H | congruence].
Qed.

(** Each mathematical range holds the unreduced result. *)
Definition math_sound (op : BinaryOp) (al ah bl bh : Z) (m : option (Z * Z)) : Prop :=
  forall lo hi, m = Some (lo, hi) -> forall a b z, al <= a <= ah -> bl <= b <= bh ->
    fits s a -> fits s b -> sem_binary op s a b = Some z ->
    exists x, z = wrap_to s x /\ lo <= x <= hi.

Local Ltac open_math :=
  intros lo hi H a b z Ha Hb Fa Fb E; cbn [sem_binary] in E.

Local Ltac known_checked :=
  inv_opt; repeat match goal with
  | E : checked_i128 _ = Some _ |- _ => apply checked_i128_Some in E; subst
  end.

Lemma mul_math al ah bl bh :
  math_sound BinaryOp.Mul al ah bl bh
    (integer_corner_range al ah bl bh (fun a b => checked_i128 (a * b))).
Proof using.
  open_math. injection E as <-. exists (a * b). split; [reflexivity |].
  apply (corner_range_sound Z.mul _ _ _ _ _ _ _ _ _ H); try assumption.
  - intros ? ? ? _ C. now apply checked_i128_Some in C.
  - intros. apply mul_monotone_l.
  - intros. apply mul_monotone_r.
Qed.

Lemma outside_zero bl bh : (bl <=? 0) && (bh >=? 0) = false -> bl <= bh -> nonzero bl bh.
Proof using. unfold nonzero. rewrite Z.geb_leb. intros H Hb. zb; lia. Qed.

Lemma div_math al ah bl bh :
  nonzero bl bh ->
  math_sound BinaryOp.FloorDiv al ah bl bh (integer_corner_range al ah bl bh floor_div_i128)
  /\ math_sound BinaryOp.CDiv al ah bl bh (integer_corner_range al ah bl bh checked_div_i128).
Proof using.
  intros Hn. split; open_math; destruct (b =? 0); try discriminate E; injection E as <-.
  - exists (a / b). split; [reflexivity |].
    apply (corner_range_sound Z.div _ _ _ _ _ _ _ _ _ H); try assumption.
    + intros ? ? ? _ C. now apply floor_div_i128_Some in C.
    + intros y Hy. apply div_monotone_l. unfold nonzero in Hn. lia.
    + intros. now apply div_monotone_r.
  - exists (Z.quot a b). split; [reflexivity |].
    apply (corner_range_sound Z.quot _ _ _ _ _ _ _ _ _ H); try assumption.
    + intros ? ? ? _ C. now apply checked_div_i128_Some in C.
    + intros y Hy. apply quot_monotone_l. unfold nonzero in Hn. lia.
    + intros. now apply quot_monotone_r.
Qed.

Lemma floor_mod_math al ah bl bh limit :
  nonzero bl bh -> limit = Z.max (Z.abs bl) (Z.abs bh) - 1 ->
  math_sound BinaryOp.FloorMod al ah bl bh
    (Some (if bl >? 0 then (0, limit) else (- limit, 0))).
Proof using.
  intros Hn -> lo hi H a b z Ha Hb Fa Fb E. cbn [sem_binary] in E.
  destruct (Z.eqb_spec b 0); [discriminate |]. injection E as <-. exists (a mod b).
  split; [reflexivity |]. rewrite Z.gtb_ltb in H.
  destruct (Z.ltb_spec 0 bl), Hn; injection H as <- <-; try lia.
  - pose proof (Z.mod_pos_bound a b). lia.
  - pose proof (Z.mod_neg_bound a b). lia.
Qed.

Lemma cmod_math al ah bl bh limit :
  nonzero bl bh -> limit = Z.max (Z.abs bl) (Z.abs bh) - 1 ->
  math_sound BinaryOp.CMod al ah bl bh
    (Some (if al >=? 0 then (0, Z.min ah limit)
           else if ah <=? 0 then (Z.max al (- limit), 0)
           else (Z.max al (- limit), Z.min ah limit))).
Proof using.
  intros Hn -> lo hi H a b z Ha Hb Fa Fb E. cbn [sem_binary] in E.
  destruct (Z.eqb_spec b 0) as [| Hb0]; [discriminate |]. injection E as <-. exists (Z.rem a b).
  split; [reflexivity |]. pose proof (rem_bounds a b Hb0) as R.
  assert (S : Z.abs (Z.rem a b) <= Z.abs a) 
    by (rewrite <- Z.rem_abs by assumption; apply Z.rem_le; lia).
  assert (P : 0 <= a -> 0 <= Z.rem a b) by (intros; apply Z.rem_nonneg; assumption).
  assert (N : a <= 0 -> Z.rem a b <= 0) by (intros; apply Z.rem_nonpos; assumption).
  assert (L : Z.abs b <= Z.max (Z.abs bl) (Z.abs bh)) by lia.
  rewrite Z.geb_leb in H.
  destruct (Z.leb_spec 0 al); [| destruct (Z.leb_spec ah 0)]; injection H as <- <-; lia.
Qed.

Lemma try_u32_small y : 0 <= y < 64 -> try_u32 y = Some y.
Proof using.
  intros Hy. unfold try_u32. rewrite (proj2 (Z.leb_le 0 y)) by lia.
  rewrite (proj2 (Z.ltb_lt y (2 ^ 32))) by solve_fits. reflexivity.
Qed.

Lemma shl_corner x y : 0 <= y < 64 -> forall w,
  (let? p := checked_shl_one y in checked_i128 (x * p)) = Some w -> w = Z.shiftl x y.
Proof using.
  intros Hy w. unfold checked_shl_one. rewrite (proj2 (Z.ltb_lt y 128)) by lia.
  assert (P : 0 < 2 ^ y <= 2 ^ 63)
    by (split; [apply Z.pow_pos_nonneg | apply Z.pow_le_mono_r]; lia).
  rewrite Z.shiftl_1_l, wrap_s_small; [| lia | unfold in_s; solve_fits].
  intros H%checked_i128_Some. now rewrite Z.shiftl_mul_pow2 by lia.
Qed.

Lemma shift_math op al ah bl bh :
  op = BinaryOp.Shl \/ op = BinaryOp.Shr -> 0 <= bl -> bh < 64 ->
  math_sound op al ah bl bh (integer_shift_range op al ah bl bh).
Proof using.
  intros Hop Hbl Hbh. unfold integer_shift_range. destruct Hop as [-> | ->]; open_math;
    (destruct ((0 <=? b) && (b <? 64)); [| discriminate E]); injection E as <-;
    (eexists; split; [reflexivity |]).
  - apply (corner_range_sound Z.shiftl _ _ _ _ _ _ _ _ _ H); try assumption.
    + intros x y w Hy C. rewrite try_u32_small in C by lia. apply shl_corner in C; [exact C | lia].
    + intros. apply shl_monotone_l. lia.
    + intros. apply shl_monotone_r. lia.
  - apply (corner_range_sound Z.shiftr _ _ _ _ _ _ _ _ _ H); try assumption.
    + intros x y w Hy C. rewrite try_u32_small in C by lia. unfold checked_shr_i128 in C.
      rewrite (proj2 (Z.ltb_lt y 128)) in C by lia. congruence.
    + intros. apply shr_monotone_l. lia.
    + intros. apply shr_monotone_r. lia.
Qed.

Lemma mod_limit bl bh limit :
  (let? l := checked_i128 (Z.abs bl) in
   let? h := checked_i128 (Z.abs bh) in checked_i128 (Z.max l h - 1)) = Some limit ->
  limit = Z.max (Z.abs bl) (Z.abs bh) - 1.
Proof using.
  intros H. destruct (checked_i128 (Z.abs bl)) eqn:E1; [| discriminate].
  destruct (checked_i128 (Z.abs bh)) eqn:E2; [| discriminate].
  apply checked_i128_Some in E1, E2, H. congruence.
Qed.

Lemma width_bound w : integer_bit_width s = Some w -> w <= 64.
Proof using Hs. destruct s; cbn; intros H; inv_opt; lia. Qed.

(** The typed integer rules bound the unreduced result. *)
Lemma typed_math_sound op al ah bl bh m :
  typed_integer_math op al ah bl bh (integer_bit_width s) = Math m ->
  math_sound op al ah bl bh m.
Proof using Hs.
  intros T lo hi Hm a b z Ha Hb.
  assert (Hbb : bl <= bh) by lia.
  destruct op; cbn [typed_integer_math] in T; try discriminate T.
  - injection T as <-. intros Fa Fb [= <-]. exists (a + b). split; [reflexivity |]. known_checked. lia.
  - injection T as <-. revert lo hi Hm a b z Ha Hb. apply mul_math.
  - injection T as <-. intros Fa Fb [= <-]. exists (a - b). split; [reflexivity |]. known_checked. lia.
  - destruct (_ && _) eqn:Z0 in T; [discriminate T |].
    destruct (let? l := _ in _) as [limit |] eqn:L in T; [| discriminate T]. injection T as <-.
    exact (floor_mod_math al ah bl bh limit (outside_zero _ _ Z0 Hbb) (mod_limit _ _ _ L)
             lo hi Hm a b z Ha Hb).
  - destruct (_ && _) eqn:Z0 in T; [discriminate T |].
    destruct (let? l := _ in _) as [limit |] eqn:L in T; [| discriminate T]. injection T as <-.
    exact (cmod_math al ah bl bh limit (outside_zero _ _ Z0 Hbb) (mod_limit _ _ _ L)
             lo hi Hm a b z Ha Hb).
  - injection T as <-. injection Hm as <- <-. intros Fa Fb [= <-].
    exists (Z.max a b). split; [| lia]. symmetry. apply wrap_to_id; [exact Hs | fit].
  - destruct (_ && _) eqn:Z0 in T; [discriminate T |]. injection T as <-.
    exact (proj1 (div_math al ah bl bh (outside_zero _ _ Z0 Hbb)) lo hi Hm a b z Ha Hb).
  - destruct (_ && _) eqn:Z0 in T; [discriminate T |]. injection T as <-.
    exact (proj2 (div_math al ah bl bh (outside_zero _ _ Z0 Hbb)) lo hi Hm a b z Ha Hb).
  - destruct (integer_bit_width s) as [w |] eqn:W; [| discriminate T].
    destruct (_ || _) eqn:C in T; [discriminate T |]. injection T as <-. apply width_bound in W.
    rewrite Z.geb_leb in C. zb.
    rewrite !wrap_u_small in Hm by (try lia; unfold in_u; solve_fits).
    revert lo hi Hm a b z Ha Hb. apply shift_math; [tauto | lia | lia].
  - destruct (integer_bit_width s) as [w |] eqn:W; [| discriminate T].
    destruct (_ || _) eqn:C in T; [discriminate T |]. injection T as <-. apply width_bound in W.
    rewrite Z.geb_leb in C. zb.
    rewrite !wrap_u_small in Hm by (try lia; unfold in_u; solve_fits).
    revert lo hi Hm a b z Ha Hb. apply shift_math; [tauto | lia | lia].
Qed.

Lemma typed_binary_sound op al ah bl bh r v :
  fits s al -> fits s ah -> fits s bl -> fits s bh ->
  compute_typed_integer_binary_range op (of_Z s al) (of_Z s ah) (of_Z s bl) (of_Z s bh) d = Some r ->
  binary_values op al ah bl bh v -> encloses s r v.
Proof using Hs.
  intros F1 F2 F3 F4 H Hv. unfold compute_typed_integer_binary_range in H. fold s in H.
  rewrite !integer_value_of_Z, integer_dtype_bounds_eq in H by assumption.
  pose proof (binary_values_fit _ _ _ _ _ _ Hv) as Hf.
  destruct (_ && (-1 <=? bh)) in H; [injection H as <-; now apply bounds_enclose |].
  destruct (typed_integer_math _ _ _ _ _ _) as [| | m] eqn:T; [discriminate H | |].
  - injection H as <-. now apply bounds_enclose.
  - injection H as <-. apply (commit_or_bounds d Hs m); [exact Hf |].
    intros lo hi Hm z Hz. destruct (Hv z Hz) as (a & b & Ha & Hb & Fa & Fb & E).
    exact (typed_math_sound _ _ _ _ _ _ T lo hi Hm a b z Ha Hb Fa Fb E).
Qed.

(** The operations with a typed integer rule never fall through to the
    untyped ones. *)
Definition has_typed_rule (op : BinaryOp) : bool :=
  match op with
  | BinaryOp.Add | BinaryOp.Sub | BinaryOp.Mul | BinaryOp.Max | BinaryOp.FloorMod | BinaryOp.CMod
  | BinaryOp.FloorDiv | BinaryOp.CDiv | BinaryOp.Shl | BinaryOp.Shr => true
  | _ => false
  end.

Lemma checked_i128_small z : - 2 ^ 65 <= z <= 2 ^ 65 -> checked_i128 z = Some z.
Proof using.
  intros Hz. unfold checked_i128. rewrite (proj2 (in_i128b_spec z)); [reflexivity | solve_fits].
Qed.

Lemma fits_64 z : fits s z -> - 2 ^ 63 <= z < 2 ^ 64.
Proof using Hs.
  unfold fits, dtype_lo, dtype_hi. destruct s; try discriminate Hs; cbn [int_format]; solve_fits.
Qed.

Lemma typed_total op al ah bl bh :
  ScalarDType.is_int s = true -> has_typed_rule op = true ->
  fits s al -> fits s ah -> fits s bl -> fits s bh ->
  is_Some (compute_typed_integer_binary_range op (of_Z s al) (of_Z s ah) (of_Z s bl) (of_Z s bh) d).
Proof using Hs.
  intros Hi Hr F1 F2 F3 F4. unfold compute_typed_integer_binary_range. fold s.
  rewrite !integer_value_of_Z, integer_dtype_bounds_eq by assumption.
  destruct (_ && (-1 <=? bh)); [eauto |].
  pose proof (fits_64 bl F3). pose proof (fits_64 bh F4).
  assert (W : is_Some (integer_bit_width s)) by (destruct s; try discriminate Hi; eexists; reflexivity).
  destruct (typed_integer_math _ _ _ _ _ _) eqn:T; eauto. exfalso.
  destruct op; try discriminate Hr; cbn [typed_integer_math] in T; try discriminate T.
  1, 2: rewrite !checked_i128_small in T by (rewrite ?checked_i128_small; solve_fits).
  all: try (destruct (_ && _) in T; discriminate T).
  all: destruct W as [w W]; rewrite W in T; destruct (_ || _) in T; discriminate T.
Qed.

Lemma mask_sound al ah m v :
  ScalarDType.is_int s = true -> 0 <= m -> fits s m ->
  binary_values BinaryOp.And al ah m m v -> encloses s (of_Z s 0, of_Z s m) v.
Proof using Hs.
  intros Hi Hm Fm Hv.
  assert (F0 : fits s 0) by (unfold fits, dtype_lo, dtype_hi; destruct s; try discriminate Hi;
    vm_compute; intuition congruence).
  apply encloses_intro; try assumption. intros z Hz.
  destruct (Hv z Hz) as (a & b & _ & Hb & _ & _ & E). assert (b = m) as -> by lia.
  cbn [sem_binary] in E. injection E as <-.
  assert (L : 0 <= Z.land a m <= m).
  { now apply land_bound. }
  rewrite wrap_to_id by (exact Hs || fit). exact L.
Qed.

Lemma bool_no_rule op x y :
  BinaryOp.is_comparison op = false -> BinaryOp.is_bitwise op = false \/ is_division op = true
    \/ op = BinaryOp.Shl \/ op = BinaryOp.Shr ->
  eval_binary_op op (of_Z Bool x) (of_Z Bool y) = None.
Proof using.
  intros Hc Hn. destruct op; try discriminate Hc; try reflexivity;
    exfalso; intuition discriminate.
Qed.

Lemma bool_corners op al ah bl bh v :
  s = Bool -> op = BinaryOp.And \/ op = BinaryOp.Or ->
  fits s al -> fits s ah -> fits s bl -> fits s bh -> binary_values op al ah bl bh v ->
  encloses s (eval_four_corners op (of_Z s al) (of_Z s ah) (of_Z s bl) (of_Z s bh) d) v.
Proof using Hs.
  intros B Hop F1 F2 F3 F4 Hv. unfold binary_values in Hv. rewrite B in *.
  destruct (bool_values Bool al eq_refl F1) as [-> | ->],
    (bool_values Bool ah eq_refl F2) as [-> | ->],
    (bool_values Bool bl eq_refl F3) as [-> | ->],
    (bool_values Bool bh eq_refl F4) as [-> | ->]; destruct Hop as [-> | ->];
    match goal with |- encloses _ ?r _ => let r' := eval vm_compute in r in
      match r' with (ConstValue.Bool ?lo, ConstValue.Bool ?hi) =>
        change r with (of_Z Bool (Z.b2z lo), of_Z Bool (Z.b2z hi)) end end;
    (apply encloses_intro; [vm_compute; intuition congruence | vm_compute; intuition congruence |]);
    intros z Hz; destruct (Hv z Hz) as (a & b & Ha & Hb & Fa & Fb & E); cbn [sem_binary] in E;
    destruct (bool_values Bool a eq_refl Fa) as [-> | ->], (bool_values Bool b eq_refl Fb) as [-> | ->];
    try lia; vm_compute in E; injection E as <-; cbn; lia.
Qed.

Lemma untyped_bool_bounds op al ah bl bh :
  s = Bool -> has_typed_rule op = true ->
  untyped_binary_range op (of_Z s al) (of_Z s ah) (of_Z s bl) (of_Z s bh) d = dtype_bounds d.
Proof using.
  intros B Hr. rewrite B.
  assert (N : forall x y, eval_binary_op op (of_Z Bool x) (of_Z Bool y) = None)
    by (intros; destruct op; try discriminate Hr; reflexivity).
  assert (P : (fst (dtype_bounds d), snd (dtype_bounds d)) = dtype_bounds d)
    by (destruct (dtype_bounds d); reflexivity).
  destruct op; try discriminate Hr;
    unfold untyped_binary_range, float_or_bounds, eval_four_corners, compute_shift_range,
      floor_mod_range, cmod_range; rewrite ?N; cbn [value_or]; try exact P; try reflexivity;
    try (cbn [const_corners fold_left or_bounds]; destruct (contains_zero _ _); reflexivity);
    destruct (shift_bit_width d); reflexivity.
Qed.

Lemma is_int_base : DType.is_int d = true -> ScalarDType.is_int s = true.
Proof using Hs. unfold DType.is_int, s. destruct d; cbn; congruence. Qed.

Lemma is_bool_base : is_bool_dtype d = true -> s = Bool.
Proof using Hs. unfold is_bool_dtype, s. intros H%bool_decide_eq_true_1. now rewrite H. Qed.

(** The range of a binary operation, where a rule applies or both operands
    are constants. *)
Lemma binary_range_sound op al ah bl bh v :
  BinaryOp.is_comparison op = false ->
  (al = ah /\ bl = bh) \/ sound_binary_rule op d (of_Z s bl) (of_Z s bh) = true ->
  fits s al -> fits s ah -> fits s bl -> fits s bh -> binary_values op al ah bl bh v ->
  encloses s (compute_binary_range op (of_Z s al) (of_Z s ah) (of_Z s bl) (of_Z s bh) d) v.
Proof using Hs.
  intros Hc Hr F1 F2 F3 F4 Hv. pose proof (binary_values_fit _ _ _ _ _ _ Hv) as Hf.
  unfold compute_binary_range. fold s. rewrite !const_eqb_of_Z, Hc, andb_true_r by assumption.
  destruct ((al =? ah) && (bl =? bh)) eqn:C.
  - apply andb_prop in C as [<-%Z.eqb_eq <-%Z.eqb_eq].
    destruct (eval_binary_op_typed op _ _ s) as [c |] eqn:E; [| now apply bounds_enclose].
    destruct (eval_binary_refines op s al bl c Hc Hs F1 F3 E) as (z & Hz & -> & Fz).
    apply exact_encloses; [exact Fz |]. intros z' Hz'.
    destruct (Hv z' Hz') as (a & b & Ha & Hb & _ & _ & E').
    assert (a = al) as -> by lia. assert (b = bl) as -> by lia. congruence.
  - assert (R : sound_binary_rule op d (of_Z s bl) (of_Z s bh) = true).
    { destruct Hr as [[-> ->] | R]; [rewrite !Z.eqb_refl in C; discriminate C | exact R]. }
    destruct (int_or_bool_cases s Hs) as [[B ->] | [B Hi]].
    + cbn [andb]. destruct (has_typed_rule op) eqn:T.
      * rewrite untyped_bool_bounds by assumption. now apply bounds_enclose.
      * destruct op; try discriminate T; try discriminate R; try discriminate Hc;
          cbn [untyped_binary_range]; unfold compute_bitwise_range.
        -- cbn [sound_binary_rule] in R. destruct (is_bool_dtype d) eqn:D.
           ++ apply bool_corners; auto.
           ++ cbn [orb] in R. apply andb_prop in R as [[R _]%andb_prop _].
              apply is_int_base in R. rewrite B in R. discriminate R.
        -- cbn [sound_binary_rule] in R. rewrite R. apply bool_corners; auto.
    + rewrite Hi. destruct (has_typed_rule op) eqn:T.
      * destruct (typed_total op al ah bl bh Hi T F1 F2 F3 F4) as [r E]. rewrite E.
        exact (typed_binary_sound op al ah bl bh r v F1 F2 F3 F4 E Hv).
      * destruct op; try discriminate T; try discriminate R; try discriminate Hc;
          cbn [sound_binary_rule] in R; destruct (is_bool_dtype d) eqn:D;
          try (apply is_bool_base in D; contradiction); cbn [orb] in R; try discriminate R.
        apply andb_prop in R as [[_ R1]%andb_prop R2]. rewrite const_eqb_of_Z in R1 by assumption.
        apply Z.eqb_eq in R1 as <-.
        unfold compute_typed_integer_binary_range. rewrite !integer_value_of_Z by assumption.
        fold s. rewrite integer_dtype_bounds_eq by assumption. cbn [is_division andb typed_integer_math].
        cbn [untyped_binary_range]. unfold compute_bitwise_range. rewrite D.
        assert (S : exists w, int_format s = Some (true, w)).
        { destruct s; try discriminate R2; eexists; reflexivity. }
        destruct S as [w S]. assert (Ob : of_Z s bl = ConstValue.Int bl) by (unfold of_Z; now rewrite S).
        rewrite Ob in *. rewrite Z.eqb_refl, R2. cbn [andb].
        replace (ConstValue.Int 0) with (of_Z s 0) by (unfold of_Z; now rewrite S).
        rewrite <- Ob. apply (mask_sound al ah); [exact Hi | rewrite Z.geb_leb in R2; lia | exact F3 | exact Hv].
Qed.
End OpRanges.

(** *** Comparisons *)

(** The outcome of a comparison on two intervals. *)
Definition comparison_values (op : BinaryOp) (al ah bl bh : Z) (v : option Z) : Prop :=
  forall z, v = Some z -> exists a b c, al <= a <= ah /\ bl <= b <= bh
    /\ sem_comparison op a b = Some c /\ z = Z.b2z c.

Lemma analyze_sound s op al ah bl bh c a b :
  is_int_or_bool s = true -> fits s al -> fits s ah -> fits s bl -> fits s bh ->
  ComparisonAnalyzer.analyze_with_ranges op (of_Z s al) (of_Z s ah) (of_Z s bl) (of_Z s bh) = Some c ->
  al <= a <= ah -> bl <= b <= bh -> sem_comparison op a b = Some c.
Proof.
  intros Hs F1 F2 F3 F4 H Ha Hb.
  destruct op; try discriminate H;
    cbn [ComparisonAnalyzer.analyze_with_ranges sem_comparison] in *;
    unfold ComparisonAnalyzer.analyze_gt, ComparisonAnalyzer.analyze_ge,
      ComparisonAnalyzer.analyze_ne, ComparisonAnalyzer.analyze_lt, ComparisonAnalyzer.analyze_le,
      ComparisonAnalyzer.analyze_eq, ComparisonAnalyzer.ranges_disjoint in H;
    rewrite !(analyzer_compare_of_Z s Hs) in H by assumption;
    rewrite ?(const_eqb_of_Z s Hs) in H by assumption; f_equal;
    repeat match type of H with context [Z.compare ?x ?y] => destruct (Z.compare_spec x y) end;
    cbn [option_map negb] in H;
    try (destruct ((al =? ah) && (bl =? bh) && (al =? bl)) eqn:C; cbn [option_map negb] in H);
    try discriminate H; injection H as <-; zb;
    repeat match goal with
    | |- (?x <? ?y) = _ => destruct (Z.ltb_spec x y)
    | |- (?x <=? ?y) = _ => destruct (Z.leb_spec x y)
    | |- (?x =? ?y) = _ => destruct (Z.eqb_spec x y)
    | |- negb (?x =? ?y) = _ => destruct (Z.eqb_spec x y)
    end; try reflexivity; exfalso; lia.
Qed.

Lemma bool_enclose b (c : bool) :
  forall v, (forall z, v = Some z -> z = Z.b2z c) -> b = c ->
  encloses Bool (ConstValue.Bool b, ConstValue.Bool b) v.
Proof.
  intros v Hv ->. change (ConstValue.Bool c) with (ConstValue.Bool c).
  replace (ConstValue.Bool c) with (of_Z Bool (Z.b2z c)) by (destruct c; reflexivity).
  apply encloses_intro; [destruct c; vm_compute; intuition congruence.. |].
  intros z ->%Hv. lia.
Qed.

Lemma bool_bounds_enclose v : (forall z, v = Some z -> fits Bool z) -> encloses Bool bool_bounds v.
Proof.
  intros Hv. change bool_bounds with (of_Z Bool 0, of_Z Bool 1).
  apply encloses_intro; [vm_compute; intuition congruence.. |]. intros z Hz%Hv. exact Hz.
Qed.

Lemma b2z_fits c : fits Bool (Z.b2z c).
Proof. destruct c; vm_compute; intuition congruence. Qed.

Lemma comparison_range_sound s op al ah bl bh v :
  is_int_or_bool s = true -> fits s al -> fits s ah -> fits s bl -> fits s bh ->
  comparison_values op al ah bl bh v ->
  encloses Bool (ComparisonAnalyzer.get_comparison_range op (of_Z s al) (of_Z s ah) (of_Z s bl) (of_Z s bh)) v.
Proof.
  intros Hs F1 F2 F3 F4 Hv. unfold ComparisonAnalyzer.get_comparison_range.
  cbn [existsb]. rewrite !not_nan_of_Z. cbn [orb].
  assert (Hf : forall z, v = Some z -> fits Bool z).
  { intros z Hz. destruct (Hv z Hz) as (a & b & c & _ & _ & _ & ->). apply b2z_fits. }
  destruct (ComparisonAnalyzer.analyze_with_ranges _ _ _ _ _) as [c |] eqn:A.
  - assert (K : forall z, v = Some z -> z = Z.b2z c).
    { intros z Hz. destruct (Hv z Hz) as (a & b & c' & Ha & Hb & E & ->).
      rewrite (analyze_sound s op al ah bl bh c a b) in E by assumption. congruence. }
    destruct c; [apply (bool_enclose true true) | apply (bool_enclose false false)]; auto.
  - now apply bool_bounds_enclose.
Qed.

Lemma reflexive_sound op v :
  BinaryOp.is_comparison op = true ->
  (forall z, v = Some z -> exists a c, sem_comparison op a a = Some c /\ z = Z.b2z c) ->
  encloses Bool (reflexive_comparison_range op) v.
Proof.
  intros Hc Hv. destruct op; try discriminate Hc; cbn [reflexive_comparison_range];
    (eapply bool_enclose; [| reflexivity]); intros z Hz; destruct (Hv z Hz) as (a & c & E & ->);
    cbn [sem_comparison] in E; injection E as <-;
    rewrite ?Z.ltb_irrefl, ?Z.leb_refl, ?Z.eqb_refl; reflexivity.
Qed.

(** *** Ternary operations, casts and leaves *)
Section NodeRanges.
Context {M : LibM} (d : DType).
Let s := DType.base d.
Context (Hs : is_int_or_bool s = true).

Lemma where_sound cl ch tl th fl fh vt vf v :
  fits Bool cl -> fits Bool ch ->
  encloses s (of_Z s tl, of_Z s th) vt -> encloses s (of_Z s fl, of_Z s fh) vf ->
  fits s tl -> fits s th -> fits s fl -> fits s fh ->
  (forall z, v = Some z -> exists c, cl <= c <= ch /\ (if c =? 0 then vf else vt) = Some z) ->
  encloses s (compute_ternary_range TernaryOp.Where (of_Z Bool cl) (of_Z Bool ch)
                (of_Z s tl) (of_Z s th) (of_Z s fl) (of_Z s fh) d) v.
Proof using Hs.
  intros Fc Fd Ht Hf F1 F2 F3 F4 Hv.
  assert (Bt : forall z, vt = Some z -> tl <= z <= th).
  { destruct Ht as (l & h & E & Fl & Fh & B). injection E as E1 E2.
    apply (of_Z_inj s Hs) in E1, E2; try assumption. now subst. }
  assert (Bf : forall z, vf = Some z -> fl <= z <= fh).
  { destruct Hf as (l & h & E & Fl & Fh & B). injection E as E1 E2.
    apply (of_Z_inj s Hs) in E1, E2; try assumption. now subst. }
  assert (U : encloses s (range_union (of_Z s tl) [of_Z s th; of_Z s fl; of_Z s fh]) v).
  { unfold range_union. cbn [fold_left].
    rewrite ?(min_value_of_Z s Hs), ?(max_value_of_Z s Hs) by (assumption || unfold fits in *; lia).
    apply encloses_intro; try (unfold fits in *; lia). intros z Hz.
    destruct (Hv z Hz) as (c & _ & E). destruct (c =? 0); [apply Bf in E | apply Bt in E]; lia. }
  cbn [compute_ternary_range].
  destruct (bool_values Bool cl eq_refl Fc) as [-> | ->],
    (bool_values Bool ch eq_refl Fd) as [-> | ->]; cbn [of_Z int_format negb Z.eqb]; try exact U;
    apply encloses_intro; try assumption; intros z Hz; destruct (Hv z Hz) as (c & Hc & E);
    destruct (Z.eqb_spec c 0); try lia; auto.
Qed.

(** A multiply-accumulate of constants. *)
Lemma mulacc_sound a b c v :
  fits s a -> fits s b -> fits s c ->
  (forall z, v = Some z -> z = wrap_to s (a * b + c)) ->
  encloses s (compute_ternary_range TernaryOp.MulAcc (of_Z s a) (of_Z s a) (of_Z s b) (of_Z s b)
                (of_Z s c) (of_Z s c) d) v.
Proof using Hs.
  intros F1 F2 F3 Hv. cbn [compute_ternary_range]. fold s.
  assert (Hf : forall z, v = Some z -> fits s z) by (intros z ->%Hv; now apply wrap_to_fits).
  destruct (int_or_bool_cases s Hs) as [[B ->] | [_ ->]].
  - assert (N : eval_ternary_op_typed TernaryOp.MulAcc (of_Z s a) (of_Z s b) (of_Z s c) s = None)
      by (rewrite B; reflexivity).
    rewrite N. cbn [const_corners fold_left or_bounds]. now apply bounds_enclose.
  - unfold compute_typed_integer_mulacc_range. rewrite !(integer_value_of_Z s Hs) by assumption.
    cbv zeta. set (at_ := fun a b c => let? product := checked_i128 (a * b) in checked_i128 (product + c)).
    change (let? product := checked_i128 (a * b) in checked_i128 (product + c)) with (at_ a b c).
    destruct (fold_corners None _) as [[lo hi] |] eqn:E; [| now apply bounds_enclose].
    apply fold_corners_bounds in E as [E _]. destruct (E (at_ a b c) ltac:(cbn; tauto)) as (z & Hz & Bz).
    unfold at_ in Hz. destruct (checked_i128 (a * b)) eqn:P; [| discriminate].
    apply checked_i128_Some in P as ->. apply checked_i128_Some in Hz as ->.
    apply (commit_or_bounds d Hs (Some (lo, hi))); [exact Hf |].
    intros ? ? [= <- <-] z ->%Hv. eauto.
Qed.

Lemma cast_range_sound src_dtype l h r v :
  let t := DType.base src_dtype in
  is_int_or_bool t = true -> (s = Bool -> t <> Bool) -> fits t l -> fits t h ->
  cast_range (of_Z t l) (of_Z t h) src_dtype d = Some r ->
  (forall z, v = Some z -> exists x, l <= x <= h /\ z = wrap_to s x) ->
  encloses s r v.
Proof using Hs.
  intros t Ht Hb Fl Fh H Hv. unfold cast_range in H. rewrite (const_eqb_of_Z t Ht) in H by assumption.
  assert (Hf : forall z, v = Some z -> fits s z)
    by (intros z Hz; destruct (Hv z Hz) as (x & _ & ->); now apply wrap_to_fits).
  destruct (Z.eqb_spec l h) as [<- | N].
  - unfold DType.scalar_dtype in H. fold s in H.
    rewrite (cast_wraps (of_Z t l) l) in H by auto using fits_machine, to_Z_of_Z.
    rewrite exact_of_Z in H. injection H as <-.
    apply exact_encloses; [now apply wrap_to_fits |].
    intros z Hz. destruct (Hv z Hz) as (x & Hx & ->). f_equal. lia.
  - unfold DType.is_bool in H. fold s in H. destruct (bool_decide (s = Bool)) eqn:B.
    + apply bool_decide_eq_true_1 in B. injection H as <-. rewrite B in *.
      destruct (contains_zero (of_Z t l) (of_Z t h)) eqn:Z0; [now apply bool_bounds_enclose |].
      apply (bool_enclose true true); [| reflexivity].
      intros z Hz. destruct (Hv z Hz) as (x & Hx & ->).
      pose proof (contains_zero_of_Z t Ht l h x (Hb eq_refl) Fl Fh Z0 Hx).
      unfold wrap_to. cbn [int_format]. now rewrite (proj2 (Z.eqb_neq x 0)).
    + rewrite (not_float_dtype d Hs), (not_float_dtype src_dtype Ht) in H.
      destruct (int_or_bool_cases s Hs) as [[B' _] | [_ Hi]];
        [rewrite B' in B; now rewrite bool_decide_true in B by reflexivity |].
      rewrite Hi in H. unfold cast_integer_or_bool_range, DType.is_bool in H. fold s in H.
      rewrite B, !(integer_value_of_Z t Ht), (integer_dtype_bounds_eq s Hs) in H by assumption.
      destruct (_ || _) in H; [injection H as <-; now apply bounds_enclose |].
      apply (commit_encloses d Hs _ _ _ _ H). intros z Hz. destruct (Hv z Hz) as (x & Hx & ->). eauto.
Qed.

Lemma declared_sound min max lo hi r v :
  bounds_typed (Some (min, max)) = true -> to_Z min = Some lo -> to_Z max = Some hi ->
  normalize_declared_bounds min max d = Some r ->
  (forall z, v = Some z -> fits s z /\ lo <= z <= hi) ->
  encloses s r v.
Proof using Hs.
  intros Ht Hlo Hhi H Hv. unfold normalize_declared_bounds in H. rewrite (not_float_dtype d Hs) in H.
  unfold DType.is_bool in H. fold s in H.
  assert (Hf : forall z, v = Some z -> fits s z) by (intros z Hz; now apply Hv).
  assert (Iv : integer_value min = Some lo /\ integer_value max = Some hi)
    by (destruct min, max; split; assumption || discriminate).
  destruct Iv as [I1 I2]. unfold normalize_declared_integer_bounds, DType.is_bool in H. fold s in H.
  destruct (bool_decide (s = Bool)) eqn:B.
  - rewrite orb_true_r in H. apply bool_decide_eq_true_1 in B.
    unfold cast_integer_or_bool_range, DType.is_bool in H. fold s in H. rewrite B in *.
    rewrite bool_decide_true in H by reflexivity.
    assert (Eq : const_eqb min max = (lo =? hi))
      by (destruct min, max; try discriminate Ht; injection Hlo as <-; injection Hhi as <-; reflexivity).
    rewrite Eq in H. destruct (Z.eqb_spec lo hi) as [<- | N].
    + assert (C : const_cast min (Scalar Bool) = Some (ConstValue.Bool (negb (lo =? 0))))
        by (destruct min, max; try discriminate Ht; injection Hlo as <-; reflexivity).
      rewrite C in H. injection H as <-.
      apply (bool_enclose _ (negb (lo =? 0))); [| reflexivity]. intros z Hz.
      destruct (Hv z Hz) as [Fz Bz]. assert (z = lo) as -> by lia.
      destruct (bool_values Bool lo eq_refl Fz) as [-> | ->]; reflexivity.
    + injection H as <-. destruct (contains_zero min max) eqn:Z0; [now apply bool_bounds_enclose |].
      apply (bool_enclose true true); [| reflexivity]. intros z Hz.
      destruct (Hv z Hz) as [Fz Bz].
      assert (z <> 0).
      { destruct min, max; try discriminate Ht; injection Hlo as ->; injection Hhi as ->;
          cbn [contains_zero bounds_typed] in *; unfold in_u64b in *; rewrite ?Z.geb_leb in Z0; zb; lia. }
      destruct (bool_values Bool z eq_refl Fz) as [-> | ->]; [contradiction | reflexivity].
  - destruct (int_or_bool_cases s Hs) as [[B' _] | [_ Hi]];
      [rewrite B' in B; now rewrite bool_decide_true in B by reflexivity |].
    rewrite Hi in H. cbn [orb] in H. rewrite I1, I2, (integer_dtype_bounds_eq s Hs) in H.
    apply (commit_encloses d Hs _ _ _ _ H). intros z Hz. destruct (Hv z Hz) as [Fz Bz].
    exists z. split; [symmetry; now apply wrap_to_id | unfold fits in Fz; lia].
Qed.

(** Loop indices: [[0, end - 1]]. *)
Lemma zero_to_end_sound t h r v :
  is_int_or_bool t = true -> s <> Bool -> fits t h ->
  zero_to_typed_end_minus_one (of_Z t h) d = Some r ->
  (forall z, v = Some z -> 0 <= z <= h - 1) ->
  encloses s r v.
Proof using Hs.
  intros Ht Nb Fh H Hv. unfold zero_to_typed_end_minus_one, DType.scalar_dtype in H. fold s in H.
  rewrite (integer_value_of_Z t Ht), (integer_dtype_bounds_eq s Hs) in H by assumption.
  destruct (checked_i128 (h - 1)) as [m |] eqn:C; [| discriminate]. apply checked_i128_Some in C as ->.
  destruct (_ || _) eqn:R in H; [discriminate |]. rewrite Z.gtb_ltb in R. zb.
  assert (F0 : fits s 0) by (unfold fits, dtype_lo, dtype_hi; destruct s; try discriminate Hs;
    vm_compute; intuition congruence).
  assert (Fm : fits s (h - 1)) by (unfold fits; lia).
  assert (Z0 : const_cast (const_zero s) (Scalar s) = Some (of_Z s 0))
    by (destruct s; try discriminate Hs; reflexivity || now elim Nb).
  rewrite Z0 in H. pose proof (make_value_of_Z s Hs (h - 1) Fm) as Mv. unfold make_value in Mv.
  destruct (if ScalarDType.is_unsigned s then _ else _) as [u |] in H, Mv; [| discriminate].
  rewrite Mv in H. injection H as <-. now apply encloses_intro.
Qed.
End NodeRanges.

(** *** Unions over lists *)

Lemma fold_union2 s rs r0 z :
  is_int_or_bool s = true -> (exists v, encloses s r0 v) ->
  (forall r, In r rs -> exists v, encloses s r v) ->
  (z = None \/ encloses s r0 z \/ exists r, In r rs /\ encloses s r z) ->
  encloses s (fold_left union2 rs r0) z.
Proof.
  intros Hs. revert r0. induction rs as [| r rs IH]; intros r0 [v0 H0] Hrs Hz; cbn [fold_left].
  - destruct Hz as [-> | [Hz | (r & [] & _)]]; [| exact Hz].
    destruct H0 as (lo & hi & -> & Fl & Fh & _). apply encloses_intro; auto. discriminate.
  - destruct (Hrs r ltac:(now left)) as [v1 H1].
    assert (N : forall r v, encloses s r v -> encloses s r None).
    { intros r' v' (lo & hi & -> & Fl & Fh & _). apply encloses_intro; auto. discriminate. }
    apply IH.
    + exists None. apply (union2_encloses s _ _ None None None Hs (N _ _ H0) (N _ _ H1)). discriminate.
    + intros r' Hr'. apply Hrs. now right.
    + destruct Hz as [-> | [Hz | (r' & [<- | Hr'] & Hz)]]; [tauto | right; left | right; left | right; right].
      * eapply union2_encloses; [exact Hs | exact Hz | exact (N _ _ H1) | auto].
      * eapply union2_encloses; [exact Hs | exact (N _ _ H0) | exact Hz | auto].
      * eauto.
Qed.

(** The optional fold keeps a range only when every source has one. *)
Lemma sound_sources_range_Some rs r :
  sound_sources_range rs = Some r ->
  exists r0 rest, rs = Some r0 :: map Some rest /\ r = fold_left union2 rest r0.
Proof.
  destruct rs as [| r0 rest]; [discriminate |]. cbn [sound_sources_range].
  revert r0. induction rest as [| r1 rest IH]; intros r0 H; cbn [fold_left] in H.
  - subst r0. now exists r, [].
  - destruct (IH _ H) as (a & rest' & E & ->).
    injection E as E1 E2. destruct r0 as [r0 |]; [| discriminate E1].
    destruct r1 as [r1 |]; [| discriminate E1]. injection E1 as <-.
    exists r0, (r1 :: rest'). split; [now subst rest | reflexivity].
Qed.

Lemma sources_range_values_map values r :
  sources_range_values values = Some r -> exists v0 rest, values = v0 :: rest
    /\ r = fold_left union2 (map (fun v => (v, v)) rest) (v0, v0).
Proof.
  destruct values as [| v0 rest]; [discriminate |]. cbn [sources_range_values]. intros H.
  exists v0, rest. split; [reflexivity |]. unfold when_ordered in H. inv_opt.
  assert (G : forall l a, fold_left (fun r v => union2 r (v, v)) l a
                          = fold_left union2 (map (fun v => (v, v)) l) a)
    by (induction l as [| x l IH]; intros a; cbn; auto).
  now rewrite G.
Qed.

Lemma when_ordered_Some r r' : when_ordered r = Some r' -> r' = r.
Proof. unfold when_ordered. intros. inv_opt. reflexivity. Qed.

Lemma values_enclose s values r i v :
  is_int_or_bool s = true -> forallb (const_has s) values = true ->
  sources_range_values values = Some r ->
  (forall z, v = Some z -> exists c, nth_error values i = Some c /\ to_Z c = Some z) ->
  encloses s r v.
Proof.
  intros Hs Hh H Hv. apply sources_range_values_map in H as (v0 & rest & -> & ->).
  rewrite forallb_forall in Hh.
  assert (P : forall c, In c (v0 :: rest) -> encloses s (c, c) (to_Z c)).
  { intros c Hc. apply Hh, const_has_spec in Hc as (z & Fz & -> & E).
    apply encloses_intro; [exact Fz | exact Fz |]. intros x Hx. assert (x = z) as -> by congruence. lia. }
  apply fold_union2; [exact Hs | eexists; apply P; now left | |].
  - intros r Hr. apply in_map_iff in Hr as (c & <- & Hc). eexists. apply P. now right.
  - destruct v as [z |]; [right | now left]. destruct (Hv z eq_refl) as (c & Hc & E).
    apply nth_error_In in Hc. pose proof (P c Hc) as Pc. rewrite E in Pc.
    destruct Hc as [<- | Hc]; [now left | right].
    exists (c, c). split; [apply in_map_iff; eauto | exact Pc].
Qed.

(** ** The analyses *)
Section Main.
Context {M : LibM} (rho : env).

(** What the induction proves of a node, for one analysis [an]. *)
Definition node_ok (an : UOp -> option range) (u : UOp) : Prop :=
  forall r, int_wt u = true -> an u = Some r -> encloses (base_of u) r (denote rho u).

Lemma stack_enclose (an : UOp -> option range) s sources rs r i :
  is_int_or_bool s = true ->
  forallb (fun c => int_wt c && bool_decide (base_of c = s)) sources = true ->
  Forall (node_ok an) sources -> map an sources = map Some rs ->
  match rs with [] => False | r0 :: rest => r = fold_left union2 rest r0 end ->
  encloses s r (match nth_error (map (denote rho) sources) i with Some v => v | None => None end).
Proof.
  intros Hs Hw Hok Hm Hr. destruct rs as [| r0 rest]; [contradiction |]. subst r.
  assert (P : forall j c, nth_error sources j = Some c ->
            exists r, nth_error (r0 :: rest) j = Some r /\ encloses s r (denote rho c)).
  { intros j c Hc. pose proof (f_equal (fun l => nth_error l j) Hm) as E.
    cbn beta in E. rewrite !nth_error_map, Hc in E. destruct (nth_error (r0 :: rest) j) as [r |]; [| discriminate].
    exists r. split; [reflexivity |]. apply nth_error_In in Hc.
    rewrite forallb_forall in Hw. specialize (Hw c Hc). split_wt Hw. destruct Hw as [Wc <-].
    rewrite List.Forall_forall in Hok. injection E as E. exact (Hok c Hc r Wc E). }
  assert (Q : forall r, In r (r0 :: rest) -> exists v, encloses s r v).
  { intros r Hr. apply In_nth_error in Hr as [j Hj].
    destruct (nth_error sources j) as [c |] eqn:E.
    - destruct (P j c E) as (r' & Hr' & He). assert (r' = r) as -> by congruence. eauto.
    - pose proof (f_equal (fun l => nth_error l j) Hm) as F.
      cbn beta in F. rewrite !nth_error_map, E, Hj in F. discriminate. }
  apply fold_union2; [exact Hs | apply Q; now left | intros; apply Q; now right |].
  rewrite nth_error_map. destruct (nth_error sources i) as [c |] eqn:E; [| now left].
  cbn [option_map]. destruct (P i c E) as (r & Hr & He). right.
  apply nth_error_In in Hr as [<- | Hr]; [now left | right; eauto].
Qed.

(** One lemma per operation, shared by the two analyses. *)

Lemma leaf_values s ok v : forall z, leaf_in s ok v = Some z -> fits s z /\ ok z = true.
Proof. intros z H. apply leaf_in_fits in H as (-> & Hf & Hok). auto. Qed.

Lemma declared_node d lo hi r leafv :
  is_int_or_bool (DType.base d) = true -> declared_bounds lo hi d = Some r ->
  encloses (DType.base d) r (leaf_in (DType.base d) (between lo hi) leafv).
Proof.
  intros Hs H. apply (declared_sound d Hs (ConstValue.Int lo) (ConstValue.Int hi) lo hi r _ eq_refl eq_refl eq_refl H).
  intros z Hz. apply leaf_values in Hz as [Hf Hz]. unfold between in Hz. zb. auto.
Qed.

Lemma param_node d min max r leafv :
  is_int_or_bool (DType.base d) = true -> bounds_typed (Some (min, max)) = true ->
  normalize_declared_bounds min max d = Some r ->
  encloses (DType.base d) r (leaf_in (DType.base d) (declared_ok (Some (min, max))) leafv).
Proof.
  intros Hs Ht H.
  assert (V : exists lo hi, to_Z min = Some lo /\ to_Z max = Some hi)
    by (destruct min, max; try discriminate Ht; eexists _, _; split; reflexivity).
  destruct V as (lo & hi & V1 & V2).
  eapply (declared_sound d Hs min max lo hi); [exact Ht | exact V1 | exact V2 | exact H |].
  intros z Hz. apply leaf_values in Hz as [Hf Hz]. cbn [declared_ok] in Hz. rewrite V1, V2 in Hz.
  unfold between in Hz. zb. auto.
Qed.

Lemma range_node d t end_range end_ r leafv :
  is_int_or_bool (DType.base d) = true -> ScalarDType.is_bool (DType.base d) = false ->
  is_int_or_bool t = true -> encloses t end_range end_ ->
  zero_to_typed_end_minus_one (snd end_range) d = Some r ->
  encloses (DType.base d) r
    (let? n := end_ in leaf_in (DType.base d) (between 0 (n - 1)) leafv).
Proof.
  intros Hs Hb Ht (l & h & -> & Fl & Fh & He) H. cbn [snd] in H.
  eapply (zero_to_end_sound d Hs t h); [exact Ht | intros E; rewrite E in Hb; discriminate
    | exact Fh | exact H |].
  intros z Hz. destruct end_ as [n |]; [| discriminate]. specialize (He n eq_refl).
  apply leaf_values in Hz as [_ Hz]. unfold between in Hz. zb. lia.
Qed.

Lemma unary_node d op l h x :
  is_int_or_bool (DType.base d) = true -> op = UnaryOp.Neg \/ op = UnaryOp.Not ->
  fits (DType.base d) l -> fits (DType.base d) h ->
  (forall z, x = Some z -> fits (DType.base d) z /\ l <= z <= h) ->
  encloses (DType.base d) (compute_unary_range op (of_Z (DType.base d) l) (of_Z (DType.base d) h) d)
    (let? a := x in sem_unary op (DType.base d) a).
Proof.
  intros Hs Hop Fl Fh Hx. apply unary_range_sound; try assumption.
  intros z Hz. destruct x as [a |]; [| discriminate]. exists a.
  destruct (Hx a eq_refl). auto.
Qed.

(** The value of a binary node from those of its operands. *)
Definition binary_value (op : BinaryOp) (s : ScalarDType) (x y : option Z) : option Z :=
  let? x := x in
  let? y := y in
  match sem_comparison op x y with
  | Some c => Some (Z.b2z c)
  | None => sem_binary op s x y
  end.

Lemma binary_node_values op s t al ah bl bh x y :
  (forall z, x = Some z -> fits t z /\ al <= z <= ah) ->
  (forall z, y = Some z -> fits t z /\ bl <= z <= bh) ->
  (BinaryOp.is_comparison op = true -> comparison_values op al ah bl bh (binary_value op s x y))
  /\ (BinaryOp.is_comparison op = false -> s = t ->
      forall z, binary_value op s x y = Some z -> exists a b, al <= a <= ah /\ bl <= b <= bh
        /\ fits s a /\ fits s b /\ sem_binary op s a b = Some z).
Proof.
  intros Hx Hy. unfold binary_value. split.
  - intros C z Hz. destruct x as [a |], y as [b |]; try discriminate Hz.
    apply (sem_comparison_op op a b) in C as [c E]. rewrite E in Hz. injection Hz as <-.
    exists a, b, c. split; [now apply Hx | split; [now apply Hy | auto]].
  - intros C -> z Hz. destruct x as [a |], y as [b |]; try discriminate Hz.
    assert (E : sem_comparison op a b = None) by (destruct op; discriminate || reflexivity).
    rewrite E in Hz. exists a, b. destruct (Hx a eq_refl), (Hy b eq_refl). auto.
Qed.

(** [compute_binary_range] on the ranges of typed operands. *)
Lemma binary_node d t op al ah bl bh x y :
  let s := DType.base d in
  is_int_or_bool s = true -> is_int_or_bool t = true ->
  (if BinaryOp.is_comparison op then s = Bool else s = t) ->
  fits t al -> fits t ah -> fits t bl -> fits t bh ->
  (forall z, x = Some z -> fits t z /\ al <= z <= ah) ->
  (forall z, y = Some z -> fits t z /\ bl <= z <= bh) ->
  (al = ah /\ bl = bh) \/ sound_binary_rule op d (of_Z t bl) (of_Z t bh) = true ->
  encloses s (compute_binary_range op (of_Z t al) (of_Z t ah) (of_Z t bl) (of_Z t bh) d)
    (binary_value op s x y).
Proof.
  intros s Hs Ht Hst F1 F2 F3 F4 Hx Hy Hr.
  destruct (binary_node_values op s t al ah bl bh x y Hx Hy) as [V1 V2].
  destruct (BinaryOp.is_comparison op) eqn:C.
  - unfold compute_binary_range. fold s. rewrite C, andb_false_r, Hst.
    cbn [negb ScalarDType.is_int ScalarDType.is_signed ScalarDType.is_unsigned orb andb].
    assert (E : forall a b c e, untyped_binary_range op a b c e d
                = ComparisonAnalyzer.get_comparison_range op a b c e)
      by (intros; destruct op; discriminate || reflexivity).
    rewrite E. rewrite <- Hst. fold s. rewrite Hst. 
    eapply (comparison_range_sound t); try eassumption.
    rewrite Hst in V1. now apply V1.
  - subst t. apply binary_range_sound; auto. intros z Hz. now apply V2.
Qed.

Lemma interval_values s r v :
  encloses s r v -> (forall z, v = Some z -> fits s z) ->
  exists l h, r = (of_Z s l, of_Z s h) /\ fits s l /\ fits s h
    /\ forall z, v = Some z -> fits s z /\ l <= z <= h.
Proof. intros (l & h & -> & Fl & Fh & H) Hf. exists l, h. eauto 10. Qed.

Lemma node_interval an u r :
  node_ok an u -> int_wt u = true -> an u = Some r ->
  exists l h, r = (of_Z (base_of u) l, of_Z (base_of u) h) /\ fits (base_of u) l
    /\ fits (base_of u) h /\ forall z, denote rho u = Some z -> fits (base_of u) z /\ l <= z <= h.
Proof.
  intros Hok Hw Hr. apply interval_values; [now apply Hok |]. intros z. now apply denote_fits.
Qed.

Lemma const_binary_sound d t op a b value r x y :
  let s := DType.base d in
  is_int_or_bool s = true -> is_int_or_bool t = true ->
  (if BinaryOp.is_comparison op then s = Bool else s = t) ->
  fits t a -> fits t b ->
  (forall z, x = Some z -> fits t z /\ a <= z <= a) ->
  (forall z, y = Some z -> fits t z /\ b <= z <= b) ->
  (if BinaryOp.is_comparison op then eval_binary_op op (of_Z t a) (of_Z t b)
   else eval_binary_op_typed op (of_Z t a) (of_Z t b) s) = Some value ->
  exact_when_ordered value = Some r ->
  encloses s r (binary_value op s x y).
Proof.
  intros s Hs Ht Hst Fa Fb Hx Hy Hv Hr.
  destruct (binary_node_values op s t a a b b x y Hx Hy) as [V1 V2].
  destruct (BinaryOp.is_comparison op) eqn:C.
  - pose proof C as C'. apply (sem_comparison_op op a b) in C' as [c E].
    rewrite (eval_comparison_refines op t a b c Ht Fa Fb E) in Hv. injection Hv as <-.
    injection Hr as <-. rewrite Hst in *. apply (bool_enclose c c); [| reflexivity].
    intros z Hz. destruct (V1 eq_refl z Hz) as (a' & b' & c' & Ha & Hb & E' & ->).
    assert (a' = a) as -> by lia. assert (b' = b) as -> by lia. congruence.
  - subst t. destruct (eval_binary_refines op s a b value C Hs Fa Fb Hv) as (z & E & -> & Fz).
    rewrite exact_of_Z in Hr. injection Hr as <-. apply exact_encloses; [exact Fz |].
    intros z' Hz. destruct (V2 eq_refl eq_refl z' Hz) as (a' & b' & Ha & Hb & _ & _ & E').
    assert (a' = a) as -> by lia. assert (b' = b) as -> by lia. congruence.
Qed.

Lemma sound_binary_node d t op al ah bl bh same x y r :
  let s := DType.base d in
  is_int_or_bool s = true -> is_int_or_bool t = true ->
  (if BinaryOp.is_comparison op then s = Bool else s = t) ->
  fits t al -> fits t ah -> fits t bl -> fits t bh ->
  (forall z, x = Some z -> fits t z /\ al <= z <= ah) ->
  (forall z, y = Some z -> fits t z /\ bl <= z <= bh) ->
  (same = true -> x = y) ->
  sound_binary op (Some (of_Z t al, of_Z t ah)) (Some (of_Z t bl, of_Z t bh)) same d = Some r ->
  encloses s r (binary_value op s x y).
Proof.
  intros s Hs Ht Hst F1 F2 F3 F4 Hx Hy Hsame H. unfold sound_binary in H.
  rewrite !(const_eqb_of_Z t Ht) in H by assumption.
  destruct ((al =? ah) && (bl =? bh)) eqn:C.
  - apply andb_prop in C as [<-%Z.eqb_eq <-%Z.eqb_eq]. fold s in H.
    destruct (if BinaryOp.is_comparison op then _ else _) as [value |] eqn:E; [| discriminate H].
    exact (const_binary_sound d t op al bl value r x y Hs Ht Hst F1 F3 Hx Hy E H).
  - destruct (BinaryOp.is_comparison op && same) eqn:S.
    + apply andb_prop in S as [S1 S2]. injection H as <-. rewrite S1 in Hst. rewrite Hst.
      apply reflexive_sound; [exact S1 |]. intros z Hz. specialize (Hsame S2). subst y.
      unfold binary_value in Hz. destruct x as [a |]; [| discriminate Hz].
      apply (sem_comparison_op op a a) in S1 as [c E]. rewrite E in Hz. injection Hz as <-. eauto.
    + rewrite (not_float_dtype d Hs) in H.
      destruct (sound_binary_rule _ _ _ _) eqn:R; [| discriminate H]. injection H as <-.
      apply binary_node; auto.
Qed.

(** The value of a selection. *)
Definition where_value (c t f : option Z) : option Z :=
  let? b := c in if b =? 0 then f else t.

Lemma where_node d cl ch tl th fl fh c t f :
  let s := DType.base d in
  is_int_or_bool s = true -> fits Bool cl -> fits Bool ch ->
  fits s tl -> fits s th -> fits s fl -> fits s fh ->
  (forall z, c = Some z -> fits Bool z /\ cl <= z <= ch) ->
  (forall z, t = Some z -> fits s z /\ tl <= z <= th) ->
  (forall z, f = Some z -> fits s z /\ fl <= z <= fh) ->
  encloses s (compute_ternary_range TernaryOp.Where (of_Z Bool cl) (of_Z Bool ch)
                (of_Z s tl) (of_Z s th) (of_Z s fl) (of_Z s fh) d) (where_value c t f).
Proof.
  intros s Hs F1 F2 F3 F4 F5 F6 Hc Ht Hf.
  apply (where_sound d Hs cl ch tl th fl fh t f); try assumption.
  - apply encloses_intro; auto. intros z Hz. now apply Ht.
  - apply encloses_intro; auto. intros z Hz. now apply Hf.
  - intros z Hz. unfold where_value in Hz. destruct c as [b |]; [| discriminate].
    exists b. split; [now apply Hc | exact Hz].
Qed.

(** Folding a selection of constants. *)
Lemma const_where_sound d b t f value r vc vt vf :
  let s := DType.base d in
  is_int_or_bool s = true -> fits Bool b -> fits s t -> fits s f ->
  (forall z, vc = Some z -> fits Bool z /\ b <= z <= b) ->
  (forall z, vt = Some z -> fits s z /\ t <= z <= t) ->
  (forall z, vf = Some z -> fits s z /\ f <= z <= f) ->
  eval_ternary_op_typed TernaryOp.Where (of_Z Bool b) (of_Z s t) (of_Z s f) s = Some value ->
  exact_when_ordered value = Some r -> encloses s r (where_value vc vt vf).
Proof.
  intros s Hs F1 F2 F3 Hc Ht Hf Hv Hr.
  assert (K : forall z, fits s z -> commit_eval_result (of_Z s z) s = Some value ->
                value = of_Z s z).
  { intros z Fz H. unfold commit_eval_result in H. rewrite cast_keeps in H by assumption. congruence. }
  assert (V : value = of_Z s (if b =? 0 then f else t)).
  { destruct (bool_values Bool b eq_refl F1) as [-> | ->]; apply K; assumption. }
  assert (F : fits s (if b =? 0 then f else t)) by (destruct (b =? 0); assumption).
  subst value. rewrite exact_of_Z in Hr. injection Hr as <-.
  apply exact_encloses; [exact F |]. intros z Hz. unfold where_value in Hz.
  destruct vc as [c |]; [| discriminate]. destruct (Hc c eq_refl) as [_ Bc].
  assert (c = b) as -> by lia. destruct (b =? 0); [apply Hf in Hz | apply Ht in Hz]; lia.
Qed.

Definition mulacc_value (s : ScalarDType) (x y z : option Z) : option Z :=
  let? x := x in let? y := y in let? z := z in Some (wrap_to s (x * y + z)).

(** Folding a multiply-accumulate of constants. *)
Lemma const_mulacc_sound d a b c value r x y w :
  let s := DType.base d in
  is_int_or_bool s = true -> fits s a -> fits s b -> fits s c ->
  (forall z, x = Some z -> fits s z /\ a <= z <= a) ->
  (forall z, y = Some z -> fits s z /\ b <= z <= b) ->
  (forall z, w = Some z -> fits s z /\ c <= z <= c) ->
  eval_ternary_op_typed TernaryOp.MulAcc (of_Z s a) (of_Z s b) (of_Z s c) s = Some value ->
  exact_when_ordered value = Some r -> encloses s r (mulacc_value s x y w).
Proof.
  intros s Hs F1 F2 F3 Hx Hy Hw Hv Hr.
  assert (V : value = of_Z s (wrap_to s (a * b + c))).
  { unfold eval_ternary_op_typed, eval_ternary_op, eval_mulacc, of_Z in Hv.
    destruct (int_format s) as [[[] w'] |] eqn:F; cbn [eval_mul eval_add] in Hv; [| | discriminate Hv].
    - rewrite wrap_s_add_l in Hv. eapply commit_of_Z in Hv; [| exact Hs | | reflexivity];
        [now rewrite (wrap_signed s w') in Hv | apply wrap_s_range; lia].
    - rewrite wrap_u_add_l in Hv. eapply commit_of_Z in Hv; [| exact Hs | | reflexivity];
        [now rewrite (wrap_unsigned s w') in Hv | apply wrap_u_range; lia]. }
  subst value. rewrite exact_of_Z in Hr. injection Hr as <-.
  apply exact_encloses; [now apply wrap_to_fits |]. intros z Hz. unfold mulacc_value in Hz.
  destruct x as [x |], y as [y |], w as [w |]; try discriminate Hz. injection Hz as <-.
  destruct (Hx x eq_refl), (Hy y eq_refl), (Hw w eq_refl).
  assert (x = a) as -> by lia. assert (y = b) as -> by lia. assert (w = c) as -> by lia. reflexivity.
Qed.

(** ** The sound analysis is sound *)

Lemma source_in d i op c : In c (Op.children op) -> source (mkUOp i op d) c.
Proof. intros H. exact H. Qed.

Lemma sound_encloses u : interned u -> node_ok sound_vmin_vmax u.
Proof.
  induction u as [u IH] using UOp_children_ind. intros Hint r Hw H.
  assert (Sub : forall c, source u c -> node_ok sound_vmin_vmax c).
  { intros c Hc. rewrite List.Forall_forall in IH. apply IH; [exact Hc |].
    eapply interned_source; eassumption. }
  assert (Same : forall a b, source u a -> source u b -> ptr_eq a b = true -> a = b)
    by (intros; eapply interned_ptr_eq; eassumption).
  clear IH Hint. pose proof (int_wt_base u Hw) as Hs. destruct u as [i op d].
  unfold base_of in Hs |- *. cbn [uop_dtype] in *. cbn [int_wt] in Hw.
  apply andb_prop in Hw as [_ Hw].
  assert (Iv : forall c r', In c (Op.children op) -> int_wt c = true -> sound_vmin_vmax c = Some r' ->
    exists l h, r' = (of_Z (base_of c) l, of_Z (base_of c) h) /\ fits (base_of c) l
    /\ fits (base_of c) h /\ forall z, denote rho c = Some z -> fits (base_of c) z /\ l <= z <= h).
  { intros c r' Hc Wc Hr. eapply node_interval; [apply Sub, Hc | exact Wc | exact Hr]. }
  destruct op; cbn [sound_vmin_vmax] in H; try discriminate H; cbn [Op.children In] in Iv.
  - (* Const *) cbn [denote]. apply const_has_spec in Hw as (z & Fz & -> & E).
    rewrite exact_of_Z in H. injection H as <-. rewrite E.
    apply exact_encloses; [exact Fz | congruence].
  - (* Unary *) split_wt Hw. destruct Hw as [Wc Bc].
    destruct (sound_vmin_vmax src) as [r' |] eqn:E; [| discriminate H].
    destruct (Iv src r' ltac:(tauto) Wc E) as (l & h & -> & Fl & Fh & Hx). rewrite Bc in *.
    cbn [sound_unary] in H. rewrite (not_float_dtype d Hs) in H.
    destruct op; try discriminate H; injection H as <-; apply unary_node; auto.
  - (* Binary *) destruct (sound_vmin_vmax lhs) as [ra |] eqn:Ea; [| discriminate H].
    destruct (sound_vmin_vmax rhs) as [rb |] eqn:Eb; [| cbn in H; destruct ra; discriminate H].
    assert (W : int_wt lhs = true /\ int_wt rhs = true /\ base_of rhs = base_of lhs
      /\ if BinaryOp.is_comparison op then DType.base d = Bool else DType.base d = base_of lhs).
    { destruct (BinaryOp.is_comparison op); split_wt Hw.
      - repeat split; try tauto. destruct (DType.base d); tauto || (destruct Hw as [[? _] _]; discriminate).
      - intuition congruence. }
    destruct W as (Wa & Wb & Bb & Bs).
    destruct (Iv lhs ra ltac:(tauto) Wa Ea) as (al & ah & -> & F1 & F2 & Hx).
    destruct (Iv rhs rb ltac:(tauto) Wb Eb) as (bl & bh & -> & F3 & F4 & Hy). rewrite Bb in *.
    refine (sound_binary_node d (base_of lhs) op al ah bl bh (ptr_eq lhs rhs) _ _ r
              Hs (int_wt_base lhs Wa) Bs F1 F2 F3 F4 Hx Hy _ H).
    intros P. rewrite (Same lhs rhs); [reflexivity | cbn; tauto | cbn; tauto | exact P].
  - (* Ternary *) destruct (sound_vmin_vmax a) as [ra |] eqn:Ea; [| discriminate H].
    destruct (sound_vmin_vmax b) as [rb |] eqn:Eb; [| cbn in H; destruct ra; discriminate H].
    destruct (sound_vmin_vmax c) as [rc |] eqn:Ec; [| cbn in H; destruct ra, rb; discriminate H].
    assert (W : int_wt a = true /\ int_wt b = true /\ int_wt c = true
              /\ base_of a = (match op with TernaryOp.Where => Bool | _ => DType.base d end)
              /\ base_of b = DType.base d /\ base_of c = DType.base d)
      by (destruct op; split_wt Hw; tauto).
    destruct W as (Wa & Wb & Wc & Ba & Bb & Bc).
    destruct (Iv a ra ltac:(tauto) Wa Ea) as (al & ah & -> & F1 & F2 & Hx).
    destruct (Iv b rb ltac:(tauto) Wb Eb) as (bl & bh & -> & F3 & F4 & Hy).
    destruct (Iv c rc ltac:(tauto) Wc Ec) as (cl & ch & -> & F5 & F6 & Hz).
    rewrite Ba, Bb, Bc in *. cbn [sound_ternary] in H.
    rewrite (const_eqb_of_Z (match op with TernaryOp.Where => Bool | _ => DType.base d end)),
      !(const_eqb_of_Z (DType.base d) Hs) in H
      by (assumption || (destruct op; [reflexivity | exact Hs])).
    destruct ((al =? ah) && (bl =? bh) && (cl =? ch)) eqn:C.
    + apply andb_prop in C as [[<-%Z.eqb_eq <-%Z.eqb_eq]%andb_prop <-%Z.eqb_eq].
      destruct (eval_ternary_op_typed _ _ _ _ _) as [value |] eqn:V; [| discriminate H].
      destruct op.
      * exact (const_where_sound d al bl cl value r _ _ _ Hs F1 F3 F5 Hx Hy Hz V H).
      * exact (const_mulacc_sound d al bl cl value r _ _ _ Hs F1 F3 F5 Hx Hy Hz V H).
    + destruct op; [| discriminate H]. injection H as <-. now apply where_node.
  - (* Cast *) split_wt Hw. destruct Hw as [Wc Nb].
    destruct (sound_vmin_vmax src) as [r' |] eqn:E; [| discriminate H].
    destruct (Iv src r' ltac:(tauto) Wc E) as (l & h & -> & Fl & Fh & Hx).
    unfold sound_cast_range in H.
    assert (H' : cast_range (of_Z (base_of src) l) (of_Z (base_of src) h) (uop_dtype src) d = Some r)
      by (destruct (if _ && _ then _ else Some tt); [exact H | discriminate H]).
    refine (cast_range_sound d Hs (uop_dtype src) l h r _ (int_wt_base src Wc) _ Fl Fh H' _).
    + intros B1 B2. unfold base_of in Nb. rewrite B1, B2 in Nb. discriminate Nb.
    + cbn [denote]. intros z Hz. destruct (denote rho src) as [x |]; [| discriminate].
      injection Hz as <-. exists x. split; [now apply Hx | reflexivity].
  - (* Special *) split_wt Hw. destruct Hw as [Wc Nb].
    destruct (sound_vmin_vmax end_) as [[e1 e2] |] eqn:E; [| discriminate H].
    destruct (zero_to_typed_end_minus_one e2 d) as [r' |] eqn:Z0; [| discriminate H].
    apply when_ordered_Some in H as ->.
    apply (range_node d (base_of end_) (e1, e2) _ _ _ Hs Nb (int_wt_base end_ Wc)); [| exact Z0].
    exact (Sub end_ (or_introl eq_refl) _ Wc E).
  - (* Param *) cbn [denote]. destruct (ParamArg.addrspace arg); [discriminate H |].
    destruct (ParamArg.vmin_vmax arg) as [[mn mx] |] eqn:E; [| discriminate H].
    destruct (normalize_declared_bounds mn mx d) as [r' |] eqn:N; [| discriminate H].
    apply when_ordered_Some in H as ->. now apply param_node.
  - (* Range *) split_wt Hw. destruct Hw as [Wc Nb].
    destruct (sound_vmin_vmax end_) as [[e1 e2] |] eqn:E; [| discriminate H].
    destruct (zero_to_typed_end_minus_one e2 d) as [r' |] eqn:Z0; [| discriminate H].
    apply when_ordered_Some in H as ->.
    apply (range_node d (base_of end_) (e1, e2) _ _ _ Hs Nb (int_wt_base end_ Wc)); [| exact Z0].
    exact (Sub end_ (or_introl eq_refl) _ Wc E).
  - (* Stack *) apply sound_sources_range_Some in H as (r0 & rest & E & ->).
    eapply (stack_enclose sound_vmin_vmax _ sources (r0 :: rest)); [exact Hs | exact Hw | | exact E | reflexivity].
    apply List.Forall_forall. intros c Hc. now apply Sub.
  - (* VConst *) unfold sound_values_range in H.
    destruct (sources_range_values values) as [r' |] eqn:E; [| discriminate H].
    destruct (forallb ordered_value values); [| discriminate H]. injection H as <-.
    eapply (values_enclose _ values _ (pick rho (mkUOp i (Op.VConst UOp values) d)));
      [exact Hs | exact Hw | exact E |].
    cbn [denote]. intros z Hz. destruct (nth_error values _) as [c |]; [eauto | discriminate].
  - (* DefineVar *) destruct (declared_bounds min_val max_val d) as [r' |] eqn:E; [| discriminate H].
    apply when_ordered_Some in H as ->. now apply declared_node.
  - (* Bind *) split_wt Hw. destruct Hw as [Wc Bc]. cbn [denote]. rewrite <- Bc.
    apply Sub; [now left | exact Wc | exact H].
Qed.

(** ** The best-effort analysis is sound on the integer fragment *)

Abbreviation best := (fun u => Some (vmin_vmax u)).

Lemma best_encloses u : node_ok best u.
Proof.
  induction u as [u IH] using UOp_children_ind. intros r0 Hw [= <-].
  pose proof (int_wt_base u Hw) as Hs. pose proof (denote_fits rho u) as Hf.
  assert (Hf' : forall z, denote rho u = Some z -> fits (base_of u) z) by auto. clear Hf.
  assert (Iv : forall c, source u c -> int_wt c = true ->
    exists l h, vmin_vmax c = (of_Z (base_of c) l, of_Z (base_of c) h) /\ fits (base_of c) l
    /\ fits (base_of c) h /\ forall z, denote rho c = Some z -> fits (base_of c) z /\ l <= z <= h).
  { intros c Hc Wc. rewrite List.Forall_forall in IH. eapply (node_interval best); eauto. }
  assert (Sub : Forall (node_ok best) (children u)) by exact IH. clear IH.
  destruct u as [i op d]. unfold base_of in Hs, Hf' |- *. cbn [uop_dtype] in *.
  unfold source, children in Iv, Sub. cbn [uop_op] in Iv, Sub.
  cbn [int_wt] in Hw. apply andb_prop in Hw as [_ Hw].
  cbn [vmin_vmax]. set (m := match op with Op.Const _ _ => _ | _ => _ end).
  assert (G : forall r, m = Some r -> encloses (DType.base d) r (denote rho (mkUOp i op d))).
  2: { destruct m as [r |]; cbn [or_bounds]; [now apply G | now apply bounds_enclose]. }
  intros r H. subst m. clear Hf'.
  destruct op; try discriminate H; cbn [Op.children In] in Iv; cbn [Op.children] in Sub.
  - (* Const *) injection H as <-. cbn [denote].
    apply const_has_spec in Hw as (z & Fz & -> & E). rewrite E.
    apply exact_encloses; [exact Fz | congruence].
  - (* Unary *) split_wt Hw. destruct Hw as [Wc Bc].
    destruct (Iv src ltac:(tauto) Wc) as (l & h & E & Fl & Fh & Hx). rewrite Bc in *.
    rewrite E in H. cbn [best_unary] in H. rewrite (not_float_dtype d Hs) in H. cbn [andb] in H.
    destruct op; try discriminate H; injection H as <-; apply unary_node; auto.
  - (* Binary *)
    assert (W : int_wt lhs = true /\ int_wt rhs = true /\ base_of rhs = base_of lhs
      /\ if BinaryOp.is_comparison op then DType.base d = Bool else DType.base d = base_of lhs).
    { destruct (BinaryOp.is_comparison op); split_wt Hw.
      - repeat split; try tauto. destruct (DType.base d); tauto || (destruct Hw as [[? _] _]; discriminate).
      - intuition congruence. }
    destruct W as (Wa & Wb & Bb & Bs).
    destruct (Iv lhs ltac:(tauto) Wa) as (al & ah & Ea & F1 & F2 & Hx).
    destruct (Iv rhs ltac:(tauto) Wb) as (bl & bh & Eb & F3 & F4 & Hy). rewrite Bb in *.
    pose proof (int_wt_base lhs Wa) as Ha. pose proof (int_wt_base rhs Wb) as Hb. rewrite Bb in Hb.
    unfold best_binary in H. rewrite Ea, Eb in H.
    assert (Fr : is_int_or_bool (DType.base (uop_dtype rhs)) = true) by exact (int_wt_base rhs Wb).
    rewrite (not_float_dtype (uop_dtype lhs) Ha), (not_float_dtype (uop_dtype rhs) Fr),
      (not_float_dtype d Hs) in H. cbn [orb] in H. rewrite andb_false_r in H.
    rewrite !(const_eqb_of_Z (base_of lhs) Ha) in H by assumption.
    destruct ((al =? ah) && (bl =? bh)) eqn:C.
    + injection H as <-. apply andb_prop in C as [->%Z.eqb_eq ->%Z.eqb_eq].
      apply (binary_node d (base_of lhs) op _ _ _ _ _ _ Hs Ha Bs); auto.
    + destruct (best_binary_rule _ _ _ _) eqn:R; [| discriminate H]. injection H as <-.
      apply (binary_node d (base_of lhs) op _ _ _ _ _ _ Hs Ha Bs); auto.
      right. destruct op; try discriminate R; exact R.
  - (* Ternary *)
    assert (W : int_wt a = true /\ int_wt b = true /\ int_wt c = true
              /\ base_of a = (match op with TernaryOp.Where => Bool | _ => DType.base d end)
              /\ base_of b = DType.base d /\ base_of c = DType.base d)
      by (destruct op; split_wt Hw; tauto).
    destruct W as (Wa & Wb & Wc & Ba & Bb & Bc).
    destruct (Iv a ltac:(tauto) Wa) as (al & ah & Ea & F1 & F2 & Hx).
    destruct (Iv b ltac:(tauto) Wb) as (bl & bh & Eb & F3 & F4 & Hy).
    destruct (Iv c ltac:(tauto) Wc) as (cl & ch & Ec & F5 & F6 & Hz).
    rewrite Ba, Bb, Bc in *. unfold best_ternary in H. rewrite Ea, Eb, Ec in H.
    rewrite (const_eqb_of_Z (match op with TernaryOp.Where => Bool | _ => DType.base d end)),
      !(const_eqb_of_Z (DType.base d) Hs) in H
      by (assumption || (destruct op; [reflexivity | exact Hs])).
    destruct ((al =? ah) && (bl =? bh) && (cl =? ch)) eqn:C.
    + injection H as <-. apply andb_prop in C as [[<-%Z.eqb_eq <-%Z.eqb_eq]%andb_prop <-%Z.eqb_eq].
      destruct op; [now apply where_node |]. apply (mulacc_sound d Hs); try assumption.
      cbn [denote]. intros z Ez. destruct (denote rho a) as [x |]; [| discriminate Ez].
      destruct (denote rho b) as [y |]; [| discriminate Ez].
      destruct (denote rho c) as [w |]; [| discriminate Ez]. injection Ez as <-.
      destruct (Hx x eq_refl), (Hy y eq_refl), (Hz w eq_refl).
      assert (x = al) as -> by lia. assert (y = bl) as -> by lia. assert (w = cl) as -> by lia.
      reflexivity.
    + destruct op; [| discriminate H]. destruct (_ || _) in H; [| discriminate H].
      injection H as <-. now apply where_node.
  - (* Cast *) split_wt Hw. destruct Hw as [Wc Nb].
    destruct (Iv src ltac:(tauto) Wc) as (l & h & E & Fl & Fh & Hx). rewrite E in H.
    refine (cast_range_sound d Hs (uop_dtype src) l h r _ (int_wt_base src Wc) _ Fl Fh H _).
    + intros B1 B2. unfold base_of in Nb. rewrite B1, B2 in Nb. discriminate Nb.
    + cbn [denote]. intros z Hz. destruct (denote rho src) as [x |]; [| discriminate].
      injection Hz as <-. exists x. split; [now apply Hx | reflexivity].
  - (* Special *) split_wt Hw. destruct Hw as [Wc Nb]. injection H as <-.
    unfold zero_to_end_minus_one. destruct (zero_to_typed_end_minus_one _ d) as [r' |] eqn:Z0.
    + apply (range_node d (base_of end_) (vmin_vmax end_) _ _ _ Hs Nb (int_wt_base end_ Wc)); [| exact Z0].
      apply Forall_cons in Sub as [Sub _]. exact (Sub _ Wc eq_refl).
    + apply (bounds_enclose d Hs). intros z Hz. cbn [denote] in Hz.
      destruct (denote rho end_); [| discriminate]. now apply leaf_values in Hz.
  - (* Param *) cbn [denote]. destruct (ParamArg.addrspace arg); [discriminate H |].
    destruct (ParamArg.vmin_vmax arg) as [[mn mx] |]; [| discriminate H]. now apply param_node.
  - (* Range *) split_wt Hw. destruct Hw as [Wc Nb]. injection H as <-.
    unfold zero_to_end_minus_one. destruct (zero_to_typed_end_minus_one _ d) as [r' |] eqn:Z0.
    + apply (range_node d (base_of end_) (vmin_vmax end_) _ _ _ Hs Nb (int_wt_base end_ Wc)); [| exact Z0].
      apply Forall_cons in Sub as [Sub _]. exact (Sub _ Wc eq_refl).
    + apply (bounds_enclose d Hs). intros z Hz. cbn [denote] in Hz.
      destruct (denote rho end_); [| discriminate]. now apply leaf_values in Hz.
  - (* Stack *) unfold sources_range in H. destruct (map vmin_vmax sources) as [| r0' rest] eqn:E; [discriminate H |].
    apply when_ordered_Some in H as ->.
    eapply (stack_enclose best _ sources (r0' :: rest)); [exact Hs | exact Hw | exact Sub | | reflexivity].
    rewrite <- E, map_map. reflexivity.
  - (* VConst *)
    eapply (values_enclose _ values _ (pick rho (mkUOp i (Op.VConst UOp values) d)));
      [exact Hs | exact Hw | exact H |].
    cbn [denote]. intros z Hz. destruct (nth_error values _) as [c |]; [eauto | discriminate].
  - (* DefineVar *) now apply declared_node.
  - (* Bind *) split_wt Hw. destruct Hw as [Wc Bc]. injection H as <-. cbn [denote]. rewrite <- Bc.
    apply Forall_cons in Sub as [Sub _]. exact (Sub _ Wc eq_refl).
Qed.
End Main.

(** ** Theorems *)
Section Theorems.
Context {M : LibM}.

(** C5: The sound range of a typed node holds every value it denotes, and its
    bounds are constants of the node's dtype. *)
Theorem sound_range_encloses rho u lo hi v :
  int_wt u = true -> interned u ->
  sound_vmin_vmax u = Some (lo, hi) -> denote rho u = Some v ->
  exists l h, lo = of_Z (base_of u) l /\ hi = of_Z (base_of u) h /\ l <= v <= h
    /\ fits (base_of u) l /\ fits (base_of u) h.
Proof.
  intros Hw Hi Hr Hv. destruct (sound_encloses rho u Hi _ Hw Hr) as (l & h & E & Fl & Fh & H).
  injection E as -> ->. exists l, h. auto.
Qed.

(** C6: So does the best-effort range, which always exists. *)
Theorem best_range_encloses rho u lo hi v :
  int_wt u = true -> vmin_vmax u = (lo, hi) -> denote rho u = Some v ->
  exists l h, lo = of_Z (base_of u) l /\ hi = of_Z (base_of u) h /\ l <= v <= h
    /\ fits (base_of u) l /\ fits (base_of u) h.
Proof.
  intros Hw Hr Hv. destruct (best_encloses rho u (vmin_vmax u) Hw eq_refl) as (l & h & E & Fl & Fh & H).
  rewrite Hr in E. injection E as -> ->. exists l, h. auto.
Qed.


(** A node whose sound range is a single constant denotes that constant. *)
Theorem sound_constant_folds rho u c v :
  int_wt u = true -> interned u -> sound_vmin_vmax u = Some (c, c) -> denote rho u = Some v ->
  c = of_Z (base_of u) v.
Proof.
  intros Hw Hi Hr Hv. destruct (sound_encloses rho u Hi _ Hw Hr) as (l & h & E & Fl & Fh & H).
  injection E as -> E2. specialize (H v Hv).
  apply (of_Z_inj (base_of u) (int_wt_base u Hw)) in E2; [| assumption..]. f_equal. lia.
Qed.

(** A cast between two boolean dtypes is outside the fragment: the range of an
    unknown boolean claims it is true, because [contains_zero] does not
    recognise [false]. *)
Theorem cast_bool_range_unsound :
  cast_range (ConstValue.Bool false) (ConstValue.Bool true) (Scalar Bool) (Scalar Bool)
    = Some (ConstValue.Bool true, ConstValue.Bool true)
  /\ const_cast (ConstValue.Bool false) (Scalar Bool) = Some (ConstValue.Bool false).
Proof. split; reflexivity. Qed.
End Theorems.

(** *** A concrete graph

    [i * 4 + 3] for a loop index [i < 10], compared with 39 and with itself. *)
Module Demo.
Definition int32 : DType := Scalar Int32.
Definition ten := mkUOp 1 (Op.Const UOp (ConstValue.Int 10)) int32.
Definition four := mkUOp 2 (Op.Const UOp (ConstValue.Int 4)) int32.
Definition three := mkUOp 3 (Op.Const UOp (ConstValue.Int 3)) int32.
Definition i := mkUOp 4 (Op.Range UOp ten (AxisId.Unrenumbered 0) AxisType.Loop []) int32.
Definition scaled := mkUOp 5 (Op.Binary UOp BinaryOp.Mul i four) int32.
Definition addr := mkUOp 6 (Op.Binary UOp BinaryOp.Add scaled three) int32.
Definition limit := mkUOp 7 (Op.Const UOp (ConstValue.Int 40)) int32.
Definition inside := mkUOp 8 (Op.Binary UOp BinaryOp.Lt addr limit) (Scalar Bool).

Definition rho : env := mkEnv (fun _ => 7) (fun _ => 0%nat).
End Demo.

Lemma sound_range_encloses_witness :
  exists l h, ConstValue.Int 3 = of_Z (base_of Demo.addr) l
    /\ ConstValue.Int 39 = of_Z (base_of Demo.addr) h /\ l <= 31 <= h
    /\ fits (base_of Demo.addr) l /\ fits (base_of Demo.addr) h.
Proof.
  apply (sound_range_encloses (M := demo_libm) Demo.rho Demo.addr (ConstValue.Int 3) (ConstValue.Int 39) 31);
    [reflexivity | solve_interned | vm_compute; reflexivity | vm_compute; reflexivity].
Defined.

Lemma best_range_encloses_witness :
  exists l h, ConstValue.Int 3 = of_Z (base_of Demo.addr) l
    /\ ConstValue.Int 39 = of_Z (base_of Demo.addr) h /\ l <= 31 <= h
    /\ fits (base_of Demo.addr) l /\ fits (base_of Demo.addr) h.
Proof.
  apply (best_range_encloses (M := demo_libm) Demo.rho Demo.addr (ConstValue.Int 3) (ConstValue.Int 39) 31);
    [reflexivity | vm_compute; reflexivity | vm_compute; reflexivity].
Defined.


Lemma sound_constant_folds_witness : ConstValue.Bool true = of_Z (base_of Demo.inside) 1.
Proof.
  apply (sound_constant_folds (M := demo_libm) Demo.rho Demo.inside (ConstValue.Bool true) 1);
    [reflexivity | solve_interned | vm_compute; reflexivity | vm_compute; reflexivity].
Defined.
