(* ===== verification/Properties.v ===== *)
(** * The cached properties of a node ([ir/src/uop/properties.rs])

    The bodies of the properties that do not depend on shapes, and what their
    values mean: the ranges of a graph, the ranges in scope at a node, and
    whether a weak float occurs.  The soundly bounded range is the property
    computed by [RangeEval.sound_vmin_vmax]. *)

From stdpp Require Import relations gmap sorting.
From S2P Require Import Prelude F64 Cast ConstVal Ops Eval Payload UOp.
From S2P Require Import Traverse CachedProperty RangeEval RangeSound.
From S2P Require Import DType.

(** ** [HasWeakFloatProperty] *)

Definition is_weak_float (u : UOp) : bool := bool_decide (DType.base (uop_dtype u) = WeakFloat).

Definition has_weak_float_compute (uop : UOp) : prog bool :=
  if is_weak_float uop then Ret true
  else read_all (children uop) (fun result _ v => result || v) false Ret.

Lemma has_weak_float_below u : reads_below u (has_weak_float_compute u).
Proof.
  unfold has_weak_float_compute. destruct (is_weak_float u); [exact I |].
  apply reads_below_all; [apply source_below | intros a; exact I].
Qed.

#[export] Instance HasWeakFloat : Property bool :=
  {| compute := has_weak_float_compute; compute_below := has_weak_float_below |}.

Lemma fold_orb (f : UOp -> bool) l b :
  fold_left (fun result c => result || f c) l b = b || existsb f l.
Proof.
  revert b. induction l as [| c l IH]; intros b; cbn; [now rewrite orb_false_r |].
  now rewrite IH, orb_assoc.
Qed.

Lemma has_weak_float_eq u :
  property_value HasWeakFloat u = is_weak_float u || existsb (property_value HasWeakFloat) (children u).
Proof.
  rewrite property_eq at 1. cbn [compute HasWeakFloat]. unfold has_weak_float_compute. destruct (is_weak_float u); [reflexivity |].
  rewrite pure_read_all. cbn [pure orb]. rewrite fold_orb. reflexivity.
Qed.

Lemma has_weak_float_occurs u :
  property_value HasWeakFloat u = true <-> exists n, occurs u n /\ is_weak_float n = true.
Proof.
  induction u as [u IH] using UOp_children_ind. rewrite has_weak_float_eq, orb_true_iff.
  rewrite List.Forall_forall in IH. split.
  - intros [H | (c & Hc & H)%existsb_exists].
    + exists u. split; [constructor | exact H].
    + apply (IH c Hc) in H as (n & Hn & H). exists n. split; [eapply rtc_l; eassumption | exact H].
  - intros (n & Hn & H). inversion Hn as [| ? c ? Hc Hr]; subst; [now left | right].
    apply existsb_exists. exists c. split; [exact Hc |]. apply (IH c Hc). eauto.
Qed.

(** ** [RangesProperty] *)

Definition is_range_node (u : UOp) : bool := Op.is_range (uop_op u).

(** [if seen.insert(r.id) { result.push(r) }]. *)
Definition push_new (acc : gset Z * list UOp) (r : UOp) : gset Z * list UOp :=
  let '(seen, result) := acc in
  if is_visited seen r then acc else ({[uid r]} ∪ seen, result ++ [r]).

Definition ranges_step (acc : gset Z * list UOp) (src : UOp) (v : list UOp) : gset Z * list UOp :=
  fold_left push_new v (if is_range_node src then push_new acc src else acc).

Definition ranges_compute (uop : UOp) : prog (list UOp) :=
  read_all (children uop) ranges_step (∅, []) (fun acc => Ret (snd acc)).

Lemma ranges_reads_below u : reads_below u (ranges_compute u).
Proof. apply reads_below_all; [apply source_below | intros a; exact I]. Qed.

#[export] Instance Ranges : Property (list UOp) :=
  {| compute := ranges_compute; compute_below := ranges_reads_below |}.

(** [UOp::ranges], on top of the property. *)
Definition ranges (u : UOp) : list UOp :=
  let cached := property_value Ranges u in
  if is_range_node u then u :: cached else cached.

Section RangesSpec.
Context (G : UOp -> Prop) `{!Arena G}.

(** The accumulator after the nodes [l] were offered to it. *)
Record pushed (acc : gset Z * list UOp) : Prop := {
  pushed_seen i : i ∈ fst acc <-> In i (map uid (snd acc));
  pushed_nodup : List.NoDup (map uid (snd acc));
  pushed_in n : In n (snd acc) -> G n
}.

Lemma push_new_ok acc r :
  pushed acc -> G r ->
  pushed (push_new acc r) /\ forall n, In n (snd (push_new acc r)) <-> In n (snd acc) \/ n = r.
Proof using Arena0.
  destruct acc as [seen result]. intros [S N I] Gr. cbn [fst snd] in *. unfold push_new.
  destruct (is_visited seen r) eqn:V; cbn [snd].
  - split; [now split |]. intros n. split; [auto |]. intros [H | ->]; [exact H |].
    apply is_visited_spec, S, in_map_iff in V as (m & E & Hm).
    now rewrite (arena_id r m Gr (I m Hm) (eq_sym E)).
  - assert (Hr : ~ In (uid r) (map uid result)).
    { intros H. apply S, is_visited_spec in H. congruence. }
    split.
    + split; cbn [fst snd].
      * intros i. rewrite elem_of_union, elem_of_singleton, S, map_app, in_app_iff. cbn. intuition.
      * rewrite map_app. now apply NoDup_snoc.
      * intros n [H | [<- | []]]%in_app_iff; auto.
    + intros n. rewrite in_app_iff. cbn. intuition.
Qed.

Lemma push_all_ok l acc :
  pushed acc -> Forall G l ->
  pushed (fold_left push_new l acc)
  /\ forall n, In n (snd (fold_left push_new l acc)) <-> In n (snd acc) \/ In n l.
Proof using Arena0.
  revert acc. induction l as [| r l IH]; intros acc Ha Hl; cbn [fold_left In]; [split; [exact Ha | tauto] |].
  apply Forall_cons in Hl as [Gr Gl]. destruct (push_new_ok acc r Ha Gr) as [Ha' E].
  destruct (IH _ Ha' Gl) as [Hf Ef]. split; [exact Hf |]. intros n. rewrite Ef, E. intuition.
Qed.

(** The RANGE nodes strictly below [u], each once. *)
Definition ranges_below (u : UOp) (l : list UOp) : Prop :=
  List.NoDup (map uid l) /\ forall r, In r l <-> below u r /\ is_range_node r = true.

Lemma ranges_value u : G u -> ranges_below u (property_value Ranges u).
Proof using Arena0.
  induction u as [u IH] using UOp_children_ind. intros Gu. rewrite List.Forall_forall in IH.
  assert (K : forall l acc, pushed acc -> incl l (children u) ->
    let acc' := fold_left (fun a c => ranges_step a c (property_value Ranges c)) l acc in
    pushed acc'
    /\ forall n, In n (snd acc') <-> In n (snd acc)
         \/ exists c, In c l /\ occurs c n /\ is_range_node n = true).
  { induction l as [| c l IHl]; intros acc Ha Hl; cbn [fold_left].
    - split; [exact Ha |]. intros n. split; [auto | intros [H | (c & [] & _)]; exact H].
    - assert (Hc : source u c) by (apply Hl; now left).
      assert (Gc : G c) by exact (arena_source u c Gu Hc).
      destruct (IH c Hc Gc) as [Nc Ec].
      assert (Gv : Forall G (property_value Ranges c)).
      { apply List.Forall_forall. intros r Hr. apply Ec in Hr as [(d & Hd & Ho) _].
        exact (arena_occurs G d r (arena_source c d Gc Hd) Ho). }
      assert (H1 : pushed (if is_range_node c then push_new acc c else acc)
        /\ forall n, In n (snd (if is_range_node c then push_new acc c else acc))
             <-> In n (snd acc) \/ (n = c /\ is_range_node c = true)).
      { destruct (is_range_node c).
        - destruct (push_new_ok acc c Ha Gc) as [P Q]. split; [exact P |]. intros n. rewrite Q. tauto.
        - split; [exact Ha |]. intros n. intuition congruence. }
      destruct H1 as [Ha1 E1].
      destruct (push_all_ok _ _ Ha1 Gv) as [Ha2 E2].
      destruct (IHl (ranges_step acc c (property_value Ranges c)) Ha2 (fun x Hx => Hl x (or_intror Hx)))
        as [Ha3 E3].
      split; [exact Ha3 |]. intros n. rewrite E3. unfold ranges_step. rewrite E2, E1, Ec. split.
      + intros [[[H | [-> Hr]] | [(d & Hd & Ho) Hr]] | (d & Hd & Ho)]; [now left | right..].
        * exists c. split; [now left |]. split; [constructor | exact Hr].
        * exists c. split; [now left |]. split; [eapply rtc_l; eassumption | exact Hr].
        * exists d. split; [now right | exact Ho].
      + intros [H | (d & [<- | Hd] & Ho & Hr)]; [tauto | | right; eauto].
        left. inversion Ho as [| ? e ? He Hoe]; subst; [tauto |]. right. split; [| exact Hr].
        exists e. now split. }
  destruct (K (children u) (∅, [])) as [[_ N _] E].
  { split; cbn; [| constructor | tauto]. intros i. split; [intros H; now apply not_elem_of_empty in H | tauto]. }
  { intros x Hx. exact Hx. }
  rewrite property_eq. cbn [compute Ranges]. unfold ranges_compute. rewrite pure_read_all. cbn [pure]. split; [exact N |].
  intros r. rewrite E. cbn [snd In]. unfold below, source. split.
  - intros [[] | (c & Hc & Ho & Hr)]. split; [exists c; auto | exact Hr].
  - intros [(c & Hc & Ho) Hr]. right. exists c. auto.
Qed.
End RangesSpec.

(** ** [InScopeRangesProperty] *)

(** [Vec::dedup]: one element of each run. *)
Fixpoint dedup (l : list Z) : list Z :=
  match l with
  | a :: ((b :: _) as t) => if a =? b then dedup t else a :: dedup t
  | _ => l
  end.

Definition sort_unstable (l : list Z) : list Z := merge_sort Z.le l.

(** Removing what the ended nodes close: a RANGE its own id, another node
    everything in scope at it. *)
Fixpoint retain_ended (ended : list UOp) (result : list Z) (k : list Z -> prog (list Z))
    : prog (list Z) :=
  match ended with
  | [] => k result
  | e :: ended =>
      if is_range_node e then
        retain_ended ended (List.filter (fun id => negb (id =? uid e)) result) k
      else
        Get e (fun ended_scope =>
          retain_ended ended
            (List.filter (fun id => negb (existsb (Z.eqb id) ended_scope)) result) k)
  end.

(** A PROGRAM or LINEAR leaks no range. *)
Definition closes_all (u : UOp) : bool :=
  match uop_op u with Op.Linear _ _ | Op.Program _ _ _ _ _ _ => true | _ => false end.

Definition in_scope_ranges_compute (uop : UOp) : prog (list Z) :=
  if closes_all uop then Ret []
  else
    read_all (children uop) (fun result _ v => result ++ v) [] (fun result =>
      retain_ended (ended_ranges uop) result (fun result =>
        Ret (dedup (sort_unstable
          (if is_range_node uop then result ++ [uid uop] else result))))).

Lemma ended_below u e : In e (ended_ranges u) -> below u e.
Proof.
  revert e. induction u as [u IH] using UOp_children_ind. intros e He. destruct u as [i op d].
  cbn [ended_ranges] in He. destruct (Op.range_ending_src_index op) as [n |].
  - apply source_below. unfold source, children. cbn [uop_op].
    rewrite <- (firstn_skipn n (Op.children op)). apply in_app_iff. now right.
  - unfold children in IH. cbn [uop_op] in IH.
    destruct op; cbn [In Op.children] in He, IH; try contradiction;
      try (destruct He as [<- | []]; apply source_below; left; reflexivity).
    apply in_concat in He as (l & Hl & He). apply in_map_iff in Hl as (dep & <- & Hd).
    rewrite List.Forall_forall in IH. destruct (IH dep (or_intror Hd) e He) as (c & Hc & Ho).
    exists dep. split; [right; exact Hd |]. eapply rtc_l; eassumption.
Qed.

Lemma retain_reads_below u ended result k :
  (forall e, In e ended -> below u e) -> (forall r, reads_below u (k r)) ->
  reads_below u (retain_ended ended result k).
Proof.
  intros He Hk. revert result. induction ended as [| e ended IH]; intros result; cbn; [apply Hk |].
  assert (IH' := IH (fun e H => He e (or_intror H))).
  destruct (is_range_node e); [apply IH' |]. split; [apply He; now left | intros v; apply IH'].
Qed.

Lemma in_scope_reads_below u : reads_below u (in_scope_ranges_compute u).
Proof.
  unfold in_scope_ranges_compute. destruct (closes_all u); [exact I |].
  apply reads_below_all; [apply source_below |]. intros a.
  apply retain_reads_below; [apply ended_below | intros r; exact I].
Qed.

#[export] Instance InScopeRanges : Property (list Z) :=
  {| compute := in_scope_ranges_compute; compute_below := in_scope_reads_below |}.

Definition in_scope_ranges (u : UOp) : list Z := property_value InScopeRanges u.

(** *** Sorted, deduplicated ids *)

Lemma dedup_cons a b l :
  dedup (a :: b :: l) = if a =? b then dedup (b :: l) else a :: dedup (b :: l).
Proof. reflexivity. Qed.

Lemma dedup_in l i : In i (dedup l) <-> In i l.
Proof.
  induction l as [| a [| b l] IH]; [tauto | tauto |]. rewrite dedup_cons.
  destruct (Z.eqb_spec a b) as [-> | N].
  - rewrite IH. cbn. intuition.
  - cbn [In] in *. rewrite IH. tauto.
Qed.

Lemma dedup_sorted l : StronglySorted Z.le l -> StronglySorted Z.lt (dedup l).
Proof.
  induction 1 as [| a l Hl IH Ha]; [constructor |]. destruct l as [| b l]; [repeat constructor |].
  rewrite dedup_cons. destruct (Z.eqb_spec a b) as [-> | N]; [exact IH |]. constructor; [exact IH |].
  rewrite List.Forall_forall in *. intros x Hx. rewrite dedup_in in Hx.
  assert (b <= x).
  { inversion Hl as [| ? ? _ Hb]; subst. rewrite List.Forall_forall in Hb.
    destruct Hx as [<- | Hx]; [lia | auto]. }
  specialize (Ha b (or_introl eq_refl)). lia.
Qed.

Lemma sort_in l i : In i (sort_unstable l) <-> In i l.
Proof.
  unfold sort_unstable. rewrite <- !list_elem_of_In.
  now rewrite (merge_sort_Permutation Z.le l).
Qed.

Lemma sort_sorted l : StronglySorted Z.le (sort_unstable l).
Proof. apply StronglySorted_merge_sort; exact _. Qed.

(** The id [i] survives the end of [e]. *)
Definition survives (i : Z) (e : UOp) : Prop :=
  if is_range_node e then i <> uid e else ~ In i (in_scope_ranges e).

Lemma retain_in ended i :
  forall result k,
  exists result', pure (property_value InScopeRanges) (retain_ended ended result k)
                  = pure (property_value InScopeRanges) (k result')
    /\ (In i result' <-> In i result /\ Forall (survives i) ended).
Proof.
  induction ended as [| e ended IH]; intros result k; cbn [retain_ended].
  - exists result. split; [reflexivity |]. split; [now split | tauto].
  - assert (Su : survives i e <-> if is_range_node e then i <> uid e else ~ In i (in_scope_ranges e))
      by reflexivity.
    destruct (is_range_node e); cbn [pure].
    + destruct (IH (List.filter (fun id => negb (id =? uid e)) result) k) as (r & E & H).
      exists r. split; [exact E |]. rewrite H, Forall_cons, Su, filter_In, negb_true_iff, Z.eqb_neq.
      tauto.
    + destruct (IH (List.filter (fun id => negb (existsb (Z.eqb id) (property_value InScopeRanges e)))
                      result) k) as (r & E & H).
      exists r. split; [exact E |]. rewrite H, Forall_cons, Su, filter_In, negb_true_iff.
      rewrite <- not_true_iff_false, existsb_exists. unfold in_scope_ranges. split.
      * intros ((Hr & Hn) & Hf). split; [exact Hr |]. split; [| exact Hf]. intros Hi. apply Hn.
        exists i. split; [exact Hi | apply Z.eqb_refl].
      * intros (Hr & Hn & Hf). split; [split; [exact Hr |] | exact Hf].
        intros (j & Hj & ->%Z.eqb_eq). now apply Hn.
Qed.

(** The defining equation of the ranges in scope. *)
Lemma in_scope_eq u i :
  In i (in_scope_ranges u)
  <-> closes_all u = false
      /\ ((is_range_node u = true /\ i = uid u)
          \/ ((exists c, source u c /\ In i (in_scope_ranges c))
              /\ Forall (survives i) (ended_ranges u))).
Proof.
  unfold in_scope_ranges at 1. rewrite property_eq. cbn [compute InScopeRanges].
  unfold in_scope_ranges_compute.
  destruct (closes_all u); [cbn; intuition congruence |].
  rewrite pure_read_all.
  assert (R : forall l acc, In i (fold_left (fun a c => a ++ in_scope_ranges c) l acc)
    <-> In i acc \/ exists c, In c l /\ In i (in_scope_ranges c)).
  { induction l as [| c l IH]; intros acc; cbn [fold_left].
    - split; [auto | intros [H | (c & [] & _)]; exact H].
    - rewrite IH, in_app_iff. split.
      + intros [[H | H] | (d & Hd & H)]; [now left | right; exists c; cbn; auto | right; exists d; cbn; auto].
      + intros [H | (d & [<- | Hd] & H)]; [auto | auto | right; eauto]. }
  destruct (retain_in (ended_ranges u) i
    (fold_left (fun a c => a ++ in_scope_ranges c) (children u) [])
    (fun result => Ret (dedup (sort_unstable (if is_range_node u then result ++ [uid u] else result)))))
    as (r & E & H).
  unfold in_scope_ranges in E. rewrite E. cbn [pure]. rewrite dedup_in, sort_in.
  rewrite R in H. cbn [In] in H.
  assert (Hs : (exists c, In c (children u) /\ In i (in_scope_ranges c))
               <-> (exists c, source u c /\ In i (in_scope_ranges c))) by reflexivity.
  destruct (is_range_node u).
  - rewrite in_app_iff. cbn [In]. rewrite H, <- Hs. intuition congruence.
  - rewrite H, <- Hs. intuition congruence.
Qed.

(** ** [SoundVminVmaxProperty]

    The body with its reads in the order of the code: a missing range of an
    operand answers before the next operand is read. *)
Section Sound.
Context {M : LibM}.

Definition try_get (u : UOp) (k : range -> prog (option range)) : prog (option range) :=
  Get u (fun r => match r with Some r => k r | None => Ret None end).

(** The [try_fold] of [sound_sources_range]. *)
Fixpoint sound_sources_compute (acc : range) (sources : list UOp) : prog (option range) :=
  match sources with
  | [] => Ret (Some acc)
  | src :: sources => try_get src (fun r => sound_sources_compute (union2 acc r) sources)
  end.

Definition sound_vmin_vmax_compute (uop : UOp) : prog (option range) :=
  let dtype := uop_dtype uop in
  match uop_op uop with
  | Op.Const _ c => Ret (exact_when_ordered c)
  | Op.VConst _ values => Ret (sound_values_range values)
  | Op.DefineVar _ _ min_val max_val =>
      Ret (let? bounds := declared_bounds min_val max_val dtype in when_ordered bounds)
  | Op.Param _ _ arg =>
      Ret match ParamArg.addrspace arg with
          | None =>
              let? (min, max) := ParamArg.vmin_vmax arg in
              let? bounds := normalize_declared_bounds min max dtype in when_ordered bounds
          | Some _ => None
          end
  | Op.Range _ end_ _ _ _ | Op.Special _ end_ _ =>
      try_get end_ (fun '(_, end_max) =>
        Ret (let? bounds := zero_to_typed_end_minus_one end_max dtype in when_ordered bounds))
  | Op.Bind _ var _ => Get var Ret
  | Op.Stack _ [] => Ret None
  | Op.Stack _ (first :: sources) => try_get first (fun r => sound_sources_compute r sources)
  | Op.Unary _ op src => try_get src (fun r => Ret (sound_unary op (Some r) dtype))
  | Op.Binary _ op a b =>
      try_get a (fun ra => try_get b (fun rb =>
        Ret (sound_binary op (Some ra) (Some rb) (ptr_eq a b) dtype)))
  | Op.Ternary _ op cond true_value false_value =>
      try_get cond (fun rc => try_get true_value (fun rt => try_get false_value (fun rf =>
        Ret (sound_ternary op (Some rc) (Some rt) (Some rf) dtype))))
  | Op.Cast _ src _ => Get src (fun r => Ret (sound_cast_range r (uop_dtype src) dtype))
  | _ => Ret None
  end.

Lemma sources_reads_below u acc l :
  (forall c, In c l -> below u c) -> reads_below u (sound_sources_compute acc l).
Proof.
  revert acc. induction l as [| c l IH]; intros acc H; cbn; [exact I |].
  split; [apply H; now left |]. intros [r |]; [| exact I]. apply IH. intros d Hd. apply H. now right.
Qed.

Lemma sound_reads_below u : reads_below u (sound_vmin_vmax_compute u).
Proof.
  destruct u as [i op d]. unfold sound_vmin_vmax_compute. cbn [uop_op uop_dtype].
  assert (S : forall c, In c (Op.children op) -> below (mkUOp i op d) c)
    by (intros c Hc; now apply source_below).
  destruct op;
    try match goal with |- context [match ?l with [] => _ | _ :: _ => _ end] =>
          is_var l; destruct l as [| first sources]
        end;
    cbn [reads_below try_get Op.children In] in *; try exact I;
    repeat first
      [ exact I
      | match goal with |- below _ _ => apply S; tauto end
      | match goal with |- _ /\ _ => split end
      | match goal with |- reads_below _ (sound_sources_compute _ _) =>
          apply sources_reads_below; intros; apply S; tauto end
      | match goal with |- context [let (_, _) := ?p in _] => destruct p end
      | intros []; cbn [reads_below try_get]
      | intros ?; cbn [reads_below] ].
Qed.

Lemma pure_sources acc l :
  pure sound_vmin_vmax (sound_sources_compute acc l)
  = fold_left (fun acc src => let? a := acc in let? s := src in Some (union2 a s))
      (map sound_vmin_vmax l) (Some acc).
Proof.
  revert acc. induction l as [| c l IH]; intros acc; cbn; [reflexivity |].
  destruct (sound_vmin_vmax c) as [r |]; cbn; [apply IH |].
  clear. induction l as [| c l IH]; cbn; auto.
Qed.

(** The property computes [sound_vmin_vmax]. *)
Lemma sound_vmin_vmax_eq u : sound_vmin_vmax u = pure sound_vmin_vmax (sound_vmin_vmax_compute u).
Proof.
  destruct u as [i op d]. unfold sound_vmin_vmax_compute. cbn [uop_op uop_dtype].
  destruct op;
    try match goal with |- context [match ?l with [] => _ | _ :: _ => _ end] =>
          is_var l; destruct l as [| first sources]
        end;
    cbn [sound_vmin_vmax pure try_get map]; try reflexivity;
    repeat (match goal with
    | |- context [match sound_vmin_vmax ?s with _ => _ end] => destruct (sound_vmin_vmax s) as [[] |]
    | |- context [sound_unary _ (sound_vmin_vmax ?s) _] => destruct (sound_vmin_vmax s) as [[] |]
    | |- context [sound_binary _ (sound_vmin_vmax ?s) _ _ _] => destruct (sound_vmin_vmax s) as [[] |]
    | |- context [sound_binary _ _ (sound_vmin_vmax ?s) _ _] => destruct (sound_vmin_vmax s) as [[] |]
    | |- context [sound_ternary _ (sound_vmin_vmax ?s) _ _ _] => destruct (sound_vmin_vmax s) as [[] |]
    | |- context [sound_ternary _ _ (sound_vmin_vmax ?s) _ _] => destruct (sound_vmin_vmax s) as [[] |]
    | |- context [sound_ternary _ _ _ (sound_vmin_vmax ?s) _] => destruct (sound_vmin_vmax s) as [[] |]
    end; cbn [pure try_get]); try reflexivity.
  - cbn [sound_sources_range]. rewrite pure_sources. reflexivity.
  - cbn. clear. induction sources as [| c l IH]; cbn; auto.
Qed.

#[export] Instance SoundVminVmax : Property (option range) :=
  {| compute := sound_vmin_vmax_compute; compute_below := sound_reads_below |}.
End Sound.

(** ** Theorems *)

(** The memoised weak-float predicate is the linear scan it replaces. *)
Theorem has_weak_float_scan u :
  interned u -> property_value HasWeakFloat u = existsb is_weak_float (toposort u).
Proof.
  intros Hi. apply eq_true_iff_eq. rewrite has_weak_float_occurs, existsb_exists.
  destruct (toposort_topological u Hi) as [_ T _].
  split; intros (n & Hn & H); exists n; (split; [| exact H]).
  - apply T. split; [reflexivity | now apply gated_all].
  - now apply gated_all, T.
Qed.

(** [UOp::ranges] lists every RANGE of the graph exactly once. *)
Theorem ranges_correct u :
  interned u ->
  List.NoDup (map uid (ranges u))
  /\ forall r, In r (ranges u) <-> occurs u r /\ is_range_node r = true.
Proof.
  intros Hi.
  destruct (ranges_value (fun a => occurs u a) (Arena0 := interned_arena u Hi) u (rtc_refl _ _))
    as [N E].
  assert (K : forall r, occurs u r <-> r = u \/ below u r).
  { intros r. split.
    - intros H. inversion H as [| ? c ? Hc Ho]; subst; [now left | right; now exists c].
    - intros [-> | (c & Hc & Ho)]; [constructor | eapply rtc_l; eassumption]. }
  unfold ranges. destruct (is_range_node u) eqn:R.
  - split.
    + constructor; [| exact N]. intros (r & Er & Hr)%in_map_iff. apply E in Hr as [Hb _].
      assert (r = u) as ->.
      { apply (Hi r u); [apply K; now right | constructor | exact Er]. }
      destruct Hb as (c & Hc & Ho). exact (no_cycle u c Hc Ho).
    + intros r. cbn [In]. rewrite E, K. intuition congruence.
  - split; [exact N |]. intros r. rewrite E, K. intuition congruence.
Qed.

Lemma in_scope_is_range u i :
  In i (in_scope_ranges u) -> exists r, occurs u r /\ is_range_node r = true /\ uid r = i.
Proof.
  induction u as [u IH] using UOp_children_ind. rewrite in_scope_eq.
  intros (_ & [[R ->] | [(c & Hc & Hi) _]]).
  - exists u. split; [constructor | now split].
  - rewrite List.Forall_forall in IH. destruct (IH c Hc Hi) as (r & Ho & H).
    exists r. split; [eapply rtc_l; eassumption | exact H].
Qed.

(** The ranges in scope at a node are the ids, in increasing order, of
    RANGE nodes of its graph; a RANGE is in scope at itself, a range in scope at
    a source stays in scope unless the node ends it, and a range ended by a node
    other than a RANGE is not in scope there. *)
Theorem in_scope_ranges_correct u :
  StronglySorted Z.lt (in_scope_ranges u)
  /\ (forall i, In i (in_scope_ranges u) ->
        exists r, occurs u r /\ is_range_node r = true /\ uid r = i)
  /\ (is_range_node u = true -> In (uid u) (in_scope_ranges u))
  /\ (forall c i, closes_all u = false -> source u c -> In i (in_scope_ranges c) ->
        Forall (survives i) (ended_ranges u) -> In i (in_scope_ranges u))
  /\ (forall e, In e (ended_ranges u) -> is_range_node e = true -> is_range_node u = false ->
        ~ In (uid e) (in_scope_ranges u)).
Proof.
  split; [| split; [apply in_scope_is_range | split; [| split]]].
  - unfold in_scope_ranges. rewrite property_eq. cbn [compute InScopeRanges].
    unfold in_scope_ranges_compute. destruct (closes_all u); [constructor |].
    rewrite pure_read_all.
    destruct (retain_in (ended_ranges u) 0
      (fold_left (fun a c => a ++ property_value InScopeRanges c) (children u) [])
      (fun result => Ret (dedup (sort_unstable (if is_range_node u then result ++ [uid u] else result)))))
      as (r & E & _).
    rewrite E. apply dedup_sorted, sort_sorted.
  - intros R. apply in_scope_eq. split; [| now left]. unfold is_range_node, closes_all in *.
    destruct (uop_op u); discriminate || reflexivity.
  - intros c i Hc Hs Hi Hf. apply in_scope_eq. split; [exact Hc |]. right. eauto.
  - intros e He Re Ru H. apply in_scope_eq in H as (_ & [[R _] | [_ F]]); [congruence |].
    rewrite List.Forall_forall in F. specialize (F e He). unfold survives in F. rewrite Re in F.
    contradiction.
Qed.

(** [SoundVminVmaxProperty::get], whatever the cells filled before, returns
    the range of the interval analysis. *)
Theorem sound_property_get {M : LibM} u cache :
  interned u -> cache_ok compute (fun a => occurs u a) cache ->
  exists cache', cached_get SoundVminVmax u cache = Some (sound_vmin_vmax u, cache')
    /\ cache' !! uid u = Some (sound_vmin_vmax u).
Proof.
  intros Hi Hc.
  destruct (get_spec compute compute_below (fun a => occurs u a) (Arena0 := interned_arena u Hi)
              u cache 0 Hc (rtc_refl _ _)) as (cache' & E & _ & L & _).
  assert (V : value compute u = sound_vmin_vmax u)
    by (apply value_unique; [apply compute_below | exact sound_vmin_vmax_eq]).
  exists cache'. rewrite <- V. split; [exact E | exact L].
Qed.

(** *** Concrete graphs: [i * 4 + 3 < 40], and a reduction that ends [i] *)

Definition reduced : UOp :=
  mkUOp 9 (Op.Reduce UOp Demo.addr [Demo.i] ReduceOp.Add 0) Demo.int32.

Example reduced_ranges :
  map uid (ranges reduced) = [4] /\ in_scope_ranges Demo.addr = [4] /\ in_scope_ranges reduced = [].
Proof. vm_compute. auto. Qed.

Lemma cached_get_refines_witness :
  exists cache', cached_get InScopeRanges reduced ∅ = Some (property_value InScopeRanges reduced, cache')
    /\ cache_ok compute (fun a => occurs reduced a) cache'
    /\ ∅ ⊆ cache'
    /\ (forall i, cache' !! i <> (∅ : gmap Z (list Z)) !! i -> exists n, occurs reduced n /\ uid n = i).
Proof.
  assert (Hi : interned reduced) by solve_interned.
  apply (cached_get_refines InScopeRanges (fun a => occurs reduced a)
           (Arena0 := interned_arena reduced Hi) reduced ∅); [constructor | apply cache_ok_empty].
Defined.

Lemma has_weak_float_scan_witness : false = existsb is_weak_float (toposort Demo.inside).
Proof. apply (has_weak_float_scan Demo.inside). solve_interned. Defined.

Lemma ranges_correct_witness :
  List.NoDup [4]
  /\ forall r, In r (ranges reduced) <-> occurs reduced r /\ is_range_node r = true.
Proof. apply (ranges_correct reduced). solve_interned. Defined.

Lemma sound_property_get_witness :
  exists cache', cached_get (SoundVminVmax (M := demo_libm)) Demo.addr ∅
                 = Some (Some (ConstValue.Int 3, ConstValue.Int 39), cache')
    /\ cache' !! 6 = Some (Some (ConstValue.Int 3, ConstValue.Int 39)).
Proof.
  apply (sound_property_get (M := demo_libm) Demo.addr ∅); [solve_interned | apply cache_ok_empty].
Defined.
