(* ===== verification/Tlsf.v ===== *)
(** * The arena allocator ([tensor/src/memory_planner/tlsf.rs])

    Two-level segregated fit: free blocks are indexed by [(lv1, lv2)] buckets,
    all blocks by start offset, with links to their neighbours.  [None] is a
    panic (index out of bounds, failed assertion, overflow of [usize]); errors
    are values of [TlsfError].

    The abstract state is the list of blocks from offset 0 on; the theorems
    show that the concrete maps always represent such a list and what [alloc]
    and [free] do to it. *)

From stdpp Require Import gmap.
From S2P Require Import Prelude.

Inductive TlsfError :=
| OutOfMemory (req : Z)
| UnknownOffset (offset : Z)
| DoubleFree (offset : Z).

Module BlockMeta.
Record t := mk { size : Z; next : option Z; prev : option Z; is_free : bool }.
Definition set_prev (p : option Z) (b : t) : t := mk (size b) (next b) p (is_free b).
Definition set_free (f : bool) (b : t) : t := mk (size b) (next b) (prev b) f.
End BlockMeta.
Abbreviation BlockMeta := BlockMeta.t.

Record TlsfAllocator := mkTlsf {
  base : Z; block_size : Z; l2_bits : Z; storage : list (list (list Z)); lv1_entries : list Z;
  blocks : gmap Z BlockMeta; peak_used : Z
}.

(** A [usize] result in debug arithmetic. *)
Definition checked_usize (z : Z) : option Z := try_u64 z.

Definition round_up (n granule : Z) : Z :=
  if granule <=? 1 then n else (n + granule - 1) / granule * granule.

Definition lv1 (size : Z) : Z := bit_length size.
Definition lv2 (l2_bits size : Z) : Z :=
  let msb := bit_length size in
  if msb =? 0 then 0
  else Z.shiftr (size - Z.shiftl 1 (msb - 1)) (Z.max 0 (msb - l2_bits)).

(** [storage[l1][l2]]. *)
Definition bucket (s : list (list (list Z))) (l1 l2 : Z) : option (list Z) :=
  let? row := s !! Z.to_nat l1 in row !! Z.to_nat l2.
Definition set_bucket (s : list (list (list Z))) (l1 l2 : Z) (b : list Z) : list (list (list Z)) :=
  alter (fun row => <[Z.to_nat l2 := b]> row) (Z.to_nat l1) s.

Definition with_index (s : list (list (list Z))) (e : list Z) (t : TlsfAllocator) : TlsfAllocator :=
  mkTlsf (base t) (block_size t) (l2_bits t) s e (blocks t) (peak_used t).
Definition with_blocks (b : gmap Z BlockMeta) (t : TlsfAllocator) : TlsfAllocator :=
  mkTlsf (base t) (block_size t) (l2_bits t) (storage t) (lv1_entries t) b (peak_used t).

Definition insert_block_index (start size : Z) (t : TlsfAllocator) : option TlsfAllocator :=
  let l1 := lv1 size in
  let l2 := lv2 (l2_bits t) size in
  let? b := bucket (storage t) l1 l2 in
  let? n := lv1_entries t !! Z.to_nat l1 in
  Some (with_index (set_bucket (storage t) l1 l2 (b ++ [start])) (<[Z.to_nat l1 := n + 1]> (lv1_entries t)) t).

(** [iter().position(|&s| s == start)] and [remove]. *)
Fixpoint remove_first (start : Z) (l : list Z) : option (list Z) :=
  match l with
  | [] => None
  | s :: l =>
      if s =? start then Some l
      else match remove_first start l with Some l => Some (s :: l) | None => None end
  end.

Definition remove_block_index (start size : Z) (t : TlsfAllocator) : option TlsfAllocator :=
  let l1 := lv1 size in
  let l2 := lv2 (l2_bits t) size in
  let? b := bucket (storage t) l1 l2 in
  match remove_first start b with
  | Some b =>
      let? n := lv1_entries t !! Z.to_nat l1 in
      if n <=? 0 then None else
      Some (with_index (set_bucket (storage t) l1 l2 b) (<[Z.to_nat l1 := n - 1]> (lv1_entries t)) t)
  | None => Some t
  end.

(** [if let Some(meta) = blocks.get_mut(&n) { meta.prev = Some(p) }]. *)
Definition relink (next : option Z) (p : Z) (t : TlsfAllocator) : TlsfAllocator :=
  match next with
  | Some n => with_blocks (alter (BlockMeta.set_prev (Some p)) n (blocks t)) t
  | None => t
  end.

Definition split_block (start size new_size : Z) (t : TlsfAllocator) : option TlsfAllocator :=
  let? b := blocks t !! start in
  let next := BlockMeta.next b in
  if negb (BlockMeta.is_free b) then None
  else
    let? t := remove_block_index start size t in
    let? b := blocks t !! start in
    let remainder_start := start + new_size in
    let t := with_blocks (<[start := BlockMeta.mk new_size (Some remainder_start) (BlockMeta.prev b) true]> (blocks t)) t in
    let? t := insert_block_index start new_size t in
    let? remainder_size := checked_usize (size - new_size) in
    let t := with_blocks (<[remainder_start := BlockMeta.mk remainder_size next (Some start) true]> (blocks t)) t in
    let? t := insert_block_index remainder_start remainder_size t in
    Some (relink next remainder_start t).

(** The loop of [merge_right]: the block [start] of [size] bytes, [nxt] its
    right neighbour. *)
Fixpoint merge_loop (fuel : nat) (start size : Z) (nxt : option Z) (t : TlsfAllocator) :
    option (TlsfAllocator * option Z) :=
  match nxt with
  | None => Some (t, nxt)
  | Some n =>
      match blocks t !! n with
      | None => Some (t, nxt)
      | Some blk =>
          if negb (BlockMeta.is_free blk) then Some (t, nxt)
          else
            match fuel with
            | O => None
            | S fuel =>
                let? t := remove_block_index start size t in
                let? t := remove_block_index n (BlockMeta.size blk) t in
                let size := size + BlockMeta.size blk in
                let? b := blocks t !! start in
                let t := with_blocks (<[start := BlockMeta.mk size (BlockMeta.next blk) (BlockMeta.prev b) true]> (blocks t)) t in
                let? t := insert_block_index start size t in
                let nxt := BlockMeta.next blk in
                let t := with_blocks (delete n (blocks t)) t in
                merge_loop fuel start size nxt t
            end
      end
  end.

Definition merge_right (fuel : nat) (start : Z) (t : TlsfAllocator) : option TlsfAllocator :=
  let? b := blocks t !! start in
  if negb (BlockMeta.is_free b) then None
  else
    let? (t, nxt) := merge_loop fuel start (BlockMeta.size b) (BlockMeta.next b) t in
    Some (relink nxt start t).

(** Walk left while neighbours are free. *)
Fixpoint leftmost (fuel : nat) (s : Z) (t : TlsfAllocator) : option Z :=
  let? b := blocks t !! s in
  match BlockMeta.prev b with
  | None => Some s
  | Some prev =>
      match blocks t !! prev with
      | Some p =>
          if BlockMeta.is_free p then
            match fuel with O => None | S fuel => leftmost fuel prev t end
          else Some s
      | None => Some s
      end
  end.

Definition merge_block (fuel : nat) (start : Z) (t : TlsfAllocator) : option TlsfAllocator :=
  let? s := leftmost fuel start t in merge_right fuel s t.

(** The first non-empty bucket at or above [(t1, t2)], row by row. *)
Fixpoint search_row (row : list (list Z)) (skip : nat) : option Z :=
  match row with
  | [] => None
  | b :: row =>
      match skip with
      | S skip => search_row row skip
      | O => match b with s :: _ => Some s | [] => search_row row O end
      end
  end.

Fixpoint search_rows (rows : list (list (list Z))) (entries : list Z) (skip : nat) (l2_start : nat) :
    option (option Z) :=
  match rows with
  | [] => Some None
  | row :: rows =>
      let? (n, entries) := match entries with n :: e => Some (n, e) | [] => None end in
      match skip with
      | S skip => search_rows rows entries skip l2_start
      | O =>
          match (if n =? 0 then None else search_row row l2_start) with
          | Some s => Some (Some s)
          | None => search_rows rows entries O O
          end
      end
  end.

(** The size to search for: any block of a bucket at or above its bucket fits. *)
Definition search_size (t : TlsfAllocator) (req_size align : Z) : option Z :=
  let? sum := checked_usize (req_size + align) in
  let size := Z.max (sum - 1) (block_size t) in
  let msb := bit_length size in
  if l2_bits t <? msb then
    let granule := Z.shiftl 1 (msb - l2_bits t) in
    let? rounded := checked_usize (size + granule) in
    Some (Z.land (rounded - 1) (Z.lnot (granule - 1)))
  else Some size.

(** Allocation in the free block found at [start]. *)
Definition take (start size req_size align : Z) (t : TlsfAllocator) : option (TlsfAllocator * Z) :=
  let? b := blocks t !! start in
  let nsize := BlockMeta.size b in
  if nsize <? size then None
  else
    let? aligned_start := checked_usize (round_up start align) in
    let? (t, start, nsize) :=
      if aligned_start =? start then Some (t, start, nsize)
      else
        let? t := split_block start nsize (aligned_start - start) t in
        let? b := blocks t !! aligned_start in
        Some (t, aligned_start, BlockMeta.size b) in
    let? t := if req_size <? nsize then split_block start nsize req_size t else Some t in
    let? t := remove_block_index start req_size t in
    let t := with_blocks (alter (BlockMeta.set_free false) start (blocks t)) t in
    let? abs_offset := checked_usize (start + base t) in
    Some (mkTlsf (base t) (block_size t) (l2_bits t) (storage t) (lv1_entries t) (blocks t)
            (Z.max (peak_used t) (start + req_size)), abs_offset).

Definition alloc (req_size align : Z) (t : TlsfAllocator) : option (TlsfAllocator * (Z + TlsfError)) :=
  let req_size := Z.max req_size (block_size t) in
  let align := Z.max align 1 in
  let? size := search_size t req_size align in
  let? found := search_rows (storage t) (lv1_entries t) (Z.to_nat (lv1 size)) (Z.to_nat (lv2 (l2_bits t) size)) in
  match found with
  | Some start => let? (t, offset) := take start size req_size align t in Some (t, inl offset)
  | None => Some (t, inr (OutOfMemory req_size))
  end.

Definition free (offset : Z) (t : TlsfAllocator) : option (TlsfAllocator * option TlsfError) :=
  let start := offset - base t in
  if start <? 0 then Some (t, Some (UnknownOffset offset))
  else
    match blocks t !! start with
    | None => Some (t, Some (UnknownOffset offset))
    | Some blk =>
        if BlockMeta.is_free blk then Some (t, Some (DoubleFree offset))
        else
          let fuel := Datatypes.S (size (blocks t)) in
          let t := with_blocks (<[start := BlockMeta.set_free true blk]> (blocks t)) t in
          let? t := insert_block_index start (BlockMeta.size blk) t in
          let? t := merge_block fuel start t in
          Some (t, None)
    end.

Definition new (size base block_size lv2_cnt : Z) : option TlsfAllocator :=
  let lv2_cnt := Z.max lv2_cnt 1 in
  let l2_bits := bit_length lv2_cnt in
  let lv1_levels := Z.to_nat (bit_length size + 1) in
  let s := mkTlsf base block_size l2_bits
             (replicate lv1_levels (replicate (Z.to_nat (Z.shiftl 1 l2_bits)) []))
             (replicate lv1_levels 0) ∅ 0 in
  if 0 <? size then
    let s := with_blocks (<[0 := BlockMeta.mk size None None true]> (blocks s)) s in
    insert_block_index 0 size s
  else Some s.

(** ** Maps from lists of bindings *)
Section ListMap.
Context {V : Type}.
Implicit Types (A B : list (Z * V)).

Lemma lm_not_in A k : ~ In k (map fst A) -> (list_to_map A : gmap Z V) !! k = None.
Proof. intros H. apply not_elem_of_list_to_map. now rewrite list_elem_of_In. Qed.

Lemma lm_lookup A B k v : ~ In k (map fst A) -> (list_to_map (A ++ (k, v) :: B) : gmap Z V) !! k = Some v.
Proof.
  intros H. rewrite list_to_map_app, lookup_union_r by now apply lm_not_in. cbn. apply lookup_insert_eq.
Qed.

Lemma lm_insert A B k v :
  ~ In k (map fst A) -> <[k := v]> (list_to_map (A ++ B) : gmap Z V) = list_to_map (A ++ (k, v) :: B).
Proof.
  intros H. rewrite !list_to_map_app. cbn. rewrite insert_union_r by now apply lm_not_in. reflexivity.
Qed.

Lemma lm_replace A B k v w :
  ~ In k (map fst A) -> <[k := w]> (list_to_map (A ++ (k, v) :: B) : gmap Z V) = list_to_map (A ++ (k, w) :: B).
Proof.
  intros H. rewrite lm_insert by exact H. rewrite !list_to_map_app. cbn. now rewrite insert_insert_eq.
Qed.

Lemma lm_alter A B k v f :
  ~ In k (map fst A) -> alter f k (list_to_map (A ++ (k, v) :: B) : gmap Z V) = list_to_map (A ++ (k, f v) :: B).
Proof.
  intros H. rewrite <- (lm_replace A B k v (f v) H). apply map_eq. intros i.
  destruct (decide (k = i)) as [<- | Hne].
  - now rewrite lookup_alter_eq, lookup_insert_eq, lm_lookup.
  - now rewrite lookup_alter_ne, lookup_insert_ne.
Qed.

Lemma lm_delete A B k v :
  ~ In k (map fst A) -> ~ In k (map fst B) ->
  delete k (list_to_map (A ++ (k, v) :: B) : gmap Z V) = list_to_map (A ++ B).
Proof.
  intros H1 H2. rewrite <- lm_insert by exact H1. apply delete_insert_id.
  apply lm_not_in. rewrite map_app, in_app_iff. tauto.
Qed.
End ListMap.

(** ** The abstract arena: consecutive blocks from offset 0 *)
Abbreviation Block := (Z * bool)%type.
Definition total (l : list Block) : Z := fold_right (fun b s => b.1 + s) 0 l.
Definition sizes_pos (l : list Block) : Prop := Forall (fun b => 0 < b.1) l.

(** The start of the first block of [l] at [s], if any. *)
Definition head_start (s : Z) (l : list Block) (nx : option Z) : option Z :=
  match l with [] => nx | _ => Some s end.

(** The metadata of consecutive blocks from [s] on, after the block [p] and
    before the block [nx]. *)
Fixpoint metas (s : Z) (p : option Z) (l : list Block) (nx : option Z) : list (Z * BlockMeta) :=
  match l with
  | [] => []
  | (sz, f) :: l =>
      (s, BlockMeta.mk sz (head_start (s + sz) l nx) p f) :: metas (s + sz) (Some s) l nx
  end.

Fixpoint last_start (s : Z) (p : option Z) (l : list Block) : option Z :=
  match l with [] => p | (sz, _) :: l => last_start (s + sz) (Some s) l end.

(** Start and size of the free blocks. *)
Fixpoint frees (s : Z) (l : list Block) : list (Z * Z) :=
  match l with
  | [] => []
  | (sz, f) :: l => (if f then [(s, sz)] else []) ++ frees (s + sz) l
  end.

Lemma total_app l k : total (l ++ k) = total l + total k.
Proof. unfold total. induction l as [| b l IH]; cbn; [reflexivity | lia]. Qed.

Lemma total_nonneg l : sizes_pos l -> 0 <= total l.
Proof. unfold total. induction 1; cbn; lia. Qed.

Lemma metas_app s p l k nx :
  metas s p (l ++ k) nx =
  metas s p l (head_start (s + total l) k nx) ++ metas (s + total l) (last_start s p l) k nx.
Proof.
  revert s p. induction l as [| [sz f] l IH]; intros s p; cbn [app metas last_start].
  - now rewrite Z.add_0_r.
  - rewrite IH. change (total ((sz, f) :: l)) with (sz + total l). rewrite Z.add_assoc. f_equal. f_equal. f_equal.
    destruct l; cbn [app head_start]; [| reflexivity]. unfold total; cbn. now rewrite Z.add_0_r.
Qed.

Lemma last_start_app s p l sz f : last_start s p (l ++ [(sz, f)]) = Some (s + total l).
Proof.
  revert s p. induction l as [| [z g] l IH]; intros s p; cbn [app last_start].
  - now rewrite Z.add_0_r.
  - rewrite IH. change (total ((z, g) :: l)) with (z + total l). now rewrite Z.add_assoc.
Qed.

Lemma frees_app s l k : frees s (l ++ k) = frees s l ++ frees (s + total l) k.
Proof.
  revert s. induction l as [| [sz f] l IH]; intros s; cbn [app frees].
  - now rewrite Z.add_0_r.
  - rewrite IH, <- app_assoc. change (total ((sz, f) :: l)) with (sz + total l). now rewrite Z.add_assoc.
Qed.

Lemma metas_keys s p l nx k :
  sizes_pos l -> In k (map fst (metas s p l nx)) -> s <= k < s + total l.
Proof.
  intros H. revert s p. induction H as [| [sz f] l Hb Hl IH]; intros s p; [intros [] |].
  cbn [metas map fst]. change (total ((sz, f) :: l)) with (sz + total l). cbn [fst] in Hb.
  pose proof (total_nonneg l Hl). intros [<- | Hk]; [lia |]. specialize (IH _ _ Hk). lia.
Qed.

Lemma metas_not_left s p l nx k : sizes_pos l -> k < s \/ s + total l <= k -> ~ In k (map fst (metas s p l nx)).
Proof. intros Hl Hk Hin. apply metas_keys in Hin; [| exact Hl]. lia. Qed.

(** ** The free lists *)
Definition in_bucket (bits : Z) (i j : nat) (f : Z * Z) : Prop :=
  Z.to_nat (lv1 f.2) = i /\ Z.to_nat (lv2 bits f.2) = j.
#[export] Instance in_bucket_dec bits i j f : Decision (in_bucket bits i j f).
Proof. unfold in_bucket. apply _. Defined.

(** The buckets hold exactly the free blocks [F], the counters their number. *)
Record indexed (levels : nat) (t : TlsfAllocator) (F : list (Z * Z)) : Prop := {
  ix_levels : List.length (storage t) = levels /\ List.length (lv1_entries t) = levels;
  ix_bits : 1 <= l2_bits t;
  ix_rows i row : storage t !! i = Some row -> List.length row = Z.to_nat (2 ^ l2_bits t);
  ix_bucket i row j b : storage t !! i = Some row -> row !! j = Some b ->
    Permutation b (map fst (filter (in_bucket (l2_bits t) i j) F));
  ix_entries i n : lv1_entries t !! i = Some n ->
    n = Z.of_nat (List.length (filter (fun f => Z.to_nat (lv1 f.2) = i) F))
}.

Lemma bit_length_pos n : 0 < n -> 2 ^ (bit_length n - 1) <= n < 2 ^ bit_length n.
Proof.
  intros Hn. unfold bit_length. rewrite (proj2 (Z.eqb_neq n 0)) by lia.
  replace (Z.log2 n + 1 - 1) with (Z.log2 n) by lia. replace (Z.log2 n + 1) with (Z.succ (Z.log2 n)) by lia.
  now apply Z.log2_spec.
Qed.

Lemma bit_length_ge1 n : 0 < n -> 1 <= bit_length n.
Proof. intros Hn. unfold bit_length. rewrite (proj2 (Z.eqb_neq n 0)) by lia. pose proof (Z.log2_nonneg n). lia. Qed.

Lemma bit_length_mono a b : 0 <= a <= b -> bit_length a <= bit_length b.
Proof.
  intros H. unfold bit_length. destruct (Z.eqb_spec a 0), (Z.eqb_spec b 0); try lia.
  - pose proof (Z.log2_nonneg b). lia.
  - pose proof (Z.log2_le_mono a b). lia.
Qed.

(** The second level of a positive size, and the sizes of a bucket. *)
Lemma lv2_spec bits n :
  1 <= bits -> 0 < n ->
  lv2 bits n = (n - 2 ^ (bit_length n - 1)) / 2 ^ Z.max 0 (bit_length n - bits) /\
  0 <= lv2 bits n < 2 ^ bits.
Proof.
  intros Hb Hn. pose proof (bit_length_pos n Hn) as [L U]. pose proof (bit_length_ge1 n Hn) as Hm.
  unfold lv2. rewrite (proj2 (Z.eqb_neq _ 0)) by lia. rewrite Z.shiftr_div_pow2 by lia.
  rewrite Z.shiftl_1_l. split; [reflexivity |].
  assert (P : 0 < 2 ^ Z.max 0 (bit_length n - bits)) by (apply Z.pow_pos_nonneg; lia).
  split; [apply Z.div_pos; lia |]. apply Z.div_lt_upper_bound; [exact P |].
  rewrite <- Z.pow_add_r by lia.
  assert (2 ^ bit_length n = 2 * 2 ^ (bit_length n - 1)).
  { rewrite <- Z.pow_succ_r by lia. f_equal. lia. }
  assert (2 ^ (bit_length n - 1) <= 2 ^ (Z.max 0 (bit_length n - bits) + bits)) by (apply Z.pow_le_mono_r; lia).
  lia.
Qed.

Definition levels_of (arena : Z) : nat := Z.to_nat (bit_length arena + 1).

(** Operations on the free lists leave everything else alone. *)
Definition same (t t' : TlsfAllocator) : Prop :=
  base t' = base t /\ block_size t' = block_size t /\ l2_bits t' = l2_bits t /\ peak_used t' = peak_used t.

Lemma same_refl t : same t t.
Proof. now unfold same. Qed.

Lemma same_trans t u v : same t u -> same u v -> same t v.
Proof. unfold same. intuition congruence. Qed.

Lemma indexed_perm n t F F' : Permutation F F' -> indexed n t F -> indexed n t F'.
Proof.
  intros P [H1 H2 H3 H4 H5]. split; try assumption.
  - intros. rewrite (H4 i row j b) by assumption. now rewrite P.
  - intros i m Hm. rewrite (H5 i m Hm). now rewrite P.
Qed.

Lemma indexed_blocks n t F b : indexed n t F -> indexed n (with_blocks b t) F.
Proof. intros [H1 H2 H3 H4 H5]. split; assumption. Qed.

(** The bucket of a size that fits the arena exists. *)
Lemma indexed_bucket arena t F sz :
  indexed (levels_of arena) t F -> 0 < sz <= arena ->
  exists row b n, storage t !! Z.to_nat (lv1 sz) = Some row /\
    row !! Z.to_nat (lv2 (l2_bits t) sz) = Some b /\ lv1_entries t !! Z.to_nat (lv1 sz) = Some n.
Proof.
  intros [[Hs He] Hb Hr _ _] Hsz.
  pose proof (bit_length_mono sz arena ltac:(lia)). pose proof (bit_length_ge1 sz ltac:(lia)).
  assert (Hi : (Z.to_nat (lv1 sz) < levels_of arena)%nat) by (unfold lv1, levels_of; lia).
  destruct (lookup_lt_is_Some_2 (storage t) (Z.to_nat (lv1 sz)) ltac:(lia)) as [row Hrow].
  destruct (lookup_lt_is_Some_2 (lv1_entries t) (Z.to_nat (lv1 sz)) ltac:(lia)) as [n Hn].
  pose proof (lv2_spec (l2_bits t) sz Hb ltac:(lia)) as [_ Hl2].
  destruct (lookup_lt_is_Some_2 row (Z.to_nat (lv2 (l2_bits t) sz))) as [b Hbk];
    [rewrite (Hr _ _ Hrow); lia |].
  now exists row, b, n.
Qed.

(** Replacing a bucket and a counter. *)
Lemma set_bucket_lookup s l1 l2 b i row :
  set_bucket s l1 l2 b !! i = Some row ->
  exists row0, s !! i = Some row0 /\
    row = if decide (i = Z.to_nat l1) then <[Z.to_nat l2 := b]> row0 else row0.
Proof.
  unfold set_bucket. rewrite list_lookup_alter. case_decide as D.
  - subst i. destruct (s !! Z.to_nat l1) as [r0 |]; cbn; [intros [= <-] | discriminate].
    exists r0. now rewrite decide_True.
  - intros H. exists row. rewrite decide_False by congruence. now split.
Qed.

Lemma indexed_update n t F F' sz b b' m m' row :
  indexed n t F ->
  storage t !! Z.to_nat (lv1 sz) = Some row -> row !! Z.to_nat (lv2 (l2_bits t) sz) = Some b ->
  lv1_entries t !! Z.to_nat (lv1 sz) = Some m ->
  Permutation b' (map fst (filter (in_bucket (l2_bits t) (Z.to_nat (lv1 sz)) (Z.to_nat (lv2 (l2_bits t) sz))) F')) ->
  m' = Z.of_nat (List.length (filter (fun f => Z.to_nat (lv1 f.2) = Z.to_nat (lv1 sz)) F')) ->
  (forall i j, ~ (i = Z.to_nat (lv1 sz) /\ j = Z.to_nat (lv2 (l2_bits t) sz)) ->
     Permutation (filter (in_bucket (l2_bits t) i j) F) (filter (in_bucket (l2_bits t) i j) F')) ->
  (forall i, i <> Z.to_nat (lv1 sz) ->
     Permutation (filter (fun f => Z.to_nat (lv1 f.2) = i) F) (filter (fun f => Z.to_nat (lv1 f.2) = i) F')) ->
  indexed n (with_index (set_bucket (storage t) (lv1 sz) (lv2 (l2_bits t) sz) b')
               (<[Z.to_nat (lv1 sz) := m']> (lv1_entries t)) t) F'.
Proof.
  intros [[Hs He] Hb Hr Hk Hn] Hrow Hbk Hm Hb' Hm' Hoth Hoth1. split; cbn.
  - unfold set_bucket. rewrite length_alter, length_insert. now split.
  - exact Hb.
  - intros i r Hi. apply set_bucket_lookup in Hi as (r0 & Hr0 & ->).
    case_decide; [rewrite length_insert |]; eauto.
  - intros i r j c Hi Hj. apply set_bucket_lookup in Hi as (r0 & Hr0 & ->). case_decide as D.
    + subst i. rewrite Hrow in Hr0. injection Hr0 as <-.
      destruct (decide (j = Z.to_nat (lv2 (l2_bits t) sz))) as [-> | Hj2].
      * rewrite list_lookup_insert_eq in Hj by (apply lookup_lt_is_Some; eauto). injection Hj as <-. exact Hb'.
      * rewrite list_lookup_insert_ne in Hj by congruence.
        rewrite (Hk _ _ _ _ Hrow Hj), Hoth by tauto. reflexivity.
    + rewrite (Hk _ _ _ _ Hr0 Hj), Hoth by tauto. reflexivity.
  - intros i c Hi. destruct (decide (i = Z.to_nat (lv1 sz))) as [-> | D].
    + rewrite list_lookup_insert_eq in Hi by (apply lookup_lt_is_Some; eauto). injection Hi as <-. exact Hm'.
    + rewrite list_lookup_insert_ne in Hi by congruence.
      rewrite (Hn _ _ Hi), (Hoth1 i D). reflexivity.
Qed.

Lemma insert_ok arena t F k sz :
  indexed (levels_of arena) t F -> 0 < sz <= arena ->
  exists t', insert_block_index k sz t = Some t' /\ same t t' /\ blocks t' = blocks t /\
    indexed (levels_of arena) t' ((k, sz) :: F).
Proof.
  intros Hx Hsz. destruct (indexed_bucket arena t F sz Hx Hsz) as (row & b & n & Hrow & Hbk & Hn).
  unfold insert_block_index, bucket. rewrite Hrow. cbn. rewrite Hbk. cbn. rewrite Hn. cbn.
  eexists. split; [reflexivity |]. split; [now unfold same |]. split; [reflexivity |].
  eapply indexed_update; try eassumption.
  - rewrite filter_cons_True by (unfold in_bucket; cbn; tauto). cbn.
    rewrite <- (ix_bucket _ _ _ Hx _ _ _ _ Hrow Hbk). symmetry. apply Permutation_cons_append.
  - rewrite filter_cons_True by reflexivity. rewrite (ix_entries _ _ _ Hx _ _ Hn). cbn [List.length]. lia.
  - intros i j Hij. rewrite filter_cons_False; [reflexivity |]. unfold in_bucket; cbn. intros [E1 E2]. apply Hij. now split.
  - intros i Hi. rewrite filter_cons_False; [reflexivity |]. cbn. congruence.
Qed.

Lemma remove_first_perm k l : In k l -> exists l', remove_first k l = Some l' /\ Permutation l (k :: l').
Proof.
  induction l as [| s l IH]; [intros [] |]. cbn. destruct (Z.eqb_spec s k) as [-> | Hne].
  - intros _. now exists l.
  - intros [-> | Hin]; [contradiction |]. destruct (IH Hin) as (l' & -> & P). exists (s :: l'). split; [reflexivity |].
    rewrite P. apply perm_swap.
Qed.

Lemma remove_ok arena t F k sz :
  indexed (levels_of arena) t ((k, sz) :: F) -> 0 < sz <= arena ->
  exists t', remove_block_index k sz t = Some t' /\ same t t' /\ blocks t' = blocks t /\
    indexed (levels_of arena) t' F.
Proof.
  intros Hx Hsz. destruct (indexed_bucket arena t _ sz Hx Hsz) as (row & b & n & Hrow & Hbk & Hn).
  pose proof (ix_bucket _ _ _ Hx _ _ _ _ Hrow Hbk) as Pb.
  rewrite filter_cons_True in Pb by (unfold in_bucket; cbn; tauto). cbn in Pb.
  pose proof (ix_entries _ _ _ Hx _ _ Hn) as En. rewrite filter_cons_True in En by reflexivity. cbn [List.length] in En.
  destruct (remove_first_perm k b) as (b' & Eb & Pb'); [rewrite Pb; now left |].
  unfold remove_block_index, bucket. rewrite Hrow. cbn. rewrite Hbk, Eb. cbn. rewrite Hn. cbn.
  rewrite (proj2 (Z.leb_gt n 0)) by lia.
  eexists. split; [reflexivity |]. split; [now unfold same |]. split; [reflexivity |].
  eapply indexed_update; try eassumption.
  - rewrite Pb' in Pb. now apply Permutation_cons_inv in Pb.
  - lia.
  - intros i j Hij. rewrite filter_cons_False; [reflexivity |]. unfold in_bucket; cbn. intros [E1 E2]. apply Hij. now split.
  - intros i Hi. rewrite filter_cons_False; [reflexivity |]. cbn. congruence.
Qed.

(** ** Representation *)
Record rep (arena : Z) (t : TlsfAllocator) (l : list Block) : Prop := {
  rep_blocks : blocks t = list_to_map (metas 0 None l None);
  rep_index : indexed (levels_of arena) t (frees 0 l);
  rep_total : total l = arena;
  rep_pos : sizes_pos l
}.

Lemma sizes_pos_app l k : sizes_pos (l ++ k) <-> sizes_pos l /\ sizes_pos k.
Proof. apply Forall_app. Qed.

Lemma sizes_pos_cons sz f l : sizes_pos ((sz, f) :: l) <-> 0 < sz /\ sizes_pos l.
Proof. unfold sizes_pos. now rewrite Forall_cons. Qed.

Lemma total_cons sz f l : total ((sz, f) :: l) = sz + total l.
Proof. reflexivity. Qed.

Lemma total_nil : total [] = 0.
Proof. reflexivity. Qed.

(** Normalise totals and signs in every hypothesis. *)
Ltac arena :=
  repeat match goal with
  | H : sizes_pos (_ ++ _) |- _ => apply sizes_pos_app in H as [? ?]
  | H : sizes_pos (_ :: _) |- _ => apply sizes_pos_cons in H as [? ?]
  end;
  repeat match goal with
  | H : sizes_pos ?l |- _ =>
      lazymatch goal with
      | _ : 0 <= total l |- _ => fail
      | _ => pose proof (total_nonneg l H)
      end
  end;
  rewrite ?total_app, ?total_cons, ?total_nil in *.

(** The blocks around the one at [total L]; [q] is the [prev] link of the
    next block, which lags behind while blocks are merged. *)
Definition around (L : list Block) (sz : Z) (f : bool) (q : option Z) (R : list Block) : list (Z * BlockMeta) :=
  metas 0 None L (Some (total L)) ++
  (total L, BlockMeta.mk sz (head_start (total L + sz) R None) (last_start 0 None L) f) ::
  metas (total L + sz) q R None.

Lemma around_metas L sz f R :
  metas 0 None (L ++ (sz, f) :: R) None = around L sz f (Some (total L)) R.
Proof. rewrite metas_app. reflexivity. Qed.

Lemma around_lookup L sz f q R :
  sizes_pos L ->
  (list_to_map (around L sz f q R) : gmap Z BlockMeta) !! total L =
  Some (BlockMeta.mk sz (head_start (total L + sz) R None) (last_start 0 None L) f).
Proof. intros H. apply lm_lookup. apply metas_not_left; [exact H | lia]. Qed.

Lemma rep_lookup arena t L sz f R :
  rep arena t (L ++ (sz, f) :: R) ->
  blocks t !! total L = Some (BlockMeta.mk sz (head_start (total L + sz) R None) (last_start 0 None L) f).
Proof.
  intros [E _ _ P]. rewrite E, around_metas. apply around_lookup. now arena.
Qed.

Lemma relink_around L sz f q R t :
  sizes_pos (L ++ (sz, f) :: R) -> blocks t = list_to_map (around L sz f q R) ->
  let t' := relink (head_start (total L + sz) R None) (total L) t in
  same t t' /\ storage t' = storage t /\ lv1_entries t' = lv1_entries t /\
  blocks t' = list_to_map (metas 0 None (L ++ (sz, f) :: R) None).
Proof.
  intros P E. rewrite around_metas. unfold relink, around in *. destruct R as [| [z g] R]; cbn [head_start].
  - repeat split; try reflexivity. now rewrite E.
  - split; [now unfold same |]. split; [reflexivity |]. split; [reflexivity |]. cbn [with_blocks blocks].
    rewrite E. cbn [metas].
    pose proof (metas_not_left 0 None L (Some (total L)) (total L + sz)) as NL.
    arena. change (?a ++ ?x :: ?y :: ?b) with (a ++ [x] ++ y :: b). rewrite !app_assoc.
    rewrite lm_alter; [reflexivity |].
    rewrite map_app, in_app_iff. cbn. intros [Hin | [Hin | []]]; [| lia]. apply NL in Hin; [easy | assumption | lia].
Qed.

Lemma same_index_indexed n t t' F :
  l2_bits t' = l2_bits t -> storage t' = storage t -> lv1_entries t' = lv1_entries t ->
  indexed n t F -> indexed n t' F.
Proof.
  intros E1 E2 E3 [H1 H2 H3 Hin H5]. split; rewrite ?E1, ?E2, ?E3; assumption.
Qed.

Lemma relink_rep arena L sz f q R t :
  sizes_pos (L ++ (sz, f) :: R) -> total (L ++ (sz, f) :: R) = arena ->
  blocks t = list_to_map (around L sz f q R) ->
  indexed (levels_of arena) t (frees 0 (L ++ (sz, f) :: R)) ->
  let t' := relink (head_start (total L + sz) R None) (total L) t in
  same t t' /\ rep arena t' (L ++ (sz, f) :: R).
Proof.
  intros P T E X t'. destruct (relink_around L sz f q R t P E) as (S1 & S2 & S3 & S4).
  split; [exact S1 |]. split; try assumption.
  eapply same_index_indexed; try eassumption. apply S1.
Qed.

Lemma frees_around L sz R :
  Permutation (frees 0 (L ++ (sz, true) :: R)) ((total L, sz) :: frees 0 L ++ frees (total L + sz) R).
Proof. rewrite frees_app. cbn. now rewrite <- Permutation_middle. Qed.

Lemma split_rep arena t L sz R n :
  arena < 2 ^ 64 -> rep arena t (L ++ (sz, true) :: R) -> 0 < n < sz ->
  exists t', split_block (total L) sz n t = Some t' /\ same t t' /\
    rep arena t' (L ++ (n, true) :: (sz - n, true) :: R).
Proof.
  intros HA HR Hn. pose proof (rep_lookup _ _ _ _ _ _ HR) as E0. destruct HR as [E X T P].
  unfold split_block. rewrite E0. cbn [BlockMeta.is_free negb BlockMeta.next BlockMeta.prev].
  assert (0 < sz <= arena) as Hsz by (clear - T P Hn; arena; lia).
  eapply indexed_perm in X; [| apply frees_around].
  destruct (remove_ok _ _ _ _ _ X Hsz) as (t1 & -> & S1 & B1 & X1). rewrite B1, E0. cbn [BlockMeta.prev].
  set (t1' := with_blocks _ t1).
  destruct (insert_ok arena t1' _ (total L) n (indexed_blocks _ _ _ _ X1) ltac:(lia)) as (t2 & -> & S2 & B2 & X2).
  unfold checked_usize, try_u64, in_u64b. rewrite (proj2 (Z.leb_le 0 _)), (proj2 (Z.ltb_lt _ _)) by lia. cbn [andb].
  set (t2' := with_blocks _ t2).
  destruct (insert_ok arena t2' _ (total L + n) (sz - n) (indexed_blocks _ _ _ _ X2) ltac:(lia)) as (t3 & -> & S3 & B3 & X3).
  assert (P' : sizes_pos ((L ++ [(n, true)]) ++ (sz - n, true) :: R)).
  { clear - P Hn. arena. rewrite <- app_assoc. apply sizes_pos_app. split; [assumption |].
    cbn. rewrite !sizes_pos_cons. repeat split; try assumption; lia. }
  assert (TL : total (L ++ [(n, true)]) = total L + n) by (rewrite total_app, total_cons, total_nil; lia).
  destruct (relink_rep arena (L ++ [(n, true)]) (sz - n) true (Some (total L)) R t3 P') as [S4 R4].
  - clear - T. arena. lia.
  - rewrite B3. unfold t2'. cbn [with_blocks blocks]. rewrite B2. unfold t1'. cbn [with_blocks blocks].
    rewrite E, around_metas. unfold around. arena.
    rewrite lm_replace by (apply metas_not_left; [assumption | lia]).
    rewrite metas_app. cbn [metas head_start]. rewrite TL.
    change (?a ++ ?x :: ?b) with (a ++ [x] ++ b). rewrite app_assoc.
    rewrite lm_insert.
    2:{ rewrite map_app, in_app_iff. cbn. intros [Hin | [Hin | []]]; [| lia].
        apply metas_not_left in Hin; [easy | assumption | lia]. }
    rewrite <- !app_assoc. cbn. rewrite !Z.add_0_l.
    replace (total L + n + (sz - n)) with (total L + sz) by lia.
    rewrite last_start_app. reflexivity.
  - eapply indexed_perm; [| exact X3]. rewrite frees_around, frees_app, TL. cbn [frees app].
    replace (total L + n + (sz - n)) with (total L + sz) by lia. rewrite <- app_assoc. cbn.
    rewrite Z.add_0_l. apply perm_skip. now rewrite <- Permutation_middle.
  - rewrite TL in *. replace (total L + n + (sz - n)) with (total L + sz) in * by lia.
    eexists. split; [reflexivity |]. rewrite <- app_assoc in R4. split; [| exact R4].
    eapply same_trans; [exact S1 |]. eapply same_trans; [exact S2 |]. eapply same_trans; [exact S3 | exact S4].
Qed.

(** ** Coalescing *)

(** The reference: merge every run of free blocks. *)
Fixpoint coalesce (l : list Block) : list Block :=
  match l with
  | [] => []
  | (sz, true) :: l =>
      match coalesce l with
      | (z, true) :: r => (sz + z, true) :: r
      | r => (sz, true) :: r
      end
  | b :: l => b :: coalesce l
  end.

(** No two neighbours are free. *)
Definition starts_free (l : list Block) : bool := match l with (_, true) :: _ => true | _ => false end.
Fixpoint coalesced (l : list Block) : bool :=
  match l with
  | [] => true
  | (_, f) :: l => negb (f && starts_free l) && coalesced l
  end.

(** The free prefix: its size, and the rest. *)
Fixpoint absorb (sz : Z) (R : list Block) : Z * list Block :=
  match R with
  | (z, true) :: R => absorb (sz + z) R
  | _ => (sz, R)
  end.

Lemma around_next L sz f q z g R :
  sizes_pos (L ++ (sz, f) :: (z, g) :: R) ->
  (list_to_map (around L sz f q ((z, g) :: R)) : gmap Z BlockMeta) !! (total L + sz) =
  Some (BlockMeta.mk z (head_start (total L + sz + z) R None) q g).
Proof.
  intros P. unfold around. cbn [metas]. arena.
  change (?a ++ ?x :: ?y :: ?b) with (a ++ [x] ++ y :: b). rewrite app_assoc. apply lm_lookup.
  rewrite map_app, in_app_iff. cbn. intros [Hin | [Hin | []]]; [| lia].
  apply metas_not_left in Hin; [easy | assumption | lia].
Qed.

(** Two neighbours replaced by one block. *)
Lemma around_merge L sz f q z g R :
  sizes_pos (L ++ (sz, f) :: (z, g) :: R) ->
  delete (total L + sz)
    (<[total L := BlockMeta.mk (sz + z) (head_start (total L + sz + z) R None) (last_start 0 None L) true]>
       (list_to_map (around L sz f q ((z, g) :: R)) : gmap Z BlockMeta)) =
  list_to_map (around L (sz + z) true (Some (total L + sz)) R).
Proof.
  intros P. unfold around. cbn [metas]. arena.
  rewrite lm_replace by (apply metas_not_left; [assumption | lia]).
  change (?a ++ ?x :: ?y :: ?b) with (a ++ [x] ++ y :: b). rewrite app_assoc, lm_delete.
  - rewrite <- app_assoc. cbn. replace (total L + sz + z) with (total L + (sz + z)) by lia. reflexivity.
  - rewrite map_app, in_app_iff. cbn. intros [Hin | [Hin | []]]; [| lia].
    apply metas_not_left in Hin; [easy | assumption | lia].
  - apply metas_not_left; [assumption | lia].
Qed.

Lemma merge_loop_around arena fuel L sz q R t :
  (List.length R <= fuel)%nat ->
  sizes_pos (L ++ (sz, true) :: R) -> total (L ++ (sz, true) :: R) = arena ->
  blocks t = list_to_map (around L sz true q R) ->
  indexed (levels_of arena) t (frees 0 (L ++ (sz, true) :: R)) ->
  exists t' q', merge_loop fuel (total L) sz (head_start (total L + sz) R None) t =
      Some (t', head_start (total L + (absorb sz R).1) (absorb sz R).2 None) /\
    same t t' /\
    sizes_pos (L ++ ((absorb sz R).1, true) :: (absorb sz R).2) /\
    total (L ++ ((absorb sz R).1, true) :: (absorb sz R).2) = arena /\
    blocks t' = list_to_map (around L (absorb sz R).1 true q' (absorb sz R).2) /\
    indexed (levels_of arena) t' (frees 0 (L ++ ((absorb sz R).1, true) :: (absorb sz R).2)).
Proof.
  revert fuel sz q t. induction R as [| [z g] R IH]; intros fuel sz q t Hf P T E X.
  { exists t, q. destruct fuel; cbn; now auto using same_refl. }
  assert (Hnext : blocks t !! (total L + sz) =
            Some (BlockMeta.mk z (head_start (total L + sz + z) R None) q g)) by (rewrite E; now apply around_next).
  cbn [head_start]. destruct g.
  2:{ exists t, q. destruct fuel; cbn [merge_loop absorb fst snd]; rewrite Hnext; cbn; now auto using same_refl. }
  destruct fuel as [| fuel]; [cbn in Hf; lia |].
  cbn [merge_loop absorb]. rewrite Hnext. cbn [BlockMeta.is_free negb BlockMeta.size BlockMeta.next].
  assert (Hsz : 0 < sz <= arena /\ 0 < z <= arena /\ 0 < sz + z <= arena) by (clear - T P; arena; lia).
  destruct Hsz as (Hsz & Hz & Hszz).
  eapply indexed_perm in X; [| apply frees_around].
  destruct (remove_ok _ _ _ _ _ X Hsz) as (t1 & -> & S1 & B1 & X1).
  cbn [frees app] in X1. eapply indexed_perm in X1; [| symmetry; apply Permutation_middle].
  destruct (remove_ok _ _ _ _ _ X1 Hz) as (t2 & -> & S2 & B2 & X2).
  rewrite B2, B1, E, around_lookup by (clear - P; arena; assumption). cbn [BlockMeta.prev].
  set (t2' := with_blocks _ t2).
  destruct (insert_ok arena t2' _ (total L) (sz + z) (indexed_blocks _ _ _ _ X2) Hszz) as (t3 & -> & S3 & B3 & X3).
  replace (total L + sz + z) with (total L + (sz + z)) by lia.
  destruct (IH fuel (sz + z) (Some (total L + sz)) (with_blocks (delete (total L + sz) (blocks t3)) t3))
    as (t' & q' & E' & S' & P' & T' & R').
  - cbn in Hf. lia.
  - clear - P. arena. apply sizes_pos_app. split; [assumption |]. apply sizes_pos_cons. split; [lia | assumption].
  - clear - T. arena. lia.
  - cbn [with_blocks blocks]. rewrite B3. unfold t2'. cbn [with_blocks blocks].
    replace (total L + (sz + z)) with (total L + sz + z) by lia. now apply around_merge.
  - apply indexed_blocks. eapply indexed_perm; [| exact X3]. rewrite frees_around.
    now replace (total L + sz + z) with (total L + (sz + z)) by lia.
  - exists t', q'. split; [exact E' |]. split; [| tauto].
    eapply same_trans; [exact S1 |]. eapply same_trans; [exact S2 |]. eapply same_trans; [exact S3 | exact S'].
Qed.

Lemma merge_right_rep arena fuel L sz R t :
  (List.length R <= fuel)%nat -> rep arena t (L ++ (sz, true) :: R) ->
  exists t', merge_right fuel (total L) t = Some t' /\ same t t' /\
    rep arena t' (L ++ ((absorb sz R).1, true) :: (absorb sz R).2).
Proof.
  intros Hf HR. unfold merge_right. rewrite (rep_lookup _ _ _ _ _ _ HR). cbn [BlockMeta.is_free negb BlockMeta.size BlockMeta.next].
  destruct HR as [E X T P].
  destruct (merge_loop_around arena fuel L sz (Some (total L)) R t Hf P T) as (t' & q' & -> & S & P' & T' & E' & X');
    [rewrite E; now rewrite around_metas | exact X |].
  destruct (relink_rep arena L _ _ _ _ t' P' T' E' X') as [S2 R2].
  eexists. split; [reflexivity |]. split; [| exact R2]. eapply same_trans; eassumption.
Qed.

Definition all_free (F : list Block) : Prop := Forall (fun b => b.2 = true) F.

(** The walk to the left stops at the first block of the run of free blocks. *)
Lemma leftmost_rep arena fuel L sz f R t :
  (List.length L <= fuel)%nat -> rep arena t (L ++ (sz, f) :: R) ->
  exists L1 F, L = L1 ++ F /\ all_free F /\ starts_free (rev L1) = false /\
    leftmost fuel (total L) t = Some (total L1).
Proof.
  revert fuel sz f R. induction L as [| [z g] L IH] using rev_ind; intros fuel sz f R Hf HR.
  - exists [], []. repeat split; [constructor |]. pose proof (rep_lookup _ _ _ _ _ _ HR) as E.
    destruct fuel; cbn [leftmost]; rewrite E; reflexivity.
  - pose proof (rep_lookup _ _ _ _ _ _ HR) as E. rewrite last_start_app in E.
    rewrite <- app_assoc in HR. cbn [app] in HR. pose proof (rep_lookup _ _ _ _ _ _ HR) as E1.
    rewrite length_app in Hf. cbn in Hf. destruct g.
    + destruct fuel as [| fuel]; [lia |].
      destruct (IH fuel z true _ ltac:(lia) HR) as (L1 & F & -> & HF & H1 & H2).
      exists L1, (F ++ [(z, true)]). rewrite app_assoc. split; [reflexivity |]. split; [| split; [exact H1 |]].
      * apply Forall_app. split; [exact HF |]. now repeat constructor.
      * cbn [leftmost]. rewrite E. cbn [BlockMeta.prev]. rewrite Z.add_0_l, E1. cbn [BlockMeta.is_free]. exact H2.
    + exists (L ++ [(z, false)]), []. rewrite app_nil_r. split; [reflexivity |]. split; [constructor |].
      split; [now rewrite rev_app_distr |].
      destruct fuel; cbn [leftmost]; rewrite E; cbn [BlockMeta.prev]; rewrite Z.add_0_l, E1; reflexivity.
Qed.

Lemma not_starts_free_rev L : starts_free (rev L) = false -> L = [] \/ exists L0 z, L = L0 ++ [(z, false)].
Proof.
  destruct L as [| [z g] L] using rev_ind; [now left |]. rewrite rev_app_distr. cbn. destruct g; [discriminate |]. intros _. right. now exists L, z.
Qed.

Lemma coalesce_nonempty b l : coalesce (b :: l) <> [].
Proof. destruct b as [z []]; cbn; [| discriminate]. destruct (coalesce l) as [| [? []] ?]; discriminate. Qed.

Lemma coalesce_app L X : starts_free (rev L) = false -> coalesce (L ++ X) = coalesce L ++ coalesce X.
Proof.
  intros H. apply not_starts_free_rev in H as [-> | (L0 & z & ->)]; [reflexivity |].
  rewrite <- app_assoc. cbn [app]. induction L0 as [| [a g] L0 IH]; cbn [app coalesce]; [reflexivity |].
  rewrite IH. destruct g; [| reflexivity].
  assert (N : coalesce (L0 ++ [(z, false)]) <> []) by (destruct L0; apply coalesce_nonempty).
  destruct (coalesce (L0 ++ [(z, false)])) as [| [c []] ?]; [contradiction | reflexivity | reflexivity].
Qed.

Lemma coalesced_app L X : starts_free (rev L) = false -> coalesced (L ++ X) = (coalesced L && coalesced X)%bool.
Proof.
  intros H. apply not_starts_free_rev in H as [-> | (L0 & z & ->)]; [reflexivity |].
  rewrite <- app_assoc. cbn [app]. induction L0 as [| [a g] L0 IH]; cbn [app coalesced]; [reflexivity |].
  rewrite IH, andb_assoc. now destruct L0.
Qed.

Lemma coalesced_coalesce l : coalesced l = true -> coalesce l = l.
Proof.
  induction l as [| [z g] l IH]; cbn; [reflexivity |]. intros [H1 H2]%andb_true_iff. rewrite IH by exact H2.
  destruct g; [| reflexivity]. destruct l as [| [a []] l]; try reflexivity. discriminate.
Qed.

Lemma coalesced_tail L R : coalesced (L ++ R) = true -> coalesced R = true.
Proof. induction L as [| [z g] L IH]; cbn; [easy |]. intros [H1 H2]%andb_true_iff. now apply IH. Qed.

Lemma coalesced_head L F : coalesced (L ++ F) = true -> coalesced L = true.
Proof.
  induction L as [| [z g] L IH]; cbn; [easy |]. intros [H1 H2]%andb_true_iff. apply andb_true_iff. split; [| now apply IH].
  destruct g; [| reflexivity]. destruct L as [| [a []] L]; easy.
Qed.

Lemma absorb_add a b R : absorb (a + b) R = (a + (absorb b R).1, (absorb b R).2).
Proof.
  revert b. induction R as [| [z []] R IH]; intros b; cbn; try reflexivity. now rewrite <- Z.add_assoc, IH.
Qed.

Lemma absorb_free a F R : all_free F -> absorb a (F ++ R) = absorb (a + total F) R.
Proof.
  intros HF. revert a. induction HF as [| [z g] F Hg HF IH]; intros a; cbn [app].
  - now rewrite total_nil, Z.add_0_r.
  - cbn in Hg. subst g. cbn [absorb]. now rewrite IH, total_cons, Z.add_assoc.
Qed.

(** Freeing a block merges it with the runs of free blocks around it. *)
Lemma coalesce_run F sz R :
  all_free F -> coalesced R = true ->
  coalesce (F ++ (sz, true) :: R) = ((absorb (total F + sz) R).1, true) :: (absorb (total F + sz) R).2.
Proof.
  intros HF HR. induction HF as [| [z g] F Hg HF IH].
  - cbn [app coalesce]. rewrite (coalesced_coalesce R HR), total_nil, Z.add_0_l.
    destruct R as [| [a []] R]; cbn; try reflexivity. cbn in HR. apply andb_true_iff in HR as [HR _].
    destruct R as [| [b []] R]; cbn; try reflexivity. discriminate.
  - cbn in Hg. subst g. cbn [app coalesce]. rewrite IH, total_cons, <- Z.add_assoc, (absorb_add z). reflexivity.
Qed.

Lemma absorb_coalesced sz R : coalesced R = true -> coalesced (((absorb sz R).1, true) :: (absorb sz R).2) = true.
Proof.
  revert sz. induction R as [| [z []] R IH]; intros sz H; [reflexivity | | exact H].
  cbn in H. apply andb_true_iff in H as [_ H]. now apply IH.
Qed.

(** Blocks split or allocated between the same neighbours. *)
Lemma metas_nodup s p l nx : sizes_pos l -> NoDup (map fst (metas s p l nx)).
Proof.
  intros H. revert s p. induction H as [| [z g] l Hz Hl IH]; intros s p; cbn; constructor.
  - rewrite list_elem_of_In. apply metas_not_left; [exact Hl | cbn in Hz; lia].
  - apply IH.
Qed.

Lemma metas_length s p l nx : List.length (metas s p l nx) = List.length l.
Proof. revert s p. induction l as [| [z g] l IH]; intros s p; cbn; [reflexivity |]. now rewrite IH. Qed.

Lemma rep_size arena t l : rep arena t l -> size (blocks t) = List.length l.
Proof.
  intros [E _ _ P]. rewrite E, map_size_list_to_map by now apply metas_nodup. apply metas_length.
Qed.

(** The merge started at a freshly freed block. *)
Lemma merge_block_rep arena fuel L sz R t :
  (List.length (L ++ (sz, true) :: R) <= fuel)%nat -> rep arena t (L ++ (sz, true) :: R) ->
  coalesced L = true -> coalesced R = true ->
  exists t', merge_block fuel (total L) t = Some t' /\ same t t' /\
    rep arena t' (coalesce (L ++ (sz, true) :: R)) /\ coalesced (coalesce (L ++ (sz, true) :: R)) = true.
Proof.
  intros Hf HR HL Hr. rewrite length_app in Hf. cbn in Hf. unfold merge_block.
  destruct (leftmost_rep arena fuel L sz true R t ltac:(lia) HR) as (L1 & F & -> & HF & H1 & ->).
  rewrite <- app_assoc in *. rewrite length_app in Hf. apply coalesced_head in HL.
  rewrite (coalesce_app _ _ H1), (coalesced_coalesce _ HL), (coalesce_run F sz R HF Hr).
  rewrite coalesced_app, HL by exact H1. rewrite (absorb_coalesced _ _ Hr).
  assert (HR' : exists z T, F ++ (sz, true) :: R = (z, true) :: T /\ (List.length T <= fuel)%nat /\ absorb z T = absorb (total F + sz) R).
  { destruct F as [| [z g] F].
    - exists sz, R. rewrite total_nil, Z.add_0_l. repeat split. lia.
    - inversion HF as [| ? ? Hg HF']; subst. cbn in Hg. subst g. exists z, (F ++ (sz, true) :: R).
      split; [reflexivity |]. split; [rewrite length_app; cbn in *; lia |].
      now rewrite (absorb_free z F _ HF'), total_cons. }
  destruct HR' as (z & T & E & HT & EA). rewrite E in HR.
  destruct (merge_right_rep arena fuel L1 z T t HT HR) as (t' & -> & S & R'). rewrite EA in R'.
  exists t'. auto.
Qed.

(** The block freed or handed out: only its flag changes. *)
Lemma set_flag_blocks L sz f g R :
  sizes_pos L ->
  <[total L := BlockMeta.mk sz (head_start (total L + sz) R None) (last_start 0 None L) g]>
    (list_to_map (metas 0 None (L ++ (sz, f) :: R) None) : gmap Z BlockMeta) =
  list_to_map (metas 0 None (L ++ (sz, g) :: R) None).
Proof.
  intros P. rewrite !around_metas. unfold around. apply lm_replace. apply metas_not_left; [exact P | lia].
Qed.

Lemma sizes_pos_flag L sz f g R : sizes_pos (L ++ (sz, f) :: R) -> sizes_pos (L ++ (sz, g) :: R).
Proof. rewrite !sizes_pos_app, !sizes_pos_cons. tauto. Qed.

Lemma total_flag L sz f g R : total (L ++ (sz, f) :: R) = total (L ++ (sz, g) :: R).
Proof. now rewrite !total_app. Qed.

Lemma free_rep arena t L sz R :
  rep arena t (L ++ (sz, false) :: R) -> coalesced (L ++ (sz, false) :: R) = true ->
  exists t', free (base t + total L) t = Some (t', None) /\ same t t' /\
    rep arena t' (coalesce (L ++ (sz, true) :: R)) /\ coalesced (coalesce (L ++ (sz, true) :: R)) = true.
Proof.
  intros HR C. pose proof (rep_lookup _ _ _ _ _ _ HR) as E0. pose proof (rep_size _ _ _ HR) as Esz.
  destruct HR as [E X T P]. unfold free.
  replace (base t + total L - base t) with (total L) by lia.
  rewrite (proj2 (Z.ltb_ge _ _)) by (clear - P; arena; assumption).
  rewrite E0. cbn [BlockMeta.is_free BlockMeta.size]. unfold BlockMeta.set_free. cbn [BlockMeta.size BlockMeta.next BlockMeta.prev].
  set (t0 := with_blocks _ t).
  assert (Hsz : 0 < sz <= arena) by (clear - T P; arena; lia).
  destruct (insert_ok arena t0 _ (total L) sz (indexed_blocks _ _ _ _ X) Hsz) as (t1 & -> & S1 & B1 & X1).
  assert (R1 : rep arena t1 (L ++ (sz, true) :: R)).
  { split.
    - rewrite B1. unfold t0. cbn [with_blocks blocks]. rewrite E. apply set_flag_blocks. clear - P. now arena.
    - eapply indexed_perm; [| exact X1]. rewrite frees_around, frees_app. reflexivity.
    - now rewrite (total_flag _ _ true false).
    - eapply sizes_pos_flag, P. }
  destruct (merge_block_rep arena (Datatypes.S (size (blocks t))) L sz R t1) as (t2 & -> & S2 & R2 & C2).
  - rewrite Esz, !length_app. cbn. lia.
  - exact R1.
  - now apply coalesced_head in C.
  - apply coalesced_tail in C. cbn in C. exact C.
  - exists t2. split; [reflexivity |]. split; [eapply same_trans; eassumption | now split].
Qed.

(** ** The search *)
Lemma search_row_spec row skip s :
  search_row row skip = Some s ->
  exists j b, (skip <= j)%nat /\ row !! j = Some (s :: b).
Proof.
  revert skip. induction row as [| b row IH]; intros [| skip]; cbn; try discriminate.
  - destruct b as [| s0 b]; [| intros [= ->]; exists 0%nat, b; cbn; split; [lia | reflexivity]].
    intros H. destruct (IH _ H) as (j & c & _ & Hj). exists (Datatypes.S j), c. split; [lia | exact Hj].
  - intros H. destruct (IH _ H) as (j & c & Hle & Hj). exists (Datatypes.S j), c. split; [lia | exact Hj].
Qed.

Lemma search_row_none row skip j b :
  search_row row skip = None -> (skip <= j)%nat -> row !! j = Some b -> b = [].
Proof.
  revert skip j. induction row as [| c row IH]; intros [| skip] j; cbn; try discriminate.
  - destruct c as [| s0 c]; [| discriminate]. intros H _. destruct j; cbn; [now intros [= <-] |].
    apply (IH 0%nat); [exact H | lia].
  - intros H Hle. destruct j; [lia |]. cbn. apply (IH skip); [exact H | lia].
Qed.

(** What the scan finds, and what it has seen when it finds nothing. *)
Lemma search_rows_spec rows entries skip l2s :
  List.length entries = List.length rows ->
  (forall i row n, rows !! i = Some row -> entries !! i = Some n -> n = 0 -> Forall (fun b => b = []) row) ->
  exists r, search_rows rows entries skip l2s = Some r /\
    match r with
    | Some s => exists i row j b, rows !! i = Some row /\ row !! j = Some (s :: b) /\
        ((i = skip /\ (l2s <= j)%nat) \/ (skip < i)%nat)
    | None => forall i row j b, rows !! i = Some row -> row !! j = Some b ->
        ((i = skip /\ (l2s <= j)%nat) \/ (skip < i)%nat) -> b = []
    end.
Proof.
  revert entries skip l2s. induction rows as [| row rows IH]; intros entries skip l2s Hl Hz.
  { eexists. split; [reflexivity |]. cbn. discriminate. }
  destruct entries as [| n entries]; [discriminate |]. cbn in Hl. injection Hl as Hl.
  assert (Hz' : forall i row n, rows !! i = Some row -> entries !! i = Some n -> n = 0 -> Forall (fun b => b = []) row)
    by (intros i; exact (Hz (Datatypes.S i))).
  cbn [search_rows]. destruct skip as [| skip].
  - destruct (if n =? 0 then None else search_row row l2s) as [s |] eqn:Er.
    + destruct (n =? 0); [discriminate |]. destruct (search_row_spec _ _ _ Er) as (j & b & Hj & Hb).
      eexists. split; [reflexivity |]. exists 0%nat, row, j, b. cbn. auto.
    + destruct (IH entries 0%nat 0%nat Hl Hz') as (r & -> & Hr). eexists. split; [reflexivity |].
      destruct r as [s |].
      * destruct Hr as (i & r0 & j & b & H1 & H2 & _). exists (Datatypes.S i), r0, j, b. cbn. split; [exact H1 |].
        split; [exact H2 |]. right. lia.
      * intros [| i] r0 j b H1 H2 [[H3 H4] | H3]; cbn in H1; try lia.
        -- injection H1 as <-. destruct (Z.eqb_spec n 0) as [-> | _].
           ++ pose proof (Hz 0%nat row 0 eq_refl eq_refl eq_refl) as F. rewrite Forall_lookup in F. exact (F j b H2).
           ++ exact (search_row_none _ _ _ _ Er H4 H2).
        -- apply (Hr i r0 j b H1 H2). destruct i; [left; split; [reflexivity | lia] | right; lia].
  - destruct (IH entries skip l2s Hl Hz') as (r & -> & Hr). eexists. split; [reflexivity |].
    destruct r as [s |].
    + destruct Hr as (i & r0 & j & b & H1 & H2 & H3). exists (Datatypes.S i), r0, j, b. cbn. split; [exact H1 |].
      split; [exact H2 |]. lia.
    + intros [| i] r0 j b H1 H2 H3; [lia |]. apply (Hr i r0 j b H1 H2). lia.
Qed.

(** ** The requested size, rounded to its bucket *)

(** The size is a lower bound of its bucket. *)
Definition on_granule (bits size : Z) : Prop := (2 ^ Z.max 0 (bit_length size - bits) | size).

Lemma bit_length_unique n m : 0 < m -> 2 ^ (m - 1) <= n < 2 ^ m -> bit_length n = m.
Proof.
  intros Hm H. assert (Hn : 0 < n) by (pose proof (Z.pow_pos_nonneg 2 (m - 1)); lia).
  unfold bit_length. rewrite (proj2 (Z.eqb_neq n 0)) by lia.
  rewrite (Z.log2_unique n (m - 1)); [lia | lia |]. now replace (Z.succ (m - 1)) with m by lia.
Qed.

Lemma pow2_divide a b : 0 <= a <= b -> (2 ^ a | 2 ^ b).
Proof. intros H. exists (2 ^ (b - a)). rewrite <- Z.pow_add_r by lia. f_equal. lia. Qed.

Lemma round_down_pow2 a k : 0 <= k -> Z.land a (Z.lnot (2 ^ k - 1)) = a / 2 ^ k * 2 ^ k.
Proof.
  intros Hk. rewrite <- (Z.shiftl_1_l k) at 1. rewrite <- Z.ldiff_land. change (Z.shiftl 1 k - 1) with (Z.pred (Z.shiftl 1 k)).
  change (Z.pred (Z.shiftl 1 k)) with (Z.ones k). rewrite Z.ldiff_ones_r by exact Hk.
  now rewrite Z.shiftl_mul_pow2, Z.shiftr_div_pow2 by exact Hk.
Qed.

Lemma round_up_bounds n g : 0 < g -> n <= (n + g - 1) / g * g < n + g.
Proof.
  intros Hg. pose proof (Z.div_mod (n + g - 1) g ltac:(lia)). pose proof (Z.mod_pos_bound (n + g - 1) g Hg). lia.
Qed.

Lemma rounded_on_granule bits n :
  1 <= bits -> 0 < n -> bits < bit_length n ->
  let g := 2 ^ (bit_length n - bits) in on_granule bits ((n + g - 1) / g * g).
Proof.
  intros Hb Hn Hm g. pose proof (bit_length_pos n Hn) as [L U].
  assert (Hg : 0 < g) by (apply Z.pow_pos_nonneg; lia).
  pose proof (round_up_bounds n g Hg) as [A B]. set (r := (n + g - 1) / g * g) in *.
  assert (D : (g | r)) by (exists ((n + g - 1) / g); reflexivity).
  assert (Hr : r <= 2 ^ bit_length n).
  { assert (DU : (g | 2 ^ bit_length n)) by (apply pow2_divide; lia).
    clearbody r g. destruct D as [x Hx], DU as [y Hy]. assert (H : x * g < (y + 1) * g) by lia. apply Z.mul_lt_mono_pos_r in H; [| exact Hg]. rewrite Hx, Hy. apply Z.mul_le_mono_nonneg_r; lia. }
  unfold on_granule. destruct (Z.eq_dec r (2 ^ bit_length n)) as [E | N].
  - rewrite E. rewrite (bit_length_unique _ (bit_length n + 1)).
    + apply pow2_divide. lia.
    + lia.
    + replace (bit_length n + 1 - 1) with (bit_length n) by lia.
      split; [lia | apply Z.pow_lt_mono_r; lia].
  - rewrite (bit_length_unique r (bit_length n)) by lia. now rewrite Z.max_r by lia.
Qed.

(** Buckets are ordered as the sizes they hold. *)
Definition bucket_le (bits a b : Z) : Prop := lv1 a < lv1 b \/ (lv1 a = lv1 b /\ lv2 bits a <= lv2 bits b).

Lemma bucket_le_fits bits size z :
  1 <= bits -> 0 < size -> 0 < z -> on_granule bits size -> bucket_le bits size z -> size <= z.
Proof.
  intros Hb Hs Hz D [H | [E H]]; unfold lv1 in *.
  - pose proof (bit_length_pos size Hs) as [_ U]. pose proof (bit_length_pos z Hz) as [L _].
    assert (2 ^ bit_length size <= 2 ^ (bit_length z - 1)) by (apply Z.pow_le_mono_r; lia). lia.
  - rewrite (proj1 (lv2_spec bits size Hb Hs)), (proj1 (lv2_spec bits z Hb Hz)), <- E in H.
    pose proof (bit_length_pos z Hz) as [L _]. rewrite <- E in L. pose proof (bit_length_ge1 size Hs) as Hm.
    unfold on_granule in D. set (m := bit_length size) in *.
    assert (Hg : 0 < 2 ^ Z.max 0 (m - bits)) by (apply Z.pow_pos_nonneg; lia).
    assert (D' : (2 ^ Z.max 0 (m - bits) | 2 ^ (m - 1))) by (apply pow2_divide; lia).
    set (g := 2 ^ Z.max 0 (m - bits)) in *. clearbody g m. destruct D as [x ->], D' as [y Hy]. rewrite Hy in *.
    replace (x * g - y * g) with ((x - y) * g) in H by lia. rewrite Z.div_mul in H by lia.
    pose proof (Z.mul_div_le (z - y * g) g Hg). nia.
Qed.

Lemma bucket_le_mono bits size z : 1 <= bits -> 0 < size <= z -> bucket_le bits size z.
Proof.
  intros Hb H. pose proof (bit_length_mono size z ltac:(lia)) as Hm. unfold bucket_le, lv1.
  destruct (Z.eq_dec (bit_length size) (bit_length z)) as [E | N]; [right; split; [exact E |] | left; lia].
  rewrite (proj1 (lv2_spec bits size Hb ltac:(lia))), (proj1 (lv2_spec bits z Hb ltac:(lia))), E.
  apply Z.div_le_mono; [apply Z.pow_pos_nonneg; lia | lia].
Qed.

(** The request is small enough for machine arithmetic. *)
Definition request_ok (t : TlsfAllocator) (req_size align : Z) : Prop :=
  Z.max req_size (block_size t) + Z.max align 1 < 2 ^ 63.

(** The slack of the rounding: less than a [2^(l2_bits-1)]th of the size. *)
Definition slack (bits n : Z) : Z := 2 ^ Z.max 0 (bit_length n - bits).

Lemma bit_length_lt n k : 0 <= k -> 0 <= n < 2 ^ k -> bit_length n <= k.
Proof.
  intros Hk H. unfold bit_length. destruct (Z.eqb_spec n 0); [lia |].
  pose proof (Z.log2_lt_pow2 n k ltac:(lia)). lia.
Qed.

Lemma search_size_spec t req align :
  1 <= l2_bits t -> 0 < req -> block_size t <= req -> 1 <= align -> req + align < 2 ^ 63 ->
  exists size, search_size t req align = Some size /\ on_granule (l2_bits t) size /\
    req + align - 1 <= size < req + align - 1 + slack (l2_bits t) (req + align - 1).
Proof.
  intros Hb Hr Hbs Ha Hs. unfold search_size, checked_usize, try_u64, in_u64b.
  rewrite (proj2 (Z.leb_le 0 _)), (proj2 (Z.ltb_lt _ _)) by lia. cbn [andb].
  rewrite Z.max_l by lia. set (n := req + align - 1) in *. unfold slack.
  destruct (Z.ltb_spec (l2_bits t) (bit_length n)) as [H | H].
  - pose proof (bit_length_lt n 63 ltac:(lia) ltac:(lia)) as Hm.
    assert (2 ^ (bit_length n - l2_bits t) <= 2 ^ 62) by (apply Z.pow_le_mono_r; lia).
    assert (Hg : 0 < 2 ^ (bit_length n - l2_bits t)) by (apply Z.pow_pos_nonneg; lia).
    rewrite Z.shiftl_1_l, (proj2 (Z.leb_le 0 _)), (proj2 (Z.ltb_lt _ _)) by lia. cbn [andb].
    rewrite round_down_pow2 by lia.
    eexists. split; [reflexivity |]. rewrite Z.max_r by lia. split; [apply rounded_on_granule; lia |].
    now apply round_up_bounds.
  - eexists. split; [reflexivity |]. rewrite Z.max_l by lia. split; [| cbn; lia].
    unfold on_granule. rewrite Z.max_l by lia. exists n. cbn. lia.
Qed.

Lemma in_frees o l s z : In (s, z) (frees o l) <-> exists L R, l = L ++ (z, true) :: R /\ s = o + total L.
Proof.
  split.
  - revert o. induction l as [| [a g] l IH]; intros o; [intros [] |]. cbn [frees]. rewrite in_app_iff. intros [H | H].
    + destruct g; [| destruct H]. destruct H as [H | []]. injection H as <- <-. exists [], l. rewrite total_nil. split; [reflexivity | lia].
    + destruct (IH _ H) as (L & R & -> & ->). exists ((a, g) :: L), R. split; [reflexivity |]. rewrite total_cons. lia.
  - intros (L & R & -> & ->). rewrite frees_app. apply in_app_iff. right. cbn. now left.
Qed.

Lemma search_rep arena t l size :
  rep arena t l -> 0 < size -> on_granule (l2_bits t) size ->
  exists r, search_rows (storage t) (lv1_entries t) (Z.to_nat (lv1 size)) (Z.to_nat (lv2 (l2_bits t) size)) = Some r /\
    match r with
    | Some s => exists L z R, l = L ++ (z, true) :: R /\ s = total L /\ size <= z
    | None => forall s z, In (s, z) (frees 0 l) -> z < size
    end.
Proof.
  intros [_ X T P] Hs D. pose proof (ix_bits _ _ _ X) as Hb.
  assert (Fpos : forall s z, In (s, z) (frees 0 l) -> 0 < z <= arena).
  { intros s z (L & R & -> & ->)%in_frees. clear - P T. arena. lia. }
  destruct (search_rows_spec (storage t) (lv1_entries t) (Z.to_nat (lv1 size)) (Z.to_nat (lv2 (l2_bits t) size))) as (r & -> & Hr).
  { destruct (ix_levels _ _ _ X). lia. }
  { intros i row n Hi Hn ->. apply Forall_lookup. intros j b Hj.
    pose proof (ix_entries _ _ _ X _ _ Hn) as En. pose proof (ix_bucket _ _ _ X _ _ _ _ Hi Hj) as Pb.
    destruct (filter (in_bucket (l2_bits t) i j) (frees 0 l)) as [| f F] eqn:EF; [| exfalso].
    - now apply Permutation_nil, symmetry.
    - assert (Hf : f ∈ filter (in_bucket (l2_bits t) i j) (frees 0 l)) by (rewrite EF; left).
      apply list_elem_of_filter in Hf as [[H1 _] Hf].
      assert (Hf' : f ∈ filter (fun f => Z.to_nat (lv1 f.2) = i) (frees 0 l)) by now apply list_elem_of_filter.
      destruct (filter (fun f => Z.to_nat (lv1 f.2) = i) (frees 0 l)); [now apply not_elem_of_nil in Hf' | cbn in En; lia]. }
  exists r. split; [reflexivity |]. destruct r as [s |].
  - destruct Hr as (i & row & j & b & Hi & Hj & Hij).
    pose proof (ix_bucket _ _ _ X _ _ _ _ Hi Hj) as Pb.
    assert (Hin : In s (map fst (filter (in_bucket (l2_bits t) i j) (frees 0 l)))) by (rewrite <- Pb; now left).
    apply in_map_iff in Hin as ([s' z] & <- & Hf). rewrite <- list_elem_of_In in Hf.
    apply list_elem_of_filter in Hf as [[H1 H2] Hf]. rewrite list_elem_of_In in Hf. cbn in H1, H2.
    pose proof (Fpos _ _ Hf) as Hz. destruct (proj1 (in_frees _ _ _ _) Hf) as (L & R & -> & ->).
    exists L, z, R. split; [reflexivity |]. split; [apply Z.add_0_l |].
    apply (bucket_le_fits (l2_bits t)); try assumption; [lia |]. unfold bucket_le.
    pose proof (bit_length_ge1 z ltac:(lia)). pose proof (bit_length_ge1 size Hs).
    pose proof (proj2 (lv2_spec (l2_bits t) z Hb ltac:(lia))). pose proof (proj2 (lv2_spec (l2_bits t) size Hb Hs)).
    unfold lv1 in *. lia.
  - intros s z Hf. pose proof (Fpos _ _ Hf) as Hz. destruct (Z.lt_ge_cases z size) as [| Hge]; [assumption | exfalso].
    destruct (indexed_bucket arena t _ z X Hz) as (row & b & n & Hrow & Hbk & _).
    pose proof (ix_bucket _ _ _ X _ _ _ _ Hrow Hbk) as Pb.
    assert (b = []) as ->.
    { apply (Hr _ _ _ _ Hrow Hbk). destruct (bucket_le_mono (l2_bits t) size z Hb ltac:(lia)) as [H | [H1 H2]];
        pose proof (bit_length_ge1 size Hs); unfold lv1 in *; [right; lia | left; split; [lia | lia]]. }
    assert (Hf' : In s (map fst (filter (in_bucket (l2_bits t) (Z.to_nat (lv1 z)) (Z.to_nat (lv2 (l2_bits t) z))) (frees 0 l)))).
    { apply in_map_iff. exists (s, z). split; [reflexivity |]. apply list_elem_of_In, list_elem_of_filter.
      split; [now split | now apply list_elem_of_In]. }
    rewrite <- Pb in Hf'. destruct Hf'.
Qed.

(** ** Allocation *)
Definition pad (n : Z) : list Block := if 0 <? n then [(n, true)] else [].

Lemma total_pad n : 0 <= n -> total (pad n) = n.
Proof. intros H. unfold pad. destruct (Z.ltb_spec 0 n); rewrite ?total_cons, total_nil; lia. Qed.

Lemma use_rep arena t L sz R :
  rep arena t (L ++ (sz, true) :: R) ->
  exists t', remove_block_index (total L) sz t = Some t' /\ same t t' /\
    rep arena (with_blocks (alter (BlockMeta.set_free false) (total L) (blocks t')) t') (L ++ (sz, false) :: R).
Proof.
  intros [E X T P]. assert (Hsz : 0 < sz <= arena) by (clear - P T; arena; lia).
  eapply indexed_perm in X; [| apply frees_around].
  destruct (remove_ok _ _ _ _ _ X Hsz) as (t1 & -> & S1 & B1 & X1).
  eexists. split; [reflexivity |]. split; [exact S1 |]. split.
  - cbn [with_blocks blocks]. rewrite B1, E, !around_metas. unfold around.
    rewrite lm_alter; [reflexivity |]. apply metas_not_left; [clear - P; now arena | lia].
  - apply indexed_blocks. rewrite frees_app. exact X1.
  - now rewrite (total_flag _ _ false true).
  - eapply sizes_pos_flag, P.
Qed.

Lemma split_head arena t L z R h :
  arena < 2 ^ 64 -> rep arena t (L ++ (z, true) :: R) -> 0 <= h < z ->
  exists t', (if total L + h =? total L then Some (t, total L, z)
              else let? t := split_block (total L) z h t in
                   let? b := blocks t !! (total L + h) in Some (t, total L + h, BlockMeta.size b)) =
      Some (t', total L + h, z - h) /\
    same t t' /\ rep arena t' ((L ++ pad h) ++ (z - h, true) :: R).
Proof.
  intros HA HR Hh. unfold pad. destruct (Z.eqb_spec (total L + h) (total L)) as [E | N].
  - assert (h = 0) as -> by lia. rewrite app_nil_r, Z.sub_0_r, Z.add_0_r. eauto using same_refl.
  - rewrite (proj2 (Z.ltb_lt 0 h)) by lia.
    destruct (split_rep arena t L z R h HA HR ltac:(lia)) as (t1 & -> & S1 & R1). rewrite <- app_assoc. cbn.
    pose proof R1 as R2. change (?a :: ?b :: ?c) with ([a] ++ b :: c) in R2. rewrite app_assoc in R2.
    apply rep_lookup in R2. rewrite total_app, total_cons, total_nil, Z.add_0_r in R2. rewrite R2. cbn. eauto.
Qed.

Lemma split_tail arena t L z R n :
  arena < 2 ^ 64 -> rep arena t (L ++ (z, true) :: R) -> 0 < n <= z ->
  exists t', (if n <? z then split_block (total L) z n t else Some t) = Some t' /\
    same t t' /\ rep arena t' (L ++ (n, true) :: pad (z - n) ++ R).
Proof.
  intros HA HR Hn. unfold pad. destruct (Z.ltb_spec n z) as [Hlt | Hge].
  - rewrite (proj2 (Z.ltb_lt 0 _)) by lia. exact (split_rep arena t L z R n HA HR ltac:(lia)).
  - rewrite (proj2 (Z.ltb_ge 0 _)) by lia. assert (n = z) as -> by lia. eauto using same_refl.
Qed.

Lemma round_up_spec n a : 1 <= a -> n <= round_up n a < n + a /\ round_up n a mod a = 0.
Proof.
  intros Ha. unfold round_up. destruct (Z.leb_spec a 1).
  - assert (a = 1) as -> by lia. rewrite Z.mod_1_r. lia.
  - split; [apply round_up_bounds; lia | apply Z.mod_mul; lia].
Qed.

Definition set_peak (p : Z) (t : TlsfAllocator) : TlsfAllocator :=
  mkTlsf (base t) (block_size t) (l2_bits t) (storage t) (lv1_entries t) (blocks t) p.

(** Allocation inside the free block after [L]. *)
Definition placed (L R : list Block) (z req align : Z) : list Block :=
  let h := round_up (total L) align - total L in
  (L ++ pad h) ++ (req, false) :: pad (z - h - req) ++ R.

Lemma rep_set_peak arena t l p : rep arena t l -> rep arena (set_peak p t) l.
Proof. intros [E [H1 H2 H3 H4 H5] T P]. split; try assumption. split; assumption. Qed.

Lemma take_rep arena t L z R size req align :
  base t + arena < 2 ^ 64 -> 0 <= base t ->
  rep arena t (L ++ (z, true) :: R) -> 0 < req -> 1 <= align -> req + align - 1 <= size <= z ->
  exists t', take (total L) size req align t = Some (t', base t + round_up (total L) align) /\
    base t' = base t /\ block_size t' = block_size t /\ l2_bits t' = l2_bits t /\
    peak_used t' = Z.max (peak_used t) (round_up (total L) align + req) /\
    rep arena t' (placed L R z req align).
Proof.
  intros HA Hbase HR Hreq Hal Hsz. unfold take.
  assert (Htot : 0 <= total L /\ total L + z <= arena).
  { destruct HR as [_ _ T P]. clear - T P. arena. lia. }
  rewrite (rep_lookup _ _ _ _ _ _ HR). cbn [BlockMeta.size]. rewrite (proj2 (Z.ltb_ge z size)) by lia.
  destruct (round_up_spec (total L) align Hal) as [Hru _].
  unfold checked_usize, try_u64, in_u64b at 1.
  rewrite (proj2 (Z.leb_le 0 _)), (proj2 (Z.ltb_lt _ _)) by lia. cbn [andb].
  unfold placed. set (h := round_up (total L) align - total L) in *.
  replace (round_up (total L) align) with (total L + h) in * by lia. clearbody h.
  destruct (split_head arena t L z R h ltac:(lia) HR ltac:(lia)) as (t1 & -> & S1 & R1).
  assert (TL : total (L ++ pad h) = total L + h) by (rewrite total_app, total_pad; lia).
  destruct (split_tail arena t1 (L ++ pad h) (z - h) R req ltac:(lia) R1 ltac:(lia)) as (t2 & E2 & S2 & R2).
  rewrite TL in E2. rewrite E2.
  destruct (use_rep arena t2 _ _ _ R2) as (t3 & E3 & S3 & R3). rewrite TL in E3, R3. rewrite E3.
  destruct (same_trans _ _ _ S1 (same_trans _ _ _ S2 S3)) as (B1 & B2 & B3 & B4).
  unfold in_u64b. cbn [with_blocks base block_size l2_bits storage lv1_entries blocks peak_used].
  rewrite B1, (proj2 (Z.leb_le 0 _)), (proj2 (Z.ltb_lt _ _)) by lia. cbn [andb].
  eexists. split; [rewrite (Z.add_comm (base t)); reflexivity |]. cbn.
  rewrite B2, B3, B4. repeat (split; [reflexivity |]).
  apply (rep_set_peak _ _ _ (Z.max (peak_used t) (total L + h + req))) in R3. rewrite <- B1, <- B2, <- B3. exact R3.
Qed.

Lemma coalesced_around L z f R :
  coalesced (L ++ (z, f) :: R) = true ->
  coalesced L = true /\ coalesced R = true /\
  (f = true -> starts_free (rev L) = false /\ starts_free R = false).
Proof.
  intros C. split; [now apply coalesced_head in C |]. pose proof (coalesced_tail _ _ C) as CR. cbn in CR.
  apply andb_true_iff in CR as [CR1 CR]. split; [exact CR |]. intros ->. split.
  - destruct L as [| [a g] L] using rev_ind; [reflexivity |]. rewrite rev_app_distr. cbn.
    rewrite <- app_assoc in C. apply coalesced_tail in C. cbn in C. now destruct g.
  - now destruct (starts_free R).
Qed.

Lemma coalesced_pad n R : starts_free R = false -> coalesced R = true -> coalesced (pad n ++ R) = true.
Proof. intros H C. unfold pad. destruct (0 <? n); cbn; [now rewrite H, C | exact C]. Qed.

Lemma placed_coalesced L R z req align :
  coalesced (L ++ (z, true) :: R) = true -> coalesced (placed L R z req align) = true.
Proof.
  intros (CL & CR & H)%coalesced_around. destruct (H eq_refl) as [HL HR]. unfold placed.
  rewrite <- app_assoc, coalesced_app, CL by exact HL. cbn [andb].
  apply coalesced_pad; [reflexivity |]. cbn. now apply coalesced_pad.
Qed.

Lemma alloc_rep arena t l req align :
  base t + arena < 2 ^ 64 -> 0 <= base t -> 1 <= block_size t ->
  rep arena t l -> coalesced l = true -> request_ok t req align ->
  let n := Z.max req (block_size t) in let a := Z.max align 1 in
  (exists t' L z R, l = L ++ (z, true) :: R /\ n + a - 1 <= z /\
     alloc req align t = Some (t', inl (base t + round_up (total L) a)) /\
     base t' = base t /\ block_size t' = block_size t /\ l2_bits t' = l2_bits t /\
     peak_used t' = Z.max (peak_used t) (round_up (total L) a + n) /\
     rep arena t' (placed L R z n a) /\ coalesced (placed L R z n a) = true) \/
  (alloc req align t = Some (t, inr (OutOfMemory n)) /\
   forall s z, In (s, z) (frees 0 l) -> z < n + a - 1 + slack (l2_bits t) (n + a - 1)).
Proof.
  intros HA Hb Hbs HR C Hreq n a. unfold request_ok in Hreq. unfold alloc. fold n a in Hreq |- *.
  destruct (search_size_spec t n a) as (size & -> & D & Hsz); try lia.
  { exact (ix_bits _ _ _ (rep_index _ _ _ HR)). }
  destruct (search_rep arena t l size HR ltac:(lia) D) as (r & -> & Hr). destruct r as [s |].
  - left. destruct Hr as (L & z & R & -> & -> & Hz).
    destruct (take_rep arena t L z R size n a HA Hb HR ltac:(lia) ltac:(lia) ltac:(lia)) as (t' & -> & H1 & H2 & H3 & H4 & H5).
    exists t', L, z, R. split; [reflexivity |]. split; [lia |]. split; [reflexivity |].
    do 5 (split; [assumption |]). now apply placed_coalesced.
  - right. split; [reflexivity |]. intros s z Hin. specialize (Hr s z Hin). lia.
Qed.

(** ** The allocator a client sees *)
Inductive event := Alloc (req align : Z) | Free (offset : Z).
Inductive outcome := Placed (offset : Z) | Freed | Failed (e : TlsfError).

Definition step (e : event) (t : TlsfAllocator) : option (TlsfAllocator * outcome) :=
  match e with
  | Alloc req align =>
      let? (t, r) := alloc req align t in
      Some (t, match r with inl o => Placed o | inr e => Failed e end)
  | Free o =>
      let? (t, r) := free o t in
      Some (t, match r with None => Freed | Some e => Failed e end)
  end.

Fixpoint run (es : list event) (t : TlsfAllocator) : option (TlsfAllocator * list outcome) :=
  match es with
  | [] => Some (t, [])
  | e :: es =>
      let? (t, o) := step e t in
      let? (t, os) := run es t in Some (t, o :: os)
  end.

(** The contract, on the live allocations (offset and size): a placement is
    aligned, in the arena and clear of every live allocation. *)
Definition disjoint_from (o n : Z) (b : Z * Z) : Prop := o + n <= b.1 \/ b.1 + b.2 <= o.

Inductive contract (b arena bs : Z) : list (Z * Z) * Z -> event -> outcome -> list (Z * Z) * Z -> Prop :=
| contract_placed live peak req align o :
    let n := Z.max req bs in
    (o - b) mod Z.max align 1 = 0 -> b <= o -> o + n <= b + arena -> Forall (disjoint_from o n) live ->
    contract b arena bs (live, peak) (Alloc req align) (Placed o) ((o, n) :: live, Z.max peak (o - b + n))
| contract_full live peak req align :
    contract b arena bs (live, peak) (Alloc req align) (Failed (OutOfMemory (Z.max req bs))) (live, peak)
| contract_freed live live' peak o n :
    Permutation live ((o, n) :: live') ->
    contract b arena bs (live, peak) (Free o) Freed (live', peak)
| contract_not_live live peak o e :
    e = UnknownOffset o \/ e = DoubleFree o -> (forall n, ~ In (o, n) live) ->
    contract b arena bs (live, peak) (Free o) (Failed e) (live, peak).

Inductive history (b arena bs : Z) : list (Z * Z) * Z -> list event -> list outcome -> list (Z * Z) * Z -> Prop :=
| history_nil s : history b arena bs s [] [] s
| history_cons s e o s1 es os s2 :
    contract b arena bs s e o s1 -> history b arena bs s1 es os s2 ->
    history b arena bs s (e :: es) (o :: os) s2.

(** The used blocks, from offset [o]. *)
Fixpoint used (o : Z) (l : list Block) : list (Z * Z) :=
  match l with
  | [] => []
  | (z, f) :: l => (if f then [] else [(o, z)]) ++ used (o + z) l
  end.

Lemma used_app o l k : used o (l ++ k) = used o l ++ used (o + total l) k.
Proof.
  revert o. induction l as [| [z f] l IH]; intros o; cbn [app used].
  - now rewrite total_nil, Z.add_0_r.
  - now rewrite IH, total_cons, <- app_assoc, Z.add_assoc.
Qed.

Lemma used_bounds o l s z : sizes_pos l -> In (s, z) (used o l) -> o <= s /\ s + z <= o + total l.
Proof.
  intros H. revert o. induction H as [| [a f] l Ha Hl IH]; intros o; [intros [] |]. cbn [used fst] in *.
  rewrite in_app_iff, total_cons. pose proof (total_nonneg l Hl). intros [Hin | Hin].
  - destruct f; [destruct Hin |]. destruct Hin as [Hin | []]. injection Hin as <- <-. lia.
  - specialize (IH _ Hin). lia.
Qed.

Lemma used_coalesce o l : used o (coalesce l) = used o l.
Proof.
  revert o. induction l as [| [z []] l IH]; intros o; cbn [coalesce used]; [reflexivity | | now rewrite IH].
  cbn [app]. rewrite <- IH. destruct (coalesce l) as [| [a []] r]; cbn [used app]; try reflexivity.
  now rewrite Z.add_assoc.
Qed.

Lemma in_used o l s z : In (s, z) (used o l) <-> exists L R, l = L ++ (z, false) :: R /\ s = o + total L.
Proof.
  split.
  - revert o. induction l as [| [a g] l IH]; intros o; [intros [] |]. cbn [used]. rewrite in_app_iff. intros [H | H].
    + destruct g; [destruct H |]. destruct H as [H | []]. injection H as <- <-. exists [], l. rewrite total_nil. split; [reflexivity | lia].
    + destruct (IH _ H) as (L & R & -> & ->). exists ((a, g) :: L), R. split; [reflexivity |]. rewrite total_cons. lia.
  - intros (L & R & -> & ->). rewrite used_app. apply in_app_iff. right. cbn. now left.
Qed.

Lemma used_pad o n : used o (pad n) = [].
Proof. unfold pad. now destruct (0 <? n). Qed.

Lemma used_placed o L R z req align :
  let h := round_up (total L) align - total L in
  0 <= h -> h + req <= z ->
  Permutation (used o (placed L R z req align))
    ((o + round_up (total L) align, req) :: used o (L ++ (z, true) :: R)).
Proof.
  intros h Hh Hz. unfold placed. fold h. rewrite !used_app, used_pad, app_nil_r. cbn [used app].
  rewrite total_app, total_pad by exact Hh. rewrite used_app, used_pad, total_pad by lia. cbn [app].
  rewrite <- Permutation_middle.
  replace (o + (total L + h)) with (o + round_up (total L) align) by (unfold h; lia).
  replace (o + round_up (total L) align + req + (z - h - req)) with (o + total L + z) by (unfold h; lia).
  reflexivity.
Qed.

Lemma in_metas k m s p l nx :
  In (k, m) (metas s p l nx) ->
  exists L R, l = L ++ (BlockMeta.size m, BlockMeta.is_free m) :: R /\ k = s + total L.
Proof.
  revert s p. induction l as [| [z f] l IH]; intros s p; [intros [] |]. cbn [metas]. intros [H | H].
  - injection H as <- <-. exists [], l. rewrite total_nil. split; [reflexivity | lia].
  - destruct (IH _ _ H) as (L & R & E & ->). exists ((z, f) :: L), R. rewrite E at 1. rewrite total_cons.
    split; [reflexivity | lia].
Qed.

Lemma rep_lookup_inv arena t l k m :
  rep arena t l -> blocks t !! k = Some m ->
  exists L R, l = L ++ (BlockMeta.size m, BlockMeta.is_free m) :: R /\ k = total L.
Proof.
  intros [E _ _ _] H. rewrite E in H. apply elem_of_list_to_map_2 in H. rewrite list_elem_of_In in H.
  exact (in_metas _ _ _ _ _ _ H).
Qed.

Record refines (b arena bs bits : Z) (t : TlsfAllocator) (s : list (Z * Z) * Z) : Prop := {
  rf_base : base t = b;
  rf_block_size : block_size t = bs;
  rf_bits : l2_bits t = bits;
  rf_peak : peak_used t = s.2;
  rf_blocks : exists l, rep arena t l /\ coalesced l = true /\ Permutation s.1 (used b l)
}.

Lemma refines_perm b n bs bits t live live' pk :
  Permutation live live' -> refines b n bs bits t (live, pk) -> refines b n bs bits t (live', pk).
Proof. intros P [H1 H2 H3 H4 (l & R & C & P')]. split; auto. exists l. cbn in *. now rewrite <- P. Qed.

(** Requests fit machine arithmetic; offsets are unsigned. *)
Definition event_ok (bs : Z) (e : event) : Prop :=
  match e with
  | Alloc req align => Z.max req bs + Z.max align 1 < 2 ^ 63
  | Free o => 0 <= o
  end.

Lemma alloc_refines b arena bs bits t s req align :
  0 <= b -> b + arena < 2 ^ 64 -> 1 <= bs -> refines b arena bs bits t s -> event_ok bs (Alloc req align) ->
  exists t' o s', step (Alloc req align) t = Some (t', o) /\
    contract b arena bs s (Alloc req align) o s' /\ refines b arena bs bits t' s'.
Proof.
  intros Hb HA Hbs [<- <- <- Hp (l & R & C & P)] He. cbn in He. destruct s as [live peak]. cbn in Hp, P. cbn [step].
  destruct (alloc_rep arena t l req align ltac:(lia) Hb Hbs R C He)
    as [(t' & L & z & R1 & El & Hz & Ea & H1 & H2 & H3 & H4 & H5 & H6) | [Ea _]]; rewrite Ea.
  - set (n := Z.max req (block_size t)) in *. set (a := Z.max align 1) in *.
    destruct (round_up_spec (total L) a ltac:(lia)) as [Hru Hmod].
    assert (HT : 0 <= total L /\ total L + z <= arena).
    { pose proof (rep_total _ _ _ R) as T. pose proof (rep_pos _ _ _ R) as Q. subst l. clear - T Q. arena. lia. }
    exists t', (Placed (base t + round_up (total L) a)),
      ((base t + round_up (total L) a, n) :: live, Z.max peak (base t + round_up (total L) a - base t + n)).
    split; [reflexivity |]. split.
    + constructor; fold a n; replace (base t + round_up (total L) a - base t) with (round_up (total L) a) by lia;
        [exact Hmod | lia | lia |].
      rewrite P. apply Forall_forall. intros [o2 z2] Hin. rewrite list_elem_of_In in Hin. unfold disjoint_from. cbn [fst snd].
      pose proof (rep_pos _ _ _ R) as Q. subst l. apply sizes_pos_app in Q as [Q1 [_ Q2]%sizes_pos_cons].
      rewrite used_app in Hin. cbn [used app] in Hin. apply in_app_iff in Hin as [Hin | Hin];
        apply used_bounds in Hin; try assumption; lia.
    + split; cbn [fst snd]; [assumption | assumption | assumption | |].
      * rewrite H4, Hp. f_equal. lia.
      * eexists. split; [exact H5 |]. split; [exact H6 |]. rewrite P, El. symmetry. apply used_placed; lia.
  - exists t, (Failed (OutOfMemory (Z.max req (block_size t)))), (live, peak). split; [reflexivity |].
    split; [constructor |]. split; [reflexivity | reflexivity | reflexivity | exact Hp | eauto].
Qed.

Lemma free_refines b arena bs bits t s o :
  refines b arena bs bits t s ->
  exists t' r s', step (Free o) t = Some (t', r) /\ contract b arena bs s (Free o) r s' /\ refines b arena bs bits t' s'.
Proof.
  intros HRf. pose proof HRf as [<- <- <- Hp (l & R & C & P)]. destruct s as [live peak]. cbn in Hp, P.
  assert (Hnot : forall e, (e = UnknownOffset o \/ e = DoubleFree o) ->
    (forall L n R, l = L ++ (n, false) :: R -> o <> base t + total L) -> free o t = Some (t, Some e) ->
    exists t' r s', step (Free o) t = Some (t', r) /\ contract (base t) arena (block_size t) (live, peak) (Free o) r s' /\
      refines (base t) arena (block_size t) (l2_bits t) t' s').
  { intros e He Hl Ef. exists t, (Failed e), (live, peak). cbn [step]. rewrite Ef. split; [reflexivity |].
    split; [| exact HRf]. constructor; [exact He |]. intros n Hin. rewrite P in Hin.
    apply in_used in Hin as (L & R0 & El & Eo). exact (Hl L n R0 El Eo). }
  destruct (Z.ltb_spec (o - base t) 0) as [Hlt | Hge].
  { apply (Hnot (UnknownOffset o)); [now left | |].
    - intros L n R0 El ->. pose proof (rep_pos _ _ _ R) as Q. subst l. clear - Q Hlt. arena. lia.
    - unfold free. now rewrite (proj2 (Z.ltb_lt _ _)) by exact Hlt. }
  destruct (blocks t !! (o - base t)) as [m |] eqn:Em.
  - destruct (rep_lookup_inv _ _ _ _ _ R Em) as (L & R0 & El & Eo).
    destruct (BlockMeta.is_free m) eqn:Ef.
    + apply (Hnot (DoubleFree o)); [now right | |].
      * intros L1 n R1 El1 Eo1. rewrite El1 in R. pose proof (rep_lookup _ _ _ _ _ _ R) as E1.
        replace (total L1) with (o - base t) in E1 by lia. rewrite Em in E1. injection E1 as ->. discriminate.
      * unfold free. rewrite (proj2 (Z.ltb_ge _ _)) by exact Hge. now rewrite Em, Ef.
    + rewrite El in R, C. destruct (free_rep arena t L _ R0 R C) as (t' & Et & S & R' & C').
      replace (base t + total L) with o in Et by lia.
      exists t', Freed, (used (base t) (coalesce (L ++ (BlockMeta.size m, true) :: R0)), peak).
      cbn [step]. rewrite Et. split; [reflexivity |]. destruct S as (S1 & S2 & S3 & S4). split.
      * apply contract_freed with (n := BlockMeta.size m). rewrite P, El, used_coalesce, !used_app. cbn [used app].
        rewrite <- Permutation_middle. now replace (base t + total L) with o by lia.
      * split; cbn [fst snd]; [assumption | assumption | assumption | now rewrite S4 | eauto].
  - apply (Hnot (UnknownOffset o)); [now left | |].
    + intros L1 n R1 El1 Eo1. rewrite El1 in R. pose proof (rep_lookup _ _ _ _ _ _ R) as E1.
      replace (total L1) with (o - base t) in E1 by lia. congruence.
    + unfold free. rewrite (proj2 (Z.ltb_ge _ _)) by exact Hge. now rewrite Em.
Qed.

Lemma step_refines b arena bs bits t s e :
  0 <= b -> b + arena < 2 ^ 64 -> 1 <= bs -> refines b arena bs bits t s -> event_ok bs e ->
  exists t' o s', step e t = Some (t', o) /\ contract b arena bs s e o s' /\ refines b arena bs bits t' s'.
Proof.
  intros Hb HA Hbs HR He. destruct e; [now apply alloc_refines | now apply free_refines].
Qed.

Lemma run_refines b arena bs bits t s es :
  0 <= b -> b + arena < 2 ^ 64 -> 1 <= bs -> refines b arena bs bits t s -> Forall (event_ok bs) es ->
  exists t' os s', run es t = Some (t', os) /\ history b arena bs s es os s' /\ refines b arena bs bits t' s'.
Proof.
  intros Hb HA Hbs HR He. revert t s HR. induction He as [| e es He _ IH]; intros t s HR.
  - exists t, [], s. split; [reflexivity |]. split; [constructor | exact HR].
  - destruct (step_refines b arena bs bits t s e Hb HA Hbs HR He) as (t1 & o & s1 & E1 & C1 & R1).
    destruct (IH t1 s1 R1) as (t2 & os & s2 & E2 & C2 & R2).
    exists t2, (o :: os), s2. cbn [run]. rewrite E1, E2. split; [reflexivity |].
    split; [econstructor; eassumption | exact R2].
Qed.

(** The initial allocator. *)
Lemma indexed_fresh arena b bs bits bl :
  1 <= bits ->
  indexed (levels_of arena)
    (mkTlsf b bs bits (replicate (levels_of arena) (replicate (Z.to_nat (Z.shiftl 1 bits)) []))
       (replicate (levels_of arena) 0) bl 0) [].
Proof.
  intros Hb. split; cbn.
  - now rewrite !length_replicate.
  - exact Hb.
  - intros i row H. apply lookup_replicate in H as [-> _]. now rewrite length_replicate, Z.shiftl_1_l.
  - intros i row j c H1 H2. apply lookup_replicate in H1 as [-> _]. apply lookup_replicate in H2 as [-> _]. reflexivity.
  - intros i n H. now apply lookup_replicate in H as [-> _].
Qed.

Lemma new_refines arena b bs cnt :
  0 <= arena -> exists t, new arena b bs cnt = Some t /\ refines b arena bs (bit_length (Z.max cnt 1)) t ([], 0) /\
    rep arena t (pad arena).
Proof.
  intros Ha. unfold new. fold (levels_of arena). cbn zeta.
  assert (Hb : 1 <= bit_length (Z.max cnt 1)) by (apply bit_length_ge1; lia).
  pose proof (fun bl => indexed_fresh arena b bs _ bl Hb) as X. unfold pad.
  destruct (Z.ltb_spec 0 arena) as [H | H].
  - destruct (insert_ok arena _ [] 0 arena (indexed_blocks _ _ _ (<[0:=BlockMeta.mk arena None None true]> ∅) (X ∅)) ltac:(lia))
      as (t & E & (S1 & S2 & S3 & S4) & B & X1).
    exists t. split; [exact E |]. cbn in S1, S2, S3, S4.
    assert (R : rep arena t [(arena, true)]).
    { split; [exact B | exact X1 | cbn; lia | now repeat constructor]. }
    split; [| exact R]. split; try assumption. exists [(arena, true)]. auto.
  - assert (arena = 0) as -> by lia. eexists. split; [reflexivity |].
    assert (R : rep 0 (mkTlsf b bs (bit_length (Z.max cnt 1))
       (replicate (levels_of 0) (replicate (Z.to_nat (Z.shiftl 1 (bit_length (Z.max cnt 1)))) []))
       (replicate (levels_of 0) 0) ∅ 0) []) by (split; [reflexivity | apply X | reflexivity | constructor]).
    split; [| exact R]. split; try reflexivity. exists []. auto.
Qed.

(** C18: Every sequence of [alloc] and [free] on a new allocator runs without a panic and
    meets the contract: each placement is aligned, inside the arena and clear
    of all live allocations; [free] succeeds exactly on live offsets and
    reports an error otherwise; [peak_used] is the largest end ever placed. *)
Theorem tlsf_refines_contract arena b bs cnt es :
  0 <= arena -> 0 <= b -> b + arena < 2 ^ 64 -> 1 <= bs -> Forall (event_ok bs) es ->
  exists t0 t os s, new arena b bs cnt = Some t0 /\ run es t0 = Some (t, os) /\
    history b arena bs ([], 0) es os s /\ peak_used t = s.2.
Proof.
  intros Ha Hb HA Hbs He. destruct (new_refines arena b bs cnt Ha) as (t0 & E0 & R0 & _).
  destruct (run_refines b arena bs _ t0 _ es Hb HA Hbs R0 He) as (t & os & s & E & H & R).
  exists t0, t, os, s. split; [exact E0 |]. split; [exact E |]. split; [exact H |]. exact (rf_peak _ _ _ _ _ _ R).
Qed.

(** A request, frees and double frees on a small arena. *)
Definition demo : list event :=
  [Alloc 300 1; Alloc 10 512; Free 300; Alloc 100 64; Free 1000; Free 1512; Free 1000; Alloc 4000 1].

Lemma demo_ok : Forall (event_ok 256) demo.
Proof. repeat constructor; cbn; lia. Qed.

Lemma tlsf_refines_contract_witness :
  exists t0 t os s, new 4096 1000 256 32 = Some t0 /\ run demo t0 = Some (t, os) /\
    history 1000 4096 256 ([], 0) demo os s /\ peak_used t = s.2.
Proof. apply tlsf_refines_contract; [lia | lia | lia | lia | exact demo_ok]. Defined.

(** The live allocator after some events. *)
Definition reached (arena b bs cnt : Z) (es : list event) (t : TlsfAllocator) : Prop :=
  exists t0 os, new arena b bs cnt = Some t0 /\ run es t0 = Some (t, os).


(** ** Fragmentation *)
Section Reached.
Context (arena b bs cnt : Z) (es : list event) (t0 t : TlsfAllocator) (os : list outcome).
Context (Ha : 0 <= arena) (Hb : 0 <= b) (HA : b + arena < 2 ^ 64) (Hbs : 1 <= bs) (He : Forall (event_ok bs) es).
Context (E0 : new arena b bs cnt = Some t0) (Er : run es t0 = Some (t, os)).

Lemma reached_refines : exists s, refines b arena bs (bit_length (Z.max cnt 1)) t s.
Proof using Ha Hb HA Hbs He E0 Er.
  destruct (new_refines arena b bs cnt Ha) as (t1 & E1 & R1 & _). rewrite E0 in E1. injection E1 as <-.
  destruct (run_refines b arena bs _ t0 _ es Hb HA Hbs R1 He) as (t2 & os2 & s & E2 & _ & R2).
  rewrite Er in E2. injection E2 as <- <-. eauto.
Qed.

(** C40: [alloc] fails only when every free block is smaller than the request
    plus its alignment and the rounding of its bucket, at most a
    [2^(l2_bits-1)]th of it; it then changes nothing. *)
Theorem alloc_fails_when_fragmented req align t' e k m :
  event_ok bs (Alloc req align) -> alloc req align t = Some (t', inr e) ->
  blocks t !! k = Some m -> BlockMeta.is_free m = true ->
  let n := Z.max req bs + Z.max align 1 - 1 in
  t' = t /\ e = OutOfMemory (Z.max req bs) /\
  BlockMeta.size m < n + 2 ^ Z.max 0 (bit_length n - bit_length (Z.max cnt 1)).
Proof using Ha Hb HA Hbs He E0 Er.
  intros Hreq Hal Hk Hf. destruct reached_refines as [s HR]. destruct HR as [Eb Es El _ (l & R & C & _)].
  rewrite <- Eb in *. rewrite <- Es in *. rewrite <- El.
  destruct (alloc_rep arena t l req align HA Hb Hbs R C Hreq)
    as [(t2 & L & z & R0 & _ & _ & Ea & _) | [Ea Hfit]]; rewrite Ea in Hal; [discriminate |].
  injection Hal as <- <-. split; [reflexivity |]. split; [reflexivity |].
  destruct (rep_lookup_inv _ _ _ _ _ R Hk) as (L & R0 & -> & ->). rewrite Hf in Hfit.
  apply (Hfit (total L)). apply in_frees. exists L, R0. split; [reflexivity | lia].
Qed.

Lemma coalesced_all_free l : coalesced l = true -> all_free l -> l = [] \/ exists z, l = [(z, true)].
Proof.
  intros C F. destruct l as [| [z f] l]; [now left |]. right. inversion F as [| ? ? Hf F']; subst. cbn in Hf. subst f.
  destruct l as [| [a g] l]; [now exists z |]. inversion F' as [| ? ? Hg _]; subst. cbn in Hg. subst g. discriminate.
Qed.

(** Once nothing is live any more, the arena is again one free block, and
    every request that fits the arena with its alignment and rounding is
    placed at its start: freeing leaks and fragments nothing. *)
Theorem freed_arena_is_whole req align :
  0 < arena -> (forall k m, blocks t !! k = Some m -> BlockMeta.is_free m = true) ->
  event_ok bs (Alloc req align) ->
  let n := Z.max req bs + Z.max align 1 - 1 in
  n + 2 ^ Z.max 0 (bit_length n - bit_length (Z.max cnt 1)) <= arena ->
  blocks t = {[0 := BlockMeta.mk arena None None true]} /\
  exists t', alloc req align t = Some (t', inl b).
Proof using Ha Hb HA Hbs He E0 Er.
  intros Hpos Hfree Hreq n Hn. destruct reached_refines as [s HR]. destruct HR as [Eb Es El _ (l & R & C & _)].
  assert (F : all_free l).
  { apply Forall_forall. intros [z f] Hin. rewrite list_elem_of_In in Hin.
    apply in_split in Hin as (L & R0 & ->). exact (Hfree _ _ (rep_lookup _ _ _ _ _ _ R)). }
  pose proof (rep_total _ _ _ R) as T.
  destruct (coalesced_all_free l C F) as [-> | [z ->]]; [rewrite total_nil in T; lia |].
  rewrite total_cons, total_nil, Z.add_0_r in T. subst z. split.
  { rewrite (rep_blocks _ _ _ R). reflexivity. }
  subst n. rewrite <- Eb in *. rewrite <- Es in *. rewrite <- El in *.
  destruct (alloc_rep arena t _ req align HA Hb Hbs R C Hreq)
    as [(t2 & L & z & R0 & EL & _ & Ea & _) | [Ea Hfit]].
  - destruct L as [| [z0 f0] L]; [| destruct L; discriminate]. rewrite total_nil in Ea. exists t2. rewrite Ea.
    unfold round_up. destruct (Z.max align 1 <=? 1) eqn:E1; [now rewrite Z.add_0_r |]. zb.
    rewrite Z.add_0_l, Z.div_small by lia. now rewrite Z.mul_0_l, Z.add_0_r.
  - specialize (Hfit 0 arena ltac:(now left)). unfold slack in Hfit. lia.
Qed.
End Reached.

(** Concrete states for the witnesses. *)
Definition empty_tlsf : TlsfAllocator := mkTlsf 0 0 0 [] [] ∅ 0.
Definition demo_new : TlsfAllocator := default empty_tlsf (new 4096 1000 256 32).
Definition after (es : list event) : TlsfAllocator * list outcome := default (empty_tlsf, []) (run es demo_new).

Lemma demo_new_eq : new 4096 1000 256 32 = Some demo_new.
Proof. vm_compute. reflexivity. Qed.

Lemma after_eq es : run es demo_new <> None -> run es demo_new = Some ((after es).1, (after es).2).
Proof. unfold after. destruct (run es demo_new) as [[t os] |]; [reflexivity | contradiction]. Qed.

Definition one_block : list event := [Alloc 3000 1].
Definition balanced : list event := [Alloc 300 1; Alloc 700 64; Free 1000; Free 1320].

Lemma alloc_fails_when_fragmented_witness :
  let t := (after one_block).1 in
  run one_block demo_new <> None /\ alloc 2000 1 t = Some (t, inr (OutOfMemory 2000)) /\
  (t = t /\ OutOfMemory 2000 = OutOfMemory (Z.max 2000 256) /\ 1096 < 2000 + 32).
Proof.
  assert (N : run one_block demo_new <> None) by (vm_compute; discriminate).
  assert (E : alloc 2000 1 (after one_block).1 = Some ((after one_block).1, inr (OutOfMemory 2000)))
    by (vm_compute; reflexivity).
  split; [exact N |]. split; [exact E |].
  refine (alloc_fails_when_fragmented 4096 1000 256 32 one_block demo_new _ _ ltac:(lia) ltac:(lia) ltac:(lia) ltac:(lia)
    ltac:(repeat constructor; cbn; lia) demo_new_eq (after_eq _ N) 2000 1 _ _ 3000
    (BlockMeta.mk 1096 None (Some 0) true) ltac:(cbn; lia) E _ eq_refl).
  vm_compute. reflexivity.
Defined.

Lemma freed_arena_is_whole_witness :
  let t := (after balanced).1 in
  run balanced demo_new <> None /\
  blocks t = {[0 := BlockMeta.mk 4096 None None true]} /\ exists t', alloc 3900 1 t = Some (t', inl 1000).
Proof.
  assert (N : run balanced demo_new <> None) by (vm_compute; discriminate).
  split; [exact N |].
  refine (freed_arena_is_whole 4096 1000 256 32 balanced demo_new _ _ ltac:(lia) ltac:(lia) ltac:(lia) ltac:(lia)
    ltac:(repeat constructor; cbn; lia) demo_new_eq (after_eq _ N) 3900 1 ltac:(lia) _ ltac:(cbn; lia) _).
  - intros k m Hk. apply elem_of_map_to_list in Hk.
    assert (E : map_to_list (blocks (after balanced).1) = [(0, BlockMeta.mk 4096 None None true)]) by (vm_compute; reflexivity).
    rewrite E in Hk. apply list_elem_of_singleton in Hk. now injection Hk as _ ->.
  - vm_compute. discriminate.
Defined.
