(* ===== verification/Leveling.v ===== *)
(** * Dependency order of runtime operations ([runtime/src/leveling.rs])

    The dependency graph of a schedule, its linear order and its waves, by
    Kahn's algorithm with a min-heap.  [None] is a panic (an index out of
    bounds or an underflow of a counter) or the lack of fuel: the theorems show
    that neither happens.  Errors are the reasons of [Error::Execution]. *)

From Stdlib Require Import Relations ListDec.
From stdpp Require Import gmap sorting.
From S2P Require Import Prelude.

Inductive Reason :=
| DepTableLength (nodes callable_deps : nat)
| IndexTableLength (nodes index_deps : nat)
| UnknownOp (node dep : Z)
| UnknownPriorOp (node dep : Z)
| UnknownIndex (node : Z) (index : nat)
| SelfIndex (node : Z) (index : nat)
| Cycle (blocked : list Z).

Record DependencyGraph := mkGraph {
  node_ids : list Z; in_degree : list nat; successors : list (list nat)
}.

(** [in_degree[idx] += 1; successors[dep_idx].push(idx)]. *)
Definition add_edge (idx dep_idx : nat) (g : DependencyGraph) : DependencyGraph :=
  mkGraph (node_ids g) (alter Datatypes.S idx (in_degree g)) (alter (fun s => s ++ [idx]) dep_idx (successors g)).

(** The callable ids of one node, resolved by [known]. *)
Fixpoint link (known : gmap Z nat) (unknown : Z -> Reason) (idx : nat) (deps : list Z) (g : DependencyGraph) :
    DependencyGraph + Reason :=
  match deps with
  | [] => inl g
  | dep :: deps =>
      match known !! dep with
      | None => inr (unknown dep)
      | Some dep_idx => link known unknown idx deps (add_edge idx dep_idx g)
      end
  end.

Fixpoint id_to_idx (idx : nat) (ids : list Z) : gmap Z nat -> gmap Z nat :=
  match ids with
  | [] => fun m => m
  | id :: ids => fun m => id_to_idx (Datatypes.S idx) ids (<[id := idx]> m)
  end.

(** Unique ids: any node may depend on any other. *)
Fixpoint link_unique (known : gmap Z nat) (idx : nat) (ids : list Z) (deps : list (list Z)) (g : DependencyGraph) :
    DependencyGraph + Reason :=
  match ids, deps with
  | id :: ids, ds :: deps =>
      let! g := link known (UnknownOp id) idx ds g in link_unique known (Datatypes.S idx) ids deps g
  | _, _ => inl g
  end.

(** Repeated ids: a node depends on the last earlier node of an id. *)
Fixpoint link_prior (last_seen : gmap Z nat) (idx : nat) (ids : list Z) (deps : list (list Z)) (g : DependencyGraph) :
    DependencyGraph + Reason :=
  match ids, deps with
  | id :: ids, ds :: deps =>
      let! g := link last_seen (UnknownPriorOp id) idx ds g in
      link_prior (<[id := idx]> last_seen) (Datatypes.S idx) ids deps g
  | _, _ => inl g
  end.

Fixpoint link_index (n : nat) (id : Z) (idx : nat) (deps : list nat) (g : DependencyGraph) : DependencyGraph + Reason :=
  match deps with
  | [] => inl g
  | dep_idx :: deps =>
      if (n <=? dep_idx)%nat then inr (UnknownIndex id dep_idx)
      else if (dep_idx =? idx)%nat then inr (SelfIndex id dep_idx)
      else link_index n id idx deps (add_edge idx dep_idx g)
  end.

Fixpoint link_indices (n idx : nat) (ids : list Z) (deps : list (list nat)) (g : DependencyGraph) :
    DependencyGraph + Reason :=
  match ids, deps with
  | id :: ids, ds :: deps =>
      let! g := link_index n id idx ds g in link_indices n (Datatypes.S idx) ids deps g
  | _, _ => inl g
  end.

Definition has_duplicate_ids (ids : list Z) : bool :=
  let id_counts := fold_left (fun (m : gmap Z nat) id => <[id := Datatypes.S (default 0%nat (m !! id))]> m) ids ∅ in
  existsb (fun kv : Z * nat => (1 <? snd kv)%nat) (map_to_list id_counts).

Definition build_topological_graph (ids : list Z) (callable_deps : list (list Z)) (index_deps : option (list (list nat))) :
    DependencyGraph + Reason :=
  let n := List.length ids in
  if negb (List.length callable_deps =? n)%nat then inr (DepTableLength n (List.length callable_deps))
  else
    let! tt :=
      match index_deps with
      | Some ix => if negb (List.length ix =? n)%nat then inr (IndexTableLength n (List.length ix)) else inl tt
      | None => inl tt
      end in
    let g := mkGraph ids (replicate n 0%nat) (replicate n []) in
    let! g :=
      if has_duplicate_ids ids then link_prior ∅ 0 ids callable_deps g
      else link_unique (id_to_idx 0 ids ∅) 0 ids callable_deps g in
    match index_deps with
    | Some ix => link_indices n 0 ids ix g
    | None => inl g
    end.

(** The blocked nodes of a cycle. *)
Definition cycle_error (in_degree : list nat) (ids : list Z) : option Reason :=
  let? blocked := collect (fun i => ids !! i)
    (map fst (filter (fun p : nat * nat => (0 < snd p)%nat) (imap pair in_degree))) in
  Some (Cycle blocked).

(** [BinaryHeap<Reverse<usize>>]: the least element is popped first. *)
Fixpoint push (i : nat) (heap : list nat) : list nat :=
  match heap with
  | [] => [i]
  | j :: rest => if (i <=? j)%nat then i :: heap else j :: push i rest
  end.

Definition initial_ready (in_degree : list nat) : list nat :=
  fold_left (fun heap p => if (snd p =? 0)%nat then push (fst p) heap else heap) (imap pair in_degree) [].

(** [in_degree[succ] -= 1], and the heap when it falls to zero. *)
Fixpoint release (succs : list nat) (deg : list nat) (heap : list nat) : option (list nat * list nat) :=
  match succs with
  | [] => Some (deg, heap)
  | s :: succs =>
      match deg !! s with
      | Some (Datatypes.S d) =>
          release succs (<[s := d]> deg) (if (d =? 0)%nat then push s heap else heap)
      | _ => None
      end
  end.

Fixpoint order_loop (fuel : nat) (succs : list (list nat)) (deg heap order : list nat) : option (list nat * list nat) :=
  match heap with
  | [] => Some (deg, order)
  | idx :: heap =>
      match fuel with
      | O => None
      | Datatypes.S fuel =>
          let? ss := succs !! idx in
          let? (deg, heap) := release ss deg heap in
          order_loop fuel succs deg heap (order ++ [idx])
      end
  end.

Definition compute_topological_order (ids : list Z) (callable_deps : list (list Z)) (index_deps : option (list (list nat))) :
    option (list nat + Reason) :=
  match build_topological_graph ids callable_deps index_deps with
  | inr e => Some (inr e)
  | inl g =>
      let? (deg, order) :=
        order_loop (List.length (node_ids g)) (successors g) (in_degree g) (initial_ready (in_degree g)) [] in
      if negb (List.length order =? List.length (node_ids g))%nat then
        let? e := cycle_error deg (node_ids g) in Some (inr e)
      else Some (inl order)
  end.

(** The loop over one level. *)
Fixpoint visit_level (succs : list (list nat)) (level : list nat) (deg next_ready : list nat) :
    option (list nat * list nat) :=
  match level with
  | [] => Some (deg, next_ready)
  | idx :: level =>
      let? ss := succs !! idx in
      let? (deg, next_ready) := release ss deg next_ready in
      visit_level succs level deg next_ready
  end.

Fixpoint levels_loop (fuel : nat) (succs : list (list nat)) (deg ready : list nat) (levels : list (list nat)) (visited : nat) :
    option (list nat * list (list nat) * nat) :=
  match ready with
  | [] => Some (deg, levels, visited)
  | _ =>
      match fuel with
      | O => None
      | Datatypes.S fuel =>
          let? (deg, next_ready) := visit_level succs ready deg [] in
          levels_loop fuel succs deg next_ready (levels ++ [ready]) (visited + List.length ready)
      end
  end.

Definition compute_topological_levels (ids : list Z) (callable_deps : list (list Z)) (index_deps : option (list (list nat))) :
    option (list (list nat) + Reason) :=
  match build_topological_graph ids callable_deps index_deps with
  | inr e => Some (inr e)
  | inl g =>
      let? (deg, levels, visited) :=
        levels_loop (List.length (node_ids g)) (successors g) (in_degree g) (initial_ready (in_degree g)) [] 0 in
      if negb (visited =? List.length (node_ids g))%nat then
        let? e := cycle_error deg (node_ids g) in Some (inr e)
      else Some (inl levels)
  end.

Example levels_diamond :
  compute_topological_levels [10; 11; 12; 13] [[]; [10]; [10]; [11; 12]] (Some [[]; []; [1%nat]; []]) =
  Some (inl [[0%nat]; [1%nat]; [2%nat]; [3%nat]]).
Proof. vm_compute. reflexivity. Qed.

Example order_cycle :
  compute_topological_order [10; 11; 12] [[]; [12]; [11]] None = Some (inr (Cycle [11; 12])).
Proof. vm_compute. reflexivity. Qed.

(** ** What a node depends on *)

(** The node an id refers to, seen from node [i]. *)
Definition resolves (ids : list Z) (i : nat) (dep : Z) (d : nat) : Prop :=
  ids !! d = Some dep /\
  (List.NoDup ids \/ (~ List.NoDup ids /\ (d < i)%nat /\ forall j, (d < j < i)%nat -> ids !! j <> Some dep)).

Definition depends (ids : list Z) (callable_deps : list (list Z)) (index_deps : option (list (list nat)))
    (d i : nat) : Prop :=
  (exists ds dep, callable_deps !! i = Some ds /\ In dep ds /\ resolves ids i dep d) \/
  (exists ix ds, index_deps = Some ix /\ ix !! i = Some ds /\ In d ds).

Definition well_formed (ids : list Z) (callable_deps : list (list Z)) (index_deps : option (list (list nat))) : Prop :=
  List.length callable_deps = List.length ids /\
  (forall ix, index_deps = Some ix -> List.length ix = List.length ids) /\
  (forall i ds dep, callable_deps !! i = Some ds -> In dep ds -> exists d, resolves ids i dep d) /\
  (forall ix i ds d, index_deps = Some ix -> ix !! i = Some ds -> In d ds -> (d < List.length ids)%nat /\ d <> i).

Abbreviation edge := (nat * nat)%type.
Definition add_edges (E : list edge) (g : DependencyGraph) : DependencyGraph :=
  fold_left (fun g e => add_edge e.2 e.1 g) E g.

Definition ok {A E} (r : A + E) : option A := match r with inl a => Some a | inr _ => None end.

(** The three loops, with the resolution of a dependency abstracted. *)
Section Link.
Context {D : Type} (res : nat -> D -> option nat).

Definition to_edges (i : nat) (l : list nat) : list edge := map (fun d => (d, i)) l.

Fixpoint link_gen (idx : nat) (deps : list (list D)) (g : DependencyGraph) : option DependencyGraph :=
  match deps with
  | [] => Some g
  | ds :: deps =>
      let? l := collect (res idx) ds in link_gen (Datatypes.S idx) deps (add_edges (to_edges idx l) g)
  end.

Definition resolved (idx : nat) (deps : list (list D)) : Prop :=
  forall k ds dep, deps !! k = Some ds -> In dep ds -> res (idx + k) dep <> None.

Definition edges_are (idx : nat) (deps : list (list D)) (E : list edge) : Prop :=
  forall d i, In (d, i) E <->
    exists k ds dep, i = (idx + k)%nat /\ deps !! k = Some ds /\ In dep ds /\ res i dep = Some d.

Lemma link_gen_spec idx deps g :
  match link_gen idx deps g with
  | Some g' => resolved idx deps /\ exists E, g' = add_edges E g /\ edges_are idx deps E
  | None => ~ resolved idx deps
  end.
Proof.
  revert idx g. induction deps as [| ds deps IH]; intros idx g; cbn [link_gen].
  { split; [intros [] ? ? [=] |]. exists []. split; [reflexivity |]. intros d i. split; [intros [] |].
    intros (k & ds & dep & _ & H & _). destruct k; discriminate. }
  destruct (collect (res idx) ds) as [l |] eqn:El.
  2:{ apply collect_None in El as (dep & Hin & Hd). intros H. apply (H 0%nat ds dep eq_refl Hin). now rewrite Nat.add_0_r. }
  apply collect_Some in El.
  assert (Hl : forall d, In d l <-> exists dep, In dep ds /\ res idx dep = Some d).
  { intros d. clear -El. induction El as [| dep d0 ds l Hd _ IHl]; cbn.
    - split; [intros [] | intros (? & [] & _)].
    - rewrite IHl. split.
      + intros [-> | (x & H1 & H2)]; eauto.
      + intros (x & [<- | H1] & H2); [left; congruence | eauto]. }
  assert (Hres : forall dep, In dep ds -> res idx dep <> None).
  { intros dep Hin. clear -El Hin. induction El as [| a b ds l Ha _ IHl]; [destruct Hin |].
    destruct Hin as [<- | Hin]; [congruence | now apply IHl]. }
  specialize (IH (Datatypes.S idx) (add_edges (to_edges idx l) g)). destruct (link_gen _ deps _) as [g' |].
  - destruct IH as [IHr (E & -> & HE)]. split.
    + intros [| k] ds' dep; cbn; [intros [= <-]; rewrite Nat.add_0_r; apply Hres |].
      rewrite Nat.add_succ_r. apply IHr.
    + exists (to_edges idx l ++ E). split; [unfold add_edges; now rewrite fold_left_app |].
      intros d i. rewrite in_app_iff, (HE d i). unfold to_edges. rewrite in_map_iff. split.
      * intros [(d0 & [= <- <-] & Hd) | (k & ds' & dep & -> & H2 & H3)].
        -- apply Hl in Hd as (dep & H1 & H2). exists 0%nat, ds, dep. rewrite Nat.add_0_r. auto.
        -- exists (Datatypes.S k), ds', dep. rewrite Nat.add_succ_r. auto.
      * intros ([| k] & ds' & dep & -> & H2 & H3).
        -- rewrite Nat.add_0_r in *. injection H2 as <-. left. exists d. split; [reflexivity |]. apply Hl. eauto.
        -- right. exists k, ds', dep. rewrite Nat.add_succ_r in *. auto.
  - intros H. apply IH. intros k ds' dep Hk Hin. cbn. rewrite <- Nat.add_succ_r. now apply (H (Datatypes.S k) ds' dep).
Qed.
End Link.

Lemma link_collect known unknown idx deps g :
  ok (link known unknown idx deps g) =
  (let? l := collect (fun dep => known !! dep) deps in Some (add_edges (to_edges idx l) g)).
Proof.
  revert g. induction deps as [| dep deps IH]; intros g; cbn [link collect]; [reflexivity |].
  destruct (known !! dep) as [d |]; [| reflexivity]. rewrite IH.
  destruct (collect _ deps); reflexivity.
Qed.

(** The last index of every id of a prefix. *)
Definition seen (l : list Z) : gmap Z nat := id_to_idx 0 l ∅.

Lemma id_to_idx_snoc k l x m : id_to_idx k (l ++ [x]) m = <[x := (k + List.length l)%nat]> (id_to_idx k l m).
Proof.
  revert k m. induction l as [| y l IH]; intros k m; cbn [app id_to_idx List.length].
  - now rewrite Nat.add_0_r.
  - rewrite IH. f_equal. lia.
Qed.

Lemma seen_snoc l x : seen (l ++ [x]) = <[x := List.length l]> (seen l).
Proof. apply id_to_idx_snoc. Qed.

Lemma seen_lookup l id d :
  seen l !! id = Some d <-> l !! d = Some id /\ forall j, (d < j)%nat -> l !! j <> Some id.
Proof.
  revert d. induction l as [| x l IH] using rev_ind; intros d.
  { split; [intros [=] | intros [[=] _]]. }
  rewrite seen_snoc. destruct (decide (x = id)) as [-> | Hne].
  - rewrite lookup_insert_eq. split.
    + intros [= <-]. split; [now rewrite lookup_app_r, Nat.sub_diag by lia |].
      intros j Hj Hl. apply lookup_lt_Some in Hl. rewrite length_app in Hl. cbn in Hl. lia.
    + intros [H1 H2]. destruct (decide (d = List.length l)) as [-> | Hd]; [reflexivity | exfalso].
      pose proof (lookup_lt_Some _ _ _ H1) as Hlt. rewrite length_app in Hlt. cbn in Hlt.
      apply (H2 (List.length l)); [lia |]. now rewrite lookup_app_r, Nat.sub_diag by lia.
  - rewrite lookup_insert_ne by exact Hne. rewrite IH.
    assert (Hiff : forall j, (l ++ [x]) !! j = Some id <-> l !! j = Some id).
    { intros j. rewrite lookup_app. destruct (l !! j) eqn:E; [reflexivity |].
      destruct (j - List.length l)%nat as [| n]; cbn; [split; congruence |]. destruct n; cbn; split; congruence. }
    setoid_rewrite Hiff. reflexivity.
Qed.

Lemma link_unique_gen known idx ids deps g :
  List.length deps = List.length ids ->
  ok (link_unique known idx ids deps g) = link_gen (fun _ dep => known !! dep) idx deps g.
Proof.
  revert idx deps g. induction ids as [| id ids IH]; intros idx [| ds deps] g Hl; try discriminate; [reflexivity |].
  cbn [link_unique link_gen]. pose proof (link_collect known (UnknownOp id) idx ds g) as E.
  destruct (link known (UnknownOp id) idx ds g) as [g1 |]; cbn [ok] in *;
    destruct (collect _ ds); try discriminate; [injection E as -> | reflexivity].
  apply IH. cbn in Hl. lia.
Qed.

Lemma link_prior_gen pre ids deps g :
  List.length deps = List.length ids ->
  ok (link_prior (seen pre) (List.length pre) ids deps g) =
  link_gen (fun i dep => seen (take i (pre ++ ids)) !! dep) (List.length pre) deps g.
Proof.
  revert pre deps g. induction ids as [| id ids IH]; intros pre [| ds deps] g Hl; try discriminate; [reflexivity |].
  cbn [link_prior link_gen]. rewrite take_app_length.
  pose proof (link_collect (seen pre) (UnknownPriorOp id) (List.length pre) ds g) as E.
  destruct (link (seen pre) (UnknownPriorOp id) _ ds g) as [g1 |]; cbn [ok] in *;
    destruct (collect _ ds); try discriminate; [injection E as -> | reflexivity].
  rewrite <- seen_snoc. specialize (IH (pre ++ [id]) deps (add_edges (to_edges (List.length pre) l) g)).
  rewrite length_app in IH. cbn [List.length] in IH. rewrite Nat.add_1_r, <- app_assoc in IH. apply IH. cbn in Hl. lia.
Qed.

Definition index_res (n i d : nat) : option nat :=
  if (n <=? d)%nat then None else if (d =? i)%nat then None else Some d.

Lemma link_indices_gen n idx ids deps g :
  List.length deps = List.length ids ->
  ok (link_indices n idx ids deps g) = link_gen (index_res n) idx deps g.
Proof.
  revert idx deps g. induction ids as [| id ids IH]; intros idx [| ds deps] g Hl; try discriminate; [reflexivity |].
  cbn [link_indices link_gen].
  assert (E : ok (link_index n id idx ds g) =
    (let? l := collect (index_res n idx) ds in Some (add_edges (to_edges idx l) g))).
  { clear. revert g. induction ds as [| d ds IH]; intros g; cbn [link_index collect]; [reflexivity |].
    unfold index_res at 1. destruct (n <=? d)%nat; [reflexivity |]. destruct (d =? idx)%nat; [reflexivity |].
    rewrite IH. destruct (collect _ ds); reflexivity. }
  destruct (link_index n id idx ds g) as [g1 |]; cbn [ok] in *;
    destruct (collect _ ds); try discriminate; [injection E as -> | reflexivity].
  apply IH. cbn in Hl. lia.
Qed.

(** ** The graph that is built *)
Definition id_counts (ids : list Z) : gmap Z nat :=
  fold_left (fun (m : gmap Z nat) id => <[id := Datatypes.S (default 0%nat (m !! id))]> m) ids ∅.

Lemma id_counts_lookup ids x : default 0%nat (id_counts ids !! x) = count_occ Z.eq_dec ids x.
Proof.
  induction ids as [| y ids IH] using rev_ind; [reflexivity |].
  unfold id_counts in *. rewrite fold_left_app, count_occ_app. cbn. destruct (Z.eq_dec y x) as [-> | Hne].
  - rewrite lookup_insert_eq, IH. cbn. lia.
  - rewrite lookup_insert_ne, IH by exact Hne. lia.
Qed.

Lemma has_duplicate_ids_spec ids : has_duplicate_ids ids = false <-> List.NoDup ids.
Proof.
  rewrite (NoDup_count_occ Z.eq_dec). unfold has_duplicate_ids. fold (id_counts ids). split.
  - intros H x. rewrite <- id_counts_lookup. destruct (id_counts ids !! x) as [c |] eqn:E; cbn; [| lia].
    destruct (1 <? c)%nat eqn:Ec; [| apply Nat.ltb_ge in Ec; lia]. exfalso.
    assert (existsb (fun kv : Z * nat => (1 <? kv.2)%nat) (map_to_list (id_counts ids)) = true); [| congruence].
    apply existsb_exists. exists (x, c). split; [now apply list_elem_of_In, elem_of_map_to_list | exact Ec].
  - intros H. destruct (existsb _ _) eqn:E; [| reflexivity]. apply existsb_exists in E as ([x c] & Hin & Hc).
    rewrite <- list_elem_of_In in Hin. apply elem_of_map_to_list in Hin. cbn [snd] in Hc. apply Nat.ltb_lt in Hc.
    specialize (H x). rewrite <- id_counts_lookup, Hin in H. cbn in H. lia.
Qed.

Lemma nodup_lookup_inj (ids : list Z) i j x : List.NoDup ids -> ids !! i = Some x -> ids !! j = Some x -> i = j.
Proof. intros N. apply NoDup_lookup, NoDup_ListNoDup, N. Qed.

Lemma seen_resolves_unique ids i dep d : List.NoDup ids -> seen ids !! dep = Some d <-> resolves ids i dep d.
Proof.
  intros N. rewrite seen_lookup. unfold resolves. split; intros [H1 H2]; split; auto.
  intros j Hj Hl. pose proof (nodup_lookup_inj _ _ _ _ N H1 Hl). lia.
Qed.

Lemma seen_resolves_prior ids i dep d :
  (i <= List.length ids)%nat -> ~ List.NoDup ids -> seen (take i ids) !! dep = Some d <-> resolves ids i dep d.
Proof.
  intros Hi N. rewrite seen_lookup. unfold resolves. split.
  - intros [H1 H2]. apply lookup_take_Some in H1 as [H1 Hd]. split; [exact H1 |]. right. split; [exact N |].
    split; [exact Hd |]. intros j Hj. rewrite <- (lookup_take_lt _ i) by lia. apply H2. lia.
  - intros [H1 [H2 | (_ & Hd & H2)]]; [contradiction |]. rewrite lookup_take_lt by lia. split; [exact H1 |].
    intros j Hj Hl. apply lookup_take_Some in Hl as [Hl Hji]. exact (H2 j ltac:(lia) Hl).
Qed.

Lemma option_not_None {A} (o : option A) : o <> None <-> exists a, o = Some a.
Proof. destruct o; split; [eauto | discriminate | contradiction | intros (? & [=])]. Qed.

(** The edges and degrees of a graph of [n] nodes. *)
Definition in_edges (E : list edge) (i : nat) : list edge := filter (fun e => e.2 = i) E.
Definition out_edges (E : list edge) (d : nat) : list nat := map snd (filter (fun e => e.1 = d) E).

Record of_edges (n : nat) (E : list edge) (g : DependencyGraph) : Prop := {
  oe_range d i : In (d, i) E -> (d < n)%nat /\ (i < n)%nat;
  oe_deg_length : List.length (in_degree g) = n;
  oe_deg i : (i < n)%nat -> in_degree g !! i = Some (List.length (in_edges E i));
  oe_succ d : (d < n)%nat -> successors g !! d = Some (out_edges E d)
}.

Lemma of_edges_nil n ids : of_edges n [] (mkGraph ids (replicate n 0%nat) (replicate n [])).
Proof.
  split; cbn; [intros ? ? [] | apply length_replicate | |]; intros; now apply lookup_replicate.
Qed.

Lemma of_edges_add n E g d i :
  (d < n)%nat -> (i < n)%nat -> of_edges n E g -> of_edges n (E ++ [(d, i)]) (add_edge i d g).
Proof.
  intros Hd Hi [H1 H2 H3 H4]. split; cbn [add_edge in_degree successors].
  - intros d0 i0. rewrite in_app_iff. intros [H | [[= <- <-] | []]]; auto.
  - now rewrite length_alter.
  - intros j Hj. unfold in_edges. rewrite filter_app, length_app. destruct (decide (i = j)) as [-> | Hne].
    + rewrite list_lookup_alter_eq, H3, filter_cons_True, filter_nil by (reflexivity || assumption). cbn [List.length fmap option_fmap option_map].
      f_equal. unfold in_edges. lia.
    + rewrite list_lookup_alter_ne, H3, filter_cons_False, filter_nil by (assumption || (cbn; congruence)). cbn [List.length].
      f_equal. unfold in_edges. lia.
  - intros j Hj. unfold out_edges. rewrite filter_app, map_app. destruct (decide (d = j)) as [-> | Hne].
    + rewrite list_lookup_alter_eq, H4, filter_cons_True by (reflexivity || assumption). reflexivity.
    + rewrite list_lookup_alter_ne, H4, filter_cons_False by (assumption || (cbn; congruence)). cbn. now rewrite app_nil_r.
Qed.

Lemma of_edges_adds n E1 E g :
  (forall d i, In (d, i) E -> (d < n)%nat /\ (i < n)%nat) ->
  of_edges n E1 g -> of_edges n (E1 ++ E) (add_edges E g).
Proof.
  revert E1 g. induction E as [| [d i] E IH]; intros E1 g HE Hg; [now rewrite app_nil_r |].
  change (E1 ++ (d, i) :: E) with (E1 ++ [(d, i)] ++ E). rewrite app_assoc. apply IH.
  - intros d0 i0 Hin. apply HE. now right.
  - destruct (HE d i ltac:(now left)). now apply of_edges_add.
Qed.

Lemma add_edges_ids E g : node_ids (add_edges E g) = node_ids g.
Proof. revert g. induction E as [| e E IH]; intros g; [reflexivity |]. cbn. unfold add_edges in IH. now rewrite IH. Qed.

(** The callable ids, in either mode. *)
Lemma callable_loop ids deps g :
  List.length deps = List.length ids ->
  let r := if has_duplicate_ids ids then link_prior ∅ 0 ids deps g else link_unique (id_to_idx 0 ids ∅) 0 ids deps g in
  let wf := forall i ds dep, deps !! i = Some ds -> In dep ds -> exists d, resolves ids i dep d in
  match ok r with
  | Some g' => wf /\ exists E, g' = add_edges E g /\
      forall d i, In (d, i) E <-> exists ds dep, deps !! i = Some ds /\ In dep ds /\ resolves ids i dep d
  | None => ~ wf
  end.
Proof.
  intros Hl r wf. set (res := fun i dep => if has_duplicate_ids ids then seen (take i ids) !! dep else seen ids !! dep).
  assert (E : ok r = link_gen res 0 deps g).
  { subst r res. destruct (has_duplicate_ids ids); [exact (link_prior_gen [] ids deps g Hl) | now apply link_unique_gen]. }
  assert (Hres : forall i dep d, (i < List.length ids)%nat -> res i dep = Some d <-> resolves ids i dep d).
  { intros i dep d Hi. subst res. cbn. destruct (has_duplicate_ids ids) eqn:Ed.
    - apply seen_resolves_prior; [lia |]. rewrite <- has_duplicate_ids_spec. congruence.
    - now apply seen_resolves_unique, has_duplicate_ids_spec. }
  assert (Hwf : wf <-> resolved res 0 deps).
  { subst wf. unfold resolved. split; intros H i ds dep Hi Hin; pose proof (lookup_lt_Some _ _ _ Hi);
      specialize (H i ds dep Hi Hin); cbn in *.
    - apply option_not_None. destruct H as [d H]. exists d. apply Hres; [lia | exact H].
    - apply option_not_None in H as [d H]. exists d. apply Hres in H; [exact H | lia]. }
  rewrite E. pose proof (link_gen_spec res 0 deps g) as HS. destruct (link_gen res 0 deps g) as [g' |].
  - destruct HS as [HS (El & -> & HE)]. split; [now apply Hwf |]. exists El. split; [reflexivity |].
    intros d i. rewrite (HE d i). split.
    + intros (k & ds & dep & -> & H1 & H2 & H3). pose proof (lookup_lt_Some _ _ _ H1). cbn in *.
      exists ds, dep. rewrite <- Hres by lia. auto.
    + intros (ds & dep & H1 & H2 & H3). pose proof (lookup_lt_Some _ _ _ H1).
      exists i, ds, dep. rewrite Hres by lia. auto.
  - now rewrite Hwf.
Qed.

Lemma index_loop n ids ix g :
  List.length ix = List.length ids ->
  let wf := forall i ds d, ix !! i = Some ds -> In d ds -> (d < n)%nat /\ d <> i in
  match ok (link_indices n 0 ids ix g) with
  | Some g' => wf /\ exists E, g' = add_edges E g /\
      forall d i, In (d, i) E <-> exists ds, ix !! i = Some ds /\ In d ds
  | None => ~ wf
  end.
Proof.
  intros Hl wf. rewrite (link_indices_gen n 0 ids ix g Hl).
  assert (Hres : forall i d, index_res n i d <> None <-> (d < n)%nat /\ d <> i).
  { intros i d. unfold index_res. destruct (Nat.leb_spec n d); [split; [contradiction | lia] |].
    destruct (Nat.eqb_spec d i); [split; [contradiction | lia] | split; [lia | discriminate]]. }
  assert (Hval : forall i d d', index_res n i d = Some d' -> d' = d).
  { intros i d d'. unfold index_res. destruct (_ <=? _)%nat; [discriminate |]. destruct (_ =? _)%nat; [discriminate |]. congruence. }
  assert (Hwf : wf <-> resolved (index_res n) 0 ix).
  { subst wf. unfold resolved. split; intros H i ds d Hi Hin; specialize (H i ds d Hi Hin); cbn in *; now apply Hres. }
  pose proof (link_gen_spec (index_res n) 0 ix g) as HS. destruct (link_gen _ 0 ix g) as [g' |].
  - destruct HS as [HS (El & -> & HE)]. split; [now apply Hwf |]. exists El. split; [reflexivity |].
    intros d i. rewrite (HE d i). split.
    + intros (k & ds & dep & -> & H1 & H2 & H3). pose proof (Hval _ _ _ H3) as ->. eauto.
    + intros (ds & H1 & H2). exists i, ds, d. do 3 (split; [easy |]).
      pose proof (HS i ds d H1 H2) as Hn. cbn in Hn. destruct (index_res n i d) as [d' |] eqn:Ed; [| contradiction].
      f_equal. exact (Hval _ _ _ Ed).
  - now rewrite Hwf.
Qed.

Lemma resolves_lt ids i dep d : resolves ids i dep d -> (d < List.length ids)%nat.
Proof. intros [H _]. now apply lookup_lt_Some in H. Qed.

(** The graph is built exactly for well-formed tables, and has the edges the
    tables describe. *)
Lemma build_spec ids deps ix :
  match build_topological_graph ids deps ix with
  | inl g => well_formed ids deps ix /\ node_ids g = ids /\
      exists E, of_edges (List.length ids) E g /\ forall d i, In (d, i) E <-> depends ids deps ix d i
  | inr _ => ~ well_formed ids deps ix
  end.
Proof.
  unfold build_topological_graph. destruct (Nat.eqb_spec (List.length deps) (List.length ids)) as [Hl | Hl]; cbn [negb].
  2:{ intros [H _]. contradiction. }
  set (r := match ix with Some i => if negb _ then _ else _ | None => _ end).
  assert (Hr : match r with inl _ => forall i, ix = Some i -> List.length i = List.length ids
               | inr _ => exists i, ix = Some i /\ List.length i <> List.length ids end).
  { subst r. destruct ix as [i |]; [| congruence].
    destruct (Nat.eqb_spec (List.length i) (List.length ids)); cbn; [congruence | eauto]. }
  destruct r as [[] | e]; [| intros (_ & H & _); destruct Hr as (i & -> & Hi); now apply Hi, H].
  set (n := List.length ids) in *. set (g0 := mkGraph ids (replicate n 0%nat) (replicate n [])).
  pose proof (callable_loop ids deps g0 Hl) as Hc. cbn zeta in Hc.
  destruct (if has_duplicate_ids ids then link_prior _ _ _ _ _ else _) as [g1 | e]; cbn [ok] in Hc;
    [| intros (_ & _ & H & _); contradiction].
  destruct Hc as [Hwf (E1 & -> & HE1)].
  assert (HR1 : forall d i, In (d, i) E1 -> (d < n)%nat /\ (i < n)%nat).
  { intros d i H. apply HE1 in H as (ds & dep & Hi & _ & H). apply resolves_lt in H. apply lookup_lt_Some in Hi. lia. }
  pose proof (of_edges_adds n [] E1 g0 HR1 (of_edges_nil n ids)) as G1. cbn [app] in G1.
  destruct ix as [ix |].
  - specialize (Hr ix eq_refl). pose proof (index_loop n ids ix (add_edges E1 g0) Hr) as Hix. cbn zeta in Hix.
    destruct (link_indices n 0 ids ix _) as [g2 | e]; cbn [ok] in Hix.
    + destruct Hix as [Hwf2 (E2 & -> & HE2)]. split.
      { split; [exact Hl |]. split; [now intros ? [= <-] |]. split; [exact Hwf |].
        intros ix' i ds d [= <-]. apply Hwf2. }
      split; [now rewrite !add_edges_ids |]. exists (E1 ++ E2). split.
      * apply of_edges_adds; [| exact G1]. intros d i H. apply HE2 in H as (ds & Hi & H).
        pose proof (lookup_lt_Some _ _ _ Hi). destruct (Hwf2 _ _ _ Hi H). lia.
      * intros d i. rewrite in_app_iff, HE1, HE2. unfold depends. split; (intros [H | H]; [now left | right]).
        -- destruct H as (ds & H). now exists ix, ds.
        -- destruct H as (ix' & ds & [= <-] & H). now exists ds.
    + intros (_ & _ & _ & H). apply Hix. intros i ds d. now apply (H ix).
  - split; [| split; [now rewrite add_edges_ids |]].
    + split; [exact Hl |]. split; [discriminate |]. split; [exact Hwf | discriminate].
    + exists E1. split; [exact G1 |]. intros d i. rewrite HE1. unfold depends. split; [now left |].
      intros [H | (? & ? & [=] & _)]. exact H.
Qed.

(** ** Kahn's algorithm *)
Abbreviation increasing := (StronglySorted lt).

Lemma push_in i heap x : In x (push i heap) <-> x = i \/ In x heap.
Proof.
  induction heap as [| j heap IH]; cbn; [intuition |]. destruct (i <=? j)%nat; cbn; [intuition |]. rewrite IH. intuition.
Qed.

Lemma push_increasing i heap : increasing heap -> ~ In i heap -> increasing (push i heap).
Proof.
  induction 1 as [| j heap Hs IH Hj]; cbn; intros Hi; [repeat constructor |].
  destruct (Nat.leb_spec i j) as [Hle | Hgt].
  - assert (i < j)%nat by (assert (j <> i) by tauto; lia).
    constructor; [now constructor |]. constructor; [assumption |]. eapply List.Forall_impl; [| exact Hj]. cbn. lia.
  - constructor; [now apply IH; tauto |]. apply List.Forall_forall. intros x [-> | Hx]%push_in; [exact Hgt |].
    rewrite List.Forall_forall in Hj. now apply Hj.
Qed.

Lemma increasing_nodup l : increasing l -> List.NoDup l.
Proof.
  induction 1 as [| i l _ IH Hi]; constructor; [| exact IH]. intros Hin. rewrite List.Forall_forall in Hi.
  specialize (Hi i Hin). lia.
Qed.

Lemma nodup_disjoint {A} (l k : list A) x : List.NoDup (l ++ k) -> In x l -> In x k -> False.
Proof.
  induction l as [| y l IH]; [intros _ [] |]. cbn. intros [Hy N]%List.NoDup_cons_iff [-> | Hl] Hk; [| now apply IH].
  apply Hy, in_app_iff. now right.
Qed.

Section Kahn.
Context (n : nat) (E : list edge) (succs : list (list nat)).
Context (Hrange : forall d i, In (d, i) E -> (d < n)%nat /\ (i < n)%nat).
Context (Hsucc : forall d, (d < n)%nat -> succs !! d = Some (out_edges E d)).

(** Edges into [i] from outside [D]. *)
Definition indeg (D : list nat) (i : nat) : nat := List.length (filter (fun e => e.2 = i /\ e.1 ∉ D) E).

Lemma indeg_zero D i : indeg D i = 0%nat <-> forall d, In (d, i) E -> In d D.
Proof.
  unfold indeg. split.
  - intros H d Hd. destruct (decide (d ∈ D)) as [Hin | Hout]; [now apply list_elem_of_In |]. exfalso.
    apply nil_length_inv in H. assert (Hf : (d, i) ∈ filter (fun e => e.2 = i /\ e.1 ∉ D) E)
      by (apply list_elem_of_filter; split; [now split | now apply list_elem_of_In]).
    rewrite H in Hf. now apply not_elem_of_nil in Hf.
  - intros H. destruct (filter _ E) as [| [d j] l] eqn:Ef; [reflexivity | exfalso].
    assert (Hf : (d, j) ∈ filter (fun e => e.2 = i /\ e.1 ∉ D) E) by (rewrite Ef; left).
    apply list_elem_of_filter in Hf as [[<- Hf] Hin]. rewrite list_elem_of_In in Hin. cbn in *.
    apply Hf, list_elem_of_In, H, Hin.
Qed.

Lemma indeg_snoc D idx i :
  ~ In idx D -> indeg D i = (indeg (D ++ [idx]) i + count_occ Nat.eq_dec (out_edges E idx) i)%nat.
Proof.
  intros Hidx. unfold indeg, out_edges. clear Hrange Hsucc. rewrite <- list_elem_of_In in Hidx.
  induction E as [| [d j] l IH]; [reflexivity |]. rewrite !filter_cons.
  assert (Hsnoc : d ∈ D ++ [idx] <-> d ∈ D \/ d = idx) by (rewrite elem_of_app, list_elem_of_singleton; reflexivity).
  destruct (decide (j = i)) as [-> | Hj].
  - destruct (decide (d ∈ D)) as [Hd | Hd]; [| destruct (decide (d = idx)) as [-> | Hne]].
    + rewrite (decide_False (P := i = i /\ d ∉ D)), (decide_False (P := i = i /\ d ∉ D ++ [idx])), (decide_False (P := d = idx))
        by (cbn; (tauto || congruence)). exact IH.
    + rewrite (decide_True (P := i = i /\ idx ∉ D)), (decide_False (P := i = i /\ idx ∉ D ++ [idx])), (decide_True (P := idx = idx))
        by (cbn; tauto). cbn [map snd List.length]. rewrite count_occ_cons_eq by reflexivity. lia.
    + rewrite (decide_True (P := i = i /\ d ∉ D)), (decide_True (P := i = i /\ d ∉ D ++ [idx])), (decide_False (P := d = idx))
        by (cbn; tauto). cbn [List.length]. lia.
  - rewrite (decide_False (P := j = i /\ d ∉ D)), (decide_False (P := j = i /\ d ∉ D ++ [idx])) by (cbn; tauto).
    destruct (decide (d = idx)) as [-> | Hne].
    + rewrite (decide_True (P := idx = idx)) by reflexivity. cbn [map snd]. now rewrite count_occ_cons_neq by exact Hj.
    + now rewrite (decide_False (P := d = idx)) by exact Hne.
Qed.

(** The counters after the nodes [D]. *)
Record counted (D deg : list nat) : Prop := {
  ct_length : List.length deg = n;
  ct_deg i : (i < n)%nat -> deg !! i = Some (indeg D i);
  ct_nodup : List.NoDup D;
  ct_range i : In i D -> (i < n)%nat;
  ct_closed d i : In (d, i) E -> In i D -> In d D
}.

(** The nodes whose predecessors are all in [D]. *)
Definition pending (D P : list nat) : Prop :=
  List.NoDup P /\ forall i, In i P <-> (i < n)%nat /\ ~ In i D /\ indeg D i = 0%nat.

Lemma release_ok ss deg heap c :
  List.length deg = n -> (forall i, (i < n)%nat -> deg !! i = Some (c i + count_occ Nat.eq_dec ss i)%nat) ->
  (forall s, In s ss -> (s < n)%nat) -> increasing heap -> (forall i, In i heap -> ~ In i ss) ->
  exists deg' heap', release ss deg heap = Some (deg', heap') /\ List.length deg' = n /\
    (forall i, (i < n)%nat -> deg' !! i = Some (c i)) /\ increasing heap' /\
    forall i, In i heap' <-> In i heap \/ (In i ss /\ c i = 0%nat).
Proof.
  revert deg heap. induction ss as [| s ss IH]; intros deg heap Hl Hd Hss Hh Hdis.
  - exists deg, heap. split; [reflexivity |]. split; [exact Hl |]. split.
    + intros i Hi. rewrite (Hd i Hi). cbn. now rewrite Nat.add_0_r.
    + split; [exact Hh |]. intros i. cbn. tauto.
  - pose proof (Hss s ltac:(now left)) as Hs. cbn [release]. rewrite (Hd s Hs), count_occ_cons_eq, Nat.add_succ_r by reflexivity.
    destruct (IH (<[s := (c s + count_occ Nat.eq_dec ss s)%nat]> deg)
                 (if (c s + count_occ Nat.eq_dec ss s =? 0)%nat then push s heap else heap)) as (deg' & heap' & -> & H1 & H2 & H3 & H4).
    + now rewrite length_insert.
    + intros i Hi. destruct (decide (s = i)) as [<- | Hne].
      * rewrite list_lookup_insert_eq by lia. reflexivity.
      * rewrite list_lookup_insert_ne, (Hd i Hi), count_occ_cons_neq by assumption. reflexivity.
    + intros i Hi. apply Hss. now right.
    + destruct (_ =? 0)%nat; [| exact Hh]. apply push_increasing; [exact Hh |]. intros Hin. apply (Hdis s Hin). now left.
    + intros i Hi Hin. destruct (Nat.eqb_spec (c s + count_occ Nat.eq_dec ss s) 0) as [Hz | Hz].
      * apply push_in in Hi as [-> | Hi]; [| apply (Hdis i Hi); now right].
        apply (count_occ_In Nat.eq_dec) in Hin. lia.
      * apply (Hdis i Hi). now right.
    + exists deg', heap'. split; [reflexivity |]. do 3 (split; [assumption |]). intros i. rewrite H4. cbn [In].
      destruct (Nat.eqb_spec (c s + count_occ Nat.eq_dec ss s) 0) as [Hz | Hz]; [rewrite push_in |].
      * assert (Hs0 : c s = 0%nat) by lia. split.
        -- intros [[-> | H] | H]; [right; split; [now left | exact Hs0] | now left | right; tauto].
        -- intros [H | [[<- | H] H0]]; tauto.
      * split; [tauto |]. intros [H | [[<- | H] H0]]; [tauto | | tauto].
        right. split; [| assumption]. apply (count_occ_In Nat.eq_dec). lia.
Qed.

Lemma in_out_edges d i : In i (out_edges E d) <-> In (d, i) E.
Proof.
  unfold out_edges. rewrite in_map_iff. split.
  - intros ([d' j] & <- & H). rewrite <- list_elem_of_In in H. apply list_elem_of_filter in H as [<- H]. now apply list_elem_of_In.
  - intros H. exists (d, i). split; [reflexivity |]. apply list_elem_of_In, list_elem_of_filter. split; [reflexivity |].
    now apply list_elem_of_In.
Qed.

(** Visiting one node that is ready; [rest] are ready nodes outside the heap. *)
Lemma visit_step D deg idx rest heap :
  counted D deg -> pending D (idx :: rest ++ heap) -> increasing heap ->
  exists ss deg' heap', succs !! idx = Some ss /\ release ss deg heap = Some (deg', heap') /\
    counted (D ++ [idx]) deg' /\ pending (D ++ [idx]) (rest ++ heap') /\ increasing heap' /\
    (idx < n)%nat /\ (forall d, In (d, idx) E -> In d D).
Proof using Hrange Hsucc.
  intros C [NP HP] Hh. pose proof C as [H1 H2 H3 H4 H5].
  destruct (proj1 (HP idx) ltac:(now left)) as (Hn & HD & Hz). rewrite indeg_zero in Hz.
  apply List.NoDup_cons_iff in NP as [NPi NP].
  assert (Hnotready : forall i, In (idx, i) E -> ~ In i (idx :: rest ++ heap)).
  { intros i Hi Hin. apply HP in Hin as (_ & _ & Hin). rewrite indeg_zero in Hin. exact (HD (Hin _ Hi)). }
  exists (out_edges E idx).
  destruct (release_ok (out_edges E idx) deg heap (indeg (D ++ [idx]))) as (deg' & heap' & Er & R1 & R2 & R3 & R4); auto.
  { intros i Hi. rewrite (H2 i Hi). f_equal. now apply indeg_snoc. }
  { intros s Hs. apply in_out_edges in Hs. now apply Hrange in Hs. }
  { intros i Hi Hin. apply in_out_edges in Hin. apply (Hnotready i Hin). right. apply in_or_app. now right. }
  exists deg', heap'. split; [now apply Hsucc |]. split; [exact Er |]. split; [| split; [| split; [exact R3 | now split]]].
  - split; auto.
    + now apply NoDup_snoc.
    + intros i Hi. apply in_app_iff in Hi as [Hi | [<- | []]]; auto.
    + intros d i Hd Hi. apply in_app_iff in Hi as [Hi | [<- | []]]; apply in_app_iff; left; eauto.
  - split.
    + apply List.NoDup_app; [now apply List.NoDup_app_remove_r in NP | now apply increasing_nodup |].
      intros i Hi Hin. apply R4 in Hin as [Hin | [Hin _]].
      * exact (nodup_disjoint _ _ _ NP Hi Hin).
      * apply in_out_edges in Hin. apply (Hnotready i Hin). right. apply in_or_app. now left.
    + intros i. rewrite in_app_iff, R4, in_out_edges. specialize (HP i). cbn [In] in HP. rewrite in_app_iff in HP.
      rewrite in_app_iff. cbn [In].
      assert (Hmono : indeg D i = 0%nat -> indeg (D ++ [idx]) i = 0%nat).
      { rewrite !indeg_zero. intros H d Hd. apply in_app_iff. left. now apply H. }
      split.
      * intros [Hi | [Hi | [Hi Hc]]].
        -- assert (i <> idx) by (intros ->; apply NPi, in_app_iff; tauto). destruct (proj1 HP) as (? & ? & ?); [tauto |]. intuition.
        -- assert (i <> idx) by (intros ->; apply NPi, in_app_iff; tauto). destruct (proj1 HP) as (? & ? & ?); [tauto |]. intuition.
        -- split; [now apply Hrange in Hi |]. split; [| exact Hc]. intros [Hin | [<- | []]].
           ++ apply HD. exact (H5 _ _ Hi Hin).
           ++ apply HD. now apply Hz.
      * intros (Hi & Hni & Hc). destruct (in_dec Nat.eq_dec i (out_edges E idx)) as [Hin | Hout].
        -- apply in_out_edges in Hin. auto.
        -- rewrite in_out_edges in Hout. assert (Hc0 : indeg D i = 0%nat).
           { rewrite indeg_zero in *. intros d Hd. specialize (Hc d Hd). apply in_app_iff in Hc as [Hc | [<- | []]]; [exact Hc |]. contradiction. }
           destruct (proj2 HP) as [-> | [? | ?]]; [tauto | exfalso; apply Hni; right; now left | auto | auto].
Qed.
(** *** The linear order *)
Definition topological (D : list nat) : Prop :=
  forall L i R, D = L ++ i :: R -> forall d, In (d, i) E -> In d L.

Lemma topological_snoc D i : topological D -> (forall d, In (d, i) E -> In d D) -> topological (D ++ [i]).
Proof.
  intros T Hi L j R Eq d Hd. destruct R as [| r R _] using rev_ind.
  - apply app_inj_tail in Eq as [-> ->]. now apply Hi.
  - rewrite app_comm_cons, app_assoc in Eq. apply app_inj_tail in Eq as [-> _]. now apply (T L j R).
Qed.

Lemma counted_length D deg : counted D deg -> (List.length D <= n)%nat.
Proof.
  intros C. rewrite <- (length_seq n 0). apply List.NoDup_incl_length; [apply C |].
  intros i Hi. apply in_seq. pose proof (ct_range _ _ C i Hi). lia.
Qed.

Lemma order_loop_ok fuel deg heap D :
  (n <= fuel + List.length D)%nat ->
  counted D deg -> pending D heap -> increasing heap -> topological D ->
  exists deg' D', order_loop fuel succs deg heap D = Some (deg', D') /\
    counted D' deg' /\ pending D' [] /\ topological D'.
Proof using Hrange Hsucc.
  revert deg heap D. induction fuel as [| fuel IH]; intros deg [| idx heap] D Hf C P Hh T.
  1, 3: exists deg, D; now split.
  - exfalso. destruct (visit_step D deg idx [] heap C P) as (ss & deg' & heap' & _ & _ & C' & _);
      [now inversion Hh |].
    apply counted_length in C'. rewrite length_app in C'. cbn in *. lia.
  - cbn [order_loop]. destruct (visit_step D deg idx [] heap C P) as (ss & deg' & heap' & -> & -> & C' & P' & H' & _ & Hp);
      [now inversion Hh |].
    apply IH; try assumption; [rewrite length_app; cbn; lia | now apply topological_snoc].
Qed.

(** *** Waves: chains of dependencies *)
Inductive chain : nat -> nat -> Prop :=
| chain_O i : (i < n)%nat -> chain 0 i
| chain_S k d i : In (d, i) E -> chain k d -> chain (Datatypes.S k) i.

Lemma chain_lt k i : chain k i -> (i < n)%nat.
Proof using Hrange. induction 1 as [i H | k d i Hd _ IH]; [exact H | now apply Hrange in Hd]. Qed.

Lemma chain_pred k i : chain (Datatypes.S k) i -> chain k i.
Proof using Hrange.
  revert i. induction k as [| k IH]; intros i H; inversion H as [| k0 d i0 Hd Hc]; subst.
  - constructor. now apply Hrange in Hd.
  - econstructor; [exact Hd | now apply IH].
Qed.

Lemma chain_le k k' i : (k <= k')%nat -> chain k' i -> chain k i.
Proof using Hrange. induction 1; [easy |]. intros H1. apply IHle. now apply chain_pred. Qed.

(** Some predecessor is missing. *)
Lemma indeg_pos D i : indeg D i <> 0%nat <-> exists d, In (d, i) E /\ ~ In d D.
Proof.
  split.
  - unfold indeg. intros H. destruct (filter (fun e => e.2 = i /\ e.1 ∉ D) E) as [| [d j] l] eqn:Ef; [contradiction |].
    assert (Hf : (d, j) ∈ filter (fun e => e.2 = i /\ e.1 ∉ D) E) by (rewrite Ef; left).
    apply list_elem_of_filter in Hf as [[<- Hf] Hin]. rewrite list_elem_of_In in Hf. rewrite list_elem_of_In in Hin. now exists d.
  - intros (d & Hd & Hn) Hz. rewrite indeg_zero in Hz. now apply Hn, Hz.
Qed.

Lemma visit_level_ok level D deg next :
  counted D deg -> pending D (level ++ next) -> increasing next ->
  exists deg' next', visit_level succs level deg next = Some (deg', next') /\
    counted (D ++ level) deg' /\ pending (D ++ level) next' /\ increasing next'.
Proof using Hrange Hsucc.
  revert D deg next. induction level as [| idx level IH]; intros D deg next C P Hn.
  - exists deg, next. rewrite app_nil_r. now split.
  - cbn [visit_level]. destruct (visit_step D deg idx level next C P Hn) as (ss & deg' & heap' & -> & -> & C' & P' & H' & _).
    destruct (IH _ _ _ C' P' H') as (deg2 & next2 & -> & C2 & P2 & H2). rewrite <- app_assoc in C2, P2. eauto 8.
Qed.

(** After [k] waves, exactly the nodes with a chain of [k] dependencies are left. *)
Record waves (levels : list (list nat)) : Prop := {
  wv_left i : (i < n)%nat -> ~ In i (concat levels) <-> chain (List.length levels) i;
  wv_level k lv : levels !! k = Some lv -> lv <> [] /\ increasing lv /\
    forall i, In i lv <-> chain k i /\ ~ chain (Datatypes.S k) i
}.

Lemma waves_snoc levels deg ready :
  waves levels -> counted (concat levels) deg -> pending (concat levels) ready -> increasing ready -> ready <> [] ->
  waves (levels ++ [ready]).
Proof using Hrange.
  intros [W1 W2] C [NP HP] Hr Hne. set (k := List.length levels) in *.
  assert (Hready : forall i, In i ready <-> chain k i /\ ~ chain (Datatypes.S k) i).
  { intros i. rewrite HP. split.
    - intros (Hi & HD & Hz). split; [now apply W1 |]. intros H. inversion H as [| k0 d i0 Hd Hc]; subst.
      rewrite indeg_zero in Hz. apply W1 in Hc; [now apply Hc, Hz | now apply Hrange in Hd].
    - intros [Hc Hn]. pose proof (chain_lt _ _ Hc) as Hi. split; [exact Hi |]. split; [now apply W1 |].
      destruct (Nat.eq_dec (indeg (concat levels) i) 0%nat) as [| Hz]; [assumption |].
      apply indeg_pos in Hz as (d & Hd & Hout). exfalso. apply Hn. econstructor; [exact Hd |].
      apply W1; [now apply Hrange in Hd | exact Hout]. }
  split.
  - intros i Hi. rewrite concat_app, length_app. cbn [concat List.length]. rewrite app_nil_r, Nat.add_1_r, in_app_iff.
    fold k. split.
    + intros H. destruct (Nat.eq_dec (indeg (concat levels) i) 0%nat) as [Hz | Hz].
      * exfalso. apply H. right. apply HP. tauto.
      * apply indeg_pos in Hz as (d & Hd & Hout). econstructor; [exact Hd |]. apply W1; [now apply Hrange in Hd | exact Hout].
    + intros Hc [Hin | Hin].
      * apply chain_pred in Hc. now apply W1 in Hc.
      * apply Hready in Hin. tauto.
  - intros j lv Hj. apply lookup_app_Some in Hj as [Hj | [Hj1 Hj2]]; [now apply W2 |].
    destruct (j - List.length levels)%nat as [| m] eqn:Ej; [| destruct m; discriminate]. injection Hj2 as <-.
    assert (j = k) as -> by (subst k; lia). auto.
Qed.

Lemma levels_loop_ok fuel deg ready levels visited :
  (n <= fuel + visited)%nat -> visited = List.length (concat levels) ->
  counted (concat levels) deg -> pending (concat levels) ready -> increasing ready -> waves levels ->
  exists deg' levels' visited', levels_loop fuel succs deg ready levels visited = Some (deg', levels', visited') /\
    visited' = List.length (concat levels') /\ counted (concat levels') deg' /\ pending (concat levels') [] /\ waves levels'.
Proof using Hrange Hsucc.
  revert deg ready levels visited. induction fuel as [| fuel IH]; intros deg ready levels visited Hf Hv C P Hr W.
  - destruct ready as [| idx ready]; [exists deg, levels, visited; now split |]. exfalso.
    destruct (visit_step (concat levels) deg idx ready [] C) as (ss & deg' & heap' & _ & _ & C' & _);
      [now rewrite app_nil_r | constructor |].
    apply counted_length in C'. rewrite length_app in C'. cbn in *. lia.
  - destruct ready as [| idx ready]; [exists deg, levels, visited; now split |]. cbn [levels_loop].
    destruct (visit_level_ok (idx :: ready) (concat levels) deg [] C) as (deg' & next' & -> & C' & P' & H');
      [now rewrite app_nil_r | constructor |].
    assert (Ec : concat (levels ++ [idx :: ready]) = concat levels ++ idx :: ready)
      by (rewrite concat_app; cbn; now rewrite app_nil_r).
    apply IH; rewrite ?Ec; try assumption.
    + cbn. lia.
    + rewrite length_app. lia.
    + now eapply waves_snoc; eauto.
Qed.

(** *** What is left at the end *)
Definition blocked (i : nat) : Prop := forall k, chain k i.

Lemma left_blocked D i : pending D [] -> (i < n)%nat -> ~ In i D -> blocked i.
Proof using Hrange.
  intros [_ HP] Hi Hn k. revert i Hi Hn. induction k as [| k IH]; intros i Hi Hn; [now constructor |].
  destruct (Nat.eq_dec (indeg D i) 0%nat) as [Hz | Hz]; [destruct (proj2 (HP i)); tauto |].
  apply indeg_pos in Hz as (d & Hd & Hout). econstructor; [exact Hd |]. apply IH; [now apply Hrange in Hd | exact Hout].
Qed.

Lemma topological_chain D : topological D -> forall L i R, D = L ++ i :: R -> ~ chain (Datatypes.S (List.length L)) i.
Proof using Hrange.
  intros T L. remember (List.length L) as m eqn:Em. revert L Em. induction m as [m IH] using lt_wf_ind.
  intros L -> i R -> Hc. inversion Hc as [| k d i0 Hd Hc']; subst. pose proof (T L i R eq_refl d Hd) as Hin.
  apply in_split in Hin as (L1 & L2 & ->). rewrite length_app in Hc'. cbn [List.length] in Hc'.
  apply (IH (List.length L1)) with (L := L1) (i := d) (R := L2 ++ i :: R).
  - rewrite length_app. cbn. lia.
  - reflexivity.
  - now rewrite <- app_assoc.
  - revert Hc'. apply chain_le. lia.
Qed.

Lemma waves_not_blocked levels i : waves levels -> In i (concat levels) -> ~ blocked i.
Proof using Hrange.
  intros W Hin Hb. pose proof (Hb (List.length levels)) as Hc. apply (wv_left _ W) in Hc; [contradiction | now apply chain_lt in Hc].
Qed.

(** A chain longer than the number of nodes goes round a cycle. *)
Lemma chain_path k i : chain k i ->
  exists l, List.length l = k /\ Forall (fun j => (j < n)%nat) (i :: l) /\
    forall L x M y R, i :: l = L ++ x :: M ++ y :: R -> clos_trans nat (fun d j => In (d, j) E) y x.
Proof using Hrange.
  induction 1 as [i Hi | k d i Hd Hc (l & Hl & Hn & Hp)].
  - exists []. split; [reflexivity |]. split; [now repeat constructor |]. intros [| ? []] x [| ? ?] y R; discriminate.
  - exists (d :: l). split; [cbn; lia |]. split; [constructor; [now apply Hrange in Hd | exact Hn] |].
    intros [| z L] x M y R Eq; cbn in Eq; injection Eq as <- Eq.
    + destruct M as [| m M]; cbn in Eq; injection Eq as <- Eq; [now constructor |].
      apply t_trans with d; [| now constructor]. apply (Hp [] d M y R). cbn. now rewrite Eq.
    + exact (Hp L x M y R Eq).
Qed.

Lemma chain_cycle i : chain n i -> exists x, clos_trans nat (fun d j => In (d, j) E) x x.
Proof using Hrange.
  intros (l & Hl & Hn & Hp)%chain_path.
  destruct (ListDec.NoDup_dec Nat.eq_dec (i :: l)) as [N | N].
  - exfalso. assert (List.length (i :: l) <= n)%nat; [| cbn in *; lia].
    rewrite <- (length_seq n 0). apply List.NoDup_incl_length; [exact N |]. intros j Hj. apply in_seq.
    rewrite List.Forall_forall in Hn. specialize (Hn j Hj). lia.
  - apply ListDec.not_NoDup in N as (x & L & M & R & Eq); [| intros a b; unfold Decidable.decidable; lia].
    exists x. exact (Hp L x M x R Eq).
Qed.

Lemma topological_acyclic D : topological D -> (forall i, (i < n)%nat -> In i D) ->
  forall d i, clos_trans nat (fun d j => In (d, j) E) d i ->
  forall L R, D = L ++ i :: R -> In d L.
Proof using Hrange.
  intros T HD d i H. induction H as [d i Hd | d m i H1 IH1 H2 IH2]; intros L R Eq; [now apply (T L i R) |].
  specialize (IH2 L R Eq). apply in_split in IH2 as (L1 & L2 & ->). apply in_app_iff. left.
  apply (IH1 L1 (L2 ++ i :: R)). now rewrite Eq, <- app_assoc.
Qed.
End Kahn.

Lemma in_imap_pair (l : list nat) i d : In (i, d) (imap pair l) <-> l !! i = Some d.
Proof.
  rewrite <- list_elem_of_In, elem_of_lookup_imap. split; [intros (j & y & [= <- <-] & H); exact H | eauto].
Qed.

Lemma imap_pair_fst (l : list nat) : map fst (imap pair l) = seq 0 (List.length l).
Proof.
  apply list_eq. intros i. change (map fst) with (fmap (M := list) (@fst nat nat)). rewrite list_lookup_fmap, list_lookup_imap.
  destruct (l !! i) as [d |] eqn:E; cbn.
  - symmetry. apply lookup_seq. apply lookup_lt_Some in E. lia.
  - symmetry. apply lookup_seq_ge. now apply lookup_ge_None in E.
Qed.

Lemma initial_fold (l : list (nat * nat)) heap :
  List.NoDup (map fst l) -> increasing heap -> (forall i, In i heap -> ~ In i (map fst l)) ->
  let h := fold_left (fun heap p => if (snd p =? 0)%nat then push (fst p) heap else heap) l heap in
  increasing h /\ forall i, In i h <-> In i heap \/ In (i, 0%nat) l.
Proof.
  revert heap. induction l as [| [j d] l IH]; intros heap N Hh Hd h; [split; [exact Hh | cbn; tauto] |].
  cbn [map fst] in N, Hd. apply List.NoDup_cons_iff in N as [Hj N].
  assert (Hjh : ~ In j heap) by (intros H; apply (Hd j H); now left).
  subst h. cbn [fold_left snd fst]. destruct (Nat.eqb_spec d 0) as [-> | Hz].
  - destruct (IH (push j heap) N) as [H1 H2]; [now apply push_increasing | |].
    { intros i [-> | Hi]%push_in; [exact Hj |]. intros Hin. apply (Hd i Hi). now right. }
    split; [exact H1 |]. intros i. rewrite H2, push_in. cbn [In].
    split; [intros [[-> | ?] | ?]; auto | intros [? | [[= ->] | ?]]; auto].
  - destruct (IH heap N Hh) as [H1 H2]; [intros i Hi Hin; apply (Hd i Hi); now right |].
    split; [exact H1 |]. intros i. rewrite H2. cbn [In]. split; [tauto |]. intros [? | [[= ] | ?]]; [tauto | congruence | tauto].
Qed.

Lemma initial_ready_spec deg :
  increasing (initial_ready deg) /\ forall i, In i (initial_ready deg) <-> deg !! i = Some 0%nat.
Proof.
  destruct (initial_fold (imap pair deg) []) as [H1 H2].
  - rewrite imap_pair_fst. apply List.seq_NoDup.
  - constructor.
  - intros i [].
  - split; [exact H1 |]. intros i. unfold initial_ready. rewrite (H2 i), in_imap_pair. cbn. tauto.
Qed.

Lemma missing_or_incl (D l : list nat) : (exists i, In i l /\ ~ In i D) \/ incl l D.
Proof.
  induction l as [| i l [(j & H1 & H2) | IH]]; [right; intros ? [] | left; exists j; split; [now right | exact H2] |].
  destruct (in_dec Nat.eq_dec i D) as [Hi | Hi]; [right | left; exists i; split; [now left | exact Hi]].
  intros j [<- | Hj]; auto.
Qed.

Section Start.
Context (n : nat) (E : list edge) (g : DependencyGraph) (Hg : of_edges n E g).

Lemma start_counted : counted n E [] (in_degree g).
Proof using Hg.
  split; [apply Hg | | constructor | intros ? [] | intros ? ? _ []].
  intros i Hi. rewrite (oe_deg _ _ _ Hg i Hi). f_equal. unfold in_edges, indeg. f_equal.
  apply list_filter_iff. intros e. split; [intros ->; split; [reflexivity | apply not_elem_of_nil] | tauto].
Qed.

Lemma start_pending : pending n E [] (initial_ready (in_degree g)).
Proof using Hg.
  destruct (initial_ready_spec (in_degree g)) as [H1 H2]. split; [now apply increasing_nodup |].
  intros i. rewrite H2. split.
  - intros H. pose proof (lookup_lt_Some _ _ _ H) as Hi. rewrite (oe_deg_length _ _ _ Hg) in Hi.
    split; [exact Hi |]. split; [intros [] |]. pose proof (ct_deg _ _ _ _ start_counted i Hi). congruence.
  - intros (Hi & _ & Hz). now rewrite (ct_deg _ _ _ _ start_counted i Hi), Hz.
Qed.

(** The error names the nodes that depend on a cycle, in index order. *)
Definition names_blocked (ids : list Z) (e : Reason) : Prop :=
  exists idxs b, e = Cycle b /\ increasing idxs /\
    (forall i, In i idxs <-> (i < n)%nat /\ blocked n E i) /\
    Forall2 (fun i id => ids !! i = Some id) idxs b.

Lemma cycle_error_ok ids D deg :
  List.length ids = n -> counted n E D deg -> pending n E D [] ->
  (forall i, In i D -> ~ blocked n E i) -> exists e, cycle_error deg ids = Some e /\ names_blocked ids e.
Proof using Hg.
  intros Hids C P Hnb. unfold cycle_error.
  set (idxs := map fst (filter (fun p : nat * nat => (0 < p.2)%nat) (imap pair deg))).
  assert (Hin : forall i, In i idxs <-> (i < n)%nat /\ blocked n E i).
  { intros i. subst idxs. rewrite in_map_iff. split.
    - intros ([j d] & <- & H). rewrite <- list_elem_of_In in H. apply list_elem_of_filter in H as [Hd H].
      rewrite list_elem_of_In in H. apply in_imap_pair in H. cbn in *. pose proof (lookup_lt_Some _ _ _ H) as Hj.
      rewrite (ct_length _ _ _ _ C) in Hj. split; [exact Hj |]. apply (left_blocked n E (oe_range _ _ _ Hg) D); try assumption.
      intros HD. rewrite (ct_deg _ _ _ _ C j Hj) in H. injection H as <-.
      assert (indeg E D j = 0%nat); [| lia]. apply indeg_zero. intros d Hd'. exact (ct_closed _ _ _ _ C d j Hd' HD).
    - intros [Hi Hb]. exists (i, indeg E D i). split; [reflexivity |]. apply list_elem_of_In, list_elem_of_filter. cbn.
      split; [| now apply list_elem_of_In, in_imap_pair, C].
      assert (indeg E D i <> 0%nat); [| lia]. intros Hz. destruct P as [_ P]. apply (P i).
      split; [exact Hi |]. split; [| exact Hz]. intros HD. now apply (Hnb i HD). }
  assert (Hinc : increasing idxs).
  { subst idxs. assert (Hs : increasing (map fst (imap pair deg))).
    { rewrite imap_pair_fst. clear. generalize 0%nat. induction (List.length deg) as [| m IH]; intros k; cbn; constructor; [apply IH |].
      apply List.Forall_forall. intros x Hx. apply in_seq in Hx. lia. }
    clear -Hs. induction (imap pair deg) as [| p l IH]; [constructor |]. cbn in Hs. apply StronglySorted_inv in Hs as [Hs Hp].
    rewrite filter_cons. destruct (decide _); [| now apply IH]. cbn. constructor; [now apply IH |].
    apply List.Forall_forall. intros x Hx. rewrite List.Forall_forall in Hp. apply Hp. apply in_map_iff in Hx as (q & <- & Hq).
    apply in_map. rewrite <- list_elem_of_In in *. now apply list_elem_of_filter in Hq. }
  destruct (collect (fun i => ids !! i) idxs) as [b |] eqn:Ec.
  - eexists. split; [reflexivity |]. exists idxs, b. apply collect_Some in Ec. now split.
  - exfalso. apply collect_None in Ec as (i & Hi & Hn). apply Hin in Hi as [Hi _]. apply lookup_ge_None in Hn. lia.
Qed.

Lemma all_visited (D : list nat) deg : counted n E D deg -> List.length D = n -> Permutation D (seq 0 n).
Proof.
  intros C Hl. apply NoDup_Permutation_bis; [apply C | rewrite length_seq; lia |].
  intros i Hi. apply in_seq. pose proof (ct_range _ _ _ _ C i Hi). lia.
Qed.

(** A node that is not visited lies behind a cycle. *)
Lemma unvisited_cycle (D : list nat) deg :
  counted n E D deg -> pending n E D [] -> List.length D <> n -> exists x, clos_trans nat (fun d j => In (d, j) E) x x.
Proof using Hg.
  intros C P Hl. pose proof (oe_range _ _ _ Hg) as HR.
  assert (Hx : exists i, In i (seq 0 n) /\ ~ In i D).
  { destruct (missing_or_incl D (seq 0 n)) as [H | H]; [exact H | exfalso]. apply Hl.
    apply Nat.le_antisymm; [eapply counted_length, C |]. rewrite <- (length_seq n 0) at 1.
    apply List.NoDup_incl_length; [apply List.seq_NoDup | exact H]. }
  destruct Hx as (i & Hi & Hn). apply in_seq in Hi.
  exact (chain_cycle n E HR i (left_blocked n E HR D i P ltac:(lia) Hn n)).
Qed.
End Start.

(** ** The results *)
Section Results.
Context (ids : list Z) (deps : list (list Z)) (ix : option (list (list nat))).

Let n := List.length ids.

(** A cycle of dependencies, reported with the nodes behind it. *)
Definition reports_cycle (e : Reason) : Prop :=
  (exists x, clos_trans nat (depends ids deps ix) x x) /\
  exists E, (forall d i, In (d, i) E <-> depends ids deps ix d i) /\ names_blocked n E ids e.

(** [longest k i]: the longest chain of dependencies below [i] has [k] edges. *)
Inductive depth : nat -> nat -> Prop :=
| depth_O i : (i < n)%nat -> depth 0 i
| depth_S k d i : depends ids deps ix d i -> depth k d -> depth (Datatypes.S k) i.

Definition longest (k i : nat) : Prop := depth k i /\ ~ depth (Datatypes.S k) i.

Lemma chain_depth E k i : (forall d i, In (d, i) E <-> depends ids deps ix d i) -> chain n E k i <-> depth k i.
Proof.
  intros HE. split; induction 1; econstructor; eauto; now apply HE.
Qed.

Lemma clos_trans_depends E x y :
  (forall d i, In (d, i) E <-> depends ids deps ix d i) ->
  clos_trans nat (fun d j => In (d, j) E) x y <-> clos_trans nat (depends ids deps ix) x y.
Proof.
  intros HE. split; induction 1; [constructor; now apply HE | econstructor; eassumption | constructor; now apply HE | econstructor; eassumption].
Qed.

(** [compute_topological_order] always returns: for well-formed tables without a
    cycle a permutation of the nodes with every dependency before its
    dependents; for a cycle the error that names, in index order, exactly the
    nodes behind it; otherwise an error. *)
Theorem topological_order_correct :
  exists r, compute_topological_order ids deps ix = Some r /\
    match r with
    | inl order => well_formed ids deps ix /\ Permutation order (seq 0 n) /\
        (forall L i R d, order = L ++ i :: R -> depends ids deps ix d i -> In d L) /\
        (forall x, ~ clos_trans nat (depends ids deps ix) x x)
    | inr e => (well_formed ids deps ix /\ reports_cycle e) \/ ~ well_formed ids deps ix
    end.
Proof.
  unfold compute_topological_order. pose proof (build_spec ids deps ix) as HB.
  destruct (build_topological_graph ids deps ix) as [g | e]; [| exists (inr e); auto].
  destruct HB as (Hwf & Hids & E & Hg & HE). fold n in Hg. rewrite Hids. fold n.
  destruct (order_loop_ok n E (successors g) (oe_range _ _ _ Hg) (oe_succ _ _ _ Hg) n (in_degree g)
      (initial_ready (in_degree g)) []) as (deg & D & -> & C & P & T).
  { cbn. lia. } { exact (start_counted n E g Hg). } { exact (start_pending n E g Hg). }
  { apply initial_ready_spec. } { intros [] ? ? [=]. }
  destruct (Nat.eqb_spec (List.length D) n) as [Hl | Hl]; cbn [negb].
  - exists (inl D). split; [reflexivity |]. pose proof (all_visited n E D deg C Hl) as HP.
    split; [exact Hwf |]. split; [exact HP |]. split.
    + intros L i R d Eq Hd. apply (T L i R Eq). now apply HE.
    + intros x Hx. apply (clos_trans_depends E) in Hx; [| exact HE].
      assert (Hin : forall i, (i < n)%nat -> In i D) by (intros i Hi; rewrite HP; apply in_seq; lia).
      assert (Hxn : (x < n)%nat).
      { assert (H : forall y z, clos_trans nat (fun d j => In (d, j) E) y z -> (z < n)%nat)
          by (induction 1 as [y z H | y z w _ _ _ IH]; [now apply Hg in H | exact IH]). exact (H x x Hx). }
      destruct (in_split x D (Hin x Hxn)) as (L & R & Eq).
      pose proof (topological_acyclic n E (oe_range _ _ _ Hg) D T Hin x x Hx L R Eq) as HxL.
      pose proof (ct_nodup _ _ _ _ C) as N. rewrite Eq in N. apply (nodup_disjoint L (x :: R) x N HxL). now left.
  - destruct (cycle_error_ok n E g Hg ids D deg eq_refl C P) as (e & -> & He).
    { intros i Hi Hb. apply in_split in Hi as (L & R & Eq).
      apply (topological_chain n E (oe_range _ _ _ Hg) D T L i R Eq), Hb. }
    exists (inr e). split; [reflexivity |]. left. split; [exact Hwf |]. split.
    + destruct (unvisited_cycle n E g Hg D deg C P Hl) as [x Hx]. exists x. now apply (clos_trans_depends E).
    + exists E. now split.
Qed.

(** C26: [compute_topological_levels] always returns: level [k] holds, in increasing
    order, exactly the nodes whose longest chain of dependencies has length
    [k], every node is in one level, and a dependency is always in an earlier
    level; the errors are those of the linear order. *)
Theorem topological_levels_correct :
  exists r, compute_topological_levels ids deps ix = Some r /\
    match r with
    | inl levels => well_formed ids deps ix /\ Permutation (concat levels) (seq 0 n) /\
        (forall k level, levels !! k = Some level ->
           level <> [] /\ StronglySorted lt level /\ forall i, In i level <-> longest k i) /\
        (forall k m lk lm d i, levels !! k = Some lk -> levels !! m = Some lm ->
           In d lk -> In i lm -> depends ids deps ix d i -> (k < m)%nat)
    | inr e => (well_formed ids deps ix /\ reports_cycle e) \/ ~ well_formed ids deps ix
    end.
Proof.
  unfold compute_topological_levels. pose proof (build_spec ids deps ix) as HB.
  destruct (build_topological_graph ids deps ix) as [g | e]; [| exists (inr e); auto].
  destruct HB as (Hwf & Hids & E & Hg & HE). fold n in Hg. rewrite Hids. fold n.
  destruct (levels_loop_ok n E (successors g) (oe_range _ _ _ Hg) (oe_succ _ _ _ Hg) n (in_degree g)
      (initial_ready (in_degree g)) [] 0) as (deg & levels & visited & -> & -> & C & P & W).
  { lia. } { reflexivity. } { exact (start_counted n E g Hg). } { exact (start_pending n E g Hg). }
  { apply initial_ready_spec. }
  { split; [intros i Hi; cbn; split; [now constructor | intros _ []] | discriminate]. }
  destruct (Nat.eqb_spec (List.length (concat levels)) n) as [Hl | Hl]; cbn [negb].
  - exists (inl levels). split; [reflexivity |]. split; [exact Hwf |]. split; [exact (all_visited n E _ deg C Hl) |].
    assert (HL : forall k level, levels !! k = Some level ->
      level <> [] /\ increasing level /\ forall i, In i level <-> longest k i).
    { intros k level Hk. destruct (wv_level _ _ _ W k level Hk) as (H1 & H2 & H3). split; [exact H1 |]. split; [exact H2 |].
      intros i. rewrite H3, !(chain_depth E) by exact HE. reflexivity. }
    split; [exact HL |]. intros k m lk lm d i Hk Hm Hd Hi Hdi.
    apply (HL k lk Hk) in Hd as [Hd _]. apply (HL m lm Hm) in Hi as [_ Hi].
    assert (Hki : depth (Datatypes.S k) i) by (econstructor; eassumption).
    destruct (Nat.lt_ge_cases k m) as [| Hge]; [assumption | exfalso]. apply Hi.
    apply (chain_depth E); [exact HE |]. apply (chain_le n E (oe_range _ _ _ Hg) _ (Datatypes.S k)); [lia |].
    now apply chain_depth.
  - destruct (cycle_error_ok n E g Hg ids (concat levels) deg eq_refl C P) as (e & -> & He).
    { intros i Hi. exact (waves_not_blocked n E (oe_range _ _ _ Hg) levels i W Hi). }
    exists (inr e). split; [reflexivity |]. left. split; [exact Hwf |]. split.
    + destruct (unvisited_cycle n E g Hg (concat levels) deg C P Hl) as [x Hx]. exists x. now apply (clos_trans_depends E).
    + exists E. now split.
Qed.
End Results.
