(* ===== verification/MemPlan.v ===== *)
(** * The memory planner ([tensor/src/memory_planner/mod.rs], buffers of [device/src/buffer.rs])

    Liveness in execution levels, the pool of [PlannerMode::Remap] and the
    arena of [PlannerMode::Arena].  [None] is a panic.  Buffers are handles on
    shared storage: the storage of a handle is a value with an identity, and
    what storage changes, whether it is allocated, is a set of identities.
    Hash maps that are only looked up or summed are finite maps; where the code
    iterates over one to allocate, the order is that of the keys. *)

From stdpp Require Import gmap sorting strings.
From S2P Require Import Prelude DType Cast ConstVal Ops Payload UOp Traverse Leveling Tlsf.

(** ** Buffers *)
Module BufferSpec.
Record t := mk { uncached : bool; cpu_access : bool; host : bool; nolru : bool }.
End BufferSpec.
Abbreviation BufferSpec := BufferSpec.t.

(** The allocation behind a buffer and its views; [device] is the allocator. *)
Module BufferData.
Record t := mk {
  storage_id : Z; device : DeviceSpec; total_size : Z; options : BufferSpec; zero_init : bool
}.
End BufferData.
Abbreviation BufferData := BufferData.t.

Module Buffer.
Record t := mk {
  id : Z; data : BufferData; offset : Z; size : Z; dtype : DType; shape : list Z
}.
Definition storage_id (b : t) : Z := BufferData.storage_id (data b).
Definition device_spec (b : t) : DeviceSpec := BufferData.device (data b).
Definition spec (b : t) : BufferSpec := BufferData.options (data b).

(** [new_with_zero_init], from the counter of identities. *)
Definition new_with_zero_init (device : DeviceSpec) (dtype : DType) (shape : list Z) (options : BufferSpec)
    (zero_init : bool) (next_buffer_id : Z) : t * Z :=
  let size := DType.bytes dtype * fold_left Z.mul shape 1 in
  (mk next_buffer_id (BufferData.mk (next_buffer_id + 1) device size options zero_init) 0 size dtype shape,
   next_buffer_id + 2).
Definition new (device : DeviceSpec) (dtype : DType) (shape : list Z) (options : BufferSpec) (next_buffer_id : Z) : t * Z :=
  new_with_zero_init device dtype shape options false next_buffer_id.

Inductive Error := InvalidView (offset size buffer_size : Z).

(** [None]: the division by the size of a [Void]. *)
Definition view (b : t) (off sz next_buffer_id : Z) : option (t * Z + Error) :=
  if size b <? off + sz then Some (inr (InvalidView off sz (size b)))
  else if DType.bytes (dtype b) =? 0 then None
  else Some (inl (mk next_buffer_id (data b) (offset b + off) sz (dtype b) [sz / DType.bytes (dtype b)], next_buffer_id + 1)).

(** Two handles on the same bytes. *)
Definition overlaps (a b : t) : Prop :=
  storage_id a = storage_id b /\ offset a < offset b + size b /\ offset b < offset a + size a.
End Buffer.
Abbreviation Buffer := Buffer.t.

#[export] Instance BufferSpec_eq_dec : EqDecision BufferSpec.
Proof. solve_decision. Defined.

(** ** Identity of storage in the IR *)
Fixpoint base (u : UOp) : UOp :=
  let 'mkUOp _ op _ := u in
  match op with
  | Op.Reshape _ src _ | Op.Permute _ src _ | Op.Expand _ src _ | Op.Pad _ src _ _ | Op.Shrink _ src _ _
  | Op.Flip _ src _ | Op.Multi _ src _ => base src
  | _ => u
  end.

(** [buf_uop]; second, the result for [base] when that is an [After]. *)
Fixpoint buf_uop_and_after (u : UOp) : UOp * option UOp :=
  let 'mkUOp _ op _ := u in
  match op with
  | Op.Buffer _ _ _ => (u, None)
  | Op.MSelect _ buffer _ => ((buf_uop_and_after buffer).1, None)
  | Op.MStack _ (b :: _) => ((buf_uop_and_after b).1, None)
  | Op.After _ passthrough _ => let r := (buf_uop_and_after passthrough).1 in (r, Some r)
  | Op.Call _ body _ _ | Op.Function _ body _ _ => ((buf_uop_and_after body).1, None)
  | Op.Reshape _ src _ | Op.Permute _ src _ | Op.Expand _ src _ | Op.Pad _ src _ _ | Op.Shrink _ src _ _
  | Op.Flip _ src _ | Op.Multi _ src _ =>
      let o := (buf_uop_and_after src).2 in (default u o, o)
  | _ => (u, None)
  end.
Definition buf_uop (u : UOp) : UOp := (buf_uop_and_after u).1.

Definition is_after (u : UOp) : bool := match uop_op u with Op.After _ _ _ => true | _ => false end.

Lemma buf_uop_after u : (buf_uop_and_after u).2 = if is_after (base u) then Some (buf_uop (base u)) else None.
Proof.
  unfold buf_uop. induction u as [u IH] using UOp_children_ind. destruct u as [i op d]. unfold children in IH. cbn [uop_op] in IH.
  destruct op; cbn [buf_uop_and_after base snd]; try reflexivity;
    try (apply Forall_inv in IH; exact IH). destruct buffers; reflexivity.
Qed.

(** [buf_uop] as the code writes it. *)
Lemma buf_uop_eq u :
  buf_uop u =
  match uop_op u with
  | Op.Buffer _ _ _ => u
  | Op.MSelect _ buffer _ => buf_uop buffer
  | Op.MStack _ (b :: _) => buf_uop b
  | Op.After _ passthrough _ => buf_uop passthrough
  | Op.Call _ body _ _ | Op.Function _ body _ _ => buf_uop body
  | _ => if is_after (base u) then buf_uop (base u) else u
  end.
Proof.
  pose proof (buf_uop_after u) as H. unfold buf_uop in *. destruct u as [i op d]. cbn [uop_op].
  destruct op; cbn [buf_uop_and_after fst snd] in *; try reflexivity; try (destruct buffers; reflexivity);
    rewrite H; cbn [base]; destruct (is_after _); reflexivity.
Qed.

Fixpoint find_map {A B} (f : A -> option B) (l : list A) : option B :=
  match l with
  | [] => None
  | a :: l => match f a with Some b => Some b | None => find_map f l end
  end.

(** The buffer an [Index] addresses, through the casts and arithmetic above it. *)
Fixpoint indexed_buffer (index : UOp) : option UOp :=
  let 'mkUOp _ op _ := index in
  match op with
  | Op.Index _ buffer _ => Some buffer
  | other => find_map (fun o => o) (Op.map_child indexed_buffer other)
  end.

(** ** Schedules *)
Module ScheduleItem.
Record t := mk {
  kernel : UOp; ast : UOp; buffers : list Buffer; buffer_uop_ids : list Z;
  dependencies : list Z; instance_dependencies : list nat
}.
End ScheduleItem.
Abbreviation ScheduleItem := ScheduleItem.t.
Abbreviation Schedule := (list ScheduleItem).

Inductive PlannerMode := Disabled | Remap | Arena.

Definition MIN_BLOCK_SIZE : Z := 256.

Definition round_up (size block_size : Z) : Z := (size + block_size - 1) / block_size * block_size.

Module BufferPoolKey.
Record t := mk { device : DeviceSpec; dtype : DType; size : Z }.
End BufferPoolKey.
Abbreviation BufferPoolKey := BufferPoolKey.t.
#[export] Instance BufferPoolKey_eq_dec : EqDecision BufferPoolKey.
Proof. solve_decision. Defined.

Module BufferLiveness.
Record t := mk { first_level : Z; last_level : Z; pool_key : BufferPoolKey; prototype : Buffer }.
End BufferLiveness.
Abbreviation BufferLiveness := BufferLiveness.t.

Module BufferEvent.
Record t := mk { timestep : Z; is_alloc : bool; buffer_id : Z }.
End BufferEvent.
Abbreviation BufferEvent := BufferEvent.t.

Module BufferKey.
Record t := mk { kernel_idx : nat; buffer_idx : nat }.
End BufferKey.
Abbreviation BufferKey := BufferKey.t.
#[export] Instance BufferKey_eq_dec : EqDecision BufferKey.
Proof. solve_decision. Defined.
#[export] Instance BufferKey_countable : Countable BufferKey.
Proof.
  apply (inj_countable' (fun k => (BufferKey.kernel_idx k, BufferKey.buffer_idx k)) (fun p => BufferKey.mk p.1 p.2)).
  now intros [].
Defined.

Inductive PlannerExclusionReason :=
| DiskStorage | ViewOrOffset | AlreadyAllocated | Output | AliasedStorage | NonSinkOperation | GatedStore.
#[export] Instance PlannerExclusionReason_eq_dec : EqDecision PlannerExclusionReason.
Proof. solve_decision. Defined.
Definition reason_index (r : PlannerExclusionReason) : nat :=
  match r with
  | DiskStorage => 0 | ViewOrOffset => 1 | AlreadyAllocated => 2 | Output => 3 | AliasedStorage => 4
  | NonSinkOperation => 5 | GatedStore => 6
  end.
#[export] Instance PlannerExclusionReason_countable : Countable PlannerExclusionReason.
Proof.
  apply (inj_countable' reason_index
    (fun n => nth n [DiskStorage; ViewOrOffset; AlreadyAllocated; Output; AliasedStorage; NonSinkOperation; GatedStore] DiskStorage)).
  now intros [].
Defined.

Module Stats.
Record t := mk { allocations : Z; bytes : Z }.
End Stats.

Module Metrics.
Record t := mk {
  mode : PlannerMode; logical_allocations : Z; logical_bytes : Z; rounded_bytes : Z; logical_peak_bytes : Z;
  arena_committed_bytes : Z; physical_bytes : Z; padding_bytes : Z; fragmentation_bytes : Z;
  reused_allocations : Z; reused_bytes : Z; exclusions : gmap PlannerExclusionReason Stats.t
}.
Definition empty (mode : PlannerMode) : t := mk mode 0 0 0 0 0 0 0 0 0 0 ∅.
End Metrics.

Record PlannerInput := mkInput {
  liveness : gmap Z BufferLiveness; occurrences : list (BufferKey * Z); input_metrics : Metrics.t
}.

(** ** Excluded buffers *)
Definition LogicalBufferAlias : Type := Z * Z * DType * list Z.
Definition alias_of (b : Buffer) : LogicalBufferAlias := (Buffer.offset b, Buffer.size b, Buffer.dtype b, Buffer.shape b).

(** [HashSet::insert] on a list without repetition. *)
Definition set_insert {A} `{EqDecision A} (x : A) (l : list A) : list A := if decide (x ∈ l) then l else x :: l.

Module ExcludedBufferIds.
Record t := mk { aliased : gset Z; non_sink : gset Z; gated_store : gset Z }.
End ExcludedBufferIds.

(** [collect::<HashMap<_, _>>()]: the last binding of a key stays. *)
Definition collect_map (l : list (Z * Z)) : gmap Z Z := fold_left (fun m kv => <[kv.1 := kv.2]> m) l ∅.

Definition is_sink (u : UOp) : bool := match uop_op u with Op.Sink _ _ _ => true | _ => false end.

Definition all_buffers (schedule : Schedule) : list Buffer := concat (map ScheduleItem.buffers schedule).

Definition by_storage (schedule : Schedule) : gmap Z (list LogicalBufferAlias) :=
  fold_left (fun m b => let sid := Buffer.storage_id b in <[sid := set_insert (alias_of b) (default [] (m !! sid))]> m)
    (all_buffers schedule) ∅.

Definition gated_stores (item : ScheduleItem) : list Z :=
  let by_uop_id := collect_map (zip (ScheduleItem.buffer_uop_ids item) (map Buffer.id (ScheduleItem.buffers item))) in
  concat (map (fun node =>
    match uop_op node with
    | Op.Store _ index _ (Some _) =>
        match indexed_buffer index with
        | Some uop => match by_uop_id !! uid (buf_uop uop) with Some i => [i] | None => [] end
        | None => []
        end
    | _ => []
    end) (toposort (ScheduleItem.ast item))).

Definition collect_excluded_buffer_ids (schedule : Schedule) : ExcludedBufferIds.t :=
  let views := by_storage schedule in
  let is_aliased (b : Buffer) := (1 <? List.length (default [] (views !! Buffer.storage_id b)))%nat in
  ExcludedBufferIds.mk
    (list_to_set (map Buffer.id (List.filter is_aliased (all_buffers schedule))))
    (list_to_set (map Buffer.id (all_buffers (List.filter (fun item => negb (is_sink (ScheduleItem.ast item))) schedule))))
    (list_to_set (concat (map gated_stores schedule))).

Section Planner.
(** The storages that are allocated, and the ids of the output buffers. *)
Context (allocated output_buffer_ids : gset Z).

Definition is_allocated (b : Buffer) : bool := bool_decide (Buffer.storage_id b ∈ allocated).

Definition exclusion_reason (b : Buffer) (excluded : ExcludedBufferIds.t) : option PlannerExclusionReason :=
  let id := Buffer.id b in
  if is_disk (Buffer.device_spec b) then Some DiskStorage
  else if negb (Buffer.offset b =? 0) then Some ViewOrOffset
  else if is_allocated b then Some AlreadyAllocated
  else if bool_decide (id ∈ output_buffer_ids) then Some Output
  else if bool_decide (id ∈ ExcludedBufferIds.aliased excluded) then Some AliasedStorage
  else if bool_decide (id ∈ ExcludedBufferIds.non_sink excluded) then Some NonSinkOperation
  else if bool_decide (id ∈ ExcludedBufferIds.gated_store excluded) then Some GatedStore
  else None.

(** ** Levels *)

(** [level_of[node_idx] = level_idx] for every wave. *)
Fixpoint assign_levels (level : Z) (waves : list (list nat)) (level_of : list Z) : list Z :=
  match waves with
  | [] => level_of
  | wave :: waves => assign_levels (level + 1) waves (fold_left (fun l i => <[i := level]> l) wave level_of)
  end.

Definition compute_item_levels (schedule : Schedule) : option (list Z + Reason) :=
  let node_ids := map (fun it => uid (ScheduleItem.kernel it)) schedule in
  let callable_deps := map ScheduleItem.dependencies schedule in
  let index_deps := map ScheduleItem.instance_dependencies schedule in
  let? r := compute_topological_levels node_ids callable_deps (match index_deps with [] => None | _ => Some index_deps end) in
  match r with
  | inl waves => Some (inl (assign_levels 0 waves (replicate (List.length schedule) 0)))
  | inr e => Some (inr e)
  end.

(** ** Liveness *)
Definition pool_key_of (b : Buffer) : BufferPoolKey :=
  BufferPoolKey.mk (Buffer.device_spec b) (Buffer.dtype b) (round_up (Buffer.size b) MIN_BLOCK_SIZE).

Record LivenessState := mkLive {
  ls_liveness : gmap Z BufferLiveness; ls_occurrences : list (BufferKey * Z);
  ls_exclusions : gmap PlannerExclusionReason Stats.t; ls_classified : gset Z
}.

Definition visit_buffer (excluded : ExcludedBufferIds.t) (level : Z) (key : BufferKey) (b : Buffer) (s : LivenessState) : LivenessState :=
  let buf_id := Buffer.id b in
  match exclusion_reason b excluded with
  | Some reason =>
      if bool_decide (buf_id ∈ ls_classified s) then s
      else
        let st := default (Stats.mk 0 0) (ls_exclusions s !! reason) in
        mkLive (ls_liveness s) (ls_occurrences s)
          (<[reason := Stats.mk (Stats.allocations st + 1) (Stats.bytes st + Buffer.size b)]> (ls_exclusions s))
          ({[buf_id]} ∪ ls_classified s)
  | None =>
      let info :=
        match ls_liveness s !! buf_id with
        | Some i =>
            BufferLiveness.mk (Z.min (BufferLiveness.first_level i) level) (Z.max (BufferLiveness.last_level i) level)
              (BufferLiveness.pool_key i) (BufferLiveness.prototype i)
        | None => BufferLiveness.mk level level (pool_key_of b) b
        end in
      mkLive (<[buf_id := info]> (ls_liveness s)) (ls_occurrences s ++ [(key, buf_id)]) (ls_exclusions s) (ls_classified s)
  end.

Fixpoint visit_buffers (excluded : ExcludedBufferIds.t) (level : Z) (step_idx buf_idx : nat) (l : list Buffer) (s : LivenessState) :
    LivenessState :=
  match l with
  | [] => s
  | b :: l =>
      visit_buffers excluded level step_idx (Datatypes.S buf_idx) l
        (visit_buffer excluded level (BufferKey.mk step_idx buf_idx) b s)
  end.

(** [item_levels[step_idx]] panics when the table is too short. *)
Fixpoint visit_items (excluded : ExcludedBufferIds.t) (item_levels : list Z) (step_idx : nat) (schedule : Schedule)
    (s : LivenessState) : option LivenessState :=
  match schedule with
  | [] => Some s
  | item :: schedule =>
      let? level := item_levels !! step_idx in
      visit_items excluded item_levels (Datatypes.S step_idx) schedule
        (visit_buffers excluded level step_idx 0 (ScheduleItem.buffers item) s)
  end.

Definition sum_over (f : BufferLiveness -> Z) (m : gmap Z BufferLiveness) : Z :=
  map_fold (fun _ info s => f info + s) 0 m.
Definition live_at (level : Z) (info : BufferLiveness) : bool :=
  (BufferLiveness.first_level info <=? level) && (level <=? BufferLiveness.last_level info).
Definition proto_size (info : BufferLiveness) : Z := Buffer.size (BufferLiveness.prototype info).

Definition logical_peak (m : gmap Z BufferLiveness) : Z :=
  let max_level := map_fold (fun _ info s => Z.max (BufferLiveness.last_level info) s) (-1) m in
  fold_left (fun peak level =>
      Z.max peak (sum_over (fun info => if live_at (Z.of_nat level) info then proto_size info else 0) m))
    (seq 0 (Z.to_nat (max_level + 1))) 0.

Definition analyze_liveness (schedule : Schedule) (item_levels : list Z) (mode : PlannerMode) : option PlannerInput :=
  let excluded := collect_excluded_buffer_ids schedule in
  let? s := visit_items excluded item_levels 0 schedule (mkLive ∅ [] ∅ ∅) in
  let m := ls_liveness s in
  let logical_bytes := sum_over proto_size m in
  let rounded_bytes := sum_over (fun info => BufferPoolKey.size (BufferLiveness.pool_key info)) m in
  Some (mkInput m (ls_occurrences s)
    (Metrics.mk mode (Z.of_nat (size m)) logical_bytes rounded_bytes (logical_peak m) 0 0
       (Z.max 0 (rounded_bytes - logical_bytes)) 0 0 0 (ls_exclusions s))).

(** ** The event timeline *)
Definition event_le (a b : BufferEvent) : Prop :=
  BufferEvent.timestep a < BufferEvent.timestep b \/
  (BufferEvent.timestep a = BufferEvent.timestep b /\
   (Bool.lt (BufferEvent.is_alloc a) (BufferEvent.is_alloc b) \/
    (BufferEvent.is_alloc a = BufferEvent.is_alloc b /\ BufferEvent.buffer_id a <= BufferEvent.buffer_id b))).
#[export] Instance event_le_dec : RelDecision event_le.
Proof.
  intros a b. unfold event_le, Bool.lt. destruct (BufferEvent.is_alloc a), (BufferEvent.is_alloc b); apply _.
Defined.

Definition events_of (id : Z) (info : BufferLiveness) : list BufferEvent :=
  [BufferEvent.mk (BufferLiveness.first_level info) true id; BufferEvent.mk (BufferLiveness.last_level info + 1) false id].

Definition build_event_timeline (m : gmap Z BufferLiveness) : list BufferEvent :=
  merge_sort event_le (concat (map (fun kv => events_of kv.1 kv.2) (map_to_list m))).
End Planner.

(** ** Pools ([PlannerMode::Remap]) *)

(** A hash map on keys that are only compared. *)
Section Assoc.
Context {K V : Type} `{EqDecision K}.

Fixpoint assoc_get (k : K) (l : list (K * V)) : option V :=
  match l with
  | [] => None
  | (k', v) :: l => if decide (k = k') then Some v else assoc_get k l
  end.

Fixpoint assoc_set (k : K) (v : V) (l : list (K * V)) : list (K * V) :=
  match l with
  | [] => [(k, v)]
  | (k', v') :: l => if decide (k = k') then (k, v) :: l else (k', v') :: assoc_set k v l
  end.

Lemma assoc_get_set_eq k v l : assoc_get k (assoc_set k v l) = Some v.
Proof.
  induction l as [| [k' v'] l IH]; cbn; [now rewrite decide_True |].
  destruct (decide (k = k')); cbn; [now rewrite decide_True | now rewrite decide_False].
Qed.

Lemma assoc_get_set_ne k k' v l : k <> k' -> assoc_get k' (assoc_set k v l) = assoc_get k' l.
Proof.
  intros Hne. induction l as [| [j w] l IH]; cbn; [now rewrite decide_False |].
  destruct (decide (k = j)) as [<- |]; cbn; [now rewrite !(decide_False (P := k' = k)) by congruence |].
  destruct (decide (k' = j)); [reflexivity | exact IH].
Qed.

Lemma assoc_set_keys k v l j : In j (map fst (assoc_set k v l)) -> j = k \/ In j (map fst l).
Proof.
  induction l as [| [i w] l IH]; cbn; [intuition |]. destruct (decide (k = i)) as [<- |]; cbn; [tauto |].
  intros [<- | H]; [tauto |]. destruct (IH H); tauto.
Qed.

Lemma assoc_set_nodup k v l : List.NoDup (map fst l) -> List.NoDup (map fst (assoc_set k v l)).
Proof.
  induction l as [| [i w] l IH]; cbn; [repeat constructor; auto |]. intros [Hi N]%List.NoDup_cons_iff.
  destruct (decide (k = i)) as [<- |]; cbn; [now constructor |]. constructor; [| now apply IH].
  intros [H | H]%assoc_set_keys; [congruence | contradiction].
Qed.

Lemma assoc_get_in k v l : assoc_get k l = Some v -> In (k, v) l.
Proof.
  induction l as [| [j w] l IH]; cbn; [discriminate |]. destruct (decide (k = j)) as [<- |]; [intros [= ->]; now left | auto].
Qed.

Lemma assoc_get_nodup k v l : List.NoDup (map fst l) -> In (k, v) l -> assoc_get k l = Some v.
Proof.
  induction l as [| [j w] l IH]; cbn; [intros _ [] |]. intros [Hj N]%List.NoDup_cons_iff [[= -> ->] | H]; [now rewrite decide_True |].
  rewrite decide_False; [now apply IH |]. intros ->. apply Hj. now apply (in_map fst) in H.
Qed.

Lemma assoc_get_none k l : assoc_get k l = None -> ~ In k (map fst l).
Proof.
  induction l as [| [j w] l IH]; cbn; [auto |]. destruct (decide (k = j)); [discriminate |]. intros H [<- | Hin]; [contradiction | now apply IH].
Qed.
End Assoc.

Record PoolState := mkPools {
  free_pools : list (BufferPoolKey * list Buffer); chosen_by_id : gmap Z Buffer; active_buffers : gmap Z Buffer;
  memory_saved : Z; buffers_reused : Z
}.

(** [pool.pop()]: the end of the vector. *)
Definition pop {A} (l : list A) : option (list A * A) :=
  match rev l with x :: r => Some (rev r, x) | [] => None end.

Definition process_event (m : gmap Z BufferLiveness) (e : BufferEvent) (s : PoolState) : PoolState :=
  let id := BufferEvent.buffer_id e in
  match m !! id with
  | None => s
  | Some info =>
      let pool_key := BufferLiveness.pool_key info in
      if BufferEvent.is_alloc e then
        match (let? pool := assoc_get pool_key (free_pools s) in pop pool) with
        | Some (rest, reused) =>
            mkPools (assoc_set pool_key rest (free_pools s)) (<[id := reused]> (chosen_by_id s))
              (<[id := reused]> (active_buffers s)) (memory_saved s + BufferPoolKey.size pool_key) (buffers_reused s + 1)
        | None =>
            let p := BufferLiveness.prototype info in
            mkPools (free_pools s) (<[id := p]> (chosen_by_id s)) (<[id := p]> (active_buffers s))
              (memory_saved s) (buffers_reused s)
        end
      else
        match active_buffers s !! id with
        | Some buffer =>
            mkPools (assoc_set pool_key (default [] (assoc_get pool_key (free_pools s)) ++ [buffer]) (free_pools s))
              (chosen_by_id s) (delete id (active_buffers s)) (memory_saved s) (buffers_reused s)
        | None => s
        end
  end.

Definition run_events (m : gmap Z BufferLiveness) (events : list BufferEvent) : PoolState :=
  fold_left (fun s e => process_event m e s) events (mkPools [] ∅ ∅ 0 0).

(** The sum over the distinct handles chosen. *)
Definition distinct_bytes (m : gmap Z Buffer) : Z :=
  (map_fold (fun _ b (acc : gset Z * Z) =>
     if bool_decide (Buffer.id b ∈ acc.1) then acc else ({[Buffer.id b]} ∪ acc.1, acc.2 + Buffer.size b)) (∅, 0) m).2.

Definition replace_chosen (chosen : gmap Z Buffer) (r : gmap BufferKey Buffer) (ko : BufferKey * Z) : gmap BufferKey Buffer :=
  match chosen !! ko.2 with
  | Some c => if Buffer.id c =? ko.2 then r else <[ko.1 := c]> r
  | None => r
  end.
Definition replacements (chosen : gmap Z Buffer) (occ : list (BufferKey * Z)) : gmap BufferKey Buffer :=
  fold_left (replace_chosen chosen) occ ∅.

Definition process_events (events : list BufferEvent) (m : gmap Z BufferLiveness) (occ : list (BufferKey * Z)) :
    gmap BufferKey Buffer * Z * Z * Z :=
  let s := run_events m events in
  (replacements (chosen_by_id s) occ, memory_saved s, buffers_reused s, distinct_bytes (chosen_by_id s)).

(** ** Arenas ([PlannerMode::Arena]) *)
Definition LaneKey : Type := DeviceSpec * BufferSpec.
Definition lane_of (info : BufferLiveness) : LaneKey :=
  (Buffer.device_spec (BufferLiveness.prototype info), Buffer.spec (BufferLiveness.prototype info)).

Record ArenaState := mkArena {
  tlsfs : list (LaneKey * TlsfAllocator); offsets : gmap Z Z; peaks : list (LaneKey * Z)
}.

Definition rounded (info : BufferLiveness) : Z := round_up (proto_size info) MIN_BLOCK_SIZE.

(** [inr]: the allocator reports an error and nothing is planned. *)
Definition arena_event (m : gmap Z BufferLiveness) (arena_budget : Z) (e : BufferEvent) (s : ArenaState) :
    option (ArenaState + TlsfError) :=
  let id := BufferEvent.buffer_id e in
  let? info := m !! id in
  let lane := lane_of info in
  let? alloc :=
    match assoc_get lane (tlsfs s) with
    | Some t => Some t
    | None => Tlsf.new arena_budget 0 MIN_BLOCK_SIZE 32
    end in
  if BufferEvent.is_alloc e then
    let? (alloc, r) := Tlsf.alloc (rounded info) 1 alloc in
    match r with
    | inr err => Some (inr err)
    | inl off =>
        let used_end := off + proto_size info in
        Some (inl (mkArena (assoc_set lane alloc (tlsfs s)) (<[id := off]> (offsets s))
          (assoc_set lane (Z.max (default 0 (assoc_get lane (peaks s))) used_end) (peaks s))))
    end
  else
    match offsets s !! id with
    | Some off =>
        let? (alloc, r) := Tlsf.free off alloc in
        match r with
        | Some err => Some (inr err)
        | None => Some (inl (mkArena (assoc_set lane alloc (tlsfs s)) (offsets s) (peaks s)))
        end
    | None => Some (inl (mkArena (assoc_set lane alloc (tlsfs s)) (offsets s) (peaks s)))
    end.

Fixpoint arena_events (m : gmap Z BufferLiveness) (arena_budget : Z) (events : list BufferEvent) (s : ArenaState) :
    option (ArenaState + TlsfError) :=
  match events with
  | [] => Some (inl s)
  | e :: events =>
      let? r := arena_event m arena_budget e s in
      match r with inl s => arena_events m arena_budget events s | inr err => Some (inr err) end
  end.

(** The first prototype of every lane. *)
Definition lane_protos (m : gmap Z BufferLiveness) : list (LaneKey * Buffer) :=
  fold_left (fun l kv =>
    match assoc_get (lane_of kv.2) l with
    | Some _ => l
    | None => assoc_set (lane_of kv.2) (BufferLiveness.prototype kv.2) l
    end) (map_to_list m) [].

(** One buffer per lane; [expect] panics without a prototype. *)
Fixpoint make_arenas (protos : list (LaneKey * Buffer)) (peaks : list (LaneKey * Z)) (arenas : list (LaneKey * Buffer))
    (next_id : Z) : option (list (LaneKey * Buffer) * Z) :=
  match peaks with
  | [] => Some (arenas, next_id)
  | (lane, peak) :: peaks =>
      if peak =? 0 then make_arenas protos peaks arenas next_id
      else
        let? prototype := assoc_get lane protos in
        let '(arena, next_id) :=
          Buffer.new (Buffer.device_spec prototype) (Scalar UInt8) [round_up peak MIN_BLOCK_SIZE] lane.2 next_id in
        make_arenas protos peaks (assoc_set lane arena arenas) next_id
  end.

(** The views; [inr]: a view fails and nothing is planned. *)
Fixpoint make_views (m : gmap Z BufferLiveness) (offs : gmap Z Z) (arenas : list (LaneKey * Buffer)) (occ : list (BufferKey * Z))
    (r : gmap BufferKey Buffer) (reused next_id : Z) : option (gmap BufferKey Buffer * Z * Z + Z) :=
  match occ with
  | [] => Some (inl (r, reused, next_id))
  | (key, buf_id) :: occ =>
      match offs !! buf_id with
      | None => make_views m offs arenas occ r reused next_id
      | Some offset =>
          let? info := m !! buf_id in
          match assoc_get (lane_of info) arenas with
          | None => make_views m offs arenas occ r reused next_id
          | Some arena =>
              let? v := Buffer.view arena offset (proto_size info) next_id in
              match v with
              | inl (view, next_id) => make_views m offs arenas occ (<[key := view]> r) (reused + 1) next_id
              | inr _ => Some (inr next_id)
              end
          end
      end
  end.

Module MemoryPlannerResult.
Record t := mk {
  buffer_replace : gmap BufferKey Buffer; memory_saved : Z; buffers_reused : Z; metrics : Metrics.t
}.
End MemoryPlannerResult.
Abbreviation MemoryPlannerResult := MemoryPlannerResult.t.

Definition with_physical (physical reused_allocations reused_bytes committed fragmentation : Z) (m : Metrics.t) : Metrics.t :=
  Metrics.mk (Metrics.mode m) (Metrics.logical_allocations m) (Metrics.logical_bytes m) (Metrics.rounded_bytes m)
    (Metrics.logical_peak_bytes m) committed physical (Metrics.padding_bytes m) fragmentation reused_allocations
    reused_bytes (Metrics.exclusions m).

Definition empty_result (m : Metrics.t) : MemoryPlannerResult :=
  MemoryPlannerResult.mk ∅ 0 0 (with_physical (Metrics.logical_bytes m) 0 0 0 0 m).

(** [usize::saturating_sub] and [saturating_mul]. *)
Definition saturating_sub (a b : Z) : Z := Z.max 0 (a - b).
Definition saturating_mul (a b : Z) : Z := Z.min (a * b) (2 ^ 64 - 1).

Definition arena_budget (m : gmap Z BufferLiveness) : Z := Z.max (saturating_mul (sum_over rounded m) 2) MIN_BLOCK_SIZE.

(** The result and the next buffer identity. *)
Definition memory_plan_arena (allocated output_buffer_ids : gset Z) (schedule : Schedule) (item_levels : list Z) (next_id : Z) :
    option (MemoryPlannerResult * Z) :=
  let? input := analyze_liveness allocated output_buffer_ids schedule item_levels Arena in
  let m := liveness input in
  let metrics := input_metrics input in
  if bool_decide (m = ∅) then Some (empty_result metrics, next_id)
  else
    let? r := arena_events m (arena_budget m) (build_event_timeline m) (mkArena [] ∅ []) in
    match r with
    | inr _ => Some (empty_result metrics, next_id)
    | inl s =>
        let? (arenas, next_id) := make_arenas (lane_protos m) (peaks s) [] next_id in
        let? v := make_views m (offsets s) arenas (occurrences input) ∅ 0 next_id in
        match v with
        | inr next_id => Some (empty_result metrics, next_id)
        | inl (buffer_replace, reused, next_id) =>
            let arena_total := fold_right (fun lp s => round_up lp.2 MIN_BLOCK_SIZE + s) 0 (peaks s) in
            Some (MemoryPlannerResult.mk buffer_replace (saturating_sub (sum_over rounded m) arena_total) reused
              (with_physical arena_total (saturating_sub (Metrics.logical_allocations metrics) (Z.of_nat (List.length arenas)))
                 (saturating_sub (Metrics.logical_bytes metrics) arena_total) arena_total
                 (saturating_sub arena_total (Metrics.logical_peak_bytes metrics)) metrics), next_id)
        end
    end.

Definition memory_planner (allocated output_buffer_ids : gset Z) (schedule : Schedule) (item_levels : list Z)
    (mode : PlannerMode) (next_id : Z) : option (MemoryPlannerResult * Z) :=
  match schedule with
  | [] => Some (MemoryPlannerResult.mk ∅ 0 0 (Metrics.empty mode), next_id)
  | _ =>
      match mode with
      | Arena => memory_plan_arena allocated output_buffer_ids schedule item_levels next_id
      | _ =>
          let? input := analyze_liveness allocated output_buffer_ids schedule item_levels mode in
          let metrics := input_metrics input in
          match mode with
          | Disabled => Some (empty_result metrics, next_id)
          | _ =>
              let m := liveness input in
              if bool_decide (m = ∅) then Some (MemoryPlannerResult.mk ∅ 0 0 metrics, next_id)
              else
                let '(buffer_replace, saved, reused, physical_bytes) :=
                  process_events (build_event_timeline m) m (occurrences input) in
                Some (MemoryPlannerResult.mk buffer_replace saved reused
                  (with_physical physical_bytes reused (saturating_sub (Metrics.logical_bytes metrics) physical_bytes) 0 0 metrics),
                  next_id)
          end
      end
  end.

(** Every handle of the schedule that has a replacement is swapped. *)
Definition replace_buffers (r : gmap BufferKey Buffer) (k : nat) (l : list Buffer) : list Buffer :=
  imap (fun j b => default b (r !! BufferKey.mk k j)) l.
Definition apply_buffer_replacements (schedule : Schedule) (r : gmap BufferKey Buffer) : Schedule :=
  imap (fun k it =>
    ScheduleItem.mk (ScheduleItem.kernel it) (ScheduleItem.ast it) (replace_buffers r k (ScheduleItem.buffers it))
      (ScheduleItem.buffer_uop_ids it) (ScheduleItem.dependencies it) (ScheduleItem.instance_dependencies it)) schedule.

(** ** The timeline *)
Section Timeline.
Context (m : gmap Z BufferLiveness).
Context (Hm : forall id info, m !! id = Some info -> BufferLiveness.first_level info <= BufferLiveness.last_level info).

Definition alloc_of (id : Z) (info : BufferLiveness) : BufferEvent := BufferEvent.mk (BufferLiveness.first_level info) true id.
Definition free_of (id : Z) (info : BufferLiveness) : BufferEvent := BufferEvent.mk (BufferLiveness.last_level info + 1) false id.

(** Level intervals that meet. *)
Definition meet (a b : BufferLiveness) : Prop :=
  BufferLiveness.first_level a <= BufferLiveness.last_level b /\ BufferLiveness.first_level b <= BufferLiveness.last_level a.

#[local] Instance event_le_trans : Transitive event_le.
Proof.
  intros [t1 a1 i1] [t2 a2 i2] [t3 a3 i3]. unfold event_le, Bool.lt. cbn. destruct a1, a2, a3; cbn; intuition (try congruence); lia.
Qed.
#[local] Instance event_le_total : Total event_le.
Proof.
  intros [t1 a1 i1] [t2 a2 i2]. unfold event_le, Bool.lt. cbn.
  destruct (Z.lt_trichotomy t1 t2) as [? | [-> | ?]]; [left; now left | | right; now left].
  destruct a1, a2; [| right; now right; split; [| left] | left; now right; split; [| left] |];
    (destruct (Z.le_ge_cases i1 i2); [left | right]; right; auto).
Qed.

Lemma in_timeline e :
  In e (build_event_timeline m) <-> exists id info, m !! id = Some info /\ (e = alloc_of id info \/ e = free_of id info).
Proof using m.
  unfold build_event_timeline. rewrite (merge_sort_Permutation event_le), in_concat. split.
  - intros (l & Hl & He). apply in_map_iff in Hl as ([id info] & <- & Hin).
    rewrite <- list_elem_of_In in Hin. apply elem_of_map_to_list in Hin. exists id, info. split; [exact Hin |].
    cbn in He. unfold alloc_of, free_of. intuition.
  - intros (id & info & Hi & He). exists (events_of id info). split.
    + apply in_map_iff. exists (id, info). split; [reflexivity |]. now apply list_elem_of_In, elem_of_map_to_list.
    + unfold alloc_of, free_of in He. cbn. intuition.
Qed.

Lemma timeline_sorted : StronglySorted event_le (build_event_timeline m).
Proof using m. apply StronglySorted_merge_sort; apply _. Qed.

Lemma timeline_nodup : List.NoDup (build_event_timeline m).
Proof using m.
  unfold build_event_timeline. rewrite (merge_sort_Permutation event_le).
  assert (N : List.NoDup (map fst (map_to_list m))) by apply NoDup_ListNoDup, NoDup_fst_map_to_list.
  induction (map_to_list m) as [| [id info] l IH]; cbn; [constructor |]. cbn in N. apply List.NoDup_cons_iff in N as [Hn N].
  assert (Hout : forall t a, ~ In (BufferEvent.mk t a id) (concat (map (fun kv => events_of kv.1 kv.2) l))).
  { intros t a (k & Hk & He)%in_concat. apply in_map_iff in Hk as ([j i] & <- & Hj). apply Hn.
    apply in_map_iff. exists (j, i). split; [| exact Hj]. cbn in He. now destruct He as [[= _ _ ->] | [[= _ _ ->] | []]]. }
  constructor; [cbn; intros [[=] | H]; exact (Hout _ _ H) |]. constructor; [apply Hout | now apply IH].
Qed.

(** What has happened when an event is processed. *)
Lemma before_alloc done rest id info :
  build_event_timeline m = done ++ alloc_of id info :: rest -> m !! id = Some info ->
  ~ In (alloc_of id info) done /\ ~ In (free_of id info) done /\
  forall a ia, m !! a = Some ia -> meet ia info -> ~ In (free_of a ia) done.
Proof using Hm.
  intros E Hi. pose proof timeline_nodup as N. pose proof timeline_sorted as S. rewrite E in N, S.
  assert (Hle : forall e, In e done -> event_le e (alloc_of id info)).
  { intros e He. clear -S He. induction done as [| d done IH]; [destruct He |]. cbn in S. apply StronglySorted_inv in S as [S F].
    destruct He as [<- | He]; [| now apply IH]. rewrite List.Forall_forall in F. apply F, in_app_iff. right. now left. }
  assert (Hfree : forall a ia, m !! a = Some ia -> meet ia info -> ~ In (free_of a ia) done).
  { intros a ia Ha [M1 M2] H. specialize (Hle _ H). unfold event_le, Bool.lt in Hle. cbn in Hle.
    destruct Hle as [? | [? [? | [[=] _]]]]; lia. }
  split; [| split; [| exact Hfree]].
  - intros H. apply (nodup_disjoint _ _ _ N H). now left.
  - apply Hfree; [exact Hi |]. pose proof (Hm id info Hi). split; lia.
Qed.

Lemma before_free done rest id info :
  build_event_timeline m = done ++ free_of id info :: rest -> m !! id = Some info ->
  In (alloc_of id info) done /\ ~ In (free_of id info) done.
Proof using Hm.
  intros E Hi. pose proof timeline_nodup as N. pose proof timeline_sorted as S. rewrite E in N, S. split.
  - assert (H : In (alloc_of id info) (build_event_timeline m)) by (apply in_timeline; eauto).
    rewrite E in H. apply in_app_iff in H as [H | [[=] | H]]; [exact H | exfalso].
    assert (Hle : event_le (free_of id info) (alloc_of id info)).
    { clear -S H. induction done as [| d done IH]; cbn in S; apply StronglySorted_inv in S as [S F]; [| now apply IH].
      rewrite List.Forall_forall in F. now apply F. }
    pose proof (Hm id info Hi). unfold event_le, Bool.lt in Hle. cbn in Hle.
    destruct Hle as [? | [? [[=] | [[=] _]]]]; lia.
  - intros H. apply (nodup_disjoint _ _ _ N H). now left.
Qed.

(** Allocated and not yet freed. *)
Definition active (done : list BufferEvent) (id : Z) (info : BufferLiveness) : Prop :=
  m !! id = Some info /\ In (alloc_of id info) done /\ ~ In (free_of id info) done.
Lemma active_snoc_other done e id info :
  e <> alloc_of id info -> e <> free_of id info -> active (done ++ [e]) id info <-> active done id info.
Proof using m.
  intros H1 H2. unfold active. rewrite !in_app_iff. cbn [In]. intuition congruence.
Qed.

Lemma active_snoc_alloc done id info :
  m !! id = Some info -> ~ In (free_of id info) done -> active (done ++ [alloc_of id info]) id info.
Proof using m.
  intros Hi Hf. unfold active. rewrite !in_app_iff. cbn [In]. split; [exact Hi |]. split; [auto |].
  intros [H | [[=] | []]]. exact (Hf H).
Qed.

(** *** The arena *)
Section ArenaProof.
Context (budget : Z) (Hbudget : 0 <= budget < 2 ^ 64).
Context (Hsize : forall id info, m !! id = Some info -> 0 <= proto_size info /\ rounded info < 2 ^ 62).

(** The bytes reserved for a buffer. *)
Definition reserved (info : BufferLiveness) : Z := Z.max (rounded info) MIN_BLOCK_SIZE.

Definition slot (s : ArenaState) (id : Z) : Z * Z :=
  (default 0 (offsets s !! id), match m !! id with Some info => reserved info | None => 0 end).

Record arena_inv (done : list BufferEvent) (s : ArenaState) : Prop := {
  ai_offsets id info : m !! id = Some info -> is_Some (offsets s !! id) <-> In (alloc_of id info) done;
  ai_known id : is_Some (offsets s !! id) -> is_Some (m !! id);
  ai_lanes lane t : assoc_get lane (tlsfs s) = Some t ->
    exists ids pk, refines 0 budget MIN_BLOCK_SIZE 6 t (map (slot s) ids, pk) /\ List.NoDup ids /\
      (forall id, In id ids <-> exists info, active done id info /\ lane_of info = lane) /\
      (forall a b, In a ids -> In b ids -> a <> b -> disjoint_from (slot s a).1 (slot s a).2 (slot s b));
  ai_no_lane lane : assoc_get lane (tlsfs s) = None ->
    forall id info, m !! id = Some info -> lane_of info = lane -> offsets s !! id = None;
  ai_apart a b ia ib oa ob : m !! a = Some ia -> m !! b = Some ib -> offsets s !! a = Some oa -> offsets s !! b = Some ob ->
    a <> b -> lane_of ia = lane_of ib -> meet ia ib -> disjoint_from oa (reserved ia) (ob, reserved ib);
  ai_peak id info o : m !! id = Some info -> offsets s !! id = Some o ->
    0 <= o /\ exists p, assoc_get (lane_of info) (peaks s) = Some p /\ o + proto_size info <= p;
  ai_peak_lanes : List.NoDup (map fst (peaks s)) /\
    forall lane, In lane (map fst (peaks s)) -> exists id info, m !! id = Some info /\ lane_of info = lane
}.

Lemma rounded_bounds info : 0 <= proto_size info -> proto_size info <= rounded info.
Proof. intros H. unfold rounded, round_up, MIN_BLOCK_SIZE. pose proof (Z.div_mod (proto_size info + 256 - 1) 256). pose proof (Z.mod_pos_bound (proto_size info + 256 - 1) 256). lia. Qed.

Lemma arena_start : arena_inv [] (mkArena [] ∅ []).
Proof using Hbudget.
  split; cbn.
  - intros. rewrite lookup_empty. split; [intros [? [=]] | intros []].
  - intros id. rewrite lookup_empty. intros [? [=]].
  - discriminate.
  - intros. apply lookup_empty.
  - intros a b ia ib oa ob _ _ H. now rewrite lookup_empty in H.
  - intros id info o _ H. now rewrite lookup_empty in H.
  - split; [constructor | intros lane []].
Qed.

(** The allocator of a lane, created on first use. *)
Definition lane_alloc (lane : LaneKey) (s : ArenaState) : option TlsfAllocator :=
  match assoc_get lane (tlsfs s) with Some t => Some t | None => Tlsf.new budget 0 MIN_BLOCK_SIZE 32 end.

Lemma lane_alloc_ok done s lane :
  arena_inv done s -> exists t ids pk, lane_alloc lane s = Some t /\
    refines 0 budget MIN_BLOCK_SIZE 6 t (map (slot s) ids, pk) /\ List.NoDup ids /\
    (forall id, In id ids <-> exists info, active done id info /\ lane_of info = lane) /\
    (forall a b, In a ids -> In b ids -> a <> b -> disjoint_from (slot s a).1 (slot s a).2 (slot s b)).
Proof using Hbudget.
  intros I. unfold lane_alloc. destruct (assoc_get lane (tlsfs s)) as [t |] eqn:E.
  - destruct (ai_lanes _ _ I _ _ E) as (ids & pk & H). exists t, ids, pk. now split.
  - destruct (new_refines budget 0 MIN_BLOCK_SIZE 32 ltac:(lia)) as (t & Et & R & _).
    exists t, [], 0. split; [exact Et |]. split; [exact R |]. split; [constructor |]. split; [| intros a b []].
    intros id. split; [intros [] |]. intros (info & (Hi & Ha & _) & Hl).
    apply (ai_offsets _ _ I id info Hi) in Ha. rewrite (ai_no_lane _ _ I lane E id info Hi Hl) in Ha. now destruct Ha.
Qed.

Lemma slot_ne s s' id id' o :
  offsets s' = <[id := o]> (offsets s) -> id' <> id -> slot s' id' = slot s id'.
Proof. intros E Hne. unfold slot. now rewrite E, lookup_insert_ne by congruence. Qed.

Lemma map_slot_ne s s' id o ids :
  offsets s' = <[id := o]> (offsets s) -> ~ In id ids -> map (slot s') ids = map (slot s) ids.
Proof. intros E Hn. apply map_ext_in. intros a Ha. apply (slot_ne s s' id a o E). congruence. Qed.

(** Only the lane of the event changes. *)
Lemma lanes_other done e s s' lane t :
  arena_inv done s -> assoc_get lane (tlsfs s) = Some t ->
  (forall id info, active (done ++ [e]) id info /\ lane_of info = lane <-> active done id info /\ lane_of info = lane) ->
  (forall id info, active done id info -> lane_of info = lane -> slot s' id = slot s id) ->
  exists ids pk, refines 0 budget MIN_BLOCK_SIZE 6 t (map (slot s') ids, pk) /\ List.NoDup ids /\
    (forall id, In id ids <-> exists info, active (done ++ [e]) id info /\ lane_of info = lane) /\
    (forall a b, In a ids -> In b ids -> a <> b -> disjoint_from (slot s' a).1 (slot s' a).2 (slot s' b)).
Proof using m.
  intros I E Hact Hslot. destruct (ai_lanes _ _ I _ _ E) as (ids & pk & R & N & Hids & Hd).
  assert (Hs : forall a, In a ids -> slot s' a = slot s a).
  { intros a Ha. apply Hids in Ha as (info & Ha & Hl). eauto. }
  exists ids, pk. rewrite (map_ext_in _ _ _ Hs). split; [exact R |]. split; [exact N |]. split.
  - intros id. rewrite Hids. setoid_rewrite Hact. reflexivity.
  - intros a b Ha Hb Hne. rewrite !Hs by assumption. now apply Hd.
Qed.

Lemma event_inj_alloc a b ia ib : alloc_of a ia = alloc_of b ib -> a = b.
Proof. now intros [= _ ->]. Qed.
Lemma event_inj_free a b ia ib : free_of a ia = free_of b ib -> a = b.
Proof. now intros [= _ ->]. Qed.

(** After a placement at [off] in the lane of [info]. *)
Section Placement.
Context (done rest : list BufferEvent) (id off : Z) (info : BufferLiveness) (s : ArenaState) (t' : TlsfAllocator).
Context (ids : list Z) (pk' : Z).
Context (Ev : build_event_timeline m = done ++ alloc_of id info :: rest) (Hi : m !! id = Some info) (I : arena_inv done s).
Context (N : List.NoDup ids) (Hids : forall a, In a ids <-> exists ia, active done a ia /\ lane_of ia = lane_of info).
Context (Hd : forall a b, In a ids -> In b ids -> a <> b -> disjoint_from (slot s a).1 (slot s a).2 (slot s b)).
Context (R' : refines 0 budget MIN_BLOCK_SIZE 6 t' ((off, reserved info) :: map (slot s) ids, pk')) (Hoff0 : 0 <= off).
Context (Hdis : forall a, In a ids -> disjoint_from off (reserved info) (slot s a)).

Let s' : ArenaState :=
  mkArena (assoc_set (lane_of info) t' (tlsfs s)) (<[id := off]> (offsets s))
    (assoc_set (lane_of info) (Z.max (default 0 (assoc_get (lane_of info) (peaks s))) (off + proto_size info)) (peaks s)).

Lemma placed_slot : slot s' id = (off, reserved info).
Proof using Hi. unfold slot. cbn. now rewrite lookup_insert_eq, Hi. Qed.

Lemma placed_slot_ne a : a <> id -> slot s' a = slot s a.
Proof. now apply slot_ne with (o := off). Qed.

Lemma same_info a ia : m !! a = Some ia -> a = id -> ia = info.
Proof using Hi. intros Ha ->. congruence. Qed.

Lemma placed_not_active : ~ In id ids.
Proof using Hm Ev Hi Hids.
  intros H. apply Hids in H as (info' & (Hi' & Ha & _) & _). apply same_info in Hi' as ->; [| reflexivity].
  destruct (before_alloc done rest id info Ev Hi) as (H & _). contradiction.
Qed.

Lemma placed_other a ia : a <> id -> active (done ++ [alloc_of id info]) a ia <-> active done a ia.
Proof using m.
  intros Hne. apply active_snoc_other; [intros H; apply Hne; symmetry; exact (event_inj_alloc _ _ _ _ H) | discriminate].
Qed.

Lemma placed_active : active (done ++ [alloc_of id info]) id info.
Proof using Hm Ev Hi. apply active_snoc_alloc; [exact Hi |]. exact (proj1 (proj2 (before_alloc done rest id info Ev Hi))). Qed.

Lemma placed_offsets a ia : m !! a = Some ia -> is_Some (offsets s' !! a) <-> In (alloc_of a ia) (done ++ [alloc_of id info]).
Proof using Hi I.
  intros Ha. cbn [offsets s']. rewrite in_app_iff. cbn [In]. destruct (decide (a = id)) as [-> | Hne].
  - rewrite lookup_insert_eq. rewrite (same_info id ia Ha eq_refl). split; [auto | eauto].
  - rewrite lookup_insert_ne, (ai_offsets _ _ I a ia Ha) by congruence.
    split; [auto |]. intros [H | [H | []]]; [exact H |]. apply event_inj_alloc in H. congruence.
Qed.

Lemma placed_lane :
  exists ids' pk, refines 0 budget MIN_BLOCK_SIZE 6 t' (map (slot s') ids', pk) /\ List.NoDup ids' /\
    (forall a, In a ids' <-> exists ia, active (done ++ [alloc_of id info]) a ia /\ lane_of ia = lane_of info) /\
    (forall a b, In a ids' -> In b ids' -> a <> b -> disjoint_from (slot s' a).1 (slot s' a).2 (slot s' b)).
Proof using Hbudget Hm Ev Hi N Hids Hd R' Hdis.
  pose proof placed_not_active as Hn. exists (id :: ids), pk'. cbn [map].
  rewrite placed_slot, (map_slot_ne s s' id off ids eq_refl Hn). split; [exact R' |]. split; [now constructor |]. split.
  - intros a. cbn [In]. rewrite Hids. split.
    + intros [<- | (ia & Ha & Hla)]; [eauto using placed_active |].
      destruct (decide (a = id)) as [-> | Hne]; [eauto using placed_active |]. exists ia. now rewrite placed_other.
    + intros (ia & Ha & Hla). destruct (decide (a = id)) as [-> | Hne]; [now left | right].
      exists ia. now rewrite placed_other in Ha.
  - intros a b [<- | Ha] [<- | Hb] Hab; [contradiction | | |].
    + rewrite placed_slot, placed_slot_ne by congruence. now apply Hdis.
    + rewrite placed_slot, placed_slot_ne by congruence. specialize (Hdis a Ha). unfold disjoint_from in *. cbn in *. lia.
    + rewrite !placed_slot_ne by (intros ->; contradiction). now apply Hd.
Qed.

Lemma placed_apart_new b ib ob :
  m !! b = Some ib -> offsets s !! b = Some ob -> lane_of ib = lane_of info -> meet ib info ->
  disjoint_from off (reserved info) (ob, reserved ib).
Proof using Hbudget Hm Ev Hi I Hids Hdis.
  intros Hb Hob Hlb Hmb. replace (ob, reserved ib) with (slot s b) by (unfold slot; now rewrite Hob, Hb).
  apply Hdis, Hids. exists ib. split; [| exact Hlb]. split; [exact Hb |]. split; [apply (ai_offsets _ _ I b ib Hb); eauto |].
  now apply (proj2 (proj2 (before_alloc done rest id info Ev Hi))).
Qed.

Lemma placed_apart a b ia ib oa ob :
  m !! a = Some ia -> m !! b = Some ib -> offsets s' !! a = Some oa -> offsets s' !! b = Some ob ->
  a <> b -> lane_of ia = lane_of ib -> meet ia ib -> disjoint_from oa (reserved ia) (ob, reserved ib).
Proof using Hbudget Hm Ev Hi I Hids Hdis.
  cbn [offsets s']. intros Ha Hb Hoa Hob Hab Hl Hmt.
  destruct (decide (a = id)) as [-> | Hai], (decide (b = id)) as [-> | Hbi]; [contradiction | | |].
  - rewrite lookup_insert_eq in Hoa. rewrite lookup_insert_ne in Hob by congruence. injection Hoa as <-.
    apply same_info in Ha as ->; [| reflexivity]. apply (placed_apart_new b); auto. unfold meet in *; tauto.
  - rewrite lookup_insert_eq in Hob. rewrite lookup_insert_ne in Hoa by congruence. injection Hob as <-.
    apply same_info in Hb as ->; [| reflexivity]. pose proof (placed_apart_new a ia oa Ha Hoa Hl Hmt) as H.
    unfold disjoint_from in *. cbn in *. lia.
  - rewrite lookup_insert_ne in Hoa, Hob by congruence. exact (ai_apart _ _ I a b ia ib oa ob Ha Hb Hoa Hob Hab Hl Hmt).
Qed.

Lemma placed_peak a ia oa : m !! a = Some ia -> offsets s' !! a = Some oa ->
  0 <= oa /\ exists p, assoc_get (lane_of ia) (peaks s') = Some p /\ oa + proto_size ia <= p.
Proof using Hi I Hoff0.
  cbn [offsets peaks s']. intros Ha Hoa. destruct (decide (a = id)) as [-> | Hai].
  - rewrite lookup_insert_eq in Hoa. injection Hoa as <-. apply same_info in Ha as ->; [| reflexivity]. split; [exact Hoff0 |].
    rewrite assoc_get_set_eq. eexists. split; [reflexivity |]. lia.
  - rewrite lookup_insert_ne in Hoa by congruence. destruct (ai_peak _ _ I a ia oa Ha Hoa) as (Hz & p & Hp & Hle).
    split; [exact Hz |]. destruct (decide (lane_of info = lane_of ia)) as [He | Hne].
    + rewrite He, assoc_get_set_eq, Hp. eexists. split; [reflexivity |]. cbn. lia.
    + rewrite assoc_get_set_ne by exact Hne. eauto.
Qed.

Lemma placed_peak_lanes : List.NoDup (map fst (peaks s')) /\
  forall lane, In lane (map fst (peaks s')) -> exists id info, m !! id = Some info /\ lane_of info = lane.
Proof using Hi I.
  destruct (ai_peak_lanes _ _ I) as [P1 P2]. cbn [peaks s']. split; [now apply assoc_set_nodup |].
  intros lane Hl. apply assoc_set_keys in Hl as [-> | Hl]; eauto.
Qed.

Lemma placed_inv : arena_inv (done ++ [alloc_of id info]) s'.
Proof using Hbudget Hm Ev Hi I N Hids Hd R' Hoff0 Hdis.
  split; [exact placed_offsets | | | | exact placed_apart | exact placed_peak | exact placed_peak_lanes].
  - intros a. cbn [offsets s']. destruct (decide (a = id)) as [-> | Hne]; [eauto |].
    rewrite lookup_insert_ne by congruence. apply (ai_known _ _ I).
  - intros lane t2 Hl. cbn [tlsfs s'] in Hl. destruct (decide (lane_of info = lane)) as [<- | Hne].
    + rewrite assoc_get_set_eq in Hl. injection Hl as <-. exact placed_lane.
    + rewrite assoc_get_set_ne in Hl by exact Hne. apply (lanes_other done _ s s' lane t2 I Hl).
      * intros a ia. destruct (decide (a = id)) as [Ha | Ha]; [| now rewrite placed_other].
        split; intros [(Hia & _) Hla]; rewrite (same_info a ia Hia Ha) in Hla; contradiction.
      * intros a ia (Hia & _) Hla. apply placed_slot_ne. intros Ha. rewrite (same_info a ia Hia Ha) in Hla. contradiction.
  - intros lane Hl a ia Ha Hla. cbn [tlsfs s'] in Hl. cbn [offsets s']. destruct (decide (lane_of info = lane)) as [He | Hne].
    + rewrite He, assoc_get_set_eq in Hl. discriminate.
    + rewrite assoc_get_set_ne in Hl by exact Hne. rewrite lookup_insert_ne; [exact (ai_no_lane _ _ I lane Hl a ia Ha Hla) |].
      intros He. apply Hne. now rewrite <- (same_info a ia Ha (eq_sym He)).
Qed.
End Placement.

Lemma alloc_step done rest id info s :
  build_event_timeline m = done ++ alloc_of id info :: rest -> m !! id = Some info -> arena_inv done s ->
  exists r, arena_event m budget (alloc_of id info) s = Some r /\
    match r with inl s' => arena_inv (done ++ [alloc_of id info]) s' | inr _ => True end.
Proof using Hm Hbudget Hsize.
  intros E Hi I. destruct (Hsize id info Hi) as [Hsz Hrd]. pose proof (rounded_bounds info Hsz) as Hrb.
  destruct (lane_alloc_ok done s (lane_of info) I) as (t & ids & pk & Et & R & N & Hids & Hd).
  unfold arena_event. cbn [alloc_of BufferEvent.buffer_id BufferEvent.is_alloc]. rewrite Hi.
  unfold lane_alloc in Et. rewrite Et.
  destruct (alloc_refines 0 budget MIN_BLOCK_SIZE 6 t _ (rounded info) 1 ltac:(lia) ltac:(lia) ltac:(unfold MIN_BLOCK_SIZE; lia) R)
    as (t' & o & s1 & Es & C & R'); [cbn; unfold MIN_BLOCK_SIZE; lia |].
  cbn [step] in Es. destruct (Tlsf.alloc (rounded info) 1 t) as [[t1 r] |]; [| discriminate].
  injection Es as -> <-. destruct r as [off | err]; [| eexists; split; [reflexivity | exact Logic.I]].
  eexists. split; [reflexivity |].
  inversion C as [live peak req align o n Hal Hb Ht Hlive | | |]; subst. fold (reserved info) in n. subst n.
  eapply placed_inv; eauto.
  intros a Ha. rewrite Forall_forall in Hlive. apply Hlive. rewrite list_elem_of_In. now apply in_map.
Qed.
(** After the release of [id]. *)
Section Release.
Context (done rest : list BufferEvent) (id : Z) (info : BufferLiveness) (s : ArenaState) (t' : TlsfAllocator).
Context (ids : list Z) (pk' : Z).
Context (Ev : build_event_timeline m = done ++ free_of id info :: rest) (Hi : m !! id = Some info) (I : arena_inv done s).
Context (N : List.NoDup (id :: ids)) (Hids : forall a, In a (id :: ids) <-> exists ia, active done a ia /\ lane_of ia = lane_of info).
Context (Hd : forall a b, In a ids -> In b ids -> a <> b -> disjoint_from (slot s a).1 (slot s a).2 (slot s b)).
Context (R' : refines 0 budget MIN_BLOCK_SIZE 6 t' (map (slot s) ids, pk')).

Let s' : ArenaState := mkArena (assoc_set (lane_of info) t' (tlsfs s)) (offsets s) (peaks s).

Lemma released_alloc a ia : In (alloc_of a ia) (done ++ [free_of id info]) <-> In (alloc_of a ia) done.
Proof. rewrite in_app_iff. cbn. split; [intros [H | [[=] | []]]; exact H | auto]. Qed.

Lemma released_other a ia : a <> id -> active (done ++ [free_of id info]) a ia <-> active done a ia.
Proof using m.
  intros Hne. apply active_snoc_other; [discriminate | intros H; apply Hne; symmetry; exact (event_inj_free _ _ _ _ H)].
Qed.

Lemma released_inactive ia : ~ active (done ++ [free_of id info]) id ia.
Proof using Hi.
  intros (Ha & _ & Hf). rewrite Hi in Ha. injection Ha as <-. apply Hf, in_app_iff. right. now left.
Qed.

Lemma released_inv : arena_inv (done ++ [free_of id info]) s'.
Proof using Hbudget Hi I N Hids Hd R'.
  assert (Hnid : ~ In id ids) by (apply List.NoDup_cons_iff in N; tauto).
  split; [| exact (ai_known _ _ I) | | | exact (ai_apart _ _ I) | exact (ai_peak _ _ I) | exact (ai_peak_lanes _ _ I)].
  - intros a ia Ha. rewrite released_alloc. exact (ai_offsets _ _ I a ia Ha).
  - intros lane t2 Hl. cbn [tlsfs s'] in Hl. destruct (decide (lane_of info = lane)) as [<- | Hne].
    + rewrite assoc_get_set_eq in Hl. injection Hl as <-. exists ids, pk'. split; [exact R' |].
      split; [now apply List.NoDup_cons_iff in N |]. split; [| exact Hd]. intros a. split.
      * intros Ha. assert (a <> id) by congruence. destruct (proj1 (Hids a) (or_intror Ha)) as (ia & Hia & Hla).
        exists ia. now rewrite released_other.
      * intros (ia & Hia & Hla). destruct (decide (a = id)) as [-> | Hne]; [now apply released_inactive in Hia |].
        rewrite released_other in Hia by exact Hne. destruct (proj2 (Hids a)) as [<- | Ha]; [eauto | contradiction | exact Ha].
    + rewrite assoc_get_set_ne in Hl by exact Hne. apply (lanes_other done _ s s' lane t2 I Hl); [| reflexivity].
      intros a ia. destruct (decide (a = id)) as [-> | Ha]; [| now rewrite released_other].
      split; intros [(Hia & _) Hla]; rewrite Hi in Hia; injection Hia as <-; contradiction.
  - intros lane Hl a ia Ha Hla. cbn [tlsfs s'] in Hl. destruct (decide (lane_of info = lane)) as [He | Hne].
    + rewrite He, assoc_get_set_eq in Hl. discriminate.
    + rewrite assoc_get_set_ne in Hl by exact Hne. exact (ai_no_lane _ _ I lane Hl a ia Ha Hla).
Qed.
End Release.

Lemma reserved_pos info : 0 < reserved info.
Proof. unfold reserved, MIN_BLOCK_SIZE. lia. Qed.

Lemma free_step done rest id info s :
  build_event_timeline m = done ++ free_of id info :: rest -> m !! id = Some info -> arena_inv done s ->
  exists s', arena_event m budget (free_of id info) s = Some (inl s') /\ arena_inv (done ++ [free_of id info]) s'.
Proof using Hm Hbudget.
  intros E Hi I. destruct (before_free done rest id info E Hi) as [Ha Hnf].
  destruct (lane_alloc_ok done s (lane_of info) I) as (t & ids & pk & Et & R & N & Hids & Hd).
  assert (Hin : In id ids) by (apply Hids; exists info; now split).
  destruct (proj2 (ai_offsets _ _ I id info Hi) Ha) as [off Hoff].
  assert (Hslot : slot s id = (off, reserved info)) by (unfold slot; now rewrite Hoff, Hi).
  unfold arena_event. cbn [free_of BufferEvent.buffer_id BufferEvent.is_alloc]. rewrite Hi.
  unfold lane_alloc in Et. rewrite Et, Hoff.
  destruct (free_refines 0 budget MIN_BLOCK_SIZE 6 t _ off R) as (t' & o & s1 & Es & C & R').
  cbn [step] in Es. destruct (Tlsf.free off t) as [[t1 r] |]; [| discriminate]. injection Es as -> <-.
  inversion C as [| | live live' peak o1 n HP | live peak o1 e _ Hnot]; subst.
  2:{ exfalso. apply (Hnot (reserved info)). rewrite <- Hslot. now apply in_map. }
  destruct r; [discriminate |]. eexists. split; [reflexivity |].
  apply in_split in Hin as (i1 & i2 & ->). assert (P : Permutation (i1 ++ id :: i2) (id :: i1 ++ i2)) by (symmetry; apply Permutation_middle).
  assert (Hin : forall a, In a (id :: i1 ++ i2) <-> In a (i1 ++ id :: i2)) by (intros a; split; apply Permutation_in; [symmetry |]; exact P).
  rewrite P in N. rewrite P in HP. cbn [map] in HP. rewrite Hslot in HP.
  assert (n = reserved info) as ->.
  { assert (Hm2 : In (off, n) ((off, reserved info) :: map (slot s) (i1 ++ i2))) by (rewrite HP; now left).
    destruct Hm2 as [[= ->] | Hm2]; [reflexivity | exfalso]. apply in_map_iff in Hm2 as (a & Ea & Ha2).
    assert (a <> id) by (intros ->; apply List.NoDup_cons_iff in N; tauto).
    assert (Ia : In a (i1 ++ id :: i2)) by (apply Hin; now right).
    destruct (proj1 (Hids a) Ia) as (ia & (Hia & _) & _). unfold slot in Ea. rewrite Hia in Ea. injection Ea as Eo <-.
    assert (Iid : In id (i1 ++ id :: i2)) by (apply Hin; now left).
    specialize (Hd a id Ia Iid H). rewrite Hslot in Hd. unfold disjoint_from, slot in Hd. rewrite Hia in Hd. cbn in Hd.
    pose proof (reserved_pos ia). pose proof (reserved_pos info). lia. }
  apply Permutation_cons_inv in HP.
  apply (released_inv done id info s t' (i1 ++ i2) pk Hi I N).
  - intros a. now rewrite Hin, Hids.
  - intros a b Hx Hy. apply Hd; apply Hin; now right.
  - eapply refines_perm; [symmetry; exact HP | exact R'].
Qed.

(** The whole timeline: no panic; unless an allocator gives up, the final
    state satisfies the invariant. *)
Lemma arena_events_ok done rest s :
  build_event_timeline m = done ++ rest -> arena_inv done s ->
  exists r, arena_events m budget rest s = Some r /\
    match r with inl s' => arena_inv (build_event_timeline m) s' | inr _ => True end.
Proof using Hm Hbudget Hsize.
  revert done s. induction rest as [| e rest IH]; intros done s E I.
  - rewrite app_nil_r in E. rewrite E. now exists (inl s).
  - assert (He : In e (build_event_timeline m)) by (rewrite E; apply in_app_iff; right; now left).
    assert (E' : build_event_timeline m = (done ++ [e]) ++ rest) by (rewrite <- app_assoc; exact E).
    apply in_timeline in He as (id & info & Hi & [-> | ->]); cbn [arena_events].
    + destruct (alloc_step done rest id info s E Hi I) as ([s' | err] & -> & Hs'); [| now exists (inr err)].
      exact (IH _ s' E' Hs').
    + destruct (free_step done rest id info s E Hi I) as (s' & -> & Hs'). exact (IH _ s' E' Hs').
Qed.
End ArenaProof.

(** *** The arenas and their views *)
Lemma lane_protos_spec info id : m !! id = Some info -> exists p, assoc_get (lane_of info) (lane_protos m) = Some p.
Proof.
  intros Hi. apply elem_of_map_to_list in Hi. rewrite list_elem_of_In in Hi. unfold lane_protos.
  assert (Hkeep : forall l acc lane p, assoc_get lane acc = Some p ->
    assoc_get lane (fold_left (fun l kv => match assoc_get (lane_of kv.2) l with Some _ => l
      | None => assoc_set (lane_of kv.2) (BufferLiveness.prototype kv.2) l end) (l : list (Z * BufferLiveness)) acc) = Some p).
  { clear. induction l as [| kv l IH]; intros acc lane p H; [exact H |]. cbn. apply IH.
    destruct (assoc_get (lane_of kv.2) acc) eqn:E; [exact H |]. rewrite assoc_get_set_ne; [exact H |]. congruence. }
  revert Hi. generalize (@nil (LaneKey * Buffer)). induction (map_to_list m) as [| kv l IH]; intros acc [].
  - subst kv. cbn. destruct (assoc_get (lane_of info) acc) as [p |] eqn:E; [exists p; now apply Hkeep |].
    eexists. apply Hkeep, assoc_get_set_eq.
  - now apply IH.
Qed.

Lemma lane_protos_lane lane p :
  assoc_get lane (lane_protos m) = Some p -> (Buffer.device_spec p, Buffer.spec p) = lane.
Proof.
  unfold lane_protos. assert (H : forall l acc, (forall lane p, assoc_get lane acc = Some p -> (Buffer.device_spec p, Buffer.spec p) = lane) ->
    forall lane p, assoc_get lane (fold_left (fun l kv => match assoc_get (lane_of kv.2) l with Some _ => l
      | None => assoc_set (lane_of kv.2) (BufferLiveness.prototype kv.2) l end) (l : list (Z * BufferLiveness)) acc) = Some p ->
      (Buffer.device_spec p, Buffer.spec p) = lane).
  { clear. induction l as [| kv l IH]; intros acc Hacc; [exact Hacc |]. cbn. apply IH. intros lane p.
    destruct (assoc_get (lane_of kv.2) acc) eqn:E; [apply Hacc |].
    destruct (decide (lane_of kv.2 = lane)) as [<- | Hne].
    - rewrite assoc_get_set_eq. now intros [= <-].
    - rewrite assoc_get_set_ne by exact Hne. apply Hacc. }
  apply H. discriminate.
Qed.

(** An arena of [peak] bytes for [lane], with identities from [lo] to [hi]. *)
Definition arena_for (lane : LaneKey) (peak lo hi : Z) (a : Buffer) : Prop :=
  Buffer.size a = round_up peak MIN_BLOCK_SIZE /\ BufferData.total_size (Buffer.data a) = Buffer.size a /\
  Buffer.offset a = 0 /\ Buffer.dtype a = Scalar UInt8 /\
  (Buffer.device_spec a, Buffer.spec a) = lane /\ lo <= Buffer.storage_id a < hi.

Definition arenas_ok (done : list (LaneKey * Z)) (lo hi : Z) (arenas : list (LaneKey * Buffer)) : Prop :=
  (forall lane a, assoc_get lane arenas = Some a -> exists p, In (lane, p) done /\ p <> 0 /\ arena_for lane p lo hi a) /\
  (forall lane p, In (lane, p) done -> p <> 0 -> exists a, assoc_get lane arenas = Some a) /\
  (forall l1 l2 a1 a2, assoc_get l1 arenas = Some a1 -> assoc_get l2 arenas = Some a2 -> l1 <> l2 ->
     Buffer.storage_id a1 <> Buffer.storage_id a2).

Lemma arenas_ok_weaken done lo hi hi' arenas : hi <= hi' -> arenas_ok done lo hi arenas -> arenas_ok done lo hi' arenas.
Proof.
  intros Hh (H1 & H2 & H3). split; [| split; [exact H2 | exact H3]].
  intros lane a Ha. destruct (H1 lane a Ha) as (p & Hp & Hz & A). exists p. unfold arena_for in *. intuition lia.
Qed.

Lemma arenas_ok_snoc done lo hi arenas lane p device dtype :
  arenas_ok done lo hi arenas -> lo <= hi -> ~ In lane (map fst done) -> p <> 0 -> (device, lane.2) = lane -> dtype = Scalar UInt8 ->
  let a := (Buffer.new device dtype [round_up p MIN_BLOCK_SIZE] lane.2 hi).1 in
  arenas_ok (done ++ [(lane, p)]) lo (hi + 2) (assoc_set lane a arenas).
Proof.
  intros (H1 & H2 & H3) Hlo Hn Hz Hdev -> a.
  assert (Ha : arena_for lane p lo (hi + 2) a).
  { unfold arena_for, a, Buffer.new, Buffer.new_with_zero_init. cbn.
    repeat split; try (cbn; lia); try (unfold Buffer.storage_id; cbn; lia). destruct lane; cbn in *. exact Hdev. }
  assert (Hsid : Buffer.storage_id a = hi + 1) by reflexivity.
  split; [| split].
  - intros l b Hb. destruct (decide (lane = l)) as [<- | Hne].
    + rewrite assoc_get_set_eq in Hb. injection Hb as <-. exists p. split; [apply in_app_iff; right; now left | now split].
    + rewrite assoc_get_set_ne in Hb by exact Hne. destruct (H1 l b Hb) as (q & Hq & Hqz & A). exists q.
      split; [apply in_app_iff; now left |]. split; [exact Hqz |]. unfold arena_for in *. intuition lia.
  - intros l q Hq Hqz. destruct (decide (lane = l)) as [<- | Hne]; [rewrite assoc_get_set_eq; eauto |].
    rewrite assoc_get_set_ne by exact Hne. apply in_app_iff in Hq as [Hq | [[= ? ?] | []]]; [eauto | congruence].
  - intros l1 l2 a1 a2 E1 E2 Hne.
    assert (Hold : forall l b, assoc_get l arenas = Some b -> Buffer.storage_id b < hi).
    { intros l b Hb. destruct (H1 l b Hb) as (q & _ & _ & A). unfold arena_for in A. intuition. }
    destruct (decide (lane = l1)) as [<- | N1]; [rewrite assoc_get_set_eq in E1; injection E1 as <- | rewrite assoc_get_set_ne in E1 by exact N1];
      (destruct (decide (lane = l2)) as [<- | N2]; [rewrite assoc_get_set_eq in E2; injection E2 as <- | rewrite assoc_get_set_ne in E2 by exact N2]);
      rewrite ?Hsid; try congruence.
    + specialize (Hold _ _ E2). lia.
    + specialize (Hold _ _ E1). lia.
    + eauto.
Qed.

Lemma make_arenas_ok pk done arenas lo next :
  (forall lane, In lane (map fst pk) -> exists id info, m !! id = Some info /\ lane_of info = lane) ->
  List.NoDup (map fst (done ++ pk)) -> lo <= next -> arenas_ok done lo next arenas ->
  exists arenas' next', make_arenas (lane_protos m) pk arenas next = Some (arenas', next') /\
    next <= next' /\ arenas_ok (done ++ pk) lo next' arenas'.
Proof using m.
  revert done arenas next. induction pk as [| [lane p] pk IH]; intros done arenas next Hl N Hlo A.
  - exists arenas, next. rewrite app_nil_r. split; [reflexivity |]. split; [lia | exact A].
  - cbn [make_arenas].
    assert (N' : List.NoDup (map fst ((done ++ [(lane, p)]) ++ pk))) by now rewrite <- app_assoc.
    assert (Hl' : forall lane, In lane (map fst pk) -> exists id info, m !! id = Some info /\ lane_of info = lane)
      by (intros l Hin; apply Hl; now right).
    assert (Hn : ~ In lane (map fst done)).
    { rewrite map_app in N. intros H. apply (nodup_disjoint _ _ _ N H). now left. }
    destruct (Z.eqb_spec p 0) as [-> | Hz].
    + assert (A' : arenas_ok (done ++ [(lane, 0)]) lo next arenas).
      { destruct A as (A1 & A2 & A3). split; [| split; [| exact A3]].
        - intros l a Ha. destruct (A1 l a Ha) as (q & Hq & R). exists q. split; [apply in_app_iff; now left | exact R].
        - intros l q Hq Hqz. apply in_app_iff in Hq as [Hq | [[= _ <-] | []]]; [eauto | contradiction]. }
      destruct (IH _ _ _ Hl' N' Hlo A') as (ar & nx & E & R). rewrite <- app_assoc in R. eauto.
    + destruct (Hl lane ltac:(now left)) as (id & info & Hi & <-). destruct (lane_protos_spec info id Hi) as [pr Hpr].
      rewrite Hpr. pose proof (lane_protos_lane _ _ Hpr) as Hdev. injection Hdev as Hd1 Hd2.
      cbn [Buffer.new Buffer.new_with_zero_init].
      pose proof (arenas_ok_snoc done lo next arenas (lane_of info) p (Buffer.device_spec pr) (Scalar UInt8) A Hlo Hn Hz) as A'.
      cbn zeta in A'. rewrite Hd1 in *. specialize (A' eq_refl eq_refl).
      assert (Hlo2 : lo <= next + 2) by lia. destruct (IH _ _ _ Hl' N' Hlo2 A') as (ar & nx & E & Hle & R). rewrite <- app_assoc in R.
      exists ar, nx. split; [exact E |]. split; [lia | exact R].
Qed.

(** The view that replaces an occurrence. *)
Definition view_of (offs : gmap Z Z) (arenas : list (LaneKey * Buffer)) (buf_id : Z) (v : Buffer) : Prop :=
  exists off info a, offs !! buf_id = Some off /\ m !! buf_id = Some info /\ assoc_get (lane_of info) arenas = Some a /\
    Buffer.data v = Buffer.data a /\ Buffer.offset v = Buffer.offset a + off /\ Buffer.size v = proto_size info /\
    off + proto_size info <= Buffer.size a.

Lemma make_views_ok offs arenas occ r reused next :
  (forall id, is_Some (offs !! id) -> is_Some (m !! id)) ->
  (forall lane a, assoc_get lane arenas = Some a -> Buffer.dtype a = Scalar UInt8) ->
  (forall id off info a, offs !! id = Some off -> m !! id = Some info -> assoc_get (lane_of info) arenas = Some a ->
     off + proto_size info <= Buffer.size a) ->
  exists r' reused' next', make_views m offs arenas occ r reused next = Some (inl (r', reused', next')) /\ next <= next' /\
    (forall key v, r' !! key = Some v -> r !! key = Some v \/ exists id, In (key, id) occ /\ view_of offs arenas id v) /\
    (forall key, is_Some (r !! key) -> is_Some (r' !! key)) /\
    (forall key id info, In (key, id) occ -> is_Some (offs !! id) -> m !! id = Some info ->
       is_Some (assoc_get (lane_of info) arenas) -> is_Some (r' !! key)).
Proof.
  intros Hk Hdt Hfit. revert r reused next. induction occ as [| [key id] occ IH]; intros r reused next.
  { exists r, reused, next. cbn [make_views]. repeat split; auto; [lia |]. intros ? ? ? []. }
  cbn [make_views]. destruct (offs !! id) as [off |] eqn:Eo.
  2:{ destruct (IH r reused next) as (r' & n & nx & E & Hn & H1 & H2 & H3). exists r', n, nx. split; [exact E |]. split; [exact Hn |].
      split; [| split; [exact H2 |]].
      - intros k v Hv. destruct (H1 k v Hv) as [H | (i & Hi & V)]; [now left | right; exists i; split; [now right | exact V]].
      - intros k i info [[= <- <-] | Hin] Hs; [rewrite Eo in Hs; now destruct Hs | now apply (H3 k i info)]. }
  destruct (Hk id) as [info Hi]; [eauto |]. rewrite Hi.
  destruct (assoc_get (lane_of info) arenas) as [a |] eqn:Ea.
  2:{ destruct (IH r reused next) as (r' & n & nx & E & Hn & H1 & H2 & H3). exists r', n, nx. split; [exact E |]. split; [exact Hn |].
      split; [| split; [exact H2 |]].
      - intros k v Hv. destruct (H1 k v Hv) as [H | (i & Hi' & V)]; [now left | right; exists i; split; [now right | exact V]].
      - intros k i info' [[= <- <-] | Hin] Hs Hi' Ha; [| now apply (H3 k i info')].
        rewrite Hi in Hi'. injection Hi' as <-. rewrite Ea in Ha. now destruct Ha. }
  pose proof (Hfit id off info a Eo Hi Ea) as Hle. unfold Buffer.view.
  rewrite (proj2 (Z.ltb_ge _ _)) by exact Hle. rewrite (Hdt _ _ Ea). cbn [DType.bytes ScalarDType.bytes Z.eqb].
  set (v0 := Buffer.mk next _ _ _ _ _).
  destruct (IH (<[key := v0]> r) (reused + 1) (next + 1)) as (r' & n & nx & E & Hn & H1 & H2 & H3).
  exists r', n, nx. split; [exact E |]. split; [lia |]. split; [| split].
  - intros k v Hv. destruct (H1 k v Hv) as [H | (i & Hi' & V)]; [| right; exists i; split; [now right | exact V]].
    destruct (decide (key = k)) as [<- | Hne]; [| rewrite lookup_insert_ne in H by exact Hne; now left].
    rewrite lookup_insert_eq in H. injection H as <-. right. exists id. split; [now left |]. exists off, info, a. now repeat split.
  - intros k Hs. apply H2. destruct (decide (key = k)) as [<- | Hne]; [rewrite lookup_insert_eq; eauto |].
    now rewrite lookup_insert_ne.
  - intros k i info' [[= <- <-] | Hin] Hs Hi' Ha; [apply H2; rewrite lookup_insert_eq; eauto | now apply (H3 k i info')].
Qed.
End Timeline.

(** ** Liveness of a schedule *)

(** The visits of the analysis: every handle, its place and its level. *)
Definition visit : Type := BufferKey * Z * Buffer.
Definition visits_at (level : Z) (step_idx k : nat) (l : list Buffer) : list visit :=
  imap (fun j b => (BufferKey.mk step_idx (k + j), level, b)) l.

Fixpoint visits (item_levels : list Z) (step_idx : nat) (schedule : Schedule) : option (list visit) :=
  match schedule with
  | [] => Some []
  | item :: schedule =>
      let? level := item_levels !! step_idx in
      let? vs := visits item_levels (Datatypes.S step_idx) schedule in
      Some (visits_at level step_idx 0 (ScheduleItem.buffers item) ++ vs)
  end.

Section Analysis.
Context (allocated output_buffer_ids : gset Z).

Definition visit_one (excluded : ExcludedBufferIds.t) (s : LivenessState) (v : visit) : LivenessState :=
  visit_buffer allocated output_buffer_ids excluded v.1.2 v.1.1 v.2 s.

Lemma visit_buffers_fold excluded level step_idx k l s :
  visit_buffers allocated output_buffer_ids excluded level step_idx k l s =
  fold_left (visit_one excluded) (visits_at level step_idx k l) s.
Proof.
  unfold visits_at. revert k s. induction l as [| b l IH]; intros k s; [reflexivity |].
  cbn [visit_buffers imap fold_left]. rewrite Nat.add_0_r, IH. f_equal. apply imap_ext. intros j x _. cbn. do 3 f_equal. lia.
Qed.

Lemma visit_items_fold excluded levels k schedule s :
  visit_items allocated output_buffer_ids excluded levels k schedule s =
  (let? vs := visits levels k schedule in Some (fold_left (visit_one excluded) vs s)).
Proof.
  revert k s. induction schedule as [| item schedule IH]; intros k s; cbn [visit_items visits]; [reflexivity |].
  destruct (levels !! k) as [level |]; [| reflexivity]. rewrite IH, visit_buffers_fold.
  destruct (visits levels (Datatypes.S k) schedule); [| reflexivity]. now rewrite fold_left_app.
Qed.

Definition kept (excluded : ExcludedBufferIds.t) (b : Buffer) : Prop :=
  exclusion_reason allocated output_buffer_ids b excluded = None.

Record live_inv (excluded : ExcludedBufferIds.t) (vs : list visit) (s : LivenessState) : Prop := {
  li_covers k l b : In (k, l, b) vs -> kept excluded b ->
    exists info, ls_liveness s !! Buffer.id b = Some info /\
      BufferLiveness.first_level info <= l <= BufferLiveness.last_level info;
  li_info id info : ls_liveness s !! id = Some info ->
    (exists k l, In (k, l, BufferLiveness.prototype info) vs) /\
    kept excluded (BufferLiveness.prototype info) /\ Buffer.id (BufferLiveness.prototype info) = id /\
    BufferLiveness.pool_key info = pool_key_of (BufferLiveness.prototype info) /\
    (exists k b, In (k, BufferLiveness.first_level info, b) vs /\ Buffer.id b = id) /\
    (exists k b, In (k, BufferLiveness.last_level info, b) vs /\ Buffer.id b = id) /\
    BufferLiveness.first_level info <= BufferLiveness.last_level info;
  li_occ k id : In (k, id) (ls_occurrences s) <-> exists l b, In (k, l, b) vs /\ kept excluded b /\ Buffer.id b = id
}.

Lemma live_inv_nil excluded : live_inv excluded [] (mkLive ∅ [] ∅ ∅).
Proof.
  split; cbn; [intros ? ? ? [] | intros id info; rewrite lookup_empty; discriminate |].
  intros k id. split; [intros [] | intros (? & ? & [] & _)].
Qed.

Lemma live_inv_snoc excluded vs s k l b :
  live_inv excluded vs s -> live_inv excluded (vs ++ [(k, l, b)]) (visit_one excluded s (k, l, b)).
Proof.
  intros [H1 H2 H3]. unfold visit_one, visit_buffer. cbn [fst snd].
  assert (Hin : forall x, In x (vs ++ [(k, l, b)]) <-> In x vs \/ x = (k, l, b))
    by (intros x; rewrite in_app_iff; cbn; intuition).
  destruct (exclusion_reason allocated output_buffer_ids b excluded) as [reason |] eqn:Er.
  - set (s2 := if bool_decide _ then s else _).
    assert (E : ls_liveness s2 = ls_liveness s /\ ls_occurrences s2 = ls_occurrences s) by (subst s2; now destruct (bool_decide _)).
    destruct E as [E1 E2]. split; rewrite ?E1, ?E2.
    + intros k0 l0 b0 [Hv | [= -> -> ->]]%Hin Hk; [now apply (H1 k0) |]. unfold kept in Hk. congruence.
    + intros id info Hi. destruct (H2 id info Hi) as ((k1 & l1 & A) & B & C & D & (k2 & b2 & F & F') & (k3 & b3 & G & G') & O).
      setoid_rewrite Hin. eauto 20.
    + intros k0 id. rewrite H3. setoid_rewrite Hin. split; [intros (l0 & b0 & ? & ?); eauto |].
      intros (l0 & b0 & [Hv | [= -> -> ->]] & Hk & Hi); [eauto |]. unfold kept in Hk. congruence.
  - set (info0 := match ls_liveness s !! Buffer.id b with Some i => _ | None => _ end).
    assert (Hb : BufferLiveness.first_level info0 <= l <= BufferLiveness.last_level info0 /\
      forall i, ls_liveness s !! Buffer.id b = Some i ->
        BufferLiveness.first_level info0 <= BufferLiveness.first_level i /\ BufferLiveness.last_level i <= BufferLiveness.last_level info0).
    { subst info0. destruct (ls_liveness s !! Buffer.id b) as [i |]; cbn; (split; [lia |]); intros j [= <-]; lia. }
    destruct Hb as [Hb1 Hb2]. split; cbn [ls_liveness ls_occurrences].
    + intros k0 l0 b0 Hv Hk. apply Hin in Hv as [Hv | [= -> -> ->]]; [| rewrite lookup_insert_eq; eauto].
      destruct (H1 k0 l0 b0 Hv Hk) as (i & Hi & Hl). destruct (decide (Buffer.id b = Buffer.id b0)) as [He | Hne].
      * rewrite <- He in Hi |- *. rewrite lookup_insert_eq. exists info0. split; [reflexivity |]. specialize (Hb2 i Hi). lia.
      * rewrite lookup_insert_ne by exact Hne. eauto.
    + intros id info. setoid_rewrite Hin. destruct (decide (Buffer.id b = id)) as [<- | Hne].
      * rewrite lookup_insert_eq. intros [= <-]. subst info0. destruct (ls_liveness s !! Buffer.id b) as [i |] eqn:Ei; cbn in *.
        -- destruct (H2 _ i Ei) as ((k1 & l1 & A) & B & C & D & (k2 & b2 & F & F') & (k3 & b3 & G & G') & O).
           split; [eauto |]. split; [exact B |]. split; [exact C |]. split; [exact D |].
           split; [destruct (Z.min_spec (BufferLiveness.first_level i) l) as [[_ ->] | [_ ->]]; eauto 8 |].
           split; [destruct (Z.max_spec (BufferLiveness.last_level i) l) as [[_ ->] | [_ ->]]; eauto 8 | lia].
        -- split; [eauto |]. split; [exact Er |]. do 2 (split; [reflexivity |]). split; [eauto 8 |]. split; [eauto 8 | lia].
      * rewrite lookup_insert_ne by exact Hne. intros Hi.
        destruct (H2 id info Hi) as ((k1 & l1 & A) & B & C & D & (k2 & b2 & F & F') & (k3 & b3 & G & G') & O). eauto 20.
    + intros k0 id. rewrite in_app_iff, H3. cbn [In]. setoid_rewrite Hin. split.
      * intros [(l0 & b0 & ? & ?) | [[= <- <-] | []]]; [eauto | exists l, b; split; [now right | now split]].
      * intros (l0 & b0 & [Hv | [= -> -> ->]] & Hk & Hi); [left; eauto | right; left; congruence].
Qed.

Lemma live_inv_fold excluded vs : live_inv excluded vs (fold_left (visit_one excluded) vs (mkLive ∅ [] ∅ ∅)).
Proof.
  induction vs as [| [[k l] b] vs IH] using rev_ind; [apply live_inv_nil |].
  rewrite fold_left_app. now apply live_inv_snoc.
Qed.
End Analysis.

(** ** Safety of the plans *)

(** The handle in a slot of the schedule. *)
Definition handle_at (schedule : Schedule) (key : BufferKey) (b : Buffer) : Prop :=
  exists item, schedule !! BufferKey.kernel_idx key = Some item /\
    ScheduleItem.buffers item !! BufferKey.buffer_idx key = Some b.

(** An item of level [l] uses the buffer [id]. *)
Definition used_at (schedule : Schedule) (levels : list Z) (id l : Z) : Prop :=
  exists key b, handle_at schedule key b /\ levels !! BufferKey.kernel_idx key = Some l /\ Buffer.id b = id.

(** [l] lies between two uses of [id]. *)
Definition spans (schedule : Schedule) (levels : list Z) (id l : Z) : Prop :=
  exists l1 l2, used_at schedule levels id l1 /\ used_at schedule levels id l2 /\ l1 <= l <= l2.

(** A handle identity names one handle. *)
Definition consistent (schedule : Schedule) : Prop :=
  forall k1 k2 b1 b2, handle_at schedule k1 b1 -> handle_at schedule k2 b2 -> Buffer.id b1 = Buffer.id b2 -> b1 = b2.

Lemma visits_in levels k0 schedule vs key l b :
  visits levels k0 schedule = Some vs ->
  In (key, l, b) vs <-> exists i item, schedule !! i = Some item /\ BufferKey.kernel_idx key = (k0 + i)%nat /\
    ScheduleItem.buffers item !! BufferKey.buffer_idx key = Some b /\ levels !! (k0 + i)%nat = Some l.
Proof.
  revert k0 vs. induction schedule as [| item schedule IH]; intros k0 vs; cbn [visits].
  { intros [= <-]. split; [intros [] | intros (i & ? & H & _); destruct i; discriminate]. }
  destruct (levels !! k0) as [level |] eqn:El; [| discriminate].
  destruct (visits levels (Datatypes.S k0) schedule) as [vs' |] eqn:Ev; [| discriminate]. intros [= <-].
  rewrite in_app_iff, (IH _ _ Ev). split.
  - intros [H | (i & it & H1 & H2 & H3 & H4)].
    + unfold visits_at in H. rewrite <- list_elem_of_In in H. apply elem_of_lookup_imap in H as (j & x & [= -> -> ->] & Hj).
      exists 0%nat, item. cbn. rewrite Nat.add_0_r. auto.
    + exists (Datatypes.S i), it. rewrite <- Nat.add_succ_comm. auto.
  - intros ([| i] & it & H1 & H2 & H3 & H4).
    + left. cbn in H1. injection H1 as <-. rewrite Nat.add_0_r in *. rewrite El in H4. injection H4 as <-.
      unfold visits_at. apply list_elem_of_In, elem_of_lookup_imap. exists (BufferKey.buffer_idx key), b. cbn.
      split; [destruct key; cbn in *; now subst | exact H3].
    + right. exists i, it. rewrite Nat.add_succ_comm in *. auto.
Qed.

Lemma visits_handle levels schedule vs key l b :
  visits levels 0 schedule = Some vs ->
  In (key, l, b) vs <-> handle_at schedule key b /\ levels !! BufferKey.kernel_idx key = Some l.
Proof.
  intros H. rewrite (visits_in _ _ _ _ key l b H). unfold handle_at. split.
  - intros (i & item & H1 & H2 & H3 & H4). cbn in H2, H4. rewrite H2. eauto.
  - intros ((item & H1 & H2) & H3). exists (BufferKey.kernel_idx key), item. auto.
Qed.

Lemma visits_total levels k0 schedule :
  (k0 + List.length schedule <= List.length levels)%nat -> exists vs, visits levels k0 schedule = Some vs.
Proof.
  revert k0. induction schedule as [| item schedule IH]; intros k0 H; cbn in *; [eauto |].
  destruct (lookup_lt_is_Some_2 levels k0 ltac:(lia)) as [l ->]. destruct (IH (Datatypes.S k0)) as [vs ->]; [lia | eauto].
Qed.

(** What the analysis finds, in terms of the schedule. *)
Section Found.
Context (allocated outputs : gset Z) (schedule : Schedule) (levels : list Z) (mode : PlannerMode).
Context (Hlen : (List.length schedule <= List.length levels)%nat) (Hcons : consistent schedule).

Definition plannable (b : Buffer) : Prop :=
  exclusion_reason allocated outputs b (collect_excluded_buffer_ids schedule) = None.

Record found (input : PlannerInput) : Prop := {
  fd_covers key b l : handle_at schedule key b -> levels !! BufferKey.kernel_idx key = Some l -> plannable b ->
    exists info, liveness input !! Buffer.id b = Some info /\
      BufferLiveness.first_level info <= l <= BufferLiveness.last_level info;
  fd_info id info : liveness input !! id = Some info ->
    (exists key, handle_at schedule key (BufferLiveness.prototype info)) /\ plannable (BufferLiveness.prototype info) /\
    Buffer.id (BufferLiveness.prototype info) = id /\
    BufferLiveness.pool_key info = pool_key_of (BufferLiveness.prototype info) /\
    used_at schedule levels id (BufferLiveness.first_level info) /\ used_at schedule levels id (BufferLiveness.last_level info) /\
    BufferLiveness.first_level info <= BufferLiveness.last_level info;
  fd_occ key id : In (key, id) (occurrences input) <-> exists b, handle_at schedule key b /\ plannable b /\ Buffer.id b = id
}.

Lemma analyze_found : exists input, analyze_liveness allocated outputs schedule levels mode = Some input /\ found input.
Proof using Hlen.
  unfold analyze_liveness. rewrite visit_items_fold. destruct (visits_total levels 0 schedule Hlen) as [vs Hvs]. rewrite Hvs.
  eexists. split; [reflexivity |].
  pose proof (live_inv_fold allocated outputs (collect_excluded_buffer_ids schedule) vs) as [H1 H2 H3].
  pose proof (fun key l b => visits_handle levels schedule vs key l b Hvs) as Hv. split; cbn [liveness occurrences].
  - intros key b l Hh Hl Hp. apply (H1 key l b); [now apply Hv | exact Hp].
  - intros id info Hi. destruct (H2 id info Hi) as ((k1 & l1 & A) & B & C & D & (k2 & b2 & F & F') & (k3 & b3 & G & G') & O).
    apply Hv in A as [A _]. apply Hv in F as [F F2]. apply Hv in G as [G G2]. unfold used_at. eauto 20.
  - intros key id. rewrite H3. split.
    + intros (l & b & Hin & Hk & Hid). apply Hv in Hin as [Hin _]. eauto.
    + intros (b & Hh & Hk & Hid). pose proof Hh as (item & Hit & _). apply lookup_lt_Some in Hit.
      destruct (lookup_lt_is_Some_2 levels (BufferKey.kernel_idx key) ltac:(lia)) as [l Hl].
      exists l, b. split; [now apply Hv | now split].
Qed.

(** Any level the uses of a buffer span lies in its interval. *)
Lemma spans_live input id info l :
  found input -> liveness input !! id = Some info -> spans schedule levels id l ->
  BufferLiveness.first_level info <= l <= BufferLiveness.last_level info.
Proof using Hcons Hlen.
  intros F Hi (l1 & l2 & (k1 & b1 & A1 & A2 & A3) & (k2 & b2 & B1 & B2 & B3) & Hl).
  destruct (fd_info _ F id info Hi) as ((k & Hk) & Hp & Hid & _).
  assert (b1 = BufferLiveness.prototype info) as -> by (eapply Hcons; eauto; congruence).
  assert (b2 = BufferLiveness.prototype info) as -> by (eapply Hcons; eauto; congruence).
  destruct (fd_covers _ F k1 _ l1 A1 A2 Hp) as (i1 & E1 & L1). destruct (fd_covers _ F k2 _ l2 B1 B2 Hp) as (i2 & E2 & L2).
  rewrite Hid in E1, E2. rewrite Hi in E1, E2. injection E1 as <-. injection E2 as <-. lia.
Qed.

Lemma spans_meet input a b ia ib l :
  found input -> liveness input !! a = Some ia -> liveness input !! b = Some ib ->
  spans schedule levels a l -> spans schedule levels b l -> meet ia ib.
Proof using Hcons Hlen.
  intros F Ha Hb Sa Sb. pose proof (spans_live input a ia l F Ha Sa). pose proof (spans_live input b ib l F Hb Sb).
  split; lia.
Qed.

Lemma occurrence_info input key id b :
  found input -> handle_at schedule key b -> In (key, id) (occurrences input) ->
  id = Buffer.id b /\ plannable b /\ exists info, liveness input !! id = Some info /\ BufferLiveness.prototype info = b.
Proof using Hcons Hlen.
  intros F Hh Hin. apply (fd_occ _ F) in Hin as (b' & (item' & I1 & I2) & Hp & Hid).
  pose proof Hh as (item & J1 & J2). rewrite J1 in I1. injection I1 as <-. rewrite J2 in I2. injection I2 as <-.
  split; [congruence |]. split; [exact Hp |].
  destruct (lookup_lt_is_Some_2 levels (BufferKey.kernel_idx key)) as [l Hl]; [apply lookup_lt_Some in J1; lia |].
  destruct (fd_covers _ F key b l Hh Hl Hp) as (info & Hi & _). rewrite <- Hid. exists info. split; [exact Hi |].
  destruct (fd_info _ F _ _ Hi) as ((k & Hk) & _ & Hid' & _). eapply Hcons; eauto.
Qed.
End Found.

(** What a plan may do: every replaced handle keeps its size and memory class,
    lies inside fresh storage, shares no byte with a handle that is live at a
    common level, and is replaced alike everywhere. *)
Record safe_plan (allocated outputs : gset Z) (schedule : Schedule) (levels : list Z) (next_id : Z) (r : gmap BufferKey Buffer) : Prop := {
  sp_handle key v : r !! key = Some v ->
    exists b, handle_at schedule key b /\ plannable allocated outputs schedule b /\
      Buffer.size v = Buffer.size b /\ Buffer.device_spec v = Buffer.device_spec b /\ Buffer.spec v = Buffer.spec b /\
      0 <= Buffer.offset v /\ Buffer.offset v + Buffer.size v <= BufferData.total_size (Buffer.data v) /\
      next_id <= Buffer.storage_id v;
  sp_apart k1 k2 b1 b2 v1 v2 l : handle_at schedule k1 b1 -> handle_at schedule k2 b2 ->
    r !! k1 = Some v1 -> r !! k2 = Some v2 -> Buffer.id b1 <> Buffer.id b2 ->
    spans schedule levels (Buffer.id b1) l -> spans schedule levels (Buffer.id b2) l -> ~ Buffer.overlaps v1 v2;
  sp_alike k1 k2 b1 b2 v1 v2 : handle_at schedule k1 b1 -> handle_at schedule k2 b2 ->
    r !! k1 = Some v1 -> r !! k2 = Some v2 -> Buffer.id b1 = Buffer.id b2 ->
    Buffer.storage_id v1 = Buffer.storage_id v2 /\ Buffer.offset v1 = Buffer.offset v2 /\ Buffer.size v1 = Buffer.size v2;
  sp_all : r = ∅ \/ forall key b, handle_at schedule key b -> plannable allocated outputs schedule b -> 0 < Buffer.size b ->
    is_Some (r !! key)
}.

Lemma safe_plan_empty allocated outputs schedule levels next_id : safe_plan allocated outputs schedule levels next_id ∅.
Proof.
  split.
  - intros key v H. now rewrite lookup_empty in H.
  - intros k1 k2 b1 b2 v1 v2 l _ _ H. now rewrite lookup_empty in H.
  - intros k1 k2 b1 b2 v1 v2 _ _ H. now rewrite lookup_empty in H.
  - now left.
Qed.

Lemma rounded_small info : 0 <= proto_size info < 2 ^ 61 -> rounded info < 2 ^ 62.
Proof.
  unfold rounded, round_up, MIN_BLOCK_SIZE. intros H.
  pose proof (Z.div_mod (proto_size info + 256 - 1) 256 ltac:(lia)). pose proof (Z.mod_pos_bound (proto_size info + 256 - 1) 256). lia.
Qed.

Section ArenaPlan.
Context (allocated outputs : gset Z) (schedule : Schedule) (levels : list Z) (next_id : Z).
Context (Hlen : (List.length schedule <= List.length levels)%nat) (Hcons : consistent schedule).
Context (Hsizes : forall key b, handle_at schedule key b -> 0 <= Buffer.size b < 2 ^ 61).

(** The plan made of the final state of the allocators. *)
Section Plan.
Context (input : PlannerInput) (F : found allocated outputs schedule levels input).
Let m := liveness input.
Context (s : ArenaState) (I : arena_inv m (arena_budget m) (build_event_timeline m) s).
Context (arenas : list (LaneKey * Buffer)) (next' : Z) (A : arenas_ok (peaks s) next_id next' arenas).

Lemma arena_size lane p a : In (lane, p) (peaks s) -> assoc_get lane arenas = Some a ->
  Buffer.size a = round_up p MIN_BLOCK_SIZE /\ p <= Buffer.size a /\ BufferData.total_size (Buffer.data a) = Buffer.size a /\
  Buffer.offset a = 0 /\ Buffer.dtype a = Scalar UInt8 /\ (Buffer.device_spec a, Buffer.spec a) = lane /\ next_id <= Buffer.storage_id a.
Proof using I A.
  clear Hlen. intros Hp Ha. destruct (proj1 A lane a Ha) as (q & Hq & _ & (E1 & E2 & E3 & E4 & E5 & E6)).
  assert (q = p) as ->.
  { pose proof (proj1 (ai_peak_lanes _ _ _ _ I)) as N.
    pose proof (assoc_get_nodup _ _ _ N Hp). pose proof (assoc_get_nodup _ _ _ N Hq). congruence. }
  split; [exact E1 |]. split; [| repeat split; try assumption; lia]. rewrite E1. unfold round_up, MIN_BLOCK_SIZE.
  pose proof (Z.div_mod (p + 256 - 1) 256 ltac:(lia)). pose proof (Z.mod_pos_bound (p + 256 - 1) 256). lia.
Qed.

Lemma arena_fit id off info a :
  offsets s !! id = Some off -> m !! id = Some info -> assoc_get (lane_of info) arenas = Some a ->
  0 <= off /\ off + proto_size info <= Buffer.size a /\ BufferData.total_size (Buffer.data a) = Buffer.size a /\
  Buffer.offset a = 0 /\ Buffer.dtype a = Scalar UInt8 /\ (Buffer.device_spec a, Buffer.spec a) = lane_of info /\
  next_id <= Buffer.storage_id a.
Proof using I A.
  clear Hlen. intros Ho Hi Ha. destruct (ai_peak _ _ _ _ I id info off Hi Ho) as (H0 & p & Hp & Hle).
  destruct (arena_size (lane_of info) p a (assoc_get_in _ _ _ Hp) Ha) as (_ & E1 & E2 & E3 & E4 & E5 & E6).
  repeat split; try assumption. lia.
Qed.

Lemma all_placed id info : m !! id = Some info -> is_Some (offsets s !! id).
Proof using I.
  intros Hi. apply (ai_offsets _ _ _ _ I id info Hi), in_timeline. eauto.
Qed.

Context (r : gmap BufferKey Buffer).
Context (Hr : forall key v, r !! key = Some v -> exists id, In (key, id) (occurrences input) /\ view_of m (offsets s) arenas id v).
Context (Hall : forall key id info, In (key, id) (occurrences input) -> is_Some (offsets s !! id) -> m !! id = Some info ->
  is_Some (assoc_get (lane_of info) arenas) -> is_Some (r !! key)).

Lemma replaced key b v : handle_at schedule key b -> r !! key = Some v ->
  plannable allocated outputs schedule b /\ exists info, m !! Buffer.id b = Some info /\ BufferLiveness.prototype info = b /\
    view_of m (offsets s) arenas (Buffer.id b) v.
Proof using Hlen Hcons F Hr.
  intros Hh Hv. destruct (Hr key v Hv) as (id & Hin & V).
  destruct (occurrence_info allocated outputs schedule levels Hlen Hcons input key id b F Hh Hin) as (-> & Hp & info & Hi & Hpr). eauto.
Qed.

Lemma plan_apart k1 k2 b1 b2 v1 v2 l : handle_at schedule k1 b1 -> handle_at schedule k2 b2 ->
  r !! k1 = Some v1 -> r !! k2 = Some v2 -> Buffer.id b1 <> Buffer.id b2 ->
  spans schedule levels (Buffer.id b1) l -> spans schedule levels (Buffer.id b2) l -> ~ Buffer.overlaps v1 v2.
Proof using Hlen Hcons Hsizes F I A Hr.
  intros H1 H2 V1 V2 Hne S1 S2 (O1 & O2 & O3).
  destruct (replaced k1 b1 v1 H1 V1) as (_ & i1 & L1 & P1 & (o1 & i1' & a1 & X1 & Y1 & Z1 & D1 & Of1 & Sz1 & _)).
  destruct (replaced k2 b2 v2 H2 V2) as (_ & i2 & L2 & P2 & (o2 & i2' & a2 & X2 & Y2 & Z2 & D2 & Of2 & Sz2 & _)).
  rewrite L1 in Y1. injection Y1 as <-. rewrite L2 in Y2. injection Y2 as <-.
  pose proof (spans_meet allocated outputs schedule levels Hlen Hcons input _ _ i1 i2 l F L1 L2 S1 S2) as M.
  destruct (arena_fit _ _ _ _ X1 L1 Z1) as (_ & _ & _ & Oa1 & _). destruct (arena_fit _ _ _ _ X2 L2 Z2) as (_ & _ & _ & Oa2 & _).
  destruct (decide (lane_of i1 = lane_of i2)) as [El | Nl].
  - pose proof (ai_apart _ _ _ _ I _ _ i1 i2 o1 o2 L1 L2 X1 X2 Hne El M) as Hd.
    assert (B : forall i b, BufferLiveness.prototype i = b -> (exists k, handle_at schedule k b) -> proto_size i <= reserved i).
    { intros i b E (k & Hk). unfold reserved. pose proof (rounded_bounds i). specialize (Hsizes k b Hk).
      unfold proto_size in *. rewrite E in *. lia. }
    pose proof (B i1 b1 P1 (ex_intro _ k1 H1)). pose proof (B i2 b2 P2 (ex_intro _ k2 H2)).
    rewrite Of1, Oa1, Of2, Oa2, Sz1, Sz2 in *. unfold disjoint_from in Hd. cbn in Hd. lia.
  - apply (proj2 (proj2 A) _ _ a1 a2 Z1 Z2 Nl). unfold Buffer.storage_id in *. now rewrite <- D1, <- D2.
Qed.

Lemma plan_safe : safe_plan allocated outputs schedule levels next_id r.
Proof using Hlen Hcons Hsizes F I A Hr Hall.
  split; [| exact plan_apart | |].
  - intros key v Hv. destruct (Hr key v Hv) as (id & Hin & _). pose proof Hin as Hin'.
    apply (fd_occ _ _ _ _ _ F) in Hin' as (b & Hh & Hp & Hid). exists b. split; [exact Hh |]. split; [exact Hp |].
    destruct (replaced key b v Hh Hv) as (_ & info & Hi & Hpr & (o & i' & a & X & Y & Z & D & Of & Sz & _)).
    rewrite Hi in Y. injection Y as <-. destruct (arena_fit _ _ _ _ X Hi Z) as (H0 & Hle & Ht & Hao & _ & Hl & Hs).
    injection Hl as Hl1 Hl2. unfold Buffer.storage_id, Buffer.device_spec, Buffer.spec in *. rewrite D, Of, Sz, Hao.
    unfold proto_size in *. rewrite Hpr in *. repeat split; try assumption; lia.
  - intros k1 k2 b1 b2 v1 v2 H1 H2 V1 V2 E.
    destruct (replaced k1 b1 v1 H1 V1) as (_ & i1 & L1 & P1 & (o1 & i1' & a1 & X1 & Y1 & Z1 & D1 & Of1 & Sz1 & _)).
    destruct (replaced k2 b2 v2 H2 V2) as (_ & i2 & L2 & P2 & (o2 & i2' & a2 & X2 & Y2 & Z2 & D2 & Of2 & Sz2 & _)).
    rewrite E in *. assert (i2' = i1') as -> by congruence. assert (o2 = o1) as -> by congruence. assert (a2 = a1) as -> by congruence.
    unfold Buffer.storage_id. rewrite D1, D2, Of1, Of2, Sz1, Sz2. auto.
  - right. intros key b Hh Hp Hs.
    assert (Hin : In (key, Buffer.id b) (occurrences input)) by (apply (fd_occ _ _ _ _ _ F); eauto).
    destruct (occurrence_info allocated outputs schedule levels Hlen Hcons input key _ b F Hh Hin) as (_ & _ & info & Hi & Hpr).
    destruct (all_placed _ info Hi) as [o Ho]. apply (Hall key (Buffer.id b) info Hin); [eauto | exact Hi |].
    destruct (ai_peak _ _ _ _ I _ info o Hi Ho) as (H0 & p & Hp' & Hle). unfold proto_size in Hle. rewrite Hpr in Hle.
    destruct (proj1 (proj2 A) (lane_of info) p (assoc_get_in _ _ _ Hp')) as [a Ha]; [lia | eauto].
Qed.
End Plan.

(** C17: The arena planner always returns, and its plan is safe: two buffers whose
    uses span a common level never share a byte of an arena; every view is
    inside fresh storage of the buffer's own device and memory class and keeps
    its size; and the rewrite is all or nothing. *)
Theorem arena_plan_safe :
  exists result next', memory_plan_arena allocated outputs schedule levels next_id = Some (result, next') /\
    next_id <= next' /\ safe_plan allocated outputs schedule levels next_id (MemoryPlannerResult.buffer_replace result).
Proof using Hlen Hcons Hsizes.
  unfold memory_plan_arena.
  destruct (analyze_found allocated outputs schedule levels Arena Hlen) as (input & -> & F).
  case_bool_decide; [do 2 eexists; split; [reflexivity |]; split; [lia | apply safe_plan_empty] |].
  set (m := liveness input).
  assert (Hm : forall id info, m !! id = Some info -> BufferLiveness.first_level info <= BufferLiveness.last_level info)
    by (intros id info Hi; now apply (fd_info _ _ _ _ _ F id info Hi)).
  assert (Hsz : forall id info, m !! id = Some info -> 0 <= proto_size info /\ rounded info < 2 ^ 62).
  { intros id info Hi. destruct (fd_info _ _ _ _ _ F id info Hi) as ((k & Hk) & _). specialize (Hsizes k _ Hk).
    split; [unfold proto_size; lia | now apply rounded_small]. }
  assert (Hbud : 0 <= arena_budget m < 2 ^ 64) by (unfold arena_budget, saturating_mul, MIN_BLOCK_SIZE; lia).
  destruct (arena_events_ok m Hm (arena_budget m) Hbud Hsz [] (build_event_timeline m) _ eq_refl (arena_start m _ Hbud))
    as (r & -> & Hr).
  destruct r as [s | err]; [| do 2 eexists; split; [reflexivity |]; split; [lia | apply safe_plan_empty]].
  destruct (make_arenas_ok m (peaks s) [] [] next_id next_id) as (arenas & n1 & -> & Hn1 & A);
    [apply (ai_peak_lanes _ _ _ _ Hr) | apply (ai_peak_lanes _ _ _ _ Hr) | lia | |].
  { split; [discriminate |]. split; [intros ? ? [] | discriminate]. }
  cbn [app] in A.
  destruct (make_views_ok m (offsets s) arenas (occurrences input) ∅ 0 n1) as (rep & reused & n2 & -> & Hn2 & V1 & _ & V3).
  { exact (ai_known _ _ _ _ Hr). }
  { intros lane a Ha. destruct (proj1 A lane a Ha) as (p & Hp & _ & (_ & _ & _ & E & _)). exact E. }
  { intros id off info a Ho Hi Ha. now apply (arena_fit input s Hr arenas n1 A id off info a). }
  do 2 eexists. split; [reflexivity |]. split; [lia |]. cbn [MemoryPlannerResult.buffer_replace].
  apply (plan_safe input F s Hr arenas n1 A).
  - intros key v Hv. destruct (V1 key v Hv) as [H0 | H0]; [now rewrite lookup_empty in H0 | exact H0].
  - exact V3.
Qed.
End ArenaPlan.

(** ** Pools *)
Section PoolProof.
Context (m : gmap Z BufferLiveness).
Context (Hm : forall id info, m !! id = Some info -> BufferLiveness.first_level info <= BufferLiveness.last_level info).
Context (Hproto : forall id info, m !! id = Some info ->
  Buffer.id (BufferLiveness.prototype info) = id /\ BufferLiveness.pool_key info = pool_key_of (BufferLiveness.prototype info)).

(** A prototype that has been handed out. *)
Definition owned (done : list BufferEvent) (b : Buffer) : Prop :=
  exists info, m !! Buffer.id b = Some info /\ BufferLiveness.prototype info = b /\ In (alloc_of (Buffer.id b) info) done.

Definition pool (s : PoolState) (k : BufferPoolKey) : list Buffer := default [] (assoc_get k (free_pools s)).

Record pool_inv (done : list BufferEvent) (s : PoolState) : Prop := {
  pi_chosen id info : m !! id = Some info -> In (alloc_of id info) done <-> is_Some (chosen_by_id s !! id);
  pi_key id info c : m !! id = Some info -> chosen_by_id s !! id = Some c ->
    pool_key_of c = BufferLiveness.pool_key info /\ owned done c;
  pi_active id info : active m done id info -> active_buffers s !! id = chosen_by_id s !! id;
  pi_active_only id c : active_buffers s !! id = Some c -> exists info, active m done id info;
  pi_active_inj a b x y : active_buffers s !! a = Some x -> active_buffers s !! b = Some y ->
    Buffer.id x = Buffer.id y -> a = b;
  pi_pool k b : In b (pool s k) -> pool_key_of b = k /\ owned done b /\
    (forall id x, active_buffers s !! id = Some x -> Buffer.id x <> Buffer.id b);
  pi_pool_nodup k : List.NoDup (map Buffer.id (pool s k));
  pi_apart a b ia ib x y : m !! a = Some ia -> m !! b = Some ib -> chosen_by_id s !! a = Some x -> chosen_by_id s !! b = Some y ->
    a <> b -> meet ia ib -> Buffer.id x <> Buffer.id y
}.

Lemma owned_mono done e b : owned done b -> owned (done ++ [e]) b.
Proof. intros (info & H1 & H2 & H3). exists info. rewrite in_app_iff. auto. Qed.

Lemma owned_inj done a b : owned done a -> owned done b -> Buffer.id a = Buffer.id b -> a = b.
Proof. intros (i & H1 & H2 & _) (j & H3 & H4 & _) E. rewrite E in H1. congruence. Qed.

(** Giving [c] to [id]. *)
Definition give (id : Z) (c : Buffer) (pools : list (BufferPoolKey * list Buffer)) (s : PoolState) (saved reused : Z) : PoolState :=
  mkPools pools (<[id := c]> (chosen_by_id s)) (<[id := c]> (active_buffers s)) saved reused.

Section Give.
Context (done rest : list BufferEvent) (id : Z) (info : BufferLiveness) (s : PoolState) (c : Buffer) (saved reused : Z).
Context (pools : list (BufferPoolKey * list Buffer)).
Context (Ev : build_event_timeline m = done ++ alloc_of id info :: rest) (Hi : m !! id = Some info) (I : pool_inv done s).
Context (Hc : pool_key_of c = BufferLiveness.pool_key info) (Ho : owned (done ++ [alloc_of id info]) c).
Context (Hfree : forall a x, active_buffers s !! a = Some x -> Buffer.id x <> Buffer.id c).
Let s' := give id c pools s saved reused.
Context (Hpool : forall k b, In b (pool s' k) -> In b (pool s k) /\ Buffer.id b <> Buffer.id c).
Context (Hnodup : forall k, List.NoDup (map Buffer.id (pool s' k))).

Lemma give_other a ia : a <> id -> active m (done ++ [alloc_of id info]) a ia <-> active m done a ia.
Proof using m. apply placed_other. Qed.

Lemma give_known a ia : m !! a = Some ia -> a = id -> ia = info.
Proof using Hi. intros Ha ->. congruence. Qed.

(** A buffer whose interval meets the new one is active, so holds another handle. *)
Lemma give_apart a ia x : m !! a = Some ia -> chosen_by_id s !! a = Some x -> meet ia info -> Buffer.id x <> Buffer.id c.
Proof using Hm Ev Hi I Hfree.
  intros Ha Hx M. apply (Hfree a). rewrite (pi_active _ _ I a ia); [exact Hx |].
  split; [exact Ha |]. split; [apply (pi_chosen _ _ I a ia Ha); eauto |].
  now apply (proj2 (proj2 (before_alloc m Hm done rest id info Ev Hi))).
Qed.

Lemma give_inv : pool_inv (done ++ [alloc_of id info]) s'.
Proof using Hm Ev Hi I Hc Ho Hfree Hpool Hnodup.
  split; cbn [chosen_by_id active_buffers s' give].
  - intros a ia Ha. rewrite in_app_iff. cbn [In]. destruct (decide (a = id)) as [-> | Hne].
    + rewrite lookup_insert_eq, (give_known id ia Ha eq_refl). split; [eauto | auto].
    + rewrite lookup_insert_ne, <- (pi_chosen _ _ I a ia Ha) by congruence.
      split; [intros [H | [H | []]]; [exact H |] | auto]. apply event_inj_alloc in H. congruence.
  - intros a ia x Ha. destruct (decide (a = id)) as [-> | Hne].
    + rewrite lookup_insert_eq, (give_known id ia Ha eq_refl). now intros [= <-].
    + rewrite lookup_insert_ne by congruence. intros Hx. destruct (pi_key _ _ I a ia x Ha Hx) as [H1 H2].
      split; [exact H1 | now apply owned_mono].
  - intros a ia Ha. destruct (decide (a = id)) as [-> | Hne]; [now rewrite !lookup_insert_eq |].
    rewrite !lookup_insert_ne by congruence. apply (pi_active _ _ I a ia). now rewrite <- give_other.
  - intros a x. destruct (decide (a = id)) as [-> | Hne].
    + intros _. exists info. exact (placed_active m Hm done rest id info Ev Hi).
    + rewrite lookup_insert_ne by congruence. intros Hx. destruct (pi_active_only _ _ I a x Hx) as [ia Ha].
      exists ia. now apply give_other.
  - intros a b x y. destruct (decide (a = id)) as [-> | Na], (decide (b = id)) as [-> | Nb]; [reflexivity | | |].
    + rewrite lookup_insert_eq, lookup_insert_ne by congruence. intros [= <-] Hy E. symmetry in E. now apply (Hfree b y Hy) in E.
    + rewrite lookup_insert_ne, lookup_insert_eq by congruence. intros Hx [= <-] E. now apply (Hfree a x Hx) in E.
    + rewrite !lookup_insert_ne by congruence. apply (pi_active_inj _ _ I).
  - intros k b Hb. destruct (Hpool k b Hb) as [Hb' Hne]. destruct (pi_pool _ _ I k b Hb') as (H1 & H2 & H3).
    split; [exact H1 |]. split; [now apply owned_mono |]. intros a x. destruct (decide (a = id)) as [-> | Na].
    + rewrite lookup_insert_eq. intros [= <-]. congruence.
    + rewrite lookup_insert_ne by congruence. apply H3.
  - exact Hnodup.
  - intros a b ia ib x y Ha Hb. destruct (decide (a = id)) as [-> | Na], (decide (b = id)) as [-> | Nb]; [contradiction | | |].
    + rewrite lookup_insert_eq, lookup_insert_ne by congruence. intros [= <-] Hy _ M E.
      rewrite (give_known id ia Ha eq_refl) in M. apply (give_apart b ib y Hb Hy); [destruct M; now split | congruence].
    + rewrite lookup_insert_ne, lookup_insert_eq by congruence. intros Hx [= <-] _ M.
      rewrite (give_known id ib Hb eq_refl) in M. now apply (give_apart a ia x Ha Hx).
    + rewrite !lookup_insert_ne by congruence. intros Hx Hy. now apply (pi_apart _ _ I a b ia ib).
Qed.
End Give.

Lemma pop_snoc {A} (l : list A) r x : pop l = Some (r, x) -> l = r ++ [x].
Proof.
  unfold pop. destruct (rev l) as [| y k] eqn:E; [discriminate |]. intros [= <- <-].
  now rewrite <- (rev_involutive l), E.
Qed.

Lemma pool_set k l pools chosen act saved reused j :
  pool (mkPools (assoc_set k l pools) chosen act saved reused) j =
  if decide (k = j) then l else default [] (assoc_get j pools).
Proof.
  unfold pool. cbn. destruct (decide (k = j)) as [<- | Hne]; [now rewrite assoc_get_set_eq | now rewrite assoc_get_set_ne].
Qed.

(** A prototype is in nobody's hands before its own allocation. *)
Lemma give_fresh done rest id info s saved reused :
  build_event_timeline m = done ++ alloc_of id info :: rest -> m !! id = Some info -> pool_inv done s ->
  pool_inv (done ++ [alloc_of id info]) (give id (BufferLiveness.prototype info) (free_pools s) s saved reused).
Proof using Hm Hproto.
  intros Ev Hi I. destruct (Hproto id info Hi) as [Hpid Hpk].
  assert (Hout : forall b, owned done b -> Buffer.id b <> id).
  { intros b (i & H1 & _ & H3) E. rewrite E, Hi in H1. injection H1 as <-. rewrite E in H3.
    exact (proj1 (before_alloc m Hm done rest _ info Ev Hi) H3). }
  refine (give_inv done rest id info s _ _ _ (free_pools s) Ev Hi I (eq_sym Hpk) _ _ _ _).
  - exists info. rewrite Hpid. split; [exact Hi |]. split; [reflexivity |]. apply in_app_iff. right. now left.
  - intros a x Hx. rewrite Hpid. destruct (pi_active_only _ _ I a x Hx) as [ia Ha]. apply Hout.
    rewrite (pi_active _ _ I a ia Ha) in Hx. exact (proj2 (pi_key _ _ I a ia x (proj1 Ha) Hx)).
  - intros j b Hb. rewrite Hpid. split; [exact Hb |]. apply Hout. exact (proj1 (proj2 (pi_pool _ _ I j b Hb))).
  - intros j. exact (pi_pool_nodup _ _ I j).
Qed.

Lemma pool_alloc_step done rest id info s :
  build_event_timeline m = done ++ alloc_of id info :: rest -> m !! id = Some info -> pool_inv done s ->
  pool_inv (done ++ [alloc_of id info]) (process_event m (alloc_of id info) s).
Proof using Hm Hproto.
  intros Ev Hi I. unfold process_event. cbn [alloc_of BufferEvent.buffer_id BufferEvent.is_alloc]. rewrite Hi.
  destruct (assoc_get (BufferLiveness.pool_key info) (free_pools s)) as [pl |] eqn:Epl; [| now apply (give_fresh done rest)].
  destruct (pop pl) as [[r c] |] eqn:Epop; [| now apply (give_fresh done rest)].
  apply pop_snoc in Epop as ->. set (k := BufferLiveness.pool_key info) in *.
  assert (Hp : pool s k = r ++ [c]) by (unfold pool; now rewrite Epl).
  assert (Hcin : In c (pool s k)) by (rewrite Hp; apply in_app_iff; right; now left).
  destruct (pi_pool _ _ I k c Hcin) as (Hc & Ho & Hfree).
  pose proof (pi_pool_nodup _ _ I k) as N. rewrite Hp, map_app in N.
  apply (give_inv done rest id info s c _ _ (assoc_set k r (free_pools s)) Ev Hi I Hc (owned_mono _ _ _ Ho)).
  - intros a x Hx. exact (Hfree a x Hx).
  - intros j b. unfold give. rewrite pool_set. destruct (decide (k = j)) as [<- | Hne].
    + intros Hb. split; [rewrite Hp; apply in_app_iff; now left |]. intros E.
      apply (nodup_disjoint _ _ _ N (in_map Buffer.id _ _ Hb)). rewrite E. now left.
    + intros Hb. split; [exact Hb |]. intros E. destruct (pi_pool _ _ I j b Hb) as (Hj & Hob & _).
      apply Hne. rewrite <- Hj, <- Hc. f_equal. symmetry. exact (owned_inj _ _ _ Hob Ho E).
  - intros j. unfold give. rewrite pool_set. destruct (decide (k = j)) as [<- | Hne]; [now apply List.NoDup_app_remove_r in N |].
    apply (pi_pool_nodup _ _ I j).
Qed.

Lemma pool_free_step done rest id info s :
  build_event_timeline m = done ++ free_of id info :: rest -> m !! id = Some info -> pool_inv done s ->
  pool_inv (done ++ [free_of id info]) (process_event m (free_of id info) s).
Proof using Hm.
  intros Ev Hi I. destruct (before_free m Hm done rest id info Ev Hi) as [Ha Hnf].
  assert (Hact : active m done id info) by now split.
  destruct (proj1 (pi_chosen _ _ I id info Hi) Ha) as [c Hc].
  pose proof (pi_active _ _ I id info Hact) as Hac. rewrite Hc in Hac.
  destruct (pi_key _ _ I id info c Hi Hc) as [Hk Ho].
  unfold process_event. cbn [free_of BufferEvent.buffer_id BufferEvent.is_alloc]. rewrite Hi, Hac.
  set (k := BufferLiveness.pool_key info) in *. fold (pool s k).
  assert (Hother : forall a ia, active m (done ++ [free_of id info]) a ia <-> a <> id /\ active m done a ia).
  { intros a ia. split.
    - intros H. destruct (decide (a = id)) as [-> | Hne]; [now apply (released_inactive m done id info Hi) in H |].
      split; [exact Hne |]. now apply (released_other m done id info) in H.
    - intros [Hne H]. now apply released_other. }
  split; cbn [chosen_by_id active_buffers].
  - intros a ia Hia. rewrite (released_alloc done id info). exact (pi_chosen _ _ I a ia Hia).
  - intros a ia x Hia Hx. destruct (pi_key _ _ I a ia x Hia Hx) as [H1 H2]. split; [exact H1 | now apply owned_mono].
  - intros a ia [Hne Hia]%Hother. rewrite lookup_delete_ne by congruence. exact (pi_active _ _ I a ia Hia).
  - intros a x Hx. apply lookup_delete_Some in Hx as [Hne Hx]. destruct (pi_active_only _ _ I a x Hx) as [ia Hia].
    exists ia. apply Hother. split; [congruence | exact Hia].
  - intros a b x y Hx Hy. apply lookup_delete_Some in Hx as [_ Hx]. apply lookup_delete_Some in Hy as [_ Hy].
    exact (pi_active_inj _ _ I a b x y Hx Hy).
  - intros j b. rewrite pool_set. fold (pool s j).
    assert (Hold : In b (pool s j) -> pool_key_of b = j /\ owned (done ++ [free_of id info]) b /\
      forall a x, delete id (active_buffers s) !! a = Some x -> Buffer.id x <> Buffer.id b).
    { intros Hb. destruct (pi_pool _ _ I j b Hb) as (H1 & H2 & H3). split; [exact H1 |]. split; [now apply owned_mono |].
      intros a x Hx. apply lookup_delete_Some in Hx as [_ Hx]. exact (H3 a x Hx). }
    destruct (decide (k = j)) as [<- | Hne]; [| exact Hold].
    intros [Hb | [<- | []]]%in_app_iff; [now apply Hold |]. split; [exact Hk |]. split; [now apply owned_mono |].
    intros a x Hx E. apply lookup_delete_Some in Hx as [Hne Hx]. apply Hne. symmetry. exact (pi_active_inj _ _ I a id x c Hx Hac E).
  - intros j. rewrite pool_set. fold (pool s j). destruct (decide (k = j)) as [<- | Hne]; [| exact (pi_pool_nodup _ _ I j)].
    rewrite map_app. apply NoDup_snoc; [exact (pi_pool_nodup _ _ I k) |].
    intros (b & E & Hb)%in_map_iff. destruct (pi_pool _ _ I k b Hb) as (_ & _ & H3). symmetry in E. exact (H3 id c Hac E).
  - exact (pi_apart _ _ I).
Qed.

Lemma pool_start : pool_inv [] (mkPools [] ∅ ∅ 0 0).
Proof using m.
  split; cbn.
  - intros id info _. rewrite lookup_empty. split; [intros [] | intros [? [=]]].
  - intros id info c _ H. now rewrite lookup_empty in H.
  - intros id info (_ & [] & _).
  - intros id c H. now rewrite lookup_empty in H.
  - intros a b x y H. now rewrite lookup_empty in H.
  - intros k b [].
  - constructor.
  - intros a b ia ib x y _ _ H. now rewrite lookup_empty in H.
Qed.

Lemma pool_events_ok done rest s :
  build_event_timeline m = done ++ rest -> pool_inv done s ->
  pool_inv (build_event_timeline m) (fold_left (fun s e => process_event m e s) rest s).
Proof using Hm Hproto.
  revert done s. induction rest as [| e rest IH]; intros done s E I.
  - rewrite app_nil_r in E. now rewrite E.
  - assert (He : In e (build_event_timeline m)) by (rewrite E; apply in_app_iff; right; now left).
    assert (E' : build_event_timeline m = (done ++ [e]) ++ rest) by (rewrite <- app_assoc; exact E).
    apply (IH (done ++ [e]) _ E').
    apply in_timeline in He as (id & info & Hi & [-> | ->]); [now apply (pool_alloc_step done rest) | now apply (pool_free_step done rest)].
Qed.

Lemma replacements_spec chosen occ key v :
  replacements chosen occ !! key = Some v -> exists id, In (key, id) occ /\ chosen !! id = Some v /\ Buffer.id v <> id.
Proof.
  unfold replacements. assert (H : forall occ r, fold_left (replace_chosen chosen) occ r !! key = Some v ->
      r !! key = Some v \/ exists id, In (key, id) occ /\ chosen !! id = Some v /\ Buffer.id v <> id).
  { clear. induction occ as [| [k id] occ IH]; intros r H; [now left |]. cbn [fold_left] in H. unfold replace_chosen at 2 in H. cbn [fst snd] in H. apply IH in H as [H | (i & Hi & C)];
      [| right; exists i; split; [now right | exact C]].
    destruct (chosen !! id) as [c |] eqn:Ec; [| now left]. destruct (Z.eqb_spec (Buffer.id c) id); [now left |].
    destruct (decide (k = key)) as [<- | Hne]; [| rewrite lookup_insert_ne in H by exact Hne; now left].
    rewrite lookup_insert_eq in H. injection H as <-. right. exists id. split; [now left | now split]. }
  intros Hv. apply H in Hv as [Hv | Hv]; [now rewrite lookup_empty in Hv | exact Hv].
Qed.

(** A chosen handle that is not the buffer itself is recorded. *)
Lemma replacements_all chosen occ key id c :
  In (key, id) occ -> (forall id', In (key, id') occ -> id' = id) -> chosen !! id = Some c -> Buffer.id c <> id ->
  replacements chosen occ !! key = Some c.
Proof.
  intros Hin Hu Hc Hne. unfold replacements.
  assert (H : forall occ r, (forall id', In (key, id') occ -> id' = id) -> (In (key, id) occ \/ r !! key = Some c) ->
    fold_left (replace_chosen chosen) occ r !! key = Some c).
  { clear -Hc Hne. induction occ as [| [k i] occ IH]; intros r Hu Hr; [destruct Hr as [[] | Hr]; exact Hr |]. cbn [fold_left].
    apply IH; [intros i' Hi'; apply Hu; now right |]. unfold replace_chosen. cbn [fst snd]. destruct (decide (k = key)) as [-> | Hk].
    - right. rewrite (Hu i ltac:(now left)), Hc. rewrite (proj2 (Z.eqb_neq _ _)) by exact Hne. apply lookup_insert_eq.
    - destruct Hr as [[[= -> _] | Hr] | Hr]; [contradiction | now left | right].
      destruct (chosen !! i) as [d |]; [| exact Hr]. destruct (_ =? _); [exact Hr |]. now rewrite lookup_insert_ne. }
  apply H; auto.
Qed.
End PoolProof.

(** The handle a slot has after the plan. *)
Definition physical (r : gmap BufferKey Buffer) (key : BufferKey) (b : Buffer) : Buffer := default b (r !! key).

Lemma planner_remap allocated outputs schedule levels next_id : schedule <> [] ->
  memory_planner allocated outputs schedule levels Remap next_id =
  (let? input := analyze_liveness allocated outputs schedule levels Remap in
   let metrics := input_metrics input in
   let m := liveness input in
   if bool_decide (m = ∅) then Some (MemoryPlannerResult.mk ∅ 0 0 metrics, next_id)
   else
     let '(buffer_replace, saved, reused, physical_bytes) :=
       process_events (build_event_timeline m) m (occurrences input) in
     Some (MemoryPlannerResult.mk buffer_replace saved reused
       (with_physical physical_bytes reused (saturating_sub (Metrics.logical_bytes metrics) physical_bytes) 0 0 metrics),
       next_id)).
Proof. destruct schedule; [contradiction | reflexivity]. Qed.

Section RemapPlan.
Context (allocated outputs : gset Z) (schedule : Schedule) (levels : list Z) (next_id : Z).
Context (Hlen : (List.length schedule <= List.length levels)%nat) (Hcons : consistent schedule).

Section Plan.
Context (input : PlannerInput) (F : found allocated outputs schedule levels input).
Let m := liveness input.
Let chosen := chosen_by_id (run_events m (build_event_timeline m)).
Let r := replacements chosen (occurrences input).

Lemma remap_pools : pool_inv m (build_event_timeline m) (run_events m (build_event_timeline m)).
Proof using F.
  unfold run_events. apply (pool_events_ok m) with (done := []); [| | reflexivity | apply pool_start].
  - intros id info Hi. now apply (fd_info _ _ _ _ _ F id info Hi).
  - intros id info Hi. destruct (fd_info _ _ _ _ _ F id info Hi) as (_ & _ & H1 & H2 & _). now split.
Qed.

Lemma slot_choice key b : handle_at schedule key b -> plannable allocated outputs schedule b ->
  exists info c, m !! Buffer.id b = Some info /\ BufferLiveness.prototype info = b /\ chosen !! Buffer.id b = Some c /\
    Buffer.id (physical r key b) = Buffer.id c.
Proof using Hlen Hcons F.
  intros Hh Hp. pose proof remap_pools as I.
  assert (Hin : In (key, Buffer.id b) (occurrences input)) by (apply (fd_occ _ _ _ _ _ F); eauto).
  pose proof (fun id => occurrence_info allocated outputs schedule levels Hlen Hcons input key id b F Hh) as Hocc.
  destruct (Hocc _ Hin) as (_ & _ & info & Hi & Hpr).
  destruct (proj1 (pi_chosen _ _ _ I _ info Hi)) as [c Hc]; [apply in_timeline; eauto |].
  exists info, c. split; [exact Hi |]. split; [exact Hpr |]. split; [exact Hc |]. unfold physical.
  destruct (r !! key) as [v |] eqn:Ev.
  - apply replacements_spec in Ev as (id & Hid & Hv & _). destruct (Hocc id Hid) as (-> & _).
    subst chosen. rewrite Hc in Hv. injection Hv as ->. reflexivity.
  - cbn. destruct (Z.eq_dec (Buffer.id c) (Buffer.id b)) as [E | Hne]; [congruence | exfalso].
    pose proof (replacements_all chosen _ key _ c Hin (fun id' Hid' => proj1 (Hocc id' Hid')) Hc Hne) as Hr.
    subst r. congruence.
Qed.
End Plan.

(** C32: The pool planner always returns; a replaced handle is another plannable
    handle of the schedule with the same device, dtype and rounded size; and
    two buffers whose uses span a common level are never given the same
    handle. *)
Theorem remap_plan_safe :
  exists result next', memory_planner allocated outputs schedule levels Remap next_id = Some (result, next') /\
    (forall key v, MemoryPlannerResult.buffer_replace result !! key = Some v ->
       exists b key', handle_at schedule key b /\ plannable allocated outputs schedule b /\
         handle_at schedule key' v /\ plannable allocated outputs schedule v /\ pool_key_of v = pool_key_of b) /\
    (forall k1 k2 b1 b2 l, handle_at schedule k1 b1 -> handle_at schedule k2 b2 ->
       plannable allocated outputs schedule b1 -> plannable allocated outputs schedule b2 -> Buffer.id b1 <> Buffer.id b2 ->
       spans schedule levels (Buffer.id b1) l -> spans schedule levels (Buffer.id b2) l ->
       Buffer.id (physical (MemoryPlannerResult.buffer_replace result) k1 b1) <>
       Buffer.id (physical (MemoryPlannerResult.buffer_replace result) k2 b2)).
Proof using Hlen Hcons.
  assert (Hs : schedule = [] \/ schedule <> []) by (destruct schedule; [now left | now right]). destruct Hs as [Es | Es].
  { rewrite Es. do 2 eexists. split; [reflexivity |]. cbn. split; [intros key v H; now rewrite lookup_empty in H |].
    intros k1 k2 b1 b2 l (i & H & _). now destruct (BufferKey.kernel_idx k1). }
  rewrite planner_remap by exact Es.
  destruct (analyze_found allocated outputs schedule levels Remap Hlen) as (input & -> & F).
  cbn zeta. case_bool_decide as Em.
  { do 2 eexists. split; [reflexivity |]. cbn. split; [intros key v H; now rewrite lookup_empty in H |].
    intros k1 k2 b1 b2 l _ _ _ _ Hne _ _. unfold physical. now rewrite !lookup_empty. }
  unfold process_events. do 2 eexists. split; [reflexivity |]. cbn [MemoryPlannerResult.buffer_replace].
  pose proof (remap_pools input F) as I. split.
  - intros key v Hv. apply replacements_spec in Hv as (id & Hin & Hc & _).
    apply (fd_occ _ _ _ _ _ F) in Hin as (b & Hh & Hp & <-).
    destruct (slot_choice input F key b Hh Hp) as (info & c & Hi & Hpr & Hc' & _). rewrite Hc in Hc'. injection Hc' as <-.
    destruct (pi_key _ _ _ I _ info v Hi Hc) as (Hk & (iv & V1 & V2 & _)).
    destruct (fd_info _ _ _ _ _ F _ iv V1) as ((k' & Hk') & Hp' & _). rewrite V2 in Hk', Hp'.
    destruct (fd_info _ _ _ _ _ F _ info Hi) as (_ & _ & _ & Hpk & _). exists b, k'.
    do 4 (split; [assumption |]). now rewrite Hk, Hpk, Hpr.
  - intros k1 k2 b1 b2 l H1 H2 P1 P2 Hne S1 S2.
    destruct (slot_choice input F k1 b1 H1 P1) as (i1 & c1 & Hi1 & _ & Hc1 & ->).
    destruct (slot_choice input F k2 b2 H2 P2) as (i2 & c2 & Hi2 & _ & Hc2 & ->).
    apply (pi_apart _ _ _ I _ _ i1 i2 c1 c2 Hi1 Hi2 Hc1 Hc2 Hne).
    exact (spans_meet allocated outputs schedule levels Hlen Hcons input _ _ i1 i2 l F Hi1 Hi2 S1 S2).
Qed.
End RemapPlan.

(** ** A small schedule *)
Definition plain : BufferSpec := BufferSpec.mk false true false false.
Definition demo_buffer (id size : Z) : Buffer :=
  Buffer.mk id (BufferData.mk (id + 100) Cpu size plain false) 0 size (Scalar UInt8) [size].
Definition demo_item (id : Z) (b : Buffer) : ScheduleItem :=
  ScheduleItem.mk (mkUOp id (Op.Sink UOp [] None) (Scalar Void)) (mkUOp id (Op.Sink UOp [] None) (Scalar Void)) [b] [] [] [].
(** Two items, one after the other, with buffers of 100 and 200 bytes. *)
Definition demo_schedule : Schedule := [demo_item 1 (demo_buffer 10 100); demo_item 2 (demo_buffer 20 200)].

Lemma demo_handles key b : handle_at demo_schedule key b -> b = demo_buffer 10 100 \/ b = demo_buffer 20 200.
Proof.
  intros (item & H1 & H2). destruct key as [[| [| k]] j]; cbn in H1; try discriminate; injection H1 as <-;
    destruct j as [| j]; cbn in H2; try (destruct j; discriminate); injection H2 as <-; auto.
Qed.

Lemma demo_consistent : consistent demo_schedule.
Proof.
  intros k1 k2 b1 b2 H1%demo_handles H2%demo_handles. destruct H1 as [-> | ->], H2 as [-> | ->]; cbn; congruence.
Qed.

Lemma arena_plan_safe_witness :
  exists result next', memory_plan_arena ∅ ∅ demo_schedule [0; 1] 1000 = Some (result, next') /\
    1000 <= next' /\ safe_plan ∅ ∅ demo_schedule [0; 1] 1000 (MemoryPlannerResult.buffer_replace result).
Proof.
  apply arena_plan_safe; [cbn; lia | exact demo_consistent |].
  intros key b [-> | ->]%demo_handles; cbn; lia.
Defined.

Lemma remap_plan_safe_witness :
  exists result next', memory_planner ∅ ∅ demo_schedule [0; 1] Remap 1000 = Some (result, next') /\
    (forall key v, MemoryPlannerResult.buffer_replace result !! key = Some v ->
       exists b key', handle_at demo_schedule key b /\ plannable ∅ ∅ demo_schedule b /\
         handle_at demo_schedule key' v /\ plannable ∅ ∅ demo_schedule v /\ pool_key_of v = pool_key_of b) /\
    (forall k1 k2 b1 b2 l, handle_at demo_schedule k1 b1 -> handle_at demo_schedule k2 b2 ->
       plannable ∅ ∅ demo_schedule b1 -> plannable ∅ ∅ demo_schedule b2 -> Buffer.id b1 <> Buffer.id b2 ->
       spans demo_schedule [0; 1] (Buffer.id b1) l -> spans demo_schedule [0; 1] (Buffer.id b2) l ->
       Buffer.id (physical (MemoryPlannerResult.buffer_replace result) k1 b1) <>
       Buffer.id (physical (MemoryPlannerResult.buffer_replace result) k2 b2)).
Proof. apply remap_plan_safe; [cbn; lia | exact demo_consistent]. Defined.

(** A replaced handle may be too small: pools are keyed by the size rounded to
    256 bytes, so the 200-byte buffer of the second item is replaced by the
    100-byte buffer of the first. *)
Theorem remap_hands_out_smaller :
  exists result next' v, memory_planner ∅ ∅ demo_schedule [0; 1] Remap 1000 = Some (result, next') /\
    MemoryPlannerResult.buffer_replace result !! BufferKey.mk 1 0 = Some v /\
    BufferData.total_size (Buffer.data v) = 100 /\ Buffer.size (demo_buffer 20 200) = 200.
Proof. do 3 eexists. split; [vm_compute; reflexivity |]. vm_compute. split_and!; reflexivity. Qed.

(** Three levels: [10] is written, then read through [30], a second handle on
    all of its bytes, next to another buffer. *)
Definition full_view : Buffer :=
  Buffer.mk 30 (Buffer.data (demo_buffer 10 100)) 0 100 (Scalar UInt8) [100].
Definition view_schedule : Schedule :=
  [demo_item 1 (demo_buffer 10 100);
   ScheduleItem.mk (mkUOp 2 (Op.Sink UOp [] None) (Scalar Void)) (mkUOp 2 (Op.Sink UOp [] None) (Scalar Void))
     [demo_buffer 20 200; full_view] [] [] []].

(** The alias check counts distinct (offset, size, dtype, shape) of a storage, so
    a second handle on a whole buffer escapes it: both handles are planned,
    and their common bytes move to different places of the arena. *)
Theorem full_view_escapes_alias_check :
  Buffer.storage_id full_view = Buffer.storage_id (demo_buffer 10 100) /\
  exists result next' v1 v2, memory_plan_arena ∅ ∅ view_schedule [0; 1] 1000 = Some (result, next') /\
    MemoryPlannerResult.buffer_replace result !! BufferKey.mk 0 0 = Some v1 /\
    MemoryPlannerResult.buffer_replace result !! BufferKey.mk 1 1 = Some v2 /\
    (Buffer.offset v1, Buffer.size v1) = (0, 100) /\ (Buffer.offset v2, Buffer.size v2) = (256, 100).
Proof. split; [reflexivity |]. do 4 eexists. split; [vm_compute; reflexivity |]. vm_compute. split_and!; reflexivity. Qed.
