(* ===== verification/PageTable.v ===== *)
(** * GPU page-table entries ([device/src/amd/am/mm/pagetable.rs])

    The geometry of the four-level tables and the encoding of entries, as bit
    operations on 64-bit words.  [None] is the [unimplemented!] of gfx12. *)

From Stdlib Require Import Btauto.
From S2P Require Import Prelude.

Definition PTE_VALID : Z := Z.shiftl 1 0.
Definition PTE_SYSTEM : Z := Z.shiftl 1 1.
Definition PTE_SNOOPED : Z := Z.shiftl 1 2.
Definition PTE_EXECUTABLE : Z := Z.shiftl 1 4.
Definition PTE_READABLE : Z := Z.shiftl 1 5.
Definition PTE_WRITEABLE : Z := Z.shiftl 1 6.
Definition PDE_PTE : Z := Z.shiftl 1 54.
Definition PTE_TF : Z := Z.shiftl 1 56.

Definition pde_bfs (frag : Z) : Z := wrap_u 64 (Z.shiftl frag 59).
Definition pte_frag (frag : Z) : Z := Z.shiftl (Z.land frag 31) 7.

Definition MTYPE_NV10_SHIFT : Z := 48.
Definition MTYPE_UC_GFX11 : Z := 3.
Definition MTYPE_VG10_SHIFT : Z := 57.
Definition MTYPE_UC_GFX9 : Z := 3.

Definition PADDR_MASK : Z := 0x0000FFFFFFFFF000.

Definition VM_PDB2 : nat := 0.
Definition VM_PDB1 : nat := 1.
Definition VM_PDB0 : nat := 2.
Definition VM_PTB : nat := 3.

Definition IpVer : Type := Z * Z * Z.
Definition ip_ge (v : IpVer) (major : Z) : bool := major <=? v.1.1.

(** ** Geometry *)
Module Geometry.
Record t := mk { pte_covers : list Z; pte_cnt : list Z; level_cnt : nat; va_bits : Z }.

(** [2^(msb[i+1] - msb[i])], level by level. *)
Fixpoint counts (lvl_msb : list Z) : list Z :=
  match lvl_msb with
  | a :: (b :: _) as rest => Z.shiftl 1 (b - a) :: counts rest
  | _ => []
  end.

Definition new (va_shifts : list Z) (va_bits : Z) : t :=
  mk (rev (map (Z.shiftl 1) va_shifts)) (rev (counts (va_shifts ++ [va_bits + 1]))) (List.length va_shifts) va_bits.
Definition gfx11 : t := new [12; 21; 30; 39] 48.

(** [None]: an index or division panic. *)
Definition pte_idx (g : t) (lv : nat) (vaddr : Z) : option Z :=
  let? covers := pte_covers g !! lv in
  let? cnt := pte_cnt g !! lv in
  if (covers =? 0) || (cnt =? 0) then None else Some ((vaddr / covers) mod cnt).
End Geometry.
Abbreviation Geometry := Geometry.t.

(** ** Entries *)
Definition flag (b : bool) (bit : Z) : Z := if b then bit else 0.

Definition get_pte_flags (ip_ver : IpVer) (pte_lv : nat) (is_table : bool) (frag : Z)
    (uncached system snooped valid : bool) : option Z :=
  let extra := Z.lor (flag system PTE_SYSTEM) (Z.lor (flag snooped PTE_SNOOPED) (flag valid PTE_VALID)) in
  let extra := Z.lor extra (pte_frag frag) in
  let extra := Z.lor extra (flag (negb is_table) (Z.lor PTE_WRITEABLE (Z.lor PTE_READABLE PTE_EXECUTABLE))) in
  if ip_ge ip_ver 12 then None
  else if ip_ge ip_ver 10 then
    let mtype := if uncached then MTYPE_UC_GFX11 else 0 in
    let extra := Z.lor extra (Z.shiftl mtype MTYPE_NV10_SHIFT) in
    Some (Z.lor extra (flag (negb is_table && negb (pte_lv =? VM_PTB)%nat) PDE_PTE))
  else
    let mtype := if uncached then MTYPE_UC_GFX9 else 0 in
    let extra := Z.lor extra (Z.shiftl mtype MTYPE_VG10_SHIFT) in
    let extra := Z.lor extra (flag (is_table && (pte_lv =? VM_PDB1)%nat) (pde_bfs 9)) in
    let extra := Z.lor extra (flag (is_table && (pte_lv =? VM_PDB0)%nat) PTE_TF) in
    Some (Z.lor extra (flag (negb is_table && negb (pte_lv =? VM_PTB)%nat && negb (pte_lv =? VM_PDB0)%nat) PDE_PTE)).

Definition is_pte_huge_page (ip_ver : IpVer) (pte_lv : nat) (pte : Z) : option bool :=
  if ip_ge ip_ver 12 then None
  else if ip_ge ip_ver 10 then Some (negb (Z.land pte PDE_PTE =? 0))
  else Some (if (pte_lv =? VM_PDB0)%nat then Z.land pte PTE_TF =? 0 else negb (Z.land pte PDE_PTE =? 0)).

(** The debug assertion: no address bit above the 48-bit field. *)
Definition encode_entry (ip_ver : IpVer) (pte_lv : nat) (paddr : Z) (is_table uncached system snooped : bool)
    (frag : Z) (valid : bool) : option Z :=
  if negb (Z.land (Z.land paddr (Z.lnot PADDR_MASK)) (Z.lnot 4095) =? 0) then None
  else
    let? flags := get_pte_flags ip_ver pte_lv is_table frag uncached system snooped valid in
    Some (Z.lor flags (Z.land paddr PADDR_MASK)).

Definition entry_paddr (entry : Z) : Z := Z.land entry PADDR_MASK.
Definition entry_valid (entry : Z) : bool := negb (Z.land entry PTE_VALID =? 0).

Definition frag_size (va sz : Z) : Z :=
  let va_pwr2 := if 0 <? va then isolate_lowest_one va else Z.shiftl 1 63 in
  let sz_pwr2 := isolate_lowest_one sz in
  Z.max 0 (bit_length (Z.min va_pwr2 sz_pwr2) - 13).

(** ** Bit fields *)

(** All set bits of [x] are in the [n] bits from [lo] on. *)
Definition is_field (lo n x : Z) : Prop := forall i, 0 <= i -> i < lo \/ lo + n <= i -> Z.testbit x i = false.

Lemma field_ones lo n i : 0 <= lo -> 0 <= i -> lo <= i < lo + n -> Z.testbit (Z.shiftl (Z.ones n) lo) i = true.
Proof.
  intros Hlo Hi H. rewrite Z.shiftl_spec by exact Hi. apply Z.ones_spec_low. lia.
Qed.

Lemma field_land_0 lo n x m : 0 <= lo -> is_field lo n x -> Z.land m (Z.shiftl (Z.ones n) lo) = 0 -> Z.land x m = 0.
Proof.
  intros Hlo Hx Hm. apply Z.bits_inj'. intros i Hi. rewrite Z.land_spec, Z.bits_0.
  destruct (Z.lt_ge_cases i lo), (Z.le_gt_cases (lo + n) i); try (rewrite Hx by auto; reflexivity).
  assert (B : Z.testbit (Z.land m (Z.shiftl (Z.ones n) lo)) i = false) by now rewrite Hm, Z.bits_0.
  rewrite Z.land_spec, field_ones, andb_true_r in B by lia. now rewrite B, andb_false_r.
Qed.

Lemma field_land_all lo n x m :
  0 <= lo -> is_field lo n x -> Z.land m (Z.shiftl (Z.ones n) lo) = Z.shiftl (Z.ones n) lo -> Z.land x m = x.
Proof.
  intros Hlo Hx Hm. apply Z.bits_inj'. intros i Hi. rewrite Z.land_spec.
  destruct (Z.lt_ge_cases i lo), (Z.le_gt_cases (lo + n) i); try (rewrite Hx by auto; reflexivity).
  assert (B : Z.testbit (Z.land m (Z.shiftl (Z.ones n) lo)) i = true) by (rewrite Hm; apply field_ones; lia).
  rewrite Z.land_spec, field_ones, andb_true_r in B by lia. now rewrite B, andb_true_r.
Qed.

(** A page address of the 48-bit physical space. *)
Definition page_addr (p : Z) : Prop := 0 <= p < 2 ^ 48 /\ p mod 4096 = 0.

Lemma page_addr_field p : page_addr p -> is_field 12 36 p.
Proof.
  intros [H M] i Hi [L | L].
  - apply Z.mod_divide in M as [q ->]; [| lia]. change 4096 with (2 ^ 12). now apply Z.mul_pow2_bits_low.
  - apply Z.bits_above_log2; [lia |]. destruct (Z.eq_dec p 0) as [-> | N]; [cbn; lia |].
    apply Z.log2_lt_pow2; [lia |]. pose proof (Z.pow_le_mono_r 2 48 i). lia.
Qed.

Lemma pte_frag_field frag : 0 <= frag < 32 -> is_field 7 5 (pte_frag frag).
Proof.
  intros H i Hi L. unfold pte_frag. rewrite Z.shiftl_spec by exact Hi. rewrite Z.land_spec. change 31 with (Z.ones 5).
  destruct L as [L | L]; [now rewrite Z.testbit_neg_r by lia |]. now rewrite Z.ones_spec_high, andb_false_r by lia.
Qed.

Lemma pte_frag_read frag : 0 <= frag < 32 -> Z.shiftr (pte_frag frag) 7 = frag.
Proof.
  intros H. unfold pte_frag. rewrite Z.shiftr_shiftl_l, Z.sub_diag, Z.shiftl_0_r by lia.
  change 31 with (Z.ones 5). rewrite Z.land_ones by lia. apply Z.mod_small. lia.
Qed.

(** An entry split into its constant flags, its fragment and its address:
    every mask meets each of the three in a constant. *)
Definition splits (e k frag paddr : Z) : Prop := e = Z.lor (Z.lor k (pte_frag frag)) paddr.

Section Word.
Context (k frag paddr : Z) (Hf : 0 <= frag < 32) (Hp : page_addr paddr).
Let e := Z.lor (Z.lor k (pte_frag frag)) paddr.

Lemma word_land m :
  Z.land m (Z.shiftl (Z.ones 36) 12) = 0 -> Z.land m (Z.shiftl (Z.ones 5) 7) = 0 -> Z.land e m = Z.land k m.
Proof using Hf Hp.
  intros M1 M2. unfold e. rewrite !Z.land_lor_distr_l.
  rewrite (field_land_0 12 36 paddr m), (field_land_0 7 5 (pte_frag frag) m), !Z.lor_0_r;
    auto using page_addr_field, pte_frag_field; lia.
Qed.

Lemma word_paddr : Z.land k PADDR_MASK = 0 -> entry_paddr e = paddr.
Proof using Hf Hp.
  intros M. unfold entry_paddr, e. rewrite !Z.land_lor_distr_l, M.
  rewrite (field_land_0 7 5 (pte_frag frag)), (field_land_all 12 36 paddr);
    auto using page_addr_field, pte_frag_field; lia.
Qed.

Lemma word_frag : Z.land k (Z.shiftl (Z.ones 5) 7) = 0 -> Z.shiftr (Z.land e (Z.shiftl (Z.ones 5) 7)) 7 = frag.
Proof using Hf Hp.
  intros M. unfold e. rewrite !Z.land_lor_distr_l, M.
  rewrite (field_land_all 7 5 (pte_frag frag)), (field_land_0 12 36 paddr);
    auto using page_addr_field, pte_frag_field; try lia.
  now rewrite Z.lor_0_l, Z.lor_0_r, pte_frag_read.
Qed.

Lemma word_range : 0 <= k < 2 ^ 64 -> 0 <= e < 2 ^ 64.
Proof using Hf Hp.
  intros Hk. unfold e. destruct Hp as [[P1 P2] _].
  assert (F : 0 <= pte_frag frag < 2 ^ 64).
  { unfold pte_frag. change 31 with (Z.ones 5). rewrite Z.land_ones, Z.mod_small, Z.shiftl_mul_pow2 by lia.
    pose proof (Z.pow_lt_mono_r 2 12 64). lia. }
  apply (lor_bound _ _ 64); [lia | apply lor_bound; [lia | exact Hk | exact F] |].
  unfold in_u. pose proof (Z.pow_lt_mono_r 2 48 64). lia.
Qed.
End Word.

(** The flags of an entry other than its fragment. *)
Definition attributes (ip_ver : IpVer) (lv : nat) (is_table uncached system snooped valid : bool) : Z :=
  default 0 (get_pte_flags ip_ver lv is_table 0 uncached system snooped valid).

Ltac all_flags := repeat match goal with b : bool |- _ => destruct b end.

Lemma get_pte_flags_eq ip_ver lv is_table frag uncached system snooped valid :
  ip_ver.1.1 < 12 ->
  get_pte_flags ip_ver lv is_table frag uncached system snooped valid =
  Some (Z.lor (attributes ip_ver lv is_table uncached system snooped valid) (pte_frag frag)).
Proof.
  intros H. unfold attributes, get_pte_flags, ip_ge. rewrite (proj2 (Z.leb_gt 12 _)) by exact H.
  change (pte_frag 0) with 0. destruct (10 <=? ip_ver.1.1); unfold default, id; f_equal;
    apply Z.bits_inj'; intros i Hi; rewrite !Z.lor_spec; change (pte_frag 0) with 0; rewrite ?Z.bits_0; now btauto.
Qed.

Lemma encode_splits ip_ver lv paddr is_table uncached system snooped frag valid :
  ip_ver.1.1 < 12 -> page_addr paddr ->
  exists e, encode_entry ip_ver lv paddr is_table uncached system snooped frag valid = Some e /\
    splits e (attributes ip_ver lv is_table uncached system snooped valid) frag paddr.
Proof.
  intros H Hp. pose proof (page_addr_field _ Hp) as F. unfold encode_entry.
  assert (E : Z.land paddr PADDR_MASK = paddr) by (apply (field_land_all 12 36); [lia | exact F | reflexivity]).
  assert (E0 : Z.land (Z.land paddr (Z.lnot PADDR_MASK)) (Z.lnot 4095) = 0).
  { rewrite (field_land_0 12 36 paddr); [apply Z.land_0_l | lia | exact F | reflexivity]. }
  rewrite E0, E, get_pte_flags_eq by exact H. cbn. eexists. split; reflexivity.
Qed.

Lemma attributes_masks ip_ver lv is_table uncached system snooped valid :
  ip_ver.1.1 < 12 -> (lv <= 3)%nat ->
  let k := attributes ip_ver lv is_table uncached system snooped valid in
  0 <= k < 2 ^ 64 /\ Z.land k PADDR_MASK = 0 /\ Z.land k (Z.shiftl (Z.ones 5) 7) = 0 /\
  Z.land k PTE_VALID = (if valid then PTE_VALID else 0) /\
  Z.testbit k 1 = system /\ Z.testbit k 2 = snooped /\
  ((lv < 3)%nat -> is_pte_huge_page ip_ver lv k = Some (negb is_table)).
Proof.
  intros Hip Hlv. assert (C : lv = 0%nat \/ lv = 1%nat \/ lv = 2%nat \/ lv = 3%nat) by lia.
  unfold attributes, get_pte_flags, is_pte_huge_page, ip_ge. rewrite (proj2 (Z.leb_gt 12 _)) by exact Hip.
  clear Hip Hlv. destruct (10 <=? ip_ver.1.1); destruct C as [-> | [-> | [-> | ->]]]; all_flags;
    vm_compute; split_and!; first [reflexivity | discriminate | intros _; reflexivity | intros H; exfalso; lia].
Qed.

Lemma pte_frag_mask frag : pte_frag frag = pte_frag (Z.land frag 31).
Proof. unfold pte_frag. now rewrite <- Z.land_assoc. Qed.

Lemma frag_mask_range frag : 0 <= Z.land frag 31 < 32.
Proof. change 31 with (Z.ones 5). rewrite Z.land_ones by lia. apply Z.mod_pos_bound. lia. Qed.

(** What the walk reads back from an entry it wrote. *)
Lemma encode_facts ip_ver lv paddr is_table uncached system snooped frag valid :
  ip_ver.1.1 < 12 -> (lv <= 3)%nat -> page_addr paddr ->
  exists e, encode_entry ip_ver lv paddr is_table uncached system snooped frag valid = Some e /\
    entry_paddr e = paddr /\ entry_valid e = valid /\
    ((lv < 3)%nat -> is_pte_huge_page ip_ver lv e = Some (negb is_table)).
Proof.
  intros Hip Hlv Hp.
  destruct (encode_splits ip_ver lv paddr is_table uncached system snooped frag valid Hip Hp) as (e & E & S).
  exists e. split; [exact E |]. unfold splits in S. rewrite pte_frag_mask in S. pose proof (frag_mask_range frag) as Hf.
  destruct (attributes_masks ip_ver lv is_table uncached system snooped valid Hip Hlv) as (_ & K2 & _ & K4 & _ & _ & K7).
  subst e. split; [now apply word_paddr |]. split.
  - unfold entry_valid. rewrite word_land, K4 by (reflexivity || assumption). now destruct valid.
  - intros H. rewrite <- (K7 H). unfold is_pte_huge_page. now rewrite !word_land by (reflexivity || assumption).
Qed.

(** C39: Entries round trip.  Encoding an entry of a supported chip succeeds
    with a 64-bit word, from which the address, the validity, the system and
    snoop bits and the fragment are read back, and above the last level the
    distinction between tables and pages, which each generation encodes its
    own way. *)
Theorem entry_roundtrip ip_ver lv paddr is_table uncached system snooped frag valid :
  ip_ver.1.1 < 12 -> (lv <= 3)%nat -> page_addr paddr -> 0 <= frag < 32 ->
  exists e, encode_entry ip_ver lv paddr is_table uncached system snooped frag valid = Some e /\
    0 <= e < 2 ^ 64 /\ entry_paddr e = paddr /\ entry_valid e = valid /\
    Z.testbit e 1 = system /\ Z.testbit e 2 = snooped /\
    Z.shiftr (Z.land e (Z.shiftl (Z.ones 5) 7)) 7 = frag /\
    ((lv < 3)%nat -> is_pte_huge_page ip_ver lv e = Some (negb is_table)).
Proof.
  intros Hip Hlv Hp Hf.
  destruct (encode_splits ip_ver lv paddr is_table uncached system snooped frag valid Hip Hp) as (e & E & S).
  unfold splits in S. destruct (attributes_masks ip_ver lv is_table uncached system snooped valid Hip Hlv)
    as (K1 & K2 & K3 & K4 & K5 & K6 & K7).
  assert (L : forall m, Z.land m (Z.shiftl (Z.ones 36) 12) = 0 -> Z.land m (Z.shiftl (Z.ones 5) 7) = 0 ->
    Z.land e m = Z.land (attributes ip_ver lv is_table uncached system snooped valid) m)
    by (subst e; intros; now apply word_land).
  assert (B : forall i, 0 <= i -> i < 7 \/ 48 <= i ->
    Z.testbit e i = Z.testbit (attributes ip_ver lv is_table uncached system snooped valid) i).
  { intros i Hi Hr. subst e. rewrite !Z.lor_spec, (page_addr_field _ Hp), (pte_frag_field _ Hf), !orb_false_r by lia. reflexivity. }
  exists e. split; [exact E |]. split; [subst e; now apply word_range |].
  split; [subst e; now apply word_paddr |].
  split; [unfold entry_valid; rewrite L, K4 by reflexivity; now destruct valid |].
  split; [rewrite B by lia; exact K5 |]. split; [rewrite B by lia; exact K6 |].
  split; [subst e; now apply word_frag |].
  intros H. rewrite <- (K7 H). unfold is_pte_huge_page. now rewrite !L by reflexivity.
Qed.

Lemma entry_roundtrip_witness :
  exists e, encode_entry (9, 4, 3) 2 0x1234567000 true true false true 9 true = Some e /\
    0 <= e < 2 ^ 64 /\ entry_paddr e = 0x1234567000 /\ entry_valid e = true /\
    Z.testbit e 1 = false /\ Z.testbit e 2 = true /\
    Z.shiftr (Z.land e (Z.shiftl (Z.ones 5) 7)) 7 = 9 /\
    ((2 < 3)%nat -> is_pte_huge_page (9, 4, 3) 2 e = Some false).
Proof. apply entry_roundtrip; [reflexivity | lia | split; [lia | reflexivity] | lia]. Defined.

(** ** Fragments *)

Lemma min_pow2 a b : 0 <= a -> 0 <= b -> Z.min (2 ^ a) (2 ^ b) = 2 ^ Z.min a b.
Proof.
  intros Ha Hb. destruct (Z.le_ge_cases a b).
  - rewrite (Z.min_l a b), Z.min_l by (try apply Z.pow_le_mono_r; lia). reflexivity.
  - rewrite (Z.min_r a b), Z.min_r by (try apply Z.pow_le_mono_r; lia). reflexivity.
Qed.

(** The fragment of a run of pages is the largest [f] such that blocks of
    [2^f] pages tile it from an aligned start: [2^(12+f)] divides the address
    and the size, and no larger power of two divides both. *)
Theorem frag_size_maximal va sz :
  0 <= va < 2 ^ 63 -> 0 < sz < 2 ^ 63 -> (4096 | va) -> (4096 | sz) ->
  let f := frag_size va sz in
  0 <= f /\ (2 ^ (12 + f) | va) /\ (2 ^ (12 + f) | sz) /\
  (forall g, f < g -> (2 ^ (12 + g) | va) -> (2 ^ (12 + g) | sz) -> False).
Proof.
  intros Hva Hsz Dva Dsz. destruct (odd_part sz ltac:(lia)) as (k & y & Hk & Hy & Es).
  change 4096 with (2 ^ 12) in Dva, Dsz. unfold frag_size.
  assert (Hk12 : 12 <= k) by (rewrite Es in Dsz; now apply pow2_divides_odd in Dsz).
  assert (Hk63 : k < 63).
  { destruct (Z.lt_ge_cases k 63) as [| Hge]; [assumption | exfalso].
    assert (2 ^ 63 <= 2 ^ k) by (apply Z.pow_le_mono_r; lia). nia. }
  assert (Ek : isolate_lowest_one sz = 2 ^ k) by (rewrite Es; now apply isolate_lowest_one_spec).
  rewrite Ek.
  assert (G : forall j, 12 <= j -> (j < 63 -> exists z, 0 <= z /\ va = 2 ^ j * (2 * z + 1)) -> (j = 63 -> va = 0) -> j <= 63 ->
    let f := Z.max 0 (bit_length (Z.min (2 ^ j) (2 ^ k)) - 13) in
    0 <= f /\ (2 ^ (12 + f) | va) /\ (2 ^ (12 + f) | sz) /\
    (forall g, f < g -> (2 ^ (12 + g) | va) -> (2 ^ (12 + g) | sz) -> False)).
  { intros j Hj Hz Hz0 Hj63. rewrite min_pow2, bit_length_pow2 by lia. rewrite Z.max_r by lia.
    replace (12 + (Z.min j k + 1 - 13)) with (Z.min j k) by lia. split; [lia |].
    rewrite Es. split; [| split; [apply pow2_divides_odd; lia |]].
    - destruct (Z.eq_dec j 63) as [-> | N]; [rewrite (Hz0 eq_refl); apply Z.divide_0_r |].
      destruct (Hz ltac:(lia)) as (z & _ & ->). apply pow2_divides_odd; lia.
    - intros g Hg D1 D2. apply pow2_divides_odd in D2; [| lia | lia].
      destruct (Z.eq_dec j 63) as [-> | N]; [lia |].
      destruct (Hz ltac:(lia)) as (z & _ & Ez). rewrite Ez in D1. apply pow2_divides_odd in D1; lia. }
  destruct (Z.ltb_spec 0 va) as [P | P].
  - destruct (odd_part va P) as (j & z & Hj & Hz & Ev).
    assert (Hj12 : 12 <= j) by (rewrite Ev in Dva; now apply pow2_divides_odd in Dva).
    assert (Hj63 : j < 63).
    { destruct (Z.lt_ge_cases j 63) as [| Hge]; [assumption | exfalso].
      assert (2 ^ 63 <= 2 ^ j) by (apply Z.pow_le_mono_r; lia). nia. }
    assert (Ej : isolate_lowest_one va = 2 ^ j) by (rewrite Ev; now apply isolate_lowest_one_spec).
    rewrite Ej. apply G; [exact Hj12 | intros _; now exists z | lia | lia].
  - assert (va = 0) as -> by lia. change (Z.shiftl 1 63) with (2 ^ 63). apply G; lia.
Qed.

Lemma frag_size_maximal_witness :
  let f := frag_size 0x600000 0x5000 in
  0 <= f /\ (2 ^ (12 + f) | 0x600000) /\ (2 ^ (12 + f) | 0x5000) /\
  (forall g, f < g -> (2 ^ (12 + g) | 0x600000) -> (2 ^ (12 + g) | 0x5000) -> False).
Proof. apply frag_size_maximal; [lia | lia | now exists 0x600 | now exists 5]. Defined.
