(* ===== verification/AmTlsf.v ===== *)
(** * The range allocator of the GPU driver ([device/src/amd/am/mm/tlsf.rs])

    The driver's own two-level segregated fit allocator.  It keeps fewer
    records than the planner's: a block's [next] is always its end, [free]
    checks nothing, and the counters are decremented without looking whether
    the block was found.  The file shows that it simulates the planner's
    allocator step by step, and derives the interface its clients use.

    [None] is a panic. *)

From stdpp Require Import gmap.
From S2P Require Import Prelude.
From S2P Require Import Tlsf.

(** No two of the ranges overlap. *)
Fixpoint disjoint_all (l : list (Z * Z)) : Prop :=
  match l with [] => True | x :: l => Forall (disjoint_from x.1 x.2) l /\ disjoint_all l end.

Lemma disjoint_from_sym x y : disjoint_from x.1 x.2 y -> disjoint_from y.1 y.2 x.
Proof. unfold disjoint_from. lia. Qed.

#[export] Instance disjoint_all_perm : Proper (Permutation ==> iff) disjoint_all.
Proof.
  assert (P : forall l k, Permutation l k -> disjoint_all l -> disjoint_all k).
  { induction 1 as [| x l k HP IH | x y l | l k j _ IH1 _ IH2]; cbn; try tauto.
    - intros [H1 H2]. split; [now rewrite <- HP | auto].
    - intros ((H1 & H2)%Forall_cons & H3 & H4). rewrite !Forall_cons. repeat split; try assumption. now apply disjoint_from_sym. }
  intros l k HP. split; now apply P.
Qed.

Lemma disjoint_all_app l k :
  disjoint_all (l ++ k) <-> disjoint_all l /\ disjoint_all k /\ forall x y, In x l -> In y k -> disjoint_from x.1 x.2 y.
Proof.
  induction l as [| x l IH]; cbn; [tauto |]. rewrite Forall_app, IH, !Forall_forall. setoid_rewrite list_elem_of_In.
  split.
  - intros ((H1 & H2) & H3 & H4 & H5). repeat split; try assumption. intros z y [<- | Hz] Hy; auto.
  - intros ((H1 & H2) & H3 & H4). repeat split; auto.
Qed.

(** ** The interface: ranges handed out of [[base, base + size)] *)
Class RangeAllocator (A : Type) := {
  ra_alloc : Z -> Z -> A -> option (option Z * A);
  ra_free : Z -> A -> option A;
  ra_new : Z -> Z -> option A;
  (** [ra_ok b n live a]: [a] covers the [n] bytes from [b] on, of which
      exactly the [live] ranges are handed out. *)
  ra_ok : Z -> Z -> list (Z * Z) -> A -> Prop;
  ra_new_ok b n : 0 <= b -> 0 < n -> b + n < 2 ^ 63 -> exists a, ra_new n b = Some a /\ ra_ok b n [] a;
  ra_alloc_ok b n live a req align :
    ra_ok b n live a -> 16 <= req -> 0 < align -> Z.pow 2 (Z.log2 align) = align -> req + align < 2 ^ 62 ->
    exists r a', ra_alloc req align a = Some (r, a') /\
      match r with
      | Some o => ra_ok b n ((o, req) :: live) a' /\ (o - b) mod align = 0 /\ b <= o /\ o + req <= b + n /\
                  Forall (disjoint_from o req) live
      | None => ra_ok b n live a'
      end;
  ra_new_empty b : exists a, ra_new 0 b = Some a;
  (** With nothing handed out, a request that half the range holds fits. *)
  ra_fits b n a req align :
    ra_ok b n [] a -> 16 <= req -> 0 < align -> Z.pow 2 (Z.log2 align) = align -> req + align < 2 ^ 62 ->
    2 * (req + align) <= n -> exists o a', ra_alloc req align a = Some (Some o, a');
  (** The range determines its bounds, and what is handed out lies apart in it. *)
  ra_bounds b n live b' n' live' a : ra_ok b n live a -> ra_ok b' n' live' a -> b = b' /\ n = n';
  ra_live b n live a :
    ra_ok b n live a -> disjoint_all live /\ Forall (fun x => b <= x.1 /\ x.1 + x.2 <= b + n) live;
  ra_perm b n live live' a : ra_ok b n live a -> Permutation live live' -> ra_ok b n live' a;
  ra_free_ok b n live live' a o z :
    ra_ok b n live a -> Permutation live ((o, z) :: live') ->
    exists a', ra_free o a = Some a' /\ ra_ok b n live' a'
}.

(** ** The allocator *)
Module Am.
Module Block.
Record t := mk { size : Z; next : option Z; prev : option Z; is_free : bool }.
End Block.

Record TlsfAllocator := mkTlsf {
  size : Z; base : Z; block_size : Z; l2_cnt : Z; storage : list (list (list Z)); lv1_entries : list Z;
  blocks : gmap Z Block.t
}.

Definition round_up_pow2 (x m : Z) : option Z :=
  if negb (Z.land m (m - 1) =? 0) || (m <=? 0) then None
  else let? s := checked_usize (x + m) in Some (Z.land (s - 1) (Z.lnot (m - 1))).

Definition lv1 (size : Z) : Z := bit_length size.
Definition lv2 (l2_cnt size : Z) : option Z :=
  let bl := bit_length size in
  if bl =? 0 then None
  else Some (Z.shiftr (size - Z.shiftl 1 (bl - 1)) (Z.max 0 (bl - l2_cnt))).

(** [prev.or_else(|| blocks.get(&start).and_then(|b| b.prev))]. *)
Definition inherit_prev (prev : option Z) (start : Z) (t : TlsfAllocator) : option Z :=
  match prev with
  | Some p => Some p
  | None => match blocks t !! start with Some b => Block.prev b | None => None end
  end.

Definition with_state (s : list (list (list Z))) (e : list Z) (b : gmap Z Block.t) (t : TlsfAllocator) : TlsfAllocator :=
  mkTlsf (size t) (base t) (block_size t) (l2_cnt t) s e b.

Definition insert_block (start sz : Z) (prev : option Z) (t : TlsfAllocator) : option TlsfAllocator :=
  let prev := inherit_prev prev start t in
  let fl := lv1 sz in
  let? sl := lv2 (l2_cnt t) sz in
  let? b := bucket (storage t) fl sl in
  let? n := lv1_entries t !! Z.to_nat fl in
  let? next := checked_usize (start + sz) in
  Some (with_state (set_bucket (storage t) fl sl (b ++ [start])) (<[Z.to_nat fl := n + 1]> (lv1_entries t))
          (<[start := Block.mk sz (Some next) prev true]> (blocks t)) t).

Definition remove_block (start sz : Z) (prev : option Z) (t : TlsfAllocator) : option TlsfAllocator :=
  let prev := inherit_prev prev start t in
  let fl := lv1 sz in
  let? sl := lv2 (l2_cnt t) sz in
  let? b := bucket (storage t) fl sl in
  let b := default b (remove_first start b) in
  let? n := lv1_entries t !! Z.to_nat fl in
  if n <=? 0 then None
  else
    let? next := checked_usize (start + sz) in
    Some (with_state (set_bucket (storage t) fl sl b) (<[Z.to_nat fl := n - 1]> (lv1_entries t))
            (<[start := Block.mk sz (Some next) prev false]> (blocks t)) t).

(** [if let Some(b) = blocks.get_mut(&n) { b.prev = Some(p) }]. *)
Definition relink (nxt : option Z) (p : Z) (t : TlsfAllocator) : TlsfAllocator :=
  match nxt with
  | Some n =>
      with_state (storage t) (lv1_entries t)
        (alter (fun b => Block.mk (Block.size b) (Block.next b) (Some p) (Block.is_free b)) n (blocks t)) t
  | None => t
  end.

Definition split_block (start sz new_size : Z) (t : TlsfAllocator) : option TlsfAllocator :=
  let? b := blocks t !! start in
  let nxt := Block.next b in
  if negb (Block.is_free b) then None
  else
    let? t := remove_block start sz None t in
    let? t := insert_block start new_size None t in
    let? rest := checked_usize (sz - new_size) in
    let? t := insert_block (start + new_size) rest (Some start) t in
    Some (relink nxt (start + new_size) t).

Fixpoint merge_loop (fuel : nat) (start sz : Z) (nxt : option Z) (t : TlsfAllocator) :
    option (TlsfAllocator * option Z) :=
  match nxt with
  | None => Some (t, nxt)
  | Some n =>
      match blocks t !! n with
      | None => Some (t, nxt)
      | Some blk =>
          if negb (Block.is_free blk) then Some (t, nxt)
          else
            match fuel with
            | O => None
            | Datatypes.S fuel =>
                let blk_size := Block.size blk in
                let? t := remove_block start sz None t in
                let? t := remove_block n blk_size None t in
                let sz := sz + blk_size in
                let? t := insert_block start sz None t in
                let nxt := match blocks t !! n with Some b => Block.next b | None => None end in
                merge_loop fuel start sz nxt (with_state (storage t) (lv1_entries t) (delete n (blocks t)) t)
            end
      end
  end.

Definition merge_right (fuel : nat) (start : Z) (t : TlsfAllocator) : option TlsfAllocator :=
  let? b := blocks t !! start in
  if negb (Block.is_free b) then None
  else
    let? (t, nxt) := merge_loop fuel start (Block.size b) (Block.next b) t in
    Some (relink nxt start t).

Fixpoint leftmost (fuel : nat) (start : Z) (t : TlsfAllocator) : option Z :=
  let? b := blocks t !! start in
  match Block.prev b with
  | None => Some start
  | Some x =>
      let? p := blocks t !! x in
      if Block.is_free p then match fuel with O => None | Datatypes.S fuel => leftmost fuel x t end
      else Some start
  end.

Definition merge_block (fuel : nat) (start : Z) (t : TlsfAllocator) : option TlsfAllocator :=
  let? s := leftmost fuel start t in merge_right fuel s t.

(** Allocation in the free block found at [start]. *)
Definition take (start size req_size align : Z) (t : TlsfAllocator) : option (option Z * TlsfAllocator) :=
  let? b := blocks t !! start in
  let nsize := Block.size b in
  if nsize <? size then None
  else
    let? new_start := round_up_pow2 start align in
    let? (t, start, nsize) :=
      if new_start =? start then Some (t, start, nsize)
      else
        let? t := split_block start nsize (new_start - start) t in
        let? b := blocks t !! new_start in
        Some (t, new_start, Block.size b) in
    let? t := if req_size <? nsize then split_block start nsize req_size t else Some t in
    let? t := remove_block start req_size None t in
    let? addr := checked_usize (start + base t) in
    Some (Some addr, t).

Definition alloc (req_size align : Z) (t : TlsfAllocator) : option (option Z * TlsfAllocator) :=
  let align := Z.max align 1 in
  let req_size := Z.max req_size (block_size t) in
  let? sum := checked_usize (req_size + align) in
  let size := Z.max (sum - 1) (block_size t) in
  let? size := round_up_pow2 size (Z.shiftl 1 (Z.max 0 (bit_length size - l2_cnt t))) in
  let? l2 := lv2 (l2_cnt t) size in
  let? found := search_rows (storage t) (lv1_entries t) (Z.to_nat (lv1 size)) (Z.to_nat l2) in
  match found with
  | Some start => take start size req_size align t
  | None => Some (None, t)
  end.

Definition free (addr : Z) (t : TlsfAllocator) : option TlsfAllocator :=
  let? start := checked_usize (addr - base t) in
  let? b := blocks t !! start in
  let? t := insert_block start (Block.size b) None t in
  merge_block (Datatypes.S (stdpp.base.size (blocks t))) start t.

Definition new (size base block_size lv2_cnt : Z) : option TlsfAllocator :=
  let l2_cnt := bit_length lv2_cnt in
  let fl_count := Z.to_nat (bit_length size + 1) in
  let a := mkTlsf size base block_size l2_cnt
             (replicate fl_count (replicate (Z.to_nat (Z.shiftl 1 l2_cnt)) [])) (replicate fl_count 0)
             (<[0 := Block.mk size None None true]> ∅) in
  if 0 <? size then insert_block 0 size None a else Some a.

Definition with_defaults (size base : Z) : option TlsfAllocator := new size base 16 16.
End Am.

(** ** The planner's allocator, seen by the driver *)
Module Driver.
Import Am.

(** The driver's record of a block that the planner's allocator holds at [k]. *)
Definition record_of (k : Z) (m : Tlsf.BlockMeta) : Block.t :=
  Block.mk (Tlsf.BlockMeta.size m) (Some (k + Tlsf.BlockMeta.size m)) (Tlsf.BlockMeta.prev m) (Tlsf.BlockMeta.is_free m).
Definition records (b : gmap Z Tlsf.BlockMeta) : gmap Z Block.t := map_imap (fun k m => Some (record_of k m)) b.

(** The free lists of [t] over the blocks [b]. *)
Definition over (n : Z) (t : Tlsf.TlsfAllocator) (b : gmap Z Block.t) : TlsfAllocator :=
  mkTlsf n (Tlsf.base t) (Tlsf.block_size t) (Tlsf.l2_bits t) (Tlsf.storage t) (Tlsf.lv1_entries t) b.
Definition view (n : Z) (t : Tlsf.TlsfAllocator) : TlsfAllocator := over n t (records (Tlsf.blocks t)).

Lemma records_lookup b k : records b !! k = option_map (record_of k) (b !! k).
Proof. unfold records. rewrite map_lookup_imap. now destruct (b !! k). Qed.

Lemma records_insert b k m : records (<[k := m]> b) = <[k := record_of k m]> (records b).
Proof. unfold records. now rewrite map_imap_insert. Qed.

Lemma records_delete b k : records (delete k b) = delete k (records b).
Proof. unfold records. apply map_imap_delete. Qed.

Lemma records_prev b k p :
  records (alter (Tlsf.BlockMeta.set_prev (Some p)) k b) =
  alter (fun r => Block.mk (Block.size r) (Block.next r) (Some p) (Block.is_free r)) k (records b).
Proof.
  apply map_eq. intros i. rewrite records_lookup. destruct (decide (k = i)) as [<- | N].
  - rewrite !lookup_alter_eq, records_lookup. now destruct (b !! k).
  - now rewrite !lookup_alter_ne, records_lookup.
Qed.

Lemma lv2_eq bits sz : 0 < sz -> lv2 bits sz = Some (Tlsf.lv2 bits sz).
Proof.
  intros H. pose proof (bit_length_ge1 sz H). unfold lv2, Tlsf.lv2. now rewrite (proj2 (Z.eqb_neq _ 0)) by lia.
Qed.

Lemma usize_ok z : 0 <= z < 2 ^ 64 -> checked_usize z = Some z.
Proof.
  intros H. unfold checked_usize, try_u64, in_u64b.
  now rewrite (proj2 (Z.leb_le 0 _)), (proj2 (Z.ltb_lt _ _)) by lia.
Qed.

Section Index.
Context (arena n : Z) (HA : arena < 2 ^ 64).

Lemma insert_over t F k sz p b :
  indexed (levels_of arena) t F -> 0 < sz <= arena -> 0 <= k -> k + sz < 2 ^ 64 ->
  exists t', insert_block_index k sz t = Some t' /\ same t t' /\ Tlsf.blocks t' = Tlsf.blocks t /\
    indexed (levels_of arena) t' ((k, sz) :: F) /\
    insert_block k sz p (over n t b) =
      Some (over n t' (<[k := Block.mk sz (Some (k + sz)) (inherit_prev p k (over n t b)) true]> b)).
Proof using.
  intros X Hsz Hk Hks. destruct (insert_ok arena t F k sz X Hsz) as (t' & E & S & B & X').
  exists t'. split; [exact E |]. split; [exact S |]. split; [exact B |]. split; [exact X' |].
  unfold insert_block. cbn [over l2_cnt storage lv1_entries]. rewrite lv2_eq, usize_ok by lia.
  unfold insert_block_index in E. change (lv1 sz) with (Tlsf.lv1 sz).
  destruct (bucket _ _ _) as [bk |]; [| discriminate]. destruct (_ !! _) as [c |]; [| discriminate].
  injection E as <-. reflexivity.
Qed.

Lemma remove_over t F k sz p b :
  indexed (levels_of arena) t ((k, sz) :: F) -> 0 < sz <= arena -> 0 <= k -> k + sz < 2 ^ 64 ->
  exists t', remove_block_index k sz t = Some t' /\ same t t' /\ Tlsf.blocks t' = Tlsf.blocks t /\
    indexed (levels_of arena) t' F /\
    remove_block k sz p (over n t b) =
      Some (over n t' (<[k := Block.mk sz (Some (k + sz)) (inherit_prev p k (over n t b)) false]> b)).
Proof using.
  intros X Hsz Hk Hks. destruct (remove_ok arena t F k sz X Hsz) as (t' & E & S & B & X').
  exists t'. split; [exact E |]. split; [exact S |]. split; [exact B |]. split; [exact X' |].
  unfold remove_block. cbn [over l2_cnt storage lv1_entries]. rewrite lv2_eq, usize_ok by lia.
  unfold remove_block_index in E. change (lv1 sz) with (Tlsf.lv1 sz).
  destruct (bucket _ _ _) as [bk |] eqn:Eb; [| discriminate].
  destruct (remove_first k bk) as [bk' |] eqn:Ef.
  - destruct (_ !! _) as [c |]; [| discriminate]. destruct (c <=? 0); [discriminate |]. injection E as <-. reflexivity.
  - exfalso. unfold bucket in Eb. destruct (Tlsf.storage t !! _) as [row |] eqn:Er; [| discriminate].
    pose proof (ix_bucket _ _ _ X _ _ _ _ Er Eb) as Pb.
    rewrite filter_cons_True in Pb by (unfold in_bucket; cbn; tauto).
    destruct (remove_first_perm k bk) as (l & El & _); [rewrite Pb; now left | congruence].
Qed.
End Index.

(** The driver's [next] is the end of the block; the planner's is the next block, if any. *)
Definition link_ok (b : gmap Z Tlsf.BlockMeta) (nx : option Z) (e : Z) : Prop :=
  nx = Some e \/ (nx = None /\ b !! e = None).

Lemma relink_view n t nx e p :
  link_ok (Tlsf.blocks t) nx e -> relink (Some e) p (view n t) = view n (Tlsf.relink nx p t).
Proof.
  unfold relink, view, over, with_state. cbn. intros [-> | [-> H]]; cbn; [now rewrite records_prev |].
  f_equal. apply map_eq. intros i. destruct (decide (e = i)) as [<- | N].
  - now rewrite lookup_alter_eq, records_lookup, H.
  - now rewrite lookup_alter_ne.
Qed.

Lemma around_end L sz f q R :
  sizes_pos (L ++ (sz, f) :: R) ->
  link_ok (list_to_map (around L sz f q R)) (head_start (total L + sz) R None) (total L + sz).
Proof.
  intros P. destruct R as [| [z g] R]; [right | now left]. split; [reflexivity |].
  apply lm_not_in. unfold around. cbn [metas]. rewrite map_app, in_app_iff. cbn. arena.
  intros [Hin | [Hin | []]]; [| lia]. apply metas_not_left in Hin; [easy | assumption | lia].
Qed.

Lemma link_ok_insert b nx e k m : k <> e -> link_ok b nx e -> link_ok (<[k := m]> b) nx e.
Proof. intros N [H | [H1 H2]]; [now left | right; split; [exact H1 |]]. now rewrite lookup_insert_ne. Qed.

Lemma rep_link arena t L sz f R :
  rep arena t (L ++ (sz, f) :: R) -> link_ok (Tlsf.blocks t) (head_start (total L + sz) R None) (total L + sz).
Proof. intros [E _ _ P]. rewrite E, around_metas. apply around_end, P. Qed.

Lemma records_size b : stdpp.base.size (records b) = stdpp.base.size b.
Proof.
  rewrite <- !size_dom. f_equal. apply set_eq. intros i. rewrite !elem_of_dom, records_lookup. destruct (b !! i); cbn;
    split; intros [m H]; try discriminate; eauto.
Qed.

Lemma blocks_view n t : blocks (view n t) = records (Tlsf.blocks t).
Proof. reflexivity. Qed.

Lemma inherit_view n t k m :
  Tlsf.blocks t !! k = Some m -> inherit_prev None k (view n t) = Tlsf.BlockMeta.prev m.
Proof. intros E. unfold inherit_prev. cbn [view over blocks]. now rewrite records_lookup, E. Qed.

Lemma inherit_over n t k r b : inherit_prev None k (over n t (<[k := r]> b)) = Block.prev r.
Proof. unfold inherit_prev. cbn [over blocks]. now rewrite lookup_insert_eq. Qed.

Lemma inherit_over_ne n t k j r b :
  j <> k -> inherit_prev None k (over n t (<[j := r]> b)) = inherit_prev None k (over n t b).
Proof. intros N. unfold inherit_prev. cbn [over blocks]. now rewrite lookup_insert_ne. Qed.

Lemma pow2_land_pred k : 0 <= k -> Z.land (2 ^ k) (2 ^ k - 1) = 0.
Proof.
  intros Hk. assert (0 < 2 ^ k) by (apply Z.pow_pos_nonneg; lia).
  replace (2 ^ k - 1) with (Z.ones k) by (rewrite Z.ones_equiv; lia). rewrite Z.land_ones, Z.mod_same by lia. reflexivity.
Qed.

(** Rounding by masks is rounding by division. *)
Lemma round_up_pow2_eq x k : 0 <= x -> 0 <= k -> x + 2 ^ k < 2 ^ 64 -> round_up_pow2 x (2 ^ k) = Some (round_up x (2 ^ k)).
Proof.
  intros Hx Hk H. assert (0 < 2 ^ k) by (apply Z.pow_pos_nonneg; lia). unfold round_up_pow2, round_up.
  rewrite pow2_land_pred, Z.eqb_refl, (proj2 (Z.leb_gt _ 0)), usize_ok by lia. cbn [negb orb].
  rewrite round_down_pow2 by lia. destruct (Z.leb_spec (2 ^ k) 1); [| reflexivity].
  assert (2 ^ k = 1) as -> by lia. now rewrite Z.div_1_r, Z.mul_1_r, Z.add_simpl_r.
Qed.

Section Steps.
Context (arena n : Z) (HA : arena < 2 ^ 64).

Lemma split_view t L sz R h :
  rep arena t (L ++ (sz, true) :: R) -> 0 < h < sz ->
  exists t', Tlsf.split_block (total L) sz h t = Some t' /\ split_block (total L) sz h (view n t) = Some (view n t').
Proof using HA.
  intros HR Hh. pose proof (rep_lookup _ _ _ _ _ _ HR) as E0. pose proof (rep_link _ _ _ _ _ _ HR) as HL.
  destruct HR as [_ X T P].
  unfold Tlsf.split_block, split_block. cbn [view over blocks]. rewrite records_lookup, E0. cbn.
  assert (B : 0 <= total L /\ 0 < sz <= arena /\ total L + sz <= arena) by (clear - T P Hh; arena; lia).
  eapply indexed_perm in X; [| apply frees_around].
  destruct (remove_over arena n t _ (total L) sz None (records (Tlsf.blocks t)) X ltac:(lia) ltac:(lia) ltac:(lia))
    as (t1 & -> & _ & B1 & X1 & E1).
  change (over n t _) with (view n t) in E1. rewrite (inherit_view _ _ _ _ E0) in E1. rewrite E1, B1, E0. clear E1.
  cbn [Tlsf.BlockMeta.prev]. set (m1 := Tlsf.BlockMeta.mk h _ _ _). set (t1' := with_blocks _ t1).
  match goal with |- context [over n t1 ?b] => change (over n t1 b) with (over n t1' b);
    destruct (insert_over arena n t1' _ (total L) h None b (indexed_blocks _ _ _ _ X1) ltac:(lia) ltac:(lia) ltac:(lia))
      as (t2 & -> & _ & B2 & X2 & ->) end.
  rewrite (usize_ok (sz - h)), inherit_over, insert_insert_eq by lia.
  set (m2 := Tlsf.BlockMeta.mk (sz - h) _ _ _). set (t2' := with_blocks _ t2).
  match goal with |- context [over n t2 ?b] => change (over n t2 b) with (over n t2' b);
    destruct (insert_over arena n t2' _ (total L + h) (sz - h) (Some (total L)) b (indexed_blocks _ _ _ _ X2)
      ltac:(lia) ltac:(lia) ltac:(lia)) as (t3 & -> & _ & B3 & X3 & ->) end.
  exists (Tlsf.relink (head_start (total L + sz) R None) (total L + h) t3). split; [reflexivity |].
  rewrite <- (relink_view n t3 _ (total L + sz)).
  2:{ rewrite B3. cbn [t2' with_blocks Tlsf.blocks]. rewrite B2. cbn [t1' with_blocks Tlsf.blocks].
      now do 2 (apply link_ok_insert; [lia |]). }
  do 2 f_equal. unfold view. f_equal. rewrite B3. cbn [t2' with_blocks Tlsf.blocks]. rewrite B2.
  cbn [t1' with_blocks Tlsf.blocks]. now rewrite !records_insert.
Qed.
(** The absorbed neighbour leaves the map, and the run grows by it. *)
Lemma merge_loop_view fuel L sz q R t :
  (List.length R <= fuel)%nat ->
  sizes_pos (L ++ (sz, true) :: R) -> total (L ++ (sz, true) :: R) = arena ->
  Tlsf.blocks t = list_to_map (around L sz true q R) ->
  indexed (levels_of arena) t (frees 0 (L ++ (sz, true) :: R)) ->
  exists t' nx, Tlsf.merge_loop fuel (total L) sz (head_start (total L + sz) R None) t = Some (t', nx) /\
    merge_loop fuel (total L) sz (Some (total L + sz)) (view n t) =
      Some (view n t', Some (total L + (absorb sz R).1)).
Proof using HA.
  revert fuel sz q t. induction R as [| [z g] R IH]; intros fuel sz q t Hf P T E X.
  { exists t, None. destruct (around_end L sz true q [] P) as [H | [_ H]]; [discriminate |]. rewrite <- E in H.
    destruct fuel; cbn [merge_loop Tlsf.merge_loop view over blocks head_start]; now rewrite records_lookup, H. }
  assert (Hnext := around_next L sz true q z g R P). rewrite <- E in Hnext.
  cbn [head_start]. destruct g.
  2:{ exists t, (Some (total L + sz)).
      destruct fuel; cbn [merge_loop Tlsf.merge_loop view over blocks]; now rewrite records_lookup, Hnext. }
  destruct fuel as [| fuel]; [cbn in Hf; lia |].
  cbn [merge_loop Tlsf.merge_loop absorb]. rewrite blocks_view, records_lookup, Hnext. cbn [option_map record_of Block.is_free Block.size negb
    Tlsf.BlockMeta.is_free Tlsf.BlockMeta.size Tlsf.BlockMeta.next Tlsf.BlockMeta.prev].
  assert (Hsz : 0 <= total L /\ 0 < sz /\ 0 < z /\ total L + sz + z <= arena) by (clear - T P; arena; lia).
  pose proof (around_lookup L sz true q ((z, true) :: R) ltac:(clear - P; now arena)) as E0. rewrite <- E in E0.
  eapply indexed_perm in X; [| apply frees_around].
  destruct (remove_over arena n t _ (total L) sz None (records (Tlsf.blocks t)) X ltac:(lia) ltac:(lia) ltac:(lia))
    as (t1 & -> & _ & B1 & X1 & E1).
  change (over n t _) with (view n t) in E1. rewrite (inherit_view _ _ _ _ E0) in E1. rewrite E1. clear E1.
  cbn [frees app] in X1. eapply indexed_perm in X1; [| symmetry; apply Permutation_middle].
  match goal with |- context [remove_block _ z _ (over n t1 ?b)] =>
    destruct (remove_over arena n t1 _ (total L + sz) z None b X1 ltac:(lia) ltac:(lia) ltac:(lia))
      as (t2 & -> & _ & B2 & X2 & ->) end.
  set (pn := inherit_prev _ (total L + sz) _). clearbody pn.
  rewrite B2, B1, E0. cbn [Tlsf.BlockMeta.prev]. set (m1 := Tlsf.BlockMeta.mk (sz + z) _ _ _). set (t2' := with_blocks _ t2).
  match goal with |- context [insert_block _ _ _ (over n t2 ?b)] => change (over n t2 b) with (over n t2' b);
    destruct (insert_over arena n t2' _ (total L) (sz + z) None b (indexed_blocks _ _ _ _ X2) ltac:(lia) ltac:(lia) ltac:(lia))
      as (t3 & -> & _ & B3 & X3 & ->) end.
  rewrite inherit_over_ne, inherit_over by lia. cbn [Block.prev].
  match goal with |- context [over n t3 ?b] => set (b3 := b) end.
  assert (Eb : delete (total L + sz) b3 = records (delete (total L + sz) (Tlsf.blocks t3))).
  { rewrite B3. unfold b3. cbn [t2' with_blocks Tlsf.blocks]. rewrite records_delete, records_insert. apply map_eq. intros i.
    destruct (decide (i = total L + sz)) as [-> | N]; [now rewrite !lookup_delete_eq |].
    rewrite !lookup_delete_ne by congruence. destruct (decide (i = total L)) as [-> | N'].
    - rewrite !lookup_insert_eq. unfold record_of, m1. cbn. f_equal.
    - now rewrite !lookup_insert_ne by congruence. }
  assert (En : b3 !! (total L + sz) = Some (Block.mk z (Some (total L + sz + z)) pn false)).
  { unfold b3. now rewrite lookup_insert_ne, lookup_insert_eq by lia. }
  cbn [over blocks]. rewrite En, Eb. cbn [Block.next]. clearbody b3.
  destruct (IH fuel (sz + z) (Some (total L + sz)) (with_blocks (delete (total L + sz) (Tlsf.blocks t3)) t3))
    as (t' & nx & E1 & E2).
  - cbn in Hf. lia.
  - clear - P. arena. apply sizes_pos_app. split; [assumption |]. apply sizes_pos_cons. split; [lia | assumption].
  - clear - T. arena. lia.
  - cbn [with_blocks Tlsf.blocks]. rewrite B3. cbn [t2' with_blocks Tlsf.blocks]. rewrite E. unfold m1.
    replace (total L + (sz + z)) with (total L + sz + z) by lia. now apply around_merge.
  - apply indexed_blocks. eapply indexed_perm; [| exact X3]. rewrite frees_around.
    now replace (total L + sz + z) with (total L + (sz + z)) by lia.
  - exists t', nx. replace (total L + (sz + z)) with (total L + sz + z) in E1, E2 by lia. split; [exact E1 |].
    exact E2.
Qed.
Lemma merge_right_view fuel L sz R t :
  (List.length R <= fuel)%nat -> rep arena t (L ++ (sz, true) :: R) ->
  exists t', Tlsf.merge_right fuel (total L) t = Some t' /\ merge_right fuel (total L) (view n t) = Some (view n t').
Proof using HA.
  intros Hf HR. pose proof (rep_lookup _ _ _ _ _ _ HR) as E0. destruct HR as [E X T P].
  rewrite around_metas in E. unfold merge_right, Tlsf.merge_right. rewrite blocks_view, records_lookup, E0.
  cbn [option_map record_of Block.is_free Block.size Block.next negb Tlsf.BlockMeta.is_free Tlsf.BlockMeta.size Tlsf.BlockMeta.next].
  destruct (merge_loop_view fuel L sz _ R t Hf P T E X) as (t' & nx & E1 & ->).
  destruct (merge_loop_around arena fuel L sz _ R t Hf P T E X) as (t2 & q & E2 & _ & P' & _ & B' & _).
  rewrite E1 in E2. injection E2 as <- ->. rewrite E1. eexists. split; [reflexivity |].
  f_equal. apply relink_view. rewrite B'. now apply around_end.
Qed.

Lemma leftmost_view fuel L sz f R t :
  (List.length L <= fuel)%nat -> rep arena t (L ++ (sz, f) :: R) ->
  leftmost fuel (total L) (view n t) = Tlsf.leftmost fuel (total L) t.
Proof using.
  revert fuel sz f R. induction L as [| [z g] L IH] using rev_ind; intros fuel sz f R Hf HR;
    pose proof (rep_lookup _ _ _ _ _ _ HR) as E.
  - destruct fuel; cbn [leftmost Tlsf.leftmost]; rewrite blocks_view, records_lookup, E; reflexivity.
  - rewrite last_start_app, Z.add_0_l in E. rewrite <- app_assoc in HR. cbn [app] in HR.
    pose proof (rep_lookup _ _ _ _ _ _ HR) as E1. rewrite length_app in Hf. cbn in Hf.
    destruct fuel as [| fuel]; [lia |]. cbn [leftmost Tlsf.leftmost]. rewrite blocks_view, records_lookup, E.
    cbn [option_map record_of Block.prev Tlsf.BlockMeta.prev]. rewrite records_lookup, E1.
    cbn [option_map record_of Block.is_free Tlsf.BlockMeta.is_free]. destruct g; [| reflexivity].
    exact (IH fuel z true _ ltac:(lia) HR).
Qed.

Lemma merge_block_view fuel L sz R t :
  (List.length (L ++ (sz, true) :: R) <= fuel)%nat -> rep arena t (L ++ (sz, true) :: R) ->
  exists t', Tlsf.merge_block fuel (total L) t = Some t' /\ merge_block fuel (total L) (view n t) = Some (view n t').
Proof using HA.
  intros Hf HR. rewrite length_app in Hf. cbn in Hf. unfold merge_block, Tlsf.merge_block.
  rewrite (leftmost_view fuel L sz true R t ltac:(lia) HR).
  destruct (leftmost_rep arena fuel L sz true R t ltac:(lia) HR) as (L1 & F & -> & HF & _ & ->).
  rewrite <- app_assoc in HR. rewrite length_app in Hf.
  destruct F as [| [z g] F].
  - apply (merge_right_view fuel L1 sz R t ltac:(lia) HR).
  - inversion HF as [| ? ? Hg _]; subst. cbn in Hg. subst g.
    apply (merge_right_view fuel L1 z (F ++ (sz, true) :: R) t); [| exact HR]. rewrite length_app. cbn in *. lia.
Qed.

Lemma free_view t L sz R :
  Tlsf.base t + arena < 2 ^ 64 -> 0 <= Tlsf.base t ->
  rep arena t (L ++ (sz, false) :: R) -> coalesced (L ++ (sz, false) :: R) = true ->
  exists t', Tlsf.free (Tlsf.base t + total L) t = Some (t', None) /\
    free (Tlsf.base t + total L) (view n t) = Some (view n t').
Proof using HA.
  intros HB Hb HR C. pose proof (rep_lookup _ _ _ _ _ _ HR) as E0. pose proof (rep_size _ _ _ HR) as Esz.
  pose proof (rep_link _ _ _ _ _ _ HR) as HL. destruct HR as [E X T P].
  unfold free, Tlsf.free. change (base (view n t)) with (Tlsf.base t).
  replace (Tlsf.base t + total L - Tlsf.base t) with (total L) by lia.
  assert (B : 0 <= total L /\ 0 < sz <= arena /\ total L + sz <= arena) by (clear - T P; arena; lia).
  rewrite usize_ok, (proj2 (Z.ltb_ge _ 0)) by lia. rewrite blocks_view, records_lookup, E0.
  cbn [option_map record_of Block.size Tlsf.BlockMeta.size Tlsf.BlockMeta.is_free]. unfold Tlsf.BlockMeta.set_free.
  cbn [Tlsf.BlockMeta.size Tlsf.BlockMeta.next Tlsf.BlockMeta.prev].
  set (t0 := with_blocks _ t). change (view n t) with (over n t0 (records (Tlsf.blocks t))).
  destruct (insert_over arena n t0 _ (total L) sz None (records (Tlsf.blocks t)) (indexed_blocks _ _ _ _ X)
    ltac:(lia) ltac:(lia) ltac:(lia)) as (t1 & -> & _ & B1 & X1 & ->).
  change (over n t0 (records (Tlsf.blocks t))) with (view n t). rewrite (inherit_view _ _ _ _ E0).
  assert (R1 : rep arena t1 (L ++ (sz, true) :: R)).
  { split.
    - rewrite B1. cbn [t0 with_blocks Tlsf.blocks]. rewrite E. apply set_flag_blocks. clear - P. now arena.
    - eapply indexed_perm; [| exact X1]. rewrite frees_around, frees_app. reflexivity.
    - now rewrite (total_flag _ _ true false).
    - eapply sizes_pos_flag, P. }
  assert (V : over n t1 (<[total L := Block.mk sz (Some (total L + sz)) (last_start 0 None L) true]> (records (Tlsf.blocks t))) = view n t1).
  { unfold view. rewrite B1. cbn [t0 with_blocks Tlsf.blocks]. now rewrite records_insert. }
  cbn [Tlsf.BlockMeta.prev]. rewrite V, blocks_view, records_size.
  destruct (merge_block_view (Datatypes.S (stdpp.base.size (Tlsf.blocks t1))) L sz R t1) as (t2 & E1 & E2).
  { rewrite (rep_size _ _ _ R1). lia. }
  { exact R1. }
  assert (Es : stdpp.base.size (Tlsf.blocks t) = stdpp.base.size (Tlsf.blocks t1)).
  { rewrite Esz, (rep_size _ _ _ R1), !length_app. reflexivity. }
  rewrite Es, E1. exists t2. split; [reflexivity | exact E2].
Qed.
Lemma head_view t L z R h :
  rep arena t (L ++ (z, true) :: R) -> 0 <= h < z ->
  exists t', (if total L + h =? total L then Some (t, total L, z)
              else let? t := Tlsf.split_block (total L) z h t in
                   let? b := Tlsf.blocks t !! (total L + h) in Some (t, total L + h, Tlsf.BlockMeta.size b)) =
      Some (t', total L + h, z - h) /\
    (if total L + h =? total L then Some (view n t, total L, z)
     else let? t := split_block (total L) z h (view n t) in
          let? b := blocks t !! (total L + h) in Some (t, total L + h, Block.size b)) =
      Some (view n t', total L + h, z - h) /\
    rep arena t' ((L ++ pad h) ++ (z - h, true) :: R) /\ same t t'.
Proof using HA.
  intros HR Hh. destruct (split_head arena t L z R h HA HR Hh) as (t' & E & S & R').
  exists t'. split; [exact E |]. split; [| now split]. revert E. destruct (Z.eqb_spec (total L + h) (total L)) as [N | N].
  - intros E. assert (t' = t) as -> by congruence. assert (h = 0) as -> by lia. now rewrite Z.add_0_r, Z.sub_0_r.
  - destruct (split_view t L z R h HR ltac:(lia)) as (t1 & -> & ->).
    rewrite blocks_view, records_lookup. destruct (Tlsf.blocks t1 !! _); [| discriminate]. cbn. now intros [= -> ->].
Qed.

Lemma tail_view t L z R r :
  rep arena t (L ++ (z, true) :: R) -> 0 < r <= z ->
  exists t', (if r <? z then Tlsf.split_block (total L) z r t else Some t) = Some t' /\
    (if r <? z then split_block (total L) z r (view n t) else Some (view n t)) = Some (view n t') /\
    rep arena t' (L ++ (r, true) :: pad (z - r) ++ R) /\ same t t'.
Proof using HA.
  intros HR Hr. destruct (split_tail arena t L z R r HA HR Hr) as (t' & E & S & R').
  exists t'. split; [exact E |]. split; [| now split]. revert E. destruct (Z.ltb_spec r z) as [N | N]; [| now intros [= ->]].
  destruct (split_view t L z R r HR ltac:(lia)) as (t1 & -> & ->). now intros [= ->].
Qed.

Lemma use_view t L z R :
  rep arena t (L ++ (z, true) :: R) ->
  exists t', remove_block_index (total L) z t = Some t' /\ same t t' /\
    remove_block (total L) z None (view n t) =
      Some (view n (with_blocks (alter (Tlsf.BlockMeta.set_free false) (total L) (Tlsf.blocks t')) t')).
Proof using HA.
  intros HR. pose proof (rep_lookup _ _ _ _ _ _ HR) as E0. destruct HR as [_ X T P].
  assert (B : 0 <= total L /\ 0 < z <= arena /\ total L + z <= arena) by (clear - T P; arena; lia).
  eapply indexed_perm in X; [| apply frees_around].
  destruct (remove_over arena n t _ (total L) z None (records (Tlsf.blocks t)) X ltac:(lia) ltac:(lia) ltac:(lia))
    as (t1 & E & S & B1 & X1 & E1).
  exists t1. split; [exact E |]. split; [exact S |].
  change (over n t _) with (view n t) in E1. rewrite (inherit_view _ _ _ _ E0) in E1. rewrite E1. f_equal.
  unfold view, over. cbn [with_blocks Tlsf.blocks Tlsf.base Tlsf.block_size Tlsf.l2_bits Tlsf.storage Tlsf.lv1_entries].
  f_equal. rewrite B1. apply map_eq. intros i. rewrite records_lookup. destruct (decide (total L = i)) as [<- | N].
  - now rewrite lookup_insert_eq, lookup_alter_eq, E0.
  - now rewrite lookup_insert_ne, lookup_alter_ne, records_lookup.
Qed.

Lemma take_view t L z R size req k :
  Tlsf.base t + arena < 2 ^ 64 -> 0 <= Tlsf.base t -> rep arena t (L ++ (z, true) :: R) ->
  0 < req -> 0 <= k -> req + 2 ^ k - 1 <= size <= z -> size < 2 ^ 63 ->
  exists t' o, Tlsf.take (total L) size req (2 ^ k) t = Some (t', o) /\
    take (total L) size req (2 ^ k) (view n t) = Some (Some o, view n t').
Proof using HA.
  intros HB Hb HR Hreq Hk Hsz Hmax. assert (Hp : 0 < 2 ^ k) by (apply Z.pow_pos_nonneg; lia).
  assert (B : 0 <= total L /\ total L + z <= arena) by (destruct HR as [_ _ T P]; clear - T P; arena; lia).
  unfold take, Tlsf.take. rewrite blocks_view, records_lookup, (rep_lookup _ _ _ _ _ _ HR).
  cbn [option_map record_of Block.size Tlsf.BlockMeta.size]. rewrite (proj2 (Z.ltb_ge z size)) by lia.
  rewrite round_up_pow2_eq by lia. destruct (round_up_spec (total L) (2 ^ k) ltac:(lia)) as [Hru _].
  rewrite usize_ok by lia. set (h := round_up (total L) (2 ^ k) - total L) in *.
  replace (round_up (total L) (2 ^ k)) with (total L + h) in * by lia. clearbody h.
  destruct (head_view t L z R h HR ltac:(lia)) as (t1 & -> & -> & R1 & S1).
  assert (TL : total (L ++ pad h) = total L + h) by (rewrite total_app, total_pad; lia).
  destruct (tail_view t1 (L ++ pad h) (z - h) R req R1 ltac:(lia)) as (t2 & E2 & E2' & R2 & S2).
  rewrite TL in E2, E2'. rewrite E2, E2'.
  destruct (use_view t2 _ _ _ R2) as (t3 & E3 & S3 & E3'). rewrite TL in E3, E3'. rewrite E3, E3'.
  destruct (same_trans _ _ _ S1 (same_trans _ _ _ S2 S3)) as (B1 & _ & _ & _).
  unfold with_blocks. cbn [Tlsf.base view over base]. rewrite B1, usize_ok by lia.
  eexists _, _. split; reflexivity.
Qed.

Lemma search_size_view bits s size :
  (let msb := bit_length s in
   if bits <? msb then
     let granule := Z.shiftl 1 (msb - bits) in
     let? rounded := checked_usize (s + granule) in Some (Z.land (rounded - 1) (Z.lnot (granule - 1)))
   else Some s) = Some size ->
  0 <= s < 2 ^ 63 -> round_up_pow2 s (Z.shiftl 1 (Z.max 0 (bit_length s - bits))) = Some size.
Proof using.
  cbn zeta. rewrite !Z.shiftl_1_l. intros E Hs. destruct (Z.ltb_spec bits (bit_length s)) as [H | H].
  - rewrite Z.max_r by lia. assert (0 < 2 ^ (bit_length s - bits)) by (apply Z.pow_pos_nonneg; lia).
    unfold round_up_pow2. now rewrite pow2_land_pred, Z.eqb_refl, (proj2 (Z.leb_gt _ 0)) by lia.
  - injection E as <-. rewrite Z.max_l by lia. rewrite round_up_pow2_eq by lia. reflexivity.
Qed.

Lemma slack_le bits n0 : 1 <= bits -> 0 < n0 -> slack bits n0 <= n0.
Proof using.
  intros Hb Hn. unfold slack. pose proof (bit_length_pos n0 Hn) as [H _]. pose proof (bit_length_ge1 n0 Hn).
  assert (2 ^ Z.max 0 (bit_length n0 - bits) <= 2 ^ (bit_length n0 - 1)) by (apply Z.pow_le_mono_r; lia). lia.
Qed.

(** Both allocators answer a request alike. *)
Lemma alloc_view t l req k :
  Tlsf.base t + arena < 2 ^ 64 -> 0 <= Tlsf.base t -> 1 <= Tlsf.block_size t -> rep arena t l ->
  0 <= k -> Z.max req (Tlsf.block_size t) + 2 ^ k < 2 ^ 62 ->
  exists t' r, Tlsf.alloc req (2 ^ k) t = Some (t', r) /\
    alloc req (2 ^ k) (view n t) = Some (match r with inl o => Some o | inr _ => None end, view n t').
Proof using HA.
  intros HB Hb Hbs HR Hk Hreq. assert (Hp : 0 < 2 ^ k) by (apply Z.pow_pos_nonneg; lia).
  pose proof (ix_bits _ _ _ (rep_index _ _ _ HR)) as Hbits.
  unfold alloc, Tlsf.alloc. rewrite (Z.max_l (2 ^ k) 1) by lia. cbn [block_size view over l2_cnt storage lv1_entries].
  set (r := Z.max req (Tlsf.block_size t)) in *. rewrite usize_ok by lia.
  destruct (search_size_spec t r (2 ^ k)) as (size & Es & D & Hsz); try lia. rewrite Es. revert Es.
  unfold search_size. rewrite usize_ok by lia. set (s := Z.max (r + 2 ^ k - 1) (Tlsf.block_size t)).
  intros Es. rewrite (search_size_view _ _ _ Es) by (pose proof (Z.le_max_l (r + 2 ^ k - 1) (Tlsf.block_size t)); lia).
  rewrite lv2_eq by lia. change (lv1 size) with (Tlsf.lv1 size).
  destruct (search_rep arena t l size HR ltac:(lia) D) as (q & -> & Hq). destruct q as [st |].
  - destruct Hq as (L & z & R & -> & -> & Hz).
    assert (z <= arena) by (destruct HR as [_ _ T P]; clear - T P; arena; lia).
    destruct (take_view t L z R size r k) as (t' & o & -> & ->); try assumption; try lia.
    { pose proof (slack_le (l2_bits t) (r + 2 ^ k - 1) ltac:(lia) ltac:(lia)). lia. }
    exists t', (inl o). split; reflexivity.
  - exists t, (inr (OutOfMemory r)). split; reflexivity.
Qed.
End Steps.

(** ** Histories *)
Lemma new_view n b bs cnt t :
  0 < n -> n < 2 ^ 64 -> 1 <= cnt -> Tlsf.new n b bs cnt = Some t -> new n b bs cnt = Some (view n t).
Proof.
  intros Hn HN Hc. unfold new, Tlsf.new. rewrite (Z.max_l cnt 1) by lia. rewrite (proj2 (Z.ltb_lt 0 n)) by lia.
  unfold insert_block, insert_block_index. cbn [l2_cnt storage lv1_entries Tlsf.l2_bits Tlsf.storage Tlsf.lv1_entries with_blocks].
  rewrite lv2_eq, usize_ok by lia. change (lv1 n) with (Tlsf.lv1 n).
  destruct (bucket _ _ _) as [bk |]; [| discriminate]. destruct (_ !! _) as [c |]; [| discriminate].
  intros [= <-]. unfold inherit_prev, view, over, with_state, with_index. cbn [blocks].
  now rewrite lookup_insert_eq, insert_insert_eq.
Qed.

(** The events of a client, as for the planner's allocator. *)
Definition step (e : event) (a : TlsfAllocator) : option (TlsfAllocator * option (option Z)) :=
  match e with
  | Alloc req align => let? (r, a) := alloc req align a in Some (a, Some r)
  | Free o => let? a := free o a in Some (a, None)
  end.

Fixpoint run (es : list event) (a : TlsfAllocator) : option (TlsfAllocator * list (option (option Z))) :=
  match es with
  | [] => Some (a, [])
  | e :: es => let? (a, o) := step e a in let? (a, os) := run es a in Some (a, o :: os)
  end.

(** The driver's answer for an outcome of the planner's allocator. *)
Definition answer (o : outcome) : option (option Z) :=
  match o with Placed o => Some (Some o) | Failed _ => Some None | Freed => None end.

(** Alignments are powers of two, sizes machine words; a [free] the planner's
    allocator rejects is not covered. *)
Definition driver_event (bs : Z) (e : event) : Prop :=
  match e with
  | Alloc req align => exists k, 0 <= k /\ align = 2 ^ k /\ Z.max req bs + 2 ^ k < 2 ^ 62
  | Free o => 0 <= o
  end.
Definition accepted (e : event) (o : outcome) : Prop :=
  match e, o with Free _, Failed _ => False | _, _ => True end.

Lemma driver_event_ok bs e : driver_event bs e -> event_ok bs e.
Proof. destruct e as [req align | o]; cbn; [| exact id]. intros (k & Hk & -> & H). pose proof (Z.pow_pos_nonneg 2 k). lia. Qed.

Section Run.
Context (b arena bs bits : Z) (Hb : 0 <= b) (HA : b + arena < 2 ^ 64) (Hbs : 1 <= bs).

Lemma step_view t s e t' o :
  refines b arena bs bits t s -> driver_event bs e -> Tlsf.step e t = Some (t', o) -> accepted e o ->
  step e (view arena t) = Some (view arena t', answer o).
Proof using Hb HA Hbs.
  intros [E1 E2 E3 _ (l & R & C & _)] He Hs Ha. destruct e as [req align | off]; cbn [step Tlsf.step] in *.
  - destruct He as (k & Hk & -> & Hreq).
    destruct (alloc_view arena arena ltac:(lia) t l req k ltac:(lia) ltac:(lia) ltac:(lia) R Hk ltac:(lia)) as (t1 & r & Et & ->).
    rewrite Et in Hs. injection Hs as <- <-. now destruct r.
  - unfold Tlsf.free in Hs. destruct (Z.ltb_spec (off - Tlsf.base t) 0) as [H | H]; [now injection Hs as <- <- |].
    destruct (Tlsf.blocks t !! _) as [m |] eqn:Em; [| now injection Hs as <- <-].
    destruct (Tlsf.BlockMeta.is_free m) eqn:Ef; [now injection Hs as <- <- |].
    destruct (rep_lookup_inv _ _ _ _ _ R Em) as (L & R0 & -> & Eo). rewrite Ef in R, C.
    destruct (free_view arena arena ltac:(lia) t L _ R0 ltac:(lia) ltac:(lia) R C) as (t1 & Et & Et').
    replace (Tlsf.base t + total L) with off in Et, Et' by lia. rewrite Et'.
    unfold Tlsf.free in Et. rewrite (proj2 (Z.ltb_ge _ 0)), Em, Ef in Et by lia. rewrite Et in Hs. now injection Hs as <- <-.
Qed.

Lemma run_view es t s t' os :
  refines b arena bs bits t s -> Forall (driver_event bs) es -> Tlsf.run es t = Some (t', os) ->
  Forall2 accepted es os -> run es (view arena t) = Some (view arena t', map answer os).
Proof using Hb HA Hbs.
  intros HR He. revert t s os HR. induction He as [| e es He Hes IH]; intros t s os HR; cbn [run Tlsf.run].
  { now intros [= <- <-] _. }
  destruct (step_refines b arena bs bits t s e Hb HA Hbs HR (driver_event_ok _ _ He)) as (t1 & o & s1 & E1 & _ & R1).
  rewrite E1. destruct (Tlsf.run es t1) as [[t2 os2] |] eqn:E2; [| discriminate]. intros [= <- <-] F.
  inversion F as [| ? ? ? ? Fo Fs]; subst. rewrite (step_view _ _ _ _ _ HR He E1 Fo). cbn.
  now rewrite (IH t1 s1 os2 R1 E2 Fs).
Qed.
End Run.

(** C19: Over the driver's allocator, every history of requests and of frees of
    live addresses runs without a panic and gets exactly the answers of the
    memory planner's allocator: each range is aligned, inside
    [[b, b + n)] and clear of the live ones, and [None] is returned exactly
    where the planner's reports that it is out of memory. *)
Theorem driver_follows_planner n b es :
  0 < n -> 0 <= b -> b + n < 2 ^ 64 -> Forall (driver_event 16) es ->
  exists a0 t0 t os s,
    with_defaults n b = Some a0 /\ Tlsf.new n b 16 16 = Some t0 /\ Tlsf.run es t0 = Some (t, os) /\
    history b n 16 ([], 0) es os s /\
    (Forall2 accepted es os -> exists a, run es a0 = Some (a, map answer os)).
Proof.
  intros Hn Hb HA He. destruct (new_refines n b 16 16 ltac:(lia)) as (t0 & E0 & R0 & _).
  destruct (run_refines b n 16 _ t0 _ es Hb HA ltac:(lia) R0) as (t & os & s & E & H & R).
  { eapply Forall_impl; [exact He | exact (driver_event_ok 16)]. }
  exists (view n t0), t0, t, os, s. split; [apply new_view; assumption || lia |].
  do 3 (split; [assumption |]). intros Ha. exists (view n t).
  exact (run_view b n 16 _ Hb HA ltac:(lia) es t0 _ t os R0 He E Ha).
Qed.

Definition demo : list event := [Alloc 100 16; Alloc 4096 4096; Free 1000; Alloc 70000 1].

Lemma demo_events_ok : Forall (driver_event 16) demo.
Proof.
  repeat (constructor; cbn); [exists 4 | exists 12 | lia | exists 0]; (split; [lia | split; [reflexivity | cbn; lia]]).
Qed.

Lemma driver_follows_planner_witness :
  exists a0 t0 t os s,
    with_defaults 65536 1000 = Some a0 /\ Tlsf.new 65536 1000 16 16 = Some t0 /\ Tlsf.run demo t0 = Some (t, os) /\
    history 1000 65536 16 ([], 0) demo os s /\
    (Forall2 accepted demo os -> exists a, run demo a0 = Some (a, map answer os)).
Proof. exact (driver_follows_planner 65536 1000 demo ltac:(lia) ltac:(lia) ltac:(lia) demo_events_ok). Defined.

(** The hypothesis of [driver_follows_planner_witness] holds. *)
Example demo_answers :
  (let? a := with_defaults 65536 1000 in option_map snd (run demo a)) =
  Some [Some (Some 1000); Some (Some 5096); None; Some None].
Proof. vm_compute. reflexivity. Qed.
End Driver.

(** One live range per address. *)
Lemma refines_unique b n bs bits t s o z m :
  refines b n bs bits t s -> In (o, m) s.1 -> In (o, z) s.1 -> m = z.
Proof.
  intros [_ _ _ _ (l & R & _ & P)] H1 H2. rewrite P in H1, H2.
  apply in_used in H1 as (L1 & R1 & E1 & O1). apply in_used in H2 as (L2 & R2 & E2 & O2).
  pose proof R as R'. rewrite E1 in R. rewrite E2 in R'. apply rep_lookup in R, R'.
  replace (total L2) with (total L1) in R' by lia. rewrite R in R'. congruence.
Qed.

(** ** The interface *)
(** The driver's allocator over [[b, b + n)] with the [live] ranges handed out. *)
Definition driver_ok (b n : Z) (live : list (Z * Z)) (a : Am.TlsfAllocator) : Prop :=
  (0 <= b /\ b + n < 2 ^ 63) /\ exists t peak, a = Driver.view n t /\ refines b n 16 5 t (live, peak).

Lemma driver_new_ok b n :
  0 <= b -> 0 < n -> b + n < 2 ^ 63 -> exists a, Am.with_defaults n b = Some a /\ driver_ok b n [] a.
Proof.
  intros Hb Hn HA. destruct (new_refines n b 16 16 ltac:(lia)) as (t & E & R & _).
  exists (Driver.view n t). split; [apply Driver.new_view; assumption || lia |]. split; [lia |]. now exists t, 0.
Qed.

Lemma driver_alloc_ok b n live a req align :
  driver_ok b n live a -> 16 <= req -> 0 < align -> Z.pow 2 (Z.log2 align) = align -> req + align < 2 ^ 62 ->
  exists r a', Am.alloc req align a = Some (r, a') /\
    match r with
    | Some o => driver_ok b n ((o, req) :: live) a' /\ (o - b) mod align = 0 /\ b <= o /\ o + req <= b + n /\
                Forall (disjoint_from o req) live
    | None => driver_ok b n live a'
    end.
Proof.
  intros [HB (t & peak & -> & R)] Hreq Hal Hpow Hsum.
  pose proof (Z.log2_nonneg align).
  assert (He : Driver.driver_event 16 (Alloc req align)) by (exists (Z.log2 align); rewrite Z.max_l by lia; lia).
  destruct (step_refines b n 16 5 t _ _ (proj1 HB) ltac:(lia) ltac:(lia) R (Driver.driver_event_ok _ _ He))
    as (t' & o & s' & E & C & R').
  pose proof (Driver.step_view b n 16 5 (proj1 HB) ltac:(lia) ltac:(lia) _ _ _ _ _ R He E I) as V.
  cbn [Driver.step] in V. destruct (Am.alloc req align (Driver.view n t)) as [[r a'] |]; [| discriminate].
  injection V as -> Er.
  inversion C as [? ? ? ? o' n' Hmod Hlo Hhi HF | | |]; subst; cbn in Er; injection Er as ->.
  - exists (Some o'), (Driver.view n t'). split; [reflexivity |].
    assert (n' = req) as -> by (unfold n'; lia). rewrite Z.max_l in Hmod by lia.
    split; [split; [exact HB |]; eauto | auto].
  - exists None, (Driver.view n t'). split; [reflexivity |]. split; [exact HB |]. eauto.
Qed.

Lemma driver_free_ok b n live live' a o z :
  driver_ok b n live a -> Permutation live ((o, z) :: live') ->
  exists a', Am.free o a = Some a' /\ driver_ok b n live' a'.
Proof.
  intros [HB (t & peak & -> & R)] P.
  assert (Hin : In (o, z) live) by (rewrite P; now left).
  assert (Ho : 0 <= o).
  { destruct R as [_ _ _ _ (l & R & _ & P')]. cbn in P'. rewrite P' in Hin. apply in_used in Hin as (L & R0 & -> & ->).
    pose proof (rep_pos _ _ _ R) as Q. clear - HB Q. arena. lia. }
  destruct (step_refines b n 16 5 t _ (Free o) (proj1 HB) ltac:(lia) ltac:(lia) R Ho) as (t' & r & s' & E & C & R').
  inversion C as [| | ? live'' ? ? m P'' | ? ? ? ? _ Hno]; subst; [| now destruct (Hno z)].
  pose proof (Driver.step_view b n 16 5 (proj1 HB) ltac:(lia) ltac:(lia) _ _ (Free o) _ _ R Ho E I) as V.
  cbn [Driver.step] in V. destruct (Am.free o (Driver.view n t)) as [a' |]; [| discriminate]. injection V as ->.
  exists (Driver.view n t'). split; [reflexivity |]. split; [exact HB |]. exists t', peak. split; [reflexivity |].
  eapply refines_perm; [| exact R']. rewrite P'' in P.
  assert (m = z) as -> by (apply (refines_unique _ _ _ _ _ _ o _ _ R); cbn; [rewrite P''; now left | exact Hin]).
  now apply Permutation_cons_inv in P.
Qed.

Lemma driver_perm b n live live' a : driver_ok b n live a -> Permutation live live' -> driver_ok b n live' a.
Proof. intros [HB (t & peak & -> & R)] P. split; [exact HB |]. exists t, peak. split; [reflexivity |]. eapply refines_perm; eassumption. Qed.

Lemma driver_bounds b n live b' n' live' a : driver_ok b n live a -> driver_ok b' n' live' a -> b = b' /\ n = n'.
Proof.
  intros [_ (t & pk & -> & R)] [_ (t' & pk' & E & R')].
  split; [exact (eq_trans (eq_sym (rf_base _ _ _ _ _ _ R)) (eq_trans (f_equal Am.base E) (rf_base _ _ _ _ _ _ R'))) | exact (f_equal Am.size E)].
Qed.

Lemma used_disjoint o l : sizes_pos l -> disjoint_all (used o l).
Proof.
  intros H. revert o. induction H as [| [z f] l Hz Hl IH]; intros o; [exact I |]. cbn [used]. apply disjoint_all_app.
  split; [destruct f; cbn; auto |]. split; [apply IH |]. intros x [s z'] Hx Hy.
  apply (used_bounds _ _ _ _ Hl) in Hy. destruct f; [destruct Hx | destruct Hx as [<- | []]]. left. cbn. lia.
Qed.

Lemma driver_live b n live a :
  driver_ok b n live a -> disjoint_all live /\ Forall (fun x => b <= x.1 /\ x.1 + x.2 <= b + n) live.
Proof.
  intros [_ (t & pk & -> & [_ _ _ _ (l & R & _ & P)])]. cbn in P. rewrite P. pose proof (rep_pos _ _ _ R) as Q.
  split; [now apply used_disjoint |]. rewrite Forall_forall. intros [o z] Hin%list_elem_of_In.
  apply (used_bounds _ _ _ _ Q) in Hin. rewrite (rep_total _ _ _ R) in Hin. exact Hin.
Qed.

Lemma driver_new_empty b : exists a, Am.with_defaults 0 b = Some a.
Proof. eexists. reflexivity. Qed.

Lemma used_all_free b l : used b l = [] -> all_free l.
Proof.
  revert b. induction l as [| [z []] l IH]; intros b; cbn [used app]; [constructor | | discriminate].
  intros E. constructor; [reflexivity | exact (IH _ E)].
Qed.

Lemma driver_fits b n a req align :
  driver_ok b n [] a -> 16 <= req -> 0 < align -> Z.pow 2 (Z.log2 align) = align -> req + align < 2 ^ 62 ->
  2 * (req + align) <= n -> exists o a', Am.alloc req align a = Some (Some o, a').
Proof.
  intros [HB (t & peak & -> & [E1 E2 E3 _ (l & R & C & P)])] Hreq Hal Hpow Hsum Hn. cbn in P.
  apply Permutation_nil, used_all_free in P. pose proof (rep_total _ _ _ R) as HT.
  destruct (coalesced_all_free l C P) as [-> | [z ->]]; [rewrite total_nil in HT; lia |].
  rewrite total_cons, total_nil, Z.add_0_r in HT. subst z. pose proof (Z.log2_nonneg align).
  destruct (Driver.alloc_view n n ltac:(lia) t _ req (Z.log2 align) ltac:(lia) ltac:(lia) ltac:(lia) R ltac:(lia) ltac:(lia))
    as (t' & r & Et & Ea). rewrite Hpow in Et, Ea. rewrite Ea. destruct r as [o | e]; [eauto | exfalso].
  destruct (alloc_rep n t _ req align ltac:(lia) ltac:(lia) ltac:(lia) R C) as [(t2 & L & z & R0 & _ & _ & Ea2 & _) | [_ Hfit]].
  - unfold request_ok. lia.
  - congruence.
  - specialize (Hfit 0 n ltac:(now left)). rewrite E2, E3, Z.max_l, Z.max_l in Hfit by lia.
    pose proof (Driver.slack_le 5 (req + align - 1) ltac:(lia) ltac:(lia)). lia.
Qed.

#[export] Instance driver_ranges : RangeAllocator Am.TlsfAllocator := {
  ra_alloc := Am.alloc; ra_free := Am.free; ra_new := Am.with_defaults; ra_ok := driver_ok; ra_perm := driver_perm;
  ra_bounds := driver_bounds; ra_live := driver_live;
  ra_new_empty := driver_new_empty; ra_fits := driver_fits;
  ra_new_ok := driver_new_ok; ra_alloc_ok := driver_alloc_ok; ra_free_ok := driver_free_ok
}.
