(* ===== verification/Gmmu.v ===== *)
(** * The GPU memory manager ([device/src/amd/am/mm/manager.rs], [mm/mod.rs])

    Four-level page tables in video memory, edited through a walk that keeps
    a stack of frames: ranges are mapped with the largest pages that fit and
    are aligned, and unmapping gives emptied tables back.  The allocators are
    any [RangeAllocator].  A panic is a value of [Panic]. *)

From stdpp Require Import gmap.
From S2P Require Import Prelude.
From S2P Require Import Tlsf.
From S2P Require Import PageTable.
From S2P Require Import AmTlsf.

(** [Fault]: overflow, index or bounds check, failed [debug_assert], [unwrap]. *)
Inductive Panic := NoTablePage | NoProgress | NotAllowed | AlreadyMapped | NotMapped | SizeMismatch | Fault | OutOfFuel.

Definition orf {A} (o : option A) : A + Panic := match o with Some a => inl a | None => inr Fault end.

(** ** Physical memory: 64-bit cells, zero until written *)
Module VramPhys.
Record t := mk { len : Z; cells : gmap Z Z }.

Definition read_u64 (m : t) (paddr : Z) : Z + Panic :=
  if paddr + 8 <=? len m then inl (default 0 (cells m !! paddr)) else inr Fault.
Definition write_u64 (m : t) (paddr val : Z) : t + Panic :=
  if paddr + 8 <=? len m then inl (mk (len m) (<[paddr := val]> (cells m))) else inr Fault.
Definition zero (m : t) (paddr size : Z) : t + Panic :=
  if paddr + size <=? len m
  then inl (mk (len m) (filter (fun c => ~ (paddr <= c.1 < paddr + size)) (cells m)))
  else inr Fault.
End VramPhys.
Abbreviation VramPhys := VramPhys.t.

Inductive AddrSpace := Phys | Sys.

Record VirtMapping := mkMapping {
  va_addr : Z; vm_size : Z; paddrs : list (Z * Z); aspace : AddrSpace; vm_uncached : bool; vm_snooped : bool
}.

(** ** The walk *)
Record Frame := mkFrame { f_paddr : Z; f_lv : nat; pte_idx : Z; f_covers : Z }.

Inductive WalkMode := Inspect | Create | Free.
Definition is_create (m : WalkMode) : bool := match m with Create => true | _ => false end.
Definition is_free (m : WalkMode) : bool := match m with Free => true | _ => false end.

(** The stack has its top first. *)
Record Walk := mkWalk {
  vaddr : Z; mode : WalkMode; stack : list Frame; w_size : Z; w_off : Z; pending : option (Z * Z)
}.

Record Step := mkStep {
  s_off : Z; pt_paddr : Z; s_lv : nat; s_idx : Z; entries : Z; s_covers : Z; vaddr_at_yield : Z
}.

(** [for o in o..o+n]. *)
Fixpoint for_range {S} (n : nat) (o : Z) (f : Z -> S -> S + Panic) (s : S) : S + Panic :=
  match n with
  | O => inl s
  | Datatypes.S n => let! s := f o s in for_range n (o + 1) f s
  end.

(** [x.div_ceil(m) * m]. *)
Definition round_up (x m : Z) : option Z := if m =? 0 then None else try_u64 ((x + m - 1) / m * m).

Definition gfx11_palloc_ranges : list (Z * Z) :=
  map (fun i => (Z.shiftl 1 (Z.of_nat i + 12), if (9 <=? i)%nat then Z.shiftl 2 20 else 0x1000)) (rev (seq 0 28)).

Section Manager.
Context {A : Type} `{RangeAllocator A}.

Record MemoryManager := mkManager {
  phys : VramPhys; ip_ver : IpVer; geom : Geometry; va_base : Z; first_lv : nat;
  va_alloc : A; pa_alloc : A; ptable_alloc : A;
  reserve_ptable : bool; root_pt : Z; palloc_ranges : list (Z * Z); mc_base : Z
}.

Definition with_phys (p : VramPhys) (m : MemoryManager) : MemoryManager :=
  mkManager p (ip_ver m) (geom m) (va_base m) (first_lv m) (va_alloc m) (pa_alloc m) (ptable_alloc m)
    (reserve_ptable m) (root_pt m) (palloc_ranges m) (mc_base m).
Definition with_va (a : A) (m : MemoryManager) : MemoryManager :=
  mkManager (phys m) (ip_ver m) (geom m) (va_base m) (first_lv m) a (pa_alloc m) (ptable_alloc m)
    (reserve_ptable m) (root_pt m) (palloc_ranges m) (mc_base m).
Definition with_root (r : Z) (m : MemoryManager) : MemoryManager :=
  mkManager (phys m) (ip_ver m) (geom m) (va_base m) (first_lv m) (va_alloc m) (pa_alloc m) (ptable_alloc m)
    (reserve_ptable m) r (palloc_ranges m) (mc_base m).
Definition set_mc_base (b : Z) (m : MemoryManager) : MemoryManager :=
  mkManager (phys m) (ip_ver m) (geom m) (va_base m) (first_lv m) (va_alloc m) (pa_alloc m) (ptable_alloc m)
    (reserve_ptable m) (root_pt m) (palloc_ranges m) b.

(** [if self.reserve_ptable && ptable { &mut self.ptable_alloc } else { &mut self.pa_alloc }]. *)
Definition pool (ptable : bool) (m : MemoryManager) : A :=
  if reserve_ptable m && ptable then ptable_alloc m else pa_alloc m.
Definition with_pool (ptable : bool) (a : A) (m : MemoryManager) : MemoryManager :=
  let own := (reserve_ptable m && ptable)%bool in
  mkManager (phys m) (ip_ver m) (geom m) (va_base m) (first_lv m) (va_alloc m)
    (if own then pa_alloc m else a) (if own then a else ptable_alloc m)
    (reserve_ptable m) (root_pt m) (palloc_ranges m) (mc_base m).

Definition palloc (size align : Z) (zero ptable : bool) (m : MemoryManager) : (option Z * MemoryManager) + Panic :=
  let! size := orf (round_up size 0x1000) in
  let! (paddr, a) := orf (ra_alloc size align (pool ptable m)) in
  let m := with_pool ptable a m in
  match paddr with
  | None => inl (None, m)
  | Some paddr =>
      if zero then let! p := VramPhys.zero (phys m) paddr size in inl (Some paddr, with_phys p m)
      else inl (Some paddr, m)
  end.

Definition pfree (paddr : Z) (ptable : bool) (m : MemoryManager) : MemoryManager + Panic :=
  let! a := orf (ra_free paddr (pool ptable m)) in inl (with_pool ptable a m).

Definition pte_covers (lv : nat) (m : MemoryManager) : Z + Panic := orf (Geometry.pte_covers (geom m) !! lv).
Definition pte_cnt (lv : nat) (m : MemoryManager) : Z + Panic := orf (Geometry.pte_cnt (geom m) !! lv).

Definition entry (table_paddr idx : Z) (m : MemoryManager) : Z + Panic :=
  VramPhys.read_u64 (phys m) (table_paddr + idx * 8).
Definition pt_valid (table_paddr idx : Z) (m : MemoryManager) : bool + Panic :=
  let! e := entry table_paddr idx m in inl (entry_valid e).
Definition pt_child (table_paddr idx : Z) (m : MemoryManager) : Z + Panic :=
  let! e := entry table_paddr idx m in orf (try_u64 (entry_paddr e - mc_base m)).
Definition pt_is_page (lv : nat) (table_paddr idx : Z) (m : MemoryManager) : bool + Panic :=
  if (lv =? Geometry.level_cnt (geom m) - 1)%nat then inl true
  else let! e := entry table_paddr idx m in orf (is_pte_huge_page (ip_ver m) lv e).

Definition set_entry (lv : nat) (table_paddr idx paddr : Z) (is_table uncached system snooped : bool) (frag : Z)
    (valid : bool) (m : MemoryManager) : MemoryManager + Panic :=
  let! stored := if system then inl paddr else orf (try_u64 (paddr + mc_base m)) in
  let! word := orf (encode_entry (ip_ver m) lv stored is_table uncached system snooped frag valid) in
  let! p := VramPhys.write_u64 (phys m) (table_paddr + idx * 8) word in
  inl (with_phys p m).

Definition new_walk (vaddr : Z) (mode : WalkMode) (m : MemoryManager) : Walk + Panic :=
  let! rebased := orf (try_u64 (vaddr - va_base m)) in
  let lv := first_lv m in
  let! idx := orf (Geometry.pte_idx (geom m) lv rebased) in
  let! covers := pte_covers lv m in
  inl (mkWalk rebased mode [mkFrame (root_pt m) lv idx covers] 0 0 None).

Definition level_down (w : Walk) (m : MemoryManager) : (Walk * MemoryManager) + Panic :=
  match stack w with
  | [] => inr Fault
  | top :: _ =>
      let! v := pt_valid (f_paddr top) (pte_idx top) m in
      let! m :=
        if v then inl m
        else if negb (is_create (mode w)) then inr NotAllowed
        else
          let! (child, m) := palloc 0x1000 0x1000 true true m in
          match child with
          | None => inr NoTablePage
          | Some child => set_entry (f_lv top) (f_paddr top) (pte_idx top) child true false false false 0 true m
          end in
      let! page := pt_is_page (f_lv top) (f_paddr top) (pte_idx top) m in
      if page then inr Fault
      else
        let! child_paddr := pt_child (f_paddr top) (pte_idx top) m in
        let child_lv := Datatypes.S (f_lv top) in
        let! idx := orf (Geometry.pte_idx (geom m) child_lv (vaddr w)) in
        let! covers := pte_covers child_lv m in
        inl (mkWalk (vaddr w) (mode w) (mkFrame child_paddr child_lv idx covers :: stack w) (w_size w) (w_off w) (pending w), m)
  end.

(** [(i..i+n).all(|i| !self.pt_valid(paddr, i))]. *)
Fixpoint none_valid (n : nat) (i paddr : Z) (m : MemoryManager) : bool + Panic :=
  match n with
  | O => inl true
  | Datatypes.S n => let! v := pt_valid paddr i m in if v then inl false else none_valid n (i + 1) paddr m
  end.

(** The top frame and the frames below it. *)
Definition try_free_pt (md : WalkMode) (top : Frame) (rest : list Frame) (m : MemoryManager) :
    (bool * MemoryManager) + Panic :=
  if negb (is_free md) || (f_paddr top =? root_pt m) then inl (false, m)
  else
    let! cnt := pte_cnt (f_lv top) m in
    let! empty := none_valid (Z.to_nat cnt) 0 (f_paddr top) m in
    if empty then
      let! m := pfree (f_paddr top) true m in
      match rest with
      | [] => inr Fault
      | parent :: _ =>
          let! m := set_entry (f_lv parent) (f_paddr parent) (pte_idx parent) 0 false false false false 0 false m in
          inl (true, m)
      end
    else inl (false, m).

Definition bump (n : Z) (f : Frame) : Frame := mkFrame (f_paddr f) (f_lv f) (pte_idx f + n) (f_covers f).

Fixpoint level_up (md : WalkMode) (top : Frame) (rest : list Frame) (m : MemoryManager) : (list Frame * MemoryManager) + Panic :=
  let! (freed, m) := try_free_pt md top rest m in
  let! cnt := pte_cnt (f_lv top) m in
  let at_end := pte_idx top =? cnt in
  if negb (freed || at_end) then inl (top :: rest, m)
  else
    match rest with
    | [] => inl ([], m)
    | parent :: rest => level_up md (if at_end then bump 1 parent else parent) rest m
    end.

(** The pending advance of the last yield. *)
Definition advance (w : Walk) (m : MemoryManager) : (Walk * MemoryManager) + Panic :=
  match pending w with
  | None => inl (w, m)
  | Some (n, covers) =>
      let adv := n * covers in
      let! off := orf (try_u64 (w_off w + adv)) in
      let! va := orf (try_u64 (vaddr w + adv)) in
      match stack w with
      | [] => inr Fault
      | top :: rest =>
          let! (st, m) := level_up (mode w) (bump n top) rest m in
          inl (mkWalk va (mode w) st (Z.max 0 (w_size w - adv)) off None, m)
      end
  end.

Definition descends (w : Walk) (top : Frame) (m : MemoryManager) : bool + Panic :=
  match mode w with
  | Create => inl ((w_size w <? f_covers top) || negb (Z.land (vaddr w) (f_covers top - 1) =? 0))
  | Inspect =>
      let! page := pt_is_page (f_lv top) (f_paddr top) (pte_idx top) m in
      if page then inl false else pt_valid (f_paddr top) (pte_idx top) m
  | Free => let! page := pt_is_page (f_lv top) (f_paddr top) (pte_idx top) m in inl (negb page)
  end.

Fixpoint descend (fuel : nat) (w : Walk) (m : MemoryManager) : (Walk * MemoryManager) + Panic :=
  match stack w with
  | [] => inr Fault
  | top :: _ =>
      let! d := descends w top m in
      if d then
        match fuel with
        | O => inr OutOfFuel
        | Datatypes.S fuel => let! (w, m) := level_down w m in descend fuel w m
        end
      else inl (w, m)
  end.

Definition walk_next (w : Walk) (m : MemoryManager) : (option Step * Walk * MemoryManager) + Panic :=
  let! (w, m) := advance w m in
  if w_size w =? 0 then inl (None, w, m)
  else
    let! (w, m) := descend (Geometry.level_cnt (geom m)) w m in
    match stack w with
    | [] => inr Fault
    | top :: _ =>
        let! cnt := pte_cnt (f_lv top) m in
        let! avail := orf (try_u64 (cnt - pte_idx top)) in
        let floor := match mode w with Inspect => 1 | _ => 0 end in
        let n := Z.max (Z.min (w_size w / f_covers top) avail) floor in
        if n <=? 0 then inr NoProgress
        else
          inl (Some (mkStep (w_off w) (f_paddr top) (f_lv top) (pte_idx top) n (f_covers top) (vaddr w)),
               mkWalk (vaddr w) (mode w) (stack w) (w_size w) (w_off w) (Some (n, f_covers top)), m)
    end.

(** [while let Some(s) = self.walk_next(&mut w) { body }]. *)
Fixpoint walk_all (fuel : nat) (body : Step -> MemoryManager -> MemoryManager + Panic) (w : Walk) (m : MemoryManager) :
    (Walk * MemoryManager) + Panic :=
  match fuel with
  | O => inr OutOfFuel
  | Datatypes.S fuel =>
      let! (s, w, m) := walk_next w m in
      match s with
      | None => inl (w, m)
      | Some s => let! m := body s m in walk_all fuel body w m
      end
  end.

(** Every step but the last advances by a page at least. *)
Definition walk_fuel (size : Z) : nat := Z.to_nat (size / 4096 + 2).
Definition over (size off : Z) (w : Walk) : Walk := mkWalk (vaddr w) (mode w) (stack w) size off (pending w).

Definition check_free (s : Step) (m : MemoryManager) : MemoryManager + Panic :=
  for_range (Z.to_nat (entries s)) 0
    (fun o m => let! v := pt_valid (pt_paddr s) (s_idx s + o) m in if v then inr AlreadyMapped else inl m) m.

Definition write_leaves (paddr : Z) (uncached system snooped : bool) (s : Step) (m : MemoryManager) : MemoryManager + Panic :=
  let! at_ := orf (try_u64 (vaddr_at_yield s + s_off s)) in
  let frag := frag_size at_ (entries s * s_covers s) in
  for_range (Z.to_nat (entries s)) 0
    (fun o m =>
       let! p := orf (try_u64 (paddr + s_off s + o * s_covers s)) in
       set_entry (s_lv s) (pt_paddr s) (s_idx s + o) p false uncached system snooped frag true m) m.

Fixpoint write_segments (segs : list (Z * Z)) (uncached system snooped : bool) (w : Walk) (m : MemoryManager) :
    (Walk * MemoryManager) + Panic :=
  match segs with
  | [] => inl (w, m)
  | (paddr, psize) :: segs =>
      let! (w, m) := walk_all (walk_fuel psize) (write_leaves paddr uncached system snooped) (over psize 0 w) m in
      write_segments segs uncached system snooped w m
  end.

Definition sum_sizes (segs : list (Z * Z)) : Z := fold_right (fun s a => s.2 + a) 0 segs.

Definition map_range (vaddr size : Z) (segs : list (Z * Z)) (aspace : AddrSpace) (uncached snooped : bool)
    (m : MemoryManager) : (VirtMapping * MemoryManager) + Panic :=
  let! total := orf (try_u64 (sum_sizes segs)) in
  if negb (size =? total) then inr SizeMismatch
  else
    let! w := new_walk vaddr Inspect m in
    let! (_, m) := walk_all (walk_fuel size) check_free (over size 0 w) m in
    let system := match aspace with Sys => true | Phys => false end in
    let! w := new_walk vaddr Create m in
    let! (_, m) := write_segments segs uncached system snooped w m in
    inl (mkMapping vaddr size segs aspace uncached snooped, m).

Definition clear_leaves (s : Step) (m : MemoryManager) : MemoryManager + Panic :=
  for_range (Z.to_nat (entries s)) 0
    (fun o m =>
       let idx := s_idx s + o in
       let! v := pt_valid (pt_paddr s) idx m in
       if v then set_entry (s_lv s) (pt_paddr s) idx 0 false false false false 0 false m else inr NotMapped) m.

Definition unmap_range (vaddr size : Z) (m : MemoryManager) : MemoryManager + Panic :=
  let! w := new_walk vaddr Free m in
  let! (_, m) := walk_all (walk_fuel size) clear_leaves (over size 0 w) m in
  inl m.
(** ** Construction *)
Definition new (phys : VramPhys) (ip_ver : IpVer) (geom : Geometry) (vram_size va_base va_size : Z)
    (reserve_ptable : bool) (palloc_ranges : list (Z * Z)) : MemoryManager + Panic :=
  let! ptable_size := if reserve_ptable then orf (round_up (vram_size / 512) (Z.shiftl 1 20)) else inl 0 in
  let! ptable_alloc := orf (ra_new ptable_size 0) in
  let! pa_size := orf (try_u64 (vram_size - ptable_size)) in
  let! pa_alloc := orf (ra_new pa_size ptable_size) in
  let! va_alloc := orf (ra_new va_size va_base) in
  let m := mkManager phys ip_ver geom va_base VM_PDB2 va_alloc pa_alloc ptable_alloc reserve_ptable 0 palloc_ranges 0 in
  let! (root, m) := palloc 0x1000 0x1000 true true m in
  match root with Some root => inl (with_root root m) | None => inr NoTablePage end.

(** ** Allocation of mapped memory *)

(** [while self.palloc_ranges[nxt].0 > rem { nxt += 1 }], from the ranges left. *)
Fixpoint skip_large (ranges : list (Z * Z)) (nxt : nat) (rem : Z) : nat + Panic :=
  match ranges with
  | [] => inr Fault
  | (sz, _) :: ranges => if rem <? sz then skip_large ranges (Datatypes.S nxt) rem else inl nxt
  end.

Fixpoint pfree_all (segs : list (Z * Z)) (m : MemoryManager) : MemoryManager + Panic :=
  match segs with
  | [] => inl m
  | (p, _) :: segs => let! m := pfree p false m in pfree_all segs m
  end.

Definition free_va (va : Z) (m : MemoryManager) : MemoryManager + Panic :=
  let! a := orf (ra_free va (va_alloc m)) in inl (with_va a m).

Fixpoint grab (fuel : nat) (rem : Z) (nxt : nat) (segs : list (Z * Z)) (va : Z) (m : MemoryManager) :
    (option (list (Z * Z)) * MemoryManager) + Panic :=
  if rem <=? 0 then inl (Some segs, m)
  else
    match fuel with
    | O => inr OutOfFuel
    | Datatypes.S fuel =>
        let! nxt := skip_large (drop nxt (palloc_ranges m)) nxt rem in
        let! (try_sz, al) := orf (palloc_ranges m !! nxt) in
        let! (p, m) := palloc try_sz al false false m in
        match p with
        | Some p => grab fuel (rem - try_sz) nxt (segs ++ [(p, try_sz)]) va m
        | None =>
            if (Datatypes.S nxt =? List.length (palloc_ranges m))%nat then
              let! m := pfree_all segs m in
              let! m := free_va va m in inl (None, m)
            else grab fuel rem (Datatypes.S nxt) segs va m
        end
    end.

(** Each round takes a page at least or moves to the next range. *)
Definition grab_fuel (size : Z) (ranges : list (Z * Z)) : nat := (Z.to_nat (size / 4096) + List.length ranges + 1)%nat.

Definition valloc (size align : Z) (uncached contiguous : bool) (m : MemoryManager) :
    (option VirtMapping * MemoryManager) + Panic :=
  let! size := orf (round_up (Z.max size 1) 0x1000) in
  let va_align := Z.max (Z.shiftl 1 (bit_length size - 1)) (Z.max align 1) in
  let! (va, a) := orf (ra_alloc size va_align (va_alloc m)) in
  let m := with_va a m in
  match va with
  | None => inl (None, m)
  | Some va =>
      let! (segs, m) :=
        if contiguous then
          let! (p, m) := palloc size 0x1000 true false m in inl (match p with Some p => Some [(p, size)] | None => None end, m)
        else grab (grab_fuel size (palloc_ranges m)) size 0 [] va m in
      match segs with
      | None => inl (None, m)
      | Some segs => let! (vm, m) := map_range va size segs Phys uncached false m in inl (Some vm, m)
      end
  end.

Definition vfree (vm : VirtMapping) (m : MemoryManager) : MemoryManager + Panic :=
  let! m := unmap_range (va_addr vm) (vm_size vm) m in
  let! m := free_va (va_addr vm) m in
  pfree_all (paddrs vm) m.

(** ** Translation *)
Fixpoint resolve_from (fuel : nat) (lv : nat) (paddr va : Z) (m : MemoryManager) : option Z + Panic :=
  match fuel with
  | O => inr OutOfFuel
  | Datatypes.S fuel =>
      let! idx := orf (Geometry.pte_idx (geom m) lv va) in
      let! v := pt_valid paddr idx m in
      if negb v then inl None
      else
        let! page := pt_is_page lv paddr idx m in
        let! child := pt_child paddr idx m in
        if page then
          let! covers := pte_covers lv m in
          let! p := orf (try_u64 (child + Z.land va (covers - 1))) in inl (Some p)
        else resolve_from fuel (Datatypes.S lv) child va m
  end.

Definition resolve (vaddr : Z) (m : MemoryManager) : option Z + Panic :=
  let! va := orf (try_u64 (vaddr - va_base m)) in
  resolve_from (Geometry.level_cnt (geom m)) (first_lv m) (root_pt m) va m.
End Manager.
