(* ===== verification/GmmuTree.v ===== *)
(** * Page tables as a tree

    The invariant behind the memory manager's tables: a ghost map from the
    table number of each level to the physical page that holds it.  Table
    [n] of level [l + 1] hangs off slot [n] of level [l], where slots are
    numbered across all the tables of a level: slot [v / covers l] of level
    [l] translates the address [v]. *)

From stdpp Require Import gmap.
From S2P Require Import Prelude.
From S2P Require Import PageTable.
From S2P Require Import Gmmu.

(** Bytes an entry of each level covers (gfx11: 512 GiB, 1 GiB, 2 MiB, 4 KiB). *)
Definition covers (l : nat) : Z := 2 ^ (39 - 9 * Z.of_nat l).

Lemma covers_pos l : (l <= 3)%nat -> 4096 <= covers l.
Proof. intros H. unfold covers. change 4096 with (2 ^ 12). apply Z.pow_le_mono_r; lia. Qed.

Lemma covers_S l : (l < 3)%nat -> covers l = covers (S l) * 512.
Proof. intros H. unfold covers. change 512 with (2 ^ 9). rewrite <- Z.pow_add_r by lia. f_equal. lia. Qed.

Lemma covers_page l : (l <= 3)%nat -> (4096 | covers l).
Proof. intros H. unfold covers. change 4096 with (2 ^ 12). exists (2 ^ (27 - 9 * Z.of_nat l)). rewrite <- Z.pow_add_r by lia. f_equal. lia. Qed.

(** The slot of an address at a level, from its slot one level down. *)
Lemma slot_up v l : (l < 3)%nat -> v / covers (S l) / 512 = v / covers l.
Proof. intros H. pose proof (covers_pos (S l) ltac:(lia)). rewrite Z.div_div by lia. now rewrite (covers_S l H). Qed.

Lemma slot_start s l : (l <= 3)%nat -> s * covers l / covers l = s.
Proof. intros H. pose proof (covers_pos l H). apply Z.div_mul. lia. Qed.

Abbreviation tables := (gmap (nat * Z) Z).

(** ** Words of memory *)
Definition word (ph : VramPhys) (a : Z) : Z := default 0 (VramPhys.cells ph !! a).
Definition wr (a v : Z) (ph : VramPhys) : VramPhys := VramPhys.mk (VramPhys.len ph) (<[a := v]> (VramPhys.cells ph)).
Definition zeroed (a n : Z) (ph : VramPhys) : VramPhys :=
  VramPhys.mk (VramPhys.len ph) (filter (fun c => ~ (a <= c.1 < a + n)) (VramPhys.cells ph)).

Lemma word_wr a v ph b : word (wr a v ph) b = if a =? b then v else word ph b.
Proof.
  unfold word, wr. cbn. destruct (Z.eqb_spec a b) as [-> | N]; [now rewrite lookup_insert_eq | now rewrite lookup_insert_ne].
Qed.

Lemma word_zeroed a n ph b : word (zeroed a n ph) b = if (a <=? b) && (b <? a + n) then 0 else word ph b.
Proof.
  unfold word, zeroed. cbn. destruct (Z.leb_spec a b), (Z.ltb_spec b (a + n)); cbn [andb];
    [rewrite map_lookup_filter_None_2; [reflexivity | right; intros y _ N; apply N; cbn; lia] | ..];
    (destruct (VramPhys.cells ph !! b) as [y |] eqn:Ey;
     [rewrite (map_lookup_filter_Some_2 _ _ _ y Ey); [reflexivity | cbn; lia] |
      rewrite map_lookup_filter_None_2 by (now left); reflexivity]).
Qed.

(** The address of a slot in its table. *)
Definition slot_addr (p s : Z) : Z := p + s mod 512 * 8.

(** A page of the [len] bytes of memory. *)
Definition page (len p : Z) : Prop := 0 <= p /\ (4096 | p) /\ p + 4096 <= len.

Lemma slot_addr_range p s : p <= slot_addr p s /\ slot_addr p s + 8 <= p + 4096.
Proof. unfold slot_addr. pose proof (Z.mod_pos_bound s 512). lia. Qed.

Lemma slot_addr_inj len p q s s' :
  page len p -> page len q -> slot_addr p s = slot_addr q s' -> p = q /\ s mod 512 = s' mod 512.
Proof.
  intros (_ & [a ->] & _) (_ & [b ->] & _). unfold slot_addr. pose proof (Z.mod_pos_bound s 512). pose proof (Z.mod_pos_bound s' 512).
  lia.
Qed.

Section Tree.
Context (ip : IpVer) (mc len root : Z) (Hip : ip.1.1 < 12).

Definition is_table (l : nat) (e : Z) : Prop :=
  entry_valid e = true /\ (l < 3)%nat /\ is_pte_huge_page ip l e = Some false.
Definition is_leaf (l : nat) (e : Z) : Prop :=
  entry_valid e = true /\ (l = 3%nat \/ is_pte_huge_page ip l e = Some true).

Definition slot (T : tables) (ph : VramPhys) (l : nat) (s : Z) : option Z :=
  let? p := T !! (l, s / 512) in Some (word ph (slot_addr p s)).

(** The tree of tables.  [x] is the one table below the root that may be empty. *)
Record tree (x : option (nat * Z)) (T : tables) (ph : VramPhys) : Prop := {
  t_len : VramPhys.len ph = len;
  t_root : T !! (0%nat, 0) = Some root;
  t_key l n p : T !! (l, n) = Some p -> (l <= 3)%nat /\ 0 <= n < 512 ^ Z.of_nat l /\ page len p;
  t_inj k k' p : T !! k = Some p -> T !! k' = Some p -> k = k';
  t_table l s e : slot T ph l s = Some e -> is_table l e -> T !! (S l, s) = Some (entry_paddr e - mc);
  t_parent l s p : T !! (S l, s) = Some p -> exists e, slot T ph l s = Some e /\ is_table l e;
  t_used l s p : T !! (S l, s) = Some p -> x <> Some (S l, s) ->
    exists i, 0 <= i < 512 /\ entry_valid (word ph (slot_addr p i)) = true
}.

(** The leaf that translates [v], at level [l]. *)
Definition view (T : tables) (ph : VramPhys) (v : Z) (l : nat) (e : Z) : Prop :=
  (l <= 3)%nat /\ slot T ph l (v / covers l) = Some e /\ is_leaf l e.

(** ** Reading the tree *)
Section Facts.
Context (x : option (nat * Z)) (T : tables) (ph : VramPhys) (HT : tree x T ph).

Lemma slot_word l s p : T !! (l, s / 512) = Some p -> slot T ph l s = Some (word ph (slot_addr p s)).
Proof using. intros E. unfold slot. now rewrite E. Qed.

Lemma slot_table l s e : slot T ph l s = Some e -> exists p, T !! (l, s / 512) = Some p /\ e = word ph (slot_addr p s).
Proof using. unfold slot. destruct (T !! _) as [p |]; [intros [= <-]; eauto | discriminate]. Qed.

Lemma not_leaf_table l e : is_leaf l e -> is_table l e -> False.
Proof using. intros [_ [-> | H1]] (_ & H & H2); [lia | congruence]. Qed.

(** A table hangs off slots that are tables. *)
Lemma ancestors v k l p :
  (l <= 3)%nat -> T !! (l, v / covers l / 512) = Some p -> (k < l)%nat ->
  exists e, slot T ph k (v / covers k) = Some e /\ is_table k e.
Proof using HT.
  revert p. induction l as [| l IH]; intros p Hl E Hk; [lia |]. rewrite slot_up in E by lia.
  destruct (t_parent _ _ _ HT _ _ _ E) as (e & Es & Et).
  destruct (decide (k = l)) as [-> | N]; [eauto |].
  destruct (slot_table _ _ _ Es) as (q & Eq & _). apply (IH q); [lia | exact Eq | lia].
Qed.

(** Where a slot is not a table, it settles how the address is translated. *)
Lemma view_here v l p :
  (l <= 3)%nat -> T !! (l, v / covers l / 512) = Some p ->
  (forall e, slot T ph l (v / covers l) = Some e -> ~ is_table l e) ->
  forall k e, view T ph v k e -> k = l.
Proof using HT.
  intros Hl E Hn k e (Hk & Es & Hleaf). destruct (Nat.lt_trichotomy k l) as [L | [-> | L]]; [| reflexivity |].
  - destruct (ancestors v k l p Hl E L) as (e' & Es' & Ht). rewrite Es in Es'. injection Es' as <-.
    destruct (not_leaf_table _ _ Hleaf Ht).
  - destruct (slot_table _ _ _ Es) as (q & Eq & _).
    destruct (ancestors v l k q Hk Eq L) as (e' & Es' & Ht). destruct (Hn _ Es' Ht).
Qed.

Lemma view_unique v k e k' e' : view T ph v k e -> view T ph v k' e' -> k = k' /\ e = e'.
Proof using HT.
  intros V V'. pose proof V as (Hk & Es & Hl). pose proof V' as (Hk' & Es' & Hl').
  destruct (slot_table _ _ _ Es') as (q & Eq & _).
  assert (k = k') as <-.
  { apply (view_here v k' q Hk' Eq) with e; [| exact V]. intros e0 E0 Ht. rewrite Es' in E0. injection E0 as <-.
    exact (not_leaf_table _ _ Hl' Ht). }
  rewrite Es in Es'. now injection Es'.
Qed.

Lemma slot_key l s e : slot T ph l s = Some e -> (l <= 3)%nat /\ 0 <= s < 512 * 512 ^ Z.of_nat l.
Proof using HT.
  intros (p & E & _)%slot_table. destruct (t_key _ _ _ HT _ _ _ E) as (Hl & Hn & _). split; [exact Hl |].
  pose proof (Z.div_mod s 512). pose proof (Z.mod_pos_bound s 512). lia.
Qed.

Lemma entry_kind l e : (l <= 3)%nat -> entry_valid e = true -> is_table l e \/ is_leaf l e.
Proof using Hip.
  intros Hl Hv. destruct (decide (l = 3%nat)) as [-> | N]; [right; split; auto |].
  unfold is_table, is_leaf, is_pte_huge_page, ip_ge. rewrite (proj2 (Z.leb_gt 12 _)) by exact Hip.
  destruct (10 <=? ip.1.1).
  - destruct (negb (Z.land e PDE_PTE =? 0)); [right | left]; split; auto with lia.
  - destruct (if (l =? VM_PDB0)%nat then Z.land e PTE_TF =? 0 else negb (Z.land e PDE_PTE =? 0)); [right | left];
      split; auto with lia.
Qed.

(** Slot [i] of a table. *)
Lemma child_slot l s p i :
  T !! (S l, s) = Some p -> (S l <= 3)%nat -> 0 <= i < 512 ->
  let s' := s * 512 + i in
  s' / 512 = s /\ slot T ph (S l) s' = Some (word ph (slot_addr p i)) /\ s' * covers (S l) / covers l = s.
Proof using.
  intros E Hl Hi s'.
  assert (Ds : s' / 512 = s) by (unfold s'; symmetry; apply (Z.div_unique_pos _ _ _ i); lia).
  assert (Ms : s' mod 512 = i) by (unfold s'; symmetry; apply (Z.mod_unique_pos _ _ s); lia).
  split; [exact Ds |]. split.
  - rewrite (slot_word _ _ p) by now rewrite Ds. unfold slot_addr. now rewrite Ms, (Z.mod_small i) by lia.
  - now rewrite <- slot_up, slot_start by lia.
Qed.

(** A table in use leads to a translated address. *)
Lemma table_has_leaf l s p :
  T !! (S l, s) = Some p -> (forall k n, x = Some (k, n) -> (k <= l)%nat) ->
  exists v k e, v / covers l = s /\ view T ph v k e.
Proof using HT Hip.
  intros E Hx. destruct (t_key _ _ _ HT _ _ _ E) as (Hl & _). remember (2 - l)%nat as d eqn:Ed.
  revert l s p E Hx Hl Ed. induction d as [| d IH]; intros l s p E Hx Hl Ed;
    destruct (t_used _ _ _ HT _ _ _ E) as (i & Hi & Hv); try (intros Ex; specialize (Hx _ _ Ex); lia);
    destruct (child_slot l s p i E Hl Hi) as (Ds & Es & Dv); set (s' := s * 512 + i) in *.
  - exists (s' * covers (S l)), (S l), (word ph (slot_addr p i)). split; [exact Dv |].
    split; [lia |]. rewrite slot_start by lia. split; [exact Es |]. split; [exact Hv | left; lia].
  - destruct (entry_kind (S l) _ Hl Hv) as [Ht | Hleaf].
    + pose proof (t_table _ _ _ HT _ _ _ Es Ht) as E'.
      destruct (IH (S l) s' _ E') as (v & k & e & Hs & V); try lia.
      { intros k n Ex. specialize (Hx _ _ Ex). lia. }
      exists v, k, e. split; [| exact V]. rewrite <- (slot_up v l), Hs by lia. exact Ds.
    + exists (s' * covers (S l)), (S l), (word ph (slot_addr p i)). split; [exact Dv |].
      split; [lia |]. rewrite slot_start by lia. now split.
Qed.
End Facts.

(** ** Writing an entry *)

Lemma slot_wr x T ph l s p e k s' :
  tree x T ph -> T !! (l, s / 512) = Some p ->
  slot T (wr (slot_addr p s) e ph) k s' = if decide ((k, s') = (l, s)) then Some e else slot T ph k s'.
Proof using.
  intros HT E. unfold slot. destruct (decide ((k, s') = (l, s))) as [[= -> ->] | N].
  - rewrite E, word_wr. now rewrite Z.eqb_refl.
  - destruct (T !! (k, s' / 512)) as [q |] eqn:Eq; [| reflexivity]. rewrite word_wr.
    destruct (Z.eqb_spec (slot_addr p s) (slot_addr q s')) as [Ea |]; [exfalso | reflexivity].
    pose proof (t_key _ _ _ HT _ _ _ E) as (_ & _ & Pp). pose proof (t_key _ _ _ HT _ _ _ Eq) as (_ & _ & Pq).
    destruct (slot_addr_inj _ _ _ _ _ Pp Pq Ea) as [<- Em].
    pose proof (t_inj _ _ _ HT _ _ _ E Eq) as [= <- Ed]. apply N. f_equal.
    rewrite (Z.div_mod s 512), (Z.div_mod s' 512) by lia. congruence.
Qed.

(** What a write must respect. *)
Definition may_write (x : option (nat * Z)) (l : nat) (s : Z) : Prop := x = None \/ x = Some (l, s / 512).

Lemma used_after x T ph l s p e k s' q :
  tree x T ph -> T !! (l, s / 512) = Some p -> T !! (S k, s') = Some q ->
  (entry_valid e = true \/ (S k, s') <> (l, s / 512)) ->
  (x <> Some (S k, s') \/ (S k, s') = (l, s / 512)) ->
  exists i, 0 <= i < 512 /\ entry_valid (word (wr (slot_addr p s) e ph) (slot_addr q i)) = true.
Proof using.
  intros HT E Eq He Hx. destruct (decide ((S k, s') = (l, s / 512))) as [Ek | Nk].
  - assert (Hv : entry_valid e = true) by (destruct He; [assumption | contradiction]).
    rewrite Ek, E in Eq. injection Eq as <-. exists (s mod 512). split; [apply Z.mod_pos_bound; lia |].
    rewrite word_wr. unfold slot_addr. now rewrite Z.mod_mod, Z.eqb_refl by lia.
  - destruct Hx as [Hx |]; [| contradiction].
    destruct (t_used _ _ _ HT _ _ _ Eq Hx) as (i & Hi & Hv). exists i. split; [exact Hi |].
    rewrite word_wr. destruct (Z.eqb_spec (slot_addr p s) (slot_addr q i)) as [Ea |]; [exfalso | exact Hv].
    pose proof (t_key _ _ _ HT _ _ _ E) as (_ & _ & Pp). pose proof (t_key _ _ _ HT _ _ _ Eq) as (_ & _ & Pq).
    destruct (slot_addr_inj _ _ _ _ _ Pp Pq Ea) as [<- _]. apply Nk. exact (t_inj _ _ _ HT _ _ _ Eq E).
Qed.

(** A leaf written in a slot that holds no table. *)
Lemma tree_write x T ph l s p e :
  tree x T ph -> T !! (l, s / 512) = Some p -> T !! (S l, s) = None -> is_leaf l e -> may_write x l s ->
  tree None T (wr (slot_addr p s) e ph).
Proof using.
  intros HT E En He Hx. pose proof HT as [H1 H2 H3 H4 H5 H6 _]. split; try assumption.
  - intros k s' e'. rewrite (slot_wr _ _ _ _ _ _ _ _ _ HT E). case_decide as D; [| apply H5].
    injection D as -> ->. intros [= <-] Ht. destruct (not_leaf_table _ _ He Ht).
  - intros k s' q Eq. destruct (H6 _ _ _ Eq) as (e' & Es & Ht). exists e'. split; [| exact Ht].
    rewrite (slot_wr _ _ _ _ _ _ _ _ _ HT E). case_decide as D; [| exact Es]. injection D as -> ->. congruence.
  - intros k s' q Eq _. apply (used_after x T ph l s p e k s' q HT E Eq); [left; apply He |].
    destruct (decide ((S k, s') = (l, s / 512))); [now right | left]. destruct Hx as [-> | ->]; congruence.
Qed.

Lemma view_write x T ph l s p e v k e' :
  tree x T ph -> T !! (l, s / 512) = Some p -> T !! (S l, s) = None -> is_leaf l e -> may_write x l s ->
  view T (wr (slot_addr p s) e ph) v k e' <->
  (if decide (v / covers l = s) then k = l /\ e' = e else view T ph v k e').
Proof using.
  intros HT E En He Hx. pose proof (tree_write _ _ _ _ _ _ _ HT E En He Hx) as HT'.
  pose proof (t_key _ _ _ HT _ _ _ E) as (Hl & _). case_decide as D.
  - subst s. assert (Es : slot T (wr (slot_addr p (v / covers l)) e ph) l (v / covers l) = Some e)
      by (rewrite (slot_wr _ _ _ _ _ _ _ _ _ HT E); now rewrite decide_True).
    assert (V : view T (wr (slot_addr p (v / covers l)) e ph) v l e) by (split; auto).
    split; [| intros [-> ->]; exact V]. intros V'. exact (view_unique _ _ _ HT' _ _ _ _ _ V' V).
  - unfold view. rewrite (slot_wr _ _ _ _ _ _ _ _ _ HT E). rewrite decide_False; [reflexivity |]. congruence.
Qed.

(** ** A new table *)
Definition fresh (c : Z) (T : tables) : Prop := forall k, T !! k <> Some c.

Lemma slot_add x T ph l s p c e k s' :
  tree x T ph -> T !! (l, s / 512) = Some p -> T !! (S l, s) = None -> page len c -> fresh c T ->
  slot (<[(S l, s) := c]> T) (wr (slot_addr p s) e (zeroed c 4096 ph)) k s' =
  if decide ((k, s' / 512) = (S l, s)) then Some 0
  else if decide ((k, s') = (l, s)) then Some e else slot T ph k s'.
Proof using.
  intros HT E En Hc Hf. pose proof (t_key _ _ _ HT _ _ _ E) as (_ & _ & Pp).
  assert (Apart : forall q j j', page len q -> q <> c -> slot_addr c j <> slot_addr q j')
    by (intros q j j' Pq N Ea; destruct (slot_addr_inj _ _ _ _ _ Hc Pq Ea); congruence).
  assert (In_c : forall q j, page len q -> (c <=? slot_addr q j) && (slot_addr q j <? c + 4096) = true -> q = c).
  { intros q j Pq Hz. zb. pose proof (slot_addr_range q j). destruct Pq as (_ & [a ->] & _), Hc as (_ & [b ->] & _). lia. }
  unfold slot. destruct (decide ((k, s' / 512) = (S l, s))) as [[= -> ->] | N].
  - rewrite lookup_insert_eq, word_wr, word_zeroed. pose proof (slot_addr_range c s').
    rewrite (proj2 (Z.eqb_neq _ _)) by (intros Ea; symmetry in Ea; apply (Apart p) in Ea; [easy | exact Pp | exact (fun X => Hf _ (eq_trans E (f_equal Some X)))]).
    now rewrite (proj2 (Z.leb_le _ _)), (proj2 (Z.ltb_lt _ _)) by lia.
  - rewrite lookup_insert_ne by congruence. destruct (T !! (k, s' / 512)) as [q |] eqn:Eq.
    2:{ case_decide as D; [injection D as -> ->; congruence | reflexivity]. }
    pose proof (t_key _ _ _ HT _ _ _ Eq) as (_ & _ & Pq).
    pose proof (slot_wr x T ph l s p e k s' HT E) as W. unfold slot in W. rewrite Eq in W.
    rewrite word_wr, word_zeroed. rewrite word_wr in W.
    destruct ((c <=? slot_addr q s') && (slot_addr q s' <? c + 4096)) eqn:Ez; [| exact W].
    apply In_c in Ez; [subst q; destruct (Hf _ Eq) | exact Pq].
Qed.

Lemma tree_add x T ph l s p c e :
  tree x T ph -> (l < 3)%nat -> T !! (l, s / 512) = Some p -> T !! (S l, s) = None -> page len c -> fresh c T ->
  is_table l e -> entry_paddr e - mc = c -> may_write x l s ->
  tree (Some (S l, s)) (<[(S l, s) := c]> T) (wr (slot_addr p s) e (zeroed c 4096 ph)).
Proof using.
  intros HT Hl E En Hc Hf He Ec Hx. pose proof (fun k s' => slot_add x T ph l s p c e k s' HT E En Hc Hf) as SA.
  pose proof HT as [H1 H2 H3 H4 H5 H6 H7]. pose proof (t_key _ _ _ HT _ _ _ E) as (_ & Hn & _). split; try assumption.
  - now rewrite lookup_insert_ne by discriminate.
  - intros k n q. destruct (decide ((k, n) = (S l, s))) as [[= -> ->] | N].
    + rewrite lookup_insert_eq. intros [= <-]. split; [lia |]. split; [| exact Hc].
      replace (Z.of_nat (S l)) with (Z.of_nat l + 1) by lia. rewrite Z.pow_add_r by lia.
      pose proof (Z.div_mod s 512). pose proof (Z.mod_pos_bound s 512). lia.
    + rewrite lookup_insert_ne by congruence. apply H3.
  - intros k1 k2 q. destruct (decide ((S l, s) = k1)) as [<- | N1], (decide ((S l, s) = k2)) as [<- | N2];
      rewrite ?lookup_insert_eq, ?lookup_insert_ne by assumption; try reflexivity.
    + intros [= <-] Eq. destruct (Hf _ Eq).
    + intros Eq [= <-]. destruct (Hf _ Eq).
    + apply H4.
  - intros k s' e'. rewrite SA. case_decide as D1; [intros [= <-] [Hv _]; discriminate |].
    case_decide as D2.
    + injection D2 as -> ->. intros [= <-] _. now rewrite lookup_insert_eq, Ec.
    + intros Es Ht. rewrite lookup_insert_ne by congruence. exact (H5 _ _ _ Es Ht).
  - intros k s' q Eq. rewrite SA. destruct (decide ((k, s') = (l, s))) as [[= -> ->] | N].
    + exists e. split; [| exact He]. rewrite decide_False; [reflexivity |]. intros [= X _]. lia.
    + rewrite lookup_insert_ne in Eq by congruence. destruct (H6 _ _ _ Eq) as (e' & Es & Ht). exists e'. split; [| exact Ht].
      rewrite decide_False; [exact Es |]. intros X. unfold slot in Es. rewrite X, En in Es. discriminate.
  - intros k s' q Eq Nx. rewrite lookup_insert_ne in Eq by congruence.
    assert (Pq : page len q) by now apply H3 in Eq.
    destruct (used_after x T ph l s p e k s' q HT E Eq) as (i & Hi & Hv); [left; apply He | |].
    { destruct (decide ((S k, s') = (l, s / 512))); [now right | left]. destruct Hx as [-> | ->]; congruence. }
    exists i. split; [exact Hi |]. revert Hv. rewrite !word_wr, word_zeroed.
    destruct (_ =? _); [easy |]. destruct ((c <=? _) && _) eqn:Ez; [| easy]. exfalso. zb.
    pose proof (slot_addr_range q i). destruct Pq as (_ & [a ->] & _), Hc as (_ & [b ->] & _).
    assert (a = b) as -> by lia. exact (Hf _ Eq).
Qed.

(** Linking an empty table translates nothing new. *)
Lemma view_add x T ph l s p c e e0 v k e' :
  tree x T ph -> (l < 3)%nat -> T !! (l, s / 512) = Some p -> T !! (S l, s) = None -> page len c -> fresh c T ->
  is_table l e -> slot T ph l s = Some e0 -> entry_valid e0 = false ->
  view (<[(S l, s) := c]> T) (wr (slot_addr p s) e (zeroed c 4096 ph)) v k e' <-> view T ph v k e'.
Proof using.
  intros HT Hl E En Hc Hf He E0 Hv. unfold view. rewrite (slot_add x T ph l s p c e k _ HT E En Hc Hf).
  case_decide as D1.
  - split; [intros (_ & [= <-] & Hv' & _); discriminate |]. intros (_ & Es & _). unfold slot in Es. rewrite D1, En in Es. discriminate.
  - case_decide as D2; [| reflexivity]. injection D2 as -> D2. rewrite D2, E0. split.
    + intros (_ & [= <-] & Hleaf). destruct (not_leaf_table _ _ Hleaf He).
    + intros (_ & [= <-] & Hv' & _). congruence.
Qed.

(** ** Clearing a slot *)

(** The tables that hang off slot [s] of level [l]. *)
Definition under (l : nat) (s : Z) (key : nat * Z) : Prop :=
  (l < key.1)%nat /\ key.2 / 512 ^ Z.of_nat (key.1 - S l) = s.
#[local] Instance under_dec l s key : Decision (under l s key).
Proof using. unfold under. apply _. Defined.
Definition prune (l : nat) (s : Z) (T : tables) : tables := filter (fun kv => ~ under l s kv.1) T.

Lemma prune_lookup l s T key : prune l s T !! key = if decide (under l s key) then None else T !! key.
Proof using.
  unfold prune. case_decide as D.
  - apply map_lookup_filter_None_2. right. intros y _ N. exact (N D).
  - destruct (T !! key) as [p |] eqn:E; [now apply map_lookup_filter_Some_2 | now apply map_lookup_filter_None_2; left].
Qed.

Lemma under_succ l s k s' : under l s (S k, s') <-> (k = l /\ s' = s) \/ under l s (k, s' / 512).
Proof using.
  unfold under. cbn [fst snd]. destruct (Nat.lt_trichotomy k l) as [L | [-> | L]].
  - split; [lia |]. lia.
  - rewrite Nat.sub_diag, Z.pow_0_r, Z.div_1_r. split; [intros [_ H]; now left | intros [[_ H] | [H _]]; [split; [lia | exact H] | lia]].
  - replace (S k - S l)%nat with (S (k - S l)) by lia. rewrite Nat2Z.inj_succ, Z.pow_succ_r, <- Z.div_div by lia.
    split; [intros [_ H]; right; split; [exact L | exact H] | intros [[H _] | [_ H]]; [lia | split; [lia | exact H]]].
Qed.

(** A table hangs off the slot exactly when its addresses are the slot's. *)
Lemma under_addr l v k : (l < k <= 3)%nat -> v / covers k / 512 / 512 ^ Z.of_nat (k - S l) = v / covers l.
Proof using.
  intros H. rewrite !Z.div_div; try (pose proof (covers_pos k); lia).
  f_equal. unfold covers. change 512 with (2 ^ 9) at 1 2. rewrite <- Z.pow_mul_r, <- !Z.pow_add_r by lia. f_equal. lia.
Qed.

Lemma slot_prune x T ph l s p e k s' :
  tree x T ph -> T !! (l, s / 512) = Some p ->
  slot (prune l s T) (wr (slot_addr p s) e ph) k s' =
  if decide (under l s (k, s' / 512)) then None else if decide ((k, s') = (l, s)) then Some e else slot T ph k s'.
Proof using.
  intros HT E. rewrite <- (slot_wr x T ph l s p e k s' HT E). unfold slot. rewrite prune_lookup. now case_decide.
Qed.

Lemma tree_prune x T ph l s p e :
  tree x T ph -> T !! (l, s / 512) = Some p -> entry_valid e = false -> may_write x l s \/ x = Some (S l, s) ->
  tree (Some (l, s / 512)) (prune l s T) (wr (slot_addr p s) e ph).
Proof using.
  intros HT E He Hx. pose proof (fun k s' => slot_prune x T ph l s p e k s' HT E) as SP.
  assert (PL : forall key q, prune l s T !! key = Some q -> T !! key = Some q /\ ~ under l s key).
  { intros key q. rewrite prune_lookup. now case_decide. }
  pose proof HT as [H1 H2 H3 H4 H5 H6 H7]. split; try assumption.
  - rewrite prune_lookup, decide_False; [exact H2 |]. intros [H _]. cbn in H. lia.
  - intros k n q Eq. apply PL in Eq as [Eq _]. eauto.
  - intros k k' q Eq Eq'. apply PL in Eq as [Eq _], Eq' as [Eq' _]. eauto.
  - intros k s' e'. rewrite SP. case_decide as D1; [discriminate |]. case_decide as D2.
    + intros [= <-] [Hv _]. congruence.
    + intros Es Ht. rewrite prune_lookup, decide_False; [exact (H5 _ _ _ Es Ht) |].
      rewrite under_succ. intros [[-> ->] | H]; [now apply D2 | now apply D1].
  - intros k s' q Eq. apply PL in Eq as [Eq Nu]. rewrite under_succ in Nu. destruct (H6 _ _ _ Eq) as (e' & Es & Ht).
    exists e'. split; [| exact Ht]. rewrite SP, !decide_False; [exact Es | | tauto]. intros [= -> ->]. tauto.
  - intros k s' q Eq Nx. apply PL in Eq as [Eq Nu].
    apply (used_after x T ph l s p e k s' q HT E Eq); [right; congruence | left].
    destruct Hx as [[-> | ->] | ->]; [congruence | congruence |]. intros [= <- <-]. apply Nu, under_succ. now left.
Qed.

Lemma view_prune x T ph l s p e v k e' :
  tree x T ph -> T !! (l, s / 512) = Some p -> entry_valid e = false ->
  view (prune l s T) (wr (slot_addr p s) e ph) v k e' <-> view T ph v k e' /\ v / covers l <> s.
Proof using.
  intros HT E He. pose proof (t_key _ _ _ HT _ _ _ E) as (Hl & _). unfold view at 1. rewrite (slot_prune _ _ _ _ _ _ _ _ _ HT E).
  case_decide as D1.
  - split; [intros (_ & ? & _); discriminate |]. intros [(Hk & _) N]. destruct D1 as [D1 D2]. cbn in D1, D2.
    rewrite under_addr in D2 by lia. congruence.
  - case_decide as D2.
    + injection D2 as -> <-. split; [intros (_ & [= <-] & Hv & _); congruence | intros [_ N]; now destruct N].
    + split; [| now intros [V _]]. intros V. split; [exact V |]. destruct V as (Hk & Es & Hleaf). intros <-.
      destruct (Nat.lt_trichotomy k l) as [L | [-> | L]]; [| easy |].
      * destruct (ancestors _ _ _ HT v k l p Hl E L) as (e1 & E1 & Ht). rewrite Es in E1. injection E1 as <-.
        exact (not_leaf_table _ _ Hleaf Ht).
      * apply D1. split; [exact L |]. cbn. apply under_addr. lia.
Qed.

(** What hangs off a slot hangs off its own table. *)
Lemma under_root x T ph l s k n q :
  tree x T ph -> T !! (k, n) = Some q -> under l s (k, n) ->
  exists c, T !! (S l, s) = Some c /\
    ((k, n) = (S l, s) \/ exists i, 0 <= i < 512 /\ entry_valid (word ph (slot_addr c i)) = true).
Proof using.
  intros HT. revert n q. induction k as [| k IH]; intros n q Eq [Hk Hu]; cbn in Hk, Hu; [lia |].
  assert (U : under l s (S k, n)) by (split; [exact Hk | exact Hu]).
  apply under_succ in U as [[-> ->] | U]; [eauto |].
  destruct (t_parent _ _ _ HT _ _ _ Eq) as (e & Es & Hv & _). destruct (slot_table _ _ _ _ _ Es) as (q' & Eq' & ->).
  destruct (IH _ _ Eq' U) as (c & Ec & [[= -> Hn] | H]); exists c; (split; [exact Ec |]); [right | now right].
  rewrite Hn, Ec in Eq'. injection Eq' as <-. exists (n mod 512). split; [apply Z.mod_pos_bound; lia |].
  unfold slot_addr in *. now rewrite Z.mod_mod by lia.
Qed.

Lemma prune_leaf x T ph l s : tree x T ph -> T !! (S l, s) = None -> prune l s T = T.
Proof using.
  intros HT En. apply map_eq. intros [k n]. rewrite prune_lookup. case_decide as D; [| reflexivity].
  destruct (T !! (k, n)) as [q |] eqn:Eq; [| reflexivity]. destruct (under_root _ _ _ _ _ _ _ _ HT Eq D) as (c & Ec & _). congruence.
Qed.

Lemma prune_empty x T ph l s c :
  tree x T ph -> T !! (S l, s) = Some c ->
  (forall i, 0 <= i < 512 -> entry_valid (word ph (slot_addr c i)) = false) ->
  prune l s T = delete (S l, s) T.
Proof using.
  intros HT Ec Hi. apply map_eq. intros [k n]. rewrite prune_lookup. case_decide as D.
  - destruct (decide ((k, n) = (S l, s))) as [-> | N]; [now rewrite lookup_delete_eq |]. rewrite lookup_delete_ne by congruence.
    destruct (T !! (k, n)) as [q |] eqn:Eq; [exfalso | reflexivity].
    destruct (under_root _ _ _ _ _ _ _ _ HT Eq D) as (c' & Ec' & [? | (i & Hi' & Hv)]); [contradiction |].
    rewrite Ec in Ec'. injection Ec' as <-. rewrite (Hi i Hi') in Hv. discriminate.
  - rewrite lookup_delete_ne; [reflexivity |]. intros [= <- <-]. apply D. split; cbn; [lia |].
    now rewrite Nat.sub_diag, Z.pow_0_r, Z.div_1_r.
Qed.

(** A table that turned out to be in use, or is the root, is no exception. *)
Lemma tree_settle l n T ph p :
  tree (Some (l, n)) T ph -> T !! (l, n) = Some p ->
  l = 0%nat \/ (exists i, 0 <= i < 512 /\ entry_valid (word ph (slot_addr p i)) = true) -> tree None T ph.
Proof using.
  intros [H1 H2 H3 H4 H5 H6 H7] E Hi. split; try assumption. intros k s q Eq _.
  destruct (decide ((l, n) = (S k, s))) as [[= -> ->] | N]; [| apply (H7 k s q Eq); congruence].
  rewrite E in Eq. injection Eq as <-. now destruct Hi.
Qed.
End Tree.
