(* ===== verification/GmmuWalk.v ===== *)
(** * The page-table walk

    Each operation of the walk against the tree of tables: reading and
    writing entries, going down (creating tables), going up (freeing empty
    ones), and the loop that visits a range step by step. *)

From stdpp Require Import gmap.
From S2P Require Import Prelude.
From S2P Require Import Tlsf.
From S2P Require Import PageTable.
From S2P Require Import AmTlsf.
From S2P Require Import Gmmu.
From S2P Require Import GmmuTree.

(** The geometry of gfx11. *)
Definition slots (l : nat) : Z := match l with O => 1024 | _ => 512 end.

Lemma level_cases l : (l <= 3)%nat -> l = 0%nat \/ l = 1%nat \/ l = 2%nat \/ l = 3%nat.
Proof. lia. Qed.

Lemma gfx11_covers l : (l <= 3)%nat -> Geometry.pte_covers Geometry.gfx11 !! l = Some (covers l).
Proof. intros [-> | [-> | [-> | ->]]]%level_cases; reflexivity. Qed.

Lemma gfx11_cnt l : (l <= 3)%nat -> Geometry.pte_cnt Geometry.gfx11 !! l = Some (slots l).
Proof. intros [-> | [-> | [-> | ->]]]%level_cases; reflexivity. Qed.

Lemma gfx11_idx l v : (l <= 3)%nat -> Geometry.pte_idx Geometry.gfx11 l v = Some ((v / covers l) mod slots l).
Proof. intros [-> | [-> | [-> | ->]]]%level_cases; reflexivity. Qed.

Lemma try_u64_ok z : 0 <= z < 2 ^ 64 -> try_u64 z = Some z.
Proof.
  intros H. unfold try_u64, in_u64b. now rewrite (proj2 (Z.leb_le 0 _)), (proj2 (Z.ltb_lt _ _)) by lia.
Qed.

(** How the walk reads the kind of an entry. *)
Definition page_bit (ip : IpVer) (l : nat) (e : Z) : bool := (l =? 3)%nat || default false (is_pte_huge_page ip l e).

Lemma page_bit_leaf ip l e : is_leaf ip l e <-> entry_valid e = true /\ page_bit ip l e = true.
Proof.
  unfold is_leaf, page_bit. destruct (Nat.eqb_spec l 3) as [-> | N]; cbn [orb]; [tauto |].
  destruct (is_pte_huge_page ip l e) as [[] |]; cbn; intuition congruence.
Qed.

Lemma page_bit_table ip l e : is_table ip l e -> page_bit ip l e = false.
Proof. intros (_ & H & E). unfold page_bit. rewrite (proj2 (Nat.eqb_neq _ _)) by lia. now rewrite E. Qed.

Lemma huge_some ip l e : ip.1.1 < 12 -> exists b, is_pte_huge_page ip l e = Some b.
Proof.
  intros H. unfold is_pte_huge_page, ip_ge. rewrite (proj2 (Z.leb_gt 12 _)) by exact H. destruct (10 <=? _); eauto.
Qed.

Section Walk.
Context {A : Type} `{RangeAllocator A}.
Implicit Types (m : MemoryManager (A := A)) (T : tables).

(** The pages of the tables, as ranges of the allocator. *)
Definition pages T : list (Z * Z) := map (fun kv => (kv.2, 4096)) (map_to_list T).

(** A reserved pool lies below the memory that is handed out for data. *)
Definition apart (b n : Z) m : Prop :=
  reserve_ptable m = true -> forall b' n' live, ra_ok b' n' live (pa_alloc m) -> b + n <= b'.

(** The manager holds the tables [T], of which [x] may be empty; the pool of
    page-table pages has handed out theirs and the [rest]. *)
Record good (x : option (nat * Z)) T (rest : list (Z * Z)) m : Prop := {
  g_geom : geom m = Geometry.gfx11 /\ first_lv m = 0%nat;
  g_ip : (ip_ver m).1.1 < 12;
  g_mc : 0 <= mc_base m /\ (4096 | mc_base m);
  g_len : VramPhys.len (phys m) + mc_base m <= 2 ^ 48;
  g_tree : tree (ip_ver m) (mc_base m) (VramPhys.len (phys m)) (root_pt m) x T (phys m);
  g_pool : exists b n, 0 <= b /\ (4096 | b) /\ b + n <= VramPhys.len (phys m) /\ apart b n m /\
    ra_ok b n (pages T ++ rest) (pool true m)
}.

(** What the walk leaves alone. *)
Definition config m :=
  (ip_ver m, geom m, va_base m, first_lv m, va_alloc m, reserve_ptable m, root_pt m, palloc_ranges m, mc_base m,
   VramPhys.len (phys m), if reserve_ptable m then Some (pa_alloc m) else None).

(** Tables, memory and pool after a step. *)
Definition put (ph : VramPhys) m : MemoryManager := with_phys ph m.

Lemma read_slot x T rest m l s p :
  good x T rest m -> T !! (l, s / 512) = Some p -> entry p (s mod 512) m = inl (word (phys m) (slot_addr p s)).
Proof using.
  intros G E. destruct (t_key _ _ _ _ _ _ _ (g_tree _ _ _ _ G) _ _ _ E) as (_ & _ & _ & _ & Hp).
  unfold entry, VramPhys.read_u64. change (p + s mod 512 * 8) with (slot_addr p s).
  pose proof (slot_addr_range p s). now rewrite (proj2 (Z.leb_le _ _)) by lia.
Qed.

Lemma read_valid x T rest m l s p :
  good x T rest m -> T !! (l, s / 512) = Some p ->
  pt_valid p (s mod 512) m = inl (entry_valid (word (phys m) (slot_addr p s))).
Proof using. intros G E. unfold pt_valid. now rewrite (read_slot _ _ _ _ _ _ _ G E). Qed.

Lemma read_page x T rest m l s p :
  good x T rest m -> T !! (l, s / 512) = Some p ->
  pt_is_page l p (s mod 512) m = inl (page_bit (ip_ver m) l (word (phys m) (slot_addr p s))).
Proof using.
  intros G E. unfold pt_is_page, page_bit. rewrite (proj1 (g_geom _ _ _ _ G)). cbn [Geometry.level_cnt Geometry.gfx11].
  change (Geometry.level_cnt Geometry.gfx11 - 1)%nat with 3%nat. destruct (l =? 3)%nat; [reflexivity |].
  rewrite (read_slot _ _ _ _ _ _ _ G E). cbn [orb].
  destruct (huge_some (ip_ver m) l (word (phys m) (slot_addr p s)) (g_ip _ _ _ _ G)) as [b ->]. reflexivity.
Qed.

Lemma read_cnt x T rest m l : good x T rest m -> (l <= 3)%nat -> pte_cnt l m = inl (slots l).
Proof using. intros G Hl. unfold pte_cnt. now rewrite (proj1 (g_geom _ _ _ _ G)), gfx11_cnt. Qed.

Lemma read_covers x T rest m l : good x T rest m -> (l <= 3)%nat -> pte_covers l m = inl (covers l).
Proof using. intros G Hl. unfold pte_covers. now rewrite (proj1 (g_geom _ _ _ _ G)), gfx11_covers. Qed.

(** An address of the chip's physical space, as an entry stores it. *)
Definition stored_addr m (system : bool) (paddr : Z) : Z := if system then paddr else paddr + mc_base m.

Lemma write_word m l s p paddr is_table_ uncached system snooped frag valid :
  (ip_ver m).1.1 < 12 -> (l <= 3)%nat -> p + 4096 <= VramPhys.len (phys m) -> 0 <= mc_base m ->
  page_addr (stored_addr m system paddr) ->
  exists e, set_entry l p (s mod 512) paddr is_table_ uncached system snooped frag valid m =
      inl (put (wr (slot_addr p s) e (phys m)) m) /\
    entry_paddr e = stored_addr m system paddr /\ entry_valid e = valid /\
    ((l < 3)%nat -> is_pte_huge_page (ip_ver m) l e = Some (negb is_table_)).
Proof using.
  intros Hip Hl Hpg Hmc Hp.
  destruct (encode_facts (ip_ver m) l _ is_table_ uncached system snooped frag valid Hip Hl Hp)
    as (e & Ee & F1 & F2 & F3).
  exists e. split; [| auto]. unfold set_entry. unfold stored_addr in *.
  assert (Est : (if system then inl paddr else orf (try_u64 (paddr + mc_base m))) =
                inl (if system then paddr else paddr + mc_base m) :> Z + Panic).
  { destruct system; [reflexivity |]. destruct Hp as [Hp _]. now rewrite try_u64_ok by lia. }
  rewrite Est, Ee. cbn [orf]. unfold VramPhys.write_u64. change (p + s mod 512 * 8) with (slot_addr p s).
  pose proof (slot_addr_range p s). now rewrite (proj2 (Z.leb_le _ _)) by lia.
Qed.

Lemma write_slot x T rest m l s p paddr is_table_ uncached system snooped frag valid :
  good x T rest m -> T !! (l, s / 512) = Some p -> page_addr (stored_addr m system paddr) ->
  exists e, set_entry l p (s mod 512) paddr is_table_ uncached system snooped frag valid m =
      inl (put (wr (slot_addr p s) e (phys m)) m) /\
    entry_paddr e = stored_addr m system paddr /\ entry_valid e = valid /\
    ((l < 3)%nat -> is_pte_huge_page (ip_ver m) l e = Some (negb is_table_)).
Proof using.
  intros G E. destruct (t_key _ _ _ _ _ _ _ (g_tree _ _ _ _ G) _ _ _ E) as (Hl & _ & _ & _ & Hpg).
  apply write_word; [exact (g_ip _ _ _ _ G) | exact Hl | exact Hpg | exact (proj1 (g_mc _ _ _ _ G))].
Qed.

(** ** Steps on the tables *)
Definition seen T m (v : Z) (l : nat) (e : Z) : Prop := view (ip_ver m) T (phys m) v l e.

Lemma good_put x T rest m x' T' rest' ph :
  good x T rest m -> VramPhys.len ph = VramPhys.len (phys m) ->
  tree (ip_ver m) (mc_base m) (VramPhys.len (phys m)) (root_pt m) x' T' ph ->
  Permutation (pages T ++ rest) (pages T' ++ rest') -> good x' T' rest' (put ph m).
Proof using.
  intros [H1 H2 H3 H4 H5 (b & n & Hb & Ha & Hn & Hap & H6)] Hl HT P. split; try assumption; cbn [phys put with_phys].
  - now rewrite Hl.
  - now rewrite Hl.
  - exists b, n. rewrite Hl. do 3 (split; [assumption |]). split; [exact Hap |]. exact (ra_perm _ _ _ _ _ H6 P).
Qed.

Lemma config_put ph m : VramPhys.len ph = VramPhys.len (phys m) -> config (put ph m) = config m.
Proof using. intros E. unfold config, put, with_phys. cbn. now rewrite E. Qed.

Lemma put_leaf x T rest m l s p paddr uncached system snooped frag :
  good x T rest m -> T !! (l, s / 512) = Some p -> T !! (S l, s) = None -> may_write x l s ->
  page_addr (stored_addr m system paddr) ->
  exists e m', set_entry l p (s mod 512) paddr false uncached system snooped frag true m = inl m' /\
    good None T rest m' /\ config m' = config m /\ entry_paddr e = stored_addr m system paddr /\
    (forall v k e', seen T m' v k e' <-> if decide (v / covers l = s) then k = l /\ e' = e else seen T m v k e').
Proof using.
  intros G E En Hx Hp.
  destruct (write_slot _ _ _ _ _ _ _ _ false uncached system snooped frag true G E Hp) as (e & -> & F1 & F2 & F3).
  destruct (t_key _ _ _ _ _ _ _ (g_tree _ _ _ _ G) _ _ _ E) as (Hl & _).
  assert (Hleaf : is_leaf (ip_ver m) l e).
  { split; [exact F2 |]. destruct (decide (l = 3%nat)) as [-> | N]; [now left | right; apply F3; lia]. }
  exists e, (put (wr (slot_addr p s) e (phys m)) m). split; [reflexivity |]. split.
  - apply (good_put _ _ _ _ _ _ _ _ G); [reflexivity | | reflexivity].
    exact (tree_write _ _ _ _ _ _ _ _ _ _ _ (g_tree _ _ _ _ G) E En Hleaf Hx).
  - split; [now apply config_put |]. split; [exact F1 |]. intros v k e'.
    exact (view_write _ _ _ _ _ _ _ _ _ _ _ v k e' (g_tree _ _ _ _ G) E En Hleaf Hx).
Qed.

Lemma pages_prune l s T : exists lost, Permutation (pages T) (pages (prune l s T) ++ lost).
Proof using.
  assert (S : map_to_list (prune l s T) ⊆+ map_to_list T).
  { apply NoDup_submseteq; [apply NoDup_map_to_list |]. intros [k p]. rewrite !elem_of_map_to_list, prune_lookup. now case_decide. }
  apply submseteq_Permutation in S as [lost P]. exists (map (fun kv => (kv.2, 4096)) lost).
  unfold pages. rewrite <- map_app. now apply Permutation_map.
Qed.

Lemma clear_addr x T rest m : good x T rest m -> page_addr (stored_addr m false 0).
Proof using.
  intros G. pose proof (g_mc _ _ _ _ G) as [H1 [q H2]]. pose proof (g_len _ _ _ _ G) as H3.
  pose proof (t_key _ _ _ _ _ _ _ (g_tree _ _ _ _ G) _ _ _ (t_root _ _ _ _ _ _ _ (g_tree _ _ _ _ G))) as (_ & _ & H4 & _ & H5).
  unfold stored_addr. rewrite Z.add_0_l. split; [lia |]. rewrite H2. now apply Z.mod_mul.
Qed.

(** Clearing a slot drops what hangs off it; pages of lost tables stay handed out. *)
Lemma put_clear x T rest m l s p :
  good x T rest m -> T !! (l, s / 512) = Some p -> may_write x l s ->
  exists m' lost, set_entry l p (s mod 512) 0 false false false false 0 false m = inl m' /\
    good (Some (l, s / 512)) (prune l s T) (lost ++ rest) m' /\ config m' = config m /\
    (T !! (S l, s) = None -> lost = [] /\ prune l s T = T) /\
    (forall v k e', seen (prune l s T) m' v k e' <-> seen T m v k e' /\ v / covers l <> s).
Proof using.
  intros G E Hx.
  destruct (write_slot _ _ _ _ _ _ _ 0 false false false false 0 false G E (clear_addr _ _ _ _ G)) as (e & -> & _ & F2 & _).
  assert (P : exists lost, Permutation (pages T ++ rest) (pages (prune l s T) ++ lost ++ rest) /\
    (T !! (S l, s) = None -> lost = [] /\ prune l s T = T)).
  { destruct (T !! (S l, s)) as [c |] eqn:Ec.
    - destruct (pages_prune l s T) as [lost P]. exists lost. split; [now rewrite P, <- app_assoc | discriminate].
    - exists []. rewrite (prune_leaf _ _ _ _ _ _ _ _ _ (g_tree _ _ _ _ G) Ec). auto. }
  destruct P as (lost & P & HL). exists (put (wr (slot_addr p s) e (phys m)) m), lost. split; [reflexivity |]. split.
  - apply (good_put _ _ _ _ _ _ _ _ G); [reflexivity | | exact P].
    exact (tree_prune _ _ _ _ _ _ _ _ _ _ _ (g_tree _ _ _ _ G) E F2 (or_introl Hx)).
  - split; [now apply config_put |]. split; [exact HL |]. intros v k e'.
    exact (view_prune _ _ _ _ _ _ _ _ _ _ _ v k e' (g_tree _ _ _ _ G) E F2).
Qed.

Lemma pool_with_pool a m : pool true (with_pool true a m) = a.
Proof using. unfold pool, with_pool. cbn. now destruct (reserve_ptable m). Qed.

Lemma config_with_pool a m : config (with_pool true a m) = config m.
Proof using. unfold config, with_pool. cbn. now destruct (reserve_ptable m). Qed.

(** The same memory over another state of the pool. *)
Lemma good_pool x T rest m x' T' rest' ph a b n :
  good x T rest m -> VramPhys.len ph = VramPhys.len (phys m) ->
  tree (ip_ver m) (mc_base m) (VramPhys.len (phys m)) (root_pt m) x' T' ph ->
  0 <= b -> (4096 | b) -> b + n <= VramPhys.len (phys m) -> apart b n m -> ra_ok b n (pages T' ++ rest') a ->
  good x' T' rest' (put ph (with_pool true a m)).
Proof using.
  intros [H1 H2 H3 H4 H5 _] Hl HT Hb Ha Hn Hap H6. split; try assumption; cbn [phys put with_phys].
  - now rewrite Hl.
  - now rewrite Hl.
  - exists b, n. rewrite Hl. do 3 (split; [assumption |]). split.
    { revert Hap. unfold apart. cbn. destruct (reserve_ptable m); [now intros Hap | discriminate]. }
    change (pool true (put ph (with_pool true a m))) with (pool true (with_pool true a m)). now rewrite pool_with_pool.
Qed.

(** A zeroed page that no table occupies, or none left. *)
Lemma palloc_table x T rest m :
  good x T rest m ->
  (exists m', palloc 0x1000 0x1000 true true m = inl (None, m')) \/
  exists c a b n, palloc 0x1000 0x1000 true true m = inl (Some c, put (zeroed c 4096 (phys m)) (with_pool true a m)) /\
    page (VramPhys.len (phys m)) c /\ fresh c T /\
    0 <= b /\ (4096 | b) /\ b + n <= VramPhys.len (phys m) /\ apart b n m /\ ra_ok b n ((c, 4096) :: pages T ++ rest) a.
Proof using.
  intros G. destruct (g_pool _ _ _ _ G) as (b & n & Hb & Ha & Hn & Hap & Hok). unfold palloc.
  change (round_up 0x1000 0x1000) with (Some 0x1000). cbn [orf].
  destruct (ra_alloc_ok _ _ _ _ 0x1000 0x1000 Hok ltac:(lia) ltac:(lia) eq_refl ltac:(lia)) as (r & a & -> & Hr). cbn [orf].
  destruct r as [c |]; [right | left; eauto]. destruct Hr as (Hok' & Hal & Hlo & Hhi & Hd).
  exists c, a, b, n. unfold VramPhys.zero. change (phys (with_pool true a m)) with (phys m).
  rewrite (proj2 (Z.leb_le _ _)) by lia. split; [reflexivity |]. split.
  - split; [lia |]. split; [| lia]. destruct Ha as [q ->]. apply Z.mod_divide in Hal as [q' Hq]; [| lia]. exists (q + q'). lia.
  - split; [| auto]. intros k Ek. rewrite Forall_forall in Hd.
    assert (Hin : (c, 4096) ∈ pages T ++ rest).
    { apply elem_of_app. left. unfold pages. apply list_elem_of_In, in_map_iff. exists (k, c).
      split; [reflexivity |]. now apply list_elem_of_In, elem_of_map_to_list. }
    specialize (Hd _ Hin). unfold disjoint_from in Hd. cbn in Hd. lia.
Qed.

Lemma put_table x T rest m l s p :
  good x T rest m -> (l < 3)%nat -> T !! (l, s / 512) = Some p -> T !! (S l, s) = None -> may_write x l s ->
  entry_valid (word (phys m) (slot_addr p s)) = false ->
  (exists m', palloc 0x1000 0x1000 true true m = inl (None, m')) \/
  exists c m1 m', palloc 0x1000 0x1000 true true m = inl (Some c, m1) /\
    set_entry l p (s mod 512) c true false false false 0 true m1 = inl m' /\
    good (Some (S l, s)) (<[(S l, s) := c]> T) rest m' /\ config m' = config m /\
    (forall v k e, seen (<[(S l, s) := c]> T) m' v k e <-> seen T m v k e).
Proof using.
  intros G Hl E En Hx Hv. destruct (palloc_table _ _ _ _ G) as [? | (c & a & b & n & -> & Hc & Hf & Hb & Ha & Hn & Hap & Hok)]; [now left | right].
  destruct (t_key _ _ _ _ _ _ _ (g_tree _ _ _ _ G) _ _ _ E) as (_ & _ & _ & _ & Hpg).
  destruct (g_mc _ _ _ _ G) as [Hmc [q Hq]]. pose proof (g_len _ _ _ _ G) as Hlen.
  set (m1 := put (zeroed c 4096 (phys m)) (with_pool true a m)).
  destruct (write_word m1 l s p c true false false false 0 true) as (e & Ew & F1 & F2 & F3);
    [exact (g_ip _ _ _ _ G) | lia | exact Hpg | exact Hmc | |].
  { destruct Hc as (H1 & [q' H2] & H3). unfold stored_addr, page_addr. cbn. rewrite Hq in *. subst c.
    split; [lia |]. replace (q' * 4096 + q * 4096) with ((q' + q) * 4096) by lia. now apply Z.mod_mul. }
  assert (Ht : is_table (ip_ver m) l e) by (split; [exact F2 |]; split; [exact Hl | exact (F3 Hl)]).
  assert (Ec : entry_paddr e - mc_base m = c) by (rewrite F1; unfold stored_addr; cbn; lia).
  exists c, m1, (put (wr (slot_addr p s) e (phys m1)) m1). split; [reflexivity |]. split; [exact Ew |].
  split; [| split].
  - apply (good_pool x T rest m _ _ _ (wr (slot_addr p s) e (zeroed c 4096 (phys m))) a b n G); try assumption; [reflexivity | |].
    + exact (tree_add _ _ _ _ _ _ _ _ _ _ _ _ (g_tree _ _ _ _ G) Hl E En Hc Hf Ht Ec Hx).
    + refine (ra_perm _ _ _ _ _ Hok _). unfold pages. now rewrite map_to_list_insert by exact En.
  - unfold m1. rewrite config_put by reflexivity. rewrite config_put by reflexivity. apply config_with_pool.
  - intros v k e'. refine (view_add _ _ _ _ _ _ _ _ _ _ _ _ _ v k e' (g_tree _ _ _ _ G) Hl E En Hc Hf Ht _ Hv).
    now apply slot_word.
Qed.

(** ** Going up *)

(** The frames below level [l]'s table [n], top first. *)
Fixpoint below T (l : nat) (n : Z) (st : list Frame) : Prop :=
  match l with
  | O => n = 0 /\ st = []
  | S k =>
      match st with
      | [] => False
      | f :: st =>
          f_lv f = k /\ f_covers f = covers k /\ T !! (k, n / 512) = Some (f_paddr f) /\ pte_idx f = n mod 512 /\
          below T k (n / 512) st
      end
  end.

(** A frame of table [n] of level [l] at slot [s], which may be the end of the table. *)
Definition frame T (l : nat) (n s : Z) (f : Frame) : Prop :=
  f_lv f = l /\ f_covers f = covers l /\ T !! (l, n) = Some (f_paddr f) /\ pte_idx f = s - n * 512 /\ 0 <= pte_idx f <= 512.

Lemma frame_key x T rest m l n s f : good x T rest m -> frame T l n s f -> (l <= 3)%nat /\ 0 <= n /\ (l = 0%nat -> n = 0).
Proof using.
  intros G (_ & _ & E & _). destruct (t_key _ _ _ _ _ _ _ (g_tree _ _ _ _ G) _ _ _ E) as (Hl & Hn & _).
  split; [exact Hl |]. split; [lia |]. intros ->. cbn in Hn. lia.
Qed.

Lemma read_valid_at x T rest m l n p i :
  good x T rest m -> T !! (l, n) = Some p -> 0 <= i < 512 ->
  pt_valid p i m = inl (entry_valid (word (phys m) (slot_addr p i))).
Proof using.
  intros G E Hi. assert (D : (n * 512 + i) / 512 = n) by (symmetry; apply (Z.div_unique_pos _ _ _ i); lia).
  assert (M : (n * 512 + i) mod 512 = i) by (symmetry; apply (Z.mod_unique_pos _ _ n); lia).
  pose proof (read_valid x T rest m l (n * 512 + i) p G) as R. rewrite D, M in R. rewrite (R E).
  unfold slot_addr. now rewrite M, (Z.mod_small i) by lia.
Qed.

Lemma none_valid_eq x T rest m l n p k i :
  good x T rest m -> T !! (l, n) = Some p -> 0 <= i -> i + Z.of_nat k <= 512 ->
  exists b, none_valid k i p m = inl b /\
    (b = true <-> forall j, i <= j < i + Z.of_nat k -> entry_valid (word (phys m) (slot_addr p j)) = false).
Proof using.
  intros G E. revert i. induction k as [| k IH]; intros i Hi Hk.
  - exists true. split; [reflexivity |]. split; [intros _ j Hj; lia | reflexivity].
  - cbn [none_valid]. rewrite (read_valid_at _ _ _ _ _ _ _ i G E) by lia.
    destruct (entry_valid (word (phys m) (slot_addr p i))) eqn:Ei.
    + exists false. split; [reflexivity |]. split; [discriminate |]. intros Hj. rewrite Hj in Ei by lia. discriminate.
    + destruct (IH (i + 1) ltac:(lia) ltac:(lia)) as (b & -> & Hb). exists b. split; [reflexivity |]. rewrite Hb.
      split; intros Hj j Hr; [destruct (Z.eq_dec j i) as [-> |]; [exact Ei | apply Hj; lia] | apply Hj; lia].
Qed.

(** A page back to the pool. *)
Lemma pfree_table x T rest m l n c :
  good x T rest m -> T !! (l, n) = Some c ->
  exists a b k, pfree c true m = inl (with_pool true a m) /\ 0 <= b /\ (4096 | b) /\ b + k <= VramPhys.len (phys m) /\ apart b k m /\
    ra_ok b k (pages (delete (l, n) T) ++ rest) a.
Proof using.
  intros G E. destruct (g_pool _ _ _ _ G) as (b & k & Hb & Ha & Hk & Hap & Hok).
  destruct (ra_free_ok b k _ (pages (delete (l, n) T) ++ rest) _ c 4096 Hok) as (a & Ef & Hok').
  - unfold pages. rewrite <- (map_to_list_delete _ _ _ E). reflexivity.
  - exists a, b, k. unfold pfree. rewrite Ef. auto 10.
Qed.

(** The empty table [n] of level [S l] unlinked from its parent and freed. *)
Lemma drop_table T rest m l n c q :
  good (Some (S l, n)) T rest m -> T !! (S l, n) = Some c -> T !! (l, n / 512) = Some q ->
  (forall i, 0 <= i < 512 -> entry_valid (word (phys m) (slot_addr c i)) = false) ->
  exists m1 m', pfree c true m = inl m1 /\ set_entry l q (n mod 512) 0 false false false false 0 false m1 = inl m' /\
    good (Some (l, n / 512)) (delete (S l, n) T) rest m' /\ config m' = config m /\
    (forall v k e, seen (delete (S l, n) T) m' v k e <-> seen T m v k e).
Proof using.
  intros G Ec Eq Hi. destruct (pfree_table _ _ _ _ _ _ _ G Ec) as (a & b & k & -> & Hb & Ha & Hk & Hap & Hok).
  pose proof (g_tree _ _ _ _ G) as HT. destruct (t_key _ _ _ _ _ _ _ HT _ _ _ Eq) as (Hl & _ & _ & _ & Hpg).
  destruct (write_word (with_pool true a m) l n q 0 false false false false 0 false) as (e & Ew & F1 & F2 & F3);
    [exact (g_ip _ _ _ _ G) | exact Hl | exact Hpg | exact (proj1 (g_mc _ _ _ _ G)) | exact (clear_addr _ _ _ _ G) |].
  exists (with_pool true a m), (put (wr (slot_addr q n) e (phys m)) (with_pool true a m)). split; [reflexivity |].
  split; [exact Ew |].
  assert (HT' : tree (ip_ver m) (mc_base m) (VramPhys.len (phys m)) (root_pt m) (Some (l, n / 512)) (delete (S l, n) T)
                  (wr (slot_addr q n) e (phys m))).
  { rewrite <- (prune_empty _ _ _ _ _ _ _ _ _ _ HT Ec Hi).
    exact (tree_prune _ _ _ _ _ _ _ _ _ _ _ HT Eq F2 (or_intror eq_refl)). }
  split; [exact (good_pool _ _ _ _ _ _ _ (wr (slot_addr q n) e (phys m)) a b k G eq_refl HT' Hb Ha Hk Hap Hok) |].
  split; [rewrite config_put by reflexivity; apply config_with_pool |]. intros v j e'.
  rewrite <- (prune_empty _ _ _ _ _ _ _ _ _ _ HT Ec Hi).
  pose proof (view_prune _ _ _ _ _ _ _ _ _ _ _ v j e' HT Eq F2) as VP. unfold seen. cbn [put with_phys with_pool phys ip_ver].
  rewrite VP. split; [now intros [V _] |]. intros V. split; [exact V |]. intros <-.
  (* an empty table translates no address *)
  pose proof V as (Hj & Es & Hleaf). destruct (Nat.lt_trichotomy j (S l)) as [L | [-> | L]].
  - rewrite <- slot_up in Ec by (apply (t_key _ _ _ _ _ _ _ HT) in Ec; lia).
    pose proof (t_key _ _ _ _ _ _ _ HT _ _ _ Ec) as (Hl' & _).
    destruct (ancestors _ _ _ _ _ _ _ HT v j (S l) c Hl' Ec L) as (e1 & E1 & Ht). rewrite Es in E1. injection E1 as <-.
    exact (not_leaf_table _ _ _ Hleaf Ht).
  - unfold slot in Es. rewrite slot_up in Es by lia. rewrite Ec in Es. injection Es as <-. destruct Hleaf as [Hv _].
    pose proof (Hi ((v / covers (S l)) mod 512) (Z.mod_pos_bound _ 512 ltac:(lia))) as Hi'.
    unfold slot_addr in *. rewrite Z.mod_mod in Hi' by lia. congruence.
  - destruct (slot_table _ _ _ _ _ Es) as (q' & Eq' & _).
    destruct (ancestors _ _ _ _ _ _ _ HT v (S l) j q' Hj Eq' L) as (e1 & E1 & Ht). unfold slot in E1.
    rewrite slot_up in E1 by lia. rewrite Ec in E1. injection E1 as <-. destruct Ht as [Hv _].
    pose proof (Hi ((v / covers (S l)) mod 512) (Z.mod_pos_bound _ 512 ltac:(lia))) as Hi'.
    unfold slot_addr in *. rewrite Z.mod_mod in Hi' by lia. congruence.
Qed.

Lemma below_mono T T' l n st :
  (forall k j p, (k < l)%nat -> T !! (k, j) = Some p -> T' !! (k, j) = Some p) -> below T l n st -> below T' l n st.
Proof using.
  revert n st. induction l as [| k IH]; intros n st HT; [easy |]. destruct st as [| f st]; [easy |]. cbn.
  intros (H1 & H2 & H3 & H4 & H5). do 2 (split; [assumption |]). split; [apply HT; [lia | exact H3] |].
  split; [exact H4 |]. apply IH; [| exact H5]. intros k' j p Hk. apply HT. lia.
Qed.

Lemma root_table x T rest m l n p :
  good x T rest m -> T !! (l, n) = Some p -> p = root_pt m <-> l = 0%nat.
Proof using.
  intros G E. pose proof (g_tree _ _ _ _ G) as HT. pose proof (t_root _ _ _ _ _ _ _ HT) as Er. split.
  - intros ->. pose proof (t_inj _ _ _ _ _ _ _ HT _ _ _ E Er) as X. now injection X.
  - intros ->. destruct (t_key _ _ _ _ _ _ _ HT _ _ _ E) as (_ & Hn & _). cbn in Hn. assert (n = 0) as -> by lia. congruence.
Qed.

(** The table that may be empty, while going up. *)
Definition top_empty (md : WalkMode) (x : option (nat * Z)) (l : nat) (n : Z) : Prop :=
  x = None \/ (md = Free /\ x = Some (l, n)).

Lemma good_settle T rest m l n p :
  good (Some (l, n)) T rest m -> T !! (l, n) = Some p ->
  l = 0%nat \/ (exists i, 0 <= i < 512 /\ entry_valid (word (phys m) (slot_addr p i)) = true) -> good None T rest m.
Proof using.
  intros G E Hi. pose proof G as [H1 H2 H3 H4 H5 H6]. split; try assumption. exact (tree_settle _ _ _ _ _ _ _ _ _ H5 E Hi).
Qed.

Lemma try_free_ok md x T rest m l n s f st :
  good x T rest m -> frame T l n s f -> below T l n st -> top_empty md x l n ->
  exists b m' T', try_free_pt md f st m = inl (b, m') /\ config m' = config m /\
    (forall v k e, seen T' m' v k e <-> seen T m v k e) /\ T' ⊆ T /\
    if b then exists k, l = S k /\ md = Free /\ T' = delete (l, n) T /\ good (Some (k, n / 512)) T' rest m'
    else T' = T /\ good None T rest m'.
Proof using.
  intros G (F1 & F2 & F3 & F4 & F5) HB Hx.
  assert (Hsame : good None T rest m -> try_free_pt md f st m = inl (false, m) -> exists b m' T',
    try_free_pt md f st m = inl (b, m') /\ config m' = config m /\ (forall v k e, seen T' m' v k e <-> seen T m v k e) /\
    T' ⊆ T /\
    if b then exists k, l = S k /\ md = Free /\ T' = delete (l, n) T /\ good (Some (k, n / 512)) T' rest m'
    else T' = T /\ good None T rest m').
  { intros G' E. exists false, m, T. split; [exact E |]. split; [reflexivity |]. split; [reflexivity |]. split; [reflexivity | now split]. }
  pose proof (root_table _ _ _ _ _ _ _ G F3) as Hroot. unfold try_free_pt in Hsame |- *.
  destruct (is_free md) eqn:Emd; cbn [negb orb] in Hsame |- *.
  2:{ apply Hsame; [| reflexivity]. destruct Hx as [-> | [-> _]]; [exact G | discriminate]. }
  destruct (Z.eqb_spec (f_paddr f) (root_pt m)) as [Er | Nr].
  { apply Hsame; [| reflexivity]. destruct Hx as [-> | [_ ->]]; [exact G |].
    apply (good_settle _ _ _ _ _ _ G F3). left. tauto. }
  destruct l as [| k]; [tauto |]. destruct (frame_key x T rest m (S k) n s f G) as (Hl & Hn & _); [repeat split; assumption || lia |].
  rewrite F1, (read_cnt _ _ _ _ _ G Hl) in Hsame |- *. cbn [slots] in Hsame |- *.
  destruct (none_valid_eq _ _ _ _ _ _ _ (Z.to_nat 512) 0 G F3 ltac:(lia) ltac:(lia)) as (b & Eb & Hb). rewrite Eb in Hsame |- *.
  destruct b.
  - assert (Hi : forall i, 0 <= i < 512 -> entry_valid (word (phys m) (slot_addr (f_paddr f) i)) = false)
      by (intros i Hi; apply (proj1 Hb eq_refl); lia).
    destruct st as [| g st]; [destruct HB |]. destruct HB as (B1 & B2 & B3 & B4 & B5).
    assert (Ex : x = Some (S k, n)).
    { destruct Hx as [-> | [_ ->]]; [exfalso | reflexivity].
      destruct (t_used _ _ _ _ _ _ _ (g_tree _ _ _ _ G) _ _ _ F3) as (i & Hr & Hv); [discriminate |]. rewrite Hi in Hv by exact Hr. discriminate. }
    subst x. destruct (drop_table _ _ _ _ _ _ _ G F3 B3 Hi) as (m1 & m' & -> & E2 & G' & Ec & Es).
    rewrite B1, B4, E2. exists true, m', (delete (S k, n) T). split; [reflexivity |]. split; [exact Ec |]. split; [exact Es |].
    split; [apply delete_subseteq |]. exists k. split; [reflexivity |]. split; [now destruct md | now split].
  - apply Hsame; [| reflexivity]. destruct Hx as [-> | [_ ->]]; [exact G |].
    apply (good_settle _ _ _ _ _ _ G F3). right.
    destruct (decide (Exists (fun i => entry_valid (word (phys m) (slot_addr (f_paddr f) i)) = true) (seqZ 0 512))) as [X | X].
    + apply Exists_exists in X as (i & Hi & Hv). apply elem_of_seqZ in Hi. exists i. split; [lia | exact Hv].
    + exfalso. enough (false = true) by discriminate. apply Hb. intros j Hj. apply not_true_iff_false. intros Hv.
      apply X, Exists_exists. exists j. split; [apply elem_of_seqZ; lia | exact Hv].
Qed.

(** The stack of a walk at slot [s] of level [l]; past the last slot only at the root. *)
Definition stack_at T (l : nat) (s : Z) (st : list Frame) : Prop :=
  exists f st0 n, st = f :: st0 /\ frame T l n s f /\ below T l n st0 /\ (pte_idx f = 512 -> l = 0%nat).

Lemma level_up_ok md v l x T rest m n f st :
  good x T rest m -> frame T l n (v / covers l) f -> below T l n st -> top_empty md x l n ->
  exists st' m' T' l', level_up md f st m = inl (st', m') /\ config m' = config m /\ good None T' rest m' /\
    (forall v k e, seen T' m' v k e <-> seen T m v k e) /\ T' ⊆ T /\ stack_at T' l' (v / covers l') st'.
Proof using.
  revert x T m n f st. induction l as [| k IH]; intros x T m n f st G F HB Hx;
    destruct (frame_key _ _ _ _ _ _ _ _ G F) as (Hl & Hn & _);
    destruct (try_free_ok md x T rest m _ n _ f st G F HB Hx) as (b & m1 & T1 & E1 & C1 & S1 & Z1 & H1);
    pose proof F as (F1 & F2 & F3 & F4 & F5); destruct st as [| g st]; try (now destruct HB);
    cbn [level_up]; rewrite E1, F1.
  - destruct b; [destruct H1 as (k & ? & _); discriminate |]. destruct H1 as [-> G1].
    rewrite (read_cnt _ _ _ _ _ G1 Hl). cbn [slots]. rewrite (proj2 (Z.eqb_neq _ _)) by lia. cbn [orb negb].
    exists [f], m1, T, 0%nat. split; [reflexivity |]. do 3 (split; [assumption |]). split; [exact Z1 |]. exists f, [], n. auto.
  - destruct HB as (B1 & B2 & B3 & B4 & B5).
    assert (Hup : v / covers k = v / covers (S k) / 512) by (symmetry; apply slot_up; lia).
    assert (G1 : exists x1, good x1 T1 rest m1 /\ (b = true -> top_empty md x1 k (n / 512)) /\ (b = false -> x1 = None)).
    { destruct b; [destruct H1 as (k' & [= <-] & -> & _ & H1) | destruct H1 as [-> H1]]; eexists; (split; [exact H1 |]);
        (split; [intros ?; try discriminate; right; split; reflexivity | congruence]) || (split; intros; congruence). }
    destruct G1 as (x1 & G1 & Hb1 & Hb2).
    assert (Hx1 : top_empty md x1 k (n / 512)) by (destruct b; [now apply Hb1 | left; now apply Hb2]).
    assert (HT1 : forall k' j p, (k' < S k)%nat -> T !! (k', j) = Some p -> T1 !! (k', j) = Some p).
    { intros k' j p Hk E. destruct b; [destruct H1 as (k0 & _ & _ & -> & _) | now destruct H1 as [-> _]].
      rewrite lookup_delete_ne; [exact E |]. intros [= X _]. lia. }
    assert (B5' : below T1 k (n / 512) st) by (apply (below_mono T T1); [intros; eapply HT1; eauto; lia | exact B5]).
    rewrite (read_cnt _ _ _ _ _ G1 Hl). cbn [slots]. pose proof (Z.mod_pos_bound n 512). pose proof (Z.div_mod n 512).
    destruct (Z.eqb_spec (pte_idx f) 512) as [Ef | Nf].
    + rewrite orb_true_r. cbn [negb].
      destruct (IH x1 T1 m1 (n / 512) (bump 1 g) st) as (st' & m' & T' & l' & E' & C' & G' & S' & Z' & P'); try assumption.
      { split; [exact B1 |]. split; [exact B2 |]. split; [apply HT1; [lia | exact B3] |]. cbn [pte_idx bump]. rewrite Hup.
        replace (v / covers (S k)) with ((n + 1) * 512) by lia. rewrite Z.div_mul by lia. lia. }
      exists st', m', T', l'. split; [exact E' |]. split; [congruence |]. split; [exact G' |].
      split; [intros; rewrite S'; apply S1 |]. split; [etransitivity; eassumption | exact P'].
    + rewrite orb_false_r. destruct b; cbn [negb].
      * destruct (IH x1 T1 m1 (n / 512) g st) as (st' & m' & T' & l' & E' & C' & G' & S' & Z' & P'); try assumption.
        { split; [exact B1 |]. split; [exact B2 |]. split; [apply HT1; [lia | exact B3] |]. rewrite Hup.
          replace (v / covers (S k) / 512) with n by (apply (Z.div_unique_pos _ _ _ (v / covers (S k) - n * 512)); lia). lia. }
        exists st', m', T', l'. split; [exact E' |]. split; [congruence |]. split; [exact G' |].
        split; [intros; rewrite S'; apply S1 |]. split; [etransitivity; eassumption | exact P'].
      * rewrite (Hb2 eq_refl) in G1. destruct H1 as [-> _]. exists (f :: g :: st), m1, T, (S k). split; [reflexivity |].
        do 3 (split; [assumption |]). split; [exact Z1 |]. exists f, (g :: st), n. split; [reflexivity |]. split; [exact F |].
        split; [repeat split; assumption | congruence].
Qed.

(** ** Going down *)

(** A walk at [v] with [rem] bytes to go, and nothing pending. *)
Definition ready (md : WalkMode) T (l : nat) (v rem off : Z) (w : Walk) : Prop :=
  mode w = md /\ vaddr w = v /\ w_size w = rem /\ w_off w = off /\ pending w = None /\ stack_at T l (v / covers l) (stack w).

(** The rebased addresses the tables translate. *)
Definition in_space (v : Z) : Prop := 0 <= v < 2 ^ 48.

Lemma stack_top x T rest m l v st :
  good x T rest m -> in_space v -> stack_at T l (v / covers l) st ->
  exists f st0, st = f :: st0 /\ frame T l (v / covers l / 512) (v / covers l) f /\
    below T l (v / covers l / 512) st0 /\ pte_idx f = (v / covers l) mod 512.
Proof using.
  intros G Hv (f & st0 & n & -> & F & HB & Hend). destruct (frame_key _ _ _ _ _ _ _ _ G F) as (Hl & Hn & Hn0).
  pose proof F as (F1 & F2 & F3 & F4 & F5). exists f, st0. split; [reflexivity |].
  assert (Hlt : pte_idx f < 512).
  { destruct (Z.eq_dec (pte_idx f) 512) as [E |]; [| lia]. specialize (Hend E). subst l. rewrite Hn0 in F4 by reflexivity.
    assert (v / covers 0 < 512) by (apply Z.div_lt_upper_bound; [reflexivity |]; change (covers 0 * 512) with (2 ^ 48); apply Hv). lia. }
  assert (D : v / covers l / 512 = n) by (symmetry; apply (Z.div_unique_pos _ _ _ (pte_idx f)); lia).
  assert (M : (v / covers l) mod 512 = pte_idx f) by (symmetry; apply (Z.mod_unique_pos _ _ n); lia).
  rewrite D, M. auto.
Qed.

(** A slot that is a table leads to it. *)
Lemma read_child x T rest m l s p :
  good x T rest m -> T !! (l, s / 512) = Some p -> is_table (ip_ver m) l (word (phys m) (slot_addr p s)) ->
  exists c, T !! (S l, s) = Some c /\ pt_is_page l p (s mod 512) m = inl false /\ pt_child p (s mod 512) m = inl c.
Proof using.
  intros G E Ht. pose proof (g_tree _ _ _ _ G) as HT.
  pose proof (t_table _ _ _ _ _ _ _ HT _ _ _ (slot_word _ _ _ _ _ E) Ht) as Ec.
  destruct (t_key _ _ _ _ _ _ _ HT _ _ _ Ec) as (_ & _ & Hc0 & _ & Hc1). pose proof (g_len _ _ _ _ G). pose proof (proj1 (g_mc _ _ _ _ G)).
  eexists. split; [exact Ec |]. split.
  - rewrite (read_page _ _ _ _ _ _ _ G E). now rewrite page_bit_table.
  - unfold pt_child. rewrite (read_slot _ _ _ _ _ _ _ G E). now rewrite try_u64_ok by lia.
Qed.

(** The frame pushed for the table below. *)
Lemma push_frame x T rest m md l v rem off w f st c :
  good x T rest m -> in_space v -> ready md T l v rem off w -> (l < 3)%nat ->
  stack w = f :: st -> T !! (S l, v / covers l) = Some c ->
  frame T l (v / covers l / 512) (v / covers l) f -> below T l (v / covers l / 512) st ->
  pte_idx f = (v / covers l) mod 512 ->
  ready md T (S l) v rem off
    (mkWalk (vaddr w) (mode w) (mkFrame c (S l) ((v / covers (S l)) mod 512) (covers (S l)) :: stack w)
       (w_size w) (w_off w) (pending w)).
Proof using.
  intros G Hv (R1 & R2 & R3 & R4 & R5 & R6) Hl Es Ec (F1 & F2 & F3 & F4 & F5) HB Hi.
  do 5 (split; [assumption |]). cbn [stack]. eexists _, _, (v / covers l). split; [reflexivity |].
  pose proof (Z.mod_pos_bound (v / covers (S l)) 512). pose proof (Z.div_mod (v / covers (S l)) 512) as DM.
  rewrite slot_up in DM by exact Hl. split; [| split].
  - split; [reflexivity |]. split; [reflexivity |]. split; [exact Ec |]. cbn [pte_idx]. lia.
  - rewrite Es. cbn. auto.
  - cbn [pte_idx]. lia.
Qed.

Lemma down_read x T rest m md l v rem off w p :
  good x T rest m -> in_space v -> ready md T l v rem off w -> (l < 3)%nat ->
  T !! (l, v / covers l / 512) = Some p -> is_table (ip_ver m) l (word (phys m) (slot_addr p (v / covers l))) ->
  exists w', level_down w m = inl (w', m) /\ ready md T (S l) v rem off w'.
Proof using.
  intros G Hv R Hl E Ht. pose proof R as (R1 & R2 & R3 & R4 & R5 & R6).
  destruct (stack_top _ _ _ _ _ _ _ G Hv R6) as (f & st & Es & F & HB & Hi). pose proof F as (F1 & F2 & F3 & F4 & F5).
  assert (f_paddr f = p) as Ep by congruence. unfold level_down. rewrite Es, F1, Hi, Ep.
  rewrite (read_valid _ _ _ _ _ _ _ G E), (proj1 Ht).
  destruct (read_child _ _ _ _ _ _ _ G E Ht) as (c & Ec & -> & ->).
  rewrite R2, (proj1 (g_geom _ _ _ _ G)), gfx11_idx, (read_covers _ _ _ _ _ G) by lia. cbn [orf slots].
  pose proof (push_frame _ _ _ _ _ _ _ _ _ _ _ _ _ G Hv R Hl Es Ec F HB Hi) as P. rewrite Es, R2 in P.
  eexists. split; [reflexivity | exact P].
Qed.

Lemma down_create x T rest m l v rem off w p :
  good x T rest m -> in_space v -> ready Create T l v rem off w -> (l < 3)%nat ->
  T !! (l, v / covers l / 512) = Some p -> entry_valid (word (phys m) (slot_addr p (v / covers l))) = false ->
  may_write x l (v / covers l) ->
  level_down w m = inr NoTablePage \/
  exists w' m' T', level_down w m = inl (w', m') /\ ready Create T' (S l) v rem off w' /\
    good (Some (S l, v / covers l)) T' rest m' /\ config m' = config m /\
    (forall v' k e, seen T' m' v' k e <-> seen T m v' k e).
Proof using.
  intros G Hv R Hl E Hinv Hx. pose proof R as (R1 & R2 & R3 & R4 & R5 & R6).
  destruct (stack_top _ _ _ _ _ _ _ G Hv R6) as (f & st & Es & F & HB & Hi). pose proof F as (F1 & F2 & F3 & F4 & F5).
  assert (f_paddr f = p) as Ep by congruence. unfold level_down. rewrite Es, F1, Hi, Ep.
  rewrite (read_valid _ _ _ _ _ _ _ G E), Hinv, R1. cbn [is_create negb].
  assert (En : T !! (S l, v / covers l) = None).
  { destruct (T !! (S l, v / covers l)) as [c |] eqn:Ec; [| reflexivity].
    destruct (t_parent _ _ _ _ _ _ _ (g_tree _ _ _ _ G) _ _ _ Ec) as (e & Ee & Hve & _).
    rewrite (slot_word _ _ _ _ _ E) in Ee. injection Ee as <-. congruence. }
  destruct (put_table _ _ _ _ _ _ _ G Hl E En Hx Hinv) as [(m1 & ->) | (c & m1 & m' & -> & -> & G' & C' & S')]; [now left | right].
  set (T' := <[(S l, v / covers l) := c]> T) in *.
  assert (ET : forall k j, (k <= l)%nat -> T' !! (k, j) = T !! (k, j)).
  { intros k j Hk. unfold T'. rewrite lookup_insert_ne; [reflexivity |]. intros [= X _]. lia. }
  assert (E' : T' !! (l, v / covers l / 512) = Some p) by (rewrite ET by lia; exact E).
  assert (Ec : T' !! (S l, v / covers l) = Some c) by apply lookup_insert_eq.
  destruct (t_parent _ _ _ _ _ _ _ (g_tree _ _ _ _ G') _ _ _ Ec) as (e & Ee & Ht).
  rewrite (slot_word _ _ _ _ _ E') in Ee. injection Ee as <-.
  destruct (read_child _ _ _ _ _ _ _ G' E' Ht) as (c' & Ec' & -> & ->). rewrite Ec in Ec'. injection Ec' as <-.
  rewrite R2, (proj1 (g_geom _ _ _ _ G')), gfx11_idx, (read_covers _ _ _ _ _ G') by lia. cbn [orf slots].
  assert (F' : frame T' l (v / covers l / 512) (v / covers l) f) by (repeat split; try assumption; [now rewrite ET | lia | lia]).
  assert (HB' : below T' l (v / covers l / 512) st).
  { apply (below_mono T T'); [| exact HB]. intros k j q Hk Eq. now rewrite ET by lia. }
  assert (R' : ready Create T' l v rem off w).
  { do 5 (split; [assumption |]). exists f, st, (v / covers l / 512). split; [exact Es |]. split; [exact F' |]. split; [exact HB' |]. pose proof (Z.mod_pos_bound (v / covers l) 512). lia. }
  pose proof (push_frame _ _ _ _ _ _ _ _ _ _ _ _ _ G' Hv R' Hl Es Ec F' HB' Hi) as P. rewrite Es, R2, R1 in P.
  eexists _, m', T'. split; [reflexivity |]. auto.
Qed.

Definition read_only (md : WalkMode) T m (v : Z) : Prop :=
  md = Inspect \/ (md = Free /\ exists l e, seen T m v l e).

(** The read-only descent stops at the first slot that is no table. *)
Lemma descend_read rest md v rem off fuel l x T m w :
  good x T rest m -> in_space v -> ready md T l v rem off w -> read_only md T m v -> (l <= 3)%nat -> (3 - l <= fuel)%nat ->
  exists w' k e, descend fuel w m = inl (w', m) /\ ready md T k v rem off w' /\ (l <= k <= 3)%nat /\
    slot T (phys m) k (v / covers k) = Some e /\ ~ is_table (ip_ver m) k e.
Proof using.
  intros G Hv R Hmd. revert l w R. induction fuel as [| fuel IH]; intros l w R Hl Hf;
    pose proof R as (R1 & R2 & R3 & R4 & R5 & R6);
    destruct (stack_top _ _ _ _ _ _ _ G Hv R6) as (f & st & Es & F & HB & Hi); pose proof F as (F1 & F2 & F3 & F4 & F5);
    set (e := word (phys m) (slot_addr (f_paddr f) (v / covers l)));
    pose proof (slot_word T (phys m) _ _ _ F3) as Ee; fold e in Ee;
    assert (D : descends w f m = inl (entry_valid e && negb (page_bit (ip_ver m) l e)));
    [| | |].
  1, 3: (unfold descends; rewrite R1, F1, Hi; rewrite (read_page _ _ _ _ _ _ _ G F3); fold e;
    destruct Hmd as [-> | [-> (l0 & e0 & V)]];
    [destruct (page_bit _ _ _); [now rewrite andb_false_r | rewrite (read_valid _ _ _ _ _ _ _ G F3); fold e; now rewrite andb_true_r] |];
    enough (Hve : entry_valid e = true) by (now rewrite Hve); apply not_false_iff_true; intros Hve;
    assert (l0 = l) as -> by (apply (view_here _ _ _ _ _ _ _ (g_tree _ _ _ _ G) v l (f_paddr f) Hl F3) with e0; [| exact V];
      intros e1 E1 [Hv1 _]; rewrite Ee in E1; injection E1 as <-; congruence);
    destruct V as (_ & E0 & [Hv0 _]); rewrite Ee in E0; injection E0 as <-; congruence).
  - assert (l = 3%nat) as -> by lia. exists w, 3%nat, e. cbn [descend]. rewrite Es, D. unfold page_bit. cbn [Nat.eqb orb negb].
    rewrite andb_false_r. split; [reflexivity |]. split; [exact R |]. split; [lia |]. split; [exact Ee |]. intros (_ & X & _). lia.
  - cbn [descend]. rewrite Es, D. destruct (entry_valid e) eqn:Hve, (page_bit (ip_ver m) l e) eqn:Hpb; cbn [andb negb].
    2:{ assert (Ht : is_table (ip_ver m) l e).
        { destruct (entry_kind (ip_ver m) (g_ip _ _ _ _ G) l e Hl Hve) as [Ht | Hlf]; [exact Ht |]. apply page_bit_leaf in Hlf. destruct Hlf. congruence. }
        assert (Hl3 : (l < 3)%nat) by apply Ht.
        destruct (down_read _ _ _ _ _ _ _ _ _ _ _ G Hv R Hl3 F3 Ht) as (w' & -> & R').
        destruct (IH (S l) w' R' ltac:(lia) ltac:(lia)) as (w2 & k & e2 & E2 & R2' & Hk & Es2 & Hn).
        exists w2, k, e2. split; [exact E2 |]. split; [exact R2' |]. split; [lia | auto]. }
    all: exists w, l, e; split; [reflexivity |]; split; [exact R |]; split; [lia |]; split; [exact Ee |]; intros Ht;
      pose proof (page_bit_table _ _ _ Ht); destruct Ht as [? _]; congruence.
Qed.

(** No address of [[v, v + rem)] is translated. *)
Definition clear T m (v rem : Z) : Prop := forall v' k e, v <= v' < v + rem -> ~ seen T m v' k e.

Lemma aligned_mask v l : (l <= 3)%nat -> 0 <= v -> (Z.land v (covers l - 1) =? 0) = (v mod covers l =? 0).
Proof using.
  intros Hl Hv. unfold covers. rewrite <- Z.land_ones by lia. now rewrite Z.ones_equiv.
Qed.

(** The creating descent stops at the first level whose entries fit. *)
Lemma descend_create rest v rem off fuel l x T m w :
  good x T rest m -> in_space v -> ready Create T l v rem off w -> may_write x l (v / covers l) ->
  (l <= 3)%nat -> (3 - l <= fuel)%nat -> (4096 | v) -> 4096 <= rem -> clear T m v rem ->
  descend fuel w m = inr NoTablePage \/
  exists w' m' T' x' k, descend fuel w m = inl (w', m') /\ ready Create T' k v rem off w' /\
    good x' T' rest m' /\ may_write x' k (v / covers k) /\ config m' = config m /\
    (forall v' j e, seen T' m' v' j e <-> seen T m v' j e) /\ (k <= 3)%nat /\ covers k <= rem /\ (covers k | v).
Proof using.
  intros G Hv R Hx Hl Hf Ha Hr Hc.
  assert (Hlast : (rem <? covers 3) || negb (v mod covers 3 =? 0) = false).
  { change (covers 3) with 4096. apply Z.mod_divide in Ha; [| lia]. rewrite Ha. now rewrite (proj2 (Z.ltb_ge _ _)) by lia. }
  revert l x T m w G R Hx Hl Hf Hc.
  induction fuel as [| fuel IH]; intros l x T m w G R Hx Hl Hf Hc;
    pose proof R as (R1 & R2 & R3 & R4 & R5 & R6);
    destruct (stack_top _ _ _ _ _ _ _ G Hv R6) as (f & st & Es & F & HB & Hi); pose proof F as (F1 & F2 & F3 & F4 & F5);
    cbn [descend]; rewrite Es; unfold descends; rewrite R1, R2, R3, F2, aligned_mask by (assumption || apply Hv);
    destruct ((rem <? covers l) || negb (v mod covers l =? 0)) eqn:D.
  2, 4: (right; zb; exists w, m, T, x, l; split; [reflexivity |]; split; [exact R |]; split; [exact G |]; split; [exact Hx |];
    split; [reflexivity |]; split; [reflexivity |]; split; [exact Hl |]; split; [lia |]; apply Z.mod_divide; [pose proof (covers_pos l Hl); lia | assumption]).
  - exfalso. assert (l = 3%nat) as -> by lia. congruence.
  - assert (Hl3 : (l < 3)%nat).
    { destruct (decide (l = 3%nat)) as [-> |]; [congruence | lia]. }
    clear D. destruct (entry_valid (word (phys m) (slot_addr (f_paddr f) (v / covers l)))) eqn:Hve.
    + assert (Ht : is_table (ip_ver m) l (word (phys m) (slot_addr (f_paddr f) (v / covers l)))).
      { destruct (entry_kind (ip_ver m) (g_ip _ _ _ _ G) l _ Hl Hve) as [Ht | Hlf]; [exact Ht | exfalso].
        refine (Hc v l (word (phys m) (slot_addr (f_paddr f) (v / covers l))) ltac:(lia) _). split; [exact Hl |]. split; [exact (slot_word _ _ _ _ _ F3) | exact Hlf]. }
      destruct (down_read _ _ _ _ _ _ _ _ _ _ _ G Hv R Hl3 F3 Ht) as (w' & -> & R').
      assert (G' : good None T rest m).
      { destruct Hx as [-> | ->]; [exact G |]. apply (good_settle _ _ _ _ _ _ G F3). right.
        exists ((v / covers l) mod 512). split; [apply Z.mod_pos_bound; lia |]. unfold slot_addr in *. now rewrite Z.mod_mod by lia. }
      apply (IH (S l) None T m w' G' R'); [now left | lia | lia | exact Hc].
    + destruct (down_create _ _ _ _ _ _ _ _ _ _ G Hv R Hl3 F3 Hve Hx) as [-> | (w' & m' & T' & -> & R' & G' & C' & S')]; [now left |].
      destruct (IH (S l) _ T' m' w' G' R') as [-> | (w2 & m2 & T2 & x2 & k & E2 & K1 & K2 & K3 & K4 & K5 & K6)];
        [right; now rewrite slot_up by exact Hl3 | lia | lia | | now left |].
      { intros v' j e Hr' Vs. apply S' in Vs. exact (Hc v' j e Hr' Vs). }
      right. exists w2, m2, T2, x2, k. split; [exact E2 |]. split; [exact K1 |]. split; [exact K2 |]. split; [exact K3 |].
      split; [congruence |]. split; [intros; rewrite K5; apply S' | exact K6].
Qed.

(** ** Steps of the walk *)

(** A walk that has yielded [n] entries from [v] on. *)
Definition yielded (md : WalkMode) T (l : nat) (v rem off n : Z) (w : Walk) : Prop :=
  mode w = md /\ vaddr w = v /\ w_size w = rem /\ w_off w = off /\ pending w = Some (n, covers l) /\ 1 <= n /\
  exists f st, stack w = f :: st /\ frame T l (v / covers l / 512) (v / covers l) f /\
    below T l (v / covers l / 512) st /\ pte_idx f + n <= 512.

Lemma advance_ready md T l v rem off w m : ready md T l v rem off w -> advance w m = inl (w, m).
Proof using. intros (_ & _ & _ & _ & R5 & _). unfold advance. now rewrite R5. Qed.

Lemma covers_le l : covers l <= 2 ^ 39.
Proof using.
  unfold covers. destruct (Z.le_gt_cases 0 (39 - 9 * Z.of_nat l)) as [H0 | H0]; [apply Z.pow_le_mono_r; lia |].
  rewrite Z.pow_neg_r by lia. lia.
Qed.

Lemma advance_ok md x T rest m l v rem off n w :
  good x T rest m -> yielded md T l v rem off n w -> top_empty md x l (v / covers l / 512) -> in_space v -> 0 <= off < 2 ^ 62 ->
  exists w' m' T' l', advance w m = inl (w', m') /\
    ready md T' l' (v + n * covers l) (Z.max 0 (rem - n * covers l)) (off + n * covers l) w' /\
    good None T' rest m' /\ config m' = config m /\ T' ⊆ T /\ (forall v' k e, seen T' m' v' k e <-> seen T m v' k e).
Proof using.
  intros G (Y1 & Y2 & Y3 & Y4 & Y5 & Hn & f & st & Es & F & HB & Hidx) Hx [Hv0 Hv1] Hoff.
  pose proof F as (F1 & F2 & F3 & F4 & F5). destruct (frame_key _ _ _ _ _ _ _ _ G F) as (Hl & _ & _).
  pose proof (covers_pos l Hl) as Hc. pose proof (covers_le l) as Hc'.
  assert (HM : 0 <= n * covers l <= 512 * 2 ^ 39) by nia.
  unfold advance. rewrite Y5, Y4, Y2, !try_u64_ok by lia. cbn [orf]. rewrite Es, Y1.
  assert (Hs : (v + n * covers l) / covers l = v / covers l + n) by (rewrite Z.div_add by lia; reflexivity).
  destruct (level_up_ok md (v + n * covers l) l x T rest m (v / covers l / 512) (bump n f) st) as
    (st' & m' & T' & l' & -> & C' & G' & S' & Z' & P'); try assumption.
  { do 3 (split; [assumption |]). cbn [pte_idx bump]. rewrite Hs. lia. }
  eexists _, m', T', l'. split; [reflexivity |]. split.
  - unfold ready. cbn. rewrite Y3. auto 10.
  - auto.
Qed.

(** The entries a step takes. *)
Definition step_count (md : WalkMode) (l : nat) (v rem : Z) : Z :=
  Z.max (Z.min (rem / covers l) (slots l - (v / covers l) mod 512)) (match md with Inspect => 1 | _ => 0 end).

Lemma step_count_bounds md l v rem :
  (l <= 3)%nat -> in_space v -> 0 < rem -> v + rem <= 2 ^ 48 -> (md <> Inspect -> covers l <= rem) ->
  let n := step_count md l v rem in
  1 <= n /\ (v / covers l) mod 512 + n <= 512 /\ n <= Z.max 1 (rem / covers l) /\ (md <> Inspect -> n * covers l <= rem).
Proof using.
  intros Hl [Hv0 Hv1] Hr He Hmd n. pose proof (covers_pos l Hl) as Hc. pose proof (Z.mod_pos_bound (v / covers l) 512 ltac:(lia)) as Hi.
  assert (Hq : md <> Inspect -> 1 <= rem / covers l) by (intros N; apply Z.div_le_lower_bound; [lia |]; specialize (Hmd N); lia).
  assert (Hs : (v / covers l) mod 512 + 1 <= slots l) by (destruct l; cbn [slots]; lia).
  assert (H512 : Z.min (rem / covers l) (slots l - (v / covers l) mod 512) + (v / covers l) mod 512 <= 512).
  { destruct l as [| k]; cbn [slots]; [| lia].
    assert (v / covers 0 < 512) by (apply Z.div_lt_upper_bound; [reflexivity |]; change (covers 0 * 512) with (2 ^ 48); lia).
    assert (0 <= v / covers 0) by (apply Z.div_pos; lia). rewrite (Z.mod_small (v / covers 0)) by lia.
    enough (v / covers 0 + rem / covers 0 <= 512) by lia.
    pose proof (Z.mul_div_le v (covers 0) ltac:(lia)). pose proof (Z.mul_div_le rem (covers 0) ltac:(lia)).
    change (2 ^ 48) with (512 * covers 0) in He. nia. }
  assert (Hfl : 0 <= (match md with Inspect => 1 | _ => 0 end) <= 1) by (destruct md; lia).
  assert (Hrd : 0 <= rem / covers l) by (apply Z.div_pos; lia). pose proof (Z.mul_div_le rem (covers l) ltac:(lia)) as Hm.
  unfold n, step_count. destruct md; [| specialize (Hq ltac:(discriminate)) ..]; split_and!; try lia; try congruence; intros _; nia.
Qed.

Lemma walk_next_yield md x T rest m0 w0 w1 m1 m l v rem off w :
  advance w0 m0 = inl (w1, m1) -> w_size w1 = rem -> 0 < rem -> (geom m1 = Geometry.gfx11) ->
  descend 4 w1 m1 = inl (w, m) -> good x T rest m -> ready md T l v rem off w ->
  in_space v -> v + rem <= 2 ^ 48 -> (md <> Inspect -> covers l <= rem) ->
  let n := step_count md l v rem in
  exists w' p, T !! (l, v / covers l / 512) = Some p /\ (l <= 3)%nat /\
    walk_next w0 m0 = inl (Some (mkStep off p l ((v / covers l) mod 512) n (covers l) v), w', m) /\
    yielded md T l v rem off n w'.
Proof using.
  intros Ea Er Hr Hg Ed G R Hv He Hmd n. pose proof R as (R1 & R2 & R3 & R4 & R5 & R6).
  destruct (stack_top _ _ _ _ _ _ _ G Hv R6) as (f & st & Es & F & HB & Hi). pose proof F as (F1 & F2 & F3 & F4 & F5).
  destruct (frame_key _ _ _ _ _ _ _ _ G F) as (Hl & _ & _).
  destruct (step_count_bounds md l v rem Hl Hv Hr He Hmd) as (N1 & N2 & N3 & N4). fold n in N1, N2, N3, N4.
  unfold walk_next. rewrite Ea, Er, (proj2 (Z.eqb_neq _ _)) by lia.
  rewrite Hg. change (Geometry.level_cnt Geometry.gfx11) with 4%nat. rewrite Ed, Es, F1, (read_cnt _ _ _ _ _ G Hl).
  rewrite Hi, F2, R1, R2, R3, R4. pose proof (Z.mod_pos_bound (v / covers l) 512 ltac:(lia)) as Hm.
  rewrite try_u64_ok by (destruct l; cbn [slots]; lia). cbn [orf]. fold (step_count md l v rem). fold n.
  rewrite (proj2 (Z.leb_gt _ _)) by lia. eexists _, (f_paddr f). split; [exact F3 |]. split; [exact Hl |]. split; [reflexivity |].
  unfold yielded. cbn. repeat (split; [reflexivity || assumption |]).
  exists f, st. split; [reflexivity |]. split; [exact F |]. split; [exact HB | lia].
Qed.

(** ** The pass that checks *)

Lemma for_range_ok {S} (f : Z -> S -> S + Panic) (P : Z -> S -> Prop) n o s :
  P o s -> (forall i s, o <= i < o + Z.of_nat n -> P i s -> exists s', f i s = inl s' /\ P (i + 1) s') ->
  exists s', for_range n o f s = inl s' /\ P (o + Z.of_nat n) s'.
Proof using.
  revert o s. induction n as [| n IH]; intros o s HP Hf; cbn [for_range].
  - exists s. split; [reflexivity |]. now rewrite Z.add_0_r.
  - destruct (Hf o s ltac:(lia) HP) as (s1 & -> & H1).
    destruct (IH (o + 1) s1 H1) as (s2 & -> & H2); [intros i s' Hi; apply Hf; lia |].
    exists s2. split; [reflexivity |]. replace (o + Z.of_nat (Datatypes.S n)) with (o + 1 + Z.of_nat n) by lia. exact H2.
Qed.

Lemma slot_range c v s : 0 < c -> v / c = s <-> s * c <= v < (s + 1) * c.
Proof using.
  intros Hc. split.
  - intros <-. pose proof (Z.div_mod v c ltac:(lia)). pose proof (Z.mod_pos_bound v c Hc). lia.
  - intros Hv. symmetry. apply (Z.div_unique_pos _ _ _ (v - s * c)); lia.
Qed.

Lemma slot_within c q n u :
  0 < c -> q * c <= u < q * c + n * c -> q * c <= u / c * c /\ (u / c + 1) * c <= q * c + n * c.
Proof using.
  intros Hc [H1 H2]. assert (q <= u / c) by (apply Z.div_le_lower_bound; lia).
  assert (u / c < q + n) by (apply Z.div_lt_upper_bound; lia).
  split; [apply Z.mul_le_mono_nonneg_r; lia |]. rewrite <- Z.mul_add_distr_r. apply Z.mul_le_mono_nonneg_r; lia.
Qed.

(** The slots of one table from [v]'s on. *)
Lemma slot_offset l v o :
  0 <= o -> (v / covers l) mod 512 + o < 512 ->
  (v / covers l + o) / 512 = v / covers l / 512 /\ (v / covers l + o) mod 512 = (v / covers l) mod 512 + o.
Proof using.
  intros Ho Hm. pose proof (Z.mod_pos_bound (v / covers l) 512 ltac:(lia)). pose proof (Z.div_mod (v / covers l) 512 ltac:(lia)).
  split; symmetry; [apply (Z.div_unique_pos _ _ _ ((v / covers l) mod 512 + o)) | apply (Z.mod_unique_pos _ _ (v / covers l / 512))]; lia.
Qed.

(** A slot whose addresses are not translated is neither a leaf nor, unless exempt, a table. *)
Lemma clear_slot x T rest m l s p :
  good x T rest m -> T !! (l, s / 512) = Some p -> (forall k n, x = Some (k, n) -> (k <= l)%nat) ->
  (forall v k e, v / covers l = s -> ~ seen T m v k e) ->
  T !! (S l, s) = None /\ entry_valid (word (phys m) (slot_addr p s)) = false.
Proof using.
  intros G E Hx Hc. pose proof (g_tree _ _ _ _ G) as HT. destruct (t_key _ _ _ _ _ _ _ HT _ _ _ E) as (Hl & _).
  assert (En : T !! (S l, s) = None).
  { destruct (T !! (S l, s)) as [c |] eqn:Ec; [exfalso | reflexivity].
    destruct (table_has_leaf _ _ _ _ (g_ip _ _ _ _ G) _ _ _ HT l s c Ec Hx) as (v & k & e & Hs & V). exact (Hc v k e Hs V). }
  split; [exact En |]. apply not_true_iff_false. intros Hve.
  pose proof (slot_word T (phys m) _ _ _ E) as Es.
  destruct (entry_kind (ip_ver m) (g_ip _ _ _ _ G) l _ Hl Hve) as [Ht | Hlf].
  - rewrite (t_table _ _ _ _ _ _ _ HT _ _ _ Es Ht) in En. discriminate.
  - refine (Hc (s * covers l) l _ (slot_start s l Hl) _). split; [exact Hl |]. rewrite slot_start by exact Hl. split; [exact Es | exact Hlf].
Qed.

Lemma check_free_ok T rest m l v rem off p n :
  good None T rest m -> T !! (l, v / covers l / 512) = Some p -> in_space v ->
  1 <= n -> (v / covers l) mod 512 + n <= 512 -> n <= Z.max 1 (rem / covers l) -> clear T m v rem -> 0 < rem ->
  (forall e, slot T (phys m) l (v / covers l) = Some e -> ~ is_table (ip_ver m) l e) ->
  check_free (mkStep off p l ((v / covers l) mod 512) n (covers l) v) m = inl m.
Proof using.
  intros G E [Hv0 _] Hn Hidx Hnr Hc Hr He. pose proof (g_tree _ _ _ _ G) as HT.
  destruct (t_key _ _ _ _ _ _ _ HT _ _ _ E) as (Hl & _). pose proof (covers_pos l Hl) as Hcp.
  unfold check_free. cbn [entries pt_paddr s_idx].
  destruct (for_range_ok (fun o m0 => let! v0 := pt_valid p ((v / covers l) mod 512 + o) m0 in if v0 then inr AlreadyMapped else inl m0)
    (fun _ m0 => m0 = m) (Z.to_nat n) 0 m eq_refl) as (m' & -> & ->); [| reflexivity].
  intros o m0 Ho ->. destruct (slot_offset l v o ltac:(lia) ltac:(lia)) as [D M].
  assert (E' : T !! (l, (v / covers l + o) / 512) = Some p) by now rewrite D.
  rewrite <- M, (read_valid _ _ _ _ _ _ _ G E').
  enough (Hinv : entry_valid (word (phys m) (slot_addr p (v / covers l + o))) = false) by (rewrite Hinv; eauto).
  destruct (Z.eq_dec o 0) as [-> | No].
  - rewrite Z.add_0_r in *. apply not_true_iff_false. intros Hve.
    pose proof (slot_word T (phys m) _ _ _ E) as Es.
    destruct (entry_kind (ip_ver m) (g_ip _ _ _ _ G) l _ Hl Hve) as [Ht | Hlf]; [exact (He _ Es Ht) |].
    refine (Hc v l _ ltac:(lia) _). split; [exact Hl |]. split; [exact Es | exact Hlf].
  - refine (proj2 (clear_slot _ _ _ _ _ _ _ G E' ltac:(discriminate) _)). intros u k e Hu V. refine (Hc u k e _ V).
    pose proof (Z.div_mod u (covers l) ltac:(lia)). pose proof (Z.mod_pos_bound u (covers l) ltac:(lia)).
    pose proof (Z.div_mod v (covers l) ltac:(lia)). pose proof (Z.mod_pos_bound v (covers l) ltac:(lia)).
    pose proof (Z.mul_div_le rem (covers l) ltac:(lia)). nia.
Qed.

(** A walk about to take a step. *)
Definition walking (md : WalkMode) T rest (l : nat) (v rem off : Z) (w : Walk) m (w1 : Walk) m1 : Prop :=
  advance w m = inl (w1, m1) /\ ready md T l v rem off w1 /\ good None T rest m1.

Lemma fuel_step rem n l fuel :
  (l <= 3)%nat -> (4096 | rem) -> 0 < rem -> 1 <= n -> rem / 4096 < Z.of_nat (Datatypes.S fuel) ->
  (4096 | Z.max 0 (rem - n * covers l)) /\ Z.max 0 (rem - n * covers l) / 4096 < Z.of_nat fuel /\ (0 < fuel)%nat.
Proof using.
  intros Hl [a ->] Hr Hn Hf. destruct (covers_page l Hl) as [c Hc]. pose proof (covers_pos l Hl). rewrite Hc in *.
  rewrite Z.div_mul in Hf by lia. replace (Z.max 0 (a * 4096 - n * (c * 4096))) with (Z.max 0 (a - n * c) * 4096) by lia.
  rewrite Z.div_mul by lia. split; [now exists (Z.max 0 (a - n * c)) |]. split; nia.
Qed.

Lemma inspect_ok fuel T rest l v rem off w m w1 m1 :
  walking Inspect T rest l v rem off w m w1 m1 -> clear T m1 v rem ->
  (0 < rem -> in_space v /\ v + rem <= 2 ^ 48 /\ 0 <= off /\ off + rem < 2 ^ 61) ->
  0 <= rem -> (4096 | rem) -> rem / 4096 < Z.of_nat fuel ->
  exists w' m' T', walk_all fuel check_free w m = inl (w', m') /\ good None T' rest m' /\ config m' = config m1 /\
    (forall v' k e, seen T' m' v' k e <-> seen T m1 v' k e).
Proof using.
  revert T l v rem off w m w1 m1. induction fuel as [| fuel IH]; intros T l v rem off w m w1 m1 (Ea & R & G) Hc Hsp Hr Ha Hf.
  { pose proof (Z.div_pos rem 4096). lia. }
  cbn [walk_all]. pose proof R as (_ & _ & R3 & _ & _ & (f0 & st0 & n0 & _ & F0 & _)). destruct (Z.eq_dec rem 0) as [-> | Nr].
  { unfold walk_next. rewrite Ea, R3. cbn. exists w1, m1, T. split; [reflexivity |]. split; [exact G |]. split; reflexivity. }
  destruct (Hsp ltac:(lia)) as (Hv & Hend & Ho & Ho'). destruct (frame_key _ _ _ _ _ _ _ _ G F0) as (Hl & _).
  destruct (descend_read rest Inspect v rem off 4 l None T m1 w1 G Hv R (or_introl eq_refl) Hl ltac:(lia))
    as (w2 & k & e & Ed & Rk & Hk & Ee & He).
  destruct (walk_next_yield Inspect None T rest m w w1 m1 m1 k v rem off w2 Ea R3 ltac:(lia) (proj1 (g_geom _ _ _ _ G)) Ed G Rk
    Hv Hend ltac:(congruence)) as (w3 & p & Ep & Hk3 & -> & Y).
  destruct (step_count_bounds Inspect k v rem Hk3 Hv ltac:(lia) Hend ltac:(congruence)) as (N1 & N2 & N3 & _).
  set (n := step_count Inspect k v rem) in *.
  rewrite (check_free_ok T rest m1 k v rem off p n G Ep Hv N1 N2 N3 Hc ltac:(lia)).
  2:{ intros e0 E0. rewrite Ee in E0. injection E0 as <-. exact He. }
  destruct (advance_ok _ _ _ _ _ _ _ _ _ _ _ G Y (or_introl eq_refl) Hv ltac:(lia)) as (w4 & m4 & T4 & l4 & E4 & R4 & G4 & C4 & Z4 & S4).
  destruct (fuel_step rem n k fuel Hk3 Ha ltac:(lia) N1 Hf) as (F1 & F2 & _). pose proof (covers_pos k Hk3).
  destruct (IH T4 l4 _ _ _ w3 m1 w4 m4 (conj E4 (conj R4 G4))) as (w5 & m5 & T5 & E5 & G5 & C5 & S5); try assumption; try lia.
  - intros v' j e' Hv' V. apply S4 in V. refine (Hc v' j e' _ V). nia.
  - intros Hpos. destruct Hv. unfold in_space. nia.
  - exists w5, m5, T5. split; [exact E5 |]. split; [exact G5 |]. split; [congruence |]. intros. now rewrite S5, S4.
Qed.

(** ** The pass that maps *)

(** The address stored for [v], as an entry above [lo] gives it. *)
Definition translates T m (v lo a : Z) : Prop :=
  exists k e, seen T m v k e /\ lo <= entry_paddr e /\ a = entry_paddr e + v mod covers k.

(** The leaves that translate [[lo, hi)] lie inside it. *)
Definition whole T m (lo hi : Z) : Prop :=
  forall u k e, lo <= u < hi -> seen T m u k e -> lo <= u / covers k * covers k /\ (u / covers k + 1) * covers k <= hi.

Lemma whole_nil T m v : whole T m v v.
Proof using. intros u k e Hu. lia. Qed.

Lemma whole_app T m T' m' a b c :
  a <= b <= c -> (forall u k e, a <= u < b -> (seen T' m' u k e <-> seen T m u k e)) -> whole T m a b -> whole T' m' b c -> whole T' m' a c.
Proof using.
  intros Hab Hs W W' u k e Hu V. destruct (Z.lt_ge_cases u b) as [L | L].
  - apply Hs in V; [| lia]. specialize (W u k e ltac:(lia) V). lia.
  - specialize (W' u k e ltac:(lia) V). lia.
Qed.

Lemma write_leaves_ok x T rest m l v rem off p n paddr uncached system snooped :
  good x T rest m -> T !! (l, v / covers l / 512) = Some p -> in_space v -> may_write x l (v / covers l) ->
  1 <= n -> (v / covers l) mod 512 + n <= 512 -> n * covers l <= rem -> clear T m v rem -> (covers l | v) ->
  0 <= paddr -> 0 <= off < 2 ^ 61 -> (4096 | stored_addr m system paddr + off) ->
  0 <= stored_addr m system paddr + off -> stored_addr m system paddr + off + n * covers l <= 2 ^ 48 -> paddr <= 2 ^ 48 ->
  exists m', write_leaves paddr uncached system snooped (mkStep off p l ((v / covers l) mod 512) n (covers l) v) m = inl m' /\
    good None T rest m' /\ config m' = config m /\
    (forall v' k e, ~ (v <= v' < v + n * covers l) -> (seen T m' v' k e <-> seen T m v' k e)) /\
    (forall v', v <= v' < v + n * covers l -> translates T m' v' (stored_addr m system paddr + off) (stored_addr m system paddr + off + (v' - v))) /\
    (forall v' k e, v <= v' < v + n * covers l -> seen T m' v' k e -> k = l).
Proof using.
  intros G E [Hv0 Hv1] Hx Hn Hidx Hrem Hc [q Hq] Hp Hoff [a Ha] Hst Hmax Hpmax.
  destruct (t_key _ _ _ _ _ _ _ (g_tree _ _ _ _ G) _ _ _ E) as (Hl & _). pose proof (covers_pos l Hl) as Hcp.
  destruct (covers_page l Hl) as [c Hcc].
  unfold write_leaves. cbn [vaddr_at_yield s_off entries s_covers s_lv pt_paddr s_idx]. rewrite try_u64_ok by lia. cbn [orf].
  assert (Hq' : v / covers l = q) by (rewrite Hq; apply Z.div_mul; lia).
  set (P := fun o m0 => exists x0, good x0 T rest m0 /\ may_write x0 l (v / covers l) /\ config m0 = config m /\
    (0 < o -> x0 = None) /\
    (forall v' k e, ~ (v <= v' < v + o * covers l) -> (seen T m0 v' k e <-> seen T m v' k e)) /\
    (forall v', v <= v' < v + o * covers l -> translates T m0 v' (stored_addr m system paddr + off) (stored_addr m system paddr + off + (v' - v))) /\
    (forall v' k e, v <= v' < v + o * covers l -> seen T m0 v' k e -> k = l)).
  match goal with |- context [for_range _ _ ?f _] => destruct (for_range_ok f P (Z.to_nat n) 0 m) as (m' & -> & HP) end.
  { exists x. split; [exact G |]. split; [exact Hx |]. split; [reflexivity |]. split; [lia |]. split; [reflexivity |]. split; intros; lia. }
  2:{ rewrite Z2Nat.id in HP by lia. destruct HP as (x0 & G0 & _ & C0 & X0 & S0 & T0 & K0). exists m'. split; [reflexivity |].
      rewrite (X0 ltac:(lia)) in G0. rewrite Z.add_0_l in S0, T0, K0. auto. }
  intros o m0 Ho (x0 & G0 & Hx0 & C0 & _ & S0 & T0 & K0). rewrite Z2Nat.id in Ho by lia.
  destruct (slot_offset l v o ltac:(lia) ltac:(lia)) as [D M].
  assert (E' : T !! (l, (v / covers l + o) / 512) = Some p) by now rewrite D.
  assert (Hoc : o * covers l + covers l <= n * covers l) by nia.
  assert (Hin : forall v', v' / covers l = v / covers l + o <-> v + o * covers l <= v' < v + (o + 1) * covers l).
  { intros v'. rewrite slot_range, Hq' by lia. rewrite Hq. clear. lia. }
  assert (En : T !! (S l, v / covers l + o) = None).
  { apply (clear_slot x0 T rest m0 l _ p G0 E').
    - intros k j Ek. destruct Hx0 as [-> | ->]; [discriminate |]. injection Ek as <- _. lia.
    - intros v' k e Hv' V. apply Hin in Hv'. rewrite S0 in V by lia. refine (Hc v' k e _ V). lia. }
  assert (Emc : forall a0, stored_addr m0 system a0 = stored_addr m system a0).
  { intros a0. unfold config in C0. injection C0. intros. unfold stored_addr. destruct system; congruence. }
  assert (Est : stored_addr m0 system (paddr + off + o * covers l) = stored_addr m system paddr + off + o * covers l)
    by (rewrite Emc; unfold stored_addr; destruct system; lia).
  rewrite try_u64_ok by lia. cbn [orf]. rewrite <- M.
  destruct (put_leaf x0 T rest m0 l (v / covers l + o) p (paddr + off + o * covers l) uncached system snooped
    (frag_size (v + off) (n * covers l)) G0 E' En) as (e & m1 & -> & G1 & C1 & Ep & S1).
  { unfold may_write in *. now rewrite D. }
  { rewrite Est. split; [lia |]. rewrite Ha, Hcc. replace (a * 4096 + o * (c * 4096)) with ((a + o * c) * 4096) by lia. now apply Z.mod_mul. }
  exists m1. split; [reflexivity |]. exists None. split; [exact G1 |]. split; [now left |]. split; [congruence |]. split; [reflexivity |].
  split; [| split].
  - intros v' k e' Hv'. rewrite S1, decide_False; [apply S0; lia |]. rewrite Hin. lia.
  - intros v' Hv'. unfold translates. destruct (decide (v' / covers l = v / covers l + o)) as [Hs | Hs].
    + exists l, e. rewrite S1, decide_True by exact Hs. split; [now split |]. rewrite Ep, Est. split; [lia |].
      pose proof (Z.div_mod v' (covers l) ltac:(lia)). rewrite Hs, Hq' in *. lia.
    + destruct (T0 v') as (k & e' & V & Hk); [rewrite Hin in Hs; lia |]. exists k, e'. split; [| exact Hk].
      rewrite S1, decide_False by exact Hs. exact V.
  - intros v' k e' Hv' V. rewrite S1 in V. case_decide as Hs; [now destruct V |]. apply (K0 v' k e'); [rewrite Hin in Hs; lia | exact V].
Qed.

(** One segment, from wherever the last one ended. *)
Lemma segment_ok fuel T rest l v rem off w m w1 m1 paddr uncached system snooped :
  walking Create T rest l v rem off w m w1 m1 -> clear T m1 v rem -> (0 < rem -> in_space v) -> v + rem <= 2 ^ 48 ->
  0 <= rem -> (4096 | rem) -> (4096 | v) -> rem / 4096 < Z.of_nat fuel -> 0 <= off -> off + rem < 2 ^ 61 ->
  0 <= paddr <= 2 ^ 48 -> (4096 | stored_addr m1 system paddr + off) -> 0 <= stored_addr m1 system paddr + off ->
  stored_addr m1 system paddr + off + rem <= 2 ^ 48 ->
  walk_all fuel (write_leaves paddr uncached system snooped) w m = inr NoTablePage \/
  exists w' m' T' l', walk_all fuel (write_leaves paddr uncached system snooped) w m = inl (w', m') /\
    ready Create T' l' (v + rem) 0 (off + rem) w' /\ good None T' rest m' /\ config m' = config m1 /\
    (forall v' k e, ~ (v <= v' < v + rem) -> (seen T' m' v' k e <-> seen T m1 v' k e)) /\
    (forall v', v <= v' < v + rem -> translates T' m' v' (stored_addr m1 system paddr + off) (stored_addr m1 system paddr + off + (v' - v))) /\
    whole T' m' v (v + rem).
Proof using.
  revert T l v rem off w m w1 m1.
  induction fuel as [| fuel IH]; intros T l v rem off w m w1 m1 (Ea & R & G) Hc Hsp Hend Hr Ha Hva Hf Ho Ho' Hp Hsa Hs0 Hs1.
  { pose proof (Z.div_pos rem 4096). lia. }
  cbn [walk_all]. pose proof R as (_ & _ & R3 & _ & _ & (f0 & st0 & n0 & _ & F0 & _)). destruct (Z.eq_dec rem 0) as [-> | Nr].
  { right. unfold walk_next. rewrite Ea, R3. cbn. exists w1, m1, T, l. rewrite !Z.add_0_r. split; [reflexivity |].
    split; [exact R |]. split; [exact G |]. split; [reflexivity |]. split; [reflexivity |]. split; [intros; lia | apply whole_nil]. }
  specialize (Hsp ltac:(lia)). destruct (frame_key _ _ _ _ _ _ _ _ G F0) as (Hl & _).
  assert (Hr4 : 4096 <= rem) by (destruct Ha as [a ->]; lia).
  destruct (descend_create rest v rem off 4 l None T m1 w1 G Hsp R (or_introl eq_refl) Hl ltac:(lia) Hva Hr4 Hc)
    as [Ed | (w2 & m2 & T2 & x2 & k & Ed & Rk & G2 & Hx2 & C2 & S2 & Hk3 & Hck & Hvk)].
  { left. unfold walk_next. rewrite Ea, R3, (proj2 (Z.eqb_neq _ _)), (proj1 (g_geom _ _ _ _ G)) by lia.
    change (Geometry.level_cnt Geometry.gfx11) with 4%nat. now rewrite Ed. }
  destruct (walk_next_yield Create x2 T2 rest m w w1 m1 m2 k v rem off w2 Ea R3 ltac:(lia) (proj1 (g_geom _ _ _ _ G)) Ed G2 Rk
    Hsp Hend (fun _ => Hck)) as (w3 & p & Ep & _ & -> & Y).
  destruct (step_count_bounds Create k v rem Hk3 Hsp ltac:(lia) Hend (fun _ => Hck)) as (N1 & N2 & _ & N4).
  specialize (N4 ltac:(discriminate)). set (n := step_count Create k v rem) in *. pose proof (covers_pos k Hk3) as Hcp.
  assert (Emc : forall a0, stored_addr m2 system a0 = stored_addr m1 system a0)
    by (intros a0; injection C2; intros; unfold stored_addr; destruct system; congruence).
  assert (Hc2 : clear T2 m2 v rem) by (intros v' j e Hv' V; apply S2 in V; exact (Hc v' j e Hv' V)).
  destruct (write_leaves_ok x2 T2 rest m2 k v rem off p n paddr uncached system snooped G2 Ep Hsp Hx2 N1 N2 N4 Hc2 Hvk)
    as (m3 & -> & G3 & C3 & O3 & T3 & K3); rewrite ?Emc; try assumption; try lia.
  destruct (advance_ok _ _ _ _ _ _ _ _ _ _ _ G3 Y (or_introl eq_refl) Hsp ltac:(lia)) as (w4 & m4 & T4 & l4 & E4 & R4 & G4 & C4 & _ & S4).
  destruct (fuel_step rem n k fuel Hk3 Ha ltac:(lia) N1 Hf) as (F1 & F2 & _).
  assert (Emc4 : forall a0, stored_addr m4 system a0 = stored_addr m1 system a0).
  { intros a0. assert (C : config m4 = config m1) by congruence. injection C. intros. unfold stored_addr. destruct system; congruence. }
  rewrite Z.max_r in * by lia.
  assert (Hadd : (4096 | n * covers k)) by (destruct (covers_page k Hk3) as [c Hcc]; rewrite Hcc; exists (n * c); lia).
  destruct (IH T4 l4 (v + n * covers k) (rem - n * covers k) (off + n * covers k) w3 m3 w4 m4 (conj E4 (conj R4 G4)))
    as [E5 | (w5 & m5 & T5 & l5 & E5 & R5 & G5 & C5 & O5 & T5' & W5)]; rewrite ?Emc4; try assumption; try lia.
  - intros v' j e Hv' V. apply S4 in V. rewrite O3 in V by lia. refine (Hc2 v' j e _ V). lia.
  - intros Hpos. destruct Hsp. unfold in_space. lia.
  - now apply Z.divide_add_r.
  - replace (stored_addr m1 system paddr + (off + n * covers k)) with (stored_addr m1 system paddr + off + n * covers k) by lia.
    now apply Z.divide_add_r.
  - left. exact E5.
  - right. exists w5, m5, T5, l5. split; [exact E5 |].
    replace (v + rem) with (v + n * covers k + (rem - n * covers k)) by lia.
    replace (off + rem) with (off + n * covers k + (rem - n * covers k)) by lia.
    split; [exact R5 |]. split; [exact G5 |]. split; [congruence |].
    assert (W3 : whole T2 m3 v (v + n * covers k)).
    { intros u j e Hu V. rewrite (K3 u j e Hu V). destruct Hvk as [q Hq]. rewrite Hq in Hu |- *.
      apply slot_within; [lia | exact Hu]. }
    split; [| split].
    + intros v' j e Hv'. rewrite O5 by lia. rewrite S4. rewrite O3 by lia. apply S2.
    + intros v' Hv'. destruct (Z.lt_ge_cases v' (v + n * covers k)) as [L | L].
      * destruct (T3 v' ltac:(lia)) as (j & e & V & Hj). exists j, e. rewrite Emc in Hj. split; [| exact Hj].
        apply O5; [lia |]. now apply S4.
      * destruct (T5' v' ltac:(lia)) as (j & e & V & Hj). exists j, e. split; [exact V |]. rewrite Emc4 in Hj. split; lia.
    + apply (whole_app T2 m3 T5 m5 v (v + n * covers k)); [lia | | exact W3 | exact W5].
      intros u j e Hu. rewrite O5 by lia. apply S4.
Qed.

(** ** Translation *)

Lemma slot_idx l v : (l <= 3)%nat -> in_space v -> (v / covers l) mod slots l = (v / covers l) mod 512.
Proof using.
  intros Hl [Hv0 Hv1]. destruct l as [| k]; cbn [slots]; [| reflexivity].
  assert (v / covers 0 < 512) by (apply Z.div_lt_upper_bound; [reflexivity |]; change (covers 0 * 512) with (2 ^ 48); lia).
  assert (0 <= v / covers 0) by (apply Z.div_pos; [lia | reflexivity]). rewrite !Z.mod_small by lia. reflexivity.
Qed.

(** What [resolve] answers at a leaf. *)
Definition leaf_address m (v : Z) (k : nat) (e : Z) : option Z + Panic :=
  let! child := orf (try_u64 (entry_paddr e - mc_base m)) in
  let! p := orf (try_u64 (child + v mod covers k)) in inl (Some p).

Lemma resolve_from_ok x T rest m v fuel l p :
  good x T rest m -> in_space v -> (l <= 3)%nat -> (3 - l < fuel)%nat -> T !! (l, v / covers l / 512) = Some p ->
  (exists k e, seen T m v k e /\ resolve_from fuel l p v m = leaf_address m v k e) \/
  ((forall k e, ~ seen T m v k e) /\ resolve_from fuel l p v m = inl None).
Proof using.
  intros G Hv. pose proof (g_tree _ _ _ _ G) as HT. revert l p. induction fuel as [| fuel IH]; intros l p Hl Hf E; [lia |].
  cbn [resolve_from]. rewrite (proj1 (g_geom _ _ _ _ G)), gfx11_idx, slot_idx by assumption. cbn [orf].
  rewrite (read_valid _ _ _ _ _ _ _ G E), (read_page _ _ _ _ _ _ _ G E). pose proof (slot_word T (phys m) _ _ _ E) as Es.
  set (e := word (phys m) (slot_addr p (v / covers l))) in *. destruct (entry_valid e) eqn:Hve; cbn [negb].
  2:{ right. split; [| reflexivity]. intros k e0 V.
      assert (k = l) as -> by (apply (view_here _ _ _ _ _ _ _ HT v l p Hl E) with e0; [intros e1 E1 [X _]; congruence | exact V]).
      destruct V as (_ & E0 & [X _]). congruence. }
  destruct (entry_kind (ip_ver m) (g_ip _ _ _ _ G) l e Hl Hve) as [Ht | Hlf].
  - destruct (read_child _ _ _ _ _ _ _ G E Ht) as (c & Ec & _ & ->). rewrite (page_bit_table _ _ _ Ht).
    assert (Hl3 : (l < 3)%nat) by apply Ht. apply IH; [lia | lia | now rewrite slot_up].
  - left. exists l, e. split; [split; [exact Hl | now split] |].
    pose proof (proj1 (page_bit_leaf _ _ _) Hlf) as [_ ->]. unfold pt_child, leaf_address. rewrite (read_slot _ _ _ _ _ _ _ G E). fold e.
    destruct (orf (try_u64 (entry_paddr e - mc_base m))) as [c |]; [| reflexivity].
    rewrite (read_covers _ _ _ _ _ G Hl). destruct Hv as [Hv0 _]. unfold covers. rewrite <- Z.land_ones by lia. now rewrite Z.ones_equiv.
Qed.

(** The virtual address [u] of the rebased address [v]. *)
Definition rebased m (u v : Z) : Prop := v = u - va_base m /\ in_space v /\ 0 <= va_base m /\ u < 2 ^ 64.

Lemma resolve_found x T rest m u v :
  good x T rest m -> rebased m u v ->
  (exists k e, seen T m v k e /\ resolve u m = leaf_address m v k e) \/
  ((forall k e, ~ seen T m v k e) /\ resolve u m = inl None).
Proof using.
  intros G (-> & Hv & Hb & Hu). unfold resolve. rewrite (proj1 (g_geom _ _ _ _ G)), (proj2 (g_geom _ _ _ _ G)).
  destruct Hv as [Hv0 Hv1] eqn:EHv. rewrite try_u64_ok by lia. cbn [orf].
  apply (resolve_from_ok x T rest m (u - va_base m) 4 0 (root_pt m) G Hv); [lia | lia |].
  rewrite Z.div_small; [exact (t_root _ _ _ _ _ _ _ (g_tree _ _ _ _ G)) |].
  split; [apply Z.div_pos; [lia | reflexivity] |]. apply Z.div_lt_upper_bound; [reflexivity |]. change (covers 0 * 512) with (2 ^ 48). lia.
Qed.

Lemma resolve_none x T rest m u v :
  good x T rest m -> rebased m u v -> resolve u m = inl None <-> (forall k e, ~ seen T m v k e).
Proof using.
  intros G Hr. destruct (resolve_found _ _ _ _ _ _ G Hr) as [(k & e & V & ->) | [Hn ->]].
  - split; [| intros Hn; destruct (Hn k e V)]. unfold leaf_address. destruct (orf _) as [c |]; [| discriminate].
    destruct (orf _); discriminate.
  - split; [intros _; exact Hn | reflexivity].
Qed.

Lemma resolve_same x T rest m x' T' rest' m' u v :
  good x T rest m -> good x' T' rest' m' -> config m' = config m -> rebased m u v ->
  (forall k e, seen T' m' v k e <-> seen T m v k e) -> resolve u m' = resolve u m.
Proof using.
  intros G G' C Hr Hs. assert (Ec : va_base m' = va_base m /\ mc_base m' = mc_base m) by (injection C; auto).
  destruct Ec as [Eb Ec]. assert (Hr' : rebased m' u v) by (unfold rebased in *; now rewrite Eb).
  destruct (resolve_found _ _ _ _ _ _ G Hr) as [(k & e & V & ->) | [Hn ->]].
  - destruct (resolve_found _ _ _ _ _ _ G' Hr') as [(k' & e' & V' & ->) | [Hn' _]].
    + apply Hs in V'. destruct (view_unique _ _ _ _ _ _ _ (g_tree _ _ _ _ G) _ _ _ _ _ V V') as [-> ->].
      unfold leaf_address. now rewrite Ec.
    + apply Hs in V. destruct (Hn' _ _ V).
  - apply (resolve_none _ _ _ _ _ _ G' Hr'). intros k e V. apply Hs in V. exact (Hn _ _ V).
Qed.

Lemma resolve_translates x T rest m u v lo a :
  good x T rest m -> rebased m u v -> translates T m v (lo + mc_base m) (a + mc_base m) -> 0 <= lo -> 0 <= a < 2 ^ 48 ->
  resolve u m = inl (Some a).
Proof using.
  intros G Hr (k & e & V & Hlo & Ea) H0 Ha. destruct (resolve_found _ _ _ _ _ _ G Hr) as [(k' & e' & V' & ->) | [Hn _]]; [| destruct (Hn _ _ V)].
  destruct (view_unique _ _ _ _ _ _ _ (g_tree _ _ _ _ G) _ _ _ _ _ V V') as [<- <-]. unfold leaf_address.
  destruct V as (Hk & _). pose proof (Z.mod_pos_bound v (covers k)). pose proof (covers_pos k Hk).
  rewrite try_u64_ok by lia. cbn [orf]. rewrite try_u64_ok by lia. cbn [orf]. do 2 f_equal. lia.
Qed.

(** ** Mapping a range *)

Lemma new_walk_ok x T rest m u v md :
  good x T rest m -> rebased m u v -> exists w, new_walk u md m = inl w /\ ready md T 0 v 0 0 w.
Proof using.
  intros G (Hv & Hs & Hb & Hu). unfold new_walk. destruct Hs as [Hs0 Hs1] eqn:E. rewrite <- Hv, try_u64_ok by lia. cbn [orf].
  rewrite (proj1 (g_geom _ _ _ _ G)), (proj2 (g_geom _ _ _ _ G)), gfx11_idx, slot_idx, (read_covers _ _ _ _ _ G) by (assumption || lia).
  cbn [orf]. eexists. split; [reflexivity |]. do 5 (split; [reflexivity |]). cbn [stack].
  assert (0 <= v / covers 0 < 512).
  { split; [apply Z.div_pos; [lia | reflexivity] |]. apply Z.div_lt_upper_bound; [reflexivity |]. change (covers 0 * 512) with (2 ^ 48). lia. }
  eexists _, [], 0. split; [reflexivity |]. split; [| split; [now split | auto]].
  rewrite Z.mod_small by lia. split; [reflexivity |]. split; [reflexivity |].
  split; [exact (t_root _ _ _ _ _ _ _ (g_tree _ _ _ _ G)) |]. cbn. lia.
Qed.

Lemma ready_over md T l v rem off w size :
  ready md T l v rem off w -> ready md T l v size 0 (over size 0 w).
Proof using. intros (R1 & R2 & R3 & R4 & R5 & R6). repeat split; assumption. Qed.

(** A physical segment that can back a range. *)
Definition segment m (system : bool) (s : Z * Z) : Prop :=
  0 <= s.1 /\ (4096 | s.1) /\ 0 <= s.2 /\ (4096 | s.2) /\ stored_addr m system s.1 + s.2 <= 2 ^ 48.

(** The segment and offset that back an offset of the range. *)
Fixpoint backing (segs : list (Z * Z)) (off : Z) : option (Z * Z) :=
  match segs with
  | [] => None
  | (p, n) :: segs => if off <? n then Some (p, off) else backing segs (off - n)
  end.

Lemma sum_nonneg m system segs : Forall (segment m system) segs -> 0 <= sum_sizes segs /\ (4096 | sum_sizes segs).
Proof using.
  induction 1 as [| [p n] segs (_ & _ & Hn & Hd & _) _ [IH1 IH2]]; [split; [cbn; lia | apply Z.divide_0_r] |].
  change (sum_sizes ((p, n) :: segs)) with (n + sum_sizes segs). cbn in Hn, Hd. split; [lia | now apply Z.divide_add_r].
Qed.

Lemma write_segments_ok segs uncached system snooped T rest l v off w m :
  ready Create T l v 0 off w -> good None T rest m -> clear T m v (sum_sizes segs) ->
  0 <= v -> v + sum_sizes segs <= 2 ^ 48 -> (4096 | v) -> Forall (segment m system) segs ->
  write_segments segs uncached system snooped w m = inr NoTablePage \/
  exists w' m' T', write_segments segs uncached system snooped w m = inl (w', m') /\
    good None T' rest m' /\ config m' = config m /\
    (forall v' k e, ~ (v <= v' < v + sum_sizes segs) -> (seen T' m' v' k e <-> seen T m v' k e)) /\
    (forall v', v <= v' < v + sum_sizes segs -> exists p o, backing segs (v' - v) = Some (p, o) /\
       translates T' m' v' (stored_addr m system p) (stored_addr m system p + o)) /\
    whole T' m' v (v + sum_sizes segs).
Proof using.
  revert T l v off w m. induction segs as [| [p n] segs IH]; intros T l v off w m R G Hc Hv Hend Hva HF; cbn [write_segments].
  { right. exists w, m, T. split; [reflexivity |]. split; [exact G |]. split; [reflexivity |]. split; [reflexivity |]. cbn. rewrite Z.add_0_r. split; [intros; lia | apply whole_nil]. }
  pose proof HF as HF0. inversion HF as [| ? ? (S1 & S2 & S3 & S4 & S5) HF']; subst. cbn [fst snd] in S1, S2, S3, S4, S5.
  destruct (sum_nonneg m system segs HF') as [Hs Hsd]. change (sum_sizes ((p, n) :: segs)) with (n + sum_sizes segs) in *.
  pose proof (ready_over _ _ _ _ _ _ _ n R) as R1. destruct (g_mc _ _ _ _ G) as [Hmc Hmcd].
  assert (Hst : 0 <= p <= stored_addr m system p /\ (4096 | stored_addr m system p)).
  { unfold stored_addr. destruct system; split; try lia; [assumption | now apply Z.divide_add_r]. }
  destruct (segment_ok (walk_fuel n) T rest l v n 0 (over n 0 w) m (over n 0 w) m p uncached system snooped
    (conj (advance_ready _ _ _ _ _ _ _ m R1) (conj R1 G))) as [-> | (w1 & m1 & T1 & l1 & -> & R2 & G2 & C2 & O2 & I2 & W2)];
    rewrite ?Z.add_0_r; try assumption; try lia; try tauto.
  { intros v' k e Hv' V. refine (Hc v' k e _ V). lia. }
  { intros Hn. split; lia. }
  { unfold walk_fuel. pose proof (Z.div_pos n 4096). lia. }
  assert (Emc : forall a0, stored_addr m1 system a0 = stored_addr m system a0)
    by (intros a0; injection C2; intros; unfold stored_addr; destruct system; congruence).
  destruct (IH T1 l1 (v + n) (0 + n) w1 m1 R2 G2) as [-> | (w3 & m3 & T3 & -> & G3 & C3 & O3 & I3 & W3)]; try lia.
  { intros v' k e Hv' V. rewrite O2 in V by lia. refine (Hc v' k e _ V). lia. }
  { now apply Z.divide_add_r. }
  { eapply Forall_impl; [exact HF' |]. intros s. unfold segment. now rewrite Emc. }
  { now left. }
  right. exists w3, m3, T3. split; [reflexivity |]. split; [exact G3 |]. split; [congruence |]. split; [| split].
  - intros v' k e Hv'. rewrite O3 by lia. apply O2. lia.
  - intros v' Hv'. cbn [backing]. destruct (Z.ltb_spec (v' - v) n) as [L | L].
    + exists p, (v' - v). split; [reflexivity |]. destruct (I2 v' ltac:(lia)) as (k & e & V & Hk). exists k, e.
      rewrite Z.add_0_r in Hk. split; [apply O3; [lia | exact V] | exact Hk].
    + destruct (I3 v' ltac:(lia)) as (p' & o & Eb & Ht). exists p', o. rewrite Emc in Ht. split; [| exact Ht].
      now replace (v' - v - n) with (v' - (v + n)) by lia.
  - rewrite Z.add_assoc in *. apply (whole_app T1 m1 T3 m3 v (v + n)); [lia | | exact W2 | exact W3].
    intros u k e Hu. apply O3. lia.
Qed.
End Walk.
