(* ===== verification/GmmuMap.v ===== *)
(** * Mapping and unmapping ranges

    The specifications of [map_range], [unmap_range] and [resolve]: a mapped
    range translates to its segments, an unmapped one to nothing, and no other
    address is affected.  Then the construction of the manager, and concrete
    runs that show where the code falls short of its comments. *)

From stdpp Require Import gmap.
From S2P Require Import Prelude.
From S2P Require Import Tlsf.
From S2P Require Import PageTable.
From S2P Require Import AmTlsf.
From S2P Require Import Gmmu.
From S2P Require Import GmmuTree.
From S2P Require Import GmmuWalk.

Section Unmap.
Context {A : Type} `{RangeAllocator A}.
Implicit Types (m : MemoryManager (A := A)) (T : tables).

(** Every table of [T] up to level [l] is still there. *)
Definition keeps (l : nat) T T' : Prop := forall k j p, (k <= l)%nat -> T !! (k, j) = Some p -> T' !! (k, j) = Some p.

Lemma yielded_keeps md T T' l v rem off n w : keeps l T T' -> yielded md T l v rem off n w -> yielded md T' l v rem off n w.
Proof using.
  intros K (Y1 & Y2 & Y3 & Y4 & Y5 & Hn & f & st & Es & (F1 & F2 & F3 & F4) & HB & Hidx).
  repeat (split; [assumption |]). exists f, st. split; [exact Es |]. split.
  - split; [exact F1 |]. split; [exact F2 |]. split; [apply K; [lia | exact F3] | exact F4].
  - split; [| exact Hidx]. apply (below_mono T T'); [| exact HB]. intros k j p Hk. apply K. lia.
Qed.

(** An entry that translates addresses, itself or through its tables, is valid. *)
Lemma seen_valid x T rest m l s p u j e :
  good x T rest m -> T !! (l, s / 512) = Some p -> u / covers l = s -> seen T m u j e ->
  entry_valid (word (phys m) (slot_addr p s)) = true.
Proof using.
  intros G E <- V. pose proof (g_tree _ _ _ _ G) as HT. destruct (t_key _ _ _ _ _ _ _ HT _ _ _ E) as (Hl & _).
  pose proof (slot_word T (phys m) _ _ _ E) as Es. pose proof V as (Hj & Ej & Hlf).
  destruct (Nat.lt_trichotomy j l) as [L | [-> | L]].
  - destruct (ancestors _ _ _ _ _ _ _ HT u j l p Hl E L) as (e' & E' & Ht). rewrite Ej in E'. injection E' as <-.
    destruct (not_leaf_table _ _ _ Hlf Ht).
  - rewrite Es in Ej. injection Ej as <-. apply Hlf.
  - destruct (slot_table _ _ _ _ _ Ej) as (q & Eq & _).
    destruct (ancestors _ _ _ _ _ _ _ HT u l j q Hj Eq L) as (e' & E' & Ht). rewrite Es in E'. injection E' as <-. apply Ht.
Qed.

(** The entries of one step cleared: their addresses, and no others, are translated no more. *)
Lemma clear_leaves_ok T rest m l v off p n :
  good None T rest m -> T !! (l, v / covers l / 512) = Some p -> in_space v -> (covers l | v) ->
  1 <= n -> (v / covers l) mod 512 + n <= 512 ->
  (forall u, v <= u < v + n * covers l -> exists k e, seen T m u k e) ->
  exists m' T' lost, clear_leaves (mkStep off p l ((v / covers l) mod 512) n (covers l) v) m = inl m' /\
    good (Some (l, v / covers l / 512)) T' (lost ++ rest) m' /\ config m' = config m /\ T' ⊆ T /\ keeps l T T' /\
    (forall u k e, seen T' m' u k e <-> seen T m u k e /\ ~ (v <= u < v + n * covers l)) /\
    ((forall o, 0 <= o < n -> T !! (S l, v / covers l + o) = None) -> lost = []).
Proof using.
  intros G E [Hv0 Hv1] [q Hq] Hn Hidx Hm.
  destruct (t_key _ _ _ _ _ _ _ (g_tree _ _ _ _ G) _ _ _ E) as (Hl & _). pose proof (covers_pos l Hl) as Hcp.
  assert (Hq' : v / covers l = q) by (rewrite Hq; apply Z.div_mul; lia).
  unfold clear_leaves. cbn [entries pt_paddr s_idx s_lv].
  set (P := fun o m0 => exists x0 T0 lost, good x0 T0 (lost ++ rest) m0 /\ may_write x0 l (v / covers l) /\
    (0 < o -> x0 = Some (l, v / covers l / 512)) /\ config m0 = config m /\ T0 ⊆ T /\ keeps l T T0 /\
    (forall u k e, seen T0 m0 u k e <-> seen T m u k e /\ ~ (v <= u < v + o * covers l)) /\
    ((forall o, 0 <= o < n -> T !! (S l, v / covers l + o) = None) -> lost = [])).
  match goal with |- context [for_range _ _ ?f _] => destruct (for_range_ok f P (Z.to_nat n) 0 m) as (m' & -> & HP) end.
  { exists None, T, []. split; [exact G |]. split; [now left |]. split; [lia |]. split; [reflexivity |]. split; [reflexivity |].
    split; [intros k j p0 _; exact id |]. split; [| reflexivity]. intros u k e. split; [intros V; split; [exact V | lia] | now intros [V _]]. }
  2:{ rewrite Z2Nat.id, Z.add_0_l in HP by lia. destruct HP as (x0 & T0 & lost & G0 & _ & X0 & C0 & Z0 & K0 & S0 & L0).
      rewrite (X0 ltac:(lia)) in G0. exists m', T0, lost. auto 10. }
  intros o m0 Ho (x0 & T0 & lost & G0 & Hx0 & _ & C0 & Z0 & K0 & S0 & L0). rewrite Z2Nat.id in Ho by lia.
  destruct (slot_offset l v o ltac:(lia) ltac:(lia)) as [D M].
  assert (E' : T0 !! (l, (v / covers l + o) / 512) = Some p) by (rewrite D; apply K0; [lia | exact E]).
  assert (Hin : forall u, u / covers l = v / covers l + o <-> v + o * covers l <= u < v + (o + 1) * covers l).
  { intros u. rewrite slot_range, Hq' by lia. rewrite Hq. clear. lia. }
  assert (Hoc : o * covers l + covers l <= n * covers l) by nia.
  rewrite <- M. assert (Hu : v <= v + o * covers l < v + n * covers l) by nia.
  destruct (Hm _ Hu) as (k & e & V).
  assert (V0 : seen T0 m0 (v + o * covers l) k e) by (apply S0; split; [exact V | lia]).
  assert (Hslot : (v + o * covers l) / covers l = v / covers l + o) by (apply Hin; lia).
  rewrite (read_valid _ _ _ _ _ _ _ G0 E'), (seen_valid _ _ _ _ _ _ _ _ _ _ G0 E' Hslot V0).
  destruct (put_clear _ _ _ _ _ _ _ G0 E') as (m1 & lost1 & -> & G1 & C1 & L1 & S1); [unfold may_write in *; now rewrite D |].
  exists m1. split; [reflexivity |]. rewrite D in G1. exists (Some (l, v / covers l / 512)), (prune l (v / covers l + o) T0), (lost1 ++ lost).
  split; [now rewrite <- app_assoc |]. split; [now right |]. split; [reflexivity |]. split; [congruence |].
  split; [etransitivity; [apply map_filter_subseteq | exact Z0] |]. split; [| split].
  - intros k' j p' Hk Ek. rewrite prune_lookup, decide_False; [now apply K0 |]. intros [X _]. cbn in X. lia.
  - intros u k' e'. rewrite S1, S0, Hin. split; [intros [[Vu H1] H2]; split; [exact Vu | lia] | intros [Vu H1]; split; [split; [exact Vu |] |]; lia].
  - intros Hno. rewrite (L0 Hno), app_nil_r. apply L1.
    destruct (T0 !! (S l, v / covers l + o)) as [c |] eqn:Ec; [| reflexivity].
    pose proof (lookup_weaken _ _ _ _ Ec Z0) as Ec'. rewrite (Hno o ltac:(lia)) in Ec'. discriminate.
Qed.

(** No table hangs off a slot that a step from a leaf of [[lo, hi)] would clear. *)
Definition unmixed T m (lo hi : Z) : Prop :=
  forall u k e s c, lo <= u < hi -> seen T m u k e -> T !! (S k, s) = Some c ->
    s / 512 = u / covers k / 512 -> u / covers k < s -> (s + 1) * covers k <= hi -> False.

Lemma unmixed_mono T T' m m' lo lo' hi :
  T' ⊆ T -> lo <= lo' -> (forall u k e, seen T' m' u k e -> seen T m u k e) -> unmixed T m lo hi -> unmixed T' m' lo' hi.
Proof using.
  intros HT Hlo Hs U u k e s c Hu V Ec. apply (U u k e s c); [lia | now apply Hs | exact (lookup_weaken _ _ _ _ Ec HT)].
Qed.

Lemma seen_slot T m u u' k e : u / covers k = u' / covers k -> seen T m u k e <-> seen T m u' k e.
Proof using. intros E. unfold seen, view. now rewrite E. Qed.

Lemma unmap_ok fuel T rest l v rem off w m w1 m1 :
  walking Free T rest l v rem off w m w1 m1 -> (0 < rem -> in_space v) -> v + rem <= 2 ^ 48 ->
  0 <= rem -> (4096 | rem) -> rem / 4096 < Z.of_nat fuel -> 0 <= off -> off + rem < 2 ^ 61 ->
  (forall u, v <= u < v + rem -> exists k e, seen T m1 u k e) -> whole T m1 v (v + rem) ->
  exists w' m' T' lost, walk_all fuel clear_leaves w m = inl (w', m') /\ good None T' (lost ++ rest) m' /\
    config m' = config m1 /\ T' ⊆ T /\
    (forall u k e, seen T' m' u k e <-> seen T m1 u k e /\ ~ (v <= u < v + rem)) /\
    (unmixed T m1 v (v + rem) -> lost = []).
Proof using.
  revert T rest l v rem off w m w1 m1.
  induction fuel as [| fuel IH]; intros T rest l v rem off w m w1 m1 (Ea & R & G) Hsp Hend Hr Ha Hf Ho Ho' Hm Hw.
  { pose proof (Z.div_pos rem 4096). lia. }
  cbn [walk_all]. pose proof R as (_ & _ & R3 & _ & _ & (f0 & st0 & n0 & _ & F0 & _)). destruct (Z.eq_dec rem 0) as [-> | Nr].
  { unfold walk_next. rewrite Ea, R3. cbn. exists w1, m1, T, []. split; [reflexivity |]. split; [exact G |]. split; [reflexivity |].
    split; [reflexivity |]. split; [| reflexivity]. intros u k e. split; [intros V; split; [exact V | lia] | now intros [V _]]. }
  specialize (Hsp ltac:(lia)). destruct (frame_key _ _ _ _ _ _ _ _ G F0) as (Hl & _).
  destruct (Hm v ltac:(lia)) as (k0 & e0 & V0).
  destruct (descend_read rest Free v rem off 4 l None T m1 w1 G Hsp R (or_intror (conj eq_refl (ex_intro _ k0 (ex_intro _ e0 V0)))) Hl
    ltac:(lia)) as (w2 & k & e & Ed & Rk & Hk & Ee & He).
  destruct (slot_table _ _ _ _ _ Ee) as (p0 & Ep0 & _). pose proof (g_tree _ _ _ _ G) as HT.
  assert (k0 = k) as ->.
  { apply (view_here _ _ _ _ _ _ _ HT v k p0 ltac:(lia) Ep0) with e0; [| exact V0]. intros e1 E1. rewrite Ee in E1. now injection E1 as <-. }
  destruct (Hw v k e0 ltac:(lia) V0) as [W1 W2]. pose proof (covers_pos k ltac:(lia)) as Hcp.
  assert (Hvk : (covers k | v)).
  { exists (v / covers k). pose proof (Z.div_mod v (covers k) ltac:(lia)). pose proof (Z.mod_pos_bound v (covers k) ltac:(lia)). lia. }
  assert (Hck : covers k <= rem) by (destruct Hvk as [q Hq]; rewrite Hq, Z.div_mul in W2 by lia; lia).
  destruct (walk_next_yield Free None T rest m w w1 m1 m1 k v rem off w2 Ea R3 ltac:(lia) (proj1 (g_geom _ _ _ _ G)) Ed G Rk
    Hsp Hend (fun _ => Hck)) as (w3 & p & Ep & Hk3 & -> & Y).
  destruct (step_count_bounds Free k v rem Hk3 Hsp ltac:(lia) Hend (fun _ => Hck)) as (N1 & N2 & _ & N4).
  specialize (N4 ltac:(discriminate)). set (n := step_count Free k v rem) in *.
  destruct (clear_leaves_ok T rest m1 k v off p n G Ep Hsp Hvk N1 N2) as (m3 & T3 & lost3 & -> & G3 & C3 & Z3 & K3 & S3 & L3);
    [intros u Hu; apply Hm; lia |].
  destruct (advance_ok _ _ _ _ _ _ _ _ _ _ _ G3 (yielded_keeps _ _ _ _ _ _ _ _ _ K3 Y) (or_intror (conj eq_refl eq_refl)) Hsp ltac:(lia))
    as (w4 & m4 & T4 & l4 & E4 & R4 & G4 & C4 & Z4 & S4).
  destruct (fuel_step rem n k fuel Hk3 Ha ltac:(lia) N1 Hf) as (F1 & F2 & _). rewrite Z.max_r in * by lia.
  assert (S34 : forall u j e', seen T4 m4 u j e' <-> seen T m1 u j e' /\ ~ (v <= u < v + n * covers k)) by (intros; now rewrite S4, S3).
  destruct (IH T4 (lost3 ++ rest) l4 (v + n * covers k) (rem - n * covers k) (off + n * covers k) w3 m3 w4 m4 (conj E4 (conj R4 G4)))
    as (w5 & m5 & T5 & lost5 & E5 & G5 & C5 & Z5 & S5 & L5); try assumption; try lia.
  - intros Hp. destruct Hsp. unfold in_space. lia.
  - intros u Hu. destruct (Hm u ltac:(lia)) as (j & e' & V). exists j, e'. apply S34. split; [exact V | lia].
  - replace (v + n * covers k + (rem - n * covers k)) with (v + rem) by lia. intros u j e' Hu V.
    destruct (proj1 (S34 u j e') V) as [V1 _]. destruct (Hw u j e' ltac:(lia) V1) as [_ X2]. split; [| exact X2].
    destruct (Z.le_gt_cases (v + n * covers k) (u / covers j * covers j)) as [L | L]; [exact L | exfalso].
    assert (Hj : (j <= 3)%nat) by apply V1. pose proof (covers_pos j Hj) as Hcj.
    pose proof (proj1 (slot_range (covers j) u (u / covers j) ltac:(lia)) eq_refl) as Hru.
    assert (Es : (v + n * covers k - 1) / covers j = u / covers j) by (apply slot_range; lia).
    apply (seen_slot T4 m4 _ _ j e' (eq_sym Es)) in V. apply S34 in V as [_ X]. lia.
  - exists w5, m5, T5, (lost5 ++ lost3). split; [exact E5 |]. split; [now rewrite <- app_assoc |]. split; [congruence |].
    split; [do 2 (etransitivity; [eassumption |]); exact Z3 |]. split.
    + intros u j e'. rewrite S5, S34. split; [intros [[V X1] X2]; split; [exact V | lia] | intros [V X]; split; [split; [exact V |] |]; lia].
    + intros U. rewrite L5, L3; [reflexivity | |].
      * intros o Hoo. destruct (T !! (S k, v / covers k + o)) as [c |] eqn:Ec; [exfalso | reflexivity].
        destruct (Z.eq_dec o 0) as [-> | No].
        -- rewrite Z.add_0_r in Ec. destruct (t_parent _ _ _ _ _ _ _ HT _ _ _ Ec) as (e1 & E1 & Ht).
           rewrite Ee in E1. injection E1 as <-. exact (He Ht).
        -- destruct (slot_offset k v o ltac:(lia) ltac:(lia)) as [D _].
           apply (U v k e0 _ _ ltac:(lia) V0 Ec D); [lia |]. destruct Hvk as [q Hq]. rewrite Hq, Z.div_mul in * by lia. nia.
      * replace (v + n * covers k + (rem - n * covers k)) with (v + rem) by lia.
        refine (unmixed_mono T T4 m1 m4 v _ _ _ _ _ U); [now transitivity T3 | lia |]. intros u j e' V. now apply S34 in V.
Qed.
End Unmap.

(** ** The manager *)
Section Manager.
Context {A : Type} `{RangeAllocator A}.
Implicit Types (m : MemoryManager (A := A)) (T : tables).

(** The tables are well formed, and the pool of page-table pages has handed
    out exactly theirs and the [rest]. *)
Definition managed (rest : list (Z * Z)) m : Prop := exists T, good None T rest m.

Definition is_sys (a : AddrSpace) : bool := match a with Sys => true | Phys => false end.

(** A page-aligned range of the space behind [va_base]. *)
Definition range m (u size : Z) : Prop :=
  0 <= va_base m <= u /\ (4096 | u - va_base m) /\ 0 < size /\ (4096 | size) /\ u - va_base m + size <= 2 ^ 48 /\ u + size <= 2 ^ 64.

Definition in_range (u size a : Z) : Prop := u <= a < u + size.
Definition addressable m (a : Z) : Prop := 0 <= va_base m <= a /\ a < va_base m + 2 ^ 48 /\ a < 2 ^ 64.

Lemma rebased_addr m a : addressable m a -> rebased m a (a - va_base m).
Proof using. intros (H1 & H2 & H3). unfold rebased, in_space. lia. Qed.

Lemma range_addressable m u size a : range m u size -> in_range u size a -> addressable m a.
Proof using. unfold range, in_range, addressable. lia. Qed.

Lemma config_base m m' : config m' = config m -> va_base m' = va_base m /\ mc_base m' = mc_base m.
Proof using. intros C. injection C. auto. Qed.

(** Both passes of a mapping. *)
Lemma map_ok T rest m u size segs aspace uncached snooped :
  good None T rest m -> range m u size -> size = sum_sizes segs -> Forall (segment m (is_sys aspace)) segs ->
  clear T m (u - va_base m) size ->
  map_range u size segs aspace uncached snooped m = inr NoTablePage \/
  exists m' T', map_range u size segs aspace uncached snooped m = inl (mkMapping u size segs aspace uncached snooped, m') /\
    good None T' rest m' /\ config m' = config m /\
    (forall v k e, ~ (u - va_base m <= v < u - va_base m + size) -> (seen T' m' v k e <-> seen T m v k e)) /\
    (forall v, u - va_base m <= v < u - va_base m + size -> exists p o, backing segs (v - (u - va_base m)) = Some (p, o) /\
       translates T' m' v (stored_addr m (is_sys aspace) p) (stored_addr m (is_sys aspace) p + o)) /\
    whole T' m' (u - va_base m) (u - va_base m + size).
Proof using.
  intros G (Hb & Hal & Hpos & Hsz & Hend & H64) Es HF Hc. set (v := u - va_base m) in *.
  assert (Hr : rebased m u v) by (unfold rebased, in_space; lia).
  unfold map_range. rewrite <- Es, try_u64_ok by lia. cbn [orf]. rewrite Z.eqb_refl. cbn [negb].
  destruct (new_walk_ok _ _ _ _ _ _ Inspect G Hr) as (w & -> & R). apply (ready_over _ _ _ _ _ _ _ size) in R.
  destruct (inspect_ok (walk_fuel size) T rest 0 v size 0 _ m _ m (conj (advance_ready _ _ _ _ _ _ _ m R) (conj R G)) Hc)
    as (w' & m1 & T1 & -> & G1 & C1 & S1); try assumption; try lia.
  { intros _. unfold in_space. lia. }
  { unfold walk_fuel. pose proof (Z.div_pos size 4096). lia. }
  destruct (config_base _ _ C1) as [Eb Emc].
  assert (Hr1 : rebased m1 u v) by (unfold rebased in *; now rewrite Eb).
  assert (Est : forall s a, stored_addr m1 s a = stored_addr m s a) by (intros s a; unfold stored_addr; now rewrite Emc).
  destruct (new_walk_ok _ _ _ _ _ _ Create G1 Hr1) as (w1 & -> & R1).
  change (match aspace with Phys => false | Sys => true end) with (is_sys aspace).
  destruct (write_segments_ok segs uncached (is_sys aspace) snooped T1 rest 0 v 0 w1 m1 R1 G1)
    as [-> | (w2 & m2 & T2 & -> & G2 & C2 & O2 & I2 & W2)]; rewrite <- ?Es; try assumption; try lia.
  { intros v' k e Hv' V. apply S1 in V. exact (Hc v' k e Hv' V). }
  { eapply Forall_impl; [exact HF |]. intros s. unfold segment. now rewrite Est. }
  { now left. }
  right. exists m2, T2. split; [reflexivity |]. split; [exact G2 |]. split; [congruence |]. rewrite <- Es in O2, I2, W2.
  split; [intros v' k e Hv'; rewrite O2 by exact Hv'; apply S1 |]. split; [| exact W2].
  intros v' Hv'. destruct (I2 v' Hv') as (p & o & Ep & Ht). exists p, o. rewrite Est in Ht. now split.
Qed.

Lemma backing_in segs off p o : backing segs off = Some (p, o) -> 0 <= off -> exists n, In (p, n) segs /\ 0 <= o < n.
Proof using.
  revert off. induction segs as [| [q n] segs IH]; intros off; cbn; [discriminate |]. destruct (Z.ltb_spec off n) as [L | L].
  - intros [= -> ->] Ho. exists n. split; [now left | lia].
  - intros E Ho. destruct (IH _ E ltac:(lia)) as (n' & Hin & Hn). exists n'. split; [now right | exact Hn].
Qed.

(** A stored address is what [resolve] answers, for memory of the device. *)
Lemma resolve_backed T rest m m0 u p n o (sys : bool) :
  good None T rest m -> addressable m u -> mc_base m = mc_base m0 -> segment m0 sys (p, n) -> 0 <= o < n -> (sys = true -> mc_base m0 = 0) ->
  translates T m (u - va_base m) (stored_addr m0 sys p) (stored_addr m0 sys p + o) -> resolve u m = inl (Some (p + o)).
Proof using.
  intros G Ha Emc (S1 & _ & _ & _ & S5) Ho Hs Ht. cbn in S1, S5. destruct (g_mc _ _ _ _ G) as [Hmc _].
  assert (Ep : stored_addr m0 sys p = p + mc_base m) by (unfold stored_addr in *; rewrite Emc; destruct sys; [rewrite Hs by reflexivity; lia | reflexivity]).
  rewrite Ep in Ht, S5. apply (resolve_translates _ _ _ _ _ _ p _ G (rebased_addr _ _ Ha)); [| lia | lia].
  now replace (p + o + mc_base m) with (p + mc_base m + o) by lia.
Qed.

Lemma unmapped_clear T rest m u size :
  good None T rest m -> range m u size -> (forall a, in_range u size a -> resolve a m = inl None) -> clear T m (u - va_base m) size.
Proof using.
  intros G Hr Hn v k e Hv V. assert (Ha : in_range u size (v + va_base m)) by (unfold in_range; lia).
  pose proof (rebased_addr _ _ (range_addressable _ _ _ _ Hr Ha)) as Hb. rewrite Z.add_simpl_r in Hb.
  exact (proj1 (resolve_none _ _ _ _ _ _ G Hb) (Hn _ Ha) k e V).
Qed.


(** Unmapping, against the tables. *)
Lemma unmap_range_good T rest m u size :
  good None T rest m -> range m u size -> (forall a, in_range u size a -> resolve a m <> inl None) ->
  whole T m (u - va_base m) (u - va_base m + size) ->
  exists m' T' lost, unmap_range u size m = inl m' /\ good None T' (lost ++ rest) m' /\ config m' = config m /\
    (forall v k e, seen T' m' v k e <-> seen T m v k e /\ ~ (u - va_base m <= v < u - va_base m + size)) /\
    (unmixed T m (u - va_base m) (u - va_base m + size) -> lost = []).
Proof using.
  intros G Hr Hm Hw. pose proof Hr as (Hb & Hal & Hpos & Hsz & Hend & H64). set (v := u - va_base m) in *.
  assert (Hv : rebased m u v) by (unfold rebased, in_space; lia). unfold unmap_range.
  destruct (new_walk_ok _ _ _ _ _ _ Free G Hv) as (w & -> & R). apply (ready_over _ _ _ _ _ _ _ size) in R.
  destruct (unmap_ok (walk_fuel size) T rest 0 v size 0 _ m _ m (conj (advance_ready _ _ _ _ _ _ _ m R) (conj R G)))
    as (w' & m' & T' & lost & -> & G' & C & _ & S & L); try assumption; try lia.
  { intros _. unfold in_space. lia. }
  { unfold walk_fuel. pose proof (Z.div_pos size 4096). lia. }
  { intros x Hx. assert (Ha : in_range u size (x + va_base m)) by (unfold in_range; lia).
    pose proof (rebased_addr _ _ (range_addressable _ _ _ _ Hr Ha)) as Hx'. rewrite Z.add_simpl_r in Hx'.
    destruct (resolve_found _ _ _ _ _ _ G Hx') as [(k & e & V & _) | [_ E]]; [eauto | destruct (Hm _ Ha E)]. }
  exists m', T', lost. auto.
Qed.

Lemma unmap_resolve T rest m T' rest' m' u size :
  good None T rest m -> good None T' rest' m' -> config m' = config m -> range m u size ->
  (forall v k e, seen T' m' v k e <-> seen T m v k e /\ ~ (u - va_base m <= v < u - va_base m + size)) ->
  (forall a, in_range u size a -> resolve a m' = inl None) /\
  (forall a, addressable m a -> ~ in_range u size a -> resolve a m' = resolve a m).
Proof using.
  intros G G' C Hr S. pose proof (proj1 (config_base _ _ C)) as Eb. split.
  - intros a Ha. assert (Hr' : rebased m' a (a - va_base m)).
    { pose proof (rebased_addr _ _ (range_addressable _ _ _ _ Hr Ha)) as X. unfold rebased in *. now rewrite Eb. }
    apply (resolve_none _ _ _ _ _ _ G' Hr'). intros k e V. apply S in V as [_ X]. unfold in_range in Ha. lia.
  - intros a Ha Hna. apply (resolve_same _ _ _ _ _ _ _ _ _ _ G G' C (rebased_addr _ _ Ha)). intros k e. rewrite S.
    split; [now intros [V _] | intros V; split; [exact V |]]. unfold in_range in Hna. lia.
Qed.

(** C22: Unmapping a mapped range that splits no huge page always returns: no
    address of it resolves any more, and every other address resolves as
    before.  Where no slot that a step clears holds a table, every emptied
    table page goes back to the pool and no page is lost. *)
Theorem unmap_range_clears T rest m u size :
  good None T rest m -> range m u size -> (forall a, in_range u size a -> resolve a m <> inl None) ->
  whole T m (u - va_base m) (u - va_base m + size) ->
  exists m' lost, unmap_range u size m = inl m' /\ managed (lost ++ rest) m' /\
    (forall a, in_range u size a -> resolve a m' = inl None) /\
    (forall a, addressable m a -> ~ in_range u size a -> resolve a m' = resolve a m) /\
    (unmixed T m (u - va_base m) (u - va_base m + size) -> lost = []).
Proof using.
  intros G Hr Hm Hw. destruct (unmap_range_good T rest m u size G Hr Hm Hw) as (m' & T' & lost & E & G' & C & S & L).
  destruct (unmap_resolve T rest m T' _ m' u size G G' C Hr S) as [R1 R2].
  exists m', lost. split; [exact E |]. split; [now exists T' | auto].
Qed.

Lemma range_config m m' u size : config m' = config m -> range m u size -> range m' u size.
Proof using. intros C. pose proof (proj1 (config_base _ _ C)) as Eb. unfold range. now rewrite Eb. Qed.

(** Mapping a range and unmapping it is the identity on translations: every
    address resolves as it did before both. *)
Theorem map_unmap_roundtrip rest m u size segs aspace uncached snooped vm m1 :
  managed rest m -> range m u size -> size = sum_sizes segs -> Forall (segment m (is_sys aspace)) segs ->
  (aspace = Sys -> mc_base m = 0) -> (forall a, in_range u size a -> resolve a m = inl None) ->
  map_range u size segs aspace uncached snooped m = inl (vm, m1) ->
  exists m2 lost, unmap_range (va_addr vm) (vm_size vm) m1 = inl m2 /\ managed (lost ++ rest) m2 /\
    forall a, addressable m a -> resolve a m2 = resolve a m.
Proof using.
  intros [T G] Hr Es HF Hs Hn Em. pose proof (unmapped_clear _ _ _ _ _ G Hr Hn) as Hc.
  destruct (map_ok T rest m u size segs aspace uncached snooped G Hr Es HF Hc) as [E | (m' & T' & E & G' & C & O & I & W)];
    rewrite Em in E; [discriminate |]. injection E as -> ->. cbn [va_addr vm_size].
  pose proof (proj1 (config_base _ _ C)) as Eb. pose proof (range_config _ _ _ _ C Hr) as Hr1.
  destruct (unmap_range_good T' rest m' u size G' Hr1) as (m2 & T2 & lost & E2 & G2 & C2 & S2 & _).
  - intros a Ha Ea. pose proof (rebased_addr _ _ (range_addressable _ _ _ _ Hr1 Ha)) as Hb.
    destruct (I (a - va_base m)) as (p & o & _ & k & e & V & _); [unfold in_range in Ha; lia |].
    rewrite Eb in Hb. exact (proj1 (resolve_none _ _ _ _ _ _ G' Hb) Ea k e V).
  - now rewrite Eb.
  - exists m2, lost. split; [exact E2 |]. split; [now exists T2 |]. intros a Ha. rewrite Eb in S2.
    assert (C3 : config m2 = config m) by congruence.
    apply (resolve_same _ _ _ _ _ _ _ _ _ _ G G2 C3 (rebased_addr _ _ Ha)). intros k e. rewrite S2.
    destruct (decide (u - va_base m <= a - va_base m < u - va_base m + size)) as [Hin | Hout].
    + split; [tauto | intros V; destruct (Hc _ _ _ Hin V)].
    + rewrite O by exact Hout. tauto.
Qed.
End Manager.

(** ** Construction *)
Section New.
Context {A : Type} `{RangeAllocator A}.
Implicit Types (m : MemoryManager (A := A)).

(** One zeroed page is a tree. *)
Lemma tree_init ip mc root ph :
  page (VramPhys.len ph) root -> (forall i, 0 <= i < 512 -> word ph (slot_addr root i) = 0) ->
  tree ip mc (VramPhys.len ph) root None {[(0%nat, 0) := root]} ph.
Proof using.
  intros Hp Hz.
  assert (Hs : forall l s e, slot {[(0%nat, 0) := root]} ph l s = Some e -> e = 0).
  { intros l s e (p & E & ->)%slot_table. apply lookup_singleton_Some in E as [[= <- _] <-].
    rewrite <- (Hz (s mod 512)) by (apply Z.mod_pos_bound; lia). unfold slot_addr. now rewrite Z.mod_mod by lia. }
  split; try reflexivity.
  - intros l n p E. apply lookup_singleton_Some in E as [[= <- <-] <-]. cbn. split; [lia | split; [lia | exact Hp]].
  - intros k k' p E E'. apply lookup_singleton_Some in E as [<- _], E' as [<- _]. reflexivity.
  - intros l s e E [Hv _]. rewrite (Hs _ _ _ E) in Hv. discriminate.
  - intros l s p E. apply lookup_singleton_Some in E as [[=] _].
  - intros l s p E. apply lookup_singleton_Some in E as [[=] _].
Qed.

Definition ptable_size (vram_size : Z) (reserve : bool) : Z :=
  if reserve then (vram_size / 512 + 2 ^ 20 - 1) / 2 ^ 20 * 2 ^ 20 else 0.

Lemma ptable_size_bounds vram_size reserve :
  2 ^ 21 <= vram_size < 2 ^ 48 ->
  0 <= ptable_size vram_size reserve < vram_size /\ (4096 | ptable_size vram_size reserve) /\
  (reserve = true -> 2 ^ 20 <= ptable_size vram_size reserve).
Proof using.
  intros Hv. unfold ptable_size. destruct reserve; [| split; [lia | split; [apply Z.divide_0_r | discriminate]]].
  assert (H1 : 4096 <= vram_size / 512) by (apply Z.div_le_lower_bound; lia).
  assert (H2 : vram_size / 512 * 512 <= vram_size) by (rewrite Z.mul_comm; apply Z.mul_div_le; lia).
  pose proof (round_up_bounds (vram_size / 512) (2 ^ 20) ltac:(lia)) as [H3 H4].
  set (r := (vram_size / 512 + 2 ^ 20 - 1) / 2 ^ 20) in *.
  assert (1 <= r) by (apply Z.div_le_lower_bound; lia).
  split; [lia |]. split; [exists (r * 2 ^ 8); lia | intros _; lia].
Qed.

(** No address and, with a reserved pool, no data memory is handed out. *)
Definition unused (va_size : Z) m : Prop :=
  ra_ok (va_base m) va_size [] (va_alloc m) /\
  (reserve_ptable m = true -> exists b n, 0 <= b /\ (4096 | b) /\ b + n <= VramPhys.len (phys m) /\ ra_ok b n [] (pa_alloc m)).

(** The root page of an empty manager. *)
Lemma root_page m n :
  ra_ok 0 n [] (pool true m) -> 2 ^ 20 <= n <= VramPhys.len (phys m) -> apart 0 n m ->
  exists root a, palloc 0x1000 0x1000 true true m = inl (Some root, put (zeroed root 4096 (phys m)) (with_pool true a m)) /\
    page (VramPhys.len (phys m)) root /\ ra_ok 0 n [(root, 4096)] a /\ apart 0 n (with_pool true a m).
Proof using.
  intros Hok Hn Hap. unfold palloc. change (round_up 0x1000 0x1000) with (Some 0x1000). cbn [orf].
  destruct (ra_fits 0 n _ 0x1000 0x1000 Hok ltac:(lia) ltac:(lia) eq_refl ltac:(lia) ltac:(lia)) as (root & a & Ea).
  destruct (ra_alloc_ok _ _ _ _ 0x1000 0x1000 Hok ltac:(lia) ltac:(lia) eq_refl ltac:(lia)) as (r & a' & Ea' & Hr).
  rewrite Ea in Ea'. injection Ea' as <- <-. destruct Hr as (Hok' & Hal & Hlo & Hhi & _). rewrite Ea. cbn [orf].
  change (phys (with_pool true a m)) with (phys m). unfold VramPhys.zero. rewrite (proj2 (Z.leb_le _ _)) by lia.
  exists root, a. split; [reflexivity |]. split; [split; [lia |]; split; [| lia]; rewrite Z.sub_0_r in Hal; now apply Z.mod_divide in Hal |].
  split; [exact Hok' |]. revert Hap. unfold apart. cbn. destruct (reserve_ptable m); [now intros Hap | discriminate].
Qed.

Lemma new_good ph ip vram_size va_base va_size reserve ranges :
  ip.1.1 < 12 -> 2 ^ 21 <= vram_size <= VramPhys.len ph -> VramPhys.len ph <= 2 ^ 48 -> vram_size < 2 ^ 48 ->
  0 <= va_base -> 0 < va_size -> va_base + va_size < 2 ^ 63 ->
  exists m root, new ph ip Geometry.gfx11 vram_size va_base va_size reserve ranges = inl m /\
    Gmmu.va_base m = va_base /\ palloc_ranges m = ranges /\ VramPhys.len (phys m) = VramPhys.len ph /\ unused va_size m /\
    forall mc, 0 <= mc -> (4096 | mc) -> VramPhys.len ph + mc <= 2 ^ 48 ->
      good None {[(0%nat, 0) := root]} [] (set_mc_base mc m) /\ (forall v k e, ~ seen {[(0%nat, 0) := root]} (set_mc_base mc m) v k e).
Proof using.
  intros Hip Hvram Hlen Hv48 Hb Hva Hva2. pose proof (ptable_size_bounds vram_size reserve ltac:(lia)) as (P1 & P2 & P3).
  set (ps := ptable_size vram_size reserve) in *. unfold new.
  assert (E1 : (if reserve then orf (round_up (vram_size / 512) (Z.shiftl 1 20)) else inl 0) = inl ps :> Z + Panic).
  { destruct reserve; [| reflexivity]. unfold round_up. change (Z.shiftl 1 20) with (2 ^ 20). cbn [Z.eqb].
    change (2 ^ 20 =? 0) with false. cbn iota. rewrite try_u64_ok; [reflexivity |]. unfold ps, ptable_size in *. lia. }
  rewrite E1.
  assert (Ept : exists pt, ra_new ps 0 = Some pt /\ (reserve = true -> ra_ok 0 ps [] pt)).
  { destruct reserve.
    - destruct (ra_new_ok 0 ps ltac:(lia) ltac:(lia) ltac:(lia)) as (pt & E & O). eauto.
    - destruct (ra_new_empty 0) as [pt E]. exists pt. split; [exact E | discriminate]. }
  destruct Ept as (pt & -> & Hpt). cbn [orf]. rewrite try_u64_ok by lia. cbn [orf].
  destruct (ra_new_ok ps (vram_size - ps) ltac:(lia) ltac:(lia) ltac:(lia)) as (pa & -> & Hpa). cbn [orf].
  destruct (ra_new_ok va_base va_size Hb Hva Hva2) as (va & -> & Hvaok). cbn [orf].
  set (m0 := mkManager ph ip Geometry.gfx11 va_base VM_PDB2 va pa pt reserve 0 ranges 0).
  assert (Hpool : exists n, ra_ok 0 n [] (pool true m0) /\ 2 ^ 20 <= n <= VramPhys.len ph /\ apart 0 n m0).
  { unfold pool, m0, apart. cbn [reserve_ptable ptable_alloc pa_alloc]. rewrite andb_true_r. destruct reserve.
    - exists ps. specialize (P3 eq_refl). split; [now apply Hpt |]. split; [lia |].
      intros _ b' n' live Hok. destruct (ra_bounds _ _ _ _ _ _ _ Hpa Hok). lia.
    - exists (vram_size - ps). unfold ps, ptable_size in *. split; [exact Hpa |]. split; [lia | discriminate]. }
  destruct Hpool as (n & Hok & Hn & Hap).
  destruct (root_page m0 n Hok Hn Hap) as (root & a & -> & Hpage & Hok' & Hap'). change (phys m0) with ph in *.
  eexists _, root. split; [reflexivity |]. do 3 (split; [reflexivity |]). split.
  { split; [exact Hvaok |]. unfold m0. cbn. intros ->. exists ps, (vram_size - ps). do 2 (split; [lia || assumption |]). split; [lia | exact Hpa]. }
  intros mc Hmc Hmcd Hmcl.
  assert (HT : tree ip mc (VramPhys.len ph) root None {[(0%nat, 0) := root]} (zeroed root 4096 ph)).
  { apply (tree_init ip mc root (zeroed root 4096 ph) Hpage). intros i Hi. rewrite word_zeroed. pose proof (slot_addr_range root i).
    now rewrite (proj2 (Z.leb_le _ _)), (proj2 (Z.ltb_lt _ _)) by lia. }
  split.
  - split; try assumption; try (now split).
    exists 0, n. split; [lia |]. split; [apply Z.divide_0_r |]. split; [cbn; lia |]. split; [exact Hap' |].
    change (pool true _) with (pool true (with_pool true a m0)).
    rewrite pool_with_pool. unfold pages. rewrite map_to_list_singleton. exact Hok'.
  - intros v k e (_ & Es & Hv & _). apply slot_table in Es as (p & E & ->).
    apply lookup_singleton_Some in E as [[= <- _] <-]. revert Hv. cbn [phys set_mc_base with_root with_phys put].
    rewrite word_zeroed. pose proof (slot_addr_range root (v / covers 0)).
    rewrite (proj2 (Z.leb_le _ _)), (proj2 (Z.ltb_lt _ _)) by lia. discriminate.
Qed.

(** Construction reserves and zeroes a root table; with any page-aligned
    MC base that keeps addresses below 48 bits, the new manager holds exactly
    that page and translates nothing. *)
Theorem new_translates_nothing ph ip vram_size va_base va_size reserve ranges mc :
  ip.1.1 < 12 -> 2 ^ 21 <= vram_size <= VramPhys.len ph -> VramPhys.len ph + mc <= 2 ^ 48 -> vram_size < 2 ^ 48 ->
  0 <= va_base -> 0 < va_size -> va_base + va_size < 2 ^ 63 -> 0 <= mc -> (4096 | mc) ->
  exists m, new ph ip Geometry.gfx11 vram_size va_base va_size reserve ranges = inl m /\
    managed [] (set_mc_base mc m) /\ (forall a, addressable m a -> resolve a (set_mc_base mc m) = inl None).
Proof using.
  intros Hip Hvram Hlen Hv48 Hb Hva Hva2 Hmc Hmcd.
  destruct (new_good ph ip vram_size va_base va_size reserve ranges Hip Hvram ltac:(lia) Hv48 Hb Hva Hva2)
    as (m & root & E & Eb & _ & _ & _ & Hg). destruct (Hg mc Hmc Hmcd Hlen) as [G Hn].
  exists m. split; [exact E |]. split; [now exists {[(0%nat, 0) := root]} |]. intros a Ha.
  apply (resolve_none _ _ _ _ _ (a - Gmmu.va_base m) G); [| apply Hn]. exact (rebased_addr (set_mc_base mc m) a Ha).
Qed.
End New.

(** ** A concrete device *)
Abbreviation Manager := (MemoryManager (A := Am.TlsfAllocator)).
Definition get (d : Manager) (r : Manager + Panic) : Manager := match r with inl m => m | inr _ => d end.
Definition no_tlsf : Am.TlsfAllocator := Am.mkTlsf 0 0 0 0 [] [] ∅.
Definition no_manager : Manager :=
  mkManager (VramPhys.mk 0 ∅) (9, 4, 3) Geometry.gfx11 0 0 no_tlsf no_tlsf no_tlsf false 0 [] 0.
Definition MC : Z := 2 ^ 40.
Definition demo (reserve : bool) : Manager :=
  set_mc_base MC (get no_manager
    (new (VramPhys.mk (2 ^ 30) ∅) (9, 4, 3) Geometry.gfx11 (2 ^ 28) (2 ^ 41) (2 ^ 36) reserve gfx11_palloc_ranges)).

Lemma demo_good reserve : managed [] (demo reserve) /\ (forall a, addressable (demo reserve) a -> resolve a (demo reserve) = inl None).
Proof.
  destruct (new_good (A := Am.TlsfAllocator) (VramPhys.mk (2 ^ 30) ∅) (9, 4, 3) (2 ^ 28) (2 ^ 41) (2 ^ 36) reserve gfx11_palloc_ranges
    ltac:(reflexivity) ltac:(cbn; lia) ltac:(cbn; lia) ltac:(lia) ltac:(lia) ltac:(lia) ltac:(lia)) as (m & root & E & Eb & _ & _ & _ & Hg).
  destruct (Hg MC ltac:(unfold MC; lia) ltac:(exists (2 ^ 28); reflexivity) ltac:(unfold MC; cbn; lia)) as [G Hn].
  unfold demo. rewrite E. cbn [get]. split; [now exists {[(0%nat, 0) := root]} |]. intros a Ha.
  apply (resolve_none _ _ _ _ _ (a - Gmmu.va_base m) G); [| apply Hn]. exact (rebased_addr (set_mc_base MC m) a Ha).
Qed.

Lemma demo_base reserve : va_base (demo reserve) = 2 ^ 41 /\ mc_base (demo reserve) = MC.
Proof. destruct reserve; vm_compute; split; reflexivity. Qed.

(** Seven pages and a huge page, from three segments. *)
Definition demo_segs : list (Z * Z) := [(0x200000, 0x200000); (0x800000, 0x3000); (0x500000, 0x4000)].

Lemma demo_range : range (demo false) (2 ^ 41) 0x207000.
Proof. unfold range. rewrite (proj1 (demo_base false)). split_and!; try lia; [now exists 0 | now exists 0x207]. Qed.

Lemma demo_segment p n :
  0 <= p -> p mod 4096 = 0 -> 0 <= n -> n mod 4096 = 0 -> p + n <= 2 ^ 47 -> segment (demo false) false (p, n).
Proof.
  intros H1 H2 H3 H4 H5. unfold segment, stored_addr. rewrite (proj2 (demo_base false)). cbn [fst snd]. unfold MC.
  apply Z.mod_divide in H2, H4; try lia. split_and!; assumption || lia.
Qed.

Lemma demo_segments : Forall (segment (demo false) false) demo_segs.
Proof. repeat (apply Forall_cons; split; [apply demo_segment; reflexivity || lia |]). constructor. Qed.

Lemma demo_unmapped a : in_range (2 ^ 41) 0x207000 a -> resolve a (demo false) = inl None.
Proof. intros Ha. apply demo_good. exact (range_addressable _ _ _ _ demo_range Ha). Qed.

Lemma new_translates_nothing_witness :
  exists m, new (A := Am.TlsfAllocator) (VramPhys.mk (2 ^ 30) ∅) (9, 4, 3) Geometry.gfx11 (2 ^ 28) (2 ^ 41) (2 ^ 36) false gfx11_palloc_ranges = inl m /\
    managed [] (set_mc_base MC m) /\ (forall a, addressable m a -> resolve a (set_mc_base MC m) = inl None).
Proof.
  apply new_translates_nothing; try (cbn; unfold MC; lia). now exists (2 ^ 28).
Defined.


(** The mapping of the witness succeeds. *)
Definition mapped : VirtMapping * Manager :=
  match map_range (2 ^ 41) 0x207000 demo_segs Phys false false (demo false) with
  | inl r => r
  | inr _ => (mkMapping 0 0 [] Phys false false, no_manager)
  end.

Lemma mapped_eq : map_range (2 ^ 41) 0x207000 demo_segs Phys false false (demo false) = inl (fst mapped, snd mapped).
Proof.
  unfold mapped. destruct (map_range _ _ _ _ _ _ _) as [[vm m1] | e] eqn:E; [reflexivity | exfalso].
  enough (match map_range (2 ^ 41) 0x207000 demo_segs Phys false false (demo false) with inl _ => true | inr _ => false end = true)
    by (rewrite E in *; discriminate).
  clear E. vm_compute. reflexivity.
Qed.

Lemma map_unmap_roundtrip_witness :
  exists m2 lost, unmap_range (va_addr (fst mapped)) (vm_size (fst mapped)) (snd mapped) = inl m2 /\ managed (lost ++ []) m2 /\
    forall a, addressable (demo false) a -> resolve a m2 = resolve a (demo false).
Proof.
  apply (map_unmap_roundtrip [] (demo false) (2 ^ 41) 0x207000 demo_segs Phys false false (fst mapped) (snd mapped));
    [apply demo_good | exact demo_range | reflexivity | exact demo_segments | discriminate | exact demo_unmapped | exact mapped_eq].
Defined.

Lemma inl_pair {X Y E} (x x' : X) (y y' : Y) : inl (x, y) = inl (x', y') :> (X * Y) + E -> y = y'.
Proof. congruence. Qed.

Lemma unmap_range_clears_witness :
  exists T, whole T (snd mapped) (2 ^ 41 - va_base (snd mapped)) (2 ^ 41 - va_base (snd mapped) + 0x207000) /\
  exists m' lost, unmap_range (2 ^ 41) 0x207000 (snd mapped) = inl m' /\ managed (lost ++ []) m' /\
    (forall a, in_range (2 ^ 41) 0x207000 a -> resolve a m' = inl None) /\
    (forall a, addressable (snd mapped) a -> ~ in_range (2 ^ 41) 0x207000 a -> resolve a m' = resolve a (snd mapped)) /\
    (unmixed T (snd mapped) (2 ^ 41 - va_base (snd mapped)) (2 ^ 41 - va_base (snd mapped) + 0x207000) -> lost = []).
Proof.
  destruct (proj1 (demo_good false)) as [T0 G0].
  destruct (map_ok T0 [] (demo false) (2 ^ 41) 0x207000 demo_segs Phys false false G0 demo_range eq_refl demo_segments
    (unmapped_clear _ _ _ _ _ G0 demo_range demo_unmapped)) as [E | (m1 & T & E & G & C & _ & I & W)]; rewrite mapped_eq in E; [discriminate |].
  apply inl_pair in E. subst m1. set (m1 := snd mapped) in *. clearbody m1. pose proof (proj1 (config_base _ _ C)) as Eb.
  pose proof (range_config _ _ _ _ C demo_range) as Hr. rewrite <- Eb in I, W. exists T. split; [exact W |].
  apply (unmap_range_clears T [] m1 (2 ^ 41) 0x207000 G Hr); [| exact W].
  intros a Ha Ea. pose proof (rebased_addr _ _ (range_addressable _ _ _ _ Hr Ha)) as Hb.
  destruct (I (a - va_base m1)) as (p & o & _ & k & e & V & _); [unfold in_range in Ha; lia |].
  exact (proj1 (resolve_none _ _ _ _ _ _ G Hb) Ea k e V).
Defined.

(** ** Where the code falls short of its comments *)

(** Ranges of an allocator that are handed out. *)
Definition handed_out (a : Am.TlsfAllocator) : nat :=
  List.length (filter (fun b => Am.Block.is_free b.2 = false) (map_to_list (Am.blocks a))).
Definition shown {X Y} (f : X -> Y) (r : X + Panic) : option Y := match r with inl x => Some (f x) | inr _ => None end.
Definition at_ (u : Z) (m : Manager) : Z := match resolve u m with inl (Some a) => a | inl None => -1 | inr _ => -2 end.

(** A huge page followed by a slot that a table of small pages fills: unmapping
    both clears the table's slot as if it were a page.  The page of that table
    stays handed out next to the root's. *)
Example unmap_loses_table :
  let segs := [(0x200000, 0x200000); (0x400000, 0x100000); (0x800000, 0x100000)] in
  (handed_out (pa_alloc (demo false)), at_ (2 ^ 41) (demo false)) = (1%nat, -1) /\
  shown (fun m => (handed_out (pa_alloc m), at_ (2 ^ 41 + 0x200000) m))
    (let! (vm, m) := map_range (2 ^ 41) 0x400000 segs Phys false false (demo false) in
     unmap_range (va_addr vm) (vm_size vm) m) = Some (2%nat, -1).
Proof. vm_compute. split; reflexivity. Qed.

(** The pass that checks advances by whole entries from a misaligned start: it
    steps over a page that is mapped, and the mapping overwrites it. *)
Example inspect_misses_page :
  let first := map_range (2 ^ 41 + 0x200000) 0x1000 [(0x900000, 0x1000)] Phys false false (demo false) in
  shown (fun r => at_ (2 ^ 41 + 0x200000) (snd r)) first = Some 0x900000 /\
  shown (fun r => at_ (2 ^ 41 + 0x200000) (snd r))
    (let! (_, m) := first in map_range (2 ^ 41 + 0x1FF000) 0x2000 [(0x600000, 0x2000)] Phys false false m) = Some 0x601000.
Proof. vm_compute. split; reflexivity. Qed.

(** A contiguous request that finds no memory keeps its virtual range. *)
Example contiguous_keeps_va :
  shown (fun r => (fst r, handed_out (va_alloc (snd r)))) (valloc (2 ^ 29) 1 false true (demo false)) = Some (None, 1%nat) /\
  shown (fun r => (fst r, handed_out (va_alloc (snd r)))) (valloc (2 ^ 29) 1 false false (demo false)) = Some (None, 0%nat).
Proof. vm_compute. split; reflexivity. Qed.

(** Host pages are stored as they are, but [resolve] subtracts the MC base from them too. *)
Example resolve_host_page :
  shown (fun r => at_ (2 ^ 41) (snd r))
    (map_range (2 ^ 41) 0x1000 [(MC + 0x3000, 0x1000)] Sys false true (demo false)) = Some 0x3000.
Proof. vm_compute. reflexivity. Qed.

(** Alignment is relative to the base of the pool: after the reserved slice of
    1 MiB, the first huge page lies at 1 MiB. *)
Example huge_page_misaligned :
  shown (fun r => (option_map paddrs (fst r), at_ (2 ^ 41) (snd r))) (valloc 0x200000 1 false false (demo true)) =
  Some (Some [(0x100000, 0x200000)], 0x100000).
Proof. vm_compute. reflexivity. Qed.
