(* ===== verification/GmmuVm.v ===== *)
(** * Mappings over the life of a manager

    [valloc] and [vfree] ([device/src/amd/am/mm/manager.rs]) put together what
    the allocators and the page tables promise: whatever the history of
    requests, live mappings overlap neither in addresses nor in memory, each
    translates to its own memory, and nothing else is translated. *)

From stdpp Require Import gmap.
From S2P Require Import Prelude.
From S2P Require Import Tlsf.
From S2P Require Import PageTable.
From S2P Require Import AmTlsf.
From S2P Require Import Gmmu.
From S2P Require Import GmmuTree.
From S2P Require Import GmmuWalk.
From S2P Require Import GmmuMap.

Section Vm.
Context {A : Type} `{RangeAllocator A}.
Implicit Types (m : MemoryManager (A := A)) (T : tables) (D : list (Z * Z)).

(** ** Data memory *)

(** What else the pool of data memory has handed out. *)
Definition owned T (lost : list (Z * Z)) m : list (Z * Z) := if reserve_ptable m then [] else pages T ++ lost.

(** A manager that has handed out the ranges [D] for data, and [lost] some pages. *)
Definition stocked T D (lost : list (Z * Z)) m : Prop :=
  good None T (if reserve_ptable m then lost else D ++ lost) m /\
  exists b n, 0 <= b /\ (4096 | b) /\ b + n <= VramPhys.len (phys m) /\ ra_ok b n (D ++ owned T lost m) (pa_alloc m).

(** What data allocation leaves alone. *)
Definition frame m :=
  (ip_ver m, geom m, first_lv m, va_base m, reserve_ptable m, root_pt m, palloc_ranges m, mc_base m, VramPhys.len (phys m)).

Lemma pool_data m : pool false m = pa_alloc m.
Proof using. unfold pool. now rewrite andb_false_r. Qed.

Lemma with_pool_data a m : pa_alloc (with_pool false a m) = a /\ frame (with_pool false a m) = frame m /\
  va_alloc (with_pool false a m) = va_alloc m /\ phys (with_pool false a m) = phys m.
Proof using. unfold with_pool. now rewrite andb_false_r. Qed.

Lemma good_perm x T rest rest' m : Permutation rest rest' -> good x T rest m -> good x T rest' m.
Proof using.
  intros P [H1 H2 H3 H4 H5 (b & n & Hb & Ha & Hn & Hap & Hok)]. split; try assumption.
  exists b, n. do 4 (split; [assumption |]). refine (ra_perm _ _ _ _ _ Hok _). now apply Permutation_app_head.
Qed.

Lemma stocked_perm T D D' lost m : Permutation D D' -> stocked T D lost m -> stocked T D' lost m.
Proof using.
  intros P [G (b & n & Hb & Ha & Hn & Hok)]. split.
  - refine (good_perm _ _ _ _ _ _ G). destruct (reserve_ptable m); [reflexivity | now apply Permutation_app_tail].
  - exists b, n. do 3 (split; [assumption |]). refine (ra_perm _ _ _ _ _ Hok _). now apply Permutation_app_tail.
Qed.

(** The pool with other ranges handed out. *)
Lemma stocked_pool T D D' lost m b n a :
  stocked T D lost m -> 0 <= b -> (4096 | b) -> b + n <= VramPhys.len (phys m) ->
  ra_ok b n (D ++ owned T lost m) (pa_alloc m) -> ra_ok b n (D' ++ owned T lost m) a ->
  stocked T D' lost (with_pool false a m).
Proof using.
  intros [[H1 H2 H3 H4 H5 (b0 & n0 & Hb0 & Ha0 & Hn0 & Hap & Hok0)] _] Hb Ha Hn Hok Hok'.
  unfold stocked, owned, with_pool. rewrite andb_false_r. cbn [reserve_ptable pa_alloc phys]. split.
  - split; try assumption. unfold pool, apart, owned in *. cbn [reserve_ptable pa_alloc ptable_alloc phys].
    rewrite andb_true_r in *. destruct (reserve_ptable m).
    + exists b0, n0. do 3 (split; [assumption |]). split; [| exact Hok0]. intros _ b' n' live Hl.
      destruct (ra_bounds _ _ _ _ _ _ _ Hok' Hl) as [<- _]. exact (Hap eq_refl _ _ _ Hok).
    + exists b, n. do 3 (split; [assumption |]). split; [discriminate |]. refine (ra_perm _ _ _ _ _ Hok' _).
      rewrite !app_assoc. apply Permutation_app_tail, Permutation_app_comm.
  - exists b, n. auto.
Qed.

(** Memory clear of the tables' pages. *)
Definition clear_of T (o n : Z) : Prop := forall k p, T !! k = Some p -> p + 4096 <= o \/ o + n <= p.

Lemma in_pages T k p : T !! k = Some p -> In (p, 4096) (pages T).
Proof using.
  intros E. unfold pages. apply in_map_iff. exists (k, p). split; [reflexivity |]. now apply list_elem_of_In, elem_of_map_to_list.
Qed.

Lemma new_data_clear T D lost m b n o z :
  stocked T D lost m -> ra_ok b n (D ++ owned T lost m) (pa_alloc m) -> b <= o ->
  Forall (disjoint_from o z) (D ++ owned T lost m) -> clear_of T o z.
Proof using.
  intros [G _] Hok Ho HF k p E%in_pages. unfold owned in *. destruct (reserve_ptable m) eqn:Er.
  - destruct (g_pool _ _ _ _ G) as (b0 & n0 & _ & _ & _ & Hap & Hok0). specialize (Hap Er _ _ _ Hok).
    destruct (ra_live _ _ _ _ Hok0) as [_ HL]. rewrite Forall_forall in HL.
    specialize (HL (p, 4096)). rewrite list_elem_of_In, in_app_iff in HL. specialize (HL (or_introl E)). cbn in HL. lia.
  - rewrite Forall_forall in HF. specialize (HF (p, 4096)). rewrite list_elem_of_In, !in_app_iff in HF.
    specialize (HF (or_intror (or_introl E))). unfold disjoint_from in HF. cbn in HF. lia.
Qed.

(** The tables do not depend on other memory. *)
Lemma slot_same T ph ph' l s :
  (forall k p s, T !! k = Some p -> word ph' (slot_addr p s) = word ph (slot_addr p s)) -> slot T ph' l s = slot T ph l s.
Proof using. intros Hw. unfold slot. destruct (T !! (l, s / 512)) as [p |] eqn:E; [| reflexivity]. now rewrite (Hw _ _ _ E). Qed.

Lemma tree_same ip mc len root x T ph ph' :
  VramPhys.len ph' = VramPhys.len ph ->
  (forall k p s, T !! k = Some p -> word ph' (slot_addr p s) = word ph (slot_addr p s)) ->
  tree ip mc len root x T ph -> tree ip mc len root x T ph'.
Proof using.
  intros Hl Hw [H1 H2 H3 H4 H5 H6 H7]. split; try assumption.
  - congruence.
  - intros l s e. rewrite (slot_same T ph ph' l s Hw). apply H5.
  - intros l s p E. destruct (H6 l s p E) as (e & Es & Ht). exists e. now rewrite (slot_same T ph ph' l s Hw).
  - intros l s p E Hx. destruct (H7 l s p E Hx) as (i & Hi & Hv). exists i. now rewrite (Hw _ _ _ E).
Qed.

Lemma word_cleared T o z ph k p s :
  clear_of T o z -> T !! k = Some p -> word (zeroed o z ph) (slot_addr p s) = word ph (slot_addr p s).
Proof using.
  intros Hc E. rewrite word_zeroed. destruct (Hc _ _ E); pose proof (slot_addr_range p s);
    destruct (Z.leb_spec o (slot_addr p s)), (Z.ltb_spec (slot_addr p s) (o + z)); try reflexivity; lia.
Qed.

Lemma stocked_zeroed T D lost m o z : stocked T D lost m -> clear_of T o z -> stocked T D lost (put (zeroed o z (phys m)) m).
Proof using.
  intros [[H1 H2 H3 H4 H5 H6] HD] Hc. split; [| exact HD]. split; try assumption.
  refine (tree_same _ _ _ _ _ _ (phys m) (zeroed o z (phys m)) eq_refl _ H5). intros k p s E. exact (word_cleared _ _ _ _ _ _ _ Hc E).
Qed.

Lemma seen_zeroed T m o z v k e : clear_of T o z -> seen T (put (zeroed o z (phys m)) m) v k e <-> seen T m v k e.
Proof using.
  intros Hc. unfold seen, view. cbn [put with_phys phys ip_ver]. rewrite (slot_same T (phys m)); [reflexivity |].
  intros j p s E. exact (word_cleared _ _ _ _ _ _ _ Hc E).
Qed.

(** Requests of whole pages, aligned to a power of two. *)
Definition pow2_align (al : Z) : Prop := 0 < al /\ 2 ^ Z.log2 al = al.
Definition page_request (size al : Z) : Prop :=
  4096 <= size /\ (4096 | size) /\ pow2_align al /\ (4096 | al) /\ size + al < 2 ^ 62.

Lemma round_up_page size : 0 <= size < 2 ^ 63 -> exists r, round_up size 4096 = Some r /\ size <= r < size + 4096 /\ (4096 | r).
Proof using.
  intros Hs. exists ((size + 4096 - 1) / 4096 * 4096). pose proof (Z.div_mod (size + 4096 - 1) 4096 ltac:(lia)).
  pose proof (Z.mod_pos_bound (size + 4096 - 1) 4096 ltac:(lia)).
  unfold round_up. cbn [Z.eqb]. rewrite try_u64_ok by lia. split; [reflexivity |]. split; [lia |]. now exists ((size + 4096 - 1) / 4096).
Qed.

Lemma round_up_pages size : (4096 | size) -> 0 <= size < 2 ^ 63 -> round_up size 4096 = Some size.
Proof using.
  intros [q ->] Hs. destruct (round_up_page (q * 4096) Hs) as (r & -> & Hr & [j ->]). f_equal. lia.
Qed.

(** Memory for data, zeroed or not. *)
Lemma palloc_data size al z T D lost m :
  stocked T D lost m -> page_request size al ->
  exists r m', palloc size al z false m = inl (r, m') /\ frame m' = frame m /\ va_alloc m' = va_alloc m /\
    (forall v k e, seen T m' v k e <-> seen T m v k e) /\
    match r with
    | None => stocked T D lost m'
    | Some p => stocked T ((p, size) :: D) lost m' /\ segment m false (p, size)
    end.
Proof using.
  intros HS (Hs & Hd & (Hal & Hpow) & Hdal & Hsum). pose proof HS as [G (b & n & Hb & Ha & Hn & Hok)].
  unfold palloc. change 0x1000 with 4096. rewrite round_up_pages by (assumption || lia). cbn [orf]. rewrite pool_data.
  destruct (ra_alloc_ok _ _ _ _ size al Hok ltac:(lia) Hal Hpow Hsum) as (r & a & -> & Hr). cbn [orf].
  destruct (with_pool_data a m) as (_ & Ef & Ev & Ep). destruct r as [p |].
  2:{ exists None, (with_pool false a m). do 3 (split; [reflexivity || assumption |]). split; [intros; unfold seen; now rewrite Ep |].
      exact (stocked_pool _ _ D _ _ _ _ _ HS Hb Ha Hn Hok Hr). }
  destruct Hr as (Hok' & Hmod & Hlo & Hhi & HF). pose proof (new_data_clear _ _ _ _ _ _ _ _ HS Hok Hlo HF) as Hcl.
  pose proof (stocked_pool _ _ ((p, size) :: D) _ _ _ _ _ HS Hb Ha Hn Hok Hok') as HS'.
  assert (Hseg : segment m false (p, size)).
  { pose proof (g_len _ _ _ _ G). destruct Hdal as [q ->]. apply Z.mod_divide in Hmod as [j Hj]; [| lia]. destruct Ha as [i ->].
    unfold segment, stored_addr. cbn [fst snd]. split; [lia |]. split; [exists (i + j * q); lia |]. split; [lia |]. split; [exact Hd | lia]. }
  assert (Es : forall v k e, seen T (with_pool false a m) v k e <-> seen T m v k e) by (intros; unfold seen; now rewrite Ep).
  destruct z.
  2:{ exists (Some p), (with_pool false a m). auto 10. }
  rewrite Ep. unfold VramPhys.zero. rewrite (proj2 (Z.leb_le _ _)) by lia. fold (zeroed p size (phys m)). rewrite <- Ep.
  exists (Some p), (put (zeroed p size (phys (with_pool false a m))) (with_pool false a m)).
  split; [reflexivity |]. split; [exact Ef |]. split; [exact Ev |]. split; [intros; now rewrite seen_zeroed |].
  split; [now apply stocked_zeroed | exact Hseg].
Qed.

Lemma pfree_data T D D' lost m p n :
  stocked T D lost m -> Permutation D ((p, n) :: D') ->
  exists m', pfree p false m = inl m' /\ frame m' = frame m /\ va_alloc m' = va_alloc m /\
    (forall v k e, seen T m' v k e <-> seen T m v k e) /\ stocked T D' lost m'.
Proof using.
  intros HS P. pose proof HS as [_ (b & k & Hb & Ha & Hn & Hok)]. unfold pfree. rewrite pool_data.
  destruct (ra_free_ok _ _ _ (D' ++ owned T lost m) _ p n Hok) as (a & -> & Hok').
  { now rewrite P. }
  destruct (with_pool_data a m) as (_ & Ef & Ev & Ep). exists (with_pool false a m). split; [reflexivity |]. split; [exact Ef |].
  split; [exact Ev |]. split; [intros; unfold seen; now rewrite Ep |].
  exact (stocked_pool _ _ _ _ _ _ _ _ HS Hb Ha Hn Hok Hok').
Qed.

Lemma pfree_all_data T segs D D' lost m :
  stocked T D lost m -> Permutation D (segs ++ D') ->
  exists m', pfree_all segs m = inl m' /\ frame m' = frame m /\ va_alloc m' = va_alloc m /\
    (forall v k e, seen T m' v k e <-> seen T m v k e) /\ stocked T D' lost m'.
Proof using.
  revert D m. induction segs as [| [p n] segs IH]; intros D m HS P; cbn [pfree_all app] in *.
  - exists m. do 3 (split; [reflexivity |]). split; [reflexivity |]. exact (stocked_perm _ _ _ _ _ P HS).
  - destruct (pfree_data _ _ _ _ _ _ _ HS P) as (m1 & -> & F1 & V1 & S1 & HS1).
    destruct (IH _ _ HS1 (Permutation_refl _)) as (m2 & -> & F2 & V2 & S2 & HS2).
    exists m2. split; [reflexivity |]. split; [congruence |]. split; [congruence |]. split; [intros; now rewrite S2, S1 | exact HS2].
Qed.

(** ** Gathering memory *)

(** Ranges of whole pages, the last a single page. *)
Definition ranges_ok (ranges : list (Z * Z)) : Prop :=
  Forall (fun r : Z * Z => page_request r.1 r.2) ranges /\ exists (l : list (Z * Z)) al, ranges = l ++ [(4096, al)].

Lemma skip_large_ok ranges nxt rem :
  (exists (l : list (Z * Z)) al, ranges = l ++ [(4096, al)]) -> 4096 <= rem ->
  exists k r, skip_large ranges nxt rem = inl (nxt + k)%nat /\ ranges !! k = Some r /\ r.1 <= rem.
Proof using.
  intros (l & al & ->) Hr. revert nxt. induction l as [| [sz a] l IH]; intros nxt; cbn [app skip_large].
  - exists 0%nat, (4096, al). rewrite (proj2 (Z.ltb_ge _ _)) by lia. rewrite Nat.add_0_r. auto.
  - destruct (Z.ltb_spec rem sz).
    + destruct (IH (S nxt)) as (k & r & -> & E & Hle). exists (S k), r. split; [f_equal; lia | auto].
    + exists 0%nat, (sz, a). rewrite Nat.add_0_r. auto.
Qed.

Lemma drop_ends ranges nxt :
  (nxt < List.length ranges)%nat -> (exists (l : list (Z * Z)) al, ranges = l ++ [(4096, al)]) -> exists (l : list (Z * Z)) al, drop nxt ranges = l ++ [(4096, al)].
Proof using.
  intros Hn (l & al & ->). rewrite length_app in Hn. cbn in Hn. exists (drop nxt l), al. apply drop_app_le. lia.
Qed.

(** The address space: [free_va] gives a range back. *)
Lemma free_va_ok va_size live live' m va z :
  ra_ok (va_base m) va_size live (va_alloc m) -> Permutation live ((va, z) :: live') ->
  exists a, free_va va m = inl (with_va a m) /\ ra_ok (va_base m) va_size live' a.
Proof using.
  intros Hok P. destruct (ra_free_ok _ _ _ _ _ _ _ Hok P) as (a & E & Hok'). exists a. unfold free_va. now rewrite E.
Qed.

Lemma stocked_va T D lost m a : stocked T D lost m -> stocked T D lost (with_va a m).
Proof using. intros [[H1 H2 H3 H4 H5 H6] HD]. split; [split; assumption | exact HD]. Qed.

Lemma frame_ranges m m' : frame m' = frame m -> palloc_ranges m' = palloc_ranges m /\ va_base m' = va_base m /\ mc_base m' = mc_base m.
Proof using. intros E. now injection E. Qed.

Lemma segment_frame m m' sys s : frame m' = frame m -> segment m' sys s <-> segment m sys s.
Proof using. intros E. unfold segment, stored_addr. destruct (frame_ranges _ _ E) as (_ & _ & ->). reflexivity. Qed.

Lemma sum_sizes_snoc segs p n : sum_sizes (segs ++ [(p, n)]) = sum_sizes segs + n.
Proof using. unfold sum_sizes. induction segs as [| s segs IH]; cbn in *; lia. Qed.

Lemma segments_frame m m' sys segs : frame m' = frame m -> Forall (segment m' sys) segs <-> Forall (segment m sys) segs.
Proof using. intros E. rewrite !Forall_forall. now setoid_rewrite (segment_frame m m' sys _ E). Qed.

(** The outcome of gathering [total] bytes: segments, or everything given back
    with the address range [va]. *)
Definition gathers va_size live D T lost total m (r : (option (list (Z * Z)) * MemoryManager) + Panic) : Prop :=
  exists o m', r = inl (o, m') /\ frame m' = frame m /\ (forall v k e, seen T m' v k e <-> seen T m v k e) /\
    match o with
    | Some segs => stocked T (segs ++ D) lost m' /\ va_alloc m' = va_alloc m /\ Forall (segment m false) segs /\ sum_sizes segs = total
    | None => stocked T D lost m' /\ ra_ok (va_base m) va_size live (va_alloc m')
    end.

Lemma gathers_via va_size live D T lost total total' m m1 r :
  frame m1 = frame m -> va_alloc m1 = va_alloc m -> (forall v k e, seen T m1 v k e <-> seen T m v k e) -> total' = total ->
  gathers va_size live D T lost total' m1 r -> gathers va_size live D T lost total m r.
Proof using.
  intros F V S -> (o & m2 & E & F2 & S2 & H2). destruct (frame_ranges _ _ F) as (_ & EB & _).
  exists o, m2. split; [exact E |]. split; [congruence |]. split; [intros; now rewrite S2, S |].
  destruct o as [segs |]; [| now rewrite <- EB]. destruct H2 as (H2 & H3 & H4 & H5).
  split; [exact H2 |]. split; [congruence |]. split; [now apply (segments_frame _ _ _ _ F) | exact H5].
Qed.

Lemma grab_ok fuel rem nxt segs va va_size live z D T lost m :
  stocked T (segs ++ D) lost m -> ranges_ok (palloc_ranges m) -> ra_ok (va_base m) va_size ((va, z) :: live) (va_alloc m) ->
  Forall (segment m false) segs -> 0 <= rem -> (4096 | rem) -> (nxt < List.length (palloc_ranges m))%nat ->
  rem / 4096 + Z.of_nat (List.length (palloc_ranges m) - nxt) <= Z.of_nat fuel ->
  gathers va_size live D T lost (sum_sizes segs + rem) m (grab fuel rem nxt segs va m).
Proof using.
  revert rem nxt segs m. induction fuel as [| fuel IH]; intros rem nxt segs m HS HR HV HF Hr Hd Hnxt Hfuel;
    cbn [grab]; (destruct (Z.leb_spec rem 0) as [H0 | H0];
    [exists (Some segs), m; do 2 (split; [reflexivity |]); split; [reflexivity |]; split_and!; try assumption; [reflexivity | lia] |]).
  { pose proof (Z.div_pos rem 4096). lia. }
  pose proof HR as [HRF HRl]. assert (H4 : 4096 <= rem) by (destruct Hd as [q ->]; lia).
  destruct (skip_large_ok _ nxt rem (drop_ends _ _ Hnxt HRl) H4) as (k & [sz al] & -> & Ek & Hle). rewrite lookup_drop in Ek. rewrite Ek.
  cbn [orf]. pose proof (lookup_lt_Some _ _ _ Ek) as Hlt. cbn [fst] in Hle.
  rewrite Forall_forall in HRF. pose proof (HRF _ (list_elem_of_lookup_2 _ _ _ Ek)) as Hreq. cbn [fst snd] in Hreq.
  destruct (palloc_data sz al false T _ lost m HS Hreq) as (r & m1 & -> & F1 & V1 & S1 & HS1).
  destruct (frame_ranges _ _ F1) as (ER & EB & _). destruct Hreq as (Hsz & Hdsz & _). destruct r as [p |].
  - destruct HS1 as [HS1 Hseg]. eapply (gathers_via _ _ _ _ _ _ _ m m1); [exact F1 | exact V1 | exact S1 | |
      apply IH; rewrite ?ER, ?EB, ?V1; try assumption; try lia].
    + rewrite sum_sizes_snoc. lia.
    + refine (stocked_perm _ _ _ _ _ _ HS1). rewrite <- app_assoc. apply Permutation_middle.
    + rewrite Forall_app. split; [| constructor; [| constructor]]; [now apply (segments_frame _ _ _ _ F1) | now apply (segment_frame _ _ _ _ F1)].
    + now apply Z.divide_sub_r.
    + destruct Hd as [a ->], Hdsz as [b ->]. rewrite <- Z.mul_sub_distr_r, Z.div_mul in * by lia. lia.
  - rewrite ER. destruct (Nat.eqb_spec (S (nxt + k)) (List.length (palloc_ranges m))) as [Eend | Nend].
    + destruct (pfree_all_data T segs _ D lost m1 HS1 (Permutation_refl _)) as (m2 & -> & F2 & V2 & S2 & HS2).
      destruct (frame_ranges _ _ F2) as (_ & EB2 & _).
      destruct (free_va_ok va_size ((va, z) :: live) live m2 va z) as (a & -> & Hok); [now rewrite EB2, EB, V2, V1 | reflexivity |].
      exists None, (with_va a m2). split; [reflexivity |]. split; [change (frame (with_va a m2)) with (frame m2); congruence |].
      split; [intros; change (seen T (with_va a m2) v k0 e) with (seen T m2 v k0 e); now rewrite S2, S1 |].
      split; [now apply stocked_va | now rewrite <- EB, <- EB2].
    + eapply (gathers_via _ _ _ _ _ _ _ m m1); [exact F1 | exact V1 | exact S1 | reflexivity |
        apply IH; rewrite ?ER, ?EB, ?V1; try assumption; try lia; now apply (segments_frame _ _ _ _ F1)].
Qed.

(** ** The invariant *)
Definition va_range (vm : VirtMapping) : Z * Z := (va_addr vm, vm_size vm).
Definition data (vms : list VirtMapping) : list (Z * Z) := concat (map paddrs vms).

(** A live mapping: its pages translate its range, and no others do. *)
Definition placed T m (vm : VirtMapping) : Prop :=
  let v := va_addr vm - va_base m in
  range m (va_addr vm) (vm_size vm) /\ vm_size vm = sum_sizes (paddrs vm) /\ Forall (segment m false) (paddrs vm) /\
  whole T m v (v + vm_size vm) /\
  forall u, v <= u < v + vm_size vm -> exists p o, backing (paddrs vm) (u - v) = Some (p, o) /\
    translates T m u (stored_addr m false p) (stored_addr m false p + o).

(** The pages of the [vms] are what the tables hold. *)
Definition standing T (vms : list VirtMapping) m : Prop :=
  Forall (placed T m) vms /\
  forall v k e, seen T m v k e -> exists vm, In vm vms /\ in_range (va_addr vm) (vm_size vm) (v + va_base m).

(** The [vms] are mapped, and nothing else; the address ranges [leaked] and the
    table pages [lost] are out of reach. *)
Record laid_out T (va_size : Z) (vms : list VirtMapping) (leaked lost : list (Z * Z)) m : Prop := {
  l_stock : stocked T (data vms) lost m;
  l_va : ra_ok (va_base m) va_size (map va_range vms ++ leaked) (va_alloc m);
  l_size : 0 <= va_base m /\ va_size <= 2 ^ 48 /\ va_base m + va_size <= 2 ^ 63;
  l_ranges : ranges_ok (palloc_ranges m);
  l_stand : standing T vms m
}.

Lemma placed_keep T T' m m' vm :
  frame m' = frame m ->
  (forall v k e, in_range (va_addr vm) (vm_size vm) (v + va_base m) -> (seen T' m' v k e <-> seen T m v k e)) ->
  placed T m vm -> placed T' m' vm.
Proof using.
  intros F S (Hr & Hs & HF & Hw & Hb). destruct (frame_ranges _ _ F) as (_ & EB & EM). unfold placed. rewrite EB.
  split; [unfold range in *; now rewrite EB |]. split; [exact Hs |]. split; [now apply (segments_frame _ _ _ _ F) |].
  assert (S' : forall v k e, va_addr vm - va_base m <= v < va_addr vm - va_base m + vm_size vm -> (seen T' m' v k e <-> seen T m v k e))
    by (intros v k e Hv; apply S; unfold in_range; lia).
  split.
  - intros u k e Hu V. apply (Hw u k e Hu). now apply S'.
  - intros u Hu. destruct (Hb u Hu) as (p & o & Ep & k & e & V & Hlo & Ea). exists p, o. split; [exact Ep |].
    exists k, e. rewrite (S' _ _ _ Hu). unfold stored_addr in *. rewrite EM. auto.
Qed.

Lemma config_frame m m' : config m' = config m -> frame m' = frame m /\ va_alloc m' = va_alloc m.
Proof using. intros E. injection E as E1 E2 E3 E4 E5 E6 E7 E8 E9 E10 E11. unfold frame. split; congruence. Qed.

(** Table operations on a stocked manager. *)
Lemma stocked_good T T' D lost lost' m m' :
  stocked T D lost m -> config m' = config m -> good None T' (if reserve_ptable m then lost' else D ++ lost') m' -> stocked T' D lost' m'.
Proof using.
  intros [_ (b & n & Hb & Ha & Hn & Hok)] C G. injection C as E1 E2 E3 E4 E5 E6 E7 E8 E9 E10 E11.
  unfold stocked, owned in *. rewrite E6. split; [exact G |]. destruct (reserve_ptable m) eqn:Er.
  - exists b, n. rewrite E10. do 3 (split; [assumption |]). rewrite E6 in E11. injection E11 as ->. exact Hok.
  - destruct (g_pool _ _ _ _ G) as (b' & n' & Hb' & Ha' & Hn' & _ & Hok'). exists b', n'. do 3 (split; [assumption |]).
    unfold pool in Hok'. rewrite E6 in Hok'. cbn [andb] in Hok'. refine (ra_perm _ _ _ _ _ Hok' _).
    rewrite !app_assoc. apply Permutation_app_tail, Permutation_app_comm.
Qed.

Lemma standing_keep T vms m m' :
  frame m' = frame m -> (forall v k e, seen T m' v k e <-> seen T m v k e) -> standing T vms m -> standing T vms m'.
Proof using.
  intros F S [HF Ho]. destruct (frame_ranges _ _ F) as (_ & EB & _). split.
  - eapply Forall_impl; [exact HF |]. intros vm. apply placed_keep; auto.
  - intros v k e V%S. rewrite EB. exact (Ho _ _ _ V).
Qed.

(** A range that is clear of the live mappings is not translated. *)
Lemma standing_clear T vms m va size leaked :
  standing T vms m -> Forall (disjoint_from va size) (map va_range vms ++ leaked) -> clear T m (va - va_base m) size.
Proof using.
  intros [_ Ho] HF v k e Hv V. destruct (Ho _ _ _ V) as (vm & Hin & Hr).
  rewrite Forall_app, Forall_map, !Forall_forall in HF. destruct HF as [HF _]. specialize (HF vm). rewrite list_elem_of_In in HF.
  specialize (HF Hin). unfold disjoint_from, va_range, in_range in *. cbn in HF. lia.
Qed.

(** Requests that 64-bit arithmetic can serve. *)
Definition request_ok (size align : Z) : Prop := 0 <= size <= 2 ^ 60 /\ (align <= 1 \/ (pow2_align align /\ align <= 2 ^ 60)).

Lemma va_align_ok size align :
  4096 <= size -> (4096 | size) -> size <= 2 ^ 60 -> align <= 1 \/ (pow2_align align /\ align <= 2 ^ 60) ->
  page_request size (Z.max (Z.shiftl 1 (bit_length size - 1)) (Z.max align 1)).
Proof using.
  intros Hs Hd Hhi Ha. unfold bit_length. rewrite (proj2 (Z.eqb_neq size 0)) by lia. rewrite Z.add_simpl_r, Z.shiftl_1_l.
  pose proof (Z.log2_spec size ltac:(lia)) as [Hl _]. assert (H12 : 12 <= Z.log2 size) by (apply Z.log2_le_pow2; lia).
  assert (HP : exists k, 12 <= k /\ Z.max (2 ^ Z.log2 size) (Z.max align 1) = 2 ^ k).
  { pose proof (Z.pow_le_mono_r 2 12 (Z.log2 size) ltac:(lia) H12).
    destruct (Z.le_gt_cases align (2 ^ Z.log2 size)); [exists (Z.log2 size); split; lia |].
    destruct Ha as [Ha | [[Hpos Hp] _]]; [lia |]. exists (Z.log2 align). split; [| lia].
    transitivity (Z.log2 size); [exact H12 |]. apply Z.log2_le_pow2; lia. }
  set (al := Z.max _ _) in *. assert (Hal : al <= 2 ^ 60) by (unfold al; destruct Ha as [| [_ ]]; lia).
  destruct HP as (k & Hk & Ek). split; [exact Hs |]. split; [exact Hd |]. split.
  - split; [rewrite Ek; lia |]. now rewrite Ek, Z.log2_pow2 by lia.
  - split; [| lia]. rewrite Ek. change 4096 with (2 ^ 12). exists (2 ^ (k - 12)). rewrite <- Z.pow_add_r by lia. f_equal. lia.
Qed.

(** ** Allocation *)
Lemma stocked_rest T D lost m : stocked T D lost m -> good None T (if reserve_ptable m then lost else D ++ lost) m.
Proof using. now intros [G _]. Qed.

(** The memory behind a request. *)
Lemma segments_ok (contiguous : bool) va va_size live size D T lost m :
  stocked T D lost m -> ranges_ok (palloc_ranges m) -> ra_ok (va_base m) va_size ((va, size) :: live) (va_alloc m) ->
  page_request size 4096 ->
  exists o m' kept,
    (if contiguous then
       let! (p, m) := palloc size 0x1000 true false m in inl (match p with Some p => Some [(p, size)] | None => None end, m)
     else grab (grab_fuel size (palloc_ranges m)) size 0 [] va m) = inl (o, m') /\
    frame m' = frame m /\ (forall v k e, seen T m' v k e <-> seen T m v k e) /\ (contiguous = false -> kept = []) /\
    match o with
    | Some segs => stocked T (segs ++ D) lost m' /\ va_alloc m' = va_alloc m /\ Forall (segment m false) segs /\ sum_sizes segs = size
    | None => stocked T D lost m' /\ ra_ok (va_base m) va_size (live ++ kept) (va_alloc m')
    end.
Proof using.
  intros HS HR HV Hreq. destruct contiguous.
  - destruct (palloc_data size 4096 true T D lost m HS Hreq) as (r & m1 & -> & F & V & S & H1).
    destruct r as [p |]; eexists _, m1, [(va, size)]; (split; [reflexivity |]); (split; [exact F |]); (split; [exact S |]); (split; [discriminate |]).
    + destruct H1 as [H1 Hseg]. split; [exact H1 |]. split; [exact V |]. split; [now constructor | cbn; lia].
    + split; [exact H1 |]. rewrite V. refine (ra_perm _ _ _ _ _ HV _). apply Permutation_cons_append.
  - destruct Hreq as (Hs & Hd & _). destruct HR as [HRF (l & al & El)].
    assert (Hlen : (0 < List.length (palloc_ranges m))%nat) by (rewrite El, length_app; cbn; lia).
    destruct (grab_ok (grab_fuel size (palloc_ranges m)) size 0 [] va va_size live size D T lost m) as (o & m1 & -> & F & S & H1);
      try assumption; try lia; [split; eauto | constructor | unfold grab_fuel; pose proof (Z.div_pos size 4096); lia |].
    exists o, m1, []. do 3 (split; [reflexivity || assumption |]). split; [reflexivity |]. rewrite app_nil_r. destruct o; [| exact H1].
    destruct H1 as (? & ? & ? & Hsum). auto.
Qed.

(** Mapping the memory adds a live mapping. *)
Lemma map_placed T va_size vms leaked lost m va size segs uncached :
  stocked T (segs ++ data vms) lost m -> ra_ok (va_base m) va_size ((va, size) :: map va_range vms ++ leaked) (va_alloc m) ->
  0 <= va_base m /\ va_size <= 2 ^ 48 /\ va_base m + va_size <= 2 ^ 63 -> ranges_ok (palloc_ranges m) -> standing T vms m ->
  range m va size -> sum_sizes segs = size -> Forall (segment m false) segs ->
  map_range va size segs Phys uncached false m = inr NoTablePage \/
  exists m' T', map_range va size segs Phys uncached false m = inl (mkMapping va size segs Phys uncached false, m') /\
    frame m' = frame m /\ laid_out T' va_size (mkMapping va size segs Phys uncached false :: vms) leaked lost m'.
Proof using.
  intros HS HV Hsz HR Hst Hr Es HF. destruct (ra_live _ _ _ _ HV) as [[Hd _] _].
  destruct (map_ok T _ m va size segs Phys uncached false (stocked_rest _ _ _ _ HS) Hr (eq_sym Es) HF (standing_clear _ _ _ _ _ _ Hst Hd))
    as [E | (m' & T' & E & G' & C & O & I & W)]; [now left | right].
  exists m', T'. split; [exact E |]. destruct (config_frame _ _ C) as [F V]. split; [exact F |].
  destruct (frame_ranges _ _ F) as (ER & EB & EM). destruct Hst as [Hpl Ho]. split.
  - exact (stocked_good _ _ _ _ _ _ _ HS C G').
  - rewrite EB, V. exact HV.
  - now rewrite EB.
  - now rewrite ER.
  - split; [constructor |].
    + unfold placed. cbn [va_addr vm_size paddrs]. rewrite EB. split; [unfold range in *; now rewrite EB |]. split; [easy |].
      split; [now apply (segments_frame _ _ _ _ F) |]. split; [exact W |]. intros u Hu. unfold stored_addr. rewrite EM. exact (I u Hu).
    + rewrite Forall_forall in Hpl |- *. intros vm Hvm. refine (placed_keep _ _ _ _ _ F _ (Hpl _ Hvm)). intros v k e Hv. apply O.
      rewrite Forall_app, Forall_map, !Forall_forall in Hd. specialize (proj1 Hd _ Hvm). unfold disjoint_from, va_range, in_range in *. cbn. lia.
    + intros v k e Vs. rewrite EB. destruct (decide (va - va_base m <= v < va - va_base m + size)) as [Hin | Hout].
      * eexists. split; [now left |]. unfold in_range. cbn. lia.
      * apply O in Vs; [| exact Hout]. destruct (Ho _ _ _ Vs) as (vm & Hvm & Hv). exists vm. split; [now right | exact Hv].
Qed.

Lemma valloc_ok T va_size vms leaked lost m size align uncached contiguous :
  laid_out T va_size vms leaked lost m -> request_ok size align ->
  valloc size align uncached contiguous m = inr NoTablePage \/
  exists o m' T' leaked', valloc size align uncached contiguous m = inl (o, m') /\ frame m' = frame m /\
    (contiguous = false -> leaked' = leaked) /\
    laid_out T' va_size (match o with Some vm => vm :: vms | None => vms end) leaked' lost m'.
Proof using.
  intros [HS HV Hsz HR Hst] [Hs Ha]. unfold valloc. change 0x1000 with 4096.
  destruct (round_up_page (Z.max size 1) ltac:(lia)) as (r & -> & Hr & Hd). cbn [orf].
  assert (H4 : 4096 <= r <= 2 ^ 60) by (destruct Hd as [q ->]; lia).
  pose proof (va_align_ok r align ltac:(lia) Hd ltac:(lia) Ha) as Hreq. set (al := Z.max (Z.shiftl _ _) _) in *.
  destruct Hreq as (_ & _ & (Hal & Hpow) & Hdal & Hsum).
  destruct (ra_alloc_ok _ _ _ _ r al HV ltac:(lia) Hal Hpow Hsum) as (o & a & -> & Ho). cbn [orf]. destruct o as [va |].
  2:{ right. exists None, (with_va a m), T, leaked. do 2 (split; [reflexivity |]). split; [reflexivity |].
      split; try assumption. now apply stocked_va. }
  destruct Ho as (HV' & Hmod & Hlo & Hhi & _).
  assert (Hrange : range m va r).
  { destruct Hdal as [q Hq]. apply Z.mod_divide in Hmod as [j Hj]; [| lia].
    unfold range. split; [lia |]. split; [exists (j * q); lia |]. split; [lia |]. split; [exact Hd | lia]. }
  destruct (segments_ok contiguous va va_size (map va_range vms ++ leaked) r (data vms) T lost (with_va a m))
    as (segs & m1 & kept & -> & F1 & S1 & Hk & H1); [now apply stocked_va | exact HR | exact HV' | |].
  { split; [lia |]. split; [exact Hd |]. split; [now split |]. split; [apply Z.divide_refl | lia]. }
  change (frame (with_va a m)) with (frame m) in F1. destruct (frame_ranges _ _ F1) as (ER & EB & _).
  pose proof (standing_keep _ _ _ m1 F1 S1 Hst) as Hst1. destruct segs as [segs |].
  - destruct H1 as (HS1 & V1 & HF1 & Es).
    destruct (map_placed T va_size vms leaked lost m1 va r segs uncached HS1) as [-> | (m2 & T2 & -> & F2 & L)];
      try assumption; rewrite ?EB, ?ER, ?V1; try assumption; [unfold range in *; now rewrite EB | now apply (segments_frame _ _ _ _ F1) | now left |].
    right. eexists _, m2, T2, leaked. split; [reflexivity |]. split; [congruence |]. split; [reflexivity | exact L].
  - destruct H1 as [HS1 HV1]. right. exists None, m1, T, (leaked ++ kept). split; [reflexivity |]. split; [exact F1 |].
    split; [intros Hc; rewrite (Hk Hc); apply app_nil_r |]. split; try assumption; rewrite ?EB, ?ER; try assumption. now rewrite app_assoc.
Qed.

(** ** Release *)
Lemma data_cons vm vms : data (vm :: vms) = paddrs vm ++ data vms.
Proof using. reflexivity. Qed.

Lemma data_perm vms vms' : Permutation vms vms' -> Permutation (data vms) (data vms').
Proof using. intros P. unfold data. induction P; cbn; [reflexivity | now apply Permutation_app_head | now rewrite !app_assoc, (Permutation_app_comm (paddrs y)) | etransitivity; eassumption]. Qed.

Lemma placed_mapped T rest m vm a :
  good None T rest m -> placed T m vm -> in_range (va_addr vm) (vm_size vm) a ->
  exists p o, backing (paddrs vm) (a - va_addr vm) = Some (p, o) /\ resolve a m = inl (Some (p + o)).
Proof using.
  intros G (Hr & Es & HF & Hw & Hb) Ha. destruct (Hb (a - va_base m)) as (p & o & Ep & Ht); [unfold in_range in Ha; lia |].
  replace (a - va_base m - (va_addr vm - va_base m)) with (a - va_addr vm) in Ep by lia. exists p, o. split; [exact Ep |].
  destruct (backing_in _ _ _ _ Ep) as (n & Hin & Ho); [unfold in_range in Ha; lia |].
  rewrite Forall_forall in HF. specialize (HF (p, n)). rewrite list_elem_of_In in HF.
  exact (resolve_backed T rest m m a p n o false G (range_addressable _ _ _ _ Hr Ha) eq_refl (HF Hin) Ho ltac:(discriminate) Ht).
Qed.

Lemma vfree_ok T va_size vm vms vms' leaked lost m :
  laid_out T va_size vms leaked lost m -> Permutation vms (vm :: vms') ->
  exists m' T' lost', vfree vm m = inl m' /\ frame m' = frame m /\ laid_out T' va_size vms' leaked lost' m'.
Proof using.
  intros [HS HV Hsz HR [Hpl Ho]] P. assert (Hin : In vm vms) by (rewrite P; now left).
  rewrite Forall_forall in Hpl. setoid_rewrite list_elem_of_In in Hpl. pose proof (Hpl _ Hin) as (Hr & Es & HF & Hw & Hb).
  pose proof (stocked_rest _ _ _ _ HS) as G. unfold vfree.
  destruct (unmap_range_good T _ m (va_addr vm) (vm_size vm) G Hr) as (m1 & T1 & new & -> & G1 & C1 & S1 & _).
  { intros a Ha. destruct (placed_mapped _ _ _ _ _ G (Hpl _ Hin) Ha) as (p & o & _ & ->). discriminate. }
  { exact Hw. }
  destruct (config_frame _ _ C1) as [F1 V1]. destruct (frame_ranges _ _ F1) as (_ & EB1 & _).
  assert (HS1 : stocked T1 (data vms) (new ++ lost) m1).
  { apply (stocked_good T T1 _ lost _ m m1 HS C1). refine (good_perm _ _ _ _ _ _ G1). destruct (reserve_ptable m); [reflexivity |].
    apply Permutation_app_swap_app. }
  apply (ra_perm _ _ _ ((va_addr vm, vm_size vm) :: map va_range vms' ++ leaked)) in HV; [| now rewrite P].
  pose proof (proj1 (ra_live _ _ _ _ HV)) as [Hdj _]. rewrite <- V1, <- EB1 in HV.
  destruct (free_va_ok _ _ _ m1 _ _ HV (Permutation_refl _)) as (a & -> & HV').
  destruct (pfree_all_data T1 (paddrs vm) (data vms) (data vms') (new ++ lost) (with_va a m1)) as (m2 & -> & F2 & V2 & S2 & HS2);
    [now apply stocked_va | rewrite <- data_cons; now apply data_perm |].
  change (frame (with_va a m1)) with (frame m1) in F2. rewrite F1 in F2. destruct (frame_ranges _ _ F2) as (ER & EB & _).
  exists m2, T1, (new ++ lost). split; [reflexivity |]. split; [exact F2 |].
  assert (S : forall v k e, seen T1 m2 v k e <-> seen T m v k e /\ ~ in_range (va_addr vm) (vm_size vm) (v + va_base m)).
  { intros v k e. rewrite S2. change (seen T1 (with_va a m1) v k e) with (seen T1 m1 v k e). rewrite S1. unfold in_range.
    split; intros [X Y]; (split; [exact X | lia]). }
  split; try assumption; rewrite ?EB, ?ER, ?V2; try assumption; [now rewrite <- EB1 |]. split.
  - rewrite Forall_forall. intros vm' Hvm'. assert (Hin' : In vm' vms) by (rewrite P; right; now apply list_elem_of_In).
    refine (placed_keep _ _ _ _ _ F2 _ (Hpl _ Hin')). intros v k e Hv. rewrite S. split; [tauto |]. intros X. split; [exact X |].
    rewrite Forall_app, Forall_map, !Forall_forall in Hdj. specialize (proj1 Hdj _ Hvm'). unfold disjoint_from, va_range, in_range in *. cbn. lia.
  - intros v k e V. rewrite EB. apply S in V as [V Hno]. destruct (Ho _ _ _ V) as (vm' & Hvm' & Hv). exists vm'. split; [| exact Hv].
    rewrite P in Hvm'. destruct Hvm' as [<- | Hvm']; [destruct (Hno Hv) | exact Hvm'].
Qed.

(** ** What the invariant says *)

Lemma stocked_disjoint T D lost m : stocked T D lost m -> disjoint_all D.
Proof using. intros [_ (b & n & _ & _ & _ & Hok)]. now apply ra_live in Hok as [(H1 & _)%disjoint_all_app _]. Qed.

(** No data shares memory with a table. *)
Lemma stocked_apart T D lost m k q p n :
  stocked T D lost m -> In (p, n) D -> T !! k = Some q -> disjoint_from q 4096 (p, n).
Proof using.
  intros HS Hin E%in_pages. pose proof HS as [G (b & l & _ & _ & _ & Hok)]. unfold disjoint_from. cbn.
  pose proof (ra_live _ _ _ _ Hok) as [Hd HF]. unfold owned in *. destruct (reserve_ptable m) eqn:Er.
  - destruct (g_pool _ _ _ _ G) as (b0 & n0 & _ & _ & _ & Hap & Hok0). specialize (Hap Er _ _ _ Hok).
    destruct (ra_live _ _ _ _ Hok0) as [_ HL]. rewrite Forall_forall in HL, HF.
    specialize (HL (q, 4096)). rewrite list_elem_of_In, in_app_iff in HL. specialize (HL (or_introl E)).
    specialize (HF (p, n)). rewrite list_elem_of_In, in_app_iff in HF. specialize (HF (or_introl Hin)). cbn in HL, HF. lia.
  - apply disjoint_all_app in Hd as (_ & _ & Hd). specialize (Hd (p, n) (q, 4096) Hin ltac:(apply in_app_iff; now left)).
    unfold disjoint_from in Hd. cbn in Hd. lia.
Qed.

(** Disjoint segments back different offsets with different memory. *)
Lemma backing_inj segs x y p q o o' :
  disjoint_all segs -> 0 <= x -> 0 <= y -> backing segs x = Some (p, o) -> backing segs y = Some (q, o') -> p + o = q + o' -> x = y.
Proof using.
  revert x y. induction segs as [| [s n] segs IH]; intros x y Hd Hx Hy; [discriminate |]. cbn. destruct Hd as [HF Hd]. cbn in HF.
  rewrite Forall_forall in HF.
  assert (K : forall z r o, n <= z -> backing segs (z - n) = Some (r, o) -> s + n <= r + o \/ r + o < s).
  { intros z r w Hz Er. destruct (backing_in _ _ _ _ Er ltac:(lia)) as (k & Hin & Hw). specialize (HF (r, k)).
    rewrite list_elem_of_In in HF. specialize (HF Hin). unfold disjoint_from in HF. cbn in HF. lia. }
  destruct (Z.ltb_spec x n) as [Lx | Lx], (Z.ltb_spec y n) as [Ly | Ly]; intros Ex Ey E.
  - injection Ex as <- <-. injection Ey as <- <-. lia.
  - injection Ex as <- <-. specialize (K _ _ _ Ly Ey). lia.
  - injection Ey as <- <-. specialize (K _ _ _ Lx Ex). lia.
  - specialize (IH (x - n) (y - n) Hd ltac:(lia) ltac:(lia) Ex Ey E). lia.
Qed.

(** A translated address belongs to a live mapping. *)
Lemma laid_owner T va_size vms leaked lost m a :
  laid_out T va_size vms leaked lost m -> addressable m a -> resolve a m <> inl None ->
  exists vm, In vm vms /\ in_range (va_addr vm) (vm_size vm) a.
Proof using.
  intros L Ha Hn. pose proof (stocked_rest _ _ _ _ (l_stock _ _ _ _ _ _ L)) as G.
  destruct (resolve_found _ _ _ _ _ _ G (rebased_addr _ _ Ha)) as [(k & e & V & _) | [_ E]]; [| destruct (Hn E)].
  destruct (proj2 (l_stand _ _ _ _ _ _ L) _ _ _ V) as (vm & Hin & Hr). rewrite Z.sub_add in Hr. eauto.
Qed.

Lemma laid_mapped T va_size vms leaked lost m vm a :
  laid_out T va_size vms leaked lost m -> In vm vms -> in_range (va_addr vm) (vm_size vm) a ->
  exists p o, backing (paddrs vm) (a - va_addr vm) = Some (p, o) /\ resolve a m = inl (Some (p + o)).
Proof using.
  intros L Hin. pose proof (proj1 (l_stand _ _ _ _ _ _ L)) as HF. rewrite Forall_forall in HF. apply list_elem_of_In, HF in Hin.
  exact (placed_mapped _ _ _ _ _ (stocked_rest _ _ _ _ (l_stock _ _ _ _ _ _ L)) Hin).
Qed.

Lemma in_data vm vms s : In vm vms -> In s (paddrs vm) -> In s (data vms).
Proof using. intros Hin Hs. unfold data. apply in_concat. exists (paddrs vm). split; [now apply in_map | exact Hs]. Qed.

(** Memory is never shared: different addresses of live mappings are different bytes. *)
Lemma laid_injective T va_size vms leaked lost m a a' x :
  laid_out T va_size vms leaked lost m -> addressable m a -> addressable m a' ->
  resolve a m = inl (Some x) -> resolve a' m = inl (Some x) -> a = a'.
Proof using.
  intros L Ha Ha' E E'. destruct (laid_owner _ _ _ _ _ _ _ L Ha ltac:(congruence)) as (vm & Hin & Hr).
  destruct (laid_owner _ _ _ _ _ _ _ L Ha' ltac:(congruence)) as (vm' & Hin' & Hr').
  destruct (laid_mapped _ _ _ _ _ _ _ _ L Hin Hr) as (p & o & B & R). destruct (laid_mapped _ _ _ _ _ _ _ _ L Hin' Hr') as (q & o' & B' & R').
  rewrite E in R. rewrite E' in R'. injection R as R. injection R' as R'. unfold in_range in Hr, Hr'.
  pose proof (stocked_disjoint _ _ _ _ (l_stock _ _ _ _ _ _ L)) as Hd.
  destruct (in_split _ _ Hin) as (l1 & l2 & El). pose proof (data_perm vms (vm :: l1 ++ l2) ltac:(rewrite El; symmetry; apply Permutation_middle)) as P.
  rewrite P, data_cons in Hd. apply disjoint_all_app in Hd as (Hd & _ & Hx).
  assert (Hc : vm' = vm \/ In vm' (l1 ++ l2)) by (rewrite El, in_app_iff in Hin'; rewrite in_app_iff; destruct Hin' as [| [|]]; auto).
  destruct Hc as [-> | Hin2].
  - pose proof (backing_inj _ (a - va_addr vm) (a' - va_addr vm) _ _ _ _ Hd ltac:(lia) ltac:(lia) B B' ltac:(lia)). lia.
  - destruct (backing_in _ (a - va_addr vm) _ _ B ltac:(lia)) as (n & I1 & O1).
    destruct (backing_in _ (a' - va_addr vm') _ _ B' ltac:(lia)) as (n' & I2 & O2).
    specialize (Hx _ _ I1 (in_data _ _ _ Hin2 I2)). unfold disjoint_from in Hx. cbn in Hx. lia.
Qed.

(** ** Histories *)
Inductive request := Valloc (size align : Z) (uncached contiguous : bool) | Vfree (i : nat).

(** [Vfree i] frees the [i]-th live mapping, newest first. *)
Definition serve (r : request) (s : MemoryManager * list VirtMapping) : (MemoryManager * list VirtMapping) + Panic :=
  let '(m, vms) := s in
  match r with
  | Valloc size align uncached contiguous =>
      let! (vm, mgr) := valloc size align uncached contiguous m in
      inl (mgr, match vm with Some vm => vm :: vms | None => vms end)
  | Vfree i =>
      match vms !! i with
      | Some vm => let! mgr := vfree vm m in inl (mgr, delete i vms)
      | None => inl (m, vms)
      end
  end.

Fixpoint serve_all (rs : list request) (s : MemoryManager * list VirtMapping) : (MemoryManager * list VirtMapping) + Panic :=
  match rs with
  | [] => inl s
  | r :: rs => let! s := serve r s in serve_all rs s
  end.

Definition valid (r : request) : Prop := match r with Valloc size align _ _ => request_ok size align | Vfree _ => True end.

Lemma serve_all_ok va_size rs T vms leaked lost m :
  laid_out T va_size vms leaked lost m -> Forall valid rs ->
  serve_all rs (m, vms) = inr NoTablePage \/
  exists m' vms' T' leaked' lost', serve_all rs (m, vms) = inl (m', vms') /\ laid_out T' va_size vms' leaked' lost' m'.
Proof using.
  intros L HF. revert T vms leaked lost m L. induction HF as [| r rs Hr _ IH]; intros T vms leaked lost m L; cbn [serve_all].
  - right. exists m, vms, T, leaked, lost. split; [reflexivity | exact L].
  - destruct r as [size align uncached contiguous | i]; cbn [serve].
    + destruct (valloc_ok _ _ _ _ _ _ _ _ uncached contiguous L Hr) as [-> | (o & m1 & T1 & leaked1 & -> & _ & _ & L1)]; [now left |].
      exact (IH _ _ _ _ _ L1).
    + destruct (vms !! i) as [vm |] eqn:Ei; [| exact (IH _ _ _ _ _ L)].
      destruct (vfree_ok _ _ _ _ _ _ _ _ L (delete_Permutation _ _ _ Ei)) as (m1 & T1 & lost1 & -> & _ & L1).
      exact (IH _ _ _ _ _ L1).
Qed.

Lemma new_laid_out ph ip vram_size va_base va_size reserve ranges mc :
  ip.1.1 < 12 -> 2 ^ 21 <= vram_size <= VramPhys.len ph -> VramPhys.len ph + mc <= 2 ^ 48 -> vram_size < 2 ^ 48 ->
  0 <= va_base -> 0 < va_size <= 2 ^ 48 -> va_base + va_size < 2 ^ 63 -> 0 <= mc -> (4096 | mc) -> ranges_ok ranges ->
  exists m T, new ph ip Geometry.gfx11 vram_size va_base va_size reserve ranges = inl m /\
    laid_out T va_size [] [] [] (set_mc_base mc m).
Proof using.
  intros Hip Hvram Hlen Hv48 Hb Hva Hva2 Hmc Hmcd HR.
  destruct (new_good ph ip vram_size va_base va_size reserve ranges Hip Hvram ltac:(lia) Hv48 Hb ltac:(lia) Hva2)
    as (m & root & E & Eb & Er & El & [U1 U2] & Hg). destruct (Hg mc Hmc Hmcd Hlen) as [G Hn]. rewrite <- Eb in *.
  exists m, {[(0%nat, 0) := root]}. split; [exact E |].
  split; [| exact U1 | cbn; lia | cbn; now rewrite Er | split; [constructor | intros v k e V; destruct (Hn _ _ _ V)]].
  split; [cbn; now destruct (reserve_ptable m) |]. unfold owned. cbn [set_mc_base reserve_ptable phys pa_alloc data concat map app].
  destruct (reserve_ptable m) eqn:Ersv; [exact (U2 eq_refl) |].
  destruct (g_pool _ _ _ _ G) as (b & n & ? & ? & ? & _ & Hok). exists b, n. do 3 (split; [assumption |]).
  revert Hok. unfold pool. cbn [set_mc_base reserve_ptable pa_alloc ptable_alloc]. rewrite Ersv. cbn [andb].
  now destruct (reserve_ptable _).
Qed.

(** C20: Over the life of a manager.  From construction on, a history of
    allocations and frees of live mappings either finds no page for a table or
    runs without a panic, and then: the live mappings overlap neither in
    addresses nor in memory, none reaches the root table, every address of a
    live mapping translates to the byte that backs it, no two addresses
    translate to the same byte, and no other address is translated. *)
Theorem mappings_isolated ph ip vram_size va_base va_size reserve ranges mc rs :
  ip.1.1 < 12 -> 2 ^ 21 <= vram_size <= VramPhys.len ph -> VramPhys.len ph + mc <= 2 ^ 48 -> vram_size < 2 ^ 48 ->
  0 <= va_base -> 0 < va_size <= 2 ^ 48 -> va_base + va_size < 2 ^ 63 -> 0 <= mc -> (4096 | mc) -> ranges_ok ranges -> Forall valid rs ->
  exists m0, new ph ip Geometry.gfx11 vram_size va_base va_size reserve ranges = inl m0 /\
    (serve_all rs (set_mc_base mc m0, []) = inr NoTablePage \/
     exists m vms, serve_all rs (set_mc_base mc m0, []) = inl (m, vms) /\
       disjoint_all (map va_range vms) /\ disjoint_all ((root_pt m, 4096) :: data vms) /\
       (forall vm a, In vm vms -> in_range (va_addr vm) (vm_size vm) a ->
          exists p o, backing (paddrs vm) (a - va_addr vm) = Some (p, o) /\ resolve a m = inl (Some (p + o))) /\
       (forall a a' x, addressable m a -> addressable m a' -> resolve a m = inl (Some x) -> resolve a' m = inl (Some x) -> a = a') /\
       (forall a, addressable m a -> (forall vm, In vm vms -> ~ in_range (va_addr vm) (vm_size vm) a) -> resolve a m = inl None)).
Proof using.
  intros Hip Hvram Hlen Hv48 Hb Hva Hva2 Hmc Hmcd HR HF.
  destruct (new_laid_out ph ip vram_size va_base va_size reserve ranges mc) as (m0 & T0 & E0 & L0); try assumption.
  exists m0. split; [exact E0 |]. destruct (serve_all_ok va_size rs T0 [] [] [] _ L0 HF) as [E | (m & vms & T & leaked & lost & E & L)]; [now left | right].
  exists m, vms. pose proof (l_stock _ _ _ _ _ _ L) as HS. split; [exact E |].
  destruct (ra_live _ _ _ _ (l_va _ _ _ _ _ _ L)) as [(HV & _)%disjoint_all_app _]. split; [exact HV |]. split.
  { split; [| exact (stocked_disjoint _ _ _ _ HS)]. rewrite Forall_forall. intros [p n] Hin%list_elem_of_In.
    exact (stocked_apart _ _ _ _ _ _ _ _ HS Hin (t_root _ _ _ _ _ _ _ (g_tree _ _ _ _ (stocked_rest _ _ _ _ HS)))). }
  split; [intros vm a; exact (laid_mapped _ _ _ _ _ _ vm a L) |]. split; [intros a a' x; exact (laid_injective _ _ _ _ _ _ a a' x L) |].
  intros a Ha Hno. destruct (resolve_found _ _ _ _ _ _ (stocked_rest _ _ _ _ HS) (rebased_addr _ _ Ha)) as [(k & e & V & _) | [_ En]]; [| exact En].
  destruct (proj2 (l_stand _ _ _ _ _ _ L) _ _ _ V) as (vm & Hin & Hr). rewrite Z.sub_add in Hr. destruct (Hno _ Hin Hr).
Qed.
End Vm.

(** ** A concrete history *)
Lemma page_request_dec size al :
  (4096 <=? size) && (size mod 4096 =? 0) && (0 <? al) && (2 ^ Z.log2 al =? al) && (al mod 4096 =? 0) && (size + al <? 2 ^ 62) = true ->
  page_request size al.
Proof.
  intros Hb. zb. unfold page_request, pow2_align. split_and!; try assumption; try lia; apply Z.mod_divide; lia.
Qed.

Lemma gfx11_ranges_ok : ranges_ok gfx11_palloc_ranges.
Proof.
  split; [| exists (removelast gfx11_palloc_ranges), 4096; reflexivity].
  rewrite Forall_forall. intros r Hr%list_elem_of_In. apply page_request_dec. revert r Hr. apply forallb_forall. vm_compute. reflexivity.
Qed.

(** A buffer of several pieces, a small one, a contiguous one, and the first freed. *)
Definition demo_requests : list request :=
  [Valloc 0x207123 1 false false; Valloc 0 0 true false; Valloc 0x5000 0x10000 false true; Vfree 2; Valloc (2 ^ 21) 1 false false].

Lemma demo_requests_valid : Forall valid demo_requests.
Proof.
  assert (H : forall size align u c, request_ok size align -> valid (Valloc size align u c)) by auto.
  repeat (apply Forall_cons; split; [first [exact I | apply H; split; [lia |]] |]); [left; lia | left; lia | right | left; lia | constructor].
  split; [split; [lia | reflexivity] | lia].
Qed.

Lemma mappings_isolated_witness :
  exists m0, new (A := Am.TlsfAllocator) (VramPhys.mk (2 ^ 30) ∅) (9, 4, 3) Geometry.gfx11 (2 ^ 28) (2 ^ 41) (2 ^ 36) true gfx11_palloc_ranges = inl m0 /\
    (serve_all demo_requests (set_mc_base MC m0, []) = inr NoTablePage \/
     exists m vms, serve_all demo_requests (set_mc_base MC m0, []) = inl (m, vms) /\
       disjoint_all (map va_range vms) /\ disjoint_all ((root_pt m, 4096) :: data vms) /\
       (forall vm a, In vm vms -> in_range (va_addr vm) (vm_size vm) a ->
          exists p o, backing (paddrs vm) (a - va_addr vm) = Some (p, o) /\ resolve a m = inl (Some (p + o))) /\
       (forall a a' x, addressable m a -> addressable m a' -> resolve a m = inl (Some x) -> resolve a' m = inl (Some x) -> a = a') /\
       (forall a, addressable m a -> (forall vm, In vm vms -> ~ in_range (va_addr vm) (vm_size vm) a) -> resolve a m = inl None)).
Proof.
  apply mappings_isolated; try (cbn; unfold MC; lia);
    [now exists (2 ^ 28) | exact gfx11_ranges_ok | exact demo_requests_valid].
Defined.

(** The history of the witness runs to the end. *)
Example demo_history :
  shown (fun s => map va_range (snd s)) (serve_all demo_requests (demo true, [])) =
  Some [(2 ^ 41 + 0x400000, 0x200000); (2 ^ 41 + 0x210000, 0x5000); (2 ^ 41 + 0x208000, 0x1000)].
Proof. vm_compute. reflexivity. Qed.
