(* ===== verification/Builder.v ===== *)
(** * Building nodes

    The state monad the code that constructs nodes is written in: a
    computation takes the intern table and returns it with a result, or panics
    ([None]).  [Interner] is what the table promises its clients — proved for
    the table of [HashCons] — and [yields] states what a computation returns
    together with the promise that the table only grows. *)

From stdpp Require Import relations.
From S2P Require Import Prelude F64 DType Cast ConstVal Ops Payload UOp HashCons Rebuild.

(** ** The monad *)

Definition Build (S A : Type) : Type := S -> option (S * A).

Section Monad.
Context {S : Type}.

Definition ret {A} (a : A) : Build S A := fun s => Some (s, a).
Definition panic {A} : Build S A := fun _ => None.
Definition bind {A B} (m : Build S A) (k : A -> Build S B) : Build S B :=
  fun s => match m s with Some (s, a) => k a s | None => None end.

(** Rust's [?] on an [Option] and on a [Result]. *)
Definition obind {A B} (m : Build S (option A)) (k : A -> Build S (option B)) : Build S (option B) :=
  bind m (fun o => match o with Some a => k a | None => ret None end).
Definition rbind {A B E} (m : Build S (A + E)) (k : A -> Build S (B + E)) : Build S (B + E) :=
  bind m (fun r => match r with inl a => k a | inr e => ret (inr e) end).

(** [Result::ok], [Result::expect]. *)
Definition ok {A E} (m : Build S (A + E)) : Build S (option A) :=
  bind m (fun r => ret match r with inl a => Some a | inr _ => None end).
Definition expect {A E} (m : Build S (A + E)) : Build S A :=
  bind m (fun r => match r with inl a => ret a | inr _ => panic end).

(** [iter().map(f).collect::<Option<Vec<_>>>()]. *)
Fixpoint collect_some {A B} (f : A -> Build S (option B)) (l : list A) : Build S (option (list B)) :=
  match l with
  | [] => ret (Some [])
  | a :: l =>
      obind (f a) (fun b => obind (collect_some f l) (fun bs => ret (Some (b :: bs))))
  end.
Fixpoint collect_all {A B} (f : A -> Build S B) (l : list A) : Build S (list B) :=
  match l with
  | [] => ret []
  | a :: l => bind (f a) (fun b => bind (collect_all f l) (fun bs => ret (b :: bs)))
  end.
End Monad.

Declare Scope build_scope.
Delimit Scope build_scope with build.
Notation "'let*' x ':=' m 'in' k" := (bind m (fun x => k))
  (at level 10, x pattern, m at level 100, k at level 200) : build_scope.
Notation "'let*?' x ':=' m 'in' k" := (obind m (fun x => k))
  (at level 10, x pattern, m at level 100, k at level 200) : build_scope.
Notation "'let*!' x ':=' m 'in' k" := (rbind m (fun x => k))
  (at level 10, x pattern, m at level 100, k at level 200) : build_scope.
#[global] Open Scope build_scope.

(** ** What the intern table promises *)

(** Operations whose equality compares every field by value. *)
Definition plain {A} (op : Op A) : bool :=
  match op with
  | Op.Stage _ _ _ _ | Op.Range _ _ _ _ _ | Op.Wmma _ _ _ _ _ | Op.Program _ _ _ _ _ _ => false
  | _ => true
  end.

Class Interner (S : Type) := {
  new : Op UOp -> DType -> Build S UOp;
  table : S -> UOp -> Prop;
  settled : S -> Prop;
  settled_arena s : settled s -> Arena (table s);
  new_spec s op dtype s' u :
    settled s -> (forall v, In v (refs op) -> table s v) -> new op dtype s = Some (s', u) ->
    settled s' /\ (forall v, table s v -> table s' v) /\ table s' u /\ uop_dtype u = dtype /\
    (plain op = true -> uop_op u = op)
}.

(** ** Reasoning about computations *)
Section Logic.
Context {S : Type} `{I : !Interner S}.
Implicit Types s : S.

Definition grows s s' : Prop := forall v, table s v -> table s' v.

#[local] Instance grows_preorder : PreOrder grows.
Proof. split; unfold grows; [auto | intros a b c H1 H2; auto]. Qed.

(** From [s], [m] may only return with [P], in a settled table that has grown. *)
Definition yields {A} (s : S) (m : Build S A) (P : S -> A -> Prop) : Prop :=
  settled s -> forall s' a, m s = Some (s', a) -> settled s' /\ grows s s' /\ P s' a.

Definition on_some {A} (Q : S -> A -> Prop) : S -> option A -> Prop :=
  fun s o => match o with Some a => Q s a | None => True end.
Definition on_ok {A E} (Q : S -> A -> Prop) : S -> A + E -> Prop :=
  fun s r => match r with inl a => Q s a | inr _ => True end.

Lemma yields_ret {A} s (a : A) (P : S -> A -> Prop) : P s a -> yields s (ret a) P.
Proof. intros H Hs s' a' E. injection E as <- <-. split; [exact Hs | split; [reflexivity | exact H]]. Qed.

Lemma yields_settled {A} s (m : Build S A) (P : S -> A -> Prop) : (settled s -> yields s m P) -> yields s m P.
Proof. intros H Hs. now apply H. Qed.

Lemma yields_mono {A} s (m : Build S A) (P Q : S -> A -> Prop) :
  yields s m P -> (forall s' a, settled s' -> grows s s' -> P s' a -> Q s' a) -> yields s m Q.
Proof. intros H HPQ Hs s' a E. destruct (H Hs s' a E) as (H1 & H2 & H3). eauto. Qed.

Lemma yields_bind {A B} s (m : Build S A) (k : A -> Build S B) P Q :
  yields s m P ->
  (forall s1 a, settled s1 -> grows s s1 -> P s1 a -> yields s1 (k a) Q) ->
  yields s (bind m k) Q.
Proof.
  intros Hm Hk Hs s' b E. unfold bind in E. destruct (m s) as [[s1 a] |] eqn:Em; [| discriminate E].
  destruct (Hm Hs s1 a Em) as (Hs1 & G1 & HP).
  destruct (Hk s1 a Hs1 G1 HP Hs1 s' b E) as (Hs' & G2 & HQ).
  split; [exact Hs' | split; [etransitivity; eassumption | exact HQ]].
Qed.

Lemma yields_panic {A} s (P : S -> A -> Prop) : yields s panic P.
Proof. intros _ s' a E. discriminate E. Qed.

Lemma finds_obind {A B} s (m : Build S (option A)) (k : A -> Build S (option B)) P Q :
  yields s m (on_some P) ->
  (forall s1 a, settled s1 -> grows s s1 -> P s1 a -> yields s1 (k a) (on_some Q)) ->
  yields s (obind m k) (on_some Q).
Proof.
  intros Hm Hk. eapply yields_bind; [exact Hm |]. intros s1 [a |] Hs G HP; [now apply Hk |].
  now apply yields_ret.
Qed.

Lemma builds_rbind {A B E} s (m : Build S (A + E)) (k : A -> Build S (B + E)) P Q :
  yields s m (on_ok P) ->
  (forall s1 a, settled s1 -> grows s s1 -> P s1 a -> yields s1 (k a) (on_ok Q)) ->
  yields s (rbind m k) (on_ok Q).
Proof.
  intros Hm Hk. eapply yields_bind; [exact Hm |]. intros s1 [a | e] Hs G HP; [now apply Hk |].
  now apply yields_ret.
Qed.

Lemma finds_mono {A} s (m : Build S (option A)) (P Q : S -> A -> Prop) :
  yields s m (on_some P) -> (forall s' a, settled s' -> grows s s' -> P s' a -> Q s' a) ->
  yields s m (on_some Q).
Proof. intros H HPQ. eapply yields_mono; [exact H |]. intros s' [a |] Hs G HP; cbn; auto. Qed.

Lemma builds_mono {A E} s (m : Build S (A + E)) (P Q : S -> A -> Prop) :
  yields s m (on_ok P) -> (forall s' a, settled s' -> grows s s' -> P s' a -> Q s' a) ->
  yields s m (on_ok Q).
Proof. intros H HPQ. eapply yields_mono; [exact H |]. intros s' [a | e] Hs G HP; cbn; auto. Qed.

Lemma finds_ok {A E} s (m : Build S (A + E)) Q : yields s m (on_ok Q) -> yields s (ok m) (on_some Q).
Proof.
  intros H. eapply yields_bind; [exact H |]. intros s1 [a | e] _ _ HP; now apply yields_ret.
Qed.

Lemma yields_expect {A E} s (m : Build S (A + E)) Q : yields s m (on_ok Q) -> yields s (expect m) Q.
Proof.
  intros H. eapply yields_bind; [exact H |].
  intros s1 [a | e] _ _ HP; [now apply yields_ret | apply yields_panic].
Qed.

Lemma bind_ext {A B} s (m m' : Build S A) (k k' : A -> Build S B) :
  m s = m' s -> (forall s1 a, m s = Some (s1, a) -> k a s1 = k' a s1) -> bind m k s = bind m' k' s.
Proof. intros E Hk. unfold bind. rewrite <- E. destruct (m s) as [[s1 a] |]; [now apply Hk | reflexivity]. Qed.

(** Two computations that return the same from [s], with [P] of the result. *)
Definition agrees {A} (s : S) (m m' : Build S A) (P : S -> A -> Prop) : Prop :=
  yields s m P /\ (settled s -> m s = m' s).

Lemma agrees_refl {A} s (m : Build S A) P : yields s m P -> agrees s m m P.
Proof. now split. Qed.

Lemma agrees_settled {A} s (m m' : Build S A) P : (settled s -> agrees s m m' P) -> agrees s m m' P.
Proof. intros H. split; intros Hs; now apply H. Qed.

Lemma agrees_bind {A B} s (m m' : Build S A) (k k' : A -> Build S B) P Q :
  agrees s m m' P ->
  (forall s1 a, settled s1 -> grows s s1 -> P s1 a -> agrees s1 (k a) (k' a) Q) ->
  agrees s (bind m k) (bind m' k') Q.
Proof.
  intros [Hm Em] Hk. split.
  - eapply yields_bind; [exact Hm |]. intros s1 a Hs G HP. now apply Hk.
  - intros Hs. apply bind_ext; [now apply Em |]. intros s1 a E.
    destruct (Hm Hs s1 a E) as (Hs1 & G & HP). now apply (Hk s1 a Hs1 G HP).
Qed.

Lemma agrees_obind {A B} s (m : Build S (option A)) (k k' : A -> Build S (option B)) P Q :
  yields s m (on_some P) ->
  (forall s1 a, settled s1 -> grows s s1 -> P s1 a -> agrees s1 (k a) (k' a) (on_some Q)) ->
  agrees s (obind m k) (obind m k') (on_some Q).
Proof.
  intros Hm Hk. eapply agrees_bind; [apply agrees_refl, Hm |]. intros s1 [a |] Hs G HP; [now apply Hk |].
  now apply agrees_refl, yields_ret.
Qed.

(** Collecting, when what is known of an element survives growth. *)
Lemma finds_collect {A B} (f : A -> Build S (option B)) (R : S -> A -> B -> Prop) l : forall s,
  (forall s s' a b, grows s s' -> R s a b -> R s' a b) ->
  (forall s1 a, settled s1 -> grows s s1 -> In a l -> yields s1 (f a) (on_some (fun s' b => R s' a b))) ->
  yields s (collect_some f l) (on_some (fun s' bs => Forall2 (R s') l bs)).
Proof.
  induction l as [| a l IH]; intros s Hmono Hf; cbn [collect_some].
  - apply yields_ret. constructor.
  - intros Hs. eapply finds_obind; [apply Hf; [exact Hs | reflexivity | now left] | | exact Hs].
    intros s1 b Hs1 G1 Hb. eapply finds_obind.
    + apply IH; [exact Hmono |]. intros s2 a' Hs2 G2 Ha'.
      apply Hf; [exact Hs2 | etransitivity; eassumption | now right].
    + intros s2 bs _ G2 Hbs. apply yields_ret. constructor; [now apply (Hmono s1) | exact Hbs].
Qed.

Lemma yields_collect {A B} (f : A -> Build S B) (R : S -> A -> B -> Prop) l : forall s,
  (forall s s' a b, grows s s' -> R s a b -> R s' a b) ->
  (forall s1 a, settled s1 -> grows s s1 -> In a l -> yields s1 (f a) (fun s' b => R s' a b)) ->
  yields s (collect_all f l) (fun s' bs => Forall2 (R s') l bs).
Proof.
  induction l as [| a l IH]; intros s Hmono Hf; cbn [collect_all].
  - apply yields_ret. constructor.
  - intros Hs. eapply yields_bind; [apply Hf; [exact Hs | reflexivity | now left] | | exact Hs].
    intros s1 b Hs1 G1 Hb. eapply yields_bind.
    + apply IH; [exact Hmono |]. intros s2 a' Hs2 G2 Ha'.
      apply Hf; [exact Hs2 | etransitivity; eassumption | now right].
    + intros s2 bs _ G2 Hbs. apply yields_ret. constructor; [now apply (Hmono s1) | exact Hbs].
Qed.

(** Running a computation whose outcome is known. *)
Lemma yields_run {A} s (m : Build S A) P s' a :
  yields s m P -> settled s -> m s = Some (s', a) -> settled s' /\ grows s s' /\ P s' a.
Proof. intros H Hs E. exact (H Hs s' a E). Qed.

Lemma yields_new s op dtype :
  (forall v, In v (refs op) -> table s v) ->
  yields s (new op dtype)
    (fun s' u => table s' u /\ uop_dtype u = dtype /\ (plain op = true -> uop_op u = op)).
Proof. intros Hr Hs s' u E. destruct (new_spec s op dtype s' u Hs Hr E) as (H1 & H2 & H3). auto. Qed.

Lemma table_source s u v : settled s -> table s u -> In v (children u) -> table s v.
Proof. intros Hs Hu Hv. pose proof (settled_arena s Hs). exact (arena_source u v Hu Hv). Qed.

Lemma table_interned s u : settled s -> table s u -> interned u.
Proof. intros Hs Hu. pose proof (settled_arena s Hs). now apply (arena_interned (table s)). Qed.

Lemma table_id s u v : settled s -> table s u -> table s v -> uid u = uid v -> u = v.
Proof. intros Hs Hu Hv. pose proof (settled_arena s Hs). now apply (arena_id (G := table s)). Qed.
End Logic.

(** ** The table of [HashCons] is an interner *)

Lemma fmap_fmap {A B C} (f : A -> B) (g : B -> C) f' g' (op : Op A) :
  Op.fmap g g' (Op.fmap f f' op) = Op.fmap (fun a => g (f a)) (fun a => g' (f' a)) op.
Proof.
  destruct op; cbn [Op.fmap]; unfold ProgramInfo.fmap; rewrite ?map_map;
    repeat match goal with o : option A |- _ => destruct o end; try reflexivity.
  all: destruct info as [? ? [? |] ?]; cbn; rewrite ?map_map; reflexivity.
Qed.

Lemma fmap_same {A} (f f' : A -> A) (op : Op A) :
  plain op = true -> (forall v, In v (Op.children op) -> f v = v) -> Op.fmap f f' op = op.
Proof.
  intros Hp H. destruct op; try discriminate Hp; cbn [Op.fmap Op.children] in *;
    repeat match goal with o : option A |- _ => destruct o end; cbn [option_map Op.opt_list app] in *;
    rewrite ?H by (cbn [In]; tauto || (rewrite ?in_app_iff; cbn [In]; tauto)); try reflexivity.
  all: f_equal; rewrite <- map_id; apply map_ext_in; intros; apply H; cbn [In]; tauto.
Qed.

Lemma norm_op_plain {A} (op : Op A) : plain op = true -> norm_op op = op.
Proof. destruct op; intros H; reflexivity || discriminate H. Qed.

Lemma plain_norm {A} (op : Op A) : plain (norm_op op) = plain op.
Proof. destruct op; reflexivity. Qed.
Lemma plain_fmap {A B} (f g : A -> B) (op : Op A) : plain (Op.fmap f g op) = plain op.
Proof. destruct op; reflexivity. Qed.

(** Equal keys over one arena: equal operations. *)
Lemma op_key_plain st h h' op op' :
  Inv st -> (forall v, In v (Op.children op) -> alive st v) ->
  (forall v, In v (Op.children op') -> alive st v) ->
  plain op = true -> op_key h op = op_key h' op' -> op = op'.
Proof.
  intros Hi Ha Ha' Hp E.
  assert (Hc : Op.children op = Op.children op').
  { apply (alive_ids st); auto. eapply op_key_children, E. }
  assert (Hp' : plain op' = true).
  { apply (f_equal plain) in E. unfold op_key in E. rewrite !plain_norm, !plain_fmap in E. congruence. }
  unfold op_key in E. rewrite !norm_op_plain in E by (rewrite plain_fmap; assumption).
  set (g := fun i => from_option id (mkUOp 0 (Op.Noop UOp) (DType.Scalar Void))
              (find (fun u => uid u =? i) (Op.children op))).
  assert (Hg : forall v, In v (Op.children op) -> g (uid v) = v).
  { intros v Hv. unfold g. destruct (find _ _) as [w |] eqn:F.
    - apply find_some in F as [Hw Ew%Z.eqb_eq]. apply (alive_id st); auto.
    - apply find_none with (x := v) in F; [| exact Hv]. now rewrite Z.eqb_refl in F. }
  apply (f_equal (Op.fmap g g)) in E. rewrite !fmap_fmap in E.
  rewrite !fmap_same in E; auto. intros v Hv. apply Hg. now rewrite Hc.
Qed.

Section UopsInterner.
Context (xxh64 : Op Z -> DType -> option Z -> Z) (current : option Z).

(** [UOp::new], while identities have not run out. *)
Definition new_bounded (op : Op UOp) (dtype : DType) (st : Uops.t) : option (Uops.t * UOp) :=
  if Uops.next_uop_id st + 2 <? 2 ^ 64 then Rebuild.new xxh64 current op dtype st else None.

Lemma Inv_arena st : Inv st -> Arena (alive st).
Proof.
  intros Hi. constructor.
  - intros u v (n & Hn & <-) Hv. apply (inv_refs st Hi n v Hn). apply in_or_app. now left.
  - intros a b Ha Hb. now apply (alive_id st).
Qed.

Lemma new_bounded_spec st op dtype st' u :
  Inv st -> (forall v, In v (refs op) -> alive st v) -> new_bounded op dtype st = Some (st', u) ->
  Inv st' /\ (forall v, alive st v -> alive st' v) /\ alive st' u /\ uop_dtype u = dtype /\
  (plain op = true -> uop_op u = op).
Proof.
  intros Hi Hr. unfold new_bounded.
  destruct (Z.ltb_spec (Uops.next_uop_id st + 2) (2 ^ 64)) as [L |]; [| discriminate]. intros E.
  destruct (new_with_origin_spec xxh64 st op dtype None current st' u Hi)
    as (_ & _ & _ & Ha & (j & Lj & Hj) & n & Hn & <- & _ & Ed & _ & _ & Ek);
    [clear - L; lia | exact Hr | exact E |].
  destruct (nsteps_Inv xxh64 j st st' Hj Hi) as [Hi' _]; [clear - L Lj; lia |].
  split; [exact Hi' |]. split; [exact Ha |]. split; [now exists n |]. split; [exact Ed |]. intros Hp.
  rewrite (inv_key st' Hi' n Hn) in Ek. symmetry. symmetry in Ek.
  apply (op_key_plain st' _ _ _ _ Hi') in Ek; auto.
  - intros v Hv. apply Ha, Hr, in_or_app. now left.
  - intros v Hv. apply (inv_refs st' Hi' n v Hn), in_or_app. now left.
Qed.

Definition uops_interner : Interner Uops.t := {|
  new := new_bounded;
  table := alive;
  settled := Inv;
  settled_arena := Inv_arena;
  new_spec := new_bounded_spec
|}.
End UopsInterner.
