(* ===== verification/Shape.v ===== *)
(** * Dimensions and shapes ([ir/src/sint.rs], [ir/src/shape.rs], [ir/src/error.rs])

    A dimension is a constant, a node or the reshape placeholder; a shape is a
    list of them.  The utilities on shapes, broadcasting, and the errors of the
    node constructors.  [Shapes] is what the constructors ask of shape
    inference: a computation, since inference builds nodes for symbolic
    dimensions. *)

From S2P Require Import Prelude F64 DType Cast ConstVal Ops Eval Payload UOp RangeEval HashCons Builder.

Module SInt.
Inductive t := Const (v : Z) | Symbolic (uop : UOp) | Infer.

Definition is_const (self : t) : bool := match self with Const _ => true | _ => false end.
Definition is_infer (self : t) : bool := match self with Infer => true | _ => false end.
Definition is_symbolic (self : t) : bool := match self with Symbolic _ => true | _ => false end.
Definition as_const (self : t) : option Z := match self with Const v => Some v | _ => None end.
Definition as_symbolic (self : t) : option UOp := match self with Symbolic u => Some u | _ => None end.

(** [PartialEq]: symbolic dimensions by identity. *)
Definition eqb (a b : t) : bool :=
  match a, b with
  | Const a, Const b => a =? b
  | Symbolic a, Symbolic b => uid a =? uid b
  | Infer, Infer => true
  | _, _ => false
  end.

(** The node under casts. *)
Fixpoint uncast (u : UOp) : UOp :=
  let 'mkUOp _ op _ := u in match op with Op.Cast _ src _ => uncast src | _ => u end.

Definition simplify (self : t) : t :=
  match self with
  | Symbolic u =>
      match uop_op (uncast u) with
      | Op.Const _ (ConstValue.Int v) => if v >=? 0 then Const v else self
      | Op.Const _ (ConstValue.UInt v) => Const v
      | _ => self
      end
  | _ => self
  end.

(** [From<Arc<UOp>>] and [From<isize>]; the latter panics on other negatives. *)
Definition from_uop (u : UOp) : t := simplify (Symbolic u).
Definition from_isize (v : Z) : option t :=
  if v =? -1 then Some Infer else if v >=? 0 then Some (Const v) else None.

Section Vmax.
Context {M : LibM}.
Definition vmax (self : t) : option Z :=
  match self with
  | Const v => Some v
  | Symbolic u =>
      match snd (vmin_vmax u) with
      | ConstValue.Int v => if v >=? 0 then Some v else None
      | ConstValue.UInt v => Some v
      | _ => None
      end
  | Infer => None
  end.
End Vmax.
End SInt.
Abbreviation SInt := SInt.t.

Definition Shape : Type := list SInt.

(** The nodes a shape mentions. *)
Definition dims (shape : Shape) : list UOp := omap SInt.as_symbolic shape.

Inductive Error :=
| DTypeMismatch (lhs rhs : DType)
| TypePromotionFailed (lhs rhs : DType)
| InvalidDTypeForUnaryOp (operation : UnaryOp) (dtype : DType)
| InvalidDTypeForBinaryOp (operation : BinaryOp) (dtypes : list DType)
| VoidTypeInOp
| IndexTypeMismatch (actual : DType)
| DivisionByZero
| ReshapeSizeMismatch (input_size output_size : Z)
| ShrinkBoundsViolation (dim begin end_ shape_size : Z)
| BindValueOutOfRange (value min max : Z)
| IndexOutOfBounds
| ExpandDimensionMismatch (input_dims output_dims : Z)
| ExpandInvalidDimension (dim input output : Z)
| PermuteInvalidPermutation (permutation : list Z) (expected_dims : Z)
| PadNegativeValue (dim begin end_ : Z)
| PadDimensionMismatch (padding_dims shape_dims : Z)
| FlipInvalidSpec (expected_dims got_dims : Z)
| ReduceAxisInvalid (axis shape_dims : Z)
| ReduceInvalidNumAxes (num_axes shape_dims : Z)
| ShapeMismatch (lhs_shape rhs_shape : list Z)
| BinaryShapeMismatch (op : BinaryOp) (lhs rhs : Shape)
| ReshapeNegativeDimension (shape : list Z)
| BroadcastShapeMismatch (lhs rhs : Shape)
| SymbolicPaddingUnsupported
| SymbolicShrinkingUnsupported
| SymbolicShapeUnsupported (operation : string)
| MissingShape (operation : string)
| CanonicalSerialization (detail : string)
| ConstantConversion (value : ConstValue) (dtype : DType)
| SymbolicBufferSize (bound : ConstValue)
| TernaryBranchShapeMismatch (true_branch false_branch : Shape)
| BufferDefRequiresPtrDType (op : string) (dtype : DType)
| WhereConditionNotBool (actual : DType)
| BroadcastRequiresScalar (dtype : DType)
| MulAccDtypeMismatch (a_dtype b_dtype c_dtype : DType)
| CallParamSlotsNotContiguous (slots : list Z)
| CallArgCountMismatch (expected got : Z)
| CallArgShapeMismatch (arg_index : Z) (expected got : option Shape)
| CallArgDTypeMismatch (arg_index : Z) (expected got : DType)
| CallFormalSlotMissing (slot arg_count : Z)
| CallArgAxisMismatch (arg_index : Z) (expected got : option Z)
| CallShapeSubstitutionUnsupported (slot : Z) (reason : string)
| CallShapeDanglingFormal (slots : list Z)
| KernelSplitDependencyCycle (writer_buffer read_buffer : Z)
| KernelSplitMixedDevices (devices : list DeviceSpec)
| GetTupleIndexOutOfBounds (index len : Z) (kind : string)
| GetTupleNotATuple (op : string)
| StoreMissingShape (uop_id : Z)
| MultiAxisMismatch (operation : string) (axes : list Z)
| MultiNested (axis : Z)
| MultiMovementUnsupported (operation : string) (axis : Z) (reason : string)
| MultiReductionAcrossShardAxis (axis : Z)
| MultiLayoutMissing (operation : string) (axis source_id : Z)
| MultiUnsupported (operation reason : string)
| LinearForwardReference (op : string) (id : Z) (source_op : string) (source_id : Z)
| LinearRepeat (op : string) (id : Z).

Definition Result (A : Type) : Type := (A + Error)%type.

(** ** Utilities *)

Definition is_static (shape : Shape) : bool := forallb SInt.is_const shape.

Definition to_static (shape : Shape) : option (list Z) :=
  if is_static shape then collect SInt.as_const shape else None.

Definition validate_shape (shape : list Z) : Result (list Z) :=
  if forallb (fun s => s >=? 0) shape then inl shape else inr (ReshapeNegativeDimension shape).

Definition shapes_equal (lhs rhs : Shape) : bool :=
  (List.length lhs =? List.length rhs)%nat && forallb (fun '(l, r) => SInt.eqb l r) (combine lhs rhs).

Definition max_shapes_equal {M : LibM} (lhs rhs : Shape) : bool :=
  (List.length lhs =? List.length rhs)%nat &&
  forallb (fun '(a, b) => match SInt.vmax a, SInt.vmax b with Some x, Some y => x =? y | _, _ => false end)
    (combine lhs rhs).

Definition all_shapes_equal (shapes : list Shape) : bool :=
  match shapes with [] => false | first :: _ => forallb (fun s => shapes_equal s first) shapes end.

Definition to_vec_usize (shape : Shape) : Result (list Z) :=
  match collect SInt.as_const shape with
  | Some l => inl l
  | None => inr (SymbolicShapeUnsupported "shape conversion")
  end.

(** ** Broadcasting *)

Definition align_shapes_left (shapes : list Shape) : list Shape :=
  let max_dims := list_max (map (@List.length SInt) shapes) in
  map (fun shape => repeat (SInt.Const 1) (max_dims - List.length shape) ++ shape) shapes.

Definition can_broadcast (lhs rhs : Shape) : bool :=
  (List.length lhs =? List.length rhs)%nat &&
  forallb (fun '(l, r) =>
    match SInt.as_const l, SInt.as_const r with
    | Some lv, Some rv => (lv =? rv) || (lv =? 1) || (rv =? 1)
    | _, _ => true
    end) (combine lhs rhs).

(** Inference, and the maximum of two dimensions of which one is symbolic. *)
Class Shapes (S : Type) `{!Interner S} := {
  shape : UOp -> Build S (Result (option Shape));
  smax : SInt -> SInt -> Build S SInt;
  shape_spec s u : table s u ->
    yields s (shape u) (on_ok (fun s' o => forall dim, dim ∈ from_option dims [] o -> table s' dim));
  smax_spec s a b : (forall dim, dim ∈ dims [a; b] -> table s dim) ->
    yields s (smax a b) (fun s' d => forall dim, dim ∈ dims [d] -> table s' dim)
}.

Section Broadcast.
Context {S : Type} `{I : !Interner S} `{Sh : !Shapes S}.

Fixpoint broadcast_dims (lhs rhs l r : Shape) : Build S (Result Shape) :=
  match l, r with
  | a :: l, b :: r =>
      let is_one d := match SInt.as_const d with Some 1 => true | _ => false end in
      let push d :=
        let*! rest := broadcast_dims lhs rhs l r in
        ret (inl (d :: rest)) in
      if SInt.eqb a b then push a
      else if is_one a then push b
      else if is_one b then push a
      else if SInt.is_const a && SInt.is_const b then ret (inr (BroadcastShapeMismatch lhs rhs))
      else let* d := smax a b in push d
  | _, _ => ret (inl [])
  end.

Definition broadcast_shape (lhs rhs : Shape) : Build S (Result Shape) :=
  if (List.length lhs =? List.length rhs)%nat then broadcast_dims lhs rhs lhs rhs
  else ret (inr (BroadcastShapeMismatch lhs rhs)).

Fixpoint broadcast_from (result : Shape) (shapes : list Shape) : Build S (Result Shape) :=
  match shapes with
  | [] => ret (inl result)
  | shape :: shapes =>
      let*! result := broadcast_shape result shape in
      broadcast_from result shapes
  end.

Definition broadcast_shapes (shapes : list Shape) : Build S (Result Shape) :=
  match align_shapes_left shapes with
  | [] => ret (inl [])
  | first :: rest => broadcast_from first rest
  end.

(** ** What broadcasting computes *)

Definition known (s : S) (shape : Shape) : Prop := forall dim, dim ∈ dims shape -> table s dim.

Lemma known_cons s d shape : known s (d :: shape) <-> known s [d] /\ known s shape.
Proof.
  unfold known, dims. cbn [omap list_omap]. destruct (SInt.as_symbolic d) as [u |].
  - setoid_rewrite elem_of_cons. split; [intros H; split; intros dim | intros [H1 H2] dim];
      [intros [-> | Hd%not_elem_of_nil]; [apply H; now left | destruct Hd] | intros Hd; apply H; now right |].
    intros [-> | Hd]; [apply H1; now left | now apply H2].
  - split; [intros H; split; [intros dim Hd%not_elem_of_nil; destruct Hd | exact H] | tauto].
Qed.

Lemma known_grows s s' shape : grows s s' -> known s shape -> known s' shape.
Proof. intros G H dim Hd. now apply G, H. Qed.

Lemma known_ones s n : known s (repeat (SInt.Const 1) n).
Proof. induction n as [| n IH]; [intros dim Hd%not_elem_of_nil; destruct Hd | exact IH]. Qed.

Lemma known_app s a b : known s a -> known s b -> known s (a ++ b).
Proof.
  induction a as [| d a IH]; intros Ha Hb; [exact Hb |]. cbn [app]. rewrite known_cons in *.
  destruct Ha. split; [assumption | now apply IH].
Qed.

Lemma broadcast_dims_yields lhs rhs l : forall r s,
  known s l -> known s r -> yields s (broadcast_dims lhs rhs l r) (on_ok known).
Proof.
  induction l as [| a l IH]; intros [| b r] s Hl Hr; cbn [broadcast_dims];
    try (apply yields_ret; intros dim Hd%not_elem_of_nil; destruct Hd).
  apply known_cons in Hl as [Ha Hl], Hr as [Hb Hr].
  assert (Push : forall s1 d, grows s s1 -> known s1 [d] ->
    yields s1 (let*! rest := broadcast_dims lhs rhs l r in ret (inl (d :: rest))) (on_ok known)).
  { intros s1 d G Hd. eapply builds_rbind; [apply IH; eauto using known_grows |].
    intros s2 rest _ G2 Hrest. apply yields_ret, known_cons. eauto using known_grows. }
  cbv zeta. destruct (SInt.eqb a b); [now apply Push |].
  destruct (match SInt.as_const a with Some 1 => true | _ => false end); [now apply Push |].
  destruct (match SInt.as_const b with Some 1 => true | _ => false end); [now apply Push |].
  destruct (SInt.is_const a && SInt.is_const b); [now apply yields_ret |].
  eapply yields_bind; [apply smax_spec |].
  - intros dim Hd. revert dim Hd. change (known s [a; b]). rewrite known_cons. now split.
  - intros s1 d _ G Hd. now apply Push.
Qed.

Lemma broadcast_shape_yields lhs rhs s :
  known s lhs -> known s rhs -> yields s (broadcast_shape lhs rhs) (on_ok known).
Proof.
  intros Hl Hr. unfold broadcast_shape. destruct (_ =? _)%nat; [| now apply yields_ret].
  now apply broadcast_dims_yields.
Qed.

Lemma broadcast_from_yields shapes : forall result s,
  known s result -> Forall (known s) shapes -> yields s (broadcast_from result shapes) (on_ok known).
Proof.
  induction shapes as [| shape shapes IH]; intros result s Hr Hs; cbn [broadcast_from].
  { now apply yields_ret. }
  apply Forall_cons in Hs as [H1 H2].
  eapply builds_rbind; [now apply broadcast_shape_yields |]. intros s1 a _ G Ha. apply IH; [exact Ha |].
  eapply Forall_impl; [exact H2 |]. intros. eauto using known_grows.
Qed.

Lemma broadcast_shapes_yields shapes s :
  Forall (known s) shapes -> yields s (broadcast_shapes shapes) (on_ok known).
Proof.
  intros H. unfold broadcast_shapes.
  assert (Ha : Forall (known s) (align_shapes_left shapes)).
  { unfold align_shapes_left. apply Forall_map. eapply Forall_impl; [exact H |].
    intros sh Hsh. apply known_app; [apply known_ones | exact Hsh]. }
  destruct (align_shapes_left shapes) as [| first rest].
  - apply yields_ret. intros dim Hd%not_elem_of_nil. destruct Hd.
  - apply Forall_cons in Ha as [H1 H2]. now apply broadcast_from_yields.
Qed.
End Broadcast.
