(* ===== verification/Constructors.v ===== *)
(** * Node constructors ([ir/src/uop/constructors])

    The constructors of constants, casts and arithmetic nodes over any
    [Interner]: validation of the operands ([constructors/mod.rs]), constants
    and casts ([data.rs]), the arithmetic constructors ([compute.rs]) and the
    encoding of shapes ([shape.rs]).  Errors are values; a failed [expect] is a
    panic of the [Build] monad. *)

From S2P Require Import Prelude F64 DType Cast ConstVal Ops Payload UOp HashCons Rebuild Builder Shape.

(** ** Validation without nodes *)

Definition check_bitwise_dtype (dtype : DType) (operation : BinaryOp) : Result unit :=
  if DType.is_bool dtype || DType.is_int dtype then inl tt
  else inr (InvalidDTypeForBinaryOp operation [dtype]).

Definition check_shift_dtype (dtype : DType) (operation : BinaryOp) : Result unit :=
  if DType.is_int dtype then inl tt else inr (InvalidDTypeForBinaryOp operation [dtype]).

Definition check_division_by_zero (divisor : UOp) : Result unit :=
  match uop_op divisor with
  | Op.Const _ (ConstValue.Int v) | Op.Const _ (ConstValue.UInt v) =>
      if v =? 0 then inr DivisionByZero else inl tt
  | Op.Const _ (ConstValue.Float v) => if f64_eqb v f64_zero then inr DivisionByZero else inl tt
  | _ => inl tt
  end.

(** The bitset of [validate_permutation] up to 64 dimensions. *)
Fixpoint permutation_bits (axes : list Z) (expected_dims seen : Z) : option Z :=
  match axes with
  | [] => Some seen
  | axis :: axes =>
      if axis <? expected_dims then
        let bit := Z.shiftl 1 axis in
        if Z.land seen bit =? 0 then permutation_bits axes expected_dims (Z.lor seen bit) else None
      else None
  end.

(** The boolean array it uses above. *)
Fixpoint permutation_seen (axes : list Z) (expected_dims : Z) (seen : list bool) : bool :=
  match axes with
  | [] => true
  | axis :: axes =>
      (axis <? expected_dims) && negb (nth (Z.to_nat axis) seen false) &&
      permutation_seen axes expected_dims (<[Z.to_nat axis := true]> seen)
  end.

Definition validate_permutation (axes : list Z) (expected_dims : Z) : Result unit :=
  let err := inr (PermuteInvalidPermutation axes expected_dims) in
  if negb (Z.of_nat (List.length axes) =? expected_dims) then err
  else if expected_dims <=? 64 then
    match permutation_bits axes expected_dims 0 with
    | Some seen =>
        (* [1u64 << 64] is 1 with the shift amount masked *)
        if seen =? wrap_u 64 (Z.shiftl 1 (expected_dims mod 64)) - 1 then inl tt else err
    | None => err
    end
  else if permutation_seen axes expected_dims (repeat false (Z.to_nat expected_dims)) then inl tt
  else err.

Definition validate_reduce_axes (axes : list Z) (shape_dims : Z) : Result unit :=
  match List.find (fun axis => negb (axis <? shape_dims)) axes with
  | Some axis => inr (ReduceAxisInvalid (wrap_s 32 axis) shape_dims)
  | None => inl tt
  end.

Definition validate_flip_axes (axes : list bool) (expected_dims : Z) : Result unit :=
  if Z.of_nat (List.length axes) =? expected_dims then inl tt
  else inr (FlipInvalidSpec expected_dims (Z.of_nat (List.length axes))).

(** ** Constructors *)
Section Constructors.
Context {S : Type} `{I : !Interner S} `{Sh : !Shapes S}.

Definition cast (self : UOp) (dtype : DType) : Build S UOp :=
  let src_vcount := DType.vcount (uop_dtype self) in
  match (if (DType.vcount dtype =? 1) && (src_vcount >? 1) then DType.vec dtype src_vcount
         else Some dtype) with
  | Some dtype =>
      if bool_decide (uop_dtype self = dtype) then ret self else new (Op.Cast UOp self dtype) dtype
  | None => panic
  end.

Definition bitcast (self : UOp) (dtype : DType) : Build S UOp := new (Op.BitCast UOp self dtype) dtype.

Definition noop : Build S UOp := new (Op.Noop UOp) (DType.Scalar Void).

Definition try_const_ (dtype : DType) (value : ConstValue) : Build S (Result UOp) :=
  let wrap op dtype := let* u := new op dtype in ret (inl u) in
  if const_eqb value ConstValue.Invalid then wrap (Op.Const UOp ConstValue.Invalid) (DType.Scalar Bool)
  else
    match (match dtype with
           | DType.Scalar scalar => Some scalar
           | DType.Vector scalar _ => if bool_decide (scalar = Void) then None else Some scalar
           | _ => None
           end) with
    | Some scalar =>
        match const_cast value (DType.Scalar scalar) with
        | Some normalized => wrap (Op.Const UOp normalized) dtype
        | None => ret (inr (ConstantConversion value dtype))
        end
    | None => ret (inr (ConstantConversion value dtype))
    end.

Definition const_ (dtype : DType) (value : ConstValue) : Build S UOp := expect (try_const_ dtype value).

Definition index_const (value : Z) : Build S UOp := const_ (DType.Scalar WeakInt) (ConstValue.Int value).

Definition try_vconst (values : list ConstValue) (scalar_dtype : DType) : Build S (Result UOp) :=
  let err value := ret (inr (ConstantConversion value scalar_dtype)) in
  let first l := match l with v :: _ => v | [] => ConstValue.Invalid end in
  match DType.scalar scalar_dtype with
  | None => err (first values)
  | Some scalar =>
      let commit value :=
        if const_eqb value ConstValue.Invalid then Some value else const_cast value (DType.Scalar scalar) in
      match collect commit values with
      | None => err (first (filter (fun v => commit v = None) values))
      | Some committed =>
          match DType.vec scalar_dtype (Z.of_nat (List.length committed)) with
          | None => err (first committed)
          | Some vec_dtype => let* u := new (Op.VConst UOp committed) vec_dtype in ret (inl u)
          end
      end
  end.

Definition vconst (values : list ConstValue) (scalar_dtype : DType) : Build S UOp :=
  expect (try_vconst values scalar_dtype).

(** *** Shapes as nodes ([SInt::to_uop], [UOp::stack], [shape_to_uop], [UOp::expand]) *)

Definition to_uop (self : SInt) (dtype : DType) : Build S UOp :=
  match self with
  | SInt.Const v => const_ dtype (ConstValue.Int (wrap_s 64 v))
  | SInt.Symbolic uop => if bool_decide (uop_dtype uop = dtype) then ret uop else cast uop dtype
  | SInt.Infer => panic
  end.

Definition stack (sources : list UOp) : Build S UOp :=
  match (match sources with
         | [] => Some (DType.Scalar Void)
         | _ => dtype_from_op (fun _ => false) (Op.Stack UOp sources)
         end) with
  | None => panic
  | Some dtype =>
      let* sources :=
        collect_all (fun source => if is_invalid_marker source then ret source else cast source dtype)
          sources in
      new (Op.Stack UOp sources) dtype
  end.

Definition lane_dtype (shape : Shape) : DType :=
  let lanes := map (fun dim => match dim with
                               | SInt.Symbolic value => uop_dtype value
                               | _ => DType.Scalar WeakInt
                               end) shape in
  match lanes with
  | [] => DType.Scalar WeakInt
  | first :: _ =>
      if forallb (fun d => bool_decide (d = first)) lanes then first
      else from_option id (DType.Scalar WeakInt) (DTypeCast.least_upper_dtype lanes)
  end.

Definition shape_to_uop (shape : Shape) : Build S UOp :=
  match shape with
  | [] => stack []
  | [dim] => to_uop dim (DType.Scalar WeakInt)
  | _ => let* lanes := collect_all (fun dim => to_uop dim (lane_dtype shape)) shape in stack lanes
  end.

Definition expand (src new_shape : UOp) : Build S UOp := new (Op.Expand UOp src new_shape) (uop_dtype src).

Definition const_like (self : UOp) (value : ConstValue) : Build S UOp :=
  let* u := const_ (uop_dtype self) value in
  let* s := shape self in
  match s with
  | inl (Some (dim :: dims)) => let* t := shape_to_uop (dim :: dims) in expand u t
  | _ => ret u
  end.

(** *** Operands *)

(** The first operand is cast unless it is weak where the target is not. *)
Definition cast_strong_source (source : UOp) (target_dtype : DType) : Build S UOp :=
  if DType.is_weak (uop_dtype source) && negb (DType.is_weak target_dtype) then ret source
  else cast source target_dtype.

Definition promote_and_cast (lhs rhs : UOp) : Build S (Result (UOp * UOp * DType)) :=
  let lhs_dtype := uop_dtype lhs in
  let rhs_dtype := uop_dtype rhs in
  if bool_decide (lhs_dtype = DType.Scalar Void) || bool_decide (rhs_dtype = DType.Scalar Void)
  then ret (inr VoidTypeInOp)
  else
    match (if is_invalid_marker lhs then Some rhs_dtype
           else if is_invalid_marker rhs then Some lhs_dtype
           else DTypeCast.least_upper_dtype [lhs_dtype; rhs_dtype]) with
    | None => ret (inr (TypePromotionFailed lhs_dtype rhs_dtype))
    | Some target_dtype =>
        let commit source :=
          if negb (bool_decide (uop_dtype source = target_dtype)) && negb (is_invalid_marker source)
          then cast_strong_source source target_dtype else ret source in
        let* lhs := commit lhs in
        let* rhs := commit rhs in
        ret (inl (lhs, rhs, target_dtype))
    end.

Definition validate_binary_shapes (lhs rhs : UOp) (op : BinaryOp) : Build S (Result unit) :=
  let*! lhs_shape := shape lhs in
  let*! rhs_shape := shape rhs in
  match lhs_shape, rhs_shape with
  | Some ls, Some rs =>
      let* r := broadcast_shapes [ls; rs] in
      ret match r with inl _ => inl tt | inr _ => inr (BinaryShapeMismatch op ls rs) end
  | _, _ => ret (inl tt)
  end.

Definition validate_ternary_shapes (true_val false_val : UOp) : Build S (Result unit) :=
  let*! true_shape := shape true_val in
  let*! false_shape := shape false_val in
  match true_shape, false_shape with
  | Some ((_ :: _) as ts), Some ((_ :: _) as fs) =>
      ret (if shapes_equal ts fs then inl tt else inr (TernaryBranchShapeMismatch ts fs))
  | _, _ => ret (inl tt)
  end.

Definition newr (op : Op UOp) (dtype : DType) : Build S (Result UOp) :=
  let* u := new op dtype in ret (inl u).

(** *** Arithmetic: one definition per macro *)

Definition binary_arith_op (op : BinaryOp) (self rhs : UOp) : Build S (Result UOp) :=
  let*! (lhs, rhs, dtype) := promote_and_cast self rhs in
  let*! _ := validate_binary_shapes lhs rhs op in
  newr (Op.Binary UOp op lhs rhs) dtype.

Definition division_op (op : BinaryOp) (self rhs : UOp) : Build S (Result UOp) :=
  let*! _ := ret (check_division_by_zero rhs) in
  let*! (lhs, rhs, dtype) := promote_and_cast self rhs in
  let*! _ := validate_binary_shapes lhs rhs op in
  newr (Op.Binary UOp op lhs rhs) dtype.

Definition bitwise_binary_op (op : BinaryOp) (self rhs : UOp) : Build S (Result UOp) :=
  let*! (lhs, rhs, dtype) := promote_and_cast self rhs in
  let*! _ := ret (check_bitwise_dtype dtype op) in
  let*! _ := validate_binary_shapes lhs rhs op in
  newr (Op.Binary UOp op lhs rhs) dtype.

Definition shift_op (op : BinaryOp) (self rhs : UOp) : Build S (Result UOp) :=
  let dtype := uop_dtype self in
  let*! _ := ret (check_shift_dtype dtype op) in
  let*! _ := ret (check_shift_dtype (uop_dtype rhs) op) in
  let*! _ := validate_binary_shapes self rhs op in
  newr (Op.Binary UOp op self rhs) dtype.

Definition cmp_op (op : BinaryOp) (self rhs : UOp) : Build S (Result UOp) :=
  let*! (lhs, rhs, dtype) := promote_and_cast self rhs in
  let*! _ := validate_binary_shapes lhs rhs op in
  let vcount := DType.vcount dtype in
  match (if vcount >? 1 then DType.vec (DType.Scalar Bool) vcount else Some (DType.Scalar Bool)) with
  | Some result_dtype => newr (Op.Binary UOp op lhs rhs) result_dtype
  | None => panic
  end.

Definition transcendental_op (op : UnaryOp) (self : UOp) : Build S (Result UOp) :=
  let dtype := uop_dtype self in
  if DType.is_float dtype then newr (Op.Unary UOp op self) dtype
  else ret (inr (InvalidDTypeForUnaryOp op dtype)).

(** Rounding and sign, which every dtype admits. *)
Definition unary_op (op : UnaryOp) (self : UOp) : Build S UOp := new (Op.Unary UOp op self) (uop_dtype self).

Definition try_add := binary_arith_op BinaryOp.Add.
Definition try_mul := binary_arith_op BinaryOp.Mul.
Definition try_mod := division_op BinaryOp.FloorMod.
Definition try_cmod := division_op BinaryOp.CMod.
Definition try_cdiv := division_op BinaryOp.CDiv.
Definition try_max := binary_arith_op BinaryOp.Max.
Definition try_pow := binary_arith_op BinaryOp.Pow.
Definition try_and_op := bitwise_binary_op BinaryOp.And.
Definition try_or_op := bitwise_binary_op BinaryOp.Or.
Definition try_xor_op := bitwise_binary_op BinaryOp.Xor.
Definition try_shl_op := shift_op BinaryOp.Shl.
Definition try_shr_op := shift_op BinaryOp.Shr.
Definition try_cmplt := cmp_op BinaryOp.Lt.
Definition try_cmple := cmp_op BinaryOp.Le.
Definition try_cmpeq := cmp_op BinaryOp.Eq.
Definition try_cmpne := cmp_op BinaryOp.Ne.
Definition try_cmpgt := cmp_op BinaryOp.Gt.
Definition try_cmpge := cmp_op BinaryOp.Ge.
Definition try_sqrt := transcendental_op UnaryOp.Sqrt.
Definition try_rsqrt := transcendental_op UnaryOp.Rsqrt.
Definition try_exp := transcendental_op UnaryOp.Exp.
Definition try_exp2 := transcendental_op UnaryOp.Exp2.
Definition try_log := transcendental_op UnaryOp.Log.
Definition try_log2 := transcendental_op UnaryOp.Log2.
Definition try_sin := transcendental_op UnaryOp.Sin.
Definition try_cos := transcendental_op UnaryOp.Cos.
Definition try_tan := transcendental_op UnaryOp.Tan.
Definition erf := transcendental_op UnaryOp.Erf.
Definition try_reciprocal := transcendental_op UnaryOp.Reciprocal.
Definition abs : UOp -> Build S UOp := unary_op UnaryOp.Abs.
Definition square : UOp -> Build S UOp := unary_op UnaryOp.Square.
Definition sign : UOp -> Build S UOp := unary_op UnaryOp.Sign.
Definition trunc : UOp -> Build S UOp := unary_op UnaryOp.Trunc.
Definition floor : UOp -> Build S UOp := unary_op UnaryOp.Floor.
Definition ceil : UOp -> Build S UOp := unary_op UnaryOp.Ceil.
Definition round : UOp -> Build S UOp := unary_op UnaryOp.Round.
Definition not : UOp -> Build S UOp := unary_op UnaryOp.Not.

Definition neg (self : UOp) : Build S UOp :=
  if DType.is_bool (uop_dtype self) then not self
  else
    let* minus_one := const_like self (ConstValue.Int (-1)) in
    expect (try_mul self minus_one).

Definition try_sub (self rhs : UOp) : Build S (Result UOp) :=
  let*! (lhs, rhs, _) := promote_and_cast self rhs in
  let*! _ := validate_binary_shapes lhs rhs BinaryOp.Sub in
  let* negated := neg rhs in
  try_add lhs negated.

Definition try_div (self rhs : UOp) : Build S (Result UOp) :=
  let*! _ := ret (check_division_by_zero rhs) in
  let*! (lhs, rhs, dtype) := promote_and_cast self rhs in
  let op := if DType.is_float dtype then BinaryOp.Fdiv else BinaryOp.FloorDiv in
  let*! _ := validate_binary_shapes lhs rhs op in
  newr (Op.Binary UOp op lhs rhs) dtype.

Definition try_where (condition true_val false_val : UOp) : Build S (Result UOp) :=
  let cond_dtype := uop_dtype condition in
  if DType.is_bool cond_dtype then
    let*! _ := validate_ternary_shapes true_val false_val in
    let op := Op.Ternary UOp TernaryOp.Where condition true_val false_val in
    match dtype_from_op (fun _ => false) op with Some dtype => newr op dtype | None => panic end
  else ret (inr (WhereConditionNotBool cond_dtype)).

Definition try_mulacc (a b c : UOp) : Build S (Result UOp) :=
  if bool_decide (uop_dtype a = uop_dtype b) && bool_decide (uop_dtype a = uop_dtype c) then
    let*! _ := validate_ternary_shapes a b in
    let*! _ := validate_ternary_shapes a c in
    newr (Op.Ternary UOp TernaryOp.MulAcc a b c) (uop_dtype a)
  else ret (inr (MulAccDtypeMismatch (uop_dtype a) (uop_dtype b) (uop_dtype c))).

(** The panicking wrappers. *)
Definition add (a b : UOp) : Build S UOp := expect (try_add a b).
Definition sub (a b : UOp) : Build S UOp := expect (try_sub a b).
Definition mul (a b : UOp) : Build S UOp := expect (try_mul a b).
Definition floor_div (a b : UOp) : Build S UOp := expect (try_div a b).
Definition mod_ (a b : UOp) : Build S UOp := expect (try_mod a b).
Definition cdiv (a b : UOp) : Build S UOp := expect (try_cdiv a b).
Definition cmod (a b : UOp) : Build S UOp := expect (try_cmod a b).

Definition alu (op : BinaryOp) (lhs rhs : UOp) : Build S UOp :=
  new (Op.Binary UOp op lhs rhs)
    (if BinaryOp.is_comparison op then DType.Scalar Bool else uop_dtype lhs).

Definition threefry (lhs rhs : UOp) : Build S (Result UOp) :=
  let*! _ := validate_binary_shapes lhs rhs BinaryOp.Threefry in
  newr (Op.Binary UOp BinaryOp.Threefry lhs rhs) (DType.Scalar UInt64).
End Constructors.
