(* ===== verification/ConstructorSpec.v ===== *)
(** * What the constructors build

    On scalar integer operands of one dtype the arithmetic constructors build
    the operation over the operands themselves — no cast, no promotion — typed
    and in the table, and the constants they make denote the number asked for,
    reduced into the dtype.  [validate_permutation] accepts the permutations. *)

From S2P Require Import Prelude F64 DType Cast ConstVal Ops IntView Eval Payload UOp Semantics HashCons.
From S2P Require Import Rebuild Builder Shape Constructors.
#[local] Set Default Proof Using "All".

(** ** Scalar integer expressions *)
Section Expr.
Context {S : Type} `{I : !Interner S} `{Sh : !Shapes S}.
Context (t : ScalarDType) (Ht : is_Some (int_format t)).
Implicit Types s : S.

Definition expr s (u : UOp) : Prop := table s u /\ int_wt u = true /\ uop_dtype u = DType.Scalar t.

Lemma expr_grows s s' u : grows s s' -> expr s u -> expr s' u.
Proof using Type. intros G (H1 & H2 & H3). split; [now apply G | now split]. Qed.

Lemma expr_base s u : expr s u -> base_of u = t.
Proof using Type. intros (_ & _ & E). unfold base_of. now rewrite E. Qed.

Lemma int_dtype : is_int_or_bool t = true.
Proof. destruct Ht as [f E]. unfold is_int_or_bool. destruct t; try reflexivity; discriminate E. Qed.

Lemma least_upper_same : DTypeCast.least_upper_dtype [DType.Scalar t; DType.Scalar t] = Some (DType.Scalar t).
Proof. destruct t; vm_compute; reflexivity. Qed.

Lemma not_void : DType.Scalar t <> DType.Scalar Void.
Proof. destruct Ht as [f E]. intros [= ->]. discriminate E. Qed.

Lemma promote_same s a b :
  expr s a -> expr s b ->
  yields s (promote_and_cast a b) (on_ok (fun _ r => r = (a, b, DType.Scalar t))).
Proof.
  intros (Ta & Wa & Da) (Tb & Wb & Db). unfold promote_and_cast. rewrite Da, Db.
  rewrite bool_decide_false by exact not_void. cbn [orb].
  assert (E : (if is_invalid_marker a then Some (DType.Scalar t)
               else if is_invalid_marker b then Some (DType.Scalar t)
               else DTypeCast.least_upper_dtype [DType.Scalar t; DType.Scalar t]) = Some (DType.Scalar t))
    by (rewrite least_upper_same; now destruct (is_invalid_marker a), (is_invalid_marker b)).
  rewrite E. cbv iota zeta beta. rewrite !bool_decide_true by reflexivity. cbn [negb andb].
  intros Hs s' x H. unfold bind, ret in H. injection H as <- <-.
  split; [exact Hs | split; [intros v Hv; exact Hv | reflexivity]].
Qed.

Lemma shape_yields s u : table s u -> yields s (shape u) (on_ok (fun s' o => known s' (from_option id [] o))).
Proof using Type.
  intros H. eapply yields_mono; [now apply shape_spec |]. intros s' [[sh |] |] _ _ Hd; cbn in *; auto.
Qed.

Lemma validate_binary_yields s a b op :
  table s a -> table s b -> yields s (validate_binary_shapes a b op) (on_ok (fun _ _ => True)).
Proof using Type.
  intros Ha Hb. unfold validate_binary_shapes.
  eapply builds_rbind; [now apply shape_yields |]. intros s1 o1 _ G1 H1.
  eapply builds_rbind; [apply shape_yields; now apply G1 |]. intros s2 o2 _ G2 H2.
  destruct o1 as [ls |], o2 as [rs |]; try (now apply yields_ret).
  eapply yields_bind; [apply broadcast_shapes_yields |].
  - constructor; [eapply known_grows; eassumption | constructor; [exact H2 | constructor]].
  - intros s3 [] _ _ _; now apply yields_ret.
Qed.

(** A new arithmetic node. *)
Definition is_binary s (op : BinaryOp) (a b u : UOp) : Prop :=
  expr s u /\ uop_op u = Op.Binary UOp op a b.

Lemma new_binary s op a b :
  BinaryOp.is_comparison op = false -> expr s a -> expr s b ->
  yields s (newr (Op.Binary UOp op a b) (DType.Scalar t)) (on_ok (fun s' u => is_binary s' op a b u)).
Proof.
  intros Hc Ha Hb. eapply yields_bind; [apply yields_new |].
  - cbn [refs Op.children launch_values app In]. intros v [<- | [<- | []]]; [apply Ha | apply Hb].
  - intros s' u Hs G (Tu & Du & Ou). apply yields_ret. split; [| now apply Ou].
    split; [exact Tu | split; [| exact Du]]. specialize (Ou eq_refl). destruct u as [i o d].
    cbn [uop_op uop_dtype] in *. subst o d. cbn [int_wt DType.base]. rewrite int_dtype, Hc.
    rewrite (expr_base _ _ Ha), (expr_base _ _ Hb).
    destruct Ha as (_ & -> & _), Hb as (_ & -> & _). now rewrite bool_decide_true.
Qed.

Lemma binary_arith_spec s op a b :
  BinaryOp.is_comparison op = false -> expr s a -> expr s b ->
  yields s (binary_arith_op op a b) (on_ok (fun s' u => is_binary s' op a b u)).
Proof.
  intros Hc Ha Hb. eapply builds_rbind; [now apply promote_same |]. intros s1 r _ G1 ->.
  eapply builds_rbind; [apply validate_binary_yields; apply G1; [apply Ha | apply Hb] |].
  intros s2 _ _ G2 _. apply new_binary; [exact Hc | eapply expr_grows; [exact G2 | eapply expr_grows; eassumption] ..].
Qed.

Lemma try_add_spec s a b :
  expr s a -> expr s b -> yields s (try_add a b) (on_ok (fun s' u => is_binary s' BinaryOp.Add a b u)).
Proof. now apply binary_arith_spec. Qed.

Lemma try_mul_spec s a b :
  expr s a -> expr s b -> yields s (try_mul a b) (on_ok (fun s' u => is_binary s' BinaryOp.Mul a b u)).
Proof. now apply binary_arith_spec. Qed.

(** A divisor that is a literal zero is refused, so the divisor of a result is not one. *)
Lemma division_spec s op a b :
  BinaryOp.is_comparison op = false -> expr s a -> expr s b ->
  yields s (division_op op a b) (on_ok (fun s' u => is_binary s' op a b u)).
Proof.
  intros Hc Ha Hb.
  eapply builds_rbind with (P := fun _ _ => True).
  { apply yields_ret. now destruct (check_division_by_zero b). }
  intros s0 _ _ G0 _.
  eapply builds_rbind; [apply promote_same; eapply expr_grows; eassumption |]. intros s1 r _ G1 ->.
  eapply builds_rbind; [apply validate_binary_yields; apply G1, G0; [apply Ha | apply Hb] |].
  intros s2 _ _ G2 _. apply new_binary; [exact Hc | |];
    (eapply expr_grows; [exact G2 | eapply expr_grows; [exact G1 | eapply expr_grows; eassumption]]).
Qed.

Lemma not_float_t : DType.is_float (DType.Scalar t) = false.
Proof. destruct Ht as [f E]. destruct t; try discriminate E; reflexivity. Qed.

Lemma try_div_spec s a b :
  expr s a -> expr s b ->
  yields s (try_div a b) (on_ok (fun s' u => is_binary s' BinaryOp.FloorDiv a b u)).
Proof.
  intros Ha Hb.
  eapply builds_rbind with (P := fun _ _ => True).
  { apply yields_ret. now destruct (check_division_by_zero b). }
  intros s0 _ _ G0 _.
  eapply builds_rbind; [apply promote_same; eapply expr_grows; eassumption |]. intros s1 r _ G1 ->.
  cbv zeta. rewrite not_float_t.
  eapply builds_rbind; [apply validate_binary_yields; apply G1, G0; [apply Ha | apply Hb] |].
  intros s2 _ _ G2 _. apply new_binary; [reflexivity | |];
    (eapply expr_grows; [exact G2 | eapply expr_grows; [exact G1 | eapply expr_grows; eassumption]]).
Qed.

Lemma try_mod_spec s a b :
  expr s a -> expr s b ->
  yields s (try_mod a b) (on_ok (fun s' u => is_binary s' BinaryOp.FloorMod a b u)).
Proof. now apply division_spec. Qed.

(** *** Constants *)

(** A node that is the number [z] in every environment. *)
Definition literal s (z : Z) (u : UOp) : Prop :=
  expr s u /\ forall (M : LibM) r, denote r u = Some z.

Lemma const_typed i z :
  fits t z -> int_wt (mkUOp i (Op.Const UOp (of_Z t z)) (DType.Scalar t)) = true.
Proof.
  intros Hz. cbn [int_wt DType.base]. rewrite int_dtype. apply const_has_spec. exists z.
  split; [exact Hz | split; [reflexivity | now apply to_Z_of_Z; [apply int_dtype |]]].
Qed.

Lemma const_spec s z :
  in_s 64 z ->
  yields s (const_ (DType.Scalar t) (ConstValue.Int z))
    (fun s' u => literal s' (wrap_to t z) u /\ uop_op u = Op.Const UOp (of_Z t (wrap_to t z))).
Proof.
  intros Hz. apply yields_expect. unfold try_const_. cbn [const_eqb].
  rewrite (cast_wraps (ConstValue.Int z) z t int_dtype Hz eq_refl).
  eapply yields_bind; [apply yields_new; intros v [] |]. intros s' u Hs G (Tu & Du & Ou).
  specialize (Ou eq_refl). apply yields_ret. pose proof (wrap_to_fits t z int_dtype) as Hf.
  split; [| exact Ou]. destruct u as [i o d]. cbn [uop_op uop_dtype] in *. subst o d. split.
  - split; [exact Tu |]. split; [now apply const_typed | reflexivity].
  - intros M r. cbn [denote]. now apply to_Z_of_Z; [apply int_dtype |].
Qed.

(** *** Nodes of any dtype are in the table *)

Lemma cast_yields s u d : table s u -> yields s (cast u d) (fun s' v => table s' v).
Proof using Type.
  intros Hu. unfold cast. cbv zeta. match goal with |- yields _ (match ?o with Some _ => _ | None => _ end) _ => destruct o as [d' |] end;
    [| apply yields_panic].
  destruct (bool_decide _); [now apply yields_ret |].
  eapply yields_mono; [apply yields_new; intros v [<- | []]; exact Hu |]. intros s' v _ _ H. apply H.
Qed.

Lemma const_yields s d c : yields s (const_ d c) (fun s' u => table s' u).
Proof using Type.
  assert (W : forall op d, refs op = [] ->
    yields s (let* u := new op d in ret (inl u)) (@on_ok S UOp Error (fun s' u => table s' u))).
  { intros op d' E. eapply yields_bind; [apply yields_new; rewrite E; intros v [] |].
    intros s' u _ _ H. apply yields_ret, H. }
  apply yields_expect. unfold try_const_. destruct (const_eqb _ _); [now apply W |].
  repeat match goal with
  | |- yields _ (match ?o with Some _ => _ | None => _ end) _ => destruct o
  end; now (apply W || apply yields_ret).
Qed.

Lemma to_uop_yields s dim d : known s [dim] -> yields s (to_uop dim d) (fun s' v => table s' v).
Proof using Type.
  intros Hd. destruct dim as [v | u |]; cbn [to_uop]; [apply const_yields | | apply yields_panic].
  assert (Hu : table s u) by (apply Hd; now left).
  destruct (bool_decide _); [now apply yields_ret | now apply cast_yields].
Qed.

Lemma Forall2_table s (l : list UOp) (l' : list UOp) :
  Forall2 (fun _ b => table s b) l l' -> forall v, In v l' -> table s v.
Proof using Type. induction 1 as [| a b l l' Hb _ IH]; [intros v [] | intros v [<- | Hv]; auto]. Qed.

Lemma stack_yields s sources : Forall (table s) sources -> yields s (stack sources) (fun s' v => table s' v).
Proof using Type.
  intros H. unfold stack. match goal with |- yields _ (match ?o with Some _ => _ | None => _ end) _ => destruct o as [d |] end;
    [| apply yields_panic].
  eapply yields_bind; [apply (yields_collect _ (fun s' (_ : UOp) b => table s' b)) |].
  - intros s1 s2 _ b G Hb. now apply G.
  - intros s1 a Hs1 G1 Ha. rewrite List.Forall_forall in H.
    destruct (is_invalid_marker a); [apply yields_ret | apply cast_yields]; now apply G1, H.
  - intros s1 l' _ _ Hl. eapply yields_mono; [apply yields_new |].
    + unfold refs. cbn [Op.children launch_values]. rewrite app_nil_r. exact (Forall2_table s1 sources l' Hl).
    + intros s' v _ _ Hv. apply Hv.
Qed.

Lemma shape_to_uop_yields s sh : known s sh -> yields s (shape_to_uop sh) (fun s' v => table s' v).
Proof using Type.
  intros H. unfold shape_to_uop. destruct sh as [| d [| d' sh]].
  - apply stack_yields. constructor.
  - now apply to_uop_yields.
  - eapply yields_bind; [apply (yields_collect _ (fun s' (_ : SInt) b => table s' b)) |].
    + intros s1 s2 _ b G Hb. now apply G.
    + intros s1 a _ G1 Ha. apply to_uop_yields. eapply known_grows; [exact G1 |].
      intros dim Hdim. apply H. unfold dims in *. rewrite list_elem_of_omap in Hdim |- *.
      destruct Hdim as (x & Hx%list_elem_of_singleton & E). subst x. exists a.
      split; [now apply list_elem_of_In | exact E].
    + intros s1 lanes _ _ Hl. apply stack_yields. apply List.Forall_forall. intros v Hv.
      clear - Hl Hv. induction Hl as [| a b l l' Hb _ IH]; [destruct Hv | destruct Hv as [<- | Hv]; auto].
Qed.

(** *** [const_like], [neg] and [try_sub] *)

(** The constant, or its expansion to the shape of the receiver. *)
Definition constant_node (z : Z) (u : UOp) : Prop :=
  uop_op u = Op.Const UOp (of_Z t z) \/ exists a b, uop_op u = Op.Expand UOp a b.

Lemma const_like_built s x z :
  expr s x -> in_s 64 z ->
  yields s (const_like x (ConstValue.Int z))
    (fun s' u => literal s' (wrap_to t z) u /\ constant_node (wrap_to t z) u).
Proof.
  intros (Tx & Wx & Dx) Hz. unfold const_like. rewrite Dx.
  eapply yields_bind; [now apply const_spec |]. intros s1 u _ G1 [Hu Ou].
  eapply yields_bind; [apply shape_yields; now apply G1 |]. intros s2 sh _ G2 Hsh.
  assert (Hu2 : literal s2 (wrap_to t z) u /\ constant_node (wrap_to t z) u).
  { split; [| now left]. destruct Hu as [He Hd]. split; [eapply expr_grows; eassumption | exact Hd]. }
  destruct sh as [[[| dim sh] |] |]; try (now apply yields_ret).
  eapply yields_bind; [now apply shape_to_uop_yields |]. intros s3 v _ G3 Hv.
  destruct Hu2 as [[(Tu & Wu & Du) Hd] _]. eapply yields_mono; [apply yields_new |].
  - cbn [refs Op.children launch_values app In]. intros w [<- | [<- | []]]; [now apply G3 | exact Hv].
  - intros s4 w _ G4 (Tw & Dw & Ow). specialize (Ow eq_refl). rewrite Du in Dw.
    split; [| right; eauto]. destruct w as [i o d]. cbn [uop_op uop_dtype] in *. subst o d. split.
    + split; [exact Tw |]. split; [| reflexivity]. cbn [int_wt DType.base]. rewrite int_dtype, Wu.
      unfold base_of. rewrite Du. now rewrite bool_decide_true.
    + intros M r. cbn [denote]. apply Hd.
Qed.

Lemma const_like_spec s x z :
  expr s x -> in_s 64 z ->
  yields s (const_like x (ConstValue.Int z)) (fun s' u => literal s' (wrap_to t z) u).
Proof. intros Hx Hz. eapply yields_mono; [now apply const_like_built |]. intros s' u _ _ H. apply H. Qed.

Lemma literal_expr s z u : literal s z u -> expr s u.
Proof using Type. intros H. apply H. Qed.

Lemma literal_grows s s' z u : grows s s' -> literal s z u -> literal s' z u.
Proof using Type. intros G [H1 H2]. split; [eapply expr_grows; eassumption | exact H2]. Qed.

(** Negation is multiplication by the literal -1. *)
Lemma neg_spec s x :
  expr s x ->
  yields s (neg x) (fun s' u => exists m, literal s' (wrap_to t (-1)) m /\ is_binary s' BinaryOp.Mul x m u).
Proof.
  intros Hx. unfold neg. assert (Nb : DType.is_bool (uop_dtype x) = false).
  { destruct Hx as (_ & _ & ->). destruct Ht as [f E]. destruct t; try discriminate E; reflexivity. }
  rewrite Nb. eapply yields_bind; [apply const_like_spec; [exact Hx | unfold in_s; lia] |].
  intros s1 m _ G1 Hm. apply yields_expect.
  eapply builds_mono; [apply try_mul_spec; [eapply expr_grows; eassumption | now apply literal_expr in Hm] |].
  intros s2 u _ G2 H. exists m. split; [eapply literal_grows; eassumption | exact H].
Qed.

Lemma try_sub_spec s a b :
  expr s a -> expr s b ->
  yields s (try_sub a b) (on_ok (fun s' u => exists m n, literal s' (wrap_to t (-1)) m /\
    is_binary s' BinaryOp.Mul b m n /\ is_binary s' BinaryOp.Add a n u)).
Proof.
  intros Ha Hb. unfold try_sub.
  eapply builds_rbind; [now apply promote_same |]. intros s1 r _ G1 ->.
  eapply builds_rbind; [apply validate_binary_yields; apply G1; [apply Ha | apply Hb] |].
  intros s2 _ _ G2 _. eapply yields_bind; [apply neg_spec; eapply expr_grows; [exact G2 | eapply expr_grows; eassumption] |].
  intros s3 n _ G3 (m & Hm & Hn). eapply builds_mono.
  { apply try_add_spec; [| exact (proj1 Hn)].
    eapply expr_grows; [exact G3 | eapply expr_grows; [exact G2 | eapply expr_grows; eassumption]]. }
  intros s4 u _ G4 H. exists m, n. split; [eapply literal_grows; eassumption |].
  split; [| exact H]. destruct Hn as [Hn On]. split; [eapply expr_grows; eassumption | exact On].
Qed.

(** *** Shifts, comparisons, selections and casts *)

Lemma shift_spec s op a b :
  BinaryOp.is_comparison op = false -> expr s a -> expr s b ->
  yields s (shift_op op a b) (on_ok (fun s' u => is_binary s' op a b u)).
Proof.
  intros Hc Ha Hb. unfold shift_op. cbv zeta.
  eapply builds_rbind with (P := fun _ _ => True); [apply yields_ret; now destruct (check_shift_dtype _ _) |]. intros s1 _ _ G1 _.
  eapply builds_rbind with (P := fun _ _ => True); [apply yields_ret; now destruct (check_shift_dtype _ _) |]. intros s2 _ _ G2 _.
  apply (expr_grows _ _ _ G1), (expr_grows _ _ _ G2) in Ha, Hb.
  eapply builds_rbind; [apply validate_binary_yields; [apply Ha | apply Hb] |]. intros s3 _ _ G3 _.
  replace (uop_dtype a) with (DType.Scalar t) by (symmetry; apply Ha).
  apply new_binary; [exact Hc | |]; eapply expr_grows; eassumption.
Qed.

Lemma cdiv_spec s a b :
  expr s a -> expr s b -> yields s (cdiv a b) (fun s' u => is_binary s' BinaryOp.CDiv a b u).
Proof. intros Ha Hb. now apply yields_expect, division_spec. Qed.

(** A boolean node of the table. *)
Definition truth s (u : UOp) : Prop := table s u /\ int_wt u = true /\ uop_dtype u = DType.Scalar Bool.

Lemma truth_grows s s' u : grows s s' -> truth s u -> truth s' u.
Proof using Type. intros G (H1 & H2 & H3). split; [now apply G | now split]. Qed.

Lemma cmp_spec s op a b :
  BinaryOp.is_comparison op = true -> expr s a -> expr s b ->
  yields s (cmp_op op a b) (on_ok (fun s' u => truth s' u /\ uop_op u = Op.Binary UOp op a b)).
Proof.
  intros Hc Ha Hb. eapply builds_rbind; [now apply promote_same |]. intros s1 r _ G1 ->.
  apply (expr_grows _ _ _ G1) in Ha, Hb.
  eapply builds_rbind; [apply validate_binary_yields; [apply Ha | apply Hb] |]. intros s2 _ _ G2 _.
  apply (expr_grows _ _ _ G2) in Ha, Hb. cbn [DType.vcount]. cbv zeta. cbn [Z.gtb Z.compare Pos.compare Pos.compare_cont].
  eapply yields_bind; [apply yields_new |].
  - cbn [refs Op.children launch_values app In]. intros v [<- | [<- | []]]; [apply Ha | apply Hb].
  - intros s' u Hs G (Tu & Du & Ou). apply yields_ret. specialize (Ou eq_refl). split; [| exact Ou].
    split; [exact Tu | split; [| exact Du]]. destruct u as [i o d].
    cbn [uop_op uop_dtype] in *. subst o d. cbn [int_wt DType.base]. rewrite Hc.
    rewrite (expr_base _ _ Ha), (expr_base _ _ Hb).
    destruct Ha as (_ & -> & _), Hb as (_ & -> & _). now rewrite bool_decide_true.
Qed.

Lemma where_spec s c a b :
  truth s c -> expr s a -> expr s b ->
  yields s (try_where c a b) (on_ok (fun s' u => expr s' u /\ uop_op u = Op.Ternary UOp TernaryOp.Where c a b)).
Proof.
  intros Hc Ha Hb. unfold try_where. cbv zeta. destruct Hc as (Tc & Wc & Dc). rewrite Dc. cbn [DType.is_bool].
  eapply builds_rbind with (P := fun _ _ => True).
  { unfold validate_ternary_shapes. eapply builds_rbind; [apply shape_yields, Ha |]. intros s1 o1 _ G1 _.
    eapply builds_rbind; [apply shape_yields; apply G1, Hb |]. intros s2 o2 _ _ _.
    destruct o1 as [[| ? ?] |], o2 as [[| ? ?] |]; apply yields_ret; try exact Logic.I. now destruct (shapes_equal _ _). }
  intros s1 _ _ G _. apply (expr_grows _ _ _ G) in Ha, Hb. apply G in Tc.
  assert (E : dtype_from_op (fun _ => false) (Op.Ternary UOp TernaryOp.Where c a b) = Some (DType.Scalar t)).
  { cbn [dtype_from_op]. destruct Ha as (_ & _ & ->), Hb as (_ & _ & ->). rewrite Dc. cbn [negb DType.is_bool].
    unfold promote. cbn [forallb]. rewrite bool_decide_true by reflexivity. now destruct (is_invalid_marker a), (is_invalid_marker b). }
  cbn [DType.is_bool] in E. rewrite E. eapply yields_bind; [apply yields_new |].
  - cbn [refs Op.children launch_values app In]. intros v [<- | [<- | [<- | []]]]; [exact Tc | apply Ha | apply Hb].
  - intros s' u Hs G' (Tu & Du & Ou). apply yields_ret. specialize (Ou eq_refl). split; [| exact Ou].
    split; [exact Tu | split; [| exact Du]]. destruct u as [i o d].
    cbn [uop_op uop_dtype] in *. subst o d. cbn [int_wt DType.base]. rewrite int_dtype, Wc.
    rewrite (expr_base _ _ Ha), (expr_base _ _ Hb). unfold base_of. rewrite Dc.
    destruct Ha as (_ & -> & _), Hb as (_ & -> & _). now rewrite !bool_decide_true.
Qed.

(** A cast between integer dtypes reduces the value into the new one. *)
Lemma cast_spec s u t' :
  is_Some (int_format t') -> expr s u ->
  yields s (cast u (DType.Scalar t')) (fun s' v => table s' v /\ int_wt v = true /\ uop_dtype v = DType.Scalar t' /\
    forall (M : LibM) r z, denote r u = Some z -> denote r v = Some (wrap_to t' z)).
Proof.
  intros Ht' (Tu & Wu & Du). unfold cast. cbv zeta. rewrite Du. cbn [DType.vcount Z.gtb Z.compare andb Z.eqb Pos.compare Pos.compare_cont Pos.eqb].
  destruct (bool_decide_reflect (DType.Scalar t = DType.Scalar t')) as [[= <-] | Hne].
  - apply yields_ret. do 3 (split; [assumption |]). intros M r z Hz. rewrite Hz. f_equal. symmetry.
    apply wrap_to_id; [apply int_dtype |]. pose proof (denote_fits r u z Wu Hz) as Hf. unfold base_of in Hf. now rewrite Du in Hf.
  - eapply yields_mono; [apply yields_new; intros v [<- | []]; exact Tu |]. intros s' v Hs G (Tv & Dv & Ov). specialize (Ov eq_refl).
    destruct v as [i o d]. cbn [uop_op uop_dtype] in *. subst o d. split; [exact Tv |]. split; [| split; [reflexivity |]].
    + cbn [int_wt DType.base]. rewrite Wu. destruct Ht' as [f E']. destruct t'; try discriminate E'; reflexivity.
    + intros M r z Hz. cbn [denote DType.base]. now rewrite Hz.
Qed.
End Expr.

(** ** Permutations *)

Definition bit_set (seen : Z) (i : Z) : Prop := Z.testbit seen i = true.

Lemma land_bit_zero seen a : 0 <= a -> Z.land seen (Z.shiftl 1 a) = 0 <-> ~ bit_set seen a.
Proof.
  intros Ha. unfold bit_set. rewrite Z.shiftl_1_l. split.
  - intros E H. assert (T : Z.testbit (Z.land seen (2 ^ a)) a = true).
    { rewrite Z.land_spec, H, Z.pow2_bits_true by exact Ha. reflexivity. }
    now rewrite E, Z.bits_0 in T.
  - intros H. apply Z.bits_inj'. intros i Hi. rewrite Z.land_spec, Z.bits_0, Z.pow2_bits_eqb by exact Ha.
    destruct (Z.eqb_spec a i) as [<- |]; [| apply andb_false_r].
    destruct (Z.testbit seen a); [now destruct H | reflexivity].
Qed.

Lemma lor_bit_set seen a i : 0 <= a -> bit_set (Z.lor seen (Z.shiftl 1 a)) i <-> bit_set seen i \/ i = a.
Proof.
  intros Ha. unfold bit_set. rewrite Z.shiftl_1_l, Z.lor_spec, orb_true_iff, Z.pow2_bits_eqb, Z.eqb_eq by exact Ha.
  intuition congruence.
Qed.

(** The bitset holds exactly the axes seen, each once. *)
Lemma permutation_bits_spec axes d : forall seen,
  Forall (fun a => 0 <= a) axes ->
  match permutation_bits axes d seen with
  | Some r => base.NoDup axes /\ Forall (fun a => a < d /\ ~ bit_set seen a) axes /\
              (forall i, bit_set r i <-> bit_set seen i \/ i ∈ axes)
  | None => ~ (base.NoDup axes /\ Forall (fun a => a < d /\ ~ bit_set seen a) axes)
  end.
Proof.
  induction axes as [| a axes IH]; intros seen Hp; cbn [permutation_bits].
  { split; [constructor |]. split; [constructor |]. intros i. rewrite elem_of_nil. tauto. }
  apply Forall_cons in Hp as [Ha Hp].
  destruct (Z.ltb_spec a d) as [L | L]; [| intros [_ H]; apply Forall_cons in H as [[H _] _]; lia].
  cbv zeta. destruct (Z.eqb_spec (Z.land seen (Z.shiftl 1 a)) 0) as [E | E];
    rewrite (land_bit_zero seen a Ha) in E; [| intros [_ H]; apply Forall_cons in H as [[_ H] _]; contradiction].
  specialize (IH (Z.lor seen (Z.shiftl 1 a)) Hp).
  assert (Hf : Forall (fun b => b < d /\ ~ bit_set (Z.lor seen (Z.shiftl 1 a)) b) axes <->
    Forall (fun b => b < d /\ ~ bit_set seen b) axes /\ a ∉ axes).
  { rewrite !Forall_forall. setoid_rewrite (lor_bit_set seen a _ Ha). split.
    - intros H. split; [intros b Hb; specialize (H b Hb); tauto |]. intros Hin. now destruct (H a Hin) as [_ []]; right.
    - intros [H Hn] b Hb. destruct (H b Hb). split; [assumption |]. intros [? | ->]; contradiction. }
  destruct (permutation_bits axes d _) as [r |].
  - destruct IH as (N & F & B). apply Hf in F as [F Hn]. split; [now constructor |]. split; [now constructor |].
    intros i. rewrite B, (lor_bit_set seen a i Ha), elem_of_cons. tauto.
  - intros [N H]. apply NoDup_cons in N as [Hn N]. apply Forall_cons in H as [_ H]. tauto.
Qed.

(** So does the array of booleans. *)
Lemma permutation_seen_spec axes d : forall seen,
  Forall (fun a => 0 <= a) axes -> List.length seen = Z.to_nat d ->
  permutation_seen axes d seen = true <->
  base.NoDup axes /\ Forall (fun a => a < d /\ nth (Z.to_nat a) seen false = false) axes.
Proof.
  induction axes as [| a axes IH]; intros seen Hp Hl; cbn [permutation_seen].
  { split; [intros _; split; constructor | reflexivity]. }
  apply Forall_cons in Hp as [Ha Hp]. rewrite !andb_true_iff, Z.ltb_lt, negb_true_iff, IH by
    (exact Hp || now rewrite length_insert).
  rewrite NoDup_cons, Forall_cons.
  assert (Hf : a < d -> Forall (fun b => b < d /\ nth (Z.to_nat b) (<[Z.to_nat a := true]> seen) false = false) axes <->
    Forall (fun b => b < d /\ nth (Z.to_nat b) seen false = false) axes /\ a ∉ axes).
  { intros L. rewrite !Forall_forall.
    assert (N : forall b, 0 <= b -> nth (Z.to_nat b) (<[Z.to_nat a := true]> seen) false
              = if b =? a then true else nth (Z.to_nat b) seen false).
    { intros b Hb. rewrite !nth_lookup. destruct (Z.eqb_spec b a) as [-> | Hne].
      - rewrite list_lookup_insert_eq by lia. reflexivity.
      - rewrite list_lookup_insert_ne by lia. reflexivity. }
    rewrite Forall_forall in Hp. split.
    - intros H. assert (Hn : a ∉ axes).
      { intros Hin. destruct (H a Hin) as [_ E]. rewrite N, Z.eqb_refl in E by exact Ha. discriminate. }
      split; [| exact Hn]. intros b Hb. destruct (H b Hb) as [? E]. rewrite N in E by auto.
      destruct (Z.eqb_spec b a) as [-> |]; [contradiction | now split].
    - intros [H Hn] b Hb. destruct (H b Hb). rewrite N by auto.
      destruct (Z.eqb_spec b a) as [-> |]; [contradiction | now split]. }
  split; [intros [[L E] [N F]]; apply Hf in F; tauto | intros [[Hn N] [[L E] F]]; rewrite Hf; tauto].
Qed.

(** Distinct numbers below [d], [d] of them: a permutation. *)
Lemma permutation_below axes d :
  Forall (fun a => 0 <= a) axes -> Z.of_nat (List.length axes) = d ->
  Permutation axes (seqZ 0 d) <-> base.NoDup axes /\ Forall (fun a => a < d) axes.
Proof.
  intros Hp Hl. split.
  - intros P. split; [rewrite P; apply NoDup_seqZ |]. rewrite Forall_forall. intros a Ha.
    rewrite P in Ha. apply elem_of_seqZ in Ha. lia.
  - intros [N F]. apply submseteq_length_Permutation.
    + apply NoDup_submseteq; [exact N |]. intros a Ha. apply elem_of_seqZ.
      rewrite Forall_forall in *. specialize (Hp a Ha). specialize (F a Ha). lia.
    + rewrite length_seqZ. lia.
Qed.

(** The full bitset of [d < 64] dimensions is the mask the code compares with. *)
Lemma full_mask axes d r :
  0 <= d < 64 -> Permutation axes (seqZ 0 d) -> (forall i, bit_set r i <-> bit_set 0 i \/ i ∈ axes) ->
  r = wrap_u 64 (Z.shiftl 1 (d mod 64)) - 1.
Proof.
  intros Hd P B. rewrite (Z.mod_small d 64) by lia. rewrite Z.shiftl_1_l.
  rewrite wrap_u_small; [| lia | split; [lia | apply Z.pow_lt_mono_r; lia]].
  replace (2 ^ d - 1) with (Z.ones d) by (rewrite Z.ones_equiv; lia).
  apply Z.bits_inj'. intros i Hi. specialize (B i). unfold bit_set in B. rewrite Z.bits_0, P, elem_of_seqZ in B.
  rewrite Z.testbit_ones_nonneg by lia. destruct (Z.ltb_spec i d) as [L | L].
  - apply B. right. lia.
  - destruct (Z.testbit r i); [| reflexivity]. destruct B as [B _]. destruct (B eq_refl); [discriminate | lia].
Qed.

(** C37: [validate_permutation] accepts the permutations of the axes and nothing
    else, except at rank 64. *)
Theorem validate_permutation_spec axes d :
  Forall (fun a => 0 <= a) axes -> 0 <= d -> d <> 64 ->
  validate_permutation axes d = inl tt <-> Permutation axes (seqZ 0 d).
Proof.
  intros Hp H0 Hd. unfold validate_permutation. cbv zeta.
  destruct (Z.eqb_spec (Z.of_nat (List.length axes)) d) as [Hl | Hl]; cbn [negb].
  2: { split; [discriminate |]. intros P%Permutation_length. rewrite length_seqZ in P. lia. }
  rewrite (permutation_below axes d Hp Hl). destruct (Z.leb_spec d 64) as [L | L].
  - pose proof (permutation_bits_spec axes d 0 Hp) as H.
    assert (Z0 : Forall (fun a => a < d /\ ~ bit_set 0 a) axes <-> Forall (fun a => a < d) axes).
    { rewrite !Forall_forall. unfold bit_set. setoid_rewrite Z.bits_0. split; intros X a Ha; specialize (X a Ha);
        [tauto | split; [exact X | discriminate]]. }
    destruct (permutation_bits axes d 0) as [r |].
    + destruct H as (N & F & B). apply Z0 in F. split; [now split |]. intros _.
      rewrite (full_mask axes d r), Z.eqb_refl; [reflexivity | lia | now apply permutation_below | exact B].
    + rewrite Z0 in H. split; [discriminate | intros X; contradiction].
  - pose proof (permutation_seen_spec axes d (repeat false (Z.to_nat d)) Hp (repeat_length _ _)) as H.
    destruct (permutation_seen _ _ _).
    + split; [| reflexivity]. intros _. destruct H as [H _]. destruct (H eq_refl) as [N F].
      split; [exact N |]. eapply Forall_impl; [exact F |]. intros a [Ha _]. exact Ha.
    + split; [discriminate |]. intros [N F]. destruct H as [_ H]. discriminate H. split; [exact N |].
      eapply Forall_impl; [exact F |]. intros a Ha. split; [exact Ha | apply nth_repeat].
Qed.

Lemma validate_permutation_spec_witness :
  validate_permutation [2; 0; 1] 3 = inl tt /\ Permutation [2; 0; 1] (seqZ 0 3).
Proof.
  split; [reflexivity |]. apply (validate_permutation_spec [2; 0; 1] 3); [repeat constructor; lia | lia | lia | reflexivity].
Defined.

(** At rank 64 the mask [(1 << 64) - 1] is 0 with the shift amount masked (and
    a panic with overflow checks): no permutation is accepted. *)
Theorem validate_permutation_64 : validate_permutation (seqZ 0 64) 64 = inr (PermuteInvalidPermutation (seqZ 0 64) 64).
Proof. vm_compute. reflexivity. Qed.
