(* ===== verification/Exact.v ===== *)
(** * Exact integer rewrites ([schedule/src/symbolic/patterns.rs])

    The guard of the div/mod rewrites: a replacement is accepted only when no
    arithmetic node of the original or of the replacement can wrap in its
    dtype, decided from the sound ranges of the operands.  [ideal] reads the
    same expression over unbounded integers; accepted expressions mean the
    same in both readings. *)

From stdpp Require Import gmap.
From S2P Require Import Prelude F64 DType Cast ConstVal Ops IntView Eval EvalSpec Payload UOp Semantics.
From S2P Require Import RangeEval RangeSound HashCons Builder Shape.

(** [i128::checked_div_euclid] and [checked_rem_euclid]. *)
Definition div_euclid (a b : Z) : Z := if b >? 0 then a / b else - (a / (- b)).
Definition rem_euclid (a b : Z) : Z := a mod (Z.abs b).
Definition checked_div_euclid_i128 (a b : Z) : option Z :=
  if b =? 0 then None else checked_i128 (div_euclid a b).
Definition checked_rem_euclid_i128 (a b : Z) : option Z :=
  if (b =? 0) || ((a =? i128_min) && (b =? -1)) then None else Some (rem_euclid a b).

Definition integer_dtype_bounds (dtype : DType) : option (Z * Z) :=
  match DType.base dtype with
  | Int8 => Some (- 2 ^ 7, 2 ^ 7 - 1)
  | Int16 => Some (- 2 ^ 15, 2 ^ 15 - 1)
  | Int32 => Some (- 2 ^ 31, 2 ^ 31 - 1)
  | Int64 | WeakInt | Index => Some (- 2 ^ 63, 2 ^ 63 - 1)
  | UInt8 => Some (0, 2 ^ 8 - 1)
  | UInt16 => Some (0, 2 ^ 16 - 1)
  | UInt32 => Some (0, 2 ^ 32 - 1)
  | UInt64 => Some (0, 2 ^ 64 - 1)
  | _ => None
  end.

Definition integer_value (value : ConstValue) : option Z :=
  match value with
  | ConstValue.Int value | ConstValue.UInt value => Some value
  | _ => None
  end.

Section Exact.
Context {M : LibM}.

Definition sound_integer_range (value : UOp) : option (Z * Z) :=
  let? dtype_bounds := integer_dtype_bounds (uop_dtype value) in
  let? (min, max) := sound_vmin_vmax value in
  let? min := integer_value min in
  let? max := integer_value max in
  if (fst dtype_bounds <=? min) && (min <=? max) && (max <=? snd dtype_bounds)
  then Some (min, max) else None.

Definition integer_binary_does_not_wrap (op : BinaryOp) (lhs rhs : UOp) (result_dtype : DType) : bool :=
  if negb (bool_decide (uop_dtype lhs = result_dtype)) || negb (bool_decide (uop_dtype rhs = result_dtype))
  then false
  else
    match integer_dtype_bounds result_dtype, sound_integer_range lhs, sound_integer_range rhs with
    | Some (dtype_min, dtype_max), Some (lhs_min, lhs_max), Some (rhs_min, rhs_max) =>
        let in_dtype value := (dtype_min <=? value) && (value <=? dtype_max) in
        let checked value := match value with Some v => in_dtype v | None => false end in
        match op with
        | BinaryOp.Add => checked (checked_i128 (lhs_min + rhs_min)) && checked (checked_i128 (lhs_max + rhs_max))
        | BinaryOp.Sub => checked (checked_i128 (lhs_min - rhs_max)) && checked (checked_i128 (lhs_max - rhs_min))
        | BinaryOp.Mul =>
            forallb (fun v => checked (checked_i128 v))
              [lhs_min * rhs_min; lhs_min * rhs_max; lhs_max * rhs_min; lhs_max * rhs_max]
        | BinaryOp.FloorDiv | BinaryOp.FloorMod =>
            if (rhs_min <=? 0) && (rhs_max >=? 0) then false
            else
              let value :=
                if bool_decide (op = BinaryOp.FloorDiv)
                then checked_div_euclid_i128 else checked_rem_euclid_i128 in
              forallb (fun lhs => forallb (fun rhs => checked (value lhs rhs)) [rhs_min; rhs_max])
                [lhs_min; lhs_max]
        | _ => false
        end
    | _, _, _ => false
    end.

(** The arithmetic the proof looks into. *)
Definition is_arith (op : BinaryOp) : bool :=
  match op with
  | BinaryOp.Add | BinaryOp.Sub | BinaryOp.Mul | BinaryOp.FloorDiv | BinaryOp.FloorMod => true
  | _ => false
  end.

Definition neg_does_not_wrap (src : UOp) (dtype : DType) : bool :=
  match integer_dtype_bounds dtype, sound_integer_range src with
  | Some (dtype_min, dtype_max), Some (src_min, src_max) =>
      match checked_i128 (- src_max), checked_i128 (- src_min) with
      | Some min, Some max => (dtype_min <=? min) && (min <=? max) && (max <=? dtype_max)
      | _, _ => false
      end
  | _, _ => false
  end.

(** The recursive proof with its memo, the pair of the verdict and the memo. *)
Fixpoint integer_arithmetic_does_not_wrap (value : UOp) (memo : gmap Z bool) : bool * gmap Z bool :=
  let 'mkUOp i op dtype := value in
  match memo !! i with
  | Some known => (known, memo)
  | None =>
      let '(result, memo) :=
        match op with
        | Op.Binary _ op lhs rhs =>
            if is_arith op then
              let '(l, memo) := integer_arithmetic_does_not_wrap lhs memo in
              if l then
                let '(r, memo) := integer_arithmetic_does_not_wrap rhs memo in
                (r && integer_binary_does_not_wrap op lhs rhs dtype, memo)
              else (false, memo)
            else (true, memo)
        | Op.Unary _ UnaryOp.Neg src =>
            match integer_dtype_bounds dtype, sound_integer_range src with
            | Some _, Some _ =>
                let '(r, memo) := integer_arithmetic_does_not_wrap src memo in
                (r && neg_does_not_wrap src dtype, memo)
            | _, _ => (false, memo)
            end
        | _ => (true, memo)
        end in
      (result, <[i := result]> memo)
  end.

Section Rewrite.
Context {S : Type} `{I : !Interner S} `{Sh : !Shapes S}.

Definition typed_integer_rewrite_is_exact (original replacement : UOp) : Build S bool :=
  let* original_shape := shape original in
  let* replacement_shape := shape replacement in
  let same_shape :=
    match original_shape, replacement_shape with
    | inl (Some a), inl (Some b) => shapes_equal a b
    | inl None, inl None => true
    | _, _ => false
    end in
  let '(o, memo) := integer_arithmetic_does_not_wrap original ∅ in
  let '(r, _) := integer_arithmetic_does_not_wrap replacement memo in
  ret (bool_decide (uop_dtype original = uop_dtype replacement) && same_shape &&
       bool_decide (is_Some (integer_dtype_bounds (uop_dtype original))) && o && r).

Definition exact_integer_rewrite (original replacement : UOp) : Build S (option UOp) :=
  let* exact := typed_integer_rewrite_is_exact original replacement in
  ret (if exact then Some replacement else None).
End Rewrite.

(** ** The proof without its memo *)
Fixpoint does_not_wrap (value : UOp) : bool :=
  let 'mkUOp _ op dtype := value in
  match op with
  | Op.Binary _ op lhs rhs =>
      if is_arith op
      then does_not_wrap lhs && does_not_wrap rhs && integer_binary_does_not_wrap op lhs rhs dtype
      else true
  | Op.Unary _ UnaryOp.Neg src => does_not_wrap src && neg_does_not_wrap src dtype
  | _ => true
  end.

Definition memo_ok (G : UOp -> Prop) (memo : gmap Z bool) : Prop :=
  forall u b, G u -> memo !! uid u = Some b -> b = does_not_wrap u.

Lemma memo_ok_empty G : memo_ok G ∅.
Proof. intros u b _ H. rewrite lookup_empty in H. discriminate H. Qed.

Lemma memo_ok_insert G `{!Arena G} memo u :
  G u -> memo_ok G memo -> memo_ok G (<[uid u := does_not_wrap u]> memo).
Proof.
  intros Hu Hm v b Hv. destruct (decide (uid v = uid u)) as [E | E].
  - rewrite E, lookup_insert_eq. intros [= <-]. f_equal. now apply (arena_id (G := G)).
  - rewrite lookup_insert_ne by congruence. now apply Hm.
Qed.

Lemma does_not_wrap_memo G `{!Arena G} u : forall memo,
  G u -> memo_ok G memo ->
  fst (integer_arithmetic_does_not_wrap u memo) = does_not_wrap u /\
  memo_ok G (snd (integer_arithmetic_does_not_wrap u memo)).
Proof.
  induction u as [u IH] using UOp_children_ind. intros memo Hu Hm.
  rewrite List.Forall_forall in IH.
  assert (Hs : forall v, In v (children u) -> G v) by (intros v Hv; exact (arena_source u v Hu Hv)).
  pose proof (memo_ok_insert G memo u Hu Hm) as Ins. pose proof (Hm u) as Hk.
  assert (Last : forall memo' b, memo_ok G memo' -> b = does_not_wrap u ->
    b = does_not_wrap u /\ memo_ok G (<[uid u := b]> memo')).
  { intros memo' b Hm' ->. split; [reflexivity | now apply memo_ok_insert]. }
  destruct u as [i op d]. unfold children in IH, Hs. cbn [uop_op uid] in *.
  cbn [integer_arithmetic_does_not_wrap]. destruct (memo !! i) as [b |] eqn:E.
  { split; [exact (Hk b Hu eq_refl) | exact Hm]. }
  destruct op; try (now apply Last); cbn [Op.children In] in IH, Hs.
  - destruct op; try (now apply Last).
    cbn [does_not_wrap] in *. unfold neg_does_not_wrap in *.
    destruct (integer_dtype_bounds d) as [[lo hi] |], (sound_integer_range src) as [[a b] |];
      try (rewrite andb_false_r in *; now apply Last).
    destruct (IH src (or_introl eq_refl) memo (Hs src (or_introl eq_refl)) Hm) as [H1 H2].
    destruct (integer_arithmetic_does_not_wrap src memo) as [r m]. cbn [fst snd] in *.
    rewrite <- H1 in *. now apply Last.
  - cbn [does_not_wrap] in *. destruct (is_arith op); [| now apply Last].
    destruct (IH lhs (or_introl eq_refl) memo (Hs lhs (or_introl eq_refl)) Hm) as [H1 H2].
    destruct (integer_arithmetic_does_not_wrap lhs memo) as [l m]. cbn [fst snd] in *. rewrite <- H1 in *.
    destruct l; [| now apply Last].
    destruct (IH rhs (or_intror (or_introl eq_refl)) m (Hs rhs (or_intror (or_introl eq_refl))) H2) as [H3 H4].
    destruct (integer_arithmetic_does_not_wrap rhs m) as [r m']. cbn [fst snd] in *. rewrite <- H3 in *.
    now apply Last.
Qed.

(** ** Accepted arithmetic is exact *)

(** The operations over unbounded integers. *)
Definition arith (op : BinaryOp) (x y : Z) : option Z :=
  match op with
  | BinaryOp.Add => Some (x + y)
  | BinaryOp.Sub => Some (x - y)
  | BinaryOp.Mul => Some (x * y)
  | BinaryOp.FloorDiv => if y =? 0 then None else Some (x / y)
  | BinaryOp.FloorMod => if y =? 0 then None else Some (x mod y)
  | _ => None
  end.

(** Reading a node over unbounded integers, down to the first operation that is
    not arithmetic. *)
Fixpoint ideal (r : env) (u : UOp) : option Z :=
  let 'mkUOp _ op _ := u in
  match op with
  | Op.Binary _ op a b =>
      if is_arith op then
        let? x := ideal r a in
        let? y := ideal r b in arith op x y
      else denote r u
  | Op.Unary _ UnaryOp.Neg src => let? x := ideal r src in Some (- x)
  | _ => denote r u
  end.

Lemma dtype_bounds_fits d lo hi z :
  integer_dtype_bounds d = Some (lo, hi) -> lo <= z <= hi <-> fits (DType.base d) z.
Proof.
  unfold integer_dtype_bounds, fits, dtype_lo, dtype_hi.
  destruct (DType.base d); intros H; try discriminate H; injection H as <- <-; reflexivity.
Qed.

Lemma bounds_zero d lo hi : integer_dtype_bounds d = Some (lo, hi) -> lo <= 0 <= hi /\ (lo = 0 \/ lo = - hi - 1).
Proof.
  unfold integer_dtype_bounds. destruct (DType.base d); intros H; try discriminate H; injection H as <- <-; lia.
Qed.

Lemma bounds_int d lo hi : integer_dtype_bounds d = Some (lo, hi) -> is_int_or_bool (DType.base d) = true.
Proof. unfold integer_dtype_bounds. destruct (DType.base d); intros H; try discriminate H; reflexivity. Qed.

(** The range of a typed node holds its value. *)
Lemma sound_integer_range_holds r u lo hi v :
  int_wt u = true -> interned u -> sound_integer_range u = Some (lo, hi) -> denote r u = Some v ->
  lo <= v <= hi /\ fits (base_of u) lo /\ fits (base_of u) hi.
Proof.
  intros Hw Hi H Hv. unfold sound_integer_range in H.
  destruct (integer_dtype_bounds (uop_dtype u)) as [[a b] |] eqn:B; [| discriminate].
  destruct (sound_vmin_vmax u) as [[cl ch] |] eqn:E; [| discriminate].
  destruct (sound_encloses r u Hi _ Hw E) as (l & h & Er & Fl & Fh & Hlh). injection Er as -> ->.
  destruct (Hlh v Hv) as [_ Hin].
  assert (V : forall z, fits (base_of u) z -> integer_value (of_Z (base_of u) z) = Some z).
  { intros z _. unfold of_Z, base_of. unfold integer_dtype_bounds in B.
    destruct (DType.base (uop_dtype u)); try discriminate B; reflexivity. }
  rewrite !V in H by assumption. destruct (_ && _); [| discriminate]. injection H as <- <-. auto.
Qed.

Ltac split_checks :=
  repeat match goal with
  | H : _ && _ = true |- _ => apply andb_true_iff in H; destruct H
  | H : match checked_i128 ?z with _ => _ end = true |- _ =>
      destruct (checked_i128 z) eqn:?; [| discriminate H]
  | H : checked_i128 _ = Some _ |- _ => apply checked_i128_Some in H; subst
  | H : (_ <=? _) = true |- _ => apply Z.leb_le in H
  end.

Lemma mul_in_corners al ah bl bh x y lo hi :
  al <= x <= ah -> bl <= y <= bh ->
  lo <= al * bl <= hi -> lo <= al * bh <= hi -> lo <= ah * bl <= hi -> lo <= ah * bh <= hi ->
  lo <= x * y <= hi.
Proof.
  intros Hx Hy H1 H2 H3 H4.
  pose proof (corner_hull Z.mul al ah bl bh x y (fun y _ => mul_monotone_l y al ah)
    (mul_monotone_r al bl bh) (mul_monotone_r ah bl bh) Hx Hy). lia.
Qed.

(** The floor quotient of numbers of a dtype leaves it only at the minimum by -1. *)
Lemma div_fits lo hi x y :
  lo <= 0 <= hi -> (lo = 0 \/ lo = - hi - 1) -> lo <= x <= hi -> lo <= y <= hi -> y <> 0 ->
  ~ (x = lo /\ y = -1 /\ lo < 0) -> lo <= x / y <= hi.
Proof.
  intros H0 Hlo Hx Hy Hy0 Hc. pose proof (Z.div_mod x y Hy0) as E.
  set (q := x / y) in *. clearbody q. destruct (Z.lt_trichotomy y 0) as [Hn | [? | Hp]]; [| contradiction |].
  - pose proof (Z.mod_neg_bound x y Hn). set (m := x mod y) in *. clearbody m.
    assert (q <= hi) by (destruct (Z.le_gt_cases q hi); [assumption |]; assert (y * q <= - q) by nia; nia).
    assert (lo <= q) by (destruct (Z.le_gt_cases lo q); [assumption |]; assert (y * (q + 1) >= - (q + 1)) by nia; lia).
    lia.
  - pose proof (Z.mod_pos_bound x y Hp). set (m := x mod y) in *. clearbody m.
    assert (q <= hi) by (destruct (Z.le_gt_cases q hi); [assumption |]; assert (q <= y * q) by nia; lia).
    assert (lo <= q) by (destruct (Z.le_gt_cases lo q); [assumption |]; assert (y * (q + 1) <= q + 1) by nia; lia).
    lia.
Qed.

Lemma mod_fits lo hi x y :
  lo <= 0 <= hi -> lo <= y <= hi -> y <> 0 -> lo <= x mod y <= hi.
Proof.
  intros H0 Hy Hy0. destruct (Z.lt_trichotomy y 0) as [Hn | [? | Hp]]; [| contradiction |].
  - pose proof (Z.mod_neg_bound x y Hn). lia.
  - pose proof (Z.mod_pos_bound x y Hp). lia.
Qed.

(** An accepted node computes the unbounded operation on its operands. *)
Lemma binary_fits r op a b d x y z :
  integer_binary_does_not_wrap op a b d = true ->
  int_wt a = true -> int_wt b = true -> interned a -> interned b ->
  denote r a = Some x -> denote r b = Some y -> arith op x y = Some z -> fits (DType.base d) z.
Proof.
  intros H Wa Wb Ia Ib Hx Hy Hz. unfold integer_binary_does_not_wrap in H.
  destruct (bool_decide (uop_dtype a = d)) eqn:Da; [| discriminate]. apply bool_decide_eq_true in Da.
  destruct (bool_decide (uop_dtype b = d)) eqn:Db; [| discriminate]. apply bool_decide_eq_true in Db.
  cbn [negb orb] in H.
  destruct (integer_dtype_bounds d) as [[lo hi] |] eqn:B; [| discriminate].
  destruct (sound_integer_range a) as [[al ah] |] eqn:Ra; [| discriminate].
  destruct (sound_integer_range b) as [[bl bh] |] eqn:Rb; [| discriminate].
  destruct (sound_integer_range_holds r a al ah x Wa Ia Ra Hx) as (Bx & Fal & Fah).
  destruct (sound_integer_range_holds r b bl bh y Wb Ib Rb Hy) as (By & Fbl & Fbh).
  unfold base_of in *. rewrite Da, Db in *.
  rewrite <- (dtype_bounds_fits d lo hi) in Fal, Fah, Fbl, Fbh |- * by exact B.
  destruct (bounds_zero d lo hi B) as [Z0 Hlo].
  destruct op; cbn [arith] in Hz; try discriminate; cbv zeta in H.
  - injection Hz as <-. split_checks. lia.
  - injection Hz as <-. cbn [forallb] in H. rewrite andb_true_r in H. split_checks.
    eapply mul_in_corners; eauto.
  - injection Hz as <-. split_checks. lia.
  - destruct (Z.eqb_spec y 0) as [| Hy0]; [discriminate |]. injection Hz as <-. eapply mod_fits; eauto. lia.
  - destruct (Z.eqb_spec y 0) as [| Hy0]; [discriminate |]. injection Hz as <-.
    destruct ((bl <=? 0) && (bh >=? 0)) eqn:C; [discriminate |].
    apply div_fits; auto; try lia. intros (Ex & Ey & L).
    assert (bh = -1 /\ al = lo) as [-> ->] by (apply andb_false_iff in C; lia).
    rewrite bool_decide_true in H by reflexivity. cbn [forallb] in H.
    apply andb_prop in H as [H _]. apply andb_prop in H as [_ H]. apply andb_prop in H as [H _].
    unfold checked_div_euclid_i128 in H. cbn [Z.eqb] in H.
    unfold div_euclid in H. cbn [Z.gtb Z.compare Z.opp] in H. rewrite Z.div_1_r in H. split_checks. lia.
Qed.

Lemma arith_no_comparison op x y : is_arith op = true -> sem_comparison op x y = None.
Proof. destruct op; intros H; try discriminate H; reflexivity. Qed.

Lemma sem_arith op s x y : is_arith op = true -> sem_binary op s x y = option_map (wrap_to s) (arith op x y).
Proof.
  destruct op; intros H; try discriminate H; cbn [sem_binary arith option_map]; try reflexivity;
    destruct (y =? 0); reflexivity.
Qed.

(** The binary node as a whole. *)
Lemma binary_exact r i op a b d z :
  let u := mkUOp i (Op.Binary UOp op a b) d in
  is_arith op = true -> integer_binary_does_not_wrap op a b d = true ->
  int_wt u = true -> interned u -> denote r u = Some z ->
  exists x y, denote r a = Some x /\ denote r b = Some y /\ arith op x y = Some z.
Proof.
  cbv zeta. intros Ha H Hw Hi Hd.
  assert (Ia : interned a) by (eapply interned_source; [exact Hi | now left]).
  assert (Ib : interned b) by (eapply interned_source; [exact Hi | right; now left]).
  pose proof (int_wt_base _ Hw) as Hs. cbn [int_wt] in Hw. apply andb_prop in Hw as [_ Hw].
  assert (C : BinaryOp.is_comparison op = false) by (destruct op; discriminate || reflexivity).
  rewrite C in Hw. split_wt Hw. destruct Hw as [[Wa _] [Wb _]].
  cbn [denote] in Hd. destruct (denote r a) as [x |] eqn:Ex; [| discriminate].
  destruct (denote r b) as [y |] eqn:Ey; [| discriminate]. exists x, y.
  split; [reflexivity |]. split; [reflexivity |].
  rewrite (arith_no_comparison op x y Ha), (sem_arith op _ x y Ha) in Hd.
  destruct (arith op x y) as [v |] eqn:E; [| discriminate]. cbn in Hd. injection Hd as <-. f_equal.
  symmetry. apply wrap_to_id; [exact Hs |]. eapply (binary_fits r op a b d); eauto.
Qed.

Lemma neg_fits r src d x :
  neg_does_not_wrap src d = true -> int_wt src = true -> interned src -> denote r src = Some x ->
  fits (DType.base d) (- x).
Proof.
  unfold neg_does_not_wrap. destruct (integer_dtype_bounds d) as [[lo hi] |] eqn:B; [| discriminate].
  destruct (sound_integer_range src) as [[l h] |] eqn:R; [| discriminate]. intros H Hw Hi Hx.
  destruct (sound_integer_range_holds r src l h x Hw Hi R Hx) as (Bx & _).
  destruct (checked_i128 (- h)) eqn:E1; [| discriminate]. destruct (checked_i128 (- l)) eqn:E2; [| discriminate].
  apply checked_i128_Some in E1 as ->, E2 as ->. split_checks.
  rewrite <- (dtype_bounds_fits d lo hi) by exact B. lia.
Qed.

(** C7: An expression the proof accepts means over machine integers what it means
    over unbounded ones, at every input and at every node. *)
Theorem no_wrap_is_exact r u v :
  int_wt u = true -> interned u -> fst (integer_arithmetic_does_not_wrap u ∅) = true ->
  denote r u = Some v -> ideal r u = Some v.
Proof.
  intros Hw Hi H. pose proof (interned_arena u Hi) as A.
  rewrite (proj1 (does_not_wrap_memo (fun a => occurs u a) u ∅ (rtc_refl _ _) (memo_ok_empty _))) in H.
  clear A. revert v. induction u as [u IH] using UOp_children_ind. intros v Hv.
  assert (Sub : forall c w, source u c -> int_wt c = true -> does_not_wrap c = true ->
            denote r c = Some w -> ideal r c = Some w).
  { intros c w Hc Wc Nc Ew. rewrite List.Forall_forall in IH.
    apply IH; auto. eapply interned_source; eassumption. }
  clear IH. destruct u as [i op d]. unfold source, children in Sub. cbn [uop_op] in Sub.
  destruct op; try exact Hv; cbn [Op.children In] in Sub.
  - destruct op; try exact Hv. cbn [does_not_wrap] in H. apply andb_prop in H as [H1 H2].
    pose proof (int_wt_base _ Hw) as Hs. cbn [int_wt] in Hw. split_wt Hw. destruct Hw as [_ [Ws _]].
    cbn [denote ideal] in Hv |- *. destruct (denote r src) as [x |] eqn:E; [| discriminate].
    rewrite (Sub src x (or_introl eq_refl) Ws H1 E). cbn [sem_unary] in Hv. injection Hv as <-.
    f_equal. symmetry. apply wrap_to_id; [exact Hs |].
    eapply (neg_fits r src d); eauto. eapply interned_source; [exact Hi | now left].
  - cbn [does_not_wrap ideal] in *. destruct (is_arith op) eqn:Ha; [| exact Hv].
    apply andb_prop in H as [H H3]. apply andb_prop in H as [H1 H2].
    destruct (binary_exact r i op lhs rhs d v Ha H3 Hw Hi Hv) as (x & y & Ex & Ey & E).
    cbn [int_wt] in Hw. assert (C : BinaryOp.is_comparison op = false) by (destruct op; discriminate || reflexivity).
    rewrite C in Hw. split_wt Hw. destruct Hw as [_ [[Wa _] [Wb _]]].
    rewrite (Sub lhs x), (Sub rhs y) by tauto. exact E.
Qed.
End Exact.

(** [i * 4 + 3] for a loop index below ten. *)
Lemma no_wrap_is_exact_witness : ideal (M := demo_libm) Demo.rho Demo.addr = Some 31.
Proof.
  apply (no_wrap_is_exact (M := demo_libm) Demo.rho Demo.addr 31);
    [reflexivity | solve_interned | vm_compute; reflexivity | vm_compute; reflexivity].
Defined.
