(* ===== verification/Helpers.v ===== *)
(** * Helpers of symbolic simplification ([ir/src/uop/helpers.rs])

    Splitting sums and products into terms, constant factors, and division of
    an expression by a constant or by another expression.  Computations that
    build nodes run in [Build]; the order in which a [HashMap] yields its
    values is unspecified, [hash_order] of [Iteration]. *)

From stdpp Require Import gmap fin_maps.
From S2P Require Import Prelude F64 DType Cast ConstVal Ops Payload UOp HashCons Builder Shape Constructors.

(** [i64]'s checked operations. *)
Definition i64_min : Z := - 2 ^ 63.
Definition checked_div_i64 (a b : Z) : option Z :=
  if (b =? 0) || ((a =? i64_min) && (b =? -1)) then None else Some (Z.quot a b).
Definition checked_rem_i64 (a b : Z) : option Z :=
  if (b =? 0) || ((a =? i64_min) && (b =? -1)) then None else Some (Z.rem a b).
Definition checked_abs_i64 (a : Z) : option Z := if a =? i64_min then None else Some (Z.abs a).

(** Euclid's algorithm; [gcd_fuel] rounds are enough for any two [i64]. *)
Fixpoint gcd_loop (fuel : nat) (a b : Z) : Z :=
  match fuel with
  | O => a
  | Datatypes.S fuel => if b =? 0 then a else gcd_loop fuel b (Z.rem a b)
  end.
Definition gcd_fuel : nat := 127.
Definition gcd (a b : Z) : Z :=
  if (a =? i64_min) || (b =? i64_min) then 1 else gcd_loop gcd_fuel (Z.abs a) (Z.abs b).

(** An [Int] constant node. *)
Definition int_const (u : UOp) : option Z :=
  match uop_op u with Op.Const _ (ConstValue.Int i) => Some i | _ => None end.

(** The largest factor of the lanes of a vector constant; [None] stops at 1. *)
Fixpoint lanes_factor (values : list ConstValue) (factor : option Z) : Z :=
  match values with
  | [] => from_option id 1 factor
  | value :: values =>
      let next value := lanes_factor values (Some (match factor with Some f => gcd f value | None => value end)) in
      match value with
      | ConstValue.Int i => match checked_abs_i64 i with Some v => next v | None => 1 end
      | ConstValue.UInt u => match try_i64 u with Some v => next v | None => 1 end
      | _ => lanes_factor values factor
      end
  end.

Fixpoint const_factor (self : UOp) : Z :=
  let 'mkUOp _ op _ := self in
  match op with
  | Op.Const _ (ConstValue.Int i) => if i =? i64_min then 1 else i
  | Op.Const _ (ConstValue.UInt u) => from_option id 1 (try_i64 u)
  | Op.VConst _ values => lanes_factor values None
  | Op.Binary _ BinaryOp.Mul a b =>
      match int_const a with
      | Some i => if i =? i64_min then 1 else i
      | None => match int_const b with Some i => if i =? i64_min then 1 else i | None => 1 end
      end
  | Op.Binary _ BinaryOp.Add a b => gcd (const_factor a) (const_factor b)
  | _ => 1
  end.

(** [None] is the panic on an operation without an identity. *)
Definition pop_const (self : UOp) (op : BinaryOp) : option (UOp * ConstValue) :=
  let otherwise := let? c := BinaryOp.identity_element op (uop_dtype self) in Some (self, c) in
  match uop_op self with
  | Op.Binary _ self_op a b =>
      if bool_decide (self_op = op) then
        match uop_op b with Op.Const _ cv => Some (a, cv) | _ => otherwise end
      else otherwise
  | _ => otherwise
  end.

(** The loop of [split_uop]: [stack] has its top first. *)
Fixpoint split_loop (fuel : nat) (sep : BinaryOp) (stack result : list UOp) : list UOp :=
  match fuel with
  | O => result
  | Datatypes.S fuel =>
      match stack with
      | [] => result
      | node :: stack =>
          match uop_op node with
          | Op.Binary _ op a b =>
              if bool_decide (op = sep) then split_loop fuel sep (a :: b :: stack) result
              else split_loop fuel sep stack (result ++ [node])
          | _ => split_loop fuel sep stack (result ++ [node])
          end
      end
  end.
Definition split_uop (self : UOp) (sep : BinaryOp) : list UOp :=
  split_loop (Datatypes.S (List.length (nodes self))) sep [self] [].

Definition get_idx (self : UOp) : UOp :=
  match uop_op self with
  | Op.Ternary _ TernaryOp.Where _ true_val false_val =>
      if is_invalid_marker false_val then true_val else self
  | _ => self
  end.

Fixpoint is_increasing (self : UOp) : bool :=
  let 'mkUOp _ op _ := self in
  match op with
  | Op.Range _ _ _ _ _ | Op.Const _ _ | Op.DefineVar _ _ _ _ | Op.Special _ _ _ => true
  | Op.Binary _ BinaryOp.Add a b => is_increasing a && is_increasing b
  | Op.Binary _ BinaryOp.Mul a b | Op.Binary _ BinaryOp.FloorDiv a b =>
      match uop_op b with
      | Op.Const _ (ConstValue.Int n) => (n >=? 0) && is_increasing a
      | _ => false
      end
  | _ => false
  end.

Class Iteration (S : Type) `{!Interner S} := {
  hash_order : list (UOp * Z) -> Build S (list (UOp * Z));
  hash_order_spec s l : yields s (hash_order l) (fun _ l' => Permutation l l')
}.

Section Helpers.
Context {S : Type} `{I : !Interner S} `{Sh : !Shapes S} `{It : !Iteration S}.

Definition get_valid (self : UOp) : Build S UOp :=
  let bool b := const_ (DType.Scalar Bool) (ConstValue.Bool b) in
  match uop_op self with
  | Op.Ternary _ TernaryOp.Where cond _ false_val =>
      if is_invalid_marker false_val then ret cond else bool true
  | Op.Const _ ConstValue.Invalid => bool false
  | _ => bool true
  end.

Definition invalid_marker : Build S UOp := const_ (DType.Scalar Bool) ConstValue.Invalid.

Fixpoint divides (self : UOp) (v : Z) : Build S (option UOp) :=
  let 'mkUOp _ op dtype := self in
  if v =? 1 then ret (Some self)
  else if v =? 0 then ret None
  else
    match op with
    | Op.Const _ (ConstValue.Int val) =>
        match checked_rem_i64 val v, checked_div_i64 val v with
        | Some 0, Some q => let* u := const_ dtype (ConstValue.Int q) in ret (Some u)
        | _, _ => ret None
        end
    | Op.VConst _ values =>
        let divide val :=
          match val with
          | ConstValue.Int i =>
              match checked_rem_i64 i v with
              | Some 0 => option_map ConstValue.Int (checked_div_i64 i v)
              | _ => None
              end
          | _ => None
          end in
        match collect divide values with
        | Some divided => let* u := vconst divided (DType.scalar_dtype dtype) in ret (Some u)
        | None => ret None
        end
    | Op.Binary _ BinaryOp.Add a b =>
        let*? d0 := divides a v in
        let*? d1 := divides b v in
        ok (try_add d0 d1)
    | Op.Binary _ BinaryOp.Mul a b =>
        let* d0 := divides a v in
        match d0 with
        | Some d0 => ok (try_mul d0 b)
        | None =>
            let* d1 := divides b v in
            match d1 with Some d1 => ok (try_mul a d1) | None => ret None end
        end
    | _ => ret None
    end.

(** [counts.entry(f.id).and_modify(+1).or_insert((f, 1))] over a list. *)
Definition count_factors (l : list UOp) : gmap Z (UOp * Z) :=
  fold_left (fun counts f =>
    match counts !! uid f with
    | Some (u, c) => <[uid f := (u, c + 1)]> counts
    | None => <[uid f := (f, 1)]> counts
    end) l ∅.

(** Subtracting factors; [None] when one is missing. *)
Fixpoint uncount_factors (l : list UOp) (counts : gmap Z (UOp * Z)) : option (gmap Z (UOp * Z)) :=
  match l with
  | [] => Some counts
  | f :: l => let? (u, c) := counts !! uid f in uncount_factors l (<[uid f := (u, c - 1)]> counts)
  end.

Definition map_values (counts : gmap Z (UOp * Z)) : list (UOp * Z) := map snd (map_to_list counts).

(** [for _ in 0..n { result = result.try_mul(factor) }]. *)
Fixpoint mul_times (n : nat) (result factor : UOp) : Build S (Result UOp) :=
  match n with
  | O => ret (inl result)
  | Datatypes.S n =>
      let*! result := try_mul result factor in mul_times n result factor
  end.

Fixpoint mul_all (result : UOp) (factors : list (UOp * Z)) : Build S (Result UOp) :=
  match factors with
  | [] => ret (inl result)
  | (factor, count) :: factors =>
      let*! result := mul_times (Z.to_nat count) result factor in mul_all result factors
  end.

(** The quotient of two products. *)
Definition divide_products (self v : UOp) : Build S (option UOp) :=
  match pop_const self BinaryOp.Mul, pop_const v BinaryOp.Mul with
  | Some (fac, c_self), Some (div_fac, c_v) =>
      match try_int c_self, try_int c_v with
      | Some const_self, Some const_v =>
          if const_v =? 0 then ret None
          else
            match checked_rem_i64 const_self const_v with
            | Some 0 =>
                match uncount_factors (split_uop div_fac BinaryOp.Mul)
                        (count_factors (split_uop fac BinaryOp.Mul)) with
                | None => ret None
                | Some counts =>
                    if existsb (fun '(_, c) => c <? 0) (map_values counts) then ret None
                    else
                      match checked_div_i64 const_self const_v with
                      | None => ret None
                      | Some q =>
                          let* result := const_like self (ConstValue.Int q) in
                          let* values := hash_order (map_values counts) in
                          ok (mul_all result values)
                      end
                end
            | _ => ret None
            end
      | _, _ => ret None
      end
  | _, _ => panic
  end.

Fixpoint divide_exact (self v : UOp) : Build S (option UOp) :=
  let 'mkUOp _ op _ := self in
  if ptr_eq self v then let* u := const_like self (ConstValue.Int 1) in ret (Some u)
  else
    match int_const v with
    | Some d => divides self d
    | None =>
        match op with
        | Op.Binary _ BinaryOp.Add a b =>
            let*? d0 := divide_exact a v in
            let*? d1 := divide_exact b v in
            ok (try_add d0 d1)
        | Op.Binary _ BinaryOp.Mul _ _ => divide_products self v
        | _ => ret None
        end
    end.

(** One input of [symbolic_gcd] as its factor and the term that remains. *)
Definition decompose (u : UOp) : Build S (UOp * Z) :=
  let f := const_factor u in
  if (f =? 1) || (f =? 0) then ret (u, f)
  else
    let* d := divides u f in
    match d with
    | Some term => ret (term, f)
    | None => let* one := const_like u (ConstValue.Int 1) in ret (one, f)
    end.

(** [common.retain(..)]. *)
Definition retain_common (common other : gmap Z (UOp * Z)) : gmap Z (UOp * Z) :=
  map_imap (fun i '(u, count) =>
    match other !! i with Some (_, other_count) => Some (u, Z.min count other_count) | None => None end)
    common.

Definition symbolic_gcd (uops : list UOp) : Build S UOp :=
  match uops with
  | [] => panic
  | first :: _ =>
      let* decomp := collect_all decompose uops in
      let counters := map (fun '(term, _) => count_factors (split_uop term BinaryOp.Mul)) decomp in
      let common := match counters with c :: cs => fold_left retain_common cs c | [] => ∅ end in
      let numerics := map (fun '(_, f) => from_option id 1 (checked_abs_i64 f)) decomp in
      let numeric := match numerics with n :: ns => fold_left gcd ns n | [] => 1 end in
      let* result := const_like first (ConstValue.Int numeric) in
      let* values := hash_order (map_values common) in
      let keep '(factor, _) := match int_const factor with Some 1 => false | _ => true end in
      expect (mul_all result (List.filter keep values))
  end.
End Helpers.
