(* ===== verification/DivMod.v ===== *)
(** * Folding division and remainder ([schedule/src/symbolic/divmod.rs])

    The rules that simplify [x // y] and [x % y] of integer expressions.  They
    only construct a candidate; [exact_integer_rewrite] of [Exact] decides
    whether it may replace the original.  The recursion of [nest_by_factor]
    strictly divides the divisor, so its fuel never runs out ([DivModSound]). *)

From stdpp Require Import gmap.
From S2P Require Import Prelude F64 DType Cast ConstVal Ops Eval Payload UOp Traverse RangeEval Properties.
From S2P Require Import HashCons Builder Shape Constructors Helpers Exact.

Section DivMod.
Context {M : LibM} {S : Type} `{I : !Interner S} `{Sh : !Shapes S} `{It : !Iteration S}.

Definition int_range (u : UOp) : option (Z * Z) :=
  match sound_vmin_vmax u with
  | Some (ConstValue.Int min, ConstValue.Int max) => Some (min, max)
  | _ => None
  end.

Definition const_int (u : UOp) : option Z :=
  match uop_op u with Op.Const _ value => try_int value | _ => None end.

Definition non_negative (u : UOp) : bool :=
  match int_range u with Some (min, _) => min >=? 0 | None => false end.

(** [term.const_like(coefficient)] of an [i64]. *)
Definition like (term : UOp) (value : Z) : Build S UOp := const_like term (ConstValue.Int value).

Definition some (m : Build S UOp) : Build S (option UOp) := let* u := m in ret (Some u).

Definition scaled (term : UOp) (coefficient : Z) : Build S (option UOp) :=
  if coefficient =? 0 then some (like term 0)
  else if coefficient =? 1 then ret (Some term)
  else let* c := like term coefficient in ok (try_mul term c).

Fixpoint sum_from (sum : UOp) (terms : list UOp) : Build S (option UOp) :=
  match terms with
  | [] => ret (Some sum)
  | term :: terms => let*? sum := ok (try_add sum term) in sum_from sum terms
  end.
Definition try_uop_sum (terms : list UOp) (template : UOp) : Build S (option UOp) :=
  match terms with
  | [] => some (like template 0)
  | first :: terms => sum_from first terms
  end.

(** The panicking version. *)
Definition uop_sum (terms : list UOp) (template : UOp) : Build S UOp :=
  match terms with
  | [] => like template 0
  | first :: terms => fold_left (fun sum term => let* sum := sum in add sum term) terms (ret first)
  end.

Definition offset_by (value : UOp) (offset : Z) : Build S (option UOp) :=
  if offset =? 0 then ret (Some value) else let* c := like value offset in ok (try_add value c).

Definition binary (op : BinaryOp) (lhs rhs : UOp) : Build S (option UOp) :=
  match op with
  | BinaryOp.FloorMod => ok (try_mod lhs rhs)
  | BinaryOp.FloorDiv => ok (try_div lhs rhs)
  | _ => ret None
  end.

(** ** The congruence fold *)

(** The terms of a sum as bases and factors. *)
Definition term_factor (term : UOp) : Build S (option (UOp * Z)) :=
  let factor := const_factor term in
  if factor =? 0 then ret None
  else let*? base := divides term factor in ret (Some (base, factor)).

(** The remainders to try for a factor. *)
Definition remainder_choices (single : bool) (c factor : Z) : list Z :=
  let positive := factor mod c in
  let negative := positive - c in
  if (match try_i64 (positive * 2) with Some p => p =? c | None => false end) || single
  then [positive; negative]
  else if Z.abs negative <? Z.abs positive then [negative] else [positive].

(** The [code]-th combination, the last choice varying fastest. *)
Fixpoint decode_rev (code : Z) (choices_rev : list (list Z)) : list Z :=
  match choices_rev with
  | [] => []
  | choice :: rest =>
      let n := Z.of_nat (List.length choice) in
      nth (Z.to_nat (code mod n)) choice 0 :: decode_rev (code / n) rest
  end.
Definition decode (code : Z) (choices : list (list Z)) : list Z := rev (decode_rev code (rev choices)).

Definition combinations (choices : list (list Z)) : option Z :=
  fold_left (fun count choice => let? count := count in try_u64 (count * Z.of_nat (List.length choice)))
    choices (Some 1).

(** [scaled] terms, zero coefficients left out. *)
Fixpoint scaled_terms (l : list (UOp * Z)) : Build S (option (list UOp)) :=
  match l with
  | [] => ret (Some [])
  | (base, coefficient) :: l =>
      if coefficient =? 0 then scaled_terms l
      else
        match try_i64 coefficient with
        | None => ret None
        | Some coefficient =>
            let*? t := scaled base coefficient in
            let*? ts := scaled_terms l in ret (Some (t :: ts))
        end
  end.

(** A constant term, unless it is zero. *)
Definition with_constant (x : UOp) (terms : list UOp) (constant : Z) : Build S (option (list UOp)) :=
  if constant =? 0 then ret (Some terms)
  else
    match try_i64 constant with
    | None => ret None
    | Some constant => let* c := like x constant in ret (Some (terms ++ [c]))
    end.

Definition congruence_candidate (x : UOp) (c : Z) (decomposition : list (UOp * Z)) (remainders : list Z)
    (constant : Z) (is_mod : bool) : Build S (option UOp) :=
  let constant_remainder := constant mod c in
  let*? terms := scaled_terms (zip_with (fun d r => (fst d, r)) decomposition remainders) in
  let*? remainder_terms := with_constant x terms constant_remainder in
  let*? remainder := try_uop_sum remainder_terms x in
  match int_range remainder with
  | None => ret None
  | Some (rem_min, rem_max) =>
      let quotient_bucket := rem_min / c in
      if negb (quotient_bucket =? rem_max / c) then ret None
      else if is_mod then
        let offset := quotient_bucket * c in
        if offset =? 0 then ret (Some remainder)
        else
          match try_i64 offset with
          | None => ret None
          | Some offset => let* o := like x offset in ok (try_sub remainder o)
          end
      else
        let*? terms :=
          scaled_terms (zip_with (fun d r => (fst d, Z.quot (snd d - r) c)) decomposition remainders) in
        let constant_quotient := Z.quot (constant - constant_remainder + quotient_bucket * c) c in
        let*? quotient_terms := with_constant x terms constant_quotient in
        try_uop_sum quotient_terms x
  end.

(** [find_map] over the combinations from [code] on. *)
Fixpoint find_candidate (n : nat) (code : Z) (choices : list (list Z)) (f : list Z -> Build S (option UOp)) :
    Build S (option UOp) :=
  match n with
  | O => ret None
  | Datatypes.S n =>
      let* r := f (decode code choices) in
      match r with Some u => ret (Some u) | None => find_candidate n (code + 1) choices f end
  end.

Definition fold_divmod_congruence (x c_uop : UOp) (c_val : ConstValue) (is_mod : bool) :
    Build S (option UOp) :=
  if negb (DType.vcount (uop_dtype x) =? 1) then ret None
  else
    match c_val with
    | ConstValue.Int c =>
        if c <=? 0 then ret None
        else
          match pop_const x BinaryOp.Add with
          | Some (without_const, ConstValue.Int constant) =>
              let terms := split_uop without_const BinaryOp.Add in
              let*? decomposition := collect_some term_factor terms in
              let single := (List.length decomposition =? 1)%nat in
              let choices := map (fun '(_, factor) => remainder_choices single c factor) decomposition in
              match combinations choices with
              | None => ret None
              | Some n =>
                  find_candidate (Z.to_nat n) 0 choices (fun remainders =>
                    congruence_candidate x c decomposition remainders constant is_mod)
              end
          | Some _ => ret None
          | None => panic
          end
    | _ => ret None
    end.

(** ** Constant divisors *)

(** [(a % (k*c)) // c -> (a // c) % k]. *)
Definition nested_div (x y : UOp) (c : Z) : Build S (option (option UOp)) :=
  match uop_op x with
  | Op.Binary _ BinaryOp.FloorMod inner modulus =>
      let* k := divides modulus c in
      match k with
      | Some k =>
          match int_range k with
          | Some (k_min, _) =>
              if k_min >? 0 then
                let* r := (let*? q := ok (try_div inner y) in ok (try_mod q k)) in ret (Some r)
              else ret None
          | None => ret None
          end
      | None => ret None
      end
  | _ => ret None
  end.

Definition strip_mod (c : Z) (term : UOp) : Build S UOp :=
  match uop_op term with
  | Op.Binary _ BinaryOp.FloorMod inner modulus =>
      let* d := divides modulus c in ret (match d with Some _ => inner | None => term end)
  | _ => ret term
  end.

(** [(a % (k*c) + b) % c -> (a + b) % c]; the outer [None] is a rule that does not apply. *)
Definition remove_nested_mod (x y : UOp) (c constant : Z) (terms : list UOp) : Build S (option (option UOp)) :=
  let* stripped := collect_all (strip_mod c) terms in
  if existsb (fun '(new, old) => negb (ptr_eq new old)) (zip stripped terms) then
    let* r :=
      (let*? sum := try_uop_sum stripped x in
       let*? sum := (if constant =? 0 then ret (Some sum)
                     else let* k := like x constant in ok (try_add sum k)) in
       ok (try_mod sum y)) in
    ret (Some r)
  else ret None.

Definition gcd_with_remainder (x peeled : UOp) (is_mod : bool) (c constant g : Z) : Build S (option (option UOp)) :=
  if negb (g >? 1) then ret None
  else
    let* reduced := divides peeled g in
    match reduced with
    | None => ret None
    | Some reduced =>
        let shift := (constant / g) mod (c / g) in
        let* reduced :=
          (if shift =? 0 then ret (Some reduced) else let* k := like x shift in ok (try_add reduced k)) in
        match reduced with
        | None => ret (Some None)
        | Some reduced =>
            match int_range reduced with
            | Some (min, _) =>
                if min >=? 0 then
                  let* inner := like x (c / g) in
                  let* r :=
                    (if is_mod then
                       let*? q := ok (try_mod reduced inner) in
                       let* k := like x g in
                       let*? scaled_up := ok (try_mul q k) in
                       offset_by scaled_up (constant mod g)
                     else
                       let*? q := ok (try_div reduced inner) in
                       offset_by q (constant / c)) in
                  ret (Some r)
                else ret None
            | None => ret None
            end
        end
    end.

(** *** [nest_by_factor], over the recursive call [fold] *)

Definition nest_divisors (c : Z) (factors : list Z) (terms : list UOp) : list Z :=
  dedup (sort_unstable (map (fun '(_, factor) => Z.abs factor)
    (List.filter (fun '(term, factor) =>
       negb (match uop_op term with Op.Const _ _ => true | _ => false end)
       && (2 <=? Z.abs factor) && (Z.abs factor <? c) && (Z.rem c (Z.abs factor) =? 0))
      (zip terms factors)))).

(** The low digit [x % divisor], from the coefficient residues. *)
Definition low_terms (x : UOp) (divisor constant : Z) (bases : list UOp) (factors : list Z) :
    Build S (option (list UOp)) :=
  let*? low := scaled_terms (List.filter (fun '(_, r) => negb (r =? 0))
                 (zip_with (fun base factor => (base, factor mod divisor)) bases factors)) in
  with_constant x low (constant mod divisor).

(** One divisor; the outer [None] leaves the function, the inner one continues. *)
Definition nest_candidate (fold : UOp -> UOp -> Build S (option UOp)) (is_mod : bool) (x : UOp) (c constant : Z)
    (x_min : Z) (bases : list UOp) (factors : list Z) (divisor : Z) : Build S (option (option UOp)) :=
  let* divisor_uop := like x divisor in
  let* nested := fold x divisor_uop in
  match nested with
  | None => ret (Some None)
  | Some nested =>
      let* outer := like x (c / divisor) in
      if negb is_mod then let* r := ok (try_div nested outer) in ret (Some r)
      else if (x_min <? 0) || negb (non_negative nested) then ret (Some None)
      else
        let*? low := low_terms x divisor constant bases factors in
        let*? digit := try_uop_sum low x in
        match int_range digit with
        | Some (min, max) =>
            if (min >=? 0) && (max <? divisor) then
              let* high := (let*? rest := ok (try_mod nested outer) in ok (try_mul rest divisor_uop)) in
              match high with
              | None => ret (Some None)
              | Some high =>
                  match low with
                  | [] => ret (Some (Some high))
                  | _ => let*? sum := ok (try_add high digit) in ret (Some (Some sum))
                  end
              end
            else ret (Some None)
        | None => ret (Some None)
        end
  end.

(** Keep the candidate with the fewest nodes. *)
Fixpoint nest_loop (candidate : Z -> Build S (option (option UOp))) (divisors : list Z)
    (best : option (nat * UOp)) : Build S (option UOp) :=
  match divisors with
  | [] => ret (option_map snd best)
  | divisor :: divisors =>
      let*? r := candidate divisor in
      match r with
      | None => nest_loop candidate divisors best
      | Some u =>
          let cost := node_count u in
          let better := match best with None => true | Some (best_cost, _) => (cost <? best_cost)%nat end in
          nest_loop candidate divisors (if better then Some (cost, u) else best)
      end
  end.

Definition nest_by_factor (fold : UOp -> UOp -> Build S (option UOp)) (is_mod : bool) (x : UOp) (c constant : Z)
    (bases : list UOp) (factors : list Z) (terms : list UOp) : Build S (option UOp) :=
  match int_range x with
  | None => ret None
  | Some (x_min, _) =>
      nest_loop (nest_candidate fold is_mod x c constant x_min bases factors)
        (nest_divisors c factors terms) None
  end.

(** A rule that may not apply, then the rest. *)
Definition or_rule (rule : Build S (option (option UOp))) (rest : Build S (option UOp)) : Build S (option UOp) :=
  let* r := rule in match r with Some result => ret result | None => rest end.

Definition const_denominator_rules (fold : UOp -> UOp -> Build S (option UOp)) (is_mod : bool) (x y peeled : UOp)
    (constant : Z) (terms : list UOp) : Build S (option UOp) :=
  match const_int y with
  | None => ret None
  | Some c =>
      if negb (c >? 0) then ret None
      else
        or_rule (if is_mod then ret None else nested_div x y c)
        (or_rule (if is_mod then remove_nested_mod x y c constant terms else ret None)
        (or_rule (let* folded := fold_divmod_congruence x y (ConstValue.Int c) is_mod in
                  ret (match folded with Some u => Some (Some u) | None => None end))
        (let factors := map const_factor terms in
         let*? bases := collect_some (fun '(term, factor) => divides term factor) (zip terms factors) in
         or_rule (gcd_with_remainder x peeled is_mod c constant (fold_left gcd factors c))
           (nest_by_factor fold is_mod x c constant bases factors terms))))
  end.

(** ** Any divisor *)

(** One term of [factor_remainder]: what it adds to the quotient and to the remainder. *)
Definition split_term (x y : UOp) (divisor : option Z) (is_mod : bool) (term : UOp) :
    Build S (option (list UOp * list UOp)) :=
  let* exact := divide_exact term y in
  match exact with
  | Some exact => ret (Some ([exact], []))
  | None =>
      let* split :=
        match divisor with
        | None => ret None
        | Some divisor =>
            let factor := const_factor term in
            let residue := rem_euclid factor divisor in
            if residue =? factor then ret None
            else
              let*? base := divides term factor in
              ret (Some (base, residue, div_euclid factor divisor))
        end in
      match split with
      | Some (base, residue, carry) =>
          let*? r := scaled base residue in
          let*? q := (if is_mod then some (like x 0) else scaled base carry) in
          ret (Some ([q], [r]))
      | None => ret (Some ([], [term]))
      end
  end.

Fixpoint split_terms (x y : UOp) (divisor : option Z) (is_mod : bool) (terms quotient remainder : list UOp) :
    Build S (option (list UOp * list UOp)) :=
  match terms with
  | [] => ret (Some (quotient, remainder))
  | term :: terms =>
      let*? (q, r) := split_term x y divisor is_mod term in
      split_terms x y divisor is_mod terms (quotient ++ q) (remainder ++ r)
  end.

Definition factor_remainder (op : BinaryOp) (x y : UOp) (terms : list UOp) : Build S (option UOp) :=
  let is_mod := bool_decide (op = BinaryOp.FloorMod) in
  if negb (non_negative x) || negb (non_negative y) then ret None
  else
    let*? (quotient, remainder) := split_terms x y (const_int y) is_mod terms [] [] in
    match quotient with
    | [] => ret None
    | _ =>
        let*? new_x := try_uop_sum remainder x in
        if negb (non_negative new_x) then ret None
        else
          let*? folded := binary op new_x y in
          if is_mod then ret (Some folded)
          else
            let*? q := try_uop_sum quotient x in
            ok (try_add folded q)
    end.

Definition variable_denominator_rules (op : BinaryOp) (x y : UOp) : Build S (option UOp) :=
  let terms := split_uop x BinaryOp.Add in
  let* divisor_gcd := symbolic_gcd (terms ++ [y]) in
  if match const_int divisor_gcd with Some 1 => false | _ => true end then
    let*? x' := divide_exact x divisor_gcd in
    let*? y' := divide_exact y divisor_gcd in
    let*? folded := binary op x' y' in
    if bool_decide (op = BinaryOp.FloorMod) then ok (try_mul folded divisor_gcd) else ret (Some folded)
  else factor_remainder op x y terms.

(** ** All rules *)

(** The quotient lands in a single bucket. *)
Definition cancel_divmod (is_mod : bool) (x y : UOp) (quotient : Z) : Build S (option UOp) :=
  if is_mod then let*? q := scaled y quotient in ok (try_sub x q) else some (like x quotient).

(** A parameter that is a known multiple of the constant divisor. *)
Definition param_multiple (x y : UOp) : bool :=
  match uop_op x with
  | Op.Param _ _ arg =>
      match (let? m := ParamArg.multiple_of arg in try_i64 m), const_int y with
      | Some multiple_of, Some c =>
          negb (c =? 0) && (match checked_rem_i64 multiple_of c with Some 0 => true | _ => false end)
      | _, _ => false
      end
  | _ => false
  end.

(** The rules in order, over the recursive call [fold] on a smaller divisor. *)
Definition fold_divmod_step (fold : UOp -> UOp -> Build S (option UOp)) (op : BinaryOp) (x y : UOp) :
    Build S (option UOp) :=
  if negb (DType.vcount (uop_dtype x) =? 1) then ret None
  else
    let is_mod := bool_decide (op = BinaryOp.FloorMod) in
    match int_range y with
    | None => ret None
    | Some (y_min, y_max) =>
        if (y_min =? 0) && (y_max =? 0) then ret None
        else
          let*? q := ok (try_div x y) in
          match int_range q with
          | None => ret None
          | Some (quotient_min, quotient_max) =>
              if quotient_min =? quotient_max then cancel_divmod is_mod x y quotient_min
              else if param_multiple x y then
                (if is_mod then some (like x 0) else ret None)
              else
                match pop_const x BinaryOp.Add with
                | Some (peeled, ConstValue.Int constant) =>
                    let terms := split_uop peeled BinaryOp.Add in
                    let* r := const_denominator_rules fold is_mod x y peeled constant terms in
                    match r with
                    | Some u => ret (Some u)
                    | None => variable_denominator_rules op x y
                    end
                | Some _ => ret None
                | None => panic
                end
          end
    end.

(** [fuel] levels of the recursion, which continues as [base]. *)
Fixpoint fold_divmod_over (base : UOp -> UOp -> Build S (option UOp)) (fuel : nat) (op : BinaryOp) (x y : UOp) :
    Build S (option UOp) :=
  match fuel with
  | O => base x y
  | Datatypes.S fuel => fold_divmod_step (fold_divmod_over base fuel BinaryOp.FloorDiv) op x y
  end.

Definition divmod_fuel : nat := 64.
Definition fold_divmod_general : BinaryOp -> UOp -> UOp -> Build S (option UOp) :=
  fold_divmod_over (fun _ _ => panic) divmod_fuel.

(** The two rewrite rules of [advanced_division_dsl_patterns] that call it. *)
Definition divmod_rule (original : UOp) : Build S (option UOp) :=
  match uop_op original with
  | Op.Binary _ ((BinaryOp.FloorMod | BinaryOp.FloorDiv) as op) x y =>
      let*? replacement := fold_divmod_general op x y in
      exact_integer_rewrite original replacement
  | _ => ret None
  end.
End DivMod.
