(* ===== verification/HelperSpec.v ===== *)
(** * What the helpers of symbolic simplification compute

    [gives u z] says that [u] denotes [z] whenever the no-wrap proof accepts
    it: the reading under which the constructors compose as unbounded integer
    operations.  The helpers are specified with it: splitting a sum keeps its
    value, a constant factor and its quotient multiply to the term, an exact
    quotient times the divisor is the dividend. *)

From stdpp Require Import gmap fin_maps.
From S2P Require Import Prelude F64 DType Cast ConstVal Ops IntView Eval EvalSpec Payload UOp Semantics.
From S2P Require Import RangeEval RangeSound HashCons Builder Shape Constructors ConstructorSpec Exact.
From S2P Require Import Helpers.
#[local] Set Default Proof Using "All".

(** ** Euclid's algorithm *)

Lemma gcd_loop_spec n : forall a b,
  0 <= a -> 0 <= b < 2 ^ Z.of_nat n -> gcd_loop (2 * n + 1) a b = Z.gcd a b.
Proof.
  induction n as [| n IH]; intros a b Ha Hb.
  - assert (b = 0) as -> by (cbn in Hb; lia). cbn. rewrite Z.gcd_0_r. lia.
  - replace (2 * Datatypes.S n + 1)%nat with (Datatypes.S (Datatypes.S (2 * n + 1))) by lia.
    cbn [gcd_loop]. destruct (Z.eqb_spec b 0) as [-> | Hb0]; [rewrite Z.gcd_0_r; lia |].
    rewrite Z.rem_mod_nonneg by lia. pose proof (Z.mod_pos_bound a b ltac:(lia)) as Hr.
    destruct (Z.eqb_spec (a mod b) 0) as [E | Hr0].
    { rewrite Z.gcd_comm, <- Z.gcd_mod, E, Z.gcd_0_l by lia. lia. }
    rewrite Z.rem_mod_nonneg by lia.
    assert (Hm : 0 <= b mod (a mod b) < 2 ^ Z.of_nat n).
    { pose proof (Z.mod_pos_bound b (a mod b) ltac:(lia)). pose proof (Z.div_mod b (a mod b) Hr0).
      assert (1 <= b / (a mod b)) by (apply Z.div_le_lower_bound; lia).
      rewrite Nat2Z.inj_succ, Z.pow_succ_r in Hb by lia. nia. }
    rewrite IH by lia. rewrite (Z.gcd_comm (a mod b)), Z.gcd_mod by lia. rewrite Z.gcd_mod by lia.
    apply Z.gcd_comm.
Qed.

Definition small (z : Z) : Prop := Z.abs z < 2 ^ 63.

Lemma gcd_spec a b : small a -> small b -> gcd a b = Z.gcd a b.
Proof.
  unfold small. intros Ha Hb. unfold gcd, i64_min.
  destruct (Z.eqb_spec a (- 2 ^ 63)), (Z.eqb_spec b (- 2 ^ 63)); try lia. cbn [orb].
  change gcd_fuel with (2 * 63 + 1)%nat. rewrite gcd_loop_spec by lia.
  rewrite Z.gcd_abs_l, Z.gcd_abs_r. reflexivity.
Qed.

(** The greatest common divisor of two [i64] is computed by at most
    [gcd_fuel] divisions; with the minimum it is 1. *)
Theorem gcd_correct a b :
  in_s 64 a -> in_s 64 b ->
  gcd a b = (if (a =? i64_min) || (b =? i64_min) then 1 else Z.gcd a b) /\ 0 <= gcd a b < 2 ^ 63.
Proof.
  unfold in_s. intros Ha Hb. unfold gcd. destruct (Z.eqb_spec a i64_min), (Z.eqb_spec b i64_min); cbn [orb]; try lia.
  unfold i64_min in *. change gcd_fuel with (2 * 63 + 1)%nat. rewrite gcd_loop_spec by lia.
  rewrite Z.gcd_abs_l, Z.gcd_abs_r. split; [reflexivity |]. split; [apply Z.gcd_nonneg |].
  destruct (Z.eq_dec a 0) as [-> |]; [rewrite Z.gcd_0_l; lia |].
  apply Z.le_lt_trans with (Z.abs a); [| lia]. rewrite <- Z.gcd_abs_l.
  apply Z.divide_pos_le; [lia | apply Z.gcd_divide_l].
Qed.

(** ** Integers modulo the width of a dtype *)
Section Modular.
Context (t : ScalarDType) (Ht : is_Some (int_format t)).

Definition same (a b : Z) : Prop := wrap_to t a = wrap_to t b.

Lemma wrap_to_period : exists m, 256 <= m /\ (forall z, exists k, wrap_to t z = z + k * m) /\
  (forall z k, wrap_to t (z + k * m) = wrap_to t z).
Proof.
  destruct Ht as [[sg w] F]. unfold wrap_to. rewrite F. exists (2 ^ w).
  assert (Hw : 8 <= w) by (destruct t; try discriminate F; injection F as _ <-; lia).
  split; [apply (Z.pow_le_mono_r 2 8 w); lia |].
  destruct sg; split; intros.
  - apply wrap_s_cong; lia.
  - apply wrap_s_add; lia.
  - apply wrap_u_cong; lia.
  - apply wrap_u_add; lia.
Qed.

Lemma same_iff a b m : (forall z, exists k, wrap_to t z = z + k * m) ->
  (forall z k, wrap_to t (z + k * m) = wrap_to t z) -> same a b <-> exists k, a = b + k * m.
Proof.
  intros H1 H2. unfold same. split.
  - intros E. destruct (H1 a) as [k Ea], (H1 b) as [j Eb]. exists (j - k). lia.
  - intros [k ->]. apply H2.
Qed.

#[export] Instance same_equiv : Equivalence same.
Proof. split; unfold same; [intros x | intros x y H | intros x y z H1 H2]; congruence. Qed.

#[export] Instance same_add : Proper (same ==> same ==> same) Z.add.
Proof.
  destruct wrap_to_period as (m & _ & H1 & H2). intros a a' Ha b b' Hb.
  apply (same_iff _ _ m H1 H2) in Ha as [k ->], Hb as [j ->]. apply (same_iff _ _ m H1 H2). exists (k + j). lia.
Qed.

#[export] Instance same_mul : Proper (same ==> same ==> same) Z.mul.
Proof.
  destruct wrap_to_period as (m & _ & H1 & H2). intros a a' Ha b b' Hb.
  apply (same_iff _ _ m H1 H2) in Ha as [k ->], Hb as [j ->]. apply (same_iff _ _ m H1 H2).
  exists (a' * j + k * b' + k * j * m). lia.
Qed.

Lemma same_wrap z : same (wrap_to t z) z.
Proof.
  destruct wrap_to_period as (m & _ & H1 & H2). rewrite (same_iff _ _ m H1 H2). apply H1.
Qed.

Lemma int_t : is_int_or_bool t = true.
Proof. destruct Ht as [f E]. destruct t; try discriminate E; reflexivity. Qed.

Lemma same_fits a b : fits t a -> fits t b -> same a b -> a = b.
Proof. unfold same. intros Ha Hb. now rewrite !wrap_to_id by (exact int_t || assumption). Qed.

Lemma fits_wrap z : fits t z -> wrap_to t z = z.
Proof. apply wrap_to_id, int_t. Qed.

(** The bounds: zero and one fit, a signed dtype is symmetric up to one. *)
Lemma fits_bounds : dtype_lo t <= 0 /\ 1 <= dtype_hi t /\ (dtype_lo t = 0 \/ dtype_lo t = - dtype_hi t - 1)
  /\ dtype_hi t < 2 ^ 64 /\ (dtype_lo t <> 0 -> dtype_hi t < 2 ^ 63).
Proof.
  destruct Ht as [f F]. unfold dtype_lo, dtype_hi. destruct t; try discriminate F; cbn [int_format]; lia.
Qed.

(** An exact quotient of a number of the dtype is one, unless the divisor is -1. *)
Lemma quotient_fits z v u :
  fits t u -> z * v = u -> v <> 0 -> v <> -1 -> (dtype_lo t = 0 -> 0 <= z) -> fits t z.
Proof.
  unfold fits. intros Hu E H0 H1 Hz. destruct fits_bounds as (B1 & B2 & [B3 | B3] & _ & _).
  - specialize (Hz B3). nia.
  - destruct (Z.eq_dec v 1) as [-> |]; [lia |]. assert (2 * Z.abs z <= Z.abs u) by nia. lia.
Qed.
End Modular.

(** ** Values of expressions of one dtype *)
Section Values.
Context {M : LibM} {S : Type} `{I : !Interner S} `{Sh : !Shapes S}.
Context (t : ScalarDType) (Ht : is_Some (int_format t)) (r : env).
Implicit Types s : S.

Definition val (u : UOp) (z : Z) : Prop := denote r u = Some z.

(** The unbounded reading, for nodes the no-wrap proof accepts. *)
Definition gives (u : UOp) (z : Z) : Prop := does_not_wrap u = true -> val u z.

(** Every arithmetic node has the scalar dtype, and no literal is a vector or
    the minimum of a signed dtype, whose quotient by -1 is not representable. *)
Fixpoint uniform (u : UOp) : bool :=
  let 'mkUOp _ op d := u in
  bool_decide (d = DType.Scalar t) &&
  match op with
  | Op.Const _ c => negb (bool_decide (to_Z c = Some (- dtype_hi t - 1)))
  | Op.VConst _ _ => false
  | Op.Binary _ op a b => if is_arith op then uniform a && uniform b else true
  | _ => true
  end.

Definition good s (u : UOp) : Prop := expr t s u /\ uniform u = true.
Definition ready s (u : UOp) : Prop := good s u /\ does_not_wrap u = true.

Lemma good_grows s s' u : grows s s' -> good s u -> good s' u.
Proof using Type. intros G [H1 H2]. split; [eapply expr_grows; eassumption | exact H2]. Qed.

Lemma ready_grows s s' u : grows s s' -> ready s u -> ready s' u.
Proof using Type. intros G [H1 H2]. split; [eapply good_grows; eassumption | exact H2]. Qed.

Lemma val_gives u z : val u z -> gives u z.
Proof using Type. intros H _. exact H. Qed.

Lemma literal_val s z u : literal t s z u -> val u z.
Proof using Type. intros H. apply H. Qed.

Lemma val_fits s u z : expr t s u -> val u z -> fits t z.
Proof using Type.
  intros He Hv. rewrite <- (expr_base t s u He). apply (denote_fits r); [apply He | exact Hv].
Qed.

Lemma val_inj u x y : val u x -> val u y -> x = y.
Proof using Type. unfold val. congruence. Qed.

Lemma arith_not_comparison op : is_arith op = true -> BinaryOp.is_comparison op = false.
Proof using Type. destruct op; intros H; reflexivity || discriminate H. Qed.

Lemma good_children s u op a b :
  settled s -> good s u -> uop_op u = Op.Binary UOp op a b -> is_arith op = true -> good s a /\ good s b.
Proof using Type.
  intros Hs [(Tu & Wu & Du) Un] E Ha.
  assert (Ta : table s a) by (apply (table_source s u); [assumption.. | unfold children; rewrite E; now left]).
  assert (Tb : table s b) by (apply (table_source s u); [assumption.. | unfold children; rewrite E; right; now left]).
  destruct u as [i o d]. cbn [uop_op uop_dtype] in *. subst o.
  cbn [uniform] in Un. rewrite Ha in Un. apply andb_prop in Un as [_ Un]. apply andb_prop in Un as [Ua Ub].
  cbn [int_wt] in Wu. rewrite (arith_not_comparison op Ha) in Wu. split_wt Wu. destruct Wu as [_ [[Wa _] [Wb _]]].
  assert (D : forall c, uniform c = true -> uop_dtype c = DType.Scalar t).
  { intros [j o dd] H. cbn [uniform] in H. apply andb_prop in H as [H _]. now apply bool_decide_eq_true in H. }
  repeat split; auto.
Qed.

Lemma no_wrap_children u op a b :
  uop_op u = Op.Binary UOp op a b -> is_arith op = true -> does_not_wrap u = true ->
  does_not_wrap a = true /\ does_not_wrap b = true /\ integer_binary_does_not_wrap op a b (uop_dtype u) = true.
Proof using Type.
  destruct u as [i o d]. cbn [uop_op uop_dtype]. intros -> Ha H. cbn [does_not_wrap] in H. rewrite Ha in H.
  apply andb_prop in H as [H H3]. apply andb_prop in H as [H1 H2]. auto.
Qed.

Lemma ready_children s u op a b :
  settled s -> ready s u -> uop_op u = Op.Binary UOp op a b -> is_arith op = true -> ready s a /\ ready s b.
Proof using Type.
  intros Hs [Hg Hn] E Ha. destruct (good_children s u op a b Hs Hg E Ha) as [Ga Gb].
  destruct (no_wrap_children u op a b E Ha Hn) as (Na & Nb & _). repeat split; apply Ga || apply Gb || assumption.
Qed.

(** A node that does not wrap computes the unbounded operation. *)
Lemma ready_binary s u op a b z :
  settled s -> ready s u -> uop_op u = Op.Binary UOp op a b -> is_arith op = true -> val u z ->
  exists x y, val a x /\ val b y /\ arith op x y = Some z.
Proof using Type.
  intros Hs [[(Tu & Wu & Du) _] Hn] E Ha Hv. destruct (no_wrap_children u op a b E Ha Hn) as (_ & _ & H).
  pose proof (table_interned s u Hs Tu) as Hi. destruct u as [i o d]. cbn [uop_op uop_dtype] in *. subst o.
  exact (binary_exact r i op a b d z Ha H Wu Hi Hv).
Qed.

(** Any node computes it modulo the width. *)
Lemma val_binary s op a b u x y z :
  is_arith op = true -> is_binary t s op a b u -> val a x -> val b y -> arith op x y = Some z ->
  val u (wrap_to t z).
Proof using Type Ht.
  intros Ha [(_ & _ & Du) E] Hx Hy Hz. destruct u as [i o d]. cbn [uop_op uop_dtype] in *. subst o d.
  unfold val in *. cbn [denote DType.base]. rewrite Hx, Hy, (arith_no_comparison op x y Ha), (sem_arith op _ x y Ha), Hz.
  reflexivity.
Qed.

Lemma val_binary_fits s op a b u x y z :
  is_arith op = true -> is_binary t s op a b u -> val a x -> val b y -> arith op x y = Some z -> fits t z ->
  val u z.
Proof using Type Ht.
  intros Ha Hb Hx Hy Hz Hf. rewrite <- (fits_wrap t Ht z Hf). exact (val_binary s op a b u x y z Ha Hb Hx Hy Hz).
Qed.

Lemma gives_binary s op a b u x y z :
  is_arith op = true -> settled s -> is_binary t s op a b u -> expr t s a -> expr t s b ->
  gives a x -> gives b y -> arith op x y = Some z -> gives u z.
Proof using Type Ht.
  intros Ha Hs Hb Ea Eb Hx Hy Hz Hn. destruct (no_wrap_children u op a b (proj2 Hb) Ha Hn) as (Na & Nb & H).
  eapply val_binary_fits; eauto. change t with (DType.base (DType.Scalar t)).
  eapply (binary_fits r op a b (DType.Scalar t) x y z);
    [ | apply Ea | apply Eb | eapply table_interned; [exact Hs | apply Ea] | eapply table_interned; [exact Hs | apply Eb]
    | now apply Hx | now apply Hy | exact Hz].
  destruct Hb as [(_ & _ & <-) _]. exact H.
Qed.
End Values.

(** ** Splitting *)

(** The operands of nested applications of [sep], left to right. *)
Fixpoint flatten (sep : BinaryOp) (u : UOp) : list UOp :=
  let 'mkUOp _ op _ := u in
  match op with
  | Op.Binary _ op a b => if bool_decide (op = sep) then flatten sep a ++ flatten sep b else [u]
  | _ => [u]
  end.

Definition tree_size (l : list UOp) : nat := List.length (concat (map nodes l)).

Lemma split_loop_flatten sep fuel : forall stack result,
  (tree_size stack < fuel)%nat -> split_loop fuel sep stack result = result ++ concat (map (flatten sep) stack).
Proof.
  unfold tree_size. induction fuel as [| fuel IH]; intros stack result H; [lia |].
  destruct stack as [| node stack]; cbn [split_loop map concat] in *; [now rewrite app_nil_r |].
  destruct node as [i op d]. rewrite nodes_eq, length_app in H. cbn [List.length uop_op] in *.
  assert (Leaf : flatten sep (mkUOp i op d) = [mkUOp i op d] ->
    split_loop fuel sep stack (result ++ [mkUOp i op d])
    = result ++ flatten sep (mkUOp i op d) ++ concat (map (flatten sep) stack)).
  { intros ->. rewrite IH by lia. now rewrite <- app_assoc. }
  destruct op; try (now apply Leaf). cbn [children Op.children uop_op map concat flatten] in *.
  destruct (bool_decide (op = sep)); [| now apply Leaf].
  rewrite !length_app in H. rewrite IH by (cbn [map concat]; rewrite !length_app; cbn [List.length] in *; lia).
  cbn [map concat]. now rewrite <- app_assoc.
Qed.

Lemma split_uop_flatten u sep : split_uop u sep = flatten sep u.
Proof.
  unfold split_uop. rewrite split_loop_flatten by (unfold tree_size; cbn [map concat]; rewrite app_nil_r; lia). cbn. now rewrite app_nil_r.
Qed.

Lemma flatten_leaf sep u a b : forall v, In v (flatten sep u) -> uop_op v <> Op.Binary UOp sep a b.
Proof.
  induction u as [u IH] using UOp_children_ind. intros v. destruct u as [i op d].
  rewrite List.Forall_forall in IH. unfold children in IH. cbn [uop_op] in IH.
  destruct op; cbn [flatten]; try (intros [<- | []]; cbn [uop_op]; discriminate).
  destruct (bool_decide (op = sep)) eqn:E.
  - intros [H | H]%in_app_iff; eapply IH; try exact H; cbn [Op.children In]; auto.
  - intros [<- | []]. cbn [uop_op]. apply bool_decide_eq_false in E. congruence.
Qed.

Section Terms.
Context {M : LibM} {S : Type} `{I : !Interner S} `{Sh : !Shapes S}.
Context (t : ScalarDType) (Ht : is_Some (int_format t)) (r : env).
Implicit Types s : S.

Lemma flatten_good s sep u :
  is_arith sep = true -> settled s -> good t s u -> Forall (good t s) (flatten sep u).
Proof using Type.
  intros Ha Hs. induction u as [u IH] using UOp_children_ind. intros Hu.
  assert (One : Forall (good t s) [u]) by (constructor; [exact Hu | constructor]).
  pose proof (fun op a b => good_children t s u op a b Hs Hu) as Hc. destruct u as [i op d].
  rewrite List.Forall_forall in IH. unfold children in IH. cbn [uop_op] in *.
  destruct op; cbn [flatten]; try exact One.
  destruct (bool_decide (op = sep)) eqn:E; [| exact One].
  apply bool_decide_eq_true in E as ->. destruct (Hc sep _ _ eq_refl Ha) as [H1 H2].
  apply Forall_app. split; apply IH; cbn [Op.children In]; auto.
Qed.

Lemma flatten_ready s sep u :
  is_arith sep = true -> settled s -> ready t s u -> Forall (ready t s) (flatten sep u).
Proof using Type.
  intros Ha Hs. induction u as [u IH] using UOp_children_ind. intros Hu.
  assert (One : Forall (ready t s) [u]) by (constructor; [exact Hu | constructor]).
  pose proof (fun op a b => ready_children t s u op a b Hs Hu) as Hc. destruct u as [i op d].
  rewrite List.Forall_forall in IH. unfold children in IH. cbn [uop_op] in *.
  destruct op; cbn [flatten]; try exact One.
  destruct (bool_decide (op = sep)) eqn:E; [| exact One].
  apply bool_decide_eq_true in E as ->. destruct (Hc sep _ _ eq_refl Ha) as [H1 H2].
  apply Forall_app. split; apply IH; cbn [Op.children In]; auto.
Qed.

Definition sum (l : list Z) : Z := foldr Z.add 0 l.
Definition product (l : list Z) : Z := foldr Z.mul 1 l.

Lemma sum_app a b : sum (a ++ b) = sum a + sum b.
Proof using Type. unfold sum. induction a as [| x a IH]; cbn [app foldr]; lia. Qed.

Lemma product_app a b : product (a ++ b) = product a * product b.
Proof using Type. unfold product. induction a as [| x a IH]; cbn [app foldr]; [lia |]. rewrite IH. lia. Qed.

(** A sum that does not wrap is the sum of its terms. *)
Lemma split_add s u z :
  settled s -> ready t s u -> val r u z -> exists l, Forall2 (val r) (flatten BinaryOp.Add u) l /\ sum l = z.
Proof using Type.
  intros Hs. revert z. induction u as [u IH] using UOp_children_ind. intros z Hu Hz.
  assert (One : exists l, Forall2 (val r) [u] l /\ sum l = z).
  { exists [z]. split; [now repeat constructor | cbn; lia]. }
  pose proof (fun op a b => ready_children t s u op a b Hs Hu) as Hc.
  pose proof (fun op a b => ready_binary t r s u op a b z Hs Hu) as Hv. destruct u as [i op d].
  rewrite List.Forall_forall in IH. unfold children in IH. cbn [uop_op] in *.
  destruct op; cbn [flatten]; try exact One. destruct (bool_decide (op = BinaryOp.Add)) eqn:E; [| exact One].
  apply bool_decide_eq_true in E as ->. destruct (Hc _ _ _ eq_refl eq_refl) as [H1 H2].
  destruct (Hv _ _ _ eq_refl eq_refl Hz) as (x & y & Hx & Hy & [= <-]).
  destruct (IH lhs ltac:(cbn; auto) x H1 Hx) as (l1 & F1 & <-), (IH rhs ltac:(cbn; auto) y H2 Hy) as (l2 & F2 & <-).
  exists (l1 ++ l2). split; [now apply Forall2_app | apply sum_app].
Qed.

(** The unbounded product of the factors. *)
Inductive factors (u : UOp) (z : Z) : Prop :=
| Factors l (H : Forall2 (val r) (flatten BinaryOp.Mul u) l) (E : product l = z).

Lemma factors_mul i d a b x y :
  factors a x -> factors b y -> factors (mkUOp i (Op.Binary UOp BinaryOp.Mul a b) d) (x * y).
Proof using Type.
  intros [l1 H1 <-] [l2 H2 <-]. apply (Factors _ _ (l1 ++ l2)); [| apply product_app].
  cbn [flatten]. rewrite bool_decide_true by reflexivity. now apply Forall2_app.
Qed.

Lemma factors_inj u x y : factors u x -> factors u y -> x = y.
Proof using Type.
  intros [l1 H1 <-] [l2 H2 <-]. f_equal. revert l2 H2. induction H1; intros l2 H2; inversion H2; subst; [reflexivity |].
  f_equal; [eapply (val_inj r); eassumption | auto].
Qed.

Lemma factors_leaf u z : (forall a b, uop_op u <> Op.Binary UOp BinaryOp.Mul a b) -> val r u z -> factors u z.
Proof using Type.
  intros Hn Hz. apply (Factors _ _ [z]); [| cbn; lia].
  assert (flatten BinaryOp.Mul u = [u]) as ->; [| now repeat constructor].
  destruct u as [i op d]. destruct op; try reflexivity. cbn [flatten].
  destruct (bool_decide (op = BinaryOp.Mul)) eqn:E; [| reflexivity].
  apply bool_decide_eq_true in E as ->. now destruct (Hn lhs rhs).
Qed.

(** A product that does not wrap is the product of its factors. *)
Lemma split_mul s u z : settled s -> ready t s u -> val r u z -> factors u z.
Proof using Type.
  intros Hs. revert z. induction u as [u IH] using UOp_children_ind. intros z Hu Hz.
  assert (One : (forall a b, uop_op u <> Op.Binary UOp BinaryOp.Mul a b) -> factors u z) by (intros; now apply factors_leaf).
  pose proof (fun op a b => ready_children t s u op a b Hs Hu) as Hc.
  pose proof (fun op a b => ready_binary t r s u op a b z Hs Hu) as Hv. destruct u as [i op d].
  rewrite List.Forall_forall in IH. unfold children in IH. cbn [uop_op] in *.
  destruct op; try (apply One; discriminate). destruct (decide (op = BinaryOp.Mul)) as [-> | E]; [| apply One; congruence].
  destruct (Hc _ _ _ eq_refl eq_refl) as [H1 H2].
  destruct (Hv _ _ _ eq_refl eq_refl Hz) as (x & y & Hx & Hy & [= <-]).
  apply factors_mul; apply IH; cbn; auto.
Qed.
End Terms.

(** ** Constant factors and quotients, at a signed dtype *)
Section Quotients.
Context {M : LibM} {S : Type} `{I : !Interner S} `{Sh : !Shapes S}.
Context (t : ScalarDType) (w : Z) (Hw : int_format t = Some (true, w)) (r : env).
Implicit Types s : S.

Lemma signed_format : is_Some (int_format t).
Proof using Hw. rewrite Hw. now eexists. Qed.

Lemma signed_bounds : dtype_lo t = - dtype_hi t - 1 /\ 127 <= dtype_hi t < 2 ^ 63.
Proof using Hw. unfold dtype_lo, dtype_hi. rewrite Hw. destruct t; try discriminate Hw; injection Hw as <-; cbn; lia. Qed.

Lemma signed_of_Z z : of_Z t z = ConstValue.Int z.
Proof using Hw. unfold of_Z. now rewrite Hw. Qed.

Lemma fits_i64 z : fits t z -> in_s 64 z.
Proof using Hw. unfold fits, in_s. pose proof signed_bounds. lia. Qed.

Lemma small_fits z : Z.abs z <= dtype_hi t -> fits t z.
Proof using Hw. unfold fits. pose proof signed_bounds. lia. Qed.

Lemma wrap_small z : Z.abs z <= dtype_hi t -> wrap_to t z = z.
Proof using Hw. intros H. apply (fits_wrap t signed_format), small_fits, H. Qed.

(** An integer literal of a good expression. *)
Lemma good_literal s u c :
  good t s u -> uop_op u = Op.Const UOp c -> exists i, c = ConstValue.Int i /\ Z.abs i <= dtype_hi t /\ val r u i.
Proof using Type Hw.
  intros [(_ & Wu & Du) Un] E. destruct u as [i op d]. cbn [uop_op uop_dtype] in *. subst op d.
  cbn [int_wt DType.base] in Wu. apply andb_prop in Wu as [_ Wu]. apply const_has_spec in Wu as (z & Hz & -> & Hc).
  cbn [uniform] in Un. apply andb_prop in Un as [_ Un]. apply negb_true_iff, bool_decide_eq_false in Un.
  rewrite Hc in Un. exists z. rewrite signed_of_Z in *. split; [reflexivity |]. split; [| exact Hc].
  unfold fits in Hz. pose proof signed_bounds. assert (z <> - dtype_hi t - 1) by congruence. lia.
Qed.

Lemma good_not_vector s u l : good t s u -> uop_op u <> Op.VConst UOp l.
Proof using Type. intros [_ Un] E. destruct u as [i op d]. cbn [uop_op] in E. subst op. cbn [uniform] in Un. now rewrite andb_false_r in Un. Qed.

Lemma int_const_literal s u i : good t s u -> int_const u = Some i -> Z.abs i <= dtype_hi t /\ val r u i.
Proof using Type Hw.
  unfold int_const. intros Hu. destruct (uop_op u) eqn:E; try discriminate.
  destruct (good_literal s u value Hu E) as (j & -> & H). now intros [= <-].
Qed.

Lemma gcd_bound a b : Z.abs a <= dtype_hi t -> Z.abs b <= dtype_hi t ->
  gcd a b = Z.gcd a b /\ 0 <= gcd a b <= dtype_hi t.
Proof using Hw.
  pose proof signed_bounds. intros Ha Hb. rewrite gcd_spec by (unfold small; lia). split; [reflexivity |].
  split; [apply Z.gcd_nonneg |]. destruct (Z.eq_dec a 0) as [-> | Na]; [rewrite Z.gcd_0_l; lia |].
  enough (Z.gcd a b <= Z.abs a) by lia. rewrite <- Z.gcd_abs_l.
  apply Z.divide_pos_le; [lia | apply Z.gcd_divide_l].
Qed.

Lemma const_factor_bound s u : settled s -> good t s u -> Z.abs (const_factor u) <= dtype_hi t.
Proof using Hw r M.
  intros Hs. pose proof signed_bounds as B. induction u as [u IH] using UOp_children_ind. intros Hu.
  pose proof (fun op a b => good_children t s u op a b Hs Hu) as Hc.
  pose proof (fun c => good_literal s u c Hu) as Hl. pose proof (fun l => good_not_vector s u l Hu) as Hn.
  destruct u as [i op d]. rewrite List.Forall_forall in IH. unfold children in IH. cbn [uop_op] in *.
  destruct op; cbn [const_factor]; try lia; try (now destruct (Hn values)).
  - destruct (Hl _ eq_refl) as (z & -> & Hz & _). destruct (z =? i64_min); lia.
  - destruct op; try lia; destruct (Hc _ _ _ eq_refl eq_refl) as [Ga Gb].
    + pose proof (gcd_bound (const_factor lhs) (const_factor rhs) (IH lhs ltac:(cbn; auto) Ga)
        (IH rhs ltac:(cbn; auto) Gb)). lia.
    + destruct (int_const lhs) as [z |] eqn:E1; [| destruct (int_const rhs) as [z |] eqn:E2; [| lia]].
      * destruct (int_const_literal s lhs z Ga E1). destruct (z =? i64_min); lia.
      * destruct (int_const_literal s rhs z Gb E2). destruct (z =? i64_min); lia.
Qed.

Lemma good_binary s op a b u :
  is_arith op = true -> is_binary t s op a b u -> good t s a -> good t s b -> good t s u.
Proof using Type.
  intros Ha [Hu E] [_ Ua] [_ Ub]. split; [exact Hu |]. destruct Hu as (_ & _ & D). destruct u as [i o d].
  cbn [uop_op uop_dtype] in *. subst o d. cbn [uniform]. rewrite bool_decide_true by reflexivity. now rewrite Ha, Ua, Ub.
Qed.

(** What [divides] promises: congruence always, exactness unless the divisor is -1. *)
Definition quotient s (v U : Z) (q : UOp) : Prop :=
  good t s q /\ v <> 0 /\ exists Q, val r q Q /\ same t (Q * v) U /\ (v <> -1 -> Q * v = U).

Lemma quotient_grows s s' v U q : grows s s' -> quotient s v U q -> quotient s' v U q.
Proof using Type. intros G [H1 H2]. split; [eapply good_grows; eassumption | exact H2]. Qed.

(** The operation on quotients computes the quotient, which fits. *)
Lemma combine_quotient s op a b q v U D :
  is_arith op = true -> is_binary t s op a b q -> good t s a -> good t s b -> fits t U -> v <> 0 ->
  (exists x y, val r a x /\ val r b y /\ arith op x y = Some D) ->
  same t (D * v) U -> (v <> -1 -> D * v = U) -> quotient s v U q.
Proof.
  intros Ha Hq Ga Gb HU Hv (x & y & Hx & Hy & E) HD HE.
  split; [eapply good_binary; eassumption |]. split; [exact Hv |].
  exists (wrap_to t D). split; [eapply (val_binary t signed_format r); eassumption |].
  assert (X : same t (wrap_to t D * v) U).
  { refine (eq_trans _ HD). apply (same_mul t signed_format); [apply (same_wrap t signed_format) | reflexivity]. }
  split; [exact X |]. intros Hv1. rewrite (fits_wrap t signed_format); [now apply HE |].
  eapply (quotient_fits t signed_format D v U); auto. pose proof signed_bounds. lia.
Qed.

Lemma divides_spec u : forall s v U,
  ready t s u -> val r u U -> yields s (divides u v) (on_some (fun s' q => quotient s' v U q)).
Proof.
  induction u as [u IH] using UOp_children_ind. intros s v U Hu HU Hs. revert Hs.
  rewrite List.Forall_forall in IH. intros Hs.
  pose proof (fun op a b => ready_children t s u op a b Hs Hu) as Hc.
  pose proof (fun op a b => ready_binary t r s u op a b U Hs Hu) as Hv.
  pose proof (fun c => good_literal s u c (proj1 Hu)) as Hl.
  pose proof (fun l => good_not_vector s u l (proj1 Hu)) as Hn.
  pose proof (val_fits t r s u U (proj1 (proj1 Hu)) HU) as FU.
  revert Hs. change (yields s (divides u v) (on_some (fun s' q => quotient s' v U q))).
  assert (D : uop_dtype u = DType.Scalar t) by apply Hu.
  destruct u as [i op d]. unfold children in IH. cbn [uop_op uop_dtype divides] in *. subst d.
  destruct (Z.eqb_spec v 1) as [-> | V1].
  { apply yields_ret. split; [apply Hu |]. split; [lia |]. exists U. rewrite Z.mul_1_r. easy. }
  destruct (Z.eqb_spec v 0) as [-> | V0]; [now apply yields_ret |].
  destruct op; try (now apply yields_ret); try (now destruct (Hn values)).
  - destruct (Hl _ eq_refl) as (z & -> & Hz & Ez). pose proof (val_inj r _ _ _ HU Ez) as ->.
    pose proof signed_bounds as B. unfold checked_rem_i64, checked_div_i64, i64_min.
    destruct (_ || _); [now apply yields_ret |]. destruct (Z.rem z v) eqn:R; try (now apply yields_ret).
    assert (Q : Z.quot z v * v = z) by (pose proof (Z.quot_rem' z v); lia).
    assert (Qb : Z.abs (Z.quot z v) <= dtype_hi t) by nia.
    eapply yields_bind; [apply (const_spec t signed_format); apply fits_i64, small_fits, Qb |].
    intros s1 q _ G [Hq Oq]. rewrite wrap_small in Hq, Oq by exact Qb. apply yields_ret. split.
    + split; [apply Hq |]. destruct Hq as [(_ & _ & Dq) _]. destruct q as [j o dq]. cbn [uop_op uop_dtype] in *. subst o dq.
      cbn [uniform]. rewrite bool_decide_true by reflexivity. rewrite signed_of_Z. cbn [to_Z andb].
      apply negb_true_iff, bool_decide_eq_false. intros [= E]. lia.
    + split; [exact V0 |]. exists (Z.quot z v). split; [apply Hq |]. rewrite Q. easy.
  - destruct op; try (now apply yields_ret); destruct (Hc _ _ _ eq_refl eq_refl) as [Ra Rb];
      destruct (Hv _ _ _ eq_refl eq_refl HU) as (x & y & Hx & Hy & [= <-]); cbn [Op.children In] in IH.
    + eapply finds_obind; [apply IH; eauto |]. intros s1 d0 _ G1 Q0.
      eapply finds_obind; [apply IH; eauto using ready_grows |]. intros s2 d1 _ G2 Q1.
      apply (quotient_grows s1 s2) in Q0; [| exact G2].
      destruct Q0 as (Gd0 & _ & D0 & V0' & S0 & E0), Q1 as (Gd1 & _ & D1 & V1' & S1 & E1).
      apply finds_ok. eapply builds_mono; [apply (try_add_spec t signed_format); [apply Gd0 | apply Gd1] |].
      intros s3 q _ G3 Hq. eapply (combine_quotient s3 BinaryOp.Add d0 d1 q v _ (D0 + D1)); eauto using good_grows.
      * rewrite Z.mul_add_distr_r. now apply (same_add t signed_format).
      * intros Hv1. specialize (E0 Hv1). specialize (E1 Hv1). lia.
    + eapply yields_bind; [apply IH; eauto |]. intros s1 [d0 |] _ G1 Q0; cbn [on_some] in Q0.
      * destruct Q0 as (Gd0 & _ & D0 & V0' & S0 & E0). apply finds_ok.
        apply (ready_grows t _ _ _ G1) in Rb.
        eapply builds_mono; [apply (try_mul_spec t signed_format); [apply Gd0 | apply Rb] |].
        intros s3 q _ G3 Hq. eapply (combine_quotient s3 BinaryOp.Mul d0 rhs q v _ (D0 * y)); eauto using good_grows.
        { eapply good_grows; [exact G3 | apply Rb]. }
        { replace (D0 * y * v) with (D0 * v * y) by lia. apply (same_mul t signed_format); [exact S0 | reflexivity]. }
        { intros Hv1. specialize (E0 Hv1). rewrite <- E0. lia. }
      * apply (ready_grows t _ _ _ G1) in Ra, Rb.
        eapply yields_bind; [apply IH; eauto |]. intros s2 [d1 |] _ G2 Q1; [| now apply yields_ret].
        destruct Q1 as (Gd1 & _ & D1 & V1' & S1 & E1). apply finds_ok.
        apply (ready_grows t _ _ _ G2) in Ra.
        eapply builds_mono; [apply (try_mul_spec t signed_format); [apply Ra | apply Gd1] |].
        intros s3 q _ G3 Hq. eapply (combine_quotient s3 BinaryOp.Mul lhs d1 q v _ (x * D1)); eauto using good_grows.
        { eapply good_grows; [exact G3 | apply Ra]. }
        { rewrite <- Z.mul_assoc. apply (same_mul t signed_format); [reflexivity | exact S1]. }
        { intros Hv1. specialize (E1 Hv1). rewrite <- E1. lia. }
Qed.
End Quotients.
