(* ===== verification/FactorSpec.v ===== *)
(** * Quotients by expressions

    [divide_exact] divides by another expression through multisets of factors,
    [symbolic_gcd] collects the factors common to several expressions.  The
    counters of factors are given the weight of the product they stand for:
    counting multiplies it, uncounting divides it, and any order of iteration
    multiplies back to it. *)

From stdpp Require Import gmap fin_maps.
From S2P Require Import Prelude F64 DType Cast ConstVal Ops IntView Eval EvalSpec Payload UOp Semantics.
From S2P Require Import RangeEval RangeSound HashCons Builder Shape Constructors ConstructorSpec Exact.
From S2P Require Import Helpers HelperSpec.
#[local] Set Default Proof Using "All".

Lemma product_perm l l' : Permutation l l' -> product l = product l'.
Proof. induction 1; unfold product in *; cbn [foldr] in *; lia. Qed.

Section Factors.
Context {M : LibM} {S : Type} `{I : !Interner S} `{Sh : !Shapes S} `{It : !Iteration S}.
Context (t : ScalarDType) (w : Z) (Hw : int_format t = Some (true, w)) (r : env).
Implicit Types s : S.
#[local] Abbreviation Ht := (signed_format t w Hw).

(** ** Factors with a value *)

Definition atom s (u : UOp) : Prop :=
  good t s u /\ (forall a b, uop_op u <> Op.Binary UOp BinaryOp.Mul a b) /\ exists z, val r u z.

Lemma atom_grows s s' u : grows s s' -> atom s u -> atom s' u.
Proof using Type. intros G [H1 H2]. split; [eapply good_grows; eassumption | exact H2]. Qed.

Definition value (u : UOp) : Z := from_option id 0 (denote r u).

Lemma val_value u z : val r u z -> value u = z.
Proof using Type. unfold val, value. now intros ->. Qed.

Lemma atom_value s u : atom s u -> val r u (value u).
Proof using Type. intros (_ & _ & z & Hz). now rewrite (val_value u z Hz). Qed.

(** The operands of a node that has a value have one. *)
Lemma flatten_atoms s u z : settled s -> good t s u -> val r u z -> Forall (atom s) (flatten BinaryOp.Mul u).
Proof using Type.
  intros Hs. revert z. induction u as [u IH] using UOp_children_ind. intros z Hu Hz.
  assert (One : (forall a b, uop_op u <> Op.Binary UOp BinaryOp.Mul a b) -> Forall (atom s) [u]).
  { intros H. constructor; [| constructor]. split; [exact Hu | eauto]. }
  pose proof (fun op a b => good_children t s u op a b Hs Hu) as Hc. destruct u as [i op d].
  rewrite List.Forall_forall in IH. unfold children in IH. cbn [uop_op] in *.
  destruct op; cbn [flatten]; try (apply One; discriminate).
  destruct (bool_decide (op = BinaryOp.Mul)) eqn:E; [| apply bool_decide_eq_false in E; apply One; congruence].
  apply bool_decide_eq_true in E as ->. destruct (Hc _ _ _ eq_refl eq_refl) as [Ga Gb].
  unfold val in Hz. cbn [denote] in Hz. destruct (denote r lhs) as [x |] eqn:Ex; [| discriminate].
  destruct (denote r rhs) as [y |] eqn:Ey; [| discriminate].
  apply Forall_app. split; eapply IH; eauto; cbn; auto.
Qed.

Lemma atoms_product s l : Forall (atom s) l -> exists zs, Forall2 (val r) l zs /\ product zs = product (map value l).
Proof using Type.
  induction 1 as [| u l Hu _ (zs & F & E)]; [exists []; now split |].
  exists (value u :: zs). split; [constructor; [eapply atom_value; exact Hu | exact F] |].
  unfold product in *. cbn [foldr map]. now rewrite E.
Qed.

Lemma factors_value u z : factors r u z -> product (map value (flatten BinaryOp.Mul u)) = z.
Proof using Type.
  intros [l F <-]. f_equal. induction F as [| a b l l' H _ IH]; [reflexivity |]. cbn [map]. now rewrite (val_value a b H), IH.
Qed.

Lemma factors_of s u z :
  settled s -> good t s u -> val r u z -> factors r u (product (map value (flatten BinaryOp.Mul u))).
Proof using Type.
  intros Hs Hu Hz. destruct (atoms_product s _ (flatten_atoms s u z Hs Hu Hz)) as (zs & F & <-).
  now apply (Factors r u _ zs).
Qed.

(** ** Counters *)

Definition counted s (m : gmap Z (UOp * Z)) : Prop :=
  forall k u c, m !! k = Some (u, c) -> uid u = k /\ atom s u.

Definition counts_positive (m : gmap Z (UOp * Z)) : Prop := forall k u c, m !! k = Some (u, c) -> 0 <= c.

Definition power (p : UOp * Z) : Z := value (fst p) ^ snd p.
Definition weight (m : gmap Z (UOp * Z)) : Z := product (map power (map_values m)).

Lemma weight_empty : weight ∅ = 1.
Proof using Type. unfold weight, map_values. now rewrite map_to_list_empty. Qed.

Lemma weight_insert m k p : m !! k = None -> weight (<[k := p]> m) = power p * weight m.
Proof using Type.
  intros H. unfold weight, map_values.
  rewrite (product_perm _ (map power (map snd ((k, p) :: map_to_list m)))); [reflexivity |].
  apply Permutation_map, Permutation_map, map_to_list_insert, H.
Qed.

(** One more occurrence multiplies the weight. *)
Lemma weight_step m k u c : m !! k = Some (u, c) -> 0 <= c -> weight (<[k := (u, c + 1)]> m) = value u * weight m.
Proof using Type.
  intros H Hc. rewrite <- (insert_delete_id m k (u, c) H) at 2. rewrite <- (insert_delete_eq m).
  rewrite !weight_insert by apply lookup_delete_eq. unfold power. cbn [fst snd].
  rewrite Z.pow_add_r by lia. lia.
Qed.

Lemma counted_insert s m u c : counted s m -> atom s u -> counted s (<[uid u := (u, c)]> m).
Proof using Type.
  intros H Hu k v d. destruct (decide (uid u = k)) as [<- | E].
  - rewrite lookup_insert_eq. intros [= <- <-]. now split.
  - rewrite lookup_insert_ne by exact E. apply H.
Qed.

Lemma positive_insert m k u c : counts_positive m -> 0 <= c -> counts_positive (<[k := (u, c)]> m).
Proof using Type.
  intros H Hc j v d. destruct (decide (k = j)) as [<- | E].
  - rewrite lookup_insert_eq. now intros [= <- <-].
  - rewrite lookup_insert_ne by exact E. apply H.
Qed.

Lemma count_factors_spec s l :
  settled s -> Forall (atom s) l ->
  counted s (count_factors l) /\ counts_positive (count_factors l) /\
  weight (count_factors l) = product (map value l).
Proof using Type.
  intros Hs. unfold count_factors.
  assert (G : forall m, Forall (atom s) l -> counted s m -> counts_positive m ->
    let m' := fold_left (fun counts f => match counts !! uid f with
                                         | Some (u, c) => <[uid f := (u, c + 1)]> counts
                                         | None => <[uid f := (f, 1)]> counts end) l m in
    counted s m' /\ counts_positive m' /\ weight m' = weight m * product (map value l)).
  { induction l as [| f l IH]; intros m Hl Hc Hp; cbv zeta; cbn [fold_left map].
    - split; [exact Hc |]. split; [exact Hp |]. cbn. lia.
    - apply Forall_cons in Hl as [Hf Hl]. destruct (m !! uid f) as [[u c] |] eqn:E.
      + destruct (Hc _ _ _ E) as [Eu Hu]. pose proof (Hp _ _ _ E) as Hc0.
        assert (u = f) as -> by (apply (table_id s); [exact Hs | apply Hu | apply Hf | exact Eu]).
        destruct (IH (<[uid f := (f, c + 1)]> m) Hl) as (H1 & H2 & H3);
          [now apply counted_insert | apply positive_insert; [exact Hp | lia] |].
        split; [exact H1 |]. split; [exact H2 |]. rewrite H3, (weight_step m (uid f) f c E Hc0).
        unfold product. cbn [foldr]. lia.
      + destruct (IH (<[uid f := (f, 1)]> m) Hl) as (H1 & H2 & H3);
          [now apply counted_insert | apply positive_insert; [exact Hp | lia] |].
        split; [exact H1 |]. split; [exact H2 |]. rewrite H3, weight_insert by exact E.
        unfold power, product. cbn [fst snd foldr]. rewrite Z.pow_1_r. lia. }
  intros Hl. destruct (G ∅ Hl) as (H1 & H2 & H3).
  - intros k u c H. now rewrite lookup_empty in H.
  - intros k u c H. now rewrite lookup_empty in H.
  - split; [exact H1 |]. split; [exact H2 |]. rewrite H3, weight_empty. lia.
Qed.

(** Uncounting only lowers the counts. *)
Lemma uncount_lowers l : forall m m' k u c,
  uncount_factors l m = Some m' -> m !! k = Some (u, c) -> exists c', m' !! k = Some (u, c') /\ c' <= c.
Proof using Type.
  induction l as [| f l IH]; intros m m' k u c H E; cbn [uncount_factors] in H.
  - injection H as <-. exists c. split; [exact E | lia].
  - destruct (m !! uid f) as [[v d] |] eqn:F; [| discriminate].
    destruct (decide (uid f = k)) as [<- | N].
    + rewrite F in E. injection E as <- <-.
      destruct (IH _ _ (uid f) v (d - 1) H (lookup_insert_eq _ _ _)) as (c' & H1 & H2). exists c'. split; [exact H1 | lia].
    + eapply IH; [exact H |]. now rewrite lookup_insert_ne.
Qed.

Lemma uncount_factors_spec s l : forall m m',
  settled s -> Forall (atom s) l -> counted s m -> uncount_factors l m = Some m' -> counts_positive m' ->
  counted s m' /\ weight m = product (map value l) * weight m'.
Proof using Type.
  induction l as [| f l IH]; intros m m' Hs Hl Hc H Hp; cbn [uncount_factors map] in *.
  { injection H as <-. split; [exact Hc |]. cbn. lia. }
  apply Forall_cons in Hl as [Hf Hl]. destruct (m !! uid f) as [[u c] |] eqn:E; [| discriminate].
  destruct (Hc _ _ _ E) as [Eu Hu].
  assert (u = f) as -> by (apply (table_id s); [exact Hs | apply Hu | apply Hf | exact Eu]).
  destruct (uncount_lowers l _ m' (uid f) f (c - 1) H (lookup_insert_eq _ _ _)) as (c' & E' & Hc').
  pose proof (Hp _ _ _ E').
  destruct (IH _ m' Hs Hl (counted_insert s m f (c - 1) Hc Hf) H Hp) as [H1 H2]. split; [exact H1 |].
  unfold product in *. cbn [foldr]. rewrite <- Z.mul_assoc, <- H2.
  rewrite <- (weight_step (<[uid f := (f, c - 1)]> m) (uid f) f (c - 1)) by (try apply lookup_insert_eq; lia).
  rewrite insert_insert_eq. replace (c - 1 + 1) with c by lia. now rewrite insert_id.
Qed.

Lemma no_negative m : existsb (fun '(_, c) => c <? 0) (map_values m) = false -> counts_positive m.
Proof using Type.
  intros H k u c E. destruct (Z.ltb_spec c 0) as [L | L]; [| exact L]. exfalso.
  assert (In (u, c) (map_values m)).
  { unfold map_values. apply in_map_iff. exists (k, (u, c)). split; [reflexivity |].
    apply list_elem_of_In, elem_of_map_to_list, E. }
  assert (existsb (fun '(_, c) => c <? 0) (map_values m) = true); [| congruence].
  apply existsb_exists. exists (u, c). split; [assumption |]. now apply Z.ltb_lt.
Qed.

(** The entries of a counter. *)
Lemma map_values_spec s m p :
  counted s m -> counts_positive m -> In p (map_values m) -> atom s (fst p) /\ 0 <= snd p.
Proof using Type.
  intros Hc Hp H. unfold map_values in H. apply in_map_iff in H as ([k q] & E & Hin). cbn in E. subst q.
  apply list_elem_of_In, elem_of_map_to_list in Hin. destruct p as [u c].
  destruct (Hc _ _ _ Hin) as [_ Hu]. split; [exact Hu | eapply Hp; exact Hin].
Qed.

(** ** Building products *)

(** A small literal. *)
Definition number s (z : Z) (u : UOp) : Prop :=
  atom s u /\ val r u z /\ (int_const u = None \/ int_const u = Some z) /\ does_not_wrap u = true.

Lemma number_grows s s' z u : grows s s' -> number s z u -> number s' z u.
Proof using Type. intros G [H1 H2]. split; [eapply atom_grows; eassumption | exact H2]. Qed.

Lemma number_spec s x z :
  expr t s x -> Z.abs z <= dtype_hi t -> yields s (const_like x (ConstValue.Int z)) (fun s' u => number s' z u).
Proof.
  intros Hx Hz. eapply yields_mono.
  { apply (const_like_built t Ht); [exact Hx | apply (fits_i64 t w Hw), (small_fits t w Hw), Hz]. }
  intros s' u _ _ [Hl Hn]. rewrite (wrap_small t w Hw z Hz) in Hl, Hn. unfold constant_node in Hn. rewrite (signed_of_Z t w Hw) in Hn.
  pose proof (literal_val t r s' z u Hl) as Hv. destruct Hl as [(Tu & Wu & Du) _].
  assert (Good : good t s' u).
  { split; [easy |]. destruct u as [i o d]. cbn [uop_dtype uop_op] in *. subst d.
    destruct Hn as [E | (a & b & E)]; cbn in E; subst o; cbn [uniform]; rewrite bool_decide_true by reflexivity; [| reflexivity].
    cbn [to_Z andb]. apply negb_true_iff, bool_decide_eq_false. intros [= ->]. lia. }
  split; [| split; [exact Hv |]].
  - split; [exact Good |]. split; [| eauto]. intros a b E. destruct Hn as [E' | (c & d & E')]; rewrite E' in E; discriminate.
  - destruct u as [i o d]. unfold int_const. cbn [uop_op] in *. destruct Hn as [-> | (a & b & ->)]; auto.
Qed.

Lemma number_ready s z u : number s z u -> ready t s u.
Proof using Type. intros (A & _ & _ & N). split; [apply A | exact N]. Qed.

(** A node that multiplies to [P], in every reading. *)
Definition multiplied s (P : Z) (u : UOp) : Prop := good t s u /\ factors r u P /\ gives r u P.

Lemma multiplied_grows s s' P u : grows s s' -> multiplied s P u -> multiplied s' P u.
Proof using Type. intros G [H1 H2]. split; [eapply good_grows; eassumption | exact H2]. Qed.

Lemma atom_multiplied s u z : atom s u -> val r u z -> multiplied s z u.
Proof using Type.
  intros (Hg & Hn & _) Hz. split; [exact Hg |]. split; [now apply factors_leaf | now apply val_gives].
Qed.

(** Multiplying leaves a node that is not a literal, or the node itself. *)
Definition not_minus_one (u : UOp) : Prop := int_const u <> Some (-1).

Lemma mul_times_spec n f : forall s u P,
  multiplied s P u -> atom s f ->
  yields s (mul_times n u f)
    (on_ok (fun s' v => multiplied s' (P * value f ^ Z.of_nat n) v /\ (not_minus_one u -> not_minus_one v))).
Proof.
  induction n as [| n IH]; intros s u P Hu Hf; cbn [mul_times].
  - apply yields_ret. cbn [on_ok]. now rewrite Z.pow_0_r, Z.mul_1_r.
  - eapply builds_rbind; [apply (try_mul_spec t Ht); [apply Hu | apply Hf] |]. intros s1 v Hs1 G1 Hv.
    apply (multiplied_grows _ _ _ _ G1) in Hu. apply (atom_grows _ _ _ G1) in Hf.
    pose proof (atom_value s1 f Hf) as Vf. destruct Hu as (Gu & Fu & Vu).
    eapply builds_mono; [apply (IH s1 v (P * value f)); [| exact Hf] |].
    + split; [eapply (good_binary t s1 BinaryOp.Mul u f); [reflexivity | exact Hv | exact Gu | apply Hf] |].
      split; [| eapply (gives_binary t Ht r s1 BinaryOp.Mul u f v P (value f));
                [reflexivity | exact Hs1 | exact Hv | apply Gu | apply Hf | exact Vu | now apply val_gives | reflexivity]].
      destruct Hv as [_ Ov]. destruct v as [i o d]. cbn [uop_op] in Ov. subst o.
      apply factors_mul; [exact Fu |]. apply factors_leaf; [apply Hf | exact Vf].
    + intros s2 v' _ _ [H N]. split.
      * replace (P * value f ^ Z.of_nat (Datatypes.S n)) with (P * value f * value f ^ Z.of_nat n); [exact H |].
        rewrite Nat2Z.inj_succ, Z.pow_succ_r by lia. lia.
      * intros _. apply N. unfold not_minus_one, int_const. destruct Hv as [_ ->]. discriminate.
Qed.

Lemma mul_all_spec l : forall s u P,
  multiplied s P u -> (forall p, In p l -> atom s (fst p) /\ 0 <= snd p) ->
  yields s (mul_all u l)
    (on_ok (fun s' v => multiplied s' (P * product (map power l)) v /\ (not_minus_one u -> not_minus_one v))).
Proof.
  induction l as [| [f c] l IH]; intros s u P Hu Hl; cbn [mul_all map].
  - apply yields_ret. cbn. now rewrite Z.mul_1_r.
  - destruct (Hl (f, c) (or_introl eq_refl)) as [Hf Hc]. cbn [fst snd] in Hf, Hc.
    eapply builds_rbind; [apply mul_times_spec; eassumption |]. intros s1 v _ G1 [Hv Nv].
    rewrite Z2Nat.id in Hv by exact Hc.
    eapply builds_mono; [apply (IH s1 v _ Hv) |].
    + intros p Hp. destruct (Hl p (or_intror Hp)). split; [eapply atom_grows; eassumption | assumption].
    + intros s2 v' _ _ [H N]. split; [| auto]. unfold product in *. cbn [foldr]. unfold power at 1. cbn [fst snd].
      now rewrite Z.mul_assoc.
Qed.

(** ** [pop_const] *)

Lemma pop_mul s u F :
  settled s -> good t s u -> factors r u F ->
  exists fac k P, pop_const u BinaryOp.Mul = Some (fac, ConstValue.Int k) /\ good t s fac /\
    factors r fac P /\ F = P * k /\ Z.abs k <= dtype_hi t.
Proof.
  intros Hs Hu HF. pose proof (signed_bounds t w Hw) as B.
  assert (Otherwise : exists fac k P, (let? c := BinaryOp.identity_element BinaryOp.Mul (uop_dtype u) in Some (u, c))
      = Some (fac, ConstValue.Int k) /\ good t s fac /\ factors r fac P /\ F = P * k /\ Z.abs k <= dtype_hi t).
  { exists u, 1, F. split; [| split; [exact Hu | split; [exact HF | lia]]].
    destruct Hu as [(_ & _ & ->) _]. cbn [BinaryOp.identity_element]. now rewrite (not_float_t t Ht). }
  unfold pop_const. pose proof (fun a b => good_children t s u BinaryOp.Mul a b Hs Hu) as Hc.
  destruct u as [i op d]. cbn [uop_op] in *. destruct op; try exact Otherwise.
  destruct (bool_decide (op = BinaryOp.Mul)) eqn:E; [| exact Otherwise].
  apply bool_decide_eq_true in E as ->. destruct (Hc _ _ eq_refl eq_refl) as [Ga Gb].
  destruct (uop_op rhs) eqn:Er; try exact Otherwise.
  destruct (good_literal t w Hw r s rhs value0 Gb Er) as (k & -> & Hk & Vk).
  exists lhs, k. destruct HF as [l H <-]. cbn [flatten] in H. rewrite bool_decide_true in H by reflexivity.
  apply Forall2_app_inv_l in H as (l1 & l2 & H1 & H2 & ->).
  assert (Fk : factors r rhs k) by (apply factors_leaf; [rewrite Er; discriminate | exact Vk]).
  exists (product l1). split; [reflexivity |]. split; [exact Ga |]. split; [now apply (Factors _ _ _ l1) |].
  split; [| exact Hk]. rewrite product_app. f_equal. eapply (factors_inj r rhs); [now apply (Factors _ _ _ l2) | exact Fk].
Qed.

(** ** Exact division *)

Lemma factors_atoms s u P : settled s -> good t s u -> factors r u P -> Forall (atom s) (flatten BinaryOp.Mul u).
Proof using Type.
  intros Hs Hu [l F _]. pose proof (flatten_good t s BinaryOp.Mul u eq_refl Hs Hu) as G.
  pose proof (flatten_leaf BinaryOp.Mul u) as L. induction F as [| x z us l Hx F IH]; [constructor |].
  apply Forall_cons in G as [Gx G]. constructor.
  - split; [exact Gx |]. split; [intros a b; apply L; now left | eauto].
  - apply IH; [exact G |]. intros a b v Hv. apply L. now right.
Qed.

(** [q] times [G] is [U], whenever [q] does not wrap. *)
Definition exact_quotient s (G U : Z) (q : UOp) : Prop := good t s q /\ exists Q, gives r q Q /\ Q * G = U.

Lemma exact_quotient_grows s s' G U q : grows s s' -> exact_quotient s G U q -> exact_quotient s' G U q.
Proof using Type. intros H [H1 H2]. split; [eapply good_grows; eassumption | exact H2]. Qed.

Lemma divide_products_spec s u v U G :
  ready t s u -> val r u U -> good t s v -> factors r v G ->
  yields s (divide_products u v) (on_some (fun s' q => exact_quotient s' G U q)).
Proof.
  intros Hu HU Hv HG Hs.
  destruct (pop_mul s u U Hs (proj1 Hu) (split_mul t r s u U Hs Hu HU)) as (fac & k1 & P1 & E1 & Gf & F1 & EU & B1).
  destruct (pop_mul s v G Hs Hv HG) as (div_fac & k2 & P2 & E2 & Gd & F2 & EG & B2).
  pose proof (factors_atoms s fac P1 Hs Gf F1) as A1. pose proof (factors_atoms s div_fac P2 Hs Gd F2) as A2.
  destruct (count_factors_spec s _ Hs A1) as (C1 & C2 & C3). rewrite (factors_value fac P1 F1) in C3.
  unfold divide_products. rewrite E1, E2. cbn [try_int]. rewrite !split_uop_flatten.
  set (m := count_factors (flatten BinaryOp.Mul fac)) in *.
  destruct (Z.eqb_spec k2 0) as [| K2]; [now apply yields_ret |].
  unfold checked_rem_i64, checked_div_i64. destruct (_ || _); [now apply yields_ret |].
  destruct (Z.rem k1 k2) eqn:R; try (now apply yields_ret).
  destruct (uncount_factors _ m) as [m' |] eqn:Un; [| now apply yields_ret].
  destruct (existsb _ _) eqn:Ex; [now apply yields_ret |]. apply no_negative in Ex.
  destruct (uncount_factors_spec s _ m m' Hs A2 C1 Un Ex) as [C4 C5]. rewrite (factors_value div_fac P2 F2) in C5.
  assert (Q : Z.quot k1 k2 * k2 = k1) by (pose proof (Z.quot_rem' k1 k2); lia).
  revert Hs. eapply yields_bind.
  { apply number_spec; [apply Hu |]. transitivity (Z.abs k1); [| exact B1]. rewrite <- Q at 2. rewrite Z.abs_mul. clear - K2. nia. }
  intros s1 u1 _ G1 (Au1 & Vu1 & Iu1). eapply yields_bind; [apply hash_order_spec |]. intros s2 l _ G2 Hl.
  cbn beta in Hl. apply finds_ok. eapply builds_mono.
  { apply (mul_all_spec l s2 u1 (Z.quot k1 k2)).
    - eapply multiplied_grows; [exact G2 |]. now apply atom_multiplied.
    - intros p Hp. apply (Permutation_in p (Permutation_sym Hl)) in Hp.
      destruct (map_values_spec s m' p C4 Ex Hp) as [Hp1 Hp2]. split; [| exact Hp2].
      eapply atom_grows; [exact G2 |]. eapply atom_grows; eassumption. }
  intros s3 q _ _ [(Gq & _ & Vq) _]. split; [exact Gq |]. eexists. split; [exact Vq |].
  rewrite <- (product_perm (map power (map_values m'))) by now apply Permutation_map.
  change (product (map power (map_values m'))) with (weight m').
  rewrite EU, EG, <- C3, C5. transitivity ((Z.quot k1 k2 * k2) * (P2 * weight m')); [ring | rewrite Q; ring].
Qed.

Lemma divide_exact_spec u : forall s v U G,
  ready t s u -> val r u U -> good t s v -> factors r v G -> not_minus_one v ->
  yields s (divide_exact u v) (on_some (fun s' q => exact_quotient s' G U q)).
Proof.
  induction u as [u IH] using UOp_children_ind. intros s v U G Hu HU Hv HG Hn Hs.
  rewrite List.Forall_forall in IH.
  pose proof (fun op a b => ready_children t s u op a b Hs Hu) as Hc.
  pose proof (fun op a b => ready_binary t r s u op a b U Hs Hu) as Hb.
  pose proof (divide_products_spec s u v U G Hu HU Hv HG) as Prod.
  assert (Fu : factors r u U) by (eapply split_mul; eassumption).
  assert (Same : ptr_eq u v = true -> G = U).
  { intros E%Z.eqb_eq. assert (u = v) as -> by (apply (table_id s); [exact Hs | apply Hu | apply Hv | exact E]).
    exact (factors_inj r v G U HG Fu). }
  revert Hs. change (yields s (divide_exact u v) (on_some (fun s' q => exact_quotient s' G U q))).
  destruct u as [i op d]. unfold children in IH. cbn [uop_op divide_exact] in *.
  destruct (ptr_eq _ v) eqn:Ep.
  { rewrite (Same eq_refl). eapply yields_bind; [apply (number_spec s _ 1); [apply Hu |] |].
    { pose proof (signed_bounds t w Hw). lia. }
    intros s1 q _ G1 (Aq & Vq & _). apply yields_ret. split; [apply Aq |]. exists 1. split; [now apply val_gives | lia]. }
  destruct (int_const v) as [k |] eqn:Ek.
  { destruct (int_const_literal t w Hw r s v k Hv Ek) as [_ Vk].
    assert (G = k) as ->.
    { eapply (factors_inj r v); [exact HG |]. apply factors_leaf; [| exact Vk]. unfold int_const in Ek.
      destruct (uop_op v); try discriminate. }
    eapply finds_mono; [apply (divides_spec t w Hw r _ s k U Hu HU) |]. intros s1 q _ _ (Gq & _ & Q & VQ & _ & E).
    split; [exact Gq |]. exists Q. split; [now apply val_gives |]. apply E. intros ->. now apply Hn. }
  destruct op; try (now apply yields_ret). destruct op; try (now apply yields_ret); [| exact Prod].
  destruct (Hc _ _ _ eq_refl eq_refl) as [Ra Rb]. destruct (Hb _ _ _ eq_refl eq_refl HU) as (x & y & Hx & Hy & [= <-]).
  eapply finds_obind; [apply IH; eauto; cbn; auto |]. intros s1 d0 _ G1 Q0.
  eapply finds_obind; [apply IH; eauto using ready_grows, good_grows; cbn; auto |]. intros s2 d1 _ G2 Q1.
  apply (exact_quotient_grows _ _ _ _ _ G2) in Q0. destruct Q0 as (Gd0 & D0 & V0 & E0), Q1 as (Gd1 & D1 & V1 & E1).
  apply finds_ok. eapply builds_mono; [apply (try_add_spec t Ht); [apply Gd0 | apply Gd1] |].
  intros s3 q Hs3 G3 Hq. apply (good_grows t _ _ _ G3) in Gd0, Gd1.
  split; [now apply (good_binary t s3 BinaryOp.Add d0 d1) |]. exists (D0 + D1). split; [| lia].
  eapply (gives_binary t Ht r s3 BinaryOp.Add d0 d1); eauto; apply Gd0 || apply Gd1.
Qed.

(** ** The symbolic greatest common divisor *)

Definition decomposed s (d : UOp * Z) : Prop :=
  Z.abs (snd d) <= dtype_hi t /\ Forall (atom s) (flatten BinaryOp.Mul (fst d)).

Lemma decomposed_grows s s' d : grows s s' -> decomposed s d -> decomposed s' d.
Proof using Type. intros G [H1 H2]. split; [exact H1 |]. eapply Forall_impl; [exact H2 |]. intros u. now apply atom_grows. Qed.

Lemma decompose_spec s u U :
  ready t s u -> val r u U -> yields s (decompose u) (fun s' d => decomposed s' d).
Proof.
  intros Hu HU Hs. pose proof (const_factor_bound t w Hw r s u Hs (proj1 Hu)) as B.
  pose proof (flatten_atoms s u U Hs (proj1 Hu) HU) as A. revert Hs. unfold decompose.
  destruct (_ || _); [now apply yields_ret |].
  eapply yields_bind; [apply (divides_spec t w Hw r u s _ U Hu HU) |]. intros s1 [q |] Hs1 G1 Hq; cbn [on_some] in Hq.
  - apply yields_ret. split; [exact B |]. destruct Hq as (Gq & _ & Q & VQ & _). eapply flatten_atoms; eassumption.
  - eapply yields_bind; [apply (number_spec s1 u 1); [eapply expr_grows; [exact G1 | apply Hu] |] |].
    { pose proof (signed_bounds t w Hw). lia. }
    intros s2 q Hs2 _ (Aq & Vq & _). apply yields_ret. split; [exact B |]. eapply flatten_atoms; [exact Hs2 | apply Aq | exact Vq].
Qed.

Lemma retain_common_spec s a b :
  counted s a -> counts_positive a -> counts_positive b ->
  counted s (retain_common a b) /\ counts_positive (retain_common a b).
Proof using Type.
  intros Ha Pa Pb. assert (H : forall k u c, retain_common a b !! k = Some (u, c) ->
    exists c1 v c2, a !! k = Some (u, c1) /\ b !! k = Some (v, c2) /\ c = Z.min c1 c2).
  { intros k u c. unfold retain_common. rewrite map_lookup_imap. destruct (a !! k) as [[u1 c1] |]; [| discriminate].
    cbn. destruct (b !! k) as [[v c2] |]; [| discriminate]. intros [= <- <-]. eauto 10. }
  split; intros k u c (c1 & v & c2 & E1 & E2 & ->)%H.
  - exact (Ha _ _ _ E1).
  - pose proof (Pa _ _ _ E1). pose proof (Pb _ _ _ E2). lia.
Qed.

Lemma fold_gcd_bound l : forall n, 0 <= n <= dtype_hi t -> Forall (fun z => 0 <= z <= dtype_hi t) l ->
  0 <= fold_left gcd l n <= dtype_hi t.
Proof using Hw.
  induction l as [| z l IH]; intros n Hn Hl; cbn [fold_left]; [exact Hn |].
  apply Forall_cons in Hl as [Hz Hl]. apply IH; [| exact Hl].
  destruct (gcd_bound t w Hw n z) as [_ H]; lia.
Qed.

Lemma symbolic_gcd_spec s us :
  Forall (fun u => ready t s u /\ exists U, val r u U) us ->
  yields s (symbolic_gcd us) (fun s' g => not_minus_one g /\ exists G, multiplied s' G g).
Proof.
  intros H. unfold symbolic_gcd. destruct us as [| first us]; [apply yields_panic |].
  pose proof (signed_bounds t w Hw) as B.
  assert (He : expr t s first) by (apply Forall_cons in H as [[[[H _] _] _] _]; exact H).
  eapply yields_bind; [apply (yields_collect decompose (fun s' (_ : UOp) d => decomposed s' d)) |].
  - intros s1 s2 _ d G Hd. eapply decomposed_grows; eassumption.
  - intros s1 u _ G1 Hin. rewrite List.Forall_forall in H. destruct (H u Hin) as [Hu [U HU]].
    apply (decompose_spec s1 u U); [eapply ready_grows; eassumption | exact HU].
  - intros s1 decomp Hs1 G1 Hd.
    assert (D : Forall (decomposed s1) decomp).
    { clear - Hd. induction Hd as [| a b l l' Hb _ IH]; constructor; assumption. }
    cbv zeta.
    set (counters := map (fun '(term, _) => count_factors (split_uop term BinaryOp.Mul)) decomp).
    set (common := match counters with c :: cs => fold_left retain_common cs c | [] => ∅ end).
    assert (C : counted s1 common /\ counts_positive common).
    { assert (X : Forall (fun m => counted s1 m /\ counts_positive m) counters).
      { unfold counters. apply Forall_map. eapply Forall_impl; [exact D |]. intros [term f] [_ A]. cbn [fst] in A.
        rewrite split_uop_flatten. destruct (count_factors_spec s1 _ Hs1 A) as (H1 & H2 & _). now split. }
      unfold common. destruct counters as [| c cs].
      { split; intros k u n E; now rewrite lookup_empty in E. }
      apply Forall_cons in X as [[X1 X2] X]. clear - X1 X2 X Sh It Hw. revert c X1 X2.
      induction cs as [| c' cs IH]; intros c X1 X2; cbn [fold_left]; [now split |].
      apply Forall_cons in X as [[_ Y2] X]. destruct (retain_common_spec s1 c c' X1 X2 Y2). now apply IH. }
    set (numerics := map (fun '(_, f) => from_option id 1 (checked_abs_i64 f)) decomp).
    set (numeric := match numerics with n :: ns => fold_left gcd ns n | [] => 1 end).
    assert (N : 0 <= numeric <= dtype_hi t).
    { assert (X : Forall (fun z => 0 <= z <= dtype_hi t) numerics).
      { unfold numerics. apply Forall_map. eapply Forall_impl; [exact D |]. intros [term f] [A _]. cbn [snd] in A.
        unfold checked_abs_i64, i64_min. destruct (Z.eqb_spec f (- 2 ^ 63)); cbn [from_option id]; lia. }
      unfold numeric. destruct numerics as [| n ns]; [lia |]. apply Forall_cons in X as [X1 X2]. now apply fold_gcd_bound. }
    eapply yields_bind; [apply (number_spec s1 first numeric); [eapply expr_grows; eassumption | lia] |].
    intros s2 u _ G2 (Au & Vu & Iu). eapply yields_bind; [apply hash_order_spec |]. intros s3 l _ G3 Hl. cbn beta in Hl.
    apply yields_expect. destruct C as [C1 C2]. eapply builds_mono.
    { apply (mul_all_spec _ s3 u numeric).
      - eapply multiplied_grows; [exact G3 |]. now apply atom_multiplied.
      - intros p [Hp _]%filter_In. apply (Permutation_in p (Permutation_sym Hl)) in Hp.
        destruct (map_values_spec s1 common p C1 C2 Hp) as [Hp1 Hp2]. split; [| exact Hp2].
        eapply atom_grows; [exact G3 |]. eapply atom_grows; eassumption. }
    intros s4 g _ _ [Hg Ng]. split; [| eauto]. apply Ng. unfold not_minus_one. destruct Iu as [[-> | ->] _]; [discriminate |].
    intros [= E]. lia.
Qed.
End Factors.
