(* ===== verification/DivModSpec.v ===== *)
(** * The division rules keep the value

    Every candidate built by [fold_divmod_general] denotes the quotient or
    remainder it replaces, provided the no-wrap proof accepts it: one lemma per
    rule, composed in the order of the code.  Sums of scaled terms are read in
    two ways — exactly, where nothing wraps, and modulo the width, always — by
    one set of lemmas over a [reading]. *)

From stdpp Require Import gmap.
From S2P Require Import Prelude F64 DType Cast ConstVal Ops IntView Eval EvalSpec Payload UOp Semantics Traverse.
From S2P Require Import RangeEval RangeSound Properties HashCons Builder Shape Constructors ConstructorSpec Exact.
From S2P Require Import Helpers DivMod HelperSpec FactorSpec.
#[local] Set Default Proof Using "All".

Section Rules.
Context {M : LibM} {S : Type} `{I : !Interner S} `{Sh : !Shapes S} `{It : !Iteration S}.
Context (t : ScalarDType) (w : Z) (Hw : int_format t = Some (true, w)) (r : env).
Implicit Types s : S.
#[local] Abbreviation Ht := (signed_format t w Hw).

(** [u] is [z] if the no-wrap proof accepts it. *)
Definition answers s (z : Z) (u : UOp) : Prop := expr t s u /\ gives r u z.

(** [u] is [z] modulo the width. *)
Definition modular s (z : Z) (u : UOp) : Prop := expr t s u /\ val r u (wrap_to t z).

Lemma answers_grows s s' z u : grows s s' -> answers s z u -> answers s' z u.
Proof using Type. intros G [H1 H2]. split; [eapply expr_grows; eassumption | exact H2]. Qed.

Lemma modular_grows s s' z u : grows s s' -> modular s z u -> modular s' z u.
Proof using Type. intros G [H1 H2]. split; [eapply expr_grows; eassumption | exact H2]. Qed.

Lemma val_answers s u z : expr t s u -> val r u z -> answers s z u.
Proof using Type. intros H1 H2. split; [exact H1 | now apply val_gives]. Qed.

Lemma val_modular s u z : expr t s u -> val r u z -> modular s z u.
Proof using Type Hw.
  intros H1 H2. split; [exact H1 |]. rewrite (fits_wrap t Ht z); [exact H2 |]. eapply val_fits; eassumption.
Qed.

(** ** Readings *)
Record reading (R : S -> Z -> UOp -> Prop) (in_range : Z -> Prop) : Prop := {
  r_grows s s' z u : grows s s' -> R s z u -> R s' z u;
  r_expr s z u : R s z u -> expr t s u;
  r_literal s z u : in_range z -> literal t s (wrap_to t z) u -> R s z u;
  r_binary s op a b u x y z : op = BinaryOp.Add \/ op = BinaryOp.Mul -> settled s -> is_binary t s op a b u ->
    R s x a -> R s y b -> arith op x y = Some z -> R s z u
}.

Lemma answers_reading : reading answers (fits t).
Proof.
  split.
  - apply answers_grows.
  - intros s z u H. apply H.
  - intros s z u Hz Hu. rewrite (fits_wrap t Ht z Hz) in Hu. apply val_answers; apply Hu.
  - intros s op a b u x y z Ho Hs Hb [Ea Ga] [Eb Gb] E. split; [apply Hb |].
    eapply (gives_binary t Ht r s op a b); eauto. now destruct Ho as [-> | ->].
Qed.

Lemma modular_reading : reading modular (fun _ => True).
Proof.
  split.
  - apply modular_grows.
  - intros s z u H. apply H.
  - intros s z u _ Hu. split; apply Hu.
  - intros s op a b u x y z Ho Hs Hb [Ea Va] [Eb Vb] E. split; [apply Hb |].
    assert (Ha : is_arith op = true) by now destruct Ho as [-> | ->].
    destruct Ho as [-> | ->]; injection E as <-.
    + unfold val. rewrite (val_binary t Ht r s BinaryOp.Add a b u _ _ _ Ha Hb Va Vb eq_refl). f_equal.
      apply (same_add t Ht); apply (same_wrap t Ht).
    + unfold val. rewrite (val_binary t Ht r s BinaryOp.Mul a b u _ _ _ Ha Hb Va Vb eq_refl). f_equal.
      apply (same_mul t Ht); apply (same_wrap t Ht).
Qed.

Section Reading.
Context (R : S -> Z -> UOp -> Prop) (in_range : Z -> Prop) (HR : reading R in_range).
Context (Hzero : in_range 0).

Lemma like_reads s x z : expr t s x -> in_s 64 z -> in_range z -> yields s (like x z) (fun s' u => R s' z u).
Proof.
  intros Hx Hz Hr. eapply yields_mono; [apply (const_like_spec t Ht); assumption |].
  intros s' u _ _ H. now apply (r_literal _ _ HR).
Qed.

Lemma zero_i64 : in_s 64 0.
Proof. unfold in_s. lia. Qed.

Lemma add_reads s a b x y :
  R s x a -> R s y b -> yields s (ok (try_add a b)) (on_some (fun s' u => R s' (x + y) u)).
Proof.
  intros Ha Hb. apply finds_ok. eapply builds_mono.
  { apply (try_add_spec t Ht); eapply (r_expr _ _ HR); eassumption. }
  intros s1 u Hs G Hu. apply (r_grows _ _ HR _ _ _ _ G) in Ha, Hb.
  exact (r_binary _ _ HR s1 BinaryOp.Add a b u x y (x + y) (or_introl eq_refl) Hs Hu Ha Hb eq_refl).
Qed.

Lemma mul_reads s a b x y :
  R s x a -> R s y b -> yields s (ok (try_mul a b)) (on_some (fun s' u => R s' (x * y) u)).
Proof.
  intros Ha Hb. apply finds_ok. eapply builds_mono.
  { apply (try_mul_spec t Ht); eapply (r_expr _ _ HR); eassumption. }
  intros s1 u Hs G Hu. apply (r_grows _ _ HR _ _ _ _ G) in Ha, Hb.
  exact (r_binary _ _ HR s1 BinaryOp.Mul a b u x y (x * y) (or_intror eq_refl) Hs Hu Ha Hb eq_refl).
Qed.

Lemma scaled_reads s u k x :
  R s x u -> in_s 64 k -> in_range k -> yields s (scaled u k) (on_some (fun s' v => R s' (k * x) v)).
Proof.
  intros Hu Hk Hr. unfold scaled, some. pose proof (r_expr _ _ HR _ _ _ Hu) as He.
  destruct (Z.eqb_spec k 0) as [-> | _].
  { eapply yields_bind; [apply like_reads; [exact He | exact Hk | exact Hr] |]. intros s1 v _ _ Hv. now apply yields_ret. }
  destruct (Z.eqb_spec k 1) as [-> | _]; [apply yields_ret; cbn [on_some]; now rewrite Z.mul_1_l |].
  eapply yields_bind; [now apply like_reads |]. intros s1 c _ G Hc.
  rewrite Z.mul_comm. apply mul_reads; [eapply (r_grows _ _ HR); eassumption | exact Hc].
Qed.

(** The value of a list of scaled terms. *)
Definition dot (ks xs : list Z) : Z := sum (zip_with Z.mul ks xs).

Lemma scaled_terms_reads ks : forall s us xs,
  Forall2 (R s) xs us -> Forall in_range ks -> List.length ks = List.length us ->
  yields s (scaled_terms (zip us ks))
    (on_some (fun s' vs => exists zs, Forall2 (R s') zs vs /\ sum zs = dot ks xs)).
Proof.
  unfold dot. induction ks as [| k ks IH]; intros s us xs F Hk L; destruct F as [| x u xs us Hu F]; try discriminate L;
    cbn [zip zip_with scaled_terms].
  - apply yields_ret. exists []. now split.
  - apply Forall_cons in Hk as [K1 K2]. cbn [List.length] in L.
    destruct (Z.eqb_spec k 0) as [-> | _].
    { eapply finds_mono; [apply (IH s us xs F K2); lia |]. intros s1 vs _ _ (zs & Z1 & Z2). exists zs. split; [exact Z1 |].
      unfold sum in *. cbn [foldr]. lia. }
    destruct (try_i64 k) as [k' |] eqn:E; [| now apply yields_ret]. apply try_i64_Some in E as [-> E].
    eapply finds_obind; [apply scaled_reads; eassumption |]. intros s1 v _ G1 Hv.
    eapply finds_obind; [apply (IH s1 us xs); [| exact K2 | lia] |].
    { eapply Forall2_impl; [exact F |]. intros a b Hab. eapply (r_grows _ _ HR); eassumption. }
    intros s2 vs _ G2 (zs & Z1 & Z2). apply yields_ret. exists (k * x :: zs).
    split; [constructor; [eapply (r_grows _ _ HR); eassumption | exact Z1] |]. unfold sum in *. cbn [foldr]. lia.
Qed.

Lemma with_constant_reads s x us xs k :
  expr t s x -> Forall2 (R s) xs us -> in_range k ->
  yields s (with_constant x us k)
    (on_some (fun s' vs => exists zs, Forall2 (R s') zs vs /\ sum zs = sum xs + k)).
Proof.
  intros Hx F Hk. unfold with_constant. destruct (Z.eqb_spec k 0) as [-> | _].
  { apply yields_ret. exists xs. split; [exact F | lia]. }
  destruct (try_i64 k) as [k' |] eqn:E; [| now apply yields_ret]. apply try_i64_Some in E as [-> E].
  eapply yields_bind; [now apply like_reads |]. intros s1 c _ G Hc. apply yields_ret.
  exists (xs ++ [k]). split; [| rewrite sum_app; cbn; lia].
  apply Forall2_app; [| now repeat constructor]. eapply Forall2_impl; [exact F |].
  intros a b Hab. eapply (r_grows _ _ HR); eassumption.
Qed.

Lemma sum_from_reads us : forall s u x xs,
  R s x u -> Forall2 (R s) xs us -> yields s (sum_from u us) (on_some (fun s' v => R s' (x + sum xs) v)).
Proof.
  induction us as [| v us IH]; intros s u x xs Hu F; inversion F as [| y ? ys ? Hv F']; subst; cbn [sum_from].
  - apply yields_ret. cbn. now rewrite Z.add_0_r.
  - eapply finds_obind; [now apply (add_reads s u v x y) |]. intros s1 q _ G Hq.
    eapply finds_mono; [apply (IH s1 q (x + y) ys Hq) |].
    + eapply Forall2_impl; [exact F' |]. intros a b Hab. eapply (r_grows _ _ HR); eassumption.
    + intros s2 q' _ _ H. unfold sum in *. cbn [foldr]. now rewrite Z.add_assoc.
Qed.

Lemma try_uop_sum_reads s us x xs :
  expr t s x -> Forall2 (R s) xs us -> yields s (try_uop_sum us x) (on_some (fun s' v => R s' (sum xs) v)).
Proof.
  intros Hx F. destruct F as [| z u zs us Hu F]; cbn [try_uop_sum].
  - unfold some. eapply yields_bind; [apply like_reads; [exact Hx | exact zero_i64 | exact Hzero] |].
    intros s1 v _ _ Hv. now apply yields_ret.
  - now apply sum_from_reads.
Qed.
End Reading.

(** ** Ranges and differences *)

Lemma int_range_sound s u lo hi v :
  settled s -> expr t s u -> int_range u = Some (lo, hi) -> val r u v -> lo <= v <= hi.
Proof using Hw.
  intros Hs (Tu & Wu & Du) H Hv. unfold int_range in H. destruct (sound_vmin_vmax u) as [[a b] |] eqn:E; [| discriminate].
  destruct (sound_encloses r u (table_interned s u Hs Tu) _ Wu E) as (l & h & Er & _ & _ & Hlh).
  assert (B : base_of u = t) by (unfold base_of; now rewrite Du). rewrite B in Er.
  injection Er as -> ->. rewrite !(signed_of_Z t w Hw) in H. injection H as <- <-. now apply Hlh.
Qed.

(** Subtraction is an addition of a product by -1; its first operand is a source. *)
Lemma sub_answers s a b x y :
  answers s x a -> answers s y b ->
  yields s (ok (try_sub a b)) (on_some (fun s' u => answers s' (x - y) u /\
    (does_not_wrap u = true -> does_not_wrap a = true))).
Proof.
  intros Ha Hb. apply finds_ok. eapply builds_mono; [apply (try_sub_spec t Ht); [apply Ha | apply Hb] |].
  intros s1 u Hs G (m & n & Hm & Hn & Hu). apply (answers_grows _ _ _ _ G) in Ha, Hb.
  rewrite (wrap_small t w Hw (-1)) in Hm by (pose proof (signed_bounds t w Hw); lia).
  assert (Am : answers s1 (-1) m) by (apply val_answers; apply Hm).
  assert (An : answers s1 (y * -1) n).
  { exact (r_binary _ _ answers_reading s1 BinaryOp.Mul b m n y (-1) _ (or_intror eq_refl) Hs Hn Hb Am eq_refl). }
  split.
  - replace (x - y) with (x + y * -1) by lia.
    exact (r_binary _ _ answers_reading s1 BinaryOp.Add a n u x _ _ (or_introl eq_refl) Hs Hu Ha An eq_refl).
  - intros Hn'. apply (no_wrap_children u BinaryOp.Add a n (proj2 Hu) eq_refl Hn').
Qed.

Lemma binary_answers s op a b x y z :
  op = BinaryOp.FloorDiv \/ op = BinaryOp.FloorMod -> answers s x a -> answers s y b -> arith op x y = Some z ->
  yields s (binary op a b) (on_some (fun s' u => answers s' z u /\
    (does_not_wrap u = true -> does_not_wrap a = true /\ does_not_wrap b = true))).
Proof.
  intros Ho Ha Hb E.
  assert (Y : yields s (binary op a b) (on_some (fun s' u => is_binary t s' op a b u))).
  { destruct Ho as [-> | ->]; cbn [binary]; apply finds_ok; [apply (try_div_spec t Ht) | apply (try_mod_spec t Ht)];
      apply Ha || apply Hb. }
  assert (A : is_arith op = true) by now destruct Ho as [-> | ->].
  eapply finds_mono; [exact Y |]. intros s1 u Hs G Hu. apply (answers_grows _ _ _ _ G) in Ha, Hb.
  destruct Ha as [Ea Ga], Hb as [Eb Gb]. split.
  - split; [apply Hu |]. eapply (gives_binary t Ht r s1 op a b); eauto.
  - intros Hn. destruct (no_wrap_children u op a b (proj2 Hu) A Hn) as (H1 & H2 & _). now split.
Qed.

(** ** The congruence fold *)

(** [rem] is a remainder of [f]: one of the two around zero. *)
Definition congruent (c f rem : Z) : Prop := Z.quot (f - rem) c * c = f - rem /\ - c <= rem < c.

(** A base with its value. *)
Definition based s (d : UOp * Z) (B : Z) : Prop :=
  good t s (fst d) /\ val r (fst d) B /\ snd d <> 0 /\ Z.abs (snd d) <= dtype_hi t.

Lemma based_grows s s' d B : grows s s' -> based s d B -> based s' d B.
Proof using Type. intros G [H1 H2]. split; [eapply good_grows; eassumption | exact H2]. Qed.

Definition total (l : list Z) : Z := sum (map Z.abs l).

Lemma dot_cons k ks x xs : dot (k :: ks) (x :: xs) = k * x + dot ks xs.
Proof using Type. reflexivity. Qed.

Lemma dot_congruent c fs : forall rems xs,
  Forall2 (congruent c) fs rems ->
  dot fs xs = dot rems xs + c * dot (zip_with (fun f rem => Z.quot (f - rem) c) fs rems) xs.
Proof using Type.
  induction fs as [| f fs IH]; intros rems xs F; inversion F as [| ? rem ? rems' [Hq _] F']; subst; [unfold dot; cbn; lia |].
  destruct xs as [| x xs]; [unfold dot; cbn; lia |]. cbn [zip_with]. rewrite !dot_cons, (IH rems' xs F').
  rewrite Z.mul_add_distr_l. nia.
Qed.

Lemma total_abs_nonneg xs : 0 <= total xs.
Proof using Type. unfold total, sum. induction xs; cbn [map foldr]; lia. Qed.

Lemma dot_bound c rems : forall xs,
  0 <= c -> Forall (fun rem => - c <= rem < c) rems -> Z.abs (dot rems xs) <= c * total xs.
Proof using Type.
  induction rems as [| rem rems IH]; intros xs Hc F; pose proof (total_abs_nonneg xs).
  { unfold dot, sum. cbn [zip_with foldr]. nia. }
  destruct xs as [| x xs]; [unfold dot, total; cbn; lia |]. apply Forall_cons in F as [F1 F2].
  rewrite dot_cons. specialize (IH xs Hc F2). unfold total, sum in *. cbn [map foldr].
  assert (Z.abs (rem * x) <= c * Z.abs x) by (rewrite Z.abs_mul; nia). lia.
Qed.

Lemma zip_bases {A} (f : UOp * Z -> Z -> A) (dec : list (UOp * Z)) rems :
  zip_with (fun d rem => (fst d, f d rem)) dec rems = zip (map fst dec) (zip_with f dec rems).
Proof using Type.
  revert rems. induction dec as [| d dec IH]; intros [| rem rems]; try reflexivity. cbn [zip_with map zip]. now rewrite IH.
Qed.

Lemma zip_bases_id (dec : list (UOp * Z)) (rems : list Z) :
  zip_with (fun d rem => (fst d, rem)) dec rems = zip (map fst dec) rems.
Proof using Type.
  revert rems. induction dec as [| d dec IH]; intros [| rem rems]; try reflexivity. cbn [zip_with map zip]. now rewrite IH.
Qed.

Lemma based_reads R in_range s dec Bs :
  reading R in_range -> (forall s u z, expr t s u -> val r u z -> R s z u) ->
  Forall2 (based s) dec Bs -> Forall2 (R s) Bs (map fst dec).
Proof using Type.
  intros _ HR F. induction F as [| d B dec Bs (Gd & Vd & _) _ IH]; [constructor |].
  cbn [map]. constructor; [apply HR; [apply Gd | exact Vd] | exact IH].
Qed.

Lemma congruent_parts c (dec : list (UOp * Z)) (rems : list Z) :
  Forall2 (fun d rem => congruent c (snd d) rem) dec rems ->
  Forall2 (congruent c) (map snd dec) rems /\ Forall (fun rem => - c <= rem < c) rems.
Proof using Type.
  induction 1 as [| d rem dec rems Hd _ [IH1 IH2]]; cbn [map]; [split; constructor |].
  split; constructor; try assumption. apply Hd.
Qed.

Section Candidate.
Context (x : UOp) (c : Z) (dec : list (UOp * Z)) (Bs : list Z) (rems : list Z) (k : Z).
Context (Hc : 0 < c <= dtype_hi t) (Hk : Z.abs k <= dtype_hi t).
Context (Hrems : Forall2 (fun d rem => congruent c (snd d) rem) dec rems).

Definition numerator : Z := dot (map snd dec) Bs + k.
Definition remainder_value : Z := dot rems Bs + k mod c.

Lemma congruent_factors : Forall2 (congruent c) (map snd dec) rems.
Proof using Hrems. apply congruent_parts, Hrems. Qed.

Lemma remainders_small : Forall (fun rem => - c <= rem < c) rems.
Proof using Hrems. apply (congruent_parts c dec rems Hrems). Qed.

Lemma numerator_split : exists Q, numerator = remainder_value + c * Q /\
  Q = dot (zip_with (fun f rem => Z.quot (f - rem) c) (map snd dec) rems) Bs + k / c.
Proof.
  eexists. split; [| reflexivity]. unfold numerator, remainder_value.
  rewrite (dot_congruent c (map snd dec) rems Bs congruent_factors). pose proof (Z.div_mod k c ltac:(lia)). lia.
Qed.

Lemma small_remainders : Forall (fits t) rems.
Proof.
  eapply Forall_impl; [apply remainders_small |]. intros z Hz. cbn beta in Hz. apply (small_fits t w Hw). lia.
Qed.

Lemma residue_fits : fits t (k mod c).
Proof. apply (small_fits t w Hw). pose proof (Z.mod_pos_bound k c ltac:(lia)). lia. Qed.

(** The remainder sum in either reading. *)
Lemma remainder_reads R in_range s :
  reading R in_range -> (forall s u z, expr t s u -> val r u z -> R s z u) ->
  in_range 0 -> Forall in_range rems -> in_range (k mod c) -> expr t s x -> Forall2 (based s) dec Bs ->
  forall {B} (K : UOp -> Build S (option B)) Q,
  (forall s1 u, settled s1 -> grows s s1 -> R s1 remainder_value u -> yields s1 (K u) (on_some Q)) ->
  yields s
    (let*? terms := scaled_terms (zip_with (fun d rem => (fst d, rem)) dec rems) in
     let*? remainder_terms := with_constant x terms (k mod c) in
     let*? remainder := try_uop_sum remainder_terms x in K remainder) (on_some Q).
Proof.
  intros HR HV H0 Hr Hm Hx Hb B K Q HK. rewrite zip_bases_id.
  eapply finds_obind.
  { eapply (scaled_terms_reads R in_range HR H0 rems s (map fst dec) Bs); [eapply based_reads; eassumption | exact Hr |].
    rewrite length_map. symmetry. eapply Forall2_length, Hrems. }
  intros s1 us _ G1 (zs & F1 & E1). eapply finds_obind.
  { eapply (with_constant_reads R in_range HR H0 s1 x us zs); [eapply expr_grows; eassumption | exact F1 | exact Hm]. }
  intros s2 vs _ G2 (ys & F2 & E2). eapply finds_obind.
  { eapply (try_uop_sum_reads R in_range HR H0 s2 vs x ys); [| exact F2].
    eapply expr_grows; [exact G2 | eapply expr_grows; eassumption]. }
  intros s3 u Hs3 G3 Hu. apply HK; [exact Hs3 | | rewrite E2, E1 in Hu; exact Hu].
  intros v Hv. now apply G3, G2, G1.
Qed.

Lemma congruence_mod s :
  expr t s x -> Forall2 (based s) dec Bs ->
  yields s (congruence_candidate x c dec rems k true) (on_some (fun s' u => answers s' (numerator mod c) u)).
Proof.
  intros Hx Hb. unfold congruence_candidate. cbv zeta.
  destruct numerator_split as (Q & EQ & _).
  eapply (remainder_reads answers (fits t)); [apply answers_reading | intros; now apply val_answers
    | apply (small_fits t w Hw); lia | apply small_remainders | apply residue_fits | exact Hx | exact Hb |].
  intros s1 u Hs1 G1 Hu. destruct (int_range u) as [[lo hi] |] eqn:Er; [| now apply yields_ret].
  destruct (Z.eqb_spec (lo / c) (hi / c)) as [Eb | _]; cbn [negb]; [| now apply yields_ret].
  assert (X : does_not_wrap u = true -> numerator mod c = remainder_value - lo / c * c).
  { intros Hn. destruct Hu as [Eu Gu]. pose proof (int_range_sound s1 u lo hi _ Hs1 Eu Er (Gu Hn)) as B.
    assert (lo / c <= remainder_value / c <= hi / c) by (split; apply Z.div_le_mono; lia).
    rewrite EQ, Z.mul_comm, Z_mod_plus_full, Z.mod_eq by lia. replace (remainder_value / c) with (lo / c) by lia. lia. }
  destruct (Z.eqb_spec (lo / c * c) 0) as [E0 | _].
  { apply yields_ret. split; [apply Hu |]. intros Hn. rewrite (X Hn), E0, Z.sub_0_r. now apply Hu. }
  destruct (try_i64 _) as [off |] eqn:E; [| now apply yields_ret]. apply try_i64_Some in E as [-> E].
  eapply yields_bind.
  { eapply (const_like_spec t Ht s1 x); [eapply expr_grows; eassumption | exact E]. }
  intros s2 o Hs2 G2 Ho. apply (answers_grows _ _ _ _ G2) in Hu. eapply finds_mono.
  { apply (sub_answers s2 u o remainder_value (wrap_to t (lo / c * c)) Hu). apply val_answers; apply Ho. }
  intros s3 v _ _ [[Ev Gv] Hsub]. split; [exact Ev |]. intros Hn. specialize (X (Hsub Hn)). specialize (Gv Hn).
  assert (F : fits t (numerator mod c)).
  { apply (small_fits t w Hw). pose proof (Z.mod_pos_bound numerator c ltac:(lia)). lia. }
  enough (remainder_value - wrap_to t (lo / c * c) = numerator mod c) as <- by exact Gv.
  apply (same_fits t Ht); [eapply val_fits; eassumption | exact F |]. rewrite X.
  apply (same_add t Ht); [reflexivity |].
  replace (- wrap_to t (lo / c * c)) with (-1 * wrap_to t (lo / c * c)) by lia.
  replace (- (lo / c * c)) with (-1 * (lo / c * c)) by lia.
  apply (same_mul t Ht); [reflexivity | apply (same_wrap t Ht)].
Qed.

(** A quotient is exact modulo the width; the remainder sum must fit. *)
Lemma congruence_div s :
  expr t s x -> Forall2 (based s) dec Bs -> c * (1 + total Bs) <= dtype_hi t -> fits t (numerator / c) ->
  yields s (congruence_candidate x c dec rems k false) (on_some (fun s' u => answers s' (numerator / c) u)).
Proof.
  intros Hx Hb Hroom Fz. unfold congruence_candidate. cbv zeta.
  destruct numerator_split as (Q & EQ & HQ).
  assert (ND : numerator / c = remainder_value / c + Q).
  { rewrite EQ, Z.mul_comm, Z.div_add by lia. reflexivity. }
  assert (FR : fits t remainder_value).
  { apply (small_fits t w Hw). unfold remainder_value. pose proof (dot_bound c rems Bs ltac:(lia) remainders_small).
    pose proof (Z.mod_pos_bound k c ltac:(lia)). lia. }
  eapply (remainder_reads modular (fun _ => True)); [apply modular_reading | intros; now apply val_modular
    | exact Logic.I | apply Forall_true; intros; exact Logic.I | exact Logic.I | exact Hx | exact Hb |].
  intros s1 u Hs1 G1 [Eu Vu]. rewrite (fits_wrap t Ht _ FR) in Vu.
  destruct (int_range u) as [[lo hi] |] eqn:Er; [| now apply yields_ret].
  destruct (Z.eqb_spec (lo / c) (hi / c)) as [Eb | _]; cbn [negb]; [| now apply yields_ret].
  pose proof (int_range_sound s1 u lo hi _ Hs1 Eu Er Vu) as B.
  assert (Bq : lo / c = remainder_value / c).
  { assert (lo / c <= remainder_value / c <= hi / c) by (split; apply Z.div_le_mono; lia). lia. }
  rewrite zip_bases. apply (expr_grows t _ _ _ G1) in Hx.
  assert (Hb1 : Forall2 (based s1) dec Bs).
  { eapply Forall2_impl; [exact Hb |]. intros d b H. eapply based_grows; eassumption. }
  set (ks := zip_with _ dec rems).
  assert (K : ks = zip_with (fun f rem => Z.quot (f - rem) c) (map snd dec) rems).
  { unfold ks. clear. revert rems. induction dec as [| d l IH]; intros [| rem rems]; try reflexivity.
    cbn [zip_with map]. now rewrite IH. }
  assert (L : List.length dec = List.length rems) by (eapply Forall2_length, Hrems).
  eapply finds_obind.
  { eapply (scaled_terms_reads modular (fun _ => True) modular_reading Logic.I ks s1 (map fst dec) Bs).
    - eapply (based_reads modular); [apply modular_reading | intros; now apply val_modular | exact Hb1].
    - apply Forall_true. intros. exact Logic.I.
    - unfold ks. rewrite length_zip_with, length_map. lia. }
  intros s2 us _ G2 (zs & F1 & E1). eapply finds_obind.
  { eapply (with_constant_reads modular (fun _ => True) modular_reading Logic.I s2 x us zs);
      [eapply expr_grows; eassumption | exact F1 | exact Logic.I]. }
  intros s3 vs _ G3 (ys & F2 & E2). eapply finds_mono.
  { eapply (try_uop_sum_reads modular (fun _ => True) modular_reading Logic.I s3 vs x ys); [| exact F2].
    eapply expr_grows; [exact G3 | eapply expr_grows; eassumption]. }
  intros s4 v _ _ [Ev Vv]. apply val_answers; [exact Ev |].
  replace (numerator / c) with (sum ys); [rewrite (fits_wrap t Ht) in Vv; [exact Vv |] |].
  all: assert (sum ys = numerator / c); [| congruence || assumption].
  all: rewrite E2, E1, K, ND, <- Bq, HQ.
  all: assert (Z.quot (k - k mod c + lo / c * c) c = k / c + lo / c) as ->; [| lia].
  all: replace (k - k mod c + lo / c * c) with ((k / c + lo / c) * c) by (pose proof (Z.div_mod k c ltac:(lia)); lia);
    apply Z.quot_mul; lia.
Qed.
End Candidate.

(** *** Terms and choices *)

Lemma pop_add s u X :
  settled s -> ready t s u -> val r u X ->
  exists peeled k P, pop_const u BinaryOp.Add = Some (peeled, ConstValue.Int k) /\ ready t s peeled /\
    val r peeled P /\ X = P + k /\ Z.abs k <= dtype_hi t.
Proof using Hw.
  intros Hs Hu HX. pose proof (signed_bounds t w Hw) as B.
  assert (Otherwise : exists peeled k P, (let? c := BinaryOp.identity_element BinaryOp.Add (uop_dtype u) in Some (u, c))
      = Some (peeled, ConstValue.Int k) /\ ready t s peeled /\ val r peeled P /\ X = P + k /\ Z.abs k <= dtype_hi t).
  { exists u, 0, X. split; [| split; [exact Hu | split; [exact HX | lia]]].
    destruct Hu as [[(_ & _ & ->) _] _]. cbn [BinaryOp.identity_element].
    assert (DType.is_float (DType.Scalar t) = false) as -> by (destruct t; try discriminate Hw; reflexivity). reflexivity. }
  unfold pop_const. pose proof (fun a b => ready_children t s u BinaryOp.Add a b Hs Hu) as Hc.
  pose proof (fun a b => ready_binary t r s u BinaryOp.Add a b X Hs Hu) as Hb.
  destruct u as [i op d]. cbn [uop_op] in *. destruct op; try exact Otherwise.
  destruct (bool_decide (op = BinaryOp.Add)) eqn:E; [| exact Otherwise].
  apply bool_decide_eq_true in E as ->. destruct (Hc _ _ eq_refl eq_refl) as [Ra Rb].
  destruct (uop_op rhs) eqn:Er; try exact Otherwise.
  destruct (good_literal t w Hw r s rhs _ (proj1 Rb) Er) as (k & -> & Hk & Vk).
  destruct (Hb _ _ eq_refl eq_refl HX) as (x & y & Hx & Hy & [= <-]). rewrite (val_inj r rhs y k Hy Vk).
  exists lhs, k, x. easy.
Qed.

(** A term and its constant factor, exactly: for the factor -1 because the
    negated value fits. *)
Lemma negated_fits s u U : settled s -> ready t s u -> val r u U -> const_factor u = -1 -> fits t (- U).
Proof using Hw.
  intros Hs Hu HU. pose proof (signed_bounds t w Hw) as B.
  pose proof (fun op a b => ready_children t s u op a b Hs Hu) as Hc.
  pose proof (fun op a b => ready_binary t r s u op a b U Hs Hu) as Hb.
  pose proof (fun c => good_literal t w Hw r s u c (proj1 Hu)) as Hl.
  pose proof (fun l => good_not_vector t s u l (proj1 Hu)) as Hn.
  destruct u as [i op d]. cbn [uop_op] in *. destruct op; cbn [const_factor]; try discriminate; try (now destruct (Hn values)).
  - destruct (Hl _ eq_refl) as (z & -> & Hz & Vz). rewrite (val_inj r _ U z HU Vz).
    destruct (z =? i64_min); [discriminate |]. intros ->. apply (small_fits t w Hw). lia.
  - destruct op; try discriminate; destruct (Hc _ _ _ eq_refl eq_refl) as [Ra Rb].
    + destruct (gcd_bound t w Hw (const_factor lhs) (const_factor rhs)) as [_ G]; [| | lia];
        eapply const_factor_bound; eauto; [apply Ra | apply Rb].
    + destruct (Hb _ _ _ eq_refl eq_refl HU) as (x & y & Hx & Hy & [= <-]).
      destruct (int_const lhs) as [z |] eqn:E1; [| destruct (int_const rhs) as [z |] eqn:E2; [| discriminate]].
      * destruct (int_const_literal t w Hw r s lhs z (proj1 Ra) E1) as [_ Vz]. rewrite (val_inj r _ x z Hx Vz).
        destruct (z =? i64_min); [discriminate |]. intros ->. replace (- (-1 * y)) with y by lia.
        eapply val_fits; [apply Rb | exact Hy].
      * destruct (int_const_literal t w Hw r s rhs z (proj1 Rb) E2) as [_ Vz]. rewrite (val_inj r _ y z Hy Vz).
        destruct (z =? i64_min); [discriminate |]. intros ->. replace (- (x * -1)) with x by lia.
        eapply val_fits; [apply Ra | exact Hx].
Qed.

(** [base] times the factor of [u] is [u]. *)
Definition factored s (u base : UOp) : Prop :=
  exists B, based s (base, const_factor u) B /\ val r u (B * const_factor u).

Lemma factored_grows s s' u base : grows s s' -> factored s u base -> factored s' u base.
Proof using Type. intros G (B & H1 & H2). exists B. split; [eapply based_grows; eassumption | exact H2]. Qed.

Lemma divides_factor s u U :
  ready t s u -> val r u U -> yields s (divides u (const_factor u)) (on_some (fun s' q => factored s' u q)).
Proof.
  intros Hu HU Hs. pose proof (const_factor_bound t w Hw r s u Hs (proj1 Hu)) as Bf.
  pose proof (negated_fits s u U Hs Hu HU) as Neg. revert Hs.
  eapply finds_mono; [now apply (divides_spec t w Hw r u s _ U) |].
  intros s1 q _ G (Gq & Nz & Q & VQ & Sm & Ex). exists Q. split; [split; [exact Gq | split; [exact VQ | now split]] |].
  assert (Q * const_factor u = U) as ->; [| exact HU].
  destruct (Z.eq_dec (const_factor u) (-1)) as [E | E]; [| now apply Ex].
  rewrite E in *. specialize (Neg eq_refl). enough (Q = - U) by lia.
  apply (same_fits t Ht); [eapply val_fits; [apply Gq | exact VQ] | exact Neg |].
  replace Q with (-1 * (Q * -1)) by lia. replace (- U) with (-1 * U) by lia.
  apply (same_mul t Ht); [reflexivity | exact Sm].
Qed.

Lemma term_factor_spec s u U :
  ready t s u -> val r u U ->
  yields s (term_factor u) (on_some (fun s' d => factored s' u (fst d) /\ snd d = const_factor u)).
Proof.
  intros Hu HU. unfold term_factor. destruct (const_factor u =? 0); [now apply yields_ret |].
  eapply finds_obind; [now apply (divides_factor s u U) |]. intros s1 q _ _ Hq. now apply yields_ret.
Qed.

(** Collected terms: their bases and values. *)
Lemma collected_bases s terms dec :
  Forall2 (fun u d => factored s u (fst d) /\ snd d = const_factor u) terms dec ->
  exists Bs, Forall2 (based s) dec Bs /\ Forall2 (val r) terms (zip_with Z.mul (map snd dec) Bs) /\
    total Bs <= total (map (value r) terms).
Proof using Type.
  induction 1 as [| u [base f] terms dec [(B & Hb & Vu) E] _ (Bs & F1 & F2 & T)].
  - exists []. split; [constructor |]. split; [constructor |]. reflexivity.
  - cbn [fst snd] in *. subst f. exists (B :: Bs). split; [constructor; assumption |]. cbn [map zip_with].
    split; [constructor; [rewrite Z.mul_comm; exact Vu | exact F2] |].
    unfold total, sum in *. cbn [map foldr]. rewrite (val_value r _ _ Vu). destruct Hb as (_ & _ & Nz & _).
    cbn [snd] in Nz. rewrite Z.abs_mul. nia.
Qed.

Lemma choice_congruent single c f rem : 0 < c -> In rem (remainder_choices single c f) -> congruent c f rem.
Proof using Type.
  intros Hc H. unfold remainder_choices in H. cbv zeta in H. pose proof (Z.mod_pos_bound f c Hc) as Hm.
  pose proof (Z.div_mod f c ltac:(lia)) as Hd.
  assert (P : congruent c f (f mod c)).
  { split; [| lia]. replace (f - f mod c) with (f / c * c) by lia. rewrite Z.quot_mul by lia. reflexivity. }
  assert (N : congruent c f (f mod c - c)).
  { split; [| lia]. replace (f - (f mod c - c)) with ((f / c + 1) * c) by lia. rewrite Z.quot_mul by lia. reflexivity. }
  destruct (_ || single); [| destruct (_ <? _)]; cbn [In] in H; intuition (subst; assumption).
Qed.

Lemma decode_rev_in choices : forall code,
  0 <= code -> Forall (fun ch => ch <> []) choices -> Forall2 (fun z ch => In z ch) (decode_rev code choices) choices.
Proof using Type.
  induction choices as [| ch choices IH]; intros code Hc F; cbn [decode_rev]; [constructor |].
  apply Forall_cons in F as [F1 F2]. assert (0 < List.length ch)%nat by (destruct ch; [congruence | cbn; lia]).
  constructor.
  - apply nth_In. pose proof (Z.mod_pos_bound code (Z.of_nat (List.length ch)) ltac:(lia)). lia.
  - apply IH; [apply Z.div_pos; lia | exact F2].
Qed.

Lemma Forall2_rev {A B} (P : A -> B -> Prop) l l' : Forall2 P l l' -> Forall2 P (rev l) (rev l').
Proof using Type.
  induction 1 as [| a b l l' H _ IH]; [constructor |]. cbn [rev]. apply Forall2_app; [exact IH | now repeat constructor].
Qed.

Lemma decode_in code choices :
  0 <= code -> Forall (fun ch => ch <> []) choices -> Forall2 (fun z ch => In z ch) (decode code choices) choices.
Proof using Type.
  intros Hc F. unfold decode. rewrite <- (rev_involutive choices) at 2.
  apply Forall2_rev, decode_rev_in; [exact Hc | now apply List.Forall_rev].
Qed.

Lemma find_candidate_yields n choices (f : list Z -> Build S (option UOp)) Q : forall s code,
  0 <= code ->
  (forall s1 code, grows s s1 -> 0 <= code -> yields s1 (f (decode code choices)) (on_some Q)) ->
  yields s (find_candidate n code choices f) (on_some Q).
Proof using Type.
  induction n as [| n IH]; intros s code Hc H; cbn [find_candidate]; [now apply yields_ret |].
  eapply yields_bind; [apply (H s code); [intros v Hv; exact Hv | exact Hc] |].
  intros s1 [u |] _ G Hu; [now apply yields_ret |]. apply IH; [lia |]. intros s2 code' G' Hc'. apply H; [| exact Hc'].
  intros v Hv. now apply G', G.
Qed.

(** The sum of the absolute values of the additive terms of [x]. *)
Definition spread (x : UOp) : Z :=
  match pop_const x BinaryOp.Add with
  | Some (peeled, _) => total (map (value r) (split_uop peeled BinaryOp.Add))
  | None => 0
  end.

Lemma spread_nonneg x : 0 <= spread x.
Proof using Type. unfold spread. destruct (pop_const x BinaryOp.Add) as [[p c] |]; [apply total_abs_nonneg | lia]. Qed.

(** The quotient or remainder a rule must produce. *)
Definition outcome (is_mod : bool) (X Y : Z) : Z := if is_mod then X mod Y else X / Y.

Lemma quotient_bound X Y : Z.abs X <= dtype_hi t -> 0 < Y -> Z.abs (X / Y) <= dtype_hi t.
Proof using Type.
  intros HX HY. pose proof (Z.div_mod X Y ltac:(lia)). pose proof (Z.mod_pos_bound X Y HY).
  set (q := X / Y) in *. clearbody q. nia.
Qed.

Lemma outcome_fits is_mod X c : fits t X -> 0 < c <= dtype_hi t -> fits t (outcome is_mod X c).
Proof using Hw.
  intros HX Hc. pose proof (signed_bounds t w Hw) as B. destruct is_mod; cbn [outcome].
  - apply (small_fits t w Hw). pose proof (Z.mod_pos_bound X c ltac:(lia)). lia.
  - unfold fits in *. pose proof (Z.div_mod X c ltac:(lia)). pose proof (Z.mod_pos_bound X c ltac:(lia)).
    set (q := X / c) in *. clearbody q. nia.
Qed.

Lemma fold_divmod_congruence_spec s x y X c is_mod :
  ready t s x -> val r x X -> c <= dtype_hi t ->
  (is_mod = false -> c * (1 + spread x) <= dtype_hi t) ->
  yields s (fold_divmod_congruence x y (ConstValue.Int c) is_mod)
    (on_some (fun s' u => 0 < c /\ answers s' (outcome is_mod X c) u)).
Proof.
  intros Hx HX Hc Hroom Hs. pose proof (val_fits t r s x X (proj1 (proj1 Hx)) HX) as FX.
  destruct (pop_add s x X Hs Hx HX) as (peeled & k & P & Ep & Hp & HP & EX & Bk).
  destruct (split_add t r s peeled P Hs Hp HP) as (Us & FU & SU).
  pose proof (flatten_ready t s BinaryOp.Add peeled eq_refl Hs Hp) as RU.
  unfold spread in Hroom. rewrite Ep, split_uop_flatten in Hroom. revert Hs.
  unfold fold_divmod_congruence. destruct (negb _); [now apply yields_ret |].
  destruct (Z.leb_spec c 0) as [| C0]; [now apply yields_ret |]. rewrite Ep. cbv zeta. rewrite split_uop_flatten.
  eapply finds_obind.
  { eapply (finds_collect term_factor (fun s' u d => factored s' u (fst d) /\ snd d = const_factor u)).
    - intros s1 s2 a b G [H1 H2]. split; [eapply factored_grows; eassumption | exact H2].
    - intros s1 a Hs1 G Hin. rewrite List.Forall_forall in RU. specialize (RU a Hin).
      assert (exists U, val r a U) as [U HU].
      { clear -FU Hin. induction FU as [| u z us zs Hu _ IH]; [destruct Hin |]. destruct Hin as [-> | Hin]; eauto. }
      apply (term_factor_spec s1 a U); [eapply ready_grows; eassumption | exact HU]. }
  intros s1 dec _ G1 Hdec. destruct (collected_bases s1 _ dec Hdec) as (Bs & F1 & F2 & T).
  assert (E : dot (map snd dec) Bs = P).
  { unfold dot. rewrite <- SU. f_equal. clear -F2 FU. revert F2. generalize (zip_with Z.mul (map snd dec) Bs).
    induction FU as [| u z us zs Hu _ IH]; intros l F; inversion F as [| ? v ? ? Hv F']; subst; [reflexivity |].
    f_equal; [eapply val_inj; eassumption | now apply IH]. }
  set (single := (List.length dec =? 1)%nat). destruct (combinations _) as [n |]; [| now apply yields_ret].
  apply find_candidate_yields; [lia |]. intros s2 code G2 Hcode.
  set (choices := map (fun '(_, factor) => remainder_choices single c factor) dec).
  assert (Hr : Forall2 (fun d rem => congruent c (snd d) rem) dec (decode code choices)).
  { assert (N : Forall (fun ch => ch <> []) choices).
    { unfold choices. apply Forall_map, Forall_true. intros [b f]. unfold remainder_choices. cbv zeta.
      destruct (_ || _); [discriminate |]. destruct (_ <? _); discriminate. }
    pose proof (decode_in code choices Hcode N) as D. unfold choices in D at 2.
    clearbody single. revert D. clear -C0. generalize (decode code choices). clear choices.
    induction dec as [| [b f] dec IH]; intros l D; inversion D as [| z ? zs ? Hz D']; subst; [constructor |].
    constructor; [eapply choice_congruent; [exact C0 | exact Hz] | now apply IH]. }
  assert (Fb : Forall2 (based s2) dec Bs).
  { eapply Forall2_impl; [exact F1 |]. intros d B H. eapply based_grows; eassumption. }
  assert (Ex : expr t s2 x) by (eapply expr_grows; [exact G2 | eapply expr_grows; [exact G1 | apply Hx]]).
  assert (EN : numerator dec Bs k = X) by (unfold numerator; lia).
  destruct is_mod; cbn [outcome]; rewrite <- EN.
  - eapply finds_mono; [apply (congruence_mod x c dec Bs _ k (conj C0 Hc) Bk Hr s2 Ex Fb) |]. intros. now split.
  - eapply finds_mono; [apply (congruence_div x c dec Bs _ k (conj C0 Hc) Bk Hr s2 Ex Fb) |]; [| | intros; now split].
    + specialize (Hroom eq_refl). nia.
    + rewrite EN. now apply (outcome_fits false).
Qed.
End Rules.
