(* ===== verification/DivModRules.v ===== *)
(** * Soundness of the division rules

    One lemma per rule of [DivMod], then their composition: the candidate of
    [fold_divmod_general] denotes the quotient or remainder it replaces, and
    the rewrite rule keeps the value of the node.  The recursion of
    [nest_by_factor] halves the divisor, so the fuel is never what ends it. *)

From stdpp Require Import gmap.
From S2P Require Import Prelude F64 DType Cast ConstVal Ops IntView Eval EvalSpec Payload UOp Semantics Traverse.
From S2P Require Import RangeEval RangeSound Properties HashCons Builder Shape Constructors ConstructorSpec Exact.
From S2P Require Import Helpers DivMod HelperSpec FactorSpec DivModSpec.
#[local] Set Default Proof Using "All".

(** ** Arithmetic of nested quotients and remainders *)

Lemma div_mod_mul a c k : 0 < c -> 0 < k -> a mod (k * c) / c = (a / c) mod k.
Proof.
  intros Hc Hk. rewrite (Z.mul_comm k), Z.rem_mul_r, (Z.mul_comm c), Z.div_add by lia.
  rewrite Z.div_small; [lia |]. apply Z.mod_pos_bound. lia.
Qed.

(** Digits: [x] modulo [g * c] from its quotient and remainder by [g]. *)
Lemma mod_digits x g c : 0 < g -> 0 < c -> x mod (g * c) = (x / g) mod c * g + x mod g.
Proof. intros Hg Hc. rewrite Z.rem_mul_r by lia. lia. Qed.

Lemma div_digits x g c : 0 < g -> 0 < c -> x / (g * c) = x / g / c.
Proof. intros Hg Hc. rewrite Z.div_div by lia. reflexivity. Qed.

Section Rules.
Context {M : LibM} {S : Type} `{I : !Interner S} `{Sh : !Shapes S} `{It : !Iteration S}.
Context (t : ScalarDType) (w : Z) (Hw : int_format t = Some (true, w)) (r : env).
Implicit Types s : S.
#[local] Abbreviation Ht := (signed_format t w Hw).
#[local] Abbreviation answers := (answers t r).
#[local] Abbreviation outcome := (@outcome).

(** What a rule that may not apply promises. *)
Definition rule_answers (s : S) (z : Z) (o : option UOp) : Prop := on_some (fun s u => answers s z u) s o.

Lemma const_int_literal s y c : good t s y -> const_int y = Some c -> Z.abs c <= dtype_hi t /\ val r y c.
Proof using Hw.
  intros Hy H. unfold const_int in H. destruct (uop_op y) eqn:E; try discriminate.
  destruct (good_literal t w Hw r s y value Hy E) as (i & -> & Hi & Vi). cbn [try_int] in H. injection H as <-. now split.
Qed.

Lemma number_answers s z u : number t r s z u -> answers s z u.
Proof using Type. intros (A & V & _). apply val_answers; [apply A | exact V]. Qed.

Lemma ready_answers s u z : ready t s u -> val r u z -> answers s z u.
Proof using Type. intros H V. apply val_answers; [apply H | exact V]. Qed.

Lemma div_answers s a b x y :
  answers s x a -> answers s y b -> y <> 0 ->
  yields s (ok (try_div a b)) (on_some (fun s' u => answers s' (x / y) u /\
    (does_not_wrap u = true -> does_not_wrap a = true /\ does_not_wrap b = true))).
Proof.
  intros Ha Hb Hy. apply (binary_answers t w Hw r s BinaryOp.FloorDiv a b x y); auto.
  cbn [arith]. destruct (Z.eqb_spec y 0); congruence.
Qed.

Lemma mod_answers s a b x y :
  answers s x a -> answers s y b -> y <> 0 ->
  yields s (ok (try_mod a b)) (on_some (fun s' u => answers s' (x mod y) u /\
    (does_not_wrap u = true -> does_not_wrap a = true /\ does_not_wrap b = true))).
Proof.
  intros Ha Hb Hy. apply (binary_answers t w Hw r s BinaryOp.FloorMod a b x y); auto.
  cbn [arith]. destruct (Z.eqb_spec y 0); congruence.
Qed.

(** A sum with the guarantee that its operands do not wrap either. *)
Lemma add_answers s a b x y :
  answers s x a -> answers s y b ->
  yields s (ok (try_add a b)) (on_some (fun s' u => answers s' (x + y) u /\
    (does_not_wrap u = true -> does_not_wrap a = true /\ does_not_wrap b = true))).
Proof.
  intros Ha Hb. apply finds_ok. eapply builds_mono; [apply (try_add_spec t Ht); [apply Ha | apply Hb] |].
  intros s1 u Hs G Hu. apply (answers_grows t r _ _ _ _ G) in Ha, Hb. split.
  - exact (r_binary t _ _ (answers_reading t w Hw r) s1 BinaryOp.Add a b u x y _ (or_introl eq_refl) Hs Hu Ha Hb eq_refl).
  - intros Hn. destruct (no_wrap_children u BinaryOp.Add a b (proj2 Hu) eq_refl Hn) as (H1 & H2 & _). now split.
Qed.

Lemma mul_answers s a b x y :
  answers s x a -> answers s y b ->
  yields s (ok (try_mul a b)) (on_some (fun s' u => answers s' (x * y) u /\
    (does_not_wrap u = true -> does_not_wrap a = true /\ does_not_wrap b = true))).
Proof.
  intros Ha Hb. apply finds_ok. eapply builds_mono; [apply (try_mul_spec t Ht); [apply Ha | apply Hb] |].
  intros s1 u Hs G Hu. apply (answers_grows t r _ _ _ _ G) in Ha, Hb. split.
  - exact (r_binary t _ _ (answers_reading t w Hw r) s1 BinaryOp.Mul a b u x y _ (or_intror eq_refl) Hs Hu Ha Hb eq_refl).
  - intros Hn. destruct (no_wrap_children u BinaryOp.Mul a b (proj2 Hu) eq_refl Hn) as (H1 & H2 & _). now split.
Qed.

(** The answer may use what holds when the node does not wrap. *)
Lemma answers_when s u z z' :
  answers s z u -> (does_not_wrap u = true -> z = z') -> answers s z' u.
Proof using Type. intros [E G] H. split; [exact E |]. intros Hn. rewrite <- (H Hn). now apply G. Qed.

(** A literal of the model, and its value. *)
Lemma like_number s x z : expr t s x -> Z.abs z <= dtype_hi t -> yields s (like x z) (fun s' u => number t r s' z u).
Proof. apply (number_spec t w Hw r). Qed.

(** ** The quotient in a single bucket *)

Lemma cancel_divmod_spec s is_mod x y X Y q :
  ready t s x -> ready t s y -> val r x X -> val r y Y -> Y <> 0 -> wrap_to t (X / Y) = q -> in_s 64 q ->
  fits t (outcome is_mod X Y) ->
  yields s (cancel_divmod is_mod x y q) (on_some (fun s' u => answers s' (outcome is_mod X Y) u)).
Proof.
  intros Hx Hy HX HY Y0 Eq Hq Hf. unfold cancel_divmod. destruct is_mod; cbn [DivModSpec.outcome] in *.
  - assert (Fq : fits t q) by (rewrite <- Eq; apply wrap_to_fits, (int_t t Ht)).
    eapply finds_obind.
    { apply (scaled_reads t w Hw r answers (fits t)); [apply (answers_reading t w Hw r)
        | unfold fits; pose proof (fits_bounds t Ht); lia | now apply ready_answers; eauto | exact Hq | exact Fq]. }
    intros s1 v _ G1 Hv. eapply finds_mono.
    { apply (sub_answers t w Hw r s1 x v X (q * Y)); [| exact Hv].
      eapply answers_grows; [exact G1 | now apply ready_answers]. }
    intros s2 u _ _ [[Eu Gu] _]. split; [exact Eu |]. intros Hn. specialize (Gu Hn).
    enough (X - q * Y = X mod Y) as <- by exact Gu.
    apply (same_fits t Ht); [eapply val_fits; eassumption | exact Hf |].
    rewrite Z.mod_eq by exact Y0. apply (same_add t Ht); [reflexivity |].
    replace (- (q * Y)) with (q * - Y) by lia. replace (- (Y * (X / Y))) with (X / Y * - Y) by lia.
    apply (same_mul t Ht); [| reflexivity]. rewrite <- Eq. apply (same_wrap t Ht).
  - rewrite (fits_wrap t Ht _ Hf) in Eq. rewrite Eq in *. unfold some. eapply yields_bind.
    { apply (like_reads t w Hw r answers (fits t)); [apply (answers_reading t w Hw r)
        | unfold fits; pose proof (fits_bounds t Ht); lia | apply Hx | exact Hq | exact Hf]. }
    intros s1 u _ _ Hu. now apply yields_ret.
Qed.

(** ** Constant divisors *)
Section Constant.
Context (y : UOp) (c : Z) (Hc : 0 < c <= dtype_hi t).

Lemma nested_div_spec s x X :
  ready t s x -> val r x X -> answers s c y ->
  yields s (nested_div x y c) (on_some (fun s' o => rule_answers s' (X / c) o)).
Proof.
  intros Hx HX Hy Hs. pose proof (fun a b => ready_children t s x BinaryOp.FloorMod a b Hs Hx) as Hch.
  pose proof (fun a b => ready_binary t r s x BinaryOp.FloorMod a b X Hs Hx) as Hb. revert Hs. unfold nested_div.
  destruct (uop_op x) eqn:E; try (now apply yields_ret). destruct op; try (now apply yields_ret).
  rename lhs into inner, rhs into modulus. destruct (Hch _ _ eq_refl eq_refl) as [Ra Rm].
  destruct (Hb _ _ eq_refl eq_refl HX) as (A & Mo & VA & VM & Ez). cbn [arith] in Ez.
  destruct (Z.eqb_spec Mo 0) as [| M0]; [discriminate |]. injection Ez as EX.
  eapply yields_bind; [apply (divides_spec t w Hw r modulus s c Mo Rm VM) |].
  intros s1 [k |] Hs1 G1 Hk; cbn [on_some] in Hk; [| now apply yields_ret].
  destruct Hk as (Gk & _ & K & VK & _ & EK). specialize (EK ltac:(lia)).
  destruct (int_range k) as [[k_min k_max] |] eqn:Er; [| now apply yields_ret].
  destruct (Z.gtb_spec k_min 0) as [Kp | _]; [| now apply yields_ret].
  pose proof (int_range_sound t w Hw r s1 k k_min k_max K Hs1 (proj1 Gk) Er VK) as BK.
  assert (Z1 : X / c = (A / c) mod K).
  { rewrite <- EX, <- EK. apply div_mod_mul; lia. }
  rewrite Z1. eapply yields_bind with (P := on_some (fun s' u => answers s' ((A / c) mod K) u)).
  { eapply finds_obind; [apply (div_answers s1 inner y A c); [| | lia] |].
    - eapply answers_grows; [exact G1 | now apply ready_answers].
    - eapply answers_grows; eassumption.
    - intros s2 q _ G2 [Hq _]. eapply finds_mono; [apply (mod_answers s2 q k (A / c) K Hq); [| lia] |].
      + eapply answers_grows; [exact G2 |]. apply val_answers; [apply Gk | exact VK].
      + intros s3 u _ _ [Hu _]. exact Hu. }
  intros s2 o _ _ Ho. now apply yields_ret.
Qed.

(** A stripped term is the same modulo [c]. *)
Definition stripped s (term new : UOp) : Prop :=
  exists U U', val r term U /\ answers s U' new /\ U mod c = U' mod c.

Lemma strip_mod_spec s term U :
  ready t s term -> val r term U -> yields s (strip_mod c term) (fun s' new => stripped s' term new).
Proof.
  intros Hx HX Hs. pose proof (fun a b => ready_children t s term BinaryOp.FloorMod a b Hs Hx) as Hch.
  pose proof (fun a b => ready_binary t r s term BinaryOp.FloorMod a b U Hs Hx) as Hb. revert Hs. unfold strip_mod.
  assert (Self : forall s', grows s s' -> stripped s' term term).
  { intros s' G. exists U, U. split; [exact HX |]. split; [| reflexivity].
    eapply answers_grows; [exact G | now apply ready_answers]. }
  assert (Self0 : stripped s term term) by (apply Self; now intros v).
  destruct (uop_op term) eqn:E; try (now apply yields_ret). destruct op; try (now apply yields_ret).
  destruct (Hch _ _ eq_refl eq_refl) as [Ra Rm]. destruct (Hb _ _ eq_refl eq_refl HX) as (A & Mo & VA & VM & Ez).
  cbn [arith] in Ez. destruct (Z.eqb_spec Mo 0) as [| M0]; [discriminate |]. injection Ez as EX.
  eapply yields_bind; [apply (divides_spec t w Hw r rhs s c Mo Rm VM) |].
  intros s1 [k |] Hs1 G1 Hk; cbn [on_some] in Hk; apply yields_ret; [| now apply Self].
  destruct Hk as (Gk & _ & K & VK & _ & EK). specialize (EK ltac:(lia)).
  exists U, A. split; [exact HX |]. split; [eapply answers_grows; [exact G1 | now apply ready_answers] |].
  rewrite <- EX, <- EK. apply Z.mod_mod_divide. now exists K.
Qed.

Lemma remove_nested_mod_spec s x k terms Us X :
  expr t s x -> answers s c y -> Forall (ready t s) terms -> Forall2 (val r) terms Us -> X = sum Us + k ->
  Z.abs k <= dtype_hi t ->
  yields s (remove_nested_mod x y c k terms) (on_some (fun s' o => rule_answers s' (X mod c) o)).
Proof.
  intros Hx Hy Hr FU EX Hk. unfold remove_nested_mod.
  eapply yields_bind; [apply (yields_collect (strip_mod c) (fun s' a b => stripped s' a b)) |].
  - intros s1 s2 a b G (U & U' & H1 & H2 & H3). exists U, U'. split; [exact H1 |]. split; [| exact H3].
    eapply answers_grows; eassumption.
  - intros s1 a _ G Hin. rewrite List.Forall_forall in Hr. specialize (Hr a Hin).
    assert (exists U, val r a U) as [U HU].
    { clear -FU Hin. induction FU as [| u z us zs Hu _ IH]; [destruct Hin |]. destruct Hin as [-> | Hin]; eauto. }
    apply (strip_mod_spec s1 a U); [eapply ready_grows; eassumption | exact HU].
  - intros s1 news _ G1 Hn. cbn beta in Hn.
    assert (Y : exists Us', Forall2 (answers s1) Us' news /\ sum Us' mod c = sum Us mod c).
    { clear -Hn FU Hc. revert Us FU. induction Hn as [| a b l l' (U & U' & H1 & H2 & H3) _ IH]; intros Us FU;
        inversion FU as [| ? V ? Vs HV FV]; subst.
      - exists []. split; [constructor | reflexivity].
      - destruct (IH Vs FV) as (Us' & F & E). exists (U' :: Us'). split; [now constructor |].
        rewrite (val_inj r a V U HV H1). unfold sum in *. cbn [foldr].
        rewrite Z.add_mod, <- H3, E, <- Z.add_mod by lia. reflexivity. }
    destruct Y as (Us' & F & E). destruct (existsb _ _); [| now apply yields_ret].
    pose proof (answers_reading t w Hw r) as HR.
    assert (H0 : fits t 0) by (unfold fits; pose proof (fits_bounds t Ht); lia).
    eapply yields_bind with (P := on_some (fun s' u => answers s' (X mod c) u)).
    + eapply finds_obind.
      { eapply (try_uop_sum_reads t w Hw r answers (fits t) HR H0 s1 news x Us'); [eapply expr_grows; eassumption | exact F]. }
      intros s2 u _ G2 Hu. eapply finds_obind with (P := fun s' u' => answers s' (sum Us' + k) u').
      { destruct (Z.eqb_spec k 0) as [-> | _]; [apply yields_ret; cbn [on_some]; now rewrite Z.add_0_r |].
        eapply yields_bind; [apply (like_number s2 x k); [| exact Hk] |].
        { eapply expr_grows; [exact G2 | eapply expr_grows; eassumption]. }
        intros s3 v _ G3 Hv. eapply finds_mono; [apply (add_answers s3 u v (sum Us') k) |].
        - eapply answers_grows; eassumption.
        - now apply number_answers.
        - intros s4 u' _ _ [H _]. exact H. }
      intros s3 u' _ G3 Hu'. eapply finds_mono; [apply (mod_answers s3 u' y _ c Hu'); [| lia] |].
      { eapply answers_grows; [exact G3 |]. eapply answers_grows; [exact G2 |]. eapply answers_grows; eassumption. }
      intros s4 v _ _ [Hv _]. replace (X mod c) with ((sum Us' + k) mod c); [exact Hv |].
      rewrite EX, Z.add_mod, E, <- Z.add_mod by lia. reflexivity.
    + intros s2 o _ _ Ho. now apply yields_ret.
Qed.

Lemma gcd_with_remainder_spec s x peeled is_mod k g X P :
  expr t s x -> ready t s peeled -> val r peeled P -> X = P + k -> Z.abs k <= dtype_hi t -> (g | c) -> 0 <= g ->
  yields s (gcd_with_remainder x peeled is_mod c k g) (on_some (fun s' o => rule_answers s' (outcome is_mod X c) o)).
Proof.
  intros Hx Hp HP EX Hk [c' Ec] Hg0. unfold gcd_with_remainder. destruct (Z.gtb_spec g 1) as [Hg | _]; cbn [negb]; [| now apply yields_ret].
  assert (Hc' : 0 < c') by nia.
  assert (Qc : c / g = c') by (rewrite Ec; apply Z.div_mul; lia). rewrite Qc.
  eapply yields_bind; [apply (divides_spec t w Hw r peeled s g P Hp HP) |].
  intros s1 [red |] Hs1 G1 Hred; cbn [on_some] in Hred; [| now apply yields_ret].
  destruct Hred as (Gr & _ & Q & VQ & _ & EQ). specialize (EQ ltac:(lia)).
  set (shift := (k / g) mod c'). assert (Hsh : 0 <= shift < c') by (apply Z.mod_pos_bound; lia).
  apply (expr_grows t _ _ _ G1) in Hx.
  eapply yields_bind with (P := on_some (fun s' u => answers s' (Q + shift) u)).
  { destruct (Z.eqb_spec shift 0) as [E0 | _].
    - apply yields_ret. cbn [on_some]. rewrite E0, Z.add_0_r. apply val_answers; [apply Gr | exact VQ].
    - eapply yields_bind; [apply (like_number s1 x shift Hx); nia |]. intros s2 v _ G2 Hv.
      eapply finds_mono; [apply (add_answers s2 red v Q shift) |].
      + eapply answers_grows; [exact G2 |]. apply val_answers; [apply Gr | exact VQ].
      + now apply number_answers.
      + intros s3 u _ _ [H _]. exact H. }
  intros s2 [u |] _ G2 Hu; cbn [on_some] in Hu; [| now apply yields_ret].
  destruct (int_range u) as [[lo hi] |]; [| now apply yields_ret]. destruct (lo >=? 0); [| now apply yields_ret].
  apply (expr_grows t _ _ _ G2) in Hx.
  eapply yields_bind; [apply (like_number s2 x c' Hx); nia |]. intros s3 inner _ G3 Hin.
  apply (expr_grows t _ _ _ G3) in Hx. apply (answers_grows t r _ _ _ _ G3) in Hu.
  assert (XG : X / g = Q + k / g).
  { rewrite EX, <- EQ, Z.add_comm, Z.div_add by lia. lia. }
  assert (XM : (Q + shift) mod c' = (X / g) mod c').
  { rewrite XG. unfold shift. rewrite Zplus_mod_idemp_r. reflexivity. }
  assert (CC : c = g * c') by lia.
  eapply yields_bind with (P := on_some (fun s' v => answers s' (outcome is_mod X c) v));
    [| intros s4 o _ _ Ho; now apply yields_ret].
  destruct is_mod; cbn [DivModSpec.outcome].
  - rewrite CC, mod_digits, <- XM by lia.
    eapply finds_obind; [apply (mod_answers s3 u inner _ c' Hu); [now apply number_answers | lia] |].
    intros s4 q _ G4 [Hq _]. eapply yields_bind; [apply (like_number s4 x g); [eapply expr_grows; eassumption | nia] |].
    intros s5 lit _ G5 Hl. eapply finds_obind.
    { eapply (mul_answers s5 q lit _ g); [eapply answers_grows; eassumption | now apply number_answers]. }
    intros s6 v _ G6 [Hv _]. assert (XK : X mod g = k mod g).
    { rewrite EX, <- EQ, Z.add_comm. apply Z_mod_plus_full. }
    rewrite XK. unfold offset_by. destruct (Z.eqb_spec (k mod g) 0) as [-> | _].
    { apply yields_ret. cbn [on_some]. now rewrite Z.add_0_r. }
    pose proof (Z.mod_pos_bound k g ltac:(lia)).
    eapply yields_bind; [apply (like_number s6 v (k mod g)); [apply Hv | nia] |]. intros s7 o _ G7 Ho.
    eapply finds_mono; [eapply (add_answers s7 v o); [eapply answers_grows; eassumption | apply number_answers, Ho] |].
    intros s8 u' _ _ [H' _]. exact H'.
  - assert (XC : X / c = (Q + shift) / c' + k / c).
    { rewrite CC, !div_digits, XG by lia. unfold shift. pose proof (Z.div_mod (k / g) c' ltac:(lia)) as D.
      rewrite D at 1. replace (Q + (c' * (k / g / c') + (k / g) mod c')) with (Q + (k / g) mod c' + k / g / c' * c') by lia.
      rewrite Z.div_add by lia. reflexivity. }
    rewrite XC. eapply finds_obind; [apply (div_answers s3 u inner _ c' Hu); [now apply number_answers | lia] |].
    intros s4 q _ G4 [Hq _]. unfold offset_by. destruct (Z.eqb_spec (k / c) 0) as [-> | _].
    { apply yields_ret. cbn [on_some]. now rewrite Z.add_0_r. }
    eapply yields_bind; [apply (like_number s4 q (k / c)); [apply Hq | apply quotient_bound; [exact Hk | lia]] |].
    intros s5 o _ G5 Ho.
    eapply finds_mono; [eapply (add_answers s5 q o); [eapply answers_grows; eassumption | apply number_answers, Ho] |].
    intros s6 u' _ _ [H' _]. exact H'.
Qed.

(** *** Nesting by a factor *)

Lemma scaled_terms_filter (l : list (UOp * Z)) :
  scaled_terms (List.filter (fun '(_, k) => negb (k =? 0)) l) = scaled_terms l.
Proof using Type.
  induction l as [| [b k] l IH]; [reflexivity |]. cbn [List.filter scaled_terms].
  destruct (k =? 0) eqn:E; cbn [negb]; [exact IH |]. cbn [scaled_terms]. rewrite E.
  destruct (try_i64 k); [| reflexivity]. now rewrite IH.
Qed.

Lemma zip_map_r {A B C} (f : B -> C) (l : list A) : forall l' : list B,
  zip_with (fun a b => (a, f b)) l l' = zip l (map f l').
Proof using Type. induction l as [| a l IH]; intros [| b l']; try reflexivity. cbn. now rewrite IH. Qed.

Lemma dot_mod d fs : forall xs, 0 < d -> dot fs xs mod d = dot (map (fun f => f mod d) fs) xs mod d.
Proof using Type.
  induction fs as [| f fs IH]; intros xs Hd; [reflexivity |]. destruct xs as [| x xs]; [reflexivity |].
  cbn [map]. rewrite !dot_cons, Z.add_mod, (IH xs Hd), <- (Z.mul_mod_idemp_l f x d), <- Z.add_mod by lia. reflexivity.
Qed.

Lemma nest_divisors_spec factors terms d :
  In d (nest_divisors c factors terms) -> 2 <= d < c /\ (d | c).
Proof using Hc.
  unfold nest_divisors. rewrite dedup_in, sort_in, in_map_iff. intros ([u f] & <- & H).
  apply filter_In in H as [_ H]. rewrite !andb_true_iff, Z.leb_le, Z.ltb_lt, Z.eqb_eq in H. destruct H as [[[_ H1] H2] H3].
  split; [lia |]. rewrite Z.rem_mod_nonneg in H3 by lia. apply Z.mod_divide; lia.
Qed.

Section Nest.
Context (x : UOp) (X k : Z) (terms bases : list UOp) (Bs : list Z).
Context (HX : val r x X) (Hk : Z.abs k <= dtype_hi t).
Context (EX : X = dot (map const_factor terms) Bs + k).

Definition nest_state s : Prop :=
  ready t s x /\ Forall2 (answers s) Bs bases /\ List.length terms = List.length bases.

Lemma nest_state_grows s s' : grows s s' -> nest_state s -> nest_state s'.
Proof using Type.
  intros G (H1 & H2 & H3). split; [eapply ready_grows; eassumption |]. split; [| exact H3].
  eapply Forall2_impl; [exact H2 |]. intros b u H. eapply answers_grows; eassumption.
Qed.

Definition low_value (d : Z) : Z := dot (map (fun f => f mod d) (map const_factor terms)) Bs + k mod d.

Lemma low_value_mod d : 0 < d -> low_value d mod d = X mod d.
Proof using EX.
  intros Hd. unfold low_value. rewrite EX, Z.add_mod_idemp_r, Z.add_mod, <- dot_mod, <- Z.add_mod by lia. reflexivity.
Qed.

Lemma low_terms_spec s d :
  0 < d <= dtype_hi t -> nest_state s ->
  yields s (low_terms x d k bases (map const_factor terms))
    (on_some (fun s' us => exists zs, Forall2 (answers s') zs us /\ sum zs = low_value d)).
Proof.
  intros Hd (Rx & F & L). unfold low_terms. rewrite scaled_terms_filter, zip_map_r.
  pose proof (answers_reading t w Hw r) as HR.
  assert (H0 : fits t 0) by (unfold fits; pose proof (fits_bounds t Ht); lia).
  assert (Fm : forall z, fits t (z mod d)).
  { intros z. apply (small_fits t w Hw). pose proof (Z.mod_pos_bound z d ltac:(lia)). lia. }
  eapply finds_obind.
  { eapply (scaled_terms_reads t w Hw r answers (fits t) HR H0 _ s bases Bs F);
      [apply Forall_map, Forall_true; intros z; apply Fm |]. now rewrite !length_map. }
  intros s1 us _ G (zs & F1 & E1). eapply finds_mono.
  { eapply (with_constant_reads t w Hw r answers (fits t) HR H0 s1 x us zs (k mod d));
      [eapply expr_grows; [exact G | apply Rx] | exact F1 | apply Fm]. }
  intros s2 vs _ _ (ys & F2 & E2). exists ys. split; [exact F2 |]. rewrite E2, E1. reflexivity.
Qed.

Context (fold : UOp -> UOp -> Build S (option UOp)).

(** What the recursive call promises on a smaller divisor. *)
Definition fold_ok s : Prop := forall s1 d u, grows s s1 -> 2 <= d < c -> (d | c) -> number t r s1 d u ->
  yields s1 (fold x u) (on_some (fun s' v => answers s' (X / d) v)).

(** Two recursive calls that cannot be told apart on smaller divisors. *)
Definition folds_agree (fold' : UOp -> UOp -> Build S (option UOp)) s : Prop :=
  forall s1 d u, grows s s1 -> 2 <= d < c -> (d | c) -> number t r s1 d u -> settled s1 -> fold x u s1 = fold' x u s1.

Lemma nest_candidate_spec s is_mod x_min d :
  nest_state s -> fold_ok s -> 2 <= d < c -> (d | c) ->
  yields s (nest_candidate fold is_mod x c k x_min bases (map const_factor terms) d)
    (on_some (fun s' o => rule_answers s' (outcome is_mod X c) o)).
Proof.
  intros Hs Hf Hd Hdiv. destruct Hdiv as [c' Ec]. assert (Hc' : 0 < c') by nia.
  assert (Qc : c / d = c') by (rewrite Ec; apply Z.div_mul; lia). assert (CC : c = d * c') by lia.
  unfold nest_candidate. rewrite Qc.
  eapply yields_bind; [apply (like_number s x d); [apply Hs | lia] |]. intros s1 lit _ G1 Hlit. cbn beta in Hlit.
  eapply yields_bind; [apply (Hf s1 d lit G1 Hd); [now exists c' | exact Hlit] |]. clear Hf.
  intros s2 [nested |] _ G2 Hn; cbn [on_some] in Hn; [| now apply yields_ret].
  assert (Hs2 : nest_state s2) by (eapply nest_state_grows; [exact G2 |]; eapply nest_state_grows; eassumption).
  eapply yields_bind; [apply (like_number s2 x c'); [apply Hs2 | nia] |]. intros s3 outer _ G3 Ho. cbn beta in Ho.
  apply (nest_state_grows _ _ G3) in Hs2. apply (answers_grows t r _ _ _ _ G3) in Hn.
  destruct is_mod; cbn [negb DivModSpec.outcome].
  - destruct (_ || _); [now apply yields_ret |].
    eapply finds_obind; [apply (low_terms_spec s3 d); [lia | exact Hs2] |]. intros s4 low _ G4 (zs & F4 & E4).
    pose proof (answers_reading t w Hw r) as HR.
    assert (H0 : fits t 0) by (unfold fits; pose proof (fits_bounds t Ht); lia).
    eapply finds_obind.
    { eapply (try_uop_sum_reads t w Hw r answers (fits t) HR H0 s4 low x zs); [| exact F4].
      eapply expr_grows; [exact G4 | apply Hs2]. }
    intros s5 digit Hs5 G5 Hdig. rewrite E4 in Hdig.
    destruct (int_range digit) as [[lo hi] |] eqn:Er; [| now apply yields_ret].
    destruct ((lo >=? 0) && (hi <? d)) eqn:Eb; [| now apply yields_ret].
    apply andb_prop in Eb as [Lo%Z.geb_le Hi%Z.ltb_lt].
    assert (Low : does_not_wrap digit = true -> low_value d = X mod d).
    { intros Nd. destruct Hdig as [Ed Gd]. pose proof (int_range_sound t w Hw r s5 digit lo hi _ Hs5 Ed Er (Gd Nd)).
      rewrite <- low_value_mod, Z.mod_small by lia. reflexivity. }
    assert (Gs : forall z u, answers s3 z u -> answers s5 z u).
    { intros z u H. eapply answers_grows; [exact G5 |]. eapply answers_grows; eassumption. }
    eapply yields_bind with (P := on_some (fun s' v => answers s' ((X / d) mod c' * d) v)).
    { eapply finds_obind; [apply (mod_answers s5 nested outer (X / d) c'); [now apply Gs | apply Gs, number_answers, Ho | lia] |].
      intros s6 rest _ G6 [Hr _]. eapply finds_mono; [apply (mul_answers s6 rest lit _ d Hr) |].
      - eapply answers_grows; [exact G6 |]. apply Gs. eapply answers_grows; [exact G3 |].
        eapply answers_grows; [exact G2 | now apply number_answers].
      - intros s7 v _ _ [Hv _]. exact Hv. }
    intros s6 [high |] _ G6 Hh; cbn [on_some] in Hh; [| now apply yields_ret].
    rewrite CC, mod_digits by lia. destruct F4 as [| z v zs vs Hv F4].
    + apply yields_ret. cbn [on_some rule_answers]. cbn in E4.
      assert (X mod d = 0) as ->; [| now rewrite Z.add_0_r]. rewrite <- low_value_mod, <- E4 by lia. apply Z.mod_0_l. lia.
    + eapply finds_obind; [apply (add_answers s6 high digit _ (low_value d) Hh); eapply answers_grows; eassumption |].
      intros s7 u _ _ [Hu Hw']. apply yields_ret. cbn [on_some rule_answers].
      eapply answers_when; [exact Hu |]. intros Nu. now rewrite (Low (proj2 (Hw' Nu))).
  - rewrite CC, div_digits by lia.
    eapply yields_bind; [apply (div_answers s3 nested outer (X / d) c' Hn); [now apply number_answers | lia] |].
    intros s4 o _ _ Hq. apply yields_ret. destruct o as [q |]; cbn [on_some rule_answers]; [apply Hq | exact Logic.I].
Qed.

Lemma nest_candidate_agrees fold' s is_mod x_min d :
  nest_state s -> fold_ok s -> folds_agree fold' s -> 2 <= d < c -> (d | c) ->
  agrees s (nest_candidate fold is_mod x c k x_min bases (map const_factor terms) d)
    (nest_candidate fold' is_mod x c k x_min bases (map const_factor terms) d)
    (on_some (fun s' o => rule_answers s' (outcome is_mod X c) o)).
Proof.
  intros Hs Hf Ha Hd Hdiv. split; [now apply nest_candidate_spec |]. intros Hset.
  apply bind_ext; [reflexivity |]. intros s1 lit El.
  destruct (like_number s x d ltac:(apply Hs) ltac:(lia) Hset s1 lit El) as (Hs1 & G1 & Hlit).
  apply bind_ext; [| reflexivity]. now apply (Ha s1 d).
Qed.

Lemma nest_loop_agrees candidate candidate' z divisors : forall s best,
  (forall s1 d, grows s s1 -> In d divisors ->
     agrees s1 (candidate d) (candidate' d) (on_some (fun s' o => rule_answers s' z o))) ->
  rule_answers s z (option_map snd best) ->
  agrees s (nest_loop candidate divisors best) (nest_loop candidate' divisors best) (on_some (fun s' u => answers s' z u)).
Proof using Type.
  induction divisors as [| d divisors IH]; intros s best Hd Hb; cbn [nest_loop]; [now apply agrees_refl, yields_ret |].
  eapply agrees_bind; [apply (Hd s d); [now intros v | now left] |].
  intros s1 [o |] _ G Ho; cbn [on_some] in Ho; [| now apply agrees_refl, yields_ret].
  assert (Hd' : forall s2 d', grows s1 s2 -> In d' divisors ->
    agrees s2 (candidate d') (candidate' d') (on_some (fun s' o => rule_answers s' z o))).
  { intros s2 d' G' Hin. apply Hd; [| now right]. intros v Hv. now apply G', G. }
  assert (Hb' : rule_answers s1 z (option_map snd best)).
  { destruct best as [[n u] |]; cbn in *; [| exact Logic.I]. eapply answers_grows; eassumption. }
  destruct o as [u |]; [| now apply IH]. apply IH; [exact Hd' |]. destruct (match best with Some _ => _ | None => _ end); assumption.
Qed.

Lemma nest_by_factor_agrees fold' s is_mod :
  nest_state s -> fold_ok s -> folds_agree fold' s ->
  agrees s (nest_by_factor fold is_mod x c k bases (map const_factor terms) terms)
    (nest_by_factor fold' is_mod x c k bases (map const_factor terms) terms)
    (on_some (fun s' u => answers s' (outcome is_mod X c) u)).
Proof.
  intros Hs Hf Ha. unfold nest_by_factor.
  destruct (int_range x) as [[x_min x_max] |]; [| now apply agrees_refl, yields_ret].
  apply nest_loop_agrees; [| exact Logic.I]. intros s1 d G Hin. apply nest_divisors_spec in Hin as [Hd Hdiv].
  apply nest_candidate_agrees; [eapply nest_state_grows; eassumption | | | exact Hd | exact Hdiv].
  - intros s2 d' u G'. apply Hf. intros v Hv. now apply G', G.
  - intros s2 d' u G'. apply Ha. intros v Hv. now apply G', G.
Qed.
End Nest.
End Constant.

(** ** Any divisor *)

(** The outcome of a division, as the operation. *)
Lemma binary_outcome s (is_mod : bool) a b x y :
  answers s x a -> answers s y b -> y <> 0 ->
  yields s (binary (if is_mod then BinaryOp.FloorMod else BinaryOp.FloorDiv) a b)
    (on_some (fun s' u => answers s' (outcome is_mod x y) u)).
Proof.
  intros Ha Hb Hy. eapply finds_mono.
  - apply (binary_answers t w Hw r s _ a b x y (outcome is_mod x y)); [destruct is_mod; auto | exact Ha | exact Hb |].
    destruct is_mod; cbn [arith DivModSpec.outcome]; destruct (Z.eqb_spec y 0); congruence.
  - intros s1 u _ _ [H _]. exact H.
Qed.

Lemma outcome_split is_mod N Y Q : Y <> 0 ->
  outcome is_mod (Y * Q + N) Y = outcome is_mod N Y + if is_mod then 0 else Q.
Proof using Type.
  intros HY. destruct is_mod; cbn [DivModSpec.outcome]; rewrite Z.add_comm, Z.mul_comm.
  - rewrite Z_mod_plus_full. lia.
  - rewrite Z.div_add by exact HY. lia.
Qed.

Lemma outcome_scale (is_mod : bool) X Y G : Y <> 0 -> G <> 0 ->
  outcome is_mod (X * G) (Y * G) = if is_mod then outcome true X Y * G else outcome false X Y.
Proof using Type.
  intros HY HG. destruct is_mod; cbn [DivModSpec.outcome]; [now apply Z.mul_mod_distr_r | now apply Z.div_mul_cancel_r].
Qed.

Section AnyDivisor.
Context (is_mod : bool) (x y : UOp) (X Y : Z).
Context (HX : val r x X) (HY : val r y Y) (Y0 : Y <> 0).

Definition pair_state s : Prop := ready t s x /\ ready t s y.

Lemma pair_state_grows s s' : grows s s' -> pair_state s -> pair_state s'.
Proof using Type. intros G [H1 H2]. split; eapply ready_grows; eassumption. Qed.

(** What the terms seen so far add to: the divisor times the quotients, plus the remainders. *)
Definition divided s (V : Z) (p : list UOp * list UOp) : Prop :=
  exists Q rz, Forall2 (answers s) rz (snd p) /\ V = Y * Q + sum rz /\
    (is_mod = false -> exists qz, Forall2 (answers s) qz (fst p) /\ sum qz = Q).

Lemma answers_list_grows s s' zs us : grows s s' -> Forall2 (answers s) zs us -> Forall2 (answers s') zs us.
Proof using Type. intros G F. eapply Forall2_impl; [exact F |]. intros z u H. eapply answers_grows; eassumption. Qed.

Lemma divided_grows s s' V p : grows s s' -> divided s V p -> divided s' V p.
Proof using Type.
  intros G (Q & rz & H1 & H2 & H3). exists Q, rz. split; [eapply answers_list_grows; eassumption |]. split; [exact H2 |].
  intros Hm. destruct (H3 Hm) as (qz & H4 & H5). exists qz. split; [eapply answers_list_grows; eassumption | exact H5].
Qed.

Lemma divided_app s V V' a b c d : divided s V (a, b) -> divided s V' (c, d) -> divided s (V + V') (a ++ c, b ++ d).
Proof using Type.
  intros (Q & rz & H1 & H2 & H3) (Q' & rz' & H1' & H2' & H3'). exists (Q + Q'), (rz ++ rz'). cbn [fst snd] in *.
  split; [now apply Forall2_app |]. split; [rewrite sum_app; lia |]. intros Hm.
  destruct (H3 Hm) as (qz & H4 & H5), (H3' Hm) as (qz' & H4' & H5'). exists (qz ++ qz').
  split; [now apply Forall2_app | rewrite sum_app; lia].
Qed.

Lemma split_term_spec s term U :
  pair_state s -> not_minus_one y -> 0 <= Y -> ready t s term -> val r term U ->
  yields s (split_term x y (const_int y) is_mod term) (on_some (fun s' p => divided s' U p)).
Proof.
  intros [Rx Ry] Hn YN Rt VU Hs. assert (Fy : factors r y Y) by (eapply split_mul; eassumption).
  assert (Dy : forall d, const_int y = Some d -> d = Y).
  { intros d E. destruct (const_int_literal s y d (proj1 Ry) E) as [_ V]. exact (val_inj r y d Y V HY). }
  pose proof (const_factor_bound t w Hw r s term Hs (proj1 Rt)) as Bf.
  revert Hs. unfold split_term. eapply yields_bind; [apply (divide_exact_spec t w Hw r term s y U Y Rt VU (proj1 Ry) Fy Hn) |].
  intros s1 [q |] _ G1 Hq; cbn [on_some] in Hq.
  { apply yields_ret. destruct Hq as (Gq & Q & VQ & E). exists Q, []. split; [constructor |]. split; [cbn; lia |].
    intros _. exists [Q]. split; [| cbn; lia]. constructor; [| constructor]. split; [apply Gq | exact VQ]. }
  assert (Whole : forall s', grows s s' -> divided s' U ([], [term])).
  { intros s' G. exists 0, [U]. split; [| split; [cbn; lia | intros _; exists []; now split]].
    constructor; [| constructor]. eapply answers_grows; [exact G | now apply ready_answers]. }
  apply (ready_grows t _ _ _ G1) in Rt. apply (ready_grows t _ _ _ G1) in Rx.
  eapply yields_bind with (P := fun s' o => match o with
    | Some (base, residue, carry) => exists f, const_int y = Some Y /\ 0 < Y /\ factored t r s' term base /\
        f = const_factor term /\ residue = f mod Y /\ carry = f / Y
    | None => True end).
  { destruct (const_int y) as [d |]; [| now apply yields_ret]. rewrite (Dy d eq_refl) in *. cbv zeta.
    destruct (_ =? _); [now apply yields_ret |]. eapply yields_bind; [now apply (divides_factor t w Hw r s1 term U) |].
    intros s2 [base |] _ _ Hb; apply yields_ret; [| exact Logic.I]. cbn [on_some] in Hb. exists (const_factor term).
    split; [reflexivity |]. split; [lia |]. split; [exact Hb |]. split; [reflexivity |].
    unfold rem_euclid, div_euclid. rewrite Z.abs_eq by exact YN. split; [reflexivity |].
    destruct (Z.gtb_spec Y 0); [reflexivity | lia]. }
  intros s2 [[[base residue] carry] |] _ G2 Ho; [| apply yields_ret, Whole; intros v Hv; now apply G2, G1].
  destruct Ho as (f & Ey & Yp & (B & Hb & VB) & Ef & -> & ->).
  destruct (const_int_literal s y Y (proj1 Ry) Ey) as [BY _].
  pose proof (answers_reading t w Hw r) as HR. destruct Hb as (Gb & Vb & _).
  assert (Ab : answers s2 B base) by (apply val_answers; [apply Gb | exact Vb]).
  assert (F1 : fits t (f mod Y)) by (apply (small_fits t w Hw); pose proof (Z.mod_pos_bound f Y Yp); lia).
  assert (F2 : fits t (f / Y)) by (apply (small_fits t w Hw), quotient_bound; [now rewrite Ef | exact Yp]).
  eapply finds_obind; [apply (scaled_reads t w Hw r answers (fits t) HR); [unfold fits; pose proof (fits_bounds t Ht); lia | exact Ab | now apply (fits_i64 t w Hw) | exact F1] |].
  intros s3 rterm _ G3 Hr. apply (answers_grows t r _ _ _ _ G3) in Ab.
  eapply finds_obind with (P := fun s' u => is_mod = false -> answers s' (f / Y * B) u).
  { destruct is_mod eqn:Em.
    - unfold some. eapply yields_bind; [apply (like_number s3 x 0) |].
      + eapply expr_grows; [exact G3 | eapply expr_grows; [exact G2 | apply Rx]].
      + pose proof (signed_bounds t w Hw). lia.
      + intros s4 u _ _ _. now apply yields_ret.
    - eapply finds_mono; [apply (scaled_reads t w Hw r answers (fits t) HR); [unfold fits; pose proof (fits_bounds t Ht); lia | exact Ab | now apply (fits_i64 t w Hw) | exact F2] |].
      intros s4 u _ _ H _. exact H. }
  intros s4 qterm _ G4 Hqt. apply yields_ret. exists (f / Y * B), [f mod Y * B]. cbn [fst snd].
  split; [constructor; [eapply answers_grows; eassumption | constructor] |]. split.
  - rewrite (val_inj r term U _ VU VB), <- Ef. unfold sum. cbn [foldr]. pose proof (Z.div_mod f Y Y0) as D.
    rewrite D at 1. ring.
  - intros Hm. exists [f / Y * B]. split; [constructor; [now apply Hqt | constructor] |]. unfold sum. cbn [foldr]. lia.
Qed.

Lemma split_terms_spec terms : forall s Us V quotient remainder,
  pair_state s -> not_minus_one y -> 0 <= Y -> Forall (ready t s) terms -> Forall2 (val r) terms Us ->
  divided s V (quotient, remainder) ->
  yields s (split_terms x y (const_int y) is_mod terms quotient remainder) (on_some (fun s' p => divided s' (V + sum Us) p)).
Proof.
  induction terms as [| term terms IH]; intros s Us V quotient remainder Hp Hn YN Hr FU Hd;
    inversion FU as [| ? U ? Us' HU FU']; subst; cbn [split_terms].
  - apply yields_ret. cbn [on_some sum]. unfold sum. cbn [foldr]. now rewrite Z.add_0_r.
  - apply Forall_cons in Hr as [R1 R2]. eapply finds_obind; [now apply (split_term_spec s term U) |].
    intros s1 [q rm] _ G1 H1. eapply finds_mono.
    { apply (IH s1 Us' (V + U)); [eapply pair_state_grows; eassumption | exact Hn | exact YN | | exact FU' |].
      - eapply Forall_impl; [exact R2 |]. intros u Hu. eapply ready_grows; eassumption.
      - apply divided_app; [eapply divided_grows; eassumption | exact H1]. }
    intros s2 p _ _ H. unfold sum in *. cbn [foldr]. now rewrite Z.add_assoc.
Qed.

Lemma factor_remainder_spec s terms Us :
  pair_state s -> Forall (ready t s) terms -> Forall2 (val r) terms Us -> X = sum Us ->
  yields s (factor_remainder (if is_mod then BinaryOp.FloorMod else BinaryOp.FloorDiv) x y terms)
    (on_some (fun s' u => answers s' (outcome is_mod X Y) u)).
Proof.
  intros Hp Hr FU EX Hs. unfold factor_remainder.
  assert (YN : non_negative y = true -> 0 <= Y).
  { unfold non_negative. destruct (int_range y) as [[lo hi] |] eqn:E; [| discriminate]. intros L%Z.geb_le.
    pose proof (int_range_sound t w Hw r s y lo hi Y Hs (proj1 (proj1 (proj2 Hp))) E HY). lia. }
  assert (Hn : 0 <= Y -> not_minus_one y).
  { intros H E. destruct (int_const_literal t w Hw r s y (-1) (proj1 (proj2 Hp)) E) as [_ V].
    pose proof (val_inj r y _ _ HY V). lia. }
  revert Hs. assert (Bm : bool_decide ((if is_mod then BinaryOp.FloorMod else BinaryOp.FloorDiv) = BinaryOp.FloorMod) = is_mod).
  { destruct is_mod; reflexivity. }
  rewrite Bm. destruct (negb (non_negative x)); [now apply yields_ret |].
  destruct (non_negative y) eqn:Ny; [| now apply yields_ret]. cbn [negb orb]. specialize (YN eq_refl).
  pose proof (answers_reading t w Hw r) as HR.
  assert (H0 : fits t 0) by (unfold fits; pose proof (fits_bounds t Ht); lia).
  eapply finds_obind.
  { apply (split_terms_spec terms s Us 0 [] [] Hp (Hn YN) YN Hr FU).
    exists 0, []. split; [constructor |]. split; [cbn; lia |]. intros _. exists []. now split. }
  intros s1 [quotient remainder] _ G1 (Q & rz & F1 & E1 & Hq). cbn [fst snd] in *.
  apply (pair_state_grows _ _ G1) in Hp. destruct quotient as [| q0 quotient]; [now apply yields_ret |].
  eapply finds_obind; [apply (try_uop_sum_reads t w Hw r answers (fits t) HR H0 s1 remainder x rz); [apply Hp | exact F1] |].
  intros s2 new_x _ G2 Hnew. destruct (negb (non_negative new_x)); [now apply yields_ret |].
  apply (pair_state_grows _ _ G2) in Hp.
  eapply finds_obind; [apply (binary_outcome s2 is_mod new_x y (sum rz) Y Hnew); [apply ready_answers; [apply Hp | exact HY] | exact Y0] |].
  intros s3 folded _ G3 Hf.
  assert (EO : outcome is_mod X Y = outcome is_mod (sum rz) Y + if is_mod then 0 else Q).
  { rewrite EX. replace (sum Us) with (Y * Q + sum rz) by lia. now apply outcome_split. }
  rewrite EO. destruct is_mod eqn:Em; [apply yields_ret; cbn [on_some]; now rewrite Z.add_0_r |].
  destruct (Hq eq_refl) as (qz & F2 & <-). apply (pair_state_grows _ _ G3) in Hp.
  eapply finds_obind.
  { apply (try_uop_sum_reads t w Hw r answers (fits t) HR H0 s3 (q0 :: quotient) x qz); [apply Hp |].
    eapply answers_list_grows; [exact G3 |]. eapply answers_list_grows; eassumption. }
  intros s4 q _ G4 Hqs. eapply finds_mono; [eapply (add_answers s4 folded q); [eapply answers_grows; eassumption | exact Hqs] |].
  intros s5 u _ _ [H _]. exact H.
Qed.

Lemma variable_denominator_rules_spec s :
  pair_state s ->
  yields s (variable_denominator_rules (if is_mod then BinaryOp.FloorMod else BinaryOp.FloorDiv) x y)
    (on_some (fun s' u => answers s' (outcome is_mod X Y) u)).
Proof.
  intros Hp Hs. destruct (split_add t r s x X Hs (proj1 Hp) HX) as (Us & FU & SU).
  pose proof (flatten_ready t s BinaryOp.Add x eq_refl Hs (proj1 Hp)) as RU. revert Hs.
  unfold variable_denominator_rules. rewrite split_uop_flatten. cbv zeta.
  eapply yields_bind; [apply (symbolic_gcd_spec t w Hw r s) |].
  { apply Forall_app. split; [| constructor; [split; [apply Hp | eauto] | constructor]].
    clear -RU FU. induction FU as [| u z us zs Hu _ IH]; [constructor |]. apply Forall_cons in RU as [R1 R2].
    constructor; [split; [exact R1 | eauto] | now apply IH]. }
  intros s1 g _ G1 (Ng & G & Hg). apply (pair_state_grows _ _ G1) in Hp.
  destruct (match const_int g with Some 1 => false | _ => true end).
  - eapply finds_obind; [apply (divide_exact_spec t w Hw r x s1 g X G (proj1 Hp) HX (proj1 Hg) (proj1 (proj2 Hg)) Ng) |].
    intros s2 x' _ G2 (Gx & X' & VX & EX). apply (pair_state_grows _ _ G2) in Hp. apply (multiplied_grows t r _ _ _ _ G2) in Hg.
    eapply finds_obind; [apply (divide_exact_spec t w Hw r y s2 g Y G (proj2 Hp) HY (proj1 Hg) (proj1 (proj2 Hg)) Ng) |].
    intros s3 y' _ G3 (Gy & Y' & VY & EY). apply (multiplied_grows t r _ _ _ _ G3) in Hg.
    assert (Y' <> 0 /\ G <> 0) as [Y'0 G0] by (split; intros ->; lia).
    eapply finds_obind.
    { apply (binary_outcome s3 is_mod x' y' X' Y'); [| split; [apply Gy | exact VY] | exact Y'0].
      split; [eapply expr_grows; [exact G3 | apply Gx] | exact VX]. }
    intros s4 folded _ G4 Hf. rewrite <- EX, <- EY, outcome_scale by assumption.
    assert (Bm : bool_decide ((if is_mod then BinaryOp.FloorMod else BinaryOp.FloorDiv) = BinaryOp.FloorMod) = is_mod).
    { destruct is_mod; reflexivity. }
    rewrite Bm. destruct is_mod; [| now apply yields_ret].
    eapply finds_mono; [apply (mul_answers s4 folded g _ G Hf) |].
    + split; [eapply expr_grows; [exact G4 | apply Hg] | apply Hg].
    + intros s5 u _ _ [H _]. exact H.
  - apply (factor_remainder_spec s1 _ Us Hp); [| exact FU | now rewrite SU].
    eapply Forall_impl; [exact RU |]. intros u Hu. eapply ready_grows; eassumption.
Qed.
End AnyDivisor.
End Rules.
