(* ===== verification/DivModSound.v ===== *)
(** * The division rule as a whole

    [fold_divmod_general] tries its rules in order; each keeps the value
    ([DivModRules]), so the candidate does, and the rewrite guarded by the
    no-wrap proof maps a division node to a node of equal value.  The recursion
    through [nest_by_factor] at least halves a divisor below 2^63, so 64 levels
    are never used up.  The soundness asks for room for the remainder sums of
    the congruence fold ([headroom]); [DivModDemo] has an expression without
    it that is rewritten to another value. *)

From stdpp Require Import gmap.
From S2P Require Import Prelude F64 DType Cast ConstVal Ops IntView Eval EvalSpec Payload UOp Semantics Traverse.
From S2P Require Import RangeEval RangeSound Properties HashCons Builder Shape Constructors ConstructorSpec Exact.
From S2P Require Import Helpers DivMod HelperSpec FactorSpec DivModSpec DivModRules.
#[local] Set Default Proof Using "All".

Section Sound.
Context {M : LibM} {S : Type} `{I : !Interner S} `{Sh : !Shapes S} `{It : !Iteration S}.
Context (t : ScalarDType) (w : Z) (Hw : int_format t = Some (true, w)) (r : env).
Implicit Types s : S.
#[local] Abbreviation Ht := (signed_format t w Hw).
#[local] Abbreviation answers := (answers t r).

Lemma or_rule_agrees s rule rest rest' z :
  yields s rule (on_some (fun s' o => rule_answers t r s' z o)) ->
  (forall s1, settled s1 -> grows s s1 -> agrees s1 rest rest' (on_some (fun s' u => answers s' z u))) ->
  agrees s (or_rule rule rest) (or_rule rule rest') (on_some (fun s' u => answers s' z u)).
Proof using Type.
  intros H1 H2. eapply agrees_bind; [apply agrees_refl, H1 |].
  intros s1 [o |] Hs G Ho; cbn [on_some] in Ho; [| now apply H2]. now apply agrees_refl, yields_ret.
Qed.

Lemma fold_gcd_divides l : forall c, Z.abs c <= dtype_hi t -> Forall (fun f => Z.abs f <= dtype_hi t) l -> 0 <= c ->
  0 <= fold_left gcd l c /\ (fold_left gcd l c | c).
Proof using Hw.
  induction l as [| f l IH]; intros c Hc Hl H0; cbn [fold_left]; [split; [exact H0 | reflexivity] |].
  apply Forall_cons in Hl as [Hf Hl]. destruct (gcd_bound t w Hw c f Hc Hf) as [E B].
  destruct (IH (gcd c f) ltac:(lia) Hl ltac:(lia)) as [H1 H2]. split; [exact H1 |].
  eapply Z.divide_trans; [exact H2 |]. rewrite E. apply Z.gcd_divide_l.
Qed.

(** The terms divided by their factors. *)
Lemma bases_spec s terms Us :
  Forall (ready t s) terms -> Forall2 (val r) terms Us ->
  yields s (collect_some (fun '(term, factor) => divides term factor) (zip terms (map const_factor terms)))
    (on_some (fun s' bases => List.length terms = List.length bases /\
       exists Bs, Forall2 (answers s') Bs bases /\ dot (map const_factor terms) Bs = sum Us)).
Proof.
  intros RU FU. eapply finds_mono with (P := fun s' bases => Forall2 (factored t r s') terms bases).
  { eapply finds_mono; [eapply (finds_collect _ (fun s' (p : UOp * Z) b => factored t r s' (fst p) b)) |].
    - intros s4 s5 a b G' H. eapply factored_grows; eassumption.
    - intros s4 [a f] _ G' Hin.
      assert (f = const_factor a /\ In a terms) as [-> Ha].
      { clear -Hin. revert Hin. induction terms as [| u l IH]; [intros [] |]. cbn [map zip zip_with].
        intros [[= <- <-] | H]; [split; [reflexivity | now left] |]. destruct (IH H). split; [assumption | now right]. }
      rewrite List.Forall_forall in RU. specialize (RU a Ha).
      assert (exists U, val r a U) as [U HU].
      { clear -FU Ha. induction FU as [| u z us zs Hu _ IH]; [destruct Ha |]. destruct Ha as [-> | Ha]; eauto. }
      apply (divides_factor t w Hw r s4 a U); [eapply ready_grows; eassumption | exact HU].
    - intros s4 bases _ _ H. clear -H. revert bases H. induction terms as [| u l IH]; intros bases H;
        inversion H as [| p b ? ? Hb H']; subst; constructor; [exact Hb | now apply IH]. }
  intros s4 bases _ _ Hb. assert (L : List.length terms = List.length bases) by (eapply Forall2_length, Hb).
  split; [exact L |].
  assert (Dec : Forall2 (fun u d => factored t r s4 u (fst d) /\ snd d = const_factor u) terms (zip bases (map const_factor terms))).
  { clear -Hb. induction Hb as [| u b us bs H _ IH]; [constructor |]. cbn [map zip zip_with]. constructor; [now split | exact IH]. }
  destruct (collected_bases t r s4 _ _ Dec) as (Bs & F1 & F2 & _). exists Bs.
  assert (zip_fst : map fst (zip bases (map const_factor terms)) = bases).
  { apply fst_zip. rewrite length_map. lia. }
  assert (zip_snd : map snd (zip bases (map const_factor terms)) = map const_factor terms).
  { apply snd_zip. rewrite length_map. lia. }
  rewrite zip_snd in F2. rewrite <- zip_fst at 1. split.
  - eapply based_reads; [apply (answers_reading t w Hw r) | exact (val_answers t r) | exact F1].
  - unfold dot. f_equal. clear -F2 FU. revert F2. generalize (zip_with Z.mul (map const_factor terms) Bs).
    induction FU as [| u z us zs Hu _ IH]; intros l F; inversion F as [| ? v ? ? Hv F']; subst; [reflexivity |].
    f_equal; [eapply val_inj; eassumption | now apply IH].
Qed.

Section Fixed.
Context (x : UOp) (X : Z) (HX : val r x X).

Lemma const_denominator_rules_agrees s is_mod y c peeled k P fold fold' :
  ready t s x -> ready t s y -> const_int y = Some c ->
  pop_const x BinaryOp.Add = Some (peeled, ConstValue.Int k) -> ready t s peeled -> val r peeled P -> X = P + k ->
  Z.abs k <= dtype_hi t ->
  (0 < c -> c * (1 + spread r x) <= dtype_hi t) ->
  (0 < c -> fold_ok t r c x X fold s /\ folds_agree t r c x fold fold' s) ->
  agrees s (const_denominator_rules fold is_mod x y peeled k (split_uop peeled BinaryOp.Add))
    (const_denominator_rules fold' is_mod x y peeled k (split_uop peeled BinaryOp.Add))
    (on_some (fun s' u => answers s' (outcome is_mod X c) u)).
Proof.
  intros Hx Hy Ec Ep Hp HP EX Hk Hroom Hfold. apply agrees_settled. intros Hs. unfold const_denominator_rules. rewrite Ec.
  destruct (const_int_literal t w Hw r s y c (proj1 Hy) Ec) as [Bc Vc].
  destruct (split_add t r s peeled P Hs Hp HP) as (Us & FU & SU).
  pose proof (flatten_ready t s BinaryOp.Add peeled eq_refl Hs Hp) as RU.
  rewrite split_uop_flatten. set (terms := flatten BinaryOp.Add peeled) in *.
  destruct (Z.gtb_spec c 0) as [C0 | _]; cbn [negb]; [| now apply agrees_refl, yields_ret]. specialize (Hroom C0).
  destruct (Hfold C0) as [Hok Hagree].
  assert (Hc : 0 < c <= dtype_hi t) by lia.
  apply or_rule_agrees.
  { destruct is_mod; [now apply yields_ret |]. apply (nested_div_spec t w Hw r y c Hc s x X Hx HX). now apply ready_answers. }
  intros s1 _ G1. apply or_rule_agrees.
  { destruct is_mod; [| now apply yields_ret].
    apply (remove_nested_mod_spec t w Hw r y c Hc s1 x k terms Us X); [eapply expr_grows; [exact G1 | apply Hx]
      | eapply answers_grows; [exact G1 | now apply ready_answers] | | exact FU | now rewrite SU | exact Hk].
    eapply Forall_impl; [exact RU |]. intros u Hu. eapply ready_grows; eassumption. }
  intros s2 _ G2. apply or_rule_agrees.
  { eapply yields_bind; [apply (fold_divmod_congruence_spec t w Hw r s2 x y X c is_mod);
      [eapply ready_grows; [exact G2 | eapply ready_grows; eassumption] | exact HX | lia | now intros _] |].
    intros s3 [u |] _ _ Hu; apply yields_ret; [apply Hu | exact Logic.I]. }
  intros s3 Hs3 G3. assert (G : grows s s3) by (intros v Hv; now apply G3, G2, G1).
  assert (RU3 : Forall (ready t s3) terms) by (eapply Forall_impl; [exact RU |]; intros u Hu; eapply ready_grows; eassumption).
  assert (BF : Forall (fun f => Z.abs f <= dtype_hi t) (map const_factor terms)).
  { apply Forall_map. eapply Forall_impl; [exact RU3 |]. intros u Hu. eapply (const_factor_bound t w Hw r s3); [exact Hs3 | apply Hu]. }
  cbv zeta. eapply agrees_obind; [exact (bases_spec s3 terms Us RU3 FU) |].
  intros s4 bases _ G4 (L & Bs & Hb & ED). rewrite SU in ED.
  destruct (fold_gcd_divides (map const_factor terms) c Bc BF ltac:(lia)) as [Gn Gd].
  assert (G' : grows s s4) by (intros v Hv; now apply G4, G).
  apply or_rule_agrees.
  { apply (gcd_with_remainder_spec t w Hw r y c Hc s4 x peeled is_mod k _ X P);
      [eapply expr_grows; [exact G' | apply Hx] | eapply ready_grows; eassumption | assumption..]. }
  intros s5 _ G5. apply (nest_by_factor_agrees t w Hw r y c Hc x X k terms bases Bs HX Hk); [lia | | |].
  - split; [eapply ready_grows; [exact G5 | eapply ready_grows; eassumption] |]. split; [| exact L].
    eapply answers_list_grows; eassumption.
  - intros s6 d u G6. apply Hok. intros v Hv. now apply G6, G5, G'.
  - intros s6 d u G6. apply Hagree. intros v Hv. now apply G6, G5, G'.
Qed.
End Fixed.

(** ** All rules *)

(** A parameter declared a multiple of a number is one. *)
Definition honours (x : UOp) : Prop :=
  match uop_op x with
  | Op.Param _ _ arg => forall m X, ParamArg.multiple_of arg = Some m -> denote r x = Some X -> (m | X)
  | _ => True
  end.

Lemma param_multiple_spec s x y X Y :
  good t s y -> honours x -> val r x X -> val r y Y -> Y <> 0 -> param_multiple x y = true -> X mod Y = 0.
Proof using Hw.
  intros Gy Hh HX HY Y0 H. unfold param_multiple, honours in *. destruct (uop_op x); try discriminate.
  destruct (ParamArg.multiple_of arg) as [m |]; [| discriminate].
  destruct (try_i64 m) as [m' |] eqn:Em; [| discriminate]. apply try_i64_Some in Em as [-> _].
  destruct (const_int y) as [c |] eqn:Ec; [| discriminate].
  destruct (const_int_literal t w Hw r s y c Gy Ec) as [_ Vc]. pose proof (val_inj r y _ _ HY Vc) as ->.
  apply andb_prop in H as [_ H]. unfold checked_rem_i64 in H. destruct (_ || _); [discriminate |].
  destruct (Z.rem m c) eqn:R; try discriminate. apply Z.mod_divide; [exact Y0 |].
  eapply Z.divide_trans; [| exact (Hh m X eq_refl HX)]. now apply Z.rem_divide.
Qed.

Lemma param_multiple_rule_spec s (is_mod : bool) x y X Y :
  ready t s x -> ready t s y -> honours x -> val r x X -> val r y Y -> Y <> 0 -> param_multiple x y = true ->
  yields s (if is_mod then some (like x 0) else ret None) (on_some (fun s' u => answers s' (outcome is_mod X Y) u)).
Proof.
  intros Hx Hy Hh HX HY Y0 Ep. pose proof (param_multiple_spec s x y X Y (proj1 Hy) Hh HX HY Y0 Ep) as E0.
  destruct is_mod; [| now apply yields_ret]. cbn [outcome]. rewrite E0. unfold some.
  eapply yields_bind; [apply (like_number t w Hw r s x 0); [apply Hx |] |].
  { pose proof (signed_bounds t w Hw). lia. }
  intros s2 u _ _ Hu. apply yields_ret. exact (number_answers t r _ _ _ Hu).
Qed.

(** Room for the remainder sums of the congruence fold. *)
Definition headroom (x y : UOp) : Prop :=
  forall c, const_int y = Some c -> c * (1 + spread r x) <= dtype_hi t.

(** Levels of the recursion that suffice for a divisor. *)
Definition enough (fuel : nat) (y : UOp) : Prop :=
  (1 <= fuel)%nat /\ forall c, const_int y = Some c -> c < 2 ^ Z.of_nat fuel.

Lemma enough_smaller fuel s y c d u :
  enough (Datatypes.S fuel) y -> const_int y = Some c -> 2 <= d < c -> (d | c) -> number t r s d u ->
  enough fuel u.
Proof.
  intros [_ H] Ec Hd [q Eq] Hu. specialize (H c Ec). rewrite Nat2Z.inj_succ, Z.pow_succ_r in H by lia.
  assert (Q : 2 <= q) by nia. assert (D : d < 2 ^ Z.of_nat fuel).
  { revert H. generalize (2 ^ Z.of_nat fuel). intros p H. nia. }
  split.
  - destruct fuel; [cbn in D; lia | lia].
  - intros c' Ec'. destruct Hu as (Au & Vu & _).
    destruct (const_int_literal t w Hw r s u c' (proj1 Au) Ec') as [_ Vc']. now rewrite (val_inj r u _ _ Vc' Vu).
Qed.

(** With enough levels the rules answer, and what comes below them is not reached. *)
Lemma fold_divmod_over_agrees base base' fuel : forall fuel' s (is_mod : bool) x y X Y,
  enough fuel y -> enough fuel' y ->
  ready t s x -> ready t s y -> val r x X -> val r y Y -> Y <> 0 -> fits t (outcome is_mod X Y) ->
  honours x -> headroom x y ->
  let op := if is_mod then BinaryOp.FloorMod else BinaryOp.FloorDiv in
  agrees s (fold_divmod_over base fuel op x y) (fold_divmod_over base' fuel' op x y)
    (on_some (fun s' u => answers s' (outcome is_mod X Y) u)).
Proof.
  induction fuel as [| fuel IH]; intros [| fuel'] s is_mod x y X Y En En' Hx Hy HX HY Y0 Hf Hh Hroom op;
    [now destruct En | now destruct En | now destruct En' |]. cbn [fold_divmod_over].
  assert (Bm : bool_decide (op = BinaryOp.FloorMod) = is_mod) by now destruct is_mod.
  unfold fold_divmod_step. rewrite Bm. destruct (negb _); [now apply agrees_refl, yields_ret |].
  destruct (int_range y) as [[y_min y_max] |]; [| now apply agrees_refl, yields_ret].
  destruct (_ && _); [now apply agrees_refl, yields_ret |].
  eapply agrees_obind; [apply finds_ok, (try_div_spec t Ht s x y); [apply Hx | apply Hy] |].
  intros s1 q Hs1 G1 Hq. pose proof (val_binary t Ht r s1 BinaryOp.FloorDiv x y q X Y (X / Y) eq_refl Hq HX HY) as Vq.
  cbn [arith] in Vq. destruct (Z.eqb_spec Y 0) as [| _]; [contradiction |]. specialize (Vq eq_refl).
  apply (ready_grows t _ _ _ G1) in Hx, Hy.
  destruct (int_range q) as [[q_min q_max] |] eqn:Er; [| now apply agrees_refl, yields_ret].
  pose proof (int_range_sound t w Hw r s1 q q_min q_max _ Hs1 (proj1 Hq) Er Vq) as Bq.
  destruct (Z.eqb_spec q_min q_max) as [<- | _].
  { assert (E : wrap_to t (X / Y) = q_min) by lia.
    apply agrees_refl, (cancel_divmod_spec t w Hw r s1 is_mod x y X Y q_min); auto.
    rewrite <- E. apply (fits_i64 t w Hw), wrap_to_fits, (int_t t Ht). }
  destruct (param_multiple x y) eqn:Ep; [now apply agrees_refl, (param_multiple_rule_spec s1 is_mod x y X Y) |].
  destruct (pop_add t w Hw r s1 x X Hs1 Hx HX) as (peeled & k & P & Epop & Hp & HP & EX & Bk).
  rewrite Epop. cbv zeta.
  eapply agrees_bind with (P := on_some (fun s' u => answers s' (outcome is_mod X Y) u)).
  { destruct (const_int y) as [c |] eqn:Ec; [| unfold const_denominator_rules; rewrite Ec; now apply agrees_refl, yields_ret].
    destruct (const_int_literal t w Hw r s1 y c (proj1 Hy) Ec) as [Bc Vc]. pose proof (val_inj r y _ _ HY Vc) as ->.
    apply (const_denominator_rules_agrees x X HX s1 is_mod y c peeled k P); try assumption; [intros _; now apply Hroom |].
    assert (Rec : forall s2 d u, grows s1 s2 -> 2 <= d < c -> (d | c) -> number t r s2 d u ->
      agrees s2 (fold_divmod_over base fuel BinaryOp.FloorDiv x u) (fold_divmod_over base' fuel' BinaryOp.FloorDiv x u)
        (on_some (fun s' v => answers s' (X / d) v))); [| intros _; split; intros s2 d u G2 Hd Hdiv Hu; now apply (Rec s2 d u)].
    intros s2 d u G2 Hd Hdiv Hu. pose proof (ready_grows t _ _ _ G2 Hx) as Hx2. pose proof Hu as (Au & Vu & _ & Nu).
    apply (IH fuel' s2 false x u X d); [eapply enough_smaller; eassumption | eapply enough_smaller; eassumption | exact Hx2
      | now split; [apply Au |] | exact HX | exact Vu | lia | | exact Hh |].
    - apply (outcome_fits t w Hw); [eapply val_fits; [apply Hx | exact HX] | lia].
    - intros c' Ec'. destruct (const_int_literal t w Hw r s2 u c' (proj1 Au) Ec') as [_ Vc'].
      rewrite <- (val_inj r u _ _ Vu Vc'). pose proof (Hroom c Ec). pose proof (spread_nonneg r x). nia. }
  intros s2 [u |] _ G2 Hu; cbn [on_some] in Hu; apply agrees_refl; [now apply yields_ret |].
  apply (variable_denominator_rules_spec t w Hw r is_mod x y X Y HX HY Y0).
  split; eapply ready_grows; eassumption.
Qed.

Lemma enough_fuel s y fuel : good t s y -> (divmod_fuel <= fuel)%nat -> enough fuel y.
Proof.
  intros Hy Hn. unfold divmod_fuel in Hn. split; [lia |]. intros c Ec.
  destruct (const_int_literal t w Hw r s y c Hy Ec) as [B _]. apply (small_fits t w Hw), (fits_i64 t w Hw) in B.
  unfold in_s in B. assert (2 ^ 64 <= 2 ^ Z.of_nat fuel) by (apply Z.pow_le_mono_r; lia). lia.
Qed.

Lemma fold_divmod_general_spec s (is_mod : bool) x y X Y :
  ready t s x -> ready t s y -> val r x X -> val r y Y -> Y <> 0 -> fits t (outcome is_mod X Y) ->
  honours x -> headroom x y ->
  yields s (fold_divmod_general (if is_mod then BinaryOp.FloorMod else BinaryOp.FloorDiv) x y)
    (on_some (fun s' u => answers s' (outcome is_mod X Y) u)).
Proof.
  intros Hx Hy HX HY Y0 Hf Hh Hroom. assert (En : enough divmod_fuel y) by (eapply enough_fuel; [apply Hy | reflexivity]).
  exact (proj1 (fold_divmod_over_agrees (fun _ _ => panic) (fun _ _ => panic) _ _ s is_mod x y X Y En En Hx Hy HX HY Y0 Hf Hh Hroom)).
Qed.

Lemma exact_integer_rewrite_spec s u v :
  table s u -> table s v ->
  yields s (exact_integer_rewrite u v) (on_some (fun s' v' => v' = v /\ uop_dtype u = uop_dtype v /\
    does_not_wrap u = true /\ does_not_wrap v = true)).
Proof using Type.
  intros Tu Tv Hs. pose proof (settled_arena s Hs) as A. revert Hs. unfold exact_integer_rewrite, typed_integer_rewrite_is_exact.
  eapply yields_bind with (P := fun s' b => b = true -> uop_dtype u = uop_dtype v /\ does_not_wrap u = true /\ does_not_wrap v = true).
  { eapply yields_bind; [now apply shape_yields |]. intros s1 o1 _ G1 _.
    eapply yields_bind; [apply shape_yields; now apply G1 |]. intros s2 o2 _ _ _. cbv zeta.
    destruct (does_not_wrap_memo (table s) u ∅ Tu (memo_ok_empty _)) as [H1 H2].
    destruct (integer_arithmetic_does_not_wrap u ∅) as [o memo]. cbn [fst snd] in *.
    destruct (does_not_wrap_memo (table s) v memo Tv H2) as [H3 _].
    destruct (integer_arithmetic_does_not_wrap v memo) as [r' memo']. cbn [fst snd] in *. apply yields_ret.
    rewrite !andb_true_iff, bool_decide_eq_true. intros [[[[H _] _] ->] ->]. auto. }
  intros s1 b _ _ H. apply yields_ret. destruct b; cbn [on_some]; [auto | exact Logic.I].
Qed.
End Sound.

Section Rule.
Context {M : LibM} {S : Type} `{I : !Interner S} `{Sh : !Shapes S} `{It : !Iteration S}.

(** At an unsigned dtype no range is a pair of [Int], so no rule fires. *)
Lemma int_range_unsigned s u w :
  settled s -> table s u -> int_wt u = true -> int_format (base_of u) = Some (false, w) -> int_range u = None.
Proof using Type.
  intros Hs Tu Wu Hf. unfold int_range. destruct (sound_vmin_vmax u) as [[a b] |] eqn:E; [| reflexivity].
  destruct (sound_encloses (mkEnv (fun _ => 0) (fun _ => 0%nat)) u (table_interned s u Hs Tu) _ Wu E) as (l & h & Er & _).
  injection Er as -> ->. unfold of_Z. now rewrite Hf.
Qed.

(** What the soundness of the rule asks of the node, at the inputs [r]. *)
Definition rule_inputs (r : env) (u : UOp) : Prop :=
  match uop_op u with
  | Op.Binary _ _ x y => honours r x /\ headroom (base_of u) r x y
  | _ => True
  end.

(** Enough when the dividend is not a parameter. *)
Definition rule_inputs_b (r : env) (u : UOp) : bool :=
  match uop_op u with
  | Op.Binary _ _ x y =>
      match uop_op x with Op.Param _ _ _ => false | _ => true end &&
      match const_int y with Some c => c * (1 + spread r x) <=? dtype_hi (base_of u) | None => true end
  | _ => true
  end.

Lemma rule_inputs_check r u : rule_inputs_b r u = true -> rule_inputs r u.
Proof using Type.
  unfold rule_inputs_b, rule_inputs, honours, headroom. destruct (uop_op u); try easy. intros [H1 H2]%andb_prop. split.
  - destruct (uop_op lhs); try exact Logic.I. discriminate.
  - intros c E. rewrite E in H2. now apply Z.leb_le.
Qed.

Lemma exact_rewrite_no_wrap u v s s' v' :
  interned u -> exact_integer_rewrite u v s = Some (s', Some v') -> does_not_wrap u = true.
Proof using Type.
  intros Hi H. pose proof (interned_arena u Hi) as A.
  destruct (does_not_wrap_memo (fun a => occurs u a) u ∅ (rtc_refl _ _) (memo_ok_empty _)) as [E _]. rewrite <- E.
  unfold exact_integer_rewrite, typed_integer_rewrite_is_exact, bind, ret in H.
  destruct (shape u s) as [[s1 o1] |]; [| discriminate]. destruct (shape v s1) as [[s2 o2] |]; [| discriminate].
  destruct (integer_arithmetic_does_not_wrap u ∅) as [o memo], (integer_arithmetic_does_not_wrap v memo) as [o' memo'].
  cbn [fst]. destruct o; [reflexivity |]. rewrite andb_false_r, andb_false_l in H. discriminate H.
Qed.

(** The operands of a division that does not wrap. *)
Lemma division_operands r s u w (is_mod : bool) x y z :
  settled s -> table s u -> int_wt u = true -> int_format (base_of u) = Some w -> uniform (base_of u) u = true ->
  does_not_wrap u = true -> rule_inputs r u ->
  uop_op u = Op.Binary UOp (if is_mod then BinaryOp.FloorMod else BinaryOp.FloorDiv) x y -> denote r u = Some z ->
  exists X Y, let t := base_of u in ready t s x /\ ready t s y /\ val r x X /\ val r y Y /\ Y <> 0 /\
    z = outcome is_mod X Y /\ fits t z /\ honours r x /\ headroom t r x y.
Proof using Type.
  intros Hs Tu Wu F Un Nu Hin Eu Hz. cbv zeta. set (t := base_of u) in *.
  assert (Gu : good t s u).
  { split; [| exact Un]. split; [exact Tu |]. split; [exact Wu |]. destruct u as [i op d]. cbn [uniform] in Un.
    apply andb_prop in Un as [H _]. now apply bool_decide_eq_true in H. }
  assert (Ar : is_arith (if is_mod then BinaryOp.FloorMod else BinaryOp.FloorDiv) = true) by now destruct is_mod.
  destruct (ready_children t s u _ x y Hs (conj Gu Nu) Eu Ar) as [Rx Ry].
  destruct (ready_binary t r s u _ x y z Hs (conj Gu Nu) Eu Ar Hz) as (X & Y & HX & HY & Ez). exists X, Y.
  unfold rule_inputs in Hin. rewrite Eu in Hin. destruct Hin as [Hh Hroom].
  assert (Y <> 0 /\ z = outcome is_mod X Y) as [Y0 E].
  { destruct is_mod; cbn [arith outcome] in *; (destruct (Z.eqb_spec Y 0); [discriminate | now injection Ez as <-]). }
  pose proof (val_fits t r s u z (proj1 Gu) Hz). do 8 (split; [assumption |]). assumption.
Qed.

(** At an unsigned dtype every division is left alone. *)
Lemma fold_divmod_unsigned base fuel op x y s w :
  (1 <= fuel)%nat -> settled s -> table s y -> int_wt y = true -> int_format (base_of y) = Some (false, w) ->
  fold_divmod_over base fuel op x y s = Some (s, None).
Proof using Type.
  intros Hn Hs Ty Wy F. destruct fuel as [| fuel]; [lia |]. cbn [fold_divmod_over]. unfold fold_divmod_step.
  rewrite (int_range_unsigned s y w Hs Ty Wy F). now destruct (negb _).
Qed.

Lemma divmod_fuel_some : (1 <= divmod_fuel)%nat.
Proof. unfold divmod_fuel. lia. Qed.


(** C8: The division rule: a node it rewrites and the replacement have the same
    value at every input where the node has one. *)
Theorem divmod_rule_sound r s u s' v z :
  settled s -> table s u -> int_wt u = true -> is_Some (int_format (base_of u)) -> uniform (base_of u) u = true ->
  rule_inputs r u -> divmod_rule u s = Some (s', Some v) -> denote r u = Some z ->
  denote r v = Some z /\ settled s' /\ table s' v /\ int_wt v = true /\ uop_dtype v = uop_dtype u.
Proof using Type.
  intros Hs Tu Wu [[sg w] F] Un Hin Hrun Hz. unfold divmod_rule in Hrun. destruct (uop_op u) eqn:Eu; try discriminate Hrun.
  assert (Rule : forall is_mod : bool, op = (if is_mod then BinaryOp.FloorMod else BinaryOp.FloorDiv) ->
    (let*? replacement := fold_divmod_general op lhs rhs in exact_integer_rewrite u replacement) s = Some (s', Some v) ->
    denote r v = Some z /\ settled s' /\ table s' v /\ int_wt v = true /\ uop_dtype v = uop_dtype u).
  { clear Hrun. intros is_mod -> Hrun. unfold obind, bind in Hrun.
    destruct (fold_divmod_general _ lhs rhs s) as [[s1 [q |]] |] eqn:E1; try discriminate Hrun.
    pose proof (exact_rewrite_no_wrap u q s1 s' v (table_interned s u Hs Tu) Hrun) as Nu.
    destruct (division_operands r s u _ is_mod lhs rhs z Hs Tu Wu F Un Nu Hin Eu Hz)
      as (X & Y & Rx & Ry & HX & HY & Y0 & -> & Fz & Hh & Hroom). destruct sg.
    - destruct (fold_divmod_general_spec _ w F r s is_mod lhs rhs X Y Rx Ry HX HY Y0 Fz Hh Hroom Hs s1 _ E1)
        as (Hs1 & G1 & [Eq Gq]).
      destruct (exact_integer_rewrite_spec s1 u q (G1 u Tu) (proj1 Eq) Hs1 s' _ Hrun) as (Hs' & G2 & Ev & Ed & _ & Nq).
      subst v. split; [exact (Gq Nq) |]. split; [exact Hs' |]. split; [apply G2, Eq |]. split; [apply Eq | now symmetry].
    - exfalso. assert (Fy : int_format (base_of rhs) = Some (false, w)).
      { unfold base_of. destruct Ry as [[(_ & _ & ->) _] _]. exact F. }
      destruct Ry as [[(Ty & Wy & _) _] _]. unfold fold_divmod_general in E1.
      now rewrite (fold_divmod_unsigned _ _ _ lhs rhs s w divmod_fuel_some Hs Ty Wy Fy) in E1. }
  destruct op; try discriminate Hrun; [now apply (Rule true) | now apply (Rule false)].
Qed.
End Rule.
