(* ===== verification/DivModDemo.v ===== *)
(** * The division rule on concrete expressions

    The table of [HashCons] with scalar shapes: [(i * 4 + j) // 4] is rewritten
    to [i] and keeps its value.  A numerator whose coefficients cancel modulo
    the width shows what the room for remainder sums is for: the congruence
    fold reads the range of a sum that wraps, and the no-wrap proof looks at
    the original and the quotient only. *)

From stdpp Require Import gmap.
From S2P Require Import Prelude F64 DType Cast ConstVal Ops IntView Eval EvalSpec Payload UOp Semantics Traverse.
From S2P Require Import RangeEval RangeSound Properties HashCons Builder Shape Constructors ConstructorSpec Exact.
From S2P Require Import Helpers DivMod HelperSpec FactorSpec DivModSpec DivModRules DivModSound.

Module DivisionDemo.
#[export] Instance table_of_nodes : Interner Uops.t := uops_interner (fun _ _ _ => 0) None.
#[export] Instance library : LibM := demo_libm.

(** Every node is a scalar. *)
#[export, program] Instance scalars : Shapes Uops.t := {| shape u := ret (inl (Some [])); smax a b := ret a |}.
Next Obligation. intros. apply yields_ret. cbn. intros dim Hdim. now apply not_elem_of_nil in Hdim. Qed.
Next Obligation.
  intros s a b Hab. apply yields_ret. intros dim Hd. apply Hab. unfold dims in *. cbn in *.
  destruct (SInt.as_symbolic a); [| now apply not_elem_of_nil in Hd]. apply list_elem_of_singleton in Hd as ->. now left.
Qed.

#[export, program] Instance in_order : Iteration Uops.t := {| hash_order l := ret l |}.
Next Obligation. intros. now apply yields_ret. Qed.

Definition op_node (d : DType) (op : BinaryOp) (a b : UOp) : Build Uops.t UOp := new (Op.Binary UOp op a b) d.
Definition var (d : DType) (n : string) (lo hi : Z) : Build Uops.t UOp := new (Op.DefineVar UOp n lo hi) d.
Definition lit (d : DType) (z : Z) : Build Uops.t UOp := new (Op.Const UOp (ConstValue.Int z)) d.

(** [(i * 4 + j) // 4]. *)
Definition address : Build Uops.t UOp :=
  let d := DType.Scalar Int32 in
  let* i := var d "i" 0 9 in
  let* j := var d "j" 0 3 in
  let* four := lit d 4 in
  let* row := op_node d BinaryOp.Mul i four in
  let* flat := op_node d BinaryOp.Add row j in
  op_node d BinaryOp.FloorDiv flat four.

(** [(((a * -60 + b * 40) + c * 40) + d * 40 + e) // 100] over bytes, with
    [a], [b], [c] and [d] equal to 1. *)
Definition cancelling : Build Uops.t UOp :=
  let t := DType.Scalar Int8 in
  let* a := var t "a" 1 1 in
  let* b := var t "b" 1 1 in
  let* c := var t "c" 1 1 in
  let* d := var t "d" 1 1 in
  let* e := var t "e" 0 60 in
  let* m := lit t (-60) in
  let* p := lit t 40 in
  let* a := op_node t BinaryOp.Mul a m in
  let* b := op_node t BinaryOp.Mul b p in
  let* c := op_node t BinaryOp.Mul c p in
  let* d := op_node t BinaryOp.Mul d p in
  let* sum := op_node t BinaryOp.Add a b in
  let* sum := op_node t BinaryOp.Add sum c in
  let* sum := op_node t BinaryOp.Add sum d in
  let* sum := op_node t BinaryOp.Add sum e in
  let* hundred := lit t 100 in
  op_node t BinaryOp.FloorDiv sum hundred.

(** Running a computation from the empty table. *)
Definition nothing : UOp := mkUOp 0 (Op.Noop UOp) (DType.Scalar Void).
Definition state (m : Build Uops.t UOp) : Uops.t := match m Uops.empty with Some (s, _) => s | None => Uops.empty end.
Definition node (m : Build Uops.t UOp) : UOp := match m Uops.empty with Some (_, u) => u | None => nothing end.
Definition rewritten (m : Build Uops.t UOp) : Uops.t * UOp :=
  match divmod_rule (node m) (state m) with Some (s, Some v) => (s, v) | _ => (Uops.empty, nothing) end.

Definition inputs (l : list (string * Z)) : env :=
  mkEnv (fun u => match uop_op u with
                  | Op.DefineVar _ n _ _ =>
                      match List.find (fun p => String.eqb (fst p) n) l with Some (_, z) => z | None => 0 end
                  | _ => 0
                  end) (fun _ => 0%nat).
End DivisionDemo.
Import DivisionDemo.

Lemma leaf_built s d op : plain op = true -> refs op = [] -> yields s (new op d) (fun s' u => table s' u).
Proof. intros _ E. eapply yields_mono; [apply yields_new; rewrite E; intros v [] |]. intros s' u _ _ H. apply H. Qed.

Lemma op_built s d op a b : table s a -> table s b -> yields s (op_node d op a b) (fun s' u => table s' u).
Proof.
  intros Ha Hb. eapply yields_mono; [apply yields_new |].
  - cbn [refs Op.children launch_values app In]. now intros v [<- | [<- | []]].
  - intros s' u _ _ H. apply H.
Qed.

Lemma var_built s d n lo hi : yields s (var d n lo hi) (fun s' u => table s' u).
Proof. now apply leaf_built. Qed.
Lemma lit_built s d z : yields s (lit d z) (fun s' u => table s' u).
Proof. now apply leaf_built. Qed.

Ltac build_step :=
  lazymatch goal with
  | |- yields _ (var _ _ _ _) _ => apply var_built
  | |- yields _ (lit _ _) _ => apply lit_built
  | |- yields _ (op_node _ _ _ _) _ => apply op_built; assumption
  | |- yields _ (bind _ _) _ =>
      eapply yields_bind;
      [ build_step
      | let s' := fresh "s" in let u := fresh "u" in let G := fresh "G" in let H := fresh "H" in
        intros s' u _ G H; cbn beta in H;
        repeat match goal with T : table ?a _ |- _ => tryif constr_eq a s' then fail else apply G in T end;
        clear G; build_step ]
  end.

Lemma address_built : yields Uops.empty address (fun s u => table s u).
Proof. unfold address. cbv zeta. build_step. Qed.
Lemma cancelling_built : yields Uops.empty cancelling (fun s u => table s u).
Proof. unfold cancelling. cbv zeta. build_step. Qed.

Lemma state_settled m : yields Uops.empty m (fun s u => table s u) -> is_Some (m Uops.empty) ->
  settled (state m) /\ table (state m) (node m).
Proof.
  intros H [[s u] E]. unfold state, node. rewrite E.
  destruct (yields_run Uops.empty m _ s u H) as (H1 & _ & H2); [exact Inv_empty | exact E | now split].
Qed.

(** At [i = 7], [j = 2] the quotient is 7. *)
Lemma divmod_rule_sound_witness :
  denote (inputs [("i"%string, 7); ("j"%string, 2)]) (node address) = Some 7 /\
  denote (inputs [("i"%string, 7); ("j"%string, 2)]) (snd (rewritten address)) = Some 7.
Proof.
  split; [vm_compute; reflexivity |].
  destruct (state_settled address address_built) as [Hs Ht]; [vm_compute; now eexists |].
  refine (proj1 (divmod_rule_sound (inputs [("i"%string, 7); ("j"%string, 2)]) (state address) (node address)
           (fst (rewritten address)) (snd (rewritten address)) 7 Hs Ht _ _ _ _ _ _)).
  - vm_compute. reflexivity.
  - vm_compute. now eexists.
  - vm_compute. reflexivity.
  - apply rule_inputs_check. vm_compute. reflexivity.
  - vm_compute. reflexivity.
  - vm_compute. reflexivity.
Defined.

Definition dividend (u : UOp) : UOp := match uop_op u with Op.Binary _ _ x _ => x | _ => u end.
Definition divisor (u : UOp) : UOp := match uop_op u with Op.Binary _ _ _ y => y | _ => u end.


(** Without the room, the rule changes the value: the dividend is 60, its
    quotient by 100 is 0, the replacement is -2. *)
Theorem congruence_fold_wraps :
  let r := inputs [("a", 1); ("b", 1); ("c", 1); ("d", 1); ("e", 0)]%string in
  int_wt (node cancelling) = true /\ uniform Int8 (node cancelling) = true /\
  denote r (node cancelling) = Some 0 /\ denote r (snd (rewritten cancelling)) = Some (-2).
Proof. vm_compute. repeat split. Qed.
