(* ===== verification/FastDiv.v ===== *)
(** * Division by constants ([schedule/src/symbolic/fast_div.rs])

    Replacing a truncating division by a multiplication and a shift: the search
    for the magic number, and the rewrite with its choices of width.  The
    recursion divides out the power of two first, so its depth is two. *)

From stdpp Require Import gmap.
From S2P Require Import Prelude F64 DType Cast ConstVal Ops Eval Payload UOp RangeEval.
From S2P Require Import HashCons Builder Shape Constructors.

(** The loop over shifts, in [i128]: every power is at most 2^126 and every
    product below it.  The multiplier must be an [i64]. *)
Fixpoint magic_search (n : nat) (shift nc divisor : Z) : option (Z * Z) :=
  match n with
  | O => None
  | Datatypes.S n =>
      let power := Z.shiftl 1 shift in
      if nc * (divisor - 1 - Z.rem (power - 1) divisor) <? power then
        let? multiplier := try_i64 (Z.quot (power + divisor - 1 - Z.rem (power - 1) divisor) divisor) in
        Some (multiplier, shift)
      else magic_search n (shift + 1) nc divisor
  end.

Definition magic_unsigned (vmax divisor : Z) : option (Z * Z) :=
  if (divisor <=? 0) || (vmax <? 0) then None
  else
    let nc := Z.quot (vmax + 1) divisor * divisor - 1 in
    let nbits := bit_length vmax in
    magic_search (Z.to_nat (2 * nbits + 1)) 0 nc divisor.

Definition value_as_i64 (value : ConstValue) : option Z :=
  match value with
  | ConstValue.Int value => Some value
  | ConstValue.UInt value => try_i64 value
  | _ => None
  end.

Definition dtype_bounds_i128 (dtype : DType) : option (Z * Z) :=
  let convert value :=
    match value with ConstValue.Int value | ConstValue.UInt value => Some value | _ => None end in
  let '(min, max) := dtype_bounds dtype in
  let? min := convert min in
  let? max := convert max in
  Some (min, max).

Definition multiplication_fits (multiplier vmin vmax : Z) (dtype : DType) : bool :=
  match dtype_bounds_i128 dtype with
  | None => false
  | Some (dtype_min, dtype_max) => (multiplier * vmin >=? dtype_min) && (multiplier * vmax <=? dtype_max)
  end.

Definition next_integer_dtype (dtype : DType) : option DType :=
  match DType.base dtype with
  | Int8 => Some (DType.Scalar Int16)
  | Int16 => Some (DType.Scalar Int32)
  | Int32 => Some (DType.Scalar Int64)
  | Int64 => Some (DType.Scalar UInt64)
  | UInt8 => Some (DType.Scalar UInt16)
  | UInt16 => Some (DType.Scalar UInt32)
  | UInt32 => Some (DType.Scalar UInt64)
  | _ => None
  end.

Section FastDiv.
Context {M : LibM} {S : Type} `{I : !Interner S} `{Sh : !Shapes S}.

Definition multiply_shift (multiplier shift : Z) (value : UOp) : Build S (option UOp) :=
  let* m := const_like value (ConstValue.Int multiplier) in
  let*? product := ok (try_mul value m) in
  let* s := const_like value (ConstValue.Int shift) in
  ok (try_shr_op product s).

(** One for a negative dividend: the shift rounds down, the division to zero. *)
Definition signed_adjustment (x : UOp) : Build S (option UOp) :=
  let* zero := const_like x (ConstValue.Int 0) in
  let*? negative := ok (try_cmplt x zero) in
  let* one := const_like x (ConstValue.Int 1) in
  let* zero := const_like x (ConstValue.Int 0) in
  ok (try_where negative one zero).

Definition adjusted (is_unsigned : bool) (x result : UOp) : Build S (option UOp) :=
  if is_unsigned then ret (Some result)
  else let*? adjustment := signed_adjustment x in ok (try_add result adjustment).

(** The bounds of the dividend, clipped to its dtype ([as i64] wraps), and
    whether it cannot be negative, from its lower bound [low]. *)
Definition dividend_bounds (x : UOp) (low : Z) : option (Z * Z * bool) :=
  let is_unsigned := (low >=? 0) || DType.is_unsigned (uop_dtype x) in
  let? (dtype_min, dtype_max) := dtype_bounds_i128 (uop_dtype x) in
  let? high := value_as_i64 (snd (vmin_vmax x)) in
  Some (wrap_s 64 (Z.max low dtype_min), wrap_s 64 (Z.min high dtype_max), is_unsigned).

(** [i64::saturating_abs]. *)
Definition saturating_abs (z : Z) : Z := Z.min (Z.abs z) (2 ^ 63 - 1).

(** The next wider dtype. *)
Definition widened (supported_dtypes : list ScalarDType) (x : UOp) (is_unsigned : bool) (multiplier shift vmin vmax : Z) :
    Build S (option UOp) :=
  match next_integer_dtype (uop_dtype x) with
  | None => ret None
  | Some next_dtype =>
      if bool_decide (DType.base next_dtype ∈ supported_dtypes) && multiplication_fits multiplier vmin vmax next_dtype then
        let* wide := cast x next_dtype in
        let*? product := multiply_shift multiplier shift wide in
        let* result := cast product (uop_dtype x) in
        adjusted is_unsigned x result
      else ret None
  end.

(** Dividing out the power of two first. *)
Definition without_factor (self : UOp -> Z -> Build S (option UOp)) (x : UOp) (divisor : Z) : Build S (option UOp) :=
  let factor := isolate_lowest_one divisor in
  if factor >? 1 then
    let* c := const_like x (ConstValue.Int factor) in
    let* reduced := cdiv x c in
    self reduced (Z.quot divisor factor)
  else ret None.

Definition fast_idiv_step (self : UOp -> Z -> Build S (option UOp)) (supported_dtypes : list ScalarDType)
    (x : UOp) (divisor : Z) (dont_cast : bool) : Build S (option UOp) :=
  match value_as_i64 (fst (vmin_vmax x)) with
  | None => ret None
  | Some low =>
      if divisor <=? 0 then panic
      else
        match dividend_bounds x low with
        | None => ret None
        | Some (vmin, vmax, is_unsigned) =>
            if (vmin >? - divisor) && (vmax <? divisor) then
              let* zero := const_like x (ConstValue.Int 0) in ret (Some zero)
            else
              match magic_unsigned (Z.max vmax (saturating_abs vmin)) divisor with
              | None => ret None
              | Some (multiplier, shift) =>
                  if multiplication_fits multiplier vmin vmax (uop_dtype x) then
                    let*? result := multiply_shift multiplier shift x in adjusted is_unsigned x result
                  else
                    let* nested := without_factor self x divisor in
                    match nested with
                    | Some result => ret (Some result)
                    | None =>
                        if dont_cast then ret None
                        else widened supported_dtypes x is_unsigned multiplier shift vmin vmax
                    end
              end
        end
  end.

(** The recursive call, which does not cast, over what continues below [levels]. *)
Fixpoint fast_idiv_over (base : UOp -> Z -> Build S (option UOp)) (levels : nat) (supported_dtypes : list ScalarDType)
    (x : UOp) (divisor : Z) (dont_cast : bool) : Build S (option UOp) :=
  match levels with
  | O => base x divisor
  | Datatypes.S levels =>
      fast_idiv_step (fun x divisor => fast_idiv_over base levels supported_dtypes x divisor true)
        supported_dtypes x divisor dont_cast
  end.

Definition fast_idiv : list ScalarDType -> UOp -> Z -> bool -> Build S (option UOp) :=
  fast_idiv_over (fun _ _ => panic) 2.

(** The rule of [fast_division_patterns]. *)
Definition fast_division_rule (supported_dtypes : list ScalarDType) (original : UOp) : Build S (option UOp) :=
  match uop_op original with
  | Op.Binary _ BinaryOp.CDiv x d =>
      match uop_op d with
      | Op.Const _ d_val =>
          if DType.is_int (uop_dtype x)
             && (DType.is_unsigned (uop_dtype x)
                 || match value_as_i64 (fst (vmin_vmax x)) with Some v => v >=? 0 | None => false end)
          then
            match value_as_i64 d_val with
            | None => ret None
            | Some divisor =>
                if (divisor >? 0) && negb (is_power_of_two divisor) then fast_idiv supported_dtypes x divisor false
                else ret None
            end
          else ret None
      | _ => ret None
      end
  | _ => ret None
  end.
End FastDiv.
