(* ===== verification/FastDivSpec.v ===== *)
(** * Soundness of division by constants

    [magic_unsigned] finds a multiplier and a shift that compute the quotient
    of every number up to its bound, whenever the multiplier is an [i64];
    [fast_idiv] then builds a node that denotes the truncated quotient. *)

From stdpp Require Import gmap.
From S2P Require Import Prelude F64 DType Cast ConstVal Ops IntView Eval EvalSpec Payload UOp Semantics RangeEval RangeSound.
From S2P Require Import HashCons Rebuild Builder Shape Constructors ConstructorSpec Exact HelperSpec FastDiv.
#[local] Set Default Proof Using "All".

(** ** The magic number *)

(** The excess of a multiple of [d] over [p], and the multiple itself. *)
Lemma round_up p d : 0 < p -> 0 < d ->
  let e := d - 1 - Z.rem (p - 1) d in
  0 <= e < d /\ Z.quot (p + d - 1 - Z.rem (p - 1) d) d * d = p + e /\ 1 <= Z.quot (p + d - 1 - Z.rem (p - 1) d) d.
Proof.
  intros Hp Hd e. unfold e. rewrite Z.rem_mod_nonneg by lia.
  pose proof (Z.mod_pos_bound (p - 1) d Hd) as B. pose proof (Z.div_mod (p - 1) d ltac:(lia)) as E.
  rewrite Z.quot_div_nonneg by lia.
  replace (p + d - 1 - (p - 1) mod d) with (((p - 1) / d + 1) * d) by lia. rewrite Z.div_mul by lia.
  assert (0 <= (p - 1) / d) by (apply Z.div_pos; lia). lia.
Qed.

(** What a multiplier and a shift must satisfy to divide numbers up to [n] by [d]. *)
Definition magic (n d m shift : Z) : Prop :=
  0 <= shift /\ exists e, 0 <= e < d /\ m * d = 2 ^ shift + e /\ (Z.quot (n + 1) d * d - 1) * e < 2 ^ shift.

Lemma magic_search_sound n d : 0 < d -> forall k shift, 0 <= shift ->
  match magic_search k shift (Z.quot (n + 1) d * d - 1) d with
  | Some (m, s) => magic n d m s /\ shift <= s < shift + Z.of_nat k /\ in_s 64 m
  | None => True
  end.
Proof.
  intros Hd. induction k as [| k IH]; intros shift Hs; cbn [magic_search]; [exact Logic.I |]. cbv zeta.
  rewrite Z.shiftl_1_l. assert (Hp : 0 < 2 ^ shift) by now apply Z.pow_pos_nonneg.
  destruct (round_up (2 ^ shift) d Hp Hd) as (B & E & _).
  destruct (Z.ltb_spec ((Z.quot (n + 1) d * d - 1) * (d - 1 - Z.rem (2 ^ shift - 1) d)) (2 ^ shift)) as [L | _].
  - destruct (try_i64 _) as [m |] eqn:Em; [| exact Logic.I]. apply try_i64_Some in Em as [-> Hm].
    split; [| split; [lia | exact Hm]]. split; [exact Hs |]. eexists. split; [exact B |]. split; [exact E | exact L].
  - specialize (IH (shift + 1) ltac:(lia)). destruct (magic_search _ _ _ _) as [[m s] |]; [| exact Logic.I].
    destruct IH as (H1 & H2 & H3). split; [exact H1 |]. split; [lia | exact H3].
Qed.

(** The multiplied dividend stays below the next quotient. *)
Lemma magic_bound n d m shift x :
  0 < d -> d <= n + 1 -> magic n d m shift -> 0 <= x <= n ->
  exists r, 0 <= r < 2 ^ shift /\ x * m = x / d * 2 ^ shift + r /\ (0 < m * d - 2 ^ shift -> 0 < x -> 0 < r).
Proof.
  intros Hd Hn (Hs & e & He & Em & Hc) Hx. rewrite Z.quot_div_nonneg in Hc by lia.
  assert (Hp : 0 < 2 ^ shift) by now apply Z.pow_pos_nonneg. set (p := 2 ^ shift) in *.
  pose proof (Z.div_mod x d ltac:(lia)) as Dx. pose proof (Z.mod_pos_bound x d Hd) as Rx.
  pose proof (Z.div_mod (n + 1) d ltac:(lia)) as Dn. pose proof (Z.mod_pos_bound (n + 1) d Hd) as Rn.
  set (q := x / d) in *. set (c := (n + 1) / d) in *. set (b := x mod d) in *.
  assert (Hq : 0 <= q) by (apply Z.div_pos; lia). assert (Hc1 : 1 <= c) by (apply Z.div_le_lower_bound; lia).
  assert (Qc : q <= c) by (apply Z.div_le_mono; lia).
  (* x m d = x p + x e *)
  assert (T : (x * m - q * p) * d = b * p + x * e) by nia.
  assert (U : b * p + x * e < d * p).
  { destruct (Z.lt_ge_cases x (c * d)) as [L | L].
    - assert (x * e <= (c * d - 1) * e) by (apply Z.mul_le_mono_nonneg_r; lia).
      assert (b * p <= (d - 1) * p) by (apply Z.mul_le_mono_nonneg_r; lia). lia.
    - assert (Eq : q = c) by (apply Z.le_antisymm; [exact Qc | apply Z.div_le_lower_bound; lia]).
      assert (Bx : b <= d - 2) by nia.
      assert (x * e <= (c * d - 1) * e + (b + 1) * e) by nia.
      assert ((b + 1) * e <= (c * d - 1) * e) by (apply Z.mul_le_mono_nonneg_r; nia).
      assert (b * p <= (d - 2) * p) by (apply Z.mul_le_mono_nonneg_r; lia). lia. }
  exists (x * m - q * p). split; [nia |]. split; [lia |]. intros H1 H2.
  assert (0 < x * e) by (apply Z.mul_pos_pos; nia). nia.
Qed.

Lemma magic_quotient n d m shift x :
  0 < d -> d <= n + 1 -> magic n d m shift -> 0 <= x <= n -> Z.shiftr (x * m) shift = x / d.
Proof.
  intros Hd Hn Hm Hx. destruct (magic_bound n d m shift x Hd Hn Hm Hx) as (r & Hr & E & _).
  destruct Hm as [Hs _]. rewrite Z.shiftr_div_pow2, E by exact Hs.
  rewrite Z.div_add_l, (Z.div_small r) by lia. lia.
Qed.

(** For a negative dividend the shift rounds one too low, unless the divisor is a power of two. *)
Lemma magic_quotient_neg n d m shift x :
  0 < d -> d <= n + 1 -> magic n d m shift -> 2 ^ shift < m * d -> - n <= x < 0 ->
  Z.shiftr (x * m) shift + 1 = Z.quot x d.
Proof.
  intros Hd Hn Hm Hne Hx. destruct (magic_bound n d m shift (- x) Hd Hn Hm ltac:(lia)) as (r & Hr & E & Hpos).
  specialize (Hpos ltac:(lia) ltac:(lia)). destruct Hm as [Hs _]. rewrite Z.shiftr_div_pow2 by exact Hs.
  replace (Z.quot x d) with (- (- x / d)) by (rewrite <- Z.quot_div_nonneg, Z.quot_opp_l by lia; lia).
  assert (Ex : x * m = (- (- x / d) - 1) * 2 ^ shift + (2 ^ shift - r)) by lia.
  rewrite Ex, Z.div_add_l, (Z.div_small (2 ^ shift - r)) by lia. lia.
Qed.

(** The search succeeds: a shift of twice the width is always enough, and below
    2^62 the multiplier fits. *)
Lemma magic_search_total nc d : 0 < d -> 0 <= nc -> 2 * nc < 2 ^ 63 -> forall k shift,
  0 <= shift -> shift = 0 \/ 2 ^ (shift - 1) <= nc * (d - 1) -> nc * (d - 1) < 2 ^ (shift + Z.of_nat k - 1) ->
  is_Some (magic_search k shift nc d).
Proof.
  intros Hd H0 Hnc. induction k as [| k IH]; intros shift Hs Hlow Hhigh.
  { destruct Hlow as [-> | Hlow]; [cbn in Hhigh; nia |]. rewrite Nat2Z.inj_0, Z.add_0_r in Hhigh. lia. }
  cbn [magic_search]. cbv zeta. rewrite Z.shiftl_1_l. assert (Hp : 0 < 2 ^ shift) by now apply Z.pow_pos_nonneg.
  destruct (round_up (2 ^ shift) d Hp Hd) as (B & E & P). set (e := d - 1 - Z.rem (2 ^ shift - 1) d) in *.
  destruct (Z.ltb_spec (nc * e) (2 ^ shift)) as [L | L].
  - unfold try_i64, in_i64b. set (m := Z.quot _ d) in *. rewrite (proj2 (Z.leb_le _ m)) by lia.
    enough (m < 2 ^ 63) as Hm by (rewrite (proj2 (Z.ltb_lt _ _) Hm); cbn [andb]; eauto).
    destruct Hlow as [-> | Hlow]; [rewrite Z.pow_0_r in E; nia |].
    replace shift with (shift - 1 + 1) in E by lia.
    destruct (Z.eq_dec shift 0) as [-> | Hn]; [rewrite Z.pow_0_r in E; nia |].
    rewrite Z.pow_add_r, Z.pow_1_r in E by lia. nia.
  - apply IH; [lia | right | now replace (shift + 1 + Z.of_nat k - 1) with (shift + Z.of_nat (Datatypes.S k) - 1) by lia].
    replace (shift + 1 - 1) with shift by lia. transitivity (nc * e); [exact L | apply Z.mul_le_mono_nonneg_l; lia].
Qed.

Lemma bit_length_bound v : 0 <= v -> v < 2 ^ bit_length v /\ 0 <= bit_length v.
Proof.
  intros Hv. unfold bit_length. destruct (Z.eqb_spec v 0) as [-> | Hn]; [cbn; lia |].
  pose proof (Z.log2_nonneg v). pose proof (Z.log2_spec v ltac:(lia)). replace (Z.log2 v + 1) with (Z.succ (Z.log2 v)) by lia. lia.
Qed.

Lemma bit_length_le v w : 0 <= w -> 0 <= v < 2 ^ w -> bit_length v <= w.
Proof.
  intros Hw Hv. unfold bit_length. destruct (Z.eqb_spec v 0) as [-> | Hn]; [lia |].
  pose proof (Z.log2_lt_pow2 v w ltac:(lia)). lia.
Qed.

Lemma magic_unsigned_found vmax d m s :
  0 <= vmax -> magic_unsigned vmax d = Some (m, s) -> 0 < d /\ magic vmax d m s /\ s <= 2 * bit_length vmax /\ in_s 64 m.
Proof.
  intros Hv. unfold magic_unsigned. destruct (Z.leb_spec d 0) as [| Hd]; [discriminate |].
  destruct (Z.ltb_spec vmax 0) as [| _]; [discriminate |]. cbn [orb]. cbv zeta. intros H.
  pose proof (magic_search_sound vmax d Hd (Z.to_nat (2 * bit_length vmax + 1)) 0 ltac:(lia)) as Hm.
  rewrite H in Hm. pose proof (bit_length_bound vmax Hv) as Hb. destruct Hm as (H1 & H2 & H3).
  split; [exact Hd |]. split; [exact H1 |]. split; [lia | exact H3].
Qed.



(** ** Divisors that are not powers of two *)

Definition odd_factor (d : Z) : Prop := exists k y, 0 <= k /\ 1 <= y /\ d = 2 ^ k * (2 * y + 1).

Lemma not_power_odd d : 0 < d -> is_power_of_two d = false -> odd_factor d.
Proof.
  intros Hd H. destruct (odd_part d Hd) as (k & y & Hk & Hy & E). exists k, y. split; [exact Hk |]. split; [| exact E].
  destruct (Z.eq_dec y 0) as [-> | Hn]; [exfalso | lia]. unfold is_power_of_two in H.
  rewrite (proj2 (Z.ltb_lt 0 d) Hd) in H. cbn [andb] in H. apply Z.eqb_neq in H. apply H.
  rewrite E at 1. rewrite isolate_lowest_one_spec by lia. rewrite E. lia.
Qed.

Lemma odd_factor_3 d : odd_factor d -> 3 <= d.
Proof. intros (k & y & Hk & Hy & ->). assert (0 < 2 ^ k) by now apply Z.pow_pos_nonneg. nia. Qed.

Lemma odd_divides_pow2 y s : 0 <= s -> (2 * y + 1 | 2 ^ s) -> (2 * y + 1 | 1).
Proof.
  revert s. apply (natlike_ind (fun s => (2 * y + 1 | 2 ^ s) -> (2 * y + 1 | 1))); [easy |].
  intros s Hs IH H. rewrite Z.pow_succ_r in H by exact Hs. apply IH, (Z.gauss _ 2); [exact H |].
  replace (2 * y + 1) with (1 + y * 2) by lia. rewrite Z.gcd_comm, Z.gcd_add_mult_diag_r. reflexivity.
Qed.

Lemma odd_factor_excess d m s : odd_factor d -> 0 <= s -> m * d <> 2 ^ s.
Proof.
  intros (k & y & Hk & Hy & ->) Hs E.
  assert (H : (2 * y + 1 | 2 ^ s)) by (exists (m * 2 ^ k); lia).
  apply odd_divides_pow2 in H; [| exact Hs]. apply Z.divide_1_r in H. lia.
Qed.

(** ** The choice of the multiplier *)

(** What is known once the range does not decide the quotient and the products
    of the range by the multiplier lie between [lo] and [hi]. *)
Record chosen (vmin vmax d m s lo hi : Z) : Prop := {
  c_odd : odd_factor d;
  c_large : vmin <= - d \/ d <= vmax;
  c_magic : magic (Z.max vmax (saturating_abs vmin)) d m s;
  c_width : in_s 64 vmin /\ in_s 64 vmax;
  c_dtype : (lo = 0 \/ lo = - hi - 1) /\ hi < 2 ^ 64 /\ (lo <> 0 -> hi < 2 ^ 63);
  c_fits : lo <= m * vmin /\ m * vmax <= hi
}.

Section Chosen.
Context (vmin vmax d m s lo hi : Z) (C : chosen vmin vmax d m s lo hi).

Lemma chosen_excess : 2 ^ s < m * d /\ 3 <= d /\ 0 <= s.
Proof.
  destruct C as [O _ [Hs (e & He & E & _)] _ _ _]. pose proof (odd_factor_excess d m s O Hs). pose proof (odd_factor_3 d O). lia.
Qed.

Lemma chosen_positive : 1 <= m.
Proof. pose proof chosen_excess as (H & Hd & Hs). assert (0 < 2 ^ s) by now apply Z.pow_pos_nonneg. nia. Qed.

Lemma chosen_bound : d <= Z.max vmax (saturating_abs vmin) + 1.
Proof. destruct C as [_ L _ _ _ _]. unfold saturating_abs. destruct L; [| lia]. pose proof chosen_excess. destruct C as [_ _ _ [W _] _ _]. unfold in_s in W. lia. Qed.

(** The multiplier is at least two, so the most negative dividend never fits. *)
Lemma chosen_abs X : vmin <= X <= vmax -> Z.abs X <= Z.max vmax (saturating_abs vmin).
Proof.
  intros HX. destruct C as [O _ M [W1 W2] D [F1 F2]]. unfold saturating_abs.
  enough (- 2 ^ 63 < vmin \/ 0 <= X) by lia. destruct (Z.le_gt_cases vmin (- 2 ^ 63)) as [L | L]; [| now left].
  exfalso. pose proof chosen_excess as (Ex & D3 & Hs). pose proof chosen_bound as B. pose proof chosen_positive as P.
  enough (2 <= m) by (unfold in_s in W1; nia). destruct (Z.eq_dec m 1) as [-> |]; [exfalso | lia].
  destruct M as [_ (e & He & E & Hc)]. set (n := Z.max vmax (saturating_abs vmin)) in *.
  rewrite Z.quot_div_nonneg in Hc by lia. assert (H1 : 1 <= (n + 1) / d) by (apply Z.div_le_lower_bound; lia).
  assert ((d - 1) * 1 <= ((n + 1) / d * d - 1) * e) by (apply Z.mul_le_mono_nonneg; nia). lia.
Qed.

Lemma chosen_multiple : m * d <= hi + 1.
Proof.
  pose proof chosen_positive as P. pose proof chosen_excess as (Ex & _ & Hs). assert (0 < 2 ^ s) by now apply Z.pow_pos_nonneg.
  destruct C as [_ L _ _ D [F1 F2]]. destruct L as [L | L].
  - assert (m * d <= m * - vmin) by (apply Z.mul_le_mono_nonneg_l; lia). lia.
  - assert (m * d <= m * vmax) by (apply Z.mul_le_mono_nonneg_l; lia). lia.
Qed.

Lemma chosen_shift : s < 64.
Proof.
  pose proof chosen_excess as (Ex & D3 & Hs). pose proof chosen_multiple. destruct C as [_ _ _ _ D _].
  destruct (Z.lt_ge_cases s 64) as [| Hge]; [assumption |].
  assert (2 ^ 64 <= 2 ^ s) by (apply Z.pow_le_mono_r; lia). lia.
Qed.

Lemma chosen_multiplier : m <= hi.
Proof. pose proof chosen_excess. pose proof chosen_positive. pose proof chosen_multiple. nia. Qed.

Lemma chosen_product X : vmin <= X <= vmax -> lo <= X * m <= hi.
Proof. pose proof chosen_positive. destruct C as [_ _ _ _ _ [F1 F2]]. nia. Qed.

Lemma chosen_quotient X : vmin <= X <= vmax ->
  Z.shiftr (X * m) s + (if X <? 0 then 1 else 0) = Z.quot X d /\ Z.min 0 X <= Z.shiftr (X * m) s <= Z.max 0 X.
Proof.
  intros HX. pose proof (chosen_abs X HX) as A. pose proof chosen_bound as B. pose proof chosen_excess as (Ex & D3 & Hs).
  pose proof (c_magic _ _ _ _ _ _ _ C) as Hm. set (n := Z.max vmax (saturating_abs vmin)) in *. destruct (Z.ltb_spec X 0) as [N | N].
  - rewrite (magic_quotient_neg n d m s X) by (lia || assumption). split; [reflexivity |].
    pose proof (magic_quotient_neg n d m s X ltac:(lia) B Hm Ex ltac:(lia)) as E.
    replace (Z.quot X d) with (- (- X / d)) in E by (rewrite <- Z.quot_div_nonneg, Z.quot_opp_l by lia; lia).
    assert (0 <= - X / d) by (apply Z.div_pos; lia). assert (- X / d < - X) by (apply Z.div_lt; lia). lia.
  - rewrite (magic_quotient n d m s X), Z.quot_div_nonneg by (lia || assumption). split; [lia |].
    assert (0 <= X / d) by (apply Z.div_pos; lia). assert (X / d <= X) by (apply Z.div_le_upper_bound; nia). lia.
Qed.
End Chosen.

(** ** Values of the nodes built *)

Section Values.
Context {M : LibM} {S : Type} `{I : !Interner S} `{Sh : !Shapes S}.
Context (r : env).
Implicit Types s : S.

(** An expression of dtype [t] with value [z]. *)
Definition valued (t : ScalarDType) s (z : Z) (u : UOp) : Prop := expr t s u /\ denote r u = Some z.

Lemma valued_grows t s s' z u : grows s s' -> valued t s z u -> valued t s' z u.
Proof using Type. intros G [H1 H2]. split; [eapply expr_grows; eassumption | exact H2]. Qed.

Lemma valued_fits t s z u : valued t s z u -> fits t z.
Proof using Type. intros [(_ & Wu & Du) Hz]. pose proof (denote_fits r u z Wu Hz) as H. unfold base_of in H. now rewrite Du in H. Qed.

Section Typed.
Context (t : ScalarDType) (Ht : is_Some (int_format t)).

Lemma literal_valued s x z : expr t s x -> in_s 64 z -> fits t z ->
  yields s (const_like x (ConstValue.Int z)) (fun s' u => valued t s' z u).
Proof.
  intros Hx Hz Hf. eapply yields_mono; [now apply (const_like_spec t Ht) |]. intros s' u _ _ [H1 H2].
  rewrite (fits_wrap t Ht z Hf) in H2. split; [exact H1 | apply H2].
Qed.

Lemma small_valued s x z : expr t s x -> 0 <= z <= 127 -> yields s (const_like x (ConstValue.Int z)) (fun s' u => valued t s' z u).
Proof.
  intros Hx Hz. apply literal_valued; [exact Hx | unfold in_s; lia |]. unfold fits, dtype_lo, dtype_hi.
  destruct Ht as [f E]. destruct t; try discriminate E; cbn; lia.
Qed.

(** A binary node with the value the semantics gives it. *)
Lemma binary_valued s op a b u x y z :
  BinaryOp.is_comparison op = false -> is_binary t s op a b u -> denote r a = Some x -> denote r b = Some y ->
  sem_binary op t x y = Some z -> valued t s z u.
Proof using Type.
  intros Hc [Hu E] Hx Hy Hz. split; [exact Hu |]. destruct Hu as (_ & _ & D). destruct u as [i o d].
  cbn [uop_op uop_dtype] in *. subst o d. cbn [denote DType.base]. rewrite Hx, Hy.
  destruct (sem_comparison op x y) as [c |] eqn:Ec; [| exact Hz].
  enough (BinaryOp.is_comparison op = true) by congruence. apply (sem_comparison_op op x y). now exists c.
Qed.

Lemma multiply_shift_spec s value X m k :
  valued t s X value -> 0 <= k < 64 -> in_s 64 m -> fits t m -> fits t (X * m) ->
  yields s (multiply_shift m k value) (on_some (fun s' u => valued t s' (Z.shiftr (X * m) k) u)).
Proof.
  intros Hv Hk Hm Fm Fp. unfold multiply_shift.
  eapply yields_bind; [apply (literal_valued s value m); [apply Hv | exact Hm | exact Fm] |]. intros s1 lit _ G1 Hl.
  apply (valued_grows t _ _ _ _ G1) in Hv.
  eapply finds_obind; [apply finds_ok, (try_mul_spec t Ht s1 value lit); [apply Hv | apply Hl] |]. intros s2 p _ G2 Hp.
  assert (Vp : valued t s2 (X * m) p).
  { eapply (binary_valued _ BinaryOp.Mul); [reflexivity | exact Hp | apply Hv | apply Hl |]. cbn [sem_binary]. now rewrite (fits_wrap t Ht _ Fp). }
  apply (valued_grows t _ _ _ _ G2) in Hv.
  eapply yields_bind; [apply (small_valued s2 value k); [apply Hv | lia] |]. intros s3 sh _ G3 Hs.
  apply (valued_grows t _ _ _ _ G3) in Vp. apply finds_ok.
  eapply builds_mono; [apply (shift_spec t Ht s3 BinaryOp.Shr p sh); [reflexivity | apply Vp | apply Hs] |]. intros s4 u _ _ Hu.
  eapply (binary_valued _ BinaryOp.Shr); [reflexivity | exact Hu | apply Vp | apply Hs |]. cbn [sem_binary].
  rewrite (proj2 (Z.leb_le 0 k)), (proj2 (Z.ltb_lt k 64)) by lia. cbn [andb]. f_equal. apply (fits_wrap t Ht).
  assert (Hz : Z.min 0 (X * m) <= Z.shiftr (X * m) k <= Z.max 0 (X * m)).
  { rewrite Z.shiftr_div_pow2 by lia. assert (0 < 2 ^ k) by (apply Z.pow_pos_nonneg; lia).
    pose proof (Z.div_mod (X * m) (2 ^ k) ltac:(lia)). pose proof (Z.mod_pos_bound (X * m) (2 ^ k) ltac:(lia)). nia. }
  unfold fits in *. pose proof (fits_bounds t Ht). lia.
Qed.

Lemma signed_adjustment_spec s x X :
  valued t s X x -> yields s (signed_adjustment x) (on_some (fun s' u => valued t s' (if X <? 0 then 1 else 0) u)).
Proof.
  intros Hx. unfold signed_adjustment.
  eapply yields_bind; [apply (small_valued s x 0); [apply Hx | lia] |]. intros s1 zero _ G1 H0. apply (valued_grows t _ _ _ _ G1) in Hx.
  eapply finds_obind; [apply finds_ok, (cmp_spec t Ht s1 BinaryOp.Lt x zero); [reflexivity | apply Hx | apply H0] |].
  intros s2 c _ G2 [Hc Oc]. assert (Vc : denote r c = Some (Z.b2z (X <? 0))).
  { destruct c as [i o d]. cbn [uop_op] in Oc. subst o. cbn [denote]. destruct Hx as [_ ->], H0 as [_ ->]. reflexivity. }
  apply (valued_grows t _ _ _ _ G2) in Hx.
  eapply yields_bind; [apply (small_valued s2 x 1); [apply Hx | lia] |]. intros s3 one _ G3 H1. apply (valued_grows t _ _ _ _ G3) in Hx.
  eapply yields_bind; [apply (small_valued s3 x 0); [apply Hx | lia] |]. intros s4 z _ G4 Hz. apply (valued_grows t _ _ _ _ G4) in H1.
  apply finds_ok. eapply builds_mono.
  { apply (where_spec t Ht s4 c one z); [eapply truth_grows; [exact G4 | eapply truth_grows; eassumption] | apply H1 | apply Hz]. }
  intros s5 u _ _ [Hu Ou]. split; [exact Hu |]. destruct u as [i o d]. cbn [uop_op] in Ou. subst o. cbn [denote]. rewrite Vc.
  destruct H1 as [_ E1], Hz as [_ Ez]. destruct (X <? 0); cbn [Z.b2z Z.eqb]; assumption.
Qed.

Lemma adjusted_spec s (is_unsigned : bool) x X result Q q :
  valued t s X x -> valued t s q result -> q + (if X <? 0 then 1 else 0) = Q -> fits t Q ->
  (is_unsigned = true -> 0 <= X) ->
  yields s (adjusted is_unsigned x result) (on_some (fun s' u => valued t s' Q u)).
Proof.
  intros Hx Hq E F Hu. unfold adjusted. destruct is_unsigned.
  - apply yields_ret. cbn [on_some]. specialize (Hu eq_refl). destruct (Z.ltb_spec X 0); [lia |]. now rewrite Z.add_0_r in E; subst q.
  - eapply finds_obind; [apply (signed_adjustment_spec s x X Hx) |]. intros s1 a _ G Ha. apply (valued_grows t _ _ _ _ G) in Hq.
    apply finds_ok. eapply builds_mono; [apply (try_add_spec t Ht s1 result a); [apply Hq | apply Ha] |]. intros s2 u _ _ H.
    eapply (binary_valued _ BinaryOp.Add); [reflexivity | exact H | apply Hq | apply Ha |]. cbn [sem_binary]. f_equal. subst Q. now apply (fits_wrap t Ht).
Qed.

Lemma value_as_i64_of_Z z v : fits t z -> value_as_i64 (of_Z t z) = Some v -> v = z /\ in_s 64 z.
Proof using Ht.
  intros Hf. unfold of_Z. destruct Ht as [[[] w] E]; rewrite E; cbn [value_as_i64].
  - intros [= <-]. split; [reflexivity |]. unfold fits, dtype_lo, dtype_hi in Hf. unfold in_s.
    destruct t; try discriminate E; cbn in Hf; lia.
  - intros H. now apply try_i64_Some in H as [-> ?].
Qed.

Lemma dtype_bounds_i128_t : dtype_bounds_i128 (DType.Scalar t) = Some (dtype_lo t, dtype_hi t).
Proof using Ht. destruct Ht as [f E]. destruct t; try discriminate E; reflexivity. Qed.

Lemma dividend_bounds_spec s x X low vmin vmax is_unsigned :
  valued t s X x -> value_as_i64 (fst (vmin_vmax x)) = Some low -> dividend_bounds x low = Some (vmin, vmax, is_unsigned) ->
  vmin <= X <= vmax /\ in_s 64 vmin /\ in_s 64 vmax /\ fits t vmin /\ fits t vmax /\ (is_unsigned = true -> 0 <= X).
Proof.
  intros Hx Hl Hb. pose proof Hx as [(_ & Wx & Dx) Vx]. unfold dividend_bounds in Hb. rewrite Dx, dtype_bounds_i128_t in Hb.
  destruct (vmin_vmax x) as [lo hi] eqn:E. cbn [fst snd] in *.
  destruct (best_encloses r x (vmin_vmax x) Wx eq_refl) as (l & h & E' & Fl & Fh & Hv). rewrite E in E'. injection E' as -> ->.
  specialize (Hv X Vx). unfold base_of in *. rewrite Dx in *. cbn [DType.base] in *.
  apply (value_as_i64_of_Z l low Fl) in Hl as [-> Wl].
  destruct (value_as_i64 (of_Z t h)) as [high |] eqn:Eh; [| discriminate]. apply (value_as_i64_of_Z h high Fh) in Eh as [-> Wh].
  injection Hb as <- <- <-. rewrite Z.max_l, Z.min_l by (unfold fits in Fl, Fh; lia).
  rewrite !wrap_s_small by (lia || assumption). split; [lia |]. do 4 (split; [assumption |]).
  intros [H | H]%orb_prop; [apply Z.geb_le in H; lia |]. unfold DType.is_unsigned in H. cbn [DType.base] in H.
  pose proof (valued_fits t s X x Hx) as FX. unfold fits, dtype_lo in FX. destruct t; try discriminate H; cbn in FX; lia.
Qed.

Lemma multiplication_fits_spec m vmin vmax :
  multiplication_fits m vmin vmax (DType.Scalar t) = true -> dtype_lo t <= m * vmin /\ m * vmax <= dtype_hi t.
Proof using Ht. unfold multiplication_fits. rewrite dtype_bounds_i128_t. rewrite andb_true_iff, Z.geb_le, Z.leb_le. lia. Qed.
End Typed.

(** ** The rewrite *)

Lemma next_int t t' : next_integer_dtype (DType.Scalar t) = Some t' -> exists n, t' = DType.Scalar n /\ is_Some (int_format n).
Proof using Type. destruct t; cbn; intros [= <-]; eexists; (split; [reflexivity | eexists; reflexivity]). Qed.

Section Rewrite.
Context (t : ScalarDType) (Ht : is_Some (int_format t)).

Lemma chosen_dtype u vmin vmax d m k :
  is_Some (int_format u) -> odd_factor d -> (vmin <= - d \/ d <= vmax) ->
  magic (Z.max vmax (saturating_abs vmin)) d m k -> in_s 64 vmin -> in_s 64 vmax ->
  multiplication_fits m vmin vmax (DType.Scalar u) = true -> chosen vmin vmax d m k (dtype_lo u) (dtype_hi u).
Proof using Type.
  intros Hu O L Hm W1 W2 F. pose proof (fits_bounds u Hu) as (B1 & B2 & B3 & B4 & B5).
  constructor; auto. now apply multiplication_fits_spec.
Qed.

(** What the rewrite promises of the quotient of [X] by [d]. *)
Definition quotient_of s X d (u : UOp) : Prop := valued t s (Z.quot X d) u.

Lemma quot_between X d : 1 <= d -> Z.min 0 X <= Z.quot X d <= Z.max 0 X.
Proof using Type.
  intros Hd. destruct (Z.le_gt_cases 0 X) as [H | H].
  - rewrite Z.quot_div_nonneg by lia. assert (0 <= X / d) by (apply Z.div_pos; lia).
    assert (X / d <= X) by (apply Z.div_le_upper_bound; nia). lia.
  - replace X with (- - X) by lia. rewrite Z.quot_opp_l, Z.quot_div_nonneg by lia.
    assert (0 <= - X / d) by (apply Z.div_pos; lia). assert (- X / d <= - X) by (apply Z.div_le_upper_bound; nia). lia.
Qed.

Lemma between_fits X q : fits t X -> Z.min 0 X <= q <= Z.max 0 X -> fits t q.
Proof using Ht. unfold fits. pose proof (fits_bounds t Ht). lia. Qed.

Section Dividend.
Context (x : UOp) (X vmin vmax d m k : Z) (is_unsigned : bool).
Context (HX : vmin <= X <= vmax) (W1 : in_s 64 vmin) (W2 : in_s 64 vmax) (Hu : is_unsigned = true -> 0 <= X).
Context (O : odd_factor d) (L : vmin <= - d \/ d <= vmax) (Hm : magic (Z.max vmax (saturating_abs vmin)) d m k) (Wm : in_s 64 m).

Lemma same_width_spec s :
  valued t s X x -> multiplication_fits m vmin vmax (DType.Scalar t) = true ->
  yields s (let*? result := multiply_shift m k x in adjusted is_unsigned x result) (on_some (fun s' u => quotient_of s' X d u)).
Proof.
  intros Hx F. pose proof (chosen_dtype t vmin vmax d m k Ht O L Hm W1 W2 F) as C.
  destruct (chosen_quotient _ _ _ _ _ _ _ C X HX) as [EQ Bq]. pose proof (chosen_product _ _ _ _ _ _ _ C X HX) as FP.
  pose proof (chosen_excess _ _ _ _ _ _ _ C) as (_ & D3 & K0). pose proof (chosen_shift _ _ _ _ _ _ _ C) as K1.
  pose proof (chosen_positive _ _ _ _ _ _ _ C). pose proof (chosen_multiplier _ _ _ _ _ _ _ C). pose proof (fits_bounds t Ht).
  eapply finds_obind; [apply (multiply_shift_spec t Ht s x X m k Hx); [lia | exact Wm | unfold fits; lia | exact FP] |].
  intros s1 q _ G Hq. apply (adjusted_spec t Ht s1 is_unsigned x X q _ _ (valued_grows t _ _ _ _ G Hx) Hq EQ); [| exact Hu].
  apply (between_fits X); [eapply valued_fits, Hx | apply quot_between; lia].
Qed.

Lemma widened_spec s supported :
  valued t s X x -> yields s (widened supported x is_unsigned m k vmin vmax) (on_some (fun s' u => quotient_of s' X d u)).
Proof.
  intros Hx. unfold widened. pose proof Hx as [(_ & _ & Dx) Vx]. rewrite Dx.
  destruct (next_integer_dtype (DType.Scalar t)) as [t' |] eqn:En; [| now apply yields_ret].
  apply next_int in En as (n & -> & Hn). destruct (_ && _) eqn:F; [| now apply yields_ret]. apply andb_prop in F as [_ F].
  pose proof (chosen_dtype n vmin vmax d m k Hn O L Hm W1 W2 F) as C.
  destruct (chosen_quotient _ _ _ _ _ _ _ C X HX) as [EQ Bq]. pose proof (chosen_product _ _ _ _ _ _ _ C X HX) as FP.
  pose proof (chosen_excess _ _ _ _ _ _ _ C) as (_ & D3 & K0). pose proof (chosen_shift _ _ _ _ _ _ _ C) as K1.
  pose proof (chosen_positive _ _ _ _ _ _ _ C) as P. pose proof (chosen_multiplier _ _ _ _ _ _ _ C). pose proof (fits_bounds n Hn).
  assert (FX : fits n X) by (unfold fits; nia). pose proof (valued_fits t s X x Hx) as FtX.
  eapply yields_bind; [apply (cast_spec t Ht s x n Hn), Hx |]. intros s1 wide _ G1 (Tw & Ww & Dw & Vw).
  assert (Hw : valued n s1 X wide).
  { split; [now split |]. rewrite (Vw M r X Vx). f_equal. now apply (fits_wrap n Hn). }
  eapply finds_obind; [apply (multiply_shift_spec n Hn s1 wide X m k Hw); [lia | exact Wm | unfold fits; lia | exact FP] |].
  intros s2 p _ G2 Hp. eapply yields_bind; [apply (cast_spec n Hn s2 p t Ht), Hp |]. intros s3 q _ G3 (Tq & Wq & Dq & Vq).
  assert (Fq : fits t (Z.shiftr (X * m) k)) by now apply (between_fits X).
  assert (Hq : valued t s3 (Z.shiftr (X * m) k) q).
  { split; [now split |]. destruct Hp as [_ Ep]. rewrite (Vq M r _ Ep). f_equal. now apply (fits_wrap t Ht). }
  assert (G : grows s s3) by (intros v Hv; now apply G3, G2, G1).
  apply (adjusted_spec t Ht s3 is_unsigned x X q _ _ (valued_grows t _ _ _ _ G Hx) Hq EQ); [| exact Hu].
  apply (between_fits X); [exact FtX | apply quot_between; lia].
Qed.
End Dividend.

(** The recursive call divides by an odd number. *)
Definition divides_odd (self : UOp -> Z -> Build S (option UOp)) : Prop := forall s x X y,
  valued t s X x -> 1 <= y -> yields s (self x (2 * y + 1)) (on_some (fun s' u => quotient_of s' X (2 * y + 1) u)).

Lemma odd_isolate y : 0 <= y -> isolate_lowest_one (2 * y + 1) = 1.
Proof using Type. intros Hy. replace (2 * y + 1) with (2 ^ 0 * (2 * y + 1)) by lia. now apply isolate_lowest_one_spec. Qed.

Lemma without_factor_odd self x y : 0 <= y -> without_factor self x (2 * y + 1) = ret None.
Proof using Type. intros Hy. unfold without_factor. now rewrite odd_isolate. Qed.

Lemma without_factor_spec self s x X vmin vmax d :
  divides_odd self -> valued t s X x -> odd_factor d -> vmin <= - d \/ d <= vmax -> in_s 64 vmin -> in_s 64 vmax ->
  fits t vmin -> fits t vmax ->
  yields s (without_factor self x d) (on_some (fun s' u => quotient_of s' X d u)).
Proof.
  intros Hself Hx (k & y & Hk & Hy & ->) L W1 W2 B1 B2. unfold without_factor. rewrite isolate_lowest_one_spec by lia.
  assert (Hp : 0 < 2 ^ k) by now apply Z.pow_pos_nonneg. set (f := 2 ^ k) in *.
  destruct (f >? 1); [| now apply yields_ret]. pose proof (fits_bounds t Ht) as FB. unfold in_s in W1, W2. unfold fits in B1, B2.
  assert (Bf : 3 * f <= f * (2 * y + 1)) by nia.
  eapply yields_bind; [apply (literal_valued t Ht s x f); [apply Hx | unfold in_s; lia | unfold fits; lia] |].
  intros s1 c _ G1 Hc. apply (valued_grows t _ _ _ _ G1) in Hx.
  eapply yields_bind; [apply (cdiv_spec t Ht s1 x c); [apply Hx | apply Hc] |]. intros s2 reduced _ G2 Hr.
  assert (Vr : valued t s2 (Z.quot X f) reduced).
  { eapply (binary_valued t _ BinaryOp.CDiv); [reflexivity | exact Hr | apply Hx | apply Hc |]. cbn [sem_binary].
    rewrite (proj2 (Z.eqb_neq f 0)) by lia. f_equal. apply (fits_wrap t Ht), (between_fits X); [eapply valued_fits, Hx | apply quot_between; lia]. }
  replace (Z.quot (f * (2 * y + 1)) f) with (2 * y + 1) by (rewrite (Z.mul_comm f), Z.quot_mul; lia).
  eapply finds_mono; [now apply (Hself s2 reduced (Z.quot X f) y) |]. intros s3 u _ _ H. unfold quotient_of in *.
  now rewrite Z.quot_quot in H by lia.
Qed.


Lemma fast_idiv_step_spec self supported s x X d dont_cast :
  divides_odd self \/ (exists y, d = 2 * y + 1) -> valued t s X x -> odd_factor d ->
  yields s (fast_idiv_step self supported x d dont_cast) (on_some (fun s' u => quotient_of s' X d u)).
Proof.
  intros Hself Hx O. unfold fast_idiv_step. pose proof (odd_factor_3 d O) as D3.
  destruct (value_as_i64 _) as [low |] eqn:El; [| now apply yields_ret].
  destruct (Z.leb_spec d 0) as [| _]; [lia |].
  destruct (dividend_bounds x low) as [[[vmin vmax] uns] |] eqn:Eb; [| now apply yields_ret].
  destruct (dividend_bounds_spec t Ht s x X low vmin vmax uns Hx El Eb) as (HX & W1 & W2 & B1 & B2 & Hu).
  destruct (_ && _) eqn:Small.
  { apply andb_prop in Small as [L1%Z.gtb_lt L2%Z.ltb_lt].
    eapply yields_bind; [apply (small_valued t Ht s x 0); [apply Hx | lia] |]. intros s1 z _ G Hz. apply yields_ret.
    assert (E : Z.quot X d = 0); [| unfold quotient_of; cbn [on_some]; now rewrite E].
    apply Z.quot_small_iff; lia. }
  assert (L : vmin <= - d \/ d <= vmax).
  { apply andb_false_iff in Small as [H | H]; [left; rewrite Z.gtb_ltb in H; apply Z.ltb_ge in H; lia | right; now apply Z.ltb_ge in H]. }
  destruct (magic_unsigned _ d) as [[m k] |] eqn:Em; [| now apply yields_ret].
  apply magic_unsigned_found in Em as (_ & Hm & _ & Wm); [| unfold saturating_abs; lia].
  pose proof Hx as [(_ & _ & Dx) _]. rewrite Dx. destruct (multiplication_fits _ _ _ _) eqn:F.
  { now apply (same_width_spec x X vmin vmax d m k uns). }
  eapply yields_bind with (P := on_some (fun s' u => quotient_of s' X d u)).
  { destruct Hself as [Hself | [y ->]]; [now apply (without_factor_spec self s x X vmin vmax) |].
    rewrite without_factor_odd by lia. now apply yields_ret. }
  intros s1 [u |] _ G Hq; [now apply yields_ret |]. destruct dont_cast; [now apply yields_ret |].
  apply (widened_spec x X vmin vmax d m k uns); auto. eapply valued_grows; eassumption.
Qed.

Lemma fast_idiv_spec base supported s x X d dont_cast :
  valued t s X x -> odd_factor d ->
  yields s (fast_idiv_over base 2 supported x d dont_cast) (on_some (fun s' u => quotient_of s' X d u)).
Proof.
  intros Hx O. apply fast_idiv_step_spec; [left | exact Hx | exact O]. intros s' x' X' y Hx' Hy.
  apply fast_idiv_step_spec; [right; now exists y | exact Hx' |]. exists 0, y. lia.
Qed.
End Rewrite.

(** ** Two levels are enough *)

Lemma fast_idiv_odd base base' n n' supported x y dont_cast :
  0 <= y -> fast_idiv_over base (Datatypes.S n) supported x (2 * y + 1) dont_cast =
            fast_idiv_over base' (Datatypes.S n') supported x (2 * y + 1) dont_cast.
Proof using Type. intros Hy. cbn [fast_idiv_over]. unfold fast_idiv_step. now rewrite !without_factor_odd by exact Hy. Qed.

Lemma fast_idiv_step_ext self self' supported x d dont_cast s :
  without_factor self x d s = without_factor self' x d s ->
  fast_idiv_step self supported x d dont_cast s = fast_idiv_step self' supported x d dont_cast s.
Proof using Type.
  intros E. unfold fast_idiv_step. destruct (value_as_i64 _); [| reflexivity]. destruct (_ <=? 0); [reflexivity |].
  destruct (dividend_bounds _ _) as [[[? ?] ?] |]; [| reflexivity]. destruct (_ && _); [reflexivity |].
  destruct (magic_unsigned _ _) as [[? ?] |]; [| reflexivity]. destruct (multiplication_fits _ _ _ _); [reflexivity |].
  now apply bind_ext.
Qed.

(** The recursion of [fast_idiv] ends after two levels: they give the same
    computation whatever would happen below them, and however many more are
    allowed. *)
Theorem fast_idiv_levels base n supported x d dont_cast s :
  fast_idiv_over base (2 + n) supported x d dont_cast s = fast_idiv supported x d dont_cast s.
Proof using Type.
  unfold fast_idiv. destruct (Z.le_gt_cases d 0) as [Hd | Hd].
  { cbn [Nat.add fast_idiv_over]. unfold fast_idiv_step. now rewrite (proj2 (Z.leb_le d 0) Hd). }
  destruct (odd_part d Hd) as (k & y & Hk & Hy & ->). apply fast_idiv_step_ext.
  unfold without_factor. rewrite isolate_lowest_one_spec by lia. assert (Hp : 0 < 2 ^ k) by now apply Z.pow_pos_nonneg.
  destruct (_ >? 1); [| reflexivity]. apply bind_ext; [reflexivity |]. intros s1 c _. apply bind_ext; [reflexivity |]. intros s2 u _.
  replace (Z.quot (2 ^ k * (2 * y + 1)) (2 ^ k)) with (2 * y + 1) by (rewrite (Z.mul_comm (2 ^ k)), Z.quot_mul; lia).
  exact (f_equal (fun m => m s2) (fast_idiv_odd base (fun _ _ => panic) n 0 supported u y true Hy)).
Qed.

(** C10: Rewriting a division by a constant that is not a power of two keeps the value:
    the new node denotes the truncated quotient wherever the old one has a value,
    and has its dtype. *)
Theorem fast_division_sound supported s u x d s' v z :
  settled s -> table s u -> int_wt u = true -> uop_op u = Op.Binary UOp BinaryOp.CDiv x d ->
  uop_dtype x = DType.Scalar (base_of u) -> uop_dtype u = DType.Scalar (base_of u) ->
  fast_division_rule supported u s = Some (s', Some v) -> denote r u = Some z ->
  denote r v = Some z /\ settled s' /\ table s' v /\ int_wt v = true /\ uop_dtype v = uop_dtype u.
Proof using Type.
  intros Hs Tu Wu Eu Dx Du Hrun Hz. set (t := base_of u) in *. unfold fast_division_rule in Hrun. rewrite Eu, Dx in Hrun.
  destruct (uop_op d) as [] eqn:Ed; try discriminate Hrun.
  destruct (DType.is_int (DType.Scalar t) && _) eqn:Ei; [| discriminate Hrun]. apply andb_prop in Ei as [Ei _].
  assert (Ht : is_Some (int_format t)) by (destruct t; try discriminate Ei; eexists; reflexivity).
  destruct (value_as_i64 value) as [divisor |] eqn:Ev; [| discriminate Hrun].
  destruct ((divisor >? 0) && negb (is_power_of_two divisor)) eqn:Eg; [| discriminate Hrun].
  apply andb_prop in Eg as [Dp%Z.gtb_lt Np%negb_true_iff].
  assert (Tx : table s x) by (apply (table_source s u); [assumption.. | unfold children; rewrite Eu; now left]).
  destruct u as [i op dt]. cbn [uop_op uop_dtype base_of] in *. subst op. cbn [int_wt BinaryOp.is_comparison] in Wu.
  split_wt Wu. destruct Wu as [_ [[Wx Bx] [Wd Bd]]]. fold t in Bx, Bd.
  assert (Vd : denote r d = Some divisor).
  { destruct d as [j op dd]. cbn [uop_op] in Ed. subst op. cbn [int_wt] in Wd. apply andb_prop in Wd as [_ Wd].
    apply const_has_spec in Wd as (y & Fy & -> & Ey). cbn [base_of uop_dtype] in Bd, Fy, Ev, Ey. unfold base_of in Bd. cbn [uop_dtype] in Bd.
    rewrite Bd in *. cbn [denote]. rewrite Ey. f_equal. apply (value_as_i64_of_Z t Ht) in Ev as [-> _]; auto. }
  cbn [denote] in Hz. destruct (denote r x) as [X |] eqn:Vx; [| discriminate Hz]. rewrite Vd in Hz. cbn [sem_comparison sem_binary] in Hz.
  rewrite (proj2 (Z.eqb_neq divisor 0)) in Hz by lia. injection Hz as <-.
  assert (Hx : valued t s X x) by (split; [now split |]; exact Vx).
  destruct (fast_idiv_spec t Ht (fun _ _ => panic) supported s x X divisor false Hx (not_power_odd _ Dp Np) Hs s' _ Hrun)
    as (Hs' & _ & Hv). destruct Hv as [(Tv & Wv & Dv) Vv]. split; [| split; [exact Hs' |]; split; [exact Tv |]; split; [exact Wv |]].
  - rewrite Vv. f_equal. symmetry. apply (fits_wrap t Ht). apply (between_fits t Ht X); [eapply valued_fits, Hx |]. apply quot_between. lia.
  - rewrite Dv. symmetry. exact Du.
Qed.
End Values.
