(* ===== verification/FastDivDemo.v ===== *)
(** * Division by constants on concrete expressions

    A product that fits the dtype, one that needs the wider dtype, and a
    divisor whose power of two is divided out first. *)

From stdpp Require Import gmap.
From S2P Require Import Prelude F64 DType Cast ConstVal Ops IntView Eval EvalSpec Payload UOp Semantics RangeEval.
From S2P Require Import HashCons Builder Shape Constructors ConstructorSpec FastDiv FastDivSpec DivModDemo.
Import DivisionDemo.

Module FastDivDemo.
(** [i cdiv d] for [i] in [0, hi]. *)
Definition division (t : ScalarDType) (hi d : Z) : Build Uops.t UOp :=
  let* i := var (DType.Scalar t) "i" 0 hi in
  let* c := lit (DType.Scalar t) d in
  op_node (DType.Scalar t) BinaryOp.CDiv i c.

Definition answer (supported : list ScalarDType) (m : Build Uops.t UOp) : Uops.t * UOp :=
  match fast_division_rule supported (node m) (state m) with Some (s, Some v) => (s, v) | _ => (Uops.empty, nothing) end.

Definition operand (u : UOp) (k : nat) : UOp := nth k (children u) u.
End FastDivDemo.
Import FastDivDemo.

Lemma division_built t hi d : yields Uops.empty (division t hi d) (fun s u => table s u).
Proof. unfold division. build_step. Qed.

(** [2000000000 cdiv 7] over [i32], through [i64]. *)
Lemma fast_division_sound_witness :
  let m := division Int32 2000000000 7 in
  let r := inputs [("i"%string, 1999999999)] in
  denote r (node m) = Some 285714285 /\ denote r (snd (answer [Int64] m)) = Some 285714285.
Proof.
  cbv zeta. split; [vm_compute; reflexivity |].
  destruct (state_settled (division Int32 2000000000 7) (division_built _ _ _)) as [Hs Ht]; [vm_compute; now eexists |].
  refine (proj1 (fast_division_sound (inputs [("i"%string, 1999999999)]) [Int64] _ _ (operand (node (division Int32 2000000000 7)) 0)
    (operand (node (division Int32 2000000000 7)) 1) (fst (answer [Int64] (division Int32 2000000000 7)))
    (snd (answer [Int64] (division Int32 2000000000 7))) 285714285 Hs Ht _ _ _ _ _ _)); vm_compute; reflexivity.
Defined.

(** Without the wider dtype the same division is left alone, and a small range
    needs none. *)
Example division_needs_width :
  let run supported m := option_map snd (fast_division_rule supported (node m) (state m)) in
  run [] (division Int32 2000000000 7) = Some None /\
  option_map (denote (inputs [("i"%string, 250)])) (from_option id None (run [] (division Int32 255 7))) = Some (Some 35).
Proof. vm_compute. repeat split. Qed.

(** Dividing out the power of two does not help: the best-effort range has no
    rule for [CDiv], so the reduced dividend has the range of its dtype and the
    recursive call declines, although the multiplier of its real range fits. *)
Example factor_step_declines :
  let m := division Int32 65535 12 in
  option_map snd (fast_division_rule [] (node m) (state m)) = Some None /\
  match without_factor (fun x d => ret (Some x)) (operand (node m) 0) 12 (state m) with
  | Some (_, Some reduced) => vmin_vmax reduced = (ConstValue.Int (- 2 ^ 31), ConstValue.Int (2 ^ 31 - 1))
  | _ => False
  end /\
  exists k, magic_unsigned (65535 / 4) 3 = Some (10923, k) /\ multiplication_fits 10923 0 (65535 / 4) (DType.Scalar Int32) = true.
Proof. vm_compute. split; [reflexivity |]. split; [reflexivity |]. exists 15. now split. Qed.
