(* ===== verification/Wire.v ===== *)
(** * The wire format of graphs ([ir/src/uop/wire.rs])

    A graph is written as a list of nodes in dependency order, the operands of
    a node by their positions.  Encoding reads the nodes of the intern table;
    decoding builds them again through the constructor, checking every hash.
    The messages of [CanonicalSerialization] are the constructors of
    [WireError]. *)

From stdpp Require Import gmap.
From S2P Require Import Prelude F64 DType Cast ConstVal Ops Payload UOp HashCons Traverse.

Definition OPTIMIZER_WIRE_SCHEMA_VERSION : Z := 4.

Module WireOp.
Inductive t :=
| Const (value : ConstValue)
| Unique (id : Z)
| LUnique (id : Z)
| Noop
| Sink (info : option KernelInfo.t)
| Group
| Unary (op : UnaryOp)
| Binary (op : BinaryOp)
| Ternary (op : TernaryOp)
| Cast (dtype : DType)
| BitCast (dtype : DType)
| MSelect (device_index : Z)
| Special (name : string)
| Param (arg : ParamArg.t)
| Buffer (arg : ParamArg.t)
| Slice (size : Z)
| Stage (opts : BufferizeOpts.t)
| Index
| GetAddr (device : DeviceSpec)
| Copy (device : DeviceSpec)
| MStack
| Reshape
| Permute (axes : list Z)
| Expand
| Pad
| Shrink
| Flip (axes : list bool)
| Multi (axis : Z)
| ReduceAxis (reduce_op : ReduceOp) (axes : list Z)
| Reduce (reduce_op : ReduceOp) (num_axes : Z)
| AllReduce (device : DeviceSpec) (reduce_op : ReduceOp)
| If
| EndIf
| Range (axis_id : AxisId) (axis_type : AxisType)
| End
| Barrier (fence : BarrierFence)
| Stack
| VConst (values : list ConstValue)
| DefineVar (name : string) (min_val max_val : Z)
| Bind
| Wmma (metadata : WmmaMetadata.t)
| Call (info : CallInfo.t)
| Function (info : CallInfo.t)
| Tuple
| GetTuple (index : Z)
| Detach
| Contiguous (opts : list ContiguousHint.t)
| ContiguousBackward
| After
| Precast
| Custom (code : string)
| CustomFunction (kind : CustomFunctionKind)
| CustomI (code : string)
| Load (gated : bool)
| Store (gated : bool)
| Ins (arg : InsArg.t).
End WireOp.

Inductive WireError :=
| Cycle
| TypeErasedMetadata (id : Z)
| ExecutableStage
| MismatchedLoad
| SourceCount (expected got : Z)
| NoSource
| UnsupportedSchema (version : Z)
| NotDependencyFirst (index source : Z)
| ContentHashChanged (index encoded decoded : Z)
| InvalidRoot (root : Z)
| RootCount (got : Z).

Module WireNode.
Record t := mk {
  dtype : DType; tag : option (list Z); origin : option Z; content_hash : Z; op : WireOp.t; src : list Z
}.
End WireNode.

Module WireGraph.
Record t := mk { schema_version : Z; roots : list Z; nodes : list WireNode.t }.
End WireGraph.

(** ** Operations *)

Definition from_op {A} (op : Op A) : WireOp.t + WireError :=
  match op with
  | Op.Const _ value => inl (WireOp.Const value)
  | Op.Unique _ value => inl (WireOp.Unique value)
  | Op.LUnique _ value => inl (WireOp.LUnique value)
  | Op.Noop _ => inl WireOp.Noop
  | Op.Sink _ _ info => inl (WireOp.Sink info)
  | Op.Group _ _ => inl WireOp.Group
  | Op.Unary _ op _ => inl (WireOp.Unary op)
  | Op.Binary _ op _ _ => inl (WireOp.Binary op)
  | Op.Ternary _ op _ _ _ => inl (WireOp.Ternary op)
  | Op.Cast _ _ dtype => inl (WireOp.Cast dtype)
  | Op.BitCast _ _ dtype => inl (WireOp.BitCast dtype)
  | Op.MSelect _ _ device_index => inl (WireOp.MSelect device_index)
  | Op.Special _ _ name => inl (WireOp.Special name)
  | Op.Param _ _ arg => inl (WireOp.Param arg)
  | Op.Buffer _ _ arg => inl (WireOp.Buffer arg)
  | Op.Slice _ _ _ size => inl (WireOp.Slice size)
  | Op.Stage _ _ _ opts => inl (WireOp.Stage opts)
  | Op.Index _ _ _ => inl WireOp.Index
  | Op.GetAddr _ _ device => inl (WireOp.GetAddr device)
  | Op.Copy _ _ device => inl (WireOp.Copy device)
  | Op.MStack _ _ => inl WireOp.MStack
  | Op.Reshape _ _ _ => inl WireOp.Reshape
  | Op.Permute _ _ axes => inl (WireOp.Permute axes)
  | Op.Expand _ _ _ => inl WireOp.Expand
  | Op.Pad _ _ _ _ => inl WireOp.Pad
  | Op.Shrink _ _ _ _ => inl WireOp.Shrink
  | Op.Flip _ _ axes => inl (WireOp.Flip axes)
  | Op.Multi _ _ axis => inl (WireOp.Multi axis)
  | Op.ReduceAxis _ _ reduce_op axes => inl (WireOp.ReduceAxis reduce_op axes)
  | Op.Reduce _ _ _ reduce_op num_axes => inl (WireOp.Reduce reduce_op num_axes)
  | Op.AllReduce _ _ device reduce_op => inl (WireOp.AllReduce device reduce_op)
  | Op.If _ _ _ => inl WireOp.If
  | Op.EndIf _ _ => inl WireOp.EndIf
  | Op.Range _ _ axis_id axis_type _ => inl (WireOp.Range axis_id axis_type)
  | Op.End _ _ _ => inl WireOp.End
  | Op.Barrier _ _ _ fence => inl (WireOp.Barrier fence)
  | Op.Stack _ _ => inl WireOp.Stack
  | Op.Shuffle _ _ _ => inl WireOp.Stack
  | Op.VConst _ values => inl (WireOp.VConst values)
  | Op.DefineVar _ name min_val max_val => inl (WireOp.DefineVar name min_val max_val)
  | Op.Bind _ _ _ => inl WireOp.Bind
  | Op.Wmma _ _ _ _ metadata => inl (WireOp.Wmma metadata)
  | Op.Call _ _ _ info => inl (WireOp.Call info)
  | Op.Function _ _ _ info => inl (WireOp.Function info)
  | Op.Tuple _ _ => inl WireOp.Tuple
  | Op.GetTuple _ _ index => inl (WireOp.GetTuple index)
  | Op.Detach _ _ => inl WireOp.Detach
  | Op.Contiguous _ _ opts => inl (WireOp.Contiguous opts)
  | Op.ContiguousBackward _ _ => inl WireOp.ContiguousBackward
  | Op.After _ _ _ => inl WireOp.After
  | Op.Precast _ _ => inl WireOp.Precast
  | Op.Custom _ _ code => inl (WireOp.Custom code)
  | Op.CustomFunction _ kind _ => inl (WireOp.CustomFunction kind)
  | Op.CustomI _ _ code => inl (WireOp.CustomI code)
  | Op.Load _ _ alt gate =>
      let present {B} (o : option B) := match o with Some _ => true | None => false end in
      if negb (Bool.eqb (present alt) (present gate)) then inr MismatchedLoad
      else inl (WireOp.Load (present alt))
  | Op.Store _ _ _ gate => inl (WireOp.Store (match gate with Some _ => true | None => false end))
  | Op.Ins _ _ arg => inl (WireOp.Ins arg)
  | Op.Program _ _ _ _ _ _ | Op.Linear _ _ | Op.Source _ _ _ | Op.ProgramBinary _ _ _ => inr ExecutableStage
  end.

(** [exact] and [nonempty], with the operands they leave. *)
Section Arity.
Context {A : Type}.
Definition wrong (expected : Z) (src : list A) : Op A + WireError :=
  inr (SourceCount expected (Z.of_nat (List.length src))).
Definition exact0 (src : list A) (op : Op A) : Op A + WireError :=
  match src with [] => inl op | _ => wrong 0 src end.
Definition exact1 (src : list A) (op : A -> Op A) : Op A + WireError :=
  match src with [a] => inl (op a) | _ => wrong 1 src end.
Definition exact2 (src : list A) (op : A -> A -> Op A) : Op A + WireError :=
  match src with [a; b] => inl (op a b) | _ => wrong 2 src end.
Definition exact3 (src : list A) (op : A -> A -> A -> Op A) : Op A + WireError :=
  match src with [a; b; c] => inl (op a b c) | _ => wrong 3 src end.
Definition nonempty (src : list A) (op : A -> list A -> Op A) : Op A + WireError :=
  match src with [] => inr NoSource | a :: rest => inl (op a rest) end.

Definition to_op (self : WireOp.t) (src : list A) : Op A + WireError :=
  match self with
  | WireOp.Const v => exact0 src (Op.Const A v)
  | WireOp.Unique v => exact0 src (Op.Unique A v)
  | WireOp.LUnique v => exact0 src (Op.LUnique A v)
  | WireOp.Noop => exact0 src (Op.Noop A)
  | WireOp.Sink info => inl (Op.Sink A src info)
  | WireOp.Group => inl (Op.Group A src)
  | WireOp.Unary op => exact1 src (Op.Unary A op)
  | WireOp.Binary op => exact2 src (Op.Binary A op)
  | WireOp.Ternary op => exact3 src (Op.Ternary A op)
  | WireOp.Cast dtype => exact1 src (fun a => Op.Cast A a dtype)
  | WireOp.BitCast dtype => exact1 src (fun a => Op.BitCast A a dtype)
  | WireOp.MSelect index => exact1 src (fun a => Op.MSelect A a index)
  | WireOp.Special name => exact1 src (fun a => Op.Special A a name)
  | WireOp.Param arg => exact1 src (fun a => Op.Param A a arg)
  | WireOp.Buffer arg => exact1 src (fun a => Op.Buffer A a arg)
  | WireOp.Slice size => exact2 src (fun a b => Op.Slice A a b size)
  | WireOp.Stage opts => nonempty src (fun a rest => Op.Stage A a rest opts)
  | WireOp.Index => nonempty src (Op.Index A)
  | WireOp.GetAddr device => exact1 src (fun a => Op.GetAddr A a device)
  | WireOp.Copy device => exact1 src (fun a => Op.Copy A a device)
  | WireOp.MStack => inl (Op.MStack A src)
  | WireOp.Reshape => exact2 src (Op.Reshape A)
  | WireOp.Permute axes => exact1 src (fun a => Op.Permute A a axes)
  | WireOp.Expand => exact2 src (Op.Expand A)
  | WireOp.Pad => exact3 src (Op.Pad A)
  | WireOp.Shrink => exact3 src (Op.Shrink A)
  | WireOp.Flip axes => exact1 src (fun a => Op.Flip A a axes)
  | WireOp.Multi axis => exact1 src (fun a => Op.Multi A a axis)
  | WireOp.ReduceAxis op axes => exact1 src (fun a => Op.ReduceAxis A a op axes)
  | WireOp.Reduce op num_axes => nonempty src (fun a rest => Op.Reduce A a rest op num_axes)
  | WireOp.AllReduce device op => exact1 src (fun a => Op.AllReduce A a device op)
  | WireOp.If => nonempty src (Op.If A)
  | WireOp.EndIf => exact1 src (Op.EndIf A)
  | WireOp.Range axis ty => nonempty src (fun a rest => Op.Range A a axis ty rest)
  | WireOp.End => nonempty src (Op.End A)
  | WireOp.Barrier fence => nonempty src (fun a rest => Op.Barrier A a rest fence)
  | WireOp.Stack => inl (Op.Stack A src)
  | WireOp.VConst values => exact0 src (Op.VConst A values)
  | WireOp.DefineVar name min max => exact0 src (Op.DefineVar A name min max)
  | WireOp.Bind => exact2 src (Op.Bind A)
  | WireOp.Wmma metadata => exact3 src (fun a b c => Op.Wmma A a b c metadata)
  | WireOp.Call info => nonempty src (fun a rest => Op.Call A a rest info)
  | WireOp.Function info => nonempty src (fun a rest => Op.Function A a rest info)
  | WireOp.Tuple => inl (Op.Tuple A src)
  | WireOp.GetTuple index => exact1 src (fun a => Op.GetTuple A a index)
  | WireOp.Detach => exact1 src (Op.Detach A)
  | WireOp.Contiguous opts => exact1 src (fun a => Op.Contiguous A a opts)
  | WireOp.ContiguousBackward => exact1 src (Op.ContiguousBackward A)
  | WireOp.After => nonempty src (Op.After A)
  | WireOp.Precast => exact1 src (Op.Precast A)
  | WireOp.Custom code => inl (Op.Custom A src code)
  | WireOp.CustomFunction kind => inl (Op.CustomFunction A kind src)
  | WireOp.CustomI code => inl (Op.CustomI A src code)
  | WireOp.Load gated =>
      if gated then exact3 src (fun a b c => Op.Load A a (Some b) (Some c))
      else exact1 src (fun a => Op.Load A a None None)
  | WireOp.Store gated =>
      if gated then exact3 src (fun a b c => Op.Store A a b (Some c))
      else exact2 src (fun a b => Op.Store A a b None)
  | WireOp.Ins arg => inl (Op.Ins A src arg)
  end.
End Arity.

(** ** Encoding *)
Section Encode.
Context (st : Uops.t).

(** [metadata_raw().is_some()]. *)
Definition has_metadata (u : UOp) : bool :=
  match find_node st (uid u) with Some n => Node.metadata n | None => false end.

Definition executable_stage (op : Op UOp) : bool :=
  match op with
  | Op.Program _ _ _ _ _ _ | Op.Linear _ _ | Op.Source _ _ _ | Op.ProgramBinary _ _ _ => true
  | _ => false
  end.

(** The depth-first search of [from_roots], an expanded entry being revisited
    after its children. *)
Fixpoint collect_topo (fuel : nat) (stack : list (UOp * bool)) (visited active : gset Z) (topo : list UOp) :
    option (list UOp + WireError) :=
  match fuel with
  | O => None
  | S fuel =>
      match stack with
      | [] => Some (inl topo)
      | (node, true) :: stack =>
          let active := active ∖ {[uid node]} in
          if is_visited visited node then collect_topo fuel stack visited active topo
          else collect_topo fuel stack ({[uid node]} ∪ visited) active (topo ++ [node])
      | (node, false) :: stack =>
          if is_visited visited node then collect_topo fuel stack visited active topo
          else if bool_decide (uid node ∈ active) then Some (inr Cycle)
          else if has_metadata node then Some (inr (TypeErasedMetadata (uid node)))
          else if executable_stage (uop_op node) then Some (inr ExecutableStage)
          else
            collect_topo fuel (map (fun c => (c, false)) (children node) ++ (node, true) :: stack)
              visited ({[uid node]} ∪ active) topo
      end
  end.

(** Enough iterations: every node is expanded once, every edge pops once. *)
Definition wire_fuel (roots : list UOp) : nat :=
  S (List.length roots + sum_list_with (fun u => expansion_cost children (nodes u)) roots).

Definition positions (topo : list UOp) : gmap Z Z :=
  fold_left (fun ids '(id, node) => <[uid node := id]> ids) (zip (seqZ 0 (Z.of_nat (List.length topo))) topo) ∅.

(** [ids[&child.id]]; [None] is a panic. *)
Definition position (ids : gmap Z Z) (u : UOp) : option Z := ids !! uid u.

Definition encode_node (ids : gmap Z Z) (node : UOp) : option (WireNode.t + WireError) :=
  let? n := find_node st (uid node) in
  match from_op (uop_op node) with
  | inr e => Some (inr e)
  | inl op =>
      let? src := collect (position ids) (children node) in
      Some (inl (WireNode.mk (uop_dtype node) (Node.tag n) (Node.origin n) (Node.content_hash n) op src))
  end.

Fixpoint encode_nodes (ids : gmap Z Z) (l : list UOp) : option (list WireNode.t + WireError) :=
  match l with
  | [] => Some (inl [])
  | node :: l =>
      let? r := encode_node ids node in
      match r with
      | inr e => Some (inr e)
      | inl node =>
          let? r := encode_nodes ids l in
          Some (match r with inl nodes => inl (node :: nodes) | inr e => inr e end)
      end
  end.

Definition from_roots (roots : list UOp) : option (WireGraph.t + WireError) :=
  let? r := collect_topo (wire_fuel roots) (map (fun root => (root, false)) roots) ∅ ∅ [] in
  match r with
  | inr e => Some (inr e)
  | inl topo =>
      let ids := positions topo in
      let? r := encode_nodes ids topo in
      match r with
      | inr e => Some (inr e)
      | inl nodes =>
          let? roots := collect (position ids) roots in
          Some (inl (WireGraph.mk OPTIMIZER_WIRE_SCHEMA_VERSION roots nodes))
      end
  end.

Definition from_root (root : UOp) : option (WireGraph.t + WireError) := from_roots [root].
End Encode.

(** ** Decoding *)
Section Decode.
Context (xxh64 : Op Z -> DType -> option Z -> Z).

Fixpoint decode_sources (index : Z) (decoded : list UOp) (src : list Z) : option (list UOp + WireError) :=
  match src with
  | [] => Some (inl [])
  | source :: src =>
      if source >=? index then Some (inr (NotDependencyFirst index source))
      else
        let? u := nth_error decoded (Z.to_nat source) in
        let? r := decode_sources index decoded src in
        Some (match r with inl us => inl (u :: us) | inr e => inr e end)
  end.

(** [OriginId::from_raw]. *)
Definition from_raw (raw : Z) : option Z := if raw =? 0 then None else Some raw.

(** The loop over the nodes; the handles of [decoded] stay in the table's
    state, to be dropped by the caller. *)
Fixpoint decode_nodes (index : Z) (nodes : list WireNode.t) (decoded : list UOp) (st : Uops.t) :
    option (Uops.t * (list UOp + WireError)) :=
  match nodes with
  | [] => Some (st, inl decoded)
  | node :: nodes =>
      let? r := decode_sources index decoded (WireNode.src node) in
      match r with
      | inr e => Some (st, inr e)
      | inl src =>
          match to_op (WireNode.op node) src with
          | inr e => Some (st, inr e)
          | inl op =>
              let origin := match WireNode.origin node with Some raw => from_raw raw | None => None end in
              let? (st, rebuilt) := new_with_origin xxh64 op (WireNode.dtype node) (WireNode.tag node) origin st in
              if content_hash st rebuilt =? WireNode.content_hash node
              then decode_nodes (index + 1) nodes (decoded ++ [rebuilt]) st
              else Some (st, inr (ContentHashChanged index (WireNode.content_hash node) (content_hash st rebuilt)))
          end
      end
  end.

Fixpoint decode_roots (decoded : list UOp) (roots : list Z) : list UOp + WireError :=
  match roots with
  | [] => inl []
  | root :: roots =>
      match nth_error decoded (Z.to_nat root) with
      | Some u => match decode_roots decoded roots with inl us => inl (u :: us) | inr e => inr e end
      | None => inr (InvalidRoot root)
      end
  end.

Definition decode (g : WireGraph.t) (st : Uops.t) : option (Uops.t * (list UOp + WireError)) :=
  if negb (WireGraph.schema_version g =? OPTIMIZER_WIRE_SCHEMA_VERSION)
  then Some (st, inr (UnsupportedSchema (WireGraph.schema_version g)))
  else
    let? (st, r) := decode_nodes 0 (WireGraph.nodes g) [] st in
    match r with
    | inr e => Some (st, inr e)
    | inl decoded =>
        match decode_roots decoded (WireGraph.roots g) with
        | inr e => Some (st, inr e)
        | inl roots => Some (fold_left (fun st u => add_handle u st) roots st, inl roots)
        end
    end.

Definition decode_root (g : WireGraph.t) (st : Uops.t) : option (Uops.t * (UOp + WireError)) :=
  let? (st, r) := decode g st in
  Some (st, match r with
            | inr e => inr e
            | inl [root] => inl root
            | inl roots => inr (RootCount (Z.of_nat (List.length roots)))
            end).
End Decode.
