(* ===== verification/WireSpec.v ===== *)
(** * Round trips through the wire format

    Encoding a graph of the table and decoding it in any other table gives the
    same graph again — operations, dtypes, tags, origins and content hashes —
    and, in the table it came from, the very nodes.  The mask of a SHUFFLE is
    the exception: it is not written. *)

From stdpp Require Import gmap relations.
From S2P Require Import Prelude F64 DType Cast ConstVal Ops Payload UOp HashCons Traverse Wire.

(** ** Operations *)

Definition is_shuffle {A} (op : Op A) : bool := match op with Op.Shuffle _ _ _ => true | _ => false end.
Definition writable {A} (op : Op A) : bool :=
  negb (is_shuffle op) && match from_op op with inl _ => true | inr _ => false end.

Lemma from_op_fmap {A B} (f g : A -> B) op : from_op (Op.fmap f g op) = from_op op.
Proof. destruct op; cbn [Op.fmap from_op]; try reflexivity; [now destruct alt, gate | now destruct gate]. Qed.

Lemma shuffle_fmap {A B} (f g : A -> B) op : is_shuffle (Op.fmap f g op) = is_shuffle op.
Proof. now destruct op. Qed.

Lemma writable_fmap {A B} (f g : A -> B) op : writable (Op.fmap f g op) = writable op.
Proof. unfold writable. now rewrite from_op_fmap, shuffle_fmap. Qed.

Lemma fmap_norm {A B} (f g : A -> B) op : Op.fmap f g (norm_op op) = norm_op (Op.fmap f g op).
Proof. now destruct op. Qed.

Lemma writable_norm {A} (op : Op A) : writable (norm_op op) = writable op.
Proof. now destruct op. Qed.

(** What is written of an operation and its operands determine it. *)
Lemma to_op_from_op {A B} (f g : A -> B) op w :
  is_shuffle op = false -> from_op op = inl w -> to_op w (map f (Op.children op)) = inl (Op.fmap f g op).
Proof.
  destruct op; cbn [from_op is_shuffle]; intros Sh E; try discriminate Sh; try discriminate E;
    try (injection E as <-; reflexivity).
  - destruct alt, gate; cbn [negb Bool.eqb] in E; try discriminate E; injection E as <-; reflexivity.
  - destruct gate; injection E as <-; reflexivity.
Qed.

Lemma writable_spec {A} (op : Op A) : writable op = true -> is_shuffle op = false /\ exists w, from_op op = inl w.
Proof. unfold writable. rewrite andb_true_iff, negb_true_iff. intros [H1 H2]. destruct (from_op op); [eauto | discriminate]. Qed.

(** The same operation, up to the spelling of its axes. *)
Definition same_op {A B} (a : Op A) (b : Op B) : Prop :=
  writable a = true /\ writable b = true /\ from_op (norm_op a) = from_op (norm_op b).

Lemma same_op_fmap {A B C} (f g : A -> C) (f' g' : B -> C) a b :
  same_op a b -> map f (Op.children a) = map f' (Op.children b) ->
  norm_op (Op.fmap f g a) = norm_op (Op.fmap f' g' b).
Proof.
  intros (Wa & Wb & E) Ec. rewrite <- !fmap_norm. rewrite <- (writable_norm a) in Wa. rewrite <- (writable_norm b) in Wb.
  apply writable_spec in Wa as [Sa [w Fa]], Wb as [Sb [w' Fb]].
  pose proof (to_op_from_op f g (norm_op a) w Sa Fa) as Ta. pose proof (to_op_from_op f' g' (norm_op b) w' Sb Fb) as Tb.
  rewrite children_norm_op in Ta. rewrite children_norm_op in Tb. rewrite Ec in Ta. assert (w = w') as <- by congruence. congruence.
Qed.

(** Keys that agree come from the same operation. *)
Lemma key_same_op {A B} (f g : A -> Z) (f' g' : B -> Z) a b :
  writable a = true -> norm_op (Op.fmap f g a) = norm_op (Op.fmap f' g' b) -> same_op a b.
Proof.
  intros Wa E. assert (Wb : writable b = true).
  { rewrite <- (writable_fmap f' g'), <- writable_norm, <- E, writable_norm, writable_fmap. exact Wa. }
  split; [exact Wa |]. split; [exact Wb |].
  rewrite <- (from_op_fmap f g (norm_op a)), <- (from_op_fmap f' g' (norm_op b)), !fmap_norm. now rewrite E.
Qed.

Lemma fmap_ext_in {A B} (f f' g g' : A -> B) op :
  (forall v, In v (Op.children op) -> f v = f' v) -> (forall v, In v (launch_values op) -> g v = g' v) ->
  Op.fmap f g op = Op.fmap f' g' op.
Proof.
  intros Hf Hg. destruct (is_shuffle op) eqn:Sh.
  { destruct op; try discriminate Sh. cbn [Op.fmap]. now rewrite (Hf src) by now left. }
  assert (Em : map f (Op.children op) = map f' (Op.children op)) by (apply map_ext_in; exact Hf).
  destruct (from_op op) as [w |] eqn:W.
  { pose proof (to_op_from_op f g op w Sh W) as H1. pose proof (to_op_from_op f' g' op w Sh W) as H2. rewrite Em in H1. congruence. }
  destruct op; cbn [from_op] in W; try discriminate W; cbn [Op.fmap].
  - cbn [Op.children] in Em. rewrite map_cons, !map_app in Em. f_equal.
    + now injection Em.
    + unfold launch_values in Hg. unfold ProgramInfo.fmap.
      assert (E : forall l, incl l (ProgramInfo.global_size info ++ from_option id [] (ProgramInfo.local_size info) ++ ProgramInfo.vars info) ->
        map g l = map g' l) by (intros l Hl; apply map_ext_in; intros v Hv; now apply Hg, Hl).
      f_equal; [apply E; now apply incl_appl, incl_refl | | apply E; now apply incl_appr, incl_appr, incl_refl].
      destruct (ProgramInfo.local_size info) as [l |]; [| reflexivity]. cbn. f_equal. apply E.
      now apply incl_appr, incl_appl, incl_refl.
    + destruct linear as [a |]; [| reflexivity]. cbn. f_equal. apply Hf. right. now left.
    + destruct source as [a |]; [| reflexivity]. cbn. f_equal. apply Hf. right. apply in_or_app. right. now left.
    + destruct binary as [a |]; [| reflexivity]. cbn. f_equal. apply Hf. right. apply in_or_app. right. apply in_or_app. right. now left.
  - f_equal. exact Em.
  - reflexivity.
  - reflexivity.
  - destruct alt, gate; cbn [negb Bool.eqb] in W; try discriminate W; cbn [Op.children Op.opt_list app map option_map] in *;
      injection Em as E1 E2; f_equal; cbn; congruence.
Qed.

(** ** The depth-first search *)

(** A node the format can carry. *)
Definition encodable (st : Uops.t) (u : UOp) : bool := negb (has_metadata st u) && writable (uop_op u).

Section Search.
Context (st : Uops.t) (G : UOp -> Prop) `{!Arena G} (HG : forall u, G u -> encodable st u = true).

Abbreviation every := (fun _ : UOp => true).

Definition apart (l : list UOp) (active : gset Z) : Prop := forall r v, In r l -> occurs r v -> uid v ∉ active.

(** [k] iterations after pushing [roots] they are off the stack, [new] has been
    appended and the active set is as before. *)
Definition searched (stack : list (UOp * bool)) (roots : list UOp) : Prop :=
  forall rest visited active topo, apart roots active -> exists k new,
    (k <= List.length stack + expansion_cost children new)%nat
    /\ (forall fuel, collect_topo st (k + fuel) (stack ++ rest) visited active topo
                     = collect_topo st fuel rest (mark visited new) active (topo ++ new))
    /\ visit_ok children every visited roots new.

Lemma searched_list l :
  Forall (fun u => G u -> searched [(u, false)] [u]) l -> Forall G l -> searched (map (fun c => (c, false)) l) l.
Proof using.
  induction 1 as [| u l Hu _ IH]; intros Gl rest visited active topo Ha.
  - exists 0%nat, []. cbn. rewrite mark_nil, app_nil_r. split; [lia |]. split; [reflexivity |].
    split; [exact Logic.I | intros n [] | intros r []].
  - apply Forall_cons in Gl as [Gu Gl].
    destruct (Hu Gu (map (fun c => (c, false)) l ++ rest) visited active topo) as (k1 & new1 & C1 & R1 & [O1 A1 B1]).
    { intros r v [<- | []]. apply Ha. now left. }
    destruct (IH Gl rest (mark visited new1) active (topo ++ new1)) as (k2 & new2 & C2 & R2 & [O2 A2 B2]).
    { intros r v Hr. apply Ha. now right. }
    exists (k1 + k2)%nat, (new1 ++ new2). split; [| split].
    + unfold expansion_cost in *. rewrite sum_list_with_app. cbn [map List.length] in *. lia.
    + intros fuel. rewrite <- Nat.add_assoc. cbn [map app] in *. now rewrite R1, R2, mark_app, app_assoc.
    + split.
      * now apply ordered_app.
      * intros n [Hn | Hn]%in_app_iff.
        -- destruct (A1 n Hn) as (r & [<- | []] & Hr). exists u. split; [now left | exact Hr].
        -- destruct (A2 n Hn) as (r & Hr & Hg). exists r. split; [now right | exact Hg].
      * intros r [<- | Hr] Hg; rewrite mark_app; [| now apply B2]. apply elem_of_mark. left. apply B1; [now left | exact Hg].
Qed.

Lemma searched_node u : G u -> searched [(u, false)] [u].
Proof using All.
  induction u as [u IH] using UOp_children_ind. intros Gu rest visited active topo Ha.
  pose proof (HG u Gu) as Eu. apply andb_prop in Eu as [Mu%negb_true_iff Wu].
  destruct (is_visited visited u) eqn:V.
  { exists 1%nat, []. cbn [app Nat.add collect_topo List.length]. rewrite V, mark_nil, app_nil_r.
    split; [lia |]. split; [reflexivity |]. split; [exact Logic.I | intros n [] |]. intros r [<- | []] _. rewrite mark_nil.
    now apply is_visited_spec. }
  assert (Gc : Forall G (children u)) by (apply List.Forall_forall; intros c Hc; exact (arena_source u c Gu Hc)).
  assert (IHc : Forall (fun c => G c -> searched [(c, false)] [c]) (children u)) by exact IH.
  assert (Nc : forall c v, In c (children u) -> occurs c v -> uid v <> uid u).
  { intros c v Hc Hv E. assert (v = u) as ->; [| exact (no_cycle u c Hc Hv)].
    apply arena_id; [| exact Gu | exact E]. apply (arena_occurs G c); [exact (arena_source u c Gu Hc) | exact Hv]. }
  assert (Hu : uid u ∉ active) by (apply (Ha u u); [now left | constructor]).
  destruct (searched_list (children u) IHc Gc ((u, true) :: rest) visited ({[uid u]} ∪ active) topo)
    as (k & new & C & R & [O A B]).
  { intros c v Hc Hv. rewrite not_elem_of_union, not_elem_of_singleton. split; [now apply (Nc c) |].
    apply (Ha u); [now left |]. eapply rtc_l; [exact Hc | exact Hv]. }
  assert (Nu : uid u ∉ mark visited new).
  { intros [Hv | (n & Hn & E)]%elem_of_mark; [apply is_visited_spec in Hv; congruence |].
    destruct (A n Hn) as (c & Hc & _ & Hr). apply (Nc c n Hc); [| exact E]. now apply (gated_all c n) in Hr. }
  assert (Xu : executable_stage (uop_op u) = false) by (destruct (uop_op u); try reflexivity; discriminate Wu).
  exists (Datatypes.S (k + 1)), (new ++ [u]). split; [| split].
  - unfold expansion_cost in *. rewrite sum_list_with_app. cbn [sum_list_with]. rewrite length_map in C. cbn [List.length]. lia.
  - intros fuel. cbn [app Nat.add collect_topo]. rewrite V, bool_decide_false, Mu, Xu by exact Hu.
    rewrite <- Nat.add_assoc, R. cbn [Nat.add collect_topo].
    destruct (is_visited (mark visited new) u) eqn:E; [now apply is_visited_spec in E |].
    rewrite mark_app, mark_one, app_assoc. f_equal. apply set_eq. intros i.
    rewrite elem_of_difference, elem_of_union, elem_of_singleton. split; [tauto |]. intros Hi. split; [tauto |]. now intros ->.
  - split.
    + apply ordered_app. split; [exact O |]. cbn [ordered]. split; [reflexivity |]. split; [exact Nu |].
      split; [| exact Logic.I]. intros c Hc Hg. now apply B.
    + intros n [Hn | [<- | []]]%in_app_iff.
      * destruct (A n Hn) as (c & Hc & Hg & Hr). exists u. split; [now left |]. split; [reflexivity |].
        eapply rtc_l; [| exact Hr]. now split.
      * exists u. split; [now left |]. split; [reflexivity | constructor].
    + intros r [<- | []] _. apply elem_of_mark. right. exists u. split; [apply in_app_iff; right; now left | reflexivity].
Qed.

(** The order in which the nodes are written. *)
Record dependency_first (roots topo : list UOp) : Prop := {
  df_nodup : List.NoDup (map uid topo);
  df_nodes n : In n topo <-> exists r, In r roots /\ occurs r n;
  df_sources l1 n l2 : topo = l1 ++ n :: l2 -> incl (children n) l1
}.

Lemma collect_topo_spec roots :
  Forall G roots -> exists topo,
    collect_topo st (wire_fuel roots) (map (fun root => (root, false)) roots) ∅ ∅ [] = Some (inl topo) /\
    dependency_first roots topo.
Proof using All.
  intros Gr.
  destruct (searched_list roots) with (rest := @nil (UOp * bool)) (visited := ∅ : gset Z) (active := ∅ : gset Z) (topo := @nil UOp)
    as (k & new & C & R & [O A B]); [| exact Gr | intros r v _ _; apply not_elem_of_empty |].
  { apply List.Forall_forall. intros u _. apply searched_node. }
  assert (Gn : Forall G new).
  { apply List.Forall_forall. intros n Hn. destruct (A n Hn) as (r & Hr & _ & Hv). rewrite List.Forall_forall in Gr.
    apply (arena_occurs G r); [now apply Gr | now apply (gated_all r n) in Hv]. }
  assert (D : dependency_first roots new).
  { assert (Sources : forall l1 n l2, new = l1 ++ n :: l2 -> incl (children n) l1).
    { intros l1 n l2 E c Hc. pose proof O as O'. rewrite E in O'. apply ordered_app in O' as [_ (_ & _ & Hs & _)].
      rewrite List.Forall_forall in Gn. assert (Gnn : G n) by (apply Gn; rewrite E; apply in_app_iff; right; now left).
      apply (marked_in G l1 c); [| exact (arena_source n c Gnn Hc) | now apply Hs].
      apply List.Forall_forall. intros m Hm. apply Gn. rewrite E. apply in_app_iff. now left. }
    split; [exact (ordered_nodup children every ∅ new O) | | exact Sources]. intros n. split.
    - intros Hn. destruct (A n Hn) as (r & Hr & _ & Hv). exists r. split; [exact Hr | now apply (gated_all r n)].
    - intros (r & Hr & Hv). assert (Hin : In r new).
      { rewrite List.Forall_forall in Gr. apply (marked_in G new r Gn (Gr r Hr)). now apply B. }
      clear Hr B A. induction Hv as [| u m n Hm _ IH]; [exact Hin |].
      apply in_split in Hin as (l1 & l2 & E). apply IH. rewrite E. apply in_app_iff. left. exact (Sources l1 u l2 E m Hm). }
  exists new. split; [| exact D]. rewrite app_nil_r in R. cbn [app] in R.
  assert (Hf : (k < wire_fuel roots)%nat).
  { unfold wire_fuel. rewrite length_map in C.
    assert (expansion_cost children new <= sum_list_with (fun u => expansion_cost children (nodes u)) roots)%nat; [| lia].
    assert (E : sum_list_with (fun u => expansion_cost children (nodes u)) roots = expansion_cost children (concat (map nodes roots))).
    { unfold expansion_cost. clear. induction roots as [| r l IH]; [reflexivity |]. cbn [sum_list_with map concat].
      now rewrite sum_list_with_app, IH. }
    rewrite E. apply expansion_cost_incl; [eapply NoDup_map_inv, (df_nodup _ _ D) |].
    intros n Hn. apply (df_nodes _ _ D) in Hn as (r & Hr & Hv). apply in_concat. exists (nodes r).
    split; [now apply in_map | now apply nodes_occurs]. }
  replace (wire_fuel roots) with (k + Datatypes.S (wire_fuel roots - k - 1))%nat by lia. rewrite R. reflexivity.
Qed.
End Search.

(** ** Positions *)

Lemma positions_from topo : forall (m : gmap Z Z) start i u,
  List.NoDup (map uid topo) -> nth_error topo i = Some u ->
  fold_left (fun ids '(id, node) => <[uid node := id]> ids) (zip (seqZ start (Z.of_nat (List.length topo))) topo) m !! uid u
  = Some (start + Z.of_nat i).
Proof.
  assert (Old : forall l (m : gmap Z Z) start i, ~ In i (map uid l) ->
    fold_left (fun ids '(id, node) => <[uid node := id]> ids) (zip (seqZ start (Z.of_nat (List.length l))) l) m !! i = m !! i).
  { induction l as [| v l IH]; intros m start i Hi; [reflexivity |]. cbn [List.length]. rewrite Nat2Z.inj_succ, seqZ_cons by lia.
    cbn [zip zip_with fold_left]. replace (Z.pred (Z.succ (Z.of_nat (List.length l)))) with (Z.of_nat (List.length l)) by lia.
    rewrite IH by (intros H; apply Hi; now right). apply lookup_insert_ne. intros E. apply Hi. now left. }
  induction topo as [| v topo IH]; intros m start i u Hd Hn; [destruct i; discriminate |].
  cbn [map List.length] in *. rewrite Nat2Z.inj_succ, seqZ_cons by lia. cbn [zip zip_with fold_left].
  replace (Z.pred (Z.succ (Z.of_nat (List.length topo)))) with (Z.of_nat (List.length topo)) by lia.
  inversion Hd as [| ? ? Hv Hd']; subst. destruct i as [| i]; cbn [nth_error] in Hn.
  - injection Hn as ->. rewrite Old by exact Hv. rewrite lookup_insert_eq. f_equal. lia.
  - rewrite (IH _ _ i u Hd' Hn). f_equal. lia.
Qed.

Lemma position_nth topo i u :
  List.NoDup (map uid topo) -> nth_error topo i = Some u -> position (positions topo) u = Some (Z.of_nat i).
Proof. intros Hd Hn. unfold position, positions. now rewrite (positions_from topo ∅ 0 i u Hd Hn). Qed.

(** ** Encoding *)
Section Encoding.
Context (xxh64 : Op Z -> DType -> option Z -> Z).
Context (st : Uops.t) (Hi : Inv st).

(** [wn] is how [u] is written after the nodes of [topo]. *)
Record written (topo : list UOp) (u : UOp) (wn : WireNode.t) : Prop := {
  w_node : exists n, In n (Uops.live st) /\ Node.node n = u /\ WireNode.tag wn = Node.tag n /\
    WireNode.origin wn = Node.origin n /\ WireNode.content_hash wn = Node.content_hash n;
  w_dtype : WireNode.dtype wn = uop_dtype u;
  w_op : from_op (uop_op u) = inl (WireNode.op wn);
  w_src : exists k, nth_error topo k = Some u /\
    Forall2 (fun c i => 0 <= i < Z.of_nat k /\ nth_error topo (Z.to_nat i) = Some c) (children u) (WireNode.src wn)
}.

Lemma position_of topo u l1 :
  List.NoDup (map uid topo) -> (exists l2, topo = l1 ++ l2) -> In u l1 ->
  exists i, position (positions topo) u = Some i /\ 0 <= i < Z.of_nat (List.length l1) /\ nth_error topo (Z.to_nat i) = Some u.
Proof using.
  intros Hd [l2 E] Hin. apply In_nth_error in Hin as [k Hk]. assert (L : (k < List.length l1)%nat) by (apply nth_error_Some; congruence).
  assert (Hk' : nth_error topo k = Some u) by (rewrite E, nth_error_app1; assumption).
  exists (Z.of_nat k). split; [now apply position_nth |]. rewrite Nat2Z.id. split; [lia | exact Hk'].
Qed.

Lemma collect_positions topo l1 us :
  List.NoDup (map uid topo) -> (exists l2, topo = l1 ++ l2) -> incl us l1 ->
  exists js, collect (position (positions topo)) us = Some js /\
    Forall2 (fun c i => 0 <= i < Z.of_nat (List.length l1) /\ nth_error topo (Z.to_nat i) = Some c) us js.
Proof using.
  intros Hd Hp. induction us as [| u us IH]; intros Hin; [exists []; split; [reflexivity | constructor] |].
  destruct (position_of topo u l1 Hd Hp) as (i & Ei & Hi'); [apply Hin; now left |].
  destruct IH as (js & Ejs & Hjs); [intros v Hv; apply Hin; now right |].
  exists (i :: js). cbn [collect]. rewrite Ei, Ejs. split; [reflexivity | now constructor].
Qed.

Lemma alive_node u : alive st u -> exists n, In n (Uops.live st) /\ Node.node n = u /\ find_node st (uid u) = Some n.
Proof using Hi. intros (n & Hn & <-). exists n. split; [exact Hn |]. split; [reflexivity |]. apply find_node_live; [apply Hi | exact Hn]. Qed.

Lemma encode_nodes_spec topo : List.NoDup (map uid topo) ->
  (forall l1 n l2, topo = l1 ++ n :: l2 -> incl (children n) l1) ->
  (forall n, In n topo -> alive st n /\ encodable st n = true) ->
  forall rest done, topo = done ++ rest -> exists nodes,
    encode_nodes st (positions topo) rest = Some (inl nodes) /\ Forall2 (written topo) rest nodes.
Proof using Hi.
  intros Hd Hs Hn. induction rest as [| u rest IH]; intros done E; [exists []; split; [reflexivity | constructor] |].
  destruct (Hn u) as [Au Eu]; [rewrite E; apply in_app_iff; right; now left |].
  destruct (alive_node u Au) as (n & Hl & En & F). apply andb_prop in Eu as [_ Wu]. apply writable_spec in Wu as [_ [w Fw]].
  destruct (collect_positions topo done (children u) Hd (ex_intro _ _ E) (Hs done u rest E)) as (js & Ejs & Hjs).
  destruct (IH (done ++ [u])) as (nodes & En' & Hw); [now rewrite <- app_assoc |].
  eexists. cbn [encode_nodes]. unfold encode_node. rewrite F, Fw, Ejs, En'. split; [reflexivity |].
  constructor; [| exact Hw]. split; cbn; [now exists n | reflexivity | exact Fw |].
  exists (List.length done). split; [| exact Hjs]. rewrite E, nth_error_app2, Nat.sub_diag by lia. reflexivity.
Qed.
End Encoding.
