(* ===== verification/WireRound.v ===== *)
(** * Round trips through the wire format

    Encoding a graph of one table and decoding it in another gives an
    isomorphic graph — operations, dtypes, tags, origins and content hashes —
    and, in the table it came from, the very nodes. *)

From stdpp Require Import gmap relations.
From S2P Require Import Prelude F64 DType Cast ConstVal Ops Payload UOp HashCons Traverse Builder Wire WireSpec.

(** ** Content hashes *)
Section Hashed.
Context (xxh64 : Op Z -> DType -> option Z -> Z).

(** Every node carries the hash of its operation over those of its operands. *)
Definition hashed (st : Uops.t) : Prop := forall n, In n (Uops.live st) ->
  Node.content_hash n = hash_op xxh64 st (uop_op (Node.node n)) (uop_dtype (Node.node n)) (Node.origin n).

Lemma hash_op_stable st st' op dtype origin :
  Inv st -> Inv st' -> extends st st' -> (forall v, In v (refs op) -> alive st v /\ alive st' v) ->
  hash_op xxh64 st op dtype origin = hash_op xxh64 st' op dtype origin.
Proof using.
  intros Hi Hi' He Hv. unfold hash_op. f_equal. f_equal. apply fmap_ext_in; intros v Hin;
    (apply content_hash_stable; [exact Hi | apply Hi' | exact He | ..]); apply Hv, in_or_app; auto.
Qed.

Lemma step_hashed st st' :
  Inv st -> Uops.next_uop_id st + 1 < 2 ^ 64 -> step xxh64 st st' -> hashed st -> hashed st'.
Proof using.
  intros Hi Hs H Hh n Hn. pose proof (step_Inv _ st st' Hi Hs H) as [Hi' _].
  pose proof (step_extends _ st st' Hi Hs H) as [He _].
  assert (Old : In n (Uops.live st) ->
    Node.content_hash n = hash_op xxh64 st' (uop_op (Node.node n)) (uop_dtype (Node.node n)) (Node.origin n)).
  { intros Ho. rewrite (Hh n Ho). apply hash_op_stable; try assumption. intros v Hv. split.
    - now apply (inv_refs st Hi n).
    - now apply (inv_refs st' Hi' n). }
  assert (Mono : forall v op d t o h b, st' = fst (fresh op d t o h b st) -> alive st v -> alive st' v).
  { intros v op d t o h b -> Hv. now apply fresh_alive. }
  destruct H; try (apply Old; exact Hn).
  - apply in_app_iff in Hn as [Hn | [<- | []]]; [now apply Old |]. cbn [Node.content_hash Node.node Node.origin uop_op uop_dtype].
    apply hash_op_stable; try assumption. intros v Hv. split; [now apply H0 | eapply Mono; [reflexivity | now apply H0]].
  - apply Old. revert Hn. unfold intern. now destruct (probe _ _ _ _ _).
  - apply in_app_iff in Hn as [Hn | [<- | []]]; [now apply Old |]. cbn [Node.content_hash Node.node Node.origin uop_op uop_dtype].
    rewrite (Hh n0 H). apply hash_op_stable; try assumption. intros v Hv. pose proof (inv_refs st Hi n0 v H Hv) as [Ha _].
    split; [exact Ha | eapply Mono; [reflexivity | exact Ha]].
  - apply Old. revert Hn. unfold release. destruct (_ =? _)%nat; [| now intros]. cbn. intros Hn. now apply in_filter in Hn.
Qed.

Lemma nsteps_hashed k st st' :
  nsteps (step xxh64) k st st' -> Inv st -> Uops.next_uop_id st + Z.of_nat k < 2 ^ 64 -> hashed st -> hashed st'.
Proof using.
  induction 1 as [st | k st st1 st' H _ IH]; intros Hi Hk Hh; [exact Hh |]. rewrite Nat2Z.inj_succ in Hk.
  destruct (step_Inv xxh64 st st1 Hi) as [Hi1 L]; [lia | exact H |]. apply IH; [exact Hi1 | lia |].
  apply (step_hashed st); [exact Hi | lia | exact H | exact Hh].
Qed.

Lemma reachable_hashed k st : nsteps (step xxh64) k Uops.empty st -> Z.of_nat k < 2 ^ 64 -> hashed st.
Proof using. intros H Hk. apply (nsteps_hashed k _ _ H Inv_empty); [cbn; lia | intros n []]. Qed.
End Hashed.

(** ** Isomorphic nodes *)

(** [v] is an interned node of [st'] that looks like [u] of [st] all the way
    down. *)
Inductive isomorphic (st st' : Uops.t) : UOp -> UOp -> Prop :=
| isomorphic_nodes n m :
    In n (Uops.live st) -> In m (Uops.live st') -> (Node.id m ∈ Uops.entries st') ->
    uop_dtype (Node.node n) = uop_dtype (Node.node m) -> Node.tag n = Node.tag m -> Node.origin n = Node.origin m ->
    same_op (uop_op (Node.node n)) (uop_op (Node.node m)) ->
    Forall2 (isomorphic st st') (children (Node.node n)) (children (Node.node m)) ->
    isomorphic st st' (Node.node n) (Node.node m).

Lemma Forall2_map_eq {A B C} (R : A -> B -> Prop) (f : A -> C) (g : B -> C) l k :
  Forall2 R l k -> (forall a b, In a l -> In b k -> R a b -> f a = g b) -> map f l = map g k.
Proof.
  induction 1 as [| a b l k H _ IH]; intros E; [reflexivity |]. cbn. f_equal.
  - apply E; [now left | now left | exact H].
  - apply IH. intros x y Hx Hy. apply E; now right.
Qed.

Lemma Forall2_nth_l {A B} (R : A -> B -> Prop) l k i a :
  Forall2 R l k -> nth_error l i = Some a -> exists b, nth_error k i = Some b /\ R a b.
Proof. intros H. revert i. induction H as [| x y l k Hxy _ IH]; intros [|] E; try discriminate; [injection E as <-; eauto | now apply IH]. Qed.

Lemma Forall2_nth_r {A B} (R : A -> B -> Prop) l k i b :
  Forall2 R l k -> nth_error k i = Some b -> exists a, nth_error l i = Some a /\ R a b.
Proof. intros H. revert i. induction H as [| x y l k Hxy _ IH]; intros [|] E; try discriminate; [injection E as <-; eauto | now apply IH]. Qed.

(** What the constructor's assertions read of an operation. *)
Definition view_marker (op : Op bool) : bool :=
  match op with
  | Op.Const _ ConstValue.Invalid => true
  | Op.Reshape _ src _ | Op.Permute _ src _ | Op.Expand _ src _ | Op.Pad _ src _ _
  | Op.Shrink _ src _ _ | Op.Flip _ src _ | Op.Detach _ src => src
  | Op.VConst _ values =>
      match values with [] => false | _ => forallb (fun v => const_eqb v ConstValue.Invalid) values end
  | Op.Stack _ sources => match sources with [] => false | _ => forallb (fun b => b) sources end
  | _ => false
  end.

Definition view_load (op : Op (DType * bool)) (dtype : DType) : bool :=
  match op with
  | Op.Load _ index alt gate =>
      bool_decide (dtype = fst index) &&
      match alt, gate with
      | None, None => true
      | Some alt, Some gate =>
          bool_decide (fst gate = DType.Scalar Bool) && (snd alt || bool_decide (fst alt = dtype))
      | _, _ => false
      end
  | _ => true
  end.

Lemma forallb_map {A B} (f : A -> B) (p : B -> bool) l : forallb p (map f l) = forallb (fun a => p (f a)) l.
Proof. induction l as [| a l IH]; [reflexivity |]. cbn. now rewrite IH. Qed.

Lemma is_invalid_marker_view u :
  is_invalid_marker u = view_marker (norm_op (Op.fmap is_invalid_marker is_invalid_marker (uop_op u))).
Proof.
  destruct u as [i op d]. destruct op; try reflexivity. cbn [is_invalid_marker uop_op Op.fmap norm_op view_marker].
  destruct sources as [| a l]; [reflexivity |]. cbn [map forallb]. now rewrite forallb_map.
Qed.

Definition load_info (u : UOp) : DType * bool := (uop_dtype u, is_invalid_marker u).

Lemma load_ok_view op dtype : load_ok op dtype = view_load (norm_op (Op.fmap load_info load_info op)) dtype.
Proof. destruct op; try reflexivity. cbn [load_ok Op.fmap norm_op view_load]. destruct alt, gate; reflexivity. Qed.

Section Isomorphic.
Context (xxh64 : Op Z -> DType -> option Z -> Z) (st : Uops.t) (Hi : Inv st).

Lemma isomorphic_hash st' u v :
  Inv st' -> hashed xxh64 st -> hashed xxh64 st' -> isomorphic st st' u v -> content_hash st u = content_hash st' v.
Proof using Hi.
  intros Hi' Hh Hh'. revert v. induction u as [u IH] using UOp_children_ind. intros v H.
  destruct H as [n m Hn Hm _ Ed _ Eo Es Hc].
  rewrite (content_hash_live st n), (content_hash_live st' m), (Hh n Hn), (Hh' m Hm) by first [assumption | apply Hi | apply Hi'].
  unfold hash_op. rewrite Ed, Eo. f_equal. apply (same_op_fmap _ _ _ _ _ _ Es).
  apply (Forall2_map_eq _ _ _ _ _ Hc). intros a b Ha _ Hab. rewrite List.Forall_forall in IH. exact (IH a Ha b Hab).
Qed.

Lemma isomorphic_marker st' u v : isomorphic st st' u v -> is_invalid_marker u = is_invalid_marker v.
Proof using.
  revert v. induction u as [u IH] using UOp_children_ind. intros v H. destruct H as [n m _ _ _ _ _ _ Es Hc].
  rewrite !is_invalid_marker_view. f_equal. apply (same_op_fmap _ _ _ _ _ _ Es).
  apply (Forall2_map_eq _ _ _ _ _ Hc). intros a b Ha _ Hab. rewrite List.Forall_forall in IH. exact (IH a Ha b Hab).
Qed.

Lemma isomorphic_load_info st' u v : isomorphic st st' u v -> load_info u = load_info v.
Proof using. intros H. unfold load_info. rewrite (isomorphic_marker st' u v H). destruct H. congruence. Qed.

(** Later states keep isomorphic what they keep alive. *)
Lemma live_kept st1 n :
  extends st st1 -> (forall v, alive st v -> alive st1 v) -> In n (Uops.live st) -> In n (Uops.live st1).
Proof using Hi.
  intros [_ He] Ha Hn. destruct (Ha (Node.node n) (live_alive st n Hn)) as (m & Hm & E).
  assert (In m (Uops.live st)).
  { apply He; [exact Hm |]. unfold Node.id. rewrite E. apply alive_bound; [exact Hi | now apply live_alive]. }
  assert (m = n) as <-; [| exact Hm]. apply (live_id st); [apply Hi | assumption | exact Hn | unfold Node.id; now rewrite E].
Qed.
End Isomorphic.

Lemma isomorphic_mono st0 st st1 u v :
  (forall n, In n (Uops.live st) -> Node.id n ∈ Uops.entries st -> In n (Uops.live st1) /\ Node.id n ∈ Uops.entries st1) ->
  isomorphic st0 st u v -> isomorphic st0 st1 u v.
Proof.
  intros K. revert v. induction u as [u IH] using UOp_children_ind. intros v H. destruct H as [n m Hn Hm He Ed Et Eo Es Hc].
  destruct (K m Hm He) as [Hm1 He1]. apply isomorphic_nodes; try assumption.
  rewrite List.Forall_forall in IH. clear - IH Hc. revert IH. induction Hc as [| a b l k H _ IH']; intros IH; constructor.
  - apply IH; [now left | exact H].
  - apply IH'. intros x Hx. apply IH. now right.
Qed.

Lemma isomorphic_interned st u v :
  Inv st -> (forall a, occurs u a -> uid a ∈ Uops.entries st) -> isomorphic st st u v -> u = v.
Proof.
  intros Hi. revert v. induction u as [u IH] using UOp_children_ind. intros v Ho H.
  pose proof (Ho u ltac:(constructor)) as Hu. destruct H as [n m Hn Hm He Ed Et Eo Es Hc].
  f_equal. apply (inv_share st Hi); try assumption. split; [exact Ed |]. split; [exact Et |]. split; [exact Eo |].
  rewrite (inv_key st Hi n Hn), (inv_key st Hi m Hm). apply (same_op_fmap _ _ _ _ _ _ Es).
  apply (Forall2_map_eq _ _ _ _ _ Hc). intros a b Ha _ Hab. rewrite List.Forall_forall in IH. f_equal.
  apply (IH a Ha b); [| exact Hab]. intros x Hx. apply Ho. eapply rtc_l; [exact Ha | exact Hx].
Qed.

(** ** Decoding *)

(** Operations of one shape, whatever their operands. *)
Definition shape {A} (op : Op A) : Op unit := Op.fmap (fun _ => tt) (fun _ => tt) op.

Lemma shape_from_op {A B} (a : Op A) (b : Op B) : shape a = shape b -> from_op a = from_op b /\ is_shuffle a = is_shuffle b.
Proof.
  unfold shape. intros E. rewrite <- (from_op_fmap (fun _ => tt) (fun _ => tt) a), E, from_op_fmap.
  rewrite <- (shuffle_fmap (fun _ => tt) (fun _ => tt) a), E, shuffle_fmap. now split.
Qed.

Lemma shape_norm {A B} (a : Op A) (b : Op B) : shape a = shape b -> shape (norm_op a) = shape (norm_op b).
Proof. unfold shape. rewrite !fmap_norm. now intros ->. Qed.

Lemma shape_same {A B} (a : Op A) (b : Op B) : writable a = true -> shape a = shape b -> same_op a b.
Proof.
  intros W E. destruct (shape_from_op a b E) as [F S]. split; [exact W |]. split.
  - unfold writable in *. now rewrite <- F, <- S.
  - now apply shape_from_op, shape_norm.
Qed.

Lemma shape_opaque {A B} (a : Op A) (b : Op B) dtype : shape a = shape b -> origin_opaque a dtype = origin_opaque b dtype.
Proof.
  assert (H : forall C (op : Op C), origin_opaque op dtype = origin_opaque (shape op) dtype) by (intros C op; now destruct op).
  intros E. now rewrite H, E, <- H.
Qed.

Lemma to_op_shape {A B} (op : Op A) (src : list B) w :
  is_shuffle op = false -> from_op op = inl w -> List.length src = List.length (Op.children op) ->
  exists b, to_op w src = inl b /\ shape op = shape b /\ Op.children b = src.
Proof.
  assert (Map : forall (l : list A) (k : list B), List.length k = List.length l -> map (fun _ => tt) l = map (fun _ => tt) k).
  { induction l as [| x l IH]; intros [| y k] E; try discriminate E; [reflexivity |]. cbn. f_equal. apply IH. now injection E. }
  intros Sh E L. destruct op; cbn [from_op is_shuffle] in *; try discriminate Sh; try discriminate E;
    [.. | destruct alt, gate; cbn [negb Bool.eqb] in E; try discriminate E | destruct gate |];
    injection E as <-; cbn [Op.children Op.opt_list app List.length] in L;
    repeat (match type of L with
      | List.length ?s = Datatypes.S _ => destruct s as [| ? s]; [discriminate L |]; injection L as L
      | List.length ?s = 0%nat => destruct s; [clear L | discriminate L]
      end);
    (eexists; split; [reflexivity |]; split; [unfold shape; cbn [Op.fmap option_map]; try reflexivity; f_equal; now apply Map | reflexivity]).
Qed.

Lemma new_with_origin_total xxh64 st op dtype tag origin :
  Inv st -> load_ok op dtype = true -> exists st1 u, new_with_origin xxh64 op dtype tag origin st = Some (st1, u).
Proof.
  intros Hi L. unfold new_with_origin. rewrite L. destruct (probe _ _ _ _ _) as [n |]; [eauto |].
  destruct (fresh _ _ _ _ _ _ st) as [st' u] eqn:F.
  assert (Hd : List.NoDup (ids st')) by (replace st' with (fst (st', u)) by reflexivity; rewrite <- F; now apply fresh_ids_nodup).
  unfold fresh in F. injection F as F1 F2.
  destruct (find_node st' (uid u)) as [n |] eqn:E; [destruct (intern n st') as [a b] eqn:I; exists a, b; reflexivity |].
  exfalso. unfold find_node in E. pose proof (find_none _ _ E) as N.
  assert (K : exists m, In m (Uops.live st') /\ Node.node m = u).
  { rewrite <- F1. cbn [Uops.live]. eexists. split; [apply in_or_app; right; now left |]. cbn. exact F2. }
  destruct K as (m & Hm & Em). specialize (N m Hm). unfold Node.id in N. rewrite Em, Z.eqb_refl in N. discriminate N.
Qed.

Section Decoding.
Context (xxh64 : Op Z -> DType -> option Z -> Z) (st0 : Uops.t) (Hi0 : Inv st0) (Hh0 : hashed xxh64 st0).

(** A table after building nodes: nothing is lost. *)
Record grown (k : nat) (st st1 : Uops.t) : Prop := {
  grown_inv : Inv st1;
  grown_hashed : hashed xxh64 st1;
  grown_steps : exists j, (j <= k)%nat /\ nsteps (step xxh64) j st st1;
  grown_alive v : alive st v -> alive st1 v;
  grown_live n : In n (Uops.live st) -> Node.id n ∈ Uops.entries st -> In n (Uops.live st1) /\ Node.id n ∈ Uops.entries st1
}.

Lemma grown_refl st : Inv st -> hashed xxh64 st -> grown 0 st st.
Proof using. intros Hi Hh. split; auto. exists 0%nat. split; [lia | constructor]. Qed.

Lemma grown_trans j k st st1 st2 : grown j st st1 -> grown k st1 st2 -> grown (j + k) st st2.
Proof using.
  intros G1 G2. split; try apply G2.
  - destruct (grown_steps _ _ _ G1) as (a & La & Ha), (grown_steps _ _ _ G2) as (b & Lb & Hb).
    exists (a + b)%nat. split; [lia | eapply nsteps_trans; eassumption].
  - intros v Hv. now apply (grown_alive _ _ _ G2), (grown_alive _ _ _ G1).
  - intros n Hn He. destruct (grown_live _ _ _ G1 n Hn He). now apply (grown_live _ _ _ G2).
Qed.

Lemma grown_bound k st st1 :
  Inv st -> Uops.next_uop_id st + Z.of_nat k < 2 ^ 64 -> grown k st st1 ->
  Uops.next_uop_id st1 <= Uops.next_uop_id st + Z.of_nat k.
Proof using.
  intros Hi L G. destruct (grown_steps _ _ _ G) as (j & Lj & Hj).
  destruct (nsteps_Inv xxh64 j st st1 Hj Hi); lia.
Qed.

Lemma new_grown st op dtype tag origin st1 u :
  Inv st -> hashed xxh64 st -> Uops.next_uop_id st + 2 < 2 ^ 64 -> (forall v, In v (refs op) -> alive st v) ->
  new_with_origin xxh64 op dtype tag origin st = Some (st1, u) -> grown 2 st st1.
Proof using.
  intros Hi Hh L Hr E. destruct (new_with_origin_spec xxh64 st op dtype tag origin st1 u Hi) as (_ & _ & _ & Ha & (j & Lj & Hj) & _);
    [lia | exact Hr | exact E |].
  destruct (nsteps_Inv xxh64 j st st1 Hj Hi) as [Hi1 _]; [lia |].
  destruct (nsteps_extends xxh64 j st st1 Hj Hi) as [X T]; [lia |].
  split; [exact Hi1 | apply (nsteps_hashed xxh64 j st); [exact Hj | exact Hi | lia | exact Hh] | now exists j | exact Ha |].
  intros n Hn He. assert (In n (Uops.live st1)) by (now apply (live_kept st Hi)). split; [assumption |].
  apply T; [assumption | | exact He]. apply (alive_bound st (Node.node n) Hi), live_alive, Hn.
Qed.

Lemma writable_refs (op : Op UOp) : writable op = true -> refs op = Op.children op.
Proof using. intros W. unfold refs. destruct op; try (now rewrite app_nil_r); discriminate W. Qed.

(** One node: its operation over the decoded operands is accepted and gives a
    node that looks like the one written. *)
Lemma decode_node st n w us :
  Inv st -> hashed xxh64 st -> Uops.next_uop_id st + 2 < 2 ^ 64 ->
  In n (Uops.live st0) -> writable (uop_op (Node.node n)) = true -> from_op (uop_op (Node.node n)) = inl w ->
  Forall2 (isomorphic st0 st) (children (Node.node n)) us ->
  exists op st1 v, to_op w us = inl op /\
    new_with_origin xxh64 op (uop_dtype (Node.node n)) (Node.tag n) (Node.origin n) st = Some (st1, v) /\
    isomorphic st0 st1 (Node.node n) v /\ grown 2 st st1.
Proof using Hi0.
  intros Hi Hh L Hn W F Hus. destruct (writable_spec _ W) as [Sh _].
  destruct (to_op_shape (uop_op (Node.node n)) us w Sh F) as (op & T & S & C).
  { symmetry. exact (Forall2_length _ _ _ Hus). }
  pose proof (shape_same _ _ W S) as Es. assert (Wop : writable op = true) by apply Es.
  destruct (inv_built st0 Hi0 n Hn) as [Ld Vo].
  assert (Ld' : load_ok op (uop_dtype (Node.node n)) = true).
  { rewrite <- Ld, !load_ok_view. f_equal. symmetry. apply (same_op_fmap _ _ _ _ _ _ Es). rewrite C.
    apply (Forall2_map_eq _ _ _ _ _ Hus). intros a b _ _. apply isomorphic_load_info. }
  assert (Hr : forall v, In v (refs op) -> alive st v).
  { rewrite writable_refs, C by exact Wop. intros v [i Hv]%In_nth_error.
    destruct (Forall2_nth_r _ _ _ _ _ Hus Hv) as (a & _ & Ha). destruct Ha. now apply live_alive. }
  destruct (new_with_origin_total xxh64 st op (uop_dtype (Node.node n)) (Node.tag n) (Node.origin n) Hi Ld') as (st1 & v & E).
  pose proof (new_grown st op _ _ _ st1 v Hi Hh L Hr E) as G.
  exists op, st1, v. split; [exact T |]. split; [exact E |]. split; [| exact G].
  destruct (new_with_origin_spec xxh64 st op (uop_dtype (Node.node n)) (Node.tag n) (Node.origin n) st1 v Hi) as (_ & _ & _ & _ & _ & m & Hm & <- & He & Ed & Et & Eo & Ek);
    [lia | exact Hr | exact E |].
  pose proof (grown_inv _ _ _ G) as Hi1. rewrite (inv_key st1 Hi1 m Hm) in Ek.
  apply isomorphic_nodes; try assumption; try congruence.
  - pose proof (shape_opaque _ _ (uop_dtype (Node.node n)) S) as So. unfold visible_origin in *. rewrite <- So in Eo.
    symmetry. now rewrite Eo.
  - pose proof (key_same_op _ _ _ _ _ _ Wop (eq_sym Ek)) as Es'. split; [exact W |]. split; [apply Es' |].
    destruct Es as (_ & _ & ->). apply Es'.
  - assert (children (Node.node m) = us) as ->.
    { rewrite <- C. apply (alive_ids st1 _ _ Hi1).
      - intros a Ha. apply (inv_refs st1 Hi1 m a Hm), in_or_app. now left.
      - intros a Ha. apply (grown_alive _ _ _ G), Hr, in_or_app. now left.
      - exact (op_key_children _ _ _ _ Ek). }
    eapply Forall2_impl; [exact Hus |]. intros a b Hab. apply (isomorphic_mono st0 st); [| exact Hab].
    intros x Hx Hex. now apply (grown_live _ _ _ G).
Qed.
Lemma decode_sources_spec {R : UOp -> UOp -> Prop} (done decoded : list UOp) cs src :
  Forall2 R done decoded ->
  Forall2 (fun c i => 0 <= i < Z.of_nat (List.length done) /\ nth_error done (Z.to_nat i) = Some c) cs src ->
  exists us, decode_sources (Z.of_nat (List.length done)) decoded src = Some (inl us) /\ Forall2 R cs us.
Proof using.
  intros Hd. induction 1 as [| c i cs src [L N] _ (us & E & Hus)]; [exists []; split; [reflexivity | constructor] |].
  destruct (Forall2_nth_l _ _ _ _ _ Hd N) as (v & Nv & Hv). exists (v :: us). cbn [decode_sources].
  rewrite Z.geb_leb, (proj2 (Z.leb_gt _ _)), Nv, E by apply L. split; [reflexivity | now constructor].
Qed.

(** The loop: what is decoded so far looks like what was written. *)
Lemma decode_nodes_spec topo rest nodes : Forall2 (written st0 topo) rest nodes ->
  (forall n, In n (Uops.live st0) -> Node.origin n <> Some 0) ->
  (forall u, In u rest -> writable (uop_op u) = true) -> List.NoDup (map uid topo) ->
  forall done decoded st, topo = done ++ rest -> Forall2 (isomorphic st0 st) done decoded ->
  Inv st -> hashed xxh64 st -> Uops.next_uop_id st + 2 * Z.of_nat (List.length rest) < 2 ^ 64 ->
  exists st1 us, decode_nodes xxh64 (Z.of_nat (List.length done)) nodes decoded st = Some (st1, inl us) /\
    Forall2 (isomorphic st0 st1) topo us /\ grown (2 * List.length rest) st st1.
Proof using Hi0 Hh0.
  intros Hw Ho Hr Hd. induction Hw as [| u wn rest nodes Hu _ IH]; intros done decoded st E Hdec Hi Hh L.
  { exists st, decoded. rewrite E, app_nil_r. split; [reflexivity |]. split; [exact Hdec | now apply grown_refl]. }
  destruct Hu as [(n & Hn & <- & Et & Eo & Ec) Ed Eop (k & Nk & Hsrc)]. cbn [List.length] in *.
  assert (k = List.length done) as ->.
  { apply (NoDup_nth_error topo); [exact (NoDup_map_inv _ _ Hd) | apply nth_error_Some; congruence |].
    rewrite Nk, E, nth_error_app2, Nat.sub_diag by lia. reflexivity. }
  destruct (decode_sources_spec done decoded (children (Node.node n)) (WireNode.src wn) Hdec) as (us & Es & Hus).
  { eapply Forall2_impl; [exact Hsrc |]. intros c i [Li Ni]. split; [exact Li |]. rewrite E, nth_error_app1 in Ni by lia. exact Ni. }
  destruct (decode_node st n (WireNode.op wn) us Hi Hh) as (op & st1 & v & T & N & Hv & G);
    [lia | exact Hn | apply Hr; now left | exact Eop | exact Hus |].
  assert (Eq : match WireNode.origin wn with Some raw => from_raw raw | None => None end = Node.origin n).
  { rewrite Eo. specialize (Ho n Hn). destruct (Node.origin n) as [r |]; [| reflexivity]. unfold from_raw.
    destruct (Z.eqb_spec r 0) as [-> |]; [now destruct Ho | reflexivity]. }
  pose proof (grown_bound 2 st st1 Hi ltac:(lia) G) as L1.
  destruct (IH ltac:(intros x Hx; apply Hr; now right) (done ++ [Node.node n]) (decoded ++ [v]) st1) as (st2 & us2 & E2 & Hus2 & G2).
  - now rewrite <- app_assoc.
  - apply Forall2_app; [| now repeat constructor]. eapply Forall2_impl; [exact Hdec |]. intros a b. apply isomorphic_mono.
    intros x Hx Hex. now apply (grown_live _ _ _ G).
  - apply G.
  - apply G.
  - lia.
  - exists st2, us2. split; [| split; [exact Hus2 |]].
    + cbn [decode_nodes]. rewrite Es, T, Eq, Ed, Et, N.
      rewrite <- (isomorphic_hash xxh64 st0 Hi0 st1 _ v (grown_inv _ _ _ G) Hh0 (grown_hashed _ _ _ G) Hv).
      rewrite (content_hash_live st0 n (inv_ids st0 Hi0) Hn), Ec, Z.eqb_refl.
      rewrite length_app, Nat2Z.inj_add in E2. exact E2.
    + replace (2 * Datatypes.S (List.length rest))%nat with (2 + 2 * List.length rest)%nat by lia.
      eapply grown_trans; eassumption.
Qed.
Lemma decode_roots_spec {R : UOp -> UOp -> Prop} topo us roots js :
  Forall2 R topo us -> Forall2 (fun c i => 0 <= i < Z.of_nat (List.length topo) /\ nth_error topo (Z.to_nat i) = Some c) roots js ->
  exists vs, decode_roots us js = inl vs /\ Forall2 R roots vs.
Proof using.
  intros Ht. induction 1 as [| r i roots js [_ N] _ (vs & E & Hvs)]; [exists []; split; [reflexivity | constructor] |].
  destruct (Forall2_nth_l _ _ _ _ _ Ht N) as (v & Nv & Hv). exists (v :: vs). cbn [decode_roots]. rewrite Nv, E.
  split; [reflexivity | now constructor].
Qed.

Definition add_handles (us : list UOp) (st : Uops.t) : Uops.t := fold_left (fun st u => add_handle u st) us st.

Lemma add_handles_table us st :
  Uops.live (add_handles us st) = Uops.live st /\ Uops.entries (add_handles us st) = Uops.entries st /\
  incl (us ++ Uops.handles st) (Uops.handles (add_handles us st)).
Proof using.
  revert st. induction us as [| u us IH]; intros st; [now split_and! |]. cbn [add_handles fold_left app].
  destruct (IH (add_handle u st)) as (L & E & H). split_and!; [exact L | exact E |]. intros x Hx. apply H. cbn.
  apply in_app_iff. destruct Hx as [-> | [Hx | Hx]%in_app_iff]; [right; now left | now left | right; now right].
Qed.

(** Writing a graph succeeds, in dependency order. *)
Lemma from_roots_spec roots :
  (forall root, In root roots -> alive st0 root) ->
  (forall root v, In root roots -> occurs root v -> encodable st0 v = true) ->
  exists g topo, from_roots st0 roots = Some (inl g) /\ WireGraph.schema_version g = OPTIMIZER_WIRE_SCHEMA_VERSION /\
    dependency_first roots topo /\ (forall n, In n topo -> alive st0 n /\ encodable st0 n = true) /\
    Forall2 (written st0 topo) topo (WireGraph.nodes g) /\
    Forall2 (fun c i => 0 <= i < Z.of_nat (List.length topo) /\ nth_error topo (Z.to_nat i) = Some c) roots (WireGraph.roots g).
Proof using Hi0.
  intros Ha He. pose proof (Inv_arena st0 Hi0) as AR.
  set (G := fun v => exists root, In root roots /\ occurs root v).
  assert (Arena G).
  { constructor.
    - intros u v (r & Hr & Ho) Hv. exists r. split; [exact Hr |]. eapply rtc_r; eassumption.
    - intros a b (r & Hr & Hra) (q & Hq & Hqb). apply (arena_id (G := alive st0));
        [apply (arena_occurs (alive st0) r) | apply (arena_occurs (alive st0) q)]; auto. }
  destruct (collect_topo_spec st0 G) with (roots := roots) as (topo & C & D).
  { intros u (r & Hr & Ho). exact (He r u Hr Ho). }
  { apply List.Forall_forall. intros r Hr. exists r. split; [exact Hr | constructor]. }
  assert (Hn : forall n, In n topo -> alive st0 n /\ encodable st0 n = true).
  { intros n (r & Hr & Ho)%(df_nodes _ _ D). split; [apply (arena_occurs (alive st0) r); auto | exact (He r n Hr Ho)]. }
  destruct (encode_nodes_spec st0 Hi0 topo (df_nodup _ _ D) (df_sources _ _ D) Hn topo [] eq_refl) as (nodes & En & Hw).
  destruct (collect_positions topo topo roots (df_nodup _ _ D) (ex_intro _ [] (eq_sym (app_nil_r topo)))) as (js & Ej & Hj).
  { intros r Hr. apply (df_nodes _ _ D). exists r. split; [exact Hr | constructor]. }
  unfold from_roots. rewrite C, En, Ej. eexists _, topo. split; [reflexivity |]. now split_and!.
Qed.

Lemma topo_bound roots topo : dependency_first roots topo -> (forall n, In n topo -> alive st0 n) ->
  Z.of_nat (List.length topo) <= Uops.next_uop_id st0.
Proof using Hi0.
  intros D Ha. pose proof (inv_pos st0 Hi0).
  assert (L : (List.length (map uid topo) <= List.length (seqZ 0 (Uops.next_uop_id st0)))%nat).
  { apply List.NoDup_incl_length; [exact (df_nodup _ _ D) |]. intros i (n & <- & Hn)%in_map_iff.
    apply list_elem_of_In, elem_of_seqZ. pose proof (alive_bound st0 n Hi0 (Ha n Hn)). lia. }
  rewrite length_map, length_seqZ in L. lia.
Qed.

Lemma wire_transfer roots st :
  (forall root, In root roots -> alive st0 root) ->
  (forall root v, In root roots -> occurs root v -> encodable st0 v = true) ->
  (forall n, In n (Uops.live st0) -> Node.origin n <> Some 0) ->
  Inv st -> hashed xxh64 st -> Uops.next_uop_id st + 2 * Uops.next_uop_id st0 < 2 ^ 64 ->
  exists g st1 us, from_roots st0 roots = Some (inl g) /\ decode xxh64 g st = Some (add_handles us st1, inl us) /\
    Forall2 (isomorphic st0 st1) roots us /\ exists k, Z.of_nat k <= 2 * Uops.next_uop_id st0 /\ grown k st st1.
Proof using Hi0 Hh0.
  intros Ha He Ho Hi Hh L. destruct (from_roots_spec roots Ha He) as (g & topo & F & V & D & Hn & Hw & Hr).
  pose proof (topo_bound roots topo D ltac:(intros n Hin; apply (Hn n Hin))) as B.
  destruct (decode_nodes_spec topo topo (WireGraph.nodes g) Hw Ho) with (done := @nil UOp) (decoded := @nil UOp) (st := st)
    as (st1 & us & E & Hus & G); try assumption; try reflexivity.
  { intros u Hu. destruct (Hn u Hu) as [_ X]. now apply andb_prop in X. }
  { apply (df_nodup _ _ D). }
  { constructor. }
  { lia. }
  destruct (decode_roots_spec topo us roots (WireGraph.roots g) Hus Hr) as (vs & Ev & Hvs).
  exists g, st1, vs. split; [exact F |]. split; [| split; [exact Hvs | exists (2 * List.length topo)%nat; split; [lia | exact G]]].
  unfold decode. rewrite V. cbn [negb Z.eqb OPTIMIZER_WIRE_SCHEMA_VERSION Pos.eqb]. cbn [List.length] in E. change (Z.of_nat 0) with 0 in E. rewrite E, Ev. reflexivity.
Qed.
End Decoding.

(** ** Graphs of any origin *)

Definition is_load (w : WireOp.t) : bool := match w with WireOp.Load _ => true | _ => false end.

Lemma to_op_refs w us op : to_op w us = inl op -> incl (refs op) us /\ (is_load w = false -> forall d, load_ok op d = true).
Proof.
  destruct w; cbn [to_op];
    repeat match goal with b : bool |- _ => destruct b end;
    (destruct us as [| a [| b [| c [| ? ?]]]]; cbn [exact0 exact1 exact2 exact3 nonempty]; unfold wrong; intros E; try discriminate E;
     injection E as <-; (split; [unfold refs; cbn; rewrite ?app_nil_r; try apply incl_refl | try discriminate; reflexivity])).
Qed.

Lemma decode_sources_any index decoded src :
  Z.of_nat (List.length decoded) = index -> Forall (fun i => 0 <= i) src ->
  exists r, decode_sources index decoded src = Some r /\ match r with inl us => incl us decoded | inr _ => True end.
Proof.
  intros L. induction 1 as [| i src Hi _ (r & E & Hr)]; [exists (inl []); now split |]. cbn [decode_sources].
  destruct (i >=? index) eqn:G; [eexists; now split |]. rewrite Z.geb_leb in G. apply Z.leb_gt in G.
  destruct (nth_error decoded (Z.to_nat i)) as [u |] eqn:N; [| apply nth_error_None in N; lia].
  rewrite E. eexists. split; [reflexivity |]. destruct r as [us |]; [| exact Logic.I]. intros v [<- | Hv]; [exact (nth_error_In _ _ N) | now apply Hr].
Qed.

Lemma decode_nodes_any xxh64 nodes : Forall (fun n => is_load (WireNode.op n) = false /\ Forall (fun i => 0 <= i) (WireNode.src n)) nodes ->
  forall index decoded st, Z.of_nat (List.length decoded) = index -> (forall u, In u decoded -> alive st u) ->
  Inv st -> hashed xxh64 st -> Uops.next_uop_id st + 2 * Z.of_nat (List.length nodes) < 2 ^ 64 ->
  exists st1 r, decode_nodes xxh64 index nodes decoded st = Some (st1, r).
Proof.
  induction 1 as [| n nodes [Hn Hs] _ IH]; intros index decoded st L Ha Hi Hh B; [now exists st, (inl decoded) |].
  cbn [decode_nodes List.length] in *. destruct (decode_sources_any index decoded _ L Hs) as (r & -> & Hr).
  destruct r as [us |]; [| eauto]. destruct (to_op _ us) as [op |] eqn:T; [| eauto].
  destruct (to_op_refs _ _ _ T) as [Hop Hl]. specialize (Hl Hn).
  assert (Hrefs : forall v, In v (refs op) -> alive st v) by (intros v Hv; apply Ha, Hr, Hop, Hv).
  match goal with |- context [new_with_origin _ op ?d ?t ?o st] =>
    destruct (new_with_origin_total xxh64 st op d t o Hi (Hl _)) as (st1 & v & E);
    pose proof (new_grown xxh64 st op d t o st1 v Hi Hh ltac:(lia) Hrefs E) as G;
    destruct (new_with_origin_spec xxh64 st op d t o st1 v Hi) as (_ & Hv & _); [lia | exact Hrefs | exact E |]; rewrite E
  end.
  destruct (_ =? _); [| eauto]. pose proof (grown_bound xxh64 2 st st1 Hi ltac:(lia) G). apply IH.
  - rewrite length_app. cbn. lia.
  - intros u [Hu | [<- | []]]%in_app_iff; [now apply (grown_alive _ _ _ _ G), Ha | exact (inv_handles st1 (grown_inv _ _ _ _ G) v Hv)].
  - apply G.
  - apply G.
  - lia.
Qed.

(** C25: Reading never panics on a graph without LOADs, whatever its bytes said:
    positions out of order, wrong operand counts, foreign hashes and missing
    roots are all reported. *)
Theorem decode_reports_errors xxh64 k st g :
  nsteps (step xxh64) k Uops.empty st -> Z.of_nat (k + 2 * List.length (WireGraph.nodes g)) < 2 ^ 64 ->
  Forall (fun n => is_load (WireNode.op n) = false /\ Forall (fun i => 0 <= i) (WireNode.src n)) (WireGraph.nodes g) ->
  exists st1 r, decode xxh64 g st = Some (st1, r).
Proof.
  intros Hst B Hn. destruct (reachable_Inv xxh64 k st Hst) as [Hi Lk]; [lia |].
  unfold decode. destruct (negb _); [eauto |].
  destruct (decode_nodes_any xxh64 _ Hn 0 [] st eq_refl) as (st1 & r & ->);
    [intros u [] | exact Hi | apply (reachable_hashed xxh64 k st Hst); lia | lia |].
  destruct r as [us |]; [| eauto]. destruct (decode_roots us _); eauto.
Qed.

(** ** Round trips *)



(** ** Concrete graphs *)
Module WireDemo.
Import HashCons.Demo.

(** Another table, where an unrelated node took the first id. *)
Definition other : Op UOp := Op.Const UOp (ConstValue.Int 5).
Definition st3 : Uops.t := run Uops.empty other.

Lemma run_other : nsteps (step hash) 2 Uops.empty st3.
Proof.
  set (n := Node.mk (mkUOp 0 other i32) None None 0 false (op_key (fun _ => 0) other)).
  eapply nsteps_l.
  { eapply (step_fresh hash _ other i32 None (Some 7)); [reflexivity | now intros ? []]. }
  eapply nsteps_l; [| constructor].
  match goal with |- step _ ?a _ => change st3 with (fst (intern n a)) end.
  apply step_intern; [now left |]. apply elem_of_cons. now left.
Qed.

Lemma occurs_y v : occurs y v -> v = y \/ v = x.
Proof. intros [<- | [<- | [<- | []]]]%nodes_occurs; [left | right | right]; reflexivity. Qed.

Lemma alive_y root : In root [y] -> alive st2 root.
Proof. intros [<- | []]. exists node_y. split; [right; now left | reflexivity]. Qed.

Lemma origins_st2 n : In n (Uops.live st2) -> Node.origin n <> Some 0.
Proof. intros [<- | [<- | []]]; discriminate. Qed.

(** A SHUFFLE is written as a STACK. *)
Definition tell (op : Op Z) (_ : DType) (_ : option Z) : Z := if is_shuffle op then 1 else 0.
Definition transfer (xxh64 : Op Z -> DType -> option Z -> Z) : option (UOp + WireError) :=
  let? (st, x) := new_with_origin xxh64 const i32 None None Uops.empty in
  let? (st, u) := new_with_origin xxh64 (Op.Shuffle UOp x [0]) i32 None None st in
  let? g := from_root st u in
  match g with
  | inl g => let? (_, r) := decode_root xxh64 g st in Some r
  | inr e => Some (inr e)
  end.
End WireDemo.

Lemma decode_reports_errors_witness :
  exists st r, decode Demo.hash (WireGraph.mk 4 [0] [WireNode.mk Demo.i32 None None 0 WireOp.Detach [0]]) Demo.st2 = Some (st, r).
Proof.
  apply (decode_reports_errors Demo.hash 4 Demo.st2 _ Demo.run_steps); [reflexivity |].
  repeat constructor; reflexivity.
Defined.

(** The assertions on LOADs are the exception: a LOAD read with another dtype
    than its operand's aborts instead of giving an error. *)
Example load_of_another_dtype_aborts :
  decode Demo.hash
    (WireGraph.mk 4 [1]
       [WireNode.mk Demo.i32 None None 0 (WireOp.Const (ConstValue.Int 2)) [];
        WireNode.mk (DType.Scalar Float32) None None 0 (WireOp.Load false) [0]]) Demo.st2 = None.
Proof. reflexivity. Qed.



(** The mask of a SHUFFLE is lost: the graph written is that of a STACK, so
    reading it fails on the content hash, or, where the two hashes collide,
    gives a STACK for a SHUFFLE. *)
Theorem shuffle_is_not_reproduced :
  WireDemo.transfer WireDemo.tell = Some (inr (ContentHashChanged 1 1 0)) /\
  exists u, WireDemo.transfer Demo.hash = Some (inl u) /\ is_shuffle (uop_op u) = false.
Proof. split; [reflexivity |]. eexists. split; reflexivity. Qed.
