(* ===== verification/SymInt.v ===== *)
(** * Arithmetic of symbolic sizes ([ir/src/sint.rs])

    Concrete sizes are folded; with a symbolic operand a node is built through
    the arithmetic constructors.  Sizes are [usize]s: a sum or product that does
    not fit, a division by zero and arithmetic on the reshape placeholder are
    panics, as in a build that checks overflow. *)

From S2P Require Import Prelude F64 DType Cast ConstVal Ops Eval Payload UOp RangeEval HashCons Builder.
From S2P Require Import Shape Constructors Properties.

Module Sint.

Definition const_to_i128 (v : ConstValue) : option Z :=
  match v with ConstValue.Int x | ConstValue.UInt x => Some x | _ => None end.

Fixpoint symbolic_contains_max_term (expr needle : UOp) : bool :=
  let 'mkUOp id op _ := expr in
  if id =? uid needle then true
  else
    match op with
    | Op.Binary _ BinaryOp.Max lhs rhs =>
        symbolic_contains_max_term lhs needle || symbolic_contains_max_term rhs needle
    | _ => false
    end.

(** The outer [None] is a panic: the product of [i128]s overflows. *)
Fixpoint const_leaf (u : UOp) : option (option Z) :=
  let 'mkUOp _ op _ := u in
  match op with
  | Op.Const _ c => Some (const_to_i128 c)
  | Op.Binary _ BinaryOp.Mul lhs rhs =>
      let? l := const_leaf lhs in
      match l with
      | None => Some None
      | Some x =>
          let? r := const_leaf rhs in
          match r with
          | None => Some None
          | Some y => let? z := checked_i128 (x * y) in Some (Some z)
          end
      end
  | _ => Some None
  end.

(** The constant addend, and the varying terms appended to [varying]. *)
Fixpoint affine_terms (expr : UOp) (varying : list Z) : option (Z * list Z) :=
  let leaf :=
    let? c := const_leaf expr in
    match c with Some v => Some (v, varying) | None => Some (0, varying ++ [uid expr]) end in
  let 'mkUOp _ op _ := expr in
  match op with
  | Op.Binary _ BinaryOp.Add lhs rhs =>
      let? (x, varying) := affine_terms lhs varying in
      let? (y, varying) := affine_terms rhs varying in
      let? z := checked_i128 (x + y) in
      Some (z, varying)
  | _ => leaf
  end.

Definition is_add (u : UOp) : bool :=
  match uop_op u with Op.Binary _ BinaryOp.Add _ _ => true | _ => false end.

Definition affine_difference (a b : UOp) : option (option Z) :=
  if negb (is_add a) && negb (is_add b) then Some None
  else
    let? (c_a, terms_a) := affine_terms a [] in
    let? (c_b, terms_b) := affine_terms b [] in
    if bool_decide (sort_unstable terms_a = sort_unstable terms_b)
    then let? d := checked_i128 (c_a - c_b) in Some (Some d)
    else Some None.

Definition usize (v : Z) : option Z := if v <? 2 ^ 64 then Some v else None.

Section Arith.
Context {M : LibM} {S : Type} `{I : !Interner S} `{Sh : !Shapes S}.

(** A pure result, or a panic. *)
Definition lift {A} (o : option A) : Build S A := match o with Some a => ret a | None => panic end.

Definition arithmetic_uop (self : SInt) : Build S UOp :=
  match self with
  | SInt.Const v => index_const (wrap_s 64 v)
  | SInt.Symbolic uop => ret uop
  | SInt.Infer => panic
  end.

Definition arithmetic_pair (self rhs : SInt) : Build S (UOp * UOp) :=
  match self, rhs with
  | SInt.Const _, SInt.Symbolic value => let* a := to_uop self (uop_dtype value) in ret (a, value)
  | SInt.Symbolic value, SInt.Const _ => let* b := to_uop rhs (uop_dtype value) in ret (value, b)
  | _, _ => let* a := arithmetic_uop self in let* b := arithmetic_uop rhs in ret (a, b)
  end.

(** [impl_sint_binop!]. *)
Definition sint_binop (concrete_op : Z -> Z -> option Z) (uop_method : UOp -> UOp -> Build S (Result UOp))
    (self rhs : SInt) : Build S SInt :=
  match self, rhs with
  | SInt.Infer, _ | _, SInt.Infer => panic
  | SInt.Const a, SInt.Const b => let* v := lift (concrete_op a b) in ret (SInt.Const v)
  | _, SInt.Const 0 => ret self
  | SInt.Const 0, _ => ret rhs
  | _, _ =>
      let* (a, b) := arithmetic_pair self rhs in
      let* u := expect (uop_method a b) in
      ret (SInt.Symbolic u)
  end.

Definition add : SInt -> SInt -> Build S SInt := sint_binop (fun a b => usize (a + b)) try_add.
Definition mul : SInt -> SInt -> Build S SInt := sint_binop (fun a b => usize (a * b)) try_mul.
Definition div : SInt -> SInt -> Build S SInt :=
  sint_binop (fun a b => if b =? 0 then None else Some (a / b)) try_div.

Definition sub (self rhs : SInt) : Build S SInt :=
  match self, rhs with
  | SInt.Infer, _ | _, SInt.Infer => panic
  | SInt.Const a, SInt.Const b => if a >=? b then ret (SInt.Const (a - b)) else panic
  | _, SInt.Const 0 => ret self
  | _, _ =>
      if SInt.eqb self rhs then ret (SInt.Const 0)
      else
        let* (a, b) := arithmetic_pair self rhs in
        let* diff := lift (affine_difference a b) in
        match diff with
        | Some diff => if diff >=? 0 then ret (SInt.Const (wrap_u 64 diff)) else panic
        | None => let* u := expect (try_sub a b) in ret (SInt.Symbolic u)
        end
  end.

Definition ceildiv (self rhs : SInt) : Build S SInt :=
  let* s := add self rhs in
  let* s := sub s (SInt.Const 1) in
  div s rhs.

(** The larger of two symbolic sizes when the ranges tell, [None] when not. *)
Definition by_range (a b : UOp) (self rhs : SInt) : option SInt :=
  match const_to_i128 (fst (vmin_vmax a)), const_to_i128 (snd (vmin_vmax a)),
        const_to_i128 (fst (vmin_vmax b)), const_to_i128 (snd (vmin_vmax b)) with
  | Some a_min, Some a_max, Some b_min, Some b_max =>
      if a_min >=? b_max then Some self else if b_min >=? a_max then Some rhs else None
  | _, _, _, _ => None
  end.

Definition smax (self rhs : SInt) : Build S SInt :=
  match self, rhs with
  | SInt.Infer, _ | _, SInt.Infer => panic
  | SInt.Const a, SInt.Const b => ret (SInt.Const (Z.max a b))
  | _, _ =>
      if SInt.eqb self rhs then ret self
      else
        let* (a, b) := arithmetic_pair self rhs in
        if symbolic_contains_max_term a b then ret self
        else if symbolic_contains_max_term b a then ret rhs
        else
          match by_range a b self rhs with
          | Some d => ret d
          | None => let* u := expect (try_max a b) in ret (SInt.Symbolic u)
          end
  end.

Definition smin (self rhs : SInt) : Build S SInt :=
  match self, rhs with
  | SInt.Infer, _ | _, SInt.Infer => panic
  | SInt.Const a, SInt.Const b => ret (SInt.Const (Z.min a b))
  | _, _ =>
      let* (a, b) := arithmetic_pair self rhs in
      let* na := neg a in
      let* nb := neg b in
      let* neg_max := expect (try_max na nb) in
      let* u := neg neg_max in
      ret (SInt.Symbolic u)
  end.

(** *** Products and extrema of shapes *)

Fixpoint fold_sint (f : SInt -> SInt -> Build S SInt) (acc : SInt) (values : list SInt) : Build S SInt :=
  match values with
  | [] => ret acc
  | v :: values => let* acc := f acc v in fold_sint f acc values
  end.

Definition sint_prod (values : list SInt) : Build S SInt := fold_sint mul (SInt.Const 1) values.
Definition sint_max (values : list SInt) : Build S SInt :=
  match values with [] => panic | v :: values => fold_sint smax v values end.
Definition sint_min (values : list SInt) : Build S SInt :=
  match values with [] => panic | v :: values => fold_sint smin v values end.
End Arith.
End Sint.
