(* ===== verification/SymIntSpec.v ===== *)
(** * Symbolic sizes compute what their values say

    Over symbolic sizes of one integer dtype, a sum, product or difference
    denotes the operation on the values of its operands, up to the width of
    the dtype; a quotient, a maximum and a minimum exactly.  Products and
    quotients have the exception of a concrete zero. *)

From stdpp Require Import sorting.
From S2P Require Import Prelude F64 DType Cast ConstVal Ops IntView Eval Payload UOp Semantics RangeEval RangeSound HashCons.
From S2P Require Import Rebuild Builder Shape Constructors ConstructorSpec Exact HelperSpec Properties SymInt.
Import Sint.
#[local] Set Default Proof Using "All".

Section Sizes.
Context {M : LibM} {S : Type} `{I : !Interner S} `{Sh : !Shapes S}.
Context (t : ScalarDType) (Ht : is_Some (int_format t)) (r : env).
Implicit Types s : S.

Notation "a ≡ b" := (same t a b) (at level 70).

(** ** Affine differences *)

Definition typed s (u : UOp) : Prop := table s u /\ int_wt u = true /\ base_of u = t.

Lemma expr_is_typed s u : expr t s u -> typed s u.
Proof using Type. intros He. split; [apply He |]. split; [apply He | exact (expr_base t s u He)]. Qed.

Lemma typed_children s i op a b d :
  settled s -> BinaryOp.is_comparison op = false -> typed s (mkUOp i (Op.Binary UOp op a b) d) ->
  typed s a /\ typed s b /\ DType.base d = t.
Proof using Type.
  intros Hs Hc (Tu & Wu & Bu). unfold base_of in Bu. cbn [uop_dtype] in Bu.
  assert (Ta : table s a) by (apply (table_source s _ a Hs Tu); now left).
  assert (Tb : table s b) by (apply (table_source s _ b Hs Tu); right; now left).
  cbn [int_wt] in Wu. rewrite Hc in Wu. split_wt Wu. unfold typed. rewrite <- Bu. intuition.
Qed.

(** An arithmetic node computes the operation modulo the width. *)
Lemma binary_value i op a b d z :
  BinaryOp.is_comparison op = false -> DType.base d = t -> val r (mkUOp i (Op.Binary UOp op a b) d) z ->
  exists x y, val r a x /\ val r b y /\ sem_binary op t x y = Some z.
Proof using Type.
  unfold val. intros Hc Hd H. cbn [denote] in H. rewrite Hd in H.
  destruct (denote r a) as [x |]; [| discriminate H]. destruct (denote r b) as [y |]; [| discriminate H].
  exists x, y. split; [reflexivity |]. split; [reflexivity |].
  destruct (sem_comparison op x y) eqn:E; [| exact H]. destruct op; discriminate Hc || discriminate E.
Qed.

Lemma const_leaf_spec s u : forall k z,
  settled s -> typed s u -> const_leaf u = Some (Some k) -> val r u z -> z ≡ k.
Proof.
  induction u as [u IH] using UOp_children_ind. intros k z Hs Hu H Hz. destruct u as [i op d].
  destruct op; try discriminate H; cbn [const_leaf] in H.
  - unfold val in Hz. cbn [denote] in Hz. destruct value; cbn in H, Hz; try discriminate H; injection H as <-;
      injection Hz as <-; reflexivity.
  - destruct op; try discriminate H.
    destruct (typed_children s i BinaryOp.Mul lhs rhs d Hs eq_refl Hu) as (Ta & Tb & Hd).
    destruct (const_leaf lhs) as [[x |] |] eqn:Ex; try discriminate H.
    destruct (const_leaf rhs) as [[y |] |] eqn:Ey; try discriminate H.
    destruct (checked_i128 (x * y)) as [p |] eqn:C; [| discriminate H]. injection H as <-.
    unfold checked_i128 in C. destruct (in_i128b _); [| discriminate C]. injection C as <-.
    destruct (binary_value i BinaryOp.Mul lhs rhs d z eq_refl Hd Hz) as (v & w & Hv & Hw & E).
    cbn in E. injection E as <-. refine (eq_trans (same_wrap t Ht _) _).
    cbn [children uop_op Op.children] in IH. apply Forall_cons in IH as [IHa IHb]. apply Forall_cons in IHb as [IHb _].
    apply (same_mul t Ht); [exact (IHa x v Hs Ta Ex Hv) | exact (IHb y w Hs Tb Ey Hw)].
Qed.

(** [zs] are the values of the nodes named by [ids]. *)
Definition values s (ids zs : list Z) : Prop :=
  Forall2 (fun i z => exists u, table s u /\ uid u = i /\ val r u z) ids zs.

Lemma affine_terms_spec s u : forall varying c varying' z,
  settled s -> typed s u -> affine_terms u varying = Some (c, varying') -> val r u z ->
  exists ids zs, varying' = varying ++ ids /\ values s ids zs /\ z ≡ c + sum zs.
Proof.
  induction u as [u IH] using UOp_children_ind. intros varying c varying' z Hs Hu H Hz.
  assert (Leaf : (let? k := const_leaf u in
      match k with Some v => Some (v, varying) | None => Some (0, varying ++ [uid u]) end) = Some (c, varying') ->
    exists ids zs, varying' = varying ++ ids /\ values s ids zs /\ z ≡ c + sum zs).
  { intros E. destruct (const_leaf u) as [[v |] |] eqn:Ec; try discriminate E; injection E as <- <-.
    - exists [], []. rewrite app_nil_r. split; [reflexivity |]. split; [constructor |]. cbn [sum foldr].
      rewrite Z.add_0_r. exact (const_leaf_spec s u v z Hs Hu Ec Hz).
    - exists [uid u], [z]. split; [reflexivity |]. split; [| cbn [sum foldr]; rewrite Z.add_0_r; reflexivity].
      constructor; [| constructor]. exists u. split; [apply Hu | now split]. }
  destruct u as [i op d]. destruct op; try exact (Leaf H). destruct op; try exact (Leaf H).
  clear Leaf. cbn [affine_terms] in H. destruct (typed_children s i BinaryOp.Add lhs rhs d Hs eq_refl Hu) as (Ta & Tb & Hd).
  destruct (affine_terms lhs varying) as [[x va] |] eqn:Ea; [| discriminate H].
  destruct (affine_terms rhs va) as [[y vb] |] eqn:Eb; [| discriminate H].
  destruct (checked_i128 (x + y)) as [q |] eqn:C; [| discriminate H]. injection H as <- <-.
  unfold checked_i128 in C. destruct (in_i128b _); [| discriminate C]. injection C as <-.
  destruct (binary_value i BinaryOp.Add lhs rhs d z eq_refl Hd Hz) as (v & w & Hv & Hw & E). cbn in E. injection E as <-.
  cbn [children uop_op Op.children] in IH. apply Forall_cons in IH as [IHa IHb]. apply Forall_cons in IHb as [IHb _].
  destruct (IHa varying x va v Hs Ta Ea Hv) as (ids & zs & -> & V1 & S1).
  destruct (IHb _ y vb w Hs Tb Eb Hw) as (ids' & zs' & -> & V2 & S2).
  exists (ids ++ ids'), (zs ++ zs'). rewrite app_assoc. split; [reflexivity |]. split; [now apply Forall2_app |].
  rewrite sum_app. refine (eq_trans (same_wrap t Ht _) _). replace (x + y + (sum zs + sum zs')) with ((x + sum zs) + (y + sum zs')) by lia.
  now apply (same_add t Ht).
Qed.

Lemma values_inj s ids zs : forall zs', settled s -> values s ids zs -> values s ids zs' -> zs = zs'.
Proof using Type.
  intros zs' Hs H. revert zs'. induction H as [| i z ids zs (u & Tu & E & Hu) _ IH]; intros zs' H';
    inversion H' as [| ? w ? ws (v & Tv & Ev & Hv) H2]; subst; [reflexivity |]. assert (v = u) as -> by (apply (table_id s); assumption).
  f_equal; [exact (val_inj r u _ _ Hu Hv) | now apply IH].
Qed.

Lemma values_perm s ids ids' zs : Permutation ids ids' -> values s ids zs ->
  exists zs', values s ids' zs' /\ sum zs' = sum zs.
Proof using Type.
  intros P. revert zs. induction P as [| i ids ids' P IH | i j ids | ids1 ids2 ids3 P1 IH1 P2 IH2]; intros zs H.
  - exists zs. now split.
  - inversion H as [| ? z ? zs0 Hz Hzs]; subst. destruct (IH zs0 Hzs) as (zs' & V & E). exists (z :: zs').
    split; [now constructor | cbn [sum foldr] in *; fold (sum zs') (sum zs0); lia].
  - inversion H as [| ? z ? zs0 Hz Hzs]; subst. inversion Hzs as [| ? w ? zs1 Hw Hws]; subst. exists (w :: z :: zs1).
    split; [now repeat constructor | cbn [sum foldr]; lia].
  - destruct (IH1 zs H) as (zs' & V & E). destruct (IH2 zs' V) as (zs'' & V' & E'). exists zs''. split; [exact V' | congruence].
Qed.

(** The difference of two sums over the same terms. *)
Lemma affine_difference_spec s a b d x y :
  settled s -> typed s a -> typed s b -> affine_difference a b = Some (Some d) -> val r a x -> val r b y ->
  x - y ≡ d.
Proof.
  intros Hs Ta Tb H Hx Hy. unfold affine_difference in H. destruct (_ && _); [discriminate H |].
  destruct (affine_terms a []) as [[ca ta] |] eqn:Ea; [| discriminate H].
  destruct (affine_terms b []) as [[cb tb] |] eqn:Eb; [| discriminate H].
  destruct (bool_decide _) eqn:P; [| discriminate H]. apply bool_decide_eq_true in P.
  destruct (checked_i128 (ca - cb)) as [q |] eqn:C; [| discriminate H]. injection H as <-.
  unfold checked_i128 in C. destruct (in_i128b _); [| discriminate C]. injection C as <-.
  destruct (affine_terms_spec s a [] ca ta x Hs Ta Ea Hx) as (ids & zs & -> & V & Sa).
  destruct (affine_terms_spec s b [] cb tb y Hs Tb Eb Hy) as (ids' & zs' & -> & V' & Sb). cbn [app] in P.
  assert (Pm : Permutation ids ids').
  { unfold sort_unstable in P. rewrite <- (merge_sort_Permutation Z.le ids), <- (merge_sort_Permutation Z.le ids'). now rewrite P. }
  destruct (values_perm s ids ids' zs Pm V) as (zs'' & V'' & E).
  rewrite (values_inj s ids' zs'' zs' Hs V'' V') in E.
  replace (x - y) with (x + -1 * y) by lia. replace (ca - cb) with ((ca + sum zs) + -1 * (cb + sum zs')) by lia.
  apply (same_add t Ht); [exact Sa |]. apply (same_mul t Ht); [reflexivity | exact Sb].
Qed.

(** ** Operands *)

Definition dim_ok s (d : SInt) : Prop :=
  match d with SInt.Const v => 0 <= v < 2 ^ 64 | SInt.Symbolic u => expr t s u | SInt.Infer => False end.

(** The number a size stands for. *)
Definition dim_val (d : SInt) (z : Z) : Prop :=
  match d with SInt.Const v => z = v | SInt.Symbolic u => val r u z | SInt.Infer => False end.

(** [p] stands for the size in arithmetic nodes: its value, into the dtype. *)
Definition represents s (d : SInt) (p : UOp) : Prop :=
  expr t s p /\ forall z, dim_val d z -> exists z', val r p z' /\ z' ≡ z.

Lemma dim_ok_grows s s' d : grows s s' -> dim_ok s d -> dim_ok s' d.
Proof using Type. destruct d; cbn; eauto using expr_grows. Qed.

Lemma represents_grows s s' d p : grows s s' -> represents s d p -> represents s' d p.
Proof using Type. intros G [H1 H2]. split; [eapply expr_grows; eassumption | exact H2]. Qed.

Lemma represents_symbolic s u : expr t s u -> represents s (SInt.Symbolic u) u.
Proof using Type. intros He. split; [exact He |]. intros z Hz. exists z. now split. Qed.

Lemma represents_exact s d p z z' : represents s d p -> dim_val d z -> fits t z -> val r p z' -> z' = z.
Proof.
  intros [He H] Hz F Hz'. destruct (H z Hz) as (z2 & H2 & E). rewrite (val_inj r p _ _ Hz' H2).
  apply (same_fits t Ht); [exact (val_fits t r s p z2 He H2) | exact F | exact E].
Qed.

Lemma width_period v k : v + k * 2 ^ 64 ≡ v.
Proof.
  destruct Ht as [[sg w] F]. unfold same, wrap_to. rewrite F.
  assert (E : exists m, 2 ^ 64 = m * 2 ^ w /\ 8 <= w).
  { destruct t; try discriminate F; injection F as _ <-;
      first [exists (2 ^ 56); split; [reflexivity | lia] | exists (2 ^ 48); split; [reflexivity | lia]
            | exists (2 ^ 32); split; [reflexivity | lia] | exists 1; split; [reflexivity | lia]]. }
  destruct E as (m & E & Hw). rewrite E, Z.mul_assoc. destruct sg; [apply wrap_s_add | apply wrap_u_add]; lia.
Qed.

Lemma wrap_64_same v : wrap_s 64 v ≡ v.
Proof. destruct (wrap_s_cong 64 ltac:(lia) v) as [k ->]. exact (width_period v k). Qed.

Lemma wrap_u_64_same v : wrap_u 64 v ≡ v.
Proof. destruct (wrap_u_cong 64 ltac:(lia) v) as [k ->]. exact (width_period v k). Qed.

Lemma to_uop_represents s v : yields s (to_uop (SInt.Const v) (DType.Scalar t)) (fun s' p => represents s' (SInt.Const v) p).
Proof.
  cbn [to_uop]. eapply yields_mono; [apply (const_spec t Ht) |].
  - apply wrap_s_range. lia.
  - intros s' p _ _ [Hl _]. split; [exact (literal_expr t s' _ p Hl) |]. intros z Hz. cbn in Hz. subst z.
    exists (wrap_to t (wrap_s 64 v)). split; [now apply (literal_val t r s') |].
    exact (eq_trans (same_wrap t Ht _) (wrap_64_same v)).
Qed.

(** Operands of which one is symbolic become nodes of its dtype. *)
Lemma pair_represents s a b :
  dim_ok s a -> dim_ok s b -> SInt.is_symbolic a || SInt.is_symbolic b = true ->
  yields s (arithmetic_pair a b) (fun s' p => represents s' a p.1 /\ represents s' b p.2).
Proof.
  intros Ha Hb Hs. destruct a as [x | u |], b as [y | v |]; try discriminate Hs; try contradiction; cbn [arithmetic_pair].
  - destruct Hb as (Tv & Wv & Dv). rewrite Dv. eapply yields_bind; [apply to_uop_represents |]. intros s1 p _ G Hp.
    apply yields_ret. split; [exact Hp |]. apply represents_symbolic. eapply expr_grows; [exact G |]. now split.
  - destruct Ha as (Tu & Wu & Du). rewrite Du. eapply yields_bind; [apply to_uop_represents |]. intros s1 p _ G Hp.
    apply yields_ret. split; [| exact Hp]. apply represents_symbolic. eapply expr_grows; [exact G |]. now split.
  - apply yields_ret. split; now apply represents_symbolic.
Qed.

(** ** The macro *)

Lemma yields_lift {A} s (o : option A) : yields s (lift o) (fun _ a => o = Some a).
Proof using Type. destruct o as [a |]; [now apply yields_ret | apply yields_panic]. Qed.

Lemma sint_binop_cases s concrete method op f a b :
  (forall x y v, 0 <= x < 2 ^ 64 -> 0 <= y < 2 ^ 64 -> concrete x y = Some v -> 0 <= v < 2 ^ 64 /\ v = f x y) ->
  (forall s p q, expr t s p -> expr t s q -> yields s (method p q) (on_ok (fun s' u => is_binary t s' op p q u))) ->
  dim_ok s a -> dim_ok s b ->
  yields s (sint_binop concrete method a b) (fun s' c => dim_ok s' c /\
    ((exists x y, a = SInt.Const x /\ b = SInt.Const y /\ c = SInt.Const (f x y))
     \/ (SInt.is_symbolic a = true /\ b = SInt.Const 0 /\ c = a) \/ (SInt.is_symbolic b = true /\ a = SInt.Const 0 /\ c = b)
     \/ exists p q u, c = SInt.Symbolic u /\ is_binary t s' op p q u /\ represents s' a p /\ represents s' b q)).
Proof.
  intros Hc Hm Ha Hb.
  assert (Build : SInt.is_symbolic a || SInt.is_symbolic b = true ->
    yields s (let* (x, y) := arithmetic_pair a b in let* u := expect (method x y) in ret (SInt.Symbolic u))
      (fun s' c => dim_ok s' c /\ exists p q u, c = SInt.Symbolic u /\ is_binary t s' op p q u /\ represents s' a p /\ represents s' b q)).
  { intros Hs. eapply yields_bind; [now apply pair_represents |]. intros s1 [p q] _ G1 [Hp Hq].
    eapply yields_bind; [apply yields_expect, Hm; [apply Hp | apply Hq] |]. intros s2 u _ G2 Hu.
    apply yields_ret. split; [exact (proj1 Hu) |]. exists p, q, u. split; [reflexivity |]. split; [exact Hu |].
    split; eapply represents_grows; eassumption. }
  assert (Mixed : SInt.is_symbolic a || SInt.is_symbolic b = true ->
    yields s (let* (x, y) := arithmetic_pair a b in let* u := expect (method x y) in ret (SInt.Symbolic u))
      (fun s' c => dim_ok s' c /\
        ((exists x y, a = SInt.Const x /\ b = SInt.Const y /\ c = SInt.Const (f x y))
         \/ (SInt.is_symbolic a = true /\ b = SInt.Const 0 /\ c = a) \/ (SInt.is_symbolic b = true /\ a = SInt.Const 0 /\ c = b)
         \/ exists p q u, c = SInt.Symbolic u /\ is_binary t s' op p q u /\ represents s' a p /\ represents s' b q))).
  { intros Hs. eapply yields_mono; [now apply Build |]. intros s' c _ _ [H1 H2]. auto. }
  clear Build. destruct a as [x | u |], b as [y | v |]; try contradiction; unfold sint_binop.
  - destruct x; (eapply yields_bind; [exact (yields_lift s _) |]; intros s1 w _ _ E; apply yields_ret;
      destruct (Hc _ y w Ha Hb E) as [Hw ->]; split; [exact Hw |]; left; now eexists _, y).
  - destruct x as [| x | x]; [| now apply Mixed | now apply Mixed]. apply yields_ret. split; [exact Hb |].
    right. right. left. now split_and!.
  - destruct y as [| y | y]; [| now apply Mixed | now apply Mixed]. apply yields_ret. split; [exact Ha |].
    right. left. now split_and!.
  - now apply Mixed.
Qed.

(** A size whose value is [z], up to the width. *)
Definition stands s (c : SInt) (z : Z) : Prop := dim_ok s c /\ exists z', dim_val c z' /\ z' ≡ z.

Lemma represented_binary s op a b p q u x y z :
  is_arith op = true -> is_binary t s op p q u -> represents s a p -> represents s b q -> dim_val a x -> dim_val b y ->
  (forall x' y', x' ≡ x -> y' ≡ y -> exists z', arith op x' y' = Some z' /\ z' ≡ z) ->
  exists z', dim_val (SInt.Symbolic u) z' /\ z' ≡ z.
Proof.
  intros Ho Hu [_ Hp] [_ Hq] Hx Hy Hz. destruct (Hp x Hx) as (x' & Vx & Ex), (Hq y Hy) as (y' & Vy & Ey).
  destruct (Hz x' y' Ex Ey) as (z' & Ez & Sz). exists (wrap_to t z').
  split; [exact (val_binary t Ht r s op p q u x' y' z' Ho Hu Vx Vy Ez) | exact (eq_trans (same_wrap t Ht _) Sz)].
Qed.

Lemma add_stands s a b x y :
  dim_ok s a -> dim_ok s b -> dim_val a x -> dim_val b y -> yields s (add a b) (fun s' c => stands s' c (x + y)).
Proof.
  intros Ha Hb Hx Hy. eapply yields_mono; [apply (sint_binop_cases s _ _ BinaryOp.Add Z.add); auto |].
  - intros v w z Hv Hw. unfold usize. destruct (Z.ltb_spec (v + w) (2 ^ 64)); [| discriminate]. intros [= <-]. lia.
  - intros s' p q. apply (try_add_spec t Ht).
  - intros s' c _ _ [Hc H]. split; [exact Hc |]. destruct H as [(v & w & -> & -> & ->) | [(Sa & -> & ->) | [(Sb & -> & ->) | (p & q & u & -> & Hu & Hp & Hq)]]].
    + cbn in Hx, Hy. subst. exists (v + w). split; reflexivity.
    + cbn in Hy. subst y. exists x. rewrite Z.add_0_r. now split.
    + cbn in Hx. subst x. exists y. now split.
    + apply (represented_binary s' BinaryOp.Add a b p q u x y); auto. intros x' y' Ex Ey. exists (x' + y').
      split; [reflexivity | now apply (same_add t Ht)].
Qed.

Definition nonzero (a : SInt) : Prop := a <> SInt.Const 0.

Lemma mul_stands s a b x y :
  dim_ok s a -> dim_ok s b -> (SInt.is_const a && SInt.is_const b = true \/ nonzero a /\ nonzero b) ->
  dim_val a x -> dim_val b y -> yields s (mul a b) (fun s' c => stands s' c (x * y)).
Proof.
  intros Ha Hb Hn Hx Hy. eapply yields_mono; [apply (sint_binop_cases s _ _ BinaryOp.Mul Z.mul); auto |].
  - intros v w z Hv Hw. unfold usize. destruct (Z.ltb_spec (v * w) (2 ^ 64)); [| discriminate]. intros [= <-]. nia.
  - intros s' p q. apply (try_mul_spec t Ht).
  - intros s' c _ _ [Hc H]. split; [exact Hc |]. destruct H as [(v & w & -> & -> & ->) | [(Sa & -> & ->) | [(Sb & -> & ->) | (p & q & u & -> & Hu & Hp & Hq)]]].
    + cbn in Hx, Hy. subst. exists (v * w). split; reflexivity.
    + destruct Hn as [Hn | [_ Hn]]; [now destruct a | now destruct Hn].
    + destruct Hn as [Hn | [Hn _]]; [now destruct b | now destruct Hn].
    + apply (represented_binary s' BinaryOp.Mul a b p q u x y); auto. intros x' y' Ex Ey. exists (x' * y').
      split; [reflexivity | now apply (same_mul t Ht)].
Qed.

(** Quotients and extrema are those of the values, which must fit the dtype. *)
Definition exactly s (c : SInt) (z : Z) : Prop := dim_ok s c /\ dim_val c z.

Lemma div_exact s a b x y :
  dim_ok s a -> dim_ok s b -> (SInt.is_const a && SInt.is_const b = true \/ nonzero a /\ nonzero b) ->
  dim_val a x -> dim_val b y -> fits t x -> fits t y -> 0 <= x -> 0 < y ->
  yields s (div a b) (fun s' c => exactly s' c (x / y)).
Proof.
  intros Ha Hb Hn Hx Hy Fx Fy Px Py.
  eapply yields_mono; [apply (sint_binop_cases s _ _ BinaryOp.FloorDiv Z.div); auto |].
  - intros v w z Hv Hw. destruct (Z.eqb_spec w 0); [discriminate |]. intros [= <-]. split; [| reflexivity].
    split; [apply Z.div_pos; lia |]. apply Z.div_lt_upper_bound; [lia |]. nia.
  - intros s' p q. apply (try_div_spec t Ht).
  - intros s' c _ _ [Hc H]. split; [exact Hc |].
    destruct H as [(v & w & -> & -> & ->) | [(Sa & -> & ->) | [(Sb & -> & ->) | (p & q & u & -> & Hu & Hp & Hq)]]].
    + cbn in Hx, Hy. now subst.
    + destruct Hn as [Hn | [_ Hn]]; [now destruct a | now destruct Hn].
    + destruct Hn as [Hn | [Hn _]]; [now destruct b | now destruct Hn].
    + destruct (proj2 Hp x Hx) as (x' & Vx & _), (proj2 Hq y Hy) as (y' & Vy & _).
      rewrite (represents_exact s' a p x x' Hp Hx Fx Vx) in Vx. rewrite (represents_exact s' b q y y' Hq Hy Fy Vy) in Vy.
      apply (val_binary_fits t Ht r s' BinaryOp.FloorDiv p q u x y); auto.
      * cbn [arith]. destruct (Z.eqb_spec y 0); [lia | reflexivity].
      * destruct (fits_bounds t Ht) as (B1 & B2 & _). unfold fits in *. split; [pose proof (Z.div_pos x y Px Py); lia |].
        pose proof (Z.div_le_upper_bound x y x Py ltac:(nia)). lia.
Qed.


(** ** Differences *)

Lemma sub_value s p q u x y :
  expr t s p -> expr t s q ->
  (exists m n, literal t s (wrap_to t (-1)) m /\ is_binary t s BinaryOp.Mul q m n /\ is_binary t s BinaryOp.Add p n u) ->
  val r p x -> val r q y -> exists z, val r u z /\ z ≡ x - y.
Proof.
  intros _ _ (m & n & Hm & Hn & Hu) Vp Vq. pose proof (literal_val t r s _ m Hm) as Vm.
  pose proof (val_binary t Ht r s BinaryOp.Mul q m n y _ _ eq_refl Hn Vq Vm eq_refl) as Vn.
  pose proof (val_binary t Ht r s BinaryOp.Add p n u x _ _ eq_refl Hu Vp Vn eq_refl) as Vu.
  eexists. split; [exact Vu |]. refine (eq_trans (same_wrap t Ht _) _). replace (x - y) with (x + y * -1) by lia.
  apply (same_add t Ht); [reflexivity |]. refine (eq_trans (same_wrap t Ht _) _).
  apply (same_mul t Ht); [reflexivity | exact (same_wrap t Ht (-1))].
Qed.

(** Subtracting built sizes: a constant when the terms cancel. *)
Lemma sub_pair_stands s a b x y :
  dim_ok s a -> dim_ok s b -> SInt.is_symbolic a || SInt.is_symbolic b = true -> dim_val a x -> dim_val b y ->
  yields s (let* (p, q) := arithmetic_pair a b in
            let* diff := lift (affine_difference p q) in
            match diff with
            | Some diff => if diff >=? 0 then ret (SInt.Const (wrap_u 64 diff)) else panic
            | None => let* u := expect (try_sub p q) in ret (SInt.Symbolic u)
            end) (fun s' c => stands s' c (x - y)).
Proof.
  intros Ha Hb Hs Hx Hy. eapply yields_bind; [now apply pair_represents |]. intros s1 [p q] Hs1 G1 [Hp Hq].
  cbn [fst snd] in Hp, Hq. destruct (proj2 Hp x Hx) as (x' & Vx & Ex), (proj2 Hq y Hy) as (y' & Vy & Ey).
  assert (Exy : x' - y' ≡ x - y).
  { replace (x' - y') with (x' + -1 * y') by lia. replace (x - y) with (x + -1 * y) by lia.
    apply (same_add t Ht); [exact Ex | apply (same_mul t Ht); [reflexivity | exact Ey]]. }
  eapply yields_bind; [exact (yields_lift s1 _) |]. intros s2 diff Hs2 G2 D. destruct diff as [d |].
  - destruct (Z.geb_spec d 0) as [L |]; [| apply yields_panic]. apply yields_ret.
    pose proof (affine_difference_spec s1 p q d x' y' Hs1 (expr_is_typed s1 p (proj1 Hp)) (expr_is_typed s1 q (proj1 Hq)) D Vx Vy) as E.
    split; [apply (wrap_u_range 64); lia |]. exists (wrap_u 64 d). split; [reflexivity |].
    refine (eq_trans _ (eq_trans (eq_sym E) Exy)). apply wrap_u_64_same.
  - eapply yields_bind; [apply yields_expect, (try_sub_spec t Ht); (eapply expr_grows; [exact G2 |]); [apply Hp | apply Hq] |].
    intros s3 u _ G3 Hu. apply yields_ret.
    destruct (sub_value s3 p q u x' y') as (z & Vz & Ez); try assumption;
      [eapply expr_grows; [exact G3 |]; eapply expr_grows; [exact G2 | apply Hp]
      | eapply expr_grows; [exact G3 |]; eapply expr_grows; [exact G2 | apply Hq] |].
    split; [| exists z; split; [exact Vz | exact (eq_trans Ez Exy)]].
    destruct Hu as (m & n & _ & _ & Hu). exact (proj1 Hu).
Qed.

Lemma eqb_value a b x y s : settled s -> dim_ok s a -> dim_ok s b -> SInt.eqb a b = true -> dim_val a x -> dim_val b y -> x = y.
Proof using Type.
  intros Hs Ha Hb E Hx Hy. destruct a, b; try discriminate E; cbn in *; try contradiction.
  - apply Z.eqb_eq in E. congruence.
  - apply Z.eqb_eq in E. assert (uop = uop0) as -> by (apply (table_id s); [exact Hs | apply Ha | apply Hb | exact E]).
    exact (val_inj r _ _ _ Hx Hy).
Qed.

Lemma sub_stands s a b x y :
  dim_ok s a -> dim_ok s b -> dim_val a x -> dim_val b y -> yields s (sub a b) (fun s' c => stands s' c (x - y)).
Proof.
  intros Ha Hb Hx Hy.
  assert (Mixed : SInt.is_symbolic a || SInt.is_symbolic b = true ->
    yields s (if SInt.eqb a b then ret (SInt.Const 0)
      else let* (p, q) := arithmetic_pair a b in
            let* diff := lift (affine_difference p q) in
            match diff with
            | Some diff => if diff >=? 0 then ret (SInt.Const (wrap_u 64 diff)) else panic
            | None => let* u := expect (try_sub p q) in ret (SInt.Symbolic u)
            end) (fun s' c => stands s' c (x - y))).
  { intros Hsym. destruct (SInt.eqb a b) eqn:E; [| now apply sub_pair_stands].
    apply yields_settled. intros Hs. apply yields_ret. pose proof (eqb_value a b x y s Hs Ha Hb E Hx Hy). subst y.
    split; [cbn; lia |]. exists 0. split; [reflexivity |]. now rewrite Z.sub_diag. }
  destruct a as [v | u |], b as [w | u' |]; try contradiction; unfold sub.
  - cbn in Hx, Hy. subst. destruct (Z.geb_spec v w) as [L |]; [| destruct v; apply yields_panic].
    cbn in Ha, Hb. assert (H : stands s (SInt.Const (v - w)) (v - w)) by (split; [cbn; lia | now exists (v - w)]).
    destruct v; now apply yields_ret.
  - destruct v; now apply Mixed.
  - destruct w as [| w | w]; [| now apply Mixed | now apply Mixed]. apply yields_ret. split; [exact Ha |].
    cbn in Hy. subst y. exists x. rewrite Z.sub_0_r. now split.
  - now apply Mixed.
Qed.

(** ** Extrema *)

Lemma max_node s a b u x y : is_binary t s BinaryOp.Max a b u -> val r a x -> val r b y -> val r u (Z.max x y).
Proof using Type.
  intros [(_ & _ & Du) E] Hx Hy. destruct u as [i o d]. cbn [uop_op uop_dtype] in *. subst o d.
  unfold val in *. cbn [denote]. now rewrite Hx, Hy.
Qed.

(** A nested maximum is at least each of its terms. *)
Lemma contains_max_spec s u v : forall x y,
  settled s -> typed s u -> typed s v -> symbolic_contains_max_term u v = true -> val r u x -> val r v y -> y <= x.
Proof using Type.
  induction u as [u IH] using UOp_children_ind. intros x y Hs Hu Hv H Vx Vy. destruct u as [i op d]. cbn [symbolic_contains_max_term] in H.
  destruct (Z.eqb_spec i (uid v)) as [E | _].
  - assert (Ev : mkUOp i op d = v) by (apply (table_id s); [exact Hs | apply Hu | apply Hv | exact E]).
    rewrite Ev in Vx. rewrite (val_inj r v x y Vx Vy). lia.
  - destruct op; try discriminate H. destruct op; try discriminate H.
    destruct (typed_children s i BinaryOp.Max lhs rhs d Hs eq_refl Hu) as (Ta & Tb & Hd).
    destruct (binary_value i BinaryOp.Max lhs rhs d x eq_refl Hd Vx) as (p & q & Vp & Vq & E). cbn in E. injection E as <-.
    cbn [children uop_op Op.children] in IH. apply Forall_cons in IH as [IHa IHb]. apply Forall_cons in IHb as [IHb _].
    apply orb_prop in H as [H | H]; [pose proof (IHa p y Hs Ta Hv H Vp Vy) | pose proof (IHb q y Hs Tb Hv H Vq Vy)]; lia.
Qed.

Lemma range_values s u : expr t s u -> exists l h,
  const_to_i128 (fst (vmin_vmax u)) = Some l /\ const_to_i128 (snd (vmin_vmax u)) = Some h /\ forall z, val r u z -> l <= z <= h.
Proof.
  intros He. destruct (best_encloses r u (vmin_vmax u) ltac:(apply He) eq_refl) as (l & h & E & _ & _ & H).
  rewrite E, (expr_base t s u He). exists l, h. cbn [fst snd].
  assert (K : forall z, const_to_i128 (of_Z t z) = Some z).
  { intros z. destruct Ht as [[sg w] F]. unfold of_Z. rewrite F. now destruct sg. }
  rewrite !K. split; [reflexivity |]. split; [reflexivity |]. intros z Hz. now apply H.
Qed.

Lemma by_range_spec s p q a b d x y :
  expr t s p -> expr t s q -> by_range p q a b = Some d -> val r p x -> val r q y -> (d = a /\ y <= x) \/ (d = b /\ x <= y).
Proof.
  intros Hp Hq H Vx Vy. unfold by_range in H. destruct (range_values s p Hp) as (l & h & E1 & E2 & Rp).
  destruct (range_values s q Hq) as (l' & h' & E3 & E4 & Rq). rewrite E1, E2, E3, E4 in H. specialize (Rp x Vx). specialize (Rq y Vy).
  destruct (Z.geb_spec l h'); [injection H as <-; left; split; [reflexivity | lia] |].
  destruct (Z.geb_spec l' h); [injection H as <-; right; split; [reflexivity | lia] | discriminate H].
Qed.

Lemma smax_exact s a b x y :
  dim_ok s a -> dim_ok s b -> dim_val a x -> dim_val b y -> fits t x -> fits t y ->
  yields s (smax a b) (fun s' c => exactly s' c (Z.max x y)).
Proof.
  intros Ha Hb Hx Hy Fx Fy.
  assert (Keep : forall s' d, grows s s' -> d = a /\ y <= x \/ d = b /\ x <= y -> exactly s' d (Z.max x y)).
  { intros s' d G [[-> L] | [-> L]].
    - rewrite Z.max_l by lia. split; [eapply dim_ok_grows; eassumption | exact Hx].
    - rewrite Z.max_r by lia. split; [eapply dim_ok_grows; eassumption | exact Hy]. }
  assert (Mixed : SInt.is_symbolic a || SInt.is_symbolic b = true ->
    yields s (if SInt.eqb a b then ret a
      else
        let* (p, q) := arithmetic_pair a b in
        if symbolic_contains_max_term p q then ret a
        else if symbolic_contains_max_term q p then ret b
        else match by_range p q a b with
             | Some d => ret d
             | None => let* u := expect (try_max p q) in ret (SInt.Symbolic u)
             end) (fun s' c => exactly s' c (Z.max x y))).
  { intros Hsym. destruct (SInt.eqb a b) eqn:E.
    { apply yields_settled. intros Hs. apply yields_ret. apply Keep; [now intros v Hv |]. left. split; [reflexivity |].
      rewrite (eqb_value a b x y s Hs Ha Hb E Hx Hy). lia. }
    eapply yields_bind; [now apply pair_represents |]. intros s1 [p q] Hs1 G1 [Hp Hq]. cbn [fst snd] in Hp, Hq.
    destruct (proj2 Hp x Hx) as (x' & Vx & _), (proj2 Hq y Hy) as (y' & Vy & _).
    rewrite (represents_exact s1 a p x x' Hp Hx Fx Vx) in Vx. rewrite (represents_exact s1 b q y y' Hq Hy Fy Vy) in Vy.
    pose proof (expr_is_typed s1 p (proj1 Hp)) as Tp. pose proof (expr_is_typed s1 q (proj1 Hq)) as Tq.
    destruct (symbolic_contains_max_term p q) eqn:C1.
    { apply yields_ret, Keep; [exact G1 |]. left. split; [reflexivity | exact (contains_max_spec s1 p q x y Hs1 Tp Tq C1 Vx Vy)]. }
    destruct (symbolic_contains_max_term q p) eqn:C2.
    { apply yields_ret, Keep; [exact G1 |]. right. split; [reflexivity | exact (contains_max_spec s1 q p y x Hs1 Tq Tp C2 Vy Vx)]. }
    destruct (by_range p q a b) as [d |] eqn:R.
    { apply yields_ret, Keep; [exact G1 |]. exact (by_range_spec s1 p q a b d x y (proj1 Hp) (proj1 Hq) R Vx Vy). }
    eapply yields_bind; [apply yields_expect, (binary_arith_spec t Ht s1 BinaryOp.Max p q eq_refl (proj1 Hp) (proj1 Hq)) |].
    intros s2 u _ G2 Hu. apply yields_ret. split; [exact (proj1 Hu) | exact (max_node s2 p q u x y Hu Vx Vy)]. }
  destruct a as [v | u |], b as [w | u' |]; try contradiction; try (now apply Mixed).
  cbn in Hx, Hy. subst. apply yields_ret. cbn in Ha, Hb. split; [cbn; lia | reflexivity].
Qed.

Lemma neg_value s x : expr t s x ->
  yields s (neg x) (fun s' u => expr t s' u /\ forall z, val r x z -> val r u (wrap_to t (- z))).
Proof.
  intros Hx. eapply yields_mono; [now apply (neg_spec t Ht) |]. intros s' u _ _ (m & Hm & Hu). split; [exact (proj1 Hu) |].
  intros z Hz. pose proof (val_binary t Ht r s' BinaryOp.Mul x m u z _ _ eq_refl Hu Hz (literal_val t r s' _ m Hm) eq_refl) as V.
  replace (wrap_to t (- z)) with (wrap_to t (z * wrap_to t (-1))); [exact V |]. change (same t (z * wrap_to t (-1)) (- z)).
  replace (- z) with (z * -1) by lia. apply (same_mul t Ht); [reflexivity | apply (same_wrap t Ht)].
Qed.

(** [- max (- a) (- b)], where negation stays in the dtype. *)
Lemma smin_exact s a b x y :
  dim_ok s a -> dim_ok s b -> dim_val a x -> dim_val b y -> fits t x -> fits t y -> fits t (- x) -> fits t (- y) ->
  yields s (smin a b) (fun s' c => exactly s' c (Z.min x y)).
Proof.
  intros Ha Hb Hx Hy Fx Fy Nx Ny.
  assert (Mixed : SInt.is_symbolic a || SInt.is_symbolic b = true ->
    yields s (let* (p, q) := arithmetic_pair a b in
      let* na := neg p in
      let* nb := neg q in
      let* neg_max := expect (try_max na nb) in
      let* u := neg neg_max in
      ret (SInt.Symbolic u)) (fun s' c => exactly s' c (Z.min x y))).
  { intros Hsym. eapply yields_bind; [now apply pair_represents |]. intros s1 [p q] Hs1 G1 [Hp Hq]. cbn [fst snd] in Hp, Hq.
    destruct (proj2 Hp x Hx) as (x' & Vx & _), (proj2 Hq y Hy) as (y' & Vy & _).
    rewrite (represents_exact s1 a p x x' Hp Hx Fx Vx) in Vx. rewrite (represents_exact s1 b q y y' Hq Hy Fy Vy) in Vy.
    eapply yields_bind; [apply neg_value, Hp |]. intros s2 np _ G2 [Ep Hnp].
    eapply yields_bind; [apply neg_value; eapply expr_grows; [exact G2 | apply Hq] |]. intros s3 nq _ G3 [Eq Hnq].
    eapply yields_bind; [apply yields_expect, (binary_arith_spec t Ht s3 BinaryOp.Max np nq eq_refl); [eapply expr_grows; eassumption | exact Eq] |].
    intros s4 m _ G4 Hm. eapply yields_bind; [apply neg_value, Hm |]. intros s5 u _ G5 [Eu Hu]. apply yields_ret.
    split; [exact Eu |]. pose proof (max_node s4 np nq m _ _ Hm (Hnp x Vx) (Hnq y Vy)) as Vm.
    rewrite !(fits_wrap t Ht) in Vm by assumption. specialize (Hu _ Vm). cbn [dim_val].
    replace (- Z.max (- x) (- y)) with (Z.min x y) in Hu by lia. rewrite (fits_wrap t Ht) in Hu; [exact Hu |].
    now destruct (Z.min_spec x y) as [[_ ->] | [_ ->]]. }
  destruct a as [v | u |], b as [w | u' |]; try contradiction; try (now apply Mixed).
  cbn in Hx, Hy. subst. apply yields_ret. cbn in Ha, Hb. split; [cbn; lia | reflexivity].
Qed.

End Sizes.

(** The exception: times a concrete zero a node is itself, and so is a node
    divided by zero or zero divided by a node. *)
Example symbolic_times_zero {M : LibM} {S : Type} `{I : !Interner S} `{Sh : !Shapes S} u (s : S) :
  mul (SInt.Symbolic u) (SInt.Const 0) s = Some (s, SInt.Symbolic u) /\
  sint_prod [SInt.Const 0; SInt.Symbolic u] s = Some (s, SInt.Symbolic u) /\
  div (SInt.Symbolic u) (SInt.Const 0) s = Some (s, SInt.Symbolic u) /\
  div (SInt.Const 0) (SInt.Symbolic u) s = Some (s, SInt.Symbolic u).
Proof. now split_and!. Qed.
