(* ===== verification/InferShape.v ===== *)
(** * Shape inference ([ir/src/shape.rs])

    [infer_shape_from_op] over the shapes of the operands: reading shape
    payloads back, broadcasting, movement, staging, indexing and the
    substitution of formal parameters in the shapes a function returns.  A
    shape is a cached property of its node in the code and computed again
    here; [shape] of the interface [Shapes] is the query on another node. *)

From stdpp Require Import gmap.
From S2P Require Import Prelude F64 DType Cast ConstVal Ops Eval Payload UOp RangeEval Traverse HashCons Rewrite Builder.
From S2P Require Import Shape Constructors Properties SymInt.

(** Node reconstruction, as [substitute] asks for it. *)
Class Rebuilder (S : Type) `{!Interner S} := {
  with_sources : UOp -> list UOp -> Build S UOp;
  with_sources_spec s u srcs : table s u -> (forall v, In v srcs -> table s v) ->
    yields s (with_sources u srcs) (fun s' v => table s' v)
}.

(** ** Formal parameters *)

Definition display_slot (slot : Z) : Z := if slot =? usize_max then -1 else wrap_s 64 slot.

Definition actual_for_formal (slot : Z) (args : list UOp) : Result UOp :=
  let actual := if slot =? usize_max then last args else args !! Z.to_nat slot in
  match actual with
  | Some u => inl u
  | None => inr (CallFormalSlotMissing (display_slot slot) (Z.of_nat (List.length args)))
  end.

(** Keyed by the formal's identity. *)
Abbreviation Substitutions := (gmap Z (UOp * UOp)).

Definition rbind_pure {A B} (r : Result A) (k : A -> Result B) : Result B :=
  match r with inl a => k a | inr e => inr e end.

Fixpoint select_formals (formals args : list UOp) (m : Substitutions) : Result Substitutions :=
  match formals with
  | [] => inl m
  | formal :: formals =>
      match uop_op formal with
      | Op.Param _ _ arg =>
          rbind_pure (actual_for_formal (ParamArg.slot arg) args) (fun actual =>
            if bool_decide (uop_dtype actual = DType.Scalar Void)
            then inr (CallShapeSubstitutionUnsupported (display_slot (ParamArg.slot arg))
                        "void actual argument cannot be used as a symbolic value")
            else select_formals formals args (<[uid formal := (formal, actual)]> m))
      | _ => select_formals formals args m
      end
  end.

Fixpoint select_in_shape (shape : Shape) (args : list UOp) (m : Substitutions) : Result Substitutions :=
  match shape with
  | [] => inl m
  | SInt.Symbolic expr :: shape =>
      rbind_pure (select_formals (toposort_call_aware false expr) args m) (select_in_shape shape args)
  | _ :: shape => select_in_shape shape args m
  end.

(** [SubstituteMatcher]. *)
Definition substitute_matcher {S} (m : Substitutions) (u : UOp) : Build S RewriteResult :=
  ret match m !! uid u with
      | Some (_, replacement) => if ptr_eq u replacement then NoMatch else Rewritten replacement
      | None => NoMatch
      end.

Section Infer.
Context {M : LibM} {S : Type} `{I : !Interner S} `{Sh : !Shapes S} `{R : !Rebuilder S}.

(** Two pops per occurrence suffice the walk. *)
Definition substitute_walk_preserve_calls (u : UOp) (m : Substitutions) : Build S UOp :=
  if bool_decide (m = ∅) then ret u
  else walk_rewrite with_sources None (Some (substitute_matcher m)) TraversalMode.PreserveCallBodies
         (2 * List.length (nodes u)) u.

Definition dangling_formals (m : Substitutions) (caller_ids : gset Z) (rewritten : UOp) : list Z :=
  omap (fun node =>
    match m !! uid node with
    | Some (formal, _) =>
        if bool_decide (uid node ∈ caller_ids) then None
        else match uop_op formal with
             | Op.Param _ _ arg => Some (display_slot (ParamArg.slot arg))
             | _ => None
             end
    | None => None
    end) (toposort_call_aware false rewritten).

Fixpoint substitute_dims (m : Substitutions) (caller_ids : gset Z) (shape : Shape) : Build S (Shape * list Z) :=
  match shape with
  | [] => ret ([], [])
  | SInt.Symbolic expr :: shape =>
      let* rewritten := substitute_walk_preserve_calls expr m in
      let* (result, dangling) := substitute_dims m caller_ids shape in
      ret (SInt.from_uop rewritten :: result, dangling_formals m caller_ids rewritten ++ dangling)
  | dim :: shape =>
      let* (result, dangling) := substitute_dims m caller_ids shape in
      ret (dim :: result, dangling)
  end.

Definition substitute_selected_shape (shape : Shape) (args : list UOp) : Build S (Result Shape) :=
  match select_in_shape shape args ∅ with
  | inr e => ret (inr e)
  | inl m =>
      let caller_ids : gset Z := list_to_set (map uid (concat (map (toposort_call_aware false) args))) in
      let* (result, dangling) := substitute_dims m caller_ids shape in
      match dedup (sort_unstable dangling) with
      | [] => ret (inl result)
      | slots => ret (inr (CallShapeDanglingFormal slots))
      end
  end.

(** The map that inlines a function's body. *)
Fixpoint bind_formals (formals args : list UOp) (m : Substitutions) : Build S (Result Substitutions) :=
  match formals with
  | [] => ret (inl m)
  | formal :: formals =>
      match uop_op formal with
      | Op.Param _ _ arg =>
          let slot := ParamArg.slot arg in
          if slot =? usize_max then bind_formals formals args m
          else
            let*! actual := ret (actual_for_formal slot args) in
            let actual_axis :=
              match uop_op actual with
              | Op.Param _ _ arg | Op.Buffer _ _ arg => ParamArg.axis arg
              | _ => None
              end in
            if negb (bool_decide (ParamArg.axis arg = actual_axis))
            then ret (inr (CallArgAxisMismatch slot (ParamArg.axis arg) actual_axis))
            else
              let*! expected_shape := shape formal in
              let*! got_shape := shape actual in
              if negb (match expected_shape, got_shape with
                       | Some expected, Some got => max_shapes_equal expected got
                       | _, _ => false
                       end)
              then ret (inr (CallArgShapeMismatch slot expected_shape got_shape))
              else if negb (bool_decide (uop_dtype formal = uop_dtype actual))
              then ret (inr (CallArgDTypeMismatch slot (uop_dtype formal) (uop_dtype actual)))
              else bind_formals formals args (<[uid formal := (formal, actual)]> m)
      | _ => bind_formals formals args m
      end
  end.

Definition function_param_substitutions (body : UOp) (args : list UOp) : Build S (Result Substitutions) :=
  bind_formals (toposort_call_aware false body) args ∅.

(** ** Shape payloads *)

Definition const_dim (value : ConstValue) : option SInt :=
  match value with
  | ConstValue.Int v => if v >=? 0 then Some (SInt.Const v) else None
  | ConstValue.UInt v => Some (SInt.Const v)
  | _ => None
  end.

Fixpoint extract_shape_from_uop (shape_uop : UOp) : Build S (option Shape) :=
  let 'mkUOp _ op dtype := shape_uop in
  let scalar :=
    if DType.is_int dtype then
      let* s := shape shape_uop in
      ret match s with inl (Some []) => Some [SInt.Symbolic shape_uop] | _ => None end
    else ret None in
  match op with
  | Op.Cast _ src _ | Op.BitCast _ src _ =>
      match uop_op src with
      | Op.Stack _ _ | Op.VConst _ _ | Op.Const _ _ => extract_shape_from_uop src
      | _ => scalar
      end
  | Op.Stack _ sources => ret (Some (map SInt.from_uop sources))
  | Op.Const _ value => ret (option_map (fun d => [d]) (const_dim value))
  | Op.VConst _ values => ret (collect const_dim values)
  | _ => scalar
  end.

Definition extract_ranges_from_uops (begins_uop ends_uop : UOp) : Build S (option (list (SInt * SInt))) :=
  let*? begins := extract_shape_from_uop begins_uop in
  let*? ends := extract_shape_from_uop ends_uop in
  if (List.length begins =? List.length ends)%nat then ret (Some (combine begins ends)) else ret None.

Definition ranges_to_uops (pairs : list (SInt * SInt)) : Build S (UOp * UOp) :=
  match pairs with
  | [] => panic
  | _ =>
      let* firsts := collect_all (fun p => to_uop (fst p) (DType.Scalar WeakInt)) pairs in
      let* seconds := collect_all (fun p => to_uop (snd p) (DType.Scalar WeakInt)) pairs in
      let encode values := match values with [v] => ret v | _ => stack values end in
      let* a := encode firsts in
      let* b := encode seconds in
      ret (a, b)
  end.

(** ** Inference *)

(** [shape()?.ok_or(VoidTypeInOp)?] and [shape()?.cloned()]. *)
Definition shaped (u : UOp) : Build S (Result Shape) :=
  let*! s := shape u in
  ret match s with Some s => inl s | None => inr VoidTypeInOp end.

Definition some_shape (s : Shape) : Build S (Result (option Shape)) := ret (inl (Some s)).
Definition no_shape : Build S (Result (option Shape)) := ret (inl None).

(** All the other sources of a STACK have this shape. *)
Fixpoint same_shapes (source_shape : Shape) (sources : list UOp) : Build S bool :=
  match sources with
  | [] => ret true
  | source :: sources =>
      let* s := shape source in
      match s with
      | inl (Some sh) => if shapes_equal sh source_shape then same_shapes source_shape sources else ret false
      | _ => ret false
      end
  end.

(** The shapes that are there. *)
Fixpoint present_shapes (sources : list UOp) : Build S (Result (list Shape)) :=
  match sources with
  | [] => ret (inl [])
  | source :: sources =>
      let*! s := shape source in
      let*! rest := present_shapes sources in
      ret (inl (match s with Some s => s :: rest | None => rest end))
  end.

(** The extents of a STAGE's closed ranges; a dead axis is its last index. *)
Definition dead_extent (value : ConstValue) : Build S (option SInt) :=
  match value with
  | ConstValue.Int v => if v >=? 0 then if v <? 2 ^ 63 - 1 then ret (Some (SInt.Const (v + 1))) else panic else ret None
  | ConstValue.UInt v => if v <? 2 ^ 64 - 1 then ret (Some (SInt.Const (v + 1))) else panic
  | _ => ret None
  end.

Definition range_extent (range : UOp) : Build S (option SInt) :=
  match uop_op range with
  | Op.Range _ end_ _ _ _ =>
      ret (Some match uop_op end_ with
                | Op.Const _ value => from_option id (SInt.Symbolic end_) (const_dim value)
                | _ => SInt.Symbolic end_
                end)
  | Op.Const _ value => dead_extent value
  | _ => ret (Some (SInt.Symbolic range))
  end.

(** The shapes of the indices of an INDEX, in a row. *)
Fixpoint index_shapes (indices : list UOp) : Build S (Result (option Shape)) :=
  match indices with
  | [] => some_shape []
  | index :: indices =>
      let*! s := shape index in
      match s with
      | None => no_shape
      | Some s =>
          let*! rest := index_shapes indices in
          ret (inl (option_map (app s) rest))
      end
  end.

(** Sums of a dimension and its pads. *)
Fixpoint pad_dims (src_shape : Shape) (ranges : list (SInt * SInt)) : Build S Shape :=
  match src_shape, ranges with
  | dim :: src_shape, (begin, end_) :: ranges =>
      let* d := Sint.add dim begin in
      let* d := Sint.add d end_ in
      let* rest := pad_dims src_shape ranges in
      ret (d :: rest)
  | _, _ => ret []
  end.

Definition scalar_unless_void (dtype : DType) : Build S (Result (option Shape)) :=
  if bool_decide (dtype = DType.Scalar Void) then no_shape else some_shape [].

Definition get_tuple (index : Z) (src : list UOp) (kind : string) : Result UOp :=
  match src !! Z.to_nat index with
  | Some u => inl u
  | None => inr (GetTupleIndexOutOfBounds index (Z.of_nat (List.length src)) kind)
  end.

Definition infer_shape_from_op (u : UOp) : Build S (Result (option Shape)) :=
  match uop_op u with
  | Op.Const _ _ => some_shape []
  | Op.VConst _ _ => no_shape
  | Op.Stack _ sources =>
      match sources with
      | [] => some_shape []
      | first :: rest =>
          let*! source_shape := shaped first in
          let* same := same_shapes source_shape rest in
          if same then some_shape (SInt.Const (Z.of_nat (List.length sources)) :: source_shape) else no_shape
      end
  | Op.Shuffle _ src mask =>
      let*! s := shaped src in
      match s with [] => panic | _ :: s => some_shape (SInt.Const (Z.of_nat (List.length mask)) :: s) end
  | Op.Unique _ _ | Op.LUnique _ _ | Op.Noop _ => no_shape
  | Op.Unary _ _ input => shape input
  | Op.Binary _ _ lhs rhs =>
      let*! lhs_shape := shape lhs in
      let*! rhs_shape := shape rhs in
      match lhs_shape, rhs_shape with
      | Some l, Some r => let*! s := broadcast_shapes [l; r] in some_shape s
      | Some s, None | None, Some s => some_shape s
      | None, None => no_shape
      end
  | Op.Ternary _ _ condition true_val false_val =>
      let*! shapes := present_shapes [condition; true_val; false_val] in
      match shapes with [] => no_shape | _ => let*! s := broadcast_shapes shapes in some_shape s end
  | Op.Cast _ src _ => shape src
  | Op.BitCast _ src dtype =>
      let*! src_shape := shape src in
      match src_shape with
      | Some ((_ :: _) as s) =>
          let src_bytes := DType.bytes (uop_dtype src) in
          let dst_bytes := DType.bytes dtype in
          if src_bytes =? dst_bytes then some_shape s
          else
            let last := List.last s (SInt.Const 0) in
            let* product := Sint.mul last (SInt.Const src_bytes) in
            let* new_last := Sint.div product (SInt.Const dst_bytes) in
            some_shape (removelast s ++ [new_last])
      | other => ret (inl other)
      end
  | Op.Reshape _ _ new_shape | Op.Expand _ _ new_shape =>
      let* s := extract_shape_from_uop new_shape in ret (inl s)
  | Op.Permute _ src axes =>
      let*! s := shaped src in
      match collect (fun i => nth_error s (Z.to_nat i)) axes with Some s => some_shape s | None => panic end
  | Op.Pad _ src begin_pads end_pads =>
      let*! src_shape := shaped src in
      let* ranges := extract_ranges_from_uops begin_pads end_pads in
      match ranges with
      | None => ret (inr VoidTypeInOp)
      | Some ranges =>
          if (List.length src_shape =? List.length ranges)%nat
          then let* s := pad_dims src_shape ranges in some_shape s
          else no_shape
      end
  | Op.Shrink _ src offsets sizes =>
      let*! src_shape := shaped src in
      let* ranges := extract_ranges_from_uops offsets sizes in
      match ranges with
      | None => ret (inr VoidTypeInOp)
      | Some ranges =>
          if (List.length src_shape =? List.length ranges)%nat then some_shape (map snd ranges) else no_shape
      end
  | Op.Flip _ src _ | Op.Multi _ src _ => shape src
  | Op.ReduceAxis _ src _ axes =>
      let*! s := shaped src in
      some_shape (imap (fun i dim => if bool_decide (Z.of_nat i ∈ axes) then SInt.Const 1 else dim) s)
  | Op.Reduce _ src _ _ num_axes =>
      let*! s := shaped src in
      if num_axes >? Z.of_nat (List.length s)
      then ret (inr (ReduceInvalidNumAxes num_axes (Z.of_nat (List.length s))))
      else some_shape (skipn (Z.to_nat num_axes) s)
  | Op.AllReduce _ src _ _ => shape src
  | Op.Buffer _ shape_uop _ | Op.Param _ shape_uop _ =>
      let* s := extract_shape_from_uop shape_uop in ret (inl s)
  | Op.Slice _ _ _ size => some_shape [SInt.Const size]
  | Op.Copy _ src _ => shape src
  | Op.MStack _ buffers => match buffers with b :: _ => shape b | [] => no_shape end
  | Op.Stage _ compute ranges _ =>
      let* dims := collect_some range_extent ranges in
      match dims with
      | None => no_shape
      | Some dims =>
          let*! s := shape compute in
          match s with Some s => some_shape (dims ++ s) | None => no_shape end
      end
  | Op.Index _ buffer indices =>
      let*! s := index_shapes indices in
      match s with
      | None => no_shape
      | Some s =>
          let*! buffer_shape := shape buffer in
          match buffer_shape with
          | Some b => some_shape (s ++ skipn (List.length indices) b)
          | None => no_shape
          end
      end
  | Op.Load _ index _ _ | Op.Store _ index _ _ => shape index
  | Op.Range _ _ _ _ _ => some_shape []
  | Op.If _ _ _ | Op.EndIf _ _ | Op.Barrier _ _ _ _ => no_shape
  | Op.End _ computation _ => shape computation
  | Op.MSelect _ buffer _ => shape buffer
  | Op.Special _ _ _ | Op.DefineVar _ _ _ _ => some_shape []
  | Op.Bind _ _ value => shape value
  | Op.Wmma _ a b c _ =>
      let*! a_shape := shape a in
      let*! b_shape := shape b in
      let*! c_shape := shape c in
      match a_shape, b_shape, c_shape with
      | Some a_shape, Some b_shape, Some ((_ :: _) as c_shape) =>
          let*! s := broadcast_shapes [removelast a_shape; removelast b_shape; removelast c_shape] in
          some_shape (s ++ [List.last c_shape (SInt.Const 0)])
      | _, _, _ => no_shape
      end
  | Op.Program _ _ _ _ _ _ | Op.Linear _ _ | Op.Source _ _ _ | Op.ProgramBinary _ _ _ => no_shape
  | Op.Ins _ _ _ | Op.Call _ _ _ _ => scalar_unless_void (uop_dtype u)
  | Op.Function _ _ _ _ | Op.Tuple _ _ => no_shape
  | Op.GetTuple _ src index =>
      match uop_op src with
      | Op.Tuple _ tuple_src =>
          let*! element := ret (get_tuple index tuple_src "TUPLE") in shape element
      | Op.Function _ body args _ =>
          match uop_op body with
          | Op.Tuple _ tuple_src =>
              let*! element := ret (get_tuple index tuple_src "FUNCTION(TUPLE)") in
              let*! s := shape element in
              match s with
              | Some s => let*! s := substitute_selected_shape s args in some_shape s
              | None => no_shape
              end
          | _ => no_shape
          end
      | _ => no_shape
      end
  | Op.Detach _ src | Op.Contiguous _ src _ | Op.ContiguousBackward _ src | Op.Precast _ src => shape src
  | Op.After _ passthrough _ => shape passthrough
  | Op.Custom _ _ _ | Op.CustomI _ _ _ | Op.CustomFunction _ _ _ => no_shape
  | Op.Sink _ _ _ | Op.Group _ _ => no_shape
  | Op.GetAddr _ _ _ => some_shape []
  end.
End Infer.
