(* ===== verification/ShapeLevels.v ===== *)
(** * Shape inference implements its interface

    [infer_shape_from_op] asks for the shapes of other nodes, and building a
    symbolic dimension validates operands by their shapes: [levels n] ties the
    knot to depth [n].  Every level is an instance of [Shapes]: the dimensions
    it answers are nodes of the table. *)

From stdpp Require Import gmap.
From S2P Require Import Prelude F64 DType Cast ConstVal Ops Eval Payload UOp RangeEval Traverse HashCons Rewrite Builder.
From S2P Require Import Shape Constructors ConstructorSpec Properties SymInt InferShape.
#[local] Set Default Proof Using "Type".

Section Laws.
Context {M : LibM} {S : Type} `{I : !Interner S} `{Sh : !Shapes S} `{R : !Rebuilder S}.
Implicit Types s : S.

(** ** Constructors build nodes of the table *)

Lemma newr_yields s op dtype : (forall v, In v (refs op) -> table s v) -> yields s (newr op dtype) (on_ok (table)).
Proof.
  intros H. eapply yields_bind; [now apply yields_new |]. intros s' u _ _ Hu. apply yields_ret, Hu.
Qed.

Lemma promote_yields s a b : table s a -> table s b ->
  yields s (promote_and_cast a b) (on_ok (fun s' r => table s' r.1.1 /\ table s' r.1.2)).
Proof.
  intros Ha Hb. unfold promote_and_cast. cbv zeta. destruct (_ || _); [now apply yields_ret |].
  match goal with |- yields _ (match ?o with Some _ => _ | None => _ end) _ => destruct o as [d |] end; [| now apply yields_ret].
  assert (Commit : forall s1 u, table s1 u ->
    yields s1 (if negb (bool_decide (uop_dtype u = d)) && negb (is_invalid_marker u) then cast_strong_source u d else ret u) table).
  { intros s1 u Hu. destruct (_ && _); [| now apply yields_ret]. unfold cast_strong_source.
    destruct (_ && _); [now apply yields_ret | now apply cast_yields]. }
  eapply yields_bind; [now apply Commit |]. intros s1 a' _ G1 Ha'.
  eapply yields_bind; [apply Commit, G1, Hb |]. intros s2 b' _ G2 Hb'. apply yields_ret. split; [now apply G2 | exact Hb'].
Qed.

Lemma binary_yields s op a b : table s a -> table s b -> yields s (binary_arith_op op a b) (on_ok table).
Proof.
  intros Ha Hb. eapply builds_rbind; [now apply promote_yields |]. intros s1 [[a' b'] d] _ G1 [Ha' Hb'].
  eapply builds_rbind; [now apply validate_binary_yields |]. intros s2 _ _ G2 _.
  apply newr_yields. intros v [<- | [<- | []]]; now apply G2.
Qed.

Lemma div_yields s a b : table s a -> table s b -> yields s (try_div a b) (on_ok table).
Proof.
  intros Ha Hb. eapply builds_rbind with (P := fun _ _ => True); [apply yields_ret; now destruct (check_division_by_zero b) |].
  intros s0 _ _ G0 _. eapply builds_rbind; [apply promote_yields; now apply G0 |]. intros s1 [[a' b'] d] _ G1 [Ha' Hb'].
  cbv zeta. eapply builds_rbind; [now apply validate_binary_yields |]. intros s2 _ _ G2 _.
  apply newr_yields. intros v [<- | [<- | []]]; now apply G2.
Qed.

(** ** Sizes *)

Lemma known_symbolic s u : known s [SInt.Symbolic u] <-> table s u.
Proof. unfold known, dims. cbn. split; [intros H; apply H; now left | intros H v [-> | Hv%not_elem_of_nil]%elem_of_cons; [exact H | destruct Hv]]. Qed.

Lemma known_const s v : known s [SInt.Const v].
Proof. intros u Hu%not_elem_of_nil. destruct Hu. Qed.

Lemma pair_yields s a b : known s [a] -> known s [b] ->
  yields s (Sint.arithmetic_pair a b) (fun s' p => table s' p.1 /\ table s' p.2).
Proof.
  intros Ha Hb.
  assert (Uop : forall s1 d, known s1 [d] -> yields s1 (Sint.arithmetic_uop d) table).
  { intros s1 [v | u |] Hd; cbn [Sint.arithmetic_uop]; [apply const_yields | apply yields_ret; now apply known_symbolic | apply yields_panic]. }
  assert (Two : yields s (let* x := Sint.arithmetic_uop a in let* y := Sint.arithmetic_uop b in ret (x, y))
                  (fun s' p => table s' p.1 /\ table s' p.2)).
  { eapply yields_bind; [now apply Uop |]. intros s1 x _ G1 Hx. eapply yields_bind; [apply Uop; eapply known_grows; eassumption |].
    intros s2 y _ G2 Hy. apply yields_ret. split; [now apply G2 | exact Hy]. }
  destruct a as [v | u |], b as [w | u' |]; try exact Two; cbn [Sint.arithmetic_pair].
  - eapply yields_bind; [now apply to_uop_yields |]. intros s1 x _ G1 Hx. apply yields_ret.
    split; [exact Hx | now apply G1, known_symbolic].
  - eapply yields_bind; [now apply to_uop_yields |]. intros s1 x _ G1 Hx. apply yields_ret.
    split; [now apply G1, known_symbolic | exact Hx].
Qed.

Lemma binop_yields s concrete method a b :
  (forall s p q, table s p -> table s q -> yields s (method p q) (on_ok table)) ->
  known s [a] -> known s [b] -> yields s (Sint.sint_binop concrete method a b) (fun s' c => known s' [c]).
Proof.
  intros Hm Ha Hb.
  assert (Mixed : yields s (let* (x, y) := Sint.arithmetic_pair a b in let* u := expect (method x y) in ret (SInt.Symbolic u))
                    (fun s' c => known s' [c])).
  { eapply yields_bind; [now apply pair_yields |]. intros s1 [x y] _ G1 [Hx Hy].
    eapply yields_bind; [now apply yields_expect, Hm |]. intros s2 u _ _ Hu. apply yields_ret. now apply known_symbolic. }
  assert (Conc : forall x y, yields s (let* v := Sint.lift (concrete x y) in ret (SInt.Const v)) (fun s' c => known s' [c])).
  { intros x y. unfold Sint.lift. destruct (concrete x y); [apply yields_ret, known_const | apply yields_panic]. }
  destruct a as [[| v | v] | u |], b as [[| w | w] | u' |]; unfold Sint.sint_binop;
    try apply yields_panic; try exact Mixed; try apply Conc; now apply yields_ret.
Qed.

Lemma smax_yields s a b : known s [a] -> known s [b] -> yields s (Sint.smax a b) (fun s' c => known s' [c]).
Proof.
  intros Ha Hb.
  assert (Mixed : yields s (if SInt.eqb a b then ret a
      else
        let* (p, q) := Sint.arithmetic_pair a b in
        if Sint.symbolic_contains_max_term p q then ret a
        else if Sint.symbolic_contains_max_term q p then ret b
        else match Sint.by_range p q a b with
             | Some d => ret d
             | None => let* u := expect (try_max p q) in ret (SInt.Symbolic u)
             end) (fun s' c => known s' [c])).
  { destruct (SInt.eqb a b); [now apply yields_ret |].
    eapply yields_bind; [now apply pair_yields |]. intros s1 [p q] _ G1 [Hp Hq]. cbn [fst snd] in Hp, Hq.
    assert (Ha1 : known s1 [a]) by (eapply known_grows; eassumption). assert (Hb1 : known s1 [b]) by (eapply known_grows; eassumption).
    destruct (Sint.symbolic_contains_max_term p q); [now apply yields_ret |].
    destruct (Sint.symbolic_contains_max_term q p); [now apply yields_ret |].
    assert (D : forall d, Sint.by_range p q a b = Some d -> d = a \/ d = b).
    { intros d. unfold Sint.by_range. repeat match goal with |- context [match ?o with Some _ => _ | None => _ end] => destruct o end; try discriminate.
      destruct (_ >=? _); [intros [= <-]; now left |]. destruct (_ >=? _); [intros [= <-]; now right | discriminate]. }
    destruct (Sint.by_range p q a b) as [d |]; [apply yields_ret; now destruct (D d eq_refl) as [-> | ->] |].
    eapply yields_bind; [now apply yields_expect, binary_yields |]. intros s2 u _ _ Hu. apply yields_ret. now apply known_symbolic. }
  destruct a as [v | u |], b as [w | u' |]; try exact Mixed; try apply yields_panic. apply yields_ret, known_const.
Qed.

(** ** Substitution *)

Definition targets_in s (m : Substitutions) : Prop := forall i f a, m !! i = Some (f, a) -> table s a.

Record engine_in (e : @Engine S) : Prop := {
  ei_settled : settled (ctx e);
  ei_replace i x : replace e !! i = Some x -> table (ctx e) x;
  ei_cache i x : bpm_cache e !! i = Some (Some x) -> table (ctx e) x
}.

Lemma record_in e i x : engine_in e -> table (ctx e) x -> engine_in (record_replace i x e).
Proof.
  intros [H1 H2 H3] Hx. split; [exact H1 | | exact H3]. intros j y. cbn. rewrite lookup_insert_Some.
  intros [[_ <-] | [_ H]]; [exact Hx | exact (H2 j y H)].
Qed.

Lemma keep_in skipped : forall e, engine_in e -> (forall x, In x skipped -> table (ctx e) x) ->
  engine_in (fold_left (fun e c => keep c e) skipped e) /\ ctx (fold_left (fun e c => keep c e) skipped e) = ctx e.
Proof.
  induction skipped as [| x l IH]; intros e He Hl; cbn [fold_left]; [now split |].
  assert (H : engine_in (keep x e) /\ ctx (keep x e) = ctx e).
  { unfold keep. destruct (replace e !! uid x); [now split |]. split; [apply record_in; [exact He | apply Hl; now left] | reflexivity]. }
  destruct H as [H1 H2]. destruct (IH (keep x e) H1) as [H3 H4]; [intros y Hy; rewrite H2; apply Hl; now right |].
  split; [exact H3 | now rewrite H4].
Qed.

Lemma traversal_children_source mode n x : In x (traversal_children n mode).1 \/ In x (traversal_children n mode).2 -> In x (children n).
Proof.
  unfold traversal_children. destruct mode; [cbn; tauto |]. unfold children.
  destruct (uop_op n); cbn [fst snd Op.children In]; try tauto; rewrite ?in_app_iff; tauto.
Qed.

Lemma walk_iterate_in m n processed stack e stack' e' :
  targets_in (ctx e) m -> engine_in e -> table (ctx e) n -> Forall (fun p => table (ctx e) p.1) stack ->
  walk_iterate with_sources None (Some (substitute_matcher m)) TraversalMode.PreserveCallBodies n processed stack e = Some (stack', e') ->
  engine_in e' /\ grows (ctx e) (ctx e') /\ Forall (fun p => table (ctx e') p.1) stack'.
Proof.
  intros Hm He Hn Hst. unfold walk_iterate. destruct (_ <? _)%nat; [discriminate |].
  destruct (replace e !! uid n); [intros [= <- <-]; split; [exact He |]; split; [now intros v Hv | exact Hst] |].
  destruct processed; cbn [negb].
  - set (new_src := map (fun c => from_option (fun r => r) c (replace e !! uid c)) (children n)).
    assert (Hnew : forall v, In v new_src -> table (ctx e) v).
    { intros v (c & <- & Hc)%in_map_iff. destruct (replace e !! uid c) eqn:E; cbn [from_option]; [exact (ei_replace e He _ _ E) |].
      exact (table_source (ctx e) n c (ei_settled e He) Hn Hc). }
    unfold pm_rewrite. destruct (changed (children n) new_src); cbn.
    + destruct (with_sources n new_src (ctx e)) as [[s1 node] |] eqn:E; cbn; [| discriminate]. intros [= <- <-].
      destruct (with_sources_spec (ctx e) n new_src Hn Hnew (ei_settled e He) s1 node E) as (Hs1 & G & Hnode).
      split; [| split; [exact G | eapply Forall_impl; [exact Hst |]; intros q Hq; now apply G]].
      apply (record_in (mkEngine (replace e) (bpm_cache e) s1)); [| exact Hnode]. split; cbn; [exact Hs1 | |]; intros i x Hx; apply G; [exact (ei_replace e He i x Hx) | exact (ei_cache e He i x Hx)].
    + intros [= <- <-]. split; [now apply record_in |]. split; [now intros v Hv | exact Hst].
  - assert (Go : forall e1 r, ctx e1 = ctx e -> engine_in e1 -> (forall x, r = inl (Some x) \/ r = inr x -> table (ctx e1) x) ->
      match r with
      | inl (Some rewritten) => Some (stack, record_replace (uid n) rewritten e1)
      | inr gated => Some (stack, record_replace (uid n) gated e1)
      | inl None =>
          let '(sources, skipped) := traversal_children n TraversalMode.PreserveCallBodies in
          let e := fold_left (fun e c => keep c e) skipped e1 in
          let kids := filter (fun c => replace e !! uid c = None) sources in
          Some (map (fun c => (c, false)) kids ++ (n, true) :: stack, e)
      end = Some (stack', e') -> engine_in e' /\ grows (ctx e) (ctx e') /\ Forall (fun p => table (ctx e') p.1) stack').
    { intros e1 r Ec He1 Hr. destruct r as [[x |] | x]; cbv beta iota.
      - intros [= <- <-]. split; [apply record_in; auto |]. cbn. rewrite Ec. split; [now intros v Hv | exact Hst].
      - pose proof (traversal_children_source TraversalMode.PreserveCallBodies n) as Hc.
        destruct (traversal_children n TraversalMode.PreserveCallBodies) as [sources skipped] eqn:T. cbn [fst snd] in Hc.
        assert (Hsrc : forall x, In x sources \/ In x skipped -> table (ctx e1) x).
        { intros x Hx. rewrite Ec. exact (table_source (ctx e) n x (ei_settled e He) Hn (Hc x Hx)). }
        destruct (keep_in skipped e1 He1) as [H1 H2]; [auto |]. cbv zeta. intros [= <- <-]. split; [exact H1 |]. rewrite H2, Ec.
        split; [now intros v Hv |]. apply Forall_app_2; [| now constructor]. rewrite <- Ec.
        apply Forall_map, List.Forall_forall. intros x Hx%in_filter. apply Hsrc. now left.
      - intros [= <- <-]. split; [apply record_in; auto |]. cbn. rewrite Ec. split; [now intros v Hv | exact Hst]. }
    unfold cached_bpm_rewrite, substitute_matcher, ret. destruct (bpm_cache e !! uid n) as [cached |] eqn:C; cbn.
    + apply (Go e (inl cached) eq_refl He). intros x [[= ->] | [=]]. exact (ei_cache e He _ _ C).
    + destruct (m !! uid n) as [[f a] |] eqn:E.
      * destruct (ptr_eq n a) eqn:P.
        -- cbn. apply (Go (mkEngine (replace e) (<[uid n := None]> (bpm_cache e)) (ctx e)) (inl None) eq_refl); [| intros x [[=] | [=]]].
           split; cbn; [apply He | apply He |]. intros i x. rewrite lookup_insert_Some. intros [[_ [=]] | [_ H]]. exact (ei_cache e He i x H).
        -- destruct (ptr_eq a n) eqn:P'; cbn; [discriminate |].
           apply (Go (mkEngine (replace e) (<[uid n := Some a]> (bpm_cache e)) (ctx e)) (inl (Some a)) eq_refl);
             [| intros x [[= <-] | [=]]; exact (Hm _ _ _ E)].
           split; cbn; [apply He | apply He |]. intros i x. rewrite lookup_insert_Some.
           intros [[_ [= <-]] | [_ H]]; [exact (Hm _ _ _ E) | exact (ei_cache e He i x H)].
      * cbn. apply (Go (mkEngine (replace e) (<[uid n := None]> (bpm_cache e)) (ctx e)) (inl None) eq_refl); [| intros x [[=] | [=]]].
        split; cbn; [apply He | apply He |]. intros i x. rewrite lookup_insert_Some. intros [[_ [=]] | [_ H]]. exact (ei_cache e He i x H).
Qed.

Lemma targets_grow s s' m : grows s s' -> targets_in s m -> targets_in s' m.
Proof. intros G H i f a E. exact (G _ (H i f a E)). Qed.

Lemma walk_run_in m fuel : forall stack e e',
  targets_in (ctx e) m -> engine_in e -> Forall (fun p => table (ctx e) p.1) stack ->
  walk_run with_sources None (Some (substitute_matcher m)) TraversalMode.PreserveCallBodies fuel stack e = Some e' ->
  engine_in e' /\ grows (ctx e) (ctx e').
Proof.
  induction fuel as [| fuel IH]; intros [| [n b] stack] e e' Hm He Hst H; cbn [walk_run] in H; try discriminate H;
    try (injection H as <-; split; [exact He | now intros v Hv]).
  apply Forall_cons in Hst as [Hn Hst]. destruct (walk_iterate _ _ _ _ _ _ _ _) as [[stack1 e1] |] eqn:E; [| discriminate H].
  destruct (walk_iterate_in m n b stack e stack1 e1 Hm He Hn Hst E) as (He1 & G1 & Hst1).
  destruct (IH stack1 e1 e' (targets_grow _ _ m G1 Hm) He1 Hst1 H) as [He' G2].
  split; [exact He' | intros v Hv; now apply G2, G1].
Qed.

Lemma substitute_walk_yields s m u : targets_in s m -> table s u -> yields s (substitute_walk_preserve_calls u m) table.
Proof.
  intros Hm Hu. unfold substitute_walk_preserve_calls. destruct (bool_decide _); [now apply yields_ret |].
  intros Hs s' v E. unfold walk_rewrite in E. destruct (walk_run _ _ _ _ _ _ _) as [e |] eqn:W; [| discriminate E].
  injection E as <- <-. destruct (walk_run_in m (2 * List.length (nodes u)) [(u, false)] (mkEngine ∅ ∅ s) e) as [He G]; try exact W.
  - exact Hm.
  - split; cbn; [exact Hs | |]; intros i x H; now rewrite lookup_empty in H.
  - now constructor.
  - split; [apply He |]. split; [exact G |]. destruct (replace e !! uid u) eqn:E; cbn [from_option]; [exact (ei_replace e He _ _ E) | now apply G].
Qed.

Lemma uncast_table s u : settled s -> table s u -> table s (SInt.uncast u).
Proof.
  intros Hs. induction u as [u IH] using UOp_children_ind. intros Hu. destruct u as [i op d]. destruct op; try exact Hu.
  cbn [SInt.uncast]. apply Forall_cons in IH as [IH _]. apply IH. apply (table_source s _ src Hs Hu). now left.
Qed.

Lemma from_uop_known s u : table s u -> known s [SInt.from_uop u].
Proof.
  intros Hu. unfold SInt.from_uop, SInt.simplify.
  destruct (uop_op (SInt.uncast u)); try now apply known_symbolic. destruct value; try now apply known_symbolic.
  - destruct (_ >=? 0); [apply known_const | now apply known_symbolic].
  - apply known_const.
Qed.

Lemma substitute_dims_yields m ids sh : forall s, targets_in s m -> known s sh ->
  yields s (substitute_dims m ids sh) (fun s' r => known s' r.1).
Proof.
  induction sh as [| d sh IH]; intros s Hm Hk; cbn [substitute_dims]; [apply yields_ret; intros v Hv%not_elem_of_nil; destruct Hv |].
  apply known_cons in Hk as [Hd Hk].
  assert (Tail : forall s1 d', grows s s1 -> known s1 [d'] ->
    yields s1 (let* (result, dangling) := substitute_dims m ids sh in ret (d' :: result, dangling)) (fun s' r => known s' r.1)).
  { intros s1 d' G Hd'. eapply yields_bind; [apply IH; eauto using targets_grow, known_grows |].
    intros s2 [result dangling] _ G2 Hr. apply yields_ret. cbn. apply known_cons. eauto using known_grows. }
  destruct d as [v | u |]; try (apply Tail; [now intros x Hx | exact Hd]).
  eapply yields_bind; [apply substitute_walk_yields; [exact Hm | now apply known_symbolic] |]. intros s1 r _ G1 Hr.
  eapply yields_bind; [apply IH; eauto using targets_grow, known_grows |]. intros s2 [result dangling] _ G2 Hres.
  apply yields_ret. cbn. apply known_cons. split; [apply from_uop_known; now apply G2 | exact Hres].
Qed.

Lemma actual_in slot args u : actual_for_formal slot args = inl u -> In u args.
Proof.
  unfold actual_for_formal. destruct (slot =? usize_max).
  - destruct (last args) eqn:E; [| discriminate]. intros [= <-]. rewrite last_lookup in E. now apply list_elem_of_lookup_2, list_elem_of_In in E.
  - destruct (args !! _) eqn:E; [| discriminate]. intros [= <-]. now apply list_elem_of_lookup_2, list_elem_of_In in E.
Qed.

Lemma select_formals_targets s formals args : forall m m', (forall v, In v args -> table s v) -> targets_in s m ->
  select_formals formals args m = inl m' -> targets_in s m'.
Proof.
  induction formals as [| f formals IH]; intros m m' Ha Hm H; cbn [select_formals] in H; [now injection H as <- |].
  destruct (uop_op f); try exact (IH m m' Ha Hm H).
  destruct (actual_for_formal (ParamArg.slot arg) args) as [a |] eqn:E; cbn [rbind_pure] in H; [| discriminate H].
  destruct (bool_decide _); [discriminate H |]. apply (IH _ m' Ha) in H; [exact H |].
  intros i g x. rewrite lookup_insert_Some. intros [[_ [= <- <-]] | [_ Hx]]; [apply Ha; exact (actual_in _ _ _ E) | exact (Hm i g x Hx)].
Qed.

Lemma select_in_shape_targets s sh args : forall m m', (forall v, In v args -> table s v) -> targets_in s m ->
  select_in_shape sh args m = inl m' -> targets_in s m'.
Proof.
  induction sh as [| d sh IH]; intros m m' Ha Hm H; cbn [select_in_shape] in H; [now injection H as <- |].
  destruct d as [v | u |]; try exact (IH m m' Ha Hm H).
  destruct (select_formals _ args m) as [m1 |] eqn:E; cbn [rbind_pure] in H; [| discriminate H].
  apply (IH m1 m' Ha); [exact (select_formals_targets s _ args m m1 Ha Hm E) | exact H].
Qed.

Lemma substitute_selected_yields s sh args : known s sh -> (forall v, In v args -> table s v) ->
  yields s (substitute_selected_shape sh args) (on_ok known).
Proof.
  intros Hk Ha. unfold substitute_selected_shape. destruct (select_in_shape sh args ∅) as [m |] eqn:E; [| now apply yields_ret].
  eapply yields_bind; [apply substitute_dims_yields; [| exact Hk] |].
  - apply (select_in_shape_targets s sh args ∅ m Ha); [intros i f a H; now rewrite lookup_empty in H | exact E].
  - intros s1 [result dangling] _ _ Hr. destruct (dedup _); now apply yields_ret.
Qed.

(** ** Inference *)

Definition known_some s (o : option Shape) : Prop := known s (from_option id [] o).

Lemma known_nil s : known s [].
Proof. intros v Hv%not_elem_of_nil. destruct Hv. Qed.

Lemma known_in s sh : (forall d, In d sh -> known s [d]) <-> known s sh.
Proof.
  induction sh as [| d sh IH]; [split; [intros _; apply known_nil | intros _ d []] |]. rewrite known_cons, <- IH. split.
  - intros H. split; [apply H; now left | intros x Hx; apply H; now right].
  - intros [H1 H2] x [<- | Hx]; auto.
Qed.

Lemma known_incl s sh sh' : (forall d, In d sh' -> In d sh \/ SInt.is_const d = true) -> known s sh -> known s sh'.
Proof.
  intros H Hk. apply known_in. intros d Hd. destruct (H d Hd) as [Hin | Hc]; [now apply (proj2 (known_in s sh)) |].
  destruct d; try discriminate Hc. apply known_const.
Qed.

Lemma const_dim_known s v d : const_dim v = Some d -> known s [d].
Proof. destruct v; try discriminate; cbn; [destruct (_ >=? _) |]; intros [= <-]; apply known_const. Qed.

Lemma collect_known {A} s (f : A -> option SInt) l sh : (forall a d, f a = Some d -> known s [d]) -> collect f l = Some sh -> known s sh.
Proof.
  intros Hf. revert sh. induction l as [| a l IH]; intros sh H; cbn [collect] in H; [injection H as <-; apply known_nil |].
  destruct (f a) as [d |] eqn:E; [| discriminate H]. destruct (collect f l) as [ds |]; [| discriminate H]. injection H as <-.
  apply known_cons. split; [exact (Hf a d E) | now apply IH].
Qed.

Lemma extract_yields s u : table s u -> yields s (extract_shape_from_uop u) (on_some known).
Proof.
  induction u as [u IH] using UOp_children_ind. intros Hu.
  assert (Scalar : yields s (if DType.is_int (uop_dtype u) then
      let* o := shape u in ret match o with inl (Some []) => Some [SInt.Symbolic u] | _ => None end
    else ret None) (on_some known)).
  { destruct (DType.is_int _); [| now apply yields_ret]. eapply yields_bind; [now apply shape_yields |].
    intros s1 [[[|] |] |] _ G _; apply yields_ret; cbn; auto. now apply known_symbolic, G. }
  destruct u as [i op d]. destruct op; cbn [extract_shape_from_uop]; try exact Scalar.
  - apply yields_ret. unfold option_map. destruct (const_dim value) as [dim |] eqn:E; cbn; [exact (const_dim_known s value dim E) | exact Logic.I].
  - cbn [children uop_op Op.children] in IH. apply Forall_cons in IH as [IH _].
    destruct (uop_op src); try exact Scalar; (apply yields_settled; intros Hs; apply IH, (table_source s _ src Hs Hu); now left).
  - cbn [children uop_op Op.children] in IH. apply Forall_cons in IH as [IH _].
    destruct (uop_op src); try exact Scalar; (apply yields_settled; intros Hs; apply IH, (table_source s _ src Hs Hu); now left).
  - apply yields_settled. intros Hs. apply yields_ret. apply known_in. intros d' (c & <- & Hc)%in_map_iff.
    apply from_uop_known, (table_source s _ c Hs Hu). exact Hc.
  - apply yields_ret. destruct (collect const_dim values) as [sh |] eqn:E; cbn; [exact (collect_known s _ _ _ (const_dim_known s) E) | exact Logic.I].
Qed.

Lemma ranges_yields s a b : table s a -> table s b ->
  yields s (extract_ranges_from_uops a b) (on_some (fun s' l => known s' (map fst l) /\ known s' (map snd l))).
Proof.
  intros Ha Hb. eapply finds_obind; [now apply extract_yields |]. intros s1 begins _ G1 H1.
  eapply finds_obind; [apply extract_yields, G1, Hb |]. intros s2 ends _ G2 H2.
  destruct (Nat.eqb_spec (List.length begins) (List.length ends)) as [E |]; apply yields_ret; [| exact Logic.I].
  assert (F : map fst (combine begins ends) = begins /\ map snd (combine begins ends) = ends).
  { clear - E. revert ends E. induction begins as [| x l IH]; intros [| y k] E; try discriminate; [now split |].
    injection E as E. destruct (IH k E) as [H1 H2]. cbn. now rewrite H1, H2. }
  cbn. destruct F as [-> ->]. split; [eapply known_grows; eassumption | exact H2].
Qed.

Lemma shaped_yields s u : table s u -> yields s (shaped u) (on_ok known).
Proof.
  intros Hu. eapply builds_rbind; [now apply shape_yields |]. intros s1 [sh |] _ _ H; apply yields_ret; [exact H | exact Logic.I].
Qed.

Lemma same_shapes_yields s sh l : Forall (table s) l -> yields s (same_shapes sh l) (fun _ _ => True).
Proof.
  revert s. induction l as [| u l IH]; intros s H; cbn [same_shapes]; [now apply yields_ret |]. apply Forall_cons in H as [Hu Hl].
  eapply yields_bind; [now apply shape_yields |]. intros s1 [[sh1 |] |] _ G _; try now apply yields_ret.
  destruct (shapes_equal sh1 sh); [| now apply yields_ret]. apply IH. eapply Forall_impl; [exact Hl |]. intros v Hv. now apply G.
Qed.

Lemma present_yields l : forall s, Forall (table s) l -> yields s (present_shapes l) (on_ok (fun s' r => Forall (known s') r)).
Proof.
  induction l as [| u l IH]; intros s H; cbn [present_shapes]; [apply yields_ret; constructor |]. apply Forall_cons in H as [Hu Hl].
  eapply builds_rbind; [now apply shape_yields |]. intros s1 o _ G1 Ho.
  eapply builds_rbind; [apply IH; eapply Forall_impl; [exact Hl |]; intros v Hv; now apply G1 |]. intros s2 rest _ G2 Hrest.
  apply yields_ret. destruct o as [sh |]; cbn; [constructor; [eapply known_grows; [exact G2 | exact Ho] |] |]; exact Hrest.
Qed.

Lemma index_shapes_yields l : forall s, Forall (table s) l -> yields s (index_shapes l) (on_ok known_some).
Proof.
  induction l as [| u l IH]; intros s H; cbn [index_shapes]; [apply yields_ret, known_nil |]. apply Forall_cons in H as [Hu Hl].
  eapply builds_rbind; [now apply shape_yields |]. intros s1 [sh |] _ G1 Ho; [| apply yields_ret, known_nil].
  eapply builds_rbind; [apply IH; eapply Forall_impl; [exact Hl |]; intros v Hv; now apply G1 |]. intros s2 rest _ G2 Hrest.
  apply yields_ret. destruct rest as [rest |]; cbn; [| apply known_nil]. apply known_app; [eapply known_grows; [exact G2 | exact Ho] | exact Hrest].
Qed.

Lemma pad_dims_yields sh : forall ranges s, known s sh -> known s (map fst ranges) -> known s (map snd ranges) ->
  yields s (pad_dims sh ranges) known.
Proof.
  assert (Add : forall s a b, known s [a] -> known s [b] -> yields s (Sint.add a b) (fun s' c => known s' [c])).
  { intros s a b. apply binop_yields. intros s1 p q. now apply binary_yields. }
  induction sh as [| d sh IH]; intros [| [b e] ranges] s Hd Hb He; cbn [pad_dims]; try (apply yields_ret, known_nil).
  cbn [map fst snd] in Hb, He. apply known_cons in Hd as [Hd Hsh], Hb as [Hb Hbs], He as [He Hes].
  eapply yields_bind; [now apply Add |]. intros s1 x _ G1 Hx.
  eapply yields_bind; [apply Add; [exact Hx | eapply known_grows; eassumption] |]. intros s2 y _ G2 Hy.
  assert (G : grows s s2) by (intros v Hv; now apply G2, G1).
  eapply yields_bind; [apply IH; eapply known_grows; eassumption |]. intros s3 rest _ G3 Hrest. apply yields_ret.
  apply known_cons. split; [eapply known_grows; eassumption | exact Hrest].
Qed.

Lemma range_extent_yields s u : table s u -> yields s (range_extent u) (on_some (fun s' d => known s' [d])).
Proof.
  intros Hu. unfold range_extent.
  assert (Dead : forall v, yields s (dead_extent v) (on_some (fun s' d => known s' [d]))).
  { intros v. unfold dead_extent. destruct v; try now apply yields_ret.
    - destruct (_ >=? _); [| now apply yields_ret]. destruct (_ <? _); [apply yields_ret, known_const | apply yields_panic].
    - destruct (_ <? _); [apply yields_ret, known_const | apply yields_panic]. }
  destruct (uop_op u) eqn:E; try (apply yields_ret; now apply known_symbolic); [apply Dead |].
  apply yields_settled. intros Hs. apply yields_ret. cbn.
  assert (He : table s end_) by (apply (table_source s u end_ Hs Hu); unfold children; rewrite E; now left).
  destruct (uop_op end_); try now apply known_symbolic. destruct (const_dim value) eqn:C; cbn; [exact (const_dim_known s value _ C) | now apply known_symbolic].
Qed.

Lemma some_yields s sh : known s sh -> yields s (some_shape sh) (on_ok known_some).
Proof. intros H. now apply yields_ret. Qed.

Lemma no_yields s : yields s no_shape (on_ok known_some).
Proof. apply yields_ret, known_nil. Qed.

Lemma payload_yields s u : table s u -> yields s (let* o := extract_shape_from_uop u in ret (inl o)) (@on_ok S _ Error known_some).
Proof.
  intros Hu. eapply yields_bind; [now apply extract_yields |]. intros s1 [sh |] _ _ H; apply yields_ret; [exact H | apply known_nil].
Qed.

Lemma broadcast_yields s l : Forall (known s) l ->
  yields s (let*! r := broadcast_shapes l in some_shape r) (on_ok known_some).
Proof.
  intros H. eapply builds_rbind; [now apply broadcast_shapes_yields |]. intros s1 r _ _ Hr. now apply some_yields.
Qed.

Lemma known_tail s d sh : known s (d :: sh) -> known s sh.
Proof. intros H. now apply known_cons in H. Qed.

Lemma known_sub s sh sh' : incl sh' sh -> known s sh -> known s sh'.
Proof. intros H. apply known_incl. intros d Hd. left. now apply H. Qed.

Lemma in_removelast {A} (l : list A) x : In x (removelast l) -> In x l.
Proof.
  induction l as [| a [| b l] IH]; [auto | intros [] |]. intros [-> | H]; [now left | right; now apply IH].
Qed.

Lemma last_known s sh : known s sh -> known s [List.last sh (SInt.Const 0)].
Proof.
  intros H. destruct sh as [| d sh]; [apply known_const |]. apply (proj2 (known_in s (d :: sh)) H).
  destruct (@exists_last _ (d :: sh) ltac:(discriminate)) as (l & x & E). rewrite E, last_last. apply in_app_iff. right. now left.
Qed.

Lemma stack_shape_yields s sources : Forall (table s) sources ->
  yields s match sources with
    | [] => some_shape []
    | first :: rest =>
        let*! source_shape := shaped first in
        let* same := same_shapes source_shape rest in
        if same then some_shape (SInt.Const (Z.of_nat (List.length sources)) :: source_shape) else no_shape
    end (on_ok known_some).
Proof.
  intros H. destruct sources as [| first rest]; [apply some_yields, known_nil |]. apply Forall_cons in H as [Hf Hr].
  eapply builds_rbind; [now apply shaped_yields |]. intros s1 sh _ G1 Hsh.
  eapply yields_bind; [apply same_shapes_yields; eapply Forall_impl; [exact Hr |]; intros v Hv; now apply G1 |].
  intros s2 [|] _ G2 _; [| apply no_yields]. apply some_yields, known_cons. split; [apply known_const | eapply known_grows; eassumption].
Qed.

Lemma bitcast_shape_yields s src dtype : table s src ->
  yields s (let*! src_shape := shape src in
      match src_shape with
      | Some ((_ :: _) as sh) =>
          let src_bytes := DType.bytes (uop_dtype src) in
          let dst_bytes := DType.bytes dtype in
          if src_bytes =? dst_bytes then some_shape sh
          else
            let last := List.last sh (SInt.Const 0) in
            let* product := Sint.mul last (SInt.Const src_bytes) in
            let* new_last := Sint.div product (SInt.Const dst_bytes) in
            some_shape (removelast sh ++ [new_last])
      | other => ret (inl other)
      end) (on_ok known_some).
Proof.
  intros H. eapply builds_rbind; [now apply shape_yields |]. intros s1 [[| d sh] |] _ G1 Hsh; try (apply yields_ret; exact Hsh).
  cbv zeta. change (known s1 (d :: sh)) in Hsh. destruct (_ =? _); [apply some_yields, Hsh |].
  eapply yields_bind; [apply binop_yields; [intros; now apply binary_yields | now apply last_known | apply known_const] |].
  intros s2 x _ G2 Hx. eapply yields_bind; [apply binop_yields; [intros; now apply div_yields | exact Hx | apply known_const] |].
  intros s3 y _ G3 Hy. apply some_yields, known_app; [| exact Hy]. apply (known_sub s3 (d :: sh)); [intros z Hz; now apply in_removelast |].
  eapply known_grows; [exact G3 |]. eapply known_grows; eassumption.
Qed.

Lemma function_tuple_yields s src index : settled s -> table s src ->
  yields s match uop_op src with
      | Op.Tuple _ tuple_src =>
          let*! element := ret (get_tuple index tuple_src "TUPLE") in shape element
      | Op.Function _ body args _ =>
          match uop_op body with
          | Op.Tuple _ tuple_src =>
              let*! element := ret (get_tuple index tuple_src "FUNCTION(TUPLE)") in
              let*! o := shape element in
              match o with
              | Some o => let*! o := substitute_selected_shape o args in some_shape o
              | None => no_shape
              end
          | _ => no_shape
          end
      | _ => no_shape
      end (on_ok known_some).
Proof.
  intros Hs Hsrc.
  assert (Get : forall l kind, (forall v, In v l -> table s v) ->
    yields s (ret (get_tuple index l kind)) (on_ok (fun s' u => table s' u))).
  { intros l kind Hl. apply yields_ret. unfold get_tuple. destruct (l !! _) eqn:E; [| exact Logic.I].
    apply Hl. now apply list_elem_of_lookup_2, list_elem_of_In in E. }
  destruct (uop_op src) eqn:E; try apply no_yields.
  - assert (Hb : table s body) by (apply (table_source s src body Hs Hsrc); unfold children; rewrite E; now left).
    assert (Hargs : forall v, In v args -> table s v) by (intros v Hv; apply (table_source s src v Hs Hsrc); unfold children; rewrite E; now right).
    destruct (uop_op body) eqn:E'; try apply no_yields.
    eapply builds_rbind; [apply Get; intros v Hv; apply (table_source s body v Hs Hb); unfold children; rewrite E'; exact Hv |].
    intros s1 u _ G1 Hu. eapply builds_rbind; [now apply shape_yields |]. intros s2 [sh |] _ G2 Hsh; [| apply no_yields].
    eapply builds_rbind; [apply substitute_selected_yields; [exact Hsh | intros v Hv; now apply G2, G1, Hargs] |].
    intros s3 r _ _ Hr. now apply some_yields.
  - eapply builds_rbind; [apply Get; intros v Hv; apply (table_source s src v Hs Hsrc); unfold children; rewrite E; exact Hv |].
    intros s1 u _ _ Hu. now apply shape_yields.
Qed.

Lemma stage_shape_yields s compute ranges : table s compute -> (forall v, In v ranges -> table s v) ->
  yields s (let* dims := collect_some range_extent ranges in
      match dims with
      | None => no_shape
      | Some dims =>
          let*! o := shape compute in
          match o with Some sh => some_shape (dims ++ sh) | None => no_shape end
      end) (on_ok known_some).
Proof.
  intros Hc Hr. eapply yields_bind; [apply (finds_collect range_extent (fun s' (_ : UOp) d => known s' [d])) |].
  - intros s1 s2 _ d G Hd. eapply known_grows; eassumption.
  - intros s1 a _ G Ha. apply range_extent_yields. now apply G, Hr.
  - intros s1 [ds |] _ G1 Hds; [| apply no_yields]. cbn in Hds.
    assert (Hk : known s1 ds) by (clear - Hds; induction Hds as [| a d l ds Hd _ IH]; [apply known_nil | now apply known_cons]).
    eapply builds_rbind; [apply shape_yields, G1, Hc |]. intros s2 [sh |] _ G2 Hsh; [| apply no_yields].
    apply some_yields, known_app; [eapply known_grows; eassumption | exact Hsh].
Qed.

Lemma index_shape_yields s buffer indices : table s buffer -> (forall v, In v indices -> table s v) ->
  yields s (let*! o := index_shapes indices in
      match o with
      | None => no_shape
      | Some sh =>
          let*! buffer_shape := shape buffer in
          match buffer_shape with
          | Some b => some_shape (sh ++ skipn (List.length indices) b)
          | None => no_shape
          end
      end) (on_ok known_some).
Proof.
  intros Hb Hi. eapply builds_rbind; [apply index_shapes_yields, List.Forall_forall, Hi |].
  intros s1 [sh |] _ G1 Hsh; [| apply no_yields]. eapply builds_rbind; [apply shape_yields, G1, Hb |].
  intros s2 [b |] _ G2 Hb2; [| apply no_yields]. apply some_yields, known_app; [eapply known_grows; [exact G2 | exact Hsh] |].
  apply (known_sub s2 b); [| exact Hb2]. intros d Hd. rewrite <- (firstn_skipn (List.length indices) b). apply in_app_iff. now right.
Qed.

Lemma wmma_shape_yields s a b c : table s a -> table s b -> table s c ->
  yields s (let*! a_shape := shape a in
      let*! b_shape := shape b in
      let*! c_shape := shape c in
      match a_shape, b_shape, c_shape with
      | Some a_shape, Some b_shape, Some ((_ :: _) as c_shape) =>
          let*! o := broadcast_shapes [removelast a_shape; removelast b_shape; removelast c_shape] in
          some_shape (o ++ [List.last c_shape (SInt.Const 0)])
      | _, _, _ => no_shape
      end) (on_ok known_some).
Proof.
  intros Ha Hb Hc. eapply builds_rbind; [now apply shape_yields |]. intros s1 oa _ G1 Hoa.
  eapply builds_rbind; [apply shape_yields, G1, Hb |]. intros s2 ob _ G2 Hob.
  eapply builds_rbind; [apply shape_yields, G2, G1, Hc |]. intros s3 oc _ G3 Hoc.
  destruct oa as [sa |], ob as [sb |], oc as [[| d sc] |]; try apply no_yields.
  assert (K : Forall (known s3) [removelast sa; removelast sb; removelast (d :: sc)]).
  { repeat constructor; (eapply known_sub; [intros x; apply in_removelast |]); [| | exact Hoc].
    - eapply known_grows; [exact G3 |]. eapply known_grows; [exact G2 | exact Hoa].
    - eapply known_grows; [exact G3 | exact Hob]. }
  eapply builds_rbind; [now apply broadcast_shapes_yields |]. intros s4 r _ G4 Hr. apply some_yields, known_app; [exact Hr |].
  eapply known_grows; [exact G4 |]. now apply last_known.
Qed.

Lemma movement_yields s src a b (k : Shape -> list (SInt * SInt) -> Build S (Result (option Shape))) :
  table s src -> table s a -> table s b ->
  (forall s1 sh l, known s1 sh -> known s1 (map fst l) -> known s1 (map snd l) -> yields s1 (k sh l) (on_ok known_some)) ->
  yields s (let*! src_shape := shaped src in
      let* ranges := extract_ranges_from_uops a b in
      match ranges with
      | None => ret (inr VoidTypeInOp)
      | Some ranges => if (List.length src_shape =? List.length ranges)%nat then k src_shape ranges else no_shape
      end) (on_ok known_some).
Proof.
  intros Hs Ha Hb Hk. eapply builds_rbind; [now apply shaped_yields |]. intros s1 sh _ G1 Hsh.
  eapply yields_bind; [apply ranges_yields; now apply G1 |]. intros s2 [l |] _ G2 Hl; [| now apply yields_ret].
  destruct (_ =? _)%nat; [| apply no_yields]. destruct Hl. apply Hk; try assumption. eapply known_grows; eassumption.
Qed.

(** Inference answers with dimensions in the table. *)
Lemma infer_yields s u : table s u -> yields s (infer_shape_from_op u) (on_ok known_some).
Proof.
  intros Hu. apply yields_settled. intros Hs. assert (Hc : forall v, In v (children u) -> table s v).
  { intros v Hv. exact (table_source s u v Hs Hu Hv). }
  unfold infer_shape_from_op. unfold children in Hc.
  destruct (uop_op u); cbn [Op.children In] in Hc; try apply no_yields; try (apply some_yields, known_nil);
    try (apply some_yields, known_const); try (apply shape_yields, Hc; tauto);
    try (apply payload_yields, Hc; tauto); try (unfold scalar_unless_void; destruct (bool_decide _); [apply no_yields | apply some_yields, known_nil]).
  - eapply builds_rbind; [apply shape_yields, Hc; now left |]. intros s1 o1 _ G1 H1.
    eapply builds_rbind; [apply shape_yields, G1, Hc; right; now left |]. intros s2 o2 _ G2 H2.
    assert (H1' : known s2 (from_option id [] o1)) by (eapply known_grows; eassumption).
    destruct o1 as [l |], o2 as [r |]; [apply broadcast_yields; now repeat constructor | now apply some_yields .. | apply no_yields].
  - eapply builds_rbind; [apply present_yields; repeat constructor; apply Hc; tauto |]. intros s1 [| sh l] _ G1 H1; [apply no_yields |].
    now apply broadcast_yields.
  - apply bitcast_shape_yields, Hc. now left.
  - apply stage_shape_yields; [apply Hc; now left | intros v Hv; apply Hc; now right].
  - apply index_shape_yields; [apply Hc; now left | intros v Hv; apply Hc; now right].
  - destruct buffers as [| b l]; [apply no_yields | apply shape_yields, Hc; now left].
  - eapply builds_rbind; [apply shaped_yields, Hc; now left |]. intros s1 sh _ G1 Hsh.
    destruct (collect _ axes) as [r |] eqn:E; [| apply yields_panic]. apply some_yields, (collect_known s1 _ _ _ (fun i d Hd => proj2 (known_in s1 sh) Hsh d (nth_error_In _ _ Hd)) E).
  - apply movement_yields; [apply Hc; tauto .. |]. intros s1 sh l H1 H2 H3. eapply yields_bind; [now apply pad_dims_yields |].
    intros s2 r _ _ Hr. now apply some_yields.
  - apply (movement_yields s src offsets sizes (fun _ l => some_shape (map snd l))); [apply Hc; tauto .. |].
    intros s1 sh l H1 H2 H3. now apply some_yields.
  - eapply builds_rbind; [apply shaped_yields, Hc; now left |]. intros s1 sh _ G1 Hsh. apply some_yields.
    apply known_incl with (sh := sh); [| exact Hsh]. intros d Hd. apply list_elem_of_In, elem_of_lookup_imap in Hd as (i & x & -> & Hx).
    destruct (bool_decide _); [now right | left; now apply list_elem_of_lookup_2, list_elem_of_In in Hx].
  - eapply builds_rbind; [apply shaped_yields, Hc; now left |]. intros s1 sh _ G1 Hsh. destruct (_ >? _); [now apply yields_ret |].
    apply some_yields, (known_sub s1 sh); [| exact Hsh]. intros d Hd. rewrite <- (firstn_skipn (Z.to_nat num_axes) sh). apply in_app_iff. now right.
  - apply stack_shape_yields, List.Forall_forall, Hc.
  - eapply builds_rbind; [apply shaped_yields, Hc; now left |]. intros s1 [| d sh] _ G1 Hsh; [apply yields_panic |].
    apply some_yields, known_cons. split; [apply known_const | exact (known_tail s1 d sh Hsh)].
  - apply wmma_shape_yields; apply Hc; tauto.
  - apply function_tuple_yields; [exact Hs | apply Hc; now left].
Qed.
End Laws.

(** ** Levels *)
Section Levels.
Context {M : LibM} {S : Type} `{I : !Interner S} `{R : !Rebuilder S}.

Definition undefined : Shapes S := {|
  shape := fun _ => panic;
  smax := fun _ _ => panic;
  shape_spec := fun s u _ => yields_panic s _;
  smax_spec := fun s a b _ => yields_panic s _
|}.

Lemma next_shape_spec (Sh : Shapes S) s u : table s u ->
  yields s (infer_shape_from_op u) (on_ok (fun s' o => forall dim, dim ∈ from_option dims [] o -> table s' dim)).
Proof.
  intros H. eapply builds_mono; [now apply infer_yields |]. intros s' [sh |] _ _ Hk; [exact Hk |].
  intros dim Hd%not_elem_of_nil. destruct Hd.
Qed.

Lemma next_smax_spec (Sh : Shapes S) s a b : (forall dim, dim ∈ dims [a; b] -> table s dim) ->
  yields s (Sint.smax a b) (fun s' d => forall dim, dim ∈ dims [d] -> table s' dim).
Proof. intros H. change (known s [a; b]) in H. apply known_cons in H as [Ha Hb]. now apply smax_yields. Qed.

Definition next (Sh : Shapes S) : Shapes S := {|
  shape := infer_shape_from_op;
  smax := Sint.smax;
  shape_spec := next_shape_spec Sh;
  smax_spec := next_smax_spec Sh
|}.

Fixpoint levels (n : nat) : Shapes S := match n with O => undefined | Datatypes.S n => next (levels n) end.
End Levels.

(** ** An answer is final *)

(** [m'] returns whatever [m] returns. *)
Definition extends_to {S A} (m m' : Build S A) : Prop := forall s r, m s = Some r -> m' s = Some r.

Section Extends.
Context {S : Type}.

Lemma extends_refl {A} (m : Build S A) : extends_to m m.
Proof. intros s r E. exact E. Qed.

Lemma extends_panic {A} (m : Build S A) : extends_to panic m.
Proof. intros s r E. discriminate E. Qed.

Lemma extends_bind {A B} (m m' : Build S A) (k k' : A -> Build S B) :
  extends_to m m' -> (forall a, extends_to (k a) (k' a)) -> extends_to (bind m k) (bind m' k').
Proof.
  intros Hm Hk s r E. unfold bind in *. destruct (m s) as [[s1 a] |] eqn:Em; [| discriminate E].
  rewrite (Hm s _ Em). now apply Hk.
Qed.
End Extends.

Create HintDb levels.
#[export] Hint Resolve extends_refl extends_panic : levels.

(** Computations of one form: bind by bind, case by case. *)
Ltac extend :=
  repeat first
    [ progress (unfold rbind, obind, expect)
    | progress cbv zeta
    | solve [eauto with levels]
    | apply extends_bind; [| intros ?]
    | match goal with
      | |- extends_to (match ?o with _ => _ end) _ => destruct o
      | |- extends_to (if ?b then _ else _) _ => destruct b
      | |- extends_to (let '(_, _) := ?p in _) _ => destruct p
      end ].

Section Monotone.
Context {M : LibM} {S : Type} `{I : !Interner S} `{R : !Rebuilder S}.

(** [Sh'] answers whatever [Sh] answers. *)
Record below (Sh Sh' : Shapes S) : Prop := {
  below_shape u : extends_to (@shape S I Sh u) (@shape S I Sh' u);
  below_smax a b : extends_to (@smax S I Sh a b) (@smax S I Sh' a b)
}.
#[local] Hint Resolve below_shape below_smax : levels.

#[local] Set Default Proof Using "All".
Section Pair.
Context (Sh Sh' : Shapes S) (Hb : below Sh Sh').
#[local] Hint Resolve Hb : levels.

Lemma broadcast_dims_below lhs rhs l : forall r, extends_to (broadcast_dims (Sh := Sh) lhs rhs l r) (broadcast_dims (Sh := Sh') lhs rhs l r).
Proof. induction l as [| a l IH]; intros [| b r]; cbn [broadcast_dims]; extend. Qed.
#[local] Hint Resolve broadcast_dims_below : levels.

Lemma broadcast_from_below shapes : forall r, extends_to (broadcast_from (Sh := Sh) r shapes) (broadcast_from (Sh := Sh') r shapes).
Proof. induction shapes as [| sh l IH]; intros r; cbn [broadcast_from]; unfold broadcast_shape; extend. Qed.

Lemma broadcast_shapes_below l : extends_to (broadcast_shapes (Sh := Sh) l) (broadcast_shapes (Sh := Sh') l).
Proof. unfold broadcast_shapes. destruct (align_shapes_left l); [extend | apply broadcast_from_below]. Qed.
#[local] Hint Resolve broadcast_shapes_below : levels.

Lemma validate_below a b op : extends_to (validate_binary_shapes (Sh := Sh) a b op) (validate_binary_shapes (Sh := Sh') a b op).
Proof. unfold validate_binary_shapes. extend. Qed.
#[local] Hint Resolve validate_below : levels.

Lemma binary_below op a b : extends_to (binary_arith_op (Sh := Sh) op a b) (binary_arith_op (Sh := Sh') op a b).
Proof. unfold binary_arith_op. extend. Qed.

Lemma div_below a b : extends_to (try_div (Sh := Sh) a b) (try_div (Sh := Sh') a b).
Proof. unfold try_div. extend. Qed.
#[local] Hint Resolve binary_below div_below : levels.

Lemma sint_binop_below f m m' a b : (forall p q, extends_to (m p q) (m' p q)) ->
  extends_to (Sint.sint_binop f m a b) (Sint.sint_binop f m' a b).
Proof. intros H. unfold Sint.sint_binop. destruct a as [[| v | v] | u |], b as [[| w | w] | u' |]; extend. Qed.

Lemma add_below a b : extends_to (Sint.add (Sh := Sh) a b) (Sint.add (Sh := Sh') a b).
Proof. apply sint_binop_below. intros p q. apply binary_below. Qed.
Lemma mul_below a b : extends_to (Sint.mul (Sh := Sh) a b) (Sint.mul (Sh := Sh') a b).
Proof. apply sint_binop_below. intros p q. apply binary_below. Qed.
Lemma sint_div_below a b : extends_to (Sint.div (Sh := Sh) a b) (Sint.div (Sh := Sh') a b).
Proof. apply sint_binop_below. intros p q. apply div_below. Qed.
#[local] Hint Resolve add_below mul_below sint_div_below : levels.

Lemma smax_below a b : extends_to (Sint.smax (Sh := Sh) a b) (Sint.smax (Sh := Sh') a b).
Proof. unfold Sint.smax. extend. all: apply (binary_below BinaryOp.Max). Qed.

Lemma extract_below u : extends_to (extract_shape_from_uop (Sh := Sh) u) (extract_shape_from_uop (Sh := Sh') u).
Proof.
  induction u as [u IH] using UOp_children_ind. destruct u as [i op d]. rewrite List.Forall_forall in IH. unfold children in IH.
  destruct op; cbn [extract_shape_from_uop uop_op Op.children] in *; extend; apply IH; now left.
Qed.
#[local] Hint Resolve extract_below : levels.

Lemma shaped_below u : extends_to (shaped (Sh := Sh) u) (shaped (Sh := Sh') u).
Proof. unfold shaped. extend. Qed.
Lemma same_shapes_below sh l : extends_to (same_shapes (Sh := Sh) sh l) (same_shapes (Sh := Sh') sh l).
Proof. induction l as [| u l IH]; cbn [same_shapes]; extend. Qed.
Lemma present_below l : extends_to (present_shapes (Sh := Sh) l) (present_shapes (Sh := Sh') l).
Proof. induction l as [| u l IH]; cbn [present_shapes]; extend. Qed.
Lemma index_below l : extends_to (index_shapes (Sh := Sh) l) (index_shapes (Sh := Sh') l).
Proof. induction l as [| u l IH]; cbn [index_shapes]; extend. Qed.
Lemma pad_below sh : forall l, extends_to (pad_dims (Sh := Sh) sh l) (pad_dims (Sh := Sh') sh l).
Proof. induction sh as [| d sh IH]; intros [| [b e] l]; cbn [pad_dims]; extend. Qed.
Lemma ranges_below a b : extends_to (extract_ranges_from_uops (Sh := Sh) a b) (extract_ranges_from_uops (Sh := Sh') a b).
Proof. unfold extract_ranges_from_uops. extend. Qed.
#[local] Hint Resolve shaped_below same_shapes_below present_below index_below pad_below ranges_below : levels.

Lemma infer_below u : extends_to (infer_shape_from_op (Sh := Sh) u) (infer_shape_from_op (Sh := Sh') u).
Proof. unfold infer_shape_from_op, some_shape, no_shape, scalar_unless_void. destruct (uop_op u); extend. Qed.

Lemma next_below : below (next Sh) (next Sh').
Proof. split; [apply infer_below | apply smax_below]. Qed.
End Pair.

Lemma levels_below n : forall m, (n <= m)%nat -> below (levels n) (levels m).
Proof.
  induction n as [| n IH]; intros m L; [split; intros; apply extends_panic |].
  destruct m as [| m]; [lia |]. apply next_below, IH. lia.
Qed.
End Monotone.

