(* ===== verification/ShapeTable.v ===== *)
(** * Shape inference over the intern table

    The table of [HashCons] rebuilds nodes ([with_sources] of [Rebuild], while
    identities have not run out), so every level of shape inference runs on
    it. *)

From stdpp Require Import gmap relations.
From S2P Require Import Prelude F64 DType Cast ConstVal Ops Eval Payload UOp RangeEval Traverse HashCons Rebuild Builder.
From S2P Require Import Shape Constructors SymInt InferShape ShapeLevels.

Section Table.
Context (xxh64 : Op Z -> DType -> option Z -> Z) (is_image_shape : UOp -> bool) (current : option Z).

(** What a call that builds at most [k] nodes keeps. *)
Record kept (k : Z) (st st' : Uops.t) : Prop := {
  kept_inv : Inv st';
  kept_alive v : alive st v -> alive st' v;
  kept_next : Uops.next_uop_id st' <= Uops.next_uop_id st + 2 * k
}.

Lemma kept_refl st : Inv st -> kept 0 st st.
Proof. intros Hi. split; [exact Hi | auto | lia]. Qed.

Lemma kept_trans j k st st1 st2 : kept j st st1 -> kept k st1 st2 -> kept (j + k) st st2.
Proof. intros [H1 H2 H3] [H4 H5 H6]. split; [exact H4 | auto | lia]. Qed.

Lemma new_kept st op dtype tag origin st' v :
  Inv st -> Uops.next_uop_id st + 2 < 2 ^ 64 -> (forall v, In v (refs op) -> alive st v) ->
  new_with_origin xxh64 op dtype tag origin st = Some (st', v) -> kept 1 st st' /\ alive st' v.
Proof.
  intros Hi L Hr E.
  destruct (new_with_origin_spec xxh64 st op dtype tag origin st' v Hi) as (_ & Hv & _ & Ha & (j & Lj & Hj) & _); [lia | exact Hr | exact E |].
  destruct (nsteps_Inv xxh64 j st st' Hj Hi) as [Hi' Ln]; [lia |].
  split; [split; [exact Hi' | exact Ha | lia] | exact (inv_handles st' Hi' v Hv)].
Qed.

Lemma add_kept st v : Inv st -> alive st v -> kept 0 st (add_handle v st).
Proof. intros Hi Hv. split; [now apply Inv_add_handle | auto | cbn; lia]. Qed.

Lemma cast_kept st u d st' v :
  Inv st -> Uops.next_uop_id st + 2 < 2 ^ 64 -> alive st u -> Rebuild.cast xxh64 current u d st = Some (st', v) ->
  kept 1 st st' /\ alive st' v.
Proof.
  intros Hi L Hu. unfold Rebuild.cast.
  destruct (if (DType.vcount d =? 1) && (DType.vcount (uop_dtype u) >? 1) then DType.vec d (DType.vcount (uop_dtype u)) else Some d)
    as [d' |]; [| discriminate].
  destruct (bool_decide _).
  - intros [= <- <-]. split; [| exact Hu]. destruct (add_kept st u Hi Hu) as [H1 H2 H3]. split; [exact H1 | exact H2 | lia].
  - apply new_kept; [exact Hi | exact L |]. intros w [<- | []]. exact Hu.
Qed.

Lemma cast_sources_kept d l : forall st st' vs,
  Inv st -> Uops.next_uop_id st + 2 * Z.of_nat (List.length l) < 2 ^ 64 -> (forall u, In u l -> alive st u) ->
  cast_sources xxh64 current d l st = Some (st', vs) ->
  kept (Z.of_nat (List.length l)) st st' /\ forall v, In v vs -> alive st' v.
Proof.
  induction l as [| u l IH]; intros st st' vs Hi L Ha H; cbn [cast_sources List.length] in *.
  { injection H as <- <-. split; [now apply kept_refl | intros v []]. }
  assert (First : forall st1 u1, (if is_invalid_marker u then Some (st, u) else Rebuild.cast xxh64 current u d st) = Some (st1, u1) ->
    kept 1 st st1 /\ alive st1 u1).
  { intros st1 u1. destruct (is_invalid_marker u).
    - intros [= <- <-]. split; [split; [exact Hi | auto | lia] | apply Ha; now left].
    - apply cast_kept; [exact Hi | lia | apply Ha; now left]. }
  destruct (if is_invalid_marker u then Some (st, u) else Rebuild.cast xxh64 current u d st) as [[st1 u1] |]; [| discriminate H].
  destruct (First st1 u1 eq_refl) as [K1 A1]. destruct (cast_sources xxh64 current d l st1) as [[st2 l2] |] eqn:E; [| discriminate H].
  injection H as <- <-. destruct (IH st1 st2 l2) as [K2 A2].
  - apply K1.
  - pose proof (kept_next _ _ _ K1). lia.
  - intros w Hw. apply (kept_alive _ _ _ K1), Ha. now right.
  - exact E.
  - split; [| intros v [<- | Hv]; [now apply (kept_alive _ _ _ K2) | now apply A2]].
    replace (Z.of_nat (Datatypes.S (List.length l))) with (1 + Z.of_nat (List.length l)) by lia. eapply kept_trans; eassumption.
Qed.

#[local] Instance table_interner : Interner Uops.t := uops_interner xxh64 current.

Definition rebuild_bounded (u : UOp) (srcs : list UOp) : Build Uops.t UOp := fun st =>
  match find_node st (uid u) with
  | Some n =>
      if Uops.next_uop_id st + 2 * (Z.of_nat (List.length srcs) + 1) <? 2 ^ 64
      then Rebuild.with_sources xxh64 is_image_shape current n srcs st
      else None
  | None => None
  end.

Lemma rebuild_bounded_spec (st : Uops.t) u srcs :
  alive st u -> (forall v, In v srcs -> alive st v) ->
  yields st (rebuild_bounded u srcs) alive.
Proof.
  intros Hu Hs Hi st' v H. cbn in Hi. unfold rebuild_bounded in H. destruct Hu as (m & Hm & <-).
  change (uid (Node.node m)) with (Node.id m) in H. rewrite (find_node_live st m (inv_ids st Hi) Hm) in H.
  destruct (Z.ltb_spec (Uops.next_uop_id st + 2 * (Z.of_nat (List.length srcs) + 1)) (2 ^ 64)) as [L |]; [| discriminate H].
  assert (Done : forall k, kept k st st' /\ alive st' v -> settled st' /\ grows st st' /\ alive st' v).
  { intros k [[H1 H2 H3] Hv]. split; [exact H1 |]. now split. }
  assert (Clone : Some (clone (Node.node m) st) = Some (st', v) -> settled st' /\ grows st st' /\ alive st' v).
  { intros [= <- <-]. assert (Am : alive st (Node.node m)) by now exists m. apply (Done 0). split; [now apply add_kept | exact Am]. }
  destruct (is_nullary (uop_op (Node.node m))) eqn:N.
  { unfold Rebuild.with_sources in H. destruct (uop_op (Node.node m)); try discriminate N; destruct srcs; try discriminate H; now apply Clone. }
  destruct (is_stack (uop_op (Node.node m))) eqn:K.
  { unfold Rebuild.with_sources in H. destruct (uop_op (Node.node m)); try discriminate K. unfold Rebuild.stack in H.
    match type of H with (match ?o with Some _ => _ | None => _ end) = _ => destruct o as [d |] end; [| discriminate H].
    destruct (cast_sources xxh64 current d srcs st) as [[st1 vs] |] eqn:E; [| discriminate H].
    destruct (cast_sources_kept d srcs st st1 vs Hi) as [K1 A1]; [lia | exact Hs | exact E |].
    pose proof (kept_next _ _ _ K1). destruct (new_kept st1 (Op.Stack UOp vs) d None current st' v (kept_inv _ _ _ K1)) as [K2 A2]; [lia | | exact H |].
    - unfold refs. cbn. rewrite app_nil_r. exact A1.
    - apply (Done (Z.of_nat (List.length srcs) + 1)). split; [eapply kept_trans; eassumption | exact A2]. }
  rewrite with_sources_op in H by assumption. cbv zeta in H.
  destruct (rebuild_op (uop_op (Node.node m)) srcs) as [op |] eqn:Ro; [| discriminate H].
  apply (Done 1). eapply new_kept; [exact Hi | lia | | exact H].
  intros w [Hw | Hw]%in_app_or; [apply Hs; now rewrite <- (rebuild_op_children _ _ _ Ro) |].
  rewrite (rebuild_op_launch _ _ _ Ro) in Hw. apply (inv_refs st Hi m w Hm). apply in_or_app. now right.
Qed.

Definition uops_rebuilder : Rebuilder Uops.t := {|
  with_sources := rebuild_bounded;
  with_sources_spec := rebuild_bounded_spec
|}.
End Table.
