(* ===== verification/ShapeSpec.v ===== *)
(** * What shape inference answers

    Broadcasting of concrete shapes is NumPy's; a shape written as a node is
    read back; and the shape of a concrete graph is a function of the graph,
    found within one level per node on its longest path. *)

From stdpp Require Import gmap.
From S2P Require Import Prelude F64 DType Cast ConstVal Ops IntView Eval Payload UOp Semantics RangeEval Traverse HashCons Rewrite Builder.
From S2P Require Import Rebuild Shape Constructors ConstructorSpec HelperSpec Properties SymInt InferShape ShapeLevels.

(** ** Broadcasting *)
Section Broadcasting.
Context {S : Type} `{I : !Interner S} `{Sh : !Shapes S}.

Definition concrete_shape (l : list Z) : Shape := map SInt.Const l.

(** A shape of rank at most [n], with ones for the dimensions it lacks. *)
Definition padded (n : nat) (l : list Z) : list Z := repeat 1 (n - List.length l) ++ l.
Definition rank (shapes : list (list Z)) : nat := list_max (map (@List.length Z) shapes).

(** One column. *)
Definition bdim (a b : Z) : option Z :=
  if a =? b then Some a else if a =? 1 then Some b else if b =? 1 then Some a else None.

Fixpoint bdims (l r : list Z) : option (list Z) :=
  match l, r with
  | a :: l, b :: r => let? d := bdim a b in let? ds := bdims l r in Some (d :: ds)
  | _, _ => Some []
  end.

Lemma broadcast_dims_concrete lhs rhs l : forall r s,
  broadcast_dims lhs rhs (concrete_shape l) (concrete_shape r) s
  = Some (s, match bdims l r with Some d => inl (concrete_shape d) | None => inr (BroadcastShapeMismatch lhs rhs) end).
Proof using.
  induction l as [| a l IH]; intros [| b r] s; try reflexivity. cbn [concrete_shape map broadcast_dims SInt.eqb SInt.as_const SInt.is_const bdims andb].
  fold (concrete_shape l) (concrete_shape r). unfold bdim.
  assert (Push : forall d, (let*! rest := broadcast_dims lhs rhs (concrete_shape l) (concrete_shape r) in ret (inl (SInt.Const d :: rest))) s
    = Some (s, match (let? ds := bdims l r in Some (d :: ds)) with Some d => inl (concrete_shape d) | None => inr (BroadcastShapeMismatch lhs rhs) end)).
  { intros d. unfold rbind, bind. rewrite IH. now destruct (bdims l r). }
  destruct (Z.eqb_spec a b) as [E | E]; [apply Push |].
  assert (One : forall z, (match z with 1 => true | _ => false end) = (z =? 1)) by (intros [| [p | p |] | p]; reflexivity).
  rewrite !One. destruct (a =? 1); [apply Push |]. destruct (b =? 1); [apply Push | reflexivity].
Qed.

(** [d] is the column's result. *)
Definition column (xs : list Z) (d : Z) : Prop := (forall x, In x xs -> x = 1 \/ x = d) /\ (d = 1 \/ In d xs).

Lemma column_one x : column [x] x.
Proof using. split; [intros y [<- | []]; now right | right; now left]. Qed.

Lemma column_unique xs d d' : column xs d -> column xs d' -> d = d'.
Proof using.
  intros [H1 [-> | H2]] [H3 [-> | H4]]; [reflexivity | | |].
  - destruct (H1 d' H4); congruence.
  - destruct (H3 d H2); congruence.
  - destruct (H1 d' H4) as [-> |]; [destruct (H3 d H2); congruence | congruence].
Qed.

(** Adding a dimension to a column. *)
Lemma column_snoc xs a x d : column xs a -> bdim a x = Some d <-> column (xs ++ [x]) d.
Proof using.
  intros [Ha1 Ha2]. assert (Go : forall d, bdim a x = Some d -> column (xs ++ [x]) d).
  { intros e. unfold bdim. destruct (Z.eqb_spec a x) as [-> |]; [intros [= <-] |
      destruct (Z.eqb_spec a 1) as [-> |]; [intros [= <-] | destruct (Z.eqb_spec x 1) as [-> |]; [intros [= <-] | discriminate]]].
    - split; [intros y [Hy | [<- | []]]%in_app_iff; auto | right; apply in_app_iff; right; now left].
    - split; [intros y [Hy | [<- | []]]%in_app_iff; [left; destruct (Ha1 y Hy); assumption | now right] | right; apply in_app_iff; right; now left].
    - split; [intros y [Hy | [<- | []]]%in_app_iff; [now apply Ha1 | now left] |]. destruct Ha2 as [-> | H]; [now left | right; apply in_app_iff; now left]. }
  split; [apply Go |]. intros Hd. destruct (bdim a x) as [e |] eqn:E; [f_equal; exact (column_unique _ _ _ (Go e eq_refl) Hd) |].
  exfalso. unfold bdim in E. destruct (Z.eqb_spec a x); [discriminate |]. destruct (Z.eqb_spec a 1) as [| N1]; [discriminate |].
  destruct (Z.eqb_spec x 1) as [| N2]; [discriminate |]. destruct Hd as [Hd1 _].
  destruct (Hd1 x) as [| ->]; [apply in_app_iff; right; now left | contradiction |].
  destruct Ha2 as [| Ha2]; [contradiction |]. destruct (Hd1 a) as [| ->]; [apply in_app_iff; now left | contradiction..].
Qed.

(** ** Shapes, column by column *)

(** The dimension of the padded shape [l] in column [i]. *)
Definition at_column (n i : nat) (l : list Z) : Z := nth i (padded n l) 1.

(** NumPy's rule: as many dimensions as the longest shape has; in a column
    every shape has 1 or the result, which some shape has unless it is 1. *)
Definition numpy (shapes : list (list Z)) (d : list Z) : Prop :=
  List.length d = rank shapes /\
  forall i : nat, (i < rank shapes)%nat -> column (map (at_column (rank shapes) i) shapes) (nth i d 1).

Lemma bdims_some l : forall r d, List.length l = List.length r -> bdims l r = Some d ->
  List.length d = List.length l /\ forall i : nat, (i < List.length l)%nat -> bdim (nth i l 1) (nth i r 1) = Some (nth i d 1).
Proof using.
  induction l as [| a l IH]; intros [| b r] d E H; try discriminate E; cbn [bdims] in H.
  - injection H as <-. split; [reflexivity | cbn; lia].
  - destruct (bdim a b) as [x |] eqn:Ex; [| discriminate H]. destruct (bdims l r) as [ds |] eqn:Eds; [| discriminate H].
    injection H as <-. injection E as E. destruct (IH r ds E Eds) as [L Hi]. cbn [List.length]. split; [now rewrite L |].
    intros [| i] Li; [exact Ex | cbn [nth]; apply Hi; lia].
Qed.

Lemma bdims_none l : forall r, List.length l = List.length r -> bdims l r = None ->
  exists i : nat, (i < List.length l)%nat /\ bdim (nth i l 1) (nth i r 1) = None.
Proof using.
  induction l as [| a l IH]; intros [| b r] E H; try discriminate; cbn [bdims] in H. injection E as E.
  destruct (bdim a b) as [x |] eqn:Ex; [| exists 0%nat; cbn; split; [lia | exact Ex]].
  destruct (bdims l r) eqn:Er; [discriminate H |]. destruct (IH r E Er) as (i & Li & Hi). exists (Datatypes.S i). cbn. split; [lia | exact Hi].
Qed.

(** A column that has a result has one for each of its beginnings. *)
Lemma column_prefix xs x ys a d : column xs a -> column (xs ++ x :: ys) d -> bdim a x <> None.
Proof using.
  intros [_ Ha] [Hd _]. assert (Hx : x = 1 \/ x = d) by (apply Hd, in_app_iff; right; now left).
  assert (Hx' : a = 1 \/ a = d) by (destruct Ha as [-> | Ha]; [now left | apply Hd, in_app_iff; now left]).
  unfold bdim. destruct (Z.eqb_spec a x); [discriminate |]. destruct (Z.eqb_spec a 1); [discriminate |].
  destruct (Z.eqb_spec x 1); [discriminate |]. exfalso. intuition congruence.
Qed.

(** [d] is the result of the aligned shapes [ls]. *)
Definition aligned (n : nat) (ls : list (list Z)) (d : list Z) : Prop :=
  List.length d = n /\ forall i : nat, (i < n)%nat -> column (map (fun l => nth i l 1) ls) (nth i d 1).

Lemma aligned_unique n ls d d' : aligned n ls d -> aligned n ls d' -> d = d'.
Proof using.
  intros [L H] [L' H']. apply nth_ext with (d := 1) (d' := 1); [congruence |]. intros i Hi. rewrite L in Hi.
  exact (column_unique _ _ _ (H i Hi) (H' i Hi)).
Qed.

Lemma broadcast_from_aligned n s ls : forall done r,
  aligned n done r -> Forall (fun l => List.length l = n) ls ->
  (exists d, aligned n (done ++ ls) d /\ broadcast_from (concrete_shape r) (map concrete_shape ls) s = Some (s, inl (concrete_shape d))) \/
  (forall d, ~ aligned n (done ++ ls) d) /\
    exists lhs rhs, broadcast_from (concrete_shape r) (map concrete_shape ls) s = Some (s, inr (BroadcastShapeMismatch lhs rhs)).
Proof using.
  induction ls as [| l ls IH]; intros done r Hr Hl.
  { left. exists r. rewrite app_nil_r. now split. }
  apply Forall_cons in Hl as [Ll Hl]. destruct Hr as [Lr Hr]. cbn [map broadcast_from].
  assert (E : broadcast_shape (concrete_shape r) (concrete_shape l) s = Some (s, match bdims r l with
      | Some d => inl (concrete_shape d) | None => inr (BroadcastShapeMismatch (concrete_shape r) (concrete_shape l)) end)).
  { unfold broadcast_shape, concrete_shape. rewrite !length_map, Lr, Ll, Nat.eqb_refl. apply broadcast_dims_concrete. }
  unfold rbind, bind. rewrite E. destruct (bdims r l) as [d |] eqn:B.
  - destruct (bdims_some r l d) as [Ld Hd]; [congruence | exact B |].
    destruct (IH (done ++ [l]) d) as [(e & He & Ee) | (Hn & lhs & rhs & Ee)]; [| exact Hl | |].
    + split; [congruence |]. intros i Hi. rewrite map_app. apply (column_snoc _ (nth i r 1)); [now apply Hr | apply Hd; lia].
    + left. exists e. rewrite <- app_assoc in He. now split.
    + right. rewrite <- app_assoc in Hn. split; [exact Hn | now exists lhs, rhs].
  - right. split; [| eexists _, _; reflexivity]. intros d [_ Hd]. destruct (bdims_none r l) as (i & Li & Hi); [congruence | exact B |].
    rewrite Lr in Li. specialize (Hd i Li). rewrite map_app in Hd. exact (column_prefix _ _ _ _ _ (Hr i Li) Hd Hi).
Qed.

Lemma padded_length n l : (List.length l <= n)%nat -> List.length (padded n l) = n.
Proof using. intros L. unfold padded. rewrite length_app, repeat_length. lia. Qed.

Lemma align_concrete shapes :
  align_shapes_left (map concrete_shape shapes) = map concrete_shape (map (padded (rank shapes)) shapes).
Proof using.
  unfold align_shapes_left, rank, concrete_shape. rewrite !map_map.
  replace (map (fun x => List.length (map SInt.Const x)) shapes) with (map (@List.length Z) shapes)
    by (apply map_ext; intros; now rewrite length_map).
  apply map_ext. intros l. unfold padded. now rewrite map_app, map_repeat, length_map.
Qed.

Lemma rank_le shapes l : In l shapes -> (List.length l <= rank shapes)%nat.
Proof using.
  intros H. unfold rank. pose proof (proj1 (list_max_le (map (@List.length Z) shapes) _) (le_n _)) as F.
  rewrite List.Forall_forall in F. now apply F, in_map.
Qed.

Lemma numpy_aligned shapes d : numpy shapes d <-> aligned (rank shapes) (map (padded (rank shapes)) shapes) d.
Proof using. unfold numpy, aligned. setoid_rewrite map_map. reflexivity. Qed.

(** C14: Broadcasting is NumPy's.  Concrete shapes of any ranks broadcast to
    the one shape that NumPy's rule gives them, and to an error exactly when
    there is none; nothing is built. *)
Theorem broadcast_is_numpy shapes s :
  (exists d, (forall d', numpy shapes d' <-> d' = d) /\
    broadcast_shapes (map concrete_shape shapes) s = Some (s, inl (concrete_shape d))) \/
  (forall d, ~ numpy shapes d) /\
    exists lhs rhs, broadcast_shapes (map concrete_shape shapes) s = Some (s, inr (BroadcastShapeMismatch lhs rhs)).
Proof using.
  setoid_rewrite numpy_aligned. unfold broadcast_shapes. rewrite align_concrete.
  destruct shapes as [| l shapes].
  { left. exists []. split; [| reflexivity]. intros d. split; [now intros [->%length_zero_iff_nil _] | intros ->].
    split; [reflexivity |]. intros i Hi. cbn in Hi. lia. }
  set (n := rank (l :: shapes)). cbn [map].
  assert (L : forall x, In x (l :: shapes) -> List.length (padded n x) = n) by (intros x Hx; now apply padded_length, rank_le).
  destruct (broadcast_from_aligned n s (map (padded n) shapes) [padded n l] (padded n l)) as [(d & Hd & E) | H].
  - split; [apply L; now left |]. intros i _. apply column_one.
  - apply Forall_map, List.Forall_forall. intros x Hx. apply L. now right.
  - left. exists d. split; [| exact E]. intros d'. split; [intros Hd'; exact (aligned_unique _ _ _ _ Hd' Hd) | intros ->; exact Hd].
  - right. exact H.
Qed.
End Broadcasting.

(** ** Shapes as nodes *)
Section RoundTrip.
#[local] Set Default Proof Using "All".
Context {S : Type} `{I : !Interner S} `{Sh : !Shapes S}.
Context (t : ScalarDType) (Ht : is_Some (int_format t)).
Implicit Types s : S.

(** A size that is a number of both [t] and [i64], or a node of dtype [t] that is
    not a constant under its casts. *)
Definition lane s (d : SInt) : Prop :=
  match d with
  | SInt.Const v => 0 <= v < 2 ^ 63 /\ fits t v
  | SInt.Symbolic u => table s u /\ uop_dtype u = DType.Scalar t /\ SInt.from_uop u = SInt.Symbolic u
  | SInt.Infer => False
  end.

Definition lane_node s (d : SInt) (u : UOp) : Prop :=
  table s u /\ uop_dtype u = DType.Scalar t /\ SInt.from_uop u = d.

Lemma lane_grows s s' d : grows s s' -> lane s d -> lane s' d.
Proof. intros G. destruct d; cbn; [tauto | intros (H & H'); split; [now apply G | exact H'] | tauto]. Qed.

Lemma const_node v u : 0 <= v -> uop_op u = Op.Const UOp (of_Z t v) -> SInt.from_uop u = SInt.Const v /\ const_dim (of_Z t v) = Some (SInt.Const v).
Proof.
  intros Hv E. unfold SInt.from_uop, SInt.simplify. destruct u as [i op d]. cbn in E. subst op. cbn [SInt.uncast uop_op].
  unfold of_Z, const_dim. destruct Ht as [[sg w] F]. rewrite F. destruct sg; [| now split].
  destruct (Z.geb_spec v 0); [now split | lia].
Qed.

Lemma const_to_uop s v : 0 <= v < 2 ^ 63 -> fits t v ->
  yields s (to_uop (SInt.Const v) (DType.Scalar t))
    (fun s' u => lane_node s' (SInt.Const v) u /\ uop_op u = Op.Const UOp (of_Z t v)).
Proof.
  intros Hv Hf. cbn [to_uop]. assert (In64 : in_s 64 v) by (unfold in_s; lia). rewrite (wrap_s_small 64) by (lia || exact In64).
  eapply yields_mono; [exact (const_spec t Ht s v In64) |]. intros s' u _ _ [Hl Ho]. rewrite (fits_wrap t Ht) in Hl, Ho by exact Hf.
  split; [| exact Ho]. destruct Hl as [(Tu & _ & Du) _]. split; [exact Tu |]. split; [exact Du |].
  apply const_node; [lia | exact Ho].
Qed.

Lemma lane_to_uop s d : lane s d -> yields s (to_uop d (DType.Scalar t)) (fun s' u => lane_node s' d u).
Proof.
  destruct d as [v | u |]; cbn [lane]; [intros [Hv Hf] | intros (Tu & Du & Eu) | intros []].
  - eapply yields_mono; [now apply const_to_uop |]. intros s' u _ _ H. apply H.
  - cbn [to_uop]. rewrite bool_decide_true by exact Du. now apply yields_ret.
Qed.

(** Operands of one dtype are stacked as they are. *)
Lemma collect_ret {A} (f : A -> Build S A) l s : (forall a, In a l -> f a = ret a) -> collect_all f l s = Some (s, l).
Proof.
  induction l as [| a l IH]; intros H; [reflexivity |]. cbn [collect_all]. unfold bind at 1. rewrite (H a (or_introl eq_refl)).
  cbn [ret]. unfold bind. now rewrite IH by (intros; apply H; now right).
Qed.

Lemma stack_same s lanes : (forall u, In u lanes -> table s u /\ uop_dtype u = DType.Scalar t) ->
  yields s (stack lanes) (fun _ u => uop_op u = Op.Stack UOp lanes).
Proof.
  intros Hl. unfold stack.
  assert (E : exists d, match lanes with [] => Some (DType.Scalar Void)
              | _ => dtype_from_op (fun _ => false) (Op.Stack UOp lanes) end = Some d /\ forall u, In u lanes -> uop_dtype u = d).
  { destruct lanes as [| u lanes]; [now exists (DType.Scalar Void) |]. exists (DType.Scalar t).
    split; [| intros v Hv; now apply Hl]. cbn [dtype_from_op]. unfold promote. cbn [map].
    destruct (Hl u) as [_ Eu]; [now left |]. rewrite Eu.
    replace (forallb _ _) with true; [reflexivity |]. symmetry. apply forallb_forall. intros d [<- | (v & <- & Hv)%in_map_iff].
    - now apply bool_decide_true.
    - apply bool_decide_true. apply Hl. now right. }
  destruct E as (d & -> & Hd).
  eapply yields_bind with (P := fun s' l => s' = s /\ l = lanes).
  - intros Hs s' l H. rewrite collect_ret in H; [injection H as <- <-; split; [exact Hs | now split] |].
    intros u Hu. destruct (is_invalid_marker u); [reflexivity |]. unfold cast. rewrite (Hd u Hu).
    destruct (Hl u Hu) as [_ Eu]. rewrite (Hd u Hu) in Eu. subst d. cbn [DType.vcount]. cbn. now rewrite bool_decide_true.
  - intros s' l _ _ [-> ->]. eapply yields_mono; [apply yields_new |].
    + unfold refs. cbn [Op.children launch_values]. rewrite app_nil_r. intros v Hv. now apply Hl.
    + intros s' u _ _ (_ & _ & H). now apply H.
Qed.

Lemma lanes_back s sh lanes : Forall2 (lane_node s) sh lanes ->
  map SInt.from_uop lanes = sh /\ forall u, In u lanes -> table s u /\ uop_dtype u = DType.Scalar t.
Proof.
  induction 1 as [| d u sh lanes (Tu & Du & Eu) _ [IH1 IH2]]; [split; [reflexivity | intros u []] |].
  cbn [map]. rewrite Eu, IH1. split; [reflexivity |]. intros v [<- | Hv]; [now split | now apply IH2].
Qed.
End RoundTrip.

(** The shapes that are read back. *)
Definition readable {S : Type} `{I : !Interner S} (t : ScalarDType) (s : S) (sh : Shape) : Prop :=
  match sh with
  | [] => True
  | [dim] => match dim with SInt.Const v => 0 <= v < 2 ^ 63 | _ => False end
  | _ => lane_dtype sh = DType.Scalar t /\ Forall (lane t s) sh
  end.

(** C16: A shape written as a node is read back: no size, one number below
    2^63, or several numbers and nodes that are not constants, all of the
    dtype of the lanes. *)
Theorem shape_round_trip {S : Type} `{I : !Interner S} `{Sh : !Shapes S} t sh s :
  is_Some (int_format t) -> readable t s sh ->
  yields s (let* u := shape_to_uop sh in extract_shape_from_uop u) (fun _ o => o = Some sh).
Proof.
  intros Ht H. assert (Lanes : forall s u lanes, uop_op u = Op.Stack UOp lanes -> map SInt.from_uop lanes = sh ->
    yields s (extract_shape_from_uop u) (fun _ o => o = Some sh)).
  { intros s1 [i op d] lanes E <-. cbn in E. subst op. now apply yields_ret. }
  destruct sh as [| d [| d' sh]]; cbn [shape_to_uop].
  - eapply yields_bind; [apply (stack_same t Ht); intros u [] |]. intros s1 u _ _ Hu. exact (Lanes s1 u [] Hu eq_refl).
  - destruct d as [v | |]; try contradiction. cbn [readable] in H.
    eapply yields_bind; [apply (const_to_uop WeakInt); [now eexists | exact H | unfold fits; cbn; lia] |].
    intros s1 [i op d] _ _ [_ E]. cbn in E. subst op. apply yields_ret. cbn [const_dim]. destruct (Z.geb_spec v 0); [reflexivity | lia].
  - destruct H as [E H]. rewrite E.
    eapply yields_bind with (P := fun _ u => exists lanes, uop_op u = Op.Stack UOp lanes /\ map SInt.from_uop lanes = d :: d' :: sh).
    + eapply yields_bind; [apply (yields_collect _ (fun s' d u => lane_node t s' d u)) |].
      * intros s1 s2 a b G (T & D). split; [now apply G | exact D].
      * intros s1 a _ G Ha. apply (lane_to_uop t Ht). apply (lane_grows t Ht s s1 a G). rewrite List.Forall_forall in H. now apply H.
      * intros s1 lanes _ _ Hl. destruct (lanes_back t Ht s1 _ _ Hl) as [Hm Ht'].
        eapply yields_mono; [exact (stack_same t Ht s1 lanes Ht') |]. intros s2 u _ _ Hu. now exists lanes.
    + intros s1 u _ _ (lanes & Hu & Hm). exact (Lanes s1 u lanes Hu Hm).
Qed.
