(* ===== verification/ShapeStatic.v ===== *)
(** * Shapes of concrete graphs

    [static_shape] is the shape of a node whose sizes are all numbers, as a
    function of the graph alone.  Inference finds it on every such graph,
    builds no node, and needs one level per node on the longest path. *)

From stdpp Require Import gmap.
From S2P Require Import Prelude F64 DType Cast ConstVal Ops Eval Payload UOp RangeEval Traverse HashCons Rewrite Builder.
From S2P Require Import Shape Constructors ConstructorSpec Properties SymInt InferShape ShapeLevels ShapeSpec.

(** ** The reference *)

Definition const_size (c : ConstValue) : option Z := let? d := const_dim c in SInt.as_const d.

(** The shape a node spells. *)
Fixpoint spelled (u : UOp) : option (list Z) :=
  let 'mkUOp _ op _ := u in
  match op with
  | Op.Cast _ src _ | Op.BitCast _ src _ =>
      match uop_op src with Op.Stack _ _ | Op.VConst _ _ | Op.Const _ _ => spelled src | _ => None end
  | Op.Stack _ sources => collect (fun v => SInt.as_const (SInt.from_uop v)) sources
  | Op.Const _ c => collect const_size [c]
  | Op.VConst _ values => collect const_size values
  | _ => None
  end.

(** The first shape broadcast with the others, all padded to one rank. *)
Definition static_broadcast (shapes : list (list Z)) : option (list Z) :=
  match map (padded (rank shapes)) shapes with
  | [] => Some []
  | first :: rest => fold_left (fun acc l => let? a := acc in bdims a l) rest (Some first)
  end.

Fixpoint padded_sizes (sh begins ends : list Z) : option (list Z) :=
  match sh, begins, ends with
  | d :: sh, b :: begins, e :: ends =>
      let? x := Sint.usize (d + b) in let? y := Sint.usize (x + e) in
      let? rest := padded_sizes sh begins ends in Some (y :: rest)
  | [], [], [] => Some []
  | _, _, _ => None
  end.

Definition bitcast_shape (sh : list Z) (src dst : Z) : option (list Z) :=
  match sh with
  | [] => Some []
  | _ =>
      if src =? dst then Some sh
      else let? p := Sint.usize (List.last sh 0 * src) in
           if dst =? 0 then None else Some (removelast sh ++ [p / dst])
  end.

Fixpoint static_shape (u : UOp) : option (list Z) :=
  let 'mkUOp _ op _ := u in
  match op with
  | Op.Const _ _ | Op.Range _ _ _ _ _ | Op.Special _ _ _ | Op.DefineVar _ _ _ _ | Op.GetAddr _ _ _ => Some []
  | Op.Stack _ sources =>
      match map static_shape sources with
      | [] => Some []
      | first :: rest =>
          let? d := first in
          if forallb (fun o => bool_decide (o = Some d)) rest then Some (Z.of_nat (List.length sources) :: d) else None
      end
  | Op.Shuffle _ src mask =>
      match static_shape src with Some (_ :: d) => Some (Z.of_nat (List.length mask) :: d) | _ => None end
  | Op.Unary _ _ v | Op.Cast _ v _ | Op.Flip _ v _ | Op.Multi _ v _ | Op.AllReduce _ v _ _ | Op.Copy _ v _
  | Op.Load _ v _ _ | Op.Store _ v _ _ | Op.End _ v _ | Op.MSelect _ v _ | Op.Bind _ _ v | Op.Detach _ v
  | Op.Contiguous _ v _ | Op.ContiguousBackward _ v | Op.Precast _ v | Op.After _ v _ => static_shape v
  | Op.Binary _ _ lhs rhs =>
      let? l := static_shape lhs in let? r := static_shape rhs in static_broadcast [l; r]
  | Op.Ternary _ _ a b c =>
      let? x := static_shape a in let? y := static_shape b in let? z := static_shape c in static_broadcast [x; y; z]
  | Op.BitCast _ src dtype =>
      let? sh := static_shape src in bitcast_shape sh (DType.bytes (uop_dtype src)) (DType.bytes dtype)
  | Op.Reshape _ _ new_shape | Op.Expand _ _ new_shape => spelled new_shape
  | Op.Buffer _ sh _ | Op.Param _ sh _ => spelled sh
  | Op.Permute _ src axes => let? sh := static_shape src in collect (fun i => nth_error sh (Z.to_nat i)) axes
  | Op.Pad _ src begins ends =>
      let? sh := static_shape src in let? b := spelled begins in let? e := spelled ends in padded_sizes sh b e
  | Op.Shrink _ src offsets sizes =>
      let? sh := static_shape src in let? o := spelled offsets in let? n := spelled sizes in
      if (List.length o =? List.length n)%nat && (List.length sh =? List.length n)%nat then Some n else None
  | Op.ReduceAxis _ src _ axes =>
      let? sh := static_shape src in Some (imap (fun i d => if bool_decide (Z.of_nat i ∈ axes) then 1 else d) sh)
  | Op.Reduce _ src _ _ num_axes =>
      let? sh := static_shape src in
      if num_axes >? Z.of_nat (List.length sh) then None else Some (skipn (Z.to_nat num_axes) sh)
  | Op.Slice _ _ _ size => Some [size]
  | Op.MStack _ (b :: _) => static_shape b
  | Op.Index _ buffer indices =>
      let? l := collect (fun o => o) (map static_shape indices) in
      let? b := static_shape buffer in Some (concat l ++ skipn (List.length indices) b)
  | _ => None
  end.

(** Nodes on the longest path. *)
Fixpoint height (u : UOp) : nat := let 'mkUOp _ op _ := u in S (list_max (Op.map_child height op)).

Lemma height_child u v : In v (children u) -> (height v < height u)%nat.
Proof.
  destruct u as [i op d]. unfold children. cbn [uop_op height]. rewrite map_child_map. intros H.
  pose proof (proj1 (list_max_le (map height (Op.children op)) _) (le_n _)) as F. rewrite List.Forall_forall in F.
  specialize (F (height v) (in_map height _ _ H)). lia.
Qed.

(** ** Inference finds it *)
Section Static.
Context {M : LibM} {S : Type} `{I : !Interner S} `{Sh : !Shapes S} `{R : !Rebuilder S}.
Implicit Types s : S.
#[local] Set Default Proof Using "Type".

(** [m] returns [r] and leaves the table alone. *)
Definition returns {A} (m : Build S A) (r : A) : Prop := forall s, m s = Some (s, r).

Lemma returns_bind {A B} (m : Build S A) (k : A -> Build S B) a b : returns m a -> returns (k a) b -> returns (bind m k) b.
Proof. intros Hm Hk s. unfold bind. now rewrite Hm. Qed.
Lemma returns_rbind {A B E} (m : Build S (A + E)) (k : A -> Build S (B + E)) a b :
  returns m (inl a) -> returns (k a) b -> returns (rbind m k) b.
Proof. intros Hm Hk. now eapply returns_bind. Qed.
Lemma returns_obind {A B} (m : Build S (option A)) (k : A -> Build S (option B)) a b :
  returns m (Some a) -> returns (k a) b -> returns (obind m k) b.
Proof. intros Hm Hk. now eapply returns_bind. Qed.

Definition answers (u : UOp) (sh : list Z) : Prop := returns (shape u) (inl (Some (concrete_shape sh))).
Definition infers (u : UOp) (sh : list Z) : Prop := returns (infer_shape_from_op u) (inl (Some (concrete_shape sh))).

Lemma concrete_length l : List.length (concrete_shape l) = List.length l.
Proof. apply length_map. Qed.

Lemma collect_dims {A} (f : A -> option SInt) (l : list A) : forall d,
  collect (fun a => let? x := f a in SInt.as_const x) l = Some d -> collect f l = Some (concrete_shape d).
Proof.
  induction l as [| a l IH]; intros d H; cbn [collect] in *; [now injection H as <- |].
  destruct (f a) as [[v | |] |]; try discriminate H. cbn [SInt.as_const] in H.
  destruct (collect _ l) as [ds |] eqn:E; [| discriminate H]. injection H as <-. now rewrite (IH ds eq_refl).
Qed.

Lemma collect_total {A B} (f : A -> B) (l : list A) : collect (fun a => Some (f a)) l = Some (map f l).
Proof. induction l as [| a l IH]; [reflexivity |]. cbn [collect map]. now rewrite IH. Qed.

Lemma spelled_read u : forall d, spelled u = Some d -> returns (extract_shape_from_uop u) (Some (concrete_shape d)).
Proof.
  induction u as [u IH] using UOp_children_ind. intros d H. destruct u as [i op dt].
  assert (Under : forall src, In src (Op.children op) ->
    match uop_op src with Op.Stack _ _ | Op.VConst _ _ | Op.Const _ _ => spelled src | _ => None end = Some d ->
    returns (match uop_op src with
             | Op.Stack _ _ | Op.VConst _ _ | Op.Const _ _ => extract_shape_from_uop src
             | _ => if DType.is_int dt then
                      let* sh := shape (mkUOp i op dt) in
                      ret match sh with inl (Some []) => Some [SInt.Symbolic (mkUOp i op dt)] | _ => None end
                    else ret None
             end) (Some (concrete_shape d))).
  { intros src Hs E. rewrite List.Forall_forall in IH. specialize (IH src Hs d). destruct (uop_op src); try discriminate E; now apply IH. }
  destruct op; cbn [spelled] in H; try discriminate H; cbn [extract_shape_from_uop];
    try (apply (Under src); [now left | exact H]).
  - intros s. cbn [collect] in H. unfold const_size in H. destruct (const_dim value) as [[v | |] |]; try discriminate H.
    cbn in H. injection H as <-. reflexivity.
  - intros s. apply (collect_dims (fun v => Some (SInt.from_uop v))) in H. rewrite collect_total in H. injection H as H.
    cbn. now rewrite H.
  - intros s. now rewrite (collect_dims const_dim _ d H).
Qed.

Lemma broadcast_static shapes d : static_broadcast shapes = Some d ->
  returns (broadcast_shapes (map concrete_shape shapes)) (inl (concrete_shape d)).
Proof.
  intros H s. unfold broadcast_shapes, static_broadcast in *. rewrite align_concrete.
  assert (L : Forall (fun l => List.length l = rank shapes) (map (padded (rank shapes)) shapes)).
  { apply Forall_map, List.Forall_forall. intros l Hl. now apply padded_length, rank_le. }
  destruct (map (padded (rank shapes)) shapes) as [| first rest]; [now injection H as <- |].
  apply Forall_cons in L as [L1 L]. cbn [map]. revert first L1 H. generalize dependent (rank shapes). intros n.
  induction rest as [| l rest IH]; intros L first L1 H; cbn [fold_left map broadcast_from] in *; [now injection H as <- |].
  apply Forall_cons in L as [L2 L]. unfold rbind, bind, broadcast_shape. rewrite !concrete_length, L1, L2, Nat.eqb_refl, broadcast_dims_concrete.
  destruct (bdims first l) as [e |] eqn:E.
  - apply IH; [exact L | | exact H]. destruct (bdims_some first l e) as [Le _]; [congruence | exact E |]. congruence.
  - exfalso. clear - H. induction rest; [discriminate H | now apply IHrest].
Qed.

Lemma pad_static sh : forall b e d, padded_sizes sh b e = Some d ->
  (List.length sh = List.length b /\ List.length b = List.length e) /\
  returns (pad_dims (concrete_shape sh) (combine (concrete_shape b) (concrete_shape e))) (concrete_shape d).
Proof.
  induction sh as [| x sh IH]; intros [| y b] [| z e] d H; try discriminate H; cbn [padded_sizes] in H.
  { injection H as <-. split; [now split | intros s; reflexivity]. }
  destruct (Sint.usize (x + y)) as [p |] eqn:Ep; [| discriminate H]. destruct (Sint.usize (p + z)) as [q |] eqn:Eq; [| discriminate H].
  destruct (padded_sizes sh b e) as [ds |] eqn:E; [| discriminate H]. injection H as <-. destruct (IH b e ds E) as [[L1 L2] Hr].
  cbn [List.length]. split; [lia |]. assert (Add : forall u v w, Sint.usize (u + v) = Some w -> returns (Sint.add (SInt.Const u) (SInt.Const v)) (SInt.Const w)).
  { intros u v w Ew s. unfold Sint.add, Sint.sint_binop. unfold Sint.lift. rewrite Ew. now destruct u, v. }
  cbn [concrete_shape map combine pad_dims]. eapply returns_bind; [exact (Add _ _ _ Ep) |]. eapply returns_bind; [exact (Add _ _ _ Eq) |].
  eapply returns_bind; [exact Hr |]. intros s. reflexivity.
Qed.

Lemma ranges_static a b l l' : spelled a = Some l -> spelled b = Some l' -> List.length l = List.length l' ->
  returns (extract_ranges_from_uops a b) (Some (combine (concrete_shape l) (concrete_shape l'))).
Proof.
  intros Ha Hb L. eapply returns_obind; [exact (spelled_read a l Ha) |]. eapply returns_obind; [exact (spelled_read b l' Hb) |].
  intros s. now rewrite !concrete_length, L, Nat.eqb_refl.
Qed.

Lemma shaped_static u d : answers u d -> returns (shaped u) (inl (concrete_shape d)).
Proof. intros H. eapply returns_rbind; [exact H |]. intros s. reflexivity. Qed.

Lemma same_static d l : (forall v, In v l -> answers v d) -> returns (same_shapes (concrete_shape d) l) true.
Proof.
  induction l as [| v l IH]; intros H; cbn [same_shapes]; [intros s; reflexivity |].
  eapply returns_bind; [apply H; now left |]. cbv beta iota. replace (shapes_equal _ _) with true; [apply IH; intros w Hw; apply H; now right |].
  symmetry. unfold shapes_equal. rewrite Nat.eqb_refl. cbn. clear. induction d as [| x d IH]; [reflexivity |]. cbn. now rewrite Z.eqb_refl.
Qed.

Lemma index_static l : forall ds, (forall v d, In v l -> static_shape v = Some d -> answers v d) ->
  collect (fun o => o) (map static_shape l) = Some ds -> returns (index_shapes l) (inl (Some (concrete_shape (concat ds)))).
Proof.
  induction l as [| v l IH]; intros ds H E; cbn [map collect index_shapes] in *; [injection E as <-; intros s; reflexivity |].
  destruct (static_shape v) as [d |] eqn:Ev; [| discriminate E]. destruct (collect _ (map static_shape l)) as [rest |] eqn:Er; [| discriminate E].
  injection E as <-. eapply returns_rbind; [apply H; [now left | exact Ev] |].
  eapply returns_rbind; [apply (IH rest); [intros w d' Hw; apply H; now right | reflexivity] |].
  intros s. cbn [option_map concat ret]. unfold concrete_shape. now rewrite map_app.
Qed.

Lemma bitcast_static d a b e : bitcast_shape d a b = Some e ->
  returns (match concrete_shape d with
           | (_ :: _) as sh =>
               if a =? b then some_shape sh
               else
                 let last := List.last sh (SInt.Const 0) in
                 let* product := Sint.mul last (SInt.Const a) in
                 let* new_last := Sint.div product (SInt.Const b) in
                 some_shape (removelast sh ++ [new_last])
           | [] => ret (inl (Some (concrete_shape d)))
           end) (inl (Some (concrete_shape e))).
Proof.
  intros H s. unfold bitcast_shape in H. destruct d as [| x d]; [now injection H as <- |].
  set (sh := x :: d) in *. change (concrete_shape sh) with (SInt.Const x :: concrete_shape d).
  cbv iota. change (SInt.Const x :: concrete_shape d) with (concrete_shape sh).
  destruct (a =? b); [now injection H as <- |].
  destruct (Sint.usize (List.last sh 0 * a)) as [p |] eqn:Ep; [| discriminate H]. destruct (Z.eqb_spec b 0) as [| Nb]; [discriminate H |].
  injection H as <-.
  assert (EL : List.last (concrete_shape sh) (SInt.Const 0) = SInt.Const (List.last sh 0)) by (clear; unfold concrete_shape; induction sh as [| y [| z l] IH]; [reflexivity.. | exact IH]).
  assert (ER : removelast (concrete_shape sh) = concrete_shape (removelast sh)) by (clear; unfold concrete_shape; induction sh as [| y [| z l] IH]; [reflexivity.. | cbn in *; now rewrite IH]).
  assert (EM : Sint.mul (SInt.Const (List.last sh 0)) (SInt.Const a) s = Some (s, SInt.Const p)).
  { unfold Sint.mul, Sint.sint_binop, Sint.lift. rewrite Ep. now destruct (List.last sh 0), a. }
  assert (ED : Sint.div (SInt.Const p) (SInt.Const b) s = Some (s, SInt.Const (p / b))).
  { unfold Sint.div, Sint.sint_binop, Sint.lift. destruct (Z.eqb_spec b 0); [contradiction |]. now destruct p, b. }
  cbv zeta. unfold bind. rewrite EL, ER, EM, ED. unfold some_shape, ret, concrete_shape. now rewrite map_app.
Qed.

Lemma permute_static d axes e : collect (fun i => nth_error d (Z.to_nat i)) axes = Some e ->
  collect (fun i => nth_error (concrete_shape d) (Z.to_nat i)) axes = Some (concrete_shape e).
Proof.
  revert e. induction axes as [| i axes IH]; intros e H; cbn [collect] in *; [now injection H as <- |].
  unfold concrete_shape at 1. rewrite nth_error_map. destruct (nth_error d (Z.to_nat i)) as [x |]; [| discriminate H].
  destruct (collect _ axes) as [r |] eqn:E; [| discriminate H]. injection H as <-. cbn [option_map]. now rewrite (IH r eq_refl).
Qed.

Lemma snd_combine {A B} (l : list A) (l' : list B) : List.length l = List.length l' -> map snd (combine l l') = l'.
Proof. revert l'. induction l as [| a l IH]; intros [| b l'] H; try discriminate H; cbn; [reflexivity |]. now rewrite IH by (now injection H). Qed.

Lemma stack_static v l d : (forall w e, In w (v :: l) -> static_shape w = Some e -> answers w e) -> static_shape v = Some d ->
  forallb (fun o => bool_decide (o = Some d)) (map static_shape l) = true ->
  answers v d /\ forall w, In w l -> answers w d.
Proof.
  intros H Hv Hl. split; [apply H; [now left | exact Hv] |]. intros w Hw. apply H; [now right |].
  pose proof (proj1 (forallb_forall _ _) Hl (static_shape w) (in_map static_shape l w Hw)) as E. now apply bool_decide_eq_true in E.
Qed.

Lemma stack_answer sources d : (forall v e, In v sources -> static_shape v = Some e -> answers v e) ->
  static_shape (mkUOp 0 (Op.Stack UOp sources) (DType.Scalar Void)) = Some d ->
  returns (match sources with
           | [] => some_shape []
           | first :: rest =>
               let*! source_shape := shaped first in
               let* same := same_shapes source_shape rest in
               if same then some_shape (SInt.Const (Z.of_nat (List.length sources)) :: source_shape) else no_shape
           end) (inl (Some (concrete_shape d))).
Proof.
  intros Hc H. cbn [static_shape] in H. destruct sources as [| v l]; [injection H as <-; intros s; reflexivity |]. cbn [map] in H.
  destruct (static_shape v) as [e |] eqn:E; [| discriminate H]. destruct (forallb _ _) eqn:F; [| discriminate H]. injection H as <-.
  destruct (stack_static v l e Hc E F) as [Hv Hl]. eapply returns_rbind; [now apply shaped_static |].
  eapply returns_bind; [exact (same_static e l Hl) | intros s; reflexivity].
Qed.

(** Movement by concrete ranges. *)
Lemma movement_answer src a b e l l' (k : Shape -> list (SInt * SInt) -> Build S (Result (option Shape))) r :
  returns (shaped src) (inl (concrete_shape e)) -> spelled a = Some l -> spelled b = Some l' ->
  List.length e = List.length l -> List.length l = List.length l' ->
  returns (k (concrete_shape e) (combine (concrete_shape l) (concrete_shape l'))) r ->
  returns (let*! src_shape := shaped src in
           let* ranges := extract_ranges_from_uops a b in
           match ranges with
           | None => ret (inr VoidTypeInOp)
           | Some ranges => if (List.length src_shape =? List.length ranges)%nat then k src_shape ranges else no_shape
           end) r.
Proof.
  intros He Ha Hb L1 L2 Hk. eapply returns_rbind; [exact He |]. eapply returns_bind; [exact (ranges_static _ _ l l' Ha Hb L2) |].
  cbv beta iota. now rewrite length_combine, !concrete_length, <- L2, Nat.min_id, L1, Nat.eqb_refl.
Qed.

Lemma pad_answer src a b e d : returns (shaped src) (inl (concrete_shape e)) ->
  (let? x := spelled a in let? y := spelled b in padded_sizes e x y) = Some d ->
  returns (let*! src_shape := shaped src in
           let* ranges := extract_ranges_from_uops a b in
           match ranges with
           | None => ret (inr VoidTypeInOp)
           | Some ranges =>
               if (List.length src_shape =? List.length ranges)%nat
               then let* p := pad_dims src_shape ranges in some_shape p
               else no_shape
           end) (inl (Some (concrete_shape d))).
Proof.
  intros He H. destruct (spelled a) as [x |] eqn:Ex; [| discriminate H]. destruct (spelled b) as [y |] eqn:Ey; [| discriminate H].
  destruct (pad_static e x y d H) as [[L1 L2] P].
  apply (movement_answer src a b e x y (fun sh l => let* p := pad_dims sh l in some_shape p)); try assumption.
  eapply returns_bind; [exact P | intros s; reflexivity].
Qed.

Lemma shrink_answer src a b e d : returns (shaped src) (inl (concrete_shape e)) ->
  (let? o := spelled a in let? n := spelled b in
   if (List.length o =? List.length n)%nat && (List.length e =? List.length n)%nat then Some n else None) = Some d ->
  returns (let*! src_shape := shaped src in
           let* ranges := extract_ranges_from_uops a b in
           match ranges with
           | None => ret (inr VoidTypeInOp)
           | Some ranges =>
               if (List.length src_shape =? List.length ranges)%nat then some_shape (map snd ranges) else no_shape
           end) (inl (Some (concrete_shape d))).
Proof.
  intros He H. destruct (spelled a) as [o |] eqn:Eo; [| discriminate H]. destruct (spelled b) as [n |] eqn:En; [| discriminate H].
  destruct (_ && _) eqn:B; [| discriminate H]. injection H as <-. apply andb_prop in B as [L1%Nat.eqb_eq L2%Nat.eqb_eq].
  apply (movement_answer src a b e o n (fun _ l => some_shape (map snd l))); try assumption; [congruence |].
  rewrite snd_combine by now rewrite !concrete_length. intros s. reflexivity.
Qed.

(** One step, from the shapes of the sources. *)
Lemma infer_static u d : (forall v e, In v (children u) -> static_shape v = Some e -> answers v e) ->
  static_shape u = Some d -> infers u d.
Proof.
  intros Hc H. destruct u as [i op dt]. unfold children in Hc. unfold infers, infer_shape_from_op.
  assert (Hs : forall v sh, static_shape v = Some sh -> In v (Op.children op) -> returns (shaped v) (inl (concrete_shape sh))).
  { intros v sh E Hv. now apply shaped_static, Hc. }
  destruct op; cbn [static_shape] in H; try discriminate H; cbn [uop_op Op.children In] in *;
    try (injection H as <-; intros s; reflexivity); try (apply Hc; [tauto | exact H]);
    try (eapply returns_bind; [exact (spelled_read _ d H) | intros s; reflexivity]).
  - destruct (static_shape lhs) as [l |] eqn:El; [| discriminate H]. destruct (static_shape rhs) as [r |] eqn:Er; [| discriminate H].
    eapply returns_rbind; [apply (Hc lhs l); tauto |]. eapply returns_rbind; [apply (Hc rhs r); tauto |].
    eapply returns_rbind; [exact (broadcast_static [l; r] d H) | intros s; reflexivity].
  - destruct (static_shape a) as [x |] eqn:Ea; [| discriminate H]. destruct (static_shape b) as [y |] eqn:Eb; [| discriminate H].
    destruct (static_shape c) as [z |] eqn:Ec; [| discriminate H].
    eapply returns_rbind with (a := [concrete_shape x; concrete_shape y; concrete_shape z]).
    + intros s. cbn [present_shapes]. unfold rbind, bind. rewrite (Hc a x), (Hc b y), (Hc c z) by tauto. reflexivity.
    + eapply returns_rbind; [exact (broadcast_static [x; y; z] d H) | intros s; reflexivity].
  - destruct (static_shape src) as [e |] eqn:E; [| discriminate H]. eapply returns_rbind; [apply (Hc src e); tauto |].
    pose proof (bitcast_static e _ _ d H) as B. destruct e; exact B.
  - destruct (collect _ (map static_shape indices)) as [l |] eqn:El; [| discriminate H].
    destruct (static_shape buffer) as [b |] eqn:Eb; [| discriminate H]. injection H as <-.
    eapply returns_rbind; [apply (index_static indices l); [intros v e Hv; apply Hc; tauto | exact El] |]. cbv beta iota.
    eapply returns_rbind; [apply (Hc buffer b); tauto |]. intros s. cbv beta iota. unfold some_shape, ret, concrete_shape. now rewrite map_app, skipn_map.
  - destruct buffers as [| b l]; [discriminate H |]. apply Hc; [now left | exact H].
  - destruct (static_shape src) as [e |] eqn:E; [| discriminate H]. eapply returns_rbind; [apply (Hs src e E); tauto |].
    intros s. now rewrite (permute_static e axes d H).
  - destruct (static_shape src) as [e |] eqn:E; [| discriminate H]. apply (pad_answer src _ _ e d); [apply (Hs src e E); tauto | exact H].
  - destruct (static_shape src) as [e |] eqn:E; [| discriminate H]. apply (shrink_answer src _ _ e d); [apply (Hs src e E); tauto | exact H].
  - destruct (static_shape src) as [e |] eqn:E; [| discriminate H]. injection H as <-. eapply returns_rbind; [apply (Hs src e E); tauto |].
    intros s. unfold some_shape, ret. do 4 f_equal.
    change (concrete_shape e) with (SInt.Const <$> e). rewrite imap_fmap. unfold concrete_shape.
    change (map SInt.Const) with (fmap (M := list) SInt.Const). rewrite fmap_imap. apply imap_ext. intros k x _. cbn. now destruct (bool_decide _).
  - destruct (static_shape src) as [e |] eqn:E; [| discriminate H]. eapply returns_rbind; [apply (Hs src e E); tauto |].
    rewrite concrete_length. destruct (num_axes >? _); [discriminate H |]. injection H as <-. intros s.
    unfold some_shape, ret, concrete_shape. now rewrite skipn_map.
  - now apply stack_answer.
  - destruct (static_shape src) as [[| x e] |] eqn:E; try discriminate H. injection H as <-.
    eapply returns_rbind; [apply (Hs src (x :: e) E); tauto |]. intros s. reflexivity.
Qed.
End Static.

(** C13: The shape of a concrete graph is found.  Where every size is a number
    and the reference gives a shape, inference answers it with one level per
    node on the longest path, builds nothing, and does not fail. *)
Theorem static_shape_inferred {M : LibM} {S : Type} `{I : !Interner S} `{R : !Rebuilder S} u d n (s : S) :
  static_shape u = Some d -> (height u <= n)%nat ->
  @shape S I (levels n) u s = Some (s, inl (Some (concrete_shape d))).
Proof.
  intros H L. revert s. change (answers (Sh := levels n) u d). revert u d H L.
  induction n as [| n IH]; intros u d H L.
  - destruct u. cbn [height] in L. lia.
  - apply (infer_static (Sh := levels n)); [| exact H]. intros v e Hv He. apply IH; [exact He |].
    pose proof (height_child u v Hv). lia.
Qed.
