(* ===== verification/ShapeDemo.v ===== *)
(** * Shapes on concrete graphs

    The table of [HashCons] with three levels of inference: two arrays of
    symbolic extents [n] and [m] broadcast to [max(n, m)], which inference
    builds; and a reshaped, padded and reduced array of numbers. *)

From stdpp Require Import gmap.
From S2P Require Import Prelude F64 DType Cast ConstVal Ops IntView Eval EvalSpec Payload UOp Semantics Traverse.
From S2P Require Import RangeEval RangeSound Properties HashCons Builder Shape Constructors ConstructorSpec Exact HelperSpec.
From S2P Require Import SymInt SymIntSpec InferShape ShapeLevels ShapeTable ShapeSpec ShapeStatic.

Module ShapeDemo.
#[export] Instance table_of_nodes : Interner Uops.t := uops_interner (fun _ _ _ => 0) None.
#[export] Instance rebuilding : Rebuilder Uops.t := uops_rebuilder (fun _ _ _ => 0) (fun _ => false) None.
#[export] Instance library : LibM := demo_libm.
#[export] Instance three_levels : Shapes Uops.t := levels 3.

Definition int : DType := DType.Scalar WeakInt.
Definition size (n : string) : Build Uops.t UOp := new (Op.DefineVar UOp n 1 9) int.
Definition lit (z : Z) : Build Uops.t UOp := new (Op.Const UOp (ConstValue.Int z)) (DType.Scalar Int32).

(** A number expanded to a shape. *)
Definition full (z : Z) (sh : Shape) : Build Uops.t UOp :=
  let* c := lit z in
  let* t := shape_to_uop sh in
  expand c t.

(** The sum of an [n]x4 and an [m]x4 array. *)
Definition sum : Build Uops.t UOp :=
  let* n := size "n" in
  let* m := size "m" in
  let* a := full 1 [SInt.Symbolic n; SInt.Const 4] in
  let* b := full 2 [SInt.Symbolic m; SInt.Const 4] in
  new (Op.Binary UOp BinaryOp.Add a b) (DType.Scalar Int32).

(** A 6x4 array reshaped to 3x8, its second axis padded by 1 and 2, summed
    over the first. *)
Definition pipeline : Build Uops.t UOp :=
  let d := DType.Scalar Int32 in
  let* a := full 7 [SInt.Const 6; SInt.Const 4] in
  let* sh := shape_to_uop [SInt.Const 3; SInt.Const 8] in
  let* b := new (Op.Reshape UOp a sh) d in
  let* begins := shape_to_uop [SInt.Const 0; SInt.Const 1] in
  let* ends := shape_to_uop [SInt.Const 0; SInt.Const 2] in
  let* c := new (Op.Pad UOp b begins ends) d in
  new (Op.ReduceAxis UOp c ReduceOp.Add [0]) d.

Definition nothing : UOp := mkUOp 0 (Op.Noop UOp) (DType.Scalar Void).
Definition state (m : Build Uops.t UOp) : Uops.t := match m Uops.empty with Some (s, _) => s | None => Uops.empty end.
Definition node (m : Build Uops.t UOp) : UOp := match m Uops.empty with Some (_, u) => u | None => nothing end.

Definition values (l : list (string * Z)) : env :=
  mkEnv (fun u => match uop_op u with
                  | Op.DefineVar _ n _ _ =>
                      match List.find (fun p => String.eqb (fst p) n) l with Some (_, z) => z | None => 0 end
                  | _ => 0
                  end) (fun _ => 0%nat).
End ShapeDemo.
Import ShapeDemo.

(** Three levels find the shape of the sum, a new node; one level does not. *)
Example sum_shape :
  match shape (node sum) (state sum) with
  | Some (_, inl (Some [SInt.Symbolic u; SInt.Const 4])) =>
      match uop_op u with Op.Binary _ BinaryOp.Max _ _ => true | _ => false end
  | _ => false
  end = true /\
  @shape _ _ (levels 1) (node sum) (state sum) = None.
Proof. vm_compute. now split. Qed.

Example pipeline_shape : static_shape (node pipeline) = Some [1; 11] /\ (height (node pipeline) <= 6)%nat.
Proof. split; [vm_compute; reflexivity | apply Nat.leb_le; vm_compute; reflexivity]. Qed.

Lemma static_shape_inferred_witness :
  @shape _ _ (levels 6) (node pipeline) (state pipeline) = Some (state pipeline, inl (Some [SInt.Const 1; SInt.Const 11])).
Proof.
  refine (static_shape_inferred (node pipeline) [1; 11] 6 (state pipeline) _ _).
  - vm_compute. reflexivity.
  - apply Nat.leb_le. vm_compute. reflexivity.
Defined.

(** *** Concrete nodes are in the table *)

Lemma new_built s op d : (forall v, In v (refs op) -> table s v) -> yields s (new op d) (fun s' u => table s' u).
Proof. intros H. eapply yields_mono; [now apply yields_new |]. intros s' u _ _ Hu. apply Hu. Qed.

Lemma full_built s z sh : known s sh -> yields s (full z sh) (fun s' u => table s' u).
Proof.
  intros H. eapply yields_bind; [apply new_built; intros v [] |]. intros s1 c _ G1 Hc.
  eapply yields_bind; [apply shape_to_uop_yields; eapply known_grows; eassumption |]. intros s2 t _ G2 Ht.
  apply new_built. intros v [<- | [<- | []]]; [now apply G2 | exact Ht].
Qed.

Lemma sum_built : yields Uops.empty sum (fun s u => table s u).
Proof.
  eapply yields_bind; [apply new_built; intros v [] |]. intros s1 n _ G1 Hn.
  eapply yields_bind; [apply new_built; intros v [] |]. intros s2 m _ G2 Hm.
  eapply yields_bind; [apply full_built, known_cons; split; [apply known_symbolic; now apply G2 | apply known_const] |]. intros s3 a _ G3 Ha.
  eapply yields_bind; [apply full_built, known_cons; split; [apply known_symbolic; now apply G3 | apply known_const] |]. intros s4 b _ G4 Hb.
  apply new_built. intros v [<- | [<- | []]]; [now apply G4 | exact Hb].
Qed.

Lemma built m : yields Uops.empty m (fun s u => table s u) -> is_Some (m Uops.empty) -> settled (state m) /\ table (state m) (node m).
Proof.
  intros H [[s u] E]. unfold state, node. rewrite E.
  destruct (yields_run Uops.empty m _ s u H) as (H1 & _ & H2); [exact Inv_empty | exact E | now split].
Qed.

Definition answer : option (Uops.t * Result (option Shape)) := @shape _ _ (levels 3) (node sum) (state sum).
Definition after : Uops.t := match answer with Some (s, _) => s | None => Uops.empty end.
Definition found : Result (option Shape) := match answer with Some (_, r) => r | None => inr VoidTypeInOp end.

Lemma answer_some : match answer with Some _ => true | None => false end = true.
Proof. vm_compute. reflexivity. Qed.

Lemma answer_eq : @shape _ _ (levels 3) (node sum) (state sum) = Some (after, found).
Proof.
  pose proof answer_some as H. unfold after, found, answer in *.
  destruct (@shape _ _ (levels 3) (node sum) (state sum)) as [[s r] |]; [reflexivity | discriminate H].
Qed.


(** *** Sizes of one dtype *)

Definition five_and_seven : env := values [("n", 5); ("m", 7)]%string.
Definition two_sizes : Build Uops.t UOp := let* n := size "n" in let* m := size "m" in new (Op.Binary UOp BinaryOp.Add n m) int.

Lemma two_built : yields Uops.empty two_sizes (fun s u => table s u).
Proof.
  eapply yields_bind; [apply new_built; intros v [] |]. intros s1 n _ G1 Hn.
  eapply yields_bind; [apply new_built; intros v [] |]. intros s2 m _ G2 Hm.
  apply new_built. intros v [<- | [<- | []]]; [now apply G2 | exact Hm].
Qed.

Definition left_of (u : UOp) : UOp := match uop_op u with Op.Binary _ _ x _ => x | _ => u end.
Definition right_of (u : UOp) : UOp := match uop_op u with Op.Binary _ _ _ y => y | _ => u end.


(** *** A shape with a symbolic size *)

Lemma shape_round_trip_witness :
  yields (state two_sizes)
    (let* u := shape_to_uop [SInt.Symbolic (node two_sizes); SInt.Const 4] in extract_shape_from_uop u)
    (fun _ o => o = Some [SInt.Symbolic (node two_sizes); SInt.Const 4]).
Proof.
  destruct (built two_sizes two_built) as [Hs Hu]; [vm_compute; now eexists |].
  apply (shape_round_trip WeakInt); [now eexists |]. split; [vm_compute; reflexivity |].
  constructor; [split; [exact Hu | split; vm_compute; reflexivity] |].
  constructor; [| constructor]. vm_compute. repeat split; discriminate.
Defined.
