(* ===== verification/TuplizeKey.v ===== *)
(** * Sort keys of the linearizer ([schedule/src/linearize/linearize.rs])

    The head of a node's key: the number of its operation, its argument and its
    dtype, with their orders.  [Cmp] is Rust's derived [Ord]: fields in order,
    variants by position, slices lexicographically. *)

From Stdlib Require Import Ascii Floats.SpecFloat.
From S2P Require Import Prelude F64 DType Cast ConstVal Ops Payload UOp.

(** ** Orders *)
Class Cmp (A : Type) := cmp : A -> A -> comparison.

Definition then_cmp (c d : comparison) : comparison := match c with Eq => d | _ => c end.
Notation "c >>c d" := (then_cmp c d) (at level 60, right associativity).

#[export] Instance cmp_Z : Cmp Z := Z.compare.
#[export] Instance cmp_bool : Cmp bool := Ops.cmp_bool.
#[export] Instance cmp_string : Cmp string := String.compare.
#[export] Instance cmp_ascii : Cmp ascii := Ascii.compare.
#[export] Instance cmp_pair {A B} `{Cmp A} `{Cmp B} : Cmp (A * B) :=
  fun x y => cmp (fst x) (fst y) >>c cmp (snd x) (snd y).
#[export] Instance cmp_option {A} `{Cmp A} : Cmp (option A) := fun x y =>
  match x, y with None, None => Eq | None, Some _ => Lt | Some _, None => Gt | Some a, Some b => cmp a b end.
#[export] Instance cmp_list {A} `{Cmp A} : Cmp (list A) :=
  fix go x y :=
    match x, y with
    | [], [] => Eq
    | [], _ :: _ => Lt
    | _ :: _, [] => Gt
    | a :: x, b :: y => cmp a b >>c go x y
    end.

(** ** Operations *)
Module TuplizeKey.

Definition op_value {A} (op : Op A) : Z :=
  match op with
  | Op.Bind _ _ _ => 1
  | Op.Special _ _ _ => 2
  | Op.Buffer _ _ _ => 3
  | Op.Noop _ => 4
  | Op.Param _ _ _ => 6
  | Op.Function _ _ _ _ => 7
  | Op.Call _ _ _ _ => 8
  | Op.Program _ _ _ _ _ _ => 9
  | Op.Linear _ _ => 10
  | Op.Source _ _ _ => 11
  | Op.ProgramBinary _ _ _ => 12
  | Op.Sink _ _ _ => 13
  | Op.After _ _ _ => 14
  | Op.Group _ _ => 15
  | Op.Stack _ _ | Op.Shuffle _ _ _ | Op.VConst _ _ => 16
  | Op.Tuple _ _ => 17
  | Op.GetTuple _ _ _ => 18
  | Op.GetAddr _ _ _ => 19
  | Op.Index _ _ _ => 20
  | Op.Shrink _ _ _ _ => 21
  | Op.Load _ _ _ _ => 22
  | Op.Store _ _ _ _ => 23
  | Op.Wmma _ _ _ _ _ => 24
  | Op.Cast _ _ _ => 25
  | Op.BitCast _ _ _ => 26
  | Op.Unary _ kind _ =>
      match kind with
      | UnaryOp.Exp2 => 27
      | UnaryOp.Log2 => 28
      | UnaryOp.Sin => 29
      | UnaryOp.Sqrt => 30
      | UnaryOp.Reciprocal => 31
      | UnaryOp.Neg => 32
      | UnaryOp.Trunc => 33
      | UnaryOp.Not => 83
      | UnaryOp.Abs => 84
      | UnaryOp.Rsqrt => 85
      | UnaryOp.Exp => 86
      | UnaryOp.Log => 87
      | UnaryOp.Cos => 88
      | UnaryOp.Tan => 89
      | UnaryOp.Floor => 90
      | UnaryOp.Ceil => 91
      | UnaryOp.Round => 92
      | UnaryOp.Sign => 93
      | UnaryOp.Erf => 94
      | UnaryOp.Square => 95
      end
  | Op.Binary _ kind _ _ =>
      match kind with
      | BinaryOp.Add => 34
      | BinaryOp.Mul => 35
      | BinaryOp.Shl => 36
      | BinaryOp.Shr => 37
      | BinaryOp.CDiv => 38
      | BinaryOp.Max => 39
      | BinaryOp.CMod => 40
      | BinaryOp.Lt => 41
      | BinaryOp.Ne => 42
      | BinaryOp.Eq => 43
      | BinaryOp.Xor => 44
      | BinaryOp.Or => 45
      | BinaryOp.And => 46
      | BinaryOp.Threefry => 47
      | BinaryOp.Sub => 48
      | BinaryOp.Fdiv => 49
      | BinaryOp.Pow => 50
      | BinaryOp.FloorDiv => 51
      | BinaryOp.FloorMod => 52
      | BinaryOp.Le => 96
      | BinaryOp.Gt => 97
      | BinaryOp.Ge => 98
      end
  | Op.Ternary _ TernaryOp.Where _ _ _ => 53
  | Op.Ternary _ TernaryOp.MulAcc _ _ _ => 54
  | Op.Barrier _ _ _ _ => 55
  | Op.Range _ _ _ _ _ => 56
  | Op.If _ _ _ => 57
  | Op.End _ _ _ => 58
  | Op.EndIf _ _ => 59
  | Op.Const _ _ => 61
  | Op.Custom _ _ _ => 62
  | Op.CustomI _ _ _ => 63
  | Op.Ins _ _ _ => 64
  | Op.Contiguous _ _ _ => 65
  | Op.ContiguousBackward _ _ => 66
  | Op.Detach _ _ => 67
  | Op.Stage _ _ _ _ => 68
  | Op.Copy _ _ _ => 69
  | Op.MSelect _ _ _ => 71
  | Op.MStack _ _ => 72
  | Op.CustomFunction _ _ _ => 73
  | Op.Reshape _ _ _ => 74
  | Op.Permute _ _ _ => 75
  | Op.Expand _ _ _ => 76
  | Op.Pad _ _ _ _ => 77
  | Op.Flip _ _ _ => 78
  | Op.ReduceAxis _ _ _ _ | Op.Reduce _ _ _ _ _ => 80
  | Op.AllReduce _ _ _ _ => 81
  | Op.Slice _ _ _ _ => 70
  | Op.Unique _ _ => 99
  | Op.LUnique _ _ => 100
  | Op.Multi _ _ _ => 103
  | Op.DefineVar _ _ _ _ => 106
  | Op.Precast _ _ => 109
  end.

(** ** Constants *)

Inductive ConstKey := Invalid | Bool (b : bool) | Int (i : Z) | Float (bits : Z).

(** [f64::total_cmp]: the bits as a signed number, the magnitude of a negative
    one turned around. *)
Definition total_key (bits : Z) : Z := if bits <? 2 ^ 63 then bits else 2 ^ 63 - 1 - bits.
Definition total_cmp (x y : f64) : comparison := cmp (total_key (f64_to_bits x)) (total_key (f64_to_bits y)).

Definition cmp_int_float (integer : Z) (float : f64) : comparison :=
  match float with
  | S754_nan => Lt
  | S754_infinity false => Lt
  | S754_infinity true => Gt
  | _ => total_cmp (f64_of_Z integer) float >>c cmp integer (f64_as_i 128 float)
  end.

Definition integer (value : ConstKey) : option Z :=
  match value with Bool v => Some (Z.b2z v) | Int v => Some v | _ => None end.

(** [integer(..).unwrap()] is on booleans and integers only. *)
Definition integer_or_zero (value : ConstKey) : Z := from_option id 0 (integer value).

#[global] Instance cmp_ConstKey : Cmp ConstKey := fun self other =>
  match self, other with
  | Invalid, Invalid => Eq
  | Invalid, _ => Lt
  | _, Invalid => Gt
  | Float a, Float b => total_cmp (f64_from_bits a) (f64_from_bits b)
  | Float a, b => CompOpp (cmp_int_float (integer_or_zero b) (f64_from_bits a))
  | a, Float b => cmp_int_float (integer_or_zero a) (f64_from_bits b)
  | a, b => cmp (integer_or_zero a) (integer_or_zero b)
  end.

Definition const_key (value : ConstValue) : ConstKey :=
  match value with
  | ConstValue.Invalid => Invalid
  | ConstValue.Bool v => Bool v
  | ConstValue.Int v => Int v
  | ConstValue.UInt v => Int v
  | ConstValue.Float v =>
      let canonical := match v with S754_zero _ => f64_zero | _ => v end in
      Float (f64_to_bits canonical)
  end.

(** ** Dtypes *)

(** Priority, bits, name, format character, extension. *)
Definition DTypeKey : Type := Z * Z * string * option ascii * list Z.

Definition dtype_key (dtype : DType) : DTypeKey :=
  let '(priority, bits, name, fmt) :=
    match from_option id Void (DType.scalar dtype) with
    | DType.Void => (-1, 0, "void"%string, None)
    | WeakInt => (0, 800, "weakint"%string, None)
    | DType.Bool => (0, 1, "bool"%string, Some "?"%char)
    | Int8 => (1, 8, "signed char"%string, Some "b"%char)
    | UInt8 => (2, 8, "unsigned char"%string, Some "B"%char)
    | Int16 => (3, 16, "short"%string, Some "h"%char)
    | UInt16 => (4, 16, "unsigned short"%string, Some "H"%char)
    | Int32 => (5, 32, "int"%string, Some "i"%char)
    | UInt32 => (6, 32, "unsigned int"%string, Some "I"%char)
    | Int64 | DType.Index => (7, 64, "long"%string, Some "q"%char)
    | UInt64 => (8, 64, "unsigned long"%string, Some "Q"%char)
    | WeakFloat => (9, 800, "weakfloat"%string, None)
    | FP8E4M3 => (10, 8, "float8_e4m3"%string, None)
    | FP8E4M3FNUZ => (10, 8, "float8_e4m3fnuz"%string, None)
    | FP8E5M2 => (11, 8, "float8_e5m2"%string, None)
    | FP8E5M2FNUZ => (11, 8, "float8_e5m2fnuz"%string, None)
    | Float16 => (12, 16, "half"%string, Some "e"%char)
    | BFloat16 => (13, 16, "__bf16"%string, None)
    | Float32 => (14, 32, "float"%string, Some "f"%char)
    | Float64 => (15, 64, "double"%string, Some "d"%char)
    end in
  let extension :=
    match dtype with
    | DType.Scalar _ => []
    | DType.Vector _ count => [1; count]
    | DType.Ptr _ addrspace size vcount =>
        [2; match addrspace with Global => 0 | Local => 1 | Reg => 2 end; from_option id usize_max size; vcount]
    | DType.Image kind shape => [3; match kind with Half => 0 | DType.Float => 1 end] ++ shape
    end in
  (priority, bits, name, fmt, extension).

(** ** Parameters *)

(** Slot, dtype, bounds, divisor, name, address space, axis, device, volatile. *)
Definition ParamKey : Type :=
  Z * DTypeKey * option (ConstKey * ConstKey) * option Z * option string * option Z * option Z * option string * bool.

Definition param_key (arg : ParamArg.t) : ParamKey :=
  (if ParamArg.slot arg =? usize_max then -1 else ParamArg.slot arg,
   dtype_key (ParamArg.dtype arg),
   option_map (fun '(a, b) => (const_key a, const_key b)) (ParamArg.vmin_vmax arg),
   ParamArg.multiple_of arg,
   ParamArg.name arg,
   Some match ParamArg.addrspace arg with None => 4 | Some Global => 1 | Some Local => 2 | Some Reg => 3 end,
   ParamArg.axis arg,
   option_map canonicalize (ParamArg.device arg),
   ParamArg.volatile arg).

(** ** Arguments *)

Definition WmmaAxes : Type := option (list (Z * Z) * list (Z * Z) * list (Z * Z)).

Module ArgKey.
Inductive t :=
| None
| Const (value : ConstKey)
| Constants (values : list ConstKey)
| Param (key : ParamKey)
| Text (text : string)
| Index (i : Z)
| Indices (l : list Z)
| Bools (l : list bool)
| Range (path : list Z) (axis_type : Z)
| Ins (opcode : string) (attributes : list (string * string))
| DType (key : DTypeKey)
| DefineVar (name : string) (min_val max_val : Z)
| Reduce (op : Z) (axes : list Z) (num_axes : option Z)
| ReduceDevice (op : Z) (device : string)
| Call (grad_tag : option string) (origins : list string) (name : option string) (precompile precompile_backward : bool)
| Hints (l : list (string * option Z * option Z))
| Bytes (l : list Z)
| Wmma (dims : Z * Z * Z) (dtype : DTypeKey) (device : string) (threads : Z) (axes : WmmaAxes).

Definition variant (a : t) : Z :=
  match a with
  | None => 0 | Const _ => 1 | Constants _ => 2 | Param _ => 3 | Text _ => 4 | Index _ => 5 | Indices _ => 6
  | Bools _ => 7 | Range _ _ => 8 | Ins _ _ => 9 | DType _ => 10 | DefineVar _ _ _ => 11 | Reduce _ _ _ => 12
  | ReduceDevice _ _ => 13 | Call _ _ _ _ _ => 14 | Hints _ => 15 | Bytes _ => 16 | Wmma _ _ _ _ _ => 17
  end.

#[global] Instance cmp_ArgKey : Cmp t := fun x y =>
  match x, y with
  | Const a, Const b => cmp a b
  | Constants a, Constants b => cmp a b
  | Param a, Param b => cmp a b
  | Text a, Text b => cmp a b
  | Index a, Index b => cmp a b
  | Indices a, Indices b => cmp a b
  | Bools a, Bools b => cmp a b
  | Range p a, Range q b => cmp p q >>c cmp a b
  | Ins p a, Ins q b => cmp p q >>c cmp a b
  | DType a, DType b => cmp a b
  | DefineVar n a c, DefineVar m b d => cmp n m >>c cmp a b >>c cmp c d
  | Reduce p a c, Reduce q b d => cmp p q >>c cmp a b >>c cmp c d
  | ReduceDevice p a, ReduceDevice q b => cmp p q >>c cmp a b
  | Call a b c d e, Call a' b' c' d' e' => cmp a a' >>c cmp b b' >>c cmp c c' >>c cmp d d' >>c cmp e e'
  | Hints a, Hints b => cmp a b
  | Bytes a, Bytes b => cmp a b
  | Wmma a b c d e, Wmma a' b' c' d' e' => cmp a a' >>c cmp b b' >>c cmp c c' >>c cmp d d' >>c cmp e e'
  | _, _ => cmp (variant x) (variant y)
  end.
End ArgKey.
Abbreviation ArgKey := ArgKey.t.

Definition reduce_value (op : ReduceOp) : Z :=
  match op with ReduceOp.Add => 34 | ReduceOp.Mul => 35 | ReduceOp.Max => 39 | ReduceOp.Min => 110 end.

Definition axis_type_value (axis : AxisType) : Z :=
  match axis with
  | AxisType.Device => 1
  | AxisType.Global => 2
  | AxisType.Warp => 3
  | AxisType.Local => 4
  | AxisType.Weak => 5
  | AxisType.GroupReduce => 6
  | AxisType.Reduce => 7
  | AxisType.Upcast => 8
  | AxisType.Unroll => 9
  | AxisType.Thread => 10
  | AxisType.Placeholder => 11
  | AxisType.Loop => 12
  end.

(** [path()[0]]: an empty path, a panic, reads as 0. *)
Definition axis_pairs (values : list (AxisId * Z)) : list (Z * Z) :=
  map (fun '(axis, amount) => (List.hd 0 (AxisId.path axis), amount)) values.

Definition tinygrad_renderer_device (device : RendererDevice) : string :=
  match device with
  | RCpu => "CPU"
  | CudaSm75 | CudaSm80 | CudaSm89 => "CUDA"
  | RMetal => "METAL"
  | AmdRdna3 | AmdRdna4 | AmdCdna3 | AmdCdna4 => "AMD"
  | IntelXe => "INTEL"
  | RWebGpu => "WEBGPU"
  end.

(** [BTreeSet] of the rendered paths, listed. *)
Fixpoint insert_sorted (x : string) (l : list string) : list string :=
  match l with
  | [] => [x]
  | y :: l' => match cmp x y with Lt => x :: l | Eq => l | Gt => y :: insert_sorted x l' end
  end.

(** [origin_path] renders an interned origin. *)
Definition arg_key {A} (origin_path : Z -> string) (op : Op A) : ArgKey :=
  match op with
  | Op.Const _ v => ArgKey.Const (const_key v)
  | Op.VConst _ values => ArgKey.Constants (map const_key values)
  | Op.Param _ _ arg | Op.Buffer _ _ arg => ArgKey.Param (param_key arg)
  | Op.Special _ _ text | Op.Source _ text _ | Op.Custom _ _ text | Op.CustomI _ _ text => ArgKey.Text text
  | Op.Unique _ v | Op.LUnique _ v | Op.MSelect _ _ v | Op.Multi _ _ v | Op.GetTuple _ _ v => ArgKey.Index v
  | Op.Slice _ _ _ size => ArgKey.Index size
  | Op.Permute _ _ axes => ArgKey.Indices axes
  | Op.Flip _ _ axes => ArgKey.Bools axes
  | Op.Range _ _ axis_id axis_type _ => ArgKey.Range (AxisId.path axis_id) (axis_type_value axis_type)
  | Op.DefineVar _ name min_val max_val => ArgKey.DefineVar name min_val max_val
  | Op.Ins _ _ arg => ArgKey.Ins (InsArg.opcode arg) (InsArg.attributes arg)
  | Op.Cast _ _ dtype | Op.BitCast _ _ dtype => ArgKey.DType (dtype_key dtype)
  | Op.GetAddr _ _ device | Op.Copy _ _ device => ArgKey.Text (canonicalize device)
  | Op.ReduceAxis _ _ reduce_op axes => ArgKey.Reduce (reduce_value reduce_op) axes None
  | Op.Reduce _ _ _ reduce_op num_axes => ArgKey.Reduce (reduce_value reduce_op) [] (Some num_axes)
  | Op.AllReduce _ _ device reduce_op => ArgKey.ReduceDevice (reduce_value reduce_op) (canonicalize device)
  | Op.Call _ _ _ info | Op.Function _ _ _ info =>
      ArgKey.Call (CallInfo.grad_tag info)
        (fold_right insert_sorted [] (map origin_path (CallInfo.origins info)))
        (CallInfo.name info) (CallInfo.precompile info) (CallInfo.precompile_backward info)
  | Op.Contiguous _ _ opts =>
      ArgKey.Hints (map (fun hint => (ContiguousHint.op hint, ContiguousHint.axis hint, ContiguousHint.arg hint)) opts)
  | Op.ProgramBinary _ bytes _ => ArgKey.Bytes bytes
  | Op.CustomFunction _ kind _ =>
      ArgKey.Index match kind with EncDec => 0 | Graph => 1 | AllReduceFn reduce_op => 2 + reduce_value reduce_op end
  | Op.Wmma _ _ _ _ metadata =>
      ArgKey.Wmma (WmmaMetadata.dims metadata) (dtype_key (WmmaMetadata.dtype_in metadata))
        (tinygrad_renderer_device (WmmaMetadata.device metadata)) (WmmaMetadata.threads metadata)
        (option_map (fun axes => (axis_pairs (WmmaUpcastAxes.a axes), axis_pairs (WmmaUpcastAxes.b axes),
                                  axis_pairs (WmmaUpcastAxes.c axes))) (WmmaMetadata.upcast_axes metadata))
  | _ => ArgKey.None
  end.

(** ** Heads *)

(** Operation, argument, dtype. *)
Definition TuplizeHead : Type := Z * ArgKey * DTypeKey.

End TuplizeKey.
