(* ===== verification/Linearize.v ===== *)
(** * The linearizer ([schedule/src/linearize/linearize.rs])

    Tuplize keys flattened into index tables with their comparison on an
    explicit stack, the ideal order of the nodes, and the heap toposort that
    turns a graph into a list of instructions.  [u32] indices are [nat]. *)

From stdpp Require Import gmap.
From S2P Require Import Prelude F64 DType Cast ConstVal Ops Eval Payload UOp Traverse CachedProperty Properties RangeEval TuplizeKey.
Import TuplizeKey.

#[export] Instance ConstKey_eq_dec : EqDecision ConstKey.
Proof. solve_decision. Defined.
#[export] Instance ArgKey_eq_dec : EqDecision ArgKey.
Proof. solve_decision. Defined.

Module Linearize.

(** ** Sorting *)

(** [sort_by]: a stable sort with a comparison that keeps a state. *)
Section SortBy.
Context {A M : Type} (compare : A -> A -> M -> option (comparison * M)).

Fixpoint insert_by (x : A) (l : list A) (memo : M) : option (list A * M) :=
  match l with
  | [] => Some ([x], memo)
  | y :: l' =>
      let? (order, memo) := compare x y memo in
      match order with
      | Gt => let? (l', memo) := insert_by x l' memo in Some (y :: l', memo)
      | _ => Some (x :: l, memo)
      end
  end.

Fixpoint sort_by (l : list A) (memo : M) : option (list A * M) :=
  match l with
  | [] => Some ([], memo)
  | x :: l => let? (l, memo) := sort_by l memo in insert_by x l memo
  end.
End SortBy.

(** [sort_by_key] and [sort_unstable_by], with a comparison that keeps none. *)
Fixpoint insert_pure {A} (compare : A -> A -> comparison) (x : A) (l : list A) : list A :=
  match l with
  | [] => [x]
  | y :: l' => match compare x y with Gt => y :: insert_pure compare x l' | _ => x :: l end
  end.
Definition sort_pure {A} (compare : A -> A -> comparison) (l : list A) : list A :=
  fold_right (insert_pure compare) [] l.

(** ** Tuplize keys *)

Record TuplizeKeys := mkKeys { head : list nat; src_start : list nat; src : list nat }.
Record TuplizeFrame := mkFrame { left : nat; right : nat; next : nat }.
Abbreviation Memo := (gmap (nat * nat) comparison).

Definition head_of (self : TuplizeKeys) (key : nat) : nat := List.nth key (head self) 0%nat.

Definition sources (self : TuplizeKeys) (key : nat) : list nat :=
  let start := List.nth key (src_start self) 0%nat in
  firstn (List.nth (S key) (src_start self) 0 - start)%nat (skipn start (src self)).

Definition shallow_cmp (self : TuplizeKeys) (left right : nat) (memo : Memo) : option comparison :=
  if (left =? right)%nat then Some Eq
  else
    match Nat.compare (head_of self left) (head_of self right) with
    | Eq => memo !! (left, right)
    | order => Some order
    end.

(** The next pair of sources of a frame, or its verdict when there is none. *)
Definition next_sources (self : TuplizeKeys) (frame : TuplizeFrame) : comparison + TuplizeFrame :=
  let left_src := sources self (left frame) in
  let right_src := sources self (right frame) in
  match nth_error left_src (next frame), nth_error right_src (next frame) with
  | Some a, Some b => inr (mkFrame a b 0)
  | _, _ => inl (Nat.compare (List.length left_src) (List.length right_src))
  end.

(** The head of [stack] is its top; [None] is an empty stack or fuel. *)
Fixpoint cmp_loop (self : TuplizeKeys) (fuel : nat) (stack : list TuplizeFrame) (settled : option comparison)
    (memo : Memo) : option (comparison * Memo) :=
  match fuel, stack with
  | S fuel, frame :: rest =>
      let '(frame, decided, walked) :=
        match settled with
        | Some Eq => (mkFrame (left frame) (right frame) (S (next frame)), None, true)
        | Some order => (frame, Some order, true)
        | None => (frame, shallow_cmp self (left frame) (right frame) memo, false)
        end in
      match (match decided with Some order => inl order | None => next_sources self frame end) with
      | inr pushed => cmp_loop self fuel (pushed :: frame :: rest) None memo
      | inl order =>
          let memo :=
            if walked : bool
            then <[(right frame, left frame) := CompOpp order]> (<[(left frame, right frame) := order]> memo)
            else memo in
          match rest with
          | [] => Some (order, memo)
          | _ => cmp_loop self fuel rest (Some order) memo
          end
      end
  | _, _ => None
  end.

(** Two iterations per pair of sources that no memo settles, and one. *)
Definition pair_cost (self : TuplizeKeys) (memo : Memo) (p : nat * nat) : nat :=
  match memo !! p with Some _ => 0 | None => 2 * List.length (sources self (fst p)) end%nat.
Definition cmp_fuel (self : TuplizeKeys) (memo : Memo) : nat :=
  let keys := seq 0 (List.length (head self)) in
  S (sum_list_with (pair_cost self memo) (list_prod keys keys)).

Definition cmp (self : TuplizeKeys) (left right : nat) (memo : Memo) : option (comparison * Memo) :=
  cmp_loop self (cmp_fuel self memo) [mkFrame left right 0] None memo.

(** *** The tables *)

(** Toposort position of every node by id. *)
Definition node_index (nodes : list UOp) : gmap Z nat :=
  list_to_map (imap (fun position node => (uid node, position)) nodes).

(** The interner of heads: numbers in order of appearance. *)
Definition intern (head : TuplizeHead) (interned : list TuplizeHead) : nat * list TuplizeHead :=
  match list_find (eq head) interned with
  | Some (i, _) => (i, interned)
  | None => (List.length interned, interned ++ [head])
  end.

Record Tables := mkTables {
  t_interned : list TuplizeHead; t_head : list nat; t_start : list nat; t_src : list nat; t_lanes : list nat
}.

Section Tuplize.
Context {L : LibM} (origin_path : Z -> string) (hash_order : list (TuplizeHead * nat) -> list (TuplizeHead * nat)).

(** The lanes of a VCONST, the entries after the nodes. *)
Fixpoint push_lanes (len : nat) (dtype : DTypeKey) (values : list ConstValue) (t : Tables) : Tables :=
  match values with
  | [] => t
  | value :: values =>
      let '(id, interned) := intern (61, ArgKey.Const (const_key value), dtype) (t_interned t) in
      push_lanes len dtype values
        (mkTables interned (t_head t) (t_start t) (t_src t ++ [len + List.length (t_lanes t)]%nat) (t_lanes t ++ [id]))
  end.

Definition push_node (len : nat) (index : gmap Z nat) (t : Tables) (node : UOp) : option Tables :=
  let? t :=
    match uop_op node with
    | Op.VConst _ values =>
        let dtype := dtype_key (DType.Scalar (DType.base (uop_dtype node))) in
        let '(id, interned) := intern (16, ArgKey.None, dtype) (t_interned t) in
        Some (push_lanes len dtype values (mkTables interned (t_head t ++ [id]) (t_start t) (t_src t) (t_lanes t)))
    | op =>
        let '(id, interned) := intern (op_value op, arg_key origin_path op, dtype_key (uop_dtype node)) (t_interned t) in
        let? positions := collect (fun child => index !! uid child) (Op.children op) in
        Some (mkTables interned (t_head t ++ [id]) (t_start t) (t_src t ++ positions) (t_lanes t))
    end in
  Some (mkTables (t_interned t) (t_head t) (t_start t ++ [List.length (t_src t)]) (t_src t) (t_lanes t)).

Fixpoint push_nodes (len : nat) (index : gmap Z nat) (t : Tables) (nodes : list UOp) : option Tables :=
  match nodes with
  | [] => Some t
  | node :: nodes => let? t := push_node len index t node in push_nodes len index t nodes
  end.

(** Position of every head number in ascending order of heads. *)
Definition head_ranks (interned : list TuplizeHead) : list nat :=
  let heads := sort_pure (fun a b => TuplizeKey.cmp (fst a) (fst b)) (hash_order (imap (fun i h => (h, i)) interned)) in
  fold_left (fun rank '(position, (_, id)) => <[id := position]> rank)
    (imap (fun position h => (position, h)) heads) (replicate (List.length heads) 0%nat).

Definition compute_tuplize (nodes : list UOp) (index : gmap Z nat) : option TuplizeKeys :=
  let? t := push_nodes (List.length nodes) index (mkTables [] [] [0%nat] [] []) nodes in
  let rank := head_ranks (t_interned t) in
  Some (mkKeys (map (fun id => List.nth id rank 0%nat) (t_head t ++ t_lanes t))
          (t_start t ++ replicate (List.length nodes + List.length (t_lanes t) + 1 - List.length (t_start t)) (List.length (t_src t)))
          (t_src t)).

(** Position of every element of a permutation of [0..n]. *)
Definition positions (n : nat) (order : list nat) : list nat :=
  fold_left (fun rank '(position, node) => <[node := position]> rank) (imap pair order) (replicate n 0%nat).

Definition tuplize_ranks (nodes : list UOp) (index : gmap Z nat) : option (list nat) :=
  let? keys := compute_tuplize nodes index in
  let? (order, _) := sort_by (cmp keys) (seq 0 (List.length nodes)) ∅ in
  Some (positions (List.length nodes) order).

(** ** The ideal order *)

(** [None]: the count overflows [u64] or [i64], a panic. *)
Definition trip_count (range : UOp) : option Z :=
  match snd (vmin_vmax range) with
  | ConstValue.Int v => if v <? 2 ^ 63 - 1 then Some (wrap_u 64 (v + 1)) else None
  | ConstValue.UInt v => if v <? 2 ^ 64 - 1 then Some (v + 1) else None
  | _ => Some 1
  end.

Fixpoint product (counts : list Z) : option Z :=
  match counts with
  | [] => Some 1
  | c :: counts => let? p := product counts in if p * c <? 2 ^ 64 then Some (p * c) else None
  end.

Definition run_count (uop : UOp) : option Z :=
  let in_scope := in_scope_ranges uop in
  let? counts := collect trip_count (List.filter (fun range => existsb (Z.eqb (uid range)) in_scope) (ranges uop)) in
  product (rev counts).

Definition priority (uop : UOp) : Z * option Z :=
  match uop_op uop with
  | Op.Param _ _ arg => (-20, Some (wrap_s 64 (ParamArg.slot arg)))
  | Op.Buffer _ _ arg => if bool_decide (ParamArg.addrspace arg = Some Local) then (-17, None) else (-18, None)
  | Op.Load _ _ _ _ => (-1, None)
  | Op.Store _ _ _ _ => (1, None)
  | Op.Range _ _ _ _ _ => (5, None)
  | Op.End _ _ _ => (-5, None)
  | _ => (0, None)
  end.

(** Run count, priority, extra, tuplize rank. *)
Definition SortKey : Type := Z * Z * option Z * Z.
Definition sort_key (u : UOp) (rank : nat) : option SortKey :=
  let '(p, extra) := priority u in
  let? count := run_count u in
  Some (count, p, extra, Z.of_nat rank).

Definition ideal_order (lst : list UOp) (index : gmap Z nat) : option (list nat) :=
  let? ranks := tuplize_ranks lst index in
  let? sort_keys := collect (fun '(u, rank) => sort_key u rank) (combine lst ranks) in
  let dummy : SortKey := (0, 0, None, 0) in
  let sorted := sort_pure (fun a b => TuplizeKey.cmp (List.nth a sort_keys dummy) (List.nth b sort_keys dummy))
                  (seq 0 (List.length lst)) in
  Some (positions (List.length lst) sorted).

(** ** Heap toposort *)

(** [BinaryHeap] of (key, node): [pop] takes a greatest element. *)
Definition entry_leb (a b : nat * nat) : bool :=
  (fst a <? fst b)%nat || ((fst a =? fst b)%nat && (snd a <=? snd b)%nat).

Fixpoint pop_max (best : nat * nat) (heap : list (nat * nat)) : (nat * nat) * list (nat * nat) :=
  match heap with
  | [] => (best, [])
  | e :: heap =>
      if entry_leb e best then let '(m, rest) := pop_max best heap in (m, e :: rest)
      else let '(m, rest) := pop_max e heap in (m, best :: rest)
  end.

Definition heap_pop (heap : list (nat * nat)) : option ((nat * nat) * list (nat * nat)) :=
  match heap with [] => None | e :: heap => Some (pop_max e heap) end.

Definition count_uses (lst : list UOp) (index : gmap Z nat) : option (list nat) :=
  let? used := collect (fun s => index !! uid s) (concat (map children lst)) in
  Some (fold_left (fun out_degree i => <[i := S (List.nth i out_degree 0)]> out_degree) used
          (replicate (List.length lst) 0%nat))%nat.

(** Releasing the sources of a node. *)
Fixpoint release_sources (nkey : list nat) (index : gmap Z nat) (visited : list bool) (srcs : list UOp)
    (out_degree : list nat) (heap : list (nat * nat)) : option (list nat * list (nat * nat)) :=
  match srcs with
  | [] => Some (out_degree, heap)
  | v :: srcs =>
      let? source := index !! uid v in
      let deg := pred (List.nth source out_degree 0%nat) in
      let heap :=
        if (deg =? 0)%nat && negb (List.nth source visited false)
        then (List.nth source nkey 0%nat, source) :: heap else heap in
      release_sources nkey index visited srcs (<[source := deg]> out_degree) heap
  end.

(** The nodes in reverse; [None] is a missing index or fuel. *)
Fixpoint heap_loop (lst : list UOp) (index : gmap Z nat) (nkey : list nat) (fuel : nat)
    (heap : list (nat * nat)) (visited : list bool) (out_degree : list nat) (newlst : list UOp) : option (list UOp) :=
  match fuel with
  | O => None
  | S fuel =>
      match heap_pop heap with
      | None => Some newlst
      | Some ((_, node), heap) =>
          if List.nth node visited false then heap_loop lst index nkey fuel heap visited out_degree newlst
          else
            let visited := <[node := true]> visited in
            let? u := lst !! node in
            let? (out_degree, heap) := release_sources nkey index visited (children u) out_degree heap in
            heap_loop lst index nkey fuel heap visited out_degree (newlst ++ [u])
      end
  end.

(** A pop per node and one that finds the heap empty. *)
Definition linearize (sink : UOp) : option (list UOp) :=
  let lst := toposort sink in
  match lst with
  | [] => Some [sink]
  | _ =>
      let index := node_index lst in
      let? out_degree := count_uses lst index in
      let? nkey := ideal_order lst index in
      let? root := index !! uid sink in
      let? newlst := heap_loop lst index nkey (S (List.length lst)) [(List.nth root nkey 0%nat, root)]
                       (replicate (List.length lst) false) out_degree [] in
      Some (rev newlst)
  end.
End Tuplize.
End Linearize.
