(* ===== verification/LinearizeKeys.v ===== *)
(** * The comparison of tuplize keys

    The explicit-stack comparison with its memo returns the lexicographic
    comparison of (head, sources) within its fuel, leaves a memo that is right
    again, and the order it computes is a total preorder. *)

From stdpp Require Import gmap.
From S2P Require Import Prelude F64 DType Cast ConstVal Ops Eval Payload UOp Traverse CachedProperty Properties RangeEval TuplizeKey Linearize.
Import TuplizeKey.
Import Linearize.

(** ** The specification *)

(** Sources in turn, then the number of them. *)
Fixpoint zip_cmp (f : nat -> nat -> comparison) (l r : list nat) : comparison :=
  match l, r with
  | a :: l, b :: r => f a b >>c zip_cmp f l r
  | _, _ => Nat.compare (List.length l) (List.length r)
  end.

Fixpoint key_cmp_at (ks : TuplizeKeys) (depth : nat) (l r : nat) : comparison :=
  match depth with
  | O => Eq
  | S depth =>
      if (l =? r)%nat then Eq
      else Nat.compare (head_of ks l) (head_of ks r) >>c zip_cmp (key_cmp_at ks depth) (sources ks l) (sources ks r)
  end.

(** Lexicographic on (head, sources): no path is longer than the table. *)
Definition key_cmp (ks : TuplizeKeys) (l r : nat) : comparison := key_cmp_at ks (S (List.length (head ks))) l r.

(** Tables of a graph: every entry's sources are entries of lesser rank. *)
Record ranked (ks : TuplizeKeys) (rank : nat -> nat) : Prop := {
  rank_sources k s : In s (sources ks k) -> (rank s < rank k)%nat /\ (s < List.length (head ks))%nat;
  rank_bound k : (rank k <= List.length (head ks))%nat
}.

(** A memo that tells the truth. *)
Definition truthful (ks : TuplizeKeys) (memo : Memo) : Prop :=
  forall l r o, memo !! (l, r) = Some o -> o = key_cmp ks l r.

(** ** Comparisons *)

Lemma then_opp c d : CompOpp (c >>c d) = CompOpp c >>c CompOpp d.
Proof. now destruct c. Qed.

Lemma zip_opp f g l : forall r, (forall a b, In a l -> g b a = CompOpp (f a b)) -> zip_cmp g r l = CompOpp (zip_cmp f l r).
Proof.
  induction l as [| a l IH]; intros [| b r] H; cbn [zip_cmp]; [apply Nat.compare_antisym.. |].
  rewrite then_opp, (H a b) by now left. f_equal. apply IH. intros. apply H. now right.
Qed.

Lemma zip_ext f g l : forall r, (forall a b, In a l -> f a b = g a b) -> zip_cmp f l r = zip_cmp g l r.
Proof.
  induction l as [| a l IH]; intros [| b r] H; try reflexivity. cbn [zip_cmp]. rewrite (H a b) by now left.
  f_equal. apply IH. intros. apply H. now right.
Qed.

(** What a preorder needs of its left argument. *)
Definition transitive_at {A} (f : A -> A -> comparison) (a : A) : Prop :=
  forall b c, (f a b = Eq -> f a c = f b c) /\ (f a b = Lt -> f b c <> Gt -> f a c = Lt).

Lemma zip_transitive f l : (forall a, In a l -> transitive_at f a) -> transitive_at (zip_cmp f) l.
Proof.
  induction l as [| a l IH]; intros H; [intros [| b r] [| c t]; cbn; split; congruence |].
  intros [| b r] [| c t]; try (cbn; split; congruence). cbn [zip_cmp].
  destruct (H a (or_introl eq_refl) b c) as [He Hl]. destruct (IH (fun x Hx => H x (or_intror Hx)) r t) as [Ie Il].
  destruct (f a b) eqn:E; cbn [then_cmp].
  - rewrite (He eq_refl). split; [intros Z; now rewrite (Ie Z) |]. intros Z Hn. destruct (f b c) eqn:Ebc; cbn [then_cmp] in *; [now apply Il | reflexivity | congruence].
  - split; [discriminate |]. intros _ Hn. rewrite Hl; [reflexivity | reflexivity |]. now destruct (f b c).
  - split; discriminate.
Qed.

Record preorder {A} (f : A -> A -> comparison) : Prop := {
  po_opp a b : f b a = CompOpp (f a b);
  po_trans a : transitive_at f a
}.

Section Comparison.
Context (ks : TuplizeKeys) (rank : nat -> nat) (Hr : ranked ks rank).
#[local] Set Default Proof Using "All".
Abbreviation N := (List.length (head ks)).
Abbreviation src := (sources ks).

Lemma key_cmp_at_opp n : forall l r, key_cmp_at ks n r l = CompOpp (key_cmp_at ks n l r).
Proof using Type.
  induction n as [| n IH]; intros l r; [reflexivity |]. cbn [key_cmp_at]. rewrite (Nat.eqb_sym r l).
  destruct (l =? r)%nat; [reflexivity |]. rewrite then_opp, Nat.compare_antisym. f_equal. apply zip_opp. auto.
Qed.

Lemma key_cmp_opp l r : key_cmp ks r l = CompOpp (key_cmp ks l r).
Proof using Type. apply key_cmp_at_opp. Qed.

Lemma key_cmp_at_enough n : forall l r, (rank l < n)%nat -> key_cmp_at ks n l r = key_cmp_at ks (S n) l r.
Proof.
  induction n as [| n IH]; intros l r L; [lia |]. cbn [key_cmp_at]. destruct (l =? r)%nat; [reflexivity |].
  f_equal. apply zip_ext. intros a b Ha. apply IH. destruct (rank_sources ks rank Hr l a Ha). lia.
Qed.

Lemma key_cmp_at_any n l r : (rank l < n)%nat -> (n <= S N)%nat -> key_cmp_at ks n l r = key_cmp ks l r.
Proof.
  intros L B. unfold key_cmp. remember (S N - n)%nat as d eqn:D. revert n L B D. induction d as [| d IH]; intros n L B D.
  - now replace (S N) with n by lia.
  - rewrite key_cmp_at_enough by exact L. apply IH; lia.
Qed.

(** The defining equation. *)
Lemma key_cmp_eq l r : l <> r -> key_cmp ks l r = Nat.compare (head_of ks l) (head_of ks r) >>c zip_cmp (key_cmp ks) (src l) (src r).
Proof.
  intros Nlr. unfold key_cmp at 1. cbn [key_cmp_at]. destruct (Nat.eqb_spec l r); [contradiction |]. f_equal.
  apply zip_ext. intros a b Ha. destruct (rank_sources ks rank Hr l a Ha). pose proof (rank_bound ks rank Hr l). apply key_cmp_at_any; lia.
Qed.

Lemma key_cmp_refl l : key_cmp ks l l = Eq.
Proof using Type. unfold key_cmp. cbn [key_cmp_at]. now rewrite Nat.eqb_refl. Qed.

(** ** The machine *)

Definition memoize (l r : nat) (o : comparison) (memo : Memo) : Memo := <[(r, l) := CompOpp o]> (<[(l, r) := o]> memo).

Definition resume (fuel : nat) (rest : list TuplizeFrame) (o : comparison) (memo : Memo) : option (comparison * Memo) :=
  match rest with [] => Some (o, memo) | _ => cmp_loop ks fuel rest (Some o) memo end.

Definition advance (fuel l r i : nat) (rest : list TuplizeFrame) (walked : bool) (memo : Memo) : option (comparison * Memo) :=
  match next_sources ks (mkFrame l r i) with
  | inr pushed => cmp_loop ks fuel (pushed :: mkFrame l r i :: rest) None memo
  | inl order => resume fuel rest order (if walked then memoize l r order memo else memo)
  end.

Lemma loop_start fuel l r i rest memo :
  cmp_loop ks (S fuel) (mkFrame l r i :: rest) None memo =
  match shallow_cmp ks l r memo with
  | Some o => resume fuel rest o memo
  | None => advance fuel l r i rest false memo
  end.
Proof using Type. cbn [cmp_loop left right next]. destruct (shallow_cmp ks l r memo); [reflexivity |]. unfold advance. now destruct (next_sources _ _). Qed.

Lemma loop_return fuel l r i rest o memo :
  cmp_loop ks (S fuel) (mkFrame l r i :: rest) (Some o) memo =
  match o with
  | Eq => advance fuel l r (S i) rest true memo
  | _ => resume fuel rest o (memoize l r o memo)
  end.
Proof using Type. cbn [cmp_loop left right next]. destruct o; [| reflexivity..]. unfold advance. now destruct (next_sources _ _). Qed.

Lemma memoize_truthful l r o memo : truthful ks memo -> o = key_cmp ks l r -> truthful ks (memoize l r o memo).
Proof using Type.
  intros Hm -> a b c. unfold memoize. rewrite !lookup_insert_Some. intros [[[= <- <-] <-] | [_ [[[= <- <-] <-] | [_ H]]]];
    [symmetry; apply key_cmp_opp | reflexivity | exact (Hm a b c H)].
Qed.

Abbreviation potential := (fun memo : Memo => sum_list_with (pair_cost ks memo) (list_prod (seq 0 N) (seq 0 N))).

Lemma sum_with_drop {A} (f g : A -> nat) (c : nat) l q : (forall p, (f p <= g p)%nat) -> In q l -> (f q + c <= g q)%nat ->
  (sum_list_with f l + c <= sum_list_with g l)%nat.
Proof using Type.
  intros Hle Hq Hc. induction l as [| p l IH]; [destruct Hq |]. cbn [sum_list_with].
  assert (Mono : (sum_list_with f l <= sum_list_with g l)%nat) by (clear - Hle; induction l as [| a l IH]; cbn; [lia | specialize (Hle a); lia]).
  destruct Hq as [-> | Hq]; [lia | specialize (IH Hq); specialize (Hle p); lia].
Qed.

Lemma potential_drop l r o memo : (l < N)%nat -> (r < N)%nat -> memo !! (l, r) = None ->
  (potential (memoize l r o memo) + 2 * List.length (src l) <= potential memo)%nat.
Proof using Type.
  intros Ll Lr E. apply (sum_with_drop _ _ _ _ (l, r)).
  - intros p. unfold pair_cost, memoize. destruct (decide (p = (r, l))) as [-> |]; [rewrite lookup_insert_eq; lia |].
    rewrite lookup_insert_ne by congruence. destruct (decide (p = (l, r))) as [-> |]; [rewrite lookup_insert_eq; lia |].
    rewrite lookup_insert_ne by congruence. lia.
  - apply in_prod; apply in_seq; lia.
  - unfold pair_cost. rewrite E. cbn [fst]. unfold memoize. destruct (decide (l = r)) as [-> |].
    + rewrite lookup_insert_eq. lia.
    + rewrite lookup_insert_ne by congruence. rewrite lookup_insert_eq. lia.
Qed.

(** Pairs a comparison of [l] with [r] may settle. *)
Definition touched (l r : nat) (p : nat * nat) : Prop :=
  (rank (fst p) <= rank l /\ rank (snd p) <= rank r)%nat \/ (rank (fst p) <= rank r /\ rank (snd p) <= rank l)%nat.

Definition only_touched (l r : nat) (memo memo' : Memo) : Prop := forall p : nat * nat, memo !! p = None -> memo' !! p <> None -> touched l r p.

(** What a comparison of [l] and [r] does. *)
Definition runs (l r : nat) : Prop := forall memo, truthful ks memo ->
  exists k memo', truthful ks memo' /\ (k + potential memo' <= S (potential memo))%nat /\ only_touched l r memo memo' /\
    forall fuel rest, cmp_loop ks (k + fuel) (mkFrame l r 0 :: rest) None memo = resume fuel rest (key_cmp ks l r) memo'.

Lemma next_sources_at l r i ls rs : skipn i (src l) = ls -> skipn i (src r) = rs ->
  (i <= List.length (src l))%nat -> (i <= List.length (src r))%nat ->
  next_sources ks (mkFrame l r i) =
  match ls, rs with a :: _, b :: _ => inr (mkFrame a b 0) | _, _ => inl (Nat.compare (List.length ls) (List.length rs)) end.
Proof using Type.
  intros <- <- Li Lr. unfold next_sources. cbn [left right next].
  assert (E : forall l : list nat, nth_error l i = match skipn i l with a :: _ => Some a | [] => None end).
  { clear. induction i as [| i IH]; intros [| a l]; try reflexivity. apply IH. }
  assert (C : Nat.compare (List.length (src l)) (List.length (src r)) = Nat.compare (List.length (skipn i (src l))) (List.length (skipn i (src r)))).
  { rewrite !length_skipn. destruct (Nat.compare_spec (List.length (src l)) (List.length (src r)));
      symmetry; [apply Nat.compare_eq_iff | apply Nat.compare_lt_iff | apply Nat.compare_gt_iff]; lia. }
  rewrite !E, C. now destruct (skipn i (src l)), (skipn i (src r)).
Qed.

(** From the [i]th pair of sources on. *)
Lemma walk l r : (forall a b, In a (src l) -> In b (src r) -> runs a b) -> forall ls rs i memo,
  skipn i (src l) = ls -> skipn i (src r) = rs -> (i <= List.length (src l))%nat -> (i <= List.length (src r))%nat -> truthful ks memo ->
  exists k memo', truthful ks memo' /\ (k + potential memo' <= potential memo + 2 * List.length ls)%nat /\
    (forall p, memo !! p = None -> memo' !! p <> None -> exists a b, In a (src l) /\ In b (src r) /\ touched a b p) /\
    forall fuel rest walked, advance (k + fuel) l r i rest walked memo =
      let o := zip_cmp (key_cmp ks) ls rs in
      resume fuel rest o (if walked || (match ls, rs with _ :: _, _ :: _ => true | _, _ => false end) then memoize l r o memo' else memo').
Proof using Type.
  intros Hsub ls. induction ls as [| a ls IH]; intros rs i memo El Er Li Lr Hm;
    pose proof (next_sources_at l r i _ rs El Er Li Lr) as Next.
  { exists 0%nat, memo. split; [exact Hm |]. split; [lia |]. split; [congruence |]. intros fuel rest walked.
    unfold advance. rewrite Next. cbn. now rewrite orb_false_r. }
  destruct rs as [| b rs].
  { exists 0%nat, memo. split; [exact Hm |]. split; [cbn; lia |]. split; [congruence |]. intros fuel rest walked.
    unfold advance. rewrite Next. cbn. now rewrite orb_false_r. }
  assert (Ia : In a (src l)) by (rewrite <- (firstn_skipn i (src l)), El; apply in_app_iff; right; now left).
  assert (Ib : In b (src r)) by (rewrite <- (firstn_skipn i (src r)), Er; apply in_app_iff; right; now left).
  assert (SL : forall x : list nat, skipn (S i) x = tl (skipn i x)).
  { clear. induction i as [| i IH]; intros [| y x]; try reflexivity. apply IH. }
  assert (Pl : (S i <= List.length (src l))%nat) by (apply (f_equal (@List.length nat)) in El; rewrite length_skipn in El; cbn in El; lia).
  assert (Pr : (S i <= List.length (src r))%nat) by (apply (f_equal (@List.length nat)) in Er; rewrite length_skipn in Er; cbn in Er; lia).
  destruct (Hsub a b Ia Ib memo Hm) as (k1 & memo1 & Hm1 & B1 & T1 & R1).
  destruct (key_cmp ks a b) eqn:Eab.
  - destruct (IH rs (S i) memo1) as (k2 & memo2 & Hm2 & B2 & T2 & R2); [now rewrite SL, El | now rewrite SL, Er | exact Pl | exact Pr | exact Hm1 |].
    exists (k1 + S k2)%nat, memo2. split; [exact Hm2 |]. split; [cbn [List.length]; lia |]. split.
    + intros p Hp Hp2. destruct (memo1 !! p) eqn:E1; [exists a, b; split; [exact Ia |]; split; [exact Ib |]; apply (T1 p Hp); congruence |].
      exact (T2 p E1 Hp2).
    + intros fuel rest walked. unfold advance at 1. rewrite Next. replace (k1 + S k2 + fuel)%nat with (k1 + (S (k2 + fuel)))%nat by lia.
      rewrite R1. unfold resume at 1. rewrite loop_return, R2. cbn [zip_cmp]. rewrite Eab. cbn [then_cmp orb]. now rewrite orb_true_r.
  - exists (S k1), memo1. split; [exact Hm1 |]. split; [cbn [List.length]; lia |]. split.
    + intros p Hp Hp1. exists a, b. split; [exact Ia |]. split; [exact Ib | now apply T1].
    + intros fuel rest walked. unfold advance. rewrite Next. replace (S k1 + fuel)%nat with (k1 + S fuel)%nat by lia.
      rewrite R1. unfold resume at 1. rewrite loop_return. cbn [zip_cmp]. rewrite Eab. cbn [then_cmp]. now rewrite orb_true_r.
  - exists (S k1), memo1. split; [exact Hm1 |]. split; [cbn [List.length]; lia |]. split.
    + intros p Hp Hp1. exists a, b. split; [exact Ia |]. split; [exact Ib | now apply T1].
    + intros fuel rest walked. unfold advance. rewrite Next. replace (S k1 + fuel)%nat with (k1 + S fuel)%nat by lia.
      rewrite R1. unfold resume at 1. rewrite loop_return. cbn [zip_cmp]. rewrite Eab. cbn [then_cmp]. now rewrite orb_true_r.
Qed.

Lemma touched_down l r a b p : In a (src l) -> In b (src r) -> touched a b p -> touched l r p /\ p <> (l, r).
Proof.
  intros Ha Hb. destruct (rank_sources ks rank Hr l a Ha) as [L1 _], (rank_sources ks rank Hr r b Hb) as [L2 _].
  unfold touched. intros H. split; [lia |]. intros ->. cbn [fst snd] in H. lia.
Qed.

Lemma all_runs m : forall l r, (rank l < m)%nat -> (l < N)%nat -> (r < N)%nat -> runs l r.
Proof.
  induction m as [| m IH]; intros l r Lm Ll Lr memo Hm; [lia |].
  assert (Sub : forall a b, In a (src l) -> In b (src r) -> runs a b).
  { intros a b Ha Hb. destruct (rank_sources ks rank Hr l a Ha), (rank_sources ks rank Hr r b Hb). apply IH; lia. }
  destruct (shallow_cmp ks l r memo) as [o |] eqn:E.
  { exists 1%nat, memo. split; [exact Hm |]. split; [lia |]. split; [intros p H1 H2; contradiction |]. intros fuel rest.
    cbn [Nat.add]. rewrite loop_start, E. f_equal. unfold shallow_cmp in E. destruct (Nat.eqb_spec l r) as [-> | Nlr].
    - injection E as <-. now rewrite key_cmp_refl.
    - rewrite (key_cmp_eq l r Nlr). destruct (Nat.compare _ _) eqn:C; [| injection E as <-; reflexivity..].
      rewrite (Hm l r o E), (key_cmp_eq l r Nlr), C. reflexivity. }
  assert (H : l <> r /\ Nat.compare (head_of ks l) (head_of ks r) = Eq /\ memo !! (l, r) = None).
  { unfold shallow_cmp in E. destruct (Nat.eqb_spec l r); [discriminate |]. destruct (Nat.compare _ _); try discriminate. now split_and!. }
  destruct H as (Nlr & C & Hn).
  assert (K : key_cmp ks l r = zip_cmp (key_cmp ks) (src l) (src r)) by (rewrite (key_cmp_eq l r Nlr), C; reflexivity).
  destruct (match src l, src r with _ :: _, _ :: _ => true | _, _ => false end) eqn:Both.
  2: { exists 1%nat, memo. split; [exact Hm |]. split; [lia |]. split; [intros p H1 H2; contradiction |]. intros fuel rest. cbn [Nat.add].
    rewrite loop_start, E, K. unfold advance.
    rewrite (next_sources_at l r 0 (src l) (src r) eq_refl eq_refl (Nat.le_0_l _) (Nat.le_0_l _)).
    destruct (src l), (src r); try discriminate Both; reflexivity. }
  destruct (walk l r Sub (src l) (src r) 0 memo eq_refl eq_refl (Nat.le_0_l _) (Nat.le_0_l _) Hm) as (k & memo2 & Hm2 & B & T & R).
  assert (Fresh : memo2 !! (l, r) = None).
  { destruct (memo2 !! (l, r)) eqn:F; [| reflexivity]. exfalso. destruct (T (l, r) Hn) as (a & b & Ha & Hb & Ht); [congruence |].
    now destruct (touched_down l r a b (l, r) Ha Hb Ht). }
  exists (S k), (memoize l r (key_cmp ks l r) memo2). split; [now apply memoize_truthful |]. split; [| split].
  - pose proof (potential_drop l r (key_cmp ks l r) memo2 Ll Lr Fresh). lia.
  - intros p H1. unfold memoize. destruct (decide (p = (r, l))) as [-> |]; [intros _; right; cbn; lia |]. rewrite lookup_insert_ne by congruence.
    destruct (decide (p = (l, r))) as [-> |]; [intros _; left; cbn; lia |]. rewrite lookup_insert_ne by congruence.
    intros H2. destruct (T p H1 H2) as (a & b & Ha & Hb & Ht). now apply (touched_down l r a b).
  - intros fuel rest. cbn [Nat.add]. rewrite loop_start, E, R. cbv zeta. cbn [orb]. now rewrite Both, <- K.
Qed.

Lemma cmp_runs l r memo : (l < N)%nat -> (r < N)%nat -> truthful ks memo ->
  exists memo', cmp ks l r memo = Some (key_cmp ks l r, memo') /\ truthful ks memo'.
Proof.
  intros Ll Lr Hm. destruct (all_runs (S (rank l)) l r (Nat.lt_succ_diag_r _) Ll Lr memo Hm) as (k & memo' & Hm' & B & _ & R).
  exists memo'. split; [| exact Hm']. unfold cmp, cmp_fuel. replace (S (potential memo)) with (k + (S (potential memo) - k))%nat by lia.
  apply R.
Qed.

Lemma key_cmp_transitive m : forall l, (rank l < m)%nat -> transitive_at (key_cmp ks) l.
Proof.
  induction m as [| m IH]; intros a La b c; [lia |].
  destruct (decide (a = b)) as [<- | Nab]; [rewrite key_cmp_refl; split; congruence |].
  destruct (decide (b = c)) as [<- | Nbc]; [rewrite key_cmp_refl; split; congruence |].
  destruct (decide (a = c)) as [<- | Nac].
  { rewrite key_cmp_refl, (key_cmp_opp a b). split; destruct (key_cmp ks a b); cbn; congruence. }
  rewrite !key_cmp_eq by assumption.
  assert (Z : transitive_at (zip_cmp (key_cmp ks)) (src a)).
  { apply zip_transitive. intros x Hx. apply IH. destruct (rank_sources ks rank Hr a x Hx). lia. }
  destruct (Z (src b) (src c)) as [Ze Zl]. clear Z.
  destruct (Nat.compare_spec (head_of ks a) (head_of ks b)) as [Eab | Eab | Eab]; cbn [then_cmp]; [| split; [discriminate |] | split; discriminate].
  - rewrite Eab. destruct (Nat.compare (head_of ks b) (head_of ks c)); cbn [then_cmp]; [now split | split; congruence..].
  - intros _ Hn. destruct (Nat.compare_spec (head_of ks b) (head_of ks c)) as [Ebc | Ebc | Ebc]; cbn [then_cmp] in Hn; [| | congruence];
      (destruct (Nat.compare_spec (head_of ks a) (head_of ks c)); [lia | reflexivity | lia]).
Qed.
End Comparison.

(** The same facts, as the sort uses them. *)
Lemma tuplize_cmp_laws ks rank : ranked ks rank ->
  (forall l r memo, (l < List.length (head ks))%nat -> (r < List.length (head ks))%nat -> truthful ks memo ->
     exists memo', cmp ks l r memo = Some (key_cmp ks l r, memo') /\ truthful ks memo') /\ preorder (key_cmp ks).
Proof.
  intros Hr. split; [intros l r memo; now apply (cmp_runs ks rank Hr) |]. split; [intros a b; apply key_cmp_opp |].
  intros a. apply (key_cmp_transitive ks rank Hr (S (rank a))). lia.
Qed.

(** C1: The comparison of tuplize keys.  With any memo that tells the truth the
    explicit-stack comparison returns, within its fuel, the lexicographic
    comparison of (head, sources), and its memo tells the truth again; that
    comparison is a total preorder. *)
Theorem tuplize_cmp_correct ks rank : ranked ks rank ->
  (forall l r memo, (l < List.length (head ks))%nat -> (r < List.length (head ks))%nat -> truthful ks memo ->
     exists memo', cmp ks l r memo = Some (key_cmp ks l r, memo') /\ truthful ks memo') /\
  (forall a b, key_cmp ks b a = CompOpp (key_cmp ks a b)) /\
  (forall a, transitive_at (key_cmp ks) a).
Proof. intros Hr. destruct (tuplize_cmp_laws ks rank Hr) as [Hc [Ho Ht]]. now split_and!. Qed.
