(* ===== verification/LinearizeTables.v ===== *)
(** * The tables of tuplize keys

    On a list of nodes that holds their sources before them the tables are
    built, the sources of an entry are entries before it or constant lanes, so
    every comparison is settled and the sort by tuplize keys returns the stable
    permutation of that order. *)

From stdpp Require Import gmap.
From S2P Require Import Prelude F64 DType Cast ConstVal Ops Eval Payload UOp Traverse CachedProperty Properties RangeEval TuplizeKey Linearize LinearizeKeys.
Import TuplizeKey.
Import Linearize.

(** ** Positions *)

(** Every node has an id of its own and its sources before it. *)
Record sources_first (lst : list UOp) : Prop := {
  sf_nodup : List.NoDup (map uid lst);
  sf_sources l1 n l2 c : lst = l1 ++ n :: l2 -> In c (children n) -> In c l1
}.

Lemma toposort_sources_first u : interned u -> sources_first (toposort u).
Proof.
  intros Hi. destruct (toposort_topological u Hi) as [H1 _ H3]. split; [exact H1 |].
  intros l1 n l2 c E Hc. exact (H3 l1 n l2 c E Hc eq_refl).
Qed.

Lemma node_index_spec lst i n : List.NoDup (map uid lst) -> lst !! i = Some n -> node_index lst !! uid n = Some i.
Proof.
  intros Hn Hi. unfold node_index. apply elem_of_list_to_map_1.
  - replace (imap (fun position node => (uid node, position)) lst).*1 with (map uid lst); [now apply NoDup_ListNoDup |].
    clear. rewrite fmap_imap. apply list_eq. intros k. rewrite list_lookup_imap. change (map uid lst) with (uid <$> lst). rewrite list_lookup_fmap.
    now destruct (lst !! k).
  - apply elem_of_lookup_imap. now exists i, n.
Qed.

Lemma node_index_before lst l1 n l2 c : sources_first lst -> lst = l1 ++ n :: l2 -> In c (children n) ->
  exists i, node_index lst !! uid c = Some i /\ lst !! i = Some c /\ (i < List.length l1)%nat.
Proof.
  intros [Hn Hs] E Hc. pose proof (Hs l1 n l2 c E Hc) as Hin. apply list_elem_of_In, list_elem_of_lookup in Hin as [i Hi].
  pose proof (lookup_lt_Some l1 i c Hi) as L.
  assert (El : lst !! i = Some c) by (rewrite E; now rewrite lookup_app_l).
  exists i. split; [now apply node_index_spec |]. now split.
Qed.

(** ** Segments *)

Definition starts (segs : list (list nat)) : list nat :=
  map (fun i => List.length (concat (firstn i segs))) (seq 0 (S (List.length segs))).

Lemma starts_snoc segs s : starts (segs ++ [s]) = starts segs ++ [List.length (concat (segs ++ [s]))].
Proof.
  unfold starts. rewrite length_app. cbn [List.length]. rewrite Nat.add_1_r, (seq_S (S (List.length segs))), map_app. cbn [map Nat.add]. f_equal.
  - apply map_ext_in. intros i Hi%in_seq. rewrite firstn_app. replace (i - List.length segs)%nat with 0%nat by lia. now rewrite app_nil_r.
  - f_equal. f_equal. f_equal. rewrite firstn_all2; [reflexivity | rewrite length_app; cbn; lia].
Qed.

Lemma starts_nth segs i : (i <= List.length segs)%nat -> List.nth i (starts segs) 0%nat = List.length (concat (firstn i segs)).
Proof.
  intros L. unfold starts. apply nth_lookup_Some. change (map ?f ?l) with (f <$> l).
  rewrite list_lookup_fmap, (proj2 (lookup_seq 0 (S (List.length segs)) i i)) by lia. reflexivity.
Qed.

Lemma starts_length segs : List.length (starts segs) = S (List.length segs).
Proof. unfold starts. now rewrite length_map, length_seq. Qed.

Lemma segment (segs : list (list nat)) k : (k < List.length segs)%nat ->
  let start := List.length (concat (firstn k segs)) in
  firstn (List.length (concat (firstn (S k) segs)) - start)%nat (skipn start (concat segs)) = List.nth k segs [].
Proof.
  intros L. cbv zeta. assert (C : concat segs = concat (firstn k segs) ++ concat (skipn k segs)) by (rewrite <- concat_app, firstn_skipn; reflexivity).
  rewrite C, skipn_app, skipn_all, Nat.sub_diag. cbn [app skipn].
  assert (E : skipn k segs = List.nth k segs [] :: skipn (S k) segs).
  { clear - L. revert k L. induction segs as [| s segs IH]; intros k L; [cbn in L; lia |]. destruct k; [reflexivity |]. cbn in *. apply IH. lia. }
  assert (F : firstn (S k) segs = firstn k segs ++ [List.nth k segs []]).
  { clear - L. revert k L. induction segs as [| s segs IH]; intros k L; [cbn in L; lia |]. destruct k; [reflexivity |]. cbn in *. f_equal. apply IH. lia. }
  rewrite E, F. cbn [concat]. rewrite concat_app, length_app. cbn [concat]. rewrite app_nil_r, (Nat.add_comm _ (List.length (List.nth k segs []))), Nat.add_sub.
  rewrite drop_0, firstn_app, Nat.sub_diag, firstn_all. apply app_nil_r.
Qed.

(** What the tables hold after the first nodes: a segment of sources each. *)
Record tables_of (len : nat) (t : Tables) (segs : list (list nat)) : Prop := {
  to_head : List.length (t_head t) = List.length segs;
  to_start : t_start t = starts segs;
  to_src : t_src t = concat segs;
  to_sources k s : In s (List.nth k segs []) -> (s < k)%nat \/ (len <= s < len + List.length (t_lanes t))%nat
}.

Section Tables.
Context {L : LibM} (origin_path : Z -> string) (hash_order : list (TuplizeHead * nat) -> list (TuplizeHead * nat)).

Lemma push_lanes_spec len d values : forall t, exists ids,
  let t' := push_lanes len d values t in
  t_head t' = t_head t /\ t_start t' = t_start t /\ t_lanes t' = t_lanes t ++ ids /\
  t_src t' = t_src t ++ map (fun i => len + List.length (t_lanes t) + i)%nat (seq 0 (List.length ids)).
Proof.
  induction values as [| v values IH]; intros t; cbn [push_lanes].
  { exists []. rewrite !app_nil_r. now split_and!. }
  destruct (intern _ _) as [hid interned]. destruct (IH (mkTables interned (t_head t) (t_start t) (t_src t ++ [len + List.length (t_lanes t)]%nat) (t_lanes t ++ [hid]))) as (ids & H1 & H2 & H3 & H4).
  cbn [t_head t_start t_src t_lanes] in *. exists (hid :: ids). rewrite H1, H2, H3, H4, <- !app_assoc. split_and!; try reflexivity.
  f_equal. cbn [List.length seq map app]. rewrite Nat.add_0_r. f_equal. rewrite <- seq_shift, map_map. apply map_ext. intros i.
  rewrite length_app. cbn. lia.
Qed.

Lemma push_node_spec lst l1 n l2 t segs : sources_first lst -> lst = l1 ++ n :: l2 -> List.length segs = List.length l1 ->
  tables_of (List.length lst) t segs ->
  exists t' seg, push_node origin_path (List.length lst) (node_index lst) t n = Some t' /\ tables_of (List.length lst) t' (segs ++ [seg]).
Proof.
  intros Hs E Hl [T1 T2 T3 T4]. set (len := List.length lst) in *.
  assert (Done : forall u seg, List.length (t_head u) = S (List.length segs) -> t_start u = t_start t -> t_src u = t_src t ++ seg ->
    (exists ids, t_lanes u = t_lanes t ++ ids) ->
    (forall s, In s seg -> (s < List.length segs)%nat \/ (len <= s < len + List.length (t_lanes u))%nat) ->
    tables_of len (mkTables (t_interned u) (t_head u) (t_start u ++ [List.length (t_src u)]) (t_src u) (t_lanes u)) (segs ++ [seg])).
  { intros u seg U1 U2 U3 (ids & U4) U5. split; cbn [t_head t_start t_src t_lanes].
    - rewrite U1, length_app. cbn. lia.
    - rewrite U2, T2, U3, T3, starts_snoc, concat_app. cbn [concat]. now rewrite app_nil_r.
    - rewrite U3, T3, concat_app. cbn [concat]. now rewrite app_nil_r.
    - intros k s Hk. rewrite U4, length_app. destruct (Nat.lt_trichotomy k (List.length segs)) as [C | [-> | C]].
      + rewrite app_nth1 in Hk by exact C. destruct (T4 k s Hk) as [| []]; [now left | right; lia].
      + rewrite app_nth2, Nat.sub_diag in Hk by lia. cbn in Hk. rewrite U4, length_app in U5. exact (U5 s Hk).
      + rewrite app_nth2 in Hk by lia. destruct (k - List.length segs)%nat eqn:D; [lia |]. cbn in Hk. destruct n0; destruct Hk. }
  unfold push_node. destruct (uop_op n) as [] eqn:Op.
  all: try (destruct (intern _ _) as [hid interned];
    match goal with |- context [collect ?f ?l] => assert (C : exists ps, collect f l = Some ps /\ forall s, In s ps -> (s < List.length segs)%nat) end;
    [ rewrite <- Op; fold (children n); rewrite Hl;
      clear - Hs E; assert (Hsub : forall c, In c (children n) -> exists i, node_index lst !! uid c = Some i /\ (i < List.length l1)%nat)
        by (intros c Hc; destruct (node_index_before lst l1 n l2 c Hs E Hc) as (i & H1 & _ & H2); now exists i);
      induction (children n) as [| c l IH]; [now exists [] |]; cbn [collect];
      destruct (Hsub c (or_introl eq_refl)) as (i & -> & Li); destruct IH as (ps & -> & Hps); [intros c' Hc'; apply Hsub; now right |];
      exists (i :: ps); split; [reflexivity |]; intros s [<- | Hin]; [exact Li | now apply Hps]
    | destruct C as (ps & -> & Hps); eexists _, ps; split; [reflexivity |]; apply Done; cbn [t_head t_start t_src t_lanes];
      [rewrite length_app, T1; cbn; lia | reflexivity | reflexivity | exists []; now rewrite app_nil_r | intros s Hin; left; now apply Hps] ]).
  destruct (intern _ _) as [hid interned].
  match goal with |- context [push_lanes ?a ?b ?c ?d] => destruct (push_lanes_spec a b c d) as (ids & H1 & H2 & H3 & H4) end.
  cbn [t_head t_start t_src t_lanes] in *. eexists _, _. split; [reflexivity |]. apply Done; [rewrite H1, length_app, T1; cbn; lia | exact H2 | exact H4 | now exists ids |].
  intros s (i & <- & Hi%in_seq)%in_map_iff. right. rewrite H3, length_app. lia.
Qed.

Lemma push_nodes_spec lst l2 : forall l1 t segs, sources_first lst -> lst = l1 ++ l2 -> List.length segs = List.length l1 ->
  tables_of (List.length lst) t segs ->
  exists t' segs', push_nodes origin_path (List.length lst) (node_index lst) t l2 = Some t' /\ List.length segs' = List.length lst /\ tables_of (List.length lst) t' segs'.
Proof.
  induction l2 as [| n l2 IH]; intros l1 t segs Hs E Hl Ht; cbn [push_nodes].
  { exists t, segs. rewrite app_nil_r in E. subst l1. now split_and!. }
  destruct (push_node_spec lst l1 n l2 t segs Hs E Hl Ht) as (t1 & seg & -> & Ht1).
  apply (IH (l1 ++ [n]) t1 (segs ++ [seg])); [exact Hs | now rewrite <- app_assoc | rewrite !length_app, Hl; reflexivity | exact Ht1].
Qed.

(** Entries are ranked: a node above its position, a lane at the bottom. *)
Definition entry_rank (len k : nat) : nat := if (k <? len)%nat then S k else 0%nat.

Lemma compute_tuplize_ranked lst : sources_first lst ->
  exists ks, compute_tuplize origin_path hash_order lst (node_index lst) = Some ks /\
    (List.length lst <= List.length (head ks))%nat /\ ranked ks (entry_rank (List.length lst)).
Proof.
  intros Hs. destruct (push_nodes_spec lst lst [] (mkTables [] [] [0%nat] [] []) [] Hs eq_refl eq_refl) as (t & segs & E & Hl & [T1 T2 T3 T4]).
  { split; try reflexivity. intros [| k] s []. }
  unfold compute_tuplize. rewrite E. eexists. split; [reflexivity |]. cbn [head src_start src].
  rewrite length_map, length_app, T1, Hl. set (len := List.length lst) in *. split; [lia |].
  assert (K : forall k s, In s (sources (mkKeys (map (fun id => List.nth id (head_ranks hash_order (t_interned t)) 0%nat) (t_head t ++ t_lanes t))
      (t_start t ++ replicate (len + List.length (t_lanes t) + 1 - List.length (t_start t)) (List.length (t_src t))) (t_src t)) k) ->
      In s (List.nth k segs []) /\ (k < len)%nat).
  { intros k s. unfold sources. cbn [src_start src]. rewrite T2, T3, starts_length, Hl.
    assert (Pad : forall i, (len <= i)%nat ->
      List.nth i (starts segs ++ replicate (len + List.length (t_lanes t) + 1 - S len) (List.length (concat segs))) 0%nat =
      if (i <? len + List.length (t_lanes t) + 1)%nat then List.length (concat segs) else 0%nat).
    { intros i Li. destruct (Nat.eq_dec i len) as [-> |].
      - rewrite app_nth1 by (rewrite starts_length; lia). rewrite starts_nth by lia. rewrite <- Hl at 1. rewrite firstn_all.
        destruct (Nat.ltb_spec len (len + List.length (t_lanes t) + 1)); [reflexivity | lia].
      - rewrite app_nth2 by (rewrite starts_length; lia). rewrite starts_length.
        destruct (Nat.ltb_spec i (len + List.length (t_lanes t) + 1)).
        + apply nth_lookup_Some. apply lookup_replicate_2. lia.
        + apply nth_overflow. rewrite length_replicate. lia. }
    destruct (Nat.lt_ge_cases k len) as [Lk | Gk].
    - rewrite !app_nth1 by (rewrite starts_length; lia). rewrite !starts_nth by lia. rewrite segment by lia. auto.
    - rewrite !Pad by lia. destruct (Nat.ltb_spec k (len + List.length (t_lanes t) + 1)), (Nat.ltb_spec (S k) (len + List.length (t_lanes t) + 1)); [| | lia |];
        rewrite ?Nat.sub_diag; cbn [Nat.sub firstn]; intros []. }
  split.
  - intros k s Hk. destruct (K k s Hk) as [Hk' Lk]. cbn [head]. rewrite length_map, length_app, T1, Hl.
    unfold entry_rank. destruct (Nat.ltb_spec k len); [| lia]. destruct (T4 k s Hk') as [Ls | Ls].
    + destruct (Nat.ltb_spec s len); lia.
    + destruct (Nat.ltb_spec s len); lia.
  - intros k. cbn [head]. rewrite length_map, length_app, T1, Hl. unfold entry_rank. destruct (Nat.ltb_spec k len); lia.
Qed.
End Tables.
