(* ===== verification/LinearizeOrder.v ===== *)
(** * The ideal order

    The stable sort computes the one stable permutation of its order, whatever
    state its comparison keeps; so the ranks of the tuplize keys and the ideal
    order of the linearizer are numberings of the nodes by their keys. *)

From Stdlib Require Import Sorting.Sorted Sorting.Permutation.
From stdpp Require Import gmap.
From S2P Require Import Prelude F64 DType Cast ConstVal Ops Eval Payload UOp Traverse CachedProperty Properties RangeEval TuplizeKey Linearize LinearizeKeys LinearizeTables.
Import TuplizeKey.
Import Linearize.

(** ** Preorders *)

Lemma po_refl {A} (f : A -> A -> comparison) a : preorder f -> f a a = Eq.
Proof. intros [H _]. specialize (H a a). now destruct (f a a). Qed.

Lemma preorder_Z : preorder (TuplizeKey.cmp (A := Z)).
Proof.
  split; [exact Z.compare_antisym |]. intros a b c. unfold TuplizeKey.cmp, cmp_Z. split; [now intros ->%Z.compare_eq |].
  rewrite !Z.compare_lt_iff, Z.compare_gt_iff. lia.
Qed.

Lemma preorder_pair {A B} `{Cmp A} `{Cmp B} : preorder (TuplizeKey.cmp (A := A)) -> preorder (TuplizeKey.cmp (A := B)) -> preorder (TuplizeKey.cmp (A := A * B)).
Proof.
  intros [O1 T1] [O2 T2]. split.
  - intros [a b] [a' b']. unfold TuplizeKey.cmp, cmp_pair. cbn [fst snd]. now rewrite then_opp, <- O1, <- O2.
  - intros [a b] [a' b'] [a'' b'']. unfold TuplizeKey.cmp, cmp_pair. cbn [fst snd]. destruct (T1 a a' a'') as [He Hl]. destruct (T2 b b' b'') as [Ie Il].
    destruct (TuplizeKey.cmp a a') eqn:E; cbn [then_cmp]; [| | split; discriminate].
    + rewrite (He eq_refl). split; [intros Z; now rewrite (Ie Z) |]. intros Z Hn. destruct (TuplizeKey.cmp a' a''); cbn [then_cmp] in *; [now apply Il | reflexivity | congruence].
    + split; [discriminate |]. intros _ Hn. rewrite Hl; [reflexivity | reflexivity |]. now destruct (TuplizeKey.cmp a' a'').
Qed.

Lemma preorder_option {A} `{Cmp A} : preorder (TuplizeKey.cmp (A := A)) -> preorder (TuplizeKey.cmp (A := option A)).
Proof.
  intros [O T]. split; [intros [a |] [b |]; cbn; auto |]. intros [a |] [b |] [c |]; cbn; try (split; congruence). exact (T a b c).
Qed.

Lemma preorder_key : preorder (TuplizeKey.cmp (A := SortKey)).
Proof. repeat (apply preorder_pair || apply preorder_option || apply preorder_Z). Qed.

(** ** Stable sorting *)

(** Ascending, and elements of one key in ascending order of themselves. *)
Definition stably (f : nat -> nat -> comparison) (a b : nat) : Prop := f a b = Lt \/ f a b = Eq /\ (a < b)%nat.

Section Sort.
Context (f : nat -> nat -> comparison) (Hf : preorder f).
#[local] Set Default Proof Using "All".

Lemma insert_perm x l : Permutation (insert_pure f x l) (x :: l).
Proof using Type.
  induction l as [| y l IH]; cbn [insert_pure]; [reflexivity |]. destruct (f x y); try reflexivity.
  rewrite IH. apply perm_swap.
Qed.

Lemma sort_perm l : Permutation (sort_pure f l) l.
Proof using Type. induction l as [| x l IH]; [reflexivity |]. cbn [sort_pure fold_right]. rewrite insert_perm. now constructor. Qed.

Lemma insert_stable x l : StronglySorted (stably f) l -> (forall y, In y l -> (x < y)%nat) -> StronglySorted (stably f) (insert_pure f x l).
Proof.
  induction 1 as [| y l Hs IH Hy]; intros Hx; cbn [insert_pure]; [repeat constructor |].
  assert (Le : f x y <> Gt -> stably f x y) by (intros N; specialize (Hx y (or_introl eq_refl)); unfold stably; destruct (f x y); auto; congruence).
  assert (Front : f x y <> Gt -> StronglySorted (stably f) (x :: y :: l)).
  { intros N. constructor; [now constructor |]. rewrite List.Forall_forall in *. intros z [<- | Hz]; [now apply Le |].
    specialize (Hy z Hz). specialize (Hx z (or_intror Hz)). unfold stably. destruct (po_trans f Hf x y z) as [He Hl].
    destruct (f x y) eqn:E; [rewrite (He eq_refl); destruct Hy as [-> | [-> _]]; auto | left; apply Hl; [reflexivity | destruct Hy as [-> | [-> _]]; discriminate] | congruence]. }
  destruct (f x y) eqn:E; try (apply Front; discriminate).
  constructor; [apply IH; intros z Hz; apply Hx; now right |]. rewrite List.Forall_forall in *. intros z Hz.
  apply (Permutation_in _ (insert_perm x l)) in Hz as [<- | Hz]; [left; rewrite (po_opp f Hf), E; reflexivity | now apply Hy].
Qed.

Lemma sort_stable l : StronglySorted lt l -> StronglySorted (stably f) (sort_pure f l).
Proof.
  induction 1 as [| x l Hs IH Hx]; [constructor |]. cbn [sort_pure fold_right]. apply insert_stable; [exact IH |].
  intros y Hy. rewrite List.Forall_forall in Hx. apply Hx. now apply (Permutation_in _ (sort_perm l)).
Qed.

(** A comparison that keeps a state but answers [f]. *)
Context {M : Type} (compare : nat -> nat -> M -> option (comparison * M)) (ok : M -> Prop) (n : nat).
Context (Hc : forall a b m, (a < n)%nat -> (b < n)%nat -> ok m -> exists m', compare a b m = Some (f a b, m') /\ ok m').

Lemma insert_by_pure x l : forall m, (x < n)%nat -> (forall y, In y l -> (y < n)%nat) -> ok m ->
  exists m', insert_by compare x l m = Some (insert_pure f x l, m') /\ ok m'.
Proof using Hc.
  induction l as [| y l IH]; intros m Lx Hl Hm; cbn [insert_by insert_pure]; [now exists m |].
  destruct (Hc x y m Lx (Hl y (or_introl eq_refl)) Hm) as (m1 & -> & Hm1). destruct (f x y); try (now exists m1).
  destruct (IH m1 Lx (fun z Hz => Hl z (or_intror Hz)) Hm1) as (m2 & -> & Hm2). now exists m2.
Qed.

Lemma sort_by_pure l : forall m, (forall y, In y l -> (y < n)%nat) -> ok m ->
  exists m', sort_by compare l m = Some (sort_pure f l, m') /\ ok m'.
Proof using Hc.
  induction l as [| x l IH]; intros m Hl Hm; cbn [sort_by sort_pure fold_right]; [now exists m |].
  destruct (IH m (fun z Hz => Hl z (or_intror Hz)) Hm) as (m1 & -> & Hm1).
  apply insert_by_pure; [apply Hl; now left | | exact Hm1]. intros y Hy. apply Hl. right. now apply (Permutation_in _ (sort_perm l)).
Qed.
End Sort.

(** ** Numbering *)

Lemma seq_sorted n : forall k, StronglySorted lt (seq k n).
Proof.
  induction n as [| n IH]; intros k; cbn; constructor; [apply IH |]. rewrite List.Forall_forall. intros x Hx%in_seq. lia.
Qed.

(** Writing positions into a table. *)
Lemma write_positions order : forall k (acc : list nat), List.NoDup order -> (forall x, In x order -> (x < List.length acc)%nat) ->
  let r := fold_left (fun rank '(position, node) => <[node := position]> rank) (imap (fun i x => ((k + i)%nat, x)) order) acc in
  List.length r = List.length acc /\
  (forall i x, order !! i = Some x -> r !! x = Some (k + i)%nat) /\ (forall x, ~ In x order -> r !! x = acc !! x).
Proof.
  induction order as [| a order IH]; intros k acc Hn Hb; cbn [imap fold_left].
  { split; [reflexivity |]. split; [intros i x H; discriminate H | reflexivity]. }
  apply List.NoDup_cons_iff in Hn as [Ha Hn].
  replace (imap ((fun i x => ((k + i)%nat, x)) ∘ S) order) with (imap (fun i x => ((S k + i)%nat, x)) order)
    by (apply imap_ext; intros i x _; cbn; f_equal; lia).
  destruct (IH (S k) (<[a := (k + 0)%nat]> acc) Hn) as (E & H1 & H2).
  { intros x Hx. rewrite length_insert. apply Hb. now right. }
  rewrite length_insert in E. split; [exact E |]. split.
  - intros [| i] x H; cbn in H.
    + injection H as <-. rewrite H2 by exact Ha. rewrite list_lookup_insert_eq by (apply Hb; now left). reflexivity.
    + rewrite (H1 i x H). f_equal. lia.
  - intros x Hx. rewrite H2 by (intros H; apply Hx; now right). apply list_lookup_insert_ne. intros ->. apply Hx. now left.
Qed.

(** [pos] numbers [0..n] along [order]. *)
Lemma positions_spec n order : Permutation order (seq 0 n) ->
  List.length (positions n order) = n /\ forall i x, order !! i = Some x -> List.nth x (positions n order) 0%nat = i.
Proof.
  intros P. destruct (write_positions order 0 (replicate n 0%nat)) as (E & H & _).
  - apply (Permutation_NoDup (Permutation_sym P)), seq_NoDup.
  - intros x Hx%(Permutation_in _ P)%in_seq. rewrite length_replicate. lia.
  - rewrite length_replicate in E. split; [exact E |]. intros i x Hi. apply nth_lookup_Some. exact (H i x Hi).
Qed.

Lemma sorted_before {A} (R : A -> A -> Prop) l : StronglySorted R l -> forall i j a b, l !! i = Some a -> l !! j = Some b -> (i < j)%nat -> R a b.
Proof.
  induction 1 as [| x l Hs IH Hx]; intros i j a b Hi Hj L; [discriminate Hi |].
  destruct j as [| j]; [lia |]. cbn in Hj. destruct i as [| i]; cbn in Hi.
  - injection Hi as <-. rewrite List.Forall_forall in Hx. apply Hx. apply list_elem_of_In. eapply list_elem_of_lookup_2, Hj.
  - apply (IH i j a b Hi Hj). lia.
Qed.

(** A numbering along the stable sort: smaller numbers are smaller keys. *)
Lemma positions_sorted f n : preorder f -> let pos := positions n (sort_pure f (seq 0 n)) in
  List.length pos = n /\
  (forall a, (a < n)%nat -> (List.nth a pos 0 < n)%nat) /\
  (forall a b, (a < n)%nat -> (b < n)%nat -> List.nth a pos 0%nat = List.nth b pos 0%nat -> a = b) /\
  (forall a b, (a < n)%nat -> (b < n)%nat -> (List.nth a pos 0 < List.nth b pos 0)%nat <-> stably f a b).
Proof.
  intros Hf pos. assert (P : Permutation (sort_pure f (seq 0 n)) (seq 0 n)) by apply sort_perm.
  destruct (positions_spec n _ P) as [E H]. fold pos in E, H. split; [exact E |].
  assert (At : forall a, (a < n)%nat -> exists i, sort_pure f (seq 0 n) !! i = Some a /\ List.nth a pos 0%nat = i /\ (i < n)%nat).
  { intros a La. assert (Ha : In a (sort_pure f (seq 0 n))) by (apply (Permutation_in _ (Permutation_sym P)), in_seq; lia).
    apply list_elem_of_In, list_elem_of_lookup in Ha as [i Hi]. exists i. split; [exact Hi |]. split; [now apply H |].
    apply lookup_lt_Some in Hi. rewrite (Permutation_length P), length_seq in Hi. exact Hi. }
  assert (Inj : forall a b, (a < n)%nat -> (b < n)%nat -> List.nth a pos 0%nat = List.nth b pos 0%nat -> a = b).
  { intros a b La Lb Eab. destruct (At a La) as (i & Hi & Ei & _), (At b Lb) as (j & Hj & Ej & _). congruence. }
  assert (Sorted : forall a b, (a < n)%nat -> (b < n)%nat -> (List.nth a pos 0 < List.nth b pos 0)%nat -> stably f a b).
  { intros a b La Lb Lab. destruct (At a La) as (i & Hi & Ei & _), (At b Lb) as (j & Hj & Ej & _).
    apply (sorted_before _ _ (sort_stable f Hf _ (seq_sorted n 0)) i j); [exact Hi | exact Hj | lia]. }
  split; [intros a La; destruct (At a La) as (i & _ & -> & L); exact L |]. split; [exact Inj |]. intros a b La Lb. split; [now apply Sorted |].
  intros Hab. destruct (Nat.lt_trichotomy (List.nth a pos 0%nat) (List.nth b pos 0%nat)) as [C | [C | C]]; [exact C | |].
  - apply Inj in C; [| exact La | exact Lb]. subst b. unfold stably in Hab. rewrite (po_refl f a Hf) in Hab. destruct Hab as [? | [_ ?]]; [discriminate | lia].
  - apply Sorted in C; [| exact Lb | exact La]. unfold stably in *. rewrite (po_opp f Hf a b) in C. destruct Hab as [Hab | [Hab L1]]; rewrite Hab in C; cbn in C; destruct C as [? | [? L2]]; try discriminate. lia.
Qed.

(** ** The order of the nodes *)
Section Ideal.
Context {L : LibM} (origin_path : Z -> string) (hash_order : list (TuplizeHead * nat) -> list (TuplizeHead * nat)).

Lemma tuplize_ranks_spec lst : sources_first lst -> exists ks ranks,
  compute_tuplize origin_path hash_order lst (node_index lst) = Some ks /\ ranked ks (entry_rank (List.length lst)) /\
  tuplize_ranks origin_path hash_order lst (node_index lst) = Some ranks /\ List.length ranks = List.length lst /\
  (forall a b, (a < List.length lst)%nat -> (b < List.length lst)%nat -> List.nth a ranks 0%nat = List.nth b ranks 0%nat -> a = b) /\
  (forall a b, (a < List.length lst)%nat -> (b < List.length lst)%nat ->
     (List.nth a ranks 0 < List.nth b ranks 0)%nat <-> stably (key_cmp ks) a b).
Proof.
  intros Hs. destruct (compute_tuplize_ranked origin_path hash_order lst Hs) as (ks & E & Ln & Hr).
  destruct (tuplize_cmp_laws ks _ Hr) as [Hc Hp].
  destruct (sort_by_pure (key_cmp ks) (cmp ks) (truthful ks) (List.length (head ks))
              (fun a b m La Lb Hm => Hc a b m La Lb Hm) (seq 0 (List.length lst)) ∅) as (m & Es & _).
  - intros y Hy%in_seq. lia.
  - intros a b o H. now rewrite lookup_empty in H.
  - exists ks, (positions (List.length lst) (sort_pure (key_cmp ks) (seq 0 (List.length lst)))).
    split; [exact E |]. split; [exact Hr |]. split; [unfold tuplize_ranks; now rewrite E, Es |].
    destruct (positions_sorted (key_cmp ks) (List.length lst) Hp) as (H1 & _ & H3 & H4). now split_and!.
Qed.

(** What orders nodes before their tuplize keys. *)
Definition schedule_key (u : UOp) : option (Z * Z * option Z) :=
  let '(p, extra) := priority u in let? count := run_count u in Some (count, p, extra).

(** Node [a] comes before node [b] in the ideal order. *)
Definition ideally_before (ks : TuplizeKeys) (lst : list UOp) (a b : nat) : Prop :=
  exists u v k k', lst !! a = Some u /\ lst !! b = Some v /\ schedule_key u = Some k /\ schedule_key v = Some k' /\
    (TuplizeKey.cmp k k' = Lt \/ TuplizeKey.cmp k k' = Eq /\ stably (key_cmp ks) a b).

Lemma sort_keys_spec lst : forall ranks, List.length ranks = List.length lst -> (forall u, In u lst -> is_Some (run_count u)) ->
  exists keys, collect (fun '(u, rank) => sort_key u rank) (combine lst ranks) = Some keys /\
    forall a u d, lst !! a = Some u -> exists k, schedule_key u = Some k /\ List.nth a keys d = (k, Z.of_nat (List.nth a ranks 0%nat)).
Proof.
  induction lst as [| u lst IH]; intros [| rank ranks] Hl Hc; try discriminate Hl; cbn [combine collect].
  { exists []. split; [reflexivity |]. intros a u d H. discriminate H. }
  injection Hl as Hl. destruct (IH ranks Hl) as (keys & -> & H); [intros v Hv; apply Hc; now right |].
  unfold sort_key at 1. destruct (Hc u (or_introl eq_refl)) as [c E]. destruct (priority u) as [p extra] eqn:Ep. rewrite E.
  exists ((c, p, extra, Z.of_nat rank) :: keys). split; [reflexivity |]. intros [| a] v d Ha; cbn in Ha.
  - injection Ha as <-. exists (c, p, extra). unfold schedule_key. now rewrite Ep, E.
  - exact (H a v d Ha).
Qed.

Lemma ideal_order_spec lst : sources_first lst -> (forall u, In u lst -> is_Some (run_count u)) -> exists ks nkey,
  compute_tuplize origin_path hash_order lst (node_index lst) = Some ks /\ ranked ks (entry_rank (List.length lst)) /\
  ideal_order origin_path hash_order lst (node_index lst) = Some nkey /\
  (forall a b, (a < List.length lst)%nat -> (b < List.length lst)%nat -> List.nth a nkey 0%nat = List.nth b nkey 0%nat -> a = b) /\
  (forall a b, (a < List.length lst)%nat -> (b < List.length lst)%nat ->
     (List.nth a nkey 0 < List.nth b nkey 0)%nat <-> ideally_before ks lst a b).
Proof.
  intros Hs Hc. destruct (tuplize_ranks_spec lst Hs) as (ks & ranks & E1 & Hr & E2 & Hl & Inj & Hlt).
  destruct (sort_keys_spec lst ranks Hl Hc) as (keys & E3 & Hk). set (d := ((0, 0, None, 0) : SortKey)) in *.
  set (f := fun a b => TuplizeKey.cmp (List.nth a keys d) (List.nth b keys d)).
  assert (Hf : preorder f).
  { destruct preorder_key as [O T]. split; [intros a b; apply O | intros a b c; apply T]. }
  exists ks, (positions (List.length lst) (sort_pure f (seq 0 (List.length lst)))). split; [exact E1 |]. split; [exact Hr |].
  split; [unfold ideal_order; rewrite E2, E3; reflexivity |].
  destruct (positions_sorted f (List.length lst) Hf) as (_ & _ & H3 & H4). split; [exact H3 |].
  intros a b La Lb. rewrite H4 by assumption. destruct (lookup_lt_is_Some_2 lst a La) as [u Hu], (lookup_lt_is_Some_2 lst b Lb) as [v Hv].
  destruct (Hk a u d Hu) as (k & Ek & Nk), (Hk b v d Hv) as (k' & Ek' & Nk').
  assert (F : f a b = TuplizeKey.cmp k k' >>c Z.compare (Z.of_nat (List.nth a ranks 0%nat)) (Z.of_nat (List.nth b ranks 0%nat))) by (unfold f; rewrite Nk, Nk'; reflexivity).
  specialize (Hlt a b La Lb). unfold stably at 1. rewrite F. split.
  - intros H. exists u, v, k, k'. do 4 (split; [assumption |]). destruct (TuplizeKey.cmp k k') eqn:C; cbn [then_cmp] in H; [right; split; [reflexivity |] | now left | destruct H as [| []]; discriminate].
    destruct H as [H | [H%Z.compare_eq L1]]; [rewrite Z.compare_lt_iff in H; apply Hlt; lia | exfalso; apply Nat2Z.inj in H; pose proof (Inj a b La Lb H); lia].
  - intros (u' & v' & q & q' & Hu' & Hv' & Hq & Hq' & H). assert (q = k) as -> by congruence. assert (q' = k') as -> by congruence.
    destruct H as [-> | [-> H]]; [now left |]. left. cbn [then_cmp]. apply Z.compare_lt_iff. apply Hlt in H. lia.
Qed.
End Ideal.
