(* ===== verification/LinearizeSpec.v ===== *)
(** * What the linearizer returns

    The heap toposort keeps exactly the ready nodes in its heap: it returns
    every node once, sources before users, and takes at each step, from the
    end, the ready node that is last in the ideal order. *)

From Stdlib Require Import Sorting.Permutation.
From stdpp Require Import relations gmap.
From S2P Require Import Prelude F64 DType Cast ConstVal Ops Eval Payload UOp Traverse CachedProperty Properties RangeEval TuplizeKey Linearize.
From S2P Require Import LinearizeKeys LinearizeTables LinearizeOrder.
Import TuplizeKey.
Import Linearize.

(** ** Heaps *)

Definition entry_le (a b : nat * nat) : Prop := entry_leb a b = true.

Lemma entry_leb_spec a b : entry_le a b <-> (fst a < fst b)%nat \/ fst a = fst b /\ (snd a <= snd b)%nat.
Proof. unfold entry_le, entry_leb. rewrite orb_true_iff, andb_true_iff, Nat.ltb_lt, Nat.eqb_eq, Nat.leb_le. reflexivity. Qed.

Lemma entry_leb_total a b : entry_leb a b = false -> entry_le b a.
Proof. intros H. apply entry_leb_spec. apply not_true_iff_false in H. change (~ entry_le a b) in H. rewrite entry_leb_spec in H. lia. Qed.

Lemma pop_max_spec heap : forall best, let '(m, rest) := pop_max best heap in
  Permutation (best :: heap) (m :: rest) /\ forall e, In e (best :: heap) -> entry_le e m.
Proof.
  induction heap as [| e heap IH]; intros best; cbn [pop_max].
  { split; [reflexivity |]. intros e [<- | []]. apply entry_leb_spec. lia. }
  assert (Trans : forall a b c, entry_le a b -> entry_le b c -> entry_le a c) by (intros a b c; rewrite !entry_leb_spec; lia).
  destruct (entry_leb e best) eqn:C.
  - specialize (IH best). destruct (pop_max best heap) as [m rest]. destruct IH as [P Hm]. split.
    + rewrite perm_swap, P. apply perm_swap.
    + intros x [<- | [<- | Hx]]; [apply Hm; now left | apply (Trans e best m C), Hm; now left | apply Hm; now right].
  - specialize (IH e). destruct (pop_max e heap) as [m rest]. destruct IH as [P Hm]. split.
    + rewrite P. apply perm_swap.
    + intros x [<- | Hx]; [apply (Trans best e m (entry_leb_total e best C)), Hm; now left | now apply Hm].
Qed.

(** ** Counting uses *)

Abbreviation count := (count_occ Nat.eq_dec).

Lemma count_fold used : forall acc : list nat, (forall i, In i used -> (i < List.length acc)%nat) ->
  let r := fold_left (fun d i => <[i := S (List.nth i d 0%nat)]> d) used acc in
  List.length r = List.length acc /\ forall i, List.nth i r 0%nat = (List.nth i acc 0 + count used i)%nat.
Proof.
  induction used as [| a used IH]; intros acc H; cbn [fold_left count_occ].
  { split; [reflexivity |]. intros i. lia. }
  destruct (IH (<[a := S (List.nth a acc 0%nat)]> acc)) as [E Hi]; [intros i Hi; rewrite length_insert; apply H; now right |].
  rewrite length_insert in E. split; [exact E |]. intros i. rewrite Hi. destruct (Nat.eq_dec a i) as [-> | N].
  - rewrite (nth_lookup_Some _ i _ (S (List.nth i acc 0%nat))) by (apply list_lookup_insert_eq, H; now left). lia.
  - rewrite !nth_lookup, list_lookup_insert_ne by exact N. reflexivity.
Qed.

Lemma collect_app {A B} (f : A -> option B) l l' :
  collect f (l ++ l') = let? x := collect f l in let? y := collect f l' in Some (x ++ y).
Proof.
  induction l as [| a l IH]; cbn [app collect]; [now destruct (collect f l') |]. destruct (f a); [| reflexivity].
  rewrite IH. destruct (collect f l); [| reflexivity]. now destruct (collect f l').
Qed.

Section Heap.
Context (lst : list UOp) (Hs : sources_first lst).
#[local] Set Default Proof Using "All".
Abbreviation n := (List.length lst).
Abbreviation index := (node_index lst).

Definition edges (w : nat) : list nat :=
  match lst !! w with Some u => map (fun c => from_option id 0%nat (index !! uid c)) (children u) | None => [] end.

Lemma child_position w u c : lst !! w = Some u -> In c (children u) ->
  exists i, index !! uid c = Some i /\ lst !! i = Some c /\ (i < w)%nat /\ In i (edges w).
Proof.
  intros Hw Hc. pose proof (take_drop_middle lst w u Hw) as E.
  destruct (node_index_before lst (take w lst) u (drop (S w) lst) c Hs (eq_sym E) Hc) as (i & H1 & H2 & H3).
  exists i. split; [exact H1 |]. split; [exact H2 |]. split; [rewrite length_take in H3; lia |].
  unfold edges. rewrite Hw. apply in_map_iff. exists c. split; [now rewrite H1 | exact Hc].
Qed.

Lemma edges_source w i : In i (edges w) -> exists u c, lst !! w = Some u /\ In c (children u) /\ lst !! i = Some c /\ (i < w)%nat /\ (w < n)%nat.
Proof.
  unfold edges. destruct (lst !! w) as [u |] eqn:Hw; [| intros []]. intros (c & <- & Hc)%in_map_iff.
  destruct (child_position w u c Hw Hc) as (i & E & Hi & L & _). rewrite E. exists u, c. split_and!; auto. exact (lookup_lt_Some _ _ _ Hw).
Qed.

(** Uses of a node by nodes that are not in [vs]. *)
Definition pending (vs : list nat) : list nat := List.filter (fun w => negb (existsb (Nat.eqb w) vs)) (seq 0 n).
Definition uses (vs : list nat) (i : nat) : nat := count (concat (map edges (pending vs))) i.

Lemma pending_in vs w : In w (pending vs) <-> (w < n)%nat /\ ~ In w vs.
Proof.
  unfold pending. rewrite filter_In, in_seq, negb_true_iff, <- not_true_iff_false, existsb_exists. split.
  - intros [L H]. split; [lia |]. intros Hw. apply H. exists w. split; [exact Hw | apply Nat.eqb_refl].
  - intros [L H]. split; [lia |]. intros (x & Hx & ->%Nat.eqb_eq). contradiction.
Qed.

(** Nothing left uses the node. *)
Definition ready (vs : list nat) (i : nat) : Prop := forall w, (w < n)%nat -> In i (edges w) -> In w vs.

Lemma uses_zero vs i : uses vs i = 0%nat <-> ready vs i.
Proof.
  unfold uses. rewrite <- count_occ_not_In. split.
  - intros H w Lw Hi. destruct (in_dec Nat.eq_dec w vs) as [| Nw]; [assumption |]. exfalso. apply H, in_concat. exists (edges w).
    split; [apply in_map, pending_in; now split | exact Hi].
  - intros H (l & (w & <- & Hw)%in_map_iff & Hi)%in_concat. apply pending_in in Hw as [Lw Nw]. apply Nw, (H w Lw Hi).
Qed.

Lemma filter_count vs u l i : List.NoDup l -> In u l -> ~ In u vs ->
  (count (concat (map edges (List.filter (fun w => negb (existsb (Nat.eqb w) (vs ++ [u]))) l))) i + count (edges u) i)%nat
  = count (concat (map edges (List.filter (fun w => negb (existsb (Nat.eqb w) vs)) l))) i.
Proof using Type.
  intros Hn Hu Nu. assert (Same : forall l, ~ In u l -> List.filter (fun w => negb (existsb (Nat.eqb w) (vs ++ [u]))) l = List.filter (fun w => negb (existsb (Nat.eqb w) vs)) l).
  { clear. intros l H. apply filter_ext_in. intros w Hw. f_equal. rewrite existsb_app. cbn. destruct (Nat.eqb_spec w u) as [-> |]; [contradiction |]. now rewrite !orb_false_r. }
  assert (Nvs : existsb (Nat.eqb u) vs = false).
  { apply not_true_iff_false. rewrite existsb_exists. intros (x & Hx & ->%Nat.eqb_eq). contradiction. }
  induction l as [| w l IH]; [destruct Hu |]. apply List.NoDup_cons_iff in Hn as [Hw Hn]. cbn [List.filter].
  destruct (Nat.eq_dec w u) as [-> | N].
  - rewrite existsb_app, Nvs. cbn [existsb]. rewrite Nat.eqb_refl. cbn [orb negb map concat]. rewrite Same by exact Hw. rewrite count_occ_app. lia.
  - destruct Hu as [-> | Hu]; [contradiction |]. specialize (IH Hn Hu). rewrite existsb_app. cbn [existsb].
    destruct (Nat.eqb_spec w u); [contradiction |]. rewrite !orb_false_r. destruct (existsb (Nat.eqb w) vs); cbn [negb]; [exact IH |].
    cbn [map concat]. rewrite !count_occ_app. lia.
Qed.

Lemma uses_snoc vs u i : (u < n)%nat -> ~ In u vs -> (uses (vs ++ [u]) i + count (edges u) i)%nat = uses vs i.
Proof using Type. intros Lu Nu. apply filter_count; [apply seq_NoDup | apply in_seq; lia | exact Nu]. Qed.

(** ** Counting the uses, and releasing them *)

Lemma count_uses_spec : exists deg, count_uses lst index = Some deg /\ List.length deg = n /\ forall i, List.nth i deg 0%nat = uses [] i.
Proof.
  assert (C : forall k l, drop k lst = l -> collect (fun s => index !! uid s) (concat (map children l)) = Some (concat (map edges (seq k (List.length l))))).
  { intros k l. revert k. induction l as [| u l IH]; intros k E; [reflexivity |]. cbn [map concat List.length seq].
    assert (Hk : lst !! k = Some u) by (rewrite <- (Nat.add_0_r k), <- lookup_drop, E; reflexivity).
    assert (Ed : drop (S k) lst = l) by (rewrite <- Nat.add_1_r, <- drop_drop, E; reflexivity).
    rewrite collect_app. rewrite (IH (S k) Ed).
    replace (collect (fun s => index !! uid s) (children u)) with (Some (edges k)); [reflexivity |]. symmetry.
    unfold edges. rewrite Hk. assert (H : forall c, In c (children u) -> exists i, index !! uid c = Some i)
      by (intros c Hc; destruct (child_position k u c Hk Hc) as (i & Ei & _); now exists i).
    clear - H. induction (children u) as [| c cs IHc]; [reflexivity |]. cbn [collect map].
    destruct (H c (or_introl eq_refl)) as [i ->]. rewrite IHc by (intros c' Hc'; apply H; now right). reflexivity. }
  unfold count_uses. rewrite (C 0%nat lst eq_refl). eexists. split; [reflexivity |].
  destruct (count_fold (concat (map edges (seq 0 n))) (replicate n 0%nat)) as [E H].
  { intros i (l & (w & <- & _)%in_map_iff & Hi)%in_concat. destruct (edges_source w i Hi) as (_ & _ & _ & _ & _ & L1 & L2). rewrite length_replicate. lia. }
  rewrite length_replicate in E. split; [exact E |]. intros i. rewrite H. unfold uses, pending.
  replace (List.filter (fun w => negb (existsb (Nat.eqb w) [])) (seq 0 n)) with (seq 0 n)
    by (symmetry; apply forallb_filter_id, forallb_forall; reflexivity).
  rewrite nth_lookup. destruct (replicate n 0%nat !! i) eqn:R; [apply lookup_replicate in R as [-> _] |]; reflexivity.
Qed.

Context (nkey : list nat).

Definition entry (i : nat) : nat * nat := (List.nth i nkey 0%nat, i).

Lemma release_spec visited srcs : forall ps (deg : list nat) heap,
  Forall2 (fun c i => index !! uid c = Some i) srcs ps ->
  (forall i, In i ps -> (i < List.length deg)%nat /\ (count ps i <= List.nth i deg 0)%nat /\ List.nth i visited false = false) ->
  exists deg' new, release_sources nkey index visited srcs deg heap = Some (deg', map entry new ++ heap) /\
    List.length deg' = List.length deg /\ (forall i, List.nth i deg' 0%nat = (List.nth i deg 0 - count ps i)%nat) /\
    List.NoDup new /\ forall i, In i new <-> In i ps /\ List.nth i deg 0%nat = count ps i.
Proof.
  induction srcs as [| c srcs IH]; intros ps deg heap Hp Hi; inversion Hp as [| ? a ? ps' Hc Hp']; subst; cbn [release_sources].
  { exists deg, []. split; [reflexivity |]. split; [reflexivity |]. split; [intros i; cbn; lia |]. split; [constructor |]. intros i. cbn. tauto. }
  rewrite Hc. destruct (Hi a (or_introl eq_refl)) as (La & Ca & ->). rewrite count_occ_cons_eq in Ca by reflexivity.
  set (deg1 := <[a := pred (List.nth a deg 0%nat)]> deg).
  assert (At : forall i, List.nth i deg1 0%nat = if Nat.eq_dec a i then pred (List.nth a deg 0%nat) else List.nth i deg 0%nat).
  { intros i. unfold deg1. rewrite !nth_lookup. destruct (Nat.eq_dec a i) as [<- | N]; [now rewrite list_lookup_insert_eq | now rewrite list_lookup_insert_ne]. }
  cbn [negb]. rewrite andb_true_r. set (heap1 := if (pred (List.nth a deg 0%nat) =? 0)%nat then (List.nth a nkey 0%nat, a) :: heap else heap).
  destruct (IH ps' deg1 heap1 Hp') as (deg' & new & -> & E & Hd & Hn & Hnew).
  { intros i Hin. unfold deg1 at 1. rewrite length_insert. destruct (Hi i (or_intror Hin)) as (L1 & L2 & L3). split; [exact L1 |]. split; [| exact L3].
    rewrite At. cbn [count_occ] in L2. destruct (Nat.eq_dec a i) as [<- | N]; lia. }
  unfold deg1 in E. rewrite length_insert in E. exists deg', (new ++ if (pred (List.nth a deg 0%nat) =? 0)%nat then [a] else []).
  assert (Last : (pred (List.nth a deg 0%nat) =? 0)%nat = true -> ~ In a ps').
  { intros Z%Nat.eqb_eq Hin. apply (count_occ_In Nat.eq_dec) in Hin. lia. }
  split; [unfold heap1; rewrite map_app, <- app_assoc; now destruct (_ =? _)%nat |]. split; [exact E |].
  split; [intros i; rewrite Hd, At; cbn [count_occ]; destruct (Nat.eq_dec a i) as [<- | N]; lia |]. split.
  - destruct (_ =? _)%nat eqn:Z; [| now rewrite app_nil_r]. apply NoDup_snoc; [exact Hn |]. intros [Hin _]%Hnew. now apply Last.
  - intros i. rewrite in_app_iff, Hnew, At. cbn [In count_occ]. destruct (Nat.eq_dec a i) as [<- | N].
    + destruct (Nat.eqb_spec (pred (List.nth a deg 0%nat)) 0) as [Z | Z]; cbn [In].
      * assert (count ps' a = 0%nat) by (apply count_occ_not_In; now apply Last). split; [intros _; split; [now left | lia] | intros _; right; now left].
      * split; [intros [[H1 H2] | []]; split; [now left | lia] |]. intros [_ H2]. left. split; [| lia].
        apply (count_occ_In Nat.eq_dec). lia.
    + destruct (_ =? _)%nat; cbn [In]; intuition congruence.
Qed.

(** ** The invariant *)

Record inv (vs : list nat) (heap : list (nat * nat)) (visited : list bool) (deg : list nat) : Prop := {
  inv_nodup : List.NoDup vs;
  inv_bound i : In i vs -> (i < n)%nat;
  inv_visited : List.length visited = n /\ forall i, (i < n)%nat -> List.nth i visited false = true <-> In i vs;
  inv_deg : List.length deg = n /\ forall i, List.nth i deg 0%nat = uses vs i;
  inv_ready i : In i vs -> ready vs i;
  inv_heap : exists hs, heap = map entry hs /\ List.NoDup hs /\ forall i, In i hs <-> (i < n)%nat /\ ~ In i vs /\ ready vs i
}.

(** Each node was ready when it was taken, and greatest among the ready ones. *)
Definition greedy (vs : list nat) : Prop := forall v1 i v2, vs = v1 ++ i :: v2 ->
  ready v1 i /\ forall j, (j < n)%nat -> ~ In j v1 -> ready v1 j -> (List.nth j nkey 0 <= List.nth i nkey 0)%nat.

Lemma ready_snoc vs u i : ready vs i -> ready (vs ++ [u]) i.
Proof using Type. intros H w Lw Hw. apply in_app_iff. left. now apply H. Qed.

(** One iteration. *)
Lemma step vs heap visited deg : inv vs heap visited deg -> heap <> [] ->
  exists u node heap1 deg' heap', heap_pop heap = Some (entry node, heap1) /\ List.nth node visited false = false /\ lst !! node = Some u /\
    release_sources nkey index (<[node := true]> visited) (children u) deg heap1 = Some (deg', heap') /\
    inv (vs ++ [node]) heap' (<[node := true]> visited) deg' /\
    (greedy vs -> greedy (vs ++ [node])).
Proof.
  intros [I1 I2 [I3 I3'] [I4 I4'] I5 (hs & -> & Nh & Ih)] Ne.
  destruct (map entry hs) as [| e es] eqn:Eh; [congruence |]. cbn [heap_pop]. pose proof (pop_max_spec es e) as P.
  destruct (pop_max e es) as [m rest]. destruct P as [P Hm]. rewrite <- Eh in P, Hm.
  apply Permutation_sym, Permutation_map_inv in P as (hs1 & E1 & P). destruct hs1 as [| u hs1]; [discriminate E1 |]. cbn [map] in E1. injection E1 as -> ->.
  assert (Hu : In u hs) by (apply (Permutation_in _ (Permutation_sym P)); now left).
  destruct (proj1 (Ih u) Hu) as (Lu & Nu & Ru). destruct (lookup_lt_is_Some_2 lst u Lu) as [nd Hnd].
  assert (Nh1 : List.NoDup (u :: hs1)) by (apply (Permutation_NoDup P Nh)). apply List.NoDup_cons_iff in Nh1 as [Nu1 Nh1].
  assert (Fu : List.nth u visited false = false) by (apply not_true_iff_false; intros H; apply I3' in H; [contradiction | exact Lu]).
  assert (F2 : Forall2 (fun c i => index !! uid c = Some i) (children nd) (edges u)).
  { unfold edges. rewrite Hnd. assert (H : forall c, In c (children nd) -> exists i, index !! uid c = Some i)
      by (intros c Hc; destruct (child_position u nd c Hnd Hc) as (i & Ei & _); now exists i).
    clear - H. induction (children nd) as [| c cs IH]; constructor; [destruct (H c (or_introl eq_refl)) as [i ->]; reflexivity | apply IH; intros; apply H; now right]. }
  assert (Cnt : forall i, (uses (vs ++ [u]) i + count (edges u) i)%nat = uses vs i) by (intros i; now apply uses_snoc).
  destruct (release_spec (<[u := true]> visited) (children nd) (edges u) deg (map entry hs1) F2) as (deg' & new & Er & Ld & Hd & Nn & Hn).
  { intros i Hi. destruct (edges_source u i Hi) as (_ & _ & _ & _ & _ & L1 & L2). split; [lia |]. split; [rewrite I4', <- Cnt; lia |].
    rewrite nth_lookup, list_lookup_insert_ne, <- nth_lookup by lia. apply not_true_iff_false. intros H. apply I3' in H; [| lia].
    apply Nu. exact (I5 i H u Lu Hi). }
  exists nd, u, (map entry hs1), deg', (map entry new ++ map entry hs1). split; [reflexivity |]. split; [exact Fu |]. split; [exact Hnd |]. split; [exact Er |].
  split; [split | ].
  - now apply NoDup_snoc.
  - intros i [Hi | [<- | []]]%in_app_iff; [now apply I2 | exact Lu].
  - rewrite length_insert. split; [exact I3 |]. intros i Li. rewrite nth_lookup, in_app_iff. cbn [In]. destruct (Nat.eq_dec u i) as [<- | N].
    + rewrite list_lookup_insert_eq by lia. cbn. tauto.
    + rewrite list_lookup_insert_ne, <- nth_lookup by exact N. rewrite I3' by exact Li. intuition.
  - split; [lia |]. intros i. rewrite Hd, I4', <- Cnt. lia.
  - intros i [Hi | [<- | []]]%in_app_iff; apply ready_snoc; [now apply I5 | exact Ru].
  - exists (new ++ hs1). split; [now rewrite map_app |].
    assert (New : forall i, In i new -> uses (vs ++ [u]) i = 0%nat /\ (0 < uses vs i)%nat /\ (i < u)%nat).
    { intros i [Hi Hc]%Hn. rewrite I4' in Hc. pose proof (Cnt i). apply (count_occ_In Nat.eq_dec) in Hi as Hpos.
      destruct (edges_source u i Hi) as (_ & _ & _ & _ & _ & L1 & _). split_and!; lia. }
    assert (Old : forall i, In i hs1 -> In i hs) by (intros i Hi; apply (Permutation_in _ (Permutation_sym P)); now right).
    split.
    + apply List.NoDup_app; [exact Nn | exact Nh1 |]. intros i Hi Hi'. destruct (New i Hi) as (_ & Pos & _). apply Old, Ih in Hi' as (_ & _ & R).
      apply uses_zero in R. lia.
    + intros i. rewrite in_app_iff. cbn [In]. split.
      * intros [Hi | Hi].
        -- destruct (New i Hi) as (Z & Pos & Lt). split; [lia |]. split; [| now apply uses_zero]. intros [Hin | [<- | []]]%in_app_iff; [| lia].
           apply I5, uses_zero in Hin. lia.
        -- apply Old in Hi as Hi'. apply Ih in Hi' as (L1 & N1 & R1). split; [exact L1 |]. split; [| now apply ready_snoc].
           intros [Hin | [<- | []]]%in_app_iff; contradiction.
      * intros (L1 & N1 & R1). destruct (in_dec Nat.eq_dec i (edges u)) as [Hi | Hi].
        -- left. apply Hn. split; [exact Hi |]. rewrite I4', <- Cnt. apply uses_zero in R1. lia.
        -- right. assert (Hin : In i hs). { apply Ih. split; [exact L1 |]. split; [intros H; apply N1, in_app_iff; now left |].
             apply uses_zero. apply uses_zero in R1. rewrite <- Cnt, R1. now rewrite (proj1 (count_occ_not_In Nat.eq_dec _ _) Hi). }
           apply (Permutation_in _ P) in Hin as [<- | Hin]; [exfalso; apply N1, in_app_iff; right; now left | exact Hin].
  - intros G v1 i v2 E. destruct v2 as [| x v2] using rev_ind; [| clear IHv2].
    + apply app_inj_tail in E as [<- <-]. split; [exact Ru |]. intros j Lj Nj Rj. assert (Hj : In (entry j) (map entry hs)) by (apply in_map, Ih; now split_and!).
      apply Hm in Hj. rewrite entry_leb_spec in Hj. cbn [fst snd entry] in Hj. lia.
    + rewrite app_comm_cons, app_assoc in E. apply app_inj_tail in E as [E _]. exact (G v1 i v2 E).
Qed.

(** The heap is empty only when every node is taken. *)
Lemma all_taken vs visited deg : inv vs [] visited deg -> forall i, (i < n)%nat -> In i vs.
Proof.
  intros [_ _ _ _ _ (hs & Eh & _ & Ih)]. destruct hs; [| discriminate Eh].
  assert (H : forall d i, (n - i <= d)%nat -> (i < n)%nat -> In i vs).
  { induction d as [| d IH]; intros i Ld Li; [lia |]. destruct (in_dec Nat.eq_dec i vs) as [| N]; [assumption |]. exfalso.
    apply (Ih i). split; [exact Li |]. split; [exact N |]. intros w Lw Hw. destruct (edges_source w i Hw) as (_ & _ & _ & _ & _ & L & _). apply IH; lia. }
  intros i Li. exact (H n i ltac:(lia) Li).
Qed.

Lemma loop_spec fuel : forall vs heap visited deg newlst, inv vs heap visited deg -> greedy vs ->
  Forall2 (fun i u => lst !! i = Some u) vs newlst -> (n - List.length vs < fuel)%nat ->
  exists vs' out, heap_loop lst index nkey fuel heap visited deg newlst = Some out /\ greedy vs' /\ Forall2 (fun i u => lst !! i = Some u) vs' out /\
    List.NoDup vs' /\ forall i, In i vs' <-> (i < n)%nat.
Proof.
  induction fuel as [| fuel IH]; intros vs heap visited deg newlst Hi G F L; [lia |]. cbn [heap_loop].
  destruct (decide (heap = [])) as [-> | Ne].
  - exists vs, newlst. cbn [heap_pop]. split; [reflexivity |]. split; [exact G |]. split; [exact F |]. split; [apply Hi |].
    intros i. split; [apply Hi | now apply (all_taken vs visited deg)].
  - destruct (step vs heap visited deg Hi Ne) as (u & node & heap1 & deg' & heap' & -> & Fv & Hu & Er & Hi' & G'). unfold entry at 1. cbv iota beta. rewrite Fv, Hu, Er.
    apply (IH (vs ++ [node])); [exact Hi' | now apply G' | now apply Forall2_app; [| constructor; [| constructor]] |].
    assert (List.length (vs ++ [node]) <= n)%nat.
    { rewrite <- (length_seq n 0). apply NoDup_incl_length; [apply Hi' |]. intros i Hin. apply in_seq. pose proof (inv_bound _ _ _ _ Hi' i Hin). lia. }
    rewrite length_app in *. cbn [List.length] in *. lia.
Qed.
End Heap.

(** ** From the sink *)
Section Linear.
Context {L : LibM} (origin_path : Z -> string) (hash_order : list (TuplizeHead * nat) -> list (TuplizeHead * nat)).

Lemma occurs_position lst u v : sources_first lst -> occurs u v -> forall a, lst !! a = Some u -> exists b, (b <= a)%nat /\ lst !! b = Some v.
Proof.
  intros Hs. induction 1 as [u | u c v Hc _ IH]; intros a Ha; [now exists a |].
  destruct (child_position lst Hs a u c Ha Hc) as (i & _ & Hi & Li & _). destruct (IH i Hi) as (b & Lb & Hb). exists b. split; [lia | exact Hb].
Qed.

Lemma position_unique lst i j u : sources_first lst -> lst !! i = Some u -> lst !! j = Some u -> i = j.
Proof.
  intros [Hn _] Hi Hj. apply (node_index_spec lst _ _ Hn) in Hi, Hj. congruence.
Qed.

(** Only the sink has no user. *)
Lemma ready_first sink root i : interned sink -> toposort sink !! root = Some sink ->
  ((i < List.length (toposort sink))%nat /\ ready (toposort sink) [] i <-> i = root).
Proof.
  intros Hi Hr. pose proof (toposort_sources_first sink Hi) as Hs. pose proof (toposort_topological sink Hi) as T.
  assert (In_occurs : forall v, In v (toposort sink) <-> occurs sink v).
  { intros v. rewrite (topo_nodes _ _ _ _ T), gated_all. tauto. }
  split.
  - intros [Li R]. destruct (lookup_lt_is_Some_2 (toposort sink) i Li) as [v Hv].
    assert (Ov : occurs sink v) by (apply In_occurs, list_elem_of_In; now apply (list_elem_of_lookup_2 _ i)).
    apply rtc_inv_r in Ov as [<- | (w & Ow & Hw)]; [now apply (position_unique (toposort sink) i root sink) |]. exfalso.
    apply In_occurs, list_elem_of_In, list_elem_of_lookup in Ow as [j Hj].
    destruct (child_position _ Hs j w v Hj Hw) as (k & _ & Hk & _ & He). rewrite (position_unique _ k i v Hs Hk Hv) in He.
    exact (R j (lookup_lt_Some _ _ _ Hj) He).
  - intros ->. split; [exact (lookup_lt_Some _ _ _ Hr) |]. intros w Lw (u & c & Hu & Hc & Hc' & Lt & _)%(edges_source _ Hs). exfalso.
    assert (Ou : occurs sink u) by (apply In_occurs, list_elem_of_In; now apply (list_elem_of_lookup_2 _ w)).
    destruct (occurs_position _ _ _ Hs Ou root Hr) as (b & Lb & Hb). pose proof (position_unique _ b w u Hs Hb Hu). lia.
Qed.

Lemma first_inv sink root nkey deg : interned sink -> toposort sink !! root = Some sink -> let n := List.length (toposort sink) in
  List.length deg = n -> (forall i, List.nth i deg 0%nat = uses (toposort sink) [] i) ->
  inv (toposort sink) nkey [] [(List.nth root nkey 0%nat, root)] (replicate n false) deg.
Proof.
  intros Hi Hr n Ld Hd. pose proof (toposort_sources_first sink Hi) as Hs. split.
  - constructor.
  - intros i [].
  - split; [now rewrite length_replicate |]. intros i Hin. rewrite nth_lookup, lookup_replicate_2 by exact Hin. cbn. split; [discriminate | intros []].
  - now split.
  - intros i [].
  - exists [root]. split; [reflexivity |]. split; [repeat constructor; intros [] |]. intros i. pose proof (ready_first sink root i Hi Hr) as R.
    cbn [In]. split; [intros [<- | []]; destruct (proj2 R eq_refl); now split_and! |].
    intros (Li & _ & Ri). left. symmetry. apply R. now split.
Qed.

(** The nodes taken, as positions. *)
Lemma linearize_run sink : interned sink -> (forall u, occurs sink u -> is_Some (run_count u)) ->
  let lst := toposort sink in let n := List.length lst in exists ks nkey vs newlst,
  compute_tuplize origin_path hash_order lst (node_index lst) = Some ks /\
  (forall a b, (a < n)%nat -> (b < n)%nat -> List.nth a nkey 0%nat = List.nth b nkey 0%nat -> a = b) /\
  (forall a b, (a < n)%nat -> (b < n)%nat -> (List.nth a nkey 0 < List.nth b nkey 0)%nat <-> ideally_before ks lst a b) /\
  linearize origin_path hash_order sink = Some (rev newlst) /\ greedy lst nkey vs /\
  Forall2 (fun i u => lst !! i = Some u) vs newlst /\ List.NoDup vs /\ forall i, In i vs <-> (i < n)%nat.
Proof.
  intros Hi Hc lst n. pose proof (toposort_sources_first sink Hi) as Hs. pose proof (toposort_topological sink Hi) as T.
  assert (In_occurs : forall v, In v lst <-> occurs sink v) by (intros v; unfold lst; rewrite (topo_nodes _ _ _ _ T), gated_all; tauto).
  destruct (ideal_order_spec origin_path hash_order lst Hs) as (ks & nkey & E1 & _ & E2 & Inj & Hb); [intros u Hu; now apply Hc, In_occurs |].
  destruct (count_uses_spec lst Hs) as (deg & E3 & Ld & Hd).
  assert (Hin : In sink lst) by (apply In_occurs; constructor). apply list_elem_of_In, list_elem_of_lookup in Hin as [root Hroot].
  pose proof (node_index_spec lst root sink (sf_nodup _ Hs) Hroot) as E4.
  destruct (loop_spec lst Hs nkey (S n) [] _ _ deg [] (first_inv sink root nkey deg Hi Hroot Ld Hd)) as (vs & out & E5 & G & F & Nv & Iv).
  - intros [| ? ?] ? ? [=].
  - constructor.
  - cbn. lia.
  - exists ks, nkey, vs, out. split; [exact E1 |]. split; [exact Inj |]. split; [exact Hb |]. split; [| now split_and!].
    assert (Ne : lst <> []) by (intros N; rewrite N in Hroot; discriminate). unfold linearize. fold lst. rewrite E3, E2, E4. fold n. fold lst n in E5. rewrite E5.
    destruct lst; [contradiction | reflexivity].
Qed.

(** Where a node of the output was taken. *)
Lemma Forall2_split {A B} (R : A -> B -> Prop) vs m1 u m2 : Forall2 R vs (m1 ++ u :: m2) ->
  exists v1 i v2, vs = v1 ++ i :: v2 /\ Forall2 R v1 m1 /\ R i u /\ Forall2 R v2 m2.
Proof.
  intros (v1 & v & F1 & F2 & ->)%Forall2_app_inv_r. apply Forall2_cons_inv_r in F2 as (i & v2 & Hr & F2 & ->). now exists v1, i, v2.
Qed.

Lemma taken_in lst vs out i u : sources_first lst -> Forall2 (fun i u => lst !! i = Some u) vs out -> lst !! i = Some u -> In i vs <-> In u out.
Proof.
  intros Hs F Hu. induction F as [| j v vs out Hv F IH]; [reflexivity |]. cbn [In]. rewrite IH. split; intros [E | H]; try (now right); left; subst.
  - congruence.
  - now apply (position_unique lst j i u).
Qed.

(** C1: *)
Theorem linearize_correct sink : interned sink -> (forall u, occurs sink u -> is_Some (run_count u)) ->
  exists out, linearize origin_path hash_order sink = Some out /\
    topological children (fun _ => true) sink out /\ (exists rest, out = rest ++ [sink]).
Proof.
  intros Hi Hc. destruct (linearize_run sink Hi Hc) as (ks & nkey & vs & new & _ & _ & _ & E & G & F & Nv & Iv).
  pose proof (toposort_sources_first sink Hi) as Hs. pose proof (toposort_topological sink Hi) as T.
  set (lst := toposort sink) in *. exists (rev new). split; [exact E |].
  assert (Same : forall u, In u new <-> In u lst).
  { intros u. split.
    - intros Hu. apply in_split in Hu as (m1 & m2 & ->). apply Forall2_split in F as (v1 & i & v2 & _ & _ & H & _).
      apply list_elem_of_In. exact (list_elem_of_lookup_2 _ _ _ H).
    - intros Hu. apply list_elem_of_In, list_elem_of_lookup in Hu as [i Hu]. apply (taken_in lst vs new i u Hs F Hu), Iv. exact (lookup_lt_Some _ _ _ Hu). }
  split; [split |].
  - rewrite map_rev. apply List.NoDup_rev. clear - F Nv Hs. induction F as [| i u vs new Hu F IH]; cbn [map]; [constructor |].
    apply List.NoDup_cons_iff in Nv as [Ni Nv]. constructor; [| now apply IH]. intros (v & Ev & Hv)%in_map_iff. apply Ni.
    apply in_split in Hv as (m1 & m2 & ->). apply Forall2_split in F as (v1 & j & v2 & -> & _ & H & _).
    replace i with j; [apply in_app_iff; right; now left |]. apply (node_index_spec lst _ _ (sf_nodup _ Hs)) in Hu, H. congruence.
  - intros v. rewrite <- in_rev, Same. apply T.
  - intros l1 u l2 c El Hu _. rewrite in_rev. assert (En : new = rev l2 ++ u :: rev l1) by (rewrite <- (rev_involutive new), El, rev_app_distr; cbn; now rewrite <- app_assoc).
    rewrite En in F. apply Forall2_split in F as (v1 & i & v2 & -> & F1 & Hi' & F2).
    destruct (child_position lst Hs i u c Hi' Hu) as (k & _ & Hk & Lk & He). apply (taken_in lst v2 (rev l1) k c Hs F2 Hk).
    assert (Hin : In k (v1 ++ i :: v2)) by (apply Iv; exact (lookup_lt_Some _ _ _ Hk)).
    apply in_app_iff in Hin as [Hin | [<- | Hin]]; [| lia | exact Hin]. exfalso.
    apply in_split in Hin as (w1 & w2 & ->). rewrite <- app_assoc in G, Nv. destruct (G w1 k (w2 ++ i :: v2) eq_refl) as [R _].
    apply (R i (lookup_lt_Some _ _ _ Hi')) in He. apply List.NoDup_app_remove_l in Nv as N. clear N.
    apply in_split in He as (x1 & x2 & ->). rewrite <- app_assoc in Nv. cbn in Nv. apply List.NoDup_remove_2 in Nv. apply Nv.
    rewrite !in_app_iff. right. cbn [In]. rewrite !in_app_iff. cbn [In]. tauto.
  - assert (Hin : In sink new) by (apply Same, (topo_nodes _ _ _ _ T); split; [reflexivity | constructor]).
    destruct F as [| h u vs new Hu F]; [destruct Hin |]. exists (rev new). cbn [rev]. f_equal. f_equal.
    destruct (G [] h vs eq_refl) as [R _].
    assert (Hl : In sink lst) by now apply Same. apply list_elem_of_In, list_elem_of_lookup in Hl as [root Hr].
    assert (h = root) as -> by (apply (ready_first sink root h Hi Hr); split; [exact (lookup_lt_Some _ _ _ Hu) | exact R]). congruence.
Qed.

(** C1: *)
Theorem linearize_greedy sink : interned sink -> (forall u, occurs sink u -> is_Some (run_count u)) ->
  exists ks out, compute_tuplize origin_path hash_order (toposort sink) (node_index (toposort sink)) = Some ks /\
    linearize origin_path hash_order sink = Some out /\
    forall l1 u l2 v, out = l1 ++ u :: l2 -> In v l1 -> (forall w, In w out -> source w v -> In w l2) ->
      exists a b, toposort sink !! a = Some v /\ toposort sink !! b = Some u /\ ideally_before ks (toposort sink) a b.
Proof.
  intros Hi Hc. destruct (linearize_run sink Hi Hc) as (ks & nkey & vs & new & Ek & Inj & Hb & E & G & F & Nv & Iv).
  pose proof (toposort_sources_first sink Hi) as Hs. set (lst := toposort sink) in *. exists ks, (rev new). split; [exact Ek |]. split; [exact E |].
  intros l1 u l2 v El Hv Hw. assert (En : new = rev l2 ++ u :: rev l1) by (rewrite <- (rev_involutive new), El, rev_app_distr; cbn; now rewrite <- app_assoc).
  rewrite En in F. apply Forall2_split in F as F'. destruct F' as (v1 & i & v2 & -> & F1 & Hu & F2).
  rewrite in_rev in Hv. apply in_split in Hv as (m1 & m2 & Em). rewrite Em in F2. apply Forall2_split in F2 as F2'. destruct F2' as (x1 & j & x2 & -> & _ & Hj & _).
  pose proof (lookup_lt_Some _ _ _ Hu) as Li. pose proof (lookup_lt_Some _ _ _ Hj) as Lj.
  exists j, i. split; [exact Hj |]. split; [exact Hu |].
  apply Hb; [exact Lj | exact Li |]. destruct (G v1 i (x1 ++ j :: x2) eq_refl) as [_ Hg]. assert (N : j <> i /\ ~ In j v1).
  { apply NoDup_ListNoDup, NoDup_app in Nv as (_ & D & N). split.
    - intros ->. apply NoDup_cons in N as [N _]. apply N, list_elem_of_In, in_app_iff. right. now left.
    - intros H. apply (D j); [now apply list_elem_of_In |]. apply list_elem_of_In. right. apply in_app_iff. right. now left. }
  assert (List.nth j nkey 0 <= List.nth i nkey 0)%nat; [| assert (List.nth j nkey 0%nat <> List.nth i nkey 0%nat) by (intros Eq; apply (proj1 N), (Inj j i Lj Li Eq)); lia].
  apply Hg; [exact Lj | apply N |]. intros w Lw (uw & c & Hwu & Hcc & Hcj & _)%(edges_source lst Hs).
  assert (c = v) as -> by congruence. apply (taken_in lst v1 (rev l2) w uw Hs F1 Hwu). rewrite <- in_rev. apply Hw; [| exact Hcc].
  rewrite <- in_rev, En. apply (taken_in lst _ _ w uw Hs F Hwu), Iv. exact Lw.
Qed.
End Linear.
